(* ===== verification/_CoqProject ===== *)
-Q . S2P
Prelude.v
StateMachine.v
Store.v
Replay.v
Jobs.v
Config.v
Leadership.v
Nodes.v
Scheduler.v
Lifecycle.v
SchedLogic.v
Frames.v
Coherence.v
Reachable.v
Dispatch.v
Admission.v
Totality.v
Recovery.v
Durable.v
Graph.v
Compiler.v
Toposort.v
Compiled.v
MemState.v
GraphExec.v
Policy.v
Breaker.v
Limits.v
Hitl.v
Etcd.v
Coordination.v
Election.v
Registry.v
Actor.v
Agents.v
AgentTree.v
AgentStages.v
Orchestration.v
Parallel.v
Templates.v
AgentExec.v
Routing.v
LoadBalancer.v
Artifacts.v
StateBackends.v
Checkpoints.v
Events.v
Sessions.v
Invocation.v
Streaming.v
Streams.v
AsyncRuntime.v
Iterators.v
AdkFeatures.v
Plugins.v
LlmFlow.v
Processors.v
LiveSessions.v
SessionService.v
MemoryService.v
AdkMemory.v
Scenarios.v
Witnesses.v
Runs.v
RunWitnesses.v
Platform.v
PlatformWitnesses.v
RuntimeRuns.v
