(* ===== verification/Prelude.v ===== *)
(** * A verification of Dagens

    Dagens runs agent jobs on a cluster.  A job is a list of stages, a stage a
    list of tasks.  A control-plane process, the scheduler
    (src/pkg/scheduler), admits jobs to a bounded queue, records every lifecycle
    change of jobs and tasks in a durable transition store, selects workers,
    claims each task durably, and sends it to a worker under the authority its
    leadership provider grants; workers check that authority against etcd
    (src/pkg/remote/dispatch_authority.go).  A process that starts replays the
    store; followers and leaders reconcile their memory with it from time to
    time.

    Jobs are written as workflow graphs (src/pkg/graph), which are compiled to
    stages of tasks for the scheduler or executed in place, node by node, over a
    shared state; a policy node filters what agents say (src/pkg/policy), and a
    human node pauses the graph until a person has answered (src/pkg/hitl).
    Calls to services go through circuit breakers, rate limits and retries
    (src/pkg/resilience).

    Around them stands the platform agents are built on: leader election,
    semaphores and barriers over etcd (src/pkg/coordination), which give the
    scheduler its leadership provider; a registry of nodes (src/pkg/registry), the
    workers the scheduler selects from; an actor system with supervisors
    (src/pkg/actor); hierarchies of agents (src/pkg/agent) and agents that run
    others in sequence, in a loop, in parallel or by map and reduce, or choose
    among others by routes or by load (src/pkg/agents); state
    backends (src/pkg/state), conversations (src/pkg/sessions) and events
    (src/pkg/events).  Agents that talk to models run in a runtime of their own
    (src/pkg/runtime): an invocation context holds their state until it is
    committed to a session, runtimes hand their events to the caller while they
    work, and a flow passes requests through processors, plugins and callbacks to a
    model and executes the tools it asks for; sessions, artifacts and memories are
    kept by services with caches (src/pkg/runtime/services).  This library
    models these parts as executable functions and proves what makes them correct.

    ** Files

    - [Prelude]: this file; tactics, hint databases, the state and state-panic
      monads, Go values and errors, string functions, lemmas on lists, maps and
      strings.
    - [StateMachine]: state_machine.go.  States, transition tables, record
      validation; the lifecycle graphs as inductive relations ([JobEdge],
      [TaskEdge]).
    - [Store]: the interface [TransitionStoreI] (a class with the optional
      extensions of the Go interface as optional fields) and its in-memory
      implementation [MemStore]: transition_store_memory.go.
    - [Replay]: replay.go, with the specification [history_ok] of the histories
      that replay.
    - [Jobs]: types.go, the clones, error classification and the rebuilding of
      runtime jobs from replayed state (recovery.go).
    - [Config]: config.go.
    - [Leadership]: leadership.go and dispatch_authority.go.
    - [Nodes]: affinity.go and the capacity, cooldown and selection functions of
      scheduler.go.
    - [Scheduler]: scheduler.go from admission to the dispatch loop, resuming
      and reconciling.  [Lifecycle]: construction, start, recovery
      (recovery.go), retention, stop.
    - [SchedLogic], [Frames]: the logic of scheduler methods ([keeps]) and what
      each leaves alone, by classes ([JobFrame], [RecordFrame], [ExecFrame])
      that lift a relation from the primitive writes to whole methods.
    - [Coherence], [Reachable]: memory and log agree; the step relation of a
      scheduler process and its invariant.
    - [Dispatch], [Admission], [Totality], [Recovery], [Durable]: theorems about
      executing, admitting, freedom from panics, recovering and submitting.
    - [Graph]: graph.go, node.go, edge.go: nodes, edges, graphs, validation.
      [Compiler]: compiler.go.  [Toposort]: its levels.  [Compiled]: what a
      compiled job is, and that the scheduler's theorems apply to it.
    - [MemState]: state.go: Go values over a heap, deep copies, the state, its
      snapshots, clones and history.
    - [GraphExec]: the traversal, pauses and resumption of graph.go and pause.go,
      loop and conditional nodes.
    - [Policy]: the rule engine, the evaluators and policy_node.go.
    - [Breaker]: circuit_breaker.go.  [Limits]: the sliding window and the limits
      per key of rate_limiter.go, the retry loop of backoff.go.
    - [Hitl]: callback handler, queue, checkpoints, resumption worker and human
      node of pkg/hitl.
    - [Etcd]: the client of etcd the sources use, as a class of operations
      ([Etcd]) with laws ([EtcdLaws]) and an instance ([EtcdMap]); key lemmas.
    - [Coordination]: semaphore.go and barrier.go.  [Election]:
      leader_election.go and leadership_etcd.go, joined to the worker's check of
      [Leadership].  [Registry]: distributed_registry.go.
    - [Actor]: actor.go, system.go, supervisor.go, message.go.
    - [Agents]: the hierarchy, dependencies and stages of agent.go; [AgentTree],
      [AgentStages]: their theorems.
    - [Orchestration]: sequential_agent.go and loop_agent.go.  [Parallel]:
      parallel_agent.go and mapreduce_agent.go.
    - [Templates]: template.go.  [AgentExec]: [BaseAgent.Execute] of agent.go with
      callbacks.go, and sequences of base agents.  [Routing], [LoadBalancer]:
      router_agent.go.
    - [Artifacts]: artifact_service.go, partitioning.go and the in-memory artifact
      backend of backends.go.  [StateBackends]: backends.go of pkg/state;
      [Checkpoints]: the managers and the lineage of its checkpoint.go.
      [Events]: events.go.  [Sessions]: session.go.
    - [Invocation]: runtime.go and integration.go of pkg/runtime.  [Streaming]:
      streaming.go.  [Streams]: channels and iterators as streams of actions and
      elements.  [AsyncRuntime]: the agents and both runtimes of async_runtime.go.
      [Iterators]: iterators.go.  [AdkFeatures]: adk_features.go.
    - [Plugins], [LlmFlow], [LiveSessions]: the plugins, the flow with its live mode,
      and the live sessions and long-running tools of llm_flow.go.  [Processors]:
      processors.go.
    - [SessionService], [MemoryService]: session_service.go and memory_service.go
      with the in-memory backends of backends.go.  [AdkMemory]: adk_memory.go and
      adk_memory_enhanced.go.
    - [Scenarios], [Runs], [Platform], [RuntimeRuns]: concrete runs.  [Witnesses],
      [RunWitnesses], [PlatformWitnesses], [RuntimeRuns]: theorems with hypotheses
      at concrete inputs.

    ** How the code is modelled

    - The fields of [Scheduler] are the record [Sched].  Jobs are shared by
      pointer: [sc_heap] is the store of job objects, and [sc_jobs], [sc_queue]
      hold locations; a task pointer is a path into its job ([TaskRef]).  So a
      refresh that replaces a job in the map and a loop that still holds the old
      pointer differ as they do in Go.
    - A method is a function [Sched St → option (A * Sched St)], the monad [M];
      [None] is a panic: a nil dereference, an index out of range, a remainder by
      zero.  Errors are values of type [error];
      wrapping, sentinels and messages are kept, because the code inspects them
      ([errors.Is], substring tests).
    - What the code asks of its surroundings is the record [Env]: clock, context,
      registry, executor, JSON codec, choices of the Go runtime.  Answers are
      functions of the number of questions asked so far, so a theorem over all
      [Env] covers every cancellation, failure and clock.  Executor calls are
      appended to [sc_trace].
    - The critical sections of submission are separate steps ([submit_reserve],
      [submit_commit]), interleaved freely in [Admission].  The task goroutines
      of a stage run one after another, in an order and at points of the stage
      loop that [env_pick] chooses; finer interleavings inside a task are not
      modelled.  Mutexes are the atomicity of the sections they protect.
    - [int] is [Z] where the code only counts; the uint64 sequence ids wrap
      ([u64_incr]) and the theorems about them carry the bound that excludes a wrap
      ([bounded], [u64_modulus]); the affinity hit counter and the counter of the
      round robin wrap as int64, where a negative index panics. Times and durations
      are [Z], the zero time is 0.
    - Go map iteration has no order: where the result could depend on it, the
      order is an argument ([buildRecoveredRuntimeJob_ordered]).
      In the compiler it is a class, [MapOrder]: a permutation of the entries.
    - Strings are byte strings; the rune-wise functions treat a byte as a rune.
    - Graph nodes act on a type of worlds through a class ([World]); the traversal
      records which nodes it executed ([r_executed]), and the context is a
      function of how often it was asked.
    - Values that Go shares by reference are locations of a heap in [MemState],
      where sharing is the point: a client may change at any time whatever it
      can reach from what it passed in or got back.  The objects of the session
      service are shared with its clients by pointer ([ds_objects]), and the
      requests of its calls can be interleaved ([call_step]).
    - Breakers and limiters are functions of their state and of the clock readings
      of a call; their mutexes make a call, or for the breaker each half of a call,
      one step, and the theorems are over all sequences of steps.  A function run
      through a breaker returns or panics ([FnResult]).
    - Callbacks of humans and the workers that resume graphs meet in the
      idempotency store and the queue: each of their requests is a step
      ([hitl_step]), and a call or worker may stop between any two.
    - Processes that meet in etcd are step relations over one store ([sem_step],
      [barrier_step], [reg_step]): each request of a call is a step, and other
      processes, expiring leases and failed requests come between.  Leases expire
      only as steps; a request that failed may or may not have had its effect.  The
      watch of a registry begins after its first read, can answer with errors and
      can end ([WatchState]).
    - An actor system is its processes with their mailboxes; clients and goroutines
      are steps ([sys_step]).  A send checks the flag of the process and then waits
      at its mailbox, a stop sets the flag and then cancels: two steps each.  The
      elector is a function of the event its loop is waiting for ([electionLoop]).
    - Agents, their inputs and outputs are objects: agents are shared by id, inputs
      and outputs by location ([AgentWorld]).  A child agent is any function of the
      world; a run of a parallel agent is the order in which its children finish,
      the world they leave, the order in which the votes are ranged over and the end
      of the race for the first result ([ParRun]).  A context map is part of its
      input, so inputs that share one map are not told apart.
    - The wrappers of a load balancer lie in arrays that running requests point
      into ([lb_arrays]); a request is two steps ([lb_start], [lb_finish]), between
      which others come ([lb_step]).
    - An agent of the asynchronous runtime is a [Stream]: a tree of actions on the
      world it shares with the runtime ([RtWorld]) and of events it yields.  The
      runtimes are one step relation ([rt_step]): between any two steps of the agent
      the runtime may take one of its own.  Goroutines inside an agent take turns in
      the order the code joins them.  The maps of committed state are objects, shared
      by contexts and sessions.
    - Providers, processors, callbacks and plugins of a flow are arbitrary functions
      of the world; tools are known by a number.  float64 is a type with the operations
      the code uses ([Floats]), whose order is a law ([FloatOrder]).
    - Loops over data are structural; the two loops driven by attempts
      ([retry_loop], [deferral_loop]) recurse on the number of attempts or ticks
      left, which is computed from the configuration or given by the
      environment, so no result depends on running out of fuel.  Graph search and
      traversal recurse on [dfs_fuel], more than the ids there are, and the
      theorems exclude that it runs out; Kahn's loop is given one level per node.
      A deep copy recurses on the nesting of the value, and [state_total] says
      that this nesting is enough.  Searches and climbs in the agent hierarchy and
      the building of stages have one unit of fuel more than there are agents to
      visit ([find_fuel]); [agent_search], [agent_ancestry] and [agent_stages] hold
      without a hypothesis on it.  Eviction loops get the number of entries;
      recomputing a lineage needs one unit more than there are nodes.

    ** What the theorems show

    - The log is the truth: whatever a process does by the steps of [Reachable]
      (submitting ids without a log, dispatching, looking up, reconciling as a
      follower, recovering, forgetting finished jobs, capacity reports), each job it
      knows replays, to the state it shows ([reachable_replays]); finished is final
      ([terminal_states_final]); a new job that is admitted is durable
      ([submit_durable]);
      replay accepts exactly the legal histories ([replay_accepts_iff]) and
      reconstructs their last states and the payload of the snapshot
      ([replay_reconstructs]).
    - Calls are safe: each is claimed ([calls_claimed]), authorised
      ([calls_authorised]), bounded in number ([task_calls_bounded]); claims are
      exclusive ([claims_exclusive]); followers do not act
      ([follower_requeues], [follower_reconciles],
      [quarantine_needs_leadership]); workers accept the current leader only
      ([worker_fencing]).
    - Executing does not panic ([executeJob_total]) and balances its slots
      ([slots_balanced]); admission never overbooks ([no_over_admission]) and has a
      definite outcome ([submit_outcome]); recovery, start and cleanup do what they
      promise ([recovery_complete], [start_outcome], [cleanup_exact]).
    - The parts are right: tables, validation, store, selection, affinity,
      configuration, scopes, summaries, rebuilt jobs.
    - Graphs: validation means reachability ([graph_validation]); compiling sorts
      topologically or finds a cycle ([topological_sort], [compile_outcome]) and
      gives jobs the scheduler can take ([compiled_submittable]); running visits
      what can be reached along edges of any kind, conditions not asked, once
      ([graph_execution]), resuming what comes after
      the pause ([graph_resumption]), and observing changes nothing
      ([observed_execution]).
    - The graph state refines a map of values no one else can change
      ([state_isolation]); setting is total on finite plain data
      ([state_total]); snapshots and clones are faithful and independent
      ([snapshot_roundtrip], [clone_independent]).
    - Policies: the verdict of the engine ([policy_verdict]), what the node
      filters ([policy_node_filters]) and exactly when and how it fails
      ([policy_node_errors]).
    - Breakers count within bounds, open at the first streak of failures, admit
      what they do while open and half open, and recover from anything but panics
      that have used up the probes
      ([breaker_invariant], [breaker_opens], [breaker_admission],
      [breaker_recovers]); the sliding window refines a limiter that forgets
      nothing ([sliding_window]); keys do not share limits ([per_key_isolated]);
      retrying ends ([retry_outcome]).
    - Leadership over etcd fences from the election to the worker
      ([leadership_fencing]); an elector reports election and loss in turn
      ([elector_reports]); a semaphore never has more holders than permits and
      overtakes no one ([semaphore_exclusion]); whoever passes a barrier has met
      the others ([barrier_meets]); a registry's cache follows what its watch shows,
      and the store while the watch misses nothing ([registry_follows]).
    - Mailboxes are bounded queues; only a message sent while the process stops is
      lost ([actor_delivery]); a
      supervisor restarts the failed child and no other ([supervisor_restart]), at
      most twice its limit in any span as long as its window
      ([restart_rate]).
    - Parents and sub-agents agree and the ways up return ([agent_ancestry]);
      searching finds what is below ([agent_search]); stages hold the dependencies,
      each once ([agent_stages]).
    - Workflow agents call their children as configured and report what they did
      ([sequential_execution], [loop_execution], [parallel_outcome],
      [map_reduce_complete]); splitting loses nothing
      ([splitting_partitions]).
    - A base agent runs its callbacks, its executor and its output key in order
      ([base_execution], [retried_callback]); templates are what the expression
      matches ([instruction_templates]); a sequence of agents is the pipeline of
      their functions, a relation that does not mention the code
      ([pipeline_refines]).
    - Routers take the matching route of highest priority ([routing],
      [intent_routing]); a load balancer prefers healthy agents, round robin takes
      each once, and its counts are exact ([balanced_selection],
      [round_robin_fair], [in_flight_exact]).
    - The artifact cache is transparent ([artifact_service]); keys live until their
      deadlines ([state_deadlines]); no update of a session that is not deleted is
      lost ([no_lost_update]); checkpoints of histories restore
      ([session_checkpoint]), and the
      distributed manager refines the one in memory when its calls do not overlap
      ([distributed_sessions]); checkpoints are kept under their jobs
      ([file_checkpoints]) and recomputing a lineage ends
      ([lineage_recomputation]).
    - Events reach the subscribers of their type, once for each subscription
      ([event_delivery]), and queries are exact ([event_query]); a recorder records
      nothing ([recorder_records_nothing]).
    - An invocation context is one map whose uncommitted part can be committed
      ([context_view], [run_commits]); a streaming run sends each event once
      ([streaming_run]) and batches lose none ([batches_complete]).  What a caller of
      the runtimes receives is what the agent yielded ([events_in_order]); yielding to
      the synchronous runtime is a commit point ([sync_yield]).  Iterators do the same
      for pulled events ([iterator_runner], [channel_iterator_roundtrip],
      [parallel_iterator_waits]).
    - Flows without a live provider call the model within the limit of their
      invocation ([model_calls_bounded]), answer each tool call once
      ([one_response_per_call]) and execute no tool that was refused
      ([unauthorized_not_executed]); plugins keep their order ([plugin_order]) and
      windows their bound ([rate_limit_window]); the default processors make the
      request they should ([default_request]), count tokens ([token_totals]) and
      keep a flow within its limit ([default_processors_quiet]).  Live sessions
      close once ([live_sessions_closed_once]), tools end once ([tool_lifecycle]).
    - Session caches refine their backend for clients that save what they write and
      calls that do not overlap, and are bounded always
      ([session_service_coherent]); memory queries
      give the best that are known ([memory_query]); services that remember sessions
      find exactly what shares a word or a text with the query ([enhanced_memory],
      [compat_memory], [plain_memory], [adk_search]).  Scopes are one map
      ([scoped_state]), schemas accept what conforms ([schema_validation]), branches
      nest ([branch_children]).
    - Human answers: while the lock lasts one job per answer and one more at most
      for each time a worker gives the lock back ([callback_once]), definite statuses
      ([callback_status]), definite ends of a job ([job_processing]) in a bounded
      number of deliveries ([job_retries_end]).

    [Scenarios], [Runs], [Platform] and [RuntimeRuns], and the ends of [Streaming],
    [Processors] and [AdkMemory], also record behaviour that differs from what the code
    intends.  In the scheduler: a capacity conflict is not retried for durable
    jobs, resuming a paused job makes its history illegal, a task error may be
    lost when the context ends, a stale worker may be chosen although fresh ones
    exist, the round-robin counter panics after it has wrapped, an id with a
    finished log is admitted again and its job dropped, a leader that fails a job it
    does not know breaks the order of its log.  For this reason the steps of
    [Reachable] do not include [ResumeAwaitingHumanJob], submissions of ids with a
    log and reconciliation as a leader.  In graphs: the conditions of edges are not
    asked, resuming skips branches and repeats
    nodes, the human's answer is not processed, dynamic edges cannot be added,
    watchers can change the state, pointer fields are shared by copies.  Beside
    them: a retryable resumption is lost with the in-memory queue, an unredacted
    response stays where it was found, a breaker can be stuck half open, a callback
    that asked too early queues a second job.  On the
    platform: a release may take the key of a waiting call, a barrier's reset and
    keys touch others, an identity with blanks leads and is refused, a stopped
    child keeps its address, restart windows let bursts through, agents can be
    each other's parents, a dependency may share a stage with its dependent, a
    node can be missed at start, a watch that ended is not renewed, a value that
    cannot be read leaves the old node, a message sent while a process stops is
    lost, services are lost on reconnection, a session created anew takes an old
    update, a large
    artifact leaves a stale copy, listed sessions are shared, concurrent
    invocations are lost, a success may be reported as a timeout, results can be
    read as templates, an output key is not passed on, routes of equal priority
    change places, an agent stays unhealthy while another is healthy, changes of
    the pool miscount requests, unsubscribing takes all handlers, a checkpoint
    changes after it was saved, two executions at one instant share a lineage node.
    In the runtime: an agent reads before its event was processed, the asynchronous
    runtime's bookkeeping reaches the state, a maximum of steps is reported after the
    answer, the default limit of calls is ignored and live calls are not limited,
    clients share the sessions of a cache, a session read before a save is cached
    after it, a plugin's answer is dropped,
    callbacks run twice, better memories are missed, a streaming run leaves changes
    uncommitted and keeps events twice, a user's message is not sent, words at line
    breaks are not found.

    ** Not modelled

    Metrics, logs, spans and alerts; goroutine plumbing, tickers and wait
    groups (one pass of each background loop is modelled); the Postgres store
    (reached through the interface above); the gRPC transport, the API server,
    models, tools, retrieval, and the agents of src/pkg/agents that call a model
    directly.  Of coordination: the mutex.  Of actors: requests with an answer, the A2A
    adapter.  Of agents: builders, the ready-made callbacks, the metadata a load
    balancer adds and its health checks, the coordinator.  Of the services:
    the database backends, whose behaviour is that of the servers, and the bundle
    that constructs the services.  Of the runtime: the parallel asynchronous agent,
    the synchronous LLM agent, tracing, a full live queue, manifests and processes.
    Of the graph
    package: the builder, the observers' channels, subtrees and marshalling of
    the state, its stores, agent and stdio nodes; the interleaving of the children
    of a parallel node on the state.  Of the resilience library: what computes in
    float64 (token and leaky buckets, delays).  Of the policies: the LLM
    evaluator and the audit log.  Of the human in the loop: the Postgres and
    Redis clients, the orchestrator, metrics.  The steps of [Reachable] leave out
    reconciliation in leader mode, submissions of ids that have a log, resuming of
    paused jobs and the cleanup of finished jobs that are still queued, which are
    modelled but for which the invariant fails or is not shown. *)

From Stdlib Require Import Ascii.
From stdpp Require Import base gmap strings list sorting pretty fin_maps.

Open Scope Z_scope.

(** ** Hint databases and tactics *)

Create HintDb dagens discriminated.

(** [simp_if] splits the innermost boolean or decidable test of the goal. *)
Ltac simp_if :=
  match goal with
  | |- context [if ?b then _ else _] => destruct b eqn:?
  | H : context [if ?b then _ else _] |- _ => destruct b eqn:?
  end.

(** [bool_to_prop] turns the boolean tests of the code into propositions. *)
Ltac bool_to_prop :=
  repeat match goal with
  | H : _ && _ = true |- _ => apply andb_true_iff in H as [? ?]
  | H : _ && _ = false |- _ => apply andb_false_iff in H
  | H : _ || _ = false |- _ => apply orb_false_iff in H as [? ?]
  | H : _ || _ = true |- _ => apply orb_true_iff in H
  | H : negb _ = true |- _ => apply negb_true_iff in H
  | H : negb _ = false |- _ => apply negb_false_iff in H
  | H : bool_decide _ = true |- _ => apply bool_decide_eq_true in H
  | H : bool_decide _ = false |- _ => apply bool_decide_eq_false in H
  | H : String.eqb _ _ = true |- _ => apply String.eqb_eq in H
  | H : String.eqb _ _ = false |- _ => apply String.eqb_neq in H
  | H : (_ =? _)%Z = true |- _ => apply Z.eqb_eq in H
  | H : (_ =? _)%Z = false |- _ => apply Z.eqb_neq in H
  | H : (_ <? _)%Z = true |- _ => apply Z.ltb_lt in H
  | H : (_ <? _)%Z = false |- _ => apply Z.ltb_ge in H
  | H : (_ <=? _)%Z = true |- _ => apply Z.leb_le in H
  | H : (_ <=? _)%Z = false |- _ => apply Z.leb_gt in H
  | H : (_ =? _)%N = true |- _ => apply N.eqb_eq in H
  | H : (_ =? _)%N = false |- _ => apply N.eqb_neq in H
  | H : (_ <? _)%N = true |- _ => apply N.ltb_lt in H
  | H : (_ <? _)%N = false |- _ => apply N.ltb_ge in H
  end.

(** ** Machine integers

    Go's [uint64] sequence counters are kept as [N]; [x++] wraps at [2^64]. *)
Definition u64_modulus : N := 18446744073709551616%N.
Definition u64_incr (x : N) : N := ((x + 1) mod u64_modulus)%N.

Lemma u64_incr_lt x : (x + 1 < u64_modulus)%N → u64_incr x = (x + 1)%N.
Proof. intros. unfold u64_incr. by rewrite N.mod_small. Qed.

(** ** time.Time and time.Duration

    An instant is its distance in nanoseconds from Go's zero [time.Time], so
    [IsZero] is a comparison with [0]; a duration is a number of nanoseconds.
    Locations and monotonic readings do not take part in comparisons here. *)
Abbreviation Time := Z (only parsing).
Abbreviation Duration := Z (only parsing).

Definition IsZero (t : Time) : bool := t =? 0.
Definition Before (t u : Time) : bool := t <? u.
Definition After (t u : Time) : bool := u <? t.
Definition Millisecond : Duration := 1000000.
Definition Second : Duration := 1000000000.
Definition Minute : Duration := 60 * Second.
Definition Hour : Duration := 60 * Minute.

(** ** Strings

    A Go string is modelled by the sequence of its runes, for strings whose
    runes are below U+0100: a Rocq [ascii] is one rune.  On that range the
    UTF-8 byte order used by Go's [<] is the code-point order, [len([]rune(s))]
    is the length, and the [unicode] tables are the Latin-1 table below. *)
Definition rune_code (r : ascii) : N := N_of_ascii r.

Definition unicode_IsSpace (r : ascii) : bool :=
  let c := rune_code r in
  ((9 <=? c) && (c <=? 13) || (c =? 32) || (c =? 133) || (c =? 160))%N.

Definition unicode_IsPrint (r : ascii) : bool :=
  let c := rune_code r in
  ((32 <=? c) && (c <=? 126) || (161 <=? c) && negb (c =? 173))%N.

Definition unicode_ToLower (r : ascii) : ascii :=
  let c := rune_code r in
  if ((65 <=? c) && (c <=? 90) || (192 <=? c) && (c <=? 222) && negb (c =? 215))%N
  then ascii_of_N (c + 32) else r.

Fixpoint string_map (f : ascii → ascii) (s : string) : string :=
  match s with
  | EmptyString => EmptyString
  | String c s' => String (f c) (string_map f s')
  end.

Definition strings_ToLower (s : string) : string := string_map unicode_ToLower s.

Fixpoint strings_Contains (s sub : string) : bool :=
  String.prefix sub s ||
  match s with
  | EmptyString => false
  | String _ s' => strings_Contains s' sub
  end.

Definition strings_EqualFold (s t : string) : bool :=
  String.eqb (strings_ToLower s) (strings_ToLower t).

Fixpoint trim_left (s : string) : string :=
  match s with
  | EmptyString => EmptyString
  | String c s' => if unicode_IsSpace c then trim_left s' else s
  end.

(** [trim_right] keeps a rune when it, or one after it, is not a space. *)
Fixpoint trim_right (s : string) : string :=
  match s with
  | EmptyString => EmptyString
  | String c s' =>
      match trim_right s' with
      | EmptyString => if unicode_IsSpace c then EmptyString else String c EmptyString
      | t => String c t
      end
  end.

Definition strings_TrimSpace (s : string) : string := trim_right (trim_left s).

(** [fields_aux acc s]: the fields of [s], [acc] being the field read so far. *)
Fixpoint fields_aux (acc : string) (s : string) : list string :=
  match s with
  | EmptyString => if String.eqb acc "" then [] else [acc]
  | String c s' =>
      if unicode_IsSpace c
      then (if String.eqb acc "" then [] else [acc]) ++ fields_aux "" s'
      else fields_aux (acc +:+ String c "") s'
  end.

Definition strings_Fields (s : string) : list string := fields_aux "" s.

Fixpoint strings_Join (l : list string) (sep : string) : string :=
  match l with
  | [] => ""
  | [x] => x
  | x :: l' => x +:+ sep +:+ strings_Join l' sep
  end.

(** Go's [<] on strings. *)
Definition string_lt (s t : string) : bool :=
  match String.compare s t with Lt => true | _ => false end.

(** fmt's [%q] for strings without characters to escape. *)
Definition dquote : string := String (ascii_of_nat 34) "".
Definition fmt_q (s : string) : string := dquote +:+ s +:+ dquote.

(** ** sort.Slice

    Insertion sort by the caller's [less], Go's algorithm for short slices.
    Longer slices are sorted by an unstable algorithm whose result is only
    fixed up to elements that [less] does not separate; [go_sort_unique] shows
    that for pairwise separated elements every sorted permutation is this one. *)
Section GoSort.
Context {A : Type} (less : A → A → bool).

Fixpoint sort_insert (x : A) (l : list A) : list A :=
  match l with
  | [] => [x]
  | y :: l' => if less x y then x :: y :: l' else y :: sort_insert x l'
  end.

Definition go_sort (l : list A) : list A := foldl (λ acc x, sort_insert x acc) [] l.

Lemma sort_insert_perm x l : sort_insert x l ≡ₚ x :: l.
Proof.
  induction l as [|y l IH]; simpl; [done|]. simp_if; [done|].
  rewrite IH. by constructor.
Qed.

Lemma go_sort_perm l : go_sort l ≡ₚ l.
Proof.
  unfold go_sort. cut (∀ acc, foldl (λ acc x, sort_insert x acc) acc l ≡ₚ acc ++ l).
  { intros H. apply H. }
  induction l as [|x l IH]; intros acc; simpl; [by rewrite app_nil_r|].
  rewrite IH, sort_insert_perm. by rewrite <-Permutation_middle.
Qed.

(** The sorted order: nobody is followed by a smaller element. *)
Definition sort_le (x y : A) : Prop := less y x = false.

Hypothesis less_asym : ∀ x y, less x y = true → less y x = false.
Hypothesis less_trans_le : ∀ x y z, less y x = false → less z y = false → less z x = false.

Lemma sort_insert_sorted x l :
  StronglySorted sort_le l → StronglySorted sort_le (sort_insert x l).
Proof.
  induction 1 as [|y l Hs IH Hall]; simpl; [by repeat constructor|].
  simp_if.
  - constructor; [by constructor|]. constructor; [by apply less_asym|].
    eapply Forall_impl; [exact Hall|]. intros z Hz. unfold sort_le in *.
    eauto.
  - constructor; [done|]. rewrite sort_insert_perm. by constructor.
Qed.

Lemma go_sort_sorted l : StronglySorted sort_le (go_sort l).
Proof.
  unfold go_sort.
  cut (∀ acc, StronglySorted sort_le acc →
              StronglySorted sort_le (foldl (λ acc x, sort_insert x acc) acc l)).
  { intros H. apply H. constructor. }
  induction l as [|x l IH]; intros acc Hacc; simpl; [done|].
  apply IH. by apply sort_insert_sorted.
Qed.

(** Inserting an element that no element exceeds puts it last. *)
Lemma sort_insert_last x l :
  Forall (λ y, less x y = false) l → sort_insert x l = l ++ [x].
Proof.
  induction 1 as [|y l Hy _ IH]; simpl; [done|]. by rewrite Hy, IH.
Qed.

Lemma go_sort_snoc x l : go_sort (l ++ [x]) = sort_insert x (go_sort l).
Proof. unfold go_sort. by rewrite foldl_app. Qed.

Lemma go_sort_id l : StronglySorted sort_le l → go_sort l = l.
Proof.
  intros Hs. induction l as [|x l IH] using rev_ind; [done|].
  rewrite go_sort_snoc.
  assert (StronglySorted sort_le l ∧ Forall (λ y, less x y = false) l) as [Hl Hx].
  { clear IH. induction l as [|y l IH]; [by repeat constructor|]. simpl in Hs.
    inversion Hs as [|? ? Hs' Hall]; subst. destruct (IH Hs') as [? ?].
    apply Forall_app in Hall as [? Hxx]. inversion_clear Hxx.
    repeat constructor; done. }
  rewrite IH by done. by rewrite sort_insert_last.
Qed.

Lemma go_sort_unique l l' :
  l' ≡ₚ l → StronglySorted sort_le l' →
  (∀ x y, x ∈ l → y ∈ l → less x y = false → less y x = false → x = y) →
  go_sort l = l'.
Proof.
  intros Hp Hs Hsep. pose proof (go_sort_sorted l) as Hs0.
  assert (go_sort l ≡ₚ l') as Hp0 by (by rewrite go_sort_perm, Hp).
  assert (∀ x y, x ∈ l' → y ∈ l' → less x y = false → less y x = false → x = y) as Hsep'.
  { intros x y Hx Hy. rewrite Hp in Hx, Hy. eauto. }
  clear Hp Hsep. revert Hs0 Hp0. generalize (go_sort l) as k. clear l.
  induction Hs as [|y l' Hs IH Hall]; intros k Hk Hp.
  { by apply Permutation_nil_r in Hp. }
  destruct k as [|x k]; [by apply Permutation_nil_cons in Hp|].
  inversion_clear Hk as [|? ? Hk' Hxall].
  assert (x = y) as ->.
  { assert (x ∈ y :: l') as Hx by (rewrite <-Hp; left).
    assert (y ∈ x :: k) as Hy by (rewrite Hp; left).
    apply elem_of_cons in Hx as [->|Hx]; [done|].
    apply elem_of_cons in Hy as [->|Hy]; [done|].
    rewrite Forall_forall in Hall, Hxall.
    apply Hsep'; [by right|by left| by apply Hall | by apply Hxall]. }
  f_equal. apply IH; [|done|by apply Permutation_cons_inv in Hp].
  intros a b Ha Hb. apply Hsep'; by right.
Qed.
End GoSort.

(** ** The last elements of a list *)

Definition last_n {A} (n : nat) (l : list A) : list A := drop (length l - n) l.

Lemma last_n_last_n {A} n (l l' : list A) : last_n n (last_n n l ++ l') = last_n n (l ++ l').
Proof.
  unfold last_n. rewrite !length_app, length_drop.
  destruct (decide (length l ≤ n)%nat) as [Hle|Hgt].
  - replace (length l - n)%nat with 0%nat by lia. simpl. by rewrite Nat.sub_0_r.
  - replace (length l - (length l - n))%nat with n by lia. rewrite <- (drop_app_le l l' (length l - n)) by lia.
    rewrite drop_drop. f_equal. lia.
Qed.

(** ** Errors

    An error value is a sentinel variable of the sources, a formatted text, a
    typed error, or a [%w] wrapping of one of them: [EWrap pre e post] is
    [fmt.Errorf("<pre>%w<post>", e)]. *)
Inductive sentinel :=
  | ErrJobQueueFull | ErrNoWorkerCapacity | ErrSchedulerRecovering
  | ErrTransitionStoreSetAfterStart | ErrLeadershipProviderSetAfterStart
  | ErrDispatchClaimRejected | ErrInvalidScope
  | ErrMissingDispatchAuthority | ErrStaleDispatchAuthority
  | Canceled | DeadlineExceeded.

#[export] Instance sentinel_eq_dec : EqDecision sentinel.
Proof. solve_decision. Defined.

Inductive error :=
  | ESentinel (s : sentinel)
  | EText (msg : string)
  | EWrap (pre : string) (e : error) (post : string)
  | EPolicyViolation (Reason RuleID : string)
  | EReplayJob (JobID : string) (e : error).

#[export] Instance error_eq_dec : EqDecision error.
Proof. solve_decision. Defined.

Definition sentinel_text (s : sentinel) : string :=
  match s with
  | ErrJobQueueFull => "job queue is full"
  | ErrNoWorkerCapacity => "all healthy workers are at capacity"
  | ErrSchedulerRecovering => "scheduler is recovering state"
  | ErrTransitionStoreSetAfterStart => "transition store can only be set before scheduler start"
  | ErrLeadershipProviderSetAfterStart => "leadership provider can only be set before scheduler start"
  | ErrDispatchClaimRejected => "dispatch claim rejected by transition store fencing"
  | ErrInvalidScope => "invalid leadership scope"
  | ErrMissingDispatchAuthority => "missing dispatch authority"
  | ErrStaleDispatchAuthority => "stale dispatch authority"
  | Canceled => "context canceled"
  | DeadlineExceeded => "context deadline exceeded"
  end.

(** [err.Error()]. *)
Fixpoint Error (e : error) : string :=
  match e with
  | ESentinel s => sentinel_text s
  | EText msg => msg
  | EWrap pre e post => pre +:+ Error e +:+ post
  | EPolicyViolation reason _ => "policy violation: " +:+ reason
  | EReplayJob jobID e => "replay failed for job " +:+ jobID +:+ ": " +:+ Error e
  end.

(** [errors.Is(err, sentinel)]. *)
Fixpoint errors_Is (e : error) (s : sentinel) : bool :=
  match e with
  | ESentinel s' => bool_decide (s = s')
  | EText _ | EPolicyViolation _ _ => false
  | EWrap _ e _ | EReplayJob _ e => errors_Is e s
  end.

(** [errors.As(err, &policyErr)] for [*policy.ErrPolicyViolation]. *)
Fixpoint errors_As_policy (e : error) : option string :=
  match e with
  | ESentinel _ | EText _ => None
  | EPolicyViolation reason _ => Some reason
  | EWrap _ e _ | EReplayJob _ e => errors_As_policy e
  end.

(** A Go function that returns [(T, error)] with a zero value on error. *)
Abbreviation result A := (error + A)%type.

(** ** Go's [interface{}] payload values that the scheduler stores and copies *)
Inductive Value :=
  | VNil
  | VBool (b : bool)
  | VString (s : string)
  | VInt (z : Z)
  | VFloat (truncated : Z)            (** a float64, by its conversion to [int] *)
  | VBytes (b : string)               (** a [[]byte] *)
  | VList (l : list (option string))  (** a [[]interface{}], [None] for a non-string *)
  | VOpaque (id : N).

#[export] Instance Value_eq_dec : EqDecision Value.
Proof. solve_decision. Defined.

(** Reading a missing key of a Go map gives the zero value. *)
Definition map_get {V} (zero : V) (m : gmap string V) (k : string) : V :=
  default zero (m !! k).

(** The values of a map, in one of the orders a [range] loop may take. *)
Definition map_values {V} (m : gmap string V) : list V := (map_to_list m).*2.

Lemma elem_of_map_values {V} (m : gmap string V) v :
  v ∈ map_values m ↔ ∃ k, m !! k = Some v.
Proof.
  unfold map_values. rewrite list_elem_of_fmap. split.
  - intros ([k v'] & -> & H). apply elem_of_map_to_list in H. eauto.
  - intros (k & H). exists (k, v). split; [done|]. by apply elem_of_map_to_list.
Qed.

(** ** State-passing code

    A method that reads and writes its receiver is a function from the state to
    its result and the new state.  [x ← m; k] is stdpp's monadic bind. *)
Definition ST (S A : Type) : Type := S → A * S.

#[export] Instance ST_ret S : MRet (ST S) := λ A a s, (a, s).
#[export] Instance ST_bind S : MBind (ST S) := λ A B f m s, let '(a, s') := m s in f a s'.

Definition st_get {S} : ST S S := λ s, (s, s).
Definition st_modify {S} (f : S → S) : ST S unit := λ s, (tt, f s).

(** Running a method of a part of the state. *)
Definition zoom {S T A} (get : S → T) (set : T → S → S) (m : ST T A) : ST S A :=
  λ s, let '(a, t) := m (get s) in (a, set t s).

Lemma ST_bind_eq {S A B} (m : ST S A) (f : A → ST S B) s :
  (m ≫= f) s = f (m s).1 (m s).2.
Proof. unfold mbind, ST_bind. by destruct (m s). Qed.

(** A loop over a slice whose body cannot leave it early. *)
Fixpoint st_iter {S A} (f : A → ST S unit) (l : list A) : ST S unit :=
  match l with
  | [] => mret tt
  | x :: l' => f x ≫= λ _, st_iter f l'
  end.

(** A relation every step respects is respected by the whole loop. *)
Lemma st_iter_preserves {S A} (R : S → S → Prop) (f : A → ST S unit) (l : list A) s :
  (∀ s, R s s) → (∀ a b c, R a b → R b c → R a c) →
  (∀ x s, x ∈ l → R s (f x s).2) → R s (st_iter f l s).2.
Proof.
  intros Hr Ht. revert s. induction l as [|x l IH]; intros s Hf; simpl; [done|].
  rewrite ST_bind_eq. eapply Ht; [apply Hf; by left|]. apply IH. intros ???. apply Hf. by right.
Qed.
