(* ===== verification/StateMachine.v ===== *)
(** * The durable lifecycle model (pkg/scheduler/state_machine.go)

    Lifecycle states, entity types and transition types are Go string types:
    they come back from durable storage as arbitrary strings, and the empty
    string is the "unset" value the code tests for.  They are strings here. *)

From stdpp Require Import base gmap strings list fin_maps.
From S2P Require Import Prelude.

Open Scope Z_scope.

(** ** States, entities, transitions *)

Abbreviation JobLifecycleState := string (only parsing).
Definition JobStateSubmitted : JobLifecycleState := "SUBMITTED".
Definition JobStateQueued : JobLifecycleState := "QUEUED".
Definition JobStateRunning : JobLifecycleState := "RUNNING".
Definition JobStateAwaitingHuman : JobLifecycleState := "AWAITING_HUMAN".
Definition JobStateSucceeded : JobLifecycleState := "SUCCEEDED".
Definition JobStateFailed : JobLifecycleState := "FAILED".
Definition JobStateCanceled : JobLifecycleState := "CANCELED".

Abbreviation TaskLifecycleState := string (only parsing).
Definition TaskStatePending : TaskLifecycleState := "PENDING".
Definition TaskStateDispatched : TaskLifecycleState := "DISPATCHED".
Definition TaskStateRunning : TaskLifecycleState := "RUNNING".
Definition TaskStateSucceeded : TaskLifecycleState := "SUCCEEDED".
Definition TaskStateFailed : TaskLifecycleState := "FAILED".

Abbreviation TransitionEntityType := string (only parsing).
Definition TransitionEntityJob : TransitionEntityType := "JOB".
Definition TransitionEntityTask : TransitionEntityType := "TASK".

Abbreviation TransitionType := string (only parsing).
Definition TransitionJobSubmitted : TransitionType := "JOB_SUBMITTED".
Definition TransitionJobQueued : TransitionType := "JOB_QUEUED".
Definition TransitionJobRunning : TransitionType := "JOB_RUNNING".
Definition TransitionJobAwaitingHuman : TransitionType := "JOB_AWAITING_HUMAN".
Definition TransitionJobResumed : TransitionType := "JOB_RESUMED".
Definition TransitionJobSucceeded : TransitionType := "JOB_SUCCEEDED".
Definition TransitionJobFailed : TransitionType := "JOB_FAILED".
Definition TransitionJobCanceled : TransitionType := "JOB_CANCELED".
Definition TransitionTaskCreated : TransitionType := "TASK_CREATED".
Definition TransitionTaskDispatched : TransitionType := "TASK_DISPATCHED".
Definition TransitionTaskRunning : TransitionType := "TASK_RUNNING".
Definition TransitionTaskSucceeded : TransitionType := "TASK_SUCCEEDED".
Definition TransitionTaskFailed : TransitionType := "TASK_FAILED".

(** ** Durable records *)

Record DurableJobRecord := mkDurableJob {
  dj_JobID : string;
  dj_Name : string;
  dj_CurrentState : JobLifecycleState;
  dj_LastSequenceID : N;
  dj_CreatedAt : Time;
  dj_UpdatedAt : Time;
}.

Record DurableTaskRecord := mkDurableTask {
  dt_TaskID : string;
  dt_JobID : string;
  dt_StageID : string;
  dt_NodeID : string;
  dt_AgentID : string;
  dt_AgentName : string;
  dt_InputJSON : string;
  dt_PartitionKey : string;
  dt_CurrentState : TaskLifecycleState;
  dt_LastAttempt : Z;
  dt_UpdatedAt : Time;
}.

(** The zero value of a Go struct, read from a map at a missing key. *)
Definition zero_DurableTask : DurableTaskRecord :=
  mkDurableTask "" "" "" "" "" "" "" "" "" 0 0.

Record TransitionRecord := mkTransition {
  tr_SequenceID : N;
  tr_EntityType : TransitionEntityType;
  tr_Transition : TransitionType;
  tr_JobID : string;
  tr_TaskID : string;
  tr_PreviousState : string;
  tr_NewState : string;
  tr_NodeID : string;
  tr_Attempt : Z;
  tr_ErrorSummary : string;
  tr_OccurredAt : Time;
}.

Record TaskDispatchClaim := mkClaim {
  cl_TaskID : string;
  cl_JobID : string;
  cl_StageID : string;
  cl_NodeID : string;
  cl_Attempt : Z;
  cl_UpdatedAt : Time;
}.

#[export] Instance DurableJobRecord_eq_dec : EqDecision DurableJobRecord.
Proof. solve_decision. Defined.
#[export] Instance DurableTaskRecord_eq_dec : EqDecision DurableTaskRecord.
Proof. solve_decision. Defined.
#[export] Instance TransitionRecord_eq_dec : EqDecision TransitionRecord.
Proof. solve_decision. Defined.

(** ** Legal transitions *)

Definition validJobTransitions_list : list (JobLifecycleState * gset JobLifecycleState) :=
  [ (JobStateSubmitted, {[ JobStateQueued ]});
    (JobStateQueued, {[ JobStateRunning; JobStateFailed; JobStateCanceled ]});
    (JobStateRunning, {[ JobStateAwaitingHuman; JobStateSucceeded; JobStateFailed;
                         JobStateCanceled ]});
    (JobStateAwaitingHuman, {[ JobStateRunning; JobStateFailed; JobStateCanceled ]});
    (JobStateSucceeded, ∅);
    (JobStateFailed, ∅);
    (JobStateCanceled, ∅) ].

Definition validJobTransitions : gmap JobLifecycleState (gset JobLifecycleState) :=
  list_to_map validJobTransitions_list.

Definition validTaskTransitions_list : list (TaskLifecycleState * gset TaskLifecycleState) :=
  [ (TaskStatePending, {[ TaskStateDispatched; TaskStateFailed ]});
    (TaskStateDispatched, {[ TaskStateRunning; TaskStateFailed ]});
    (TaskStateRunning, {[ TaskStateSucceeded; TaskStateFailed ]});
    (TaskStateSucceeded, ∅);
    (TaskStateFailed, ∅) ].

Definition validTaskTransitions : gmap TaskLifecycleState (gset TaskLifecycleState) :=
  list_to_map validTaskTransitions_list.

Definition CanTransitionJobState (from to : JobLifecycleState) : bool :=
  if String.eqb from to then true
  else match validJobTransitions !! from with
       | None => false
       | Some next => bool_decide (to ∈ next)
       end.

Definition CanTransitionTaskState (from to : TaskLifecycleState) : bool :=
  if String.eqb from to then true
  else match validTaskTransitions !! from with
       | None => false
       | Some next => bool_decide (to ∈ next)
       end.

Definition IsTerminalJobState (state : JobLifecycleState) : bool :=
  String.eqb state JobStateSucceeded || String.eqb state JobStateFailed ||
  String.eqb state JobStateCanceled.

Definition IsTerminalTaskState (state : TaskLifecycleState) : bool :=
  String.eqb state TaskStateSucceeded || String.eqb state TaskStateFailed.

Definition isValidJobLifecycleState (state : string) : bool :=
  String.eqb state JobStateSubmitted || String.eqb state JobStateQueued ||
  String.eqb state JobStateRunning || String.eqb state JobStateAwaitingHuman ||
  String.eqb state JobStateSucceeded || String.eqb state JobStateFailed ||
  String.eqb state JobStateCanceled.

Definition isValidTaskLifecycleState (state : string) : bool :=
  String.eqb state TaskStatePending || String.eqb state TaskStateDispatched ||
  String.eqb state TaskStateRunning || String.eqb state TaskStateSucceeded ||
  String.eqb state TaskStateFailed.

(** ** Structural validation of a transition record *)

(** The [switch r.EntityType] part of [Validate]. *)
Definition Validate_job (r : TransitionRecord) : option error :=
  if negb (String.eqb (tr_TaskID r) "")
  then Some (EText "task_id must be empty for job transitions")
  else if negb (isValidJobLifecycleState (tr_NewState r))
  then Some (EText ("invalid job new_state " +:+ fmt_q (tr_NewState r)))
  else if negb (String.eqb (tr_PreviousState r) "") &&
          negb (isValidJobLifecycleState (tr_PreviousState r))
  then Some (EText ("invalid job previous_state " +:+ fmt_q (tr_PreviousState r)))
  else if String.eqb (tr_PreviousState r) "" &&
          negb (String.eqb (tr_NewState r) JobStateSubmitted)
  then Some (EText ("previous_state required for non-initial job transition to " +:+
                    fmt_q (tr_NewState r)))
  else None.

Definition Validate_task (r : TransitionRecord) : option error :=
  if String.eqb (tr_TaskID r) ""
  then Some (EText "task_id must be set for task transitions")
  else if negb (isValidTaskLifecycleState (tr_NewState r))
  then Some (EText ("invalid task new_state " +:+ fmt_q (tr_NewState r)))
  else if negb (String.eqb (tr_PreviousState r) "") &&
          negb (isValidTaskLifecycleState (tr_PreviousState r))
  then Some (EText ("invalid task previous_state " +:+ fmt_q (tr_PreviousState r)))
  else if String.eqb (tr_PreviousState r) "" &&
          negb (String.eqb (tr_NewState r) TaskStatePending)
  then Some (EText ("previous_state required for non-initial task transition to " +:+
                    fmt_q (tr_NewState r)))
  else None.

Definition Validate (r : TransitionRecord) : option error :=
  if (tr_SequenceID r =? 0)%N then Some (EText "sequence_id must be greater than zero")
  else if String.eqb (tr_JobID r) "" then Some (EText "job_id must be set")
  else if negb (String.eqb (tr_EntityType r) TransitionEntityJob) &&
          negb (String.eqb (tr_EntityType r) TransitionEntityTask)
  then Some (EText ("invalid entity_type " +:+ fmt_q (tr_EntityType r)))
  else if String.eqb (tr_Transition r) "" then Some (EText "transition must be set")
  else if String.eqb (tr_NewState r) "" then Some (EText "new_state must be set")
  else if IsZero (tr_OccurredAt r) then Some (EText "occurred_at must be set")
  else if String.eqb (tr_EntityType r) TransitionEntityJob then Validate_job r
  else if String.eqb (tr_EntityType r) TransitionEntityTask then Validate_task r
  else None.

(** ** The lifecycle graphs, as relations *)

Inductive JobEdge : JobLifecycleState → JobLifecycleState → Prop :=
  | je_queue : JobEdge JobStateSubmitted JobStateQueued
  | je_start : JobEdge JobStateQueued JobStateRunning
  | je_queued_fail : JobEdge JobStateQueued JobStateFailed
  | je_queued_cancel : JobEdge JobStateQueued JobStateCanceled
  | je_pause : JobEdge JobStateRunning JobStateAwaitingHuman
  | je_succeed : JobEdge JobStateRunning JobStateSucceeded
  | je_fail : JobEdge JobStateRunning JobStateFailed
  | je_cancel : JobEdge JobStateRunning JobStateCanceled
  | je_resume : JobEdge JobStateAwaitingHuman JobStateRunning
  | je_paused_fail : JobEdge JobStateAwaitingHuman JobStateFailed
  | je_paused_cancel : JobEdge JobStateAwaitingHuman JobStateCanceled.

Inductive TaskEdge : TaskLifecycleState → TaskLifecycleState → Prop :=
  | te_dispatch : TaskEdge TaskStatePending TaskStateDispatched
  | te_pending_fail : TaskEdge TaskStatePending TaskStateFailed
  | te_run : TaskEdge TaskStateDispatched TaskStateRunning
  | te_dispatched_fail : TaskEdge TaskStateDispatched TaskStateFailed
  | te_succeed : TaskEdge TaskStateRunning TaskStateSucceeded
  | te_fail : TaskEdge TaskStateRunning TaskStateFailed.

#[export] Hint Constructors JobEdge TaskEdge : dagens.

(** Splits a membership in a literal transition table. *)
Ltac table_cases H :=
  repeat (apply elem_of_cons in H as [H|H]);
  [..|by apply elem_of_nil in H]; injection H as -> ->.

Lemma CanTransitionJobState_spec from to :
  CanTransitionJobState from to = true ↔ from = to ∨ JobEdge from to.
Proof.
  unfold CanTransitionJobState. split.
  - destruct (String.eqb from to) eqn:E; bool_to_prop; [by left|]. right.
    destruct (validJobTransitions !! from) as [next|] eqn:Hl; [|done]. bool_to_prop.
    apply elem_of_list_to_map_2 in Hl. unfold validJobTransitions_list in Hl.
    table_cases Hl; set_unfold; naive_solver (auto with dagens).
  - intros [->|H]; [by rewrite String.eqb_refl|].
    destruct H; vm_compute; reflexivity.
Qed.

Lemma CanTransitionTaskState_spec from to :
  CanTransitionTaskState from to = true ↔ from = to ∨ TaskEdge from to.
Proof.
  unfold CanTransitionTaskState. split.
  - destruct (String.eqb from to) eqn:E; bool_to_prop; [by left|]. right.
    destruct (validTaskTransitions !! from) as [next|] eqn:Hl; [|done]. bool_to_prop.
    apply elem_of_list_to_map_2 in Hl. unfold validTaskTransitions_list in Hl.
    table_cases Hl; set_unfold; naive_solver (auto with dagens).
  - intros [->|H]; [by rewrite String.eqb_refl|].
    destruct H; vm_compute; reflexivity.
Qed.

(** ** Histories

    [legal_from can cur l]: the states [l] can be entered one after the other
    from [cur]. *)
Fixpoint legal_from (can : string → string → bool) (cur : string) (l : list string) : bool :=
  match l with
  | [] => true
  | x :: l' => can cur x && legal_from can x l'
  end.

(** The last state of a history that starts in [cur]. *)
Definition last_from (cur : string) (l : list string) : string := foldl (λ _ x, x) cur l.

Lemma last_from_snoc cur l x : last_from cur (l ++ [x]) = x.
Proof. unfold last_from. by rewrite foldl_app. Qed.

Lemma legal_from_app can cur l1 l2 :
  legal_from can cur (l1 ++ l2) =
  legal_from can cur l1 && legal_from can (last_from cur l1) l2.
Proof.
  revert cur. induction l1 as [|x l1 IH]; intros cur; [done|].
  cbn [app legal_from]. by rewrite IH, andb_assoc.
Qed.

(** The state before the first entry into [s] is a proper predecessor of [s]. *)
Lemma legal_from_reach can cur l s :
  legal_from can cur l = true → s ∈ l → cur ≠ s →
  ∃ l1 l2, l = l1 ++ s :: l2 ∧ legal_from can cur l1 = true ∧ s ∉ l1 ∧
           last_from cur l1 ≠ s ∧ can (last_from cur l1) s = true.
Proof.
  revert cur. induction l as [|x l IH]; intros cur Hl Hs Hne; simpl in *.
  { by apply elem_of_nil in Hs. }
  bool_to_prop. destruct (decide (x = s)) as [->|Hx].
  { exists [], l. repeat split; [apply not_elem_of_nil|done..]. }
  apply elem_of_cons in Hs as [->|Hs]; [done|].
  destruct (IH x) as (l1 & l2 & -> & H1 & H2 & H3 & H4); [done..|].
  exists (x :: l1), l2. split; [done|]. simpl. rewrite H, H1, not_elem_of_cons. auto.
Qed.

Lemma last_from_elem cur l : last_from cur l = cur ∨ last_from cur l ∈ l.
Proof.
  induction l as [|x l IH] using rev_ind; [by left|]. right.
  rewrite last_from_snoc. apply elem_of_app. right. by left.
Qed.

Lemma IsTerminalJobState_spec s :
  IsTerminalJobState s = true ↔
  s = JobStateSucceeded ∨ s = JobStateFailed ∨ s = JobStateCanceled.
Proof. unfold IsTerminalJobState. rewrite !orb_true_iff, !String.eqb_eq. tauto. Qed.

Lemma IsTerminalTaskState_spec s :
  IsTerminalTaskState s = true ↔ s = TaskStateSucceeded ∨ s = TaskStateFailed.
Proof. unfold IsTerminalTaskState. rewrite !orb_true_iff, !String.eqb_eq. tauto. Qed.

Lemma terminal_job_no_edge s s' : IsTerminalJobState s = true → ¬ JobEdge s s'.
Proof. rewrite IsTerminalJobState_spec. intros [->|[->| ->]] H; inversion H. Qed.

Lemma terminal_task_no_edge s s' : IsTerminalTaskState s = true → ¬ TaskEdge s s'.
Proof. rewrite IsTerminalTaskState_spec. intros [->| ->] H; inversion H. Qed.

Lemma terminal_job_stuck s s' :
  IsTerminalJobState s = true → CanTransitionJobState s s' = true → s' = s.
Proof.
  intros Ht H. apply CanTransitionJobState_spec in H as [->|H]; [done|].
  by apply terminal_job_no_edge in H.
Qed.

Lemma terminal_task_stuck s s' :
  IsTerminalTaskState s = true → CanTransitionTaskState s s' = true → s' = s.
Proof.
  intros Ht H. apply CanTransitionTaskState_spec in H as [->|H]; [done|].
  by apply terminal_task_no_edge in H.
Qed.

Lemma legal_from_terminal s l :
  IsTerminalJobState s = true → legal_from CanTransitionJobState s l = true →
  Forall (eq s) l.
Proof.
  intros Ht. induction l as [|x l IH]; intros H; [constructor|]. simpl in H. bool_to_prop.
  assert (x = s) as -> by eauto using terminal_job_stuck. constructor; auto.
Qed.

(** A proper predecessor is one of the edges into the state. *)
Lemma CanTransitionJobState_pred a b :
  a ≠ b → CanTransitionJobState a b = true → JobEdge a b.
Proof. intros Hne H. by apply CanTransitionJobState_spec in H as [?|?]. Qed.

Lemma CanTransitionTaskState_pred a b :
  a ≠ b → CanTransitionTaskState a b = true → TaskEdge a b.
Proof. intros Hne H. by apply CanTransitionTaskState_spec in H as [?|?]. Qed.

Lemma legal_from_terminal_task s l :
  IsTerminalTaskState s = true → legal_from CanTransitionTaskState s l = true →
  Forall (eq s) l.
Proof.
  intros Ht. induction l as [|x l IH]; intros H; [constructor|]. simpl in H. bool_to_prop.
  assert (x = s) as -> by eauto using terminal_task_stuck. constructor; auto.
Qed.

(** First entries into the states of a history that starts elsewhere. *)
Lemma first_entry {can cur l s} :
  legal_from can cur l = true → s ∈ l → cur ≠ s →
  ∃ l1 l2, l = l1 ++ s :: l2 ∧ legal_from can cur l1 = true ∧ s ∉ l1 ∧
           last_from cur l1 ≠ s ∧ can (last_from cur l1) s = true ∧
           (last_from cur l1 = cur ∨ last_from cur l1 ∈ l1).
Proof.
  intros Hl Hin Hne. destruct (legal_from_reach _ _ _ _ Hl Hin Hne) as (a & b & ?).
  exists a, b. pose proof (last_from_elem cur a). naive_solver.
Qed.

(** RUNNING is first entered from QUEUED: its other predecessor AWAITING_HUMAN
    is itself only entered from RUNNING. *)
Lemma running_after_queued l :
  legal_from CanTransitionJobState JobStateSubmitted l = true →
  JobStateRunning ∈ l →
  ∃ l1 l2 l3, l = l1 ++ JobStateQueued :: l2 ++ JobStateRunning :: l3.
Proof.
  intros Hl Hin.
  destruct (first_entry Hl Hin) as (a & l3 & -> & Ha & Hnin & Hne & Hc & Hel); [done|].
  apply CanTransitionJobState_pred in Hc; [|done].
  inversion Hc as [|Hq| | | | | | |Hq| |]; rewrite <-Hq in *;
    (destruct Hel as [|Hel]; [done|]).
  - apply list_elem_of_split in Hel as (l1 & l2 & ->).
    exists l1, l2, l3. by rewrite <-app_assoc.
  - destruct (first_entry Ha Hel) as (b & c & -> & _ & _ & Hne' & Hc' & Hel'); [done|].
    apply CanTransitionJobState_pred in Hc'; [|done].
    inversion Hc' as [| | | |Hr| | | | | |]; rewrite <-Hr in *.
    destruct Hel' as [|Hel']; [done|]. set_solver.
Qed.

(** A job history that starts in SUBMITTED and reaches SUCCEEDED went through
    QUEUED and then RUNNING before. *)
Theorem job_success_path l :
  legal_from CanTransitionJobState JobStateSubmitted l = true →
  JobStateSucceeded ∈ l →
  ∃ l1 l2 l3 l4,
    l = l1 ++ JobStateQueued :: l2 ++ JobStateRunning :: l3 ++ JobStateSucceeded :: l4.
Proof.
  intros Hl Hin.
  destruct (first_entry Hl Hin) as (a & l4 & -> & Ha & _ & Hne & Hc & Hel); [done|].
  apply CanTransitionJobState_pred in Hc; [|done].
  inversion Hc as [| | | | |Hr| | | | |]; rewrite <-Hr in *.
  destruct Hel as [|Hel]; [done|].
  destruct (running_after_queued a Ha Hel) as (l1 & l2 & l3 & ->).
  exists l1, l2, l3, l4. by rewrite <-!app_assoc; cbn; rewrite <-!app_assoc.
Qed.

(** A task history never re-enters a state it has left: the position of the
    states below is strictly increasing along every proper transition. *)
Definition task_rank (s : TaskLifecycleState) : Z :=
  if String.eqb s TaskStatePending then 0
  else if String.eqb s TaskStateDispatched then 1
  else if String.eqb s TaskStateRunning then 2
  else 3.

Lemma TaskEdge_rank a b : TaskEdge a b → task_rank a < task_rank b.
Proof. by destruct 1. Qed.

Lemma legal_from_task_rank cur l :
  legal_from CanTransitionTaskState cur l = true →
  Forall (λ s, task_rank cur ≤ task_rank s) l.
Proof.
  revert cur. induction l as [|x l IH]; intros cur H; [constructor|].
  simpl in H. bool_to_prop.
  assert (task_rank cur ≤ task_rank x).
  { apply CanTransitionTaskState_spec in H as [->|H]; [lia|].
    apply TaskEdge_rank in H. lia. }
  constructor; [done|]. eapply Forall_impl; [by apply IH|]. simpl. lia.
Qed.

(** ** Structural validity *)

(** What a stored transition must look like, clause by clause. *)
Definition wf_entity (r : TransitionRecord) : Prop :=
  (tr_EntityType r = TransitionEntityJob ∧ tr_TaskID r = "" ∧
   isValidJobLifecycleState (tr_NewState r) = true ∧
   (tr_PreviousState r = "" ∧ tr_NewState r = JobStateSubmitted ∨
    isValidJobLifecycleState (tr_PreviousState r) = true)) ∨
  (tr_EntityType r = TransitionEntityTask ∧ tr_TaskID r ≠ "" ∧
   isValidTaskLifecycleState (tr_NewState r) = true ∧
   (tr_PreviousState r = "" ∧ tr_NewState r = TaskStatePending ∨
    isValidTaskLifecycleState (tr_PreviousState r) = true)).

Definition wf_transition (r : TransitionRecord) : Prop :=
  tr_SequenceID r ≠ 0%N ∧ tr_JobID r ≠ "" ∧ tr_Transition r ≠ "" ∧
  tr_OccurredAt r ≠ 0 ∧ wf_entity r.

Lemma valid_job_state_nonempty s : isValidJobLifecycleState s = true → s ≠ "".
Proof. intros H ->. discriminate. Qed.
Lemma valid_task_state_nonempty s : isValidTaskLifecycleState s = true → s ≠ "".
Proof. intros H ->. discriminate. Qed.

Lemma Validate_job_spec r :
  Validate_job r = None ↔
  tr_TaskID r = "" ∧ isValidJobLifecycleState (tr_NewState r) = true ∧
  (tr_PreviousState r = "" ∧ tr_NewState r = JobStateSubmitted ∨
   isValidJobLifecycleState (tr_PreviousState r) = true).
Proof.
  unfold Validate_job. destruct (String.eqb_spec (tr_TaskID r) ""); simpl; [|naive_solver].
  destruct (isValidJobLifecycleState (tr_NewState r)); simpl; [|naive_solver].
  destruct (String.eqb_spec (tr_PreviousState r) "") as [E|]; simpl.
  - rewrite E. destruct (String.eqb_spec (tr_NewState r) JobStateSubmitted); naive_solver.
  - destruct (isValidJobLifecycleState (tr_PreviousState r)); naive_solver.
Qed.

Lemma Validate_task_spec r :
  Validate_task r = None ↔
  tr_TaskID r ≠ "" ∧ isValidTaskLifecycleState (tr_NewState r) = true ∧
  (tr_PreviousState r = "" ∧ tr_NewState r = TaskStatePending ∨
   isValidTaskLifecycleState (tr_PreviousState r) = true).
Proof.
  unfold Validate_task. destruct (String.eqb_spec (tr_TaskID r) ""); simpl; [naive_solver|].
  destruct (isValidTaskLifecycleState (tr_NewState r)); simpl; [|naive_solver].
  destruct (String.eqb_spec (tr_PreviousState r) "") as [E|]; simpl.
  - rewrite E. destruct (String.eqb_spec (tr_NewState r) TaskStatePending); naive_solver.
  - destruct (isValidTaskLifecycleState (tr_PreviousState r)); naive_solver.
Qed.

Lemma Validate_spec r : Validate r = None ↔ wf_transition r.
Proof.
  unfold Validate, wf_transition, wf_entity, IsZero.
  destruct (N.eqb_spec (tr_SequenceID r) 0); [naive_solver|].
  destruct (String.eqb_spec (tr_JobID r) ""); [naive_solver|].
  destruct (String.eqb_spec (tr_EntityType r) TransitionEntityJob) as [Ej|Ej];
  destruct (String.eqb_spec (tr_EntityType r) TransitionEntityTask) as [Et|Et]; cbn [andb negb].
  - rewrite Ej in Et; discriminate Et.
  - pose proof (Validate_job_spec r). pose proof (valid_job_state_nonempty (tr_NewState r)).
    destruct (String.eqb_spec (tr_Transition r) ""); [naive_solver|].
    destruct (String.eqb_spec (tr_NewState r) ""); [naive_solver|].
    destruct (Z.eqb_spec (tr_OccurredAt r) 0); naive_solver.
  - pose proof (Validate_task_spec r). pose proof (valid_task_state_nonempty (tr_NewState r)).
    destruct (String.eqb_spec (tr_Transition r) ""); [naive_solver|].
    destruct (String.eqb_spec (tr_NewState r) ""); [naive_solver|].
    destruct (Z.eqb_spec (tr_OccurredAt r) 0); naive_solver.
  - naive_solver.
Qed.

(** ** Theorems *)

(** The transition tables are exactly the documented lifecycle graphs, with the
    self-loops that make a repeated write harmless, and no table lets an entity
    leave a terminal state. *)
Theorem lifecycle_graphs a b :
  (CanTransitionJobState a b = true ↔ a = b ∨ JobEdge a b) ∧
  (CanTransitionTaskState a b = true ↔ a = b ∨ TaskEdge a b) ∧
  (IsTerminalJobState a = true → CanTransitionJobState a b = true → b = a) ∧
  (IsTerminalTaskState a = true → CanTransitionTaskState a b = true → b = a).
Proof.
  split_and!; [apply CanTransitionJobState_spec|apply CanTransitionTaskState_spec|..];
    eauto using terminal_job_stuck, terminal_task_stuck.
Qed.

(** A record is accepted exactly when it has a sequence id, a job, a transition,
    a time and, for its kind of entity, a task id where one belongs and states
    of the right lifecycle, the first one being SUBMITTED or PENDING. *)
Theorem record_validation r : Validate r = None ↔ wf_transition r.
Proof. apply Validate_spec. Qed.
