(* ===== verification/Store.v ===== *)
(** * Transition stores

    [TransitionStoreI] is the interface the scheduler uses: [TransitionStore]
    of pkg/scheduler/state_machine.go together with its optional extensions
    ([AtomicTransitionStore], [DispatchClaimTransitionStoreTx],
    [SequenceIDStore], [DurableTaskLookupStore], [ReplayBatchLookupStore]).
    A Go type assertion [store.(Ext)] is a test of an optional field.
    [MemStore] is pkg/scheduler/transition_store_memory.go; [MemStore_store]
    makes it an instance of the interface. *)

From stdpp Require Import base gmap strings list fin_maps sorting.
From S2P Require Import Prelude StateMachine.

Open Scope Z_scope.

(** ** The interface *)

Class TransitionStoreI (St Tx : Type) := {
  (** [persistTransitionWrite]'s choice between [WithTx] and a direct callback:
      run a callback on a transaction; the second argument is [ctx.Err()]. *)
  WithTx : St → option error → (Tx → option error * Tx) → option error * St;
  AppendTransition : TransitionRecord → Tx → option error * Tx;
  UpsertJob : DurableJobRecord → Tx → option error * Tx;
  UpsertTask : DurableTaskRecord → Tx → option error * Tx;
  (** [DispatchClaimTransitionStoreTx], when the transaction offers it. *)
  ClaimTaskDispatch : option (TaskDispatchClaim → Tx → result bool * Tx);
  (** The store's own [UpsertJob], outside of a transaction. *)
  StoreUpsertJob : DurableJobRecord → St → option error * St;
  ListUnfinishedJobs : St → result (list DurableJobRecord);
  ListTransitionsByJob : St → string → result (list TransitionRecord);
  (** [DurableTaskLookupStore]. *)
  ListTasksByJob : option (St → string → result (list DurableTaskRecord));
  (** [SequenceIDStore]. *)
  NextSequenceID : option (St → string → result N * St);
  (** [ReplayBatchLookupStore]. *)
  ListTransitionsByJobs :
    option ((St → list string → result (gmap string (list TransitionRecord))) *
            (St → list string → result (gmap string (list DurableTaskRecord))));
}.

(** ** The in-memory store *)

Record MemStore := mkMemStore {
  ms_transitions : gmap string (list TransitionRecord);
  ms_jobs : gmap string DurableJobRecord;
  ms_tasks : gmap string DurableTaskRecord;
}.

Module Mem.

Definition NewInMemoryTransitionStore : MemStore := mkMemStore ∅ ∅ ∅.

Definition seq_less (a b : TransitionRecord) : bool :=
  (tr_SequenceID a <? tr_SequenceID b)%N.

Definition set_LastSequenceID (job : DurableJobRecord) (seq : N) : DurableJobRecord :=
  mkDurableJob (dj_JobID job) (dj_Name job) (dj_CurrentState job) seq
    (dj_CreatedAt job) (dj_UpdatedAt job).

(** The transactional methods; the store's own methods are the same code under
    the store mutex. *)
Definition AppendTransition (record : TransitionRecord) (tx : MemStore)
    : option error * MemStore :=
  match Validate record with
  | Some err => (Some err, tx)
  | None =>
      let id := tr_JobID record in
      let l := go_sort seq_less (map_get [] (ms_transitions tx) id ++ [record]) in
      let transitions := <[id := l]> (ms_transitions tx) in
      let jobs :=
        match ms_jobs tx !! id with
        | Some job =>
            if (dj_LastSequenceID job <? tr_SequenceID record)%N
            then <[id := set_LastSequenceID job (tr_SequenceID record)]> (ms_jobs tx)
            else ms_jobs tx
        | None => ms_jobs tx
        end in
      (None, mkMemStore transitions jobs (ms_tasks tx))
  end.

Definition UpsertJob (job : DurableJobRecord) (tx : MemStore) : option error * MemStore :=
  let job' :=
    match ms_jobs tx !! dj_JobID job with
    | Some existing =>
        if (dj_LastSequenceID job <? dj_LastSequenceID existing)%N
        then set_LastSequenceID job (dj_LastSequenceID existing) else job
    | None => job
    end in
  (None, mkMemStore (ms_transitions tx) (<[dj_JobID job := job']> (ms_jobs tx)) (ms_tasks tx)).

Definition UpsertTask (task : DurableTaskRecord) (tx : MemStore) : option error * MemStore :=
  (None, mkMemStore (ms_transitions tx) (ms_jobs tx) (<[dt_TaskID task := task]> (ms_tasks tx))).

Definition set_tasks (tx : MemStore) (tasks : gmap string DurableTaskRecord) : MemStore :=
  mkMemStore (ms_transitions tx) (ms_jobs tx) tasks.

Definition ClaimTaskDispatch (claim : TaskDispatchClaim) (tx : MemStore)
    : result bool * MemStore :=
  if String.eqb (cl_TaskID claim) "" then (inr false, tx)
  else
    match ms_tasks tx !! cl_TaskID claim with
    | None =>
        (inr true, set_tasks tx (<[cl_TaskID claim :=
           mkDurableTask (cl_TaskID claim) (cl_JobID claim) (cl_StageID claim)
             (cl_NodeID claim) "" "" "" "" TaskStateDispatched (cl_Attempt claim)
             (cl_UpdatedAt claim)]> (ms_tasks tx)))
    | Some existing =>
        if (dt_LastAttempt existing <? cl_Attempt claim) &&
           negb (String.eqb (dt_CurrentState existing) TaskStateRunning) &&
           negb (String.eqb (dt_CurrentState existing) TaskStateSucceeded)
        then
          (inr true, set_tasks tx (<[cl_TaskID claim :=
             mkDurableTask (dt_TaskID existing) (cl_JobID claim) (cl_StageID claim)
               (cl_NodeID claim) (dt_AgentID existing) (dt_AgentName existing)
               (dt_InputJSON existing) (dt_PartitionKey existing) TaskStateDispatched
               (cl_Attempt claim) (cl_UpdatedAt claim)]> (ms_tasks tx)))
        else (inr false, tx)
    end.

(** The snapshot copies of [WithTx]: a [range] loop that rebuilds the map. *)
Definition cloneTransitionMap (m : gmap string (list TransitionRecord)) :=
  map_fold (λ jobID records out, <[jobID := records]> out)
    (∅ : gmap string (list TransitionRecord)) m.
Definition cloneJobsMap (m : gmap string DurableJobRecord) :=
  map_fold (λ k v out, <[k := v]> out) (∅ : gmap string DurableJobRecord) m.
Definition cloneTasksMap (m : gmap string DurableTaskRecord) :=
  map_fold (λ k v out, <[k := v]> out) (∅ : gmap string DurableTaskRecord) m.

Definition WithTx (s : MemStore) (ctx_err : option error)
    (fn : MemStore → option error * MemStore) : option error * MemStore :=
  match ctx_err with
  | Some err => (Some err, s)
  | None =>
      let tx := mkMemStore (cloneTransitionMap (ms_transitions s)) (cloneJobsMap (ms_jobs s))
                  (cloneTasksMap (ms_tasks s)) in
      match fn tx with
      | (Some err, _) => (Some err, s)
      | (None, tx') => (None, mkMemStore (ms_transitions tx') (ms_jobs tx') (ms_tasks tx'))
      end
  end.

Definition created_before (a b : DurableJobRecord) : bool :=
  Before (dj_CreatedAt a) (dj_CreatedAt b).

Definition ListUnfinishedJobs (s : MemStore) : result (list DurableJobRecord) :=
  inr (go_sort created_before
         (filter (λ job, IsTerminalJobState (dj_CurrentState job) = false)
            (map_values (ms_jobs s)))).

Definition ListTransitionsByJob (s : MemStore) (jobID : string)
    : result (list TransitionRecord) :=
  inr (map_get [] (ms_transitions s) jobID).

Definition task_id_less (a b : DurableTaskRecord) : bool :=
  string_lt (dt_TaskID a) (dt_TaskID b).

Definition ListTasksByJob (s : MemStore) (jobID : string) : result (list DurableTaskRecord) :=
  inr (go_sort task_id_less
         (filter (λ task, dt_JobID task = jobID) (map_values (ms_tasks s)))).

End Mem.

#[export] Instance MemStore_store : TransitionStoreI MemStore MemStore := {
  WithTx := Mem.WithTx;
  AppendTransition := Mem.AppendTransition;
  UpsertJob := Mem.UpsertJob;
  UpsertTask := Mem.UpsertTask;
  ClaimTaskDispatch := Some Mem.ClaimTaskDispatch;
  StoreUpsertJob := Mem.UpsertJob;
  ListUnfinishedJobs := Mem.ListUnfinishedJobs;
  ListTransitionsByJob := Mem.ListTransitionsByJob;
  ListTasksByJob := Some Mem.ListTasksByJob;
  NextSequenceID := None;
  ListTransitionsByJobs := None;
}.

(** ** Facts about the in-memory store *)

Lemma map_fold_insert_id {V} (m : gmap string V) :
  map_fold (λ k v out, <[k := v]> out) (∅ : gmap string V) m = m.
Proof.
  apply (map_fold_weak_ind (λ r m, r = m)); [done|]. by intros k v m' r _ ->.
Qed.

Lemma seq_less_asym a b : Mem.seq_less a b = true → Mem.seq_less b a = false.
Proof. unfold Mem.seq_less. intros. bool_to_prop. apply N.ltb_ge. lia. Qed.

Lemma seq_less_le_trans a b c :
  Mem.seq_less b a = false → Mem.seq_less c b = false → Mem.seq_less c a = false.
Proof. unfold Mem.seq_less. intros. bool_to_prop. apply N.ltb_ge. lia. Qed.

(** [seq_sorted l]: [l] is in ascending order of sequence ids. *)
Definition seq_sorted (l : list TransitionRecord) : Prop :=
  StronglySorted (sort_le Mem.seq_less) l.

Lemma seq_sorted_go_sort l : seq_sorted (go_sort Mem.seq_less l).
Proof. apply go_sort_sorted; eauto using seq_less_asym, seq_less_le_trans. Qed.

(** Well-formed tables: every job's log is sorted and holds valid records of
    that job, and the index entries sit under their own ids. *)
Record store_wf (s : MemStore) : Prop := {
  wf_log : ∀ id l, ms_transitions s !! id = Some l →
    seq_sorted l ∧ Forall (λ r, Validate r = None ∧ tr_JobID r = id) l;
  wf_jobs : ∀ id j, ms_jobs s !! id = Some j → dj_JobID j = id;
  wf_tasks : ∀ id t, ms_tasks s !! id = Some t → dt_TaskID t = id;
}.

Lemma NewInMemoryTransitionStore_wf : store_wf Mem.NewInMemoryTransitionStore.
Proof. by split. Qed.

(** The log of a job, empty when the job is unknown. *)
Definition job_log (s : MemStore) (id : string) : list TransitionRecord :=
  map_get [] (ms_transitions s) id.

Lemma store_wf_log s id :
  store_wf s → seq_sorted (job_log s id) ∧
               Forall (λ r, Validate r = None ∧ tr_JobID r = id) (job_log s id).
Proof.
  intros Hwf. unfold job_log, map_get. destruct (ms_transitions s !! id) eqn:E; simpl.
  - by eapply wf_log.
  - split; constructor.
Qed.

Section AppendTransition.
Context (r : TransitionRecord) (s : MemStore).

Lemma AppendTransition_invalid err :
  Validate r = Some err → Mem.AppendTransition r s = (Some err, s).
Proof. unfold Mem.AppendTransition. by intros ->. Qed.

Lemma AppendTransition_log :
  Validate r = None →
  job_log (Mem.AppendTransition r s).2 (tr_JobID r)
  = go_sort Mem.seq_less (job_log s (tr_JobID r) ++ [r]).
Proof.
  unfold Mem.AppendTransition, job_log, map_get. intros ->. simpl.
  by rewrite lookup_insert_eq.
Qed.

Lemma AppendTransition_log_other id :
  id ≠ tr_JobID r → job_log (Mem.AppendTransition r s).2 id = job_log s id.
Proof.
  unfold Mem.AppendTransition, job_log, map_get. intros Hne.
  destruct (Validate r); [done|]. simpl. by rewrite lookup_insert_ne.
Qed.

Lemma AppendTransition_tasks : ms_tasks (Mem.AppendTransition r s).2 = ms_tasks s.
Proof. unfold Mem.AppendTransition. by destruct (Validate r). Qed.

(** Appending past the end of a sorted log keeps the append order. *)
Lemma AppendTransition_log_last :
  Validate r = None → seq_sorted (job_log s (tr_JobID r)) →
  Forall (λ r', (tr_SequenceID r' ≤ tr_SequenceID r)%N) (job_log s (tr_JobID r)) →
  job_log (Mem.AppendTransition r s).2 (tr_JobID r) = job_log s (tr_JobID r) ++ [r].
Proof.
  intros Hv Hs Hle. rewrite AppendTransition_log by done. rewrite go_sort_snoc.
  rewrite (go_sort_id _ (job_log s (tr_JobID r))) by done.
  apply sort_insert_last. eapply Forall_impl; [exact Hle|]. simpl.
  intros r' Hr'. unfold Mem.seq_less. by apply N.ltb_ge.
Qed.

Lemma AppendTransition_wf : store_wf s → store_wf (Mem.AppendTransition r s).2.
Proof.
  intros Hwf. unfold Mem.AppendTransition. destruct (Validate r) eqn:Hv; [done|]. simpl.
  split; simpl.
  - intros id l Hl. apply lookup_insert_Some in Hl as [[<- <-]|[Hne Hl]];
      [|by apply (wf_log _ Hwf)].
    split; [apply seq_sorted_go_sort|].
    rewrite go_sort_perm. apply Forall_app. split; [|by repeat constructor].
    apply (store_wf_log s (tr_JobID r) Hwf).
  - intros id j. destruct (ms_jobs s !! tr_JobID r) as [j0|] eqn:E; [|by apply wf_jobs].
    simp_if; [|by apply wf_jobs].
    intros [[<- <-]|[? H]]%lookup_insert_Some; [|by apply (wf_jobs _ Hwf)].
    simpl. by apply (wf_jobs _ Hwf).
  - apply (wf_tasks _ Hwf).
Qed.
End AppendTransition.

Lemma UpsertJob_wf j s : store_wf s → store_wf (Mem.UpsertJob j s).2.
Proof.
  intros Hwf. split; simpl; [apply (wf_log _ Hwf)| |apply (wf_tasks _ Hwf)].
  intros id j' [[<- <-]|[? H]]%lookup_insert_Some; [|by apply (wf_jobs _ Hwf)].
  destruct (ms_jobs s !! dj_JobID j); [|done]. by simp_if.
Qed.

Lemma UpsertTask_wf t s : store_wf s → store_wf (Mem.UpsertTask t s).2.
Proof.
  intros Hwf. split; simpl; [apply (wf_log _ Hwf)|apply (wf_jobs _ Hwf)|].
  intros id t' [[<- <-]|[? H]]%lookup_insert_Some; [done|by apply (wf_tasks _ Hwf)].
Qed.

Lemma ClaimTaskDispatch_wf c s : store_wf s → store_wf (Mem.ClaimTaskDispatch c s).2.
Proof.
  intros Hwf. unfold Mem.ClaimTaskDispatch. simp_if; [done|].
  destruct (ms_tasks s !! cl_TaskID c) as [t|] eqn:E; [simp_if; [|done]|];
    (split; simpl; [apply (wf_log _ Hwf)|apply (wf_jobs _ Hwf)|]);
    intros id t' [[<- <-]|[? H]]%lookup_insert_Some; simpl; try done;
    by apply (wf_tasks _ Hwf).
Qed.

#[export] Hint Resolve AppendTransition_wf UpsertJob_wf UpsertTask_wf ClaimTaskDispatch_wf
  NewInMemoryTransitionStore_wf : dagens.

(** The clones of [WithTx] hold the same tables, so a callback that returns no
    error is committed as if it ran on the store, and one that fails leaves
    the store as it was. *)
Lemma WithTx_spec s fn :
  Mem.WithTx s None fn =
  match fn s with
  | (None, s') => (None, s')
  | (Some err, _) => (Some err, s)
  end.
Proof.
  unfold Mem.WithTx, Mem.cloneTransitionMap, Mem.cloneJobsMap, Mem.cloneTasksMap.
  rewrite !map_fold_insert_id. destruct s as [a b c]; simpl.
  destruct (fn _) as [[err|] [? ? ?]]; done.
Qed.

Lemma WithTx_error s ctx fn err s' :
  Mem.WithTx s ctx fn = (Some err, s') → s' = s.
Proof.
  destruct ctx; [by intros [= _ <-]|]. rewrite WithTx_spec.
  by destruct (fn s) as [[]]; intros [= _ <-].
Qed.

Lemma WithTx_wf s ctx fn :
  store_wf s → (∀ tx, store_wf tx → store_wf (fn tx).2) → store_wf (Mem.WithTx s ctx fn).2.
Proof.
  intros Hwf Hfn. destruct ctx; [done|]. rewrite WithTx_spec. specialize (Hfn s Hwf).
  by destruct (fn s) as [[]].
Qed.

(** ** Dispatch claims (compare-and-swap fencing) *)

(** A claim is granted exactly when the task is unknown, or when the claimed
    attempt is newer than the recorded one and the task is neither running nor
    succeeded. *)
Definition claim_granted (c : TaskDispatchClaim) (s : MemStore) : bool :=
  negb (String.eqb (cl_TaskID c) "") &&
  match ms_tasks s !! cl_TaskID c with
  | None => true
  | Some t => (dt_LastAttempt t <? cl_Attempt c) &&
              negb (String.eqb (dt_CurrentState t) TaskStateRunning) &&
              negb (String.eqb (dt_CurrentState t) TaskStateSucceeded)
  end.

Lemma ClaimTaskDispatch_result c s :
  (Mem.ClaimTaskDispatch c s).1 = inr (claim_granted c s).
Proof.
  unfold Mem.ClaimTaskDispatch, claim_granted.
  destruct (String.eqb _ ""); [done|]. destruct (ms_tasks s !! _); simpl; [|done].
  by destruct (_ && _ && _).
Qed.

Lemma ClaimTaskDispatch_denied c s :
  claim_granted c s = false → (Mem.ClaimTaskDispatch c s).2 = s.
Proof.
  unfold Mem.ClaimTaskDispatch, claim_granted.
  destruct (String.eqb _ ""); [done|]. destruct (ms_tasks s !! _); simpl; [|done].
  by destruct (_ && _ && _).
Qed.

Lemma ClaimTaskDispatch_granted c s :
  claim_granted c s = true →
  ∃ t, ms_tasks (Mem.ClaimTaskDispatch c s).2 = <[cl_TaskID c := t]> (ms_tasks s) ∧
       dt_LastAttempt t = cl_Attempt c ∧ dt_CurrentState t = TaskStateDispatched ∧
       dt_NodeID t = cl_NodeID c.
Proof.
  unfold Mem.ClaimTaskDispatch, claim_granted.
  destruct (String.eqb _ ""); [done|]. destruct (ms_tasks s !! _) as [t|]; simpl.
  - destruct (_ && _ && _); [|done]. intros _. eexists. split; [done|done].
  - intros _. eexists. split; [done|done].
Qed.

Lemma claim_granted_attempt c s t :
  claim_granted c s = true → ms_tasks s !! cl_TaskID c = Some t →
  dt_LastAttempt t < cl_Attempt c.
Proof.
  unfold claim_granted. intros H E. rewrite E in H. bool_to_prop. by bool_to_prop.
Qed.

(** Competing dispatchers: the claims of several schedulers, in the order in
    which their transactions commit, with the answer each one got. *)
Fixpoint run_claims (cs : list TaskDispatchClaim) (s : MemStore)
    : list (TaskDispatchClaim * bool) * MemStore :=
  match cs with
  | [] => ([], s)
  | c :: cs' =>
      let granted := match (Mem.ClaimTaskDispatch c s).1 with inr b => b | inl _ => false end in
      let '(out, s') := run_claims cs' (Mem.ClaimTaskDispatch c s).2 in
      ((c, granted) :: out, s')
  end.

(** The recorded attempt of a task never decreases, and the claims granted
    afterwards all carry a newer attempt. *)
Lemma run_claims_newer cs s id t :
  ms_tasks s !! id = Some t →
  Forall (λ '(c, granted), cl_TaskID c = id → granted = true →
            dt_LastAttempt t < cl_Attempt c) (run_claims cs s).1.
Proof.
  revert s t. induction cs as [|c cs IH]; intros s t Ht; simpl; [constructor|].
  rewrite ClaimTaskDispatch_result.
  assert (∃ t', ms_tasks (Mem.ClaimTaskDispatch c s).2 !! id = Some t' ∧
                dt_LastAttempt t ≤ dt_LastAttempt t') as (t' & Ht' & Hle).
  { destruct (claim_granted c s) eqn:Hg.
    - destruct (ClaimTaskDispatch_granted c s Hg) as (t1 & -> & Ha & _).
      destruct (decide (cl_TaskID c = id)) as [E|Hne].
      + exists t1. rewrite E, lookup_insert_eq. split; [done|]. subst id.
        pose proof (claim_granted_attempt c s t Hg Ht). lia.
      + exists t. rewrite lookup_insert_ne by done. split; [done|lia].
    - rewrite ClaimTaskDispatch_denied by done. exists t. split; [done|lia]. }
  specialize (IH _ _ Ht').
  destruct (run_claims cs (Mem.ClaimTaskDispatch c s).2) as [out s'] eqn:E. simpl in *.
  constructor.
  - intros <- Hg. eauto using claim_granted_attempt.
  - eapply Forall_impl; [exact IH|]. intros [c' b] H ? ?. simpl in H.
    specialize (H ltac:(done) ltac:(done)). lia.
Qed.

(** The claims granted for one task, in commit order. *)
Definition granted_for (id : string) (out : list (TaskDispatchClaim * bool)) : list Z :=
  omap (λ '(c, granted), if granted && String.eqb (cl_TaskID c) id
                         then Some (cl_Attempt c) else None) out.

(** C5. At most one dispatcher wins each attempt of a task: the attempts granted
    for a task are strictly increasing in commit order, whatever the schedulers
    claim and whatever the task table held. *)
Theorem claims_exclusive cs s id :
  StronglySorted Z.lt (granted_for id (run_claims cs s).1).
Proof.
  revert s. induction cs as [|c cs IH]; intros s; simpl; [constructor|].
  rewrite ClaimTaskDispatch_result.
  specialize (IH (Mem.ClaimTaskDispatch c s).2).
  pose proof (run_claims_newer cs (Mem.ClaimTaskDispatch c s).2 id) as Hnew.
  destruct (run_claims cs (Mem.ClaimTaskDispatch c s).2) as [out s'] eqn:E. simpl in *.
  destruct (claim_granted c s) eqn:Hg; [|done]. simpl.
  destruct (String.eqb_spec (cl_TaskID c) id) as [<-|]; [|done].
  constructor; [done|].
  destruct (ClaimTaskDispatch_granted c s Hg) as (t1 & Ht1 & Ha & _).
  rewrite Ht1 in Hnew. specialize (Hnew t1 (lookup_insert_eq _ _ _)). rewrite Ha in Hnew.
  apply Forall_forall. intros a Hina. apply list_elem_of_omap in Hina as ([c' b] & Hin & Hab).
  rewrite Forall_forall in Hnew. specialize (Hnew _ Hin). simpl in *.
  destruct b; [|done]. simpl in Hab.
  destruct (String.eqb_spec (cl_TaskID c') (cl_TaskID c)); naive_solver.
Qed.

(** ** Theorems *)

(** A transaction is all or nothing: the copies it works on are a snapshot of
    the store, its callback sees exactly the store, a callback that fails or a
    context that is done leaves the store as it was, and otherwise the store
    becomes what the callback made of it. *)
Theorem transaction_atomic s ctx_err fn :
  Mem.WithTx s ctx_err fn =
  match ctx_err with
  | Some err => (Some err, s)
  | None => match fn s with
            | (Some err, _) => (Some err, s)
            | (None, s') => (None, s')
            end
  end.
Proof. destruct ctx_err as [err|]; [done|]. rewrite WithTx_spec. by destruct (fn s) as [[]]. Qed.

(** C17. Every write keeps the store well formed: each log is sorted by sequence id
    and holds valid records of its own job, and the indexes are keyed by the
    ids they hold. *)
Theorem store_invariant s r j t c :
  store_wf s →
  store_wf (Mem.AppendTransition r s).2 ∧ store_wf (Mem.UpsertJob j s).2 ∧
  store_wf (Mem.UpsertTask t s).2 ∧ store_wf (Mem.ClaimTaskDispatch c s).2.
Proof. auto with dagens. Qed.
