(* ===== verification/Replay.v ===== *)
(** * Replay of durable transition histories (pkg/scheduler/replay.go)

    [ctx.Err()] is polled by the loops: [ctx n] is the answer to the [n]-th
    poll, and every function returns the index of the next poll, so that a
    context may be cancelled between any two polls. *)

From stdpp Require Import base gmap strings list fin_maps sorting.
From S2P Require Import Prelude StateMachine Store.

Open Scope Z_scope.

(** ** Definitions *)

Abbreviation Ctx := (nat → option error) (only parsing).

Record ReplayedJobState := mkReplayed {
  rs_Job : DurableJobRecord;
  rs_Tasks : gmap string DurableTaskRecord;
  rs_Transitions : list TransitionRecord;
}.

(** The static payload a task is seeded with: its lifecycle fields stay unset. *)
Definition seed_task (task : DurableTaskRecord) : DurableTaskRecord :=
  mkDurableTask (dt_TaskID task) (dt_JobID task) (dt_StageID task) (dt_NodeID task)
    (dt_AgentID task) (dt_AgentName task) (dt_InputJSON task) (dt_PartitionKey task) "" 0 0.

Definition replay_init (jobID : string) (transitions : list TransitionRecord)
    (durableTasks : list DurableTaskRecord) : ReplayedJobState :=
  mkReplayed (mkDurableJob jobID "" "" 0 0 0)
    (foldl (λ m task, <[dt_TaskID task := seed_task task]> m) ∅ durableTasks)
    transitions.

Definition apply_job_record (job : DurableJobRecord) (record : TransitionRecord)
    : DurableJobRecord :=
  mkDurableJob (dj_JobID job) (dj_Name job) (tr_NewState record) (dj_LastSequenceID job)
    (if IsZero (dj_CreatedAt job) then tr_OccurredAt record else dj_CreatedAt job)
    (tr_OccurredAt record).

Definition apply_task_record (current : DurableTaskRecord) (record : TransitionRecord)
    : DurableTaskRecord :=
  mkDurableTask (tr_TaskID record) (tr_JobID record) (dt_StageID current) (tr_NodeID record)
    (dt_AgentID current) (dt_AgentName current) (dt_InputJSON current)
    (dt_PartitionKey current) (tr_NewState record)
    (if dt_LastAttempt current <? tr_Attempt record
     then tr_Attempt record else dt_LastAttempt current)
    (tr_OccurredAt record).

(** One iteration of the replay loop, after the context poll. *)
Definition replay_record (jobID : string) (state : ReplayedJobState)
    (record : TransitionRecord) : result ReplayedJobState :=
  match Validate record with
  | Some err =>
      inl (EWrap ("invalid transition during replay for job " +:+ jobID +:+ ": ") err "")
  | None =>
    if negb (String.eqb (tr_JobID record) jobID) then
      inl (EText ("transition references wrong job during replay: expected " +:+ jobID +:+
                  ", got " +:+ tr_JobID record))
    else if String.eqb (tr_EntityType record) TransitionEntityJob then
      let cur := dj_CurrentState (rs_Job state) in
      if negb (String.eqb cur "") && negb (CanTransitionJobState cur (tr_NewState record)) then
        inl (EText ("illegal job transition during replay for job " +:+ jobID +:+ ": " +:+
                    cur +:+ " -> " +:+ tr_NewState record))
      else
        inr (mkReplayed (apply_job_record (rs_Job state) record) (rs_Tasks state)
               (rs_Transitions state))
    else if String.eqb (tr_EntityType record) TransitionEntityTask then
      let current := map_get zero_DurableTask (rs_Tasks state) (tr_TaskID record) in
      let cur := dt_CurrentState current in
      if negb (String.eqb cur "") && negb (CanTransitionTaskState cur (tr_NewState record)) then
        inl (EText ("illegal task transition during replay for task " +:+ tr_TaskID record +:+
                    ": " +:+ cur +:+ " -> " +:+ tr_NewState record))
      else
        inr (mkReplayed (rs_Job state)
               (<[tr_TaskID record := apply_task_record current record]> (rs_Tasks state))
               (rs_Transitions state))
    else inl (EText ("unknown transition entity type " +:+ fmt_q (tr_EntityType record)))
  end.

Fixpoint replay_loop (ctx : Ctx) (n : nat) (jobID : string) (state : ReplayedJobState)
    (transitions : list TransitionRecord) : result ReplayedJobState * nat :=
  match transitions with
  | [] => (inr state, n)
  | record :: rest =>
      match ctx n with
      | Some err => (inl err, S n)
      | None =>
          match replay_record jobID state record with
          | inl err => (inl err, S n)
          | inr state' => replay_loop ctx (S n) jobID state' rest
          end
      end
  end.

Definition replayJobStateFromData (ctx : Ctx) (n : nat) (jobID : string)
    (transitions : list TransitionRecord) (durableTasks : list DurableTaskRecord)
    : result ReplayedJobState * nat :=
  replay_loop ctx n jobID (replay_init jobID transitions durableTasks) transitions.

Section Store.
Context {St Tx : Type} `{!TransitionStoreI St Tx}.

Definition ReplayJobState (ctx : Ctx) (n : nat) (store : option St) (jobID : string)
    : result ReplayedJobState * nat :=
  match store with
  | None => (inl (EText "transition store is required"), n)
  | Some store =>
      if String.eqb jobID "" then (inl (EText "job_id is required"), n)
      else
        match ListTransitionsByJob store jobID with
        | inl err => (inl err, n)
        | inr transitions =>
            match ListTasksByJob with
            | None => replayJobStateFromData ctx n jobID transitions []
            | Some list_tasks =>
                match list_tasks store jobID with
                | inl err => (inl (EWrap "list durable tasks by job: " err ""), n)
                | inr durableTasks =>
                    replayJobStateFromData ctx n jobID transitions durableTasks
                end
            end
        end
  end.

(** What the listed job record adds to the replayed view. *)
Definition merge_listed_job (job : DurableJobRecord) (replayed : ReplayedJobState)
    : ReplayedJobState :=
  let r := rs_Job replayed in
  let last :=
    match List.rev (rs_Transitions replayed) with
    | t :: _ => if (dj_LastSequenceID job <? tr_SequenceID t)%N
                then tr_SequenceID t else dj_LastSequenceID job
    | [] => dj_LastSequenceID job
    end in
  mkReplayed
    (mkDurableJob (dj_JobID r) (dj_Name job) (dj_CurrentState r) last
       (if IsZero (dj_CreatedAt r) then dj_CreatedAt job else dj_CreatedAt r)
       (if IsZero (dj_UpdatedAt r) then dj_UpdatedAt job else dj_UpdatedAt r))
    (rs_Tasks replayed) (rs_Transitions replayed).

Abbreviation Batches :=
  (gmap string (list TransitionRecord) * gmap string (list DurableTaskRecord))%type.

(** The bulk loading step of [ReplayStateFromStore]: [None] when the store
    has no batch lookup or there is no job to load. *)
Definition load_batches (store : St) (jobs : list DurableJobRecord) : result (option Batches) :=
  match ListTransitionsByJobs with
  | Some (list_transitions, list_tasks) =>
      match jobs with
      | [] => inr None
      | _ =>
          let jobIDs := dj_JobID <$> jobs in
          match list_transitions store jobIDs with
          | inl err => inl err
          | inr trs =>
              match list_tasks store jobIDs with
              | inl err => inl err
              | inr tks =>
                  let check := fix check (ids : list string) : option error :=
                    match ids with
                    | [] => None
                    | id :: ids' =>
                        match trs !! id, tks !! id with
                        | None, _ => Some (EText ("batched replay transitions missing job " +:+ id))
                        | _, None => Some (EText ("batched replay tasks missing job " +:+ id))
                        | _, _ => check ids'
                        end
                    end in
                  match check jobIDs with
                  | Some err => inl err
                  | None => inr (Some (trs, tks))
                  end
              end
          end
      end
  | None => inr None
  end.

Fixpoint replay_jobs (ctx : Ctx) (n : nat) (store : St) (batches : option Batches)
    (jobs : list DurableJobRecord) : result (list ReplayedJobState) * nat :=
  match jobs with
  | [] => (inr [], n)
  | job :: rest =>
      match ctx n with
      | Some err => (inl err, S n)
      | None =>
          let '(res, n1) :=
            match batches with
            | Some (trs, tks) =>
                replayJobStateFromData ctx (S n) (dj_JobID job)
                  (map_get [] trs (dj_JobID job)) (map_get [] tks (dj_JobID job))
            | None => ReplayJobState ctx (S n) (Some store) (dj_JobID job)
            end in
          match res with
          | inl err => (inl (EReplayJob (dj_JobID job) err), n1)
          | inr replayed =>
              let '(res', n2) := replay_jobs ctx n1 store batches rest in
              match res' with
              | inl err => (inl err, n2)
              | inr l => (inr (merge_listed_job job replayed :: l), n2)
              end
          end
      end
  end.

(** Oldest first, ties by job id. *)
Definition durable_job_less (a b : DurableJobRecord) : bool :=
  if dj_CreatedAt a =? dj_CreatedAt b then string_lt (dj_JobID a) (dj_JobID b)
  else Before (dj_CreatedAt a) (dj_CreatedAt b).

Definition ReplayStateFromStore (ctx : Ctx) (n : nat) (store : option St)
    : result (list ReplayedJobState) * nat :=
  match store with
  | None => (inl (EText "transition store is required"), n)
  | Some store =>
      match ListUnfinishedJobs store with
      | inl err => (inl err, n)
      | inr jobs =>
          match load_batches store jobs with
          | inl err => (inl err, n)
          | inr batches =>
              let '(res, n') := replay_jobs ctx n store batches jobs in
              match res with
              | inl err => (inl err, n')
              | inr l => (inr (go_sort (λ a b, durable_job_less (rs_Job a) (rs_Job b)) l), n')
              end
          end
      end
  end.
End Store.

(** ** The replay loop without polls *)

Fixpoint replay_fold (jobID : string) (state : ReplayedJobState)
    (transitions : list TransitionRecord) : result ReplayedJobState :=
  match transitions with
  | [] => inr state
  | record :: rest =>
      match replay_record jobID state record with
      | inl err => inl err
      | inr state' => replay_fold jobID state' rest
      end
  end.

(** A context is alive when no poll finds it cancelled. *)
Definition ctx_alive (ctx : Ctx) : Prop := ∀ n, ctx n = None.

Lemma replay_loop_alive ctx n jobID st l :
  ctx_alive ctx → (replay_loop ctx n jobID st l).1 = replay_fold jobID st l.
Proof.
  intros Hctx. revert n st. induction l as [|r l IH]; intros n st; simpl; [done|].
  rewrite Hctx. by destruct (replay_record jobID st r).
Qed.

(** Cancellation can only turn a result into an error. *)
Lemma replay_loop_sound ctx n jobID st l st' :
  (replay_loop ctx n jobID st l).1 = inr st' → replay_fold jobID st l = inr st'.
Proof.
  revert n st. induction l as [|r l IH]; intros n st; simpl; [done|].
  destruct (ctx n); [done|]. destruct (replay_record jobID st r); [done|]. apply IH.
Qed.

(** ** What a history says

    The states a job, or one of its tasks, enters in a history. *)
Definition is_job_record (r : TransitionRecord) : bool :=
  String.eqb (tr_EntityType r) TransitionEntityJob.

Definition is_task_record (id : string) (r : TransitionRecord) : bool :=
  String.eqb (tr_EntityType r) TransitionEntityTask && String.eqb (tr_TaskID r) id.

Definition job_states (l : list TransitionRecord) : list string :=
  tr_NewState <$> filter is_job_record l.

Definition task_states (id : string) (l : list TransitionRecord) : list string :=
  tr_NewState <$> filter (is_task_record id) l.

(** Legal histories from a current state, the empty string standing for "not
    started": the first entered state is then unconstrained. *)
Definition legal_cur (can : string → string → bool) (cur : string) (l : list string) : bool :=
  if String.eqb cur "" then
    match l with [] => true | x :: l' => legal_from can x l' end
  else legal_from can cur l.

Lemma legal_cur_cons can cur x l :
  legal_cur can cur (x :: l) =
  (String.eqb cur "" || can cur x) && legal_from can x l.
Proof. unfold legal_cur. by destruct (String.eqb cur ""). Qed.

Lemma legal_cur_set can cur l : cur ≠ "" → legal_cur can cur l = legal_from can cur l.
Proof. unfold legal_cur. by intros ?%String.eqb_neq; rewrite H. Qed.

Lemma legal_cur_snoc can cur l x :
  cur ≠ "" ∨ l ≠ [] → Forall (λ s, s ≠ "") l →
  legal_cur can cur (l ++ [x]) = legal_cur can cur l && can (last_from cur l) x.
Proof.
  intros Hne Hl. unfold legal_cur. destruct (String.eqb_spec cur ""); subst.
  - destruct l as [|y l]; [naive_solver|]. simpl. rewrite legal_from_app. simpl.
    by rewrite andb_true_r.
  - rewrite legal_from_app. simpl. by rewrite andb_true_r.
Qed.

(** A history that replays: valid records of this job, legal job states, and
    legal states for every task. *)
Definition history_ok (jobID : string) (l : list TransitionRecord) : Prop :=
  Forall (λ r, Validate r = None ∧ tr_JobID r = jobID) l ∧
  legal_cur CanTransitionJobState "" (job_states l) = true ∧
  ∀ id, legal_cur CanTransitionTaskState "" (task_states id l) = true.

Definition cur_task_state (st : ReplayedJobState) (id : string) : string :=
  dt_CurrentState (map_get zero_DurableTask (rs_Tasks st) id).

Lemma job_states_cons r l :
  job_states (r :: l) = (if is_job_record r then [tr_NewState r] else []) ++ job_states l.
Proof. unfold job_states. rewrite filter_cons. by destruct (is_job_record r). Qed.

Lemma task_states_cons id r l :
  task_states id (r :: l) =
  (if is_task_record id r then [tr_NewState r] else []) ++ task_states id l.
Proof. unfold task_states. rewrite filter_cons. by destruct (is_task_record id r). Qed.

Lemma job_states_app l1 l2 : job_states (l1 ++ l2) = job_states l1 ++ job_states l2.
Proof. unfold job_states. by rewrite filter_app, fmap_app. Qed.

Lemma task_states_app id l1 l2 :
  task_states id (l1 ++ l2) = task_states id l1 ++ task_states id l2.
Proof. unfold task_states. by rewrite filter_app, fmap_app. Qed.

(** *** One record *)

Inductive replayed_record (jobID : string) (st : ReplayedJobState) (r : TransitionRecord)
    : ReplayedJobState → Prop :=
  | rr_job :
      is_job_record r = true → (∀ id, is_task_record id r = false) →
      String.eqb (dj_CurrentState (rs_Job st)) "" ||
        CanTransitionJobState (dj_CurrentState (rs_Job st)) (tr_NewState r) = true →
      replayed_record jobID st r
        (mkReplayed (apply_job_record (rs_Job st) r) (rs_Tasks st) (rs_Transitions st))
  | rr_task :
      is_job_record r = false → (∀ id, is_task_record id r = String.eqb (tr_TaskID r) id) →
      String.eqb (cur_task_state st (tr_TaskID r)) "" ||
        CanTransitionTaskState (cur_task_state st (tr_TaskID r)) (tr_NewState r) = true →
      replayed_record jobID st r
        (mkReplayed (rs_Job st)
           (<[tr_TaskID r := apply_task_record
                (map_get zero_DurableTask (rs_Tasks st) (tr_TaskID r)) r]> (rs_Tasks st))
           (rs_Transitions st)).

Lemma replay_record_inv jobID st r st' :
  replay_record jobID st r = inr st' ↔
  Validate r = None ∧ tr_JobID r = jobID ∧ replayed_record jobID st r st'.
Proof.
  unfold replay_record. destruct (Validate r) eqn:Hv; [naive_solver|].
  destruct (String.eqb_spec (tr_JobID r) jobID) as [Hj|]; simpl; [|naive_solver].
  assert (wf_entity r) as Hwf by (by apply Validate_spec in Hv as (_ & _ & _ & _ & ?)).
  destruct (String.eqb_spec (tr_EntityType r) TransitionEntityJob) as [Et|Et].
  - assert (is_job_record r = true) by (by unfold is_job_record; rewrite Et).
    assert (∀ id, is_task_record id r = false) by (by unfold is_task_record; rewrite Et).
    rewrite <-negb_orb. destruct (_ || _) eqn:Hc; simpl; split.
    + intros [= <-]. split_and!; [done..|]. by apply rr_job.
    + intros (_ & _ & []); [done|congruence].
    + done.
    + intros (_ & _ & [? ? Hc'|]); [|congruence]. congruence.
  - destruct Hwf as [(? & _)|(Et' & _)]; [done|]. rewrite Et'. simpl.
    assert (is_job_record r = false) by (by unfold is_job_record; rewrite Et').
    assert (∀ id, is_task_record id r = String.eqb (tr_TaskID r) id)
      by (by unfold is_task_record; rewrite Et').
    rewrite <-negb_orb. fold (cur_task_state st (tr_TaskID r)).
    destruct (_ || _) eqn:Hc; simpl; split.
    + intros [= <-]. split_and!; [done..|]. by apply rr_task.
    + intros (_ & _ & []); [congruence|done].
    + done.
    + intros (_ & _ & [|? ? Hc']); [congruence|]. congruence.
Qed.

Lemma wf_NewState_nonempty r : Validate r = None → tr_NewState r ≠ "".
Proof.
  intros (_ & _ & _ & _ & [(_ & _ & H & _)|(_ & _ & H & _)])%Validate_spec;
    eauto using valid_job_state_nonempty, valid_task_state_nonempty.
Qed.

(** *** Soundness and completeness of replay *)

Lemma cur_task_state_insert job tasks trs id t id' :
  cur_task_state (mkReplayed job (<[id := t]> tasks) trs) id' =
  if String.eqb id id' then dt_CurrentState t
  else cur_task_state (mkReplayed job tasks trs) id'.
Proof.
  unfold cur_task_state, map_get. simpl. destruct (String.eqb_spec id id') as [<-|Hne].
  - by rewrite lookup_insert_eq.
  - by rewrite lookup_insert_ne.
Qed.

Lemma replay_fold_ok jobID st l :
  (∃ st', replay_fold jobID st l = inr st') ↔
  Forall (λ r, Validate r = None ∧ tr_JobID r = jobID) l ∧
  legal_cur CanTransitionJobState (dj_CurrentState (rs_Job st)) (job_states l) = true ∧
  ∀ id, legal_cur CanTransitionTaskState (cur_task_state st id) (task_states id l) = true.
Proof.
  revert st. induction l as [|r l IH]; intros st.
  { split; [|simpl; eauto]. intros _. split; [constructor|].
    unfold legal_cur; simpl. split; [by destruct (String.eqb _ "")|].
    intros id. by destruct (String.eqb _ ""). }
  simpl. rewrite Forall_cons, job_states_cons. setoid_rewrite task_states_cons.
  destruct (replay_record jobID st r) as [err|st1] eqn:Hr.
  - split; [intros [? [=]]|]. intros ((Hall1 & _) & Hj & Ht). exfalso.
    destruct Hall1 as [Hv Hid].
    assert (∃ st1, replay_record jobID st r = inr st1) as [? ?]; [|congruence].
    setoid_rewrite replay_record_inv.
    assert (wf_entity r) as Hwf by (by apply Validate_spec in Hv as (_ & _ & _ & _ & ?)).
    destruct Hwf as [(Et & _)|(Et & _)]; eexists; (split_and!; [done..|]).
    + assert (is_job_record r = true) as Ej by (by unfold is_job_record; rewrite Et).
      rewrite Ej in Hj. cbn [app] in Hj. rewrite legal_cur_cons in Hj. bool_to_prop.
      apply rr_job; [done|by unfold is_task_record; rewrite Et|]. by apply orb_true_iff.
    + assert (is_task_record (tr_TaskID r) r = true) as Ek
        by (unfold is_task_record; by rewrite Et, !String.eqb_refl).
      specialize (Ht (tr_TaskID r)). rewrite Ek in Ht. cbn [app] in Ht.
      rewrite legal_cur_cons in Ht. bool_to_prop.
      apply rr_task; [by unfold is_job_record; rewrite Et|
                      by unfold is_task_record; rewrite Et|]. by apply orb_true_iff.
  - apply replay_record_inv in Hr as (Hv & Hid & Hrr). rewrite IH.
    pose proof (wf_NewState_nonempty r Hv) as Hne.
    destruct Hrr as [Ej Et Hc|Ej Et Hc]; rewrite Ej; setoid_rewrite Et;
      cbn [app rs_Job rs_Tasks apply_job_record dj_CurrentState].
    + rewrite legal_cur_cons, Hc, legal_cur_set by done. unfold cur_task_state. simpl.
      naive_solver.
    + setoid_rewrite cur_task_state_insert. cbn [apply_task_record dt_CurrentState].
      split.
      * intros (? & ? & Hl). split_and!; [done..|]. intros id. specialize (Hl id).
        destruct (String.eqb (tr_TaskID r) id) eqn:E; cbn [app]; [|done].
        apply String.eqb_eq in E. subst id. by rewrite legal_cur_cons, Hc, <-legal_cur_set.
      * intros ((_ & ?) & ? & Hl). split_and!; [done..|]. intros id. specialize (Hl id).
        destruct (String.eqb (tr_TaskID r) id) eqn:E; cbn [app] in Hl; [|done].
        apply String.eqb_eq in E. subst id. rewrite legal_cur_cons, Hc in Hl. by rewrite legal_cur_set.
Qed.

(** *** What a successful replay reconstructs *)

Definition replayed_task (st : ReplayedJobState) (id : string) : DurableTaskRecord :=
  map_get zero_DurableTask (rs_Tasks st) id.

(** The payload fields that replay takes from the durable task snapshot. *)
Definition task_payload (t : DurableTaskRecord) : string * string * string * string * string :=
  (dt_StageID t, dt_AgentID t, dt_AgentName t, dt_InputJSON t, dt_PartitionKey t).

Definition task_attempts (id : string) (l : list TransitionRecord) : list Z :=
  tr_Attempt <$> filter (is_task_record id) l.

Lemma task_attempts_cons id r l :
  task_attempts id (r :: l) =
  (if is_task_record id r then [tr_Attempt r] else []) ++ task_attempts id l.
Proof. unfold task_attempts. rewrite filter_cons. by destruct (is_task_record id r). Qed.

Lemma replay_fold_job jobID st l st' :
  replay_fold jobID st l = inr st' →
  dj_CurrentState (rs_Job st') = last_from (dj_CurrentState (rs_Job st)) (job_states l) ∧
  dj_JobID (rs_Job st') = dj_JobID (rs_Job st) ∧
  rs_Transitions st' = rs_Transitions st.
Proof.
  revert st. induction l as [|r l IH]; intros st H; simpl in H; [by simplify_eq|].
  destruct (replay_record jobID st r) as [|st1] eqn:Hr; [done|].
  apply replay_record_inv in Hr as (_ & _ & Hrr). specialize (IH _ H) as (-> & -> & ->).
  rewrite job_states_cons. by destruct Hrr as [ -> _ _ | -> _ _ ].
Qed.

Lemma replay_fold_task jobID st l st' id :
  replay_fold jobID st l = inr st' →
  dt_CurrentState (replayed_task st' id) =
    last_from (dt_CurrentState (replayed_task st id)) (task_states id l) ∧
  dt_LastAttempt (replayed_task st' id) =
    foldl Z.max (dt_LastAttempt (replayed_task st id)) (task_attempts id l) ∧
  task_payload (replayed_task st' id) = task_payload (replayed_task st id).
Proof.
  revert st. induction l as [|r l IH]; intros st H; simpl in H; [by simplify_eq|].
  destruct (replay_record jobID st r) as [|st1] eqn:Hr; [done|].
  apply replay_record_inv in Hr as (_ & _ & Hrr). specialize (IH _ H) as (-> & -> & ->).
  rewrite task_states_cons, task_attempts_cons.
  destruct Hrr as [_ Et _|_ Et _]; rewrite Et; [done|].
  unfold replayed_task, map_get. simpl.
  destruct (String.eqb_spec (tr_TaskID r) id) as [<-|Hne].
  - rewrite lookup_insert_eq. simpl. split_and!; [done| |done].
    unfold map_get. f_equal. destruct (Z.ltb_spec (dt_LastAttempt
      (default zero_DurableTask (rs_Tasks st !! tr_TaskID r))) (tr_Attempt r)); lia.
  - by rewrite lookup_insert_ne.
Qed.

Lemma seed_tasks_cur l (m : gmap string DurableTaskRecord) id :
  (∀ id t, m !! id = Some t → dt_CurrentState t = "" ∧ dt_LastAttempt t = 0) →
  ∀ t, foldl (λ m task, <[dt_TaskID task := seed_task task]> m) m l !! id = Some t →
  dt_CurrentState t = "" ∧ dt_LastAttempt t = 0.
Proof.
  revert m. induction l as [|t0 l IH]; intros m Hm t; simpl; [by apply Hm|].
  apply IH. intros id' t' [[_ <-]|[_ ?]]%lookup_insert_Some; [done|by eapply Hm].
Qed.

Lemma replay_init_task jobID trs tasks id :
  dt_CurrentState (replayed_task (replay_init jobID trs tasks) id) = "" ∧
  dt_LastAttempt (replayed_task (replay_init jobID trs tasks) id) = 0.
Proof.
  unfold replayed_task, map_get, replay_init. simpl. destruct (_ !! id) eqn:E; [|done].
  eapply seed_tasks_cur, E. intros ?? [=].
Qed.

(** C6. Replay accepts exactly the histories whose records are valid and belong to
    the job and whose job and task states follow the lifecycle graphs. *)
Theorem replay_accepts_iff ctx n jobID l tasks :
  ctx_alive ctx →
  (∃ st, (replayJobStateFromData ctx n jobID l tasks).1 = inr st) ↔ history_ok jobID l.
Proof.
  intros Hctx. unfold replayJobStateFromData. rewrite replay_loop_alive by done.
  rewrite replay_fold_ok. unfold history_ok. simpl.
  split; intros (? & ? & Ht); (split_and!; [done..|]); intros id; specialize (Ht id);
    revert Ht; unfold cur_task_state; fold (replayed_task (replay_init jobID l tasks) id);
    by rewrite (proj1 (replay_init_task jobID l tasks id)).
Qed.

(** The row of the durable task snapshot that counts for a task: the last one. *)
Definition snapshot_row (id : string) (tasks : list DurableTaskRecord) : option DurableTaskRecord :=
  last (filter (λ t, dt_TaskID t = id) tasks).

Lemma seeded_row id tasks (m : gmap string DurableTaskRecord) :
  foldl (λ m task, <[dt_TaskID task := seed_task task]> m) m tasks !! id =
  match snapshot_row id tasks with Some t => Some (seed_task t) | None => m !! id end.
Proof.
  unfold snapshot_row. induction tasks as [|t tasks IH] using rev_ind; [done|].
  rewrite foldl_app, filter_app, filter_cons, filter_nil. simpl. case_decide as Ht.
  - rewrite last_snoc, <-Ht. apply lookup_insert_eq.
  - by rewrite app_nil_r, lookup_insert_ne.
Qed.

Lemma replay_init_row jobID trs tasks id :
  rs_Tasks (replay_init jobID trs tasks) !! id = seed_task <$> snapshot_row id tasks.
Proof. unfold replay_init. simpl. rewrite seeded_row. by destruct (snapshot_row id tasks). Qed.

(** Which tasks a replay knows. *)
Lemma replay_fold_known jobID st l st' id :
  replay_fold jobID st l = inr st' →
  is_Some (rs_Tasks st' !! id) ↔ is_Some (rs_Tasks st !! id) ∨ task_states id l ≠ [].
Proof.
  revert st. induction l as [|r l IH]; intros st H; simpl in H; [simplify_eq; by naive_solver|].
  destruct (replay_record jobID st r) as [|st1] eqn:Hr; [done|].
  apply replay_record_inv in Hr as (_ & _ & Hrr). rewrite (IH _ H), task_states_cons.
  destruct Hrr as [_ Et _|_ Et _]; rewrite Et; [done|]. simpl.
  rewrite lookup_insert_is_Some'. destruct (String.eqb_spec (tr_TaskID r) id) as [<-|Hne]; simpl; naive_solver.
Qed.

(** C7. A successful replay, under any context, returns the last state the history
    gives to the job and to each task, and the highest attempt of each task; it
    knows exactly the tasks of the durable snapshot and of the history, and gives
    each its stage, agent, input and partition key from the snapshot. *)
Theorem replay_reconstructs ctx n jobID l tasks st :
  (replayJobStateFromData ctx n jobID l tasks).1 = inr st →
  dj_JobID (rs_Job st) = jobID ∧
  dj_CurrentState (rs_Job st) = last_from "" (job_states l) ∧
  rs_Transitions st = l ∧
  ∀ id, dt_CurrentState (replayed_task st id) = last_from "" (task_states id l) ∧
        dt_LastAttempt (replayed_task st id) = foldl Z.max 0 (task_attempts id l) ∧
        (is_Some (rs_Tasks st !! id) ↔ (∃ t, t ∈ tasks ∧ dt_TaskID t = id) ∨ task_states id l ≠ []) ∧
        match last (filter (λ t, dt_TaskID t = id) tasks) with
        | Some t =>
            dt_StageID (replayed_task st id) = dt_StageID t ∧ dt_AgentID (replayed_task st id) = dt_AgentID t ∧
            dt_AgentName (replayed_task st id) = dt_AgentName t ∧ dt_InputJSON (replayed_task st id) = dt_InputJSON t ∧
            dt_PartitionKey (replayed_task st id) = dt_PartitionKey t
        | None => task_payload (replayed_task st id) = ("", "", "", "", "")
        end.
Proof.
  intros H%replay_loop_sound.
  destruct (replay_fold_job _ _ _ _ H) as (Hc & Hid & Htr).
  split_and!; [done..|]. intros id.
  destruct (replay_fold_task _ _ _ _ id H) as (-> & -> & Hp).
  destruct (replay_init_task jobID l tasks id) as [-> ->]. split_and!; [done..| |].
  - rewrite (replay_fold_known _ _ _ _ id H), replay_init_row, fmap_is_Some. f_equiv. unfold snapshot_row.
    rewrite last_is_Some. split.
    + intros Hne. destruct (filter _ tasks) as [|t ts] eqn:Ht; [done|]. exists t.
      assert (Hin : t ∈ filter (λ t', dt_TaskID t' = id) tasks) by (rewrite Ht; left).
      by apply list_elem_of_filter in Hin as [??].
    + intros (t & Ht & <-) Hnil. assert (Hin : t ∈ filter (λ t', dt_TaskID t' = dt_TaskID t) tasks)
        by by apply list_elem_of_filter.
      rewrite Hnil in Hin. by apply elem_of_nil in Hin.
  - unfold replayed_task at 2, map_get in Hp. rewrite replay_init_row in Hp. fold (snapshot_row id tasks).
    destruct (snapshot_row id tasks) as [t|]; [|exact Hp]. unfold task_payload in Hp. by injection Hp.
Qed.
