(* ===== verification/Jobs.v ===== *)
(** * Runtime jobs, and their reconstruction from replayed state

    pkg/scheduler/types.go, the pure parts of pkg/scheduler/recovery.go, the
    clone functions of pkg/scheduler/scheduler.go, and the classification
    helpers that work on replayed tasks.  A nil pointer is [None]; a nil map is
    [None], an allocated one [Some]. *)

From Stdlib Require Import Ascii.
From stdpp Require Import base gmap strings list fin_maps sorting.
From S2P Require Import Prelude StateMachine Store Replay.

Open Scope Z_scope.

(** ** Data *)

Inductive JobStatus :=
  | StatusUnset  (** the zero value of the Go string type *)
  | JobPending | JobRunning | JobCompleted | JobFailed | JobBlocked
  | JobAwaitingHuman | JobSuspended.

#[export] Instance JobStatus_eq_dec : EqDecision JobStatus.
Proof. solve_decision. Defined.

(** agent.AgentInput; tool definitions are opaque to the scheduler. *)
Record AgentInput := mkInput {
  ai_TaskID : string;
  ai_Instruction : string;
  ai_Context : option (gmap string Value);
  ai_Tools : list N;
  ai_Model : string;
  ai_MaxRetries : Z;
  ai_Timeout : Duration;
}.

(** agent.AgentOutput; log steps and metrics are opaque to the scheduler. *)
Record AgentOutput := mkOutput {
  ao_TaskID : string;
  ao_Result : Value;
  ao_Metadata : option (gmap string Value);
  ao_Error : option error;
  ao_ExecutionLog : list N;
  ao_Metrics : option N;
}.

Record Edge := mkEdge { edge_From : string; edge_To : string }.

Record Task := mkTask {
  t_ID : string;
  t_StageID : string;
  t_JobID : string;
  t_AgentID : string;
  t_AgentName : string;
  t_Input : option AgentInput;
  t_Output : option AgentOutput;
  t_PartitionKey : string;
  t_Status : JobStatus;
  t_LifecycleState : TaskLifecycleState;
  t_Attempts : Z;
}.

Record Stage := mkStage {
  s_ID : string;
  s_JobID : string;
  s_Tasks : list (option Task);
  s_Dependencies : list string;
  s_Status : JobStatus;
}.

Record Job := mkJob {
  j_ID : string;
  j_Name : string;
  j_Stages : list (option Stage);
  j_Edges : list Edge;
  j_Status : JobStatus;
  j_LifecycleState : JobLifecycleState;
  j_CreatedAt : Time;
  j_UpdatedAt : Time;
  j_Metadata : option (gmap string Value);
}.

(** [NewJob]; the two arguments after the name are its two [time.Now()] calls. *)
Definition NewJob (id name : string) (now1 now2 : Time) : Job :=
  mkJob id name [] [] JobPending JobStateSubmitted now1 now2 (Some ∅).

Definition AddStage (j : Job) (stage : option Stage) : Job :=
  mkJob (j_ID j) (j_Name j) (j_Stages j ++ [stage]) (j_Edges j) (j_Status j)
    (j_LifecycleState j) (j_CreatedAt j) (j_UpdatedAt j) (j_Metadata j).

(** ** Clones *)

Definition cloneMap (src : option (gmap string Value)) : option (gmap string Value) :=
  match src with
  | None => None
  | Some m => if decide (m = ∅) then None
              else Some (map_fold (λ k v dst, <[k := v]> dst) (∅ : gmap string Value) m)
  end.

Definition cloneAgentInput (input : option AgentInput) : option AgentInput :=
  match input with
  | None => None
  | Some i => Some (mkInput (ai_TaskID i) (ai_Instruction i) (cloneMap (ai_Context i))
                      (ai_Tools i) (ai_Model i) (ai_MaxRetries i) (ai_Timeout i))
  end.

Definition cloneAgentOutput (output : option AgentOutput) : option AgentOutput :=
  match output with
  | None => None
  | Some o => Some (mkOutput (ao_TaskID o) (ao_Result o) (cloneMap (ao_Metadata o))
                      (ao_Error o) (ao_ExecutionLog o) (ao_Metrics o))
  end.

Definition cloneTask (task : option Task) : option Task :=
  match task with
  | None => None
  | Some t =>
      Some (mkTask (t_ID t) (t_StageID t) (t_JobID t) (t_AgentID t) (t_AgentName t)
              (cloneAgentInput (t_Input t)) (cloneAgentOutput (t_Output t))
              (t_PartitionKey t) (t_Status t) (t_LifecycleState t) (t_Attempts t))
  end.

Definition cloneStage (stage : option Stage) : option Stage :=
  match stage with
  | None => None
  | Some s => Some (mkStage (s_ID s) (s_JobID s) (cloneTask <$> s_Tasks s)
                      (s_Dependencies s) (s_Status s))
  end.

Definition cloneJob (j : Job) : Job :=
  mkJob (j_ID j) (j_Name j) (cloneStage <$> j_Stages j) (j_Edges j) (j_Status j)
    (j_LifecycleState j) (j_CreatedAt j) (j_UpdatedAt j) (cloneMap (j_Metadata j)).

(** ** Runtime statuses of lifecycle states *)

Definition runtimeJobStatusFromLifecycle (state : JobLifecycleState) : JobStatus :=
  if String.eqb state JobStateRunning then JobRunning
  else if String.eqb state JobStateAwaitingHuman then JobAwaitingHuman
  else if String.eqb state JobStateSucceeded then JobCompleted
  else if String.eqb state JobStateFailed || String.eqb state JobStateCanceled then JobFailed
  else if String.eqb state JobStateSubmitted || String.eqb state JobStateQueued then JobPending
  else JobPending.

Definition runtimeTaskStatusFromLifecycle (state : TaskLifecycleState) : JobStatus :=
  if String.eqb state TaskStateRunning then JobRunning
  else if String.eqb state TaskStateSucceeded then JobCompleted
  else if String.eqb state TaskStateFailed then JobFailed
  else if String.eqb state TaskStatePending || String.eqb state TaskStateDispatched
  then JobPending
  else JobPending.

(** [deriveStageStatus]: one scan with three flags, over non-nil tasks. *)
Definition scan_status (flags : bool * bool * bool) (task : Task) : bool * bool * bool :=
  let '(hasRunning, hasFailed, allCompleted) := flags in
  match t_Status task with
  | JobFailed | JobBlocked => (hasRunning, true, false)
  | JobRunning => (true, hasFailed, false)
  | JobCompleted => (hasRunning, hasFailed, allCompleted)
  | _ => (hasRunning, hasFailed, false)
  end.

Definition deriveStageStatus (tasks : list Task) : JobStatus :=
  match tasks with
  | [] => JobPending
  | _ =>
      let '(hasRunning, hasFailed, allCompleted) := foldl scan_status (false, false, true) tasks in
      if hasFailed then JobFailed
      else if hasRunning then JobRunning
      else if allCompleted then JobCompleted
      else JobPending
  end.

(** ** Resume safety *)

Definition safe_task (task : option Task) : bool :=
  match task with
  | None => true
  | Some t => String.eqb (t_LifecycleState t) "" ||
              String.eqb (t_LifecycleState t) TaskStatePending
  end.

Definition isSafeForQueuedResume (job : option Job) : bool :=
  match job with
  | None => false
  | Some j => forallb (λ stage, match stage with
                                | None => true
                                | Some s => forallb safe_task (s_Tasks s)
                                end) (j_Stages j)
  end.

Definition missing_fields (stickinessRequired : bool) (task : option Task) : bool :=
  match task with
  | None => false
  | Some t =>
      (String.eqb (t_AgentID t) "" || String.eqb (t_AgentName t) "" ||
       bool_decide (t_Input t = None)) ||
      (stickinessRequired && String.eqb (t_PartitionKey t) "")
  end.

Definition recoveredQueuedMissingExecutionFieldCount (job : option Job)
    (stickinessRequired : bool) : Z :=
  match job with
  | None => 0
  | Some j =>
      foldl (λ missing stage,
               match stage with
               | None => missing
               | Some s => foldl (λ missing task, if missing_fields stickinessRequired task
                                                  then missing + 1 else missing)
                             missing (s_Tasks s)
               end) 0 (j_Stages j)
  end.

(** ** Rebuilding a runtime job *)

Section Recovered.
(** [json.Unmarshal] into an [agent.AgentInput]; [None] is a decoding error. *)
Context (json_Unmarshal : string → option AgentInput).

Definition unmarshalRecoveredAgentInput (raw : string) : option AgentInput :=
  if String.eqb (strings_TrimSpace raw) "" then None else json_Unmarshal raw.

Definition recovered_stage_id (rec : DurableTaskRecord) : string :=
  if String.eqb (dt_StageID rec) "" then "recovered" else dt_StageID rec.

Definition recovered_task (rec : DurableTaskRecord) : Task :=
  mkTask (dt_TaskID rec) (recovered_stage_id rec) (dt_JobID rec) (dt_AgentID rec)
    (dt_AgentName rec) (unmarshalRecoveredAgentInput (dt_InputJSON rec)) None
    (dt_PartitionKey rec) (runtimeTaskStatusFromLifecycle (dt_CurrentState rec))
    (dt_CurrentState rec) (dt_LastAttempt rec).

(** The tasks of each stage, in the order the loop meets them. *)
Definition stage_tasks_step (stageByID : gmap string (list Task)) (rec : DurableTaskRecord)
    : gmap string (list Task) :=
  let id := recovered_stage_id rec in
  <[id := map_get [] stageByID id ++ [recovered_task rec]]> stageByID.

Definition recovered_stage (jobID id : string) (tasks : list Task) : Stage :=
  mkStage id jobID (Some <$> tasks) [] (deriveStageStatus tasks).

(** The loop ranges over a map: [order] is the order of its iterations. *)
Definition buildRecoveredRuntimeJob_ordered (r : ReplayedJobState)
    (order : list DurableTaskRecord) : Job :=
  let job := rs_Job r in
  let stageByID := foldl stage_tasks_step ∅ order in
  let stageIDs := go_sort string_lt ((map_to_list stageByID).*1) in
  mkJob (dj_JobID job) (dj_Name job)
    ((λ id, Some (recovered_stage (dj_JobID job) id (map_get [] stageByID id))) <$> stageIDs)
    [] (runtimeJobStatusFromLifecycle (dj_CurrentState job)) (dj_CurrentState job)
    (dj_CreatedAt job) (dj_UpdatedAt job) (Some {[ "recovered" := VBool true ]}).

Definition buildRecoveredRuntimeJob (r : ReplayedJobState) : Job :=
  buildRecoveredRuntimeJob_ordered r (map_values (rs_Tasks r)).
End Recovered.

(** ** Classifying replayed tasks (reconcile) *)

Definition allReplayedTasksPending (tasks : gmap string DurableTaskRecord) : bool :=
  forallb (λ task, String.eqb (dt_CurrentState task) "" ||
                   String.eqb (dt_CurrentState task) TaskStatePending) (map_values tasks).

Definition stale_in_flight (cutoff : Time) (task : DurableTaskRecord) : bool :=
  (String.eqb (dt_CurrentState task) TaskStateDispatched ||
   String.eqb (dt_CurrentState task) TaskStateRunning) &&
  (IsZero (dt_UpdatedAt task) || Before (dt_UpdatedAt task) cutoff).

Definition hasStaleInFlightReplayedTask (tasks : gmap string DurableTaskRecord)
    (now : Time) (timeout : Duration) : bool :=
  if timeout <=? 0 then false
  else existsb (stale_in_flight (now - timeout)) (map_values tasks).

Fixpoint terminal_scan (hasFailed : bool) (l : list DurableTaskRecord)
    : option JobLifecycleState :=
  match l with
  | [] => Some (if hasFailed then JobStateFailed else JobStateSucceeded)
  | task :: l' =>
      if String.eqb (dt_CurrentState task) TaskStateSucceeded then terminal_scan hasFailed l'
      else if String.eqb (dt_CurrentState task) TaskStateFailed then terminal_scan true l'
      else None
  end.

Definition replayedTerminalJobState (tasks : gmap string DurableTaskRecord)
    : option JobLifecycleState :=
  if decide (tasks = ∅) then None else terminal_scan false (map_values tasks).

(** ** Error classification *)

Definition isHumanPauseError (err : option error) : bool :=
  match err with
  | None => false
  | Some e =>
      let msg := strings_ToLower (Error e) in
      strings_Contains msg "human interaction pending" || strings_Contains msg "execution paused"
  end.

Definition isDispatchCapacityConflict (err : option error) : bool :=
  match err with
  | None => false
  | Some e =>
      let lowered := strings_ToLower (Error e) in
      strings_Contains lowered "at capacity" || strings_Contains lowered "capacity"
  end.

(** ** Error summaries stored with transitions *)

Definition maxTransitionErrorSummaryRunes : nat := 1024.

Definition printable_or_space (r : ascii) : ascii :=
  let c := rune_code r in
  if unicode_IsPrint r || (c =? 10)%N || (c =? 13)%N || (c =? 9)%N then r else " "%char.

Fixpoint string_take (n : nat) (s : string) : string :=
  match n, s with
  | S n', String c s' => String c (string_take n' s')
  | _, _ => ""
  end.

Definition normalizeTransitionErrorSummary (summary : string) : string :=
  if String.eqb summary "" then ""
  else
    let b := string_map printable_or_space summary in
    let normalized := strings_Join (strings_Fields (strings_TrimSpace b)) " " in
    if String.eqb normalized "" then ""
    else if (String.length normalized <=? maxTransitionErrorSummaryRunes)%nat then normalized
    else string_take maxTransitionErrorSummaryRunes normalized.

(** ** Facts: stage status *)

Definition task_failed (t : Task) : bool :=
  match t_Status t with JobFailed | JobBlocked => true | _ => false end.
Definition task_running (t : Task) : bool := bool_decide (t_Status t = JobRunning).
Definition task_completed (t : Task) : bool := bool_decide (t_Status t = JobCompleted).

Lemma scan_status_fold l a b c :
  foldl scan_status (a, b, c) l =
  (a || existsb task_running l, b || existsb task_failed l, c && forallb task_completed l).
Proof.
  revert a b c. induction l as [|t l IH]; intros a b c; simpl.
  { by rewrite !orb_false_r, andb_true_r. }
  unfold task_running, task_failed, task_completed in *.
  destruct (t_Status t) eqn:E; rewrite IH; simpl;
    rewrite ?orb_true_r, ?andb_false_r; done.
Qed.

(** A stage is failed as soon as a task failed or was blocked, else running as
    soon as a task runs, completed when every task is, and pending otherwise. *)
Lemma deriveStageStatus_spec tasks :
  deriveStageStatus tasks =
  if existsb task_failed tasks then JobFailed
  else if existsb task_running tasks then JobRunning
  else if negb (bool_decide (tasks = [])) && forallb task_completed tasks then JobCompleted
  else JobPending.
Proof.
  destruct tasks as [|t tasks]; [done|].
  unfold deriveStageStatus. by rewrite scan_status_fold.
Qed.

#[export] Instance existsb_perm {A} (f : A → bool) : Proper ((≡ₚ) ==> (=)) (existsb f).
Proof.
  induction 1; simpl; [done|congruence| |congruence].
  by rewrite !orb_assoc, (orb_comm (f x)).
Qed.

#[export] Instance forallb_perm {A} (f : A → bool) : Proper ((≡ₚ) ==> (=)) (forallb f).
Proof.
  induction 1; simpl; [done|congruence| |congruence].
  by rewrite !andb_assoc, (andb_comm (f x)).
Qed.

#[export] Instance deriveStageStatus_perm : Proper ((≡ₚ) ==> (=)) deriveStageStatus.
Proof.
  intros l l' Hp. rewrite !deriveStageStatus_spec.
  rewrite !(existsb_perm _ l l' Hp), (forallb_perm _ l l' Hp).
  replace (bool_decide (l = [])) with (bool_decide (l' = [])); [done|].
  apply bool_decide_ext. split; intros ->; [by apply Permutation_nil_r|].
  by apply Permutation_nil_l in Hp.
Qed.

(** ** Facts: rebuilt jobs *)

Definition stage_tasks (stage : option Stage) : list (option Task) :=
  match stage with None => [] | Some s => s_Tasks s end.

Definition job_tasks (j : Job) : list (option Task) := concat (stage_tasks <$> j_Stages j).

Section RecoveredFacts.
Context (json : string → option AgentInput).

Lemma bag_insert (m : gmap string (list Task)) k x :
  concat (map_to_list (<[k := map_get [] m k ++ [x]]> m)).*2 ≡ₚ
  x :: concat (map_to_list m).*2.
Proof.
  unfold map_get. destruct (m !! k) as [v|] eqn:E; simpl.
  - rewrite <-(insert_delete_eq m).
    rewrite (map_to_list_insert _ _ _ (lookup_delete_eq m k)).
    rewrite <-(map_to_list_delete m k v E). simpl.
    rewrite <-app_assoc. simpl. by rewrite <-Permutation_middle.
  - by rewrite (map_to_list_insert m k [x] E).
Qed.

Lemma stage_tasks_bag order :
  concat (map_to_list (foldl (stage_tasks_step json) ∅ order)).*2 ≡ₚ
  recovered_task json <$> order.
Proof.
  induction order as [|rec order IH] using rev_ind; [done|].
  rewrite foldl_app, fmap_app. simpl. unfold stage_tasks_step at 1.
  rewrite bag_insert, IH. by rewrite Permutation_cons_append.
Qed.

Lemma recovered_job_tasks r order :
  job_tasks (buildRecoveredRuntimeJob_ordered json r order) ≡ₚ
  (Some ∘ recovered_task json) <$> order.
Proof.
  unfold job_tasks, buildRecoveredRuntimeJob_ordered. simpl.
  set (m := foldl _ ∅ order). rewrite <-list_fmap_compose.
  rewrite (list_fmap_compose (recovered_task json) Some), <-(stage_tasks_bag order).
  fold m. rewrite go_sort_perm.
  rewrite <-list_fmap_compose.
  change (concat ((λ kv : string * list Task, Some <$> map_get [] m kv.1) <$> map_to_list m)
          ≡ₚ Some <$> concat (map_to_list m).*2).
  assert (∀ l, (∀ k v, (k, v) ∈ l → m !! k = Some v) →
    concat ((λ kv : string * list Task, Some <$> map_get [] m kv.1) <$> l)
    = Some <$> concat l.*2) as H.
  { intros l Hl. induction l as [|[k v] l IH]; [done|]. cbn [fmap list_fmap concat fst snd].
    rewrite fmap_app. unfold map_get at 1. rewrite (Hl k v) by left. simpl. f_equal.
    apply IH. intros ???; apply Hl; by right. }
  rewrite H; [done|]. intros k v. apply elem_of_map_to_list.
Qed.

Lemma safe_resume_tasks j : isSafeForQueuedResume (Some j) = forallb safe_task (job_tasks j).
Proof.
  unfold isSafeForQueuedResume, job_tasks. induction (j_Stages j) as [|st l IH]; [done|].
  simpl. rewrite forallb_app, IH. f_equal. by destruct st.
Qed.

(** The rebuilt job is safe to resume exactly when no replayed task made progress. *)
Lemma recovered_safe r :
  isSafeForQueuedResume (Some (buildRecoveredRuntimeJob json r)) =
  allReplayedTasksPending (rs_Tasks r).
Proof.
  rewrite safe_resume_tasks. unfold buildRecoveredRuntimeJob, allReplayedTasksPending.
  rewrite recovered_job_tasks. induction (map_values (rs_Tasks r)) as [|t l IH]; [done|].
  cbn [fmap list_fmap forallb]. f_equal. apply IH.
Qed.
End RecoveredFacts.

(** ** Facts: error summaries *)

Fixpoint string_all (p : ascii → bool) (s : string) : bool :=
  match s with
  | EmptyString => true
  | String c s' => p c && string_all p s'
  end.

Section StringAll.
Context (p : ascii → bool).

Lemma string_all_app s t : string_all p (s +:+ t) = string_all p s && string_all p t.
Proof. induction s as [|c s IH]; simpl; [done|]. by rewrite IH, andb_assoc. Qed.

Lemma string_all_trim_left s : string_all p s = true → string_all p (trim_left s) = true.
Proof.
  induction s as [|c s IH]; simpl; [done|]. intros H. bool_to_prop. simp_if; [auto|].
  simpl. by rewrite H, H0.
Qed.

Lemma string_all_trim_right s : string_all p s = true → string_all p (trim_right s) = true.
Proof.
  induction s as [|c s IH]; simpl; [done|]. intros H. bool_to_prop. specialize (IH H0).
  destruct (trim_right s); [simp_if; simpl; by rewrite ?H|]. simpl in *. by rewrite H.
Qed.

Lemma string_all_take n s : string_all p s = true → string_all p (string_take n s) = true.
Proof.
  revert s. induction n as [|n IH]; intros [|c s]; simpl; try done.
  intros H. bool_to_prop. by rewrite H, IH.
Qed.

Lemma string_all_fields acc s :
  string_all p acc = true →
  string_all (λ c, p c || unicode_IsSpace c) s = true →
  Forall (λ f, string_all p f = true) (fields_aux acc s).
Proof.
  revert acc. induction s as [|c s IH]; intros acc Hacc Hs; simpl in *.
  { simp_if; by repeat constructor. }
  apply andb_true_iff in Hs as [Hc Hs]. destruct (unicode_IsSpace c).
  - apply Forall_app. split; [simp_if; by repeat constructor|]. by apply IH.
  - apply IH; [|done]. rewrite string_all_app, Hacc. simpl.
    by rewrite orb_false_r in Hc; rewrite Hc.
Qed.

Lemma string_all_join l sep :
  Forall (λ f, string_all p f = true) l → string_all p sep = true →
  string_all p (strings_Join l sep) = true.
Proof.
  intros Hl Hsep. induction Hl as [|x l Hx Hl IH]; [done|].
  destruct l as [|y l]; [done|].
  change (strings_Join (x :: y :: l) sep) with (x +:+ sep +:+ strings_Join (y :: l) sep).
  by rewrite !string_all_app, Hx, Hsep, IH.
Qed.
End StringAll.

Lemma string_all_impl (p q : ascii → bool) s :
  (∀ c, p c = true → q c = true) → string_all p s = true → string_all q s = true.
Proof.
  intros Hpq. induction s as [|c s IH]; simpl; [done|]. intros H. bool_to_prop.
  by rewrite (Hpq _ H), IH.
Qed.

Lemma string_take_length n s : (String.length (string_take n s) ≤ n)%nat.
Proof. revert s. induction n as [|n IH]; intros [|c s]; simpl; try lia. specialize (IH s). lia. Qed.

Lemma printable_or_space_ok c :
  unicode_IsPrint (printable_or_space c) || unicode_IsSpace (printable_or_space c) = true.
Proof.
  unfold printable_or_space. destruct (unicode_IsPrint c) eqn:E; simpl; [by rewrite E|].
  destruct (_ || _ || _) eqn:F; [|done]. apply orb_true_iff. right.
  unfold unicode_IsSpace.
  apply orb_true_iff in F as [F|F]; [apply orb_true_iff in F as [F|F]|];
    apply N.eqb_eq in F; rewrite F; done.
Qed.

(** A stored error summary has at most 1024 runes, all of them printable. *)
Theorem error_summary_bounded summary :
  (String.length (normalizeTransitionErrorSummary summary) ≤ 1024)%nat ∧
  string_all unicode_IsPrint (normalizeTransitionErrorSummary summary) = true.
Proof.
  unfold normalizeTransitionErrorSummary.
  destruct (String.eqb summary ""); [simpl; split; [lia|done]|].
  set (b := string_map printable_or_space summary).
  assert (string_all (λ c, unicode_IsPrint c || unicode_IsSpace c) b = true) as Hb.
  { unfold b. clear. induction summary as [|c s IH]; [done|]. cbn [string_map string_all].
    by rewrite printable_or_space_ok, IH. }
  set (n := strings_Join _ " ").
  assert (string_all unicode_IsPrint n = true) as Hn.
  { apply string_all_join; [|done]. apply string_all_fields; [done|].
    by apply string_all_trim_right, string_all_trim_left. }
  destruct (String.eqb n ""); [simpl; split; [lia|done]|].
  destruct (Nat.leb_spec (String.length n) maxTransitionErrorSummaryRunes); [done|].
  split; [apply string_take_length|by apply string_all_take].
Qed.

(** ** Theorems *)

(** The status of a rebuilt stage does not depend on the order of its tasks,
    and is the most severe thing that can be said of them. *)
Theorem stage_status tasks tasks' :
  tasks ≡ₚ tasks' →
  deriveStageStatus tasks = deriveStageStatus tasks' ∧
  deriveStageStatus tasks =
  if existsb task_failed tasks then JobFailed
  else if existsb task_running tasks then JobRunning
  else if negb (bool_decide (tasks = [])) && forallb task_completed tasks then JobCompleted
  else JobPending.
Proof. intros Hp. split; [by apply deriveStageStatus_perm|apply deriveStageStatus_spec]. Qed.

(** A rebuilt job has exactly the replayed tasks, whatever the order in which
    the task map is iterated, and it is safe to resume exactly when no replayed
    task has made progress. *)
Theorem recovered_job_exact json r order :
  order ≡ₚ map_values (rs_Tasks r) →
  job_tasks (buildRecoveredRuntimeJob_ordered json r order) ≡ₚ
    (Some ∘ recovered_task json) <$> map_values (rs_Tasks r) ∧
  isSafeForQueuedResume (Some (buildRecoveredRuntimeJob_ordered json r order)) =
    allReplayedTasksPending (rs_Tasks r).
Proof.
  intros Hp.
  assert (job_tasks (buildRecoveredRuntimeJob_ordered json r order) ≡ₚ
    (Some ∘ recovered_task json) <$> map_values (rs_Tasks r)) as Ht
    by (by rewrite recovered_job_tasks, Hp).
  split; [exact Ht|]. rewrite <-(recovered_safe json), !safe_resume_tasks.
  apply forallb_perm. rewrite Ht. unfold buildRecoveredRuntimeJob. by rewrite recovered_job_tasks.
Qed.
