(* ===== verification/Config.v ===== *)
(** * Scheduler configuration (pkg/scheduler/config.go) *)

From stdpp Require Import base strings list.
From S2P Require Import Prelude.

Open Scope Z_scope.

(** ** Constants *)

Definition defaultAffinityTTL : Duration := 1 * Hour.
Definition defaultAffinityCleanupInterval : Duration := 5 * Minute.
Definition defaultJobQueueSize : Z := 100.
Definition defaultWorkerMaxConcurrency : Z := 1.
Definition defaultMaxWorkerConcurrencyCap : Z := 100.
Definition defaultCapacityTTL : Duration := 5 * Second.
Definition defaultDispatchRejectCooldown : Duration := 5 * Second.
Definition defaultMaxDispatchAttempts : Z := 3.
Definition defaultStageCapacityDeferralTimeout : Duration := 2 * Second.
Definition defaultStageCapacityDeferralPoll : Duration := 100 * Millisecond.
Definition defaultRecoveryTimeout : Duration := 5 * Minute.
Definition defaultRecoveryBatchSize : Z := 128.
Definition defaultLeadershipRetryInterval : Duration := 200 * Millisecond.
Definition defaultJobRetentionTTL : Duration := 24 * Hour.
Definition defaultJobRetentionCleanupInterval : Duration := 5 * Minute.
Definition defaultLeaderRequeuePollInterval : Duration := 500 * Millisecond.
Definition defaultFollowerRequeuePollInterval : Duration := 5 * Second.
Definition defaultReconcileTimeout : Duration := 5 * Second.
Definition defaultAlertRequestTimeout : Duration := 3 * Second.
Definition defaultAlertMaxAttempts : Z := 3.
Definition defaultAlertRetryBaseInterval : Duration := 200 * Millisecond.

Definition maxJobQueueSize : Z := 10000.
Definition maxRecoveryBatchSize : Z := 4096.
Definition maxDispatchAttempts : Z := 50.
Definition maxWorkerConcurrencyCapCfg : Z := 10000.

Definition minAffinityCleanupInterval : Duration := 100 * Millisecond.
Definition minDeferralPollInterval : Duration := 10 * Millisecond.
Definition minRetentionCleanup : Duration := 1 * Second.
Definition minRecoveryTimeout : Duration := 1 * Second.
Definition minAlertRetryBaseInterval : Duration := 50 * Millisecond.
Definition minRequeuePollInterval : Duration := 10 * Millisecond.
Definition minReconcileTimeout : Duration := 100 * Millisecond.

(** ** The configuration *)

Record SchedulerConfig := mkConfig {
  AffinityTTL : Duration;
  AffinityCleanupInterval : Duration;
  EnableStickiness : bool;
  JobQueueSize : Z;
  DefaultWorkerMaxConcurrency : Z;
  MaxWorkerConcurrencyCap : Z;
  CapacityTTL : Duration;
  DispatchRejectCooldown : Duration;
  MaxDispatchAttempts : Z;
  EnableStageCapacityDeferral : bool;
  StageCapacityDeferralTimeout : Duration;
  StageCapacityDeferralPollInterval : Duration;
  RecoveryTimeout : Duration;
  RecoveryBatchSize : Z;
  EnableResumeRecoveredQueuedJobs : bool;
  LeadershipRetryInterval : Duration;
  JobRetentionTTL : Duration;
  JobRetentionCleanupInterval : Duration;
  EnableJobRetentionCleanup : bool;
  EnableLeaderDurableRequeueLoop : bool;
  LeaderDurableRequeuePollInterval : Duration;
  EnableFollowerDurableRequeueLoop : bool;
  FollowerDurableRequeuePollInterval : Duration;
  ReconcileTimeout : Duration;
  AlertWebhookURL : string;
  AlertRequestTimeout : Duration;
  AlertMaxAttempts : Z;
  AlertRetryBaseInterval : Duration;
}.

Definition DefaultSchedulerConfig : SchedulerConfig := {|
  AffinityTTL := defaultAffinityTTL;
  AffinityCleanupInterval := defaultAffinityCleanupInterval;
  EnableStickiness := true;
  JobQueueSize := defaultJobQueueSize;
  DefaultWorkerMaxConcurrency := defaultWorkerMaxConcurrency;
  MaxWorkerConcurrencyCap := defaultMaxWorkerConcurrencyCap;
  CapacityTTL := defaultCapacityTTL;
  DispatchRejectCooldown := defaultDispatchRejectCooldown;
  MaxDispatchAttempts := defaultMaxDispatchAttempts;
  EnableStageCapacityDeferral := false;
  StageCapacityDeferralTimeout := defaultStageCapacityDeferralTimeout;
  StageCapacityDeferralPollInterval := defaultStageCapacityDeferralPoll;
  RecoveryTimeout := defaultRecoveryTimeout;
  RecoveryBatchSize := defaultRecoveryBatchSize;
  EnableResumeRecoveredQueuedJobs := false;
  LeadershipRetryInterval := defaultLeadershipRetryInterval;
  JobRetentionTTL := defaultJobRetentionTTL;
  JobRetentionCleanupInterval := defaultJobRetentionCleanupInterval;
  EnableJobRetentionCleanup := true;
  EnableLeaderDurableRequeueLoop := true;
  LeaderDurableRequeuePollInterval := defaultLeaderRequeuePollInterval;
  EnableFollowerDurableRequeueLoop := true;
  FollowerDurableRequeuePollInterval := defaultFollowerRequeuePollInterval;
  ReconcileTimeout := defaultReconcileTimeout;
  AlertWebhookURL := "";
  AlertRequestTimeout := defaultAlertRequestTimeout;
  AlertMaxAttempts := defaultAlertMaxAttempts;
  AlertRetryBaseInterval := defaultAlertRetryBaseInterval;
|}.

(** ** Validation

    The three shapes of the field checks: a default for non-positive values,
    the same with an upper cap, and the same with a lower bound. *)
Definition or_default (x d : Z) : Z := if x <=? 0 then d else x.
Definition or_default_max (x d mx : Z) : Z :=
  if x <=? 0 then d else if mx <? x then mx else x.
Definition or_default_min (x d mn : Z) : Z :=
  if x <=? 0 then d else if x <? mn then mn else x.

(** Go's integer division truncates. *)
Definition adjustBoundedInterval (interval bound minimum : Duration) : Duration :=
  if interval <? bound then interval
  else
    let adjusted := Z.quot bound 4 in
    if adjusted <? minimum then minimum else adjusted.

(** The trailing cross-field checks. *)
Definition keep_below (interval bound minimum : Duration) : Duration :=
  if bound <=? interval then adjustBoundedInterval interval bound minimum else interval.

Module ConfigOps.

Definition Validate (c : SchedulerConfig) : SchedulerConfig :=
  let ttl := or_default (AffinityTTL c) defaultAffinityTTL in
  let cleanup := or_default (AffinityCleanupInterval c) defaultAffinityCleanupInterval in
  let deferral := or_default (StageCapacityDeferralTimeout c)
                    defaultStageCapacityDeferralTimeout in
  let poll := or_default (StageCapacityDeferralPollInterval c)
                defaultStageCapacityDeferralPoll in
  let retention := or_default (JobRetentionTTL c) defaultJobRetentionTTL in
  let retention_cleanup := or_default (JobRetentionCleanupInterval c)
                             defaultJobRetentionCleanupInterval in
  {|
    AffinityTTL := ttl;
    AffinityCleanupInterval := keep_below cleanup ttl minAffinityCleanupInterval;
    EnableStickiness := EnableStickiness c;
    JobQueueSize := or_default_max (JobQueueSize c) defaultJobQueueSize maxJobQueueSize;
    DefaultWorkerMaxConcurrency :=
      or_default (DefaultWorkerMaxConcurrency c) defaultWorkerMaxConcurrency;
    MaxWorkerConcurrencyCap :=
      or_default_max (MaxWorkerConcurrencyCap c) defaultMaxWorkerConcurrencyCap
        maxWorkerConcurrencyCapCfg;
    CapacityTTL := or_default (CapacityTTL c) defaultCapacityTTL;
    DispatchRejectCooldown := or_default (DispatchRejectCooldown c) defaultDispatchRejectCooldown;
    MaxDispatchAttempts :=
      or_default_max (MaxDispatchAttempts c) defaultMaxDispatchAttempts maxDispatchAttempts;
    EnableStageCapacityDeferral := EnableStageCapacityDeferral c;
    StageCapacityDeferralTimeout := deferral;
    StageCapacityDeferralPollInterval := keep_below poll deferral minDeferralPollInterval;
    RecoveryTimeout := or_default_min (RecoveryTimeout c) defaultRecoveryTimeout minRecoveryTimeout;
    RecoveryBatchSize :=
      or_default_max (RecoveryBatchSize c) defaultRecoveryBatchSize maxRecoveryBatchSize;
    EnableResumeRecoveredQueuedJobs := EnableResumeRecoveredQueuedJobs c;
    LeadershipRetryInterval :=
      or_default (LeadershipRetryInterval c) defaultLeadershipRetryInterval;
    JobRetentionTTL := retention;
    JobRetentionCleanupInterval := keep_below retention_cleanup retention minRetentionCleanup;
    EnableJobRetentionCleanup := EnableJobRetentionCleanup c;
    EnableLeaderDurableRequeueLoop := EnableLeaderDurableRequeueLoop c;
    LeaderDurableRequeuePollInterval :=
      or_default_min (LeaderDurableRequeuePollInterval c) defaultLeaderRequeuePollInterval
        minRequeuePollInterval;
    EnableFollowerDurableRequeueLoop := EnableFollowerDurableRequeueLoop c;
    FollowerDurableRequeuePollInterval :=
      or_default_min (FollowerDurableRequeuePollInterval c) defaultFollowerRequeuePollInterval
        minRequeuePollInterval;
    ReconcileTimeout :=
      or_default_min (ReconcileTimeout c) defaultReconcileTimeout minReconcileTimeout;
    AlertWebhookURL := AlertWebhookURL c;
    AlertRequestTimeout := or_default (AlertRequestTimeout c) defaultAlertRequestTimeout;
    AlertMaxAttempts := or_default (AlertMaxAttempts c) defaultAlertMaxAttempts;
    AlertRetryBaseInterval :=
      or_default_min (AlertRetryBaseInterval c) defaultAlertRetryBaseInterval
        minAlertRetryBaseInterval;
  |}.

(** [Validated] validates a copy. *)
Definition Validated (c : SchedulerConfig) : SchedulerConfig := Validate c.

End ConfigOps.

(** ** Facts *)

Lemma or_default_pos x d : 0 < d → 0 < or_default x d.
Proof. unfold or_default. simp_if; bool_to_prop; lia. Qed.

Lemma or_default_id x d : 0 < x → or_default x d = x.
Proof. unfold or_default. simp_if; bool_to_prop; lia. Qed.

Lemma or_default_max_bounds x d mx :
  0 < d ≤ mx → 0 < or_default_max x d mx ≤ mx.
Proof. unfold or_default_max. repeat simp_if; bool_to_prop; lia. Qed.

Lemma or_default_max_id x d mx : 0 < x ≤ mx → or_default_max x d mx = x.
Proof. unfold or_default_max. repeat simp_if; bool_to_prop; lia. Qed.

Lemma or_default_min_bounds x d mn : 0 < mn ≤ d → mn ≤ or_default_min x d mn.
Proof. unfold or_default_min. repeat simp_if; bool_to_prop; lia. Qed.

Lemma or_default_min_id x d mn : 0 < x → mn ≤ x → or_default_min x d mn = x.
Proof. unfold or_default_min. repeat simp_if; bool_to_prop; lia. Qed.

(** The adjusted interval stays positive, is below its bound whenever the bound
    exceeds the minimum, and adjusting again changes nothing. *)
Lemma keep_below_spec i b m :
  0 < i → 0 < b → 0 < m →
  0 < keep_below i b m ∧ (m < b → keep_below i b m < b) ∧
  keep_below (keep_below i b m) b m = keep_below i b m.
Proof.
  intros Hi Hb Hm. unfold keep_below, adjustBoundedInterval.
  rewrite Z.quot_div_nonneg by lia.
  pose proof (Z.div_lt b 4 ltac:(lia) ltac:(lia)).
  pose proof (Z.div_pos b 4 ltac:(lia) ltac:(lia)).
  repeat simp_if; bool_to_prop; split_and!; try lia.
Qed.

(** The bounds every scheduler runs under once its configuration is validated. *)
Record config_valid (c : SchedulerConfig) : Prop := {
  cv_queue : 0 < JobQueueSize c ≤ maxJobQueueSize;
  cv_attempts : 0 < MaxDispatchAttempts c ≤ maxDispatchAttempts;
  cv_cap : 0 < MaxWorkerConcurrencyCap c ≤ maxWorkerConcurrencyCapCfg;
  cv_default_cap : 0 < DefaultWorkerMaxConcurrency c;
  cv_batch : 0 < RecoveryBatchSize c ≤ maxRecoveryBatchSize;
  cv_affinity : 0 < AffinityTTL c;
  cv_cleanup : 0 < AffinityCleanupInterval c;
  cv_cleanup_lt : minAffinityCleanupInterval < AffinityTTL c →
                  AffinityCleanupInterval c < AffinityTTL c;
  cv_deferral : 0 < StageCapacityDeferralTimeout c;
  cv_poll : 0 < StageCapacityDeferralPollInterval c;
  cv_poll_lt : minDeferralPollInterval < StageCapacityDeferralTimeout c →
               StageCapacityDeferralPollInterval c < StageCapacityDeferralTimeout c;
  cv_retention : 0 < JobRetentionTTL c;
  cv_retention_cleanup : 0 < JobRetentionCleanupInterval c;
  cv_retention_lt : minRetentionCleanup < JobRetentionTTL c →
                    JobRetentionCleanupInterval c < JobRetentionTTL c;
  cv_recovery : minRecoveryTimeout ≤ RecoveryTimeout c;
  cv_leader_poll : minRequeuePollInterval ≤ LeaderDurableRequeuePollInterval c;
  cv_follower_poll : minRequeuePollInterval ≤ FollowerDurableRequeuePollInterval c;
  cv_reconcile : minReconcileTimeout ≤ ReconcileTimeout c;
  cv_alert : minAlertRetryBaseInterval ≤ AlertRetryBaseInterval c;
  cv_alert_attempts : 0 < AlertMaxAttempts c;
  cv_alert_timeout : 0 < AlertRequestTimeout c;
  cv_capacity_ttl : 0 < CapacityTTL c;
  cv_cooldown : 0 < DispatchRejectCooldown c;
  cv_retry : 0 < LeadershipRetryInterval c;
}.

Lemma Validate_valid c : config_valid (ConfigOps.Validate c).
Proof.
  split; simpl;
    first [ by apply or_default_pos
          | by apply or_default_max_bounds
          | by apply or_default_min_bounds
          | apply keep_below_spec; by try apply or_default_pos ].
Qed.

Lemma Validate_idem c : ConfigOps.Validate (ConfigOps.Validate c) = ConfigOps.Validate c.
Proof.
  pose proof (Validate_valid c) as [].
  unfold ConfigOps.Validate at 1. cbv zeta.
  rewrite !or_default_id by done.
  rewrite !or_default_max_id by done.
  rewrite !or_default_min_id by
    first [done | eapply Z.lt_le_trans; [|eassumption]; done].
  pose proof (λ i b m hi hb hm, proj2 (proj2 (keep_below_spec i b m hi hb hm))) as K.
  unfold ConfigOps.Validate; f_equal; apply K; try done; by apply or_default_pos.
Qed.

(** Validation puts any configuration within the documented bounds, is
    idempotent, and leaves the default configuration alone. *)
Theorem config_validation c :
  config_valid (ConfigOps.Validate c) ∧
  ConfigOps.Validate (ConfigOps.Validate c) = ConfigOps.Validate c ∧
  ConfigOps.Validate DefaultSchedulerConfig = DefaultSchedulerConfig.
Proof. split_and!; [apply Validate_valid|apply Validate_idem|reflexivity]. Qed.
