(* ===== verification/Leadership.v ===== *)
(** * Dispatch authority

    The scheduler side (pkg/scheduler/leadership.go) and the worker side
    (pkg/remote/dispatch_authority.go).  A provider that talks to etcd is
    outside of the sources: a provider is a function from the call's time step
    to its answer, and the worker's etcd query is a parameter. *)

From Stdlib Require Import Ascii.
From stdpp Require Import base gmap strings list pretty.
From S2P Require Import Prelude.

Open Scope Z_scope.

(** ** Leadership on the scheduler *)

Record LeadershipAuthority := mkAuthority {
  la_IsLeader : bool;
  la_Epoch : string;
  la_LeaderID : string;
  la_Scope : string;
}.

Definition zero_authority : LeadershipAuthority := mkAuthority false "" "" "".

(** [DispatchAuthority(ctx)] at a time step, and the optional scoped method. *)
Record LeadershipProvider := mkProvider {
  lp_DispatchAuthority : nat → result LeadershipAuthority;
  lp_DispatchAuthorityForScope : option (nat → string → result LeadershipAuthority);
}.

Definition staticLeadershipProvider (authority : LeadershipAuthority) : LeadershipProvider :=
  mkProvider (λ _, inr authority) None.

Definition defaultLeadershipProvider : LeadershipProvider :=
  staticLeadershipProvider (mkAuthority true "single-node" "local" "").

(** *** Scope names: [^[A-Za-z0-9_-]+:[A-Za-z0-9._:/-]+$] for each segment *)

Definition in_range (lo hi : N) (c : ascii) : bool :=
  ((lo <=? rune_code c) && (rune_code c <=? hi))%N.

Definition is_alnum (c : ascii) : bool :=
  in_range 65 90 c || in_range 97 122 c || in_range 48 57 c.

Definition is_rune (r c : ascii) : bool := Ascii.eqb r c.

Definition key_char (c : ascii) : bool :=
  is_alnum c || is_rune "_" c || is_rune "-" c.
Definition value_char (c : ascii) : bool :=
  is_alnum c || is_rune "." c || is_rune "_" c || is_rune ":" c || is_rune "/" c ||
  is_rune "-" c.

Fixpoint all_runes (p : ascii → bool) (s : string) : bool :=
  match s with EmptyString => true | String c s' => p c && all_runes p s' end.

(** Keys hold no colon, so the first colon ends the key. *)
Fixpoint match_segment (seen_key : bool) (s : string) : bool :=
  match s with
  | EmptyString => false
  | String c s' =>
      if is_rune ":" c
      then seen_key && negb (String.eqb s' "") && all_runes value_char s'
      else key_char c && match_segment true s'
  end.

Definition scopeSegmentPattern (segment : string) : bool := match_segment false segment.

(** The scan of [IsValidScope]: [segment] is [scope[start:i]]. *)
Fixpoint scan_scope (segment rest : string) : bool :=
  match rest with
  | EmptyString => negb (String.eqb segment "") && scopeSegmentPattern segment
  | String c rest' =>
      if is_rune ";" c
      then negb (String.eqb segment "") && scopeSegmentPattern segment && scan_scope "" rest'
      else scan_scope (segment +:+ String c "") rest'
  end.

Definition IsValidScope (scope : string) : bool :=
  if String.eqb scope "" then true else scan_scope "" scope.

Definition DispatchAuthorityForScope (now : nat) (provider : LeadershipProvider)
    (scope : string) : result LeadershipAuthority :=
  if negb (IsValidScope scope) then
    inl (EWrap "" (ESentinel ErrInvalidScope) (": " +:+ fmt_q scope))
  else
    match lp_DispatchAuthorityForScope provider with
    | Some scoped =>
        match scoped now scope with
        | inl err => inl err
        | inr auth =>
            inr (if String.eqb (la_Scope auth) ""
                 then mkAuthority (la_IsLeader auth) (la_Epoch auth) (la_LeaderID auth) scope
                 else auth)
        end
    | None =>
        match lp_DispatchAuthority provider now with
        | inl err => inl err
        | inr auth =>
            inr (mkAuthority (la_IsLeader auth) (la_Epoch auth) (la_LeaderID auth) scope)
        end
    end.

(** ** Authority on the worker *)

Record DispatchAuthority := mkDispatch {
  da_LeaderID : string;
  da_Epoch : string;
  da_Scope : string;
}.

Definition dispatchAuthorityLeaderIDKey : string := "dispatch_leader_id".
Definition dispatchAuthorityEpochKey : string := "dispatch_epoch".
Definition dispatchAuthorityScopeKey : string := "dispatch_scope".

Definition put_trimmed (key value : string) (m : gmap string Value) : gmap string Value :=
  if negb (String.eqb (strings_TrimSpace value) "")
  then <[key := VString (strings_TrimSpace value)]> m else m.

Definition metadata (a : DispatchAuthority) : gmap string Value :=
  put_trimmed dispatchAuthorityScopeKey (da_Scope a)
    (put_trimmed dispatchAuthorityEpochKey (da_Epoch a)
       (put_trimmed dispatchAuthorityLeaderIDKey (da_LeaderID a) ∅)).

Section Metadata.
(** [fmt.Sprintf("%v", v)] of values other than strings, integers, booleans. *)
Context (fmt_opaque : Value → string).

Definition fmt_v (v : Value) : string :=
  match v with
  | VNil => "<nil>"
  | VBool b => if b then "true" else "false"
  | VString s => s
  | VInt z => pretty z
  | VFloat _ | VBytes _ | VList _ | VOpaque _ => fmt_opaque v
  end.

Definition metadataString (m : gmap string Value) (key : string) : string :=
  match m !! key with
  | None | Some VNil => ""
  | Some v => strings_TrimSpace (fmt_v v)
  end.

Definition authorityFromMetadata (m : gmap string Value) : DispatchAuthority :=
  if decide (m = ∅) then mkDispatch "" "" ""
  else mkDispatch (metadataString m dispatchAuthorityLeaderIDKey)
         (metadataString m dispatchAuthorityEpochKey)
         (metadataString m dispatchAuthorityScopeKey).
End Metadata.

Definition authorityRejectionReason (err : option error) : string :=
  match err with
  | None => "unknown"
  | Some e =>
      let lowered := strings_ToLower (Error e) in
      if errors_Is e ErrMissingDispatchAuthority then "missing_authority"
      else if errors_Is e ErrStaleDispatchAuthority then "stale_epoch"
      else if strings_Contains lowered "timeout" || errors_Is e DeadlineExceeded
      then "network_timeout"
      else if strings_Contains lowered "connection refused" ||
              strings_Contains lowered "connection reset" ||
              strings_Contains lowered "unavailable"
      then "transport_error"
      else "authority_unavailable"
  end.

Definition dispatchRejectionReason (err : option error) : string :=
  match err with
  | None => "unknown"
  | Some e =>
      let lowered := strings_ToLower (Error e) in
      if errors_Is e ErrStaleDispatchAuthority || errors_Is e ErrMissingDispatchAuthority
      then authorityRejectionReason err
      else if strings_Contains lowered "timeout" then "network_timeout"
      else if strings_Contains lowered "connection refused" ||
              strings_Contains lowered "connection reset" ||
              strings_Contains lowered "unavailable"
      then "transport_error"
      else "dispatch_error"
  end.

(** [strings.HasSuffix(s, "/")]. *)
Fixpoint ends_with_slash (s : string) : bool :=
  match s with
  | EmptyString => false
  | String c EmptyString => is_rune "/" c
  | String _ s' => ends_with_slash s'
  end.

(** A key-value pair of the etcd response: value and mod revision. *)
Record EtcdKV := mkKV { kv_Value : string; kv_ModRevision : Z }.

Section Validator.
(** The prefix query of [Validate], oldest key first, at most one key. *)
Context (etcd_Get : string → result (list EtcdKV)).

Definition election_prefix (electionKey : string) : string :=
  if ends_with_slash electionKey then electionKey else electionKey +:+ "/".

Definition current_authority (kvs : list EtcdKV) : DispatchAuthority :=
  match kvs with
  | [] => mkDispatch "" "" ""
  | kv :: _ => mkDispatch (kv_Value kv) (pretty (kv_ModRevision kv)) ""
  end.

Definition ValidateAuthority (electionKey : string) (authority : DispatchAuthority)
    : option error :=
  if String.eqb (strings_TrimSpace (da_LeaderID authority)) "" ||
     String.eqb (strings_TrimSpace (da_Epoch authority)) "" then
    Some (EWrap "" (ESentinel ErrMissingDispatchAuthority)
            (": leader_id=" +:+ fmt_q (da_LeaderID authority) +:+ " epoch=" +:+
             fmt_q (da_Epoch authority)))
  else
    match etcd_Get (election_prefix electionKey) with
    | inl err =>
        Some (EWrap ("query current dispatch authority at " +:+ fmt_q electionKey +:+ ": ")
                err "")
    | inr kvs =>
        let current := current_authority kvs in
        if String.eqb (da_LeaderID current) "" || String.eqb (da_Epoch current) "" then
          Some (EWrap "" (ESentinel ErrMissingDispatchAuthority)
                  (": current dispatch authority unavailable in etcd at " +:+ fmt_q electionKey))
        else if negb (String.eqb (da_LeaderID authority) (da_LeaderID current)) ||
                negb (String.eqb (da_Epoch authority) (da_Epoch current)) then
          Some (EWrap "" (ESentinel ErrStaleDispatchAuthority)
                  (": request leader_id=" +:+ fmt_q (da_LeaderID authority) +:+ " epoch=" +:+
                   fmt_q (da_Epoch authority) +:+ " current leader_id=" +:+
                   fmt_q (da_LeaderID current) +:+ " epoch=" +:+ fmt_q (da_Epoch current)))
        else None
    end.
End Validator.

(** ** Facts: scopes *)

Lemma scan_scope_app seg a b :
  scan_scope seg (a +:+ String ";" b) = scan_scope seg a && scan_scope "" b.
Proof.
  revert seg. induction a as [|c a IH]; intros seg; [done|].
  change (String c a +:+ String ";" b) with (String c (a +:+ String ";" b)).
  cbn [scan_scope].
  destruct (is_rune ";" c); [|apply IH]. by rewrite IH, andb_assoc.
Qed.

Lemma scope_segments_compose a b :
  a ≠ "" → b ≠ "" →
  IsValidScope (a +:+ String ";" b) = IsValidScope a && IsValidScope b.
Proof.
  intros Ha Hb. unfold IsValidScope.
  rewrite (proj2 (String.eqb_neq a "") Ha), (proj2 (String.eqb_neq b "") Hb).
  destruct a; [done|]. apply scan_scope_app.
Qed.

(** ** Facts: trimming *)

Lemma trim_right_idem s : trim_right (trim_right s) = trim_right s.
Proof.
  induction s as [|c s IH]; simpl; [done|].
  destruct (trim_right s) as [|d t] eqn:E.
  - destruct (unicode_IsSpace c) eqn:Ec; simpl; by rewrite ?Ec.
  - cbn [trim_right] in *. by rewrite IH.
Qed.

Lemma trim_left_right s : trim_left (trim_right (trim_left s)) = trim_right (trim_left s).
Proof.
  induction s as [|c s IH]; simpl; [done|].
  destruct (unicode_IsSpace c) eqn:Ec; [done|]. simpl.
  destruct (trim_right s); simpl; rewrite ?Ec; simpl; by rewrite ?Ec.
Qed.

Lemma TrimSpace_idem s : strings_TrimSpace (strings_TrimSpace s) = strings_TrimSpace s.
Proof. unfold strings_TrimSpace. by rewrite trim_left_right, trim_right_idem. Qed.

(** ** Facts: the authority carried by a request *)

Definition trim_authority (a : DispatchAuthority) : DispatchAuthority :=
  mkDispatch (strings_TrimSpace (da_LeaderID a)) (strings_TrimSpace (da_Epoch a))
    (strings_TrimSpace (da_Scope a)).

Lemma metadataString_put_eq f k v m :
  m !! k = None → metadataString f (put_trimmed k v m) k = strings_TrimSpace v.
Proof.
  intros Hm. unfold metadataString, put_trimmed.
  destruct (String.eqb_spec (strings_TrimSpace v) "") as [E|E]; simpl.
  - by rewrite Hm, E.
  - rewrite lookup_insert_eq. cbn [fmt_v]. apply TrimSpace_idem.
Qed.

Lemma put_trimmed_ne k v m k' : k ≠ k' → put_trimmed k v m !! k' = m !! k'.
Proof. intros. unfold put_trimmed. simp_if; [by rewrite lookup_insert_ne|done]. Qed.

Lemma metadataString_put_ne f k v m k' :
  k ≠ k' → metadataString f (put_trimmed k v m) k' = metadataString f m k'.
Proof. intros. unfold metadataString. by rewrite put_trimmed_ne. Qed.

Lemma authorityFromMetadata_eq f m :
  authorityFromMetadata f m =
  mkDispatch (metadataString f m dispatchAuthorityLeaderIDKey)
    (metadataString f m dispatchAuthorityEpochKey)
    (metadataString f m dispatchAuthorityScopeKey).
Proof.
  unfold authorityFromMetadata. destruct (decide (m = ∅)) as [->|_]; [|done].
  unfold metadataString. by rewrite !lookup_empty.
Qed.

(** The worker reads back the trimmed authority the scheduler stamped. *)
Theorem authority_metadata_roundtrip f a :
  authorityFromMetadata f (metadata a) = trim_authority a.
Proof.
  rewrite authorityFromMetadata_eq. unfold metadata, trim_authority. f_equal.
  - rewrite !metadataString_put_ne by done. apply metadataString_put_eq, lookup_empty.
  - rewrite metadataString_put_ne by done.
    apply metadataString_put_eq. rewrite put_trimmed_ne by done. apply lookup_empty.
  - apply metadataString_put_eq. rewrite !put_trimmed_ne by done. apply lookup_empty.
Qed.

(** A request passes the worker's check exactly when it names the leader and
    the epoch etcd currently holds. *)
Lemma ValidateAuthority_spec get key a :
  ValidateAuthority get key a = None ↔
  strings_TrimSpace (da_LeaderID a) ≠ "" ∧ strings_TrimSpace (da_Epoch a) ≠ "" ∧
  ∃ kvs, get (election_prefix key) = inr kvs ∧
         da_LeaderID a = da_LeaderID (current_authority kvs) ∧
         da_Epoch a = da_Epoch (current_authority kvs).
Proof.
  unfold ValidateAuthority.
  destruct (String.eqb_spec (strings_TrimSpace (da_LeaderID a)) "") as [|Hl]; [naive_solver|].
  destruct (String.eqb_spec (strings_TrimSpace (da_Epoch a)) "") as [|He]; [naive_solver|].
  simpl. destruct (get (election_prefix key)) as [|kvs]; [naive_solver|].
  set (cur := current_authority kvs). split.
  - destruct (_ || _); [done|]. destruct (_ || _) eqn:E; [done|]. intros _. bool_to_prop.
    naive_solver.
  - intros (_ & _ & kvs' & [= <-] & El & Ee). fold cur in El, Ee.
    rewrite <-El, <-Ee, !String.eqb_refl. simpl.
    destruct (String.eqb_spec (da_LeaderID a) ""); [exfalso; apply Hl; by rewrite e|].
    destruct (String.eqb_spec (da_Epoch a) ""); [exfalso; apply He; by rewrite e|]. done.
Qed.

(** Fencing: a worker accepts a request exactly when its leader and epoch are
    not blank and are those etcd holds for the election now; so while etcd does
    not change, all requests it accepts carry the same leader and epoch. *)
Theorem worker_fencing get key a :
  (ValidateAuthority get key a = None ↔
     strings_TrimSpace (da_LeaderID a) ≠ "" ∧ strings_TrimSpace (da_Epoch a) ≠ "" ∧
     ∃ kv kvs, get (election_prefix key) = inr (kv :: kvs) ∧
       da_LeaderID a = kv_Value kv ∧ da_Epoch a = pretty (kv_ModRevision kv)) ∧
  ∀ b, ValidateAuthority get key a = None → ValidateAuthority get key b = None →
    da_LeaderID a = da_LeaderID b ∧ da_Epoch a = da_Epoch b.
Proof.
  split; [|intros b; rewrite !ValidateAuthority_spec; naive_solver congruence].
  rewrite ValidateAuthority_spec. split.
  - intros (Hl & He & [|kv kvs] & Hg & Hl' & He'); [by rewrite Hl' in Hl|]. eauto 10.
  - intros (Hl & He & kv & kvs & Hg & Hl' & He'). eauto 10.
Qed.

(** A scope made of two parts is valid exactly when both parts are. *)
Theorem scope_composition a b :
  a ≠ "" → b ≠ "" →
  IsValidScope (a +:+ String ";" b) = IsValidScope a && IsValidScope b.
Proof. apply scope_segments_compose. Qed.
