(* ===== verification/Nodes.v ===== *)
(** * Node selection: affinity, capacity, dispatch cooldowns

    pkg/scheduler/affinity.go and the capacity half of
    pkg/scheduler/scheduler.go.  [time.Now()] reads the clock at the current
    time step and moves to the next one, so that the clock may advance between
    any two reads. *)

From stdpp Require Import base gmap strings list fin_maps.
From S2P Require Import Prelude Config.

Open Scope Z_scope.

(** ** State *)

Record NodeInfo := mkNode {
  ni_ID : string;
  ni_Name : string;
  ni_Address : string;
  ni_Port : Z;
  ni_Capabilities : list string;
  ni_Metadata : option (gmap string string);
  ni_LastSeen : Time;
  ni_LoadBits : N;
  ni_Healthy : bool;
}.

Record nodeCapacity := mkCap {
  nc_ReservedInFlight : Z;
  nc_ReportedInFlight : Z;
  nc_MaxConcurrency : Z;
  nc_LastUpdated : Time;
}.

Record AffinityEntry := mkAffinity {
  ae_NodeID : string;
  ae_CreatedAt : Time;
  ae_LastUsedAt : Time;
  ae_HitCount : Z;
}.

Record AffinityMap := mkAffinityMap {
  am_entries : gmap string AffinityEntry;
  am_ttl : Duration;
}.

Record AffinityResult := mkAffinityResult {
  ar_NodeID : string;
  ar_IsHit : bool;
  ar_IsStale : bool;
  ar_PartitionKey : string;
}.

(** The scheduler fields of this file; [ns_tick] counts the environment reads. *)
Record NodeState := mkNodeState {
  ns_tick : nat;
  ns_nodeIndex : Z;
  ns_nodeCapacity : gmap string nodeCapacity;
  ns_dispatchCooldowns : gmap string Time;
  ns_affinityMap : option AffinityMap;
}.

Definition set_tick (n : nat) (s : NodeState) : NodeState :=
  mkNodeState n (ns_nodeIndex s) (ns_nodeCapacity s) (ns_dispatchCooldowns s) (ns_affinityMap s).
Definition set_nodeIndex (i : Z) (s : NodeState) : NodeState :=
  mkNodeState (ns_tick s) i (ns_nodeCapacity s) (ns_dispatchCooldowns s) (ns_affinityMap s).
Definition set_nodeCapacity (m : gmap string nodeCapacity) (s : NodeState) : NodeState :=
  mkNodeState (ns_tick s) (ns_nodeIndex s) m (ns_dispatchCooldowns s) (ns_affinityMap s).
Definition set_dispatchCooldowns (m : gmap string Time) (s : NodeState) : NodeState :=
  mkNodeState (ns_tick s) (ns_nodeIndex s) (ns_nodeCapacity s) m (ns_affinityMap s).
Definition set_affinityMap (a : option AffinityMap) (s : NodeState) : NodeState :=
  mkNodeState (ns_tick s) (ns_nodeIndex s) (ns_nodeCapacity s) (ns_dispatchCooldowns s) a.

(** [x++] of an int or an int64. *)
Definition i64_incr (x : Z) : Z :=
  (x + 1 + 9223372036854775808) mod 18446744073709551616 - 9223372036854775808.

(** ** Affinity map operations *)

Module Affinity.

Definition NewAffinityMap (ttl : Duration) : AffinityMap := mkAffinityMap ∅ ttl.

Definition Get (am : AffinityMap) (key : string) : option AffinityEntry := am_entries am !! key.

Definition Set_ (am : AffinityMap) (key nodeID : string) (now : Time) : AffinityMap :=
  mkAffinityMap (<[key := mkAffinity nodeID now now 1]> (am_entries am)) (am_ttl am).

Definition Touch (am : AffinityMap) (key : string) (now : Time) : bool * AffinityMap :=
  match am_entries am !! key with
  | None => (false, am)
  | Some e =>
      (true, mkAffinityMap
               (<[key := mkAffinity (ae_NodeID e) (ae_CreatedAt e) now
                           (i64_incr (ae_HitCount e))]> (am_entries am)) (am_ttl am))
  end.

Definition Delete (am : AffinityMap) (key : string) : AffinityMap :=
  mkAffinityMap (delete key (am_entries am)) (am_ttl am).

Definition Size (am : AffinityMap) : nat := size (am_entries am).

Definition GetAll (am : AffinityMap) : gmap string AffinityEntry :=
  map_fold (λ k v result, <[k := v]> result) (∅ : gmap string AffinityEntry) (am_entries am).

(** [cleanupExpired]: collect the idle keys, then delete them. *)
Definition expired (now : Time) (ttl : Duration) (e : AffinityEntry) : bool :=
  ttl <? now - ae_LastUsedAt e.

Definition expiredKeys (am : AffinityMap) (now : Time) : list string :=
  (filter (λ '(_, e), expired now (am_ttl am) e = true) (map_to_list (am_entries am))).*1.

Definition cleanupExpired (am : AffinityMap) (now : Time) : AffinityMap :=
  mkAffinityMap (foldl (λ m k, delete k m) (am_entries am) (expiredKeys am now)) (am_ttl am).

End Affinity.

(** ** Capacity accounting *)

Definition availableCapacityLocked (capacity : nodeCapacity) : Z :=
  let inUse := nc_ReservedInFlight capacity in
  let inUse := if inUse <? nc_ReportedInFlight capacity
               then nc_ReportedInFlight capacity else inUse in
  nc_MaxConcurrency capacity - inUse.

Section Nodes.
Context (cfg : SchedulerConfig) (clock : nat → Time).

Definition time_Now : ST NodeState Time :=
  λ s, (clock (ns_tick s), set_tick (S (ns_tick s)) s).

Definition put_capacity (nodeID : string) (c : nodeCapacity) : ST NodeState unit :=
  st_modify (λ s, set_nodeCapacity (<[nodeID := c]> (ns_nodeCapacity s)) s).

Definition getOrCreateNodeCapacityLocked (nodeID : string) : ST NodeState nodeCapacity :=
  s ← st_get;
  match ns_nodeCapacity s !! nodeID with
  | Some capacity => mret capacity
  | None =>
      now ← time_Now;
      let capacity := mkCap 0 0 (DefaultWorkerMaxConcurrency cfg) now in
      _ ← put_capacity nodeID capacity;
      mret capacity
  end.

Definition isCapacityFreshLocked (capacity : nodeCapacity) : ST NodeState bool :=
  if IsZero (nc_LastUpdated capacity) then mret false
  else now ← time_Now; mret (now - nc_LastUpdated capacity <=? CapacityTTL cfg).

Definition isInDispatchCooldownLocked (nodeID : string) : ST NodeState bool :=
  s ← st_get;
  match ns_dispatchCooldowns s !! nodeID with
  | None => mret false
  | Some expiry =>
      now ← time_Now;
      if After now expiry then
        _ ← st_modify (λ s, set_dispatchCooldowns (delete nodeID (ns_dispatchCooldowns s)) s);
        mret false
      else mret true
  end.

Definition markDispatchCooldown (nodeID : string) : ST NodeState unit :=
  now ← time_Now;
  st_modify (λ s, set_dispatchCooldowns
                    (<[nodeID := now + DispatchRejectCooldown cfg]> (ns_dispatchCooldowns s)) s).

Definition nodeHasAvailableCapacity (nodeID : string) : ST NodeState bool :=
  cooling ← isInDispatchCooldownLocked nodeID;
  if (cooling : bool) then mret false
  else
    capacity ← getOrCreateNodeCapacityLocked nodeID;
    mret (0 <? availableCapacityLocked capacity).

Definition reserveNodeSlot (nodeID : string) : ST NodeState unit :=
  c ← getOrCreateNodeCapacityLocked nodeID;
  now ← time_Now;
  put_capacity nodeID (mkCap (nc_ReservedInFlight c + 1) (nc_ReportedInFlight c)
                         (nc_MaxConcurrency c) now).

Definition releaseNodeSlot (nodeID : string) : ST NodeState unit :=
  c ← getOrCreateNodeCapacityLocked nodeID;
  now ← time_Now;
  put_capacity nodeID
    (mkCap (if 0 <? nc_ReservedInFlight c then nc_ReservedInFlight c - 1
            else nc_ReservedInFlight c)
       (nc_ReportedInFlight c) (nc_MaxConcurrency c) now).

Definition UpdateNodeCapacityAt (nodeID : string) (inFlight maxConcurrency : Z)
    (reportedAt : Time) : ST NodeState unit :=
  c ← getOrCreateNodeCapacityLocked nodeID;
  let inFlight := if inFlight <? 0 then 0 else inFlight in
  let maxConcurrency := if maxConcurrency <=? 0
                        then DefaultWorkerMaxConcurrency cfg else maxConcurrency in
  let maxConcurrency := if MaxWorkerConcurrencyCap cfg <? maxConcurrency
                        then MaxWorkerConcurrencyCap cfg else maxConcurrency in
  at_ ← (if IsZero reportedAt then time_Now else mret reportedAt);
  put_capacity nodeID (mkCap (nc_ReservedInFlight c) inFlight maxConcurrency at_).

Definition UpdateNodeCapacity (nodeID : string) (inFlight maxConcurrency : Z)
    : ST NodeState unit :=
  now ← time_Now; UpdateNodeCapacityAt nodeID inFlight maxConcurrency now.

(** *** Selecting by capacity

    The loop keeps the best availability among fresh and among stale capacity
    snapshots, with the nodes that reach it (the code keeps their indexes). *)
Record Candidates := mkCandidates {
  freshBestAvailable : Z;
  freshBest : list NodeInfo;
  staleBestAvailable : Z;
  staleBest : list NodeInfo;
}.

Definition no_candidates : Candidates := mkCandidates (-1) [] (-1) [].

Definition consider_fresh (available : Z) (node : NodeInfo) (c : Candidates) : Candidates :=
  if freshBestAvailable c <? available
  then mkCandidates available [node] (staleBestAvailable c) (staleBest c)
  else if available =? freshBestAvailable c
  then mkCandidates (freshBestAvailable c) (freshBest c ++ [node])
         (staleBestAvailable c) (staleBest c)
  else c.

Definition consider_stale (available : Z) (node : NodeInfo) (c : Candidates) : Candidates :=
  if staleBestAvailable c <? available
  then mkCandidates (freshBestAvailable c) (freshBest c) available [node]
  else if available =? staleBestAvailable c
  then mkCandidates (freshBestAvailable c) (freshBest c)
         (staleBestAvailable c) (staleBest c ++ [node])
  else c.

Fixpoint scan_nodes (nodes : list NodeInfo) (c : Candidates) : ST NodeState Candidates :=
  match nodes with
  | [] => mret c
  | node :: rest =>
      cooling ← isInDispatchCooldownLocked (ni_ID node);
      if (cooling : bool) then scan_nodes rest c
      else
        capacity ← getOrCreateNodeCapacityLocked (ni_ID node);
        let available := availableCapacityLocked capacity in
        fresh ← isCapacityFreshLocked capacity;
        if (fresh : bool) then scan_nodes rest (consider_fresh available node c)
        else scan_nodes rest (consider_stale available node c)
  end.

(** [nodes[idx[s.nodeIndex % len(idx)]]; s.nodeIndex++].  [None] is a panic: of the
    remainder when the slice is empty, of the index when it is negative, which it
    is once the counter has wrapped around. *)
Definition round_robin (best : list NodeInfo) : ST NodeState (option NodeInfo) :=
  s ← st_get;
  let len := Z.of_nat (length best) in
  if len =? 0 then mret None
  else
    let k := Z.rem (ns_nodeIndex s) len in
    if k <? 0 then mret None
    else
      _ ← st_modify (set_nodeIndex (i64_incr (ns_nodeIndex s)));
      mret (best !! Z.to_nat k).

(** The selected node, or none of the nodes; the outer [None] is a panic. *)
Definition selectNodeByCapacity (nodes : list NodeInfo)
    : ST NodeState (option (option NodeInfo)) :=
  match nodes with
  | [node] =>
      ok ← nodeHasAvailableCapacity (ni_ID node);
      mret (Some (if (ok : bool) then Some node else None))
  | _ =>
      c ← scan_nodes nodes no_candidates;
      if (0 <? freshBestAvailable c) && negb (bool_decide (freshBest c = []))
      then selected ← round_robin (freshBest c); mret (Some <$> selected)
      else if negb (bool_decide (freshBest c = [])) then mret (Some None)
      else if (staleBestAvailable c <=? 0) || bool_decide (staleBest c = []) then mret (Some None)
      else selected ← round_robin (staleBest c); mret (Some <$> selected)
  end.

Definition roundRobinSelect (nodes : list NodeInfo) : ST NodeState (option NodeInfo) :=
  round_robin nodes.

(** *** Selecting for a task: sticky routing by partition key *)

(** The set built by the loop [healthyNodeSet[node.ID] = node]. *)
Definition healthyNodeSet (nodes : list NodeInfo) : gmap string NodeInfo :=
  foldl (λ m node, <[ni_ID node := node]> m) ∅ nodes.

Definition modify_affinity (f : AffinityMap → AffinityMap) : ST NodeState unit :=
  st_modify (λ s, match ns_affinityMap s with
                  | Some am => set_affinityMap (Some (f am)) s
                  | None => s
                  end).

(** Selecting by capacity when no affinity is kept. *)
Definition select_plain (partitionKey : string) (nodes : list NodeInfo)
    : ST NodeState (option (option NodeInfo * AffinityResult)) :=
  selected ← selectNodeByCapacity nodes;
  match selected with
  | None => mret None
  | Some None => mret (Some (None, mkAffinityResult "" false false partitionKey))
  | Some (Some node) =>
      mret (Some (Some node, mkAffinityResult (ni_ID node) false false partitionKey))
  end.

(** The tail of [selectNodeForTask]: no usable affinity. *)
Definition select_miss (partitionKey : string) (isStale : bool)
    (nodes : list NodeInfo) : ST NodeState (option (option NodeInfo * AffinityResult)) :=
  selected ← selectNodeByCapacity nodes;
  match selected with
  | None => mret None
  | Some None => mret (Some (None, mkAffinityResult "" false isStale partitionKey))
  | Some (Some node) =>
      now ← time_Now;
      _ ← modify_affinity (λ am, Affinity.Set_ am partitionKey (ni_ID node) now);
      mret (Some (Some node, mkAffinityResult (ni_ID node) false isStale partitionKey))
  end.

Definition selectNodeForTask (partitionKey : string) (healthyNodes : list NodeInfo)
    : ST NodeState (option (option NodeInfo * AffinityResult)) :=
  s ← st_get;
  match ns_affinityMap s with
  | Some am =>
    if negb (EnableStickiness cfg) || String.eqb partitionKey ""
    then select_plain partitionKey healthyNodes
    else
      match Affinity.Get am partitionKey with
      | None => select_miss partitionKey false healthyNodes
      | Some entry =>
          match healthyNodeSet healthyNodes !! ae_NodeID entry with
          | Some node =>
              ok ← nodeHasAvailableCapacity (ae_NodeID entry);
              if (ok : bool) then
                now ← time_Now;
                _ ← modify_affinity (λ am, (Affinity.Touch am partitionKey now).2);
                mret (Some (Some node, mkAffinityResult (ae_NodeID entry) true false partitionKey))
              else select_miss partitionKey false healthyNodes
          | None =>
              _ ← modify_affinity (λ am, Affinity.Delete am partitionKey);
              select_miss partitionKey true healthyNodes
          end
      end
  | None => select_plain partitionKey healthyNodes
  end.
End Nodes.

(** Control-plane nodes never receive work. *)
Definition control_plane (node : NodeInfo) : bool :=
  let by_role :=
    match ni_Metadata node with
    | Some m =>
        match m !! "role" with
        | Some role => strings_EqualFold (strings_TrimSpace role) "control-plane"
        | None => false
        end
    | None => false
    end in
  by_role ||
  existsb (λ c, strings_EqualFold (strings_TrimSpace c) "control-plane") (ni_Capabilities node).

Definition dispatchEligibleNodes (nodes : list NodeInfo) : list NodeInfo :=
  filter (λ node, control_plane node = false) nodes.

(** ** Facts: affinity *)

Lemma foldl_delete_lookup {V} (l : list string) (m : gmap string V) k :
  foldl (λ m k, delete k m) m l !! k = if decide (k ∈ l) then None else m !! k.
Proof.
  revert m. induction l as [|x l IH]; intros m; cbn [foldl].
  { destruct (decide (k ∈ [])) as [H|_]; [by apply elem_of_nil in H|done]. }
  rewrite IH. destruct (decide (k ∈ l)), (decide (k ∈ x :: l)) as [Hk|Hk];
    try (by set_solver); try done.
  - assert (k = x) as -> by set_solver. apply lookup_delete_eq.
  - apply lookup_delete_ne. set_solver.
Qed.

(** Cleanup removes exactly the entries idle for longer than the TTL. *)
Theorem affinity_cleanup_exact am now key :
  Affinity.Get (Affinity.cleanupExpired am now) key =
  match Affinity.Get am key with
  | Some e => if Affinity.expired now (am_ttl am) e then None else Some e
  | None => None
  end.
Proof.
  unfold Affinity.Get, Affinity.cleanupExpired. simpl. rewrite foldl_delete_lookup.
  assert (key ∈ Affinity.expiredKeys am now ↔
          ∃ e, am_entries am !! key = Some e ∧ Affinity.expired now (am_ttl am) e = true) as Hk.
  { unfold Affinity.expiredKeys. rewrite list_elem_of_fmap. split.
    - intros ([k e] & -> & [H1 H2]%list_elem_of_filter). apply elem_of_map_to_list in H2. eauto.
    - intros (e & H1 & H2). exists (key, e). split; [done|].
      apply list_elem_of_filter. split; [done|]. by apply elem_of_map_to_list. }
  destruct (decide (key ∈ _)) as [Hin|Hout].
  - apply Hk in Hin as (e & -> & ->). done.
  - destruct (am_entries am !! key) as [e|]; [|done].
    destruct (Affinity.expired now (am_ttl am) e) eqn:E; [|done].
    exfalso. apply Hout, Hk. eauto.
Qed.

(** ** Facts: selection under a clock that stands still *)

Section SelectFacts.
Context (cfg : SchedulerConfig) (clock : nat → Time) (now : Time).
Hypothesis clock_now : ∀ n, clock n = now.

(** What a selection reads of a node: its available slots, whether its
    capacity snapshot is fresh, whether it cools down. *)
Definition node_capacity (s : NodeState) (id : string) : nodeCapacity :=
  default (mkCap 0 0 (DefaultWorkerMaxConcurrency cfg) now) (ns_nodeCapacity s !! id).
Definition avail (s : NodeState) (id : string) : Z :=
  availableCapacityLocked (node_capacity s id).
Definition fresh (s : NodeState) (id : string) : bool :=
  let lu := nc_LastUpdated (node_capacity s id) in
  negb (IsZero lu) && (now - lu <=? CapacityTTL cfg).
Definition cooling (s : NodeState) (id : string) : bool :=
  match ns_dispatchCooldowns s !! id with
  | None => false
  | Some expiry => negb (After now expiry)
  end.

(** States that answer these questions alike. *)
Record same_nodes (s s' : NodeState) : Prop := {
  sn_cap : ∀ id, node_capacity s' id = node_capacity s id;
  sn_cool : ∀ id, cooling s' id = cooling s id;
  sn_index : ns_nodeIndex s' = ns_nodeIndex s;
  sn_affinity : ns_affinityMap s' = ns_affinityMap s;
}.

#[export] Instance same_nodes_pre : PreOrder same_nodes.
Proof.
  split; [by split|]. intros a b c [] []. split; intros; etrans; eauto.
Qed.

Lemma same_nodes_avail s s' id : same_nodes s s' → avail s' id = avail s id.
Proof. intros []. unfold avail. by rewrite sn_cap0. Qed.
Lemma same_nodes_fresh s s' id : same_nodes s s' → fresh s' id = fresh s id.
Proof. intros []. unfold fresh. by rewrite sn_cap0. Qed.

Lemma time_Now_eq s : (time_Now clock s).1 = now ∧ same_nodes s (time_Now clock s).2.
Proof. split; [apply clock_now|by split]. Qed.

Lemma cooldown_spec id s :
  (isInDispatchCooldownLocked clock id s).1 = cooling s id ∧
  same_nodes s (isInDispatchCooldownLocked clock id s).2.
Proof.
  unfold isInDispatchCooldownLocked. rewrite ST_bind_eq. simpl. unfold cooling at 1.
  destruct (ns_dispatchCooldowns s !! id) as [e|] eqn:E; [|by split].
  rewrite ST_bind_eq. simpl. rewrite clock_now.
  destruct (After now e) eqn:Ea; [|by split]. rewrite ST_bind_eq. simpl.
  split; [done|]. split; simpl; try done. intros id'. unfold cooling. simpl.
  destruct (decide (id = id')) as [<-|Hne].
  - by rewrite lookup_delete_eq, E, Ea.
  - by rewrite lookup_delete_ne.
Qed.

Lemma getOrCreate_spec id s :
  (getOrCreateNodeCapacityLocked cfg clock id s).1 = node_capacity s id ∧
  same_nodes s (getOrCreateNodeCapacityLocked cfg clock id s).2.
Proof.
  unfold getOrCreateNodeCapacityLocked. rewrite ST_bind_eq. simpl. unfold node_capacity at 1.
  destruct (ns_nodeCapacity s !! id) as [c|] eqn:E; [by split|].
  rewrite !ST_bind_eq. simpl. rewrite clock_now.
  split; [done|]. split; simpl; try done. intros id'. unfold node_capacity. simpl.
  destruct (decide (id = id')) as [<-|Hne].
  - by rewrite lookup_insert_eq, E.
  - by rewrite lookup_insert_ne.
Qed.

Lemma isFresh_spec id s :
  (isCapacityFreshLocked cfg clock (node_capacity s id) s).1 = fresh s id ∧
  same_nodes s (isCapacityFreshLocked cfg clock (node_capacity s id) s).2.
Proof.
  unfold isCapacityFreshLocked, fresh. destruct (IsZero _); [by split|].
  rewrite ST_bind_eq. simpl. rewrite clock_now. by split.
Qed.

Lemma nodeHasAvailableCapacity_spec id s :
  (nodeHasAvailableCapacity cfg clock id s).1 = negb (cooling s id) && (0 <? avail s id) ∧
  same_nodes s (nodeHasAvailableCapacity cfg clock id s).2.
Proof.
  unfold nodeHasAvailableCapacity. rewrite ST_bind_eq.
  destruct (cooldown_spec id s) as [-> H1]. destruct (cooling s id); [by split|].
  rewrite ST_bind_eq.
  destruct (getOrCreate_spec id (isInDispatchCooldownLocked clock id s).2) as [-> H2].
  simpl. rewrite (sn_cap _ _ H1). split; [done|]. by etrans.
Qed.

(** The scan, as a pure function of the state it starts from. *)
Definition considered (s : NodeState) (c : Candidates) (node : NodeInfo) : Candidates :=
  if cooling s (ni_ID node) then c
  else if fresh s (ni_ID node) then consider_fresh (avail s (ni_ID node)) node c
  else consider_stale (avail s (ni_ID node)) node c.

Lemma scan_nodes_spec nodes c s0 s :
  same_nodes s0 s →
  (scan_nodes cfg clock nodes c s).1 = foldl (considered s0) c nodes ∧
  same_nodes s0 (scan_nodes cfg clock nodes c s).2.
Proof.
  revert c s. induction nodes as [|node nodes IH]; intros c s Hs; [by split|].
  cbn [scan_nodes foldl]. rewrite ST_bind_eq. unfold considered at 2.
  destruct (cooldown_spec (ni_ID node) s) as [-> H1]. rewrite (sn_cool _ _ Hs).
  set (s1 := (isInDispatchCooldownLocked clock (ni_ID node) s).2) in *.
  assert (same_nodes s0 s1) as H01 by (by etrans).
  destruct (cooling s0 (ni_ID node)); [by apply IH|].
  rewrite ST_bind_eq. destruct (getOrCreate_spec (ni_ID node) s1) as [-> H2].
  set (s2 := (getOrCreateNodeCapacityLocked cfg clock (ni_ID node) s1).2) in *.
  assert (same_nodes s0 s2) as H02 by (by etrans).
  rewrite ST_bind_eq. rewrite <-(sn_cap _ _ H2).
  destruct (isFresh_spec (ni_ID node) s2) as [-> H3].
  set (s3 := (isCapacityFreshLocked _ _ _ s2).2) in *.
  assert (same_nodes s0 s3) as H03 by (by etrans).
  rewrite (same_nodes_fresh s0 s2) by done. fold (avail s2 (ni_ID node)).
  rewrite (same_nodes_avail s0 s2) by done.
  destruct (fresh s0 (ni_ID node)); by apply IH.
Qed.
End SelectFacts.

(** The running maximum the scan keeps; overcommitted nodes below [-1] never
    raise it. *)
Definition best_of (a : NodeInfo → Z) (l : list NodeInfo) : Z := foldl Z.max (-1) (a <$> l).
Definition best_nodes (a : NodeInfo → Z) (l : list NodeInfo) : list NodeInfo :=
  filter (λ n, a n = best_of a l) l.

Lemma best_of_snoc a l n : best_of a (l ++ [n]) = Z.max (best_of a l) (a n).
Proof. unfold best_of. by rewrite fmap_app, foldl_app. Qed.

Lemma best_of_ge a l : -1 ≤ best_of a l ∧ ∀ n, n ∈ l → a n ≤ best_of a l.
Proof.
  induction l as [|x l [IH1 IH2]] using rev_ind.
  { split; [done|]. by intros ? ?%elem_of_nil. }
  rewrite best_of_snoc. split; [lia|].
  intros n [Hn| ->%list_elem_of_singleton]%elem_of_app; [specialize (IH2 _ Hn)|]; lia.
Qed.

Lemma filter_none {A} (P : A → Prop) `{!∀ x, Decision (P x)} (l : list A) :
  (∀ x, x ∈ l → ¬ P x) → filter P l = [].
Proof.
  induction l as [|x l IH]; intros Hl; [done|]. rewrite filter_cons, decide_False.
  - apply IH. intros ??. apply Hl. by right.
  - apply Hl. by left.
Qed.

Lemma best_nodes_snoc a l n :
  best_nodes a (l ++ [n]) =
  if best_of a l <? a n then [n]
  else if a n =? best_of a l then best_nodes a l ++ [n]
  else best_nodes a l.
Proof.
  unfold best_nodes. rewrite best_of_snoc. destruct (best_of_ge a l) as [_ Hle].
  rewrite filter_app, filter_cons, filter_nil.
  destruct (Z.ltb_spec (best_of a l) (a n)).
  - rewrite Z.max_r, decide_True by lia.
    rewrite filter_none; [done|]. intros x Hx Heq. specialize (Hle _ Hx). lia.
  - rewrite Z.max_l by lia. destruct (Z.eqb_spec (a n) (best_of a l)).
    + by rewrite decide_True.
    + by rewrite decide_False, app_nil_r.
Qed.

Section SelectSpec.
Context (cfg : SchedulerConfig) (clock : nat → Time) (now : Time).
Hypothesis clock_now : ∀ n, clock n = now.

Let avail_of (s : NodeState) (n : NodeInfo) : Z := avail cfg now s (ni_ID n).

(** The nodes the scan classifies as fresh, and as stale. *)
Definition fresh_nodes (s : NodeState) (nodes : list NodeInfo) : list NodeInfo :=
  filter (λ n, cooling now s (ni_ID n) = false ∧ fresh cfg now s (ni_ID n) = true) nodes.
Definition stale_nodes (s : NodeState) (nodes : list NodeInfo) : list NodeInfo :=
  filter (λ n, cooling now s (ni_ID n) = false ∧ fresh cfg now s (ni_ID n) = false) nodes.

Lemma considered_fold s nodes :
  foldl (considered cfg now s) no_candidates nodes =
  mkCandidates (best_of (avail_of s) (fresh_nodes s nodes))
    (best_nodes (avail_of s) (fresh_nodes s nodes))
    (best_of (avail_of s) (stale_nodes s nodes))
    (best_nodes (avail_of s) (stale_nodes s nodes)).
Proof.
  induction nodes as [|n nodes IH] using rev_ind; [done|].
  rewrite foldl_app, IH. cbn [foldl]. unfold fresh_nodes, stale_nodes.
  rewrite !filter_app, !filter_cons, !filter_nil.
  fold (fresh_nodes s nodes) (stale_nodes s nodes). unfold considered.
  destruct (cooling now s (ni_ID n)), (fresh cfg now s (ni_ID n)) eqn:Ef;
    repeat case_decide; destruct_and?; try done; rewrite ?app_nil_r; try (exfalso; tauto);
    [done..| |].
  - unfold consider_fresh. cbn [freshBestAvailable freshBest staleBestAvailable staleBest].
    rewrite best_nodes_snoc, best_of_snoc.
    change (avail cfg now s (ni_ID n)) with (avail_of s n).
    repeat simp_if; bool_to_prop; f_equal; first [lia|done].
  - unfold consider_stale. cbn [freshBestAvailable freshBest staleBestAvailable staleBest].
    rewrite best_nodes_snoc, best_of_snoc.
    change (avail cfg now s (ni_ID n)) with (avail_of s n).
    repeat simp_if; bool_to_prop; f_equal; first [lia|done].
Qed.

Lemma best_nodes_elem a l n : n ∈ best_nodes a l ↔ a n = best_of a l ∧ n ∈ l.
Proof. unfold best_nodes. by rewrite list_elem_of_filter. Qed.

Lemma best_of_floor a l : (∀ m, m ∈ l → a m < -1) → best_of a l = -1.
Proof.
  induction l as [|y l IH] using rev_ind; intros Hl; [done|].
  assert (a y < -1) by (apply Hl; set_solver).
  rewrite best_of_snoc, IH; [lia|]. intros m Hm. apply Hl. set_solver.
Qed.

Lemma best_nodes_nil a l : best_nodes a l = [] ↔ ∀ m, m ∈ l → a m < -1.
Proof.
  induction l as [|n l IH] using rev_ind.
  { split; [|done]. by intros _ ? ?%elem_of_nil. }
  rewrite best_nodes_snoc. split.
  - repeat simp_if; bool_to_prop; intros H; [done|by destruct (best_nodes a l)|].
    pose proof (proj1 IH H) as Hl. pose proof (best_of_floor a l Hl).
    intros m [Hm| ->%list_elem_of_singleton]%elem_of_app; [by apply Hl|]. lia.
  - intros Hl. assert (a n < -1) by (apply Hl; set_solver).
    assert (∀ m, m ∈ l → a m < -1) as Hl' by (intros; apply Hl; set_solver).
    rewrite (best_of_floor a l Hl'), (proj2 IH Hl').
    repeat simp_if; bool_to_prop; first [done|lia].
Qed.

Lemma round_robin_spec best s :
  0 ≤ ns_nodeIndex s → best ≠ [] →
  ∃ n, (round_robin best s).1 = Some n ∧ n ∈ best.
Proof.
  intros Hi Hb. unfold round_robin. rewrite !ST_bind_eq. cbn [st_get fst snd].
  assert (0 < length best)%nat by (destruct best; simpl; [done|lia]).
  pose proof (Z.rem_bound_pos (ns_nodeIndex s) (Z.of_nat (length best))).
  destruct (Z.eqb_spec (Z.of_nat (length best)) 0) as [|_]; [lia|].
  destruct (Z.ltb_spec (Z.rem (ns_nodeIndex s) (Z.of_nat (length best))) 0); [lia|].
  destruct (lookup_lt_is_Some_2 best
    (Z.to_nat (Z.rem (ns_nodeIndex s) (Z.of_nat (length best))))) as [n Hn]; [lia|].
  exists n. split; [done|]. by eapply list_elem_of_lookup_2.
Qed.

(** A node is chosen among the given ones; it is not cooling down and has a
    free slot.  Among several nodes, the choice has the most free slots of all
    nodes with fresh capacity data; nodes with stale data are used only when
    every node with fresh data is overcommitted by more than one slot.  No
    node is chosen only when the nodes so considered have no free slot. *)
Lemma selectNodeByCapacity_spec nodes s :
  0 ≤ ns_nodeIndex s → length nodes ≠ 1%nat →
  let F := fresh_nodes s nodes in
  let S := stale_nodes s nodes in
  match (selectNodeByCapacity cfg clock nodes s).1 with
  | None => False
  | Some (Some n) =>
      0 < avail_of s n ∧
      ((n ∈ F ∧ ∀ m, m ∈ F → avail_of s m ≤ avail_of s n) ∨
       (n ∈ S ∧ (∀ m, m ∈ F → avail_of s m < -1) ∧
        ∀ m, m ∈ S → avail_of s m ≤ avail_of s n))
  | Some None =>
      (∀ m, m ∈ F → avail_of s m ≤ 0) ∧
      ((∃ m, m ∈ F ∧ -1 ≤ avail_of s m) ∨ ∀ m, m ∈ S → avail_of s m ≤ 0)
  end.
Proof.
  intros Hi Hlen F S. destruct (scan_nodes_spec cfg clock now clock_now nodes no_candidates s s)
    as [Hscan Hsame]; [reflexivity|].
  rewrite considered_fold in Hscan.
  assert (selectNodeByCapacity cfg clock nodes s =
    (c ← scan_nodes cfg clock nodes no_candidates;
      if (0 <? freshBestAvailable c) && negb (bool_decide (freshBest c = []))
      then selected ← round_robin (freshBest c); mret (Some <$> selected)
      else if negb (bool_decide (freshBest c = [])) then mret (Some None)
      else if (staleBestAvailable c <=? 0) || bool_decide (staleBest c = []) then mret (Some None)
      else selected ← round_robin (staleBest c); mret (Some <$> selected)) s) as ->.
  { by destruct nodes as [|? [|]]. }
  rewrite ST_bind_eq, Hscan. fold F S.
  set (s' := (scan_nodes cfg clock nodes no_candidates s).2) in *.
  assert (0 ≤ ns_nodeIndex s') as Hi' by (by rewrite (sn_index _ _ _ _ Hsame)).
  cbn [freshBestAvailable freshBest staleBestAvailable staleBest].
  destruct (best_of_ge (avail_of s) F) as [HF1 HF2].
  destruct (best_of_ge (avail_of s) S) as [HS1 HS2].
  pose proof (best_nodes_nil (avail_of s) F) as HFnil.
  destruct (bool_decide (best_nodes (avail_of s) F = [])) eqn:EF; bool_to_prop.
  - rewrite andb_false_r. cbn [negb]. rewrite HFnil in EF.
    destruct (_ || _) eqn:ES; cbn [mret ST_ret fst].
    + split; [intros m Hm; specialize (EF m Hm); lia|]. right. intros m Hm.
      apply orb_true_iff in ES as [ES|ES]; bool_to_prop; [specialize (HS2 m Hm); lia|].
      rewrite best_nodes_nil in ES. specialize (ES m Hm). lia.
    + bool_to_prop.
      destruct (round_robin_spec (best_nodes (avail_of s) S) s') as (n & Hr & Hn); [done..|].
      rewrite ST_bind_eq, Hr. cbn [fmap option_fmap option_map mret ST_ret fst].
      apply best_nodes_elem in Hn as [Ha Hn]. rewrite Ha. split; [lia|]. right.
      split_and!; [done..|]. intros m Hm. by apply HS2.
  - cbn [negb]. rewrite andb_true_r. destruct (Z.ltb_spec 0 (best_of (avail_of s) F)).
    + destruct (round_robin_spec (best_nodes (avail_of s) F) s') as (n & Hr & Hn); [done..|].
      rewrite ST_bind_eq, Hr. cbn [fmap option_fmap option_map mret ST_ret fst].
      apply best_nodes_elem in Hn as [Ha Hn]. rewrite Ha. split; [lia|]. left.
      split; [done|]. intros m Hm. by apply HF2.
    + simpl. split; [intros m Hm; specialize (HF2 m Hm); lia|]. left.
      destruct (best_nodes (avail_of s) F) as [|m l] eqn:E; [done|].
      assert (m ∈ best_nodes (avail_of s) F) as Hm by (rewrite E; left).
      apply best_nodes_elem in Hm as [Ha Hm]. exists m. split; [done|]. lia.
Qed.

Lemma selectNodeByCapacity_single node s :
  (selectNodeByCapacity cfg clock [node] s).1 =
  Some (if negb (cooling now s (ni_ID node)) && (0 <? avail_of s node) then Some node else None).
Proof.
  simpl. rewrite ST_bind_eq.
  destruct (nodeHasAvailableCapacity_spec cfg clock now clock_now (ni_ID node) s) as [-> _].
  done.
Qed.
End SelectSpec.

(** ** Facts: selecting for a task *)

Lemma healthyNodeSet_fold l (m : gmap string NodeInfo) id n :
  foldl (λ m node, <[ni_ID node := node]> m) m l !! id = Some n →
  n ∈ l ∧ ni_ID n = id ∨ m !! id = Some n.
Proof.
  revert m. induction l as [|x l IH]; intros m H; simpl in H; [by right|].
  apply IH in H as [[? ?]|H]; [left; split; [by right|done]|].
  apply lookup_insert_Some in H as [[<- <-]|[_ H]]; [|by right].
  left. split; [by left|done].
Qed.

Lemma healthyNodeSet_elem l id n :
  healthyNodeSet l !! id = Some n → n ∈ l ∧ ni_ID n = id.
Proof. intros [?|[=]]%healthyNodeSet_fold. done. Qed.

Section TaskSelection.
Context (cfg : SchedulerConfig) (clock : nat → Time) (now : Time).
Hypothesis clock_now : ∀ n, clock n = now.

(** A node that may take one more task. *)
Definition usable (s : NodeState) (nodes : list NodeInfo) (n : NodeInfo) : Prop :=
  n ∈ nodes ∧ cooling now s (ni_ID n) = false ∧ 0 < avail cfg now s (ni_ID n).

Lemma usable_same s s' nodes n :
  same_nodes cfg now s s' → usable s' nodes n → usable s nodes n.
Proof.
  intros Hs (? & Hc & Ha). split_and!; [done| |].
  - by rewrite <-(sn_cool _ _ _ _ Hs).
  - by rewrite <-(same_nodes_avail _ _ _ _ _ Hs).
Qed.

Lemma selectNodeByCapacity_usable nodes s n :
  0 ≤ ns_nodeIndex s →
  (selectNodeByCapacity cfg clock nodes s).1 = Some (Some n) → usable s nodes n.
Proof.
  intros Hi. destruct (decide (length nodes = 1%nat)) as [Hl|Hl].
  - destruct nodes as [|node [|]]; try done.
    rewrite (selectNodeByCapacity_single cfg clock now clock_now).
    simp_if; intros [= <-]. bool_to_prop. split_and!; [by left|done..].
  - intros Hsel. pose proof (selectNodeByCapacity_spec cfg clock now clock_now nodes s Hi Hl) as H.
    rewrite Hsel in H. unfold fresh_nodes, stale_nodes in H.
    destruct H as (Ha & [[(Hc & Hin)%list_elem_of_filter _]|((Hc & Hin)%list_elem_of_filter & _)]);
      split_and!; naive_solver.
Qed.

(** A usable node whose capacity data is fresh. *)
Definition usable_fresh (s : NodeState) (nodes : list NodeInfo) (n : NodeInfo) : Prop :=
  usable s nodes n ∧ fresh cfg now s (ni_ID n) = true.

Lemma usable_fresh_same s s' nodes n :
  same_nodes cfg now s s' → usable_fresh s nodes n → usable_fresh s' nodes n.
Proof.
  intros Hs ((? & Hc & Ha) & Hf). split; [split_and!; [done| |]|].
  - by rewrite (sn_cool _ _ _ _ Hs).
  - by rewrite (same_nodes_avail _ _ _ _ _ Hs).
  - unfold fresh in *. by rewrite (sn_cap _ _ _ _ Hs).
Qed.

Lemma selectNodeByCapacity_none nodes s n :
  0 ≤ ns_nodeIndex s →
  (selectNodeByCapacity cfg clock nodes s).1 = Some None → ¬ usable_fresh s nodes n.
Proof.
  intros Hi. destruct (decide (length nodes = 1%nat)) as [Hl|Hl].
  - destruct nodes as [|node [|]]; try done.
    rewrite (selectNodeByCapacity_single cfg clock now clock_now).
    simp_if; [done|]. intros _ ((->%list_elem_of_singleton & Hc & Ha) & _). rewrite Hc in Heqb.
    simpl in Heqb. bool_to_prop. lia.
  - intros Hsel ((Hin & Hc & Ha) & Hf).
    pose proof (selectNodeByCapacity_spec cfg clock now clock_now nodes s Hi Hl) as H.
    rewrite Hsel in H. destruct H as [H _]. specialize (H n).
    assert (n ∈ fresh_nodes cfg now s nodes) as Hn by (by apply list_elem_of_filter).
    specialize (H Hn). lia.
Qed.

Lemma round_robin_affinity best s :
  ns_affinityMap (round_robin best s).2 = ns_affinityMap s.
Proof. unfold round_robin. rewrite ST_bind_eq. by repeat simp_if. Qed.

Lemma selectNodeByCapacity_affinity nodes s :
  ns_affinityMap (selectNodeByCapacity cfg clock nodes s).2 = ns_affinityMap s.
Proof.
  unfold selectNodeByCapacity.
  assert (∀ (f : Candidates → ST NodeState (option (option NodeInfo))),
    (∀ c s, ns_affinityMap (f c s).2 = ns_affinityMap s) →
    ns_affinityMap ((scan_nodes cfg clock nodes no_candidates ≫= f) s).2 = ns_affinityMap s) as Hgen.
  { intros f Hf. rewrite ST_bind_eq, Hf.
    apply (scan_nodes_spec cfg clock now clock_now nodes no_candidates s s). reflexivity. }
  destruct nodes as [|node [|]]; [|rewrite ST_bind_eq; simpl;
    by apply (nodeHasAvailableCapacity_spec cfg clock now clock_now)|];
    (apply Hgen; intros; repeat simp_if; rewrite ?ST_bind_eq; simpl;
     rewrite ?round_robin_affinity; done).
Qed.

(** What a selection promises: it does not panic, the node may take the task, the report names
    it, a hit is the node the key was routed to before, and the key is routed
    to the chosen node from now on; no node is chosen only when no node with
    fresh capacity data may take the task. *)
Definition good_selection (s : NodeState) (key : string) (nodes : list NodeInfo)
    (res : option (option NodeInfo * AffinityResult)) (s' : NodeState) : Prop :=
  match res with
  | None => False
  | Some (None, _) => ∀ n, ¬ usable_fresh s nodes n
  | Some (Some n, ar) =>
      usable s nodes n ∧ ar_NodeID ar = ni_ID n ∧ ar_PartitionKey ar = key ∧
      (ar_IsHit ar = true →
         ∃ am e, ns_affinityMap s = Some am ∧ Affinity.Get am key = Some e ∧
                 ae_NodeID e = ni_ID n) ∧
      (EnableStickiness cfg = true → key ≠ "" → ∀ am, ns_affinityMap s = Some am →
         ∃ am' e, ns_affinityMap s' = Some am' ∧ Affinity.Get am' key = Some e ∧
                  ae_NodeID e = ni_ID n)
  end.

Lemma selectNodeByCapacity_returns nodes s :
  0 ≤ ns_nodeIndex s → is_Some (selectNodeByCapacity cfg clock nodes s).1.
Proof.
  intros Hi. destruct (decide (length nodes = 1%nat)) as [Hl|Hl].
  - destruct nodes as [|node [|]]; try done.
    by rewrite (selectNodeByCapacity_single cfg clock now clock_now).
  - pose proof (selectNodeByCapacity_spec cfg clock now clock_now nodes s Hi Hl) as H.
    destruct (selectNodeByCapacity cfg clock nodes s).1; [by eexists|done].
Qed.

Lemma select_miss_good s0 s key stale nodes :
  0 ≤ ns_nodeIndex s → (∀ n, usable s nodes n → usable s0 nodes n) →
  (∀ n, usable_fresh s0 nodes n → usable_fresh s nodes n) → is_Some (ns_affinityMap s) →
  good_selection s0 key nodes (select_miss cfg clock key stale nodes s).1
    (select_miss cfg clock key stale nodes s).2.
Proof.
  intros Hi Hu Hu' [am0 Ham0]. unfold select_miss. rewrite ST_bind_eq.
  pose proof (selectNodeByCapacity_affinity nodes s) as Ha.
  destruct (selectNodeByCapacity_returns nodes s Hi) as [r Hr].
  destruct (selectNodeByCapacity cfg clock nodes s) as [? s1] eqn:E; simpl in *. subst.
  destruct r as [m|]; simpl.
  2: { intros n Hn%Hu'. revert Hn. apply selectNodeByCapacity_none; [done|]. by rewrite E. }
  split_and!; [|done..|].
  { apply Hu, selectNodeByCapacity_usable; [done|]. by rewrite E. }
  intros _ _ am Ham. rewrite Ha, Ham0. simpl.
  eexists _, _. split; [done|]. split; [apply lookup_insert_eq|done].
Qed.

Lemma select_plain_good s key nodes :
  0 ≤ ns_nodeIndex s →
  EnableStickiness cfg = false ∨ key = "" ∨ ns_affinityMap s = None →
  good_selection s key nodes (select_plain cfg clock key nodes s).1
    (select_plain cfg clock key nodes s).2.
Proof.
  intros Hi Hoff. unfold select_plain. rewrite ST_bind_eq.
  destruct (selectNodeByCapacity_returns nodes s Hi) as [r Hr].
  destruct (selectNodeByCapacity cfg clock nodes s) as [? s1] eqn:E; simpl in *. subst.
  destruct r as [x|]; simpl.
  2: { intros n. apply selectNodeByCapacity_none; [done|]. by rewrite E. }
  split_and!; [|done..|].
  { apply selectNodeByCapacity_usable; [done|]. by rewrite E. }
  intros ?? am ?. destruct Hoff as [?|[?|?]]; congruence.
Qed.

Lemma selectNodeForTask_good s key nodes :
  0 ≤ ns_nodeIndex s →
  good_selection s key nodes (selectNodeForTask cfg clock key nodes s).1
    (selectNodeForTask cfg clock key nodes s).2.
Proof.
  intros Hi. unfold selectNodeForTask. rewrite ST_bind_eq. cbn [st_get fst snd].
  destruct (ns_affinityMap s) as [am|] eqn:Eam; [|apply select_plain_good; auto].
  destruct (_ || _) eqn:Eoff.
  { apply select_plain_good; [done|]. bool_to_prop. destruct Eoff; bool_to_prop; auto. }
  destruct (Affinity.Get am key) as [e|] eqn:Ee; [|by apply select_miss_good].
  destruct (healthyNodeSet nodes !! ae_NodeID e) as [node|] eqn:En.
  - apply healthyNodeSet_elem in En as [Hin Hid]. rewrite ST_bind_eq.
    destruct (nodeHasAvailableCapacity_spec cfg clock now clock_now (ae_NodeID e) s) as [Hok Hs].
    rewrite Hok. simp_if.
    + bool_to_prop. rewrite !ST_bind_eq. split_and!.
      * split_and!; by rewrite ?Hid.
      * done.
      * done.
      * intros _. eauto.
      * intros _ _ am' _. eexists _, _. unfold modify_affinity, st_modify. simpl.
        rewrite (sn_affinity _ _ _ _ Hs), Eam. simpl. split; [done|].
        unfold Affinity.Touch. unfold Affinity.Get in Ee. rewrite Ee. simpl.
        split; [apply lookup_insert_eq|done].
    + apply select_miss_good; [by rewrite (sn_index _ _ _ _ Hs)|..|
                               by rewrite (sn_affinity _ _ _ _ Hs), Eam].
      * intros n. by apply usable_same.
      * intros n. by apply usable_fresh_same.
  - rewrite ST_bind_eq. unfold modify_affinity. simpl. rewrite Eam.
    by apply select_miss_good.
Qed.
End TaskSelection.

(** ** Facts: slot accounting *)

Definition reserved (s : NodeState) (id : string) : Z :=
  match ns_nodeCapacity s !! id with Some c => nc_ReservedInFlight c | None => 0 end.

(** Sane capacity records: counters are not negative, and a worker's limit lies
    between one and the configured cap. *)
Definition cap_ok (cfg : SchedulerConfig) (c : nodeCapacity) : Prop :=
  0 ≤ nc_ReservedInFlight c ∧ 0 ≤ nc_ReportedInFlight c ∧
  1 ≤ nc_MaxConcurrency c ≤ MaxWorkerConcurrencyCap cfg.
Definition caps_ok (cfg : SchedulerConfig) (s : NodeState) : Prop :=
  map_Forall (λ _, cap_ok cfg) (ns_nodeCapacity s).

Section Slots.
Context (cfg : SchedulerConfig) (clock : nat → Time).

(** The capacity record of a node, created with the defaults when missing. *)
Lemma getOrCreate_cases id s :
  let '(c, s') := getOrCreateNodeCapacityLocked cfg clock id s in
  nc_ReservedInFlight c = reserved s id ∧
  (∀ id', reserved s' id' = reserved s id') ∧
  (1 ≤ DefaultWorkerMaxConcurrency cfg ≤ MaxWorkerConcurrencyCap cfg → caps_ok cfg s →
   cap_ok cfg c ∧ caps_ok cfg s').
Proof.
  unfold getOrCreateNodeCapacityLocked, reserved. simpl.
  destruct (ns_nodeCapacity s !! id) as [c|] eqn:E; simpl; unfold mbind, ST_bind; simpl.
  { rewrite E. simpl. split_and!; [done..|]. intros _ Hok. split; [by eapply Hok|done]. }
  rewrite E. simpl. split_and!; [done| |].
  - intros id'. destruct (decide (id = id')) as [<-|].
    + by rewrite lookup_insert_eq, E.
    + by rewrite lookup_insert_ne.
  - intros Hd Hok. assert (cap_ok cfg (mkCap 0 0 (DefaultWorkerMaxConcurrency cfg)
      (clock (ns_tick s)))) by (split_and!; simpl; lia).
    split; [done|]. by apply map_Forall_insert_2.
Qed.

Lemma reserved_put id c (s : NodeState) id' :
  reserved (put_capacity id c s).2 id' =
  if String.eqb id id' then nc_ReservedInFlight c else reserved s id'.
Proof.
  unfold reserved. simpl. destruct (String.eqb_spec id id') as [<-|].
  - by rewrite lookup_insert_eq.
  - by rewrite lookup_insert_ne.
Qed.

Lemma reserveNodeSlot_reserved id s id' :
  reserved (reserveNodeSlot cfg clock id s).2 id' =
  if String.eqb id id' then reserved s id + 1 else reserved s id'.
Proof.
  unfold reserveNodeSlot. rewrite !ST_bind_eq. rewrite reserved_put.
  pose proof (getOrCreate_cases id s) as H.
  destruct (getOrCreateNodeCapacityLocked cfg clock id s) as [c s1].
  destruct H as (Hc & Hs & _). cbn [fst snd time_Now nc_ReservedInFlight].
  rewrite Hc. simp_if; [done|apply Hs].
Qed.

Lemma releaseNodeSlot_reserved id s id' :
  reserved (releaseNodeSlot cfg clock id s).2 id' =
  if String.eqb id id' then (if 0 <? reserved s id then reserved s id - 1 else reserved s id)
  else reserved s id'.
Proof.
  unfold releaseNodeSlot. rewrite !ST_bind_eq. rewrite reserved_put.
  pose proof (getOrCreate_cases id s) as H.
  destruct (getOrCreateNodeCapacityLocked cfg clock id s) as [c s1].
  destruct H as (Hc & Hs & _). cbn [fst snd time_Now nc_ReservedInFlight].
  rewrite Hc. destruct (String.eqb id id'); [done|apply Hs].
Qed.

Hypothesis default_ok : 1 ≤ DefaultWorkerMaxConcurrency cfg ≤ MaxWorkerConcurrencyCap cfg.

Lemma caps_ok_get id s :
  caps_ok cfg s →
  cap_ok cfg (getOrCreateNodeCapacityLocked cfg clock id s).1 ∧
  caps_ok cfg (getOrCreateNodeCapacityLocked cfg clock id s).2.
Proof.
  intros Hok. pose proof (getOrCreate_cases id s) as H.
  destruct (getOrCreateNodeCapacityLocked cfg clock id s) as [c s1].
  by apply H.
Qed.

(** Every writer of the capacity table keeps it sane, whatever a worker
    reports about itself. *)
Lemma capacity_table_ok id s :
  caps_ok cfg s →
  caps_ok cfg (reserveNodeSlot cfg clock id s).2 ∧
  caps_ok cfg (releaseNodeSlot cfg clock id s).2 ∧
  (∀ inFlight mx at_, caps_ok cfg (UpdateNodeCapacityAt cfg clock id inFlight mx at_ s).2).
Proof.
  intros Hok. destruct (caps_ok_get id s Hok) as [(H1 & H2 & H3) H4].
  unfold reserveNodeSlot, releaseNodeSlot, UpdateNodeCapacityAt.
  destruct (getOrCreateNodeCapacityLocked cfg clock id s) as [c s1] eqn:E. simpl in H1, H2, H3, H4.
  split_and!; [..|intros inFlight mx at_]; rewrite !ST_bind_eq, E; simpl;
    (apply map_Forall_insert_2; [split_and!; simpl; repeat simp_if; bool_to_prop; lia|]);
    [done..|]. by destruct (IsZero at_).
Qed.
End Slots.

(** ** Facts: the clock only moves forward *)

Definition forward {A} (m : ST NodeState A) : Prop := ∀ s, (ns_tick s ≤ ns_tick (m s).2)%nat.

Lemma forward_ret {A} (a : A) : forward (mret a).
Proof. intros s. done. Qed.
Lemma forward_bind {A B} (m : ST NodeState A) (f : A → ST NodeState B) :
  forward m → (∀ a, forward (f a)) → forward (m ≫= f).
Proof. intros Hm Hf s. rewrite ST_bind_eq. etrans; [apply Hm|apply Hf]. Qed.
Lemma forward_get : forward st_get.
Proof. intros s. done. Qed.
Lemma forward_modify f : (∀ s, ns_tick (f s) = ns_tick s) → forward (st_modify f).
Proof. intros Hf s. simpl. by rewrite Hf. Qed.
Lemma forward_time_Now clock : forward (time_Now clock).
Proof. intros s. simpl. lia. Qed.
Lemma forward_modify_affinity f : forward (modify_affinity f).
Proof. apply forward_modify. intros s. by destruct (ns_affinityMap s). Qed.

Ltac forward_step :=
  lazymatch goal with
  | |- forward (mret _) => apply forward_ret
  | |- forward st_get => apply forward_get
  | |- forward (time_Now _) => apply forward_time_Now
  | |- forward (put_capacity _ _) => by apply forward_modify
  | |- forward (modify_affinity _) => apply forward_modify_affinity
  | |- forward (st_modify _) => by apply forward_modify
  | |- forward (_ ≫= _) => apply forward_bind; [|intros ?]
  | |- forward (if ?b then _ else _) => destruct b
  | |- forward (match ?x with _ => _ end) => destruct x
  end.
Ltac forward_auto := repeat (first [solve [eauto with forward nocore] | forward_step]).

Create HintDb forward discriminated.

Section Forward.
Context (cfg : SchedulerConfig) (clock : nat → Time).

Lemma forward_getOrCreate id : forward (getOrCreateNodeCapacityLocked cfg clock id).
Proof. unfold getOrCreateNodeCapacityLocked. forward_auto. Qed.
#[local] Hint Resolve forward_getOrCreate : forward.
Lemma forward_cooldown id : forward (isInDispatchCooldownLocked clock id).
Proof. unfold isInDispatchCooldownLocked. forward_auto. Qed.
#[local] Hint Resolve forward_cooldown : forward.
Lemma forward_fresh c : forward (isCapacityFreshLocked cfg clock c).
Proof. unfold isCapacityFreshLocked. forward_auto. Qed.
#[local] Hint Resolve forward_fresh : forward.
Lemma forward_markCooldown id : forward (markDispatchCooldown cfg clock id).
Proof. unfold markDispatchCooldown. forward_auto. Qed.
Lemma forward_reserve id : forward (reserveNodeSlot cfg clock id).
Proof. unfold reserveNodeSlot. forward_auto. Qed.
Lemma forward_release id : forward (releaseNodeSlot cfg clock id).
Proof. unfold releaseNodeSlot. forward_auto. Qed.
Lemma forward_scan nodes c : forward (scan_nodes cfg clock nodes c).
Proof. revert c. induction nodes as [|n nodes IH]; intros c; cbn [scan_nodes]; forward_auto. Qed.
#[local] Hint Resolve forward_scan : forward.
Lemma forward_has_capacity id : forward (nodeHasAvailableCapacity cfg clock id).
Proof. unfold nodeHasAvailableCapacity. forward_auto. Qed.
#[local] Hint Resolve forward_has_capacity : forward.
Lemma forward_by_capacity nodes : forward (selectNodeByCapacity cfg clock nodes).
Proof. unfold selectNodeByCapacity, round_robin. forward_auto. Qed.
#[local] Hint Resolve forward_by_capacity : forward.
Lemma forward_select key nodes : forward (selectNodeForTask cfg clock key nodes).
Proof. unfold selectNodeForTask, select_miss, select_plain. forward_auto. Qed.
End Forward.

#[export] Hint Resolve forward_markCooldown forward_reserve forward_release forward_select : forward.

(** ** Facts: the round-robin counter, under any clock *)

Definition index_kept {A} (m : ST NodeState A) : Prop :=
  ∀ s, ns_nodeIndex (m s).2 = ns_nodeIndex s.

Lemma index_kept_ret {A} (a : A) : index_kept (mret a).
Proof. done. Qed.
Lemma index_kept_bind {A B} (m : ST NodeState A) (f : A → ST NodeState B) :
  index_kept m → (∀ a, index_kept (f a)) → index_kept (m ≫= f).
Proof. intros Hm Hf s. rewrite ST_bind_eq. by rewrite Hf, Hm. Qed.
Lemma index_kept_affinity f : index_kept (modify_affinity f).
Proof. intros s. unfold modify_affinity. simpl. by destruct (ns_affinityMap s). Qed.

Create HintDb index discriminated.

Ltac index_step :=
  lazymatch goal with
  | |- index_kept (modify_affinity _) => apply index_kept_affinity
  | |- index_kept (_ ≫= _) => apply index_kept_bind; [|intros ?]
  | |- index_kept (if ?b then _ else _) => destruct b
  | |- index_kept (match ?x with _ => _ end) => destruct x
  | |- index_kept _ => by (intros ?)
  end.
Ltac index_auto := repeat (first [solve [eauto with index nocore] | index_step]).

(** The largest value of an int. *)
Definition i64_max : Z := 9223372036854775807.

Lemma i64_incr_small x : 0 ≤ x < i64_max → i64_incr x = x + 1.
Proof. unfold i64_max, i64_incr. intros Hx. rewrite Z.mod_small; lia. Qed.

(** [m] does not panic while the counter has room, and moves it by one at most. *)
Definition selects {A} (m : ST NodeState (option A)) : Prop :=
  ∀ s, 0 ≤ ns_nodeIndex s < i64_max →
  is_Some (m s).1 ∧ ns_nodeIndex s ≤ ns_nodeIndex (m s).2 ≤ ns_nodeIndex s + 1.

Lemma selects_pure {A} (m : ST NodeState (option A)) :
  index_kept m → (∀ s, is_Some (m s).1) → selects m.
Proof. intros Hi Hs s Hb. rewrite Hi. split; [apply Hs|lia]. Qed.
Lemma selects_ret {A} (a : A) : selects (mret (Some a)).
Proof. by apply selects_pure. Qed.
Lemma selects_after {A B} (m : ST NodeState A) (f : A → ST NodeState (option B)) :
  index_kept m → (∀ a, selects (f a)) → selects (m ≫= f).
Proof. intros Hm Hf s Hs. rewrite ST_bind_eq. specialize (Hf (m s).1 (m s).2). rewrite Hm in Hf. auto. Qed.
Lemma selects_then {A B} (m : ST NodeState (option A)) (f : option A → ST NodeState (option B)) :
  selects m → (∀ a, index_kept (f (Some a)) ∧ ∀ s, is_Some (f (Some a) s).1) → selects (m ≫= f).
Proof.
  intros Hm Hf s Hs. rewrite ST_bind_eq. destruct (Hm s Hs) as [[a Ha] Hb]. rewrite Ha.
  destruct (Hf a) as [Hi Hr]. rewrite Hi. auto.
Qed.

Section Index.
Context (cfg : SchedulerConfig) (clock : nat → Time).

Lemma index_getOrCreate id : index_kept (getOrCreateNodeCapacityLocked cfg clock id).
Proof. unfold getOrCreateNodeCapacityLocked. index_auto. Qed.
#[local] Hint Resolve index_getOrCreate : index.
Lemma index_cooldown id : index_kept (isInDispatchCooldownLocked clock id).
Proof. unfold isInDispatchCooldownLocked. index_auto. Qed.
#[local] Hint Resolve index_cooldown : index.
Lemma index_markCooldown id : index_kept (markDispatchCooldown cfg clock id).
Proof. unfold markDispatchCooldown. index_auto. Qed.
Lemma index_reserve id : index_kept (reserveNodeSlot cfg clock id).
Proof. unfold reserveNodeSlot. index_auto. Qed.
Lemma index_release id : index_kept (releaseNodeSlot cfg clock id).
Proof. unfold releaseNodeSlot. index_auto. Qed.
Lemma index_has_capacity id : index_kept (nodeHasAvailableCapacity cfg clock id).
Proof. unfold nodeHasAvailableCapacity. index_auto. Qed.
#[local] Hint Resolve index_has_capacity : index.
Lemma index_scan nodes c : index_kept (scan_nodes cfg clock nodes c).
Proof.
  revert c. induction nodes as [|n nodes IH]; intros c; cbn [scan_nodes];
    unfold isCapacityFreshLocked; index_auto.
Qed.

(** The counter panics on an empty slice only, as long as it has room. *)
Lemma selects_round_robin best : best ≠ [] → selects (round_robin best).
Proof.
  intros Hb s Hs. destruct (round_robin_spec best s) as (n & Hn & _); [lia|done|].
  split; [by eexists|]. revert Hn. unfold round_robin. rewrite !ST_bind_eq. cbn [st_get fst snd].
  destruct (_ =? _); [done|]. destruct (_ <? _); [done|]. intros _. simpl.
  rewrite i64_incr_small by done. lia.
Qed.
Lemma selects_by_capacity nodes : selects (selectNodeByCapacity cfg clock nodes).
Proof.
  assert (∀ best, best ≠ [] → selects (selected ← round_robin best; mret (Some <$> selected))) as Hrr.
  { intros best Hb. apply selects_then; [by apply selects_round_robin|done]. }
  destruct nodes as [|n [|n' nodes]];
    (apply selects_after; [apply index_scan || apply index_has_capacity|intros c]);
    repeat simp_if; try apply selects_ret; apply Hrr; bool_to_prop; naive_solver.
Qed.
Lemma selects_plain key nodes : selects (select_plain cfg clock key nodes).
Proof. apply selects_then; [apply selects_by_capacity|]. intros [n|]; by split. Qed.
Lemma selects_miss key stale nodes : selects (select_miss cfg clock key stale nodes).
Proof.
  apply selects_then; [apply selects_by_capacity|].
  intros [n|]; split; try done. index_auto.
Qed.
Lemma selects_for_task key nodes : selects (selectNodeForTask cfg clock key nodes).
Proof.
  apply selects_after; [done|]. intros s. destruct (ns_affinityMap s) as [am|]; [|apply selects_plain].
  destruct (_ || _); [apply selects_plain|].
  destruct (Affinity.Get am key) as [e|]; [|apply selects_miss].
  destruct (_ !! ae_NodeID e) as [n|];
    (apply selects_after; [apply index_kept_affinity || apply index_has_capacity|]).
  - intros [|]; [|apply selects_miss]. apply selects_pure; [index_auto|done].
  - intros _. apply selects_miss.
Qed.
End Index.
#[export] Hint Resolve index_markCooldown index_reserve index_release : index.

(** ** Theorems *)

(** Capacity-based selection, with a clock that stands still meanwhile: the
    chosen node has a free slot and the most free slots among the nodes with
    fresh capacity data that are not cooling down; nodes with stale data are
    used only when every node with fresh data is overcommitted by more than one
    slot; no node is chosen only when the nodes so considered have no free
    slot. *)
Theorem capacity_selection cfg clock now (clock_now : ∀ n, clock n = now) nodes s :
  0 ≤ ns_nodeIndex s → length nodes ≠ 1%nat →
  match (selectNodeByCapacity cfg clock nodes s).1 with
  | None => False
  | Some (Some n) =>
      0 < avail cfg now s (ni_ID n) ∧
      ((n ∈ fresh_nodes cfg now s nodes ∧
        ∀ m, m ∈ fresh_nodes cfg now s nodes → avail cfg now s (ni_ID m) ≤ avail cfg now s (ni_ID n)) ∨
       (n ∈ stale_nodes cfg now s nodes ∧
        (∀ m, m ∈ fresh_nodes cfg now s nodes → avail cfg now s (ni_ID m) < -1) ∧
        ∀ m, m ∈ stale_nodes cfg now s nodes → avail cfg now s (ni_ID m) ≤ avail cfg now s (ni_ID n)))
  | Some None =>
      (∀ m, m ∈ fresh_nodes cfg now s nodes → avail cfg now s (ni_ID m) ≤ 0) ∧
      ((∃ m, m ∈ fresh_nodes cfg now s nodes ∧ -1 ≤ avail cfg now s (ni_ID m)) ∨
       ∀ m, m ∈ stale_nodes cfg now s nodes → avail cfg now s (ni_ID m) ≤ 0)
  end.
Proof. apply (selectNodeByCapacity_spec cfg clock now clock_now). Qed.

(** Sticky selection: the node chosen for a task is one of the candidates and
    has a free slot, the result reports it, a hit is the node the key was routed
    to before, and the affinity of the key is left on the chosen node; when no
    node is chosen, no candidate with fresh capacity data has a free slot. *)
Theorem sticky_selection cfg clock now (clock_now : ∀ n, clock n = now) s key nodes :
  0 ≤ ns_nodeIndex s →
  good_selection cfg now s key nodes (selectNodeForTask cfg clock key nodes s).1
    (selectNodeForTask cfg clock key nodes s).2.
Proof. apply (selectNodeForTask_good cfg clock now clock_now). Qed.
