(* ===== verification/Scheduler.v ===== *)
(** * The scheduler (pkg/scheduler/scheduler.go and recovery.go)

    The scheduler's fields are the record [Sched].  Jobs are shared by pointer
    between the job map, the queue and the running code: [sc_heap] is the store
    of [*Job] objects, [sc_jobs] and [sc_queue] hold their locations, and a
    [*Task] is a path into its job.  A method is a function from the state to
    its result and the next state; [None] is a panic (a nil dereference, an index out of range).

    What the code asks of its surroundings is the record [Env]: the clock, the
    context of the call, the registry, the executor, the JSON codec and the
    scheduling choices of the Go runtime.  Every question is indexed by the
    number of questions asked so far ([ns_tick]), so any answer may differ from
    the one before: contexts may be cancelled and leadership may be lost
    between any two steps.  Metrics, logs and trace spans are left out. *)

From stdpp Require Import base gmap strings list fin_maps pretty.
From S2P Require Import Prelude StateMachine Store Replay Jobs Config Leadership Nodes.

Open Scope Z_scope.

(** ** State *)

Abbreviation loc := nat (only parsing).

(** A [*Task]: its job, the index of its stage and its index there. *)
Record TaskRef := mkRef { tr_loc : loc; tr_stage : nat; tr_task : nat }.

(** The calls made to the executor, with the authority they carry. *)
Inductive Event :=
  | EvExecute (nodeID agentName jobID taskID : string) (attempt : Z)
      (authority : DispatchAuthority).

Record Sched (St : Type) := mkSched {
  sc_heap : gmap loc Job;
  sc_next : loc;
  sc_jobs : gmap string loc;
  sc_queue : list loc;
  sc_queuedJobs : gset string;
  sc_pendingEnqueue : Z;
  sc_store : option St;
  sc_jobSequences : gmap string N;
  sc_leadership : option LeadershipProvider;
  sc_started : bool;
  sc_recovering : bool;
  sc_stopRequested : bool;
  sc_replayQuarantine : gmap string Time;
  sc_lastReconcileTime : Time;
  sc_nodes : NodeState;
  sc_trace : list Event;
}.
Arguments mkSched {St}.
Arguments sc_heap {St}. Arguments sc_next {St}. Arguments sc_jobs {St}.
Arguments sc_queue {St}. Arguments sc_queuedJobs {St}. Arguments sc_pendingEnqueue {St}.
Arguments sc_store {St}. Arguments sc_jobSequences {St}. Arguments sc_leadership {St}.
Arguments sc_started {St}. Arguments sc_recovering {St}. Arguments sc_stopRequested {St}.
Arguments sc_replayQuarantine {St}. Arguments sc_lastReconcileTime {St}.
Arguments sc_nodes {St}. Arguments sc_trace {St}.

Record Env := mkEnv {
  (** [time.Now()] *)
  env_now : nat → Time;
  (** [ctx.Err()] *)
  env_ctx : nat → option error;
  (** [registry.GetHealthyNodes()] *)
  env_nodes : nat → list NodeInfo;
  (** [executor.ExecuteOnNode(ctx, nodeID, agentName, input)], the context
      carrying a dispatch authority *)
  env_exec : nat → string → string → option AgentInput → DispatchAuthority →
             result (option AgentOutput);
  env_marshal : AgentInput → option string;
  env_unmarshal : string → option AgentInput;
  (** Which of the started task goroutines run to their end before the next
      step of the stage loop, by position among the pending ones. *)
  env_pick : nat → list nat;
  (** The choice of a [select] with two ready cases. *)
  env_choice : nat → bool;
  (** The capacity-deferral wait: how many ticker events are received before the
      timer ([None]) or the context ([Some err]) ends it. *)
  env_deferral : nat → nat * option error;
  (** Whether [stopChan] is closed. *)
  env_stopped : nat → bool;
  (** [LeadershipProviderLifecycle.Start], for providers that have it. *)
  env_leader_start : nat → option error;
}.

Section State.
Context {St : Type}.
Implicit Types s : Sched St.

Definition set_heap h s := mkSched h (sc_next s) (sc_jobs s) (sc_queue s) (sc_queuedJobs s)
  (sc_pendingEnqueue s) (sc_store s) (sc_jobSequences s) (sc_leadership s) (sc_started s)
  (sc_recovering s) (sc_stopRequested s) (sc_replayQuarantine s) (sc_lastReconcileTime s)
  (sc_nodes s) (sc_trace s).
Definition set_next n s := mkSched (sc_heap s) n (sc_jobs s) (sc_queue s) (sc_queuedJobs s)
  (sc_pendingEnqueue s) (sc_store s) (sc_jobSequences s) (sc_leadership s) (sc_started s)
  (sc_recovering s) (sc_stopRequested s) (sc_replayQuarantine s) (sc_lastReconcileTime s)
  (sc_nodes s) (sc_trace s).
Definition set_jobs m s := mkSched (sc_heap s) (sc_next s) m (sc_queue s) (sc_queuedJobs s)
  (sc_pendingEnqueue s) (sc_store s) (sc_jobSequences s) (sc_leadership s) (sc_started s)
  (sc_recovering s) (sc_stopRequested s) (sc_replayQuarantine s) (sc_lastReconcileTime s)
  (sc_nodes s) (sc_trace s).
Definition set_queue q qs s := mkSched (sc_heap s) (sc_next s) (sc_jobs s) q qs
  (sc_pendingEnqueue s) (sc_store s) (sc_jobSequences s) (sc_leadership s) (sc_started s)
  (sc_recovering s) (sc_stopRequested s) (sc_replayQuarantine s) (sc_lastReconcileTime s)
  (sc_nodes s) (sc_trace s).
Definition set_pending p s := mkSched (sc_heap s) (sc_next s) (sc_jobs s) (sc_queue s)
  (sc_queuedJobs s) p (sc_store s) (sc_jobSequences s) (sc_leadership s) (sc_started s)
  (sc_recovering s) (sc_stopRequested s) (sc_replayQuarantine s) (sc_lastReconcileTime s)
  (sc_nodes s) (sc_trace s).
Definition set_store (st : option St) s := mkSched (sc_heap s) (sc_next s) (sc_jobs s) (sc_queue s)
  (sc_queuedJobs s) (sc_pendingEnqueue s) st (sc_jobSequences s) (sc_leadership s)
  (sc_started s) (sc_recovering s) (sc_stopRequested s) (sc_replayQuarantine s)
  (sc_lastReconcileTime s) (sc_nodes s) (sc_trace s).
Definition set_sequences m s := mkSched (sc_heap s) (sc_next s) (sc_jobs s) (sc_queue s)
  (sc_queuedJobs s) (sc_pendingEnqueue s) (sc_store s) m (sc_leadership s)
  (sc_started s) (sc_recovering s) (sc_stopRequested s) (sc_replayQuarantine s)
  (sc_lastReconcileTime s) (sc_nodes s) (sc_trace s).
Definition set_leadership p s := mkSched (sc_heap s) (sc_next s) (sc_jobs s) (sc_queue s)
  (sc_queuedJobs s) (sc_pendingEnqueue s) (sc_store s) (sc_jobSequences s) p
  (sc_started s) (sc_recovering s) (sc_stopRequested s) (sc_replayQuarantine s)
  (sc_lastReconcileTime s) (sc_nodes s) (sc_trace s).
Definition set_flags started recovering stopRequested s :=
  mkSched (sc_heap s) (sc_next s) (sc_jobs s) (sc_queue s)
  (sc_queuedJobs s) (sc_pendingEnqueue s) (sc_store s) (sc_jobSequences s) (sc_leadership s)
  started recovering stopRequested (sc_replayQuarantine s)
  (sc_lastReconcileTime s) (sc_nodes s) (sc_trace s).
Definition set_quarantine q s := mkSched (sc_heap s) (sc_next s) (sc_jobs s) (sc_queue s)
  (sc_queuedJobs s) (sc_pendingEnqueue s) (sc_store s) (sc_jobSequences s) (sc_leadership s)
  (sc_started s) (sc_recovering s) (sc_stopRequested s) q
  (sc_lastReconcileTime s) (sc_nodes s) (sc_trace s).
Definition set_lastReconcile t s := mkSched (sc_heap s) (sc_next s) (sc_jobs s) (sc_queue s)
  (sc_queuedJobs s) (sc_pendingEnqueue s) (sc_store s) (sc_jobSequences s) (sc_leadership s)
  (sc_started s) (sc_recovering s) (sc_stopRequested s) (sc_replayQuarantine s) t
  (sc_nodes s) (sc_trace s).
Definition set_nodes n s := mkSched (sc_heap s) (sc_next s) (sc_jobs s) (sc_queue s)
  (sc_queuedJobs s) (sc_pendingEnqueue s) (sc_store s) (sc_jobSequences s) (sc_leadership s)
  (sc_started s) (sc_recovering s) (sc_stopRequested s) (sc_replayQuarantine s)
  (sc_lastReconcileTime s) n (sc_trace s).
Definition add_event e s := mkSched (sc_heap s) (sc_next s) (sc_jobs s) (sc_queue s)
  (sc_queuedJobs s) (sc_pendingEnqueue s) (sc_store s) (sc_jobSequences s) (sc_leadership s)
  (sc_started s) (sc_recovering s) (sc_stopRequested s) (sc_replayQuarantine s)
  (sc_lastReconcileTime s) (sc_nodes s) (sc_trace s ++ [e]).

Definition sc_tick s : nat := ns_tick (sc_nodes s).

(** *** Methods *)

Definition M (A : Type) : Type := Sched St → option (A * Sched St).

#[export] Instance M_ret : MRet M := λ A a s, Some (a, s).
#[export] Instance M_bind : MBind M := λ A B f m s,
  match m s with None => None | Some (a, s') => f a s' end.

Definition panic {A} : M A := λ _, None.
Definition get : M (Sched St) := λ s, Some (s, s).
Definition modify (f : Sched St → Sched St) : M unit := λ s, Some (tt, f s).
Definition on_nodes {A} (m : ST NodeState A) : M A :=
  λ s, let '(a, n) := m (sc_nodes s) in Some (a, set_nodes n s).

Fixpoint iter {A} (f : A → M unit) (l : list A) : M unit :=
  match l with
  | [] => mret tt
  | x :: l' => _ ← f x; iter f l'
  end.

(** *** Pointers *)

Definition get_job (l : loc) : M Job :=
  λ s, match sc_heap s !! l with Some j => Some (j, s) | None => None end.
Definition update_job (l : loc) (f : Job → Job) : M unit :=
  λ s, match sc_heap s !! l with
       | Some j => Some (tt, set_heap (<[l := f j]> (sc_heap s)) s)
       | None => None
       end.
Definition new_job (j : Job) : M loc :=
  λ s, Some (sc_next s, set_next (S (sc_next s)) (set_heap (<[sc_next s := j]> (sc_heap s)) s)).

Definition job_stage (j : Job) (i : nat) : option Stage := mjoin (j_Stages j !! i).
Definition job_task (j : Job) (i k : nat) : option Task :=
  match job_stage j i with Some st => mjoin (s_Tasks st !! k) | None => None end.

Definition set_stages (ss : list (option Stage)) (j : Job) : Job :=
  mkJob (j_ID j) (j_Name j) ss (j_Edges j) (j_Status j) (j_LifecycleState j) (j_CreatedAt j)
    (j_UpdatedAt j) (j_Metadata j).
Definition map_stage (i : nat) (f : Stage → Stage) (j : Job) : Job :=
  set_stages (alter (fmap f) i (j_Stages j)) j.
Definition set_tasks (ts : list (option Task)) (st : Stage) : Stage :=
  mkStage (s_ID st) (s_JobID st) ts (s_Dependencies st) (s_Status st).
Definition map_task (i k : nat) (f : Task → Task) (j : Job) : Job :=
  map_stage i (λ st, set_tasks (alter (fmap f) k (s_Tasks st)) st) j.

Definition get_stage (l : loc) (i : nat) : M Stage :=
  j ← get_job l; match job_stage j i with Some st => mret st | None => panic end.
Definition update_stage (l : loc) (i : nat) (f : Stage → Stage) : M unit :=
  _ ← get_stage l i; update_job l (map_stage i f).
Definition get_task (r : TaskRef) : M Task :=
  j ← get_job (tr_loc r);
  match job_task j (tr_stage r) (tr_task r) with Some t => mret t | None => panic end.
Definition update_task (r : TaskRef) (f : Task → Task) : M unit :=
  _ ← get_task r; update_job (tr_loc r) (map_task (tr_stage r) (tr_task r) f).
End State.
Arguments M : clear implicits.

(** ** Field assignments *)

Definition with_job_state (st : JobLifecycleState) (j : Job) : Job :=
  mkJob (j_ID j) (j_Name j) (j_Stages j) (j_Edges j) (j_Status j) st (j_CreatedAt j)
    (j_UpdatedAt j) (j_Metadata j).
Definition with_job_status (st : JobStatus) (j : Job) : Job :=
  mkJob (j_ID j) (j_Name j) (j_Stages j) (j_Edges j) st (j_LifecycleState j) (j_CreatedAt j)
    (j_UpdatedAt j) (j_Metadata j).
Definition with_job_updated (t : Time) (j : Job) : Job :=
  mkJob (j_ID j) (j_Name j) (j_Stages j) (j_Edges j) (j_Status j) (j_LifecycleState j)
    (j_CreatedAt j) t (j_Metadata j).
Definition with_stage_status (st : JobStatus) (s : Stage) : Stage :=
  mkStage (s_ID s) (s_JobID s) (s_Tasks s) (s_Dependencies s) st.
Definition with_task_state (st : TaskLifecycleState) (t : Task) : Task :=
  mkTask (t_ID t) (t_StageID t) (t_JobID t) (t_AgentID t) (t_AgentName t) (t_Input t)
    (t_Output t) (t_PartitionKey t) (t_Status t) st (t_Attempts t).
Definition with_task_status (st : JobStatus) (t : Task) : Task :=
  mkTask (t_ID t) (t_StageID t) (t_JobID t) (t_AgentID t) (t_AgentName t) (t_Input t)
    (t_Output t) (t_PartitionKey t) st (t_LifecycleState t) (t_Attempts t).
Definition with_task_attempts (n : Z) (t : Task) : Task :=
  mkTask (t_ID t) (t_StageID t) (t_JobID t) (t_AgentID t) (t_AgentName t) (t_Input t)
    (t_Output t) (t_PartitionKey t) (t_Status t) (t_LifecycleState t) n.
Definition with_task_output (o : option AgentOutput) (t : Task) : Task :=
  mkTask (t_ID t) (t_StageID t) (t_JobID t) (t_AgentID t) (t_AgentName t) (t_Input t)
    o (t_PartitionKey t) (t_Status t) (t_LifecycleState t) (t_Attempts t).
Definition with_task_ids (jobID stageID : string) (t : Task) : Task :=
  mkTask (t_ID t) stageID jobID (t_AgentID t) (t_AgentName t) (t_Input t)
    (t_Output t) (t_PartitionKey t) (t_Status t) (t_LifecycleState t) (t_Attempts t).
Definition with_task_input (i : option AgentInput) (t : Task) : Task :=
  mkTask (t_ID t) (t_StageID t) (t_JobID t) (t_AgentID t) (t_AgentName t) i
    (t_Output t) (t_PartitionKey t) (t_Status t) (t_LifecycleState t) (t_Attempts t).

(** ** Operations *)

Section Operations.
Context {St Tx : Type} `{!TransitionStoreI St Tx}.
Context (cfg : SchedulerConfig) (E : Env).

Local Abbreviation M := (M St).

(** *** Questions to the environment *)

Definition next_tick : M nat :=
  λ s, Some (sc_tick s, set_nodes (set_tick (S (sc_tick s)) (sc_nodes s)) s).
Definition now : M Time := on_nodes (time_Now (env_now E)).
Definition ctx_Err : M (option error) := n ← next_tick; mret (env_ctx E n).
Definition GetHealthyNodes : M (list NodeInfo) := n ← next_tick; mret (env_nodes E n).

Definition dispatchAuthority : M (result LeadershipAuthority) :=
  s ← get;
  n ← next_tick;
  let provider := default defaultLeadershipProvider (sc_leadership s) in
  mret (lp_DispatchAuthority provider n).

Definition marshalAgentInput (input : option AgentInput) : string :=
  match input with
  | None => ""
  | Some i => default "" (env_marshal E i)
  end.

(** *** The queue *)

Definition enqueueJobLocked (l : loc) : M bool :=
  job ← get_job l;
  s ← get;
  if bool_decide (j_ID job ∈ sc_queuedJobs s) then mret false
  else if Z.of_nat (length (sc_queue s)) <? JobQueueSize cfg then
    _ ← modify (set_queue (sc_queue s ++ [l]) ({[ j_ID job ]} ∪ sc_queuedJobs s));
    mret true
  else mret false.

Definition markJobDequeued (l : loc) : M unit :=
  job ← get_job l;
  modify (λ s, set_queue (sc_queue s) (sc_queuedJobs s ∖ {[ j_ID job ]}) s).

Definition requeueJob (l : loc) : M unit :=
  n ← next_tick;
  if env_stopped E n then mret tt
  else _ ← enqueueJobLocked l; mret tt.

(** *** Sequence ids *)

Definition incr_sequence (jobID : string) : M N :=
  s ← get;
  let seq := u64_incr (map_get 0%N (sc_jobSequences s) jobID) in
  _ ← modify (set_sequences (<[jobID := seq]> (sc_jobSequences s)));
  mret seq.

Definition nextSequenceIDWithContext (jobID : string) : M (result N) :=
  s ← get;
  match sc_store s, NextSequenceID with
  | Some st, Some next =>
      let '(res, st') := next st jobID in
      _ ← modify (set_store (Some st'));
      mret res
  | _, _ => seq ← incr_sequence jobID; mret (inr seq)
  end.

Definition nextSequenceID (jobID : string) : M N :=
  res ← nextSequenceIDWithContext jobID;
  match res with
  | inr seq => mret seq
  | inl _ => incr_sequence jobID
  end.

Definition max_sequence (durableLastSeq : N) (transitions : list TransitionRecord) : N :=
  foldl (λ m tr, if (m <? tr_SequenceID tr)%N then tr_SequenceID tr else m)
    durableLastSeq transitions.

Definition seedJobSequenceLocked (jobID : string) (durableLastSeq : N)
    (transitions : list TransitionRecord) : M (bool * N) :=
  let maxSeq := max_sequence durableLastSeq transitions in
  if (maxSeq =? 0)%N then mret (false, 0%N)
  else
    s ← get;
    let seed :=
      match sc_jobSequences s !! jobID with
      | None => true
      | Some current => (current <? maxSeq)%N
      end in
    if seed then
      _ ← modify (set_sequences (<[jobID := maxSeq]> (sc_jobSequences s)));
      mret (true, maxSeq)
    else mret (false, maxSeq).

(** *** Persisting transitions *)

(** [if err := f(tx); err != nil { return err }; return g(tx)]. *)
Definition tx_then (f g : Tx → option error * Tx) (tx : Tx) : option error * Tx :=
  match f tx with
  | (Some err, tx') => (Some err, tx')
  | (None, tx') => g tx'
  end.
Definition tx_ok (tx : Tx) : option error * Tx := (None, tx).

Definition persistTransitionWrite (fn : Tx → option error * Tx) : M (option error) :=
  s ← get;
  match sc_store s with
  | None => mret None
  | Some st =>
      ctx_err ← ctx_Err;
      let '(err, st') := WithTx st ctx_err fn in
      _ ← modify (set_store (Some st'));
      mret err
  end.

Definition durableJobSnapshot (jobID : string) (lastSequenceID : N) (updatedAt : Time)
    : M (option DurableJobRecord) :=
  s ← get;
  match sc_jobs s !! jobID with
  | None => mret None
  | Some l =>
      job ← get_job l;
      mret (Some (mkDurableJob (j_ID job) (j_Name job) (j_LifecycleState job) lastSequenceID
                    (j_CreatedAt job) updatedAt))
  end.

Definition upsert_snapshot (snapshot : option DurableJobRecord) (tx : Tx) : option error * Tx :=
  match snapshot with
  | Some snap => UpsertJob snap tx
  | None => tx_ok tx
  end.

Definition recordJobTransition (l : loc) (transition : TransitionType)
    (newState : JobLifecycleState) (errorSummary : string) : M unit :=
  s ← get;
  match sc_store s with
  | None => mret tt
  | Some _ =>
    job ← get_job l;
    let previousState := j_LifecycleState job in
    let errorSummary := normalizeTransitionErrorSummary errorSummary in
    if negb (String.eqb previousState "") && negb (CanTransitionJobState previousState newState)
    then mret tt
    else if String.eqb previousState "" && negb (String.eqb newState JobStateSubmitted)
    then mret tt
    else
      seq ← nextSequenceIDWithContext (j_ID job);
      match seq with
      | inl _ => mret tt
      | inr seqID =>
          at_ ← now;
          let record := mkTransition seqID TransitionEntityJob transition (j_ID job) ""
                          previousState newState "" 0 errorSummary at_ in
          err ← persistTransitionWrite
            (tx_then (AppendTransition record)
               (UpsertJob (mkDurableJob (j_ID job) (j_Name job) newState seqID
                             (j_CreatedAt job) at_)));
          match err with
          | Some _ => mret tt
          | None => update_job l (with_job_state newState)
          end
      end
  end.

Definition durable_task (task : Task) (nodeID : string) (newState : TaskLifecycleState)
    (attempt : Z) (at_ : Time) : DurableTaskRecord :=
  mkDurableTask (t_ID task) (t_JobID task) (t_StageID task) nodeID (t_AgentID task)
    (t_AgentName task) (marshalAgentInput (t_Input task)) (t_PartitionKey task)
    newState attempt at_.

Definition recordTaskTransition (r : TaskRef) (transition : TransitionType)
    (newState : TaskLifecycleState) (nodeID : string) (attempt : Z) (errorSummary : string)
    : M unit :=
  s ← get;
  match sc_store s with
  | None => mret tt
  | Some _ =>
    task ← get_task r;
    let previousState := t_LifecycleState task in
    let errorSummary := normalizeTransitionErrorSummary errorSummary in
    if negb (String.eqb previousState "") && negb (CanTransitionTaskState previousState newState)
    then mret tt
    else if String.eqb previousState "" && negb (String.eqb newState TaskStatePending)
    then mret tt
    else
      seq ← nextSequenceIDWithContext (t_JobID task);
      match seq with
      | inl _ => mret tt
      | inr seqID =>
          at_ ← now;
          let record := mkTransition seqID TransitionEntityTask transition (t_JobID task)
                          (t_ID task) previousState newState nodeID attempt errorSummary at_ in
          snapshot ← durableJobSnapshot (t_JobID task) seqID at_;
          err ← persistTransitionWrite
            (tx_then (AppendTransition record)
               (tx_then (UpsertTask (durable_task task nodeID newState attempt at_))
                  (upsert_snapshot snapshot)));
          match err with
          | Some _ => mret tt
          | None => update_task r (with_task_state newState)
          end
      end
  end.

(** *** Dispatch claims *)

Definition recordJobRunningOnFirstDispatch (jobID : string) : M unit :=
  if String.eqb jobID "" then mret tt
  else
    s ← get;
    match sc_jobs s !! jobID with
    | None => mret tt
    | Some l =>
        job ← get_job l;
        let state := j_LifecycleState job in
        if String.eqb state JobStateSubmitted then
          _ ← recordJobTransition l TransitionJobQueued JobStateQueued "";
          recordJobTransition l TransitionJobRunning JobStateRunning ""
        else if String.eqb state JobStateQueued then
          recordJobTransition l TransitionJobRunning JobStateRunning ""
        else if String.eqb state JobStateAwaitingHuman then
          recordJobTransition l TransitionJobResumed JobStateRunning ""
        else mret tt
    end.

(** The write callback of a claim: compare-and-swap where the transaction
    offers it, a plain upsert otherwise. *)
Definition claim_write (task : Task) (nodeID : string) (attempt : Z)
    (record : TransitionRecord) (snapshot : option DurableJobRecord) (tx : Tx)
    : option error * Tx :=
  match ClaimTaskDispatch with
  | Some claim =>
      match claim (mkClaim (t_ID task) (t_JobID task) (t_StageID task) nodeID attempt
                     (tr_OccurredAt record)) tx with
      | (inl err, tx') => (Some err, tx')
      | (inr false, tx') => (Some (ESentinel ErrDispatchClaimRejected), tx')
      | (inr true, tx') => tx_then (AppendTransition record) (upsert_snapshot snapshot) tx'
      end
  | None =>
      tx_then (UpsertTask (durable_task task nodeID TaskStateDispatched attempt
                             (tr_OccurredAt record)))
        (tx_then (AppendTransition record) (upsert_snapshot snapshot)) tx
  end.

Definition claimTaskDispatchTransition (r : TaskRef) (nodeID : string) (attempt : Z)
    : M (option error) :=
  task ← get_task r;
  s ← get;
  match sc_store s with
  | None => _ ← update_task r (with_task_state TaskStateDispatched); mret None
  | Some _ =>
    if String.eqb (t_JobID task) "" then
      _ ← update_task r (with_task_state TaskStateDispatched); mret None
    else
      let previousState := if String.eqb (t_LifecycleState task) ""
                           then TaskStatePending else t_LifecycleState task in
      if negb (CanTransitionTaskState previousState TaskStateDispatched)
      then mret (Some (ESentinel ErrDispatchClaimRejected))
      else
        seq ← nextSequenceIDWithContext (t_JobID task);
        match seq with
        | inl err => mret (Some (EWrap "allocate dispatch transition sequence: " err ""))
        | inr seqID =>
            at_ ← now;
            let record := mkTransition seqID TransitionEntityTask TransitionTaskDispatched
                            (t_JobID task) (t_ID task) previousState TaskStateDispatched
                            nodeID attempt "" at_ in
            snapshot ← durableJobSnapshot (t_JobID task) seqID at_;
            err ← persistTransitionWrite (claim_write task nodeID attempt record snapshot);
            match err with
            | Some err =>
                if errors_Is err ErrDispatchClaimRejected
                then mret (Some (ESentinel ErrDispatchClaimRejected))
                else mret (Some (EWrap "persist dispatch claim transition: " err ""))
            | None =>
                _ ← update_task r (with_task_state TaskStateDispatched);
                _ ← recordJobRunningOnFirstDispatch (t_JobID task);
                mret None
            end
        end
  end.

(** *** Executing tasks *)

Definition ExecuteOnNode (nodeID : string) (task : Task) (authority : DispatchAuthority)
    : M (result (option AgentOutput)) :=
  n ← next_tick;
  _ ← modify (add_event (EvExecute nodeID (t_AgentName task) (t_JobID task) (t_ID task)
                           (t_Attempts task) authority));
  mret (env_exec E n nodeID (t_AgentName task) (t_Input task) authority).

Definition executeTask (r : TaskRef) (node : NodeInfo) : M (option error) :=
  _ ← update_task r (with_task_status JobRunning);
  task ← get_task r;
  _ ← recordTaskTransition r TransitionTaskRunning TaskStateRunning (ni_ID node)
        (t_Attempts task) "";
  authority ← dispatchAuthority;
  match authority with
  | inl err =>
      mret (Some (EWrap "resolve dispatch authority before remote execution: " err ""))
  | inr a =>
    if negb (la_IsLeader a) then
      mret (Some (EWrap "" (ESentinel ErrStaleDispatchAuthority)
                    (": leader_id=" +:+ la_LeaderID a +:+ " epoch=" +:+ la_Epoch a)))
    else
      task ← get_task r;
      output ← ExecuteOnNode (ni_ID node) task (mkDispatch (la_LeaderID a) (la_Epoch a) (la_Scope a));
      match output with
      | inl err =>
        match errors_As_policy err with
        | Some _ =>
            _ ← update_task r (with_task_status JobBlocked);
            mret (Some err)
        | None =>
            _ ← (if isDispatchCapacityConflict (Some err)
                 then on_nodes (markDispatchCooldown cfg (env_now E) (ni_ID node))
                 else mret tt);
            _ ← update_task r (with_task_status JobFailed);
            _ ← recordTaskTransition r TransitionTaskFailed TaskStateFailed (ni_ID node)
                  (t_Attempts task) (Error err);
            mret (Some (EWrap ("task " +:+ t_ID task +:+ " failed on node " +:+
                               ni_ID node +:+ ": ") err ""))
        end
      | inr out =>
          _ ← update_task r (with_task_output out);
          _ ← update_task r (with_task_status JobCompleted);
          _ ← recordTaskTransition r TransitionTaskSucceeded TaskStateSucceeded (ni_ID node)
                (t_Attempts task) "";
          mret None
      end
  end.

Definition select_for (r : TaskRef) (nodes : list NodeInfo)
    : M (option NodeInfo * AffinityResult) :=
  task ← get_task r;
  sel ← on_nodes (selectNodeForTask cfg (env_now E) (t_PartitionKey task) nodes);
  match sel with Some res => mret res | None => panic end.

Definition dispatch_attempts : Z :=
  if MaxDispatchAttempts cfg <=? 0 then 1 else MaxDispatchAttempts cfg.

(** The loop of [executeTaskWithRetry]; [n] attempts are left. *)
Fixpoint retry_loop (n : nat) (attempt : Z) (r : TaskRef) (node : NodeInfo)
    (healthyNodes : list NodeInfo) : M (option error) :=
  match n with
  | O => mret None
  | S n' =>
      _ ← update_task r (with_task_attempts attempt);
      claim ← claimTaskDispatchTransition r (ni_ID node) attempt;
      match claim with
      | Some err =>
          if negb (errors_Is err ErrDispatchClaimRejected) then mret (Some err)
          else if attempt =? dispatch_attempts then mret (Some err)
          else
            next ← select_for r healthyNodes;
            match next.1 with
            | None => mret (Some (ESentinel ErrNoWorkerCapacity))
            | Some nextNode => retry_loop n' (attempt + 1) r nextNode healthyNodes
            end
      | None =>
          _ ← on_nodes (reserveNodeSlot cfg (env_now E) (ni_ID node));
          err ← executeTask r node;
          _ ← on_nodes (releaseNodeSlot cfg (env_now E) (ni_ID node));
          match err with
          | None => mret None
          | Some e =>
              if negb (isDispatchCapacityConflict (Some e)) then mret (Some e)
              else if attempt =? dispatch_attempts then mret (Some e)
              else
                next ← select_for r healthyNodes;
                match next.1 with
                | None => mret (Some (ESentinel ErrNoWorkerCapacity))
                | Some nextNode => retry_loop n' (attempt + 1) r nextNode healthyNodes
                end
          end
      end
  end.

Definition executeTaskWithRetry (r : TaskRef) (initialNode : NodeInfo)
    (healthyNodes : list NodeInfo) : M (option error) :=
  retry_loop (Z.to_nat dispatch_attempts) 1 r initialNode healthyNodes.

(** *** Executing stages *)

(** The polls of the deferral wait, until the timer or the context ends it. *)
Fixpoint deferral_loop (polls : nat) (ended_by : option error) (r : TaskRef)
    : M (result (option NodeInfo)) :=
  match polls with
  | O => match ended_by with
         | Some err => mret (inl err)
         | None => mret (inr None)
         end
  | S polls' =>
      nodes ← GetHealthyNodes;
      match dispatchEligibleNodes nodes with
      | [] => deferral_loop polls' ended_by r
      | eligible =>
          sel ← select_for r eligible;
          match sel.1 with
          | Some node => mret (inr (Some node))
          | None => deferral_loop polls' ended_by r
          end
      end
  end.

Definition selectNodeForTaskWithDeferral (r : TaskRef) (initialNodes : list NodeInfo)
    : M (result (option NodeInfo)) :=
  sel ← select_for r initialNodes;
  match sel.1 with
  | Some node => mret (inr (Some node))
  | None =>
      if negb (EnableStageCapacityDeferral cfg) then mret (inr None)
      else if (StageCapacityDeferralTimeout cfg <=? 0) ||
              (StageCapacityDeferralPollInterval cfg <=? 0) then mret (inr None)
      else
        n ← next_tick;
        let '(polls, ended_by) := env_deferral E n in
        deferral_loop polls ended_by r
  end.

(** A started task goroutine: its task, node and eligible nodes. *)
Abbreviation Goroutine := (TaskRef * NodeInfo)%type.

(** The body of a task goroutine; [errs] are the errors in [errChan].  When
    the context is done too, the [select] may drop the error. *)
Definition run_goroutine (nodes : list NodeInfo) (g : Goroutine) (errs : list error)
    : M (list error) :=
  err ← executeTaskWithRetry g.1 g.2 nodes;
  match err with
  | None => mret errs
  | Some e =>
      done ← ctx_Err;
      n ← next_tick;
      match done with
      | Some _ => if env_choice E n then mret errs else mret (errs ++ [e])
      | None => mret (errs ++ [e])
      end
  end.

(** Run the pending goroutines at the given positions, one after the other. *)
Fixpoint run_picked (picks : list nat) (nodes : list NodeInfo) (pending : list Goroutine)
    (errs : list error) : M (list Goroutine * list error) :=
  match picks with
  | [] => mret (pending, errs)
  | p :: picks' =>
      match pending !! p with
      | None => run_picked picks' nodes pending errs
      | Some g =>
          errs' ← run_goroutine nodes g errs;
          run_picked picks' nodes (delete p pending) errs'
      end
  end.

(** [wg.Wait()]: the remaining ones run in order, after the picked ones. *)
Fixpoint run_rest (nodes : list NodeInfo) (pending : list Goroutine) (errs : list error)
    : M (list error) :=
  match pending with
  | [] => mret errs
  | g :: pending' => errs' ← run_goroutine nodes g errs; run_rest nodes pending' errs'
  end.

Definition run_some (nodes : list NodeInfo) (pending : list Goroutine) (errs : list error)
    : M (list Goroutine * list error) :=
  n ← next_tick; run_picked (env_pick E n) nodes pending errs.

(** The loop that starts the tasks of a stage; it stops at the first task
    without a node. *)
Fixpoint start_tasks (refs : list TaskRef) (nodes : list NodeInfo)
    (pending : list Goroutine) (errs : list error)
    : M (option error * list Goroutine * list error) :=
  match refs with
  | [] => mret (None, pending, errs)
  | r :: refs' =>
      done ← ctx_Err;
      match done with
      | Some err => mret (Some err, pending, errs)
      | None =>
          sel ← selectNodeForTaskWithDeferral r nodes;
          match sel with
          | inl err => mret (Some err, pending, errs)
          | inr None => mret (Some (ESentinel ErrNoWorkerCapacity), pending, errs)
          | inr (Some node) =>
              res ← run_some nodes (pending ++ [(r, node)]) errs;
              start_tasks refs' nodes res.1 res.2
          end
      end
  end.

Definition stage_refs (l : loc) (i : nat) (stage : Stage) : list TaskRef :=
  mkRef l i <$> seq 0 (length (s_Tasks stage)).

Definition executeStage (l : loc) (i : nat) : M (option error) :=
  _ ← update_stage l i (with_stage_status JobRunning);
  stage ← get_stage l i;
  healthy ← GetHealthyNodes;
  match dispatchEligibleNodes healthy with
  | [] => mret (Some (EText "no healthy nodes available for execution"))
  | nodes =>
      started ← start_tasks (stage_refs l i stage) nodes [] [];
      let '(selectionErr, pending, errs) := started in
      res ← run_some nodes pending errs;
      errs ← run_rest nodes res.1 res.2;
      match selectionErr with
      | Some err =>
          _ ← update_stage l i (with_stage_status JobFailed);
          mret (Some (EWrap ("stage " +:+ s_ID stage +:+ " failed: ") err ""))
      | None =>
          match errs with
          | err :: _ =>
              _ ← update_stage l i (with_stage_status
                    (match errors_As_policy err with Some _ => JobBlocked | None => JobFailed end));
              mret (Some (EWrap ("stage " +:+ s_ID stage +:+ " failed: ") err ""))
          | [] =>
              _ ← update_stage l i (with_stage_status JobCompleted);
              mret None
          end
      end
  end.

(** *** Executing jobs *)

Definition updateJobStatus (l : loc) (status : JobStatus) : M unit :=
  _ ← update_job l (with_job_status status);
  t ← now;
  update_job l (with_job_updated t).

Definition has_tasks (stage : option Stage) : bool :=
  match stage with
  | Some st => negb (bool_decide (s_Tasks st = []))
  | None => false
  end.

Fixpoint run_stages (l : loc) (stages : list nat) : M unit :=
  match stages with
  | [] =>
      _ ← updateJobStatus l JobCompleted;
      recordJobTransition l TransitionJobSucceeded JobStateSucceeded ""
  | i :: rest =>
      err ← executeStage l i;
      match err with
      | None => run_stages l rest
      | Some e =>
          match errors_As_policy e with
          | Some _ =>
              _ ← updateJobStatus l JobBlocked;
              recordJobTransition l TransitionJobFailed JobStateFailed (Error e)
          | None =>
              if isHumanPauseError (Some e) then
                _ ← updateJobStatus l JobAwaitingHuman;
                recordJobTransition l TransitionJobAwaitingHuman JobStateAwaitingHuman (Error e)
              else
                _ ← updateJobStatus l JobFailed;
                recordJobTransition l TransitionJobFailed JobStateFailed (Error e)
          end
      end
  end.

Definition executeJob (l : loc) : M unit :=
  given ← get_job l;
  s ← get;
  l ← match sc_jobs s !! j_ID given with
      | Some existing => mret existing
      | None => _ ← modify (set_jobs (<[j_ID given := l]> (sc_jobs s))); mret l
      end;
  _ ← updateJobStatus l JobRunning;
  job ← get_job l;
  _ ← (if String.eqb (j_LifecycleState job) JobStateSubmitted
       then recordJobTransition l TransitionJobQueued JobStateQueued "" else mret tt);
  job ← get_job l;
  _ ← (if existsb has_tasks (j_Stages job) then mret tt
       else recordJobTransition l
              (if String.eqb (j_LifecycleState job) JobStateAwaitingHuman
               then TransitionJobResumed else TransitionJobRunning) JobStateRunning "");
  run_stages l (seq 0 (length (j_Stages job))).

(** *** Submission *)

(** The body of the task loop of [recordInitialTransitions]. *)
Definition record_created (jobID stageID : string) (r : TaskRef) : M unit :=
  task ← get_task r;
  _ ← update_task r (with_task_ids
        (if String.eqb (t_JobID task) "" then jobID else t_JobID task)
        (if String.eqb (t_StageID task) "" then stageID else t_StageID task));
  recordTaskTransition r TransitionTaskCreated TaskStatePending "" 0 "".

Definition record_stage_created (jobID : string) (l : loc) (i : nat) : M unit :=
  stage ← get_stage l i;
  iter (record_created jobID (s_ID stage)) (stage_refs l i stage).

Definition recordInitialTransitions (l : loc) : M unit :=
  _ ← recordJobTransition l TransitionJobSubmitted JobStateSubmitted "";
  job ← get_job l;
  _ ← iter (record_stage_created (j_ID job) l) (seq 0 (length (j_Stages job)));
  recordJobTransition l TransitionJobQueued JobStateQueued "".

(** The critical section that admits a job and reserves its queue slot. *)
Definition submit_reserve (l : loc) : M (option error) :=
  s ← get;
  if sc_recovering s then mret (Some (ESentinel ErrSchedulerRecovering))
  else
    job ← get_job l;
    match sc_jobs s !! j_ID job with
    | Some _ => mret (Some (EText ("job " +:+ j_ID job +:+ " already exists")))
    | None =>
        if Z.of_nat (length (sc_queue s)) + sc_pendingEnqueue s <? JobQueueSize cfg then
          _ ← modify (set_pending (sc_pendingEnqueue s + 1));
          _ ← update_job l (with_job_status JobPending);
          _ ← modify (λ s, set_jobs (<[j_ID job := l]> (sc_jobs s)) s);
          mret None
        else mret (Some (ESentinel ErrJobQueueFull))
    end.

(** The critical section that turns the reservation into a queue entry. *)
Definition submit_commit (l : loc) : M bool :=
  _ ← modify (λ s, set_pending (sc_pendingEnqueue s - 1) s);
  enqueueJobLocked l.

Definition SubmitJobWithContext (l : loc) : M (option error) :=
  err ← submit_reserve l;
  match err with
  | Some e => mret (Some e)
  | None =>
      _ ← recordInitialTransitions l;
      _ ← submit_commit l;
      mret None
  end.

(** *** Looking jobs up *)

Definition replay_job (jobID : string) : M (result ReplayedJobState) :=
  s ← get;
  let '(res, n) := ReplayJobState (env_ctx E) (sc_tick s) (sc_store s) jobID in
  _ ← modify (λ s, set_nodes (set_tick n (sc_nodes s)) s);
  mret res.

(** Nothing is known about the job. *)
Definition replay_empty (r : ReplayedJobState) : bool :=
  String.eqb (dj_CurrentState (rs_Job r)) "" && bool_decide (rs_Tasks r = ∅) &&
  bool_decide (rs_Transitions r = []).

Definition not_found (jobID : string) : error := EText ("job " +:+ jobID +:+ " not found").

Definition insert_recovered (r : ReplayedJobState) : M loc :=
  l ← new_job (buildRecoveredRuntimeJob (env_unmarshal E) r);
  _ ← modify (λ s, set_jobs (<[dj_JobID (rs_Job r) := l]> (sc_jobs s)) s);
  mret l.

Definition getJobPointer (jobID : string) : M (result loc) :=
  s ← get;
  match sc_jobs s !! jobID with
  | Some l => mret (inr l)
  | None =>
      match sc_store s with
      | None => mret (inl (not_found jobID))
      | Some _ =>
          res ← replay_job jobID;
          match res with
          | inl _ => mret (inl (not_found jobID))
          | inr replayed =>
              if replay_empty replayed then mret (inl (not_found jobID))
              else
                l ← insert_recovered replayed;
                _ ← seedJobSequenceLocked jobID (dj_LastSequenceID (rs_Job replayed))
                      (rs_Transitions replayed);
                mret (inr l)
          end
      end
  end.

(** [GetJob] is [getJobPointer] with a copy of the job as its result. *)
Definition GetJob (jobID : string) : M (result Job) :=
  res ← getJobPointer jobID;
  match res with
  | inl err => mret (inl err)
  | inr l => job ← get_job l; mret (inr (cloneJob job))
  end.

Definition hydrate_from_existing (existing hydrated : Job) : Job :=
  mkJob (j_ID hydrated)
    (if String.eqb (j_Name hydrated) "" then j_Name existing else j_Name hydrated)
    (j_Stages hydrated) (j_Edges hydrated) (j_Status hydrated) (j_LifecycleState hydrated)
    (if IsZero (j_CreatedAt hydrated) then j_CreatedAt existing else j_CreatedAt hydrated)
    (j_UpdatedAt hydrated)
    (if bool_decide (default ∅ (j_Metadata hydrated) = ∅) &&
        negb (bool_decide (default ∅ (j_Metadata existing) = ∅))
     then j_Metadata existing else j_Metadata hydrated).

Definition refreshJobFromDurableState (jobID : string) : M (option loc) :=
  s ← get;
  match sc_store s with
  | None => mret None
  | Some _ =>
    if String.eqb (strings_TrimSpace jobID) "" then mret None
    else
      res ← replay_job jobID;
      match res with
      | inl _ => mret None
      | inr replayed =>
          if replay_empty replayed then mret None
          else
            let hydrated := buildRecoveredRuntimeJob (env_unmarshal E) replayed in
            hydrated ← match sc_jobs s !! jobID with
                       | None => mret hydrated
                       | Some l =>
                           existing ← get_job l;
                           mret (hydrate_from_existing existing hydrated)
                       end;
            l ← new_job hydrated;
            _ ← modify (λ s, set_jobs (<[jobID := l]> (sc_jobs s)) s);
            _ ← seedJobSequenceLocked jobID (dj_LastSequenceID (rs_Job replayed))
                  (rs_Transitions replayed);
            mret (Some l)
      end
  end.

(** *** The dispatch loop *)

Definition isExecutableDequeuedJob (l : loc) : M bool :=
  job ← get_job l;
  s ← get;
  current ← get_job (default l (sc_jobs s !! j_ID job));
  mret (String.eqb (j_LifecycleState current) JobStateSubmitted ||
        String.eqb (j_LifecycleState current) JobStateQueued).

(** One iteration of [run] that receives a job; the result says whether the
    loop goes on.  A retry wait is ended by the timer or by [Stop]. *)
Definition requeue_and_wait (l : loc) : M bool :=
  _ ← requeueJob l;
  n ← next_tick;
  mret (negb (env_stopped E n)).

Definition run_once : M bool :=
  s ← get;
  match sc_queue s with
  | [] => mret true
  | l :: queue =>
      _ ← modify (λ s, set_queue queue (sc_queuedJobs s) s);
      _ ← markJobDequeued l;
      executable ← isExecutableDequeuedJob l;
      if negb executable then mret true
      else
        authority ← dispatchAuthority;
        match authority with
        | inl _ => requeue_and_wait l
        | inr a =>
            if negb (la_IsLeader a) then requeue_and_wait l
            else
              job ← get_job l;
              refreshed ← refreshJobFromDurableState (j_ID job);
              let l := default l refreshed in
              executable ← isExecutableDequeuedJob l;
              if negb executable then mret true
              else _ ← executeJob l; mret true
        end
  end.

(** *** Resuming a paused job *)

Definition merge_context (resumeContext : gmap string Value) (input : option AgentInput)
    : AgentInput :=
  let i := default (mkInput "" "" None [] "" 0 0) input in
  mkInput (ai_TaskID i) (ai_Instruction i)
    (Some (map_fold (λ k v m, <[k := v]> m) (default ∅ (ai_Context i)) resumeContext))
    (ai_Tools i) (ai_Model i) (ai_MaxRetries i) (ai_Timeout i).

Definition resume_task (resumeContext : gmap string Value) (t : Task) : Task :=
  with_task_output None (with_task_state TaskStatePending (with_task_status JobPending
    (with_task_input (Some (merge_context resumeContext (t_Input t))) t))).

Definition resume_stage (resumeContext : gmap string Value) (st : Stage) : Stage :=
  set_tasks (fmap (M:=option) (resume_task resumeContext) <$> s_Tasks st)
    (with_stage_status JobPending st).

Definition ResumeAwaitingHumanJob (jobID : string) (resumeContext : gmap string Value)
    : M (option error) :=
  res ← getJobPointer jobID;
  match res with
  | inl err => mret (Some err)
  | inr l =>
      job ← get_job l;
      let state := j_LifecycleState job in
      l ← (if negb (String.eqb state JobStateAwaitingHuman) && negb (IsTerminalJobState state)
           then refreshed ← refreshJobFromDurableState jobID; mret (default l refreshed)
           else mret l);
      job ← get_job l;
      let state := j_LifecycleState job in
      if IsTerminalJobState state then mret None
      else if negb (String.eqb state JobStateAwaitingHuman) then
        mret (Some (EText ("job " +:+ jobID +:+ " is not awaiting human input (state=" +:+
                           state +:+ ")")))
      else
        authority ← dispatchAuthority;
        match authority with
        | inl err =>
            mret (Some (EWrap ("resolve dispatch authority before resuming job " +:+ jobID +:+
                               ": ") err ""))
        | inr a =>
            if negb (la_IsLeader a) then
              mret (Some (EWrap "" (ESentinel ErrStaleDispatchAuthority)
                            (": leader_id=" +:+ la_LeaderID a +:+ " epoch=" +:+ la_Epoch a)))
            else
              _ ← (if bool_decide (resumeContext = ∅) then mret tt
                   else update_job l (λ j,
                          set_stages (fmap (M:=option) (resume_stage resumeContext) <$> j_Stages j) j));
              _ ← executeJob l;
              mret None
        end
  end.

(** *** Reconciling with the durable store *)

Inductive ReconcileMode := ReconcileModeLeader | ReconcileModeFollower.

Definition is_leader_mode (mode : ReconcileMode) : bool :=
  match mode with ReconcileModeLeader => true | ReconcileModeFollower => false end.

Definition malformedReplayQuarantineTTL : Duration := 30 * Second.
Definition staleInFlightReconcileTimeout : Duration := Minute.

Definition setReplayQuarantine (jobID : string) (until : Time) : M unit :=
  modify (λ s, set_quarantine (<[jobID := until]> (sc_replayQuarantine s)) s).
Definition replayQuarantineUntil (jobID : string) : M (option Time) :=
  s ← get; mret (sc_replayQuarantine s !! jobID).
Definition clearReplayQuarantine (jobID : string) : M unit :=
  modify (λ s, set_quarantine (delete jobID (sc_replayQuarantine s)) s).

Definition tryEnqueueExistingQueuedJob (jobID : string) : M bool :=
  s ← get;
  match sc_jobs s !! jobID with
  | None => mret false
  | Some l =>
      job ← get_job l;
      if negb (String.eqb (j_LifecycleState job) JobStateQueued) then mret false
      else if negb (isSafeForQueuedResume (Some job)) then mret false
      else if 0 <? recoveredQueuedMissingExecutionFieldCount (Some job) (EnableStickiness cfg)
      then mret false
      else if bool_decide (j_ID job ∈ sc_queuedJobs s) then mret true
      else enqueueJobLocked l
  end.

Definition quarantined_job (durableJob : DurableJobRecord) : Job :=
  mkJob (dj_JobID durableJob) (dj_Name durableJob) [] []
    (runtimeJobStatusFromLifecycle (dj_CurrentState durableJob)) (dj_CurrentState durableJob)
    (dj_CreatedAt durableJob) (dj_UpdatedAt durableJob) (Some {[ "recovered" := VBool true ]}).

(** [s.transitionStore.UpsertJob], outside of a transaction. *)
Definition store_upsert_job (record : DurableJobRecord) : M unit :=
  s ← get;
  match sc_store s with
  | None => panic
  | Some st => modify (set_store (Some (StoreUpsertJob record st).2))
  end.

Definition failDurableQueuedJobForReconcile (durableJob : DurableJobRecord) (reason : string)
    : M unit :=
  if String.eqb (dj_JobID durableJob) "" then mret tt
  else
    authority ← dispatchAuthority;
    match authority with
    | inl _ => mret tt
    | inr a =>
      if negb (la_IsLeader a) then mret tt
      else
        s ← get;
        l ← match sc_jobs s !! dj_JobID durableJob with
            | Some l => mret l
            | None =>
                l ← new_job (quarantined_job durableJob);
                _ ← modify (λ s, set_jobs (<[dj_JobID durableJob := l]> (sc_jobs s)) s);
                mret l
            end;
        job ← get_job l;
        if IsTerminalJobState (j_LifecycleState job) then mret tt
        else
          _ ← updateJobStatus l JobFailed;
          job ← get_job l;
          if CanTransitionJobState (j_LifecycleState job) JobStateFailed then
            recordJobTransition l TransitionJobFailed JobStateFailed reason
          else
            t ← now;
            _ ← update_job l (λ j, with_job_updated t (with_job_state JobStateFailed j));
            store_upsert_job (mkDurableJob (dj_JobID durableJob) (dj_Name durableJob)
              JobStateFailed (dj_LastSequenceID durableJob) (dj_CreatedAt durableJob) t)
    end.

(** The body of the loop after a successful replay. *)
Definition reconcile_locked (mode : ReconcileMode) (durableJob : DurableJobRecord)
    (replayed : ReplayedJobState) : M unit :=
  s ← get;
  let id := dj_JobID (rs_Job replayed) in
  l ← match sc_jobs s !! id with
      | None =>
          l ← insert_recovered replayed;
          _ ← seedJobSequenceLocked id (dj_LastSequenceID (rs_Job replayed))
                (rs_Transitions replayed);
          mret l
      | Some l =>
          if (map_get 0%N (sc_jobSequences s) id <? dj_LastSequenceID (rs_Job replayed))%N then
            job ← get_job l;
            _ ← update_job l (λ j, with_job_updated (dj_UpdatedAt (rs_Job replayed))
                                     (with_job_state (dj_CurrentState (rs_Job replayed)) j));
            _ ← seedJobSequenceLocked (j_ID job) (dj_LastSequenceID (rs_Job replayed))
                  (rs_Transitions replayed);
            mret l
          else mret l
      end;
  if negb (is_leader_mode mode) then mret tt
  else
    job ← get_job l;
    match (if String.eqb (j_LifecycleState job) JobStateRunning
           then replayedTerminalJobState (rs_Tasks replayed) else None) with
    | Some terminalState =>
        if String.eqb terminalState JobStateSucceeded then
          _ ← updateJobStatus l JobCompleted;
          recordJobTransition l TransitionJobSucceeded JobStateSucceeded
            "reconcile synthesized terminal success after leader failover"
        else if String.eqb terminalState JobStateFailed then
          _ ← updateJobStatus l JobFailed;
          recordJobTransition l TransitionJobFailed JobStateFailed
            "reconcile synthesized terminal failure after leader failover"
        else mret tt
    | None =>
        _ ← (if String.eqb (j_LifecycleState job) JobStateSubmitted
             then recordJobTransition l TransitionJobQueued JobStateQueued "" else mret tt);
        job ← get_job l;
        if negb (String.eqb (j_LifecycleState job) JobStateQueued) then mret tt
        else if negb (isSafeForQueuedResume (Some job)) then mret tt
        else
          let missing := recoveredQueuedMissingExecutionFieldCount (Some job)
                           (EnableStickiness cfg) in
          if 0 <? missing then
            failDurableQueuedJobForReconcile durableJob
              ("reconcile skipped auto-resume: recovered queued job missing execution fields (" +:+
               pretty missing +:+ ")")
          else _ ← enqueueJobLocked l; mret tt
    end.

(** The body of the loop for a job that is not quarantined. *)
Definition reconcile_replay (mode : ReconcileMode) (durableJob : DurableJobRecord) : M unit :=
  res ← replay_job (dj_JobID durableJob);
  match res with
  | inl err =>
      if is_leader_mode mode then
        t ← now;
        _ ← setReplayQuarantine (dj_JobID durableJob) (t + malformedReplayQuarantineTTL);
        failDurableQueuedJobForReconcile durableJob ("reconcile replay failed: " +:+ Error err)
      else mret tt
  | inr replayed =>
      _ ← clearReplayQuarantine (dj_JobID durableJob);
      let replayed := merge_listed_job durableJob replayed in
      let running := String.eqb (dj_CurrentState (rs_Job replayed)) JobStateRunning in
      if is_leader_mode mode && running && allReplayedTasksPending (rs_Tasks replayed) then
        failDurableQueuedJobForReconcile durableJob
          "reconcile detected orphan running state without dispatched/running tasks after leadership loss"
      else
        stale ← (if is_leader_mode mode && running
                 then t ← now; mret (hasStaleInFlightReplayedTask (rs_Tasks replayed) t
                                       staleInFlightReconcileTimeout)
                 else mret false);
        if (stale : bool) then
          failDurableQueuedJobForReconcile durableJob
            "reconcile detected stale in-flight task after leadership loss"
        else reconcile_locked mode durableJob replayed
  end.

Definition reconcile_job (mode : ReconcileMode) (durableJob : DurableJobRecord) : M unit :=
  quarantine ← replayQuarantineUntil (dj_JobID durableJob);
  skip ← match quarantine with
         | None => mret false
         | Some until =>
             t ← now;
             if Before t until then mret true
             else _ ← clearReplayQuarantine (dj_JobID durableJob); mret false
         end;
  if (skip : bool) then mret tt
  else
    enqueued ← (if is_leader_mode mode
                then tryEnqueueExistingQueuedJob (dj_JobID durableJob) else mret false);
    if (enqueued : bool) then mret tt else reconcile_replay mode durableJob.

Fixpoint reconcile_loop (mode : ReconcileMode) (jobs : list DurableJobRecord)
    : M (option error) :=
  match jobs with
  | [] => mret None
  | durableJob :: rest =>
      done ← ctx_Err;
      match done with
      | Some err => mret (Some err)
      | None => _ ← reconcile_job mode durableJob; reconcile_loop mode rest
      end
  end.

Definition reconcileDurableQueuedJobsOnce (mode : ReconcileMode) : M (option error) :=
  s ← get;
  match sc_store s with
  | None => mret None
  | Some st =>
      match ListUnfinishedJobs st with
      | inl err => mret (Some err)
      | inr jobs =>
          err ← reconcile_loop mode (go_sort durable_job_less jobs);
          match err with
          | Some e => mret (Some e)
          | None =>
              t ← now;
              _ ← modify (set_lastReconcile t);
              mret None
          end
      end
  end.
End Operations.
