(* ===== verification/Lifecycle.v ===== *)
(** * Scheduler life cycle: construction, start-up recovery, retention, stop

    pkg/scheduler/recovery.go ([RecoverFromTransitions] and
    [resumeRecoveredQueuedJobsLocked]) and the life-cycle methods of
    pkg/scheduler/scheduler.go. *)

From stdpp Require Import base gmap strings list fin_maps.
From S2P Require Import Prelude StateMachine Store Replay Jobs Config Leadership Nodes Scheduler.

Open Scope Z_scope.

Section Lifecycle.
Context {St Tx : Type} `{!TransitionStoreI St Tx}.
Context (cfg : SchedulerConfig) (E : Env).

Local Abbreviation M := (M St).

(** [newSchedulerWithValidatedConfig]; the default store is the in-memory one. *)
Definition newSchedulerWithValidatedConfig (store : St) : Sched St :=
  mkSched ∅ 0 ∅ [] ∅ 0 (Some store) ∅ (Some defaultLeadershipProvider) false false false ∅ 0
    (mkNodeState 0 0 ∅ ∅
       (if EnableStickiness cfg then Some (Affinity.NewAffinityMap (AffinityTTL cfg)) else None))
    [].

(** *** Wiring *)

Definition SetTransitionStore (store : option St) : M (option error) :=
  s ← get;
  if sc_started s || sc_recovering s
  then mret (Some (ESentinel ErrTransitionStoreSetAfterStart))
  else _ ← modify (set_store store); mret None.

Definition SetLeadershipProvider (provider : option LeadershipProvider) : M (option error) :=
  let provider := default defaultLeadershipProvider provider in
  s ← get;
  if sc_started s || sc_recovering s
  then mret (Some (ESentinel ErrLeadershipProviderSetAfterStart))
  else _ ← modify (set_leadership (Some provider)); mret None.

(** *** Start-up recovery *)

Definition recoveryContextCheckEvery : Z := 32.

(** Applying one replayed job; new jobs are collected for the resume pass. *)
Definition recover_job (r : ReplayedJobState) (recovered : list loc) : M (list loc) :=
  s ← get;
  let id := dj_JobID (rs_Job r) in
  match sc_jobs s !! id with
  | Some _ =>
      _ ← seedJobSequenceLocked id (dj_LastSequenceID (rs_Job r)) (rs_Transitions r);
      mret recovered
  | None =>
      l ← insert_recovered E r;
      _ ← seedJobSequenceLocked id (dj_LastSequenceID (rs_Job r)) (rs_Transitions r);
      mret (recovered ++ [l])
  end.

(** The loop over one batch, with its context poll every 32 jobs. *)
Fixpoint recover_batch (l : list ReplayedJobState) (processed : Z) (recovered : list loc)
    : M (result (Z * list loc)) :=
  match l with
  | [] => mret (inr (processed, recovered))
  | r :: rest =>
      let processed := processed + 1 in
      done ← (if Z.rem processed recoveryContextCheckEvery =? 0 then ctx_Err E else mret None);
      match done with
      | Some err => mret (inl err)
      | None => recovered ← recover_job r recovered; recover_batch rest processed recovered
      end
  end.

Definition recovery_batch_size : nat :=
  Z.to_nat (if RecoveryBatchSize cfg <=? 0 then 128 else RecoveryBatchSize cfg).

(** The batches; every batch takes at least one job, so as many rounds as
    there are jobs are enough. *)
Fixpoint recover_batches (rounds : nat) (l : list ReplayedJobState) (processed : Z)
    (recovered : list loc) : M (result (list loc)) :=
  match l, rounds with
  | [], _ | _, O => mret (inr recovered)
  | _, S rounds' =>
      done ← ctx_Err E;
      match done with
      | Some err => mret (inl err)
      | None =>
          res ← recover_batch (take recovery_batch_size l) processed recovered;
          match res with
          | inl err => mret (inl err)
          | inr (processed, recovered) =>
              done ← ctx_Err E;
              match done with
              | Some err => mret (inl err)
              | None => recover_batches rounds' (drop recovery_batch_size l) processed recovered
              end
          end
      end
  end.

Definition resume_recovered (l : loc) : M unit :=
  job ← get_job l;
  if negb (String.eqb (j_LifecycleState job) JobStateQueued) then mret tt
  else if negb (isSafeForQueuedResume (Some job)) then mret tt
  else _ ← enqueueJobLocked cfg l; mret tt.

Definition resumeRecoveredQueuedJobsLocked (recovered : list loc) : M unit :=
  iter resume_recovered recovered.

Definition RecoverFromTransitions : M (option error) :=
  s ← get;
  match sc_store s with
  | None => mret None
  | Some _ =>
      let '(res, n) := ReplayStateFromStore (env_ctx E) (sc_tick s) (sc_store s) in
      _ ← modify (λ s, set_nodes (set_tick n (sc_nodes s)) s);
      match res with
      | inl err => mret (Some err)
      | inr replayed =>
          res ← recover_batches (length replayed) replayed 0 [];
          match res with
          | inl err => mret (Some err)
          | inr recovered =>
              _ ← (if EnableResumeRecoveredQueuedJobs cfg
                   then resumeRecoveredQueuedJobsLocked recovered else mret tt);
              mret None
          end
      end
  end.

(** *** Start and Stop *)

Definition startLeadershipProvider : M (option error) :=
  s ← get;
  _ ← modify (set_leadership (Some (default defaultLeadershipProvider (sc_leadership s))));
  n ← next_tick;
  mret (env_leader_start E n).

Definition finish_recovering : M unit :=
  modify (λ s, set_flags (sc_started s) false (sc_stopRequested s) s).

Definition Start : M unit :=
  s ← get;
  if sc_started s || sc_recovering s || sc_stopRequested s then mret tt
  else
    _ ← modify (set_flags (sc_started s) true (sc_stopRequested s));
    _ ← RecoverFromTransitions;
    err ← startLeadershipProvider;
    match err with
    | Some _ => finish_recovering
    | None =>
        s ← get;
        if sc_stopRequested s then finish_recovering
        else
          _ ← modify (set_flags true (sc_recovering s) (sc_stopRequested s));
          finish_recovering
    end.

Definition Stop : M unit :=
  modify (λ s, set_flags (sc_started s) (sc_recovering s) true s).

Record SchedulerReadiness := mkReadiness {
  IsRecovering : bool;
  IsLeader : bool;
  LastReconcileTime : Time;
}.

Definition Readiness : M SchedulerReadiness :=
  s ← get;
  isLeader ← match sc_leadership s with
             | Some provider =>
                 if sc_started s && negb (sc_recovering s) then
                   n ← next_tick;
                   match lp_DispatchAuthority provider n with
                   | inr auth => mret (la_IsLeader auth)
                   | inl _ => mret false
                   end
                 else mret false
             | None => mret false
             end;
  mret (mkReadiness (sc_recovering s) isLeader (sc_lastReconcileTime s)).

(** *** The reconcile ticker *)

(** One tick of [durableQueuedRequeueLoop]. *)
Definition durableQueuedRequeueTick : M unit :=
  authority ← dispatchAuthority;
  match authority with
  | inl _ => mret tt
  | inr a =>
      let mode := if la_IsLeader a then ReconcileModeLeader else ReconcileModeFollower in
      if (is_leader_mode mode && negb (EnableLeaderDurableRequeueLoop cfg)) ||
         (negb (is_leader_mode mode) && negb (EnableFollowerDurableRequeueLoop cfg))
      then mret tt
      else _ ← reconcileDurableQueuedJobsOnce cfg E mode; mret tt
  end.

(** *** Retention *)

(** A job that the cleanup prunes; a dangling entry is dropped as nil is. *)
Definition prunable (s : Sched St) (cutoff : Time) (l : loc) : bool :=
  match sc_heap s !! l with
  | None => true
  | Some job => IsTerminalJobState (j_LifecycleState job) && negb (After (j_UpdatedAt job) cutoff)
  end.

Definition forget_job (id : string) (s : Sched St) : Sched St :=
  set_queue (sc_queue s) (sc_queuedJobs s ∖ {[ id ]})
    (set_sequences (delete id (sc_jobSequences s)) (set_jobs (delete id (sc_jobs s)) s)).

Definition cleanup_job (cutoff : Time) (entry : string * loc) : M Z :=
  s ← get;
  match sc_heap s !! entry.2 with
  | None => _ ← modify (forget_job entry.1); mret 0
  | Some job =>
      if negb (IsTerminalJobState (j_LifecycleState job)) then mret 0
      else if After (j_UpdatedAt job) cutoff then mret 0
      else _ ← modify (forget_job entry.1); mret 1
  end.

Fixpoint cleanup_loop (cutoff : Time) (entries : list (string * loc)) (pruned : Z) : M Z :=
  match entries with
  | [] => mret pruned
  | e :: rest => n ← cleanup_job cutoff e; cleanup_loop cutoff rest (pruned + n)
  end.

Definition cleanupTerminalJobsOnce (now : Time) : M Z :=
  if JobRetentionTTL cfg <=? 0 then mret 0
  else
    s ← get;
    cleanup_loop (now - JobRetentionTTL cfg) (map_to_list (sc_jobs s)) 0.
End Lifecycle.
