(* ===== verification/SchedLogic.v ===== *)
(** * Reasoning about scheduler methods

    [keeps P R m]: when [m] runs from a state with [P] and does not panic, the
    states before and after are related by [R].  For a preorder [R] that keeps
    [P], the rules below follow the structure of the code, and [keeps_auto]
    applies them. *)

From stdpp Require Import base gmap strings list fin_maps.
From S2P Require Import Prelude StateMachine Store Replay Jobs Config Leadership Nodes Scheduler.

Create HintDb keeps discriminated.

Definition keeps {St A} (P : Sched St → Prop) (R : relation (Sched St)) (m : M St A) : Prop :=
  ∀ s a s', P s → m s = Some (a, s') → R s s'.

(** Every result of [m] has [Q]. *)
Definition yields {St A} (Q : A → Prop) (m : M St A) : Prop :=
  ∀ s a s', m s = Some (a, s') → Q a.

Lemma yields_bind {St A B} (Q : B → Prop) (m : M St A) (f : A → M St B) :
  (∀ a, yields Q (f a)) → yields Q (m ≫= f).
Proof.
  intros Hf s b s' Hrun. unfold mbind, M_bind in Hrun.
  destruct (m s) as [[a s1]|]; [by eapply Hf|done].
Qed.

Lemma yields_bind_yields {St A B} (Q' : A → Prop) (Q : B → Prop) (m : M St A) (f : A → M St B) :
  yields Q' m → (∀ a, Q' a → yields Q (f a)) → yields Q (m ≫= f).
Proof.
  intros Hm Hf s b s' Hrun. unfold mbind, M_bind in Hrun.
  destruct (m s) as [[a s1]|] eqn:E; [|done]. eapply Hf; [by eapply Hm|done].
Qed.

Lemma yields_ret {St A} (Q : A → Prop) (a : A) : Q a → yields Q (mret a : M St A).
Proof. by intros Ha s ? s' [= <- _]. Qed.

(** [P] survives steps of [R]. *)
Class Stable {St} (P : Sched St → Prop) (R : relation (Sched St)) :=
  stable : ∀ s s', P s → R s s' → P s'.

Definition any {St} (s : Sched St) : Prop := True.

#[export] Instance any_stable {St} (R : relation (Sched St)) : Stable any R.
Proof. by intros ???. Qed.

#[export] Instance and_stable {St} (P Q : Sched St → Prop) (R : relation (Sched St)) :
  Stable P R → Stable Q R → Stable (λ s, P s ∧ Q s) R.
Proof. intros HP HQ s s' [??] ?. split; [by eapply HP|by eapply HQ]. Qed.

Section Keeps.
Context {St : Type} (P : Sched St → Prop) (R : relation (Sched St)).
Context `{!PreOrder R} `{!Stable P R}.

Lemma keeps_ret {A} (a : A) : keeps P R (mret a).
Proof. intros s ? s' _ [= _ <-]. reflexivity. Qed.

Lemma keeps_panic {A} : keeps P R (panic : M St A).
Proof. by intros s ? s'. Qed.

Lemma keeps_bind {A B} (m : M St A) (f : A → M St B) :
  keeps P R m → (∀ a, keeps P R (f a)) → keeps P R (m ≫= f).
Proof.
  intros Hm Hf s b s' HP Hrun. unfold mbind, M_bind in Hrun.
  destruct (m s) as [[a s1]|] eqn:E; [|done].
  pose proof (Hm _ _ _ HP E). etrans; [done|]. eapply Hf; [|done]. by eapply stable.
Qed.

Lemma keeps_ret_bind {A B} (a : A) (f : A → M St B) : keeps P R (f a) → keeps P R (mret a ≫= f).
Proof. intros Hf. exact Hf. Qed.

(** The same, with what is known of the first result. *)
Lemma keeps_bind_yields {A B} (Q : A → Prop) (m : M St A) (f : A → M St B) :
  yields Q m → keeps P R m → (∀ a, Q a → keeps P R (f a)) → keeps P R (m ≫= f).
Proof.
  intros HQ Hm Hf s b s' HP Hrun. unfold mbind, M_bind in Hrun.
  destruct (m s) as [[a s1]|] eqn:E; [|done].
  pose proof (Hm _ _ _ HP E). etrans; [done|]. eapply Hf; [by eapply HQ| |done].
  by eapply stable.
Qed.

Lemma keeps_get : keeps P R get.
Proof. intros s ? s' _ [= _ <-]. reflexivity. Qed.

Lemma keeps_modify f : (∀ s, P s → R s (f s)) → keeps P R (modify f).
Proof. intros Hf s ? s' HP [= _ <-]. auto. Qed.

Lemma keeps_get_job l : keeps P R (get_job l).
Proof.
  intros s ? s' _. unfold get_job. destruct (sc_heap s !! l); [|done].
  intros [= _ <-]. reflexivity.
Qed.

Lemma keeps_get_stage l i : keeps P R (get_stage l i).
Proof.
  apply keeps_bind; [apply keeps_get_job|]. intros j.
  destruct (job_stage j i); [apply keeps_ret|apply keeps_panic].
Qed.

Lemma keeps_get_task r : keeps P R (get_task r).
Proof.
  apply keeps_bind; [apply keeps_get_job|]. intros j.
  destruct (job_task j (tr_stage r) (tr_task r)); [apply keeps_ret|apply keeps_panic].
Qed.

Lemma keeps_update_job l f :
  (∀ s j, P s → sc_heap s !! l = Some j → R s (set_heap (<[l := f j]> (sc_heap s)) s)) →
  keeps P R (update_job l f).
Proof.
  intros Hf s ? s' HP. unfold update_job. destruct (sc_heap s !! l) eqn:E; [|done].
  intros [= _ <-]. auto.
Qed.

Lemma keeps_new_job j :
  (∀ s, P s → R s (set_next (S (sc_next s)) (set_heap (<[sc_next s := j]> (sc_heap s)) s))) →
  keeps P R (new_job j).
Proof. intros Hf s ? s' HP [= _ <-]. auto. Qed.

Lemma keeps_on_nodes {A} (m : ST NodeState A) :
  (∀ s, P s → R s (set_nodes (m (sc_nodes s)).2 s)) → keeps P R (on_nodes m).
Proof.
  intros Hm s b s' HP. unfold on_nodes. specialize (Hm s HP).
  destruct (m (sc_nodes s)) as [a n]. by intros [= _ <-].
Qed.

Lemma keeps_next_tick :
  (∀ s, P s → R s (set_nodes (set_tick (S (sc_tick s)) (sc_nodes s)) s)) → keeps P R next_tick.
Proof. intros Hf s ? s' HP [= _ <-]. auto. Qed.

Lemma keeps_iter {A} (f : A → M St unit) (l : list A) :
  (∀ x, keeps P R (f x)) → keeps P R (iter f l).
Proof.
  intros Hf. induction l as [|x l IH]; simpl; [apply keeps_ret|].
  apply keeps_bind; [apply Hf|done].
Qed.
End Keeps.

Lemma keeps_weaken {St A} (P P' : Sched St → Prop) (R R' : relation (Sched St)) (m : M St A) :
  keeps P R m → (∀ s, P' s → P s) → (∀ s s', P' s → R s s' → R' s s') → keeps P' R' m.
Proof. intros Hm HP HR s a s' HP' Hrun. eauto. Qed.

Lemma keeps_ext {St A} (P : Sched St → Prop) (R : relation (Sched St)) (m m' : M St A) :
  (∀ s, m s = m' s) → keeps P R m' → keeps P R m.
Proof. intros Heq Hm s a s' HP. rewrite Heq. by apply Hm. Qed.

Lemma keeps_run {St A} (P : Sched St → Prop) (R : relation (Sched St)) (m : M St A) s a s' :
  keeps P R m → P s → m s = Some (a, s') → R s s'.
Proof. intros Hm. apply Hm. Qed.

Lemma keeps_and {St A} (P : Sched St → Prop) (R R' : relation (Sched St)) (m : M St A) :
  keeps P R m → keeps P R' m → keeps P (λ s s', R s s' ∧ R' s s') m.
Proof. intros H H' s a s' HP Hrun. eauto. Qed.

(** Follows the code: binds, tests, matches, and known methods. *)
Ltac keeps_step :=
  lazymatch goal with
  | |- keeps _ _ (mret _) => apply keeps_ret; exact _
  | |- keeps _ _ panic => apply keeps_panic
  | |- keeps _ _ get => apply keeps_get; exact _
  | |- keeps _ _ (get_job _) => apply keeps_get_job; exact _
  | |- keeps _ _ (get_stage _ _) => apply keeps_get_stage; exact _
  | |- keeps _ _ (get_task _) => apply keeps_get_task; exact _
  | |- keeps _ _ (mret _ ≫= _) => apply keeps_ret_bind; cbn beta iota
  | |- keeps _ _ (_ ≫= _) => apply keeps_bind; [exact _|exact _| |intros ?]
  | |- keeps _ _ (iter _ _) => apply keeps_iter; [exact _|exact _|intros ?]
  | |- keeps _ _ (if ?b then _ else _) => destruct b
  | |- keeps _ _ (match ?x with _ => _ end) => destruct x
  | |- keeps _ _ (let '(_, _) := ?x in _) => destruct x
  end.
Ltac keeps_auto :=
  repeat (first [solve [eauto with keeps nocore] | keeps_step]).

(** ** Paths into jobs *)

Lemma mjoin_alter {A} (f : A → A) (l : list (option A)) i i' :
  mjoin (alter (fmap f) i l !! i') =
  if decide (i = i') then f <$> mjoin (l !! i') else mjoin (l !! i').
Proof.
  case_decide as Hi; subst.
  - rewrite list_lookup_alter_eq. by destruct (l !! i') as [[]|].
  - by rewrite list_lookup_alter_ne.
Qed.

Lemma job_stage_map_stage i f j i' :
  job_stage (map_stage i f j) i' =
  if decide (i = i') then f <$> job_stage j i' else job_stage j i'.
Proof. apply (mjoin_alter f). Qed.

Lemma job_task_map_stage i f j i' k' :
  (∀ st, s_Tasks (f st) = s_Tasks st) → job_task (map_stage i f j) i' k' = job_task j i' k'.
Proof.
  intros Hf. unfold job_task. rewrite job_stage_map_stage. case_decide; [|done].
  destruct (job_stage j i') as [st|]; simpl; [by rewrite Hf|done].
Qed.

Lemma job_task_map_task i k f j i' k' :
  job_task (map_task i k f j) i' k' =
  if decide (i = i' ∧ k = k') then f <$> job_task j i' k' else job_task j i' k'.
Proof.
  unfold map_task, job_task. rewrite job_stage_map_stage.
  destruct (decide (i = i')) as [->|]; [|by rewrite decide_False by tauto].
  destruct (job_stage j i') as [st|]; simpl; [|by case_decide].
  rewrite mjoin_alter. destruct (decide (k = k')) as [->|].
  - by rewrite decide_True.
  - by rewrite decide_False by tauto.
Qed.

Lemma j_ID_map_stage i f j : j_ID (map_stage i f j) = j_ID j.
Proof. done. Qed.
Lemma j_ID_map_task i k f j : j_ID (map_task i k f j) = j_ID j.
Proof. done. Qed.

(** ** Runs of the reading methods *)

Section Runs.
Context {St : Type}.

Lemma bind_Some {A B} (m : M St A) (f : A → M St B) s b s' :
  (m ≫= f) s = Some (b, s') ↔ ∃ a s1, m s = Some (a, s1) ∧ f a s1 = Some (b, s').
Proof.
  unfold mbind, M_bind. destruct (m s) as [[a s1]|] eqn:E; split; naive_solver.
Qed.

Lemma get_Some s a s' : (get : M St _) s = Some (a, s') ↔ a = s ∧ s' = s.
Proof. unfold get. naive_solver. Qed.

Lemma ret_Some {A} (x a : A) s s' : (mret x : M St A) s = Some (a, s') ↔ a = x ∧ s' = s.
Proof. unfold mret, M_ret. naive_solver. Qed.

Lemma get_job_Some l s j s' :
  (get_job l : M St _) s = Some (j, s') ↔ sc_heap s !! l = Some j ∧ s' = s.
Proof. unfold get_job. destruct (sc_heap s !! l); naive_solver. Qed.

Lemma get_task_Some r s t s' :
  (get_task r : M St _) s = Some (t, s') ↔
  ∃ j, sc_heap s !! tr_loc r = Some j ∧ job_task j (tr_stage r) (tr_task r) = Some t ∧ s' = s.
Proof.
  unfold get_task. rewrite bind_Some. split.
  - intros (j & s1 & [Hj ->]%get_job_Some & Ht). exists j.
    destruct (job_task j _ _) as [t'|]; [|done]. apply ret_Some in Ht as [-> ->]. done.
  - intros (j & Hj & Ht & ->). exists j, s. rewrite get_job_Some, Ht. done.
Qed.

Lemma update_job_Some l f s u s' :
  (update_job l f : M St _) s = Some (u, s') ↔
  ∃ j, sc_heap s !! l = Some j ∧ s' = set_heap (<[l := f j]> (sc_heap s)) s.
Proof. unfold update_job. destruct u. destruct (sc_heap s !! l); naive_solver. Qed.

Lemma update_task_Some r f s u s' :
  (update_task r f : M St _) s = Some (u, s') ↔
  ∃ j t, sc_heap s !! tr_loc r = Some j ∧ job_task j (tr_stage r) (tr_task r) = Some t ∧
    s' = set_heap (<[tr_loc r := map_task (tr_stage r) (tr_task r) f j]> (sc_heap s)) s.
Proof.
  unfold update_task. rewrite bind_Some. split.
  - intros (t & s1 & (j & Hj & Ht & ->)%get_task_Some & (j' & Hj' & ->)%update_job_Some).
    rewrite Hj in Hj'. simplify_eq. eauto.
  - intros (j & t & Hj & Ht & ->). exists t, s. rewrite get_task_Some, update_job_Some. eauto 10.
Qed.
End Runs.

(** ** Relations kept by execution

    A relation that the writes of the recording methods keep is kept by the
    recording methods (of jobs, [JobFrame]; of jobs and tasks, [RecordFrame]);
    one that the attempts of a task keep too is kept by the execution of a
    whole job ([ExecFrame]). *)

Section ExecFrames.
Context {St Tx : Type} `{!TransitionStoreI St Tx}.
Context (cfg : SchedulerConfig) (E : Env).

Class JobFrame (R : relation (Sched St)) := {
  #[global] rf_pre :: PreOrder R;
  rf_tick : keeps any R next_tick;
  rf_now : keeps any R (now E);
  rf_sequence id : keeps any R (nextSequenceIDWithContext id);
  rf_write_job record d :
    keeps any R (persistTransitionWrite E (tx_then (AppendTransition record) (UpsertJob d)));
  rf_job_state l st : keeps any R (update_job l (with_job_state st));
}.

Class RecordFrame (R : relation (Sched St)) := {
  #[global] rf_job_frame :: JobFrame R;
  rf_write_task record d snapshot :
    keeps any R (persistTransitionWrite E (tx_then (AppendTransition record)
      (tx_then (UpsertTask d) (upsert_snapshot snapshot))));
  rf_write_claim task nodeID attempt record snapshot :
    keeps any R (persistTransitionWrite E (claim_write E task nodeID attempt record snapshot));
  rf_task_state r st : keeps any R (update_task r (with_task_state st));
}.

(** For a relation that does not look at the store and the sequence counters. *)
Lemma RecordFrame_storeless (R : relation (Sched St)) :
  PreOrder R → keeps any R next_tick → keeps any R (now E) →
  (∀ st, keeps any R (modify (set_store st))) → (∀ m, keeps any R (modify (set_sequences m))) →
  (∀ l st, keeps any R (update_job l (with_job_state st))) →
  (∀ r st, keeps any R (update_task r (with_task_state st))) → RecordFrame R.
Proof.
  intros. split; [split|..]; intros; unfold nextSequenceIDWithContext, incr_sequence,
    persistTransitionWrite, ctx_Err; keeps_auto; auto.
Qed.

(** A relation implied by two kept ones. *)
Lemma RecordFrame_implied (R1 R2 R : relation (Sched St)) :
  RecordFrame R1 → RecordFrame R2 → PreOrder R → (∀ s s', R1 s s' → R2 s s' → R s s') →
  RecordFrame R.
Proof.
  intros F1 F2 HR Himp.
  assert (∀ A (m : M St A), keeps any R1 m → keeps any R2 m → keeps any R m) as H.
  { intros A m H1 H2 s a s' HP Hrun. eauto. }
  destruct F1 as [F1 F1a F1b F1c], F2 as [F2 F2a F2b F2c].
  split; [split; [done|..]|..]; intros; apply H; first [apply F1 | apply F2 | done].
Qed.

Section RecordJob.
Context (R : relation (Sched St)) `{!JobFrame R}.
#[local] Hint Resolve rf_tick rf_now rf_sequence rf_write_job rf_job_state : keeps.

Lemma rf_ctx_Err : keeps any R (ctx_Err E).
Proof. unfold ctx_Err. keeps_auto. Qed.
Lemma rf_recordJob l tr new summary : keeps any R (recordJobTransition E l tr new summary).
Proof. unfold recordJobTransition. keeps_auto. Qed.
#[local] Hint Resolve rf_recordJob : keeps.
Lemma rf_running id : keeps any R (recordJobRunningOnFirstDispatch E id).
Proof. unfold recordJobRunningOnFirstDispatch. keeps_auto. Qed.
End RecordJob.

Section Record.
Context (R : relation (Sched St)) `{!RecordFrame R}.
#[local] Hint Resolve rf_job_frame rf_now rf_sequence rf_write_task rf_write_claim rf_task_state
  rf_running : keeps.

Lemma rf_recordTask r tr new nodeID attempt summary :
  keeps any R (recordTaskTransition E r tr new nodeID attempt summary).
Proof. unfold recordTaskTransition, durableJobSnapshot. keeps_auto. Qed.
Lemma rf_claim r nodeID attempt : keeps any R (claimTaskDispatchTransition E r nodeID attempt).
Proof. unfold claimTaskDispatchTransition, durableJobSnapshot. keeps_auto. Qed.
End Record.

Class ExecFrame (R : relation (Sched St)) := {
  #[global] ef_record :: JobFrame R;
  ef_retry n attempt r node nodes : keeps any R (retry_loop cfg E n attempt r node nodes);
  ef_select r nodes : keeps any R (select_for cfg E r nodes);
  ef_stage_status l i st : keeps any R (update_stage l i (with_stage_status st));
  ef_job_status l st : keeps any R (update_job l (with_job_status st));
  ef_job_updated l t : keeps any R (update_job l (with_job_updated t));
  ef_jobs m : keeps any R (modify (set_jobs m));
}.

Section Exec.
Context (R : relation (Sched St)) `{!ExecFrame R}.
#[local] Hint Resolve ef_record rf_tick rf_now rf_ctx_Err rf_recordJob ef_retry ef_select ef_stage_status
  ef_job_status ef_job_updated ef_jobs : keeps.

Lemma ef_deferral polls ended_by r : keeps any R (deferral_loop cfg E polls ended_by r).
Proof.
  induction polls as [|polls IH]; cbn [deferral_loop]; unfold GetHealthyNodes; keeps_auto.
Qed.
#[local] Hint Resolve ef_deferral : keeps.
Lemma ef_goroutine nodes g errs : keeps any R (run_goroutine cfg E nodes g errs).
Proof. unfold run_goroutine, executeTaskWithRetry. keeps_auto. Qed.
#[local] Hint Resolve ef_goroutine : keeps.
Lemma ef_run_picked picks nodes pending errs :
  keeps any R (run_picked cfg E picks nodes pending errs).
Proof.
  revert pending errs. induction picks as [|p picks IH]; intros pending errs; cbn [run_picked];
    keeps_auto.
Qed.
#[local] Hint Resolve ef_run_picked : keeps.
Lemma ef_run_rest nodes pending errs : keeps any R (run_rest cfg E nodes pending errs).
Proof.
  revert errs. induction pending as [|g pending IH]; intros errs; cbn [run_rest]; keeps_auto.
Qed.
#[local] Hint Resolve ef_run_rest : keeps.
Lemma ef_start_tasks refs nodes pending errs :
  keeps any R (start_tasks cfg E refs nodes pending errs).
Proof.
  revert pending errs. induction refs as [|r refs IH]; intros pending errs; cbn [start_tasks];
    unfold selectNodeForTaskWithDeferral, run_some; keeps_auto.
Qed.
#[local] Hint Resolve ef_start_tasks : keeps.
Lemma ef_executeStage l i : keeps any R (executeStage cfg E l i).
Proof. unfold executeStage, GetHealthyNodes, run_some. keeps_auto. Qed.
#[local] Hint Resolve ef_executeStage : keeps.
Lemma ef_run_stages l stages : keeps any R (run_stages cfg E l stages).
Proof.
  induction stages as [|i stages IH]; cbn [run_stages]; unfold updateJobStatus; keeps_auto.
Qed.
#[local] Hint Resolve ef_run_stages : keeps.
Lemma ef_executeJob l : keeps any R (executeJob cfg E l).
Proof. unfold executeJob, updateJobStatus. keeps_auto. Qed.
End Exec.
End ExecFrames.
#[export] Hint Resolve rf_job_frame : keeps.
