(* ===== verification/Frames.v ===== *)
(** * Frames: what the scheduler's methods leave alone

    Relations between the states before and after a method that hold for every
    environment: executing a job does not touch the queue and the life-cycle
    flags ([frame]), the clock only moves forward ([clock_le]), reconciling as
    a follower writes nothing ([readonly]). *)

From stdpp Require Import base gmap strings list fin_maps.
From S2P Require Import Prelude StateMachine Store Replay Jobs Config Leadership Nodes Scheduler Lifecycle SchedLogic.

Open Scope Z_scope.

(** ** What execution leaves alone *)

Section Frame.
Context {St Tx : Type} `{!TransitionStoreI St Tx}.
Context (cfg : SchedulerConfig) (E : Env).

Record frame (s s' : Sched St) : Prop := {
  fr_next : sc_next s' = sc_next s;
  fr_queue : sc_queue s' = sc_queue s;
  fr_queued : sc_queuedJobs s' = sc_queuedJobs s;
  fr_pending : sc_pendingEnqueue s' = sc_pendingEnqueue s;
  fr_started : sc_started s' = sc_started s;
  fr_recovering : sc_recovering s' = sc_recovering s;
  fr_leadership : sc_leadership s' = sc_leadership s;
  fr_dom : ∀ l, is_Some (sc_heap s' !! l) ↔ is_Some (sc_heap s !! l);
}.

#[export] Instance frame_pre : PreOrder frame.
Proof.
  split; [by split|]. intros a b c [] []. split; try congruence. intros l. by rewrite fr_dom1.
Qed.

Lemma frame_heap l f (s : Sched St) j :
  sc_heap s !! l = Some j → frame s (set_heap (<[l := f j]> (sc_heap s)) s).
Proof.
  intros Hj. split; try done. intros l'. simpl. destruct (decide (l = l')) as [<-|].
  - rewrite lookup_insert_eq, Hj. split; eauto.
  - by rewrite lookup_insert_ne.
Qed.

Lemma frame_update_job l f : keeps any frame (update_job l f : M St unit).
Proof. apply keeps_update_job. intros s j _. apply frame_heap. Qed.
Lemma frame_update_stage l i f : keeps any frame (update_stage l i f : M St unit).
Proof. unfold update_stage. pose proof frame_update_job. keeps_auto. Qed.
Lemma frame_update_task r f : keeps any frame (update_task r f : M St unit).
Proof. unfold update_task. pose proof frame_update_job. keeps_auto. Qed.
Lemma frame_nodes {A} (m : ST NodeState A) : keeps any frame (on_nodes m : M St A).
Proof. apply keeps_on_nodes. by intros s _. Qed.
Lemma frame_tick : keeps any frame (next_tick : M St nat).
Proof. apply keeps_next_tick. by intros s _. Qed.
Lemma frame_store st : keeps any frame (modify (set_store st) : M St unit).
Proof. apply keeps_modify. by intros s _. Qed.
Lemma frame_sequences m : keeps any frame (modify (set_sequences m) : M St unit).
Proof. apply keeps_modify. by intros s _. Qed.
Lemma frame_set_jobs m : keeps any frame (modify (set_jobs m) : M St unit).
Proof. apply keeps_modify. by intros s _. Qed.
Lemma frame_event e : keeps any frame (modify (add_event e) : M St unit).
Proof. apply keeps_modify. by intros s _. Qed.
#[local] Hint Resolve frame_update_job frame_update_stage frame_update_task frame_nodes frame_tick
  frame_store frame_sequences frame_set_jobs frame_event : keeps.

Lemma frame_now : keeps any frame (now E : M St _).
Proof. unfold now. keeps_auto. Qed.
#[local] Hint Resolve frame_now : keeps.

#[export] Instance frame_RecordFrame : RecordFrame E frame.
Proof. apply RecordFrame_storeless; intros; [exact _|eauto with keeps nocore..]. Qed.
#[local] Hint Resolve frame_RecordFrame rf_recordJob rf_recordTask rf_claim : keeps.

Lemma frame_executeTask r node : keeps any frame (executeTask cfg E r node : M St _).
Proof. unfold executeTask, dispatchAuthority, ExecuteOnNode. keeps_auto. Qed.
#[local] Hint Resolve frame_executeTask : keeps.
Lemma frame_retry n attempt r node nodes :
  keeps any frame (retry_loop cfg E n attempt r node nodes : M St _).
Proof.
  revert attempt node. induction n as [|n IH]; intros attempt node; cbn [retry_loop];
    unfold select_for; keeps_auto.
Qed.

#[export] Instance frame_ExecFrame : ExecFrame cfg E frame.
Proof.
  split; intros; [exact _|apply frame_retry|unfold select_for; keeps_auto|eauto with keeps nocore..].
Qed.

Lemma frame_executeJob l : keeps any frame (executeJob cfg E l : M St _).
Proof. apply ef_executeJob. exact _. Qed.
Lemma frame_recordInitial l : keeps any frame (recordInitialTransitions E l : M St _).
Proof. unfold recordInitialTransitions, record_stage_created, record_created. keeps_auto. Qed.
End Frame.

(** ** The clock only moves forward *)

Section Clock.
Context {St Tx : Type} `{!TransitionStoreI St Tx}.
Context (cfg : SchedulerConfig) (E : Env).

Definition clock_le (s s' : Sched St) : Prop := (sc_tick s ≤ sc_tick s')%nat.

#[export] Instance clock_le_pre : PreOrder clock_le.
Proof.
  split; [intros s; unfold clock_le; lia|]. intros a b c. unfold clock_le. lia.
Qed.

Lemma replay_loop_clock ctx n id st l : (n ≤ (replay_loop ctx n id st l).2)%nat.
Proof.
  revert n st. induction l as [|r l IH]; intros n st; simpl; [done|].
  destruct (ctx n); [simpl; lia|]. destruct (replay_record id st r); [simpl; lia|].
  etrans; [|apply IH]. lia.
Qed.

Lemma ReplayJobState_clock ctx n (store : option St) id :
  (n ≤ (ReplayJobState ctx n store id).2)%nat.
Proof.
  unfold ReplayJobState, replayJobStateFromData. destruct store as [store|]; [|done].
  destruct (String.eqb id ""); [done|].
  destruct (ListTransitionsByJob store id) as [|trs]; [done|].
  destruct ListTasksByJob as [list_tasks|]; [|apply replay_loop_clock].
  destruct (list_tasks store id) as [|tks]; [done|apply replay_loop_clock].
Qed.

Lemma replay_jobs_clock ctx n (store : St) batches jobs :
  (n ≤ (replay_jobs ctx n store batches jobs).2)%nat.
Proof.
  revert n. induction jobs as [|job jobs IH]; intros n; simpl; [done|].
  destruct (ctx n); [simpl; lia|].
  assert (∀ (p : result ReplayedJobState * nat), (S n ≤ p.2)%nat →
    (n ≤ (let '(res, n1) := p in
      match res with
      | inl err => (inl (EReplayJob (dj_JobID job) err), n1)
      | inr replayed =>
          let '(res', n2) := replay_jobs ctx n1 store batches jobs in
          match res' with
          | inl err => (inl err, n2)
          | inr l => (inr (merge_listed_job job replayed :: l), n2)
          end
      end).2)%nat) as Hgen.
  { intros [[err|r] n1] Hn; simpl in *; [lia|]. specialize (IH n1).
    destruct (replay_jobs ctx n1 store batches jobs) as [[?|?] n2]; simpl in *; lia. }
  destruct batches as [[trs tks]|]; apply Hgen;
    [apply replay_loop_clock|apply (ReplayJobState_clock ctx (S n) (Some store))].
Qed.

Lemma ReplayStateFromStore_clock ctx n (store : option St) :
  (n ≤ (ReplayStateFromStore ctx n store).2)%nat.
Proof.
  unfold ReplayStateFromStore. destruct store as [store|]; [|done].
  destruct (ListUnfinishedJobs store) as [|jobs]; [done|].
  destruct (load_batches store jobs) as [|batches]; [done|].
  pose proof (replay_jobs_clock ctx n store batches jobs) as H.
  by destruct (replay_jobs ctx n store batches jobs) as [[?|?] n'].
Qed.

Lemma clock_job l f : keeps any clock_le (update_job l f : M St unit).
Proof. apply keeps_update_job. intros s j _ _. unfold clock_le, sc_tick. simpl. lia. Qed.
Lemma clock_stage l i f : keeps any clock_le (update_stage l i f : M St unit).
Proof. unfold update_stage. pose proof clock_job. keeps_auto. Qed.
Lemma clock_task r f : keeps any clock_le (update_task r f : M St unit).
Proof. unfold update_task. pose proof clock_job. keeps_auto. Qed.
Lemma clock_new j : keeps any clock_le (new_job j : M St _).
Proof. apply keeps_new_job. intros s _. unfold clock_le, sc_tick. simpl. lia. Qed.
Lemma clock_nodes {A} (m : ST NodeState A) : forward m → keeps any clock_le (on_nodes m : M St A).
Proof. intros Hm. apply keeps_on_nodes. intros s _. apply Hm. Qed.
Lemma clock_tick : keeps any clock_le (next_tick : M St nat).
Proof. apply keeps_next_tick. intros s _. unfold clock_le, sc_tick. simpl. lia. Qed.
Lemma clock_modify f : (∀ s, sc_nodes (f s) = sc_nodes s) → keeps any clock_le (modify f : M St unit).
Proof. intros Hf. apply keeps_modify. intros s _. unfold clock_le, sc_tick. rewrite Hf. lia. Qed.

Ltac clock_tac :=
  lazymatch goal with
  | |- keeps _ _ (on_nodes _) => apply clock_nodes; first
      [solve [eauto with forward nocore] | apply forward_time_Now]
  | |- keeps _ _ next_tick => apply clock_tick
  | |- keeps _ _ (now _) => apply clock_nodes, forward_time_Now
  | |- keeps _ _ (ctx_Err _) => unfold ctx_Err
  | |- keeps _ _ dispatchAuthority => unfold dispatchAuthority
  | |- keeps _ _ (GetHealthyNodes _) => unfold GetHealthyNodes
  | |- keeps _ _ (modify _) => by apply clock_modify
  | |- keeps _ _ (update_job _ _) => apply clock_job
  | |- keeps _ _ (update_stage _ _ _) => apply clock_stage
  | |- keeps _ _ (update_task _ _) => apply clock_task
  | |- keeps _ _ (new_job _) => apply clock_new
  end.
Ltac clock_auto := repeat (first [solve [eauto with keeps nocore] | clock_tac | keeps_step]).

#[export] Instance clock_RecordFrame : RecordFrame E clock_le.
Proof. apply RecordFrame_storeless; intros; [exact _|clock_auto..]. Qed.
#[local] Hint Resolve clock_RecordFrame rf_recordJob rf_recordTask rf_claim : keeps.
Lemma clock_retry n attempt r node nodes :
  keeps any clock_le (retry_loop cfg E n attempt r node nodes : M St _).
Proof.
  revert attempt node. induction n as [|n IH]; intros attempt node; cbn [retry_loop];
    unfold select_for, executeTask, ExecuteOnNode; clock_auto.
Qed.
#[export] Instance clock_ExecFrame : ExecFrame cfg E clock_le.
Proof. split; intros; [exact _|apply clock_retry|unfold select_for; clock_auto|clock_auto..]. Qed.
Lemma clock_executeJob l : keeps any clock_le (executeJob cfg E l : M St _).
Proof. apply ef_executeJob. exact _. Qed.
#[local] Hint Resolve clock_executeJob : keeps.
Lemma clock_enqueue l : keeps any clock_le (enqueueJobLocked cfg l : M St _).
Proof. unfold enqueueJobLocked. clock_auto. Qed.
#[local] Hint Resolve clock_enqueue : keeps.
Lemma clock_recordInitial l : keeps any clock_le (recordInitialTransitions E l : M St _).
Proof. unfold recordInitialTransitions, record_stage_created, record_created. clock_auto. Qed.
Lemma clock_replay_job id : keeps any clock_le (replay_job E id : M St _).
Proof.
  intros s a s' _. unfold replay_job. intros (? & ? & [-> ->]%get_Some & H)%bind_Some.
  pose proof (ReplayJobState_clock (env_ctx E) (sc_tick s) (sc_store s) id) as Hle.
  destruct (ReplayJobState _ _ _ _) as [res n].
  apply bind_Some in H as (? & ? & H1 & H2). apply ret_Some in H2 as [_ ->].
  injection H1 as <- <-. done.
Qed.
#[local] Hint Resolve clock_replay_job : keeps.
Lemma clock_seed id last trs : keeps any clock_le (seedJobSequenceLocked id last trs : M St _).
Proof. unfold seedJobSequenceLocked. clock_auto. Qed.
#[local] Hint Resolve clock_seed : keeps.
Lemma clock_refresh id : keeps any clock_le (refreshJobFromDurableState E id : M St _).
Proof. unfold refreshJobFromDurableState. clock_auto. Qed.
#[local] Hint Resolve clock_refresh : keeps.
Lemma clock_getJobPointer id : keeps any clock_le (getJobPointer E id : M St _).
Proof. unfold getJobPointer, insert_recovered. clock_auto. Qed.
Lemma clock_isExecutable l : keeps any clock_le (isExecutableDequeuedJob l : M St _).
Proof. unfold isExecutableDequeuedJob. clock_auto. Qed.
#[local] Hint Resolve clock_isExecutable : keeps.
Lemma clock_requeue l : keeps any clock_le (requeue_and_wait cfg E l : M St _).
Proof. unfold requeue_and_wait, requeueJob. clock_auto. Qed.
Lemma clock_fail d reason : keeps any clock_le (failDurableQueuedJobForReconcile E d reason : M St _).
Proof. unfold failDurableQueuedJobForReconcile, updateJobStatus, store_upsert_job. clock_auto. Qed.
#[local] Hint Resolve clock_fail : keeps.
Lemma clock_locked mode d r : keeps any clock_le (reconcile_locked cfg E mode d r : M St _).
Proof. unfold reconcile_locked, insert_recovered, updateJobStatus. clock_auto. Qed.
#[local] Hint Resolve clock_locked : keeps.
Lemma clock_reconcile_replay mode d : keeps any clock_le (reconcile_replay cfg E mode d : M St _).
Proof. unfold reconcile_replay, clearReplayQuarantine, setReplayQuarantine. clock_auto. Qed.
Lemma clock_reconcile_job mode d : keeps any clock_le (reconcile_job cfg E mode d : M St _).
Proof.
  unfold reconcile_job, reconcile_replay, replayQuarantineUntil, clearReplayQuarantine,
    setReplayQuarantine, tryEnqueueExistingQueuedJob. clock_auto.
Qed.
#[local] Hint Resolve clock_reconcile_job : keeps.
Lemma clock_reconcile_loop mode jobs : keeps any clock_le (reconcile_loop cfg E mode jobs : M St _).
Proof. induction jobs as [|d jobs IH]; cbn [reconcile_loop]; clock_auto. Qed.
#[local] Hint Resolve clock_reconcile_loop : keeps.
Lemma clock_recover_job r recovered : keeps any clock_le (recover_job E r recovered : M St _).
Proof. unfold recover_job, insert_recovered. clock_auto. Qed.
#[local] Hint Resolve clock_recover_job : keeps.
Lemma clock_recover_batch l processed recovered :
  keeps any clock_le (recover_batch E l processed recovered : M St _).
Proof.
  revert processed recovered. induction l as [|r l IH]; intros processed recovered;
    cbn [recover_batch]; clock_auto.
Qed.
#[local] Hint Resolve clock_recover_batch : keeps.
Lemma clock_recover_batches n l processed recovered :
  keeps any clock_le (recover_batches cfg E n l processed recovered : M St _).
Proof.
  revert l processed recovered. induction n as [|n IH]; intros l processed recovered;
    destruct l as [|r l]; cbn [recover_batches]; clock_auto.
Qed.
Lemma clock_resume recovered :
  keeps any clock_le (resumeRecoveredQueuedJobsLocked cfg recovered : M St _).
Proof. unfold resumeRecoveredQueuedJobsLocked, resume_recovered. clock_auto. Qed.
End Clock.

(** ** A follower only looks *)

Section Readonly.
Context {St Tx : Type} `{!TransitionStoreI St Tx}.
Context (cfg : SchedulerConfig) (E : Env).

(** The store, the queue and the executor are left alone. *)
Record readonly (s s' : Sched St) : Prop := {
  rd_store : sc_store s' = sc_store s;
  rd_queue : sc_queue s' = sc_queue s;
  rd_queued : sc_queuedJobs s' = sc_queuedJobs s;
  rd_pending : sc_pendingEnqueue s' = sc_pendingEnqueue s;
  rd_trace : sc_trace s' = sc_trace s;
}.

#[export] Instance readonly_pre : PreOrder readonly.
Proof. split; [by split|]. intros a b c [] []. split; congruence. Qed.

Lemma readonly_job l f : keeps any readonly (update_job l f : M St unit).
Proof. apply keeps_update_job. by intros s j _ _. Qed.
Lemma readonly_new j : keeps any readonly (new_job j : M St _).
Proof. apply keeps_new_job. by intros s _. Qed.
Lemma readonly_nodes {A} (m : ST NodeState A) : keeps any readonly (on_nodes m : M St A).
Proof. apply keeps_on_nodes. by intros s _. Qed.
Lemma readonly_tick : keeps any readonly (next_tick : M St nat).
Proof. apply keeps_next_tick. by intros s _. Qed.
Lemma readonly_modify f : (∀ s, readonly s (f s)) → keeps any readonly (modify f : M St unit).
Proof. intros Hf. apply keeps_modify. by intros s _. Qed.
Lemma readonly_replay id : keeps any readonly (replay_job E id : M St _).
Proof.
  intros s a s' _. unfold replay_job. intros (? & ? & [-> ->]%get_Some & H)%bind_Some.
  destruct (ReplayJobState _ _ _ _) as [res n].
  apply bind_Some in H as (? & ? & H1 & H2). apply ret_Some in H2 as [_ ->].
  by injection H1 as <- <-.
Qed.
#[local] Hint Resolve readonly_job readonly_new readonly_nodes readonly_tick readonly_replay : keeps.

Ltac readonly_auto :=
  repeat (first [solve [eauto with keeps nocore] | keeps_step |
                 lazymatch goal with |- keeps _ _ (modify _) =>
                   apply readonly_modify; intros ?; by split end]).

Lemma readonly_reconcile_job d :
  keeps any readonly (reconcile_job cfg E ReconcileModeFollower d : M St _).
Proof.
  unfold reconcile_job, reconcile_replay, reconcile_locked, insert_recovered, seedJobSequenceLocked,
    replayQuarantineUntil, clearReplayQuarantine, now. cbn [is_leader_mode negb andb].
  readonly_auto.
Qed.
#[local] Hint Resolve readonly_reconcile_job : keeps.
Lemma readonly_reconcile_loop jobs :
  keeps any readonly (reconcile_loop cfg E ReconcileModeFollower jobs : M St _).
Proof. induction jobs as [|d jobs IH]; cbn [reconcile_loop]; unfold ctx_Err; readonly_auto. Qed.
#[local] Hint Resolve readonly_reconcile_loop : keeps.
Lemma readonly_reconcile :
  keeps any readonly (reconcileDurableQueuedJobsOnce cfg E ReconcileModeFollower : M St _).
Proof. unfold reconcileDurableQueuedJobsOnce, now. readonly_auto. Qed.
End Readonly.
