(* ===== verification/Coherence.v ===== *)
(** * The durable log and the in-memory jobs agree

    The scheduler runs on the in-memory transition store here.  [coh] says that
    the durable history of every job the scheduler knows replays, and that it
    replays to the lifecycle states held in memory.  Every operation that
    records transitions keeps it, for every behaviour of the environment:
    cancelled contexts, failing executors, lost leadership, any order of the
    task goroutines. *)

From stdpp Require Import base gmap strings list fin_maps sorting.
From S2P Require Import Prelude StateMachine Store Replay Jobs Config Leadership Nodes Scheduler SchedLogic.

Open Scope Z_scope.

(** ** Histories that grow by one record *)

Definition job_last (l : list TransitionRecord) : string := last_from "" (job_states l).
Definition task_last (id : string) (l : list TransitionRecord) : string :=
  last_from "" (task_states id l).

Lemma legal_snoc can l x :
  legal_cur can "" l = true → Forall (λ s, s ≠ "") l →
  last_from "" l = "" ∨ can (last_from "" l) x = true →
  legal_cur can "" (l ++ [x]) = true.
Proof.
  intros Hl Hne Hx. destruct l as [|y l]; [done|].
  rewrite legal_cur_snoc; [|by right|done]. rewrite Hl. simpl.
  destruct Hx as [Hx|Hx]; [|done]. exfalso.
  destruct (last_from_elem "" (y :: l)) as [E|E].
  - clear Hl Hx. assert (∀ a, Forall (λ s, s ≠ "") l → a ≠ "" → last_from a l ≠ "") as Hlast.
    { clear. induction l as [|z l IH]; intros a Hall Ha; [done|].
      inversion_clear Hall. by apply (IH z). }
    inversion_clear Hne. by apply (Hlast y) in E.
  - rewrite Hx in E. rewrite Forall_forall in Hne. by apply Hne in E.
Qed.

Lemma history_nonempty id l (p : TransitionRecord → bool) :
  history_ok id l → Forall (λ s, s ≠ "") (tr_NewState <$> filter p l).
Proof.
  intros [Hl _]. apply Forall_fmap. apply Forall_forall. intros r [_ Hr]%list_elem_of_filter.
  rewrite Forall_forall in Hl. apply Hl in Hr as [Hv _]. by apply wf_NewState_nonempty.
Qed.

Lemma is_record_cases r :
  Validate r = None →
  (is_job_record r = true ∧ ∀ id, is_task_record id r = false) ∨
  (is_job_record r = false ∧ ∀ id, is_task_record id r = String.eqb (tr_TaskID r) id).
Proof.
  intros (_ & _ & _ & _ & [(Et & _)|(Et & _)])%Validate_spec; [left|right];
    unfold is_job_record, is_task_record; rewrite Et; by split.
Qed.

Lemma job_states_snoc l r :
  job_states (l ++ [r]) = job_states l ++ (if is_job_record r then [tr_NewState r] else []).
Proof. by rewrite job_states_app, job_states_cons, app_nil_r. Qed.

Lemma task_states_snoc id l r :
  task_states id (l ++ [r]) =
  task_states id l ++ (if is_task_record id r then [tr_NewState r] else []).
Proof. by rewrite task_states_app, task_states_cons, app_nil_r. Qed.

(** Appending a legal record of the job. *)
Lemma history_snoc id l r :
  history_ok id l → Validate r = None → tr_JobID r = id →
  (is_job_record r = true →
     job_last l = "" ∨ CanTransitionJobState (job_last l) (tr_NewState r) = true) →
  (is_job_record r = false →
     task_last (tr_TaskID r) l = "" ∨
     CanTransitionTaskState (task_last (tr_TaskID r) l) (tr_NewState r) = true) →
  history_ok id (l ++ [r]).
Proof.
  intros Hok Hv Hid Hj Ht. pose proof Hok as (H1 & H2 & H3).
  split; [by apply Forall_app; split; [|by repeat constructor]|].
  rewrite job_states_snoc. setoid_rewrite task_states_snoc.
  destruct (is_record_cases r Hv) as [[Ej Et]|[Ej Et]]; rewrite Ej; setoid_rewrite Et.
  - split; [apply legal_snoc; auto; by apply (history_nonempty id l)|].
    intros id'. by rewrite app_nil_r.
  - rewrite app_nil_r. split; [done|]. intros id'. simp_if; [|by rewrite app_nil_r].
    apply String.eqb_eq in Heqb as <-.
    apply legal_snoc; auto. by apply (history_nonempty id l).
Qed.

(** ** Agreement of a history with a job *)

(** A task agrees with the history of job [id] when its last recorded state, if
    there is one, is its state in memory; tasks without a job id are never
    recorded. *)
Definition task_view (id : string) (l : list TransitionRecord) (t : Task) : Prop :=
  (t_JobID t = id ∧ (task_last (t_ID t) l = "" ∨ task_last (t_ID t) l = t_LifecycleState t)) ∨
  (t_JobID t = "" ∧ task_last (t_ID t) l = "").

(** Task ids name positions in the job. *)
Definition distinct_tasks (j : Job) : Prop :=
  ∀ i k t i' k' t', job_task j i k = Some t → job_task j i' k' = Some t' →
    t_ID t = t_ID t' → i = i' ∧ k = k'.

Record job_view (id : string) (l : list TransitionRecord) (j : Job) : Prop := {
  jv_id : j_ID j = id;
  jv_history : history_ok id l;
  jv_state : job_last l = "" ∨ job_last l = j_LifecycleState j;
  jv_tasks : ∀ i k t, job_task j i k = Some t → task_view id l t;
  jv_distinct : distinct_tasks j;
}.

Lemma distinct_map_task i k f j :
  (∀ t, t_ID (f t) = t_ID t) → distinct_tasks j → distinct_tasks (map_task i k f j).
Proof.
  intros Hf Hd i1 k1 t1 i2 k2 t2. rewrite !job_task_map_task.
  assert (∀ i' k' t', (if decide (i = i' ∧ k = k') then f <$> job_task j i' k'
                       else job_task j i' k') = Some t' →
    ∃ t0, job_task j i' k' = Some t0 ∧ t_ID t0 = t_ID t') as Hback.
  { intros i' k' t'. case_decide; [|naive_solver].
    destruct (job_task j i' k') as [t0|]; simpl; intros [= <-]. eauto. }
  intros (u1 & H1 & E1)%Hback (u2 & H2 & E2)%Hback Heq.
  eapply Hd; [done..|]. congruence.
Qed.

(** What a job shows to the store. *)
Definition task_shape (t : Task) : string * string * string :=
  (t_ID t, t_JobID t, t_LifecycleState t).

Record same_shape (j j' : Job) : Prop := {
  ss_id : j_ID j' = j_ID j;
  ss_state : j_LifecycleState j' = j_LifecycleState j;
  ss_tasks : ∀ i k, task_shape <$> job_task j' i k = task_shape <$> job_task j i k;
}.

Lemma job_view_same_shape id l j j' : same_shape j j' → job_view id l j → job_view id l j'.
Proof.
  intros [Hid Hst Hts] [V1 V2 V3 V4 V5].
  assert (∀ i k t', job_task j' i k = Some t' →
    ∃ t, job_task j i k = Some t ∧ task_shape t = task_shape t') as Hback.
  { intros i k t' Ht'. specialize (Hts i k). rewrite Ht' in Hts.
    destruct (job_task j i k) as [t|]; [|done]. exists t. split; [done|].
    simpl in Hts. congruence. }
  split; [congruence|done|congruence| |].
  - intros i k t' (t & Ht & [= E1 E2 E3])%Hback. apply V4 in Ht.
    unfold task_view in *. by rewrite <-E1, <-E2, <-E3.
  - intros i k t1 i' k' t2 (u1 & H1 & [= E1 _ _])%Hback (u2 & H2 & [= E2 _ _])%Hback Heq.
    eapply V5; [done..|]. congruence.
Qed.

Lemma same_shape_map_stage i f j :
  (∀ st, s_Tasks (f st) = s_Tasks st) → same_shape j (map_stage i f j).
Proof. intros Hf. split; [done..|]. intros. by rewrite job_task_map_stage. Qed.

Lemma same_shape_map_task i k f j :
  (∀ t, task_shape (f t) = task_shape t) → same_shape j (map_task i k f j).
Proof.
  intros Hf. split; [done..|]. intros i' k'. rewrite job_task_map_task.
  case_decide; [|done]. destruct (job_task j i' k') as [t|]; simpl; [by rewrite Hf|done].
Qed.

Lemma task_last_snoc id l r :
  task_last id (l ++ [r]) = if is_task_record id r then tr_NewState r else task_last id l.
Proof.
  unfold task_last. rewrite task_states_snoc. destruct (is_task_record id r).
  - apply last_from_snoc.
  - by rewrite app_nil_r.
Qed.

Lemma job_last_snoc l r :
  job_last (l ++ [r]) = if is_job_record r then tr_NewState r else job_last l.
Proof.
  unfold job_last. rewrite job_states_snoc. destruct (is_job_record r).
  - apply last_from_snoc.
  - by rewrite app_nil_r.
Qed.

(** A recorded job transition. *)
Lemma job_view_job_record id l j r :
  job_view id l j → Validate r = None → tr_JobID r = id → is_job_record r = true →
  j_LifecycleState j = "" ∨ CanTransitionJobState (j_LifecycleState j) (tr_NewState r) = true →
  job_view id (l ++ [r]) (with_job_state (tr_NewState r) j).
Proof.
  intros [V1 V2 V3 V4 V5] Hv Hid Hj Hcan.
  assert (∀ id, is_task_record id r = false) as Ht
    by (destruct (is_record_cases r Hv) as [[_ ?]|[? _]]; [done|congruence]).
  split; [done| | | |done].
  - apply history_snoc; [done..| |by rewrite Hj]. intros _.
    destruct V3 as [->| ->]; [by left|]. destruct Hcan as [->|?]; auto.
  - right. by rewrite job_last_snoc, Hj.
  - intros i k t Hin. specialize (V4 i k t Hin). unfold task_view in *.
    by rewrite task_last_snoc, Ht.
Qed.

(** A recorded task transition. *)
Lemma job_view_task_record id l j i k t r :
  job_view id l j → job_task j i k = Some t → t_JobID t = id → id ≠ "" →
  Validate r = None → tr_JobID r = id → is_job_record r = false → tr_TaskID r = t_ID t →
  t_LifecycleState t = "" ∨ CanTransitionTaskState (t_LifecycleState t) (tr_NewState r) = true →
  job_view id (l ++ [r]) (map_task i k (with_task_state (tr_NewState r)) j).
Proof.
  intros [V1 V2 V3 V4 V5] Hin Htid Hne Hv Hid Hj Htask Hcan.
  assert (∀ id, is_task_record id r = String.eqb (tr_TaskID r) id) as Ht
    by (destruct (is_record_cases r Hv) as [[? _]|[_ ?]]; [congruence|done]).
  split; [done| | | |].
  - apply history_snoc; [done..|by rewrite Hj|]. intros _. rewrite Htask.
    destruct (V4 i k t Hin) as [[_ [-> | ->]]|[? _]]; [by left| |congruence].
    destruct Hcan as [->|?]; auto.
  - by rewrite job_last_snoc, Hj.
  - intros i' k' t'. rewrite job_task_map_task. case_decide as Hd.
    + destruct Hd as [-> ->]. rewrite Hin. intros [= <-]. left. split; [done|]. right.
      rewrite task_last_snoc, Ht. simpl. by rewrite Htask, String.eqb_refl.
    + intros Ht'. specialize (V4 i' k' t' Ht'). unfold task_view in *.
      rewrite task_last_snoc, Ht, Htask.
      destruct (String.eqb_spec (t_ID t) (t_ID t')) as [E|]; [|done].
      exfalso. apply Hd. by eapply (V5 i k t i' k' t').
  - by apply distinct_map_task.
Qed.

(** ** Effects of the write callbacks on the log *)

(** The sequence ids of the job index grow up to [n] at most. *)
Definition index_le (n : N) (st st' : MemStore) : Prop :=
  ∀ m, (n ≤ m)%N → map_Forall (λ _ d, (dj_LastSequenceID d ≤ m)%N) (ms_jobs st) →
       map_Forall (λ _ d, (dj_LastSequenceID d ≤ m)%N) (ms_jobs st').

(** [log_step st st' r]: [st'] is [st] with [r] added to the log of its job. *)
Record log_step (st st' : MemStore) (r : TransitionRecord) : Prop := {
  ls_wf : store_wf st → store_wf st';
  ls_valid : Validate r = None;
  ls_log : ∀ id, job_log st' id =
    if String.eqb (tr_JobID r) id then go_sort Mem.seq_less (job_log st id ++ [r])
    else job_log st id;
  ls_index : index_le (tr_SequenceID r) st st';
}.

Lemma AppendTransition_step r st st' :
  AppendTransition r st = (None, st') → log_step st st' r.
Proof.
  intros H. simpl in H.
  assert (Validate r = None) as Hv.
  { destruct (Validate r) eqn:Hv; [|done]. by rewrite (AppendTransition_invalid r st e Hv) in H. }
  assert (st' = (Mem.AppendTransition r st).2) as -> by (by rewrite H).
  split; [auto with dagens|done| |].
  - intros id. destruct (String.eqb_spec (tr_JobID r) id) as [<-|].
    + by apply AppendTransition_log.
    + by apply AppendTransition_log_other.
  - intros m Hm Hall. unfold Mem.AppendTransition. rewrite Hv. simpl.
    destruct (ms_jobs st !! tr_JobID r); [|done]. simp_if; [|done].
    by apply map_Forall_insert_2.
Qed.

(** The log and well-formedness do not see the index upserts. *)
Record log_same (n : N) (st st' : MemStore) : Prop := {
  lm_wf : store_wf st → store_wf st';
  lm_log : ∀ id, job_log st' id = job_log st id;
  lm_index : index_le n st st';
}.

Lemma log_step_then st st1 st' r :
  log_step st st1 r → log_same (tr_SequenceID r) st1 st' → log_step st st' r.
Proof.
  intros [] [? Hl ?]. split; [auto|done| |].
  - intros. by rewrite Hl.
  - intros m Hm Hall. eauto.
Qed.
Lemma log_step_after st st1 st' r :
  log_same (tr_SequenceID r) st st1 → log_step st1 st' r → log_step st st' r.
Proof.
  intros [? Hl ?] []. split; [auto|done| |].
  - intros. by rewrite ls_log0, Hl.
  - intros m Hm Hall. eauto.
Qed.

Lemma UpsertJob_same n d st st' :
  UpsertJob d st = (None, st') → (dj_LastSequenceID d ≤ n)%N → log_same n st st'.
Proof.
  intros [= <-] Hn. split; [apply UpsertJob_wf|done|].
  intros m Hm Hall. simpl. apply map_Forall_insert_2; [|done].
  destruct (ms_jobs st !! dj_JobID d) as [d0|] eqn:E; [|lia].
  simp_if; simpl; [by apply Hall in E|lia].
Qed.
Lemma UpsertTask_same n d st st' : UpsertTask d st = (None, st') → log_same n st st'.
Proof. intros [= <-]. split; [apply UpsertTask_wf|done|]. by intros m Hm Hall. Qed.

(** The snapshots that go with a write carry its sequence id. *)
Definition snapshot_le (n : N) (snap : option DurableJobRecord) : Prop :=
  ∀ d, snap = Some d → (dj_LastSequenceID d ≤ n)%N.

Lemma upsert_snapshot_same n snap st st' :
  upsert_snapshot snap st = (None, st') → snapshot_le n snap → log_same n st st'.
Proof.
  intros H Hn. destruct snap as [d|]; [by eapply UpsertJob_same, Hn|].
  unfold upsert_snapshot, tx_ok in H. simplify_eq. split; [done..|by intros m ?].
Qed.

Lemma Claim_same n c st : log_same n st (Mem.ClaimTaskDispatch c st).2.
Proof.
  split; [apply ClaimTaskDispatch_wf|..].
  - intros id. unfold Mem.ClaimTaskDispatch.
    simp_if; [done|]. destruct (ms_tasks st !! cl_TaskID c); [by simp_if|done].
  - intros m _ Hall. unfold Mem.ClaimTaskDispatch.
    simp_if; [done|]. destruct (ms_tasks st !! cl_TaskID c); [by simp_if|done].
Qed.

Lemma tx_then_None {f g : MemStore → option error * MemStore} {st st'} :
  tx_then f g st = (None, st') → ∃ st1, f st = (None, st1) ∧ g st1 = (None, st').
Proof. unfold tx_then. destruct (f st) as [[]]; [done|eauto]. Qed.

Lemma job_write_step r d st st' :
  tx_then (AppendTransition r) (UpsertJob d) st = (None, st') →
  dj_LastSequenceID d = tr_SequenceID r → log_step st st' r.
Proof.
  intros (st1 & H1 & H2)%tx_then_None Hd.
  eapply log_step_then; [by apply AppendTransition_step|]. eapply UpsertJob_same; [done|lia].
Qed.

Lemma task_write_step r d snap st st' :
  tx_then (AppendTransition r) (tx_then (UpsertTask d) (upsert_snapshot snap)) st = (None, st') →
  snapshot_le (tr_SequenceID r) snap → log_step st st' r.
Proof.
  intros (st1 & H1 & (st2 & H2 & H3)%tx_then_None)%tx_then_None Hsnap.
  eapply log_step_then; [eapply log_step_then|].
  - by apply AppendTransition_step.
  - by eapply UpsertTask_same.
  - by eapply upsert_snapshot_same.
Qed.

Lemma claim_write_step E task nodeID attempt r snap st st' :
  claim_write E task nodeID attempt r snap st = (None, st') →
  snapshot_le (tr_SequenceID r) snap → log_step st st' r.
Proof.
  intros H Hsnap. unfold claim_write in H. simpl in H.
  pose proof (Claim_same (tr_SequenceID r) (mkClaim (t_ID task) (t_JobID task) (t_StageID task)
    nodeID attempt (tr_OccurredAt r)) st) as Hsame.
  destruct (Mem.ClaimTaskDispatch _ st) as [[err|[]] st1]; [done| |done].
  apply tx_then_None in H as (st2 & H1 & H2). eapply log_step_after; [exact Hsame|].
  eapply log_step_then; [by apply AppendTransition_step|by eapply upsert_snapshot_same].
Qed.

(** ** The invariant *)

Section Invariant.
Context (B : N).

Definition seqn (s : Sched MemStore) (id : string) : N := map_get 0%N (sc_jobSequences s) id.

(** No counter can exceed this bound: [B] bounds the counters at the start, and
    the clock is read between any two allocations. *)
Definition bound (s : Sched MemStore) : N := (B + N.of_nat (sc_tick s))%N.

Record coh_store (s : Sched MemStore) (st : MemStore) : Prop := {
  co_wf : store_wf st;
  co_log_bound : ∀ id, Forall (λ r, (tr_SequenceID r ≤ bound s)%N) (job_log st id);
  co_seq_bound : ∀ id, (seqn s id ≤ bound s)%N;
  co_index_bound : map_Forall (λ _ d, (dj_LastSequenceID d ≤ bound s)%N) (ms_jobs st);
  co_seq : ∀ id, is_Some (sc_jobs s !! id) →
    Forall (λ r, (tr_SequenceID r ≤ seqn s id)%N) (job_log st id);
  co_view : ∀ id l, sc_jobs s !! id = Some l →
    ∃ j, sc_heap s !! l = Some j ∧ job_view id (job_log st id) j;
}.

Definition coh (s : Sched MemStore) : Prop :=
  match sc_store s with Some st => coh_store s st | None => True end.

(** What the execution of a job does to the rest of the state. *)
Record exec_step (s s' : Sched MemStore) : Prop := {
  ex_tick : (sc_tick s ≤ sc_tick s')%nat;
  ex_jobs : sc_jobs s' = sc_jobs s;
  ex_ids : ∀ l j, sc_heap s !! l = Some j → ∃ j', sc_heap s' !! l = Some j' ∧ j_ID j' = j_ID j;
  ex_coh : (bound s' < u64_modulus)%N → coh s → coh s';
}.

#[export] Instance exec_step_pre : PreOrder exec_step.
Proof.
  split; [by split; eauto|]. intros a b c [T1 J1 I1 C1] [T2 J2 I2 C2]. split.
  - lia.
  - congruence.
  - intros l j (j' & Hj' & <-)%I1. eauto.
  - intros Hb Ha. apply C2; [done|]. apply C1; [|done]. unfold bound in *. lia.
Qed.

(** The scheduler's own pointer of a job. *)
Definition current (l : loc) (s : Sched MemStore) : Prop :=
  ∃ j, sc_heap s !! l = Some j ∧ sc_jobs s !! j_ID j = Some l.
Definition jobs_ok (s : Sched MemStore) : Prop :=
  ∀ id l, sc_jobs s !! id = Some l → ∃ j, sc_heap s !! l = Some j ∧ j_ID j = id.

#[export] Instance current_stable l : Stable (current l) exec_step.
Proof.
  intros s s' (j & Hj & Hl) Hs. destruct (ex_ids _ _ Hs _ _ Hj) as (j' & Hj' & Hid).
  exists j'. by rewrite Hid, (ex_jobs _ _ Hs).
Qed.
#[export] Instance jobs_ok_stable : Stable jobs_ok exec_step.
Proof.
  intros s s' Hok Hs id l Hl. rewrite (ex_jobs _ _ Hs) in Hl.
  destruct (Hok id l Hl) as (j & Hj & <-). apply (ex_ids _ _ Hs _ _ Hj).
Qed.

(** Moving the clock forward, and nothing else that the invariant sees. *)
Record quiet (s s' : Sched MemStore) : Prop := {
  qu_tick : (sc_tick s ≤ sc_tick s')%nat;
  qu_jobs : sc_jobs s' = sc_jobs s;
  qu_heap : ∀ l j, sc_heap s !! l = Some j → ∃ j', sc_heap s' !! l = Some j' ∧ same_shape j j';
  qu_store : sc_store s' = sc_store s;
  qu_seq : sc_jobSequences s' = sc_jobSequences s;
}.

Lemma quiet_exec s s' : quiet s s' → exec_step s s'.
Proof.
  intros [Ht Hj Hh Hst Hseq]. split; [done..| |].
  - intros l j (j' & Hj' & [])%Hh. eauto.
  - intros _. unfold coh. rewrite Hst. destruct (sc_store s) as [st|]; [|done].
    assert (bound s ≤ bound s')%N as Hb by (unfold bound; lia).
    assert (∀ id, seqn s' id = seqn s id) as Hsq by (intros; unfold seqn; by rewrite Hseq).
    intros [C1 C2 C3 CI C4 C5]. split; [done|..].
    + intros id. eapply Forall_impl; [apply C2|]. simpl. lia.
    + intros id. rewrite Hsq. specialize (C3 id). lia.
    + eapply map_Forall_impl; [exact CI|]. simpl. lia.
    + intros id. rewrite Hj, Hsq. apply C4.
    + intros id l. rewrite Hj. intros (j & Hl & Hv)%C5.
      destruct (Hh l j Hl) as (j' & Hl' & Hss). eauto using job_view_same_shape.
Qed.
End Invariant.

(** ** Recording a transition *)

Section Writes.
Context (cfg : SchedulerConfig) (E : Env) (B : N).

Definition bump (s : Sched MemStore) : Sched MemStore :=
  set_nodes (set_tick (S (sc_tick s)) (sc_nodes s)) s.
Definition alloc (id : string) (s : Sched MemStore) : Sched MemStore :=
  set_sequences (<[id := u64_incr (seqn s id)]> (sc_jobSequences s)) s.

Lemma run_alloc id (s : Sched MemStore) :
  nextSequenceIDWithContext id s = Some (inr (u64_incr (seqn s id)), alloc id s).
Proof. unfold nextSequenceIDWithContext. simpl. by destruct s as [???????]; destruct sc_store. Qed.

Lemma run_now (s : Sched MemStore) : now E s = Some (env_now E (sc_tick s), bump s).
Proof. done. Qed.

Lemma run_persist st fn (s : Sched MemStore) :
  sc_store s = Some st →
  persistTransitionWrite E fn s =
  Some ((Mem.WithTx st (env_ctx E (sc_tick s)) fn).1,
        set_store (Some (Mem.WithTx st (env_ctx E (sc_tick s)) fn).2) (bump s)).
Proof.
  intros Hst. unfold persistTransitionWrite. unfold mbind, M_bind, get. rewrite Hst. simpl.
  by destruct (Mem.WithTx _ _ _).
Qed.

Lemma WithTx_outcome st ctx fn :
  (Mem.WithTx st ctx fn).2 = st ∨
  ((Mem.WithTx st ctx fn).1 = None ∧ fn st = (None, (Mem.WithTx st ctx fn).2)).
Proof.
  destruct ctx as [err|]; [by left|]. rewrite WithTx_spec.
  destruct (fn st) as [[err|] st'] eqn:Ef; [by left|by right].
Qed.

Lemma WithTx_failed st ctx fn err :
  (Mem.WithTx st ctx fn).1 = Some err → (Mem.WithTx st ctx fn).2 = st.
Proof.
  intros H. destruct (Mem.WithTx st ctx fn) as [e st'] eqn:Ew. simpl in *. subst e.
  by eapply WithTx_error.
Qed.

Lemma WithTx_done st ctx fn :
  (Mem.WithTx st ctx fn).1 = None → fn st = (None, (Mem.WithTx st ctx fn).2).
Proof.
  destruct ctx as [err|]; [done|]. rewrite WithTx_spec. by destruct (fn st) as [[err|] st'].
Qed.

Lemma go_sort_append l r :
  seq_sorted l → Forall (λ r', (tr_SequenceID r' ≤ tr_SequenceID r)%N) l →
  go_sort Mem.seq_less (l ++ [r]) = l ++ [r].
Proof.
  intros Hs Hle. rewrite go_sort_snoc, go_sort_id by done. apply sort_insert_last.
  eapply Forall_impl; [exact Hle|]. intros r' Hr'. by apply N.ltb_ge.
Qed.

Lemma seqn_alloc id id' s :
  seqn (alloc id s) id' = if String.eqb id id' then u64_incr (seqn s id) else seqn s id'.
Proof.
  unfold seqn, alloc, map_get. simpl. destruct (String.eqb_spec id id') as [<-|].
  - by rewrite lookup_insert_eq.
  - by rewrite lookup_insert_ne.
Qed.

(** An allocated sequence id, whether or not it ends up in the log. *)
Record allocated (id : string) (s s' : Sched MemStore) : Prop := {
  al_tick : (sc_tick s < sc_tick s')%nat;
  al_jobs : sc_jobs s' = sc_jobs s;
  al_seq : sc_jobSequences s' = sc_jobSequences (alloc id s);
}.

Lemma allocated_seqn id s s' :
  allocated id s s' → ∀ id', seqn s' id' = if String.eqb id id' then u64_incr (seqn s id)
                                           else seqn s id'.
Proof. intros [_ _ Hseq] id'. rewrite <-seqn_alloc. unfold seqn. by rewrite Hseq. Qed.

Lemma allocated_bounds id s s' :
  allocated id s s' → (bound B s' < u64_modulus)%N → (∀ id, (seqn s id ≤ bound B s)%N) →
  u64_incr (seqn s id) = (seqn s id + 1)%N ∧ (bound B s < bound B s')%N ∧
  ∀ id', (seqn s' id' ≤ bound B s')%N ∧ (seqn s id' ≤ seqn s' id')%N.
Proof.
  intros Hal Hb Hs. pose proof (allocated_seqn id s s' Hal) as Hsq. destruct Hal as [Ht _ _].
  unfold bound in *. pose proof (Hs id).
  assert (u64_incr (seqn s id) = (seqn s id + 1)%N) as Hu by (apply u64_incr_lt; lia).
  split; [done|]. split; [lia|]. intros id'. rewrite Hsq. pose proof (Hs id').
  destruct (String.eqb_spec id id') as [<-|]; lia.
Qed.

Lemma skipped_exec id s s' :
  allocated id s s' → sc_heap s' = sc_heap s → sc_store s' = sc_store s → exec_step B s s'.
Proof.
  intros Hal Hh Hst. split; [destruct Hal; lia|apply Hal|rewrite Hh; eauto|].
  intros Hb. unfold coh. rewrite Hst. destruct (sc_store s) as [st|]; [|done].
  intros [C1 C2 C3 CI C4 C5].
  destruct (allocated_bounds id s s' Hal Hb C3) as (Hu & Hbb & Hseq). split; [done|..].
  - intros id'. eapply Forall_impl; [apply C2|]. simpl. lia.
  - intros id'. apply Hseq.
  - eapply map_Forall_impl; [exact CI|]. simpl. lia.
  - intros id'. rewrite (al_jobs _ _ _ Hal). intros Hj.
    eapply Forall_impl; [by apply C4|]. simpl. pose proof (Hseq id'). lia.
  - intros id' l. rewrite (al_jobs _ _ _ Hal), Hh. apply C5.
Qed.

Lemma written_exec id l s s' st st' j j' r :
  allocated id s s' → sc_store s = Some st → sc_store s' = Some st' →
  sc_heap s !! l = Some j → sc_jobs s !! id = Some l → sc_heap s' = <[l := j']> (sc_heap s) →
  j_ID j = id → j_ID j' = id → tr_JobID r = id → tr_SequenceID r = u64_incr (seqn s id) →
  log_step st st' r →
  (job_view id (job_log st id) j → job_view id (job_log st id ++ [r]) j') →
  exec_step B s s'.
Proof.
  intros Hal Hst Hst' Hj Hl Hh Hid Hid' Hr Hseqr [Lwf Lv Llog Lidx] Hview.
  split; [destruct Hal; lia|apply Hal| |].
  { intros l0 j0 Hj0. rewrite Hh. destruct (decide (l = l0)) as [<-|].
    - rewrite lookup_insert_eq. eexists. split; [done|]. congruence.
    - rewrite lookup_insert_ne by done. eauto. }
  intros Hb. unfold coh. rewrite Hst, Hst'. intros [C1 C2 C3 CI C4 C5].
  destruct (allocated_bounds id s s' Hal Hb C3) as (Hu & Hbb & Hseq).
  assert (Forall (λ r', (tr_SequenceID r' ≤ seqn s id)%N) (job_log st id)) as Hle by (apply C4; eauto).
  assert (job_log st' id = job_log st id ++ [r]) as Hlog.
  { rewrite Llog, Hr, String.eqb_refl. apply go_sort_append; [by apply store_wf_log|].
    eapply Forall_impl; [exact Hle|]. simpl. lia. }
  assert (∀ id', id' ≠ id → job_log st' id' = job_log st id') as Hother.
  { intros id' Hne. rewrite Llog, Hr. destruct (String.eqb_spec id id'); congruence. }
  assert (tr_SequenceID r = seqn s' id) as Hrs
    by (by rewrite (allocated_seqn id s s' Hal), String.eqb_refl).
  split; [auto|..].
  - intros id'. destruct (decide (id' = id)) as [->|Hne].
    + rewrite Hlog. apply Forall_app. split; [eapply Forall_impl; [apply C2|simpl; lia]|].
      constructor; [|done]. rewrite Hrs. apply Hseq.
    + rewrite Hother by done. eapply Forall_impl; [apply C2|simpl; lia].
  - intros id'. apply Hseq.
  - apply Lidx; [rewrite Hrs; apply Hseq|]. eapply map_Forall_impl; [exact CI|]. simpl. lia.
  - intros id'. rewrite (al_jobs _ _ _ Hal). intros Hj'.
    assert (Forall (λ r, (tr_SequenceID r ≤ seqn s' id')%N) (job_log st id')) as Hl'.
    { eapply Forall_impl; [by apply C4|]. simpl. pose proof (Hseq id'). lia. }
    destruct (decide (id' = id)) as [->|Hne]; [|by rewrite Hother].
    rewrite Hlog. apply Forall_app. split; [done|]. constructor; [lia|done].
  - intros id' l'. rewrite (al_jobs _ _ _ Hal), Hh. intros Hl'.
    destruct (decide (id' = id)) as [->|Hne].
    + destruct (C5 _ _ Hl') as (j1 & Hj1 & Hv). simplify_eq.
      exists j'. rewrite lookup_insert_eq, Hlog. auto.
    + destruct (C5 _ _ Hl') as (j1 & Hj1 & Hv). exists j1. rewrite Hother by done.
      split; [|done]. rewrite lookup_insert_ne; [done|]. intros <-.
      apply Hne. destruct Hv. congruence.
Qed.

Ltac allocated_tac := solve [split; [unfold bump, alloc, sc_tick; simpl; lia|done..]].

Lemma failed_write_exec id s st fn err :
  sc_store s = Some st →
  (Mem.WithTx st (env_ctx E (sc_tick (bump (alloc id s)))) fn).1 = Some err →
  exec_step B s (set_store (Some (Mem.WithTx st (env_ctx E (sc_tick (bump (alloc id s)))) fn).2)
                   (bump (bump (alloc id s)))).
Proof.
  intros Hst Herr. apply (skipped_exec id); [allocated_tac|done|].
  cbn [sc_store set_store]. rewrite Hst. f_equal. by eapply WithTx_failed.
Qed.

Lemma keeps_recordJobTransition l tr new summary :
  keeps (current l) (exec_step B) (recordJobTransition E l tr new summary).
Proof.
  intros s u s' (j & Hj & Hl) Hrun. unfold recordJobTransition in Hrun.
  apply bind_Some in Hrun as (? & ? & [-> ->]%get_Some & Hrun).
  destruct (sc_store s) as [st|] eqn:Hst; [|by apply ret_Some in Hrun as [_ ->]].
  apply bind_Some in Hrun as (j' & ? & [Hj' ->]%get_job_Some & Hrun). simplify_eq.
  destruct (_ && _) eqn:T1; [by apply ret_Some in Hrun as [_ ->]|].
  destruct (_ && _) eqn:T2 in Hrun; [by apply ret_Some in Hrun as [_ ->]|].
  rewrite bind_Some in Hrun. destruct Hrun as (sq & s1 & Hsq & Hrun).
  rewrite run_alloc in Hsq. simplify_eq.
  apply bind_Some in Hrun as (t & s1 & Ht & Hrun). rewrite run_now in Ht. simplify_eq.
  apply bind_Some in Hrun as (err & s1 & Hp & Hrun).
  rewrite (run_persist st) in Hp by done. simplify_eq.
  destruct (Mem.WithTx _ _ _).1 as [err|] eqn:Hw.
  { apply ret_Some in Hrun as [_ ->]. by eapply failed_write_exec. }
  apply WithTx_done in Hw. apply update_job_Some in Hrun as (j1 & Hj1 & ->).
  cbn [sc_heap set_store bump alloc set_nodes set_sequences] in Hj1. simplify_eq.
  eapply (written_exec (j_ID j) l); [allocated_tac|done|done|done|done|done|done|
    done|..|by eapply job_write_step|]; [done..|].
  intros Hv. pose proof (ls_valid _ _ _ (job_write_step _ _ _ _ Hw eq_refl)) as Hvalid.
  eapply (job_view_job_record _ _ _ _ Hv Hvalid); [done..|]. simpl.
  destruct (String.eqb_spec (j_LifecycleState j) ""); [by left|right].
  by apply negb_false_iff in T1.
Qed.

(** Changing a job in place. *)
Lemma heap_exec l s j j' :
  sc_heap s !! l = Some j → j_ID j' = j_ID j →
  (∀ st, sc_store s = Some st → store_wf st → job_view (j_ID j) (job_log st (j_ID j)) j →
         job_view (j_ID j) (job_log st (j_ID j)) j') →
  exec_step B s (set_heap (<[l := j']> (sc_heap s)) s).
Proof.
  intros Hj Hid Hview.
  assert (∀ l0 j0, sc_heap s !! l0 = Some j0 →
    ∃ j1, <[l := j']> (sc_heap s) !! l0 = Some j1 ∧ j_ID j1 = j_ID j0) as Hids.
  { intros l0 j0 Hj0. destruct (decide (l = l0)) as [<-|].
    - rewrite lookup_insert_eq. simplify_eq. eauto.
    - rewrite lookup_insert_ne by done. eauto. }
  split; [done..|]. intros _. unfold coh. simpl. destruct (sc_store s) as [st|] eqn:Hst; [|done].
  intros [C1 C2 C3 CI C4 C5]. split; [done..|]. simpl. intros id l0 (j0 & Hj0 & Hv)%C5.
  destruct (decide (l = l0)) as [<-|]; [|rewrite lookup_insert_ne by done; eauto].
  rewrite lookup_insert_eq. simplify_eq. exists j'. split; [done|].
  pose proof (jv_id _ _ _ Hv) as <-. by apply Hview.
Qed.

Lemma same_shape_exec l s j j' :
  sc_heap s !! l = Some j → same_shape j j' →
  exec_step B s (set_heap (<[l := j']> (sc_heap s)) s).
Proof.
  intros Hj Hss. eapply heap_exec; [done|apply Hss|]. eauto using job_view_same_shape.
Qed.

Lemma snapshot_quiet jobID seq at_ (s s' : Sched MemStore) a :
  durableJobSnapshot jobID seq at_ s = Some (a, s') → s' = s ∧ snapshot_le seq a.
Proof.
  unfold durableJobSnapshot. intros (? & ? & [-> ->]%get_Some & H)%bind_Some.
  destruct (sc_jobs s !! jobID); [|by apply ret_Some in H as [-> ->]].
  apply bind_Some in H as (? & ? & [_ ->]%get_job_Some & H). apply ret_Some in H as [-> ->].
  split; [done|]. by intros d [= <-].
Qed.

(** A committed task record, with the update of the task that follows it. *)
Lemma task_written_exec r s st st' j t record new :
  sc_heap s !! tr_loc r = Some j → sc_jobs s !! j_ID j = Some (tr_loc r) →
  job_task j (tr_stage r) (tr_task r) = Some t → sc_store s = Some st →
  log_step st st' record → is_job_record record = false → tr_JobID record = t_JobID t →
  tr_TaskID record = t_ID t → tr_NewState record = new →
  tr_SequenceID record = u64_incr (seqn s (t_JobID t)) →
  t_LifecycleState t = "" ∨ CanTransitionTaskState (t_LifecycleState t) new = true →
  let s1 := set_store (Some st') (bump (bump (alloc (t_JobID t) s))) in
  exec_step B s (set_heap (<[tr_loc r := map_task (tr_stage r) (tr_task r) (with_task_state new) j]>
                             (sc_heap s1)) s1).
Proof.
  intros Hj Hl Ht Hst Hstep Hjr HjobID Htask <- Hseq Hcan s1. subst s1.
  assert (t_JobID t ≠ "") as Hne.
  { rewrite <-HjobID. pose proof (ls_valid _ _ _ Hstep) as Hv.
    by apply Validate_spec in Hv as (_ & ? & _). }
  destruct (decide (t_JobID t = j_ID j)) as [Hid|Hdiff].
  - eapply (written_exec (t_JobID t) (tr_loc r)); [allocated_tac|done|done|done|
      by rewrite Hid|done|done|done|done|done|done|].
    intros Hv. eapply job_view_task_record; eauto using ls_valid.
  - split; [unfold bump, alloc, sc_tick; simpl; lia|done| |].
    + intros l0 j0 Hj0. simpl. destruct (decide (tr_loc r = l0)) as [<-|].
      * rewrite lookup_insert_eq. simplify_eq. eauto.
      * rewrite lookup_insert_ne by done. eauto.
    + intros _. unfold coh. rewrite Hst. intros [_ _ _ _ _ C5]. exfalso.
      destruct (C5 _ _ Hl) as (j1 & Hj1 & Hv). simplify_eq.
      by destruct (jv_tasks _ _ _ Hv _ _ _ Ht) as [[? _]|[? _]].
Qed.

#[local] Hint Resolve keeps_recordJobTransition : keeps.

Lemma keeps_recordTaskTransition r tr new nodeID attempt summary :
  keeps (current (tr_loc r)) (exec_step B)
    (recordTaskTransition E r tr new nodeID attempt summary).
Proof.
  intros s u s' (j & Hj & Hl) Hrun. unfold recordTaskTransition in Hrun.
  apply bind_Some in Hrun as (? & ? & [-> ->]%get_Some & Hrun).
  destruct (sc_store s) as [st|] eqn:Hst; [|by apply ret_Some in Hrun as [_ ->]].
  apply bind_Some in Hrun as (t & ? & (j' & Hj' & Ht & ->)%get_task_Some & Hrun). simplify_eq.
  destruct (_ && _) eqn:T1; [by apply ret_Some in Hrun as [_ ->]|].
  destruct (_ && _) eqn:T2 in Hrun; [by apply ret_Some in Hrun as [_ ->]|].
  apply bind_Some in Hrun as (sq & s1 & Hsq & Hrun).
  rewrite run_alloc in Hsq. simplify_eq.
  apply bind_Some in Hrun as (tm & s1 & Htm & Hrun). rewrite run_now in Htm. simplify_eq.
  apply bind_Some in Hrun as (snap & s1 & [-> Hsnap]%snapshot_quiet & Hrun).
  apply bind_Some in Hrun as (err & s1 & Hp & Hrun).
  rewrite (run_persist st) in Hp by done. simplify_eq.
  destruct (Mem.WithTx _ _ _).1 as [err|] eqn:Hw.
  { apply ret_Some in Hrun as [_ ->]. by eapply failed_write_exec. }
  apply WithTx_done in Hw. apply update_task_Some in Hrun as (j1 & t1 & Hj1 & Ht1 & ->).
  simpl in Hj1. simplify_eq.
  eapply task_written_exec; [exact Hj|exact Hl|exact Ht|exact Hst|by eapply task_write_step|
    done|done|done|done|done|].
  destruct (String.eqb_spec (t_LifecycleState t) ""); [by left|right].
  by apply negb_false_iff in T1.
Qed.

Lemma job_log_no_id st : store_wf st → job_log st "" = [].
Proof.
  intros Hwf. destruct (store_wf_log st "" Hwf) as [_ Hl].
  destruct (job_log st "") as [|r l]; [done|]. exfalso.
  inversion_clear Hl as [|? ? [Hv Hid] _].
  by apply Validate_spec in Hv as (_ & ? & _).
Qed.

Lemma local_dispatch_exec r s j t :
  sc_heap s !! tr_loc r = Some j → job_task j (tr_stage r) (tr_task r) = Some t →
  sc_store s = None ∨ t_JobID t = "" →
  exec_step B s (set_heap (<[tr_loc r := map_task (tr_stage r) (tr_task r)
                               (with_task_state TaskStateDispatched) j]> (sc_heap s)) s).
Proof.
  intros Hj Ht Hno. eapply heap_exec; [done..|]. intros st Hst Hwf [V1 V2 V3 V4 V5].
  destruct Hno as [?|Hno]; [congruence|].
  split; [done..| |].
  - intros i k t'. rewrite job_task_map_task. case_decide as Hd; [|apply V4].
    destruct Hd as [<- <-]. rewrite Ht. intros [= <-]. right. split; [done|].
    destruct (V4 _ _ _ Ht) as [[Hid Hlast]|[_ Hlast]]; [|done].
    rewrite <-Hid, Hno. by rewrite job_log_no_id.
  - by apply distinct_map_task.
Qed.

Lemma keeps_recordJobRunning jobID :
  keeps jobs_ok (exec_step B) (recordJobRunningOnFirstDispatch E jobID).
Proof.
  intros s u s' Hok Hrun. unfold recordJobRunningOnFirstDispatch in Hrun.
  simp_if; [by apply ret_Some in Hrun as [_ ->]|].
  apply bind_Some in Hrun as (? & ? & [-> ->]%get_Some & Hrun).
  destruct (sc_jobs s !! jobID) as [l|] eqn:Hl; [|by apply ret_Some in Hrun as [_ ->]].
  assert (current l s) as Hcur.
  { destruct (Hok _ _ Hl) as (j & Hj & <-). by exists j. }
  revert Hrun. eapply keeps_run; [|exact Hcur]. keeps_auto.
Qed.

(** *** Quiet methods *)

Lemma keeps_nodes P {A} (m : ST NodeState A) : forward m → keeps P (exec_step B) (on_nodes m).
Proof.
  intros Hm. apply keeps_on_nodes. intros s _. apply quiet_exec. split; [apply Hm|done..| |done|done].
  intros l j Hj. exists j. split; [done|]. by split.
Qed.
Lemma keeps_tick P : keeps P (exec_step B) next_tick.
Proof.
  apply keeps_next_tick. intros s _. apply quiet_exec.
  split; [unfold sc_tick; simpl; lia|done..| |done|done].
  intros l j Hj. exists j. split; [done|]. by split.
Qed.
Lemma keeps_now P : keeps P (exec_step B) (now E).
Proof. apply keeps_nodes, forward_time_Now. Qed.
Lemma keeps_event P e : keeps P (exec_step B) (modify (add_event e)).
Proof.
  apply keeps_modify. intros s _. apply quiet_exec. split; [done..| |done|done].
  intros l j Hj. exists j. split; [done|]. by split.
Qed.
Lemma keeps_shape_job P l f : (∀ j, same_shape j (f j)) → keeps P (exec_step B) (update_job l f).
Proof.
  intros Hf. apply keeps_update_job. intros s j _ Hj. by eapply same_shape_exec.
Qed.
Lemma keeps_shape_stage P `{!Stable P (exec_step B)} l i f :
  (∀ st, s_Tasks (f st) = s_Tasks st) → keeps P (exec_step B) (update_stage l i f).
Proof.
  intros Hf. apply keeps_bind; [exact _|exact _|apply keeps_get_stage; exact _|].
  intros _. apply keeps_shape_job. intros j. by apply same_shape_map_stage.
Qed.
Lemma keeps_shape_task P `{!Stable P (exec_step B)} r f :
  (∀ t, task_shape (f t) = task_shape t) → keeps P (exec_step B) (update_task r f).
Proof.
  intros Hf. apply keeps_bind; [exact _|exact _|apply keeps_get_task; exact _|].
  intros _. apply keeps_shape_job. intros j. by apply same_shape_map_task.
Qed.

(** *** Executing a job the scheduler owns *)

Definition at_job (l : loc) (s : Sched MemStore) : Prop := jobs_ok s ∧ current l s.

#[local] Instance at_job_stable l : Stable (at_job l) (exec_step B).
Proof. apply and_stable; exact _. Qed.

Ltac quiet_tac :=
  lazymatch goal with
  | |- keeps _ _ (on_nodes _) => apply keeps_nodes; solve [eauto with forward nocore]
  | |- keeps _ _ next_tick => apply keeps_tick
  | |- keeps _ _ (now _) => apply keeps_now
  | |- keeps _ _ (ctx_Err _) => unfold ctx_Err
  | |- keeps _ _ dispatchAuthority => unfold dispatchAuthority
  | |- keeps _ _ (GetHealthyNodes _) => unfold GetHealthyNodes
  | |- keeps _ _ (modify (add_event _)) => apply keeps_event
  | |- keeps _ _ (update_job _ (with_job_status _)) => by apply keeps_shape_job
  | |- keeps _ _ (update_job _ (with_job_updated _)) => by apply keeps_shape_job
  | |- keeps _ _ (update_stage _ _ _) => by (apply keeps_shape_stage; [exact _|])
  | |- keeps _ _ (update_task _ _) => by (apply keeps_shape_task; [exact _|])
  end.
Ltac exec_auto :=
  repeat (first [solve [eauto with keeps nocore] | quiet_tac | keeps_step]).

Lemma keeps_job_at l tr new summary :
  keeps (at_job l) (exec_step B) (recordJobTransition E l tr new summary).
Proof. eapply keeps_weaken; [apply keeps_recordJobTransition|by intros ? []|done]. Qed.
Lemma keeps_task_at l r tr new nodeID attempt summary :
  tr_loc r = l →
  keeps (at_job l) (exec_step B) (recordTaskTransition E r tr new nodeID attempt summary).
Proof. intros <-. eapply keeps_weaken; [apply keeps_recordTaskTransition|by intros ? []|done]. Qed.
#[local] Hint Resolve keeps_job_at keeps_task_at : keeps.

Lemma keeps_claim r nodeID attempt :
  keeps (at_job (tr_loc r)) (exec_step B) (claimTaskDispatchTransition E r nodeID attempt).
Proof.
  intros s u s' [Hok (j & Hj & Hl)] Hrun. unfold claimTaskDispatchTransition in Hrun.
  apply bind_Some in Hrun as (t & ? & (j' & Hj' & Ht & ->)%get_task_Some & Hrun). simplify_eq.
  apply bind_Some in Hrun as (? & ? & [-> ->]%get_Some & Hrun).
  assert (∀ s', sc_store s = None ∨ t_JobID t = "" →
    (update_task r (with_task_state TaskStateDispatched) ≫= λ _, mret None) s = Some (u, s') →
    exec_step B s s') as Hlocal.
  { clear Hrun. intros s2 Hno (? & s1 & (j1 & t1 & Hj1 & Ht1 & ->)%update_task_Some & Hr)%bind_Some.
    apply ret_Some in Hr as [_ ->]. simplify_eq. by eapply local_dispatch_exec. }
  destruct (sc_store s) as [st|] eqn:Hst; [|by apply Hlocal; [left|]].
  destruct (String.eqb_spec (t_JobID t) ""); [by apply Hlocal; [right|]|]. clear Hlocal.
  destruct (negb _) eqn:T1; [by apply ret_Some in Hrun as [_ ->]|].
  apply bind_Some in Hrun as (sq & s1 & Hsq & Hrun).
  rewrite run_alloc in Hsq. simplify_eq.
  apply bind_Some in Hrun as (tm & s1 & Htm & Hrun). rewrite run_now in Htm. simplify_eq.
  apply bind_Some in Hrun as (snap & s1 & [-> Hsnap]%snapshot_quiet & Hrun).
  apply bind_Some in Hrun as (err & s1 & Hp & Hrun).
  rewrite (run_persist st) in Hp by done. simplify_eq.
  destruct (Mem.WithTx _ _ _).1 as [err|] eqn:Hw.
  { assert (∀ a b s1 s2, (if errors_Is err ErrDispatchClaimRejected then mret a else mret b :
      M MemStore (option error)) s1 = Some (u, s2) → s2 = s1) as Hret.
    { intros a b s1 s2. by destruct (errors_Is _ _); intros [_ ->]%ret_Some. }
    apply Hret in Hrun as ->.
    by eapply failed_write_exec. }
  apply WithTx_done in Hw.
  apply bind_Some in Hrun as (? & s1 & (j1 & t1 & Hj1 & Ht1 & ->)%update_task_Some & Hrun).
  simpl in Hj1. simplify_eq.
  apply bind_Some in Hrun as (? & s2 & Hrec & Hrun). apply ret_Some in Hrun as [_ ->].
  assert (t_LifecycleState t = "" ∨
          CanTransitionTaskState (t_LifecycleState t) TaskStateDispatched = true) as Hcan.
  { destruct (String.eqb_spec (t_LifecycleState t) ""); [by left|right].
    by apply negb_false_iff in T1. }
  pose proof (task_written_exec r s st _ _ t _ TaskStateDispatched Hj Hl Ht Hst
    (claim_write_step _ _ _ _ _ _ _ _ Hw Hsnap) eq_refl eq_refl eq_refl eq_refl eq_refl Hcan) as Hex.
  etrans; [exact Hex|]. eapply keeps_run; [apply keeps_recordJobRunning| |exact Hrec].
  by eapply jobs_ok_stable.
Qed.

Lemma keeps_claim_at l r nodeID attempt :
  tr_loc r = l → keeps (at_job l) (exec_step B) (claimTaskDispatchTransition E r nodeID attempt).
Proof. intros <-. apply keeps_claim. Qed.
#[local] Hint Resolve keeps_claim_at : keeps.

Lemma keeps_executeTask l r node :
  tr_loc r = l → keeps (at_job l) (exec_step B) (executeTask cfg E r node).
Proof. intros Hr. unfold executeTask, ExecuteOnNode. exec_auto. Qed.
#[local] Hint Resolve keeps_executeTask : keeps.

Lemma keeps_retry l n attempt r node nodes :
  tr_loc r = l → keeps (at_job l) (exec_step B) (retry_loop cfg E n attempt r node nodes).
Proof.
  intros Hr. revert attempt node.
  induction n as [|n IH]; intros attempt node; cbn [retry_loop]; unfold select_for; exec_auto.
Qed.
#[local] Hint Resolve keeps_retry : keeps.

Lemma keeps_deferral l polls ended_by r :
  tr_loc r = l → keeps (at_job l) (exec_step B) (deferral_loop cfg E polls ended_by r).
Proof.
  intros Hr. induction polls as [|polls IH]; cbn [deferral_loop]; unfold select_for; exec_auto.
Qed.
#[local] Hint Resolve keeps_deferral : keeps.

Lemma keeps_select l r nodes :
  tr_loc r = l → keeps (at_job l) (exec_step B) (selectNodeForTaskWithDeferral cfg E r nodes).
Proof. intros Hr. unfold selectNodeForTaskWithDeferral, select_for. exec_auto. Qed.
#[local] Hint Resolve keeps_select : keeps.

Lemma keeps_goroutine l nodes g errs :
  tr_loc g.1 = l → keeps (at_job l) (exec_step B) (run_goroutine cfg E nodes g errs).
Proof. intros Hg. unfold run_goroutine, executeTaskWithRetry. exec_auto. Qed.

Definition of_job (l : loc) (gs : list (TaskRef * NodeInfo)) : Prop :=
  Forall (λ g, tr_loc g.1 = l) gs.

Lemma keeps_run_picked l picks nodes pending errs :
  of_job l pending →
  keeps (at_job l) (exec_step B) (run_picked cfg E picks nodes pending errs).
Proof.
  revert pending errs. induction picks as [|p picks IH]; intros pending errs Hp; cbn [run_picked].
  { exec_auto. }
  destruct (pending !! p) as [g|] eqn:Hg; [|by apply IH].
  apply keeps_bind; [exact _|exact _| |].
  - apply keeps_goroutine. by eapply (Forall_lookup_1 _ _ _ _ Hp).
  - intros errs'. apply IH. by apply Forall_delete.
Qed.

Lemma keeps_run_rest l nodes pending errs :
  of_job l pending → keeps (at_job l) (exec_step B) (run_rest cfg E nodes pending errs).
Proof.
  intros Hp. revert errs. induction Hp as [|g pending Hg _ IH]; intros errs; cbn [run_rest].
  { exec_auto. }
  apply keeps_bind; [exact _|exact _|by apply keeps_goroutine|done].
Qed.

Lemma yields_run_picked l picks nodes pending errs :
  of_job l pending → yields (λ res, of_job l res.1) (run_picked cfg E picks nodes pending errs).
Proof.
  revert pending errs. induction picks as [|p picks IH]; intros pending errs Hp; cbn [run_picked].
  { by apply yields_ret. }
  destruct (pending !! p) as [g|]; [|by apply IH].
  apply yields_bind. intros errs'. apply IH. by apply Forall_delete.
Qed.

Lemma keeps_run_some l nodes pending errs :
  of_job l pending → keeps (at_job l) (exec_step B) (run_some cfg E nodes pending errs).
Proof. intros Hp. unfold run_some. pose proof keeps_run_picked. exec_auto. Qed.

Lemma yields_run_some l nodes pending errs :
  of_job l pending → yields (λ res, of_job l res.1) (run_some cfg E nodes pending errs).
Proof. intros Hp. apply yields_bind. intros n. by apply yields_run_picked. Qed.

Lemma of_job_snoc l gs r node : of_job l gs → tr_loc r = l → of_job l (gs ++ [(r, node)]).
Proof. intros H Hr. apply Forall_app. split; [done|]. by repeat constructor. Qed.

Lemma keeps_start_tasks l refs nodes pending errs :
  Forall (λ r, tr_loc r = l) refs → of_job l pending →
  keeps (at_job l) (exec_step B) (start_tasks cfg E refs nodes pending errs) ∧
  yields (λ res, of_job l res.1.2) (start_tasks cfg E refs nodes pending errs).
Proof.
  intros Hrefs. revert pending errs.
  induction Hrefs as [|r refs Hr _ IH]; intros pending errs Hp; cbn [start_tasks].
  { split; [exec_auto|by apply yields_ret]. }
  split.
  - apply keeps_bind; [exact _|exact _|exec_auto|]. intros [err|]; [exec_auto|].
    apply keeps_bind; [exact _|exact _|by apply keeps_select|].
    intros [err|[node|]]; [exec_auto| |exec_auto].
    eapply (keeps_bind_yields _ _ (λ res, of_job l res.1));
      [by apply yields_run_some, of_job_snoc|by apply keeps_run_some, of_job_snoc|].
    intros res Hres. by apply IH.
  - apply yields_bind. intros [err|]; [by apply yields_ret|].
    apply yields_bind. intros [err|[node|]]; [by apply yields_ret| |by apply yields_ret].
    eapply (yields_bind_yields (λ res, of_job l res.1));
      [by apply yields_run_some, of_job_snoc|].
    intros res Hres. by apply IH.
Qed.

Lemma stage_refs_loc l i stage : Forall (λ r, tr_loc r = l) (stage_refs l i stage).
Proof. apply Forall_fmap, Forall_true. done. Qed.

Lemma keeps_executeStage l i : keeps (at_job l) (exec_step B) (executeStage cfg E l i).
Proof.
  unfold executeStage. apply keeps_bind; [exact _|exact _|quiet_tac|]. intros _.
  apply keeps_bind; [exact _|exact _|exec_auto|]. intros stage.
  apply keeps_bind; [exact _|exact _|exec_auto|]. intros healthy.
  destruct (dispatchEligibleNodes healthy) as [|n nodes]; [exec_auto|].
  destruct (keeps_start_tasks l (stage_refs l i stage) (n :: nodes) [] []) as [Hk Hy];
    [apply stage_refs_loc|by constructor|].
  eapply (keeps_bind_yields _ _ _ _ _ Hy Hk). intros [[selErr pending] errs] Hp. simpl in Hp.
  eapply (keeps_bind_yields _ _ (λ res, of_job l res.1));
    [by apply yields_run_some|by apply keeps_run_some|]. intros res Hres.
  apply keeps_bind; [exact _|exact _|by apply keeps_run_rest|]. intros errs'. exec_auto.
Qed.
#[local] Hint Resolve keeps_executeStage : keeps.

Lemma keeps_run_stages l stages : keeps (at_job l) (exec_step B) (run_stages cfg E l stages).
Proof.
  induction stages as [|i stages IH]; cbn [run_stages]; unfold updateJobStatus; exec_auto.
Qed.
#[local] Hint Resolve keeps_run_stages : keeps.

(** The executed job is known to the scheduler. *)
Definition registered (l : loc) (s : Sched MemStore) : Prop :=
  ∃ j, sc_heap s !! l = Some j ∧ is_Some (sc_jobs s !! j_ID j).

Lemma keeps_executeJob l :
  keeps (λ s, jobs_ok s ∧ registered l s) (exec_step B) (executeJob cfg E l).
Proof.
  intros s u s' [Hok (j & Hj & [l' Hl'])] Hrun. unfold executeJob in Hrun.
  apply bind_Some in Hrun as (j' & ? & [Hj' ->]%get_job_Some & Hrun). simplify_eq.
  apply bind_Some in Hrun as (? & ? & [-> ->]%get_Some & Hrun). rewrite Hl' in Hrun.
  apply bind_Some in Hrun as (? & ? & [-> ->]%ret_Some & Hrun).
  assert (at_job l' s) as Hat.
  { split; [done|]. destruct (Hok _ _ Hl') as (j' & Hj2 & Hid). exists j'. by rewrite Hid. }
  revert Hrun. eapply keeps_run; [|exact Hat]. unfold updateJobStatus. exec_auto.
Qed.
End Writes.
