(* ===== verification/Reachable.v ===== *)
(** * Every reachable scheduler state agrees with the durable log

    Submissions of new ids, dispatch rounds, job lookups, follower reconciliation,
    start-up recovery and retention in any order and under any environment lead to
    states in which every known job replays from the store to its in-memory state. *)

From stdpp Require Import base gmap strings list fin_maps sorting.
From S2P Require Import Prelude StateMachine Store Replay Jobs Config Leadership Nodes Scheduler Lifecycle SchedLogic Frames Coherence.

Open Scope Z_scope.

(** ** A rebuilt job agrees with the history it was rebuilt from *)

Lemma elem_of_concat {A} (x : A) (ls : list (list A)) l : l ∈ ls → x ∈ l → x ∈ concat ls.
Proof.
  intros Hl Hx. induction Hl as [l ls|l l' ls _ IH]; simpl; apply elem_of_app; auto.
Qed.

Lemma concat_lookup_inj {A B} (f : A → B) (ls : list (list A)) i k i' k' a b x y :
  NoDup (f <$> concat ls) → ls !! i = Some a → a !! k = Some x →
  ls !! i' = Some b → b !! k' = Some y → f x = f y → i = i' ∧ k = k'.
Proof.
  revert i i'. induction ls as [|c ls IH]; intros i i' Hnd Hi Hk Hi' Hk' Hxy; [done|].
  simpl in Hnd. rewrite fmap_app in Hnd. apply NoDup_app in Hnd as (Hc & Hdisj & Hls).
  assert (∀ j d z, ls !! j = Some d → z ∈ d → z ∈ concat ls) as Hin.
  { intros j d z Hj Hz. eapply elem_of_concat; [by eapply list_elem_of_lookup_2|done]. }
  destruct i as [|i], i' as [|i']; simpl in Hi, Hi'; simplify_eq.
  - split; [done|]. eapply (NoDup_lookup _ _ _ (f x) Hc); rewrite list_lookup_fmap.
    + by rewrite Hk.
    + by rewrite Hk', Hxy.
  - exfalso. eapply (Hdisj (f x)).
    + apply list_elem_of_fmap_2. by eapply list_elem_of_lookup_2.
    + rewrite Hxy. apply list_elem_of_fmap_2. eapply Hin; [done|by eapply list_elem_of_lookup_2].
  - exfalso. eapply (Hdisj (f y)).
    + apply list_elem_of_fmap_2. by eapply list_elem_of_lookup_2.
    + rewrite <-Hxy. apply list_elem_of_fmap_2. eapply Hin; [done|by eapply list_elem_of_lookup_2].
  - destruct (IH i i'); auto.
Qed.

Lemma job_task_lookup j i k t :
  job_task j i k = Some t →
  ∃ ts, (stage_tasks <$> j_Stages j) !! i = Some ts ∧ ts !! k = Some (Some t).
Proof.
  unfold job_task, job_stage. rewrite list_lookup_fmap.
  destruct (j_Stages j !! i) as [[st|]|]; simpl; [|done|done]. intros H.
  exists (s_Tasks st). split; [done|]. by destruct (s_Tasks st !! k) as [[]|]; simplify_eq/=.
Qed.

Lemma job_task_elem j i k t : job_task j i k = Some t → Some t ∈ job_tasks j.
Proof.
  intros (ts & Hts & Hk)%job_task_lookup. unfold job_tasks.
  eapply elem_of_concat; by eapply list_elem_of_lookup_2.
Qed.

Lemma job_task_distinct j :
  NoDup (fmap (M:=option) t_ID <$> job_tasks j) → distinct_tasks j.
Proof.
  intros Hnd i k t i' k' t' (ts & H1 & H2)%job_task_lookup (ts' & H3 & H4)%job_task_lookup Heq.
  eapply (concat_lookup_inj _ _ _ _ _ _ _ _ _ _ Hnd H1 H2 H3 H4). simpl. by rewrite Heq.
Qed.

(** Tasks in a replayed state sit under their own ids and belong to the job. *)
Definition tasks_keyed (jobID : string) (m : gmap string DurableTaskRecord) : Prop :=
  map_Forall (λ k t, dt_TaskID t = k ∧ dt_JobID t = jobID) m.

Lemma seed_keyed jobID l (m : gmap string DurableTaskRecord) :
  Forall (λ t, dt_JobID t = jobID) l → tasks_keyed jobID m →
  tasks_keyed jobID (foldl (λ m task, <[dt_TaskID task := seed_task task]> m) m l).
Proof.
  intros Hl. revert m. induction Hl as [|t l Ht _ IH]; intros m Hm; simpl; [done|].
  apply IH. by apply map_Forall_insert_2.
Qed.

Lemma replay_fold_keyed jobID st l st' :
  replay_fold jobID st l = inr st' → tasks_keyed jobID (rs_Tasks st) →
  tasks_keyed jobID (rs_Tasks st').
Proof.
  revert st. induction l as [|r l IH]; intros st H Hk; simpl in H; [by simplify_eq|].
  destruct (replay_record jobID st r) as [|st1] eqn:Hr; [done|].
  apply replay_record_inv in Hr as (_ & Hid & Hrr). apply (IH _ H).
  destruct Hrr; [done|]. by apply map_Forall_insert_2.
Qed.

(** What replaying a job from the in-memory store returns. *)
Record replayed_ok (st : MemStore) (id : string) (r : ReplayedJobState) : Prop := {
  ro_id : dj_JobID (rs_Job r) = id;
  ro_state : dj_CurrentState (rs_Job r) = job_last (job_log st id);
  ro_history : history_ok id (job_log st id);
  ro_transitions : rs_Transitions r = job_log st id;
  ro_keyed : tasks_keyed id (rs_Tasks r);
  ro_tasks : ∀ k t, rs_Tasks r !! k = Some t → dt_CurrentState t = task_last k (job_log st id);
}.

Lemma replay_fold_last jobID st l st' :
  replay_fold jobID st l = inr st' → dj_LastSequenceID (rs_Job st') = dj_LastSequenceID (rs_Job st).
Proof.
  revert st. induction l as [|r l IH]; intros st H; simpl in H; [by simplify_eq|].
  destruct (replay_record jobID st r) as [|st1] eqn:Hr; [done|].
  apply replay_record_inv in Hr as (_ & _ & Hrr). rewrite (IH _ H). by destruct Hrr.
Qed.

Lemma ReplayJobState_ok ctx n st id r :
  (ReplayJobState ctx n (Some st) id).1 = inr r →
  replayed_ok st id r ∧ dj_LastSequenceID (rs_Job r) = 0%N.
Proof.
  unfold ReplayJobState. destruct (String.eqb id ""); [done|]. simpl.
  unfold replayJobStateFromData. fold (job_log st id).
  set (tasks := go_sort _ _). intros H%replay_loop_sound.
  destruct (replay_fold_job _ _ _ _ H) as (Hs & Hid & Htr).
  assert (tasks_keyed id (rs_Tasks r)) as Hkeyed.
  { eapply replay_fold_keyed; [exact H|]. apply seed_keyed; [|by intros ?? [=]].
    apply Forall_forall. intros t Ht. unfold tasks in Ht. rewrite go_sort_perm in Ht.
    by apply list_elem_of_filter in Ht as [? _]. }
  split; [|by rewrite (replay_fold_last _ _ _ _ H)]. split; [done|done| |done|done|].
  - assert (∃ st', replay_fold id (replay_init id (job_log st id) tasks) (job_log st id) = inr st')
      as Hex by eauto.
    apply replay_fold_ok in Hex as (H1 & H2 & H3). split_and!; [done..|].
    intros id'. specialize (H3 id'). unfold cur_task_state in H3.
    fold (replayed_task (replay_init id (job_log st id) tasks) id') in H3.
    by rewrite (proj1 (replay_init_task _ _ _ _)) in H3.
  - intros k t Hk. destruct (replay_fold_task _ _ _ _ k H) as (Hc & _).
    unfold replayed_task at 1, map_get in Hc. rewrite Hk in Hc. simpl in Hc. rewrite Hc.
    by rewrite (proj1 (replay_init_task _ _ _ _)).
Qed.

Section Rebuilt.
Context (json : string → option AgentInput).

Lemma rebuilt_task j i k t (r : ReplayedJobState) :
  j = buildRecoveredRuntimeJob json r → job_task j i k = Some t →
  ∃ key rec, rs_Tasks r !! key = Some rec ∧ t = recovered_task json rec.
Proof.
  intros -> Ht%job_task_elem. unfold buildRecoveredRuntimeJob in Ht.
  rewrite recovered_job_tasks in Ht. apply list_elem_of_fmap in Ht as (rec & [= ->] & Hin).
  apply elem_of_map_values in Hin as [key Hkey]. eauto.
Qed.

Lemma rebuilt_view st id r :
  replayed_ok st id r → job_view id (job_log st id) (buildRecoveredRuntimeJob json r).
Proof.
  intros [Hid Hs Hh Htr Hkeyed Htasks]. split; [done|done|by right|..].
  - intros i k t (key & rec & Hkey & ->)%(rebuilt_task _ _ _ _ r eq_refl). left.
    destruct (Hkeyed _ _ Hkey) as [Hk Hj]. split; [done|]. right. simpl.
    rewrite Hk. symmetry. by apply Htasks.
  - apply job_task_distinct. unfold buildRecoveredRuntimeJob.
    rewrite recovered_job_tasks, <-list_fmap_compose.
    change (NoDup ((Some ∘ dt_TaskID) <$> map_values (rs_Tasks r))).
    rewrite (list_fmap_compose dt_TaskID Some). apply NoDup_fmap_2; [apply _|].
    unfold map_values. rewrite <-list_fmap_compose.
    rewrite (list_fmap_ext _ fst (map_to_list (rs_Tasks r))); [apply NoDup_fst_map_to_list|].
    intros i [k t] Hi. simpl. apply list_elem_of_lookup_2, elem_of_map_to_list in Hi.
    by destruct (Hkeyed _ _ Hi).
Qed.
End Rebuilt.

(** ** The invariant over whole operations *)

Section Operations.
Context (cfg : SchedulerConfig) (E : Env) (B : N).

Record Inv (s : Sched MemStore) : Prop := {
  inv_coh : coh B s;
  inv_jobs : jobs_ok s;
  inv_next : ∀ l, is_Some (sc_heap s !! l) → (l < sc_next s)%nat;
  inv_queue : Forall (λ l, registered l s) (sc_queue s);
}.

(** No sequence counter is exhausted. *)
Definition bounded (s : Sched MemStore) : Prop := (bound B s < u64_modulus)%N.

Lemma bounded_before s s' : clock_le s s' → bounded s' → bounded s.
Proof. unfold clock_le, bounded, bound. lia. Qed.

Lemma registered_exec l s s' : exec_step B s s' → registered l s → registered l s'.
Proof.
  intros Hs (j & Hj & Hl). destruct (ex_ids _ _ _ Hs _ _ Hj) as (j' & Hj' & Hid).
  exists j'. by rewrite Hid, (ex_jobs _ _ _ Hs).
Qed.

Lemma exec_inv s s' : exec_step B s s' → frame s s' → bounded s' → Inv s → Inv s'.
Proof.
  intros Hs Hf Hb [I1 I2 I3 I4]. split.
  - by apply (ex_coh _ _ _ Hs).
  - by eapply jobs_ok_stable.
  - intros l. rewrite (fr_dom _ _ Hf), (fr_next _ _ Hf). apply I3.
  - rewrite (fr_queue _ _ Hf). eapply Forall_impl; [exact I4|]. intros l. by apply registered_exec.
Qed.

(** Changes the invariant does not look at. *)
Record unseen (s s' : Sched MemStore) : Prop := {
  un_tick : (sc_tick s ≤ sc_tick s')%nat;
  un_heap : sc_heap s' = sc_heap s;
  un_next : sc_next s' = sc_next s;
  un_jobs : sc_jobs s' = sc_jobs s;
  un_store : sc_store s' = sc_store s;
  un_seq : sc_jobSequences s' = sc_jobSequences s;
  un_queue : Forall (λ l, l ∈ sc_queue s ∨ registered l s) (sc_queue s');
}.

Lemma unseen_exec s s' : unseen s s' → exec_step B s s'.
Proof.
  intros [Ht Hh Hn Hj Hst Hsq Hq]. apply quiet_exec. split; [done..| |done|done].
  intros l j Hl. exists j. rewrite Hh. by split.
Qed.

Lemma unseen_inv s s' : unseen s s' → bounded s' → Inv s → Inv s'.
Proof.
  intros Hun Hb [I1 I2 I3 I4]. pose proof (unseen_exec _ _ Hun) as Hex.
  destruct Hun as [Ht Hh Hn Hj Hst Hsq Hq]. split.
  - by apply (ex_coh _ _ _ Hex).
  - by eapply jobs_ok_stable.
  - rewrite Hh, Hn. done.
  - eapply Forall_impl; [exact Hq|]. intros l [Hin|Hr]; eapply registered_exec; try done.
    rewrite Forall_forall in I4. by apply I4.
Qed.

Lemma same_queue (s : Sched MemStore) : Forall (λ l, l ∈ sc_queue s ∨ registered l s) (sc_queue s).
Proof. apply Forall_forall. by left. Qed.

(** *** Seeding sequence counters *)

Lemma max_sequence_spec last trs :
  (last ≤ max_sequence last trs)%N ∧
  Forall (λ r, (tr_SequenceID r ≤ max_sequence last trs)%N) trs ∧
  ∀ m, (last ≤ m)%N → Forall (λ r, (tr_SequenceID r ≤ m)%N) trs → (max_sequence last trs ≤ m)%N.
Proof.
  unfold max_sequence. revert last. induction trs as [|r trs IH]; intros last; simpl.
  { split_and!; [lia|constructor|done]. }
  destruct (IH (if (last <? tr_SequenceID r)%N then tr_SequenceID r else last)) as (H1 & H2 & H3).
  destruct (N.ltb_spec last (tr_SequenceID r)).
  - split_and!; [lia|by constructor|]. intros m Hm Hall. inversion_clear Hall. auto.
  - split_and!; [lia|constructor; [lia|done]|]. intros m Hm Hall. inversion_clear Hall. auto.
Qed.

Lemma seed_run id last trs (s s' : Sched MemStore) a :
  seedJobSequenceLocked id last trs s = Some (a, s') →
  ∃ m, s' = set_sequences m s ∧ ∀ id', map_get 0%N m id' =
    if String.eqb id id' then N.max (seqn s id) (max_sequence last trs) else seqn s id'.
Proof.
  unfold seedJobSequenceLocked. set (mx := max_sequence last trs).
  assert (∀ id', (mx ≤ seqn s id)%N → map_get 0%N (sc_jobSequences s) id' =
    if String.eqb id id' then N.max (seqn s id) mx else seqn s id') as Hsame.
  { intros id' Hle. destruct (String.eqb_spec id id') as [<-|]; [|done].
    rewrite N.max_l by done. done. }
  assert (s = set_sequences (sc_jobSequences s) s) as Hs by (by destruct s).
  destruct (N.eqb_spec mx 0) as [Hz|Hz].
  { intros [_ ->]%ret_Some. eexists. split; [exact Hs|]. intros id'. apply Hsame. lia. }
  intros (? & ? & [-> ->]%get_Some & H)%bind_Some.
  destruct (match sc_jobSequences s !! id with Some current => (current <? mx)%N | None => true end)
    eqn:Hseed.
  - apply bind_Some in H as (? & ? & H1 & H2). apply ret_Some in H2 as [_ ->].
    injection H1 as <- <-. eexists. split; [done|]. intros id'. unfold map_get.
    destruct (String.eqb_spec id id') as [<-|]; [|by rewrite lookup_insert_ne].
    rewrite lookup_insert_eq. simpl. unfold seqn, map_get.
    destruct (sc_jobSequences s !! id); simpl; bool_to_prop; lia.
  - apply ret_Some in H as [_ ->]. eexists. split; [exact Hs|]. intros id'. apply Hsame.
    unfold seqn, map_get. destruct (sc_jobSequences s !! id); [|done]. simpl. by bool_to_prop.
Qed.

(** *** Adding a job to the map *)

Record added (id : string) (j : Job) (m : N) (s s' : Sched MemStore) : Prop := {
  ad_tick : (sc_tick s ≤ sc_tick s')%nat;
  ad_heap : sc_heap s' = <[sc_next s := j]> (sc_heap s);
  ad_next : sc_next s' = S (sc_next s);
  ad_jobs : sc_jobs s' = <[id := sc_next s]> (sc_jobs s);
  ad_store : sc_store s' = sc_store s;
  ad_queue : sc_queue s' = sc_queue s;
  ad_seq : ∀ id', seqn s' id' = if String.eqb id id' then N.max (seqn s id) m else seqn s id';
}.

Lemma added_inv id j m s s' :
  added id j m s s' → j_ID j = id →
  (∀ st, sc_store s = Some st → coh_store B s st →
     job_view id (job_log st id) j ∧ (m ≤ bound B s)%N ∧
     Forall (λ r, (tr_SequenceID r ≤ N.max (seqn s id) m)%N) (job_log st id)) →
  Inv s → Inv s'.
Proof.
  intros [Ht Hh Hn Hj Hst Hq Hsq] Hid Hnew [I1 I2 I3 I4].
  assert (∀ l j0, sc_heap s !! l = Some j0 → sc_heap s' !! l = Some j0) as Hold.
  { intros l j0 Hl. rewrite Hh, lookup_insert_ne; [done|]. intros <-.
    specialize (I3 (sc_next s)). rewrite Hl in I3. pose proof (I3 ltac:(eauto)). lia. }
  assert (bound B s ≤ bound B s')%N as Hbb by (unfold bound; lia).
  split.
  - unfold coh in *. rewrite Hst. destruct (sc_store s) as [st|]; [|done].
    destruct (Hnew st eq_refl I1) as (Hv & Hm & Hl).
    destruct I1 as [C1 C2 C3 CI C4 C5]. split; [done|..].
    + intros id'. eapply Forall_impl; [apply C2|]. simpl. lia.
    + intros id'. rewrite Hsq. pose proof (C3 id). pose proof (C3 id').
      destruct (String.eqb id id'); lia.
    + eapply map_Forall_impl; [exact CI|]. simpl. lia.
    + intros id'. rewrite Hj, Hsq. destruct (String.eqb_spec id id') as [<-|Hne]; [done|].
      rewrite lookup_insert_ne by done. apply C4.
    + intros id' l. rewrite Hj. destruct (decide (id = id')) as [<-|Hne].
      * rewrite lookup_insert_eq. intros [= <-]. exists j. by rewrite Hh, lookup_insert_eq.
      * rewrite lookup_insert_ne by done. intros (j0 & Hj0 & Hv0)%C5. eauto.
  - intros id' l. rewrite Hj. destruct (decide (id = id')) as [<-|Hne].
    + rewrite lookup_insert_eq. intros [= <-]. exists j. by rewrite Hh, lookup_insert_eq.
    + rewrite lookup_insert_ne by done. intros (j0 & Hj0 & Hid0)%I2. eauto.
  - intros l. rewrite Hh, Hn. destruct (decide (sc_next s = l)) as [<-|]; [lia|].
    rewrite lookup_insert_ne by done. intros Hl%I3. lia.
  - rewrite Hq. eapply Forall_impl; [exact I4|]. intros l (j0 & Hj0 & Hreg).
    exists j0. split; [by apply Hold|]. rewrite Hj. destruct (decide (id = j_ID j0)) as [->|].
    + rewrite lookup_insert_eq. eauto.
    + by rewrite lookup_insert_ne.
Qed.

(** *** Jobs rebuilt from the store *)

Lemma replay_job_run id (s s' : Sched MemStore) res :
  replay_job E id s = Some (res, s') →
  unseen s s' ∧ ∃ n, res = (ReplayJobState (env_ctx E) n (sc_store s) id).1.
Proof.
  intros H. pose proof (clock_replay_job E id _ _ _ I H) as Hc. revert H. unfold replay_job.
  intros (? & ? & [-> ->]%get_Some & H)%bind_Some.
  destruct (ReplayJobState _ _ _ _) as [res' n] eqn:Hr.
  apply bind_Some in H as (? & ? & H1 & H2). apply ret_Some in H2 as [-> ->].
  injection H1 as <- <-. split; [split; [done..|exact (same_queue s)]|].
  exists (sc_tick s). by rewrite Hr.
Qed.

Lemma replay_job_ok id (s s' : Sched MemStore) r :
  replay_job E id s = Some (inr r, s') →
  unseen s s' ∧ ∃ st, sc_store s = Some st ∧ replayed_ok st id r ∧
    dj_LastSequenceID (rs_Job r) = 0%N.
Proof.
  intros [Hun [n Hr]]%replay_job_run. split; [done|].
  destruct (sc_store s) as [st|]; [|done]. exists st. split; [done|].
  symmetry in Hr. by apply ReplayJobState_ok in Hr.
Qed.

Lemma insert_seed_added r id last trs (s s1 s2 : Sched MemStore) l a :
  insert_recovered E r s = Some (l, s1) → seedJobSequenceLocked id last trs s1 = Some (a, s2) →
  dj_JobID (rs_Job r) = id →
  added id (buildRecoveredRuntimeJob (env_unmarshal E) r) (max_sequence last trs) s s2.
Proof.
  unfold insert_recovered. intros (l' & s3 & H1 & H2)%bind_Some Hseed Hid.
  apply bind_Some in H2 as (? & s4 & H2 & H3). apply ret_Some in H3 as [-> ->].
  injection H1 as <- <-. injection H2 as <- <-.
  apply seed_run in Hseed as (m & -> & Hm). split; [unfold sc_tick; simpl; lia|done|done| |done|done|].
  - simpl. by rewrite Hid.
  - intros id'. apply Hm.
Qed.

(** A rebuilt job, seeded from its own log, may be added. *)
Lemma rebuilt_added st id r j last s s' :
  added id j (max_sequence last (rs_Transitions r)) s s' → sc_store s = Some st →
  replayed_ok st id r → same_shape (buildRecoveredRuntimeJob (env_unmarshal E) r) j →
  (coh_store B s st → (last ≤ bound B s)%N) → Inv s → Inv s'.
Proof.
  intros Hadd Hst Hok Hss Hlast. apply (added_inv _ _ _ _ _ Hadd).
  { rewrite (ss_id _ _ Hss). apply Hok. }
  intros st' Hst' Hcoh. simplify_eq.
  destruct (max_sequence_spec last (rs_Transitions r)) as (_ & H2 & H3).
  rewrite (ro_transitions _ _ _ Hok) in *. split_and!.
  - eapply job_view_same_shape; [done|by apply rebuilt_view].
  - apply H3; [by apply Hlast|apply Hcoh].
  - eapply Forall_impl; [exact H2|]. simpl. lia.
Qed.

Lemma same_shape_refl j : same_shape j j.
Proof. by split. Qed.

Lemma getJobPointer_inv id s a s' :
  getJobPointer E id s = Some (a, s') → bounded s' → Inv s → Inv s'.
Proof.
  unfold getJobPointer. intros (? & ? & [-> ->]%get_Some & H)%bind_Some Hb.
  destruct (sc_jobs s !! id); [by apply ret_Some in H as [_ ->]|].
  destruct (sc_store s) as [st0|] eqn:Hst; [|by apply ret_Some in H as [_ ->]].
  apply bind_Some in H as (res & s1 & Hr & H). destruct res as [err|r].
  { apply ret_Some in H as [_ ->]. apply replay_job_run in Hr as [Hun _]. by apply unseen_inv. }
  apply replay_job_ok in Hr as (Hun & st & Hst' & Hok & H0). simplify_eq.
  destruct (replay_empty r).
  { apply ret_Some in H as [_ ->]. by apply unseen_inv. }
  apply bind_Some in H as (l & s2 & H1 & H). apply bind_Some in H as (x & s3 & H2 & H).
  apply ret_Some in H as [_ ->].
  pose proof (insert_seed_added _ _ _ _ _ _ _ _ _ H1 H2 (ro_id _ _ _ Hok)) as Hadd.
  intros HI. eapply rebuilt_added; [exact Hadd| |exact Hok|apply same_shape_refl|lia|].
  - by rewrite (un_store _ _ Hun).
  - eapply unseen_inv; [done| |done]. eapply bounded_before; [|done]. apply (ad_tick _ _ _ _ _ Hadd).
Qed.

Lemma GetJob_inv id s a s' : GetJob E id s = Some (a, s') → bounded s' → Inv s → Inv s'.
Proof.
  unfold GetJob. intros (res & s1 & H1 & H)%bind_Some Hb.
  assert (s' = s1) as ->; [|by eapply getJobPointer_inv].
  destruct res; [by apply ret_Some in H as [_ ->]|].
  apply bind_Some in H as (? & ? & [_ ->]%get_job_Some & H). by apply ret_Some in H as [_ ->].
Qed.

Lemma hydrate_shape existing j : same_shape j (hydrate_from_existing existing j).
Proof. by split. Qed.

Lemma refresh_inv id s a s' :
  refreshJobFromDurableState E id s = Some (a, s') → bounded s' → Inv s →
  Inv s' ∧ (∀ l, a = Some l → registered l s') ∧
  (∀ l, registered l s → registered l s').
Proof.
  unfold refreshJobFromDurableState. intros (? & ? & [-> ->]%get_Some & H)%bind_Some Hb HI.
  assert (∀ s', unseen s s' → a = None → bounded s' → Inv s' ∧ (∀ l, a = Some l → registered l s') ∧
    (∀ l, registered l s → registered l s')) as Hnone.
  { intros s1 Hun -> Hb1. split_and!; [by eapply unseen_inv|done|].
    intros l. apply registered_exec. by apply unseen_exec. }
  assert (unseen s s) as Hrefl by (split; [done..|exact (same_queue s)]).
  destruct (sc_store s) as [st0|] eqn:Hst; [|by apply ret_Some in H as [-> ->]; apply Hnone].
  simp_if; [by apply ret_Some in H as [-> ->]; apply Hnone|].
  apply bind_Some in H as (res & s1 & Hr & H). destruct res as [err|r].
  { apply ret_Some in H as [-> ->]. apply replay_job_run in Hr as [Hun _]. by apply Hnone. }
  apply replay_job_ok in Hr as (Hun & st & Hst' & Hok & H0). simplify_eq.
  destruct (replay_empty r); [by apply ret_Some in H as [-> ->]; apply Hnone|].
  apply bind_Some in H as (j & s2 & Hj & H).
  assert (s2 = s1 ∧ same_shape (buildRecoveredRuntimeJob (env_unmarshal E) r) j) as [-> Hss].
  { destruct (sc_jobs s !! id); [|apply ret_Some in Hj as [-> ->]; by eauto using same_shape_refl].
    apply bind_Some in Hj as (? & ? & [_ ->]%get_job_Some & Hj). apply ret_Some in Hj as [-> ->].
    eauto using hydrate_shape. }
  apply bind_Some in H as (l & s3 & H1 & H). apply bind_Some in H as (? & s4 & H2 & H).
  apply bind_Some in H as (y & s5 & Hseed & H). apply ret_Some in H as [-> ->].
  injection H1 as <- <-. injection H2 as <- <-.
  apply seed_run in Hseed as (m & -> & Hm).
  assert (added id j (max_sequence (dj_LastSequenceID (rs_Job r)) (rs_Transitions r)) s1
    (set_sequences m (set_jobs (<[id := sc_next s1]> (sc_jobs s1))
      (set_next (S (sc_next s1)) (set_heap (<[sc_next s1 := j]> (sc_heap s1)) s1))))) as Hadd.
  { split; [unfold sc_tick; simpl; lia|done..|]. apply Hm. }
  assert (Inv s1) as HI1.
  { eapply unseen_inv; [done| |done]. eapply bounded_before; [|done]. apply (ad_tick _ _ _ _ _ Hadd). }
  assert (j_ID j = id) as Hid by (rewrite (ss_id _ _ Hss); apply Hok).
  split_and!.
  - eapply rebuilt_added; [exact Hadd| |exact Hok|done|lia|done]. by rewrite (un_store _ _ Hun).
  - intros l [= <-]. exists j. simpl. rewrite lookup_insert_eq, Hid, lookup_insert_eq. eauto.
  - intros l (j0 & Hj0 & Hreg). exists j0. simpl. rewrite (un_heap _ _ Hun), (un_jobs _ _ Hun).
    split.
    + rewrite lookup_insert_ne; [done|]. intros <-. rewrite (un_next _ _ Hun) in Hj0.
      pose proof (inv_next _ HI (sc_next s) ltac:(eauto)). lia.
    + destruct (decide (id = j_ID j0)) as [<-|]; [rewrite lookup_insert_eq; eauto|].
      by rewrite lookup_insert_ne.
Qed.

(** *** The dispatch loop *)

Lemma unseen_refl s : unseen s s.
Proof. split; [done..|exact (same_queue s)]. Qed.

Lemma unseen_registered s s' l : unseen s s' → registered l s' → registered l s.
Proof. intros Hun (j & Hj & Hl). exists j. by rewrite <-(un_heap _ _ Hun), <-(un_jobs _ _ Hun). Qed.

Lemma unseen_trans s1 s2 s3 : unseen s1 s2 → unseen s2 s3 → unseen s1 s3.
Proof.
  intros H12 H23. pose proof (unseen_registered s1 s2) as Hreg. pose proof H12 as H12'.
  destruct H12' as [A1 A2 A3 A4 A5 A6 A7], H23 as [B1 B2 B3 B4 B5 B6 B7].
  split; try congruence; [lia|]. rewrite Forall_forall in A7.
  eapply Forall_impl; [exact B7|]. intros l [Hin|Hr]; [by apply A7|]. right. by apply Hreg.
Qed.

Lemma enqueue_unseen l s b s' :
  enqueueJobLocked cfg l s = Some (b, s') → registered l s → unseen s s'.
Proof.
  unfold enqueueJobLocked. intros (j & ? & [Hj ->]%get_job_Some & H)%bind_Some Hreg.
  apply bind_Some in H as (? & ? & [-> ->]%get_Some & H).
  simp_if; [apply ret_Some in H as [_ ->]; apply unseen_refl|].
  simp_if; [|apply ret_Some in H as [_ ->]; apply unseen_refl].
  apply bind_Some in H as (? & ? & H1 & H2). apply ret_Some in H2 as [_ ->].
  injection H1 as <- <-. split; [done..|]. simpl. apply Forall_app.
  split; [exact (same_queue s)|]. constructor; [by right|done].
Qed.

Lemma tick_unseen (s s' : Sched MemStore) n : next_tick s = Some (n, s') → unseen s s'.
Proof.
  intros H. injection H as <- <-. split; [unfold sc_tick; simpl; lia|done..|exact (same_queue s)].
Qed.

Lemma authority_unseen (s s' : Sched MemStore) a : dispatchAuthority s = Some (a, s') → unseen s s'.
Proof.
  unfold dispatchAuthority. intros (? & ? & [-> ->]%get_Some & H)%bind_Some.
  apply bind_Some in H as (n & s1 & H%tick_unseen & H2). by apply ret_Some in H2 as [_ ->].
Qed.

Lemma requeue_unseen l s b s' :
  requeue_and_wait cfg E l s = Some (b, s') → registered l s → unseen s s'.
Proof.
  unfold requeue_and_wait. intros (? & s1 & H1 & H2)%bind_Some Hreg.
  apply bind_Some in H2 as (n & s2 & Ht%tick_unseen & H2). apply ret_Some in H2 as [_ ->].
  eapply unseen_trans; [|exact Ht]. unfold requeueJob in H1.
  apply bind_Some in H1 as (m & s3 & Hm & H1). pose proof (tick_unseen _ _ _ Hm) as Hun.
  destruct (env_stopped E m); [by apply ret_Some in H1 as [_ ->]|].
  apply bind_Some in H1 as (b' & s4 & H1 & H3). apply ret_Some in H3 as [_ ->].
  eapply unseen_trans; [exact Hun|]. eapply enqueue_unseen; [exact H1|].
  eapply registered_exec; [by apply unseen_exec|done].
Qed.

Lemma isExecutable_run l (s s' : Sched MemStore) b :
  isExecutableDequeuedJob l s = Some (b, s') → s' = s.
Proof.
  unfold isExecutableDequeuedJob. intros (? & ? & [_ ->]%get_job_Some & H)%bind_Some.
  apply bind_Some in H as (? & ? & [-> ->]%get_Some & H).
  apply bind_Some in H as (? & ? & [_ ->]%get_job_Some & H). by apply ret_Some in H as [_ ->].
Qed.

Lemma dequeue_unseen l queue (s s1 s2 : Sched MemStore) u v :
  sc_queue s = l :: queue →
  modify (λ s, set_queue queue (sc_queuedJobs s) s) s = Some (u, s1) →
  markJobDequeued l s1 = Some (v, s2) → unseen s s2.
Proof.
  intros Hq H1 H2. injection H1 as <- <-. unfold markJobDequeued in H2.
  apply bind_Some in H2 as (? & ? & [_ ->]%get_job_Some & H2). injection H2 as <- <-.
  split; [done..|]. simpl. apply Forall_forall. intros l' Hl'. left. rewrite Hq. by right.
Qed.

Lemma run_once_inv s a s' : run_once cfg E s = Some (a, s') → bounded s' → Inv s → Inv s'.
Proof.
  unfold run_once. intros (? & ? & [-> ->]%get_Some & H)%bind_Some Hb HI.
  destruct (sc_queue s) as [|l queue] eqn:Hq; [by apply ret_Some in H as [_ ->]|].
  assert (registered l s) as Hreg.
  { pose proof (inv_queue _ HI) as Hall. rewrite Hq in Hall. by inversion_clear Hall. }
  apply bind_Some in H as (? & s1 & H1 & H). apply bind_Some in H as (? & s2 & H2 & H).
  pose proof (dequeue_unseen _ _ _ _ _ _ _ Hq H1 H2) as Hun. clear H1 H2 s1.
  apply bind_Some in H as (ok & ? & ->%isExecutable_run & H).
  destruct (negb ok); [apply ret_Some in H as [_ ->]; by eapply unseen_inv|].
  apply bind_Some in H as (auth & s3 & Ha%authority_unseen & H).
  pose proof (unseen_trans _ _ _ Hun Ha) as Hun3. clear Hun Ha.
  assert (registered l s3) as Hreg3 by (eapply registered_exec; [by apply unseen_exec|done]).
  assert (∀ s', requeue_and_wait cfg E l s3 = Some (a, s') → bounded s' → Inv s') as Hrequeue.
  { intros s4 Hr%requeue_unseen Hb4; [|done]. eapply unseen_inv; [|done|done].
    by eapply unseen_trans. }
  destruct auth as [err|au]; [by apply Hrequeue|].
  destruct (negb _); [by apply Hrequeue|]. clear Hrequeue.
  apply bind_Some in H as (j & ? & [Hj ->]%get_job_Some & H).
  apply bind_Some in H as (ref & s4 & Href & H).
  apply bind_Some in H as (ok2 & ? & ->%isExecutable_run & H).
  assert (clock_le s4 s') as Hc.
  { destruct (negb ok2); [by apply ret_Some in H as [_ ->]|].
    apply bind_Some in H as (? & s5 & H & Hret). apply ret_Some in Hret as [_ ->].
    by eapply clock_executeJob. }
  pose proof (bounded_before _ _ Hc Hb) as Hb4.
  assert (Inv s3) as HI3.
  { eapply unseen_inv; [exact Hun3| |done]. eapply bounded_before; [|exact Hb4].
    by eapply clock_refresh. }
  destruct (refresh_inv _ _ _ _ Href Hb4 HI3) as (HI4 & Hnew & Hkeep).
  destruct (negb ok2); [by apply ret_Some in H as [_ ->]|].
  apply bind_Some in H as (? & s5 & H & Hret). apply ret_Some in Hret as [_ ->].
  assert (registered (default l ref) s4) as Hreg4 by (destruct ref; simpl; auto).
  eapply exec_inv; [eapply keeps_executeJob; [|exact H]|by eapply frame_executeJob|done|done].
  split; [apply HI4|done].
Qed.

(** *** Submission *)

Definition has_id (l : loc) (id : string) (s : Sched MemStore) : Prop :=
  ∃ j, sc_heap s !! l = Some j ∧ j_ID j = id.

#[local] Instance has_id_stable l id : Stable (has_id l id) (exec_step B).
Proof. intros s s' (j & Hj & <-) Hs. apply (ex_ids _ _ _ Hs _ _ Hj). Qed.
#[local] Instance at_job_stable l : Stable (at_job l) (exec_step B).
Proof. apply and_stable; exact _. Qed.

Definition submitted (l : loc) (id : string) (s : Sched MemStore) : Prop :=
  at_job l s ∧ has_id l id s.
#[local] Instance submitted_stable l id : Stable (submitted l id) (exec_step B).
Proof. apply and_stable; exact _. Qed.

(** Filling in the job id of a task that has none. *)
Lemma with_ids_exec r s j t stageID :
  sc_heap s !! tr_loc r = Some j → job_task j (tr_stage r) (tr_task r) = Some t →
  exec_step B s (set_heap (<[tr_loc r := map_task (tr_stage r) (tr_task r) (with_task_ids
    (if String.eqb (t_JobID t) "" then j_ID j else t_JobID t) stageID) j]> (sc_heap s)) s).
Proof.
  intros Hj Ht. eapply heap_exec; [done|done|]. intros st Hst Hwf [V1 V2 V3 V4 V5].
  split; [done..| |by apply distinct_map_task].
  intros i k t'. rewrite job_task_map_task. case_decide as Hd; [|apply V4].
  destruct Hd as [<- <-]. rewrite Ht. intros [= <-].
  destruct (String.eqb_spec (t_JobID t) "") as [E0|Hne];
    destruct (V4 _ _ _ Ht) as [[Hid Hl]|[Hid Hl]]; try congruence; left; split; auto.
Qed.

Lemma keeps_record_created l id stageID r :
  tr_loc r = l → keeps (submitted l id) (exec_step B) (record_created E id stageID r).
Proof.
  intros <- s u s' [Hat (j & Hj & <-)] Hrun. unfold record_created in Hrun.
  apply bind_Some in Hrun as (t & ? & (j0 & Hj0 & Ht & ->)%get_task_Some & Hrun). simplify_eq.
  apply bind_Some in Hrun as (? & s1 & (j1 & t1 & Hj1 & Ht1 & ->)%update_task_Some & Hrun).
  simplify_eq.
  pose proof (with_ids_exec r s _ t
    (if String.eqb (t_StageID t) "" then stageID else t_StageID t) Hj Ht) as Hex.
  etrans; [exact Hex|]. eapply keeps_run; [by apply keeps_task_at| |exact Hrun].
  by eapply at_job_stable.
Qed.

Lemma keeps_recordInitial l id :
  keeps (submitted l id) (exec_step B) (recordInitialTransitions E l).
Proof.
  assert (∀ tr new summary, keeps (submitted l id) (exec_step B)
    (recordJobTransition E l tr new summary)) as Hjob.
  { intros. eapply keeps_weaken; [apply keeps_job_at|by intros ? []|done]. }
  intros s u s' Hs Hrun. unfold recordInitialTransitions in Hrun.
  apply bind_Some in Hrun as (? & s1 & H1 & Hrun). pose proof (Hjob _ _ _ _ _ _ Hs H1) as Hex1.
  assert (submitted l id s1) as Hs1 by (by eapply submitted_stable).
  etrans; [exact Hex1|]. clear Hs H1 Hex1 s.
  apply bind_Some in Hrun as (j & ? & [Hj ->]%get_job_Some & Hrun).
  assert (j_ID j = id) as <- by (destruct Hs1 as [_ (j1 & ? & <-)]; congruence).
  revert Hrun. eapply keeps_run; [|exact Hs1].
  apply keeps_bind; [exact _|exact _| |intros _; apply Hjob].
  apply keeps_iter; [exact _|exact _|]. intros i. unfold record_stage_created.
  apply keeps_bind; [exact _|exact _|apply keeps_get_stage; exact _|]. intros stage.
  pose proof (stage_refs_loc l i stage) as Hrefs. induction Hrefs as [|r refs Hr _ IH]; simpl.
  { apply keeps_ret; exact _. }
  apply keeps_bind; [exact _|exact _|by apply keeps_record_created|done].
Qed.

(** A job the scheduler has never heard of. *)
Record submittable (j : Job) (s : Sched MemStore) : Prop := {
  sm_distinct : distinct_tasks j;
  sm_tasks : ∀ i k t, job_task j i k = Some t → t_JobID t = "" ∨ t_JobID t = j_ID j;
  sm_new : ∀ st, sc_store s = Some st → job_log st (j_ID j) = [];
}.

Definition submit_new (j : Job) : M MemStore (option error) :=
  l ← new_job j; SubmitJobWithContext cfg E l.

Lemma fresh_cell_inv j s :
  Inv s → Inv (set_next (S (sc_next s)) (set_heap (<[sc_next s := j]> (sc_heap s)) s)).
Proof.
  intros [I1 I2 I3 I4].
  assert (∀ l j0, sc_heap s !! l = Some j0 → <[sc_next s := j]> (sc_heap s) !! l = Some j0) as Hold.
  { intros l j0 Hl. rewrite lookup_insert_ne; [done|]. intros <-.
    pose proof (I3 (sc_next s) ltac:(eauto)). lia. }
  split.
  - unfold coh in *. simpl. destruct (sc_store s) as [st|]; [|done].
    destruct I1 as [C1 C2 C3 CI C4 C5]. split; [done..|]. simpl.
    intros id l (j0 & Hj0 & Hv)%C5. eauto.
  - intros id l (j0 & Hj0 & Hid)%I2. simpl. eauto.
  - intros l. simpl. destruct (decide (sc_next s = l)) as [<-|]; [lia|].
    rewrite lookup_insert_ne by done. intros Hl%I3. lia.
  - eapply Forall_impl; [exact I4|]. intros l (j0 & Hj0 & Hl). exists j0. simpl. auto.
Qed.

Lemma submittable_view j s st :
  submittable j s → sc_store s = Some st →
  job_view (j_ID j) (job_log st (j_ID j)) (with_job_status JobPending j).
Proof.
  intros [Hd Ht Hn] Hst. rewrite (Hn st Hst). split; [done| |by left| |done].
  - split; [constructor|]. done.
  - intros i k t Hin. destruct (Ht i k t Hin); [by right|left; by auto].
Qed.

Lemma reserve_run l (s s' : Sched MemStore) err :
  submit_reserve cfg l s = Some (err, s') →
  (∃ e, err = Some e ∧ s' = s) ∨
  (err = None ∧ ∃ j, sc_heap s !! l = Some j ∧ sc_jobs s !! j_ID j = None ∧
   s' = set_jobs (<[j_ID j := l]> (sc_jobs s))
          (set_heap (<[l := with_job_status JobPending j]> (sc_heap s))
             (set_pending (sc_pendingEnqueue s + 1) s))).
Proof.
  unfold submit_reserve. intros (? & ? & [-> ->]%get_Some & H)%bind_Some.
  simp_if; [apply ret_Some in H as [-> ->]; by eauto|].
  apply bind_Some in H as (j & ? & [Hj ->]%get_job_Some & H).
  destruct (sc_jobs s !! j_ID j) eqn:Hl; [apply ret_Some in H as [-> ->]; by eauto|].
  simp_if; [|apply ret_Some in H as [-> ->]; by eauto].
  apply bind_Some in H as (? & s1 & H1 & H). injection H1 as <- <-.
  apply bind_Some in H as (? & s1 & (j1 & Hj1 & ->)%update_job_Some & H).
  apply bind_Some in H as (? & s1 & H1 & H). injection H1 as <- <-.
  apply ret_Some in H as [-> ->]. simpl in Hj1. simplify_eq. right. split; [done|].
  exists j. done.
Qed.

Lemma submit_inv j s a s' :
  submit_new j s = Some (a, s') → bounded s' → submittable j s → Inv s → Inv s'.
Proof.
  unfold submit_new. intros (l & s1 & H1 & H)%bind_Some Hb Hsub HI. injection H1 as <- <-.
  unfold SubmitJobWithContext in H. apply bind_Some in H as (err & s2 & Hres & H).
  apply reserve_run in Hres as [(e & -> & ->)|(-> & j0 & Hj0 & Hnone & ->)].
  { apply ret_Some in H as [_ ->]. by apply fresh_cell_inv. }
  simpl in Hj0. rewrite lookup_insert_eq in Hj0. simplify_eq.
  set (s2 := set_jobs _ _) in H.
  assert (added (j_ID j0) (with_job_status JobPending j0) 0 s s2) as Hadd.
  { split; [done| |done..|].
    - simpl. by rewrite insert_insert_eq.
    - intros id'. unfold seqn. simpl. destruct (String.eqb_spec (j_ID j0) id') as [<-|]; [lia|done]. }
  assert (Inv s2) as HI2.
  { eapply added_inv; [exact Hadd|done| |done]. intros st Hst Hcoh.
    split_and!; [by eapply submittable_view|lia|]. rewrite (sm_new _ _ Hsub st Hst). constructor. }
  apply bind_Some in H as (? & s3 & Hrec & H). apply bind_Some in H as (? & s4 & Hcom & H).
  apply ret_Some in H as [_ ->].
  assert (submitted (sc_next s) (j_ID j0) s2) as Hs2.
  { split; [split; [apply HI2|]|]; eexists; (split; [apply lookup_insert_eq|done || apply lookup_insert_eq]). }
  pose proof (keeps_recordInitial _ _ _ _ _ Hs2 Hrec) as Hex.
  unfold submit_commit in Hcom. apply bind_Some in Hcom as (? & s5 & H5 & Hcom).
  assert (unseen s3 s5) as Hun5.
  { injection H5 as <- <-. split; [done..|exact (same_queue s3)]. }
  assert (registered (sc_next s) s5) as Hreg.
  { assert (submitted (sc_next s) (j_ID j0) s3) as [[_ (j3 & Hj3 & Hl3)] _]
      by (by eapply submitted_stable).
    eapply registered_exec; [by apply unseen_exec|]. exists j3. by rewrite Hl3. }
  pose proof (unseen_trans _ _ _ Hun5 (enqueue_unseen _ _ _ _ Hcom Hreg)) as Hun.
  eapply unseen_inv; [exact Hun|done|].
  eapply exec_inv; [exact Hex|by eapply frame_recordInitial| |done].
  eapply bounded_before; [|exact Hb]. apply (un_tick _ _ Hun).
Qed.

(** *** Reconciliation in follower mode *)

Lemma seed_inv id last trs s a s' :
  seedJobSequenceLocked id last trs s = Some (a, s') → Inv s →
  (∀ st, sc_store s = Some st → (last ≤ bound B s)%N ∧
     Forall (λ r, (tr_SequenceID r ≤ bound B s)%N) trs) → Inv s'.
Proof.
  intros (m & -> & Hm)%seed_run [I1 I2 I3 I4] Hle. split; [|done|done|].
  - unfold coh in *. simpl. destruct (sc_store s) as [st|] eqn:Hst; [|done].
    destruct (Hle st eq_refl) as [Hlast Htrs].
    destruct (max_sequence_spec last trs) as (_ & _ & H3). specialize (H3 _ Hlast Htrs).
    assert (∀ id', seqn (set_sequences m s) id' = map_get 0%N m id') as Hsq by done.
    destruct I1 as [C1 C2 C3 CI C4 C5]. split; [done|done| |done| |done].
    + intros id'. rewrite Hsq, Hm. pose proof (C3 id). pose proof (C3 id').
      change (bound B (set_sequences m s)) with (bound B s). simp_if; lia.
    + intros id' Hreg. eapply Forall_impl; [by apply C4|]. simpl. intros r Hr.
      rewrite Hsq, Hm. destruct (String.eqb_spec id id') as [<-|]; lia.
  - eapply Forall_impl; [exact I4|]. intros l. done.
Qed.

(** A replayed job merged with its index entry. *)
Record good_replayed (st : MemStore) (s : Sched MemStore) (r : ReplayedJobState) : Prop := {
  gr_ok : replayed_ok st (dj_JobID (rs_Job r)) r;
  gr_last : (dj_LastSequenceID (rs_Job r) ≤ bound B s)%N;
}.

Lemma merge_good st s d r :
  replayed_ok st (dj_JobID d) r → (dj_LastSequenceID d ≤ bound B s)%N →
  Forall (λ r, (tr_SequenceID r ≤ bound B s)%N) (job_log st (dj_JobID d)) →
  good_replayed st s (merge_listed_job d r).
Proof.
  intros [R1 R2 R3 R4 R5 R6] Hd Hl. split.
  - split; simpl; rewrite ?R1; done.
  - simpl. rewrite R4. destruct (rev (job_log st (dj_JobID d))) as [|t l] eqn:Hrev; [done|].
    simp_if; [|done]. rewrite Forall_forall in Hl. apply Hl.
    rewrite <-elem_of_reverse. unfold reverse. rewrite <-rev_alt, Hrev. by left.
Qed.

Lemma good_later st s s' r : clock_le s s' → good_replayed st s r → good_replayed st s' r.
Proof. intros Hc [G1 G2]. split; [done|]. unfold clock_le, bound in *. lia. Qed.

Lemma good_transitions st s r :
  good_replayed st s r → sc_store s = Some st → coh B s →
  Forall (λ t, (tr_SequenceID t ≤ bound B s)%N) (rs_Transitions r).
Proof.
  intros [G1 _] Hst Hcoh. rewrite (ro_transitions _ _ _ G1). unfold coh in Hcoh.
  rewrite Hst in Hcoh. apply Hcoh.
Qed.

Lemma insert_good_inv st r s l s1 a s2 :
  good_replayed st s r → sc_store s = Some st →
  insert_recovered E r s = Some (l, s1) →
  seedJobSequenceLocked (dj_JobID (rs_Job r)) (dj_LastSequenceID (rs_Job r)) (rs_Transitions r) s1
    = Some (a, s2) → Inv s → Inv s2.
Proof.
  intros [G1 G2] Hst H1 H2. pose proof (insert_seed_added _ _ _ _ _ _ _ _ _ H1 H2 eq_refl) as Hadd.
  eapply rebuilt_added; [exact Hadd|done|exact G1|apply same_shape_refl|done].
Qed.

Lemma warm_update_inv st r l s u s' :
  good_replayed st s r → sc_store s = Some st → sc_jobs s !! dj_JobID (rs_Job r) = Some l →
  update_job l (λ j, with_job_updated (dj_UpdatedAt (rs_Job r))
                       (with_job_state (dj_CurrentState (rs_Job r)) j)) s = Some (u, s') →
  bounded s' → Inv s → Inv s'.
Proof.
  intros [G1 G2] Hst Hl (j & Hj & ->)%update_job_Some Hb HI.
  destruct (inv_jobs _ HI _ _ Hl) as (j0 & Hj0 & Hid). simplify_eq.
  eapply exec_inv; [|eapply (frame_heap _ (λ j, with_job_updated _ (with_job_state _ j))); done|
    done|done].
  eapply heap_exec; [done|done|]. intros st' Hst' _ [V1 V2 V3 V4 V5]. simplify_eq.
  split; [done..| |done|done]. right. simpl. rewrite Hid. symmetry. apply G1.
Qed.

Lemma reconcile_locked_inv d st r s u s' :
  reconcile_locked cfg E ReconcileModeFollower d r s = Some (u, s') →
  good_replayed st s r → sc_store s = Some st → bounded s' → Inv s → Inv s'.
Proof.
  unfold reconcile_locked. intros (? & ? & [-> ->]%get_Some & H)%bind_Some Hg Hst Hb HI.
  apply bind_Some in H as (l & s1 & H & Hret). apply ret_Some in Hret as [_ ->].
  destruct (sc_jobs s !! dj_JobID (rs_Job r)) as [l0|] eqn:Hl.
  - simp_if; [|by apply ret_Some in H as [_ ->]].
    apply bind_Some in H as (j & ? & [Hj ->]%get_job_Some & H).
    apply bind_Some in H as (? & s2 & Hup & H). apply bind_Some in H as (? & s3 & Hseed & H).
    apply ret_Some in H as [_ ->].
    pose proof (proj1 (update_job_Some _ _ _ _ _) Hup) as (j' & Hj' & Hs2).
    assert (bounded s2) as Hb2.
    { eapply bounded_before; [|exact Hb]. by eapply clock_seed. }
    assert (Inv s2) as HI2 by (by eapply warm_update_inv).
    assert (good_replayed st s2 r ∧ sc_store s2 = Some st) as [Hg2 Hst2].
    { subst s2. split; [|done]. destruct Hg. by split. }
    eapply seed_inv; [exact Hseed|done|]. intros st' Hst'. split; [apply Hg2|].
    eapply good_transitions; [done|done|apply HI2].
  - apply bind_Some in H as (l1 & s2 & H1 & H). apply bind_Some in H as (? & s3 & H2 & H).
    apply ret_Some in H as [_ ->]. by eapply insert_good_inv.
Qed.

Lemma now_unseen (s s' : Sched MemStore) t : now E s = Some (t, s') → unseen s s'.
Proof.
  intros H. injection H as <- <-. split; [unfold sc_tick; simpl; lia|done..|exact (same_queue s)].
Qed.

Lemma clear_unseen id (s s' : Sched MemStore) u :
  clearReplayQuarantine id s = Some (u, s') → unseen s s'.
Proof. intros [= <- <-]. split; [done..|exact (same_queue s)]. Qed.

Lemma reconcile_replay_inv d st s u s' :
  reconcile_replay cfg E ReconcileModeFollower d s = Some (u, s') →
  sc_store s = Some st → ms_jobs st !! dj_JobID d = Some d → bounded s' → Inv s → Inv s'.
Proof.
  unfold reconcile_replay. intros (res & s1 & Hr & H)%bind_Some Hst Hd Hb HI.
  destruct res as [err|r].
  { apply ret_Some in H as [_ ->]. apply replay_job_run in Hr as [Hun _]. by eapply unseen_inv. }
  apply replay_job_ok in Hr as (Hun & st' & Hst' & Hok & _). simplify_eq.
  apply bind_Some in H as (? & s2 & Hq & H). cbn [is_leader_mode andb] in H.
  apply bind_Some in H as (stale & s3 & Hs & H). apply ret_Some in Hs as [-> ->].
  pose proof (unseen_trans _ _ _ Hun (clear_unseen _ _ _ _ Hq)) as Hun2.
  assert (bounded s2) as Hb2.
  { eapply bounded_before; [|exact Hb]. by eapply clock_locked. }
  assert (Inv s2) as HI2 by (by eapply unseen_inv).
  assert (sc_store s2 = Some st') as Hst2 by (by rewrite (un_store _ _ Hun2)).
  pose proof (inv_coh _ HI2) as Hcoh. unfold coh in Hcoh. rewrite Hst2 in Hcoh.
  eapply reconcile_locked_inv; [exact H| |exact Hst2|done|done].
  apply merge_good; [done| |apply Hcoh]. apply (co_index_bound _ _ _ Hcoh _ _ Hd).
Qed.

Lemma reconcile_job_inv d st s u s' :
  reconcile_job cfg E ReconcileModeFollower d s = Some (u, s') →
  sc_store s = Some st → ms_jobs st !! dj_JobID d = Some d → bounded s' → Inv s → Inv s'.
Proof.
  unfold reconcile_job. intros (q & ? & Hq & H)%bind_Some Hst Hd Hb HI.
  apply bind_Some in Hq as (? & ? & [-> ->]%get_Some & Hq). apply ret_Some in Hq as [-> ->].
  apply bind_Some in H as (skip & s1 & Hskip & H).
  assert (unseen s s1) as Hun.
  { destruct (sc_replayQuarantine s !! dj_JobID d); [|apply ret_Some in Hskip as [_ ->]; apply unseen_refl].
    apply bind_Some in Hskip as (t & s2 & Ht%now_unseen & Hskip).
    destruct (Before t _); [by apply ret_Some in Hskip as [_ ->]|].
    apply bind_Some in Hskip as (? & s3 & Hc%clear_unseen & Hskip).
    apply ret_Some in Hskip as [_ ->]. by eapply unseen_trans. }
  destruct skip; [apply ret_Some in H as [_ ->]; by eapply unseen_inv|].
  cbn [is_leader_mode] in H. apply bind_Some in H as (enq & s2 & Henq & H).
  apply ret_Some in Henq as [-> ->].
  eapply reconcile_replay_inv; [exact H|by rewrite (un_store _ _ Hun)|exact Hd|done|].
  eapply unseen_inv; [exact Hun| |done]. eapply bounded_before; [|exact Hb].
  pose proof (clock_reconcile_replay cfg E ReconcileModeFollower d s1 u s' I H). done.
Qed.

Lemma ctx_unseen (s s' : Sched MemStore) e : ctx_Err E s = Some (e, s') → unseen s s'.
Proof.
  unfold ctx_Err. intros (n & s1 & H%tick_unseen & H2)%bind_Some. by apply ret_Some in H2 as [_ ->].
Qed.

Lemma reconcile_loop_inv jobs st s a s' :
  reconcile_loop cfg E ReconcileModeFollower jobs s = Some (a, s') →
  sc_store s = Some st → Forall (λ d, ms_jobs st !! dj_JobID d = Some d) jobs →
  bounded s' → Inv s → Inv s'.
Proof.
  intros H Hst Hjobs. revert s H Hst. induction Hjobs as [|d jobs Hd _ IH]; intros s H Hst Hb HI;
    cbn [reconcile_loop] in H; [by apply ret_Some in H as [_ ->]|].
  apply bind_Some in H as (e & s1 & Hun%ctx_unseen & H).
  destruct e; [apply ret_Some in H as [_ ->]; by eapply unseen_inv|].
  apply bind_Some in H as (? & s2 & Hd2 & H).
  assert (bounded s2) as Hb2 by (eapply bounded_before; [by eapply clock_reconcile_loop|done]).
  assert (bounded s1) as Hb1 by (eapply bounded_before; [by eapply clock_reconcile_job|done]).
  assert (sc_store s1 = Some st) as Hst1 by (by rewrite (un_store _ _ Hun)).
  eapply IH; [exact H| |done|].
  - rewrite <-Hst1. by eapply (rd_store _ _ (readonly_reconcile_job _ _ _ _ _ _ I Hd2)).
  - eapply reconcile_job_inv; [exact Hd2|done|done|done|]. by eapply unseen_inv.
Qed.

Lemma unfinished_listed st :
  store_wf st →
  Forall (λ d, ms_jobs st !! dj_JobID d = Some d)
    (filter (λ job, IsTerminalJobState (dj_CurrentState job) = false) (map_values (ms_jobs st))).
Proof.
  intros Hwf. apply Forall_forall. intros d [_ Hd]%list_elem_of_filter.
  apply elem_of_map_values in Hd as [k Hk]. by rewrite (wf_jobs _ Hwf _ _ Hk).
Qed.

Lemma reconcile_inv s a s' :
  reconcileDurableQueuedJobsOnce cfg E ReconcileModeFollower s = Some (a, s') →
  bounded s' → Inv s → Inv s'.
Proof.
  unfold reconcileDurableQueuedJobsOnce. intros (? & ? & [-> ->]%get_Some & H)%bind_Some Hb HI.
  destruct (sc_store s) as [st|] eqn:Hst; [|by apply ret_Some in H as [_ ->]].
  simpl in H. apply bind_Some in H as (err & s1 & Hloop & H).
  assert (clock_le s1 s' ∧ (Inv s1 → Inv s')) as [Hc Hlast].
  { destruct err; [by apply ret_Some in H as [_ ->]|].
    apply bind_Some in H as (t & s2 & Ht%now_unseen & H). apply bind_Some in H as (? & s3 & H3 & H).
    apply ret_Some in H as [_ ->]. injection H3 as <- <-.
    assert (unseen s1 (set_lastReconcile t s2)) as Hun.
    { eapply unseen_trans; [exact Ht|]. split; [done..|exact (same_queue s2)]. }
    split; [apply Hun|]. intros. by eapply unseen_inv. }
  apply Hlast. eapply reconcile_loop_inv; [exact Hloop|done| |by eapply bounded_before|done].
  pose proof (inv_coh _ HI) as Hcoh. unfold coh in Hcoh. rewrite Hst in Hcoh.
  rewrite go_sort_perm, go_sort_perm. apply unfinished_listed, Hcoh.
Qed.

(** *** Start-up recovery *)

Lemma replay_jobs_good ctx n st s jobs l :
  (replay_jobs ctx n st None jobs).1 = inr l → coh_store B s st →
  Forall (λ d, ms_jobs st !! dj_JobID d = Some d) jobs → Forall (good_replayed st s) l.
Proof.
  intros H Hcoh Hjobs. revert n l H.
  induction Hjobs as [|d jobs Hd _ IH]; intros n l; cbn [replay_jobs]; [by intros [= <-]|].
  destruct (ctx n); [done|].
  destruct (ReplayJobState ctx (S n) (Some st) (dj_JobID d)) as [res n1] eqn:Hr.
  destruct res as [err|r]; [done|].
  assert ((ReplayJobState ctx (S n) (Some st) (dj_JobID d)).1 = inr r) as Hr' by (by rewrite Hr).
  apply ReplayJobState_ok in Hr' as [Hok _]. specialize (IH n1).
  destruct (replay_jobs ctx n1 st None jobs) as [[err|l'] n2]; [done|].
  intros [= <-]. constructor; [|by apply IH].
  apply merge_good; [done| |apply Hcoh]. apply (co_index_bound _ _ _ Hcoh _ _ Hd).
Qed.

Lemma ReplayStateFromStore_good ctx n st s l :
  (ReplayStateFromStore ctx n (Some st)).1 = inr l → coh_store B s st →
  Forall (good_replayed st s) l.
Proof.
  unfold ReplayStateFromStore. simpl. set (jobs := go_sort _ _). intros H Hcoh.
  destruct (replay_jobs ctx n st None jobs) as [[err|l'] n'] eqn:Hr; simplify_eq/=.
  rewrite go_sort_perm. eapply replay_jobs_good; [by rewrite Hr|done|].
  unfold jobs. rewrite go_sort_perm. apply unfinished_listed, Hcoh.
Qed.

Lemma registered_added id j m s s' l :
  added id j m s s' → Inv s → registered l s → registered l s'.
Proof.
  intros [Ht Hh Hn Hj Hst Hq Hsq] HI (j0 & Hj0 & Hreg). exists j0. rewrite Hh, Hj. split.
  - rewrite lookup_insert_ne; [done|]. intros <-.
    pose proof (inv_next _ HI (sc_next s) ltac:(eauto)). lia.
  - destruct (decide (id = j_ID j0)) as [->|]; [rewrite lookup_insert_eq; eauto|].
    by rewrite lookup_insert_ne.
Qed.

(** The state of the recovery loops. *)
Record recovering (st : MemStore) (recovered : list loc) (s : Sched MemStore) : Prop := {
  rg_inv : Inv s;
  rg_store : sc_store s = Some st;
  rg_jobs : Forall (λ l, registered l s) recovered;
}.

Lemma recovering_unseen st recovered s s' :
  unseen s s' → bounded s' → recovering st recovered s → recovering st recovered s'.
Proof.
  intros Hun Hb [R1 R2 R3]. split; [by eapply unseen_inv|by rewrite (un_store _ _ Hun)|].
  eapply Forall_impl; [exact R3|]. intros l. apply registered_exec. by apply unseen_exec.
Qed.

Lemma recover_job_inv st r recovered s recovered' s' :
  recover_job E r recovered s = Some (recovered', s') → good_replayed st s r →
  recovering st recovered s → recovering st recovered' s'.
Proof.
  unfold recover_job. intros (? & ? & [-> ->]%get_Some & H)%bind_Some Hg [R1 R2 R3].
  destruct (sc_jobs s !! dj_JobID (rs_Job r)) as [l0|] eqn:Hl.
  - apply bind_Some in H as (? & s1 & Hseed & H). apply ret_Some in H as [-> ->].
    assert (Inv s1) as HI.
    { eapply seed_inv; [exact Hseed|done|]. intros _ _. split; [apply Hg|].
      eapply good_transitions; [done|done|apply R1]. }
    apply seed_run in Hseed as (m & -> & _). done.
  - apply bind_Some in H as (l & s1 & H1 & H). apply bind_Some in H as (? & s2 & H2 & H).
    apply ret_Some in H as [-> ->].
    pose proof (insert_seed_added _ _ _ _ _ _ _ _ _ H1 H2 eq_refl) as Hadd.
    split; [by eapply insert_good_inv|by rewrite (ad_store _ _ _ _ _ Hadd)|].
    apply Forall_app. split.
    + eapply Forall_impl; [exact R3|]. intros l1. by eapply registered_added.
    + constructor; [|done]. eexists. rewrite (ad_heap _ _ _ _ _ Hadd), (ad_jobs _ _ _ _ _ Hadd).
      assert (l = sc_next s) as ->.
      { unfold insert_recovered in H1. apply bind_Some in H1 as (l' & s3 & Hn & H1).
        apply bind_Some in H1 as (? & s4 & Hm & H1). apply ret_Some in H1 as [-> _].
        by injection Hn as <- _. }
      split; [apply lookup_insert_eq|]. simpl. rewrite lookup_insert_eq. eauto.
Qed.

Lemma recover_batch_inv st l processed recovered s res s' :
  recover_batch E l processed recovered s = Some (res, s') → bounded s' →
  Forall (good_replayed st s) l → recovering st recovered s →
  match res with
  | inr (_, recovered') => recovering st recovered' s'
  | inl _ => Inv s'
  end.
Proof.
  revert processed recovered s. induction l as [|r l IH]; intros processed recovered s;
    cbn [recover_batch]; intros H Hb Hg HR.
  { by apply ret_Some in H as [-> ->]. }
  apply bind_Some in H as (e & s1 & He & H).
  assert (unseen s s1) as Hun.
  { destruct (_ =? 0); [by eapply ctx_unseen|]. apply ret_Some in He as [_ ->]. apply unseen_refl. }
  destruct e as [err|].
  { apply ret_Some in H as [-> ->]. eapply unseen_inv; [done|done|apply HR]. }
  apply bind_Some in H as (rec' & s2 & Hrec & H).
  assert (clock_le s1 s2) as Hc by (by eapply clock_recover_job).
  assert (bounded s2) as Hb2 by (eapply bounded_before; [by eapply clock_recover_batch|done]).
  inversion_clear Hg as [|? ? Hr Hl].
  eapply IH; [exact H|done| |].
  - eapply Forall_impl; [exact Hl|]. intros x. apply good_later.
    etrans; [|exact Hc]. apply (un_tick _ _ Hun).
  - eapply recover_job_inv; [exact Hrec| |].
    + eapply good_later; [|exact Hr]. apply (un_tick _ _ Hun).
    + eapply recovering_unseen; [exact Hun|by eapply bounded_before|done].
Qed.

Lemma recover_batches_inv st n l processed recovered s res s' :
  recover_batches cfg E n l processed recovered s = Some (res, s') → bounded s' →
  Forall (good_replayed st s) l → recovering st recovered s →
  match res with
  | inr recovered' => recovering st recovered' s'
  | inl _ => Inv s'
  end.
Proof.
  revert l processed recovered s. induction n as [|n IH]; intros l processed recovered s H Hb Hg HR.
  { destruct l; cbn [recover_batches] in H; by apply ret_Some in H as [-> ->]. }
  destruct l as [|r0 l0]; cbn [recover_batches] in H; [by apply ret_Some in H as [-> ->]|].
  set (l := r0 :: l0) in *.
  apply bind_Some in H as (e & s1 & Hun%ctx_unseen & H). destruct e as [err|].
  { apply ret_Some in H as [-> ->]. eapply unseen_inv; [done|done|apply HR]. }
  apply bind_Some in H as (res1 & s2 & Hbatch & H).
  assert (clock_le s1 s2) as Hc12 by (by eapply clock_recover_batch).
  destruct res1 as [err|[processed' recovered']].
  { apply ret_Some in H as [-> ->].
    pose proof (recover_batch_inv st _ _ _ _ _ _ Hbatch Hb) as Hinv. apply Hinv.
    - apply Forall_take. eapply Forall_impl; [exact Hg|]. intros x. apply good_later, Hun.
    - eapply recovering_unseen; [exact Hun|by eapply bounded_before|done]. }
  apply bind_Some in H as (e & s3 & Hun3%ctx_unseen & H).
  assert (bounded s3) as Hb3.
  { destruct e; [by apply ret_Some in H as [_ ->]|].
    eapply bounded_before; [by eapply clock_recover_batches|done]. }
  assert (bounded s2) as Hb2 by (eapply bounded_before; [apply Hun3|done]).
  pose proof (recover_batch_inv st _ _ _ _ _ _ Hbatch Hb2) as Hinv.
  assert (recovering st recovered' s2) as HR2.
  { apply Hinv.
    - apply Forall_take. eapply Forall_impl; [exact Hg|]. intros x. apply good_later, Hun.
    - eapply recovering_unseen; [exact Hun|by eapply bounded_before|done]. }
  pose proof (recovering_unseen _ _ _ _ Hun3 Hb3 HR2) as HR3.
  destruct e as [err|]; [apply ret_Some in H as [-> ->]; apply HR3|].
  eapply IH; [exact H|done| |exact HR3]. apply Forall_drop.
  eapply Forall_impl; [exact Hg|]. intros x. apply good_later.
  etrans; [apply Hun|]. etrans; [exact Hc12|apply Hun3].
Qed.

Lemma resume_inv st recovered s u s' :
  resumeRecoveredQueuedJobsLocked cfg recovered s = Some (u, s') → bounded s' →
  recovering st recovered s → Inv s'.
Proof.
  unfold resumeRecoveredQueuedJobsLocked. revert s.
  induction recovered as [|l recovered IH]; intros s H Hb HR; simpl in H.
  { apply ret_Some in H as [_ ->]. apply HR. }
  apply bind_Some in H as (? & s1 & H1 & H).
  destruct HR as [R1 R2 R3]. inversion_clear R3 as [|? ? Hl Hrest].
  assert (unseen s s1) as Hun.
  { unfold resume_recovered in H1. apply bind_Some in H1 as (j & ? & [_ ->]%get_job_Some & H1).
    destruct (negb _); [apply ret_Some in H1 as [_ ->]; apply unseen_refl|].
    destruct (negb _); [apply ret_Some in H1 as [_ ->]; apply unseen_refl|].
    apply bind_Some in H1 as (b & s2 & H1 & H2). apply ret_Some in H2 as [_ ->].
    by eapply enqueue_unseen. }
  eapply IH; [exact H|done|]. eapply recovering_unseen; [exact Hun| |by split].
  eapply bounded_before; [|exact Hb]. by eapply (clock_resume cfg recovered).
Qed.

Lemma recover_inv s a s' :
  RecoverFromTransitions cfg E s = Some (a, s') → bounded s' → Inv s → Inv s'.
Proof.
  unfold RecoverFromTransitions. intros (? & ? & [-> ->]%get_Some & H)%bind_Some Hb HI.
  destruct (sc_store s) as [st|] eqn:Hst; [|by apply ret_Some in H as [_ ->]].
  pose proof (ReplayStateFromStore_clock (env_ctx E) (sc_tick s) (Some st)) as Hclock.
  pose proof (inv_coh _ HI) as Hcoh. unfold coh in Hcoh. rewrite Hst in Hcoh.
  pose proof (λ l, ReplayStateFromStore_good (env_ctx E) (sc_tick s) st s l) as Hgood.
  destruct (ReplayStateFromStore (env_ctx E) (sc_tick s) (Some st)) as [res n]. simpl in Hclock, Hgood.
  apply bind_Some in H as (? & s1 & H1 & H). injection H1 as <- <-.
  set (s1 := set_nodes _ s) in *.
  assert (unseen s s1) as Hun by (split; [done..|exact (same_queue s)]).
  destruct res as [err|replayed]; [apply ret_Some in H as [_ ->]; by eapply unseen_inv|].
  specialize (Hgood replayed eq_refl Hcoh).
  apply bind_Some in H as (res & s2 & Hrec & H).
  assert (clock_le s2 s') as Hc2.
  { destruct res; [by apply ret_Some in H as [_ ->]|].
    apply bind_Some in H as (? & s3 & H & Hret). apply ret_Some in Hret as [_ ->].
    destruct (EnableResumeRecoveredQueuedJobs cfg); [by eapply clock_resume|].
    by apply ret_Some in H as [_ ->]. }
  assert (bounded s2) as Hb2 by (by eapply bounded_before).
  assert (bounded s1) as Hb1 by (eapply bounded_before; [by eapply clock_recover_batches|done]).
  pose proof (recover_batches_inv st _ _ _ _ _ _ _ Hrec Hb2) as Hinv.
  assert (recovering st [] s1) as HR1.
  { split; [by eapply unseen_inv|done|constructor]. }
  assert (Forall (good_replayed st s1) replayed) as Hg1.
  { eapply Forall_impl; [exact Hgood|]. intros x. apply good_later, Hun. }
  specialize (Hinv Hg1 HR1).
  destruct res as [err|recovered]; [by apply ret_Some in H as [_ ->]|].
  apply bind_Some in H as (? & s3 & H & Hret). apply ret_Some in Hret as [_ ->].
  destruct (EnableResumeRecoveredQueuedJobs cfg); [by eapply resume_inv|].
  apply ret_Some in H as [_ ->]. apply Hinv.
Qed.

(** *** Retention *)

(** Jobs are forgotten, with their counters; nothing else changes. *)
Record forgets (s s' : Sched MemStore) : Prop := {
  fo_tick : sc_tick s' = sc_tick s;
  fo_heap : sc_heap s' = sc_heap s;
  fo_next : sc_next s' = sc_next s;
  fo_store : sc_store s' = sc_store s;
  fo_queue : sc_queue s' = sc_queue s;
  fo_jobs : ∀ id l, sc_jobs s' !! id = Some l →
    sc_jobs s !! id = Some l ∧ seqn s' id = seqn s id;
  fo_seq : ∀ id, (seqn s' id ≤ seqn s id)%N;
}.
#[local] Instance forgets_pre : PreOrder forgets.
Proof.
  split; [by intros s; split|]. intros a b c [A1 A2 A3 A4 A5 A6 A7] [B1 B2 B3 B4 B5 B6 B7].
  split; try congruence.
  - intros id l [Hl ->]%B6. by apply A6.
  - intros id. specialize (A7 id). specialize (B7 id). lia.
Qed.

Lemma forget_job_forgets id (s : Sched MemStore) : forgets s (forget_job id s).
Proof.
  split; try done; unfold seqn, map_get; simpl.
  - intros id' l [Hne Hl]%lookup_delete_Some. by rewrite lookup_delete_ne.
  - intros id'. destruct (decide (id = id')) as [<-|].
    + rewrite lookup_delete_eq. simpl. lia.
    + by rewrite lookup_delete_ne.
Qed.

Lemma cleanup_forgets t : keeps any forgets (cleanupTerminalJobsOnce cfg t : M MemStore _).
Proof.
  assert (∀ id, keeps any forgets (modify (forget_job id) : M MemStore _)) as Hf.
  { intros id. apply keeps_modify. intros s _. apply forget_job_forgets. }
  assert (∀ c es n, keeps any forgets (cleanup_loop c es n : M MemStore _)) as Hloop.
  { intros c es. induction es as [|e es IH]; intros n; cbn [cleanup_loop]; unfold cleanup_job;
      repeat (first [solve [eauto with nocore] | keeps_step]). }
  unfold cleanupTerminalJobsOnce. repeat (first [solve [eauto with nocore] | keeps_step]).
Qed.

Lemma forgets_inv s s' :
  forgets s s' → Forall (λ l, registered l s') (sc_queue s') → Inv s → Inv s'.
Proof.
  intros [F1 F2 F3 F4 F5 F6 F7] Hq [I1 I2 I3 I4]. split; [| | |done].
  - unfold coh in *. rewrite F4. destruct (sc_store s) as [st|]; [|done].
    assert (bound B s' = bound B s) as Hb by (unfold bound; by rewrite F1).
    destruct I1 as [C1 C2 C3 CI C4 C5]. split; rewrite ?Hb; try done.
    + intros id. specialize (F7 id). specialize (C3 id). lia.
    + intros id [l [Hl ->]%F6]. apply C4. by eexists.
    + intros id l [Hl _]%F6. rewrite F2. by apply C5.
  - intros id l [Hl _]%F6. rewrite F2. by apply I2.
  - intros l. rewrite F2, F3. apply I3.
Qed.
End Operations.

(** ** Reachable states *)

Section Reach.
Context (cfg : SchedulerConfig) (E : Env).

(** The operations of a scheduler process: its callers, its dispatch loop, its
    follower reconcile loop, its start-up and its retention loop.

    Left out are what breaks the agreement of memory and log: submitting a job
    under an id the store has a log of, [ResumeAwaitingHumanJob], which dispatches
    failed tasks again, and reconciliation as a leader, which marks jobs as failed
    whose history does not replay.  A cleanup that forgets a job in the queue, one
    that ended elsewhere, is left out too. *)
Inductive step : Sched MemStore → Sched MemStore → Prop :=
  | step_submit j err s s' :
      submittable j s → submit_new cfg E j s = Some (err, s') → step s s'
  | step_run continue s s' :
      run_once cfg E s = Some (continue, s') → step s s'
  | step_get id res s s' :
      GetJob E id s = Some (res, s') → step s s'
  | step_reconcile err s s' :
      reconcileDurableQueuedJobsOnce cfg E ReconcileModeFollower s = Some (err, s') → step s s'
  | step_recover err s s' :
      RecoverFromTransitions cfg E s = Some (err, s') → step s s'
  | step_cleanup t pruned s s' :
      cleanupTerminalJobsOnce cfg t s = Some (pruned, s') →
      Forall (λ l, registered l s') (sc_queue s') → step s s'
  | step_capacity nodeID inFlight maxConcurrency reportedAt u s s' :
      on_nodes (UpdateNodeCapacityAt cfg (env_now E) nodeID inFlight maxConcurrency reportedAt) s
        = Some (u, s') → step s s'.

Lemma clock_step s s' : step s s' → clock_le s s'.
Proof.
  assert (∀ id, keeps any clock_le (getJobPointer E id : M MemStore _)) as Hget
    by (intros; apply clock_getJobPointer).
  intros [j err s1 s2 _ H|c s1 s2 H|id res s1 s2 H|err s1 s2 H|err s1 s2 H|t m s1 s2 H _|n i m r u s1 s2 H];
    revert H; (apply keeps_run with (P := any); [|done]).
  - unfold submit_new, SubmitJobWithContext, submit_reserve, submit_commit.
    pose proof (@clock_recordInitial MemStore _ _ E). pose proof (@clock_enqueue MemStore cfg).
    repeat (first [solve [eauto with nocore] | keeps_step | apply clock_new | apply clock_job |
                   by apply clock_modify]).
  - unfold run_once, markJobDequeued, dispatchAuthority.
    pose proof (@clock_isExecutable MemStore). pose proof (@clock_requeue MemStore cfg E).
    pose proof (@clock_refresh MemStore _ _ E). pose proof (@clock_executeJob MemStore _ _ cfg E).
    repeat (first [solve [eauto with nocore] | keeps_step | apply clock_tick |
                   by apply clock_modify]).
  - unfold GetJob. repeat (first [solve [eauto with nocore] | keeps_step]).
  - unfold reconcileDurableQueuedJobsOnce, now.
    pose proof (@clock_reconcile_loop MemStore _ _ cfg E).
    repeat (first [solve [eauto with nocore] | keeps_step |
                   apply clock_nodes, forward_time_Now | by apply clock_modify]).
  - clear s1 s2 err. intros s1 a s2 _. unfold RecoverFromTransitions.
    intros (? & ? & [-> ->]%get_Some & H)%bind_Some.
    destruct (sc_store s1) as [st|] eqn:Hst; [|by apply ret_Some in H as [_ ->]].
    pose proof (ReplayStateFromStore_clock (env_ctx E) (sc_tick s1) (Some st)) as Hclock.
    destruct (ReplayStateFromStore _ _ _) as [res n].
    apply bind_Some in H as (? & s3 & H1 & H). injection H1 as <- <-.
    assert (clock_le s1 (set_nodes (set_tick n (sc_nodes s1)) s1)) as Hc by exact Hclock.
    etrans; [exact Hc|]. revert H. apply keeps_run with (P := any); [|done].
    pose proof (clock_recover_batches (St:=MemStore) cfg E).
    pose proof (@clock_resume MemStore cfg).
    repeat (first [solve [eauto with nocore] | keeps_step]).
  - intros s3 a s4 _ H. pose proof (cleanup_forgets cfg t _ _ _ I H) as F. unfold clock_le.
    by rewrite (fo_tick _ _ F).
  - apply clock_nodes. unfold UpdateNodeCapacityAt. pose proof (forward_getOrCreate cfg (env_now E)).
    repeat (first [solve [eauto with nocore] | forward_step]).
Qed.

Lemma step_inv B s s' : step s s' → bounded B s' → Inv B s → Inv B s'.
Proof.
  intros Hstep Hb HI. pose proof (clock_step _ _ Hstep) as Hc.
  destruct Hstep as [j err s1 s2 Hsub H|c s1 s2 H|id res s1 s2 H|err s1 s2 H|err s1 s2 H|t m s1 s2 H Hq|n i m r u s1 s2 H].
  - by eapply submit_inv.
  - by eapply run_once_inv.
  - by eapply GetJob_inv.
  - by eapply reconcile_inv.
  - by eapply recover_inv.
  - eapply forgets_inv; [|done|done]. by apply (cleanup_forgets cfg t _ _ _ I H).
  - eapply (unseen_inv B s1); [|done|done]. unfold on_nodes in H.
    destruct (UpdateNodeCapacityAt _ _ _ _ _ _ _) as [a ns]. injection H as <- <-.
    split; [done..|exact (same_queue s1)].
Qed.

Lemma reach_inv B s0 s : rtc step s0 s → bounded B s → Inv B s0 → Inv B s.
Proof.
  intros Hr Hb. induction Hr as [s|s1 s2 s3 Hst Hr IH]; intros HI; [done|].
  apply IH; [done|]. eapply step_inv; [done| |done].
  clear -Hb Hr. induction Hr as [|s1 s2 s3 Hst _ IH]; [done|].
  eapply bounded_before; [by apply clock_step|]. by apply IH.
Qed.

(** A store some earlier process left behind. *)
Definition store_below (B : N) (st : MemStore) : Prop :=
  store_wf st ∧ (∀ id, Forall (λ r, (tr_SequenceID r ≤ B)%N) (job_log st id)) ∧
  map_Forall (λ _ d, (dj_LastSequenceID d ≤ B)%N) (ms_jobs st).

Lemma new_scheduler_inv B st :
  store_below B st → Inv B (newSchedulerWithValidatedConfig cfg st).
Proof.
  intros (Hwf & Hlog & Hidx).
  assert (bound B (newSchedulerWithValidatedConfig cfg st) = B) as Hb by (unfold bound, sc_tick; simpl; lia).
  split; [|done| |constructor].
  - unfold coh. simpl. split; rewrite ?Hb; try done.
    + intros id. unfold seqn, map_get. cbn [sc_jobSequences newSchedulerWithValidatedConfig].
      rewrite lookup_empty. simpl. lia.
    + intros id [l Hl]. simpl in Hl. by rewrite lookup_empty in Hl.
  - intros l [? [=]].
Qed.

Lemma history_replays st id ctx n :
  history_ok id (job_log st id) → id ≠ "" → ctx_alive ctx →
  ∃ r, (ReplayJobState ctx n (Some st) id).1 = inr r.
Proof.
  intros (H1 & H2 & H3) Hid Hctx. unfold ReplayJobState.
  destruct (String.eqb_spec id ""); [done|]. simpl. fold (job_log st id).
  set (tasks := go_sort _ _). unfold replayJobStateFromData.
  rewrite replay_loop_alive by done. apply replay_fold_ok. split_and!; [done..|].
  intros id'. unfold cur_task_state. fold (replayed_task (replay_init id (job_log st id) tasks) id').
  by rewrite (proj1 (replay_init_task _ _ _ _)).
Qed.

Lemma replayed_task_exact st id ctx n r k :
  (ReplayJobState ctx n (Some st) id).1 = inr r →
  dt_CurrentState (replayed_task r k) = task_last k (job_log st id).
Proof.
  unfold ReplayJobState. destruct (String.eqb id ""); [done|]. simpl.
  unfold replayJobStateFromData. fold (job_log st id).
  set (tasks := go_sort _ _). intros H%replay_loop_sound.
  destruct (replay_fold_task _ _ _ _ k H) as (-> & _).
  by rewrite (proj1 (replay_init_task _ _ _ _)).
Qed.

(** A recorded state is not empty. *)
Lemma last_from_nil l : last_from "" l = "" → Forall (λ x, x ≠ "") l → l = [].
Proof.
  intros H Hl. destruct l as [|x l] using rev_ind; [done|]. unfold last_from in H.
  rewrite foldl_app in H. simpl in H. apply Forall_app in Hl as [_ Hx].
  by inversion_clear Hx.
Qed.

Lemma recorded_states id l :
  history_ok id l →
  Forall (λ x, x ≠ "") (job_states l) ∧ ∀ k, Forall (λ x, x ≠ "") (task_states k l).
Proof. intros Hh. split; [|intros k]; by apply (history_nonempty id). Qed.

(** C1. Start a scheduler process on a well-formed store, and let it submit jobs
    whose ids have no durable log yet and whose task ids are distinct, take turns of
    its dispatch loop, look up jobs, reconcile as a follower, recover from the store,
    forget old finished jobs that are not queued and receive capacity reports, in any
    order.  While no sequence counter is
    exhausted, each job it knows replays from the store, to the in-memory state of
    the job and of its tasks; a job or a task of which nothing could be recorded has
    no replayed state. *)
Theorem reachable_replays B st0 s st id l j ctx n :
  store_below B st0 → rtc step (newSchedulerWithValidatedConfig cfg st0) s → bounded B s →
  sc_store s = Some st → sc_jobs s !! id = Some l → sc_heap s !! l = Some j → id ≠ "" →
  ctx_alive ctx →
  ∃ r, (ReplayJobState ctx n (Some st) id).1 = inr r ∧
    (dj_CurrentState (rs_Job r) = j_LifecycleState j ∨
     dj_CurrentState (rs_Job r) = "" ∧ job_states (job_log st id) = []) ∧
    ∀ i k t, job_task j i k = Some t →
      dt_CurrentState (replayed_task r (t_ID t)) = t_LifecycleState t ∨
      dt_CurrentState (replayed_task r (t_ID t)) = "" ∧ task_states (t_ID t) (job_log st id) = [].
Proof.
  intros Hst0 Hr Hb Hst Hl Hj Hid Hctx.
  pose proof (reach_inv B _ _ Hr Hb (new_scheduler_inv B st0 Hst0)) as HI.
  pose proof (inv_coh _ _ HI) as Hcoh. unfold coh in Hcoh. rewrite Hst in Hcoh.
  destruct (co_view _ _ _ Hcoh _ _ Hl) as (j' & Hj' & Hv). simplify_eq.
  pose proof (jv_history _ _ _ Hv) as Hh. destruct (recorded_states _ _ Hh) as [Hjs Hts].
  destruct (history_replays st id ctx n Hh Hid Hctx) as [r Hrun].
  destruct (ReplayJobState_ok _ _ _ _ _ Hrun) as [Hok _].
  exists r. split; [done|]. rewrite (ro_state _ _ _ Hok). split.
  - destruct (jv_state _ _ _ Hv) as [H0|H0]; [right|by left]. split; [done|]. by apply last_from_nil.
  - intros i k t Ht. rewrite (replayed_task_exact _ _ _ _ _ _ Hrun).
    destruct (jv_tasks _ _ _ Hv _ _ _ Ht) as [[_ [H0|H0]]|[_ H0]]; [right|by left|right];
      (split; [done|]); by apply last_from_nil.
Qed.

Lemma legal_cur_suffix can l1 x l2 :
  legal_cur can "" (l1 ++ x :: l2) = true → legal_from can x l2 = true.
Proof.
  unfold legal_cur. destruct l1 as [|y l1]; simpl; [done|].
  rewrite legal_from_app. simpl. intros H. bool_to_prop. by bool_to_prop.
Qed.

(** C12. In any state a scheduler process reaches by these operations (which leave
    out resubmitting a stored id, [ResumeAwaitingHumanJob] and reconciling as a
    leader), nothing but repetitions follows a terminal state in the log of a job
    the scheduler knows: a job or task that was recorded as finished is not recorded
    as doing anything else, and in particular is not dispatched again. *)
Theorem terminal_states_final B st0 s st id l :
  store_below B st0 → rtc step (newSchedulerWithValidatedConfig cfg st0) s → bounded B s →
  sc_store s = Some st → sc_jobs s !! id = Some l →
  (∀ l1 x l2, job_states (job_log st id) = l1 ++ x :: l2 → IsTerminalJobState x = true →
     Forall (eq x) l2) ∧
  (∀ k l1 x l2, task_states k (job_log st id) = l1 ++ x :: l2 → IsTerminalTaskState x = true →
     Forall (eq x) l2).
Proof.
  intros Hst0 Hr Hb Hst Hl.
  pose proof (reach_inv B _ _ Hr Hb (new_scheduler_inv B st0 Hst0)) as HI.
  pose proof (inv_coh _ _ HI) as Hcoh. unfold coh in Hcoh. rewrite Hst in Hcoh.
  destruct (co_view _ _ _ Hcoh _ _ Hl) as (j & _ & Hv).
  destruct (jv_history _ _ _ Hv) as (_ & Hj & Ht). split.
  - intros l1 x l2 E0 Hx. rewrite E0 in Hj.
    eapply legal_from_terminal; [exact Hx|]. by eapply legal_cur_suffix.
  - intros k l1 x l2 E0 Hx. specialize (Ht k). rewrite E0 in Ht.
    eapply legal_from_terminal_task; [exact Hx|]. by eapply legal_cur_suffix.
Qed.
End Reach.
