(* ===== verification/Dispatch.v ===== *)
(** * Dispatch: slots, authority, claims

    What executing a job does to the outside world: every executor call is made
    under an authority granted by the leadership provider and after a durable
    claim, a task causes a bounded number of calls, and reserved worker slots
    are given back on every path. *)

From Stdlib Require Import Sorting.Sorted.
From stdpp Require Import base gmap strings list fin_maps.
From S2P Require Import Prelude StateMachine Store Replay Jobs Config Leadership Nodes Scheduler Lifecycle SchedLogic Frames Coherence.

Open Scope Z_scope.

(** ** Reserved slots *)

(** A node method that keeps every reservation. *)
Definition slots_kept {A} (m : ST NodeState A) : Prop :=
  ∀ s id, reserved (m s).2 id = reserved s id.

Lemma slots_ret {A} (a : A) : slots_kept (mret a).
Proof. done. Qed.
Lemma slots_bind {A B} (m : ST NodeState A) (f : A → ST NodeState B) :
  slots_kept m → (∀ a, slots_kept (f a)) → slots_kept (m ≫= f).
Proof. intros Hm Hf s id. rewrite ST_bind_eq, Hf. apply Hm. Qed.
Lemma slots_get : slots_kept st_get.
Proof. done. Qed.
Lemma slots_modify f :
  (∀ s, ns_nodeCapacity (f s) = ns_nodeCapacity s) → slots_kept (st_modify f).
Proof. intros Hf s id. unfold reserved. simpl. by rewrite Hf. Qed.
Lemma slots_time_Now clock : slots_kept (time_Now clock).
Proof. done. Qed.
Lemma slots_modify_affinity f : slots_kept (modify_affinity f).
Proof. apply slots_modify. intros s. by destruct (ns_affinityMap s). Qed.

Create HintDb slots discriminated.

Ltac slots_step :=
  lazymatch goal with
  | |- slots_kept (mret _) => apply slots_ret
  | |- slots_kept st_get => apply slots_get
  | |- slots_kept (time_Now _) => apply slots_time_Now
  | |- slots_kept (modify_affinity _) => apply slots_modify_affinity
  | |- slots_kept (st_modify _) => by apply slots_modify
  | |- slots_kept (_ ≫= _) => apply slots_bind; [|intros ?]
  | |- slots_kept (if ?b then _ else _) => destruct b
  | |- slots_kept (match ?x with _ => _ end) => destruct x
  end.
Ltac slots_auto := repeat (first [solve [eauto with slots nocore] | slots_step]).

Section NodeSlots.
Context (cfg : SchedulerConfig) (clock : nat → Time).

Lemma slots_getOrCreate id : slots_kept (getOrCreateNodeCapacityLocked cfg clock id).
Proof.
  intros s id'. pose proof (getOrCreate_cases cfg clock id s) as H.
  destruct (getOrCreateNodeCapacityLocked cfg clock id s) as [c s']. by destruct H as (_ & H & _).
Qed.
#[local] Hint Resolve slots_getOrCreate : slots.
Lemma slots_cooldown id : slots_kept (isInDispatchCooldownLocked clock id).
Proof. unfold isInDispatchCooldownLocked. slots_auto. Qed.
#[local] Hint Resolve slots_cooldown : slots.
Lemma slots_fresh c : slots_kept (isCapacityFreshLocked cfg clock c).
Proof. unfold isCapacityFreshLocked. slots_auto. Qed.
#[local] Hint Resolve slots_fresh : slots.
Lemma slots_markCooldown id : slots_kept (markDispatchCooldown cfg clock id).
Proof. unfold markDispatchCooldown. slots_auto. Qed.
Lemma slots_scan nodes c : slots_kept (scan_nodes cfg clock nodes c).
Proof. revert c. induction nodes as [|n nodes IH]; intros c; cbn [scan_nodes]; slots_auto. Qed.
#[local] Hint Resolve slots_scan : slots.
Lemma slots_has_capacity id : slots_kept (nodeHasAvailableCapacity cfg clock id).
Proof. unfold nodeHasAvailableCapacity. slots_auto. Qed.
#[local] Hint Resolve slots_has_capacity : slots.
Lemma slots_by_capacity nodes : slots_kept (selectNodeByCapacity cfg clock nodes).
Proof. unfold selectNodeByCapacity, round_robin. slots_auto. Qed.
#[local] Hint Resolve slots_by_capacity : slots.
Lemma slots_select key nodes : slots_kept (selectNodeForTask cfg clock key nodes).
Proof. unfold selectNodeForTask, select_miss, select_plain. slots_auto. Qed.
End NodeSlots.

#[export] Hint Resolve slots_markCooldown slots_select slots_time_Now : slots.

Section Slots.
Context {St Tx : Type} `{!TransitionStoreI St Tx}.
Context (cfg : SchedulerConfig) (E : Env).

(** Every reservation is given back. *)
Definition balanced (s s' : Sched St) : Prop :=
  (∀ id, 0 ≤ reserved (sc_nodes s) id) →
  ∀ id, reserved (sc_nodes s') id = reserved (sc_nodes s) id.

#[export] Instance balanced_pre : PreOrder balanced.
Proof.
  split; [by intros s|]. intros a b c Hab Hbc Hs id. rewrite Hbc; [by apply Hab|].
  intros id'. rewrite Hab by done. apply Hs.
Qed.

Lemma bal_job l f : keeps any balanced (update_job l f : M St unit).
Proof. apply keeps_update_job. by intros s j _ _. Qed.
Lemma bal_stage l i f : keeps any balanced (update_stage l i f : M St unit).
Proof. unfold update_stage. pose proof bal_job. keeps_auto. Qed.
Lemma bal_task r f : keeps any balanced (update_task r f : M St unit).
Proof. unfold update_task. pose proof bal_job. keeps_auto. Qed.
Lemma bal_nodes {A} (m : ST NodeState A) : slots_kept m → keeps any balanced (on_nodes m : M St A).
Proof. intros Hm. apply keeps_on_nodes. intros s _ _ id. apply Hm. Qed.
Lemma bal_tick : keeps any balanced (next_tick : M St nat).
Proof. apply keeps_next_tick. by intros s _. Qed.
Lemma bal_modify f : (∀ s, sc_nodes (f s) = sc_nodes s) → keeps any balanced (modify f : M St unit).
Proof. intros Hf. apply keeps_modify. intros s _ _ id. by rewrite Hf. Qed.

Ltac bal_tac :=
  lazymatch goal with
  | |- keeps _ _ (on_nodes _) => apply bal_nodes; solve [eauto with slots nocore]
  | |- keeps _ _ next_tick => apply bal_tick
  | |- keeps _ _ (now _) => apply bal_nodes, slots_time_Now
  | |- keeps _ _ (ctx_Err _) => unfold ctx_Err
  | |- keeps _ _ dispatchAuthority => unfold dispatchAuthority
  | |- keeps _ _ (GetHealthyNodes _) => unfold GetHealthyNodes
  | |- keeps _ _ (modify _) => by apply bal_modify
  | |- keeps _ _ (update_job _ _) => apply bal_job
  | |- keeps _ _ (update_stage _ _ _) => apply bal_stage
  | |- keeps _ _ (update_task _ _) => apply bal_task
  end.
Ltac bal_auto := repeat (first [solve [eauto with keeps nocore] | bal_tac | keeps_step]).

#[export] Instance bal_RecordFrame : RecordFrame E balanced.
Proof. apply RecordFrame_storeless; intros; [exact _|bal_auto..]. Qed.
#[local] Hint Resolve bal_RecordFrame rf_recordJob rf_recordTask rf_claim : keeps.
Lemma bal_executeTask r node : keeps any balanced (executeTask cfg E r node : M St _).
Proof. unfold executeTask, ExecuteOnNode. bal_auto. Qed.

(** The reservation around an execution. *)
Lemma bal_bracket {A B} id (m : M St A) (f : A → M St B) :
  keeps any balanced m → (∀ a, keeps any balanced (f a)) →
  keeps any balanced (_ ← on_nodes (reserveNodeSlot cfg (env_now E) id);
                      a ← m;
                      _ ← on_nodes (releaseNodeSlot cfg (env_now E) id);
                      f a).
Proof.
  intros Hm Hf s a s' _
    (? & s1 & H1 & (b & s2 & H2 & (? & s3 & H3 & H4)%bind_Some)%bind_Some)%bind_Some.
  transitivity s3; [|by eapply Hf]. clear H4 Hf. intros Hs id'. unfold on_nodes in H1, H3.
  assert (∀ k, reserved (sc_nodes s1) k = if String.eqb id k then reserved (sc_nodes s) id + 1
                                           else reserved (sc_nodes s) k) as R1.
  { intros k. rewrite <-(reserveNodeSlot_reserved cfg (env_now E)).
    by destruct (reserveNodeSlot _ _ _ _); injection H1 as <- <-. }
  assert (∀ k, reserved (sc_nodes s2) k = reserved (sc_nodes s1) k) as R2.
  { apply (Hm s1 b s2 I H2). intros k. rewrite R1. pose proof (Hs id). pose proof (Hs k).
    destruct (String.eqb id k); lia. }
  assert (∀ k, reserved (sc_nodes s3) k =
    if String.eqb id k then (if 0 <? reserved (sc_nodes s2) id then reserved (sc_nodes s2) id - 1
                             else reserved (sc_nodes s2) id)
    else reserved (sc_nodes s2) k) as R3.
  { intros k. rewrite <-(releaseNodeSlot_reserved cfg (env_now E)).
    by destruct (releaseNodeSlot _ _ _ _); injection H3 as <- <-. }
  rewrite R3, !R2, !R1, String.eqb_refl. pose proof (Hs id).
  destruct (String.eqb_spec id id') as [<-|]; [|done].
  destruct (Z.ltb_spec 0 (reserved (sc_nodes s) id + 1)); lia.
Qed.

Lemma bal_retry n attempt r node nodes :
  keeps any balanced (retry_loop cfg E n attempt r node nodes : M St _).
Proof.
  revert attempt node. induction n as [|n IH]; intros attempt node; cbn [retry_loop];
    unfold select_for; [bal_auto|].
  apply keeps_bind; [exact _|exact _|bal_auto|intros _].
  apply keeps_bind; [exact _|exact _|bal_auto|]. intros [err|]; [bal_auto|].
  apply bal_bracket; [apply bal_executeTask|]. intros err. bal_auto.
Qed.

#[export] Instance bal_ExecFrame : ExecFrame cfg E balanced.
Proof. split; intros; [exact _|apply bal_retry|unfold select_for; bal_auto|bal_auto..]. Qed.

(** C14. Executing a job gives back every worker slot it reserved, on every path. *)
Theorem slots_balanced l s u s' :
  executeJob cfg E l s = Some (u, s') → (∀ id, 0 ≤ reserved (sc_nodes s) id) →
  ∀ id, reserved (sc_nodes s') id = reserved (sc_nodes s) id.
Proof. intros H. by apply (ef_executeJob cfg E balanced l s u s' I). Qed.
End Slots.

(** ** Executor calls *)

Definition ev_node (ev : Event) : string := let '(EvExecute n _ _ _ _ _) := ev in n.
Definition ev_job (ev : Event) : string := let '(EvExecute _ _ j _ _ _) := ev in j.
Definition ev_task (ev : Event) : string := let '(EvExecute _ _ _ t _ _) := ev in t.
Definition ev_attempt (ev : Event) : Z := let '(EvExecute _ _ _ _ a _) := ev in a.
Definition ev_authority (ev : Event) : DispatchAuthority := let '(EvExecute _ _ _ _ _ d) := ev in d.

Section Calls.
Context {St Tx : Type} `{!TransitionStoreI St Tx}.
Context (cfg : SchedulerConfig) (E : Env).

Definition task_at (s : Sched St) (r : TaskRef) : option Task :=
  match sc_heap s !! tr_loc r with
  | Some j => job_task j (tr_stage r) (tr_task r)
  | None => None
  end.
Definition ident (t : Task) : string * string * Z := (t_ID t, t_JobID t, t_Attempts t).

(** No executor call, and tasks keep their identity. *)
Record silent (s s' : Sched St) : Prop := {
  si_trace : sc_trace s' = sc_trace s;
  si_lead : sc_leadership s' = sc_leadership s;
  si_clock : clock_le s s';
  si_ident : ∀ r, ident <$> task_at s' r = ident <$> task_at s r;
}.

#[export] Instance silent_pre : PreOrder silent.
Proof.
  split; [intros s; by split|].
  intros a b c [] []. split; [congruence|congruence|by etrans|]. intros r. by rewrite si_ident1.
Qed.

Lemma silent_job l f :
  (∀ j i k, ident <$> job_task (f j) i k = ident <$> job_task j i k) →
  keeps any silent (update_job l f : M St unit).
Proof.
  intros Hf. apply keeps_update_job. intros s j _ Hj. split; [done|done|unfold clock_le, sc_tick; simpl; lia|].
  intros r. unfold task_at. simpl. destruct (decide (l = tr_loc r)) as [->|].
  - by rewrite lookup_insert_eq, Hj.
  - by rewrite lookup_insert_ne.
Qed.
Lemma silent_stage l i f :
  (∀ st, s_Tasks (f st) = s_Tasks st) → keeps any silent (update_stage l i f : M St unit).
Proof.
  intros Hf. apply keeps_bind; [exact _|exact _|apply keeps_get_stage; exact _|intros _].
  apply silent_job. intros. by rewrite job_task_map_stage.
Qed.
Lemma silent_task r f :
  (∀ t, ident (f t) = ident t) → keeps any silent (update_task r f : M St unit).
Proof.
  intros Hf. apply keeps_bind; [exact _|exact _|apply keeps_get_task; exact _|intros _].
  apply silent_job. intros j i k. rewrite job_task_map_task. case_decide; [|done].
  destruct (job_task j i k); simpl; [by rewrite Hf|done].
Qed.
Lemma silent_nodes {A} (m : ST NodeState A) : forward m → keeps any silent (on_nodes m : M St A).
Proof. intros Hm. apply keeps_on_nodes. intros s _. split; try done. apply Hm. Qed.
Lemma silent_tick : keeps any silent (next_tick : M St nat).
Proof.
  apply keeps_next_tick. intros s _. split; try done. unfold clock_le, sc_tick. simpl. lia.
Qed.
Lemma silent_modify f :
  (∀ s, sc_trace (f s) = sc_trace s ∧ sc_leadership (f s) = sc_leadership s ∧
        sc_nodes (f s) = sc_nodes s ∧ sc_heap (f s) = sc_heap s) →
  keeps any silent (modify f : M St unit).
Proof.
  intros Hf. apply keeps_modify. intros s _. destruct (Hf s) as (H1 & H2 & H3 & H4).
  split; [done|done| |].
  - unfold clock_le, sc_tick. rewrite H3. lia.
  - intros r. unfold task_at. by rewrite H4.
Qed.

Ltac silent_tac :=
  lazymatch goal with
  | |- keeps _ _ (on_nodes _) => apply silent_nodes; first
      [solve [eauto with forward nocore] | apply forward_time_Now]
  | |- keeps _ _ next_tick => apply silent_tick
  | |- keeps _ _ (now _) => apply silent_nodes, forward_time_Now
  | |- keeps _ _ (ctx_Err _) => unfold ctx_Err
  | |- keeps _ _ dispatchAuthority => unfold dispatchAuthority
  | |- keeps _ _ (GetHealthyNodes _) => unfold GetHealthyNodes
  | |- keeps _ _ (modify _) => by apply silent_modify
  | |- keeps _ _ (update_job _ _) => by apply silent_job
  | |- keeps _ _ (update_stage _ _ _) => by apply silent_stage
  | |- keeps _ _ (update_task _ _) => by apply silent_task
  end.
Ltac silent_auto := repeat (first [solve [eauto with keeps nocore] | silent_tac | keeps_step]).

#[export] Instance silent_RecordFrame : RecordFrame E silent.
Proof. apply RecordFrame_storeless; intros; [exact _|silent_auto..]. Qed.
#[local] Hint Resolve silent_RecordFrame rf_recordJob rf_recordTask rf_claim : keeps.

(** The authority decision that covers a call. *)
Definition provider (s : Sched St) : LeadershipProvider :=
  default defaultLeadershipProvider (sc_leadership s).
Definition granted (p : LeadershipProvider) (lo hi : nat) (ev : Event) : Prop :=
  ∃ n a, (lo ≤ n < hi)%nat ∧ lp_DispatchAuthority p n = inr a ∧ la_IsLeader a = true ∧
         ev_authority ev = mkDispatch (la_LeaderID a) (la_Epoch a) (la_Scope a).

Lemma granted_widen p lo hi lo' hi' ev :
  (lo' ≤ lo)%nat → (hi ≤ hi')%nat → granted p lo hi ev → granted p lo' hi' ev.
Proof. intros ?? (n & a & ? & H). exists n, a. split; [lia|done]. Qed.

(** What happens after a call that returned [out]. *)
Definition after_call (r : TaskRef) (node : NodeInfo) (task : Task)
    (out : result (option AgentOutput)) : M St (option error) :=
  match out with
  | inl err =>
      match errors_As_policy err with
      | Some _ =>
          _ ← update_task r (with_task_status JobBlocked);
          mret (Some err)
      | None =>
          _ ← (if isDispatchCapacityConflict (Some err)
               then on_nodes (markDispatchCooldown cfg (env_now E) (ni_ID node))
               else mret tt);
          _ ← update_task r (with_task_status JobFailed);
          _ ← recordTaskTransition E r TransitionTaskFailed TaskStateFailed (ni_ID node)
                (t_Attempts task) (Error err);
          mret (Some (EWrap ("task " +:+ t_ID task +:+ " failed on node " +:+
                             ni_ID node +:+ ": ") err ""))
      end
  | inr out =>
      _ ← update_task r (with_task_output out);
      _ ← update_task r (with_task_status JobCompleted);
      _ ← recordTaskTransition E r TransitionTaskSucceeded TaskStateSucceeded (ni_ID node)
            (t_Attempts task) "";
      mret None
  end.

Lemma silent_after_call r node task out : keeps any silent (after_call r node task out).
Proof. unfold after_call. silent_auto. Qed.

(** An execution makes at most one call, for this task, on this node, and only
    with an authority that was granted on the way. *)
Lemma executeTask_calls r node s err s' :
  executeTask cfg E r node s = Some (err, s') →
  silent s s' ∨
  ∃ s1 s2 ev, silent s s1 ∧ s2 = add_event ev s1 ∧ silent s2 s' ∧
    granted (provider s) (sc_tick s) (sc_tick s') ev ∧ ev_node ev = ni_ID node ∧
    Some (ev_task ev, ev_job ev, ev_attempt ev) = ident <$> task_at s r.
Proof.
  unfold executeTask. intros (? & s1 & H1 & H)%bind_Some.
  assert (silent s s1) as S1 by (revert H1; apply keeps_run with (P := any); [silent_tac|done]).
  apply bind_Some in H as (t0 & s2 & (j0 & _ & _ & ->)%get_task_Some & H).
  apply bind_Some in H as (? & s2 & H2 & H). pose proof (rf_recordTask E silent _ _ _ _ _ _ _ _ _ I H2) as S2.
  pose proof (transitivity S1 S2) as S12.
  apply bind_Some in H as (auth & s3 & H3 & H).
  unfold dispatchAuthority in H3. apply bind_Some in H3 as (? & ? & [-> ->]%get_Some & H3).
  apply bind_Some in H3 as (n & s4 & Hn & H3). pose proof (silent_tick _ _ _ I Hn) as S3.
  apply ret_Some in H3 as [-> ->]. pose proof (transitivity S12 S3) as S13.
  injection Hn as Hn Hs4. destruct (lp_DispatchAuthority _ n) as [e|a] eqn:Ha.
  { apply ret_Some in H as [_ ->]. by left. }
  destruct (negb (la_IsLeader a)) eqn:Hlead.
  { apply ret_Some in H as [_ ->]. by left. }
  apply bind_Some in H as (t & s5 & (j & Hj & Ht & ->)%get_task_Some & H).
  apply bind_Some in H as (out & s5 & Hout & H). unfold ExecuteOnNode in Hout.
  apply bind_Some in Hout as (m & s6 & Hm & Hout). pose proof (silent_tick _ _ _ I Hm) as S4.
  apply bind_Some in Hout as (? & s7 & H7 & Hout). apply ret_Some in Hout as [-> ->].
  injection H7 as <- <-. pose proof (transitivity S13 S4) as S14.
  fold (after_call r node t (env_exec E m (ni_ID node) (t_AgentName t) (t_Input t)
    (mkDispatch (la_LeaderID a) (la_Epoch a) (la_Scope a)))) in H.
  pose proof (silent_after_call _ _ _ _ _ _ _ I H) as S5.
  right. eexists _, _, _. split; [exact S14|]. split; [done|]. split; [exact S5|].
  split_and!; [|done|].
  - exists n, a. split; [|split_and!; [|by apply negb_false_iff in Hlead|done]].
    + pose proof (si_clock _ _ S12). pose proof (si_clock _ _ S4). pose proof (si_clock _ _ S5).
      unfold clock_le, sc_tick in *. subst s4. simpl in *. lia.
    + rewrite <-Ha. unfold provider. by rewrite (si_lead _ _ S12).
  - rewrite <-(si_ident _ _ S13 r). unfold task_at. by rewrite Hj, Ht.
Qed.

(** *** Authority *)

(** Every call made between two states carries an authority that the provider
    granted, as leader, in between. *)
Record authorised (s s' : Sched St) : Prop := {
  au_lead : sc_leadership s' = sc_leadership s;
  au_clock : clock_le s s';
  au_calls : ∃ evs, sc_trace s' = sc_trace s ++ evs ∧
    Forall (granted (provider s) (sc_tick s) (sc_tick s')) evs;
}.

#[export] Instance authorised_pre : PreOrder authorised.
Proof.
  split.
  - intros s. split; [done|unfold clock_le; lia|]. exists []. by rewrite app_nil_r.
  - intros a b c [L1 C1 (e1 & T1 & F1)] [L2 C2 (e2 & T2 & F2)]. unfold clock_le in *.
    split; [congruence|unfold clock_le; lia|]. exists (e1 ++ e2).
    rewrite T2, T1, (assoc_L (++)). split; [done|]. apply Forall_app. split.
    + eapply Forall_impl; [exact F1|]. intros ev. apply granted_widen; lia.
    + eapply Forall_impl; [exact F2|]. intros ev. unfold provider. rewrite L1.
      apply granted_widen; lia.
Qed.

Lemma no_call_authorised s s' :
  sc_trace s' = sc_trace s → sc_leadership s' = sc_leadership s → clock_le s s' → authorised s s'.
Proof. intros T L C. split; [done..|]. exists []. by rewrite app_nil_r. Qed.

Lemma same_nodes_authorised s s' :
  sc_trace s' = sc_trace s → sc_leadership s' = sc_leadership s → sc_nodes s' = sc_nodes s →
  authorised s s'.
Proof.
  intros T L N. apply no_call_authorised; [done..|]. unfold clock_le, sc_tick. by rewrite N.
Qed.

Lemma authorised_job l f : keeps any authorised (update_job l f : M St unit).
Proof. apply keeps_update_job. intros s j _ _. by apply same_nodes_authorised. Qed.
Lemma authorised_stage l i f : keeps any authorised (update_stage l i f : M St unit).
Proof. unfold update_stage. pose proof authorised_job. keeps_auto. Qed.
Lemma authorised_task r f : keeps any authorised (update_task r f : M St unit).
Proof. unfold update_task. pose proof authorised_job. keeps_auto. Qed.
Lemma authorised_nodes {A} (m : ST NodeState A) :
  forward m → keeps any authorised (on_nodes m : M St A).
Proof.
  intros Hm. apply keeps_on_nodes. intros s _. apply no_call_authorised; [done..|apply Hm].
Qed.
Lemma authorised_tick : keeps any authorised (next_tick : M St nat).
Proof.
  apply keeps_next_tick. intros s _. apply no_call_authorised; [done..|].
  unfold clock_le, sc_tick. simpl. lia.
Qed.
Lemma authorised_modify f :
  (∀ s, sc_trace (f s) = sc_trace s ∧ sc_leadership (f s) = sc_leadership s ∧
        sc_nodes (f s) = sc_nodes s) →
  keeps any authorised (modify f : M St unit).
Proof.
  intros Hf. apply keeps_modify. intros s _. destruct (Hf s) as (T & L & N).
  by apply same_nodes_authorised.
Qed.

Ltac authorised_tac :=
  lazymatch goal with
  | |- keeps _ _ (on_nodes _) => apply authorised_nodes; first
      [solve [eauto with forward nocore] | apply forward_time_Now]
  | |- keeps _ _ (now _) => apply authorised_nodes, forward_time_Now
  | |- keeps _ _ next_tick => apply authorised_tick
  | |- keeps _ _ dispatchAuthority => unfold dispatchAuthority
  | |- keeps _ _ (modify _) => by apply authorised_modify
  | |- keeps _ _ (update_job _ _) => apply authorised_job
  | |- keeps _ _ (update_stage _ _ _) => apply authorised_stage
  | |- keeps _ _ (update_task _ _) => apply authorised_task
  end.
Ltac authorised_auto :=
  repeat (first [solve [eauto with keeps nocore] | authorised_tac | keeps_step]).

#[export] Instance authorised_RecordFrame : RecordFrame E authorised.
Proof. apply RecordFrame_storeless; intros; [exact _|authorised_auto..]. Qed.
#[local] Hint Resolve authorised_RecordFrame : keeps.

Lemma authorised_executeTask r node : keeps any authorised (executeTask cfg E r node).
Proof.
  intros s err s' _ H. apply executeTask_calls in H
    as [[T L C _]|(s1 & s2 & ev & [T1 L1 C1 _] & -> & [T2 L2 C2 _] & G & _ & _)];
    [by apply no_call_authorised|]. simpl in *.
  split; [congruence|unfold clock_le, sc_tick in *; simpl in *; lia|].
  exists [ev]. rewrite T2, T1. split; [done|]. by repeat constructor.
Qed.
#[local] Hint Resolve authorised_executeTask : keeps.

Lemma authorised_retry n attempt r node nodes :
  keeps any authorised (retry_loop cfg E n attempt r node nodes).
Proof.
  revert attempt node. induction n as [|n IH]; intros attempt node; cbn [retry_loop];
    unfold select_for; authorised_auto.
Qed.

#[export] Instance authorised_ExecFrame : ExecFrame cfg E authorised.
Proof.
  split; intros; [exact _|apply authorised_retry|unfold select_for; authorised_auto|
                  authorised_auto..].
Qed.

Lemma authorised_replay id : keeps any authorised (replay_job E id : M St _).
Proof.
  intros s a s' _. unfold replay_job. intros (? & ? & [-> ->]%get_Some & H)%bind_Some.
  pose proof (ReplayJobState_clock (env_ctx E) (sc_tick s) (sc_store s) id) as Hle.
  destruct (ReplayJobState _ _ _ _) as [res n].
  apply bind_Some in H as (? & ? & H1 & H2). apply ret_Some in H2 as [_ ->].
  injection H1 as <- <-. by apply no_call_authorised.
Qed.
#[local] Hint Resolve authorised_replay : keeps.

Lemma authorised_new j : keeps any authorised (new_job j : M St _).
Proof. apply keeps_new_job. intros s _. by apply same_nodes_authorised. Qed.
#[local] Hint Resolve authorised_new : keeps.

Lemma authorised_run_once : keeps any authorised (run_once cfg E : M St _).
Proof.
  pose proof (ef_executeJob cfg E authorised).
  unfold run_once, requeue_and_wait, requeueJob, markJobDequeued, enqueueJobLocked,
    isExecutableDequeuedJob, refreshJobFromDurableState, seedJobSequenceLocked.
  authorised_auto.
Qed.
(** *** Attempts *)

(** The calls of the attempts numbered from [lo] to below [hi] of a task. *)
Definition attempt_calls (id jobID : string) (lo hi : Z) (evs : list Event) : Prop :=
  Forall (λ ev, ev_task ev = id ∧ ev_job ev = jobID ∧ lo ≤ ev_attempt ev < hi) evs ∧
  StronglySorted (λ a b, ev_attempt a < ev_attempt b) evs.

Lemma attempt_calls_nil id jobID lo hi : attempt_calls id jobID lo hi [].
Proof. split; constructor. Qed.

Lemma attempt_calls_cons id jobID lo hi ev evs :
  ev_task ev = id → ev_job ev = jobID → ev_attempt ev = lo → lo < hi →
  attempt_calls id jobID (lo + 1) hi evs → attempt_calls id jobID lo hi (ev :: evs).
Proof.
  intros H1 H2 H3 H4 [H5 H6]. split; constructor.
  - split_and!; [done|done|lia|lia].
  - eapply Forall_impl; [exact H5|]. naive_solver lia.
  - done.
  - eapply Forall_impl; [exact H5|]. naive_solver lia.
Qed.

Lemma attempt_calls_widen id jobID lo hi evs :
  attempt_calls id jobID (lo + 1) hi evs → attempt_calls id jobID lo hi evs.
Proof. intros [H1 H2]. split; [|done]. eapply Forall_impl; [exact H1|]. naive_solver lia. Qed.

(** As many calls as attempts, at most. *)
Lemma attempt_calls_length id jobID lo hi evs :
  attempt_calls id jobID lo hi evs → lo ≤ hi → Z.of_nat (length evs) ≤ hi - lo.
Proof.
  revert lo. induction evs as [|ev evs IH]; intros lo [H1 H2] Hle; simpl; [lia|].
  inversion_clear H1 as [|?? (_ & _ & Hlo) H1']. inversion_clear H2 as [|?? H2' Hall].
  assert (Z.of_nat (length evs) ≤ hi - (ev_attempt ev + 1)); [|lia].
  apply IH; [|lia]. split; [|done]. rewrite Forall_forall in *. intros ev' Hin.
  specialize (H1' ev' Hin). specialize (Hall ev' Hin). naive_solver lia.
Qed.

Definition same_task (r : TaskRef) (t : Task) (s : Sched St) : Prop :=
  ∃ t', task_at s r = Some t' ∧ t_ID t' = t_ID t ∧ t_JobID t' = t_JobID t.

Lemma same_task_silent r t s s' : silent s s' → same_task r t s → same_task r t s'.
Proof.
  intros S (t' & Ht' & H1 & H2). pose proof (si_ident _ _ S r) as Hi. rewrite Ht' in Hi.
  destruct (task_at s' r) as [t2|] eqn:E2; [|done]. simpl in Hi. exists t2.
  split; [done|]. unfold ident in Hi. split; congruence.
Qed.

(** Starting an attempt numbers the task and makes no call. *)
Lemma start_attempt r t attempt s u s' :
  same_task r t s → update_task r (with_task_attempts attempt) s = Some (u, s') →
  sc_trace s' = sc_trace s ∧
  ∃ t', task_at s' r = Some t' ∧ t_ID t' = t_ID t ∧ t_JobID t' = t_JobID t ∧ t_Attempts t' = attempt.
Proof.
  intros (t0 & Ht0 & H1 & H2) (j & t1 & Hj & Ht1 & ->)%update_task_Some. split; [done|].
  unfold task_at in *. rewrite Hj in Ht0. simpl. rewrite lookup_insert_eq.
  rewrite job_task_map_task, decide_True by done. rewrite Ht0. simpl. eauto.
Qed.

Lemma silent_select r nodes : keeps any silent (select_for cfg E r nodes : M St _).
Proof. unfold select_for. silent_auto. Qed.
Lemma silent_reserve id : keeps any silent (on_nodes (reserveNodeSlot cfg (env_now E) id) : M St _).
Proof. silent_auto. Qed.
Lemma silent_release id : keeps any silent (on_nodes (releaseNodeSlot cfg (env_now E) id) : M St _).
Proof. silent_auto. Qed.

(** One round of the retry loop, and what follows it. *)
Definition attempt_once (attempt : Z) (r : TaskRef) (node : NodeInfo)
    : M St (option error * bool) :=
  _ ← update_task r (with_task_attempts attempt);
  claim ← claimTaskDispatchTransition E r (ni_ID node) attempt;
  match claim with
  | Some err => mret (Some err, errors_Is err ErrDispatchClaimRejected)
  | None =>
      _ ← on_nodes (reserveNodeSlot cfg (env_now E) (ni_ID node));
      err ← executeTask cfg E r node;
      _ ← on_nodes (releaseNodeSlot cfg (env_now E) (ni_ID node));
      mret (err, isDispatchCapacityConflict err)
  end.
Definition next_attempt (n : nat) (attempt : Z) (r : TaskRef) (nodes : list NodeInfo)
    (out : option error * bool) : M St (option error) :=
  match out with
  | (None, _) => mret None
  | (Some err, retry) =>
      if negb retry then mret (Some err)
      else if attempt =? dispatch_attempts cfg then mret (Some err)
      else
        next ← select_for cfg E r nodes;
        match next.1 with
        | None => mret (Some (ESentinel ErrNoWorkerCapacity))
        | Some node => retry_loop cfg E n (attempt + 1) r node nodes
        end
  end.

Lemma retry_loop_S n attempt r node nodes s :
  retry_loop cfg E (S n) attempt r node nodes s =
  (out ← attempt_once attempt r node; next_attempt n attempt r nodes out) s.
Proof.
  unfold attempt_once. cbn [retry_loop]. unfold mbind, M_bind.
  destruct (update_task _ _ s) as [[u s1]|]; [|done].
  destruct (claimTaskDispatchTransition _ _ _ _ s1) as [[[err|] s2]|]; [done| |done].
  destruct (on_nodes _ s2) as [[? s3]|]; [|done].
  destruct (executeTask _ _ _ _ s3) as [[err s4]|]; [|done].
  destruct (on_nodes _ s4) as [[? s5]|]; [|done]. by destruct err.
Qed.

(** A run of the loop is a first attempt, and possibly, after the selection of
    the next node, the rest of the loop. *)
Lemma retry_loop_run n attempt r node nodes s res s' :
  retry_loop cfg E (S n) attempt r node nodes s = Some (res, s') →
  ∃ out s1 s2, attempt_once attempt r node s = Some (out, s1) ∧ silent s1 s2 ∧
    (s' = s2 ∨ ∃ node', retry_loop cfg E n (attempt + 1) r node' nodes s2 = Some (res, s')).
Proof.
  rewrite retry_loop_S. intros (out & s1 & H1 & H2)%bind_Some. exists out, s1.
  destruct out as [[err|] retry]; unfold next_attempt in H2.
  2: { apply ret_Some in H2 as [_ ->]. exists s1. split_and!; [done|reflexivity|by left]. }
  destruct (negb retry).
  { apply ret_Some in H2 as [_ ->]. exists s1. split_and!; [done|reflexivity|by left]. }
  destruct (attempt =? _).
  { apply ret_Some in H2 as [_ ->]. exists s1. split_and!; [done|reflexivity|by left]. }
  apply bind_Some in H2 as (next & s2 & H2 & H3). exists s2.
  split_and!; [done|by apply (silent_select _ _ _ _ _ I H2)|].
  destruct (next.1) as [node'|]; [eauto|]. apply ret_Some in H3 as [_ ->]. by left.
Qed.

Lemma attempt_once_calls attempt r t node s out s' :
  same_task r t s → attempt_once attempt r node s = Some (out, s') →
  same_task r t s' ∧ ∃ evs, sc_trace s' = sc_trace s ++ evs ∧
    (evs = [] ∨ ∃ ev, evs = [ev] ∧ ev_task ev = t_ID t ∧ ev_job ev = t_JobID t ∧
                      ev_attempt ev = attempt).
Proof.
  intros Hs (u & s1 & H1 & (claim & s2 & H2 & H3)%bind_Some)%bind_Some.
  apply (start_attempt r t) in H1 as (T1 & t1 & Ht1 & E1 & E2 & E3); [|done].
  pose proof (rf_claim E silent _ _ _ _ _ _ I H2) as S2.
  assert (same_task r t s2) as Hs2 by (eapply same_task_silent; [exact S2|by exists t1]).
  destruct claim as [err|].
  { apply ret_Some in H3 as [_ ->]. split; [done|]. exists [].
    rewrite app_nil_r, (si_trace _ _ S2), T1. auto. }
  apply bind_Some in H3 as (? & s3 & H3 & H4). apply bind_Some in H4 as (err & s4 & H4 & H5).
  apply bind_Some in H5 as (? & s5 & H5 & H6). apply ret_Some in H6 as [_ ->].
  pose proof (silent_reserve _ _ _ _ I H3) as S3. pose proof (silent_release _ _ _ _ I H5) as S5.
  pose proof (transitivity S2 S3) as S23.
  apply executeTask_calls in H4 as [S4|(sa & sb & ev & Sa & -> & Sb & _ & _ & Hev)].
  { pose proof (transitivity S23 (transitivity S4 S5)) as S. split.
    - eapply same_task_silent; [exact S|by exists t1].
    - exists []. rewrite app_nil_r, (si_trace _ _ S), T1. auto. }
  pose proof (transitivity S23 Sa) as S1a. pose proof (transitivity Sb S5) as Sb5. split.
  - eapply same_task_silent; [exact Sb5|]. change (same_task r t sa).
    eapply same_task_silent; [exact S1a|by exists t1].
  - exists [ev]. rewrite (si_trace _ _ Sb5). simpl. rewrite (si_trace _ _ S1a), T1.
    split; [done|]. right. exists ev. rewrite (si_ident _ _ S23 r), Ht1 in Hev. simpl in Hev.
    unfold ident in Hev. split_and!; congruence.
Qed.

Lemma retry_calls n attempt r t node nodes s res s' :
  same_task r t s → retry_loop cfg E n attempt r node nodes s = Some (res, s') →
  ∃ evs, sc_trace s' = sc_trace s ++ evs ∧
         attempt_calls (t_ID t) (t_JobID t) attempt (attempt + Z.of_nat n) evs.
Proof.
  revert attempt node s. induction n as [|n IH]; intros attempt node s Hs.
  { intros [_ ->]%ret_Some. exists []. rewrite app_nil_r. split; [done|apply attempt_calls_nil]. }
  intros (out & s1 & s2 & H1 & Sel & H2)%retry_loop_run.
  apply (attempt_once_calls _ _ t) in H1 as (Hs1 & evs1 & T1 & Hevs1); [|done].
  apply (same_task_silent _ _ _ _ Sel) in Hs1.
  assert (∃ evs2, sc_trace s' = sc_trace s2 ++ evs2 ∧
    attempt_calls (t_ID t) (t_JobID t) (attempt + 1) (attempt + Z.of_nat (S n)) evs2)
    as (evs2 & T2 & A2).
  { destruct H2 as [->|(node' & H2)].
    - exists []. rewrite app_nil_r. split; [done|apply attempt_calls_nil].
    - apply IH in H2 as (evs2 & T2 & A2); [|done]. exists evs2. split; [done|].
      replace (attempt + Z.of_nat (S n)) with (attempt + 1 + Z.of_nat n) by lia. done. }
  exists (evs1 ++ evs2). rewrite T2, (si_trace _ _ Sel), T1, (assoc_L (++)). split; [done|].
  destruct Hevs1 as [->|(ev & -> & E1 & E2 & E3)]; simpl.
  - by apply attempt_calls_widen.
  - apply attempt_calls_cons; [done..|lia|done].
Qed.

(** C13. Executing a task makes calls for this task only, one per attempt number at
    most, in increasing order, and no more than the configured attempts. *)
Theorem task_calls_bounded r t node nodes s res s' :
  task_at s r = Some t →
  executeTaskWithRetry cfg E r node nodes s = Some (res, s') →
  ∃ evs, sc_trace s' = sc_trace s ++ evs ∧
    Z.of_nat (length evs) ≤ Z.max 1 (MaxDispatchAttempts cfg) ∧
    Forall (λ ev, ev_task ev = t_ID t ∧ ev_job ev = t_JobID t ∧
                  1 ≤ ev_attempt ev ≤ Z.max 1 (MaxDispatchAttempts cfg)) evs ∧
    StronglySorted (λ a b, ev_attempt a < ev_attempt b) evs.
Proof.
  intros Ht H. apply (retry_calls _ _ _ t) in H as (evs & T & A); [|by exists t].
  assert (1 + Z.of_nat (Z.to_nat (dispatch_attempts cfg)) = Z.max 1 (MaxDispatchAttempts cfg) + 1)
    as Hn by (unfold dispatch_attempts; simp_if; lia).
  rewrite Hn in A. exists evs. pose proof (attempt_calls_length _ _ _ _ _ A) as Hlen.
  destruct A as [A1 A2]. split_and!; [done|lia| |done].
  eapply Forall_impl; [exact A1|]. naive_solver lia.
Qed.
End Calls.

(** ** Durable claims *)

(** Writes never remove a record from the log. *)
Definition log_grows (st st' : MemStore) : Prop :=
  ∀ id r, r ∈ job_log st id → r ∈ job_log st' id.

#[export] Instance log_grows_pre : PreOrder log_grows.
Proof. split; [by intros st id r|]. intros a b c H1 H2 id r Hr. by apply H2, H1. Qed.

Lemma log_grows_append r st : log_grows st (Mem.AppendTransition r st).2.
Proof.
  intros id r' Hr'. destruct (Validate r) as [err|] eqn:Hv.
  { by rewrite (AppendTransition_invalid r st err Hv). }
  destruct (decide (id = tr_JobID r)) as [->|].
  - rewrite AppendTransition_log by done. rewrite go_sort_perm. apply elem_of_app. by left.
  - by rewrite AppendTransition_log_other.
Qed.

(** A callback that keeps the log growing. *)
Definition grows (fn : MemStore → option error * MemStore) : Prop :=
  ∀ st, log_grows st (fn st).2.

Lemma grows_append r : grows (AppendTransition r).
Proof. intros st. apply log_grows_append. Qed.
Lemma grows_upsert_job d : grows (UpsertJob d).
Proof. by intros st id r. Qed.
Lemma grows_upsert_task d : grows (UpsertTask d).
Proof. by intros st id r. Qed.
Lemma grows_snapshot snap : grows (upsert_snapshot snap).
Proof. destruct snap; by intros st id r. Qed.
Lemma grows_then f g : grows f → grows g → grows (tx_then f g).
Proof.
  intros Hf Hg st. unfold tx_then. specialize (Hf st). destruct (f st) as [[err|] st1]; [done|].
  etrans; [exact Hf|apply Hg].
Qed.
Lemma grows_claim E task nodeID attempt record snap :
  grows (claim_write E task nodeID attempt record snap).
Proof.
  intros st. unfold claim_write. simpl.
  pose proof (Claim_same 0%N (mkClaim (t_ID task) (t_JobID task) (t_StageID task) nodeID attempt
    (tr_OccurredAt record)) st) as [_ Hl _].
  destruct (Mem.ClaimTaskDispatch _ st) as [[err|[]] st1]; simpl in Hl;
    try (intros id r Hr; simpl; by rewrite Hl).
  etrans; [|apply grows_then; [apply grows_append|apply grows_snapshot]].
  intros id r Hr. by rewrite Hl.
Qed.
#[local] Hint Resolve grows_append grows_upsert_job grows_upsert_task grows_snapshot grows_then
  grows_claim : dagens.

Section Claims.
Context (cfg : SchedulerConfig) (E : Env).

Definition stores_grow (s s' : Sched MemStore) : Prop :=
  ∀ st, sc_store s = Some st → ∃ st', sc_store s' = Some st' ∧ log_grows st st'.

#[export] Instance stores_grow_pre : PreOrder stores_grow.
Proof.
  split; [intros s st Hst; exists st; split; [done|reflexivity]|].
  intros a b c H1 H2 st (st1 & Hst1 & G1)%H1. destruct (H2 _ Hst1) as (st2 & ? & G2).
  exists st2. split; [done|by etrans].
Qed.

Lemma same_store_grow s s' : sc_store s' = sc_store s → stores_grow s s'.
Proof. intros H st Hst. exists st. split; [congruence|reflexivity]. Qed.

Lemma grow_persist fn : grows fn → keeps any stores_grow (persistTransitionWrite E fn).
Proof.
  intros Hfn s err s' _ H st Hst. rewrite (run_persist E st fn s Hst) in H.
  injection H as _ <-. simpl. eexists. split; [done|].
  destruct (WithTx_outcome st (env_ctx E (sc_tick s)) fn) as [->|[_ Hf]]; [reflexivity|].
  specialize (Hfn st). by rewrite Hf in Hfn.
Qed.

Lemma grow_job l f : keeps any stores_grow (update_job l f).
Proof. apply keeps_update_job. intros s j _ _. by apply same_store_grow. Qed.
Lemma grow_stage l i f : keeps any stores_grow (update_stage l i f).
Proof. unfold update_stage. pose proof grow_job. keeps_auto. Qed.
Lemma grow_task r f : keeps any stores_grow (update_task r f).
Proof. unfold update_task. pose proof grow_job. keeps_auto. Qed.
Lemma grow_nodes {A} (m : ST NodeState A) : keeps any stores_grow (on_nodes m).
Proof. apply keeps_on_nodes. intros s _. by apply same_store_grow. Qed.
Lemma grow_tick : keeps any stores_grow next_tick.
Proof. apply keeps_next_tick. intros s _. by apply same_store_grow. Qed.
Lemma grow_event ev : keeps any stores_grow (modify (add_event ev)).
Proof. apply keeps_modify. intros s _. by apply same_store_grow. Qed.
Lemma grow_jobs m : keeps any stores_grow (modify (set_jobs m)).
Proof. apply keeps_modify. intros s _. by apply same_store_grow. Qed.
#[local] Hint Resolve grow_job grow_stage grow_task grow_nodes grow_tick grow_event grow_jobs
  : keeps.

#[export] Instance grow_RecordFrame : RecordFrame E stores_grow.
Proof.
  split; [split; [exact _|..]|..]; intros; unfold now;
    first [apply grow_persist; auto with dagens | solve [eauto with keeps nocore] | idtac].
  intros s res s' _. rewrite run_alloc. intros [= _ <-]. by apply same_store_grow.
Qed.
#[local] Hint Resolve grow_RecordFrame rf_recordJob rf_recordTask rf_claim : keeps.

Lemma grow_executeTask r node : keeps any stores_grow (executeTask cfg E r node).
Proof. unfold executeTask, dispatchAuthority, ExecuteOnNode. keeps_auto. Qed.
#[local] Hint Resolve grow_executeTask : keeps.
Lemma grow_select r nodes : keeps any stores_grow (select_for cfg E r nodes).
Proof. unfold select_for. keeps_auto. Qed.
#[local] Hint Resolve grow_select : keeps.
Lemma grow_retry n attempt r node nodes :
  keeps any stores_grow (retry_loop cfg E n attempt r node nodes).
Proof.
  revert attempt node. induction n as [|n IH]; intros attempt node; cbn [retry_loop]; keeps_auto.
Qed.
#[local] Hint Resolve grow_retry : keeps.
#[export] Instance grow_ExecFrame : ExecFrame cfg E stores_grow.
Proof. split; intros; [exact _|eauto with keeps nocore..]. Qed.

(** The record of the claim that allows a call. *)
Definition claim_record (ev : Event) (r : TransitionRecord) : Prop :=
  tr_EntityType r = TransitionEntityTask ∧ tr_Transition r = TransitionTaskDispatched ∧
  tr_JobID r = ev_job ev ∧ tr_TaskID r = ev_task ev ∧ tr_NewState r = TaskStateDispatched ∧
  tr_NodeID r = ev_node ev ∧ tr_Attempt r = ev_attempt ev.
Definition has_claim (s : Sched MemStore) (ev : Event) : Prop :=
  ev_job ev ≠ "" →
  ∃ st r, sc_store s = Some st ∧ r ∈ job_log st (ev_job ev) ∧ claim_record ev r.

Lemma has_claim_grow s s' ev : stores_grow s s' → has_claim s ev → has_claim s' ev.
Proof.
  intros Hg Hc Hne. destruct (Hc Hne) as (st & r & Hst & Hr & Hrec).
  destruct (Hg st Hst) as (st' & Hst' & G). exists st', r. split_and!; [done|by apply G|done].
Qed.

Lemma claim_write_logged task nodeID attempt record snap st st' :
  claim_write E task nodeID attempt record snap st = (None, st') →
  record ∈ job_log st' (tr_JobID record).
Proof.
  intros H. unfold claim_write in H. simpl in H.
  destruct (Mem.ClaimTaskDispatch _ st) as [[?|[]] st1]; [done| |done].
  apply tx_then_None in H as (st2 & Happ & Hsnap).
  pose proof (grows_snapshot snap st2) as G. rewrite Hsnap in G. apply G.
  apply AppendTransition_step in Happ as [_ _ Hlog _].
  rewrite Hlog, String.eqb_refl, go_sort_perm. apply elem_of_app. right. by apply list_elem_of_singleton.
Qed.

Lemma grow_running id : keeps any stores_grow (recordJobRunningOnFirstDispatch E id).
Proof. unfold recordJobRunningOnFirstDispatch. keeps_auto. Qed.

(** A successful claim is in the log. *)
Lemma claim_recorded r nodeID attempt s t ev s' :
  is_Some (sc_store s) → task_at s r = Some t →
  claimTaskDispatchTransition E r nodeID attempt s = Some (None, s') →
  ev_job ev = t_JobID t → ev_task ev = t_ID t → ev_node ev = nodeID → ev_attempt ev = attempt →
  has_claim s' ev.
Proof.
  intros [st Hst] Ht H E1 E2 E3 E4 Hne. unfold claimTaskDispatchTransition in H.
  apply bind_Some in H as (t' & s1 & (j & Hj & Ht' & ->)%get_task_Some & H).
  unfold task_at in Ht. rewrite Hj, Ht' in Ht. injection Ht as ->.
  apply bind_Some in H as (? & ? & [-> ->]%get_Some & H). rewrite Hst in H.
  rewrite E1 in Hne. apply String.eqb_neq in Hne. rewrite Hne in H.
  destruct (negb _) in H; [by apply ret_Some in H as [[=] _]|].
  apply bind_Some in H as (seq & s1 & H1 & H). rewrite run_alloc in H1. injection H1 as <- <-.
  apply bind_Some in H as (at_ & s2 & H2 & H). rewrite run_now in H2. injection H2 as <- <-.
  apply bind_Some in H as (snap & s3 & H3 & H).
  assert (s3 = bump (alloc (t_JobID t) s)) as ->.
  { unfold durableJobSnapshot in H3. apply bind_Some in H3 as (? & ? & [-> ->]%get_Some & H3).
    destruct (sc_jobs _ !! _); [|by apply ret_Some in H3 as [_ ->]].
    apply bind_Some in H3 as (? & ? & [_ ->]%get_job_Some & [_ ->]%ret_Some). done. }
  apply bind_Some in H as (err & s4 & H4 & H).
  erewrite run_persist in H4 by exact Hst. injection H4 as Herr <-.
  destruct err as [err|]; [destruct (errors_Is err _); by apply ret_Some in H as [[=] _]|].
  apply WithTx_done, claim_write_logged in Herr. simpl in Herr.
  eapply (has_claim_grow (set_store _ _)).
  - apply bind_Some in H as (? & s5 & H5 & H).
    apply bind_Some in H as (? & s6 & H6 & [_ ->]%ret_Some).
    etrans; [by eapply grow_task|]. by eapply grow_running.
  - intros _. eexists _, _. split; [reflexivity|]. rewrite E1. split; [exact Herr|].
    by split_and!.
  - rewrite E1. by apply String.eqb_neq.
Qed.

(** Every call made between two states has its claim in the log. *)
Record claimed (s s' : Sched MemStore) : Prop := {
  cm_grow : stores_grow s s';
  cm_calls : is_Some (sc_store s) →
    ∃ evs, sc_trace s' = sc_trace s ++ evs ∧ Forall (has_claim s') evs;
}.

#[export] Instance claimed_pre : PreOrder claimed.
Proof.
  split.
  - intros s. split; [reflexivity|]. exists []. by rewrite app_nil_r.
  - intros a b c [G1 C1] [G2 C2]. split; [by etrans|]. intros Ha.
    destruct (C1 Ha) as (e1 & T1 & F1).
    destruct C2 as (e2 & T2 & F2); [destruct Ha as [st (st' & ? & _)%G1]; by exists st'|].
    exists (e1 ++ e2). rewrite T2, T1, (assoc_L (++)). split; [done|]. apply Forall_app.
    split; [|done]. eapply Forall_impl; [exact F1|]. intros ev. by apply has_claim_grow.
Qed.

Lemma no_call_claimed s s' : stores_grow s s' → sc_trace s' = sc_trace s → claimed s s'.
Proof. intros G T. split; [done|]. intros _. exists []. by rewrite app_nil_r. Qed.

Lemma silent_claimed s s' : silent s s' → stores_grow s s' → claimed s s'.
Proof. intros [T _ _ _] G. by apply no_call_claimed. Qed.

Lemma keeps_claimed {A} (m : M MemStore A) :
  keeps any silent m → keeps any stores_grow m → keeps any claimed m.
Proof. intros H1 H2 s a s' HP Hrun. eapply silent_claimed; eauto. Qed.

#[export] Instance claimed_RecordFrame : RecordFrame E claimed.
Proof.
  apply (RecordFrame_implied E silent stores_grow); [exact _..|]. apply silent_claimed.
Qed.

Lemma attempt_once_claimed attempt r node : keeps any claimed (attempt_once cfg E attempt r node).
Proof.
  intros s out s' _ (u & s1 & H1 & (claim & s2 & H2 & H3)%bind_Some)%bind_Some.
  assert (claimed s s1) as C1.
  { apply no_call_claimed; [by eapply grow_task|].
    by apply update_task_Some in H1 as (? & ? & _ & _ & ->). }
  pose proof H1 as (j & t & Hj & Ht & _)%update_task_Some.
  apply (start_attempt r t) in H1 as (T1 & t1 & Ht1 & E1 & E2 & E3);
    [|exists t; unfold task_at; by rewrite Hj].
  pose proof (rf_claim E claimed _ _ _ _ _ _ I H2) as C2.
  destruct claim as [err|]; [apply ret_Some in H3 as [_ ->]; by etrans|].
  apply bind_Some in H3 as (? & s3 & H3 & H4). apply bind_Some in H4 as (err & s4 & H4 & H5).
  apply bind_Some in H5 as (? & s5 & H5 & H6). apply ret_Some in H6 as [_ ->].
  assert (claimed s2 s3) as C3
    by (eapply silent_claimed; [by eapply silent_reserve|by eapply grow_nodes]).
  assert (claimed s4 s5) as C5
    by (eapply silent_claimed; [by eapply silent_release|by eapply grow_nodes]).
  etrans; [exact C1|]. assert (claimed s1 s4) as C4; [|by etrans].
  pose proof (grow_executeTask _ _ _ _ _ I H4) as G4.
  pose proof (rf_claim E silent _ _ _ _ _ _ I H2) as S2.
  pose proof (silent_reserve cfg E _ _ _ _ I H3) as S3.
  pose proof (transitivity S2 S3) as S23.
  apply executeTask_calls in H4 as [S4|(sa & sb & ev & Sa & -> & Sb & _ & En & Hev)].
  { etrans; [exact C2|]. etrans; [exact C3|]. by apply silent_claimed. }
  split; [etrans; [apply C2|]; etrans; [apply C3|done]|]. intros Hst. exists [ev].
  rewrite (si_trace _ _ Sb). simpl. rewrite (si_trace _ _ Sa), (si_trace _ _ S23).
  split; [done|]. constructor; [|done].
  rewrite (si_ident _ _ S23 r), Ht1 in Hev. simpl in Hev. injection Hev as H7 H8 H9.
  eapply has_claim_grow; [etrans; [apply C3|exact G4]|].
  eapply claim_recorded; [exact Hst|exact Ht1|exact H2|congruence..].
Qed.

Lemma claimed_retry n attempt r node nodes :
  keeps any claimed (retry_loop cfg E n attempt r node nodes).
Proof.
  revert attempt node. induction n as [|n IH]; intros attempt node; [apply keeps_ret, _|].
  apply keeps_ext with (m' := out ← attempt_once cfg E attempt r node;
                              next_attempt cfg E n attempt r nodes out).
  { intros s. apply retry_loop_S. }
  apply keeps_bind; [exact _|exact _|apply attempt_once_claimed|]. intros out.
  assert (keeps any claimed (select_for cfg E r nodes))
    by (apply keeps_claimed; [apply silent_select|apply grow_select]).
  unfold next_attempt. keeps_auto.
Qed.

#[export] Instance claimed_ExecFrame : ExecFrame cfg E claimed.
Proof.
  split; intros; [exact _|apply claimed_retry|apply keeps_claimed..].
  - apply silent_select.
  - apply grow_select.
  - by apply silent_stage.
  - apply grow_stage.
  - by apply silent_job.
  - apply grow_job.
  - by apply silent_job.
  - apply grow_job.
  - by apply silent_modify.
  - apply grow_jobs.
Qed.
End Claims.

(** ** Theorems *)

(** C3. Every executor call of an iteration of the dispatch loop carries the
    authority of a decision taken during that iteration, in which the provider
    declared this scheduler the leader. *)
Theorem calls_authorised {St Tx} `{!TransitionStoreI St Tx} cfg E (s s' : Sched St) (b : bool) :
  run_once cfg E s = Some (b, s') →
  ∃ evs, sc_trace s' = sc_trace s ++ evs ∧
    Forall (granted (provider s) (sc_tick s) (sc_tick s')) evs.
Proof. intros H. by apply (authorised_run_once cfg E s b s' I) in H as [_ _ ?]. Qed.

(** C2. No task of a durable job is executed without a claim: for every executor
    call made while a job runs there is a DISPATCHED record with the same task,
    node and attempt in the durable log. *)
Theorem calls_claimed cfg E l (s s' : Sched MemStore) u :
  executeJob cfg E l s = Some (u, s') → is_Some (sc_store s) →
  ∃ evs, sc_trace s' = sc_trace s ++ evs ∧ Forall (has_claim s') evs.
Proof. intros H. by apply (ef_executeJob cfg E claimed l s u s' I) in H as [_ ?]. Qed.
