(* ===== verification/Admission.v ===== *)
(** * Admission: submissions, the queue and the dispatch loop

    What [SubmitJobWithContext] and the queue promise to their callers: the
    outcome of a submission, and that concurrent submissions, however their
    critical sections interleave with dequeueing, never take more slots than the
    queue has, so that no submission takes the slot of another. *)

From stdpp Require Import base gmap strings list fin_maps.
From S2P Require Import Prelude StateMachine Store Replay Jobs Config Leadership Nodes Scheduler Lifecycle SchedLogic Frames.

Open Scope Z_scope.

(** ** What persisting leaves alone *)

Section Kept.
Context {St Tx : Type} `{!TransitionStoreI St Tx}.
Context (cfg : SchedulerConfig) (E : Env).

Definition has_id (s : Sched St) (l : loc) (id : string) : Prop :=
  ∃ j, sc_heap s !! l = Some j ∧ j_ID j = id.

(** The job map, the queue and the identity of the jobs. *)
Record kept (s s' : Sched St) : Prop := {
  kp_jobs : sc_jobs s' = sc_jobs s;
  kp_queue : sc_queue s' = sc_queue s;
  kp_queued : sc_queuedJobs s' = sc_queuedJobs s;
  kp_pending : sc_pendingEnqueue s' = sc_pendingEnqueue s;
  kp_ids : ∀ l id, has_id s l id → has_id s' l id;
}.

#[export] Instance kept_pre : PreOrder kept.
Proof. split; [by split|]. intros a b c [] []. split; try congruence. auto. Qed.

Lemma kept_job l f : (∀ j, j_ID (f j) = j_ID j) → keeps any kept (update_job l f : M St unit).
Proof.
  intros Hf. apply keeps_update_job. intros s j _ Hj. split; [done..|].
  intros l' id (j' & Hj' & <-). unfold has_id. simpl. destruct (decide (l = l')) as [<-|].
  - rewrite lookup_insert_eq. exists (f j). rewrite Hf. split; congruence.
  - rewrite lookup_insert_ne by done. eauto.
Qed.
Lemma kept_task r f : keeps any kept (update_task r f : M St unit).
Proof.
  unfold update_task. apply keeps_bind; [exact _|exact _|apply keeps_get_task; exact _|intros _].
  by apply kept_job.
Qed.
Lemma kept_tick : keeps any kept (next_tick : M St nat).
Proof. apply keeps_next_tick. by intros s _. Qed.
Lemma kept_nodes {A} (m : ST NodeState A) : keeps any kept (on_nodes m : M St A).
Proof. apply keeps_on_nodes. by intros s _. Qed.

#[export] Instance kept_RecordFrame : RecordFrame E kept.
Proof.
  apply RecordFrame_storeless; intros; [exact _|apply kept_tick|apply kept_nodes|..].
  - apply keeps_modify. by intros s _.
  - apply keeps_modify. by intros s _.
  - by apply kept_job.
  - apply kept_task.
Qed.

Lemma kept_recordInitial l : keeps any kept (recordInitialTransitions E l : M St unit).
Proof.
  pose proof (rf_recordJob E kept). pose proof (rf_recordTask E kept). pose proof kept_task.
  unfold recordInitialTransitions, record_stage_created, record_created. keeps_auto.
Qed.
End Kept.

(** ** Critical sections *)

Section Sections.
Context {St Tx : Type} `{!TransitionStoreI St Tx}.
Context (cfg : SchedulerConfig) (E : Env).
Implicit Types s : Sched St.

(** The decision of the first critical section of a submission. *)
Definition admission (id : string) (s : Sched St) : option error :=
  if sc_recovering s then Some (ESentinel ErrSchedulerRecovering)
  else if bool_decide (is_Some (sc_jobs s !! id)) then
    Some (EText ("job " +:+ id +:+ " already exists"))
  else if Z.of_nat (length (sc_queue s)) + sc_pendingEnqueue s <? JobQueueSize cfg then None
  else Some (ESentinel ErrJobQueueFull).

Definition reserved_state (l : loc) (j : Job) (s : Sched St) : Sched St :=
  set_jobs (<[j_ID j := l]> (sc_jobs s))
    (set_heap (<[l := with_job_status JobPending j]> (sc_heap s))
       (set_pending (sc_pendingEnqueue s + 1) s)).

Lemma submit_reserve_eq l j s :
  sc_heap s !! l = Some j →
  submit_reserve cfg l s =
  Some (admission (j_ID j) s,
        match admission (j_ID j) s with Some _ => s | None => reserved_state l j s end).
Proof.
  intros Hj. unfold submit_reserve, admission, mbind, M_bind, get, get_job, update_job. cbn beta iota.
  destruct (sc_recovering s); [done|]. cbn beta iota. rewrite Hj.
  destruct (sc_jobs s !! j_ID j); [done|]. rewrite bool_decide_eq_false_2 by (by intros []).
  destruct (_ <? _); [|done]. simpl. by rewrite Hj.
Qed.

Lemma enqueue_eq l id s :
  has_id s l id →
  enqueueJobLocked cfg l s =
  Some (if bool_decide (id ∈ sc_queuedJobs s) then (false, s)
        else if Z.of_nat (length (sc_queue s)) <? JobQueueSize cfg
        then (true, set_queue (sc_queue s ++ [l]) ({[ id ]} ∪ sc_queuedJobs s) s)
        else (false, s)).
Proof.
  intros (j & Hj & <-). unfold enqueueJobLocked, mbind, M_bind, get, get_job. cbn beta iota.
  rewrite Hj.
  case_bool_decide; [done|]. by destruct (_ <? _).
Qed.

(** C10. Submitting a job: a refusal leaves the scheduler as it was, and says why;
    an admitted job is registered under its id and, unless its id is in the
    queue already, queued last. *)
Theorem submit_outcome l j s res s' :
  sc_heap s !! l = Some j → 0 ≤ sc_pendingEnqueue s →
  SubmitJobWithContext cfg E l s = Some (res, s') →
  res = admission (j_ID j) s ∧
  match res with
  | Some _ => s' = s
  | None =>
      sc_jobs s' = <[j_ID j := l]> (sc_jobs s) ∧ sc_pendingEnqueue s' = sc_pendingEnqueue s ∧
      sc_queuedJobs s' = {[ j_ID j ]} ∪ sc_queuedJobs s ∧
      sc_queue s' = if bool_decide (j_ID j ∈ sc_queuedJobs s) then sc_queue s
                    else sc_queue s ++ [l]
  end.
Proof.
  intros Hj Hp. unfold SubmitJobWithContext. intros (err & s1 & H1 & H)%bind_Some.
  rewrite (submit_reserve_eq l j s Hj) in H1. injection H1 as <- <-.
  destruct (admission (j_ID j) s) as [e|] eqn:Ha; [by apply ret_Some in H as [-> ->]|].
  apply bind_Some in H as (? & s2 & H2 & H). apply bind_Some in H as (b & s3 & H3 & H).
  apply ret_Some in H as [-> ->]. split; [done|].
  apply (kept_recordInitial E l _ _ _ I) in H2 as [K1 K2 K3 K4 K5]. simpl in *.
  assert (has_id s2 l (j_ID j)) as Hid.
  { apply K5. exists (with_job_status JobPending j). simpl. by rewrite lookup_insert_eq. }
  unfold submit_commit in H3. apply bind_Some in H3 as (? & s4 & H4 & H3).
  injection H4 as <- <-. rewrite (enqueue_eq l (j_ID j)) in H3 by exact Hid. simpl in H3.
  rewrite K2, K3 in H3. unfold admission in Ha.
  destruct (sc_recovering s); [done|]. destruct (bool_decide (is_Some _)) in Ha; [done|].
  destruct (Z.ltb_spec (Z.of_nat (length (sc_queue s)) + sc_pendingEnqueue s) (JobQueueSize cfg));
    [|done].
  revert H3. case_bool_decide as Hq; intros H3.
  - injection H3 as <- <-. simpl. rewrite K1, K2, K3, K4. split_and!; [done|lia| |done]. set_solver.
  - destruct (Z.ltb_spec (Z.of_nat (length (sc_queue s))) (JobQueueSize cfg)); [|lia].
    injection H3 as <- <-. simpl. rewrite K1, K4. split_and!; [done|lia|done|done].
Qed.
End Sections.

(** ** Interleaved submissions *)

Section Interleaving.
Context {St Tx : Type} `{!TransitionStoreI St Tx}.
Context (cfg : SchedulerConfig).

(** A submission between its two critical sections: its job and the job's id. *)
Abbreviation InFlight := (list (loc * string)).

(** Steps of concurrent callers of [SubmitJobWithContext] and of the dispatch
    loop.  Between critical sections, and while the dispatch loop executes,
    transitions are persisted and jobs are updated ([kept]). *)
Inductive adm_step : Sched St * InFlight → Sched St * InFlight → Prop :=
  | adm_new j s fl :
      sc_heap s !! sc_next s = None →
      adm_step (s, fl)
        (set_next (S (sc_next s)) (set_heap (<[sc_next s := j]> (sc_heap s)) s), fl)
  | adm_reserve l j s s' fl :
      sc_heap s !! l = Some j → submit_reserve cfg l s = Some (None, s') →
      adm_step (s, fl) (s', (l, j_ID j) :: fl)
  | adm_refuse l e s s' fl :
      submit_reserve cfg l s = Some (Some e, s') → adm_step (s, fl) (s', fl)
  | adm_commit l id b s s' fl1 fl2 :
      submit_commit cfg l s = Some (b, s') →
      adm_step (s, fl1 ++ (l, id) :: fl2) (s', fl1 ++ fl2)
  | adm_dequeue l q u s s' fl :
      sc_queue s = l :: q → markJobDequeued l (set_queue q (sc_queuedJobs s) s) = Some (u, s') →
      adm_step (s, fl) (s', fl)
  | adm_other s s' fl : kept s s' → adm_step (s, fl) (s', fl).

(** Queued and in-flight jobs have different ids, all of them registered, and
    there is a slot for each of them. *)
Record adm_inv (s : Sched St) (fl : InFlight) (ids : list string) : Prop := {
  ai_queue : Forall2 (has_id s) (sc_queue s) ids;
  ai_flight : Forall (λ p, has_id s p.1 p.2) fl;
  ai_nodup : NoDup (ids ++ fl.*2);
  ai_jobs : Forall (λ id, is_Some (sc_jobs s !! id)) (ids ++ fl.*2);
  ai_queued : sc_queuedJobs s = list_to_set ids;
  ai_pending : sc_pendingEnqueue s = Z.of_nat (length fl);
  ai_room : Z.of_nat (length (sc_queue s)) + sc_pendingEnqueue s ≤ JobQueueSize cfg;
}.

Lemma adm_inv_kept s s' fl ids : kept s s' → adm_inv s fl ids → adm_inv s' fl ids.
Proof.
  intros [K1 K2 K3 K4 K5] [I1 I2 I3 I4 I5 I6 I7]. split; rewrite ?K1, ?K2, ?K3, ?K4; try done.
  - eapply Forall2_impl; [exact I1|]. auto.
  - eapply Forall_impl; [exact I2|]. auto.
Qed.

Lemma adm_inv_new j s fl ids :
  sc_heap s !! sc_next s = None → adm_inv s fl ids →
  adm_inv (set_next (S (sc_next s)) (set_heap (<[sc_next s := j]> (sc_heap s)) s)) fl ids.
Proof.
  intros Hnone. apply adm_inv_kept. split; [done..|]. intros l id (j' & Hj' & Hid).
  exists j'. simpl. rewrite lookup_insert_ne; [done|]. congruence.
Qed.

Lemma admission_None id (s : Sched St) :
  admission cfg id s = None →
  sc_jobs s !! id = None ∧ Z.of_nat (length (sc_queue s)) + sc_pendingEnqueue s < JobQueueSize cfg.
Proof.
  unfold admission. destruct (sc_recovering s); [done|]. case_bool_decide as H; [done|].
  destruct (Z.ltb_spec (Z.of_nat (length (sc_queue s)) + sc_pendingEnqueue s) (JobQueueSize cfg));
    [|done].
  intros _. split; [|done]. by apply eq_None_not_Some.
Qed.

Lemma adm_inv_reserve l j s fl ids :
  sc_heap s !! l = Some j → admission cfg (j_ID j) s = None →
  adm_inv s fl ids → adm_inv (reserved_state l j s) ((l, j_ID j) :: fl) ids.
Proof.
  intros Hj [Hnew Hroom]%admission_None [I1 I2 I3 I4 I5 I6 I7].
  assert (∀ l' id, has_id s l' id → has_id (reserved_state l j s) l' id) as Hids.
  { intros l' id (j' & Hj' & <-). unfold has_id. simpl. destruct (decide (l = l')) as [<-|].
    - rewrite lookup_insert_eq. eexists. split; [done|]. simpl. congruence.
    - rewrite lookup_insert_ne by done. eauto. }
  assert (j_ID j ∉ ids ++ fl.*2) as Hfresh.
  { intros Hin. rewrite Forall_forall in I4. apply I4 in Hin as [? Hin]. congruence. }
  split; simpl; [|constructor| | |done| |].
  - eapply Forall2_impl; [exact I1|]. auto.
  - apply Hids. by exists j.
  - eapply Forall_impl; [exact I2|]. auto.
  - rewrite <-Permutation_middle. by constructor.
  - rewrite <-Permutation_middle. constructor; [rewrite lookup_insert_eq; eauto|].
    eapply Forall_impl; [exact I4|]. intros id Hid. rewrite lookup_insert_is_Some'. by right.
  - lia.
  - lia.
Qed.

(** With a slot reserved, the enqueue of the second section succeeds. *)
Lemma commit_eq l id s fl1 fl2 ids :
  adm_inv s (fl1 ++ (l, id) :: fl2) ids →
  submit_commit cfg l s =
  Some (true, set_queue (sc_queue s ++ [l]) ({[ id ]} ∪ sc_queuedJobs s)
                (set_pending (sc_pendingEnqueue s - 1) s)).
Proof.
  intros [I1 I2 I3 I4 I5 I6 I7]. unfold submit_commit, mbind, M_bind, modify. cbn beta iota.
  rewrite (enqueue_eq cfg l id).
  - simpl. rewrite bool_decide_eq_false_2.
    + destruct (Z.ltb_spec (Z.of_nat (length (sc_queue s))) (JobQueueSize cfg)) as [|Hge]; [done|].
      exfalso. revert I6 I7 Hge. rewrite length_app. simpl. lia.
    + rewrite I5, elem_of_list_to_set. intros Hin. apply NoDup_app in I3 as (_ & Hd & _).
      apply (Hd id Hin). rewrite fmap_app. apply elem_of_app. right. by left.
  - rewrite Forall_app, Forall_cons in I2. apply I2.
Qed.

Lemma adm_inv_commit l id b s s' fl1 fl2 ids :
  submit_commit cfg l s = Some (b, s') → adm_inv s (fl1 ++ (l, id) :: fl2) ids →
  adm_inv s' (fl1 ++ fl2) (ids ++ [id]).
Proof.
  intros H HI. rewrite (commit_eq l id s fl1 fl2 ids HI) in H. injection H as <- <-.
  destruct HI as [I1 I2 I3 I4 I5 I6 I7].
  rewrite Forall_app, Forall_cons in I2. destruct I2 as (F1 & Hl & F2).
  assert ((ids ++ [id]) ++ (fl1 ++ fl2).*2 ≡ₚ ids ++ (fl1 ++ (l, id) :: fl2).*2) as Hperm.
  { rewrite !fmap_app, <-(assoc_L (++)). simpl. by rewrite Permutation_middle. }
  split; simpl.
  - apply Forall2_app; [exact I1|]. by repeat constructor.
  - by apply Forall_app.
  - by rewrite Hperm.
  - by rewrite Hperm.
  - rewrite I5. set_solver.
  - revert I6. rewrite !length_app. simpl. lia.
  - revert I6 I7. rewrite !length_app. simpl. lia.
Qed.

Lemma adm_inv_dequeue l q u s s' fl ids :
  sc_queue s = l :: q → markJobDequeued l (set_queue q (sc_queuedJobs s) s) = Some (u, s') →
  adm_inv s fl ids → ∃ ids', adm_inv s' fl ids'.
Proof.
  intros Hq H [I1 I2 I3 I4 I5 I6 I7]. rewrite Hq in I1, I7.
  inversion I1 as [|? id ? ids' Hid I1' E1 E2]; subst. exists ids'.
  unfold markJobDequeued in H. apply bind_Some in H as (j & ? & [Hj ->]%get_job_Some & H).
  injection H as <- <-. simpl in Hj. destruct Hid as (j' & Hj' & <-). simplify_eq.
  simpl in I3, I4. apply NoDup_cons in I3 as [Hnin I3]. inversion_clear I4 as [|?? _ I4'].
  split; simpl; try done.
  - rewrite I5. simpl. assert (j_ID j ∉ ids') by (intros Hin; apply Hnin, elem_of_app; by left).
    set_solver.
  - revert I7. simpl. lia.
Qed.

Lemma adm_inv_step s fl s' fl' ids :
  adm_step (s, fl) (s', fl') → adm_inv s fl ids → ∃ ids', adm_inv s' fl' ids'.
Proof.
  intros Hst HI.
  inversion Hst as [j ? ? Hn|l j ? ? ? Hj H|l e ? ? ? H|l id b ? ? ? ? H|l q u ? ? ? Hq H|? ? ? H];
    subst.
  - exists ids. by apply adm_inv_new.
  - exists ids. rewrite (submit_reserve_eq cfg l j s Hj) in H.
    destruct (admission cfg (j_ID j) s) eqn:Ha; [done|]. injection H as <-.
    by apply adm_inv_reserve.
  - exists ids. destruct (sc_heap s !! l) as [j|] eqn:Hj.
    + rewrite (submit_reserve_eq cfg l j s Hj) in H.
      destruct (admission cfg (j_ID j) s); [|done]. by injection H as <- <-.
    + unfold submit_reserve, mbind, M_bind, get, get_job in H. cbn beta iota in H.
      destruct (sc_recovering s); [by injection H as <- <-|]. cbn beta iota in H.
      by rewrite Hj in H.
  - eexists. by eapply adm_inv_commit.
  - by eapply adm_inv_dequeue.
  - exists ids. by eapply adm_inv_kept.
Qed.

(** C9. However submissions interleave with each other, with the dequeues of the
    dispatch loop and with whatever leaves the queue alone, the queue never
    overflows, and a submission that was admitted finds its slot when it comes
    to queue its job.  Requeueing by a follower and reconciliation, which queue
    without looking at the reserved slots, are not steps here: the comment in
    [SubmitJobWithContext] names them as the paths that can take a slot, and
    [Scenarios.requeue_takes_reserved_slot] shows that they do. *)
Theorem no_over_admission s0 s fl :
  sc_queue s0 = [] → sc_queuedJobs s0 = ∅ → sc_pendingEnqueue s0 = 0 → 0 ≤ JobQueueSize cfg →
  rtc adm_step (s0, []) (s, fl) →
  Z.of_nat (length (sc_queue s)) + Z.of_nat (length fl) ≤ JobQueueSize cfg ∧
  ∀ l id, (l, id) ∈ fl →
    ∃ s', submit_commit cfg l s = Some (true, s') ∧ sc_queue s' = sc_queue s ++ [l].
Proof.
  intros Hq Hqs Hp Hsize Hr.
  assert (∃ ids, adm_inv s fl ids) as [ids HI].
  { remember (s0, []) as x eqn:Hx. remember (s, fl) as y eqn:Hy.
    assert (∃ ids, adm_inv x.1 x.2 ids) as H0.
    { subst x. exists []. split; simpl; rewrite ?Hq; try done; try constructor. simpl. lia. }
    clear Hx. revert Hy. induction Hr as [x|[s1 f1] [s2 f2] z Hst _ IH]; intros ->; [exact H0|].
    apply IH; [|done]. destruct H0 as [ids H0]. by eapply adm_inv_step. }
  split; [destruct HI; lia|]. intros l id (fl1 & fl2 & ->)%list_elem_of_split.
  eexists. split; [by eapply commit_eq|done].
Qed.
End Interleaving.

(** ** The dispatch loop of a follower *)

Section Follower.
Context {St Tx : Type} `{!TransitionStoreI St Tx}.
Context (cfg : SchedulerConfig) (E : Env).

Definition never_leader (s : Sched St) : Prop :=
  ∀ n a, lp_DispatchAuthority (default defaultLeadershipProvider (sc_leadership s)) n = inr a →
         la_IsLeader a = false.

(** The state [isExecutableDequeuedJob] looks at. *)
Definition dequeued_state (s : Sched St) (l : loc) : option JobLifecycleState :=
  j ← sc_heap s !! l; current ← sc_heap s !! default l (sc_jobs s !! j_ID j);
  Some (j_LifecycleState current).
Definition executable (s : Sched St) (l : loc) : bool :=
  match dequeued_state s l with
  | Some st => String.eqb st JobStateSubmitted || String.eqb st JobStateQueued
  | None => false
  end.

Lemma isExecutable_outcome l s b s' :
  isExecutableDequeuedJob l s = Some (b, s') → b = executable s l ∧ s' = s.
Proof.
  unfold isExecutableDequeuedJob. intros (j & ? & [Hj ->]%get_job_Some & H)%bind_Some.
  apply bind_Some in H as (? & ? & [-> ->]%get_Some & H).
  apply bind_Some in H as (cur & ? & [Hcur ->]%get_job_Some & H). apply ret_Some in H as [-> ->].
  unfold executable, dequeued_state. rewrite Hj. simpl. by rewrite Hcur.
Qed.

(** What is left of a state when its queue was changed and time passed. *)
Record requeued (s s' : Sched St) (q : list loc) : Prop := {
  rq_queue : sc_queue s' = q;
  rq_heap : sc_heap s' = sc_heap s;
  rq_jobs : sc_jobs s' = sc_jobs s;
  rq_store : sc_store s' = sc_store s;
  rq_trace : sc_trace s' = sc_trace s;
}.

Lemma requeue_run l id q s0 s b s' :
  requeued s0 s q → has_id s l id → id ∉ sc_queuedJobs s →
  Z.of_nat (length q) < JobQueueSize cfg →
  requeue_and_wait cfg E l s = Some (b, s') →
  requeued s0 s' (if env_stopped E (sc_tick s) then q else q ++ [l]).
Proof.
  intros [R1 R2 R3 R4 R5] Hid Hnq Hlen. unfold requeue_and_wait, requeueJob.
  intros (? & s1 & (n & s2 & Hn & H1)%bind_Some & H)%bind_Some.
  apply bind_Some in H as (? & s3 & H3 & [_ ->]%ret_Some). injection H3 as _ <-.
  injection Hn as <- <-. destruct (env_stopped E (sc_tick s)).
  { apply ret_Some in H1 as [_ ->]. by split. }
  apply bind_Some in H1 as (? & s3 & H3 & [_ ->]%ret_Some).
  rewrite (enqueue_eq cfg l id) in H3 by exact Hid. simpl in H3.
  rewrite bool_decide_eq_false_2 in H3 by done. rewrite R1 in H3.
  destruct (Z.ltb_spec (Z.of_nat (length q)) (JobQueueSize cfg)); [|lia].
  injection H3 as _ <-. by split.
Qed.

(** C15. A scheduler that is not the leader executes nothing and writes nothing: it
    drops a job that is no longer executable and puts any other back at the
    end of the queue, unless it was stopped. *)
Theorem follower_requeues l q s b s' :
  sc_queue s = l :: q → Z.of_nat (length (sc_queue s)) ≤ JobQueueSize cfg → never_leader s →
  run_once cfg E s = Some (b, s') →
  requeued s s' (if executable s l && negb (env_stopped E (S (sc_tick s))) then q ++ [l] else q).
Proof.
  intros Hq Hlen Hnl. unfold run_once. intros (? & ? & [-> ->]%get_Some & H)%bind_Some.
  rewrite Hq in H. apply bind_Some in H as (? & s1 & H1 & H). injection H1 as <- <-.
  apply bind_Some in H as (? & s2 & H2 & H). unfold markJobDequeued in H2.
  apply bind_Some in H2 as (j & ? & [Hj ->]%get_job_Some & H2). injection H2 as _ <-.
  simpl in Hj. apply bind_Some in H as (ex & s3 & [-> ->]%isExecutable_outcome & H).
  change (executable _ l) with (executable s l) in H.
  destruct (executable s l); simpl in H; [|by apply ret_Some in H as [_ ->]].
  apply bind_Some in H as (auth & s3 & H3 & H). unfold dispatchAuthority in H3.
  apply bind_Some in H3 as (? & ? & [-> ->]%get_Some & H3).
  apply bind_Some in H3 as (n & s4 & Hn & H3). injection Hn as <- <-.
  apply ret_Some in H3 as [-> ->]. simpl in H.
  assert (requeue_and_wait cfg E l (set_nodes (set_tick (S (sc_tick s)) (sc_nodes s))
    (set_queue q (sc_queuedJobs s ∖ {[j_ID j]}) (set_queue q (sc_queuedJobs s) s)))
    = Some (b, s')) as Hrun.
  { destruct (lp_DispatchAuthority _ _) as [err|a] eqn:Ha; [done|].
    by rewrite (Hnl _ a Ha) in H. }
  eapply (requeue_run l (j_ID j) q s) in Hrun.
  - change (sc_tick (set_nodes _ _)) with (S (sc_tick s)) in Hrun. simpl.
    by destruct (env_stopped E (S (sc_tick s))).
  - by split.
  - by exists j.
  - simpl. set_solver.
  - rewrite Hq in Hlen. simpl in Hlen. lia.
Qed.

(** Without leadership a reconciler cannot fail a job: nothing is written, in
    memory or durably. *)
Theorem quarantine_needs_leadership d reason s s' :
  never_leader s → failDurableQueuedJobForReconcile E d reason s = Some (tt, s') →
  requeued s s' (sc_queue s).
Proof.
  intros Hnl. unfold failDurableQueuedJobForReconcile.
  destruct (String.eqb (dj_JobID d) ""); [by intros [_ ->]%ret_Some|].
  intros (auth & s1 & H1 & H)%bind_Some. unfold dispatchAuthority in H1.
  apply bind_Some in H1 as (? & ? & [-> ->]%get_Some & H1).
  apply bind_Some in H1 as (n & s2 & Hn & [-> ->]%ret_Some). injection Hn as <- <-.
  destruct (lp_DispatchAuthority _ _) as [err|a] eqn:Ha; [by apply ret_Some in H as [_ ->]|].
  rewrite (Hnl _ a Ha) in H. by apply ret_Some in H as [_ ->].
Qed.
End Follower.
