(* ===== verification/Totality.v ===== *)
(** * Totality: executing a job never panics

    A method of the scheduler panics when it dereferences a nil pointer, or when it
    selects a node from an empty slice or by a negative index, which the
    round-robin counter yields once it has wrapped around.  The invariant that
    rules this out: the job map holds live jobs, the job being executed has no nil
    stage and no nil task, and the counter has room for the selections to come
    ([sound]).  [spends] counts these selections. *)

From stdpp Require Import base gmap strings list fin_maps.
From S2P Require Import Prelude StateMachine Store Replay Jobs Config Leadership Nodes Scheduler Lifecycle SchedLogic.

Open Scope Z_scope.

Create HintDb runs.

(** [runs P Q m]: from a state with [P], [m] returns a result with [Q] and
    ends in a state with [P]. *)
Definition runs {St A} (P : Sched St → Prop) (Q : A → Prop) (m : M St A) : Prop :=
  ∀ s, P s → ∃ a s', m s = Some (a, s') ∧ Q a ∧ P s'.

Definition whatever {A} (a : A) : Prop := True.

Section Rules.
Context {St : Type} (P : Sched St → Prop).

Lemma runs_ret {A} (Q : A → Prop) (a : A) : Q a → runs P Q (mret a : M St A).
Proof. intros Ha s HP. exists a, s. done. Qed.
Lemma runs_bind {A B} (Q : A → Prop) (Q' : B → Prop) (m : M St A) (f : A → M St B) :
  runs P Q m → (∀ a, Q a → runs P Q' (f a)) → runs P Q' (m ≫= f).
Proof.
  intros Hm Hf s HP. destruct (Hm s HP) as (a & s1 & H1 & Ha & HP1).
  destruct (Hf a Ha s1 HP1) as (b & s2 & H2 & Hb & HP2). exists b, s2.
  rewrite bind_Some. eauto 10.
Qed.
Lemma runs_get : runs P P (get : M St _).
Proof. intros s HP. exists s, s. done. Qed.
Lemma runs_modify f : (∀ s, P s → P (f s)) → runs P whatever (modify f).
Proof. intros Hf s HP. exists tt, (f s). split_and!; [done|done|auto]. Qed.
Lemma runs_nodes {A} (m : ST NodeState A) :
  index_kept m →
  (∀ s n, ns_nodeIndex n = ns_nodeIndex (sc_nodes s) → P s → P (set_nodes n s)) →
  runs P whatever (on_nodes m).
Proof.
  intros Hm Hn s HP. unfold on_nodes. specialize (Hm (sc_nodes s)).
  destruct (m (sc_nodes s)) as [a n]. exists a, (set_nodes n s). split_and!; [done|done|auto].
Qed.
Lemma runs_tick :
  (∀ s n, ns_nodeIndex n = ns_nodeIndex (sc_nodes s) → P s → P (set_nodes n s)) →
  runs P whatever (next_tick : M St _).
Proof. intros Hn s HP. eexists _, _. split_and!; [done|done|by apply Hn]. Qed.
Lemma runs_weaken {A} (Q Q' : A → Prop) (m : M St A) :
  runs P Q m → (∀ a, Q a → Q' a) → runs P Q' m.
Proof.
  intros Hm HQ s HP. destruct (Hm s HP) as (a & s' & ? & ? & ?). exists a, s'. auto.
Qed.
Lemma runs_whatever {A} (Q : A → Prop) (m : M St A) : runs P Q m → runs P whatever m.
Proof. intros Hm. eapply runs_weaken; [exact Hm|done]. Qed.
End Rules.

(** The rows of a job: for each stage that is not nil, which tasks are not nil. *)
Definition dims (j : Job) : list (option (list bool)) :=
  fmap (M:=option) (λ st, (λ t, bool_decide (is_Some t)) <$> s_Tasks st) <$> j_Stages j.

(** No nil stage, no nil task. *)
Definition complete (d : list (option (list bool))) : Prop :=
  Forall (λ o, ∃ bs, o = Some bs ∧ Forall (λ b, b = true) bs) d.

Lemma dims_set_stages ss j :
  dims (set_stages ss j) =
  fmap (M:=option) (λ st, (λ t, bool_decide (is_Some t)) <$> s_Tasks st) <$> ss.
Proof. done. Qed.

Lemma list_fmap_alter_id {A B} (f : A → B) (g : A → A) (l : list A) i :
  (∀ x, f (g x) = f x) → f <$> alter g i l = f <$> l.
Proof.
  intros Hg. revert i. induction l as [|x l IH]; intros [|i]; simpl; [done..| |]; f_equal; auto.
  apply IH.
Qed.

Lemma dims_map_stage i f j :
  (∀ st, (λ t, bool_decide (is_Some t)) <$> s_Tasks (f st) =
         (λ t, bool_decide (is_Some t)) <$> s_Tasks st) → dims (map_stage i f j) = dims j.
Proof.
  intros Hf. unfold map_stage. rewrite dims_set_stages. apply list_fmap_alter_id.
  intros [st|]; simpl; [by rewrite Hf|done].
Qed.
Lemma dims_map_task i k f j : dims (map_task i k f j) = dims j.
Proof.
  apply dims_map_stage. intros st. simpl. apply list_fmap_alter_id. by intros [t|].
Qed.

Section Total.
Context {St Tx : Type} `{!TransitionStoreI St Tx}.
Context (cfg : SchedulerConfig) (E : Env).
Context (l : loc) (d : list (option (list bool))).

(** The job and the jobs of the map are live, and [b] nodes can still be selected. *)
Record sound (b : nat) (l' : loc) (s : Sched St) : Prop := {
  so_job : ∃ j, sc_heap s !! l = Some j ∧ dims j = d;
  so_live : is_Some (sc_heap s !! l');
  so_jobs : ∀ id k, sc_jobs s !! id = Some k → is_Some (sc_heap s !! k);
  so_index : 0 ≤ ns_nodeIndex (sc_nodes s) ∧ ns_nodeIndex (sc_nodes s) + Z.of_nat b ≤ i64_max;
}.

Lemma sound_less b b' l' s : sound b l' s → (b' ≤ b)%nat → sound b' l' s.
Proof. intros [? ? ? []] ?. split; try done. lia. Qed.

(** A [*Task] of the job that is not nil. *)
Definition good_ref (r : TaskRef) : Prop :=
  tr_loc r = l ∧ ∃ bs, d !! tr_stage r = Some (Some bs) ∧ bs !! tr_task r = Some true.

Lemma good_ref_task j r :
  dims j = d → good_ref r → is_Some (job_task j (tr_stage r) (tr_task r)).
Proof.
  intros Hd [_ (bs & Hi & Hk)]. rewrite <-Hd in Hi. unfold dims in Hi. rewrite list_lookup_fmap in Hi.
  unfold job_task, job_stage. destruct (j_Stages j !! tr_stage r) as [[st|]|]; simplify_eq/=.
  rewrite list_lookup_fmap in Hk. destruct (s_Tasks st !! tr_task r) as [[t|]|]; simplify_eq/=.
  eauto.
Qed.

Lemma sound_nodes b l' s n :
  ns_nodeIndex n = ns_nodeIndex (sc_nodes s) → sound b l' s → sound b l' (set_nodes n s).
Proof. intros Hn []. split; try done. simpl. by rewrite Hn. Qed.

Lemma sound_heap b l' k f s j :
  sc_heap s !! k = Some j → dims (f j) = dims j → sound b l' s →
  sound b l' (set_heap (<[k := f j]> (sc_heap s)) s).
Proof.
  intros Hk Hd [(j0 & Hj0 & Hd0) Hl' Hjobs Hidx].
  assert (∀ k', is_Some (sc_heap s !! k') → is_Some (<[k := f j]> (sc_heap s) !! k')) as Hlive.
  { intros k' Hk'. rewrite lookup_insert_is_Some'. by right. }
  split; simpl; [|by apply Hlive|by eauto|done].
  destruct (decide (k = l)) as [->|].
  - rewrite lookup_insert_eq. simplify_eq. eauto.
  - rewrite lookup_insert_ne by done. eauto.
Qed.

Lemma runs_get_job b l' : runs (sound b l') (λ j, l' = l → dims j = d) (get_job l' : M St _).
Proof.
  intros s HP. pose proof HP as [(j0 & Hj0 & Hd0) [j Hj] _ _]. exists j, s.
  rewrite get_job_Some. split_and!; [done|done| |done]. intros ->. congruence.
Qed.
Lemma runs_update_job b l' f :
  (∀ j, dims (f j) = dims j) → runs (sound b l') whatever (update_job l' f : M St _).
Proof.
  intros Hf s HP. pose proof HP as [_ [j Hj] _ _].
  exists tt, (set_heap (<[l' := f j]> (sc_heap s)) s).
  rewrite update_job_Some. split; [eauto|]. split; [done|]. by apply sound_heap.
Qed.
Lemma runs_get_task b r : good_ref r → runs (sound b l) whatever (get_task r : M St _).
Proof.
  intros Hr s HP. pose proof HP as [(j & Hj & Hd) _ _ _].
  destruct (good_ref_task j r Hd Hr) as [t Ht]. destruct Hr as [Hl _]. exists t, s.
  rewrite get_task_Some, Hl. split; [by exists j|done].
Qed.
Lemma runs_update_task b r f : good_ref r → runs (sound b l) whatever (update_task r f : M St _).
Proof.
  intros Hr s HP. pose proof HP as [(j & Hj & Hd) _ _ _].
  destruct (good_ref_task j r Hd Hr) as [t Ht]. destruct Hr as [Hl _].
  exists tt, (set_heap (<[l := map_task (tr_stage r) (tr_task r) f j]> (sc_heap s)) s).
  rewrite update_task_Some, Hl. split; [by exists j, t|]. split; [done|].
  apply (sound_heap b l l (map_task (tr_stage r) (tr_task r) f)); [done| |done].
  apply dims_map_task.
Qed.

Lemma sound_modify b l' f :
  (∀ s, sc_heap (f s) = sc_heap s ∧ sc_jobs (f s) = sc_jobs s ∧ sc_nodes (f s) = sc_nodes s) →
  runs (sound b l') whatever (modify f : M St _).
Proof.
  intros Hf. apply runs_modify. intros s [H1 H2 H3 H4]. destruct (Hf s) as (Hh & Hj & Hn).
  split; rewrite ?Hh, ?Hj, ?Hn; done.
Qed.

(** Binds, tests, matches and the primitive methods. *)
Ltac runs_step :=
  lazymatch goal with
  | |- runs _ _ (mret _ ≫= _) => eapply (runs_bind _ whatever); [by apply runs_ret|intros ? _]
  | |- runs _ _ (mret _) => by apply runs_ret
  | |- runs _ _ (get ≫= _) => eapply runs_bind; [apply runs_get|intros ? ?]
  | |- runs _ _ (get_job _ ≫= _) => eapply runs_bind; [apply runs_get_job|intros ? ?]
  | |- runs _ _ (_ ≫= _) => eapply (runs_bind _ whatever); [|intros ? _]
  | |- runs _ _ (if ?b then _ else _) => destruct b
  | |- runs _ _ (match ?x with _ => _ end) => destruct x
  | |- runs _ _ (let '(_, _) := ?x in _) => destruct x
  | |- runs _ whatever (modify _) => by apply sound_modify
  | |- runs _ whatever (on_nodes _) =>
      apply runs_nodes; [by eauto with index nocore|intros; by apply sound_nodes]
  | |- runs _ whatever (now _) => apply runs_nodes; [done|intros; by apply sound_nodes]
  | |- runs _ whatever next_tick => apply runs_tick; intros; by apply sound_nodes
  | |- runs _ whatever (update_job _ _) => by apply runs_update_job
  | |- runs _ whatever (get_task _) => by apply runs_get_task
  | |- runs _ whatever (update_task _ _) => by apply runs_update_task
  end.
Ltac runs_auto := repeat (first [solve [eauto with runs nocore] | runs_step]).

Lemma runs_sequence b l' id : runs (sound b l') whatever (nextSequenceIDWithContext id : M St _).
Proof. unfold nextSequenceIDWithContext, incr_sequence. runs_auto. Qed.
#[local] Hint Resolve runs_sequence : runs.
Lemma runs_ctx b l' : runs (sound b l') whatever (ctx_Err E : M St _).
Proof. unfold ctx_Err. runs_auto. Qed.
#[local] Hint Resolve runs_ctx : runs.
Lemma runs_persist b l' fn : runs (sound b l') whatever (persistTransitionWrite E fn : M St _).
Proof. unfold persistTransitionWrite. runs_auto. Qed.
#[local] Hint Resolve runs_persist : runs.
Lemma runs_recordJob b l' tr new summary :
  runs (sound b l') whatever (recordJobTransition E l' tr new summary : M St _).
Proof. unfold recordJobTransition. runs_auto. Qed.
#[local] Hint Resolve runs_recordJob : runs.

(** Another job of the job map. *)
Lemma sound_other b l' s : sound b l s → is_Some (sc_heap s !! l') → sound b l' s.
Proof. by intros [] ?. Qed.
Lemma sound_back b l' s : sound b l' s → sound b l s.
Proof. intros [(j & Hj & Hd) ? ? ?]. split; eauto. Qed.
Lemma runs_other {A} b (Q : A → Prop) l' (m : M St A) s :
  runs (sound b l') Q m → sound b l s → is_Some (sc_heap s !! l') →
  ∃ a s', m s = Some (a, s') ∧ Q a ∧ sound b l s'.
Proof.
  intros Hm HP Hl'. destruct (Hm s (sound_other b l' s HP Hl')) as (a & s' & ? & ? & ?).
  exists a, s'. eauto using sound_back.
Qed.

Lemma runs_snapshot b id n t : runs (sound b l) whatever (durableJobSnapshot id n t : M St _).
Proof.
  intros s HP. unfold durableJobSnapshot, mbind, M_bind, get. cbn beta iota.
  destruct (sc_jobs s !! id) as [k|] eqn:Hk; [|by eexists _, _].
  destruct (so_jobs _ _ _ HP id k Hk) as [j Hj]. unfold get_job. rewrite Hj. by eexists _, _.
Qed.
#[local] Hint Resolve runs_snapshot : runs.
Lemma runs_running b id : runs (sound b l) whatever (recordJobRunningOnFirstDispatch E id : M St _).
Proof.
  intros s HP. unfold recordJobRunningOnFirstDispatch.
  destruct (String.eqb id ""); [by eexists _, _|]. unfold mbind at 1, M_bind at 1, get. cbn beta iota.
  destruct (sc_jobs s !! id) as [k|] eqn:Hk; [|by eexists _, _].
  apply (runs_other b _ k); [|done|by eapply so_jobs]. runs_auto.
Qed.
#[local] Hint Resolve runs_running : runs.

Lemma runs_recordTask b r tr new nodeID attempt summary :
  good_ref r →
  runs (sound b l) whatever (recordTaskTransition E r tr new nodeID attempt summary : M St _).
Proof. intros Hr. unfold recordTaskTransition. runs_auto. Qed.
#[local] Hint Resolve runs_recordTask : runs.
Lemma runs_claim b r nodeID attempt :
  good_ref r → runs (sound b l) whatever (claimTaskDispatchTransition E r nodeID attempt : M St _).
Proof. intros Hr. unfold claimTaskDispatchTransition. runs_auto. Qed.
#[local] Hint Resolve runs_claim : runs.
Lemma runs_executeTask b r node :
  good_ref r → runs (sound b l) whatever (executeTask cfg E r node : M St _).
Proof. intros Hr. unfold executeTask, dispatchAuthority, ExecuteOnNode. runs_auto. Qed.
#[local] Hint Resolve runs_executeTask : runs.
(** *** Methods that select nodes

    [spends b b' Q m]: with room for [b] selections, [m] returns a result with [Q]
    and leaves room for [b' a] selections. *)
Definition spends {A} (b : nat) (b' : A → nat) (Q : A → Prop) (m : M St A) : Prop :=
  ∀ s, sound b l s → ∃ a s', m s = Some (a, s') ∧ Q a ∧ sound (b' a) l s'.

Lemma spends_bind {A B} b (b1 : A → nat) (Q1 : A → Prop) b2 (Q2 : B → Prop) (m : M St A) (f : A → M St B) :
  spends b b1 Q1 m → (∀ a, Q1 a → spends (b1 a) b2 Q2 (f a)) → spends b b2 Q2 (m ≫= f).
Proof.
  intros Hm Hf s HP. destruct (Hm s HP) as (a & s1 & H1 & Ha & HP1).
  destruct (Hf a Ha s1 HP1) as (c & s2 & H2 & Hc & HP2). exists c, s2.
  rewrite bind_Some. eauto 10.
Qed.
Lemma spends_runs {A} b (Q : A → Prop) (m : M St A) : runs (sound b l) Q m → spends b (λ _, b) Q m.
Proof. done. Qed.
Lemma spends_less {A} b b1 (b' b1' : A → nat) (Q : A → Prop) (m : M St A) :
  spends b b' Q m → (b ≤ b1)%nat → (∀ a, (b1' a ≤ b' a)%nat) → spends b1 b1' Q m.
Proof.
  intros Hm Hb Hb' s HP. destruct (Hm s (sound_less _ _ _ _ HP Hb)) as (a & s' & ? & ? & HP').
  exists a, s'. eauto using sound_less.
Qed.
Lemma spends_ret {A} b b' (Q : A → Prop) (a : A) : Q a → (b' a ≤ b)%nat → spends b b' Q (mret a).
Proof. intros Ha Hb s HP. exists a, s. eauto using sound_less. Qed.
(** A prefix that selects nothing. *)
Lemma spends_after {A B} b b2 (Q2 : B → Prop) (m : M St A) (f : A → M St B) :
  runs (sound b l) whatever m → (∀ a, spends b b2 Q2 (f a)) → spends b b2 Q2 (m ≫= f).
Proof. intros Hm Hf. eapply (spends_bind _ (λ _, b) whatever); [exact Hm|auto]. Qed.

Lemma spends_select b r nodes :
  good_ref r → spends (S b) (λ _, b) whatever (select_for cfg E r nodes : M St _).
Proof.
  intros Hr. unfold select_for.
  apply spends_after; [by apply runs_get_task|]. intros task s HP.
  pose proof (selects_for_task cfg (env_now E) (t_PartitionKey task) nodes (sc_nodes s)) as Hsel.
  destruct (so_index _ _ _ HP) as [Hi0 Hi1]. destruct Hsel as [[res Hres] Hidx]; [lia|].
  exists res. unfold mbind, M_bind, on_nodes.
  destruct (selectNodeForTask cfg (env_now E) (t_PartitionKey task) nodes (sc_nodes s)) as [o n].
  simpl in Hres, Hidx. subst o. exists (set_nodes n s). split_and!; [done|done|].
  destruct HP as [? ? ? _]. split; try done. simpl. lia.
Qed.

(** Another attempt on a node selected now. *)
Lemma spends_again b n r nodes (k : NodeInfo → M St (option error)) :
  good_ref r → (∀ node, spends (n + b) (λ _, b) whatever (k node)) →
  spends (S n + b) (λ _, b) whatever
    (next ← select_for cfg E r nodes;
     match next.1 with
     | None => mret (Some (ESentinel ErrNoWorkerCapacity))
     | Some node => k node
     end : M St _).
Proof.
  intros Hr Hk. eapply spends_bind; [by apply (spends_select (n + b))|]. intros [[node|] ar] _; simpl; [apply Hk|].
  apply spends_ret; [done|simpl; lia].
Qed.

Lemma spends_retry b n attempt r node nodes :
  good_ref r → spends (n + b) (λ _, b) whatever (retry_loop cfg E n attempt r node nodes : M St _).
Proof.
  intros Hr. revert attempt node. induction n as [|n IH]; intros attempt node; cbn [retry_loop].
  { by apply spends_ret. }
  assert (∀ e : option error, spends (S n + b) (λ _, b) whatever (mret e : M St _)) as Hret
    by (intros e; apply spends_ret; [done|simpl; lia]).
  apply spends_after; [runs_auto|intros _]. apply spends_after; [runs_auto|intros [err|]].
  - repeat simp_if; try apply Hret. apply spends_again; auto.
  - do 3 (apply spends_after; [runs_auto|intros ?]).
    destruct a0 as [e|]; [|apply Hret]. repeat simp_if; try apply Hret. apply spends_again; auto.
Qed.

Lemma spends_deferral b polls ended_by r :
  good_ref r →
  spends (polls + b) (λ _, b) whatever (deferral_loop cfg E polls ended_by r : M St _).
Proof.
  intros Hr. induction polls as [|polls IH]; cbn [deferral_loop].
  { destruct ended_by; by apply spends_ret. }
  apply spends_after; [unfold GetHealthyNodes; runs_auto|intros nodes].
  destruct (dispatchEligibleNodes nodes) as [|n0 ns]; [eapply spends_less; [apply IH|lia|done]|].
  eapply spends_bind; [by apply (spends_select (polls + b))|].
  intros [[node|] ar] _; simpl; [|apply IH].
  apply spends_ret; [done|simpl; lia].
Qed.

(** [D] bounds the polls of a deferral wait; [attempts] is what a started task may
    select, [per_task] what selecting for it and running it may select. *)
Context (D : nat) (polls_bound : ∀ n, ((env_deferral E n).1 ≤ D)%nat).
Definition attempts : nat := Z.to_nat (dispatch_attempts cfg).
Definition per_task : nat := (1 + D + attempts)%nat.

Lemma spends_node b r nodes :
  good_ref r →
  spends (1 + D + b) (λ _, b) whatever (selectNodeForTaskWithDeferral cfg E r nodes : M St _).
Proof.
  intros Hr. unfold selectNodeForTaskWithDeferral.
  eapply spends_bind; [by apply (spends_select (D + b))|]. intros [[node|] ar] _; simpl.
  { apply spends_ret; [done|simpl; lia]. }
  repeat simp_if; try (apply spends_ret; [done|simpl; lia]).
  apply spends_after; [runs_auto|intros n].
  destruct (env_deferral E n) as [polls e] eqn:En. specialize (polls_bound n). rewrite En in polls_bound.
  simpl in polls_bound.
  apply (spends_less (polls + b) _ (λ _, b)); [by apply spends_deferral|lia|done].
Qed.

Lemma spends_goroutine b nodes g errs :
  good_ref g.1 →
  spends (attempts + b) (λ _, b) whatever (run_goroutine cfg E nodes g errs : M St _).
Proof.
  intros Hr. unfold run_goroutine, executeTaskWithRetry.
  eapply spends_bind; [by apply spends_retry|]. intros e _. apply spends_runs. runs_auto.
Qed.

(** Pending goroutines hold tasks of the job. *)
Definition good_pending (gs : list (TaskRef * NodeInfo)) : Prop := Forall (λ g, good_ref g.1) gs.

Lemma spends_run_picked b picks nodes pending errs :
  good_pending pending →
  spends (length pending * attempts + b) (λ res, length res.1 * attempts + b)%nat
    (λ res, good_pending res.1) (run_picked cfg E picks nodes pending errs : M St _).
Proof.
  revert pending errs. induction picks as [|p picks IH]; intros pending errs Hp; cbn [run_picked].
  { by apply spends_ret. }
  destruct (pending !! p) as [g|] eqn:Hg; [|by apply IH].
  assert (length pending = S (length (delete p pending))) as Hlen.
  { rewrite length_delete; [|by eexists]. apply lookup_lt_Some in Hg. lia. }
  eapply spends_bind.
  - eapply (spends_less (attempts + (length (delete p pending) * attempts + b)));
      [apply spends_goroutine, (Forall_lookup_1 _ _ _ _ Hp Hg)|rewrite Hlen; lia|done].
  - intros errs' _. apply IH. by apply Forall_delete.
Qed.
Lemma spends_run_rest b nodes pending errs :
  good_pending pending →
  spends (length pending * attempts + b) (λ _, b) whatever (run_rest cfg E nodes pending errs : M St _).
Proof.
  intros Hp. revert errs. induction Hp as [|g pending Hg _ IH]; intros errs; cbn [run_rest].
  { by apply spends_ret. }
  eapply spends_bind; [|intros errs' _; apply IH].
  eapply (spends_less (attempts + (length pending * attempts + b)));
    [by apply spends_goroutine|simpl; lia|done].
Qed.
Lemma spends_run_some b nodes pending errs :
  good_pending pending →
  spends (length pending * attempts + b) (λ res, length res.1 * attempts + b)%nat
    (λ res, good_pending res.1) (run_some cfg E nodes pending errs : M St _).
Proof.
  intros Hp. unfold run_some. apply spends_after; [runs_auto|]. intros n. by apply spends_run_picked.
Qed.

Lemma spends_start_tasks b refs nodes pending errs :
  Forall good_ref refs → good_pending pending →
  spends (length refs * per_task + length pending * attempts + b)
    (λ res, length res.1.2 * attempts + b)%nat (λ res, good_pending res.1.2)
    (start_tasks cfg E refs nodes pending errs : M St _).
Proof.
  intros Hrefs. revert pending errs. induction Hrefs as [|r refs Hr _ IH];
    intros pending errs Hp; cbn [start_tasks]; [by apply spends_ret|].
  apply spends_after; [runs_auto|]. intros [err|]; [apply spends_ret; [done|simpl; lia]|].
  eapply spends_bind.
  { eapply (spends_less (1 + D + (attempts + length refs * per_task + length pending * attempts + b)));
      [by apply spends_node|unfold per_task; simpl; lia|done]. }
  intros [err|[node|]] _; try (apply spends_ret; [done|simpl; lia]).
  eapply spends_bind.
  - eapply (spends_less (length (pending ++ [(r, node)]) * attempts + (length refs * per_task + b)));
      [apply spends_run_some|rewrite length_app; simpl; lia|done].
    apply Forall_app. split; [done|]. by apply Forall_singleton.
  - intros res Hres. eapply spends_less; [by apply IH|simpl; lia|done].
Qed.

(** A stage of the job that is not nil. *)
Definition good_stage (i : nat) : Prop :=
  ∃ bs, d !! i = Some (Some bs) ∧ Forall (λ b, b = true) bs.

Lemma runs_update_stage b i f :
  good_stage i → (∀ st, s_Tasks (f st) = s_Tasks st) →
  runs (sound b l) whatever (update_stage l i f : M St _).
Proof.
  intros (bs & Hi & _) Hf s HP. pose proof HP as [(j & Hj & Hd) _ _ _].
  assert (∃ st, job_stage j i = Some st) as [st Hst].
  { rewrite <-Hd in Hi. unfold dims in Hi. rewrite list_lookup_fmap in Hi. unfold job_stage.
    destruct (j_Stages j !! i) as [[st|]|]; simplify_eq/=. eauto. }
  exists tt, (set_heap (<[l := map_stage i f j]> (sc_heap s)) s). split_and!; [|done|].
  - unfold update_stage, get_stage. rewrite bind_Some. exists st, s.
    rewrite bind_Some, update_job_Some. split; [|by exists j]. exists j, s.
    rewrite get_job_Some, Hst. done.
  - apply (sound_heap b l l (map_stage i f)); [done| |done]. apply dims_map_stage.
    intros st'. by rewrite Hf.
Qed.
Lemma runs_get_stage b i bs :
  d !! i = Some (Some bs) → Forall (λ b, b = true) bs →
  runs (sound b l) (λ st, Forall good_ref (stage_refs l i st) ∧ length (stage_refs l i st) = length bs)
    (get_stage l i : M St _).
Proof.
  intros Hi Hbs s HP. pose proof HP as [(j & Hj & Hd) _ _ _].
  pose proof Hi as Hi'. rewrite <-Hd in Hi'. unfold dims in Hi'. rewrite list_lookup_fmap in Hi'.
  destruct (j_Stages j !! i) as [[st|]|] eqn:Hs; simplify_eq/=.
  exists st, s. split_and!; [|unfold stage_refs..|done].
  - unfold get_stage. rewrite bind_Some. exists j, s.
    rewrite get_job_Some. unfold job_stage. by rewrite Hs.
  - apply Forall_fmap, Forall_forall. intros k Hk%elem_of_seq. split; [done|]. simpl.
    eexists. split; [exact Hi|]. rewrite list_lookup_fmap.
    destruct (lookup_lt_is_Some_2 (s_Tasks st) k ltac:(lia)) as [o Ho]. rewrite Ho. simpl.
    f_equal. rewrite Forall_fmap, Forall_forall in Hbs. apply Hbs. by eapply list_elem_of_lookup_2.
  - by rewrite !length_fmap, length_seq.
Qed.

(** How many tasks the job's [i]th stage has. *)
Definition width (i : nat) : nat := match d !! i with Some (Some bs) => length bs | _ => 0 end.

Lemma spends_executeStage b i :
  good_stage i →
  spends (width i * per_task + b) (λ _, b) whatever (executeStage cfg E l i : M St _).
Proof.
  intros Hi. unfold executeStage.
  assert (∀ b st, runs (sound b l) whatever (update_stage l i (with_stage_status st) : M St _)) as Hst
    by (intros; by apply runs_update_stage).
  apply spends_after; [auto|intros _].
  destruct Hi as (bs & Hi & Hbs). unfold width. rewrite Hi.
  eapply spends_bind; [eapply spends_runs; by apply runs_get_stage|]. intros stage [Hrefs Hlen]. cbv beta.
  apply spends_after; [unfold GetHealthyNodes; runs_auto|intros healthy].
  destruct (dispatchEligibleNodes healthy) as [|n0 ns]; [apply spends_ret; [done|lia]|].
  eapply spends_bind.
  { eapply (spends_less (length (stage_refs l i stage) * per_task + 0 * attempts + b));
      [apply (spends_start_tasks b _ _ []); [done|constructor]|rewrite Hlen; lia|done]. }
  intros [[selErr pending] errs] Hp. simpl in Hp |- *.
  eapply spends_bind; [by apply spends_run_some|intros res Hres].
  eapply spends_bind; [by apply spends_run_rest|intros errs' _]. apply spends_runs. runs_auto.
Qed.

Lemma runs_status b l' st : runs (sound b l') whatever (updateJobStatus E l' st : M St _).
Proof. unfold updateJobStatus. runs_auto. Qed.
#[local] Hint Resolve runs_status : runs.

Lemma spends_run_stages b stages :
  Forall good_stage stages →
  spends (sum_list (width <$> stages) * per_task + b) (λ _, b) whatever (run_stages cfg E l stages : M St _).
Proof.
  intros H. induction H as [|i stages Hi _ IH]; cbn [run_stages fmap list_fmap sum_list].
  { apply spends_runs. runs_auto. }
  eapply spends_bind.
  { eapply (spends_less (width i * per_task + (sum_list (width <$> stages) * per_task + b)));
      [by apply spends_executeStage|simpl; lia|done]. }
  intros [e|] _; [|apply IH]. set (b1 := (_ + b)%nat).
  apply (spends_less b1 _ (λ _, b1)); [apply spends_runs; runs_auto|done|lia].
Qed.

Lemma sum_width : sum_list (width <$> seq 0 (length d)) =
  sum_list ((λ o, match o with Some bs => length bs | None => 0%nat end) <$> d).
Proof.
  f_equal. apply list_eq. intros i. rewrite !list_lookup_fmap.
  destruct (decide (i < length d)%nat) as [Hi|Hi].
  - rewrite lookup_seq_lt by done. destruct (lookup_lt_is_Some_2 d i Hi) as [o Ho]. rewrite Ho. simpl.
    unfold width. by rewrite Ho.
  - rewrite lookup_seq_ge, lookup_ge_None_2 by lia. done.
Qed.

Lemma complete_stages n : complete d → n = length d → Forall good_stage (seq 0 n).
Proof.
  intros Hc ->. apply Forall_forall. intros i Hi%elem_of_seq.
  destruct (lookup_lt_is_Some_2 d i ltac:(lia)) as [o Ho].
  destruct (Forall_lookup_1 _ _ _ _ Hc Ho) as (bs & -> & Hbs). by exists bs.
Qed.

(** How many nodes executing the job may select. *)
Definition selections : nat :=
  sum_list ((λ o, match o with Some bs => length bs | None => 0%nat end) <$> d) * per_task.

Lemma runs_execute_registered b :
  complete d → spends (selections + b) (λ _, b) whatever
    (_ ← updateJobStatus E l JobRunning;
     job ← get_job l;
     _ ← (if String.eqb (j_LifecycleState job) JobStateSubmitted
          then recordJobTransition E l TransitionJobQueued JobStateQueued "" else mret tt);
     job ← get_job l;
     _ ← (if existsb has_tasks (j_Stages job) then mret tt
          else recordJobTransition E l
                 (if String.eqb (j_LifecycleState job) JobStateAwaitingHuman
                  then TransitionJobResumed else TransitionJobRunning) JobStateRunning "");
     run_stages cfg E l (seq 0 (length (j_Stages job))) : M St _).
Proof.
  intros Hc. apply spends_after; [runs_auto|intros _].
  apply spends_after; [eapply runs_whatever, runs_get_job|intros j0].
  apply spends_after; [runs_auto|intros _].
  eapply spends_bind; [apply spends_runs, runs_get_job|]. intros job Hjob. cbv beta.
  apply spends_after; [runs_auto|intros _]. unfold selections. rewrite <-sum_width.
  assert (length (j_Stages job) = length d) as ->.
  { rewrite <-Hjob by done. unfold dims. by rewrite length_fmap. }
  by apply spends_run_stages, complete_stages.
Qed.
End Total.

(** No nil stage, no nil task, in terms of the job. *)
Definition no_nil (j : Job) : Prop :=
  Forall (λ o, ∃ st, o = Some st ∧ Forall is_Some (s_Tasks st)) (j_Stages j).

Lemma no_nil_complete j : no_nil j → complete (dims j).
Proof.
  intros H. apply Forall_fmap. eapply Forall_impl; [exact H|]. intros o (st & -> & Hts). simpl.
  eexists. split; [done|]. apply Forall_fmap. eapply Forall_impl; [exact Hts|].
  intros t Ht. simpl. by apply bool_decide_eq_true_2.
Qed.

(** The tasks of a job. *)
Definition task_count (j : Job) : nat :=
  sum_list ((λ o, match o with Some st => length (s_Tasks st) | None => 0%nat end) <$> j_Stages j).

Lemma selections_eq cfg D j : selections cfg (dims j) D = (task_count j * (1 + D + Z.to_nat (dispatch_attempts cfg)))%nat.
Proof.
  unfold selections, per_task, attempts, task_count, dims. rewrite <-list_fmap_compose. do 2 f_equal.
  apply list_fmap_ext. intros i [st|] _; simpl; [by rewrite length_fmap|done].
Qed.

(** C8. Executing a job never panics, whatever the registry, the executor, the
    store, the leadership provider and the contexts answer: if the job map holds
    live jobs, the job that is executed has no nil stage and no nil task, and the
    round-robin counter, not negative, is at least one selection for each task,
    poll and attempt away from the end of its range, where [D] bounds the polls of
    a wait for capacity. *)
Theorem executeJob_total {St Tx} `{!TransitionStoreI St Tx} cfg E D l j je (s : Sched St) :
  (∀ id k, sc_jobs s !! id = Some k → is_Some (sc_heap s !! k)) →
  sc_heap s !! l = Some j →
  sc_heap s !! default l (sc_jobs s !! j_ID j) = Some je → no_nil je →
  (∀ n, ((env_deferral E n).1 ≤ D)%nat) →
  0 ≤ ns_nodeIndex (sc_nodes s) →
  ns_nodeIndex (sc_nodes s) +
    Z.of_nat (task_count je * (1 + D + Z.to_nat (dispatch_attempts cfg))) ≤ i64_max →
  ∃ s', executeJob cfg E l s = Some (tt, s') ∧ 0 ≤ ns_nodeIndex (sc_nodes s').
Proof.
  intros Hjobs Hj Hje Hnil%no_nil_complete HD Hi0 Hi1. rewrite <-selections_eq in Hi1. unfold executeJob.
  set (l' := default l (sc_jobs s !! j_ID j)) in *.
  set (s1 := match sc_jobs s !! j_ID j with
             | Some _ => s
             | None => set_jobs (<[j_ID j := l]> (sc_jobs s)) s
             end).
  assert (sound l' (dims je) (selections cfg (dims je) D + 0) l' s1) as Hs1.
  { rewrite Nat.add_0_r. subst l' s1. destruct (sc_jobs s !! j_ID j) as [k|] eqn:Hk; simpl in *;
      (split; simpl; [by exists je|by eexists| |done]); [done|].
    intros id k [[_ <-]|[_ H]]%lookup_insert_Some; eauto. }
  destruct (runs_execute_registered cfg E l' (dims je) D HD 0 Hnil s1 Hs1) as (u & s' & Hrun & _ & Hs').
  destruct u. exists s'. split; [|apply Hs']. rewrite <-Hrun.
  unfold mbind at 1, M_bind at 1, get_job at 1. rewrite Hj.
  unfold mbind at 1, M_bind at 1, get. subst l' s1.
  by destruct (sc_jobs s !! j_ID j).
Qed.
