(* ===== verification/Recovery.v ===== *)
(** * Start-up, reconciliation and retention

    What [RecoverFromTransitions] and [Start] do to the scheduler, what a
    follower's reconciliation adds to its view and what it leaves alone, and
    what [cleanupTerminalJobsOnce] takes away. *)

From stdpp Require Import base gmap strings list fin_maps.
From S2P Require Import Prelude StateMachine Store Replay Jobs Config Leadership Nodes Scheduler Lifecycle SchedLogic Frames Coherence Reachable.

Open Scope Z_scope.

(** ** Recovery *)

Section Recover.
Context (cfg : SchedulerConfig) (E : Env).
Implicit Types s : Sched MemStore.

(** Pointers are never reused. *)
Definition fresh_next (s : Sched MemStore) : Prop :=
  ∀ l, is_Some (sc_heap s !! l) → (l < sc_next s)%nat.

(** A recovered job that may be queued again. *)
Definition resumable (s : Sched MemStore) (l : loc) : Prop :=
  ∃ j, sc_heap s !! l = Some j ∧ j_LifecycleState j = JobStateQueued ∧
       isSafeForQueuedResume (Some j) = true.

(** What recovery may do to a scheduler. *)
Record recovers (s s' : Sched MemStore) : Prop := {
  rv_fresh : fresh_next s → fresh_next s';
  rv_jobs : ∀ id l, sc_jobs s !! id = Some l → sc_jobs s' !! id = Some l;
  rv_heap : ∀ l j, sc_heap s !! l = Some j → sc_heap s' !! l = Some j;
  rv_seq : ∀ id, (seqn s id ≤ seqn s' id)%N;
  rv_store : sc_store s' = sc_store s;
  rv_trace : sc_trace s' = sc_trace s;
  rv_queue : ∃ added, sc_queue s' = sc_queue s ++ added ∧ Forall (resumable s') added;
}.

Lemma resumable_heap s s' l :
  (∀ j, sc_heap s !! l = Some j → sc_heap s' !! l = Some j) → resumable s l → resumable s' l.
Proof. intros Hh (j & Hj & ?). exists j. auto. Qed.

#[export] Instance recovers_pre : PreOrder recovers.
Proof.
  split.
  - intros s. split; try done. exists []. by rewrite app_nil_r.
  - intros a b c [F1 J1 H1 S1 T1 E1 (q1 & Q1 & A1)] [F2 J2 H2 S2 T2 E2 (q2 & Q2 & A2)].
    split; [auto|auto|auto| |congruence..|].
    + intros id. specialize (S1 id). specialize (S2 id). lia.
    + exists (q1 ++ q2). rewrite Q2, Q1, (assoc_L (++)). split; [done|]. apply Forall_app.
      split; [|done]. eapply Forall_impl; [exact A1|]. intros l. apply resumable_heap. auto.
Qed.

#[export] Instance fresh_next_stable : Stable fresh_next recovers.
Proof. intros s s' Hf Hr. by apply (rv_fresh _ _ Hr). Qed.

(** Nothing but nodes, sequence counters and the job map. *)
Lemma recovers_tables s s' :
  sc_heap s' = sc_heap s → sc_next s' = sc_next s → sc_queue s' = sc_queue s →
  sc_store s' = sc_store s → sc_trace s' = sc_trace s →
  (∀ id l, sc_jobs s !! id = Some l → sc_jobs s' !! id = Some l) →
  (∀ id, (seqn s id ≤ seqn s' id)%N) → recovers s s'.
Proof.
  intros Hh Hn Hq Hst Htr Hj Hs. split; try done.
  - intros Hf l. rewrite Hh, Hn. apply Hf.
  - intros l j. by rewrite Hh.
  - exists []. by rewrite app_nil_r.
Qed.

Lemma recovers_tick P : keeps P recovers next_tick.
Proof. apply keeps_next_tick. intros s _. by apply recovers_tables. Qed.

Lemma recovers_ctx P `{!Stable P recovers} : keeps P recovers (ctx_Err E).
Proof. unfold ctx_Err. pose proof (recovers_tick P). keeps_auto. Qed.

Lemma recovers_seed P id last trs : keeps P recovers (seedJobSequenceLocked id last trs).
Proof.
  intros s a s' _ (m & -> & Hm)%seed_run. apply recovers_tables; try done.
  intros id'. unfold seqn at 2. simpl. rewrite Hm.
  destruct (String.eqb_spec id id') as [<-|]; [lia|done].
Qed.

Lemma recovers_new j s :
  fresh_next s →
  recovers s (set_next (S (sc_next s)) (set_heap (<[sc_next s := j]> (sc_heap s)) s)).
Proof.
  intros Hf. split; try done.
  - intros _ l. simpl. destruct (decide (sc_next s = l)) as [<-|]; [lia|].
    rewrite lookup_insert_ne by done. intros Hl%Hf. lia.
  - intros l j' Hl. simpl. rewrite lookup_insert_ne; [done|]. intros <-.
    pose proof (Hf (sc_next s) ltac:(eauto)). lia.
  - exists []. by rewrite app_nil_r.
Qed.

(** Entries that are new in the job map are jobs built from [rs]. *)
Definition adds (rs : list ReplayedJobState) (s s' : Sched MemStore) : Prop :=
  ∀ id l, sc_jobs s' !! id = Some l → sc_jobs s !! id = Some l ∨
    ∃ r, r ∈ rs ∧ dj_JobID (rs_Job r) = id ∧
         sc_heap s' !! l = Some (buildRecoveredRuntimeJob (env_unmarshal E) r).

Lemma adds_same rs s s' : sc_jobs s' = sc_jobs s → adds rs s s'.
Proof. intros Hj id l. rewrite Hj. by left. Qed.
Lemma adds_trans rs1 rs2 rs s1 s2 s3 :
  adds rs1 s1 s2 → adds rs2 s2 s3 → recovers s2 s3 → rs1 ⊆ rs → rs2 ⊆ rs → adds rs s1 s3.
Proof.
  intros H1 H2 Hr Hs1 Hs2 id l [[?|(r & Hin & Hid & Hl)]%H1|(r & Hin & Hid & Hl)]%H2; [by left| |].
  - right. exists r. split_and!; [by apply Hs1|done|by apply (rv_heap _ _ Hr)].
  - right. exists r. split_and!; [by apply Hs2|done..].
Qed.
Lemma adds_ctx s e s' : ctx_Err E s = Some (e, s') → adds [] s s'.
Proof.
  unfold ctx_Err. intros (n & s1 & H & [_ ->]%ret_Some)%bind_Some. injection H as _ <-.
  by apply adds_same.
Qed.

(** One replayed job: it is visible afterwards, its counter is past its log,
    and it is built from the replay if it was not known before. *)
Lemma recover_job_run r recovered s out s' :
  fresh_next s → recover_job E r recovered s = Some (out, s') →
  recovers s s' ∧ is_Some (sc_jobs s' !! dj_JobID (rs_Job r)) ∧
  (max_sequence (dj_LastSequenceID (rs_Job r)) (rs_Transitions r)
     ≤ seqn s' (dj_JobID (rs_Job r)))%N ∧ adds [r] s s'.
Proof.
  intros Hf. unfold recover_job. intros (? & ? & [-> ->]%get_Some & H)%bind_Some.
  set (id := dj_JobID (rs_Job r)) in *.
  assert (∀ (s1 : Sched MemStore) a s2,
    seedJobSequenceLocked id (dj_LastSequenceID (rs_Job r)) (rs_Transitions r) s1 = Some (a, s2) →
    is_Some (sc_jobs s1 !! id) → recovers s s1 → adds [r] s s1 →
    recovers s s2 ∧ is_Some (sc_jobs s2 !! id) ∧
    (max_sequence (dj_LastSequenceID (rs_Job r)) (rs_Transitions r) ≤ seqn s2 id)%N ∧
    adds [r] s s2) as Hseed.
  { intros s1 a s2 Hs Hin Hr Had. pose proof (recovers_seed any _ _ _ _ _ _ I Hs) as Hr2.
    apply seed_run in Hs as (m & -> & Hm). split_and!; [by etrans|done| |exact Had].
    unfold seqn. simpl. rewrite Hm, String.eqb_refl. lia. }
  destruct (sc_jobs s !! id) as [l|] eqn:Hl.
  - apply bind_Some in H as (a & s1 & Hs & H). apply ret_Some in H as [_ ->].
    eapply Hseed; [exact Hs|by eexists|reflexivity|by apply adds_same].
  - apply bind_Some in H as (l & s1 & Hins & H). apply bind_Some in H as (a & s2 & Hs & H).
    apply ret_Some in H as [_ ->]. unfold insert_recovered in Hins.
    apply bind_Some in Hins as (l0 & s3 & Hnew & Hins).
    apply bind_Some in Hins as (? & s4 & Hmod & Hins). apply ret_Some in Hins as [-> ->].
    injection Hnew as <- <-. injection Hmod as _ <-.
    eapply Hseed; [exact Hs|simpl; rewrite lookup_insert_eq; by eexists| |].
    + etrans; [by apply recovers_new|]. apply recovers_tables; try done.
      intros id' l' Hl'. simpl in *. rewrite lookup_insert_ne; [done|]. subst id. congruence.
    + intros id' l'. simpl. intros [[<- <-]|[_ ?]]%lookup_insert_Some; [|by left].
      right. exists r. split_and!; [by left|done|apply lookup_insert_eq].
Qed.

(** The recovered jobs in a state. *)
Definition visible (s : Sched MemStore) (r : ReplayedJobState) : Prop :=
  is_Some (sc_jobs s !! dj_JobID (rs_Job r)) ∧
  (max_sequence (dj_LastSequenceID (rs_Job r)) (rs_Transitions r)
     ≤ seqn s (dj_JobID (rs_Job r)))%N.

Lemma visible_later s s' r : recovers s s' → visible s r → visible s' r.
Proof.
  intros Hr [[l Hl] Hs]. split; [exists l; by apply (rv_jobs _ _ Hr)|].
  pose proof (rv_seq _ _ Hr (dj_JobID (rs_Job r))). lia.
Qed.

Lemma recover_batch_run rs processed recovered s out s' :
  fresh_next s → recover_batch E rs processed recovered s = Some (out, s') →
  recovers s s' ∧ adds rs s s' ∧ (∀ p, out = inr p → Forall (visible s') rs).
Proof.
  revert processed recovered s. induction rs as [|r rs IH]; intros processed recovered s Hf;
    cbn [recover_batch].
  { intros [-> ->]%ret_Some. split_and!; [reflexivity|by apply adds_same|]. by constructor. }
  intros (done & s1 & H1 & H)%bind_Some.
  assert (recovers s s1 ∧ adds [] s s1) as [R1 A1].
  { destruct (_ =? 0); [split; [by apply (recovers_ctx any _ _ _ I H1)|by eapply adds_ctx]|].
    apply ret_Some in H1 as [_ ->]. split; [done|by apply adds_same]. }
  destruct done as [err|].
  { apply ret_Some in H as [-> ->]. split_and!; [done| |done].
    eapply adds_trans; [exact A1|by apply (adds_same [])|done|set_solver..]. }
  apply bind_Some in H as (rec' & s2 & H2 & H).
  apply recover_job_run in H2 as (R2 & V2 & S2 & A2); [|by apply (rv_fresh _ _ R1)].
  apply IH in H as (R3 & A3 & V3); [|by apply (rv_fresh _ _ R2), (rv_fresh _ _ R1)].
  split_and!; [by etrans; [|etrans]| |].
  - eapply (adds_trans [r] rs); [|exact A3|done|set_solver..].
    eapply (adds_trans [] [r]); [exact A1|exact A2|done|set_solver..].
  - intros p Hp. constructor; [by eapply visible_later|by eapply V3].
Qed.

Lemma recovery_batch_size_pos : (0 < recovery_batch_size cfg)%nat.
Proof. unfold recovery_batch_size. simp_if; lia. Qed.

(** As many rounds as jobs are enough. *)
Lemma recover_batches_run rounds rs processed recovered s out s' :
  (length rs ≤ rounds)%nat → fresh_next s →
  recover_batches cfg E rounds rs processed recovered s = Some (out, s') →
  recovers s s' ∧ adds rs s s' ∧ (∀ p, out = inr p → Forall (visible s') rs).
Proof.
  revert rs processed recovered s.
  induction rounds as [|rounds IH]; intros [|r rs] processed recovered s Hlen Hf;
    cbn [recover_batches]; try (simpl in Hlen; lia).
  1,2: intros [-> ->]%ret_Some; (split_and!; [reflexivity|by apply adds_same|by constructor]).
  pose proof recovery_batch_size_pos as Hpos. set (n := recovery_batch_size cfg) in *.
  intros (done & s1 & H1 & H)%bind_Some.
  pose proof (recovers_ctx any _ _ _ I H1) as R1. apply adds_ctx in H1 as A1.
  assert (∀ s4, adds (r :: rs) s s4 → recovers s s4 → ∀ e, out = inl e →
    recovers s s4 ∧ adds (r :: rs) s s4 ∧ (∀ p, out = inr p → Forall (visible s4) (r :: rs))) as Herr
    by (intros s4 ? ? e ->; done).
  assert (∀ rs1 s2 s3, adds rs1 s s2 → rs1 ⊆ r :: rs → adds [] s2 s3 → recovers s2 s3 →
    adds (r :: rs) s s3) as Hweak.
  { intros rs1 s2 s3 Ha Hs Hb Hr. eapply adds_trans; [exact Ha|exact Hb|done|done|set_solver]. }
  destruct done as [err|].
  { apply ret_Some in H as [-> ->]. eapply Herr; [|done..].
    eapply Hweak; [exact A1|set_solver|by apply adds_same|done]. }
  apply bind_Some in H as (res & s2 & H2 & H).
  apply recover_batch_run in H2 as (R2 & A2 & V2); [|by apply (rv_fresh _ _ R1)].
  pose proof (transitivity R1 R2) as R12.
  assert (adds (take n (r :: rs)) s s2) as A12
    by (eapply adds_trans; [exact A1|exact A2|done|set_solver|done]).
  assert (take n (r :: rs) ⊆ r :: rs) as Htake
    by (rewrite <-(take_drop n (r :: rs)) at 2; set_solver).
  destruct res as [err|[processed' recovered']].
  { apply ret_Some in H as [-> ->]. eapply Herr; [|done..].
    eapply Hweak; [exact A12|done|by apply adds_same|done]. }
  apply bind_Some in H as (done & s3 & H3 & H).
  pose proof (recovers_ctx any _ _ _ I H3) as R3. pose proof (transitivity R12 R3) as R13.
  apply adds_ctx in H3 as A3. pose proof (Hweak _ _ _ A12 Htake A3 R3) as A13.
  destruct done as [err|]; [apply ret_Some in H as [-> ->]; by eapply Herr|].
  apply IH in H as (R4 & A4 & V4).
  - split_and!; [by etrans| |].
    + eapply adds_trans; [exact A13|exact A4|done|done|].
      rewrite <-(take_drop n (r :: rs)) at 2. set_solver.
    + intros p Hp. rewrite <-(take_drop n (r :: rs)).
      apply Forall_app. split; [|by eapply V4]. eapply Forall_impl; [by eapply V2|].
      intros r'. apply visible_later. by etrans.
  - rewrite length_drop. simpl in Hlen |- *. lia.
  - by apply (rv_fresh _ _ R13).
Qed.

Lemma resume_recovered_run l : keeps any recovers (resume_recovered cfg l).
Proof.
  intros s u s' _. unfold resume_recovered. intros (j & ? & [Hj ->]%get_job_Some & H)%bind_Some.
  destruct (negb (String.eqb (j_LifecycleState j) JobStateQueued)) eqn:Hq;
    [by apply ret_Some in H as [_ ->]|].
  destruct (negb (isSafeForQueuedResume (Some j))) eqn:Hsafe; [by apply ret_Some in H as [_ ->]|].
  apply bind_Some in H as (b & s1 & H & Hret). apply ret_Some in Hret as [_ ->].
  unfold enqueueJobLocked in H. apply bind_Some in H as (j' & ? & [Hj' ->]%get_job_Some & H).
  apply bind_Some in H as (? & ? & [-> ->]%get_Some & H).
  case_bool_decide; [by apply ret_Some in H as [_ ->]|].
  destruct (_ <? _); [|by apply ret_Some in H as [_ ->]].
  apply bind_Some in H as (? & s2 & H & Hret). apply ret_Some in Hret as [_ ->].
  injection H as _ <-. split; try done. exists [l]. split; [done|]. apply Forall_singleton.
  exists j. apply negb_false_iff, String.eqb_eq in Hq. apply negb_false_iff in Hsafe. done.
Qed.

(** The batches do not queue anything. *)
Definition queue_same (s s' : Sched MemStore) : Prop := sc_queue s' = sc_queue s.
#[local] Instance queue_same_pre : PreOrder queue_same.
Proof. split; [by intros s|]. unfold queue_same. intros a b c. congruence. Qed.

Lemma queue_recover_job r recovered : keeps any queue_same (recover_job E r recovered).
Proof.
  assert (∀ id n l, keeps any queue_same (seedJobSequenceLocked id n l)).
  { intros id n l s a s' _ (m & -> & _)%seed_run. done. }
  assert (∀ r, keeps any queue_same (insert_recovered E r)).
  { intros r' s a s' _. unfold insert_recovered.
    intros (? & ? & H1 & (? & ? & H2 & [-> ->]%ret_Some)%bind_Some)%bind_Some.
    injection H1 as <- <-. by injection H2 as _ <-. }
  unfold recover_job. keeps_auto.
Qed.
#[local] Hint Resolve queue_recover_job : keeps.
Lemma queue_ctx : keeps any queue_same (ctx_Err E).
Proof. intros s a s' _. unfold ctx_Err. intros (? & ? & H & [_ ->]%ret_Some)%bind_Some.
  by injection H as _ <-. Qed.
#[local] Hint Resolve queue_ctx : keeps.
Lemma queue_recover_batch rs processed recovered :
  keeps any queue_same (recover_batch E rs processed recovered).
Proof.
  revert processed recovered. induction rs as [|r rs IH]; intros processed recovered;
    cbn [recover_batch]; keeps_auto.
Qed.
#[local] Hint Resolve queue_recover_batch : keeps.
Lemma queue_recover_batches rounds rs processed recovered :
  keeps any queue_same (recover_batches cfg E rounds rs processed recovered).
Proof.
  revert rs processed recovered. induction rounds as [|rounds IH]; intros [|r rs] processed recovered;
    cbn [recover_batches]; keeps_auto.
Qed.

(** *** What the replay of the store returns *)

(** A job rebuilt from the store: its state and those of its tasks are the last
    recorded ones, and it has each task the store has a row or a record of. *)
Record from_store (st : MemStore) (id : string) (j : Job) : Prop := {
  fs_id : j_ID j = id;
  fs_state : j_LifecycleState j = job_last (job_log st id);
  fs_tasks : ∀ t, Some t ∈ job_tasks j →
    t_JobID t = id ∧ t_LifecycleState t = task_last (t_ID t) (job_log st id);
  fs_all : ∀ k, (∃ row, ms_tasks st !! k = Some row ∧ dt_JobID row = id) ∨
                task_states k (job_log st id) ≠ [] → ∃ t, Some t ∈ job_tasks j ∧ t_ID t = k;
}.

Lemma replay_tasks_known ctx n st id r k :
  (ReplayJobState ctx n (Some st) id).1 = inr r → store_wf st →
  (∃ row, ms_tasks st !! k = Some row ∧ dt_JobID row = id) ∨ task_states k (job_log st id) ≠ [] →
  is_Some (rs_Tasks r !! k).
Proof.
  unfold ReplayJobState. destruct (String.eqb id ""); [done|]. simpl.
  unfold replayJobStateFromData. fold (job_log st id).
  set (tasks := go_sort _ _). intros H%replay_loop_sound Hwf Hk.
  rewrite (replay_fold_known _ _ _ _ k H), replay_init_row, fmap_is_Some.
  destruct Hk as [(row & Hrow & Hid)|Hk]; [left|by right]. unfold snapshot_row. rewrite last_is_Some.
  assert (row ∈ filter (λ t, dt_TaskID t = k) tasks) as Hin.
  { apply list_elem_of_filter. split; [by apply (wf_tasks _ Hwf)|]. unfold tasks. rewrite go_sort_perm.
    apply list_elem_of_filter. split; [done|]. apply elem_of_map_values. eauto. }
  intros Hnil. rewrite Hnil in Hin. by apply elem_of_nil in Hin.
Qed.

Lemma rebuilt_from_store ctx n st d r :
  (ReplayJobState ctx n (Some st) (dj_JobID d)).1 = inr r → store_wf st →
  from_store st (dj_JobID d) (buildRecoveredRuntimeJob (env_unmarshal E) (merge_listed_job d r)).
Proof.
  intros Hr Hwf. destruct (ReplayJobState_ok _ _ _ _ _ Hr) as [[R1 R2 _ _ R5 R6] _].
  assert (∀ t, Some t ∈ job_tasks (buildRecoveredRuntimeJob (env_unmarshal E) (merge_listed_job d r)) ↔
    ∃ k rec, rs_Tasks r !! k = Some rec ∧ t = recovered_task (env_unmarshal E) rec) as Hts.
  { intros t. unfold buildRecoveredRuntimeJob. rewrite recovered_job_tasks, list_elem_of_fmap. simpl. split.
    - intros (rec & [= ->] & [k Hk]%elem_of_map_values). eauto.
    - intros (k & rec & Hk & ->). exists rec. split; [done|]. apply elem_of_map_values. eauto. }
  split; [exact R1|exact R2|..].
  - intros t (k & rec & Hk & ->)%Hts. destruct (R5 _ _ Hk) as [Hid Hjob]. simpl.
    split; [done|]. rewrite Hid. by apply R6.
  - intros k Hk. destruct (replay_tasks_known _ _ _ _ _ _ Hr Hwf Hk) as [rec Hrec].
    exists (recovered_task (env_unmarshal E) rec). split; [apply Hts; eauto|]. by destruct (R5 _ _ Hrec).
Qed.

Lemma replay_jobs_all ctx n st jobs l :
  (replay_jobs ctx n st None jobs).1 = inr l →
  Forall2 (λ d r, ∃ n0 r0, (ReplayJobState ctx n0 (Some st) (dj_JobID d)).1 = inr r0 ∧
                           r = merge_listed_job d r0) jobs l.
Proof.
  revert n l. induction jobs as [|d jobs IH]; intros n l; cbn [replay_jobs]; [intros [= <-]; constructor|].
  destruct (ctx n); [done|].
  destruct (ReplayJobState ctx (S n) (Some st) (dj_JobID d)) as [[err|r] n1] eqn:Hr; [done|].
  specialize (IH n1). destruct (replay_jobs ctx n1 st None jobs) as [[err|l'] n2]; [done|].
  intros [= <-]. constructor; [|by apply IH]. exists (S n), r. by rewrite Hr.
Qed.

Lemma ReplayStateFromStore_all ctx n st rs :
  (ReplayStateFromStore ctx n (Some st)).1 = inr rs → store_wf st →
  (∀ r, r ∈ rs → ∃ d n0 r0, (ReplayJobState ctx n0 (Some st) (dj_JobID d)).1 = inr r0 ∧
                            r = merge_listed_job d r0) ∧
  (∀ id d, ms_jobs st !! id = Some d → IsTerminalJobState (dj_CurrentState d) = false →
     ∃ n0 r0, (ReplayJobState ctx n0 (Some st) id).1 = inr r0 ∧ merge_listed_job d r0 ∈ rs).
Proof.
  unfold ReplayStateFromStore. simpl. set (jobs := go_sort _ _). intros H Hwf.
  destruct (replay_jobs ctx n st None jobs) as [[err|l] n'] eqn:Hr; simplify_eq/=.
  pose proof (replay_jobs_all ctx n st jobs l) as Hall. rewrite Hr in Hall. specialize (Hall eq_refl).
  split.
  - intros r Hin. rewrite go_sort_perm in Hin. apply list_elem_of_lookup in Hin as [i Hi].
    destruct (Forall2_lookup_r _ _ _ _ _ Hall Hi) as (d & _ & n0 & r0 & H0).
    exists d, n0, r0. exact H0.
  - intros id d Hd Hterm. pose proof (wf_jobs _ Hwf _ _ Hd) as <-.
    assert (d ∈ jobs) as Hin.
    { unfold jobs. rewrite go_sort_perm. apply list_elem_of_filter. split; [done|].
      apply elem_of_map_values. eauto. }
    apply list_elem_of_lookup in Hin as [i Hi].
    destruct (Forall2_lookup_l _ _ _ _ _ Hall Hi) as (r & Hri & n0 & r0 & H0 & ->).
    exists n0, r0. split; [exact H0|]. rewrite go_sort_perm. by eapply list_elem_of_lookup_2.
Qed.

(** Resuming queues jobs and does nothing else to the job map. *)
Lemma resume_jobs ls s u s' :
  resumeRecoveredQueuedJobsLocked cfg ls s = Some (u, s') → sc_jobs s' = sc_jobs s.
Proof.
  assert (∀ l s u s', resume_recovered cfg l s = Some (u, s') → sc_jobs s' = sc_jobs s) as Hone.
  { intros l s1 u1 s2. unfold resume_recovered, enqueueJobLocked.
    intros (j & ? & [Hj ->]%get_job_Some & H)%bind_Some.
    destruct (negb _); [by apply ret_Some in H as [_ ->]|].
    destruct (negb _); [by apply ret_Some in H as [_ ->]|].
    apply bind_Some in H as (b & s3 & H & [_ ->]%ret_Some).
    apply bind_Some in H as (j' & ? & [_ ->]%get_job_Some & H).
    apply bind_Some in H as (? & ? & [-> ->]%get_Some & H).
    case_bool_decide; [by apply ret_Some in H as [_ ->]|].
    destruct (_ <? _); [|by apply ret_Some in H as [_ ->]].
    apply bind_Some in H as (? & s4 & H & [_ ->]%ret_Some). by injection H as _ <-. }
  unfold resumeRecoveredQueuedJobsLocked. revert s.
  induction ls as [|l ls IH]; intros s H; simpl in H; [by apply ret_Some in H as [_ ->]|].
  apply bind_Some in H as (? & s1 & H1%Hone & H%IH). congruence.
Qed.

(** C11. After a successful recovery every unfinished job of the store is in the job
    map, with a sequence counter past every record of its log and past its index
    entry.  A job that was not known before is rebuilt from the store: its state and
    those of its tasks are the last recorded ones, and it has each task of which the
    store has a row or a record.  Recovery leaves the jobs the scheduler already
    has, the store and the executor alone, never lowers a counter, and queues only
    jobs whose state is QUEUED and none of whose tasks has started, and only if the
    configuration asks for it. *)
Theorem recovery_complete s st s' :
  fresh_next s → sc_store s = Some st → store_wf st →
  RecoverFromTransitions cfg E s = Some (None, s') →
  recovers s s' ∧
  (EnableResumeRecoveredQueuedJobs cfg = false → sc_queue s' = sc_queue s) ∧
  ∀ id d, ms_jobs st !! id = Some d → IsTerminalJobState (dj_CurrentState d) = false →
    ∃ l, sc_jobs s' !! id = Some l ∧ (dj_LastSequenceID d ≤ seqn s' id)%N ∧
      Forall (λ r, (tr_SequenceID r ≤ seqn s' id)%N) (job_log st id) ∧
      (sc_jobs s !! id = None → ∃ j, sc_heap s' !! l = Some j ∧ from_store st id j).
Proof.
  intros Hf Hst Hwf. unfold RecoverFromTransitions. intros (? & ? & [-> ->]%get_Some & H)%bind_Some.
  rewrite Hst in H. pose proof (λ rs, ReplayStateFromStore_all (env_ctx E) (sc_tick s) st rs) as Hall.
  destruct (ReplayStateFromStore _ _ _) as [res n]. simpl in Hall.
  apply bind_Some in H as (? & s1 & H1 & H). injection H1 as _ <-.
  set (s1 := set_nodes _ s) in H.
  assert (recovers s s1) as R1 by (by apply recovers_tables).
  destruct res as [err|rs]; [by apply ret_Some in H as [[=] _]|].
  destruct (Hall rs eq_refl Hwf) as [Hbuilt Hlisted].
  apply bind_Some in H as (res & s2 & H2 & H).
  pose proof H2 as Hq2.
  apply recover_batches_run in H2 as (R2 & A2 & V2); [|done|by apply (rv_fresh _ _ R1)].
  destruct res as [err|recovered]; [by apply ret_Some in H as [[=] _]|].
  apply bind_Some in H as (? & s3 & H3 & H). apply ret_Some in H as [_ ->].
  assert (recovers s2 s3 ∧ sc_jobs s3 = sc_jobs s2) as [R3 J3].
  { destruct (EnableResumeRecoveredQueuedJobs cfg); [|by apply ret_Some in H3 as [_ ->]].
    split; [|by eapply resume_jobs]. revert H3. apply keeps_run with (P := any); [|done].
    apply keeps_iter; [exact _|exact _|]. apply resume_recovered_run. }
  split_and!; [by etrans; [|etrans]| |].
  - intros Hflag. rewrite Hflag in H3. apply ret_Some in H3 as [_ ->].
    by apply (queue_recover_batches _ _ _ _ _ _ _ I Hq2).
  - intros id d Hd Hterm. destruct (Hlisted id d Hd Hterm) as (n0 & r0 & Hr0 & Hin).
    destruct (ReplayJobState_ok _ _ _ _ _ Hr0) as [[Rid _ _ Rtrs _ _] _].
    specialize (V2 _ eq_refl). rewrite Forall_forall in V2.
    destruct (visible_later _ _ _ R3 (V2 _ Hin)) as [[l Hl] Hseq].
    change (dj_JobID (rs_Job (merge_listed_job d r0))) with (dj_JobID (rs_Job r0)) in Hl, Hseq.
    change (rs_Transitions (merge_listed_job d r0)) with (rs_Transitions r0) in Hseq.
    rewrite Rid in Hl, Hseq. rewrite Rtrs in Hseq.
    destruct (max_sequence_spec (dj_LastSequenceID (rs_Job (merge_listed_job d r0))) (job_log st id))
      as (M1 & M2 & _).
    assert (dj_LastSequenceID d ≤ dj_LastSequenceID (rs_Job (merge_listed_job d r0)))%N as M0.
    { simpl. destruct (rev (rs_Transitions r0)); [done|]. simp_if; bool_to_prop; lia. }
    exists l. split_and!; [done| | |].
    + etrans; [exact M0|]. etrans; [exact M1|]. exact Hseq.
    + eapply Forall_impl; [exact M2|]. intros r Hr. etrans; [exact Hr|exact Hseq].
    + intros Hnew. rewrite J3 in Hl. destruct (A2 id l Hl) as [Hold|(r & Hr & Hid & Hj)].
      * change (sc_jobs s !! id = Some l) in Hold. congruence.
      * destruct (Hbuilt r Hr) as (d' & n1 & r1 & Hr1 & ->).
        pose proof (rebuilt_from_store _ _ _ _ _ Hr1 Hwf) as Hfs.
        destruct (ReplayJobState_ok _ _ _ _ _ Hr1) as [[Rid1 _ _ _ _ _] _].
        change (dj_JobID (rs_Job r1) = id) in Hid. rewrite Rid1 in Hid.
        eexists. split; [apply (rv_heap _ _ R3), Hj|]. rewrite <-Hid. exact Hfs.
Qed.
End Recover.

(** ** Retention *)

Section Retention.
Context (cfg : SchedulerConfig).
Implicit Types s : Sched MemStore.

(** The ids of the entries that the cleanup removes. *)
Definition pruned_ids (s : Sched MemStore) (cutoff : Time) (entries : list (string * loc))
    : list string :=
  (filter (λ e, prunable s cutoff e.2 = true) entries).*1.
(** Those that it counts: entries of live jobs. *)
Definition pruned_count (s : Sched MemStore) (cutoff : Time) (entries : list (string * loc)) : Z :=
  Z.of_nat (length (filter (λ e, prunable s cutoff e.2 = true ∧ is_Some (sc_heap s !! e.2)) entries)).

(** What the cleanup leaves. *)
Record forgotten (s s' : Sched MemStore) (ids : list string) : Prop := {
  fg_jobs : ∀ id, sc_jobs s' !! id = if bool_decide (id ∈ ids) then None else sc_jobs s !! id;
  fg_seq : ∀ id, sc_jobSequences s' !! id =
    if bool_decide (id ∈ ids) then None else sc_jobSequences s !! id;
  fg_queued : sc_queuedJobs s' = sc_queuedJobs s ∖ list_to_set ids;
  fg_queue : sc_queue s' = sc_queue s;
  fg_heap : sc_heap s' = sc_heap s;
  fg_store : sc_store s' = sc_store s;
}.

Lemma forgotten_refl s : forgotten s s [].
Proof. split; try done. set_solver. Qed.

Lemma forgotten_step s s' id ids :
  forgotten (forget_job id s) s' ids → forgotten s s' (id :: ids).
Proof.
  intros [F1 F2 F3 F4 F5 F6]. simpl in *. split; try done.
  - intros id'. rewrite F1. destruct (decide (id = id')) as [<-|].
    + rewrite lookup_delete_eq, (bool_decide_eq_true_2 (id ∈ id :: ids)) by (by left).
      by case_bool_decide.
    + rewrite lookup_delete_ne by done. do 2 case_bool_decide; try done; set_solver.
  - intros id'. rewrite F2. destruct (decide (id = id')) as [<-|].
    + rewrite lookup_delete_eq, (bool_decide_eq_true_2 (id ∈ id :: ids)) by (by left).
      by case_bool_decide.
    + rewrite lookup_delete_ne by done. do 2 case_bool_decide; try done; set_solver.
  - rewrite F3. set_solver.
Qed.

Lemma cleanup_job_run cutoff id l s k s' :
  cleanup_job cutoff (id, l) s = Some (k, s') →
  (prunable s cutoff l = true ∧ s' = forget_job id s ∧
   k = (if bool_decide (is_Some (sc_heap s !! l)) then 1 else 0)) ∨
  (prunable s cutoff l = false ∧ s' = s ∧ k = 0).
Proof.
  unfold cleanup_job, prunable. intros (? & ? & [-> ->]%get_Some & H)%bind_Some. simpl in H.
  destruct (sc_heap s !! l) as [job|].
  - destruct (IsTerminalJobState (j_LifecycleState job)); simpl in *;
      [|apply ret_Some in H as [-> ->]; by right].
    destruct (After (j_UpdatedAt job) cutoff); simpl in *;
      [apply ret_Some in H as [-> ->]; by right|].
    apply bind_Some in H as (? & ? & H & [-> ->]%ret_Some). injection H as _ <-. by left.
  - apply bind_Some in H as (? & ? & H & [-> ->]%ret_Some). injection H as _ <-. by left.
Qed.

Lemma cleanup_loop_run cutoff entries n s m s' :
  cleanup_loop cutoff entries n s = Some (m, s') →
  forgotten s s' (pruned_ids s cutoff entries) ∧ m = n + pruned_count s cutoff entries.
Proof.
  revert n s. induction entries as [|[id l] entries IH]; intros n s; cbn [cleanup_loop].
  { intros [-> ->]%ret_Some. split; [apply forgotten_refl|unfold pruned_count; simpl; lia]. }
  intros (k & s1 & H1 & H)%bind_Some.
  apply IH in H as [HF ->]. unfold pruned_ids, pruned_count in *. rewrite !filter_cons. simpl.
  apply cleanup_job_run in H1 as [(Hp & -> & ->)|(Hp & -> & ->)].
  - rewrite decide_True by done. split; [by apply forgotten_step|].
    change (sc_heap (forget_job id s)) with (sc_heap s).
    change (prunable (forget_job id s)) with (prunable s).
    case_bool_decide as Hl.
    + rewrite decide_True by done. simpl. lia.
    + rewrite decide_False by tauto. lia.
  - rewrite decide_False by congruence. split; [done|].
    rewrite decide_False by (intros [? _]; congruence). lia.
Qed.

Lemma prunable_entry s cutoff id :
  id ∈ pruned_ids s cutoff (map_to_list (sc_jobs s)) ↔
  ∃ l, sc_jobs s !! id = Some l ∧ prunable s cutoff l = true.
Proof.
  unfold pruned_ids. rewrite list_elem_of_fmap. split.
  - intros ([id' l] & -> & [Hp Hin]%list_elem_of_filter). exists l.
    by apply elem_of_map_to_list in Hin.
  - intros (l & Hl & Hp). exists (id, l). split; [done|]. apply list_elem_of_filter.
    by rewrite elem_of_map_to_list.
Qed.

(** The cleanup forgets exactly the jobs that ended before the retention period
    and nothing else; it counts them, and neither the queue nor the durable
    store is touched. *)
Theorem cleanup_exact t s n s' :
  0 < JobRetentionTTL cfg → cleanupTerminalJobsOnce cfg t s = Some (n, s') →
  (∀ id l, sc_jobs s' !! id = Some l ↔
     sc_jobs s !! id = Some l ∧ prunable s (t - JobRetentionTTL cfg) l = false) ∧
  (∀ id, sc_jobSequences s' !! id =
     match sc_jobs s !! id with
     | Some l => if prunable s (t - JobRetentionTTL cfg) l then None else sc_jobSequences s !! id
     | None => sc_jobSequences s !! id
     end) ∧
  n = pruned_count s (t - JobRetentionTTL cfg) (map_to_list (sc_jobs s)) ∧
  sc_queue s' = sc_queue s ∧ sc_heap s' = sc_heap s ∧ sc_store s' = sc_store s.
Proof.
  intros Httl. unfold cleanupTerminalJobsOnce. destruct (Z.leb_spec (JobRetentionTTL cfg) 0); [lia|].
  intros (? & ? & [-> ->]%get_Some & Hrun)%bind_Some.
  apply cleanup_loop_run in Hrun as [[F1 F2 F3 F4 F5 F6] ->].
  set (cutoff := t - JobRetentionTTL cfg) in *. split_and!; [| |lia|done..].
  - intros id l. rewrite F1. case_bool_decide as Hin.
    + apply prunable_entry in Hin as (l' & Hl' & Hp'). split; [done|]. intros []. congruence.
    + rewrite prunable_entry in Hin. split; [|by intros []].
      intros Hl. split; [done|]. destruct (prunable s cutoff l) eqn:Hp; [|done].
      exfalso. eauto.
  - intros id. rewrite F2. case_bool_decide as Hin; rewrite prunable_entry in Hin.
    + destruct Hin as (l & -> & ->). done.
    + destruct (sc_jobs s !! id) as [l|] eqn:Hl; [|done].
      destruct (prunable s cutoff l) eqn:Hp; [|done]. exfalso. eauto.
Qed.
End Retention.

(** ** Start *)

Section Starting.
Context {St Tx : Type} `{!TransitionStoreI St Tx}.
Context (cfg : SchedulerConfig) (E : Env).

Definition flags_same (s s' : Sched St) : Prop :=
  sc_started s' = sc_started s ∧ sc_recovering s' = sc_recovering s ∧
  sc_stopRequested s' = sc_stopRequested s.
#[local] Instance flags_same_pre : PreOrder flags_same.
Proof. split; [by intros s|]. unfold flags_same. intros a b c. intuition congruence. Qed.

Lemma flags_modify f : (∀ s, flags_same s (f s)) → keeps any flags_same (modify f : M St unit).
Proof. intros Hf. apply keeps_modify. auto. Qed.
Lemma flags_new j : keeps any flags_same (new_job j : M St _).
Proof. apply keeps_new_job. by intros s _. Qed.
Lemma flags_tick : keeps any flags_same (next_tick : M St _).
Proof. apply keeps_next_tick. by intros s _. Qed.
#[local] Hint Resolve flags_new flags_tick : keeps.
Ltac flags_auto :=
  repeat (first [solve [eauto with keeps nocore] | keeps_step |
                 lazymatch goal with |- keeps _ _ (modify _) => by apply flags_modify end]).

Lemma flags_recover_batch rs processed recovered :
  keeps any flags_same (recover_batch E rs processed recovered : M St _).
Proof.
  revert processed recovered. induction rs as [|r rs IH]; intros processed recovered;
    cbn [recover_batch]; unfold recover_job, insert_recovered, seedJobSequenceLocked, ctx_Err;
    flags_auto.
Qed.
#[local] Hint Resolve flags_recover_batch : keeps.
Lemma flags_recover_batches rounds rs processed recovered :
  keeps any flags_same (recover_batches cfg E rounds rs processed recovered : M St _).
Proof.
  revert rs processed recovered. induction rounds as [|rounds IH]; intros [|r rs] processed recovered;
    cbn [recover_batches]; unfold ctx_Err; flags_auto.
Qed.
#[local] Hint Resolve flags_recover_batches : keeps.
Lemma flags_recover : keeps any flags_same (RecoverFromTransitions cfg E : M St _).
Proof.
  unfold RecoverFromTransitions, resumeRecoveredQueuedJobsLocked, resume_recovered, enqueueJobLocked.
  flags_auto.
Qed.

(** Starting a scheduler that is running, recovering or stopped does nothing.
    Otherwise recovery is over when [Start] returns, whether or not it
    succeeded, a leadership provider is set, and the dispatch loop runs unless
    that provider could not be started. *)
Theorem start_outcome (s s' : Sched St) :
  Start cfg E s = Some (tt, s') →
  if sc_started s || sc_recovering s || sc_stopRequested s then s' = s
  else sc_recovering s' = false ∧ sc_stopRequested s' = false ∧ is_Some (sc_leadership s') ∧
       ∃ n, (sc_started s' = true ↔ env_leader_start E n = None).
Proof.
  unfold Start. intros (? & ? & [-> ->]%get_Some & H)%bind_Some.
  destruct (_ || _) eqn:Hgo; [by apply ret_Some in H as [_ ->]|].
  apply orb_false_iff in Hgo as [[Hst Hrec]%orb_false_iff Hstop].
  apply bind_Some in H as (? & s1 & H1 & H). injection H1 as _ <-.
  apply bind_Some in H as (err & s2 & H2 & H).
  apply (flags_recover _ _ _ I) in H2 as (F1 & F2 & F3). simpl in F1, F2, F3.
  apply bind_Some in H as (err' & s3 & H3 & H). unfold startLeadershipProvider in H3.
  apply bind_Some in H3 as (? & ? & [-> ->]%get_Some & H3).
  apply bind_Some in H3 as (? & s4 & H4 & H3). injection H4 as _ <-.
  apply bind_Some in H3 as (n & s4 & H4 & [-> ->]%ret_Some). injection H4 as <- <-.
  destruct (env_leader_start E _) as [e|] eqn:Hlead.
  - injection H as <-. simpl. rewrite F1, F3, Hst, Hstop. split_and!; [done..|by eexists|].
    exists (sc_tick s2). unfold sc_tick in *. simpl in Hlead. by rewrite Hlead.
  - apply bind_Some in H as (? & ? & [-> ->]%get_Some & H). simpl in H. rewrite F3, Hstop in H.
    apply bind_Some in H as (? & s4 & H4 & H). injection H4 as _ <-. injection H as <-.
    simpl. split_and!; [done..|by eexists|]. exists (sc_tick s2). unfold sc_tick in *.
    simpl in Hlead. by rewrite Hlead.
Qed.
End Starting.

(** ** A follower's reconciliation *)

Section Follower.
Context (cfg : SchedulerConfig) (E : Env) (Hctx : ∀ n, env_ctx E n = None).
Implicit Types s : Sched MemStore.

Record warms (s s' : Sched MemStore) : Prop := {
  wm_readonly : readonly s s';
  wm_jobs : ∀ id, is_Some (sc_jobs s !! id) → is_Some (sc_jobs s' !! id);
  wm_quarantine : sc_replayQuarantine s = ∅ → sc_replayQuarantine s' = ∅;
}.
#[local] Instance warms_pre : PreOrder warms.
Proof.
  split; [intros s; split; [reflexivity|done..]|].
  intros a b c [R1 J1 Q1] [R2 J2 Q2]. split; [by etrans|auto|auto].
Qed.

Lemma warms_modify f :
  (∀ s, warms s (f s)) → keeps any warms (modify f : M MemStore unit).
Proof. intros Hf. apply keeps_modify. auto. Qed.
Lemma warms_job l f : keeps any warms (update_job l f).
Proof. apply keeps_update_job. by intros s j _ _. Qed.
Lemma warms_new j : keeps any warms (new_job j).
Proof. apply keeps_new_job. by intros s _. Qed.
Lemma warms_nodes {A} (m : ST NodeState A) : keeps any warms (on_nodes m).
Proof. apply keeps_on_nodes. by intros s _. Qed.
Lemma warms_tick : keeps any warms next_tick.
Proof. apply keeps_next_tick. by intros s _. Qed.
Lemma warms_replay id : keeps any warms (replay_job E id).
Proof.
  intros s a s' _. unfold replay_job. intros (? & ? & [-> ->]%get_Some & H)%bind_Some.
  destruct (ReplayJobState _ _ _ _) as [res n].
  apply bind_Some in H as (? & ? & H1 & [_ ->]%ret_Some). by injection H1 as <- <-.
Qed.
Lemma warms_seed id n trs : keeps any warms (seedJobSequenceLocked id n trs).
Proof. intros s a s' _ (m & -> & _)%seed_run. done. Qed.
Lemma warms_clear id : keeps any warms (clearReplayQuarantine id).
Proof.
  apply keeps_modify. intros s _. split; [by split|done|]. simpl. intros ->. apply delete_empty.
Qed.
Lemma warms_insert r : keeps any warms (insert_recovered E r).
Proof.
  unfold insert_recovered. apply keeps_bind; [exact _|exact _|apply warms_new|intros l].
  apply keeps_bind; [exact _|exact _| |intros _; apply keeps_ret; exact _].
  apply keeps_modify. intros s _. split; [by split| |done]. intros id Hid. simpl.
  rewrite lookup_insert_is_Some'. by right.
Qed.
#[local] Hint Resolve warms_job warms_new warms_nodes warms_tick warms_replay warms_seed warms_clear
  warms_insert : keeps.

Lemma warms_reconcile_job d : keeps any warms (reconcile_job cfg E ReconcileModeFollower d).
Proof.
  unfold reconcile_job, reconcile_replay, reconcile_locked, replayQuarantineUntil, now.
  cbn [is_leader_mode negb andb]. keeps_auto.
Qed.

(** A job whose history replays is in the job map afterwards. *)
Lemma reconcile_job_visible d s st u s' :
  sc_store s = Some st → sc_replayQuarantine s = ∅ → dj_JobID d ≠ "" →
  history_ok (dj_JobID d) (job_log st (dj_JobID d)) →
  reconcile_job cfg E ReconcileModeFollower d s = Some (u, s') →
  is_Some (sc_jobs s' !! dj_JobID d).
Proof.
  intros Hst Hq Hid Hh. unfold reconcile_job, replayQuarantineUntil. cbn [is_leader_mode].
  intros (q & s1 & (? & ? & [-> ->]%get_Some & [-> ->]%ret_Some)%bind_Some & H)%bind_Some.
  rewrite Hq, lookup_empty in H.
  apply bind_Some in H as (skip & ? & [-> ->]%ret_Some & H).
  apply bind_Some in H as (enq & ? & [-> ->]%ret_Some & H). unfold reconcile_replay in H.
  apply bind_Some in H as (res & s1 & H1 & H).
  assert (∃ r, res = inr r ∧ dj_JobID (rs_Job r) = dj_JobID d) as (r & -> & Hr).
  { unfold replay_job in H1. apply bind_Some in H1 as (? & ? & [-> ->]%get_Some & H1).
    rewrite Hst in H1.
    destruct (history_replays st (dj_JobID d) (env_ctx E) (sc_tick s) Hh Hid Hctx) as [r Hr].
    destruct (ReplayJobState _ _ _ _) as [res' n] eqn:Hrep. simpl in Hr. subst res'.
    apply bind_Some in H1 as (? & ? & _ & [-> _]%ret_Some). exists r. split; [done|].
    destruct (ReplayJobState_ok (env_ctx E) (sc_tick s) st (dj_JobID d) r) as [Hok _];
      [by rewrite Hrep|]. apply (ro_id _ _ _ Hok). }
  apply bind_Some in H as (? & s2 & H2 & H). cbn [is_leader_mode andb] in H.
  apply bind_Some in H as (stale & ? & [-> ->]%ret_Some & H).
  unfold reconcile_locked in H. apply bind_Some in H as (? & ? & [-> ->]%get_Some & H).
  cbn [is_leader_mode negb] in H. apply bind_Some in H as (l & s3 & H3 & [_ ->]%ret_Some).
  change (dj_JobID (rs_Job (merge_listed_job d r))) with (dj_JobID (rs_Job r)) in H3.
  rewrite Hr in H3. destruct (sc_jobs s2 !! dj_JobID d) as [l0|] eqn:Hl.
  - assert (warms s2 s3) as W; [|apply (wm_jobs _ _ W); by eexists].
    revert H3. apply keeps_run with (P := any); [keeps_auto|done].
  - apply bind_Some in H3 as (l1 & s4 & H4 & H3).
    apply bind_Some in H3 as (? & s5 & H5 & [_ ->]%ret_Some).
    apply (wm_jobs _ _ (warms_seed _ _ _ _ _ _ I H5)). unfold insert_recovered in H4.
    apply bind_Some in H4 as (l2 & s6 & H6 & H4). apply bind_Some in H4 as (? & s7 & H7 & [_ ->]%ret_Some).
    injection H7 as _ <-. simpl. rewrite Hr, lookup_insert_eq. by eexists.
Qed.

Lemma reconcile_loop_visible ds s st err s' :
  sc_store s = Some st → sc_replayQuarantine s = ∅ →
  reconcile_loop cfg E ReconcileModeFollower ds s = Some (err, s') →
  err = None ∧ warms s s' ∧
  ∀ d, d ∈ ds → dj_JobID d ≠ "" → history_ok (dj_JobID d) (job_log st (dj_JobID d)) →
       is_Some (sc_jobs s' !! dj_JobID d).
Proof.
  revert s. induction ds as [|d ds IH]; intros s Hst Hq; cbn [reconcile_loop].
  { intros [-> ->]%ret_Some. split_and!; [done|reflexivity|]. intros d Hd. by apply elem_of_nil in Hd. }
  intros (done & s1 & H1 & H)%bind_Some. unfold ctx_Err in H1.
  apply bind_Some in H1 as (n & s2 & H1 & [-> ->]%ret_Some). rewrite Hctx in H.
  injection H1 as _ <-. apply bind_Some in H as (u & s3 & H3 & H).
  pose proof (warms_reconcile_job d _ _ _ I H3) as W3.
  set (s2 := set_nodes _ s) in *.
  apply IH in H as (-> & W & Hall).
  - split_and!; [done|etrans; [by apply (warms_tick s (sc_tick s) s2 I)|by etrans]|].
    intros d' [->|Hd']%elem_of_cons Hid Hh; [|by apply Hall].
    apply (wm_jobs _ _ W). by eapply (reconcile_job_visible d s2 st).
  - by rewrite (rd_store _ _ (wm_readonly _ _ W3)).
  - by apply (wm_quarantine _ _ W3).
Qed.

(** A follower's reconciliation only looks: store, queue and executor are left
    alone.  While its context lives it succeeds, and afterwards every unfinished
    job of the store whose history replays is visible. *)
Theorem follower_reconciles s st err s' :
  sc_store s = Some st → store_wf st → sc_replayQuarantine s = ∅ →
  reconcileDurableQueuedJobsOnce cfg E ReconcileModeFollower s = Some (err, s') →
  readonly s s' ∧ err = None ∧
  ∀ id d, ms_jobs st !! id = Some d → IsTerminalJobState (dj_CurrentState d) = false →
    id ≠ "" → history_ok id (job_log st id) → is_Some (sc_jobs s' !! id).
Proof.
  intros Hst Hwf Hq. unfold reconcileDurableQueuedJobsOnce.
  intros (? & ? & [-> ->]%get_Some & H)%bind_Some. rewrite Hst in H. simpl in H.
  apply bind_Some in H as (err' & s1 & H1 & H).
  apply (reconcile_loop_visible _ _ st) in H1 as (-> & W & Hall); [|done..].
  apply bind_Some in H as (t & s2 & H2 & H). apply bind_Some in H as (? & s3 & H3 & [-> ->]%ret_Some).
  injection H2 as _ <-. injection H3 as _ <-. split_and!; [|done|].
  - destruct (wm_readonly _ _ W). by split.
  - intros id d Hd Hterm Hid Hh. pose proof (wf_jobs _ Hwf _ _ Hd) as Hkey. subst id.
    simpl. apply Hall; [|done..]. rewrite !go_sort_perm. apply list_elem_of_filter.
    split; [done|]. apply elem_of_map_values. by eexists.
Qed.
End Follower.
