(* ===== verification/Durable.v ===== *)
(** * Durable submission

    An admitted job is durable: when the context lives and the clock runs,
    [recordInitialTransitions] leaves a history from which the job replays as
    QUEUED and each of its tasks as PENDING, which is also what the job shows
    in memory. *)

From stdpp Require Import base gmap strings list fin_maps.
From S2P Require Import Prelude StateMachine Store Replay Jobs Config Leadership Nodes Scheduler Lifecycle SchedLogic Frames Coherence Reachable Totality Admission.

Open Scope Z_scope.

Lemma append_ok r st :
  Validate r = None → AppendTransition r st = (None, (Mem.AppendTransition r st).2).
Proof. intros Hv. simpl. unfold Mem.AppendTransition. by rewrite Hv. Qed.

Lemma snapshot_ok snap (st : MemStore) : ∃ st', upsert_snapshot snap st = (None, st').
Proof. destruct snap; by eexists. Qed.

Section Durable.
Context (E : Env).
Context (Hctx : ∀ n, env_ctx E n = None) (Hnow : ∀ n, env_now E n ≠ 0).
Implicit Types s : Sched MemStore.

(** The log of job [id] is in order, below the counter of the job, and [n] more
    records can be numbered. *)
Record ready (id : string) (n : nat) (s : Sched MemStore) (st : MemStore) : Prop := {
  rd_store : sc_store s = Some st;
  rd_sorted : seq_sorted (job_log st id);
  rd_below : Forall (λ r, (tr_SequenceID r ≤ seqn s id)%N) (job_log st id);
  rd_room : (seqn s id + N.of_nat n < u64_modulus)%N;
}.

Lemma ready_frame id n s s' st :
  sc_store s' = sc_store s → sc_jobSequences s' = sc_jobSequences s →
  ready id n s st → ready id n s' st.
Proof. intros H1 H2 [R1 R2 R3 R4]. split; unfold seqn in *; rewrite ?H1, ?H2; done. Qed.

(** A write of a valid record with the next sequence id. *)
Lemma write_ready id n s st fn (record : TransitionRecord) :
  ready id (S n) s st → Validate record = None → tr_JobID record = id →
  tr_SequenceID record = u64_incr (seqn s id) →
  (∀ st1, ∃ st', fn st1 = (None, st') ∧ log_step st1 st' record) →
  ∃ st', persistTransitionWrite E fn (bump (alloc id s)) =
         Some (None, set_store (Some st') (bump (bump (alloc id s)))) ∧
    job_log st' id = job_log st id ++ [record] ∧
    ∀ s', sc_store s' = Some st' → sc_jobSequences s' = sc_jobSequences (alloc id s) →
          ready id n s' st'.
Proof.
  intros [R1 R2 R3 R4] Hv Hid Hseq Hfn. destruct (Hfn st) as (st' & Hst' & [_ _ Hlog _]).
  exists st'. rewrite (run_persist E st fn) by exact R1. rewrite Hctx, WithTx_spec, Hst'.
  split; [done|].
  assert (u64_incr (seqn s id) = (seqn s id + 1)%N) as Hincr by (apply u64_incr_lt; lia).
  assert (job_log st' id = job_log st id ++ [record]) as Hl.
  { rewrite Hlog, Hid, String.eqb_refl. apply go_sort_append; [done|].
    eapply Forall_impl; [exact R3|]. simpl. intros r Hr. lia. }
  split; [done|]. intros s' H1 H2.
  assert (seqn s' id = (seqn s id + 1)%N) as Hs'.
  { unfold seqn. rewrite H2. unfold alloc, map_get. simpl. by rewrite lookup_insert_eq. }
  split; [done| | |lia]; rewrite Hl.
  - rewrite <-(go_sort_append (job_log st id) record); [apply seq_sorted_go_sort|done|].
    eapply Forall_impl; [exact R3|]. simpl. intros r Hr. lia.
  - apply Forall_app. split; [eapply Forall_impl; [exact R3|]; simpl; lia|].
    apply Forall_singleton. lia.
Qed.

(** What a recorded transition leaves. *)
Record wrote (id : string) (n : nat) (heap : gmap loc Job) (s s' : Sched MemStore)
    (st st' : MemStore) (record : TransitionRecord) : Prop := {
  wr_ready : ready id n s' st';
  wr_heap : sc_heap s' = heap;
  wr_jobs : sc_jobs s' = sc_jobs s;
  wr_log : job_log st' id = job_log st id ++ [record];
}.

Lemma recordJob_writes l j tr new summary s st n :
  ready (j_ID j) (S n) s st → sc_heap s !! l = Some j → j_ID j ≠ "" → tr ≠ "" →
  (j_LifecycleState j = "" ∧ new = JobStateSubmitted) ∨
    (isValidJobLifecycleState (j_LifecycleState j) = true ∧
     CanTransitionJobState (j_LifecycleState j) new = true) →
  isValidJobLifecycleState new = true →
  ∃ s' st' record, recordJobTransition E l tr new summary s = Some (tt, s') ∧
    wrote (j_ID j) n (<[l := with_job_state new j]> (sc_heap s)) s s' st st' record ∧
    is_job_record record = true ∧ tr_NewState record = new.
Proof.
  intros HR Hj Hid Htr Hcan Hnew. pose proof HR as [Hst _ _ Hroom].
  set (record := mkTransition (u64_incr (seqn s (j_ID j))) TransitionEntityJob tr (j_ID j) ""
    (j_LifecycleState j) new "" 0 (normalizeTransitionErrorSummary summary)
    (env_now E (sc_tick s))).
  assert (Validate record = None) as Hv.
  { apply Validate_spec. split_and!; simpl; try done; [rewrite u64_incr_lt by lia; lia|].
    left. split_and!; [done..|]. simpl. destruct Hcan as [?|[? _]]; auto. }
  edestruct (write_ready (j_ID j) n s st (tx_then (AppendTransition record)
    (UpsertJob (mkDurableJob (j_ID j) (j_Name j) new (u64_incr (seqn s (j_ID j))) (j_CreatedAt j)
      (env_now E (sc_tick s))))) record) as (st' & Hp & Hlog & Hready); [done..| |].
  { intros st1. eexists. split; [unfold tx_then; by rewrite append_ok|].
    eapply job_write_step; [unfold tx_then; by rewrite append_ok|done]. }
  eexists _, st', record. split; [|split_and!; [|done|done]].
  - unfold recordJobTransition. unfold mbind, M_bind, get. cbn beta iota. rewrite Hst.
    unfold get_job at 1. rewrite Hj.
    replace (negb (String.eqb (j_LifecycleState j) "") &&
      negb (CanTransitionJobState (j_LifecycleState j) new)) with false
      by (destruct Hcan as [[-> _]|[_ ->]]; [done|by rewrite andb_false_r]).
    replace (String.eqb (j_LifecycleState j) "" && negb (String.eqb new JobStateSubmitted))
      with false by (destruct Hcan as [[_ ->]|[H _]]; [by rewrite andb_false_r|];
        destruct (String.eqb_spec (j_LifecycleState j) "") as [E0|]; [by rewrite E0 in H|done]).
    rewrite run_alloc. cbn beta iota. rewrite run_now. cbn beta iota.
    change (env_now E (sc_tick (alloc _ s))) with (env_now E (sc_tick s)).
    fold record. rewrite Hp. cbn beta iota. unfold update_job. simpl. by rewrite Hj.
  - split; [by apply Hready|done|done|done].
Qed.

Lemma snapshot_run id n at_ s :
  (∀ k l, sc_jobs s !! k = Some l → is_Some (sc_heap s !! l)) →
  ∃ snap, durableJobSnapshot id n at_ s = Some (snap, s) ∧ snapshot_le n snap.
Proof.
  intros Hlive. unfold durableJobSnapshot, mbind, M_bind, get. cbn beta iota.
  destruct (sc_jobs s !! id) as [l|] eqn:Hl; [|by eexists].
  destruct (Hlive _ _ Hl) as [j Hj]. unfold get_job. rewrite Hj. eexists. split; [done|].
  intros d [= <-]. simpl. lia.
Qed.

(** The record of a new task. *)
Lemma recordTask_writes r j t s st n :
  ready (t_JobID t) (S n) s st → sc_heap s !! tr_loc r = Some j →
  job_task j (tr_stage r) (tr_task r) = Some t →
  (∀ k l, sc_jobs s !! k = Some l → is_Some (sc_heap s !! l)) →
  t_JobID t ≠ "" → t_ID t ≠ "" → t_LifecycleState t = "" →
  ∃ s' st' record,
    recordTaskTransition E r TransitionTaskCreated TaskStatePending "" 0 "" s = Some (tt, s') ∧
    wrote (t_JobID t) n (<[tr_loc r := map_task (tr_stage r) (tr_task r)
      (with_task_state TaskStatePending) j]> (sc_heap s)) s s' st st' record ∧
    is_job_record record = false ∧ (∀ id, is_task_record id record = String.eqb (t_ID t) id) ∧
    tr_NewState record = TaskStatePending.
Proof.
  intros HR Hj Ht Hlive Hjid Htid Hst0. pose proof HR as [Hst _ _ Hroom].
  set (record := mkTransition (u64_incr (seqn s (t_JobID t))) TransitionEntityTask
    TransitionTaskCreated (t_JobID t) (t_ID t) "" TaskStatePending "" 0
    (normalizeTransitionErrorSummary "") (env_now E (sc_tick s))).
  assert (Validate record = None) as Hv.
  { apply Validate_spec. split_and!; simpl; try done; [rewrite u64_incr_lt by lia; lia|].
    right. split_and!; [done..|]. by left. }
  edestruct (snapshot_run (t_JobID t) (u64_incr (seqn s (t_JobID t))) (env_now E (sc_tick s))
    (bump (alloc (t_JobID t) s))) as (snap & Hsnap & Hle); [exact Hlive|].
  edestruct (write_ready (t_JobID t) n s st (tx_then (AppendTransition record)
    (tx_then (UpsertTask (durable_task E t "" TaskStatePending 0 (env_now E (sc_tick s))))
       (upsert_snapshot snap))) record) as (st' & Hp & Hlog & Hready); [done..| |].
  { intros st1.
    destruct (snapshot_ok snap (UpsertTask (durable_task E t "" TaskStatePending 0
      (env_now E (sc_tick s))) (Mem.AppendTransition record st1).2).2) as [st2 Hst2].
    assert (tx_then (AppendTransition record) (tx_then (UpsertTask (durable_task E t ""
      TaskStatePending 0 (env_now E (sc_tick s)))) (upsert_snapshot snap)) st1 = (None, st2)) as Hfn.
    { unfold tx_then. by rewrite append_ok. }
    exists st2. split; [exact Hfn|]. by eapply task_write_step. }
  eexists _, st', record. split; [|split_and!; [|done|done|done]].
  - unfold recordTaskTransition. unfold mbind, M_bind, get. cbn beta iota. rewrite Hst.
    replace (get_task r s) with (Some (t, s))
      by (symmetry; apply get_task_Some; by exists j).
    cbn beta iota. rewrite Hst0. change (negb (String.eqb "" "") && _) with false.
    change (String.eqb "" "" && negb (String.eqb TaskStatePending TaskStatePending)) with false.
    cbn beta iota. rewrite run_alloc. cbn beta iota. rewrite run_now. cbn beta iota.
    change (env_now E (sc_tick (alloc _ s))) with (env_now E (sc_tick s)). rewrite Hsnap.
    cbn beta iota. fold record. rewrite Hp. cbn beta iota.
    apply update_task_Some. exists j, t. done.
  - split; [by apply Hready|done|done|done].
Qed.

(** *** The loop over the tasks *)

Section Created.
Context (l : loc) (id : string) (j0 : Job).
Context (Hid : id ≠ "").
(** The tasks of a job to be submitted: named, not started, and either bound to
    the job already or to be bound. *)
Context (Hnew : ∀ i k t, job_task j0 i k = Some t →
  t_ID t ≠ "" ∧ t_LifecycleState t = "" ∧ (t_JobID t = "" ∨ t_JobID t = id)).

(** The tasks in [seen] are recorded, the others are as submitted. *)
Record progress (seen : nat → nat → Prop) (n : nat) (s : Sched MemStore) (st : MemStore) (j : Job)
    : Prop := {
  pg_ready : ready id n s st;
  pg_heap : sc_heap s !! l = Some j;
  pg_live : ∀ k l', sc_jobs s !! k = Some l' → is_Some (sc_heap s !! l');
  pg_id : j_ID j = id;
  pg_state : j_LifecycleState j = JobStateSubmitted;
  pg_dims : dims j = dims j0;
  pg_job : job_last (job_log st id) = JobStateSubmitted;
  pg_todo : ∀ i k, ¬ seen i k → job_task j i k = job_task j0 i k;
  pg_seen : ∀ i k t, seen i k → job_task j i k = Some t →
    t_LifecycleState t = TaskStatePending ∧ t_JobID t = id ∧
    task_last (t_ID t) (job_log st id) = TaskStatePending;
}.

Lemma created_run stageID seen n s st j i k t0 :
  progress seen (S n) s st j → ¬ seen i k → job_task j0 i k = Some t0 →
  ∃ s' st' j', record_created E id stageID (mkRef l i k) s = Some (tt, s') ∧
    progress (λ i' k', seen i' k' ∨ (i' = i ∧ k' = k)) n s' st' j'.
Proof.
  intros [P1 P2 P3 P4 P5 P6 P7 P8 P9] Hns Ht0. destruct (Hnew i k t0 Ht0) as (Hn1 & Hn2 & Hn3).
  assert (job_task j i k = Some t0) as Ht by (by rewrite P8).
  set (jid := if String.eqb (t_JobID t0) "" then id else t_JobID t0).
  assert (jid = id) as Hjid.
  { subst jid. destruct (String.eqb_spec (t_JobID t0) ""); [done|]. by destruct Hn3. }
  set (f := with_task_ids jid (if String.eqb (t_StageID t0) "" then stageID else t_StageID t0)).
  set (s1 := set_heap (<[l := map_task i k f j]> (sc_heap s)) s).
  assert (job_task (map_task i k f j) i k = Some (f t0)) as Hft.
  { rewrite job_task_map_task, decide_True by done. by rewrite Ht. }
  assert (∀ j' l', is_Some (sc_heap s !! l') → is_Some (<[l := j']> (sc_heap s) !! l')) as Hlive.
  { intros j' l' Hl'. rewrite lookup_insert_is_Some'. by right. }
  destruct (recordTask_writes (mkRef l i k) (map_task i k f j) (f t0) s1 st n)
    as (s' & st' & record & Hrun & [W1 W2 W3 W4] & Hjr & Htr & Hns'); simpl; try done.
  - rewrite Hjid. by apply (ready_frame id (S n) s).
  - by rewrite lookup_insert_eq.
  - intros k' l' Hl'. apply Hlive, (P3 k' l' Hl').
  - by rewrite Hjid.
  - set (jf := map_task i k (with_task_state TaskStatePending) (map_task i k f j)) in *.
    assert (∀ i' k', job_task jf i' k' = if decide (i' = i ∧ k' = k)
      then Some (with_task_state TaskStatePending (f t0)) else job_task j i' k') as Hjf.
    { intros i' k'. subst jf. rewrite !job_task_map_task.
      destruct (decide (i' = i ∧ k' = k)) as [[-> ->]|Hne].
      - rewrite !decide_True by done. by rewrite Ht.
      - rewrite !decide_False by naive_solver. done. }
    simpl in W1, W4. rewrite Hjid in W1, W4. exists s', st', jf. split.
    + unfold record_created. rewrite bind_Some. exists t0, s.
      rewrite get_task_Some. split; [by exists j|]. rewrite bind_Some. exists tt, s1.
      rewrite update_task_Some. split; [by exists j, t0|]. exact Hrun.
    + split; [done|..].
      * rewrite W2. apply lookup_insert_eq.
      * intros k' l'. rewrite W2, W3. simpl. intros Hl'.
        rewrite insert_insert_eq. apply Hlive, (P3 k' l' Hl').
      * done.
      * done.
      * subst jf. by rewrite !dims_map_task.
      * rewrite W4, job_last_snoc, Hjr. done.
      * intros i' k' Hne. rewrite Hjf, decide_False by naive_solver. apply P8. naive_solver.
      * intros i' k' t Hs. rewrite Hjf, W4, task_last_snoc, Htr, Hns'.
        destruct (decide (i' = i ∧ k' = k)) as [_|Hne].
        -- intros [= <-]. simpl. by rewrite String.eqb_refl.
        -- destruct Hs as [Hs|]; [|done]. intros Htt.
           destruct (P9 i' k' t Hs Htt) as (Q1 & Q2 & Q3). split_and!; [done..|]. by simp_if.
Qed.

Lemma progress_iff seen seen' n s st j :
  (∀ i k, seen i k ↔ seen' i k) → progress seen n s st j → progress seen' n s st j.
Proof.
  intros H [P1 P2 P3 P4 P5 P6 P7 P8 P9]. split; try done.
  - intros i k Hn. apply P8. by rewrite H.
  - intros i k t Hs. apply P9. by rewrite H.
Qed.

Lemma iter_created_run stageID i ks seen n s st j :
  progress seen (length ks + n) s st j → NoDup ks → (∀ k, k ∈ ks → ¬ seen i k) →
  (∀ k, k ∈ ks → is_Some (job_task j0 i k)) →
  ∃ s' st' j', iter (record_created E id stageID) (mkRef l i <$> ks) s = Some (tt, s') ∧
    progress (λ i' k', seen i' k' ∨ (i' = i ∧ k' ∈ ks)) n s' st' j'.
Proof.
  revert seen s st j. induction ks as [|k ks IH]; intros seen s st j HP Hnd Hns Hsome.
  { exists s, st, j. split; [done|]. eapply progress_iff; [|exact HP]. set_solver. }
  apply NoDup_cons in Hnd as [Hk Hnd].
  destruct (Hsome k ltac:(by left)) as [t0 Ht0].
  destruct (created_run stageID seen _ s st j i k t0 HP ltac:(apply Hns; by left) Ht0)
    as (s1 & st1 & j1 & H1 & HP1).
  edestruct IH as (s2 & st2 & j2 & H2 & HP2); [exact HP1|done| |set_solver|].
  { intros k' Hk' [Hs|[_ ->]]; [|done]. apply (Hns k'); [by right|done]. }
  exists s2, st2, j2. split.
  - simpl. rewrite bind_Some. eauto.
  - eapply progress_iff; [|exact HP2]. intros i' k'. rewrite elem_of_cons. naive_solver.
Qed.

(** *** The loop over the stages *)

Context (Hnil : no_nil j0).

Definition tasks_in (i : nat) : nat :=
  match job_stage j0 i with Some st => length (s_Tasks st) | None => 0%nat end.

Lemma stage_of_dims j i :
  dims j = dims j0 → (i < length (j_Stages j0))%nat →
  ∃ stage, job_stage j i = Some stage ∧ length (s_Tasks stage) = tasks_in i.
Proof.
  intros Hd Hi. destruct (lookup_lt_is_Some_2 _ _ Hi) as [o Ho].
  destruct (Forall_lookup_1 _ _ _ _ Hnil Ho) as (st0 & -> & _).
  assert (dims j0 !! i = Some (Some ((λ t, bool_decide (is_Some t)) <$> s_Tasks st0))) as H0.
  { unfold dims. by rewrite list_lookup_fmap, Ho. }
  rewrite <-Hd in H0. unfold dims in H0. rewrite list_lookup_fmap in H0.
  unfold job_stage, tasks_in. unfold job_stage. rewrite Ho. simpl.
  destruct (j_Stages j !! i) as [[st|]|]; [|done..]. simpl in *. exists st. split; [done|].
  injection H0 as H0. apply (f_equal length) in H0. by rewrite !length_fmap in H0.
Qed.

Lemma task_in_stage i k :
  (i < length (j_Stages j0))%nat → (k < tasks_in i)%nat → is_Some (job_task j0 i k).
Proof.
  intros Hi. destruct (lookup_lt_is_Some_2 _ _ Hi) as [o Ho].
  destruct (Forall_lookup_1 _ _ _ _ Hnil Ho) as (st0 & -> & Hts).
  unfold tasks_in, job_task, job_stage. rewrite Ho. simpl. intros Hk.
  destruct (lookup_lt_is_Some_2 _ _ Hk) as [t Ht]. rewrite Ht.
  by destruct (Forall_lookup_1 _ _ _ _ Hts Ht) as [t' ->].
Qed.

Lemma dims_task j i k :
  dims j = dims j0 → is_Some (job_task j i k) →
  i ∈ seq 0 (length (j_Stages j0)) ∧ (k < tasks_in i)%nat.
Proof.
  intros Hd [t Ht]. unfold job_task in Ht. destruct (job_stage j i) as [st|] eqn:Hs; [|done].
  assert (i < length (j_Stages j0))%nat as Hi.
  { apply (f_equal length) in Hd. unfold dims in Hd. rewrite !length_fmap in Hd. rewrite <-Hd.
    unfold job_stage in Hs. destruct (j_Stages j !! i) eqn:Hi; [|done].
    by eapply lookup_lt_Some. }
  split; [apply elem_of_seq; lia|].
  destruct (stage_of_dims j i Hd Hi) as (st' & Hs' & <-).
  rewrite Hs in Hs'. injection Hs' as <-.
  destruct (s_Tasks st !! k) eqn:Hk; [|done]. by eapply lookup_lt_Some.
Qed.

Lemma iter_stages_run is_ seen n s st j :
  progress seen (sum_list_with tasks_in is_ + n) s st j → NoDup is_ →
  (∀ i, i ∈ is_ → (i < length (j_Stages j0))%nat) → (∀ i k, i ∈ is_ → ¬ seen i k) →
  ∃ s' st' j', iter (record_stage_created E id l) is_ s = Some (tt, s') ∧
    progress (λ i' k', seen i' k' ∨ (i' ∈ is_ ∧ (k' < tasks_in i')%nat)) n s' st' j'.
Proof.
  revert seen s st j. induction is_ as [|i is_ IH]; intros seen s st j HP Hnd Hlen Hns.
  { exists s, st, j. split; [done|]. eapply progress_iff; [|exact HP]. set_solver. }
  apply NoDup_cons in Hnd as [Hi Hnd].
  destruct (stage_of_dims j i) as (stage & Hstage & Htasks); [apply HP|set_solver|].
  destruct (iter_created_run (s_ID stage) i (seq 0 (tasks_in i)) seen
    (sum_list_with tasks_in is_ + n) s st j) as (s1 & st1 & j1 & H1 & HP1).
  - rewrite length_seq. simpl in HP. by rewrite Nat.add_assoc.
  - apply NoDup_seq.
  - intros k _. apply Hns. by left.
  - intros k Hk%elem_of_seq. apply task_in_stage; [set_solver|lia].
  - edestruct IH as (s2 & st2 & j2 & H2 & HP2); [exact HP1|done|set_solver| |].
    { intros i' k' Hi' [Hs|[-> _]]; [|done]. apply (Hns i' k'); [by right|done]. }
    exists s2, st2, j2. split.
    + simpl. rewrite bind_Some. exists tt, s1. split; [|done].
      unfold record_stage_created. rewrite bind_Some. exists stage, s. split.
      * unfold get_stage. rewrite bind_Some. exists j, s. rewrite get_job_Some, Hstage.
        split; [split; [apply HP|done]|done].
      * unfold stage_refs. by rewrite Htasks.
    + eapply progress_iff; [|exact HP2]. intros i' k'. rewrite elem_of_cons, elem_of_seq.
      split; [intros [[?|[-> ?]]|[? ?]]|intros [?|[[->|?] ?]]]; first
        [by auto | right; split; [by auto|lia] | left; right; split; [done|lia]].
Qed.
End Created.
End Durable.

(** ** Submission *)

(** A job as its author builds it: nothing has happened to it yet.  [NewJob]
    sets the state to SUBMITTED, a literal may leave it empty. *)
Record new_job_ok (j : Job) : Prop := {
  nj_id : j_ID j ≠ "";
  nj_state : j_LifecycleState j = "" ∨ j_LifecycleState j = JobStateSubmitted;
  nj_nil : no_nil j;
  nj_tasks : ∀ i k t, job_task j i k = Some t →
    t_ID t ≠ "" ∧ t_LifecycleState t = "" ∧ (t_JobID t = "" ∨ t_JobID t = j_ID j);
}.

(** The transitions a submission records. *)
Definition initial_records (j : Job) : nat :=
  (sum_list_with (tasks_in j) (seq 0 (length (j_Stages j))) + 2)%nat.

Section Submit.
Context (E : Env) (Hctx : ∀ n, env_ctx E n = None) (Hnow : ∀ n, env_now E n ≠ 0).

(** Recording the initial transitions of a job that is registered already. *)
Lemma recordInitial_run l j s st :
  new_job_ok j → sc_heap s !! l = Some j → ready (j_ID j) (initial_records j) s st →
  (∀ k l', sc_jobs s !! k = Some l' → is_Some (sc_heap s !! l')) →
  ∃ s' st' j', recordInitialTransitions E l s = Some (tt, s') ∧ sc_store s' = Some st' ∧
    sc_heap s' !! l = Some j' ∧ j_LifecycleState j' = JobStateQueued ∧ dims j' = dims j ∧
    job_last (job_log st' (j_ID j)) = JobStateQueued ∧
    ∀ i k t, job_task j' i k = Some t →
      t_LifecycleState t = TaskStatePending ∧ t_JobID t = j_ID j ∧
      task_last (t_ID t) (job_log st' (j_ID j)) = TaskStatePending.
Proof.
  intros [N1 N2 N3 N4] Hj HR Hlive.
  set (total := sum_list_with (tasks_in j) (seq 0 (length (j_Stages j)))).
  unfold initial_records in HR. fold total in HR. rewrite Nat.add_succ_r in HR.
  destruct (recordJob_writes E Hctx Hnow l j TransitionJobSubmitted JobStateSubmitted "" s st
    (total + 1)) as (s1 & st1 & r1 & H1 & [W1 W2 W3 W4] & J1 & S1);
    [done..|destruct N2 as [N2|N2]; [by left|right; by rewrite N2]|done|].
  set (j1 := with_job_state JobStateSubmitted j) in *.
  destruct (iter_stages_run E Hctx Hnow l (j_ID j) j N1 N4 N3 (seq 0 (length (j_Stages j)))
    (λ _ _, False) 1 s1 st1 j1) as (s2 & st2 & j2 & H2 & P2).
  - split; try done.
    + rewrite W2. apply lookup_insert_eq.
    + intros k l'. rewrite W2, W3. intros Hl'. rewrite lookup_insert_is_Some'. right. eauto.
    + rewrite W4, job_last_snoc, J1. exact S1.
  - apply NoDup_seq.
  - intros i Hi%elem_of_seq. lia.
  - by intros i k _ [].
  - pose proof P2 as [Q1 Q2 Q3 Q4 Q5 Q6 Q7 Q8 Q9].
    rewrite <-Q4 in Q1.
    destruct (recordJob_writes E Hctx Hnow l j2 TransitionJobQueued JobStateQueued "" s2 st2 0)
      as (s3 & st3 & r3 & H3 & [X1 X2 X3 X4] & J3 & S3);
      [done|done|by rewrite Q4|done|right; by rewrite Q5|done|].
    exists s3, st3, (with_job_state JobStateQueued j2). rewrite Q4 in X4. split_and!.
    + unfold recordInitialTransitions. rewrite bind_Some. exists tt, s1. split; [done|].
      rewrite bind_Some. exists j1, s1. rewrite get_job_Some, W2, lookup_insert_eq.
      split; [done|]. rewrite bind_Some. exists tt, s2. split; [exact H2|exact H3].
    + apply X1.
    + rewrite X2. apply lookup_insert_eq.
    + done.
    + exact Q6.
    + rewrite X4, job_last_snoc, J3. exact S3.
    + intros i k t Ht. change (job_task j2 i k = Some t) in Ht.
      assert (is_task_record (t_ID t) r3 = false) as Hr3.
      { unfold is_job_record in J3. unfold is_task_record. apply String.eqb_eq in J3.
        by rewrite J3. }
      assert (i ∈ seq 0 (length (j_Stages j)) ∧ (k < tasks_in j i)%nat) as Hin.
      { eapply dims_task; [done|exact Q6|by eexists]. }
      destruct (Q9 i k t (or_intror Hin) Ht) as (A1 & A2 & A3).
      split_and!; [done|done|]. by rewrite X4, task_last_snoc, Hr3.
Qed.

Lemma task_at_dims j j' i k :
  dims j' = dims j → is_Some (job_task j i k) → is_Some (job_task j' i k).
Proof.
  intros Hd [t Ht]. unfold job_task in *. destruct (job_stage j i) as [st|] eqn:Hs; [|done].
  unfold job_stage in *. destruct (j_Stages j !! i) as [[st0|]|] eqn:Hj; simplify_eq/=.
  assert (dims j' !! i = Some (Some ((λ t, bool_decide (is_Some t)) <$> s_Tasks st))) as H'.
  { rewrite Hd. unfold dims. by rewrite list_lookup_fmap, Hj. }
  unfold dims in H'. rewrite list_lookup_fmap in H'.
  destruct (j_Stages j' !! i) as [[st'|]|]; simplify_eq/=.
  apply (f_equal (λ l, l !! k)) in H'. rewrite !list_lookup_fmap in H'.
  destruct (s_Tasks st !! k) as [[?|]|]; simplify_eq/=.
  destruct (s_Tasks st' !! k) as [[?|]|]; simplify_eq/=. eauto.
Qed.

(** C4. In any state a scheduler process reaches, a new job it admits is durable: the
    job is registered in memory as QUEUED, and the store replays it as QUEUED and
    each of its tasks as PENDING.  New is a job whose id, not empty, has no durable
    log, and whose tasks, none nil, have ids of their own and no state yet; while the
    job is submitted the context lives and the clock runs, and no sequence counter is
    exhausted. *)
Theorem submit_durable cfg B E0 st0 j s st s' ctx n :
  store_below B st0 → rtc (step cfg E0) (newSchedulerWithValidatedConfig cfg st0) s →
  submittable j s → bounded B s' → sc_store s = Some st → new_job_ok j →
  (seqn s (j_ID j) + N.of_nat (initial_records j) < u64_modulus)%N → ctx_alive ctx →
  submit_new cfg E j s = Some (None, s') →
  ∃ st' j' r, sc_store s' = Some st' ∧ sc_jobs s' !! j_ID j = Some (sc_next s) ∧
    sc_heap s' !! sc_next s = Some j' ∧ j_LifecycleState j' = JobStateQueued ∧
    (ReplayJobState ctx n (Some st') (j_ID j)).1 = inr r ∧
    dj_CurrentState (rs_Job r) = JobStateQueued ∧
    ∀ i k, is_Some (job_task j i k) → ∃ t, job_task j' i k = Some t ∧
      t_LifecycleState t = TaskStatePending ∧
      dt_CurrentState (replayed_task r (t_ID t)) = TaskStatePending.
Proof.
  intros Hst0 Hreach Hsub Hb Hst Hnew Hroom Hctx' Hrun.
  assert (Inv B s) as HI.
  { eapply reach_inv; [exact Hreach| |by apply new_scheduler_inv].
    eapply bounded_before; [|exact Hb]. eapply (clock_step cfg E). by eapply step_submit. }
  pose proof (submit_inv cfg E B j s None s' Hrun Hb Hsub HI) as HI'.
  unfold submit_new in Hrun. apply bind_Some in Hrun as (l & s1 & H1 & H). injection H1 as <- <-.
  set (s1 := set_next _ _) in H.
  assert (sc_heap s1 !! sc_next s = Some j) as Hj1 by apply lookup_insert_eq.
  unfold SubmitJobWithContext in H. apply bind_Some in H as (err & s2 & Hres & H).
  rewrite (submit_reserve_eq cfg _ j s1 Hj1) in Hres. injection Hres as Ha <-.
  destruct (admission cfg (j_ID j) s1) as [e|]; subst err;
    [by apply ret_Some in H as [[=] _]|].
  apply bind_Some in H as (? & s3 & H3 & H). apply bind_Some in H as (b & s4 & H4 & H).
  apply ret_Some in H as [_ ->].
  set (s2 := reserved_state _ j s1) in H3. set (jp := with_job_status JobPending j).
  assert (sc_heap s2 !! sc_next s = Some jp) as Hj2 by apply lookup_insert_eq.
  destruct (recordInitial_run (sc_next s) jp s2 st) as
    (s3' & st' & j' & Hr & Hst' & Hj' & Hq & Hd & Hlast & Htasks); [by destruct Hnew|done| | |].
  { pose proof (inv_coh _ _ HI) as Hcoh. unfold coh in Hcoh. rewrite Hst in Hcoh.
    pose proof (sm_new _ _ Hsub st Hst) as Hlog.
    split; [done| | |exact Hroom]; change (j_ID jp) with (j_ID j); rewrite Hlog; constructor. }
  { intros k l'. subst s2 s1. simpl. intros [[_ <-]|[_ Hl']]%lookup_insert_Some.
    - rewrite lookup_insert_eq. by eexists.
    - destruct (inv_jobs _ _ HI k l' Hl') as (j1 & Hj1' & _).
      rewrite !lookup_insert_is_Some'. right. right. by eexists. }
  rewrite Hr in H3. injection H3 as _ <-. rename s3' into s3.
  pose proof (kept_recordInitial E (sc_next s) _ _ _ I Hr) as K.
  assert (sc_store s4 = sc_store s3 ∧ sc_heap s4 = sc_heap s3 ∧ sc_jobs s4 = sc_jobs s3)
    as (F1 & F2 & F3).
  { unfold submit_commit in H4. apply bind_Some in H4 as (? & s5 & H5 & H4). injection H5 as _ <-.
    rewrite (enqueue_eq cfg (sc_next s) (j_ID j')) in H4 by (exists j'; done).
    injection H4 as H4. destruct (bool_decide _); [by injection H4 as _ <-|].
    destruct (_ <? _); by injection H4 as _ <-. }
  assert (sc_jobs s4 !! j_ID j = Some (sc_next s)) as Hreg.
  { rewrite F3, (kp_jobs _ _ K). apply lookup_insert_eq. }
  pose proof (inv_coh _ _ HI') as Hcoh. unfold coh in Hcoh. rewrite F1, Hst' in Hcoh.
  destruct (co_view _ _ _ Hcoh _ _ Hreg) as (j2 & Hj2' & Hv).
  destruct (history_replays st' (j_ID j) ctx n (jv_history _ _ _ Hv) (nj_id _ Hnew) Hctx')
    as [r Hrep].
  destruct (ReplayJobState_ok _ _ _ _ _ Hrep) as [Hok _].
  exists st', j', r. split_and!; [by rewrite F1|done|by rewrite F2|done|done| |].
  - rewrite (ro_state _ _ _ Hok). exact Hlast.
  - intros i k Hik. destruct (task_at_dims j j' i k Hd Hik) as [t Ht].
    destruct (Htasks i k t Ht) as (A1 & _ & A3). exists t. split_and!; [done|done|].
    by rewrite (replayed_task_exact st' (j_ID j) ctx n r (t_ID t) Hrep).
Qed.
End Submit.
