(* ===== verification/Graph.v ===== *)
(** * Workflow graphs (pkg/graph/graph.go, node.go, edge.go)

    A graph maps node ids to nodes and to lists of outgoing edges.  What the
    compiler looks at is modelled: the identity of nodes, the children of
    parallel nodes and the ends of edges; the behaviour of nodes and the
    conditions of edges are not looked at before execution. *)

From stdpp Require Import base gmap strings list fin_maps relations.
From S2P Require Import Prelude.

Open Scope Z_scope.

(** ** Nodes and edges *)

Record BaseNode := mkBase {
  bn_id : string;
  bn_name : string;
  bn_nodeType : string;
  bn_metadata : option (gmap string Value);
}.

(** [Leaf] stands for every node type but [ParallelNode]: function, agent,
    passthrough, loop, conditional. *)
Inductive Node :=
  | Leaf (base : BaseNode)
  | ParallelNode (base : BaseNode) (children : list Node).

Definition node_base (n : Node) : BaseNode :=
  match n with Leaf b => b | ParallelNode b _ => b end.
Definition node_ID (n : Node) : string := bn_id (node_base n).
Definition node_Name (n : Node) : string := bn_name (node_base n).
Definition node_Metadata (n : Node) : option (gmap string Value) := bn_metadata (node_base n).

Definition NewBaseNode (id nodeType : string) : BaseNode := mkBase id id nodeType (Some ∅).
Definition NewParallelNode (id : string) (children : list Node) : Node :=
  ParallelNode (NewBaseNode id "parallel") children.

Inductive GraphEdge :=
  | DirectEdge (from to : string)
  | ConditionalEdge (from to : string)
  | DynamicEdge (from : string).

Definition ge_From (e : GraphEdge) : string :=
  match e with DirectEdge f _ | ConditionalEdge f _ | DynamicEdge f => f end.
(** The target of a dynamic edge is chosen at run time; [ge_To] is empty. *)
Definition ge_To (e : GraphEdge) : string :=
  match e with DirectEdge _ t | ConditionalEdge _ t => t | DynamicEdge _ => "" end.

(** ** Graphs *)

Record Graph := mkGraph {
  g_id : string;
  g_name : string;
  g_nodes : gmap string Node;
  g_edges : gmap string (list GraphEdge);
  g_entryNode : string;
  g_finishNodes : list string;
  g_metadata : gmap string Value;
}.

Definition with_nodes (m : gmap string Node) (g : Graph) : Graph :=
  mkGraph (g_id g) (g_name g) m (g_edges g) (g_entryNode g) (g_finishNodes g) (g_metadata g).
Definition with_edges (m : gmap string (list GraphEdge)) (g : Graph) : Graph :=
  mkGraph (g_id g) (g_name g) (g_nodes g) m (g_entryNode g) (g_finishNodes g) (g_metadata g).
Definition with_entry (n : string) (g : Graph) : Graph :=
  mkGraph (g_id g) (g_name g) (g_nodes g) (g_edges g) n (g_finishNodes g) (g_metadata g).
Definition with_finish (l : list string) (g : Graph) : Graph :=
  mkGraph (g_id g) (g_name g) (g_nodes g) (g_edges g) (g_entryNode g) l (g_metadata g).
Definition with_metadata (m : gmap string Value) (g : Graph) : Graph :=
  mkGraph (g_id g) (g_name g) (g_nodes g) (g_edges g) (g_entryNode g) (g_finishNodes g) m.

(** The last argument is the uuid drawn when the configuration has no id. *)
Definition NewGraphWithConfig (id name : string) (metadata : option (gmap string Value))
    (uuid : string) : Graph :=
  mkGraph (if String.eqb id "" then uuid else id) name ∅ ∅ "" [] (default ∅ metadata).
Definition NewGraph (name uuid : string) : Graph := NewGraphWithConfig uuid name (Some ∅) uuid.

Definition AddNode (node : option Node) (g : Graph) : option error * Graph :=
  match node with
  | None => (Some (EText "cannot add nil node"), g)
  | Some n =>
      match g_nodes g !! node_ID n with
      | Some _ => (Some (EText ("node " +:+ node_ID n +:+ " already exists in graph")), g)
      | None => (None, with_nodes (<[node_ID n := n]> (g_nodes g)) g)
      end
  end.

Definition GetNode (nodeID : string) (g : Graph) : result Node :=
  match g_nodes g !! nodeID with
  | Some n => inr n
  | None => inl (EText ("node " +:+ nodeID +:+ " not found"))
  end.

Definition GetEdges (g : Graph) (fromID : string) : list GraphEdge :=
  default [] (g_edges g !! fromID).

Definition AddEdge (edge : option GraphEdge) (g : Graph) : option error * Graph :=
  match edge with
  | None => (Some (EText "cannot add nil edge"), g)
  | Some e =>
      if negb (bool_decide (is_Some (g_nodes g !! ge_From e))) then
        (Some (EText ("source node " +:+ ge_From e +:+ " not found")), g)
      else if negb (bool_decide (is_Some (g_nodes g !! ge_To e))) then
        (Some (EText ("target node " +:+ ge_To e +:+ " not found")), g)
      else (None, with_edges (<[ge_From e := GetEdges g (ge_From e) ++ [e]]> (g_edges g)) g)
  end.

Definition SetEntry (nodeID : string) (g : Graph) : option error * Graph :=
  match g_nodes g !! nodeID with
  | None => (Some (EText ("entry node " +:+ nodeID +:+ " not found")), g)
  | Some _ => (None, with_entry nodeID g)
  end.

Definition AddFinish (nodeID : string) (g : Graph) : option error * Graph :=
  match g_nodes g !! nodeID with
  | None => (Some (EText ("finish node " +:+ nodeID +:+ " not found")), g)
  | Some _ =>
      if bool_decide (nodeID ∈ g_finishNodes g) then (None, g)
      else (None, with_finish (g_finishNodes g ++ [nodeID]) g)
  end.

Definition NodeCount (g : Graph) : Z := Z.of_nat (size (g_nodes g)).

Definition SetMetadata (key : string) (value : Value) (g : Graph) : Graph :=
  with_metadata (<[key := value]> (g_metadata g)) g.

(** No node or edge type of the package can clone itself, so nodes and edges
    are shared with the clone; the argument is the uuid drawn for it. *)
Definition Clone (uuid : string) (g : Graph) : Graph :=
  mkGraph uuid (g_name g +:+ "-clone") (g_nodes g) (g_edges g) (g_entryNode g)
    (g_finishNodes g) (g_metadata g).

(** ** Validation *)

(** The loop over the edges of a node in [dfs]. *)
Fixpoint dfs_edges (dfs : string → gset string → bool * gset string) (edges : list GraphEdge)
    (visited : gset string) : bool * gset string :=
  match edges with
  | [] => (false, visited)
  | e :: edges' =>
      let '(found, visited') := dfs (ge_To e) visited in
      if found then (true, visited') else dfs_edges dfs edges' visited'
  end.

Fixpoint dfs (g : Graph) (fuel : nat) (nodeID : string) (visited : gset string)
    : bool * gset string :=
  match fuel with
  | O => (false, visited)
  | S fuel' =>
      if bool_decide (nodeID ∈ visited) then (false, visited)
      else
        let visited' := {[ nodeID ]} ∪ visited in
        if bool_decide (nodeID ∈ g_finishNodes g) then (true, visited')
        else dfs_edges (dfs g fuel') (GetEdges g nodeID) visited'
  end.

(** Every recursive call but the last visits a new id, and the ids there are to
    visit are the entry and the targets of edges. *)
Definition targets (g : Graph) : list string := ge_To <$> mjoin (map_values (g_edges g)).
Definition dfs_fuel (g : Graph) : nat := S (S (length (targets g))).

Definition canReachFinish (g : Graph) : bool :=
  (dfs g (dfs_fuel g) (g_entryNode g) ∅).1.

Fixpoint missing_finish (g : Graph) (finish : list string) : option string :=
  match finish with
  | [] => None
  | fn :: finish' =>
      match g_nodes g !! fn with None => Some fn | Some _ => missing_finish g finish' end
  end.

Definition ValidateGraph (g : Graph) : option error :=
  if bool_decide (g_nodes g = ∅) then Some (EText "graph has no nodes")
  else if String.eqb (g_entryNode g) "" then Some (EText "graph has no entry node")
  else if negb (bool_decide (is_Some (g_nodes g !! g_entryNode g))) then
    Some (EText ("entry node " +:+ g_entryNode g +:+ " does not exist"))
  else if bool_decide (g_finishNodes g = []) then Some (EText "graph has no finish nodes")
  else
    match missing_finish g (g_finishNodes g) with
    | Some fn => Some (EText ("finish node " +:+ fn +:+ " does not exist"))
    | None => if canReachFinish g then None
              else Some (EText "entry node cannot reach any finish node")
    end.

(** ** The relation a graph stands for *)

Definition edge (g : Graph) (u v : string) : Prop := ∃ e, e ∈ GetEdges g u ∧ ge_To e = v.

Lemma size_list_to_set_le (l : list string) : (size (list_to_set l : gset string) ≤ length l)%nat.
Proof.
  induction l as [|x l IH]; simpl; [by vm_compute|].
  rewrite size_union_alt, size_singleton.
  pose proof (subseteq_size (list_to_set l ∖ {[ x ]} : gset string) (list_to_set l)
    ltac:(set_solver)). lia.
Qed.

(** *** Depth-first search finds what can be reached *)

Section Dfs.
Context (g : Graph).

Definition universe : gset string := {[ g_entryNode g ]} ∪ list_to_set (targets g).

Lemma target_in_universe u e : e ∈ GetEdges g u → ge_To e ∈ universe.
Proof.
  intros He. apply elem_of_union_r, elem_of_list_to_set. unfold targets.
  apply list_elem_of_fmap. exists e. split; [done|]. unfold GetEdges in He.
  destruct (g_edges g !! u) as [es|] eqn:Hu; simpl in He; [|by apply elem_of_nil in He].
  apply list_elem_of_join. exists es. split; [done|]. apply elem_of_map_values. eauto.
Qed.

Lemma dfs_fuel_enough : (size universe < dfs_fuel g)%nat.
Proof.
  unfold dfs_fuel. apply Nat.lt_succ_r. unfold universe. rewrite size_union_alt, size_singleton.
  pose proof (subseteq_size (list_to_set (targets g) ∖ {[ g_entryNode g ]} : gset string)
    (list_to_set (targets g)) ltac:(set_solver)).
  pose proof (size_list_to_set_le (targets g)). lia.
Qed.

(** What a search that starts with [visited] ends with. *)
Record searched (x : string) (visited : gset string) (out : bool * gset string) : Prop := {
  se_grow : visited ⊆ out.2;
  se_in : out.2 ⊆ universe;
  se_self : x ∈ out.2;
  se_found : out.1 = true → ∃ f, f ∈ g_finishNodes g ∧ rtc (edge g) x f;
  se_closed : out.1 = false → ∀ y, y ∈ out.2 → y ∉ visited →
    y ∉ g_finishNodes g ∧ ∀ z, edge g y z → z ∈ out.2;
}.

Lemma dfs_edges_searched f x edges visited :
  (∀ e, e ∈ edges → e ∈ GetEdges g x) → visited ⊆ universe →
  (∀ e v, e ∈ edges → visited ⊆ v → v ⊆ universe → searched (ge_To e) v (f (ge_To e) v)) →
  let out := dfs_edges f edges visited in
  visited ⊆ out.2 ∧ out.2 ⊆ universe ∧
  (out.1 = true → ∃ f, f ∈ g_finishNodes g ∧ rtc (edge g) x f) ∧
  (out.1 = false → (∀ e, e ∈ edges → ge_To e ∈ out.2) ∧
    ∀ y, y ∈ out.2 → y ∉ visited → y ∉ g_finishNodes g ∧ ∀ z, edge g y z → z ∈ out.2).
Proof.
  revert visited. induction edges as [|e edges IH]; intros visited Hsub Hv Hf; simpl.
  { split_and!; [done|done|done|]. intros _. split; [set_solver|]. intros y H1 H2. done. }
  pose proof (Hf e visited ltac:(by left) ltac:(done) Hv) as [G U S F C].
  destruct (f (ge_To e) visited) as [b v1]; simpl in *. destruct b; simpl.
  { split_and!; [done|done| |done]. intros _. destruct (F eq_refl) as (fn & Hfn & Hr).
    exists fn. split; [done|]. eapply rtc_l; [|done]. exists e. split; [apply Hsub; by left|done]. }
  destruct (IH v1) as (G1 & U1 & F1 & C1); [by intros e' He'; apply Hsub; right|done| |].
  { intros e' v He' Hv' Hu. apply Hf; [by right|set_solver|done]. }
  split_and!; [set_solver|done|done|]. intros Hb. destruct (C1 Hb) as [T1 C2]. split.
  - intros e' [->|He']%elem_of_cons; [set_solver|auto].
  - intros y Hy Hnv. destruct (decide (y ∈ v1)) as [Hv1|Hv1]; [|auto].
    destruct (C eq_refl y Hv1 Hnv) as [Hfin Hcl]. split; [done|]. intros z Hz. set_solver.
Qed.

Lemma dfs_searched fuel x visited :
  x ∈ universe → visited ⊆ universe → (size (universe ∖ visited) < fuel)%nat →
  searched x visited (dfs g fuel x visited).
Proof.
  revert x visited. induction fuel as [|fuel IH]; intros x visited Hx Hv Hfuel; [lia|].
  simpl. destruct (bool_decide_reflect (x ∈ visited)) as [Hin|Hin].
  { split; [done|done|done|done|]. intros _ y Hy Hny. done. }
  destruct (bool_decide_reflect (x ∈ g_finishNodes g)) as [Hfin|Hfin].
  { split; simpl; [set_solver..| |done]. intros _. exists x. split; [done|apply rtc_refl]. }
  destruct (dfs_edges_searched (dfs g fuel) x (GetEdges g x) ({[ x ]} ∪ visited))
    as (G & U & F & C); [done|set_solver| |].
  { intros e v He Hsub Hvu. apply IH; [by eapply target_in_universe|done|].
    assert (size (universe ∖ v) < size (universe ∖ visited))%nat; [|lia].
    apply subset_size. split; [set_solver|]. intros Hs.
    assert (x ∈ universe ∖ v) as Hxv by (apply Hs; set_solver). set_solver. }
  split; [set_solver|done|set_solver|done|]. intros Hb y Hy Hny. destruct (C Hb) as [T C'].
  destruct (decide (y = x)) as [->|Hne]; [|apply C'; [done|set_solver]].
  split; [done|]. intros z (e & He & <-). auto.
Qed.

Lemma canReachFinish_spec :
  canReachFinish g = true ↔ ∃ f, f ∈ g_finishNodes g ∧ rtc (edge g) (g_entryNode g) f.
Proof.
  unfold canReachFinish.
  destruct (dfs_searched (dfs_fuel g) (g_entryNode g) ∅) as [_ _ S F C].
  { unfold universe. set_solver. }
  { set_solver. }
  { rewrite difference_empty_L. apply dfs_fuel_enough. }
  split; [exact F|]. intros (f & Hf & Hr). revert S C.
  destruct (dfs g (dfs_fuel g) (g_entryNode g) ∅) as [[] out]; simpl; [done|]. intros S C. exfalso.
  assert (f ∈ out) as Hin.
  { clear Hf F. induction Hr as [x|x y z Hxy _ IH]; [done|]. apply IH.
    apply (C eq_refl x); [done|set_solver|done]. }
  apply (C eq_refl f Hin); [set_solver|done].
Qed.
End Dfs.

Lemma missing_finish_None g l :
  missing_finish g l = None ↔ Forall (λ fn, is_Some (g_nodes g !! fn)) l.
Proof.
  induction l as [|fn l IH]; simpl; [by split; [constructor|]|].
  rewrite Forall_cons. destruct (g_nodes g !! fn).
  - rewrite IH. split; [by eauto|by intros [_ ?]].
  - split; [done|]. by intros [[? ?] _].
Qed.

(** A graph is valid exactly when it has nodes, its entry and all its finish
    nodes exist, there is a finish node, and some finish node can be reached
    from the entry along edges. *)
Theorem graph_validation g :
  ValidateGraph g = None ↔
  g_entryNode g ≠ "" ∧ is_Some (g_nodes g !! g_entryNode g) ∧
  Forall (λ fn, is_Some (g_nodes g !! fn)) (g_finishNodes g) ∧
  ∃ f, f ∈ g_finishNodes g ∧ rtc (edge g) (g_entryNode g) f.
Proof.
  unfold ValidateGraph. rewrite <-missing_finish_None, <-canReachFinish_spec.
  case_bool_decide as Hn; [|destruct (String.eqb_spec (g_entryNode g) "");
    [naive_solver|case_bool_decide; [|naive_solver]; simpl; case_bool_decide as Hf]].
  - rewrite Hn, lookup_empty. split; [done|]. by intros (_ & [? ?] & _).
  - split; [done|]. rewrite canReachFinish_spec, Hf. intros (_ & _ & _ & f & Hin & _).
    by apply elem_of_nil in Hin.
  - destruct (missing_finish _ _); [naive_solver|]. destruct (canReachFinish g); naive_solver.
Qed.

(** ** Graphs that can be built *)

(** Nodes are filed under their ids, edges under their sources, and the ends of
    every edge exist. *)
Record graph_wf (g : Graph) : Prop := {
  gw_nodes : ∀ id n, g_nodes g !! id = Some n → node_ID n = id;
  gw_edges : ∀ u e, e ∈ GetEdges g u →
    ge_From e = u ∧ is_Some (g_nodes g !! u) ∧ is_Some (g_nodes g !! ge_To e);
}.

(** The graphs the package's methods build. *)
Inductive built : Graph → Prop :=
  | built_new id name metadata uuid : built (NewGraphWithConfig id name metadata uuid)
  | built_node node g : built g → built (AddNode node g).2
  | built_edge e g : built g → built (AddEdge e g).2
  | built_entry id g : built g → built (SetEntry id g).2
  | built_finish id g : built g → built (AddFinish id g).2
  | built_metadata k v g : built g → built (SetMetadata k v g)
  | built_clone uuid g : built g → built (Clone uuid g).

Lemma AddNode_wf node g : graph_wf g → graph_wf (AddNode node g).2.
Proof.
  intros [H1 H2]. destruct node as [n|]; [|done]. simpl.
  destruct (g_nodes g !! node_ID n) eqn:Hn; [done|]. split; simpl.
  - intros id m [[<- <-]|[_ ?]]%lookup_insert_Some; eauto.
  - intros u e He. destruct (H2 u e He) as (F & U & T). split; [done|].
    rewrite !lookup_insert_is_Some'. auto.
Qed.

Lemma AddEdge_wf edge g : graph_wf g → graph_wf (AddEdge edge g).2.
Proof.
  intros [H1 H2]. destruct edge as [e|]; [|done]. simpl.
  case_bool_decide as Hf; simpl; [|done]. case_bool_decide as Ht; simpl; [|done].
  split; simpl; [done|]. intros u e'. unfold GetEdges at 1. simpl.
  destruct (decide (ge_From e = u)) as [<-|Hne].
  - rewrite lookup_insert_eq. simpl. rewrite elem_of_app, list_elem_of_singleton.
    intros [He'| ->]; [by apply H2|done].
  - rewrite lookup_insert_ne by done. apply H2.
Qed.

Lemma built_wf g : built g → graph_wf g.
Proof.
  induction 1 as [id name md uuid|node g _ IH|e g _ IH|id g _ IH|id g _ IH|k v g _ IH|uuid g _ IH].
  - split; simpl; [done|]. intros u e He. by apply elem_of_nil in He.
  - by apply AddNode_wf.
  - by apply AddEdge_wf.
  - unfold SetEntry. destruct (g_nodes g !! id); [|done]. by destruct IH.
  - unfold AddFinish. destruct (g_nodes g !! id); [|done]. by case_bool_decide; destruct IH.
  - by destruct IH.
  - by destruct IH.
Qed.
