(* ===== verification/Compiler.v ===== *)
(** * The graph compiler (pkg/graph/compiler.go)

    [CompileWithOptions] turns a graph into a job: Kahn's algorithm sorts the
    nodes into levels, each level becomes a stage.  Two things are parameters:
    the uuid package ([uuid n] is the [n]-th id drawn) and the order in which Go
    iterates over a map ([range site l] is the order a loop takes over the
    entries [l]). *)

From stdpp Require Import base gmap strings list fin_maps relations pretty.
From S2P Require Import Prelude StateMachine Store Replay Jobs Graph.

Open Scope Z_scope.

(** The loops over maps. *)
Inductive Site :=
  | SAllNodes | SInDegree | SJobEdges
  | SPredecessors (nodeID : string) | SDependencies (level : nat).

Class MapOrder := {
  range : Site → ∀ {A}, list A → list A;
  range_perm : ∀ site A (l : list A), range site l ≡ₚ l;
}.

Section Compiler.
Context `{!MapOrder} (uuid : nat → string).

Definition AllNodes (g : Graph) : list Node := range SAllNodes (map_values (g_nodes g)).

(** ** Kahn's algorithm *)

(** [inDegree[to]++] and [inDegree[to]--]; a missing key reads as zero. *)
Definition add_degree (d : Z) (m : gmap string Z) (to : string) : gmap string Z :=
  <[to := map_get 0 m to + d]> m.

Definition inDegrees (g : Graph) (allNodes : list Node) : gmap string Z :=
  let m := foldl (λ m node, <[node_ID node := 0]> m) ∅ allNodes in
  foldl (λ m node, foldl (λ m e, add_degree 1 m (ge_To e)) m (GetEdges g (node_ID node))) m allNodes.

(** One edge out of the current level. *)
Definition relax (st : gmap string Z * list string) (e : GraphEdge)
    : gmap string Z * list string :=
  let '(m, nextLevel) := st in
  let m' := add_degree (-1) m (ge_To e) in
  (m', if map_get 0 m' (ge_To e) =? 0 then nextLevel ++ [ge_To e] else nextLevel).

Definition process_level (g : Graph) (level : list string) (m : gmap string Z)
    : gmap string Z * list string :=
  foldl (λ st nodeID, foldl relax st (GetEdges g nodeID)) (m, []) level.

(** The loop over the levels; [None] when [fuel] does not suffice. *)
Fixpoint kahn (g : Graph) (fuel : nat) (currentLevel : list string) (m : gmap string Z)
    (sortedLevels : list (list string)) (processedCount : Z)
    : option (list (list string) * Z) :=
  match currentLevel with
  | [] => Some (sortedLevels, processedCount)
  | _ =>
      match fuel with
      | O => None
      | S fuel' =>
          let '(m', nextLevel) := process_level g currentLevel m in
          kahn g fuel' nextLevel m' (sortedLevels ++ [currentLevel])
            (processedCount + Z.of_nat (length currentLevel))
      end
  end.

Definition topologicalSort (g : Graph) : option (result (list (list string))) :=
  let allNodes := AllNodes g in
  let inDegree := inDegrees g allNodes in
  let currentLevel :=
    (filter (λ kv, kv.2 = 0) (range SInDegree (map_to_list inDegree))).*1 in
  if bool_decide (currentLevel = []) && (0 <? Z.of_nat (length allNodes)) then
    Some (inl (EText "cycle detected: no nodes with zero in-degree"))
  else
    '(sortedLevels, processedCount) ← kahn g (S (length allNodes)) currentLevel inDegree [] 0;
    if negb (processedCount =? Z.of_nat (length allNodes)) then
      Some (inl (EText ("cycle detected: processed " +:+ pretty processedCount +:+
        " nodes but graph has " +:+ pretty (Z.of_nat (length allNodes)) +:+ " nodes")))
    else Some (inr sortedLevels).

(** ** Stages *)

(** [flattenParallelNode]; it never returns an error. *)
Fixpoint flattenParallelNode (pn : Node) : list Node :=
  match pn with
  | Leaf _ => []
  | ParallelNode _ children =>
      concat (map (λ child, match child with
                            | ParallelNode _ _ => flattenParallelNode child
                            | Leaf _ => [child]
                            end) children)
  end.

(** The executable nodes of a node. *)
Definition flatten_node (n : Node) : list Node :=
  match n with ParallelNode _ _ => flattenParallelNode n | Leaf _ => [n] end.

Fixpoint flattenLevel (g : Graph) (nodeIDs : list string) : result (list Node) :=
  match nodeIDs with
  | [] => inr []
  | nodeID :: nodeIDs' =>
      match GetNode nodeID g with
      | inl err => inl (EWrap ("node " +:+ nodeID +:+ " not found: ") err "")
      | inr node =>
          match flattenLevel g nodeIDs' with
          | inl err => inl err
          | inr rest => inr (flatten_node node ++ rest)
          end
      end
  end.

Definition findPredecessors (g : Graph) (nodeID : string) : list string :=
  range (SPredecessors nodeID) (map_to_list (g_edges g)) ≫= λ '(fromID, edges),
    (λ _, fromID) <$> filter (λ e, ge_To e = nodeID) edges.

Definition computeStageDependencies (g : Graph) (levelIdx : nat) (level : list string)
    (nodeToStage : gmap string Stage) (previousStage : option Stage) : list string :=
  let depSet : gset string := list_to_set (level ≫= λ nodeID,
    findPredecessors g nodeID ≫= λ predID,
      match nodeToStage !! predID with Some stage => [s_ID stage] | None => [] end) in
  let deps := range (SDependencies levelIdx) (elements depSet) in
  match deps, previousStage with
  | [], Some stage => [s_ID stage]
  | _, _ => deps
  end.

(** [uuid.New().String()] *)
Definition fresh_id : ST nat string := λ n, (uuid n, S n).

Definition partition_key (node : Node) (sessionID : string) : string :=
  if negb (String.eqb sessionID "") then sessionID
  else match node_Metadata node with
       | Some meta => match meta !! "partition" with Some (VString p) => p | _ => "" end
       | None => ""
       end.

Definition createTask (node : Node) (stageID jobID : string) (input : option AgentInput)
    (sessionID : string) : ST nat Task :=
  id ← fresh_id;
  mret (mkTask id stageID jobID (node_ID node) (node_Name node) input None
          (partition_key node sessionID) JobPending "" 0).

Fixpoint createTasks (nodes : list Node) (stageID jobID : string) (input : option AgentInput)
    (sessionID : string) : ST nat (list Task) :=
  match nodes with
  | [] => mret []
  | node :: nodes' =>
      task ← createTask node stageID jobID input sessionID;
      tasks ← createTasks nodes' stageID jobID input sessionID;
      mret (task :: tasks)
  end.

Fixpoint buildStages (g : Graph) (input : option AgentInput) (sessionID : string)
    (levelIdx : nat) (levels : list (list string)) (nodeToStage : gmap string Stage)
    (previousStage : option Stage) (job : Job) : ST nat (result Job) :=
  match levels with
  | [] => mret (inr job)
  | level :: levels' =>
      match flattenLevel g level with
      | inl err => mret (inl (EWrap ("failed to flatten level " +:+ pretty levelIdx +:+ ": ") err ""))
      | inr [] => buildStages g input sessionID (S levelIdx) levels' nodeToStage previousStage job
      | inr flattenedNodes =>
          stageID ← fresh_id;
          let deps := computeStageDependencies g levelIdx level nodeToStage previousStage in
          tasks ← createTasks flattenedNodes stageID (j_ID job) input sessionID;
          let stage := mkStage stageID (j_ID job) (Some <$> tasks) deps JobPending in
          let nodeToStage' := foldl (λ m nodeID, <[nodeID := stage]> m) nodeToStage level in
          buildStages g input sessionID (S levelIdx) levels' nodeToStage' (Some stage)
            (AddStage job (Some stage))
      end
  end.

(** ** Compilation *)

Definition job_edges (g : Graph) : list Edge :=
  range SJobEdges (map_to_list (g_edges g)) ≫= λ '(fromID, edgeList),
    (λ e, mkEdge fromID (ge_To e)) <$> edgeList.

Definition with_job_edges (edges : list Edge) (j : Job) : Job :=
  mkJob (j_ID j) (j_Name j) (j_Stages j) (j_Edges j ++ edges) (j_Status j)
    (j_LifecycleState j) (j_CreatedAt j) (j_UpdatedAt j) (j_Metadata j).

(** [None] when the loop of [topologicalSort] does not end in time, which
    [compile_outcome] excludes; [now1] and [now2] are the clock readings of
    [NewJob], the state is the number of uuids drawn. *)
Definition CompileWithOptions (g : Graph) (input : option AgentInput) (sessionID : string)
    (now1 now2 : Time) : nat → option (result Job * nat) := λ n,
  match ValidateGraph g with
  | Some err => Some (inl (EWrap "invalid graph: " err ""), n)
  | None =>
      let '(jobID, n) := fresh_id n in
      let job := NewJob jobID (g_name g) now1 now2 in
      match topologicalSort g with
      | None => None
      | Some (inl err) => Some (inl (EWrap "topological sort failed: " err ""), n)
      | Some (inr sortedLevels) =>
          match buildStages g input sessionID 0 sortedLevels ∅ None job n with
          | (inl err, n) => Some (inl (EWrap "stage building failed: " err ""), n)
          | (inr job, n) => Some (inr (with_job_edges (job_edges g) job), n)
          end
      end
  end.

Definition Compile (g : Graph) (input : option AgentInput) := CompileWithOptions g input "".
End Compiler.
