(* ===== verification/Toposort.v ===== *)
(** * Kahn's algorithm sorts graphs

    [topologicalSort] ends on every graph that can be built; on success its
    levels hold each node once, every edge leads to a later level, and every
    node of a later level has a predecessor in the level before; it fails
    exactly on the graphs with a cycle. *)

From stdpp Require Import base gmap strings list fin_maps relations pretty.
From S2P Require Import Prelude Graph Compiler.

Open Scope Z_scope.

(** ** Counting edges *)

(** Edges of [es] to [v], and edges out of [us]. *)
Definition edges_to (es : list GraphEdge) (v : string) : nat :=
  length (filter (λ e, ge_To e = v) es).
Definition outs (g : Graph) (us : list string) : list GraphEdge := us ≫= GetEdges g.
Definition degree (g : Graph) (us : list string) (v : string) : nat := edges_to (outs g us) v.

Lemma edges_to_cons e es v :
  edges_to (e :: es) v = ((if decide (ge_To e = v) then 1 else 0) + edges_to es v)%nat.
Proof. unfold edges_to. rewrite filter_cons. by destruct (decide _). Qed.
Lemma edges_to_app es es' v : edges_to (es ++ es') v = (edges_to es v + edges_to es' v)%nat.
Proof. unfold edges_to. by rewrite filter_app, length_app. Qed.
Lemma degree_app g us us' v : degree g (us ++ us') v = (degree g us v + degree g us' v)%nat.
Proof. unfold degree, outs. by rewrite bind_app, edges_to_app. Qed.
#[export] Instance degree_perm g : Proper ((≡ₚ) ==> (=) ==> (=)) (degree g).
Proof. intros l l' Hl v ? <-. unfold degree, outs, edges_to. by rewrite Hl. Qed.

Lemma degree_pos g us v : (0 < degree g us v)%nat ↔ ∃ u, u ∈ us ∧ edge g u v.
Proof.
  unfold degree, edges_to, outs. split.
  - destruct (filter _ _) as [|e es] eqn:He; simpl; [lia|]. intros _.
    assert (e ∈ filter (λ e, ge_To e = v) (us ≫= GetEdges g)) as Hin by (rewrite He; left).
    apply list_elem_of_filter in Hin as [Hv (u & Hu & Hin)%list_elem_of_bind].
    exists u. split; [done|]. by exists e.
  - intros (u & Hu & e & He & Hv).
    assert (e ∈ filter (λ e, ge_To e = v) (us ≫= GetEdges g)) as Hin.
    { apply list_elem_of_filter. split; [done|]. apply list_elem_of_bind. eauto. }
    destruct (filter _ _); [by apply elem_of_nil in Hin|simpl; lia].
Qed.

Lemma degree_zero g us v u : degree g us v = 0%nat → u ∈ us → ¬ edge g u v.
Proof.
  intros Hz Hu He. assert (0 < degree g us v)%nat; [|lia]. apply degree_pos. eauto.
Qed.

(** ** One level *)

Section Kahn.
Context `{!MapOrder} (g : Graph) (Hwf : graph_wf g).
Implicit Types m : gmap string Z.

Lemma add_degree_get d m to v :
  map_get 0 (add_degree d m to) v = map_get 0 m v + (if decide (to = v) then d else 0).
Proof.
  unfold add_degree, map_get at 1. destruct (decide (to = v)) as [<-|Hne].
  - by rewrite lookup_insert_eq.
  - rewrite lookup_insert_ne by done. unfold map_get. lia.
Qed.

(** Processing edges takes them off the degrees and lists the nodes whose last
    edge was taken off. *)
Lemma relax_fold es m next (base : string → nat) :
  (∀ v, map_get 0 m v = Z.of_nat (edges_to es v + base v)) →
  ∃ m' added, foldl relax (m, next) es = (m', next ++ added) ∧
    (∀ v, map_get 0 m' v = Z.of_nat (base v)) ∧ NoDup added ∧
    ∀ v, v ∈ added ↔ (0 < edges_to es v)%nat ∧ base v = 0%nat.
Proof.
  revert m next. induction es as [|e es IH]; intros m next Hm.
  { exists m, []. rewrite app_nil_r. split_and!; [done|done|constructor|].
    intros v. unfold edges_to. simpl. set_solver by lia. }
  simpl. set (m1 := add_degree (-1) m (ge_To e)).
  assert (∀ v, map_get 0 m1 v = Z.of_nat (edges_to es v + base v)) as Hm1.
  { intros v. subst m1. rewrite add_degree_get, Hm, edges_to_cons. destruct (decide _); lia. }
  rewrite (Hm1 (ge_To e)). destruct (Z.eqb_spec (Z.of_nat (edges_to es (ge_To e) + base (ge_To e))) 0) as [Hz|Hz].
  - destruct (IH m1 (next ++ [ge_To e]) Hm1) as (m' & added & Hf & Hm' & Hnd & Hin).
    exists m', (ge_To e :: added). rewrite Hf, <-app_assoc. split_and!; [done|done| |].
    + constructor; [|done]. rewrite Hin. lia.
    + intros v. rewrite elem_of_cons, Hin, edges_to_cons. destruct (decide (ge_To e = v)) as [<-|].
      { split; [intros _; lia|intros _; by left]. }
      split; [intros [->|?]; [done|lia]|intros ?; right; lia].
  - destruct (IH m1 next Hm1) as (m' & added & Hf & Hm' & Hnd & Hin).
    exists m', added. split_and!; [done|done|done|].
    intros v. rewrite Hin, edges_to_cons. destruct (decide (ge_To e = v)) as [<-|]; lia.
Qed.

Lemma process_level_flat level m : process_level g level m = foldl relax (m, []) (outs g level).
Proof.
  unfold process_level. generalize (m, @nil string) as st.
  induction level as [|u level IH]; intros st; simpl; [done|].
  by rewrite IH, foldl_app.
Qed.

(** ** The loop over the levels *)

Definition node_ids : list string := node_ID <$> AllNodes g.

(** [todo] lists the nodes after the current level: the degrees count the edges
    from unprocessed nodes, and are zero for the nodes up to the current level
    only. *)
Record kahn_inv (done level todo : list string) m : Prop := {
  ki_nodes : node_ids ≡ₚ done ++ level ++ todo;
  ki_degree : ∀ v, map_get 0 m v = Z.of_nat (degree g (level ++ todo) v);
  ki_zero : ∀ v, v ∈ done ++ level → degree g (level ++ todo) v = 0%nat;
  ki_pos : ∀ v, v ∈ todo → (0 < degree g (level ++ todo) v)%nat;
}.

Lemma node_ids_spec v : v ∈ node_ids ↔ is_Some (g_nodes g !! v).
Proof.
  unfold node_ids, AllNodes. rewrite range_perm, list_elem_of_fmap. split.
  - intros (n & -> & [k Hk]%elem_of_map_values). rewrite (gw_nodes g Hwf k n Hk). eauto.
  - intros [n Hn]. exists n. split; [by rewrite (gw_nodes g Hwf v n Hn)|].
    apply elem_of_map_values. eauto.
Qed.

Lemma edge_node u v : edge g u v → u ∈ node_ids ∧ v ∈ node_ids.
Proof.
  intros (e & He & <-). rewrite !node_ids_spec. by destruct (gw_edges g Hwf u e He) as (_ & ? & ?).
Qed.

Lemma kahn_step done level todo m :
  NoDup node_ids → kahn_inv done level todo m →
  ∃ m' next todo', process_level g level m = (m', next) ∧ todo ≡ₚ next ++ todo' ∧
    kahn_inv (done ++ level) next todo' m' ∧
    ∀ v, v ∈ next → ∃ u, u ∈ level ∧ edge g u v.
Proof.
  intros Hnd [K1 K2 K3 K4].
  destruct (relax_fold (outs g level) m [] (degree g todo)) as (m' & next & Hf & Hm' & Hnn & Hin).
  { intros v. by rewrite K2, degree_app. }
  assert (∀ v, v ∈ next → v ∈ todo) as Hsub.
  { intros v [Hv Hz]%Hin. pose proof (proj1 (degree_pos g level v) Hv) as (u & Hu & He).
    destruct (edge_node u v He) as [_ Hvn]. rewrite K1, app_assoc in Hvn.
    apply elem_of_app in Hvn as [Hvn|]; [|done]. apply K3 in Hvn. rewrite degree_app in Hvn.
    unfold degree in Hvn at 1. lia. }
  destruct (submseteq_Permutation next todo) as [todo' Htodo]; [by apply NoDup_submseteq|].
  exists m', next, todo'. rewrite process_level_flat. split_and!; [done|done| |].
  - split.
    + rewrite K1, Htodo. by rewrite <-app_assoc.
    + intros v. by rewrite Hm', Htodo.
    + intros v. rewrite <-Htodo. intros [Hv|Hv]%elem_of_app; [|by apply Hin in Hv as [_ ?]].
      apply K3 in Hv. rewrite degree_app in Hv. lia.
    + intros v Hv. rewrite <-Htodo. destruct (degree g todo v) eqn:Hz; [|lia]. exfalso.
      assert (v ∈ next) as Hn.
      { apply Hin. split; [|done]. change (0 < degree g level v)%nat.
        assert (v ∈ todo) as Ht by (rewrite Htodo; apply elem_of_app; by right).
        apply K4 in Ht. rewrite degree_app in Ht. lia. }
      rewrite K1, Htodo, !NoDup_app in Hnd. set_solver.
  - intros v [Hv _]%Hin. by apply degree_pos.
Qed.

(** The levels [ls], after the nodes [done]. *)
Record layered (done : list string) (ls : list (list string)) : Prop := {
  ly_order : ∀ i L u v, ls !! i = Some L → v ∈ L → edge g u v →
    u ∈ done ∨ ∃ k L', (k < i)%nat ∧ ls !! k = Some L' ∧ u ∈ L';
  ly_tight : ∀ i L v, ls !! S i = Some L → v ∈ L →
    ∃ L' u, ls !! i = Some L' ∧ u ∈ L' ∧ edge g u v;
  ly_nonempty : Forall (λ L, L ≠ []) ls;
}.

Lemma layered_cons done level ls :
  level ≠ [] → (∀ u v, v ∈ level → edge g u v → u ∈ done) →
  (∀ L v, ls !! 0%nat = Some L → v ∈ L → ∃ u, u ∈ level ∧ edge g u v) →
  layered (done ++ level) ls → layered done (level :: ls).
Proof.
  intros Hne Hlev Hnext [O T N]. split.
  - intros [|i] L u v Hi Hv He; simpl in Hi.
    + injection Hi as <-. left. eauto.
    + destruct (O i L u v Hi Hv He) as [[?|?]%elem_of_app|(k & L' & Hk & Hl & Hu)].
      * by left.
      * right. exists 0%nat, level. split_and!; [lia|done|done].
      * right. exists (S k), L'. split_and!; [lia|done|done].
  - intros [|i] L v Hi Hv; simpl in Hi.
    + destruct (Hnext L v Hi Hv) as (u & Hu & He). by exists level, u.
    + destruct (T i L v Hi Hv) as (L' & u & ? & ? & ?). by exists L', u.
  - by constructor.
Qed.

Lemma kahn_run fuel done level todo m acc p :
  NoDup node_ids → kahn_inv done level todo m → (level ≠ [] → (length todo < fuel)%nat) →
  ∃ ls rest, kahn g fuel level m acc p = Some (acc ++ ls, p + Z.of_nat (length (mjoin ls))) ∧
    level ++ todo ≡ₚ mjoin ls ++ rest ∧
    (∀ v, v ∈ rest → ∃ u, u ∈ rest ∧ edge g u v) ∧
    layered done ls ∧ (level = [] ∧ ls = [] ∨ ls !! 0%nat = Some level).
Proof.
  intros Hnd. revert done level todo m acc p.
  induction fuel as [|fuel IH]; intros done level todo m acc p Hinv Hfuel.
  all: destruct level as [|x level].
  1, 3: exists [], todo; simpl; rewrite app_nil_r, Z.add_0_r;
    split_and!; [done|done| |split; done|by left]; intros v Hv;
    apply degree_pos; apply Hinv, Hv.
  { specialize (Hfuel ltac:(done)). lia. }
  specialize (Hfuel ltac:(done)). remember (x :: level) as lev eqn:Hlev.
  destruct (kahn_step done lev todo m Hnd Hinv) as (m' & next & todo' & Hp & Ht & Hinv' & Hpre).
  destruct (IH (done ++ lev) next todo' m' (acc ++ [lev]) (p + Z.of_nat (length lev)) Hinv')
    as (ls & rest & Hk & Hperm & Hrest & Hlay & Hhead).
  { intros Hne. rewrite Ht, length_app in Hfuel. destruct next; [done|]. simpl in Hfuel. lia. }
  exists (lev :: ls), rest. split_and!.
  - subst lev. cbn [kahn]. rewrite Hp, Hk, <-app_assoc. do 2 f_equal.
    change (mjoin ((x :: level) :: ls)) with ((x :: level) ++ mjoin ls). rewrite length_app. lia.
  - rewrite Ht, Hperm. simpl. by rewrite app_assoc.
  - done.
  - apply layered_cons; [by subst| | |done].
    + intros u v Hv He. destruct (edge_node u v He) as [Hu _].
      rewrite (ki_nodes _ _ _ _ Hinv) in Hu. apply elem_of_app in Hu as [|Hu]; [done|].
      exfalso. eapply degree_zero; [|exact Hu|exact He].
      apply Hinv, elem_of_app. by right.
    + intros L v HL Hv. apply Hpre. destruct Hhead as [[-> ->]|Hh]; [done|].
      rewrite HL in Hh. by injection Hh as <-.
  - by right.
Qed.

(** ** The start of the loop *)

Lemma node_ids_NoDup : NoDup node_ids.
Proof.
  unfold node_ids, AllNodes. rewrite range_perm. unfold map_values.
  rewrite <-list_fmap_compose.
  replace ((node_ID ∘ snd) <$> map_to_list (g_nodes g)) with (fst <$> map_to_list (g_nodes g));
    [apply NoDup_fst_map_to_list|].
  apply list_fmap_ext. intros i [k n] Hi. simpl. symmetry. apply (gw_nodes g Hwf).
  apply elem_of_map_to_list. by eapply list_elem_of_lookup_2.
Qed.

Lemma zero_degrees ids m :
  foldl (λ m node, <[node_ID node := 0]> m) m ids =
  foldl (λ m id, <[id := 0]> m) m (node_ID <$> ids).
Proof. revert m. induction ids; intros m; simpl; auto. Qed.

Lemma zero_map_get ids m : (∀ v, map_get 0 m v = 0) → ∀ v, map_get 0 (foldl (λ m id, <[id := 0]> m) m ids) v = 0.
Proof.
  revert m. induction ids as [|id ids IH]; intros m Hm v; simpl; [done|]. apply IH. intros w.
  unfold map_get. destruct (decide (id = w)) as [<-|]; [by rewrite lookup_insert_eq|].
  rewrite lookup_insert_ne by done. apply Hm.
Qed.
Lemma zero_map_dom ids m v :
  is_Some (foldl (λ m id, <[id := 0]> m) m ids !! v) ↔ v ∈ ids ∨ is_Some (m !! v).
Proof.
  revert m. induction ids as [|id ids IH]; intros m; simpl; [set_solver|].
  rewrite IH, lookup_insert_is_Some', elem_of_cons. naive_solver.
Qed.

Lemma count_fold es m :
  let m' := foldl (λ m e, add_degree 1 m (ge_To e)) m es in
  (∀ v, map_get 0 m' v = map_get 0 m v + Z.of_nat (edges_to es v)) ∧
  ∀ v, is_Some (m' !! v) ↔ is_Some (m !! v) ∨ (0 < edges_to es v)%nat.
Proof.
  revert m. induction es as [|e es IH]; intros m; simpl.
  { split; intros v; unfold edges_to; simpl; [lia|]. split; [by left|intros [?|?]; [done|lia]]. }
  destruct (IH (add_degree 1 m (ge_To e))) as [H1 H2]. split; intros v.
  - rewrite H1, add_degree_get, edges_to_cons. destruct (decide _); lia.
  - rewrite H2, edges_to_cons. unfold add_degree. rewrite lookup_insert_is_Some'.
    destruct (decide (ge_To e = v)); [|naive_solver lia].
    split; [intros _; right; lia|intros _; by left; left].
Qed.

Lemma inDegrees_spec :
  (∀ v, map_get 0 (inDegrees g (AllNodes g)) v = Z.of_nat (degree g node_ids v)) ∧
  ∀ v, is_Some (inDegrees g (AllNodes g) !! v) ↔ v ∈ node_ids.
Proof.
  unfold inDegrees. rewrite zero_degrees. fold node_ids.
  set (m := foldl (λ m id, <[id := 0]> m) ∅ node_ids).
  assert (∀ l m, foldl (λ m node, foldl (λ m e, add_degree 1 m (ge_To e)) m (GetEdges g (node_ID node))) m l
    = foldl (λ m e, add_degree 1 m (ge_To e)) m (outs g (node_ID <$> l))) as Hflat.
  { induction l as [|n l IH]; intros m0; simpl; [done|]. by rewrite IH, foldl_app. }
  rewrite Hflat. fold node_ids. destruct (count_fold (outs g node_ids) m) as [H1 H2].
  split; intros v.
  - rewrite H1. unfold m. rewrite zero_map_get; [done|]. intros w. unfold map_get.
    by rewrite lookup_empty.
  - rewrite H2. unfold m. rewrite zero_map_dom, lookup_empty.
    change (edges_to (outs g node_ids) v) with (degree g node_ids v). rewrite degree_pos.
    split; [intros [[?|[? ?]]|(u & _ & He)]; [done|done|by apply edge_node in He as [_ ?]]|by auto].
Qed.

Definition first_level : list string :=
  (filter (λ kv, kv.2 = 0) (range SInDegree (map_to_list (inDegrees g (AllNodes g))))).*1.

Lemma first_level_spec v : v ∈ first_level ↔ v ∈ node_ids ∧ degree g node_ids v = 0%nat.
Proof.
  destruct inDegrees_spec as [Hd Hk]. unfold first_level. rewrite range_perm.
  rewrite list_elem_of_fmap. rewrite <-Hk. specialize (Hd v). split.
  - intros ([k z] & -> & [Hz Hin]%list_elem_of_filter). simpl in *. apply elem_of_map_to_list in Hin.
    unfold map_get in Hd. rewrite Hin in Hd |- *. simpl in Hd. split; [by eexists|lia].
  - intros [[z Hz] H0]. exists (v, z). split; [done|]. apply list_elem_of_filter.
    unfold map_get in Hd. rewrite Hz in Hd. simpl in *. split; [lia|]. by apply elem_of_map_to_list.
Qed.

Lemma first_level_NoDup : NoDup first_level.
Proof.
  unfold first_level. rewrite range_perm.
  eapply sublist_NoDup; [apply (NoDup_fst_map_to_list (inDegrees g (AllNodes g)))|].
  apply fmap_sublist, sublist_filter.
Qed.

Lemma kahn_start : ∃ todo, kahn_inv [] first_level todo (inDegrees g (AllNodes g)).
Proof.
  destruct (submseteq_Permutation first_level node_ids) as [todo Hp].
  { apply NoDup_submseteq; [apply first_level_NoDup|]. by intros v [? _]%first_level_spec. }
  exists todo. destruct inDegrees_spec as [Hd _]. split; simpl.
  - done.
  - intros v. by rewrite <-Hp.
  - intros v Hv. rewrite <-Hp. by apply first_level_spec in Hv as [_ ?].
  - intros v Hv. rewrite <-Hp. destruct (degree g node_ids v) eqn:Hz; [exfalso|lia].
    assert (v ∈ first_level) as Hf.
    { apply first_level_spec. split; [|done]. rewrite Hp. apply elem_of_app. by right. }
    pose proof node_ids_NoDup as Hnd. rewrite Hp, NoDup_app in Hnd. by apply Hnd in Hf.
Qed.

(** ** Cycles *)

(** A path backwards through [X]: each element has an edge to the one before. *)
Fixpoint back_path (X : list string) (x : string) (l : list string) : Prop :=
  match l with
  | [] => True
  | y :: l' => y ∈ X ∧ edge g y x ∧ back_path X y l'
  end.

Lemma back_path_tc X x l y : back_path X x l → y ∈ l → tc (edge g) y x.
Proof.
  revert x. induction l as [|z l IH]; intros x; [by intros _ ?%elem_of_nil|].
  simpl. intros (_ & He & Hl) [->|Hy]%elem_of_cons; [by apply tc_once|].
  eapply tc_r; [by apply IH|done].
Qed.

Lemma back_path_dup X x l : back_path X x l → ¬ NoDup l → ∃ y, tc (edge g) y y.
Proof.
  revert x. induction l as [|z l IH]; intros x; [intros _ []; constructor|].
  simpl. intros (_ & He & Hl) Hnd. destruct (decide (z ∈ l)) as [Hz|Hz].
  - exists z. by eapply back_path_tc.
  - eapply IH; [exact Hl|]. intros Hl1. apply Hnd. by constructor.
Qed.

Lemma back_path_exists X n x :
  (∀ v, v ∈ X → ∃ u, u ∈ X ∧ edge g u v) → x ∈ X →
  ∃ l, length l = n ∧ back_path X x l ∧ (∀ y, y ∈ l → y ∈ X).
Proof.
  intros Hpred. revert x. induction n as [|n IH]; intros x Hx.
  { exists []. split_and!; [done|done|set_solver]. }
  destruct (Hpred x Hx) as (u & Hu & He). destruct (IH u Hu) as (l & Hlen & Hl & Hin).
  exists (u :: l). split_and!; [simpl; lia|done|set_solver].
Qed.

Lemma predecessors_cycle X :
  X ≠ [] → (∀ v, v ∈ X → ∃ u, u ∈ X ∧ edge g u v) → ∃ y, tc (edge g) y y.
Proof.
  intros Hne Hpred. destruct X as [|x X']; [done|]. set (X := x :: X') in *.
  destruct (back_path_exists X (S (length X)) x Hpred) as (l & Hlen & Hl & Hin); [by left|].
  eapply back_path_dup; [exact Hl|]. intros Hnd.
  pose proof (submseteq_length l X (NoDup_submseteq l X Hnd Hin)). lia.
Qed.

(** Sorted levels leave no room for a cycle. *)
Lemma layered_acyclic ls :
  layered [] ls → NoDup (mjoin ls) → (∀ v, v ∈ node_ids → v ∈ mjoin ls) →
  ∀ x, ¬ tc (edge g) x x.
Proof.
  intros Hl Hnd Hall.
  assert (∀ x y, tc (edge g) x y → ∀ j L, ls !! j = Some L → y ∈ L →
    ∃ i L', (i < j)%nat ∧ ls !! i = Some L' ∧ x ∈ L') as Hlt.
  { intros x y Hxy. induction Hxy as [x y He|x y z He _ IH]; intros j L Hj Hy.
    - by destruct (ly_order _ _ Hl j L x y Hj Hy He) as [?%elem_of_nil|].
    - destruct (IH j L Hj Hy) as (i & L' & Hi & HL' & Hin).
      destruct (ly_order _ _ Hl i L' x y HL' Hin He) as [?%elem_of_nil|(k & L2 & ? & ? & ?)]; [done|].
      exists k, L2. split_and!; [lia|done|done]. }
  intros x Hx. assert (x ∈ mjoin ls) as (L & HxL & [j Hj]%list_elem_of_lookup)%list_elem_of_join.
  { apply Hall. by inversion Hx as [? ? He|? ? ? He]; apply edge_node in He as [? _]. }
  destruct (Hlt x x Hx j L Hj HxL) as (i & L' & Hi & HL' & Hin).
  clear -Hnd Hi Hj HL' HxL Hin. revert i j Hi Hj HL'. induction ls as [|L0 ls IH]; [done|].
  simpl in Hnd. apply NoDup_app in Hnd as (_ & Hd & Hnd). intros [|i] [|j] Hi Hj HL'; [lia| |lia|].
  - injection HL' as ->. apply (Hd x Hin). apply list_elem_of_join. exists L. split; [done|].
    by eapply list_elem_of_lookup_2.
  - simpl in *. apply (IH Hnd i j); [lia|done|done].
Qed.

(** ** The outcome *)

Lemma node_ids_keys : node_ids ≡ₚ (map_to_list (g_nodes g)).*1.
Proof.
  apply NoDup_Permutation; [apply node_ids_NoDup|apply NoDup_fst_map_to_list|].
  intros v. rewrite node_ids_spec, list_elem_of_fmap. split.
  - intros [n Hn]. exists (v, n). split; [done|]. by apply elem_of_map_to_list.
  - intros ([k n] & -> & Hin%elem_of_map_to_list). by exists n.
Qed.

Lemma sort_outcome :
  ∃ res, topologicalSort g = Some res ∧
  match res with
  | inr levels => mjoin levels ≡ₚ node_ids ∧ layered [] levels ∧ ∀ x, ¬ tc (edge g) x x
  | inl _ => ∃ x, tc (edge g) x x
  end.
Proof.
  destruct kahn_start as [todo Hinv]. pose proof node_ids_NoDup as Hnd.
  destruct (kahn_run (S (length (AllNodes g))) [] first_level todo _ [] 0 Hnd Hinv)
    as (ls & rest & Hk & Hp & Hrest & Hl & Hhead).
  { intros _. pose proof (ki_nodes _ _ _ _ Hinv) as Hn. apply Permutation_length in Hn.
    unfold node_ids in Hn. rewrite length_fmap in Hn. simpl in Hn. rewrite length_app in Hn. lia. }
  assert (node_ids ≡ₚ mjoin ls ++ rest) as Hn by (by rewrite (ki_nodes _ _ _ _ Hinv)).
  assert (length (AllNodes g) = length (mjoin ls) + length rest)%nat as Hlen.
  { rewrite <-length_app, <-Hn. unfold node_ids. by rewrite length_fmap. }
  unfold topologicalSort. fold first_level. destruct (_ && _) eqn:Htest.
  - bool_to_prop. eexists. split; [done|]. simpl. apply (predecessors_cycle rest); [|done].
    intros ->. destruct Hhead as [[_ ->]|Hh]; [simpl in Hlen; lia|].
    pose proof (ly_nonempty _ _ Hl) as Hne.
    by apply (Forall_lookup_1 _ _ _ _ Hne) in Hh.
  - rewrite Hk. simpl. rewrite Z.add_0_l.
    destruct (Z.eqb_spec (Z.of_nat (length (mjoin ls))) (Z.of_nat (length (AllNodes g)))) as [Heq|Heq].
    + eexists. split; [done|]. simpl. assert (rest = []) as -> by (apply nil_length_inv; lia).
      rewrite app_nil_r in Hn. split_and!; [done|done|].
      apply (layered_acyclic ls Hl); [by rewrite <-Hn|]. intros v. by rewrite Hn.
    + eexists. split; [done|]. simpl. apply (predecessors_cycle rest); [|done].
      intros ->. simpl in Hlen. lia.
Qed.
End Kahn.

(** Kahn's algorithm ends on every graph that can be built, whatever the map
    orders.  When it succeeds, the levels hold each node exactly once, an edge
    leads from an earlier to a later level, every node after the first level has
    a predecessor in the level just before, and the graph has no cycle; when it
    fails, the graph has one. *)
Theorem topological_sort `{!MapOrder} g :
  built g →
  ∃ res, topologicalSort g = Some res ∧
  match res with
  | inr levels =>
      mjoin levels ≡ₚ (map_to_list (g_nodes g)).*1 ∧
      (∀ j L u v, levels !! j = Some L → v ∈ L → edge g u v →
         ∃ i L', (i < j)%nat ∧ levels !! i = Some L' ∧ u ∈ L') ∧
      (∀ j L v, levels !! S j = Some L → v ∈ L →
         ∃ L' u, levels !! j = Some L' ∧ u ∈ L' ∧ edge g u v) ∧
      (∀ x, ¬ tc (edge g) x x)
  | inl _ => ∃ x, tc (edge g) x x
  end.
Proof.
  intros Hwf%built_wf. destruct (sort_outcome g Hwf) as (res & Hres & Hout).
  exists res. split; [exact Hres|]. destruct res as [|levels]; [done|].
  destruct Hout as (Hp & Hl & Hac). rewrite node_ids_keys in Hp by done. split_and!; [done| | |done].
  - intros j L u v Hj Hv He.
    by destruct (ly_order g _ _ Hl j L u v Hj Hv He) as [?%elem_of_nil|].
  - apply (ly_tight g _ _ Hl).
Qed.
