(* ===== verification/Compiled.v ===== *)
(** * Compiled jobs

    What [CompileWithOptions] makes of a graph: it succeeds exactly on valid
    graphs without cycles, the stages of the job respect the edges of the graph,
    and the job is one the scheduler accepts for submission. *)

From stdpp Require Import base gmap strings list fin_maps relations.
From S2P Require Import Prelude StateMachine Store Replay Jobs Graph Compiler Toposort Nodes Scheduler Coherence Reachable Totality Durable.

Open Scope Z_scope.

(** ** Lists of lists *)

Section Joins.
Context {A : Type}.
Implicit Types ls : list (list A).

Lemma join_NoDup_lookup ls i k i' k' l l' x :
  NoDup (mjoin ls) → ls !! i = Some l → l !! k = Some x → ls !! i' = Some l' → l' !! k' = Some x →
  i = i' ∧ k = k'.
Proof.
  revert i i'. induction ls as [|l0 ls IH]; intros i i' Hnd Hi Hk Hi' Hk'; [done|].
  simpl in Hnd. apply NoDup_app in Hnd as (Hl0 & Hd & Hnd).
  assert (∀ j l1 k1, ls !! j = Some l1 → l1 !! k1 = Some x → x ∈ mjoin ls) as Hin.
  { intros j l1 k1 Hj Hk1. apply list_elem_of_join. exists l1.
    split; by eapply list_elem_of_lookup_2. }
  destruct i as [|i], i' as [|i']; simpl in *; simplify_eq.
  - split; [done|]. by apply (NoDup_lookup l _ _ x).
  - exfalso. eapply Hd; [by eapply list_elem_of_lookup_2|eauto].
  - exfalso. eapply Hd; [by eapply list_elem_of_lookup_2|eauto].
  - destruct (IH i i' Hnd Hi Hk Hi' Hk') as [-> ->]. done.
Qed.

Lemma omap_Some_fmap {B} (f : A → B) (l : list A) : omap (fmap f) (Some <$> l) = f <$> l.
Proof. induction l as [|x l IH]; [done|]. cbn. f_equal. exact IH. Qed.

Lemma bind_join {B} (f : A → list B) (l : list A) : l ≫= f = mjoin (f <$> l).
Proof. induction l as [|x l IH]; [done|]. rewrite bind_cons, fmap_cons, IH. done. Qed.

Lemma filter_split (P : list A → Prop) `{!∀ x, Decision (P x)} ls j L :
  filter P ls !! j = Some L →
  ∃ l1 l2, ls = l1 ++ L :: l2 ∧ length (filter P l1) = j ∧ P L.
Proof.
  revert j. induction ls as [|l ls IH]; intros j; [done|]. rewrite filter_cons.
  destruct (decide (P l)) as [Hl|Hl].
  - destruct j as [|j]; simpl.
    + intros [= <-]. by exists [], ls.
    + intros (l1 & l2 & -> & <- & HP)%IH. exists (l :: l1), l2. split; [done|].
      rewrite filter_cons, decide_True by done. done.
  - intros (l1 & l2 & -> & <- & HP)%IH. exists (l :: l1), l2. split; [done|].
    rewrite filter_cons, decide_False by done. done.
Qed.

Lemma filter_join_NoDup (P : list A → Prop) `{!∀ x, Decision (P x)} ls :
  NoDup (mjoin ls) → NoDup (mjoin (filter P ls)).
Proof.
  induction ls as [|l ls IH]; simpl; [done|]. intros (Hl & Hd & Hnd)%NoDup_app.
  rewrite filter_cons. destruct (decide (P l)); [|by apply IH]. simpl.
  apply NoDup_app. split_and!; [done| |by apply IH]. intros x Hx (k & Hk & Hin)%list_elem_of_join.
  apply list_elem_of_filter in Hin as [_ Hin]. apply (Hd x Hx), list_elem_of_join. eauto.
Qed.
End Joins.

Section Compiled.
Context `{!MapOrder} (uuid : nat → string) (g : Graph).

(** ** Flattening *)

(** The executable nodes of a node id, and of a level. *)
Definition leaves (id : string) : list Node :=
  match g_nodes g !! id with Some n => flatten_node n | None => [] end.
Definition level_leaves (L : list string) : list Node := L ≫= leaves.
Definition kept_level (L : list string) : Prop := (0 < length (level_leaves L))%nat.
#[export] Instance kept_level_dec L : Decision (kept_level L).
Proof. unfold kept_level. apply _. Defined.

Lemma flattenLevel_ok L :
  (∀ id, id ∈ L → is_Some (g_nodes g !! id)) → flattenLevel g L = inr (level_leaves L).
Proof.
  induction L as [|id L IH]; intros Hn; [done|]. simpl.
  destruct (Hn id ltac:(by left)) as [n Hn']. unfold GetNode. rewrite Hn', IH by set_solver.
  unfold level_leaves. simpl. unfold leaves at 2. by rewrite Hn'.
Qed.

(** ** Tasks *)

Context (input : option AgentInput) (sessionID : string).

Record task_for (jobID stageID : string) (node : Node) (t : Task) : Prop := {
  tf_agent : t_AgentID t = node_ID node;
  tf_name : t_AgentName t = node_Name node;
  tf_input : t_Input t = input;
  tf_key : t_PartitionKey t = partition_key node sessionID;
  tf_job : t_JobID t = jobID;
  tf_stage : t_StageID t = stageID;
  tf_state : t_LifecycleState t = "" ∧ t_Status t = JobPending;
}.

Lemma createTasks_run nodes stageID jobID n :
  ∃ tasks, createTasks uuid nodes stageID jobID input sessionID n = (tasks, (n + length nodes)%nat) ∧
    Forall2 (task_for jobID stageID) nodes tasks ∧
    t_ID <$> tasks = uuid <$> seq n (length nodes).
Proof.
  revert n. induction nodes as [|node nodes IH]; intros n; simpl.
  { exists []. rewrite Nat.add_0_r. split_and!; [done|constructor|done]. }
  destruct (IH (S n)) as (tasks & Hr & HF & Hid). eexists. split_and!.
  - unfold createTask, fresh_id, mbind, ST_bind, mret, ST_ret. rewrite Hr.
    by rewrite Nat.add_succ_r.
  - constructor; [by split|done].
  - by rewrite fmap_cons, Hid.
Qed.

(** ** Stages *)

(** A level together with the stage made of it. *)
Implicit Types plan : list (list string * Stage).

Definition register (m : gmap string Stage) (item : list string * Stage) : gmap string Stage :=
  foldl (λ m nodeID, <[nodeID := item.2]> m) m item.1.

Definition stage_ok (jobID : string) (item : list string * Stage) : Prop :=
  s_JobID item.2 = jobID ∧ s_Status item.2 = JobPending ∧
  ∃ tasks, s_Tasks item.2 = Some <$> tasks ∧
    Forall2 (task_for jobID (s_ID item.2)) (level_leaves item.1) tasks.

Definition item_ids (item : list string * Stage) : list string :=
  s_ID item.2 :: omap (fmap t_ID) (s_Tasks item.2).

Definition add_stages (stages : list Stage) (j : Job) : Job :=
  foldl (λ j st, AddStage j (Some st)) j stages.

Lemma add_stages_fields stages j :
  j_ID (add_stages stages j) = j_ID j ∧ j_Stages (add_stages stages j) = j_Stages j ++ (Some <$> stages) ∧
  j_LifecycleState (add_stages stages j) = j_LifecycleState j.
Proof.
  revert j. induction stages as [|st stages IH]; intros j; simpl; [by rewrite app_nil_r|].
  destruct (IH (AddStage j (Some st))) as (-> & -> & ->). simpl. by rewrite <-app_assoc.
Qed.

Lemma buildStages_run levels idx m prev job n :
  (∀ L id, L ∈ levels → id ∈ L → is_Some (g_nodes g !! id)) →
  ∃ plan n', buildStages uuid g input sessionID idx levels m prev job n
             = (inr (add_stages (snd <$> plan) job), n') ∧
    fst <$> plan = filter kept_level levels ∧ Forall (stage_ok (j_ID job)) plan ∧
    (n ≤ n')%nat ∧ plan ≫= item_ids = uuid <$> seq n (n' - n) ∧
    ∀ k L st, plan !! k = Some (L, st) → ∃ i, s_Dependencies st =
      computeStageDependencies g i L (foldl register m (take k plan))
        (match k with O => prev | S k' => snd <$> plan !! k' end).
Proof.
  revert idx m prev job n. induction levels as [|L levels IH]; intros idx m prev job n Hn.
  { exists [], n. simpl. rewrite Nat.sub_diag. split_and!; [done|done|constructor|lia|done|].
    intros k ? ? Hk. by rewrite lookup_nil in Hk. }
  assert (∀ L' id, L' ∈ levels → id ∈ L' → is_Some (g_nodes g !! id)) as Hn'.
  { intros L' id HL'. apply Hn. by right. }
  simpl. rewrite flattenLevel_ok by (intros id; apply Hn; by left). rewrite filter_cons.
  destruct (decide (kept_level L)) as [HkL|HkL]; unfold kept_level in HkL;
    destruct (level_leaves L) as [|x xs] eqn:HL; simpl in HkL; try lia; [|by apply IH].
  rewrite <-HL.
  unfold fresh_id at 1. unfold mbind at 1, ST_bind at 1. cbn beta iota.
  destruct (createTasks_run (level_leaves L) (uuid n) (j_ID job) (S n)) as (tasks & Ht & HF & Hid).
  unfold mbind at 1, ST_bind at 1. rewrite Ht. cbn beta iota.
  set (st := mkStage (uuid n) (j_ID job) (Some <$> tasks) _ JobPending).
  destruct (IH (S idx) (register m (L, st)) (Some st) (AddStage job (Some st))
    (S n + length (level_leaves L))%nat Hn') as (plan & n' & Hr & Hf & Hok & Hle & Hids & Hdep).
  exists ((L, st) :: plan), n'. split_and!.
  - exact Hr.
  - by rewrite fmap_cons, Hf.
  - constructor; [|exact Hok]. split_and!; [done|done|]. by exists tasks.
  - lia.
  - rewrite bind_cons, Hids.
    change (item_ids (L, st)) with (uuid n :: omap (fmap t_ID) (Some <$> tasks)).
    rewrite omap_Some_fmap, Hid.
    replace (n' - n)%nat with (S (length (level_leaves L) + (n' - (S n + length (level_leaves L)))))%nat by lia.
    cbn [seq]. by rewrite fmap_cons, seq_app, fmap_app.
  - intros [|k] L' st' Hk; simpl in Hk.
    + injection Hk as <- <-. by exists idx.
    + destruct (Hdep k L' st' Hk) as [i Hi]. exists i. simpl. rewrite Hi. by destruct k.
Qed.

(** ** Dependencies *)

Lemma predecessors_spec u v : u ∈ findPredecessors g v ↔ edge g u v.
Proof.
  unfold findPredecessors, edge, GetEdges. rewrite list_elem_of_bind. split.
  - intros ([f es] & Hin & Hp). apply list_elem_of_fmap in Hin as (e & -> & He).
    rewrite range_perm in Hp. apply elem_of_map_to_list in Hp. rewrite Hp. simpl.
    apply list_elem_of_filter in He as [? ?]. eauto.
  - intros (e & He & Hv). destruct (g_edges g !! u) as [es|] eqn:Hu; simpl in He;
      [|by apply elem_of_nil in He].
    exists (u, es). rewrite range_perm, elem_of_map_to_list. split; [|done].
    apply list_elem_of_fmap. exists e. split; [done|]. by apply list_elem_of_filter.
Qed.

(** The stages a level depends on by its edges. *)
Lemma dependencies_spec i L m prev d :
  let by_edge := ∃ u v st, v ∈ L ∧ edge g u v ∧ m !! u = Some st ∧ s_ID st = d in
  (by_edge → d ∈ computeStageDependencies g i L m prev) ∧
  (d ∈ computeStageDependencies g i L m prev → by_edge ∨ ∃ st, prev = Some st ∧ s_ID st = d).
Proof.
  intros by_edge. unfold computeStageDependencies.
  set (depSet := list_to_set _ : gset string).
  assert (d ∈ range (SDependencies i) (elements depSet) ↔ by_edge) as Hd.
  { rewrite range_perm, elem_of_elements. subst depSet. rewrite elem_of_list_to_set.
    rewrite list_elem_of_bind. subst by_edge. split.
    - intros (v & (u & Hin & Hu)%list_elem_of_bind & Hv). rewrite predecessors_spec in Hu.
      destruct (m !! u) as [st|] eqn:Hm; [|by apply elem_of_nil in Hin].
      apply list_elem_of_singleton in Hin as ->. by exists u, v, st.
    - intros (u & v & st & Hv & He & Hm & <-). exists v. split; [|done].
      apply list_elem_of_bind. exists u. rewrite predecessors_spec, Hm. split; [|done].
      by apply list_elem_of_singleton. }
  rewrite <-Hd. destruct (range _ _) as [|x xs]; [|by split; auto].
  split; [by intros ?%elem_of_nil|]. destruct prev as [st|]; [|by intros ?%elem_of_nil].
  intros ->%list_elem_of_singleton. right. by exists st.
Qed.

Lemma register_lookup m L st u :
  register m (L, st) !! u = if decide (u ∈ L) then Some st else m !! u.
Proof.
  unfold register. simpl. revert m. induction L as [|x L IH]; intros m; [done|].
  cbn [foldl]. rewrite IH. destruct (decide (u ∈ L)) as [Hin|Hin].
  { rewrite decide_True; [done|by right]. }
  destruct (decide (x = u)) as [<-|Hne].
  - rewrite decide_True by (by left). by rewrite lookup_insert_eq.
  - rewrite lookup_insert_ne by done. rewrite decide_False; [done|]. set_solver.
Qed.

(** The stage registered for a node is one made of a level with the node, and
    with distinct nodes it is the only one. *)
Lemma registered_lookup plan m u st :
  foldl register m plan !! u = Some st →
  (∃ L k, plan !! k = Some (L, st) ∧ u ∈ L) ∨ m !! u = Some st.
Proof.
  revert m. induction plan as [|[L st'] plan IH]; intros m; simpl; [by right|].
  intros [(L' & k & Hk & Hu)|H1]%IH; [left; by exists L', (S k)|].
  rewrite register_lookup in H1. destruct (decide (u ∈ L)); [|by right].
  injection H1 as <-. left. by exists L, 0%nat.
Qed.

Lemma registered_here plan m k L st u :
  NoDup (mjoin (plan.*1)) → plan !! k = Some (L, st) → u ∈ L → foldl register m plan !! u = Some st.
Proof.
  revert m k. induction plan as [|[L0 st0] plan IH]; intros m k Hnd Hk Hu; [done|].
  rewrite fmap_cons in Hnd. simpl in Hnd. apply NoDup_app in Hnd as (_ & Hd & Hnd).
  destruct k as [|k]; simpl in *; [|by apply (IH _ k)]. injection Hk as -> ->.
  assert (u ∉ mjoin (plan.*1)) as Hnot by (by apply Hd).
  assert (∀ pl m', (∀ x, x ∈ pl → x ∈ plan) → m' !! u = Some st → foldl register m' pl !! u = Some st)
    as Hkeep.
  { induction pl as [|[L1 st1] pl IHp]; intros m' Hsub Hm'; simpl; [done|].
    apply IHp; [set_solver|]. rewrite register_lookup, decide_False; [done|].
    intros Hu1. apply Hnot, list_elem_of_join. exists L1. split; [done|].
    apply list_elem_of_fmap. exists (L1, st1). set_solver. }
  apply Hkeep; [done|]. by rewrite register_lookup, decide_True.
Qed.

(** ** The plan of a compiled job *)

(** A job follows a plan when its stages are those of the plan; each holds a
    task for every executable node of its level; no node is planned twice, and
    every node with something to execute is planned; an edge leads to a later
    stage, which depends on the earlier one; and dependencies are on earlier
    stages. *)
Record follows (plan : list (list string * Stage)) (job : Job) : Prop := {
  fo_stages : j_Stages job = Some <$> plan.*2;
  fo_tasks : Forall (stage_ok (j_ID job)) plan;
  fo_once : NoDup (mjoin plan.*1);
  fo_all : ∀ id, leaves id ≠ [] → id ∈ mjoin plan.*1;
  fo_order : ∀ i j L L' st st' u v, plan !! i = Some (L, st) → plan !! j = Some (L', st') →
    u ∈ L → v ∈ L' → edge g u v → (i < j)%nat ∧ s_ID st ∈ s_Dependencies st';
  fo_earlier : ∀ j L st d, plan !! j = Some (L, st) → d ∈ s_Dependencies st →
    ∃ i L' st', (i < j)%nat ∧ plan !! i = Some (L', st') ∧ s_ID st' = d;
}.

Lemma plan_order levels plan i j L L' (st st' : Stage) u v :
  layered g [] levels → NoDup (mjoin levels) → plan.*1 = filter kept_level levels →
  plan !! i = Some (L, st) → plan !! j = Some (L', st') → u ∈ L → v ∈ L' → edge g u v →
  (i < j)%nat.
Proof.
  intros Hl Hnd Hf Hi Hj Hu Hv He.
  assert (filter kept_level levels !! j = Some L') as Hj'.
  { by rewrite <-Hf, list_lookup_fmap, Hj. }
  assert (filter kept_level levels !! i = Some L) as Hi'.
  { by rewrite <-Hf, list_lookup_fmap, Hi. }
  apply filter_split in Hj' as (l1 & l2 & Hlev & Hlen & HL').
  destruct (ly_order _ _ _ Hl (length l1) L' u v) as [?%elem_of_nil|(k & K & Hk & HK & HuK)];
    [by rewrite Hlev, list_lookup_middle|done|done|done|].
  assert (u ∈ mjoin l1) as Hul1.
  { apply list_elem_of_join. exists K. split; [done|]. rewrite Hlev, lookup_app_l in HK by done.
    by eapply list_elem_of_lookup_2. }
  rewrite Hlev in Hi', Hnd. rewrite filter_app in Hi'. rewrite join_app, NoDup_app in Hnd.
  destruct Hnd as (_ & Hd & _). destruct (decide (i < j)%nat) as [|Hge]; [done|exfalso].
  rewrite lookup_app_r in Hi' by lia. apply (Hd u Hul1), list_elem_of_join. exists L. split; [done|].
  apply list_elem_of_lookup_2 in Hi'. by apply list_elem_of_filter in Hi' as [_ ?].
Qed.

Lemma take_fst plan k : NoDup (mjoin plan.*1) → NoDup (mjoin (take k plan).*1).
Proof.
  intros Hnd. rewrite <-(take_drop k plan), fmap_app, join_app in Hnd. by apply NoDup_app in Hnd as [? _].
Qed.

Lemma build_follows levels job n :
  graph_wf g → mjoin levels ≡ₚ node_ids g → layered g [] levels → j_Stages job = [] →
  ∃ plan n', buildStages uuid g input sessionID 0 levels ∅ None job n
             = (inr (add_stages plan.*2 job), n') ∧
    follows plan (add_stages plan.*2 job) ∧
    plan ≫= item_ids = uuid <$> seq n (n' - n).
Proof.
  intros Hwf Hp Hl Hst.
  assert (NoDup (mjoin levels)) as Hnd by (rewrite Hp; by apply node_ids_NoDup).
  destruct (buildStages_run levels 0 ∅ None job n) as (plan & n' & Hr & Hf & Hok & _ & Hids & Hdep).
  { intros L id HL Hid. apply node_ids_spec; [done|]. rewrite <-Hp. apply list_elem_of_join. eauto. }
  exists plan, n'. split; [exact Hr|]. split; [|exact Hids].
  destruct (add_stages_fields plan.*2 job) as (Hid & Hstages & _).
  assert (NoDup (mjoin plan.*1)) as Hndp by (rewrite Hf; by apply filter_join_NoDup).
  split.
  - by rewrite Hstages, Hst.
  - by rewrite Hid.
  - done.
  - intros id Hne. assert (id ∈ mjoin levels) as (L & HidL & HL)%list_elem_of_join.
    { rewrite Hp. apply node_ids_spec; [done|]. unfold leaves in Hne.
      destruct (g_nodes g !! id); [by eexists|done]. }
    apply list_elem_of_join. exists L. split; [done|]. rewrite Hf. apply list_elem_of_filter.
    split; [|done]. unfold kept_level, level_leaves. destruct (L ≫= leaves) eqn:HLl; simpl; [|lia].
    destruct (leaves id) as [|x xs] eqn:Hx; [done|]. exfalso.
    assert (x ∈ L ≫= leaves) as Hin by (apply list_elem_of_bind; exists id; rewrite Hx; set_solver).
    rewrite HLl in Hin. by apply elem_of_nil in Hin.
  - intros i j L L' st st' u v Hi Hj Hu Hv He.
    assert (i < j)%nat as Hij by (by eapply plan_order). split; [done|].
    destruct (Hdep j L' st' Hj) as [x ->]. apply dependencies_spec. exists u, v, st.
    split_and!; [done|done| |done]. apply (registered_here _ _ i L); [by apply take_fst| |done].
    by rewrite lookup_take_lt.
  - intros j L st d Hj Hd. destruct (Hdep j L st Hj) as [x Hx]. rewrite Hx in Hd.
    apply dependencies_spec in Hd as [(u & v & st' & _ & _ & Hm & <-)|(st' & Hprev & <-)].
    + apply registered_lookup in Hm as [(L' & k & Hk & _)|Hm]; [|by rewrite lookup_empty in Hm].
      apply lookup_take_Some in Hk as [Hk Hlt]. by exists k, L', st'.
    + destruct j as [|j]; [done|]. destruct (plan !! j) as [[L' st2]|] eqn:Hj'; [|done].
      injection Hprev as <-. exists j, L', st2. split_and!; [lia|done|done].
Qed.
End Compiled.

(** C21. Compilation always returns.  It fails only on graphs that are not valid or
    have a cycle; on the others it returns a job that follows a plan: every
    executable node has its task, in a stage after the stages of the nodes it
    depends on, and the stages depend on each other as the edges say. *)
Theorem compile_outcome `{!MapOrder} uuid g input sessionID now1 now2 n :
  built g →
  ∃ res n', CompileWithOptions uuid g input sessionID now1 now2 n = Some (res, n') ∧
  match res with
  | inl _ => ValidateGraph g ≠ None ∨ ∃ x, tc (edge g) x x
  | inr job => ValidateGraph g = None ∧ (∀ x, ¬ tc (edge g) x x) ∧
               ∃ plan, follows g input sessionID plan job
  end.
Proof.
  intros Hwf%built_wf. unfold CompileWithOptions.
  destruct (ValidateGraph g) as [err|]; [eexists _, _; split; [done|]; by left|].
  destruct (sort_outcome g Hwf) as (res & -> & Hres). simpl.
  destruct res as [err|levels]; [eexists _, _; split; [done|]; by right|].
  destruct Hres as (Hp & Hl & Hac).
  destruct (build_follows uuid g input sessionID levels (NewJob (uuid n) (g_name g) now1 now2) (S n))
    as (plan & n' & -> & [F1 F2 F3 F4 F5 F6] & _); [done..|].
  eexists _, _. split; [done|]. split_and!; [done|done|]. by exists plan.
Qed.

(** ** What a compiled job looks like to the scheduler *)

Section Submission.
Context `{!MapOrder} (uuid : nat → string) (g : Graph) (input : option AgentInput) (sessionID : string).

Lemma planned_task plan job i k t :
  follows g input sessionID plan job → job_task job i k = Some t →
  ∃ L st tasks node, plan !! i = Some (L, st) ∧ s_Tasks st = Some <$> tasks ∧
    tasks !! k = Some t ∧ task_for input sessionID (j_ID job) (s_ID st) node t.
Proof.
  intros [F1 F2 _ _ _ _] Ht. unfold job_task, job_stage in Ht.
  rewrite F1, !list_lookup_fmap in Ht. destruct (plan !! i) as [[L st]|] eqn:Hi; simpl in Ht; [|done].
  destruct (Forall_lookup_1 _ _ _ _ F2 Hi) as (_ & _ & tasks & Hts & HF). simpl in *.
  rewrite Hts, list_lookup_fmap in Ht. destruct (tasks !! k) as [t'|] eqn:Hk; simplify_eq/=.
  destruct (Forall2_lookup_r _ _ _ _ _ HF Hk) as (node & _ & Hn). by exists L, st, tasks, node.
Qed.

Lemma planned_distinct plan job :
  follows g input sessionID plan job → NoDup (plan ≫= item_ids) → distinct_tasks job.
Proof.
  intros HF Hnd i k t i' k' t' Ht Ht' Hid.
  destruct (planned_task _ _ _ _ _ HF Ht) as (L & st & tasks & _ & Hi & Hts & Hk & _).
  destruct (planned_task _ _ _ _ _ HF Ht') as (L' & st' & tasks' & _ & Hi' & Hts' & Hk' & _).
  rewrite bind_join in Hnd.
  destruct (join_NoDup_lookup (item_ids <$> plan) i (S k) i' (S k')
    (item_ids (L, st)) (item_ids (L', st')) (t_ID t)) as [-> [= ->]]; [done|..|done].
  - by rewrite list_lookup_fmap, Hi.
  - unfold item_ids. simpl. by rewrite Hts, omap_Some_fmap, list_lookup_fmap, Hk.
  - by rewrite list_lookup_fmap, Hi'.
  - unfold item_ids. simpl. by rewrite Hts', omap_Some_fmap, list_lookup_fmap, Hk', Hid.
Qed.

Lemma planned_no_nil plan job : follows g input sessionID plan job → no_nil job.
Proof.
  intros [F1 F2 _ _ _ _]. unfold no_nil. rewrite F1. apply Forall_fmap, Forall_fmap.
  eapply Forall_impl; [exact F2|]. intros [L st] (_ & _ & tasks & Hts & _). simpl in *.
  exists st. split; [done|]. rewrite Hts. apply Forall_fmap, Forall_true. by eexists.
Qed.

Lemma planned_id plan job i k t :
  follows g input sessionID plan job → job_task job i k = Some t → t_ID t ∈ plan ≫= item_ids.
Proof.
  intros HF Ht. destruct (planned_task _ _ _ _ _ HF Ht) as (L & st & tasks & _ & Hi & Hts & Hk & _).
  apply list_elem_of_bind. exists (L, st). split; [|by eapply list_elem_of_lookup_2].
  unfold item_ids. simpl. rewrite Hts, omap_Some_fmap. right. apply list_elem_of_fmap.
  exists t. split; [done|]. by eapply list_elem_of_lookup_2.
Qed.

Lemma compiled_plan now1 now2 n job n' :
  built g → CompileWithOptions uuid g input sessionID now1 now2 n = Some (inr job, n') →
  j_ID job = uuid n ∧ j_LifecycleState job = JobStateSubmitted ∧
  ∃ plan k, follows g input sessionID plan job ∧ plan ≫= item_ids = uuid <$> seq (S n) k.
Proof.
  intros Hwf%built_wf. unfold CompileWithOptions. destruct (ValidateGraph g); [done|].
  destruct (sort_outcome g Hwf) as (res & -> & Hres). simpl.
  destruct res as [err|levels]; [done|]. destruct Hres as (Hp & Hl & _).
  set (job0 := NewJob (uuid n) (g_name g) now1 now2).
  destruct (build_follows uuid g input sessionID levels job0 (S n))
    as (plan & n2 & -> & [F1 F2 F3 F4 F5 F6] & Hids); [done..|].
  destruct (add_stages_fields plan.*2 job0) as (Hid & _ & Hst).
  intros [= <- <-]. split_and!; [exact Hid|exact Hst|]. exists plan, (n2 - S n)%nat.
  split; [by split|exact Hids].
Qed.
End Submission.

(** A compiled job can be submitted: with an id source that does not repeat
    itself, the job and its tasks have ids of their own, nothing has happened to
    them, and every scheduler that does not know the job's id accepts it as new. *)
Theorem compiled_submittable `{!MapOrder} uuid g input sessionID now1 now2 n job n' :
  built g → (∀ a b, uuid a = uuid b → a = b) → (∀ a, uuid a ≠ "") →
  CompileWithOptions uuid g input sessionID now1 now2 n = Some (inr job, n') →
  new_job_ok job ∧
  ∀ s : Sched MemStore, (∀ st, sc_store s = Some st → job_log st (j_ID job) = []) →
    submittable job s.
Proof.
  intros Hb Hinj Hne Hc. destruct (compiled_plan _ _ _ _ _ _ _ _ _ Hb Hc) as (Hid & Hst & plan & k & HF & Hids).
  split; [split|intros s Hlog; split].
  - by rewrite Hid.
  - by right.
  - by eapply planned_no_nil.
  - intros i l t Ht. pose proof (planned_id _ _ _ _ _ _ _ _ HF Ht) as Htid.
    destruct (planned_task _ _ _ _ _ _ _ _ HF Ht) as (_ & st & _ & node & _ & _ & _ & Hn).
    rewrite Hids in Htid. apply list_elem_of_fmap in Htid as (m & -> & _).
    split_and!; [done|apply Hn|right; apply Hn].
  - eapply planned_distinct; [exact HF|]. rewrite Hids.
    apply NoDup_fmap_2_strong; [auto|apply NoDup_seq].
  - intros i l t Ht. right.
    destruct (planned_task _ _ _ _ _ _ _ _ HF Ht) as (_ & st & _ & node & _ & _ & _ & Hn). apply Hn.
  - done.
Qed.
