(* ===== verification/MemState.v ===== *)
(** * The state passed between nodes (pkg/graph/state.go)

    Go values that are maps, slices or pointers are shared, so the state copies
    what it is given and what it gives away.  The copies are modelled over an
    explicit heap: a value holds a location, [deepCopyValue] allocates, and the
    other holders of a location may change what is there at any time.

    Copies by way of JSON, and the copies a type makes of itself
    ([DeepCopyable]), are a parameter.  Observers are modelled as far as the
    value of an event goes: it is the stored value itself.  Locks, statistics and
    the observers' channels are left out. *)

From stdpp Require Import base gmap strings list fin_maps fin_map_dom sorting.
From S2P Require Import Prelude.

Open Scope Z_scope.

(** ** Go values and the heap *)

(** Static types as [reflect] sees them, where recursion is not an issue. *)
Inductive RType :=
  | RScalar                       (** booleans, numbers, strings *)
  | RStruct (fields : list RType)
  | RArray (elem : RType)
  | RPtr (elem : RType)
  | ROther.                       (** maps, slices, channels, functions, interfaces *)

Fixpoint isReflectivelyCopyableType (t : RType) : bool :=
  match t with
  | RScalar => true
  | RStruct fields => forallb isReflectivelyCopyableType fields
  | RArray t | RPtr t => isReflectivelyCopyableType t
  | ROther => false
  end.

Abbreviation loc := positive.

(** The dynamic values of an [interface{}].  A nil map, slice or pointer has no
    location. *)
Inductive GVal :=
  | GNil
  | GPrim (ty repr : string)                 (** a value of a basic type *)
  | GTime (t : Z)                            (** a [time.Time] *)
  | GTimePtr (l : option loc)
  | GFlat (ty : string) (l : option loc)     (** a slice or map of basic values *)
  | GMap (l : option loc)                    (** a [map[string]interface{}] *)
  | GSlice (l : option loc)                  (** a [[]interface{}] *)
  | GMaps (l : option loc)                   (** a [[]map[string]interface{}] *)
  | GStruct (t : RType) (fields : list GVal)
  | GPtr (t : RType) (l : option loc)        (** a pointer to a struct *)
  | GOther (id : N).

Inductive Obj :=
  | OTime (t : Z)
  | OFlat (items : list string)
  | OMap (m : gmap string GVal)
  | OSlice (items : list GVal)
  | OStruct (fields : list GVal).

Abbreviation Heap := (gmap loc Obj).

(** The types of [isImmutableType]. *)
Definition immutable_types : list string :=
  ["string"; "bool"; "int"; "int8"; "int16"; "int32"; "int64"; "uint"; "uint8"; "uint16"; "uint32";
   "uint64"; "uintptr"; "float32"; "float64"; "complex64"; "complex128"; "json.Number"].

Definition isImmutableType (v : GVal) : bool :=
  match v with
  | GNil => true
  | GPrim ty _ => bool_decide (ty ∈ immutable_types)
  | _ => false
  end.

(** The basic types of [deepCopyValue]. *)
Definition primitive_types : list string :=
  ["string"; "int"; "int8"; "int16"; "int32"; "int64"; "uint"; "uint8"; "uint16"; "uint32"; "uint64";
   "float32"; "float64"; "bool"].

(** The slices and maps of basic values that [deepCopyValue] knows. *)
Definition flat_types : list string :=
  ["[]byte"; "map[string]string"; "map[string]int"; "[]string"; "[]int"; "[]float64"; "json.RawMessage"].

(** ** Deep copies *)

Definition alloc (o : Obj) (h : Heap) : Heap * loc :=
  let l := fresh (dom h) in (<[l := o]> h, l).

Section Copy.
(** [jsonDeepCopy] and [DeepCopy]; [None] is a panic. *)
Context (other_copy : Heap → GVal → option (Heap * GVal)).

(** The elements of a container, one after the other. *)
Fixpoint copy_list (copy : Heap → GVal → option (Heap * GVal)) (h : Heap) (vs : list GVal)
    : option (Heap * list GVal) :=
  match vs with
  | [] => Some (h, [])
  | v :: vs =>
      '(h, v) ← copy h v;
      '(h, vs) ← copy_list copy h vs;
      Some (h, v :: vs)
  end.

(** [None] is a panic, or a recursion deeper than [fuel], as on a cyclic value. *)
Fixpoint deepCopyValue (fuel : nat) (h : Heap) (v : GVal) : option (Heap * GVal) :=
  match fuel with
  | O => None
  | S fuel =>
      match v with
      | GNil => Some (h, GNil)
      | GPrim ty _ => if bool_decide (ty ∈ primitive_types) then Some (h, v) else other_copy h v
      | GTime _ => Some (h, v)
      | GTimePtr None => Some (h, GNil)
      | GTimePtr (Some l) =>
          match h !! l with
          | Some (OTime t) => let '(h, l) := alloc (OTime t) h in Some (h, GTimePtr (Some l))
          | _ => None
          end
      | GFlat ty l =>
          if bool_decide (ty ∈ flat_types) then
            match l with
            | None => let '(h, l) := alloc (OFlat []) h in Some (h, GFlat ty (Some l))
            | Some l =>
                match h !! l with
                | Some (OFlat items) => let '(h, l) := alloc (OFlat items) h in Some (h, GFlat ty (Some l))
                | _ => None
                end
            end
          else other_copy h v
      | GMap None => Some (h, GMap None)
      | GMap (Some l) =>
          match h !! l with
          | Some (OMap m) =>
              '(h, vs) ← copy_list (deepCopyValue fuel) h (map_to_list m).*2;
              let '(h, l) := alloc (OMap (list_to_map (zip (map_to_list m).*1 vs))) h in
              Some (h, GMap (Some l))
          | _ => None
          end
      | GSlice None => Some (h, GSlice None)
      | GSlice (Some l) =>
          match h !! l with
          | Some (OSlice items) =>
              '(h, vs) ← copy_list (deepCopyValue fuel) h items;
              let '(h, l) := alloc (OSlice vs) h in
              Some (h, GSlice (Some l))
          | _ => None
          end
      | GMaps None => let '(h, l) := alloc (OSlice []) h in Some (h, GMaps (Some l))
      | GMaps (Some l) =>
          match h !! l with
          | Some (OSlice items) =>
              '(h, vs) ← copy_list (deepCopyValue fuel) h items;
              let '(h, l) := alloc (OSlice vs) h in
              Some (h, GMaps (Some l))
          | _ => None
          end
      | GStruct t fields =>
          if isReflectivelyCopyableType t then Some (h, v) else other_copy h v
      | GPtr t None => Some (h, v)
      | GPtr t (Some l) =>
          match h !! l with
          | Some (OStruct fields) =>
              if isReflectivelyCopyableType t then
                let '(h, l) := alloc (OStruct fields) h in Some (h, GPtr t (Some l))
              else other_copy h v
          | _ => None
          end
      | GOther _ => other_copy h v
      end
  end.
End Copy.

(** ** When two values are the same *)

(** What can be seen of a value before looking into its elements.  A nil slice of
    basic values and an empty one are not told apart, nor a nil time pointer and
    nil: [deepCopyValue] turns the one into the other. *)
Inductive Head :=
  | HAtom (v : GVal)
  | HTimePtr (t : Z)
  | HFlat (ty : string) (items : list string)
  | HMap (m : gmap string GVal)
  | HSlice (items : list GVal)
  | HMaps (items : list GVal)
  | HBroken.

Definition head (h : Heap) (v : GVal) : Head :=
  match v with
  | GNil | GPrim _ _ | GTime _ | GMap None | GSlice None => HAtom v
  | GTimePtr None => HAtom GNil
  | GTimePtr (Some l) => match h !! l with Some (OTime t) => HTimePtr t | _ => HBroken end
  | GFlat ty None => HFlat ty []
  | GFlat ty (Some l) => match h !! l with Some (OFlat items) => HFlat ty items | _ => HBroken end
  | GMap (Some l) => match h !! l with Some (OMap m) => HMap m | _ => HBroken end
  | GSlice (Some l) => match h !! l with Some (OSlice items) => HSlice items | _ => HBroken end
  | GMaps None => HMaps []
  | GMaps (Some l) => match h !! l with Some (OSlice items) => HMaps items | _ => HBroken end
  | GStruct _ _ | GPtr _ _ | GOther _ => HBroken
  end.

(** A value in its heap. *)
Definition Place : Type := Heap * GVal.

(** The same down to a depth. *)
Fixpoint same_to (n : nat) (x y : Place) : Prop :=
  match n with
  | O => True
  | S n =>
      match head x.1 x.2, head y.1 y.2 with
      | HAtom v, HAtom w => v = w
      | HTimePtr t, HTimePtr u => t = u
      | HFlat ty items, HFlat ty' items' => ty = ty' ∧ items = items'
      | HMap m, HMap m' =>
          ∀ k, option_Forall2 (λ v w, same_to n (x.1, v) (y.1, w)) (m !! k) (m' !! k)
      | HSlice l, HSlice l' => Forall2 (λ v w, same_to n (x.1, v) (y.1, w)) l l'
      | HMaps l, HMaps l' => Forall2 (λ v w, same_to n (x.1, v) (y.1, w)) l l'
      | _, _ => False
      end
  end.

(** The same at every depth: no reader can tell them apart. *)
Definition same (x y : Place) : Prop := ∀ n, same_to n x y.

Lemma same_to_sym n x y : same_to n x y → same_to n y x.
Proof.
  revert x y. induction n as [|n IH]; intros x y; [done|]. simpl.
  destruct (head x.1 x.2), (head y.1 y.2); try done.
  - by intros [-> ->].
  - intros H k. specialize (H k). destruct H; constructor. by apply IH.
  - intros H. apply Forall2_flip. eapply Forall2_impl; [exact H|]. intros v w. apply IH.
  - intros H. apply Forall2_flip. eapply Forall2_impl; [exact H|]. intros v w. apply IH.
Qed.

Lemma Forall2_same_trans n h1 h2 h3 l1 l2 l3 :
  (∀ x y z, same_to n x y → same_to n y z → same_to n x z) →
  Forall2 (λ v w, same_to n (h1, v) (h2, w)) l1 l2 → Forall2 (λ v w, same_to n (h2, v) (h3, w)) l2 l3 →
  Forall2 (λ v w, same_to n (h1, v) (h3, w)) l1 l3.
Proof.
  intros IH H. revert l3. induction H as [|a b l1 l2 Hab _ IHl]; intros l3 H3; inversion H3; subst; constructor.
  - by eapply IH.
  - by apply IHl.
Qed.

Lemma same_to_trans n x y z : same_to n x y → same_to n y z → same_to n x z.
Proof.
  revert x y z. induction n as [|n IH]; intros x y z; [done|]. simpl.
  destruct (head x.1 x.2), (head y.1 y.2); try done; destruct (head z.1 z.2); try done.
  - by intros -> ->.
  - by intros -> ->.
  - by intros [-> ->].
  - intros H1 H2 k. specialize (H1 k). specialize (H2 k). destruct H1 as [v w Hvw|].
    + inversion H2 as [w' u Hwu Heq Hu|]. constructor. by eapply IH.
    + inversion H2. constructor.
  - by apply Forall2_same_trans.
  - by apply Forall2_same_trans.
Qed.

(** ** Values of plain data *)

(** A region is a set of locations; a value lies in a region when the locations
    it holds do, are there and are of the right kind, and when it is made of plain
    data throughout: no structs, pointers to structs, or values of other types. *)
Definition val_in (h : Heap) (K : gset loc) (v : GVal) : Prop :=
  match v with
  | GNil | GTime _ | GTimePtr None | GMap None | GSlice None | GMaps None => True
  | GPrim ty _ => ty ∈ primitive_types
  | GFlat ty None => ty ∈ flat_types
  | GTimePtr (Some l) => l ∈ K ∧ ∃ t, h !! l = Some (OTime t)
  | GFlat ty (Some l) => ty ∈ flat_types ∧ l ∈ K ∧ ∃ items, h !! l = Some (OFlat items)
  | GMap (Some l) => l ∈ K ∧ ∃ m, h !! l = Some (OMap m)
  | GSlice (Some l) | GMaps (Some l) => l ∈ K ∧ ∃ items, h !! l = Some (OSlice items)
  | GStruct _ _ | GPtr _ _ | GOther _ => False
  end.

Definition obj_in (h : Heap) (K : gset loc) (o : Obj) : Prop :=
  match o with
  | OTime _ | OFlat _ => True
  | OMap m => map_Forall (λ _, val_in h K) m
  | OSlice items => Forall (val_in h K) items
  | OStruct _ => False
  end.

(** A region whose objects hold values of the region only. *)
Definition region (h : Heap) (K : gset loc) : Prop := ∀ l, l ∈ K → ∃ o, h !! l = Some o ∧ obj_in h K o.

(** Two heaps that agree on a region. *)
Definition agree (K : gset loc) (h h' : Heap) : Prop := ∀ l, l ∈ K → h' !! l = h !! l.

Lemma val_in_agree K h h' v : agree K h h' → val_in h K v → val_in h' K v.
Proof.
  intros Ha. destruct v as [| | |[l|]|ty [l|]|[l|]|[l|]|[l|]| | |]; simpl; try done.
  - intros [Hl ?]. by rewrite (Ha l Hl).
  - intros (? & Hl & ?). by rewrite (Ha l Hl).
  - intros [Hl ?]. by rewrite (Ha l Hl).
  - intros [Hl ?]. by rewrite (Ha l Hl).
  - intros [Hl ?]. by rewrite (Ha l Hl).
Qed.

Lemma obj_in_agree K h h' o : agree K h h' → obj_in h K o → obj_in h' K o.
Proof.
  intros Ha. destruct o as [| |m|items|]; simpl; try done.
  - intros H. eapply map_Forall_impl; [exact H|]. intros k v. by apply val_in_agree.
  - intros H. eapply Forall_impl; [exact H|]. intros v. by apply val_in_agree.
Qed.

Lemma region_agree K h h' : agree K h h' → region h K → region h' K.
Proof.
  intros Ha Hr l Hl. destruct (Hr l Hl) as (o & Ho & Hin). exists o. rewrite (Ha l Hl).
  split; [done|]. by eapply obj_in_agree.
Qed.

Lemma val_in_mono K K' h v : K ⊆ K' → val_in h K v → val_in h K' v.
Proof. intros HK. destruct v as [| | |[l|]|ty [l|]|[l|]|[l|]|[l|]| | |]; simpl; set_solver. Qed.

Lemma obj_in_mono K K' h o : K ⊆ K' → obj_in h K o → obj_in h K' o.
Proof.
  intros HK. destruct o as [| |m|items|]; simpl; try done.
  - intros H. eapply map_Forall_impl; [exact H|]. intros k v. by apply val_in_mono.
  - intros H. eapply Forall_impl; [exact H|]. intros v. by apply val_in_mono.
Qed.

Lemma region_union K1 K2 h : region h K1 → region h K2 → region h (K1 ∪ K2).
Proof.
  intros H1 H2 l [Hl|Hl]%elem_of_union.
  - destruct (H1 l Hl) as (o & Ho & Hin). exists o. split; [done|]. eapply obj_in_mono; [|exact Hin]. set_solver.
  - destruct (H2 l Hl) as (o & Ho & Hin). exists o. split; [done|]. eapply obj_in_mono; [|exact Hin]. set_solver.
Qed.

(** What a reader sees of a value depends on its region only. *)
Lemma same_agree K h h' v : agree K h h' → region h K → val_in h K v → same (h, v) (h', v).
Proof.
  intros Ha Hr Hv n. revert v Hv. induction n as [|n IH]; intros v Hv; [done|]. simpl.
  assert (head h' v = head h v) as ->.
  { destruct v as [| | |[l|]|ty [l|]|[l|]|[l|]|[l|]| | |]; simpl in *; try done;
      [destruct Hv as [Hl _]|destruct Hv as (_ & Hl & _)|destruct Hv as [Hl _]..]; by rewrite (Ha l Hl). }
  assert (∀ items, Forall (val_in h K) items →
    Forall2 (λ v w, same_to n (h, v) (h', w)) items items) as Hlist.
  { intros items Hitems. apply Forall_Forall2_diag. eapply Forall_impl; [exact Hitems|]. intros w. apply IH. }
  destruct v as [| | |[l|]|ty [l|]|[l|]|[l|]|[l|]| | |]; simpl in *; try done.
  - by destruct Hv as [Hl [t ->]].
  - by destruct Hv as (_ & Hl & items & ->).
  - destruct Hv as [Hl [m Hm]]. rewrite Hm. destruct (Hr l Hl) as (o & Ho & Hin).
    rewrite Hm in Ho. injection Ho as <-. intros k. destruct (m !! k) as [w|] eqn:Hk; constructor.
    apply IH. by apply (Hin k).
  - destruct Hv as [Hl [items Hm]]. rewrite Hm. destruct (Hr l Hl) as (o & Ho & Hin).
    rewrite Hm in Ho. injection Ho as <-. by apply Hlist.
  - destruct Hv as [Hl [items Hm]]. rewrite Hm. destruct (Hr l Hl) as (o & Ho & Hin).
    rewrite Hm in Ho. injection Ho as <-. by apply Hlist.
Qed.

(** *** What can be reached from a value *)

Definition val_loc (v : GVal) : option loc :=
  match v with
  | GTimePtr l | GFlat _ l | GMap l | GSlice l | GMaps l | GPtr _ l => l
  | GNil | GPrim _ _ | GTime _ | GStruct _ _ | GOther _ => None
  end.

Definition holds (o : Obj) (v : GVal) : Prop :=
  match o with
  | OTime _ | OFlat _ => False
  | OMap m => ∃ k, m !! k = Some v
  | OSlice items | OStruct items => v ∈ items
  end.

Inductive reachable (h : Heap) : GVal → loc → Prop :=
  | reach_here v l : val_loc v = Some l → reachable h v l
  | reach_object v l o w l' :
      val_loc v = Some l → h !! l = Some o → holds o w → reachable h w l' → reachable h v l'
  | reach_field t fields w l' : w ∈ fields → reachable h w l' → reachable h (GStruct t fields) l'.

Lemma val_in_loc h K v l : val_in h K v → val_loc v = Some l → l ∈ K.
Proof. destruct v as [| | |[]|? []|[]|[]|[]| |? []|]; simpl; naive_solver. Qed.

Lemma val_in_moved h K K' v :
  val_in h K v → (∀ l, val_loc v = Some l → l ∈ K') → val_in h K' v.
Proof. destruct v as [| | |[]|? []|[]|[]|[]| |? []|]; simpl; naive_solver. Qed.

Lemma obj_in_holds h K o w : obj_in h K o → holds o w → val_in h K w.
Proof.
  destruct o as [| |m|items|]; simpl; try done.
  - intros Hm [k Hk]. by apply (Hm k).
  - intros Hi Hw. by eapply Forall_forall in Hi.
Qed.

Lemma obj_in_moved h K K' o :
  obj_in h K o → (∀ w l, holds o w → val_loc w = Some l → l ∈ K') → obj_in h K' o.
Proof.
  destruct o as [| |m|items|]; simpl; try done.
  - intros Hm HK' k w Hk. eapply val_in_moved; [by apply (Hm k)|]. intros l. apply HK'. eauto.
  - intros Hi HK'. apply Forall_forall. intros w Hw. eapply val_in_moved; [by eapply Forall_forall in Hi|].
    intros l. by apply HK'.
Qed.

(** From a value of a region only the region is reached. *)
Lemma reachable_in h K v l : region h K → val_in h K v → reachable h v l → l ∈ K.
Proof.
  intros Hr Hv Hl. induction Hl as [v l Hl|v l o w l' Hl Ho Hw _ IH|t fields w l' Hw _ IH]; [| |done].
  - by eapply val_in_loc.
  - apply IH. destruct (Hr l) as (o' & Ho' & Hin); [by eapply val_in_loc|]. simplify_eq.
    by eapply obj_in_holds.
Qed.

Lemma reachable_next h v l o w l' :
  reachable h v l → h !! l = Some o → holds o w → val_loc w = Some l' → reachable h v l'.
Proof.
  intros Hl Ho Hw Hl'. induction Hl as [v l Hl|v l o' w' l1 Hl Ho' Hw' _ IH|t fields w' l1 Hw' _ IH].
  - eapply reach_object; [done|done|done|by apply reach_here].
  - eapply reach_object; [done|done|done|by apply IH].
  - eapply reach_field; [done|by apply IH].
Qed.

(** What can be reached from a value of a region is a region. *)
Lemma region_reachable h K R v :
  region h K → val_in h K v → (∀ l, l ∈ R ↔ reachable h v l) → region h R.
Proof.
  intros Hr Hv HR l Hl. rewrite HR in Hl. destruct (Hr l) as (o & Ho & Hin); [by eapply reachable_in|].
  exists o. split; [done|]. eapply obj_in_moved; [exact Hin|]. intros w l' Hw Hl'.
  apply HR. by eapply reachable_next.
Qed.

(** ** What a deep copy is *)

Lemma region_dom h K : region h K → K ⊆ dom h.
Proof. intros Hr l Hl. destruct (Hr l Hl) as (o & Ho & _). by apply elem_of_dom_2 in Ho. Qed.

(** New locations only, a region of their own, and what was there untouched. *)
Record extends (h h' : Heap) (N : gset loc) : Prop := {
  ex_new : N ## dom h;
  ex_dom : dom h' = dom h ∪ N;
  ex_old : agree (dom h) h h';
  ex_region : region h' N;
}.

Lemma extends_refl h : extends h h ∅.
Proof. split; [set_solver|set_solver|done|]. intros l Hl. set_solver. Qed.

Lemma extends_trans h1 h2 h3 N1 N2 :
  extends h1 h2 N1 → extends h2 h3 N2 → extends h1 h3 (N1 ∪ N2).
Proof.
  intros [D1 M1 A1 R1] [D2 M2 A2 R2]. split.
  - set_solver.
  - rewrite M2, M1. set_solver.
  - intros l Hl. rewrite A2, A1; [done|done|set_solver].
  - apply region_union; [|done]. eapply region_agree; [|exact R1]. intros l Hl. apply A2. set_solver.
Qed.

(** A new object that refers to a new region. *)
Lemma extends_alloc h h' N o :
  extends h h' N → obj_in h' N o →
  let '(h2, l) := alloc o h' in
  extends h h2 ({[ l ]} ∪ N) ∧ h2 !! l = Some o ∧ agree (dom h') h' h2.
Proof.
  intros [D M A R] Ho. unfold alloc.
  pose proof (is_fresh (dom h')) as Hf. set (l := fresh (dom h')) in *.
  assert (agree (dom h') h' (<[l := o]> h')) as Ha.
  { intros l' Hl'. apply lookup_insert_ne. set_solver. }
  assert (agree N h' (<[l := o]> h')) as HaN.
  { intros l' Hl'. apply Ha. set_solver. }
  split_and!; [split|apply lookup_insert_eq|done].
  - set_solver.
  - rewrite dom_insert_L, M. set_solver.
  - intros l' Hl'. rewrite Ha; [by apply A|set_solver].
  - intros l' [->%elem_of_singleton|Hl']%elem_of_union.
    + exists o. split; [apply lookup_insert_eq|].
      eapply obj_in_mono; [|eapply obj_in_agree; [exact HaN|exact Ho]]. set_solver.
    + destruct (R l' Hl') as (o' & Ho' & Hin). exists o'. split; [by rewrite HaN|].
      eapply obj_in_mono; [|eapply obj_in_agree; [exact HaN|exact Hin]]. set_solver.
Qed.

(** The values of a map, copied in order and put back under their keys. *)
Lemma zip_values (R : GVal → GVal → Prop) (l : list (string * GVal)) vs k :
  Forall2 R l.*2 vs →
  option_Forall2 R ((list_to_map l : gmap string GVal) !! k)
    ((list_to_map (zip l.*1 vs) : gmap string GVal) !! k).
Proof.
  revert vs. induction l as [|[k' v] l IH]; intros vs H; inversion H as [|? w ? ws Hvw Hl]; subst; simpl.
  - rewrite lookup_empty. constructor.
  - destruct (decide (k' = k)) as [->|Hne].
    + rewrite !lookup_insert_eq. by constructor.
    + rewrite !lookup_insert_ne by done. by apply IH.
Qed.

Section CopySpec.
Context (other_copy : Heap → GVal → option (Heap * GVal)).

Notation copy := (deepCopyValue other_copy).

Definition copies (h : Heap) (v : GVal) (h' : Heap) (v' : GVal) : Prop :=
  ∃ N, extends h h' N ∧ val_in h' N v' ∧ same (h, v) (h', v').

Lemma copy_list_spec f h vs h' vs' K :
  (∀ h v h' v', region h K → val_in h K v → f h v = Some (h', v') → copies h v h' v') →
  region h K → Forall (val_in h K) vs → copy_list f h vs = Some (h', vs') →
  ∃ N, extends h h' N ∧ Forall (val_in h' N) vs' ∧ Forall2 (λ v w, same (h, v) (h', w)) vs vs'.
Proof.
  intros Hf. revert h h' vs'. induction vs as [|v vs IH]; intros h h' vs' Hr Hvs; simpl.
  { intros [= <- <-]. exists ∅. split_and!; [apply extends_refl|constructor|constructor]. }
  apply Forall_cons in Hvs as [Hv Hvs].
  destruct (f h v) as [[h1 v1]|] eqn:H1; simpl; [|done].
  destruct (copy_list f h1 vs) as [[h2 vs2]|] eqn:H2; simpl; [|done]. intros [= <- <-].
  destruct (Hf _ _ _ _ Hr Hv H1) as (N1 & E1 & V1 & S1).
  assert (agree K h h1) as Ha1. { intros l Hl. apply (ex_old _ _ _ E1). by apply (region_dom _ _ Hr). }
  destruct (IH h1 h2 vs2) as (N2 & E2 & V2 & S2); [by eapply region_agree| |done|].
  { eapply Forall_impl; [exact Hvs|]. intros w. by apply val_in_agree. }
  assert (agree N1 h1 h2) as Ha2.
  { intros l Hl. apply (ex_old _ _ _ E2). apply (region_dom _ _ (ex_region _ _ _ E1) l Hl). }
  exists (N1 ∪ N2). split_and!; [by eapply extends_trans| |].
  - constructor; [eapply val_in_mono; [|by eapply val_in_agree]; set_solver|].
    eapply Forall_impl; [exact V2|]. intros w. apply val_in_mono. set_solver.
  - constructor.
    + intros n. eapply same_to_trans; [apply S1|]. apply (same_agree N1); [done|apply (ex_region _ _ _ E1)|done].
    + apply Forall2_same_length_lookup. pose proof (Forall2_length _ _ _ S2) as Hlen. split; [done|].
      intros i w w' Hw Hw' n. eapply same_to_trans; [apply (same_agree K h h1 w Ha1 Hr)|].
      * by eapply Forall_lookup_1 in Hvs.
      * eapply Forall2_lookup_lr in S2; [|exact Hw|exact Hw']. apply S2.
Qed.

(** A new container. *)
Lemma copies_alloc h v h1 N o mk :
  extends h h1 N → obj_in h1 N o →
  (∀ h2 l K, l ∈ K → h2 !! l = Some o → val_in h2 K (mk l)) →
  (∀ h2 l, h2 !! l = Some o → agree (dom h1) h1 h2 → same (h, v) (h2, mk l)) →
  copies h v (alloc o h1).1 (mk (alloc o h1).2).
Proof.
  intros E Ho Hmk Hsame. pose proof (extends_alloc h h1 N o E Ho) as Hal.
  destruct (alloc o h1) as [h2 l]. destruct Hal as (E' & Hl & Ha). exists ({[ l ]} ∪ N).
  split_and!; [done|apply Hmk; [set_solver|done]|by apply Hsame].
Qed.

Lemma same_lists h h1 h2 N vs vs' n :
  agree (dom h1) h1 h2 → region h1 N → Forall (val_in h1 N) vs' →
  Forall2 (λ v w, same (h, v) (h1, w)) vs vs' → Forall2 (λ v w, same_to n (h, v) (h2, w)) vs vs'.
Proof.
  intros Ha Hr Hin Hs. apply Forall2_same_length_lookup. split; [by eapply Forall2_length|].
  intros i v w Hv Hw. eapply same_to_trans.
  - eapply Forall2_lookup_lr in Hs; [|exact Hv|exact Hw]. apply Hs.
  - apply (same_agree N); [|done|by eapply Forall_lookup_1 in Hin].
    intros l Hl. apply Ha. by apply (region_dom _ _ Hr).
Qed.

Lemma deepCopyValue_spec fuel K h v h' v' :
  region h K → val_in h K v → copy fuel h v = Some (h', v') → copies h v h' v'.
Proof.
  revert h v h' v'. induction fuel as [|fuel IH]; intros h v h' v' Hr Hv; [done|].
  assert (∀ w, val_in h ∅ w → same (h, v) (h, w) → copies h v h w) as Hatom.
  { intros w Hw Hs. exists ∅. split_and!; [apply extends_refl|done|done]. }
  pose proof (extends_refl h) as E0.
  destruct v as [|ty s|t|[l|]|ty [l|]|[l|]|[l|]|[l|]|t fields|t [l|]|id]; simpl in *; try done.
  - intros [= <- <-]. apply Hatom; [done|]. by intros [].
  - rewrite bool_decide_true by done. intros [= <- <-]. apply Hatom; [done|]. by intros [].
  - intros [= <- <-]. apply Hatom; [done|]. by intros [].
  - destruct Hv as [Hl [t Ht]]. rewrite Ht. intros [= <- <-].
    apply (copies_alloc h _ h ∅ (OTime t) (λ l, GTimePtr (Some l))); [done|done|by simpl; eauto|].
    intros h2 l2 H2 _ [|n]; simpl; [done|]. by rewrite Ht, H2.
  - intros [= <- <-]. apply Hatom; [done|]. by intros [].
  - destruct Hv as (Hty & Hl & items & Hi). rewrite bool_decide_true, Hi by done. intros [= <- <-].
    apply (copies_alloc h _ h ∅ (OFlat items) (λ l, GFlat ty (Some l))); [done|done|by simpl; eauto|].
    intros h2 l2 H2 _ [|n]; simpl; [done|]. by rewrite Hi, H2.
  - rewrite bool_decide_true by done. intros [= <- <-].
    apply (copies_alloc h _ h ∅ (OFlat []) (λ l, GFlat ty (Some l))); [done|done|by simpl; eauto|].
    intros h2 l2 H2 _ [|n]; simpl; [done|]. by rewrite H2.
  - destruct Hv as [Hl [m Hm]]. rewrite Hm. destruct (Hr l Hl) as (o & Ho & Hin).
    rewrite Hm in Ho. injection Ho as <-. simpl in Hin.
    destruct (copy_list _ _ _) as [[h1 vs]|] eqn:Hc; simpl; [|done]. intros [= <- <-].
    destruct (copy_list_spec (copy fuel) h (map_to_list m).*2 h1 vs K) as (N & E & V & S); [done|done| |done|].
    { apply Forall_fmap, Forall_forall. intros [k w] Hk%elem_of_map_to_list. by apply (Hin k). }
    apply (copies_alloc h _ h1 N _ (λ l, GMap (Some l))); [done| |by simpl; eauto|].
    + simpl. intros k w Hk%elem_of_list_to_map_2.
      apply elem_of_zip_r in Hk. by eapply Forall_forall in V.
    + intros h2 l2 H2 Ha [|n]; simpl; [done|]. rewrite Hm, H2. intros k.
      rewrite <-(list_to_map_to_list m) at 1. apply zip_values.
      eapply same_lists; [exact Ha|apply (ex_region _ _ _ E)|exact V|exact S].
  - intros [= <- <-]. apply Hatom; [done|]. by intros [].
  - destruct Hv as [Hl [items Hm]]. rewrite Hm. destruct (Hr l Hl) as (o & Ho & Hin).
    rewrite Hm in Ho. injection Ho as <-. simpl in Hin.
    destruct (copy_list _ _ _) as [[h1 vs]|] eqn:Hc; simpl; [|done]. intros [= <- <-].
    destruct (copy_list_spec (copy fuel) h items h1 vs K) as (N & E & V & S); [done..|].
    apply (copies_alloc h _ h1 N _ (λ l, GSlice (Some l))); [done|done|by simpl; eauto|].
    intros h2 l2 H2 Ha [|n]; simpl; [done|]. rewrite Hm, H2.
    eapply same_lists; [exact Ha|apply (ex_region _ _ _ E)|exact V|exact S].
  - intros [= <- <-]. apply Hatom; [done|]. by intros [].
  - destruct Hv as [Hl [items Hm]]. rewrite Hm. destruct (Hr l Hl) as (o & Ho & Hin).
    rewrite Hm in Ho. injection Ho as <-. simpl in Hin.
    destruct (copy_list _ _ _) as [[h1 vs]|] eqn:Hc; simpl; [|done]. intros [= <- <-].
    destruct (copy_list_spec (copy fuel) h items h1 vs K) as (N & E & V & S); [done..|].
    apply (copies_alloc h _ h1 N _ (λ l, GMaps (Some l))); [done|done|by simpl; eauto|].
    intros h2 l2 H2 Ha [|n]; simpl; [done|]. rewrite Hm, H2.
    eapply same_lists; [exact Ha|apply (ex_region _ _ _ E)|exact V|exact S].
  - intros [= <- <-].
    apply (copies_alloc h _ h ∅ (OSlice []) (λ l, GMaps (Some l))); [done|by constructor|by simpl; eauto|].
    intros h2 l2 H2 _ [|n]; simpl; [done|]. rewrite H2. constructor.
Qed.
End CopySpec.

(** *** A copy is made of every finite value *)

(** The nesting of a value is at most [n]. *)
Fixpoint nested (n : nat) (h : Heap) (v : GVal) : Prop :=
  match n with
  | O => False
  | S n =>
      match head h v with
      | HBroken => False
      | HMap m => map_Forall (λ _, nested n h) m
      | HSlice items | HMaps items => Forall (nested n h) items
      | _ => True
      end
  end.

Lemma nested_agree K n h h' v :
  agree K h h' → region h K → val_in h K v → nested n h v → nested n h' v.
Proof.
  intros Ha Hr. revert v. induction n as [|n IH]; intros v Hv; [done|]. simpl.
  assert (head h' v = head h v) as ->.
  { destruct v as [| | |[l|]|ty [l|]|[l|]|[l|]|[l|]| | |]; simpl in *; try done;
      [destruct Hv as [Hl _]|destruct Hv as (_ & Hl & _)|destruct Hv as [Hl _]..]; by rewrite (Ha l Hl). }
  assert (∀ items, Forall (val_in h K) items → Forall (nested n h) items → Forall (nested n h') items) as Hlist.
  { intros items Hi Hn. apply Forall_forall. intros w Hw.
    eapply Forall_forall in Hi, Hn; [|exact Hw..]. by apply IH. }
  destruct v as [| | |[l|]|ty [l|]|[l|]|[l|]|[l|]| | |]; simpl in *; try done.
  - by destruct Hv as [Hl [t ->]].
  - by destruct Hv as (_ & Hl & items & ->).
  - destruct Hv as [Hl [m Hm]]. rewrite Hm. destruct (Hr l Hl) as (o & Ho & Hin).
    rewrite Hm in Ho. injection Ho as <-. intros Hn k w Hk. apply IH; [by apply (Hin k)|by apply (Hn k)].
  - destruct Hv as [Hl [items Hm]]. rewrite Hm. destruct (Hr l Hl) as (o & Ho & Hin).
    rewrite Hm in Ho. injection Ho as <-. by apply Hlist.
  - destruct Hv as [Hl [items Hm]]. rewrite Hm. destruct (Hr l Hl) as (o & Ho & Hin).
    rewrite Hm in Ho. injection Ho as <-. by apply Hlist.
Qed.

Section CopyTotal.
Context (other_copy : Heap → GVal → option (Heap * GVal)).

Lemma copy_list_total n K h vs :
  (∀ h v, region h K → val_in h K v → nested n h v → is_Some (deepCopyValue other_copy n h v)) →
  region h K → Forall (val_in h K) vs → Forall (nested n h) vs →
  is_Some (copy_list (deepCopyValue other_copy n) h vs).
Proof.
  intros IH. revert h. induction vs as [|v vs IHl]; intros h Hr Hvs Hns; simpl; [done|].
  apply Forall_cons in Hvs as [Hv Hvs]. apply Forall_cons in Hns as [Hn Hns].
  destruct (IH h v Hr Hv Hn) as [[h1 v1] H1]. rewrite H1. simpl.
  destruct (deepCopyValue_spec other_copy n K h v h1 v1 Hr Hv H1) as (N & E & _ & _).
  assert (agree K h h1) as Ha. { intros l Hl. apply (ex_old _ _ _ E). by apply (region_dom _ _ Hr). }
  destruct (IHl h1) as [[h2 vs2] H2]; [by eapply region_agree| | |by rewrite H2].
  - eapply Forall_impl; [exact Hvs|]. intros w. by apply val_in_agree.
  - apply Forall_forall. intros w Hw. eapply Forall_forall in Hvs, Hns; [|exact Hw..].
    by apply (nested_agree K n h h1).
Qed.

Lemma deepCopyValue_total n K h v :
  region h K → val_in h K v → nested n h v → is_Some (deepCopyValue other_copy n h v).
Proof.
  revert h v. induction n as [|n IH]; intros h v Hr Hv Hn; [done|].
  destruct v as [|ty s|t|[l|]|ty [l|]|[l|]|[l|]|[l|]|t fields|t [l|]|id]; simpl in *; try done.
  - by rewrite bool_decide_true.
  - destruct Hv as [Hl [t Ht]]. by rewrite Ht.
  - destruct Hv as (Hty & Hl & items & Hi). by rewrite bool_decide_true, Hi.
  - by rewrite bool_decide_true.
  - destruct Hv as [Hl [m Hm]]. rewrite Hm in *. destruct (Hr l Hl) as (o & Ho & Hin).
    rewrite Hm in Ho. injection Ho as <-. simpl in Hin.
    destruct (copy_list_total n K h (map_to_list m).*2) as [[h1 vs] ->]; [done|done| | |done].
    + apply Forall_fmap, Forall_forall. intros [k w] Hk%elem_of_map_to_list. by apply (Hin k).
    + apply Forall_fmap, Forall_forall. intros [k w] Hk%elem_of_map_to_list. by apply (Hn k).
  - destruct Hv as [Hl [items Hm]]. rewrite Hm in *. destruct (Hr l Hl) as (o & Ho & Hin).
    rewrite Hm in Ho. injection Ho as <-.
    by destruct (copy_list_total n K h items) as [[h1 vs] ->].
  - destruct Hv as [Hl [items Hm]]. rewrite Hm in *. destruct (Hr l Hl) as (o & Ho & Hin).
    rewrite Hm in Ho. injection Ho as <-.
    by destruct (copy_list_total n K h items) as [[h1 vs] ->].
Qed.
End CopyTotal.

(** ** The state *)

(** [cowValue]; its flag [frozen] is written and never read. *)
Record cowValue := mkCow { cw_value : GVal; cw_immutable : bool; cw_version : Z }.

(** A nil map is what [Close] leaves: it reads as empty, writing to it panics. *)
Record MemoryState := mkState {
  st_data : option (gmap string cowValue);
  st_metadata : option (gmap string cowValue);
  st_version : Z;
  st_closed : bool;
}.

Record StateSnapshot := mkSnapshot {
  sn_Version : Z;
  sn_Data : gmap string GVal;
  sn_Metadata : gmap string GVal;
}.

Definition u64 (z : Z) : Z := z mod 2 ^ 64.
Definition i64 (z : Z) : Z := (z + 2 ^ 63) mod 2 ^ 64 - 2 ^ 63.

Definition NewState : MemoryState := mkState (Some ∅) (Some ∅) 1 false.

Definition data_of (s : MemoryState) : gmap string cowValue := default ∅ (st_data s).
Definition metadata_of (s : MemoryState) : gmap string cowValue := default ∅ (st_metadata s).

Section State.
Context (other_copy : Heap → GVal → option (Heap * GVal)) (fuel : nat).

Notation copy := (deepCopyValue other_copy fuel).

Definition newCOWValue (v : GVal) (version : Z) (h : Heap) : option (Heap * cowValue) :=
  if isImmutableType v then Some (h, mkCow v true version)
  else '(h, v) ← copy h v; Some (h, mkCow v false version).

(** [read], and what the readers below do of it themselves. *)
Definition cow_read (c : cowValue) (h : Heap) : option (Heap * GVal) :=
  if cw_immutable c then Some (h, cw_value c) else copy h (cw_value c).

Definition GetValue (key : string) (s : MemoryState) (h : Heap) : option (Heap * option GVal) :=
  match data_of s !! key with
  | None => Some (h, None)
  | Some c => '(h, v) ← cow_read c h; Some (h, Some v)
  end.

Definition GetMetadata (key : string) (s : MemoryState) (h : Heap) : option (Heap * option GVal) :=
  match metadata_of s !! key with
  | None => Some (h, None)
  | Some c => '(h, v) ← cow_read c h; Some (h, Some v)
  end.

(** The state after the call, and the value of the event it publishes. *)
Definition SetValue (key : string) (value : GVal) (s : MemoryState) (h : Heap)
    : option (Heap * MemoryState * GVal) :=
  let version := u64 (st_version s + 1) in
  '(h, cow) ← newCOWValue value version h;
  data ← st_data s;
  Some (h, mkState (Some (<[key := cow]> data)) (st_metadata s) version (st_closed s), cw_value cow).

Definition SetStateMetadata (key : string) (value : GVal) (s : MemoryState) (h : Heap)
    : option (Heap * MemoryState * GVal) :=
  let version := u64 (st_version s + 1) in
  '(h, cow) ← newCOWValue value version h;
  metadata ← st_metadata s;
  Some (h, mkState (st_data s) (Some (<[key := cow]> metadata)) version (st_closed s), cw_value cow).

Definition DeleteKey (key : string) (s : MemoryState) : MemoryState :=
  match data_of s !! key with
  | None => s
  | Some _ => mkState (Some (delete key (data_of s))) (st_metadata s) (u64 (st_version s + 1)) (st_closed s)
  end.

Definition DeletePrefix (prefix : string) (s : MemoryState) : Z * MemoryState :=
  let kept := filter (λ kv, String.prefix prefix kv.1 = false) (data_of s) in
  let n := (size (data_of s) - size kept)%nat in
  if (n =? 0)%nat then (0, s)
  else (Z.of_nat n, mkState (Some kept) (st_metadata s) (u64 (st_version s + 1)) (st_closed s)).

Definition Keys (s : MemoryState) : list string := (map_to_list (data_of s)).*1.

(** A loop over a map that makes another one under the same keys. *)
Fixpoint map_loop {A B} (f : A → Heap → option (Heap * B)) (l : list (string * A)) (h : Heap)
    : option (Heap * gmap string B) :=
  match l with
  | [] => Some (h, ∅)
  | (k, x) :: l =>
      '(h, y) ← f x h;
      '(h, m) ← map_loop f l h;
      Some (h, <[k := y]> m)
  end.

Definition over_map {A B} (f : A → Heap → option (Heap * B)) (m : gmap string A) (h : Heap)
    : option (Heap * gmap string B) :=
  map_loop f (map_to_list m) h.

Definition Snapshot (s : MemoryState) (h : Heap) : option (Heap * StateSnapshot) :=
  '(h, data) ← over_map cow_read (data_of s) h;
  '(h, metadata) ← over_map cow_read (metadata_of s) h;
  Some (h, mkSnapshot (i64 (st_version s)) data metadata).

Definition Restore (snapshot : option StateSnapshot) (s : MemoryState) (h : Heap) : option (Heap * MemoryState) :=
  match snapshot with
  | None => Some (h, s)
  | Some sn =>
      let version := u64 (sn_Version sn) in
      '(h, data) ← over_map (λ v, newCOWValue v version) (sn_Data sn) h;
      '(h, metadata) ← over_map (λ v, newCOWValue v version) (sn_Metadata sn) h;
      Some (h, mkState (Some data) (Some metadata) (if version =? 0 then 1 else version) (st_closed s))
  end.

Definition clone_cow (c : cowValue) (h : Heap) : option (Heap * cowValue) :=
  '(h, v) ← cow_read c h; Some (h, mkCow v (cw_immutable c) (cw_version c)).

Definition CloneState (s : MemoryState) (h : Heap) : option (Heap * MemoryState) :=
  '(h, data) ← over_map clone_cow (data_of s) h;
  '(h, metadata) ← over_map clone_cow (metadata_of s) h;
  Some (h, mkState (Some data) (Some metadata) (st_version s) false).

Definition Close (s : MemoryState) : MemoryState := mkState None None (st_version s) true.

(** ** What the state keeps to itself *)

(** The values marked immutable are. *)
Definition cow_ok (c : cowValue) : Prop := cw_immutable c = true → isImmutableType (cw_value c) = true.

(** Values stored in a map lie in a region. *)
Definition map_in {A} (value : A → GVal) (ok : A → Prop) (h : Heap) (K : gset loc) (m : gmap string A) : Prop :=
  map_Forall (λ _ x, val_in h K (value x) ∧ ok x) m.

Lemma map_in_agree {A} (value : A → GVal) ok h h' K m :
  agree K h h' → map_in value ok h K m → map_in value ok h' K m.
Proof.
  intros Ha H. eapply map_Forall_impl; [exact H|]. intros k x [Hv Hx]. split; [by eapply val_in_agree|done].
Qed.

Lemma map_in_mono {A} (value : A → GVal) ok h K K' m :
  K ⊆ K' → map_in value ok h K m → map_in value ok h K' m.
Proof.
  intros HK H. eapply map_Forall_impl; [exact H|]. intros k x [Hv Hx]. split; [by eapply val_in_mono|done].
Qed.

(** What the state's own region is to be. *)
Definition owns (h : Heap) (O : gset loc) (s : MemoryState) : Prop :=
  region h O ∧ map_in cw_value cow_ok h O (data_of s) ∧ map_in cw_value cow_ok h O (metadata_of s).

Lemma owns_agree h h' O s : agree O h h' → owns h O s → owns h' O s.
Proof. intros Ha (Hr & Hd & Hm). split_and!; [by eapply region_agree|by eapply map_in_agree..]. Qed.

Lemma immutable_val_in h K K' v : isImmutableType v = true → val_in h K v → val_in h K' v.
Proof. by destruct v. Qed.

(** The steps of the loops: a value of a region is copied to a region of its own. *)
Definition copying {A B} (valueA : A → GVal) (okA : A → Prop) (valueB : B → GVal) (okB : B → Prop)
    (f : A → Heap → option (Heap * B)) : Prop :=
  ∀ K h x h' y, region h K → val_in h K (valueA x) → okA x → f x h = Some (h', y) →
    ∃ N, extends h h' N ∧ val_in h' N (valueB y) ∧ okB y ∧ same (h, valueA x) (h', valueB y).

Lemma same_refl K h v : region h K → val_in h K v → same (h, v) (h, v).
Proof. intros Hr Hv. by apply (same_agree K). Qed.

Lemma newCOWValue_copying version : copying id (λ _, True) cw_value cow_ok (λ v, newCOWValue v version).
Proof.
  intros K h v h' c Hr Hv _. unfold newCOWValue. destruct (isImmutableType v) eqn:Hi.
  - intros [= <- <-]. exists ∅. split_and!; [apply extends_refl|by eapply immutable_val_in|by intros _|].
    by apply (same_refl K).
  - destruct (copy h v) as [[h1 v1]|] eqn:Hc; simpl; [|done]. intros [= <- <-].
    destruct (deepCopyValue_spec other_copy fuel K h v h1 v1 Hr Hv Hc) as (N & E & V & S).
    exists N. split_and!; [done|done|by intros ?|done].
Qed.

Lemma cow_read_copying : copying cw_value cow_ok id (λ _, True) cow_read.
Proof.
  intros K h c h' v Hr Hv Hok. unfold cow_read. destruct (cw_immutable c) eqn:Hi.
  - intros [= <- <-]. exists ∅. split_and!; [apply extends_refl| |done|by apply (same_refl K)].
    eapply immutable_val_in; [by apply Hok|done].
  - intros Hc. destruct (deepCopyValue_spec other_copy fuel K h (cw_value c) h' v Hr Hv Hc) as (N & E & V & S).
    by exists N.
Qed.

Lemma clone_cow_copying : copying cw_value cow_ok cw_value cow_ok clone_cow.
Proof.
  intros K h c h' c' Hr Hv Hok. unfold clone_cow. destruct (cow_read c h) as [[h1 v]|] eqn:Hc; simpl; [|done].
  intros [= <- <-]. destruct (cow_read_copying K h c h1 v Hr Hv Hok Hc) as (N & E & V & _ & S).
  exists N. split_and!; [done|done| |done]. intros Hi. simpl in *. unfold cow_read in Hc. rewrite Hi in Hc.
  injection Hc as <- <-. by apply Hok.
Qed.

Section Loops.
Context {A B} (valueA : A → GVal) (okA : A → Prop) (valueB : B → GVal) (okB : B → Prop)
  (f : A → Heap → option (Heap * B)).
Hypothesis Hf : copying valueA okA valueB okB f.

Lemma map_loop_spec K l h h' m' :
  region h K → Forall (λ kx, val_in h K (valueA kx.2) ∧ okA kx.2) l → map_loop f l h = Some (h', m') →
  ∃ N, extends h h' N ∧ map_in valueB okB h' N m' ∧
    ∀ k, option_Forall2 (λ x y, same (h, valueA x) (h', valueB y)) ((list_to_map l : gmap string A) !! k) (m' !! k).
Proof.
  revert h h' m'. induction l as [|[k x] l IH]; intros h h' m' Hr Hl; simpl.
  { intros [= <- <-]. exists ∅. split_and!; [apply extends_refl|by apply map_Forall_empty|].
    intros k. rewrite !lookup_empty. constructor. }
  apply Forall_cons in Hl as [[Hv Hok] Hl]. simpl in Hv, Hok.
  destruct (f x h) as [[h1 y]|] eqn:H1; simpl; [|done].
  destruct (map_loop f l h1) as [[h2 m2]|] eqn:H2; simpl; [|done]. intros [= <- <-].
  destruct (Hf K h x h1 y Hr Hv Hok H1) as (N1 & E1 & V1 & O1 & S1).
  assert (agree K h h1) as Ha1. { intros a Ha. apply (ex_old _ _ _ E1). by apply (region_dom _ _ Hr). }
  destruct (IH h1 h2 m2) as (N2 & E2 & V2 & S2); [by eapply region_agree| |done|].
  { eapply Forall_impl; [exact Hl|]. intros w [? ?]. split; [by eapply val_in_agree|done]. }
  assert (agree N1 h1 h2) as Ha2.
  { intros a Ha. apply (ex_old _ _ _ E2). apply (region_dom _ _ (ex_region _ _ _ E1) a Ha). }
  exists (N1 ∪ N2). split_and!; [by eapply extends_trans| |].
  - apply map_Forall_insert_2; [|eapply map_in_mono; [|exact V2]; set_solver].
    split; [|done]. eapply val_in_mono; [|by eapply val_in_agree]. set_solver.
  - intros k'. destruct (decide (k = k')) as [->|Hne].
    + rewrite !lookup_insert_eq. constructor. intros n. eapply same_to_trans; [apply S1|].
      apply (same_agree N1); [done|apply (ex_region _ _ _ E1)|done].
    + rewrite !lookup_insert_ne by done. specialize (S2 k').
      destruct ((list_to_map l : gmap string A) !! k') as [x'|] eqn:Hx'; inversion S2 as [? y' Hs Hx Hy|];
        constructor.
      intros n. eapply same_to_trans; [|apply Hs]. apply (same_agree K h h1 _ Ha1 Hr).
      apply elem_of_list_to_map_2 in Hx'. eapply Forall_forall in Hl; [|exact Hx']. by apply Hl.
Qed.

Lemma over_map_spec K m h h' m' :
  region h K → map_in valueA okA h K m → over_map f m h = Some (h', m') →
  ∃ N, extends h h' N ∧ map_in valueB okB h' N m' ∧
    ∀ k, option_Forall2 (λ x y, same (h, valueA x) (h', valueB y)) (m !! k) (m' !! k).
Proof.
  intros Hr Hm Hl. destruct (map_loop_spec K (map_to_list m) h h' m') as (N & E & V & S); [done| |done|].
  - apply Forall_forall. intros [k x] Hk%elem_of_map_to_list. by apply (Hm k).
  - exists N. split_and!; [done|done|]. intros k. specialize (S k). by rewrite list_to_map_to_list in S.
Qed.
End Loops.
End State.

(** *** Maps with the same values *)

Definition map_same {A B} (valueA : A → GVal) (valueB : B → GVal) (h : Heap) (m : gmap string A)
    (h' : Heap) (m' : gmap string B) : Prop :=
  ∀ k, option_Forall2 (λ x y, same (h, valueA x) (h', valueB y)) (m !! k) (m' !! k).

Lemma map_same_trans {A B C} (va : A → GVal) (vb : B → GVal) (vc : C → GVal) h1 m1 h2 m2 h3 m3 :
  map_same va vb h1 m1 h2 m2 → map_same vb vc h2 m2 h3 m3 → map_same va vc h1 m1 h3 m3.
Proof.
  intros H1 H2 k. specialize (H1 k). specialize (H2 k). destruct H1 as [x y Hxy|].
  - inversion H2 as [? z Hyz|]. constructor. intros n. by eapply same_to_trans.
  - inversion H2. constructor.
Qed.

Lemma map_same_agree {A} (value : A → GVal) ok K h h' m :
  region h K → map_in value ok h K m → agree K h h' → map_same value value h m h' m.
Proof.
  intros Hr Hm Ha k. destruct (m !! k) as [x|] eqn:Hk; constructor.
  apply (same_agree K); [done|done|by apply (Hm k)].
Qed.

Lemma extends_agree h h' N K : extends h h' N → region h K → agree K h h'.
Proof. intros E Hr l Hl. apply (ex_old _ _ _ E). by apply (region_dom _ _ Hr). Qed.

(** ** A state among its clients *)

Section Clients.
Context (other_copy : Heap → GVal → option (Heap * GVal)).

(** The heap, a state, and the locations the clients hold. *)
Record Scene := mkScene { sc_heap : Heap; sc_state : MemoryState; sc_shared : gset loc }.

(** What the clients see of a step. *)
Inductive Label :=
  | LClient                                    (** they work on their own values *)
  | LSet (key : string) (value : Place)
  | LGet (key : string) (value : option Place)
  | LDelete (key : string)
  | LDeletePrefix (prefix : string).

(** A client may change whatever it holds, and make new objects, as long as the
    values stay plain data.  From a value that it gets it holds all that can be
    reached. *)
Inductive scene_step : Scene → Label → Scene → Prop :=
  | step_client h h' s K K' :
      agree (dom h ∖ K) h h' → K ⊆ K' → (K' ∖ K) ## dom h → region h' K' →
      scene_step (mkScene h s K) LClient (mkScene h' s K')
  | step_set fuel h h' s s' K key v e :
      val_in h K v → SetValue other_copy fuel key v s h = Some (h', s', e) →
      scene_step (mkScene h s K) (LSet key (h, v)) (mkScene h' s' K)
  | step_get fuel h h' s K R key r :
      GetValue other_copy fuel key s h = Some (h', r) →
      (∀ l, l ∈ R ↔ ∃ v, r = Some v ∧ reachable h' v l) →
      scene_step (mkScene h s K) (LGet key ((h',.) <$> r)) (mkScene h' s (K ∪ R))
  | step_delete h s K key :
      scene_step (mkScene h s K) (LDelete key) (mkScene h (DeleteKey key s) K)
  | step_delete_prefix h s K prefix :
      scene_step (mkScene h s K) (LDeletePrefix prefix) (mkScene h (DeletePrefix prefix s).2 K).

(** The specification: a map of values as they were when they were set. *)
Inductive spec_step : gmap string Place → Label → gmap string Place → Prop :=
  | spec_client A : spec_step A LClient A
  | spec_set A key p : spec_step A (LSet key p) (<[key := p]> A)
  | spec_get A key r : option_Forall2 same (A !! key) r → spec_step A (LGet key r) A
  | spec_delete A key : spec_step A (LDelete key) (delete key A)
  | spec_delete_prefix A prefix :
      spec_step A (LDeletePrefix prefix) (filter (λ kv, String.prefix prefix kv.1 = false) A).

Inductive steps {S} (step : S → Label → S → Prop) : S → list Label → S → Prop :=
  | steps_nil s : steps step s [] s
  | steps_cons s1 s2 s3 l tr : step s1 l s2 → steps step s2 tr s3 → steps step s1 (l :: tr) s3.

(** The simulation: the state's values lie in a region no client has a location
    of, and each is what the specification holds. *)
Record refines (c : Scene) (A : gmap string Place) : Prop := {
  rf_shared : region (sc_heap c) (sc_shared c);
  rf_owned : ∃ O, owns (sc_heap c) O (sc_state c) ∧ O ## sc_shared c;
  rf_values : ∀ k, option_Forall2 (λ p x, same p (sc_heap c, cw_value x)) (A !! k) (data_of (sc_state c) !! k);
}.

(** The values of the state are not changed by a step that leaves its region. *)
Lemma values_agree h h' O (m : gmap string cowValue) (A : gmap string Place) :
  region h O → map_in cw_value cow_ok h O m → agree O h h' →
  (∀ k, option_Forall2 (λ p x, same p (h, cw_value x)) (A !! k) (m !! k)) →
  ∀ k, option_Forall2 (λ p x, same p (h', cw_value x)) (A !! k) (m !! k).
Proof.
  intros Hr Hm Ha HA k. specialize (HA k). destruct (m !! k) as [x|] eqn:Hx; inversion HA as [p ? Hs Hp|]; constructor.
  intros n. eapply same_to_trans; [apply Hs|]. apply (same_agree O); [done|done|by apply (Hm k)].
Qed.

Lemma refines_client h h' s K K' A :
  agree (dom h ∖ K) h h' → K ⊆ K' → (K' ∖ K) ## dom h → region h' K' →
  refines (mkScene h s K) A → refines (mkScene h' s K') A.
Proof.
  intros Ha HK Hnew Hr [R1 (O & (HO & Hd & Hm) & Hdisj) R3]. simpl in *.
  pose proof (region_dom _ _ HO) as HOd.
  assert (agree O h h') as HaO. { intros l Hl. apply Ha. set_solver. }
  split; simpl; [done| |by eapply values_agree].
  exists O. split; [by apply (owns_agree h)|]. set_solver.
Qed.

Lemma refines_set fuel h h' s s' K key v e A :
  val_in h K v → SetValue other_copy fuel key v s h = Some (h', s', e) →
  refines (mkScene h s K) A → refines (mkScene h' s' K) (<[key := (h, v)]> A).
Proof.
  intros Hv Hset [R1 (O & (HO & Hd & Hm) & Hdisj) R3]. simpl in *. unfold SetValue in Hset.
  destruct (newCOWValue _ _ _ _ _) as [[h1 c]|] eqn:Hc; simpl in Hset; [|done].
  destruct (st_data s) as [data|] eqn:Hdata; simpl in Hset; [|done]. simplify_eq.
  destruct (newCOWValue_copying other_copy fuel _ K h v h' c R1 Hv I Hc) as (N & E & V & Hok & S).
  assert (agree O h h') as HaO. { intros l Hl. apply (ex_old _ _ _ E). by apply (region_dom _ _ HO). }
  assert (agree K h h') as HaK. { intros l Hl. apply (ex_old _ _ _ E). by apply (region_dom _ _ R1). }
  unfold data_of in *. rewrite Hdata in *. simpl in *. split; simpl.
  - by eapply region_agree.
  - exists (O ∪ N). split; [|pose proof (ex_new _ _ _ E); pose proof (region_dom _ _ R1); set_solver].
    split_and!; simpl.
    + apply region_union; [by eapply region_agree|apply (ex_region _ _ _ E)].
    + apply map_Forall_insert_2; [split; [|done]; eapply val_in_mono; [|exact V]; set_solver|].
      apply (map_in_mono cw_value cow_ok h' O); [set_solver|by apply (map_in_agree _ _ h)].
    + apply (map_in_mono cw_value cow_ok h' O); [set_solver|by apply (map_in_agree _ _ h)].
  - intros k. unfold data_of. simpl. destruct (decide (key = k)) as [->|Hne].
    + rewrite !lookup_insert_eq. by constructor.
    + rewrite !lookup_insert_ne by done. by apply (values_agree h h' O).
Qed.

Lemma refines_get fuel h h' s K R key r A :
  GetValue other_copy fuel key s h = Some (h', r) →
  (∀ l, l ∈ R ↔ ∃ v, r = Some v ∧ reachable h' v l) → refines (mkScene h s K) A →
  refines (mkScene h' s (K ∪ R)) A ∧ option_Forall2 same (A !! key) ((h',.) <$> r).
Proof.
  intros Hget HR [R1 (O & (HO & Hd & Hm) & Hdisj) R3]. simpl in *. unfold GetValue in Hget.
  pose proof (R3 key) as Hkey.
  destruct (data_of s !! key) as [c|] eqn:Hc; inversion Hkey as [p ? Hs Hp|Hp]; subst.
  - destruct (cow_read _ _ _ _) as [[h1 w]|] eqn:Hread; simpl in Hget; [|done]. simplify_eq.
    destruct (Hd key c Hc) as [Hv Hok].
    destruct (cow_read_copying other_copy fuel O h c h' w HO Hv Hok Hread) as (N & E & V & _ & S).
    assert (∀ l, l ∈ R ↔ reachable h' w l) as HR' by (intros l; rewrite HR; naive_solver).
    assert (R ⊆ N) as HRN.
    { intros l Hl. rewrite HR' in Hl. by apply (reachable_in h' N w); [apply (ex_region _ _ _ E)|..]. }
    assert (agree O h h') as HaO. { intros l Hl. apply (ex_old _ _ _ E). by apply (region_dom _ _ HO). }
    split; [split; simpl|].
    + apply region_union; [|by apply (region_reachable h' N R w); [apply (ex_region _ _ _ E)|..]].
      eapply region_agree; [|exact R1].
      intros l Hl. apply (ex_old _ _ _ E). by apply (region_dom _ _ R1).
    + exists O. split; [by apply (owns_agree h)|].
      pose proof (ex_new _ _ _ E). pose proof (region_dom _ _ HO). set_solver.
    + by eapply values_agree.
    + simpl. constructor. intros n. eapply same_to_trans; [apply Hs|apply S].
  - simplify_eq. assert (R = ∅) as -> by (apply set_eq; intros l; rewrite HR; set_solver).
    rewrite union_empty_r_L. split; [|simpl; constructor]. split; [done|by exists O|done].
Qed.

(** Removing keys. *)
Lemma refines_smaller h s s' K (A A' : gmap string Place) :
  metadata_of s' = metadata_of s → data_of s' ⊆ data_of s →
  (∀ k, option_Forall2 (λ p x, same p (h, cw_value x)) (A' !! k) (data_of s' !! k)) →
  refines (mkScene h s K) A → refines (mkScene h s' K) A'.
Proof.
  intros Hmeta Hsub HA [R1 (O & (HO & Hd & Hm) & Hdisj) R3]. simpl in *. split; simpl; [done| |done].
  exists O. split; [|done]. split_and!; [done| |by rewrite Hmeta].
  intros k c Hk. apply (Hd k). by eapply lookup_weaken.
Qed.

Lemma DeletePrefix_data prefix s :
  data_of (DeletePrefix prefix s).2 = filter (λ kv, String.prefix prefix kv.1 = false) (data_of s).
Proof.
  unfold DeletePrefix. set (kept := filter _ (data_of s)).
  destruct (Nat.eqb_spec (size (data_of s) - size kept) 0) as [Hn|]; simpl; [|done].
  assert (kept ⊆ data_of s) as Hsub by apply map_filter_subseteq.
  symmetry. apply (map_subseteq_size_eq kept (data_of s)); [done|lia].
Qed.

Lemma refines_step c l c' A :
  scene_step c l c' → refines c A → ∃ A', spec_step A l A' ∧ refines c' A'.
Proof.
  intros Hstep HR. destruct Hstep as [h h' s K K' Ha HK Hnew Hr|fuel h h' s s' K key v e Hv Hset
    |fuel h h' s K R key r Hget HR0|h s K key|h s K prefix].
  - exists A. split; [constructor|]. by eapply refines_client.
  - exists (<[key := (h, v)]> A). split; [constructor|]. by eapply refines_set.
  - destruct (refines_get fuel h h' s K R key r A Hget HR0 HR) as [HR' Hr]. exists A. split; [by constructor|done].
  - exists (delete key A). split; [constructor|].
    assert (data_of (DeleteKey key s) = delete key (data_of s)) as Hdel.
    { unfold DeleteKey. destruct (data_of s !! key) eqn:Hk; [done|]. by rewrite delete_id. }
    apply (refines_smaller h s _ K A); [|rewrite Hdel; apply delete_subseteq| |done].
    + unfold DeleteKey. by destruct (data_of s !! key).
    + intros k. rewrite Hdel. destruct (decide (key = k)) as [->|Hne].
      * rewrite !lookup_delete_eq. constructor.
      * rewrite !lookup_delete_ne by done. apply HR.
  - eexists. split; [constructor|]. apply (refines_smaller h s _ K A).
    + unfold DeletePrefix. by destruct (_ =? _)%nat.
    + rewrite DeletePrefix_data. apply map_filter_subseteq.
    + intros k. rewrite DeletePrefix_data.
      pose proof (rf_values _ _ HR k) as Hk. simpl in Hk. rewrite !map_lookup_filter.
      destruct (data_of s !! k) as [x|]; inversion Hk as [p ? Hs Hp|]; simpl; [|constructor].
      destruct (decide (String.prefix prefix k = false)) as [Hpre|Hpre]; simpl;
        [rewrite !option_guard_True by done|rewrite !option_guard_False by done]; by constructor.
    + done.
Qed.
End Clients.

(** ** Properties *)

(** C18. The state keeps values, not references: whatever its clients do to the maps
    and slices they passed in or can reach from what they got back, in any order with
    their calls, each read gives what was last set under the key as it was then.  The state refines
    a map of values that no one can change, for clients that do not watch it and
    values that are plain data. *)
Theorem state_isolation other_copy h K tr c :
  region h K → steps (scene_step other_copy) (mkScene h NewState K) tr c →
  ∃ A, steps spec_step ∅ tr A ∧ refines c A.
Proof.
  intros Hr Hsteps.
  assert (refines (mkScene h NewState K) ∅) as HR.
  { split; simpl; [done| |].
    - exists ∅. split; [|set_solver]. split_and!; [intros l Hl; set_solver|..];
        intros k x Hx; change ((∅ : gmap string cowValue) !! k = Some x) in Hx; by rewrite lookup_empty in Hx.
    - intros k. unfold data_of. simpl. rewrite !lookup_empty. constructor. }
  revert HR. generalize (∅ : gmap string Place). induction Hsteps as [c|c1 c2 c3 l tr Hstep _ IH]; intros A HR.
  - exists A. split; [constructor|done].
  - destruct (refines_step other_copy c1 l c2 A Hstep HR) as (A1 & Hs & HR1).
    destruct (IH A1 HR1) as (A2 & Hss & HR2). exists A2. split; [by econstructor|done].
Qed.

(** Storing a value succeeds when it is plain data of bounded nesting, and so
    does reading it back. *)
Theorem state_total other_copy fuel h K s key v :
  region h K → val_in h K v → nested fuel h v → is_Some (st_data s) →
  is_Some (SetValue other_copy fuel key v s h).
Proof.
  intros Hr Hv Hn [data Hd]. unfold SetValue, newCOWValue. rewrite Hd. destruct (isImmutableType v); simpl; [done|].
  by destruct (deepCopyValue_total other_copy fuel K h v Hr Hv Hn) as [[h' v'] ->].
Qed.

(** A snapshot restored, into any state, gives the data and the metadata it was
    taken of, in a region of their own. *)
Theorem snapshot_roundtrip other_copy fuel O h s h1 sn s0 h2 s' :
  owns h O s → Snapshot other_copy fuel s h = Some (h1, sn) →
  Restore other_copy fuel (Some sn) s0 h1 = Some (h2, s') →
  (∀ k, option_Forall2 (λ x y, same (h, cw_value x) (h2, cw_value y)) (data_of s !! k) (data_of s' !! k)) ∧
  (∀ k, option_Forall2 (λ x y, same (h, cw_value x) (h2, cw_value y)) (metadata_of s !! k) (metadata_of s' !! k)) ∧
  ∃ O', owns h2 O' s' ∧ O' ## dom h.
Proof.
  intros (HO & Hd & Hm) Hsnap Hrest. unfold Snapshot in Hsnap.
  destruct (over_map _ (data_of s) h) as [[ha data]|] eqn:H1; simpl in Hsnap; [|done].
  destruct (over_map _ (metadata_of s) ha) as [[hb metadata]|] eqn:H2; simpl in Hsnap; [|done]. simplify_eq.
  simpl in Hrest. destruct (over_map _ data h1) as [[hc data']|] eqn:H3; simpl in Hrest; [|done].
  destruct (over_map _ metadata hc) as [[hd metadata']|] eqn:H4; simpl in Hrest; [|done]. simplify_eq.
  destruct (over_map_spec other_copy _ _ _ _ _ (cow_read_copying other_copy fuel) O _ _ _ _ HO Hd H1) as (N1 & E1 & V1 & S1).
  pose proof (extends_agree _ _ _ _ E1 HO) as AO.
  destruct (over_map_spec other_copy _ _ _ _ _ (cow_read_copying other_copy fuel) O _ _ _ _
    (region_agree _ _ _ AO HO) (map_in_agree _ _ _ _ _ _ AO Hm) H2) as (N2 & E2 & V2 & S2).
  pose proof (extends_agree _ _ _ _ E2 (ex_region _ _ _ E1)) as A1.
  pose proof (region_agree _ _ _ A1 (ex_region _ _ _ E1)) as R1.
  destruct (over_map_spec other_copy _ _ _ _ _ (newCOWValue_copying other_copy fuel _) N1 _ _ _ _
    R1 (map_in_agree _ _ _ _ _ _ A1 V1) H3) as (N3 & E3 & V3 & S3).
  pose proof (extends_agree _ _ _ _ E3 (ex_region _ _ _ E2)) as A2.
  pose proof (region_agree _ _ _ A2 (ex_region _ _ _ E2)) as R2.
  destruct (over_map_spec other_copy _ _ _ _ _ (newCOWValue_copying other_copy fuel _) N2 _ _ _ _
    R2 (map_in_agree _ _ _ _ _ _ A2 V2) H4) as (N4 & E4 & V4 & S4).
  pose proof (extends_agree _ _ _ _ E4 (ex_region _ _ _ E3)) as A3. split_and!.
  - apply (map_same_trans cw_value id cw_value _ _ ha data); [exact S1|].
    apply (map_same_trans id id cw_value _ _ h1 data); [by eapply map_same_agree, A1; [apply E1|]|].
    apply (map_same_trans id cw_value cw_value _ _ hc data'); [exact S3|].
    eapply map_same_agree; [apply E3|exact V3|exact A3].
  - apply (map_same_trans cw_value cw_value cw_value _ _ ha (metadata_of s));
      [by eapply map_same_agree, AO; [|exact Hm]|].
    apply (map_same_trans cw_value id cw_value _ _ h1 metadata); [exact S2|].
    apply (map_same_trans id id cw_value _ _ hc metadata); [|exact S4].
    by eapply map_same_agree, A2; [apply E2|].
  - exists (N3 ∪ N4). split.
    + split_and!; simpl.
      * apply region_union; [|apply E4]. eapply region_agree; [exact A3|apply E3].
      * apply (map_in_mono cw_value cow_ok h2 N3); [set_solver|by apply (map_in_agree _ _ hc)].
      * apply (map_in_mono cw_value cow_ok h2 N4); [set_solver|done].
    + pose proof (ex_new _ _ _ E3). pose proof (ex_new _ _ _ E4). pose proof (ex_dom _ _ _ E1).
      pose proof (ex_dom _ _ _ E2). pose proof (ex_dom _ _ _ E3). set_solver.
Qed.

(** A clone holds the same values and shares none of them. *)
Theorem clone_independent other_copy fuel O h s h' s' :
  owns h O s → CloneState other_copy fuel s h = Some (h', s') →
  map_same cw_value cw_value h (data_of s) h' (data_of s') ∧
  map_same cw_value cw_value h (metadata_of s) h' (metadata_of s') ∧
  st_version s' = st_version s ∧ owns h' O s ∧ ∃ O', owns h' O' s' ∧ O' ## O.
Proof.
  intros (HO & Hd & Hm) Hc. unfold CloneState in Hc.
  destruct (over_map _ (data_of s) h) as [[ha data]|] eqn:H1; simpl in Hc; [|done].
  destruct (over_map _ (metadata_of s) ha) as [[hb metadata]|] eqn:H2; simpl in Hc; [|done]. simplify_eq.
  destruct (over_map_spec other_copy _ _ _ _ _ (clone_cow_copying other_copy fuel) O _ _ _ _ HO Hd H1)
    as (N1 & E1 & V1 & S1).
  pose proof (extends_agree _ _ _ _ E1 HO) as AO.
  destruct (over_map_spec other_copy _ _ _ _ _ (clone_cow_copying other_copy fuel) O _ _ _ _
    (region_agree _ _ _ AO HO) (map_in_agree _ _ _ _ _ _ AO Hm) H2) as (N2 & E2 & V2 & S2).
  pose proof (extends_agree _ _ _ _ E2 (ex_region _ _ _ E1)) as A1.
  pose proof (extends_trans _ _ _ _ _ E1 E2) as E. split_and!.
  - apply (map_same_trans cw_value cw_value cw_value _ _ ha data); [exact S1|].
    eapply map_same_agree; [apply E1|exact V1|exact A1].
  - apply (map_same_trans cw_value cw_value cw_value _ _ ha (metadata_of s)); [|exact S2].
    by eapply map_same_agree, AO; [|exact Hm].
  - done.
  - apply (owns_agree h); [by eapply extends_agree|done].
  - exists (N1 ∪ N2). split.
    + split_and!; simpl; [apply E| |].
      * apply (map_in_mono cw_value cow_ok h' N1); [set_solver|by apply (map_in_agree _ _ ha)].
      * apply (map_in_mono cw_value cow_ok h' N2); [set_solver|done].
    + pose proof (ex_new _ _ _ E). pose proof (region_dom _ _ HO). set_solver.
Qed.

(** ** History *)

Section History.
(** Snapshots by their contents; [clone] is [StateSnapshot.Clone]. *)
Context {Snap : Type} (clone : Snap → Snap).

Record StateHistory := mkStateHistory { sh_snapshots : list Snap; sh_maxSize : Z }.

Definition NewStateHistory (maxSize : Z) : StateHistory :=
  mkStateHistory [] (if maxSize <=? 0 then 100 else maxSize).

Definition History_Record (snapshot : Snap) (h : StateHistory) : StateHistory :=
  let snapshots :=
    if sh_maxSize h <=? Z.of_nat (length (sh_snapshots h)) then drop 1 (sh_snapshots h) else sh_snapshots h in
  mkStateHistory (snapshots ++ [clone snapshot]) (sh_maxSize h).

Definition History_Get (index : Z) (h : StateHistory) : option Snap :=
  if (index <? 0) || (Z.of_nat (length (sh_snapshots h)) <=? index) then None
  else clone <$> sh_snapshots h !! Z.to_nat index.

Definition Latest (h : StateHistory) : option Snap := clone <$> last (sh_snapshots h).

Definition ClearHistory (h : StateHistory) : StateHistory := mkStateHistory [] (sh_maxSize h).

(** A history holds the latest snapshots recorded, in their order, up to its
    size. *)
Theorem history_latest maxSize snapshots :
  let h := foldl (λ h s, History_Record s h) (NewStateHistory maxSize) snapshots in
  sh_snapshots h = last_n (Z.to_nat (sh_maxSize h)) (clone <$> snapshots) ∧
  Z.of_nat (length (sh_snapshots h)) ≤ sh_maxSize h ∧
  Latest h = clone <$> (clone <$> last snapshots).
Proof.
  assert (∃ n, NewStateHistory maxSize = mkStateHistory [] n ∧ 0 < n) as (n & -> & Hpos).
  { eexists. split; [done|]. destruct (Z.leb_spec maxSize 0); lia. }
  assert (∀ l, let h := foldl (λ h s, History_Record s h) (mkStateHistory [] n) l in
    sh_maxSize h = n ∧ sh_snapshots h = last_n (Z.to_nat n) (clone <$> l)) as Hinv.
  { intros l. induction l as [|s l [IH1 IH2]] using rev_ind; [done|].
    rewrite foldl_snoc. set (h := foldl _ _ l) in *. split; [done|]. simpl. rewrite IH1, IH2.
    unfold last_n. rewrite fmap_app. simpl. rewrite !length_app, !length_drop, !length_fmap. simpl.
    destruct (Z.leb_spec n (Z.of_nat (length l - (length l - Z.to_nat n)))).
    - rewrite drop_drop, drop_app_le by (rewrite length_fmap; lia). repeat f_equal. lia.
    - rewrite drop_app_le by (rewrite length_fmap; lia). do 2 f_equal. lia. }
  destruct (Hinv snapshots) as [H1 H2]. simpl. split_and!; [by rewrite H2, H1| |].
  - rewrite H2, H1. unfold last_n. rewrite length_drop, length_fmap. lia.
  - unfold Latest. rewrite H2. f_equal. destruct snapshots as [|s l _] using rev_ind; [done|].
    rewrite last_snoc. unfold last_n. rewrite fmap_app, drop_app_le; [simpl; by rewrite last_snoc|].
    rewrite !length_app, !length_fmap. simpl. lia.
Qed.
End History.
