(* ===== verification/GraphExec.v ===== *)
(** * Execution of workflow graphs (pkg/graph/graph.go, pause.go, node.go)

    A graph runs its nodes depth first from the entry, each at most once; a node
    can pause the run, which is then resumed from that node.  What a node does
    is a parameter: a function of the world (the graph state and everything
    else the node touches).  The context is consulted between nodes; a run
    comes with what each consultation finds.  Telemetry, logs and metric hooks
    are left out. *)

From Stdlib Require Import Ascii.
From stdpp Require Import base gmap strings list fin_maps relations.
From S2P Require Import Prelude Graph.

Open Scope Z_scope.

(** ** Pauses *)

Record PausedResult := mkPaused {
  pr_RequestID : string;
  pr_NodeID : string;
  pr_GraphVersion : string;
  pr_TraceID : string;
  pr_TraceParent : string;
}.

(** An error of a node: what [errors.As] finds of a [PauseSignal] in its chain,
    whether it is the pause error of the workflow package, and the error itself. *)
Record NodeError := mkNodeError {
  ne_pause : option PausedResult;
  ne_legacy : bool;
  ne_error : error;
}.

Definition normalizePausedResult (paused : PausedResult) (nodeID graphVersion requestID : string)
    : PausedResult :=
  mkPaused
    (if String.eqb (pr_RequestID paused) "" then requestID else pr_RequestID paused)
    (if String.eqb (pr_NodeID paused) "" then nodeID else pr_NodeID paused)
    (if String.eqb (pr_GraphVersion paused) "" then graphVersion else pr_GraphVersion paused)
    (pr_TraceID paused) (pr_TraceParent paused).

(** *** Trace context *)

Definition is_hex (c : ascii) : bool :=
  let n := N_of_ascii c in
  ((48 <=? n)%N && (n <=? 57)%N) || ((97 <=? n)%N && (n <=? 102)%N) || ((65 <=? n)%N && (n <=? 70)%N).
Fixpoint isHexString (v : string) : bool :=
  match v with EmptyString => true | String c v => is_hex c && isHexString v end.
Definition isW3CTraceID (v : string) : bool := (String.length v =? 32)%nat && isHexString v.
Definition isW3CSpanID (v : string) : bool := (String.length v =? 16)%nat && isHexString v.

(** The span of the context, by its trace and span ids. *)
Definition traceContextFromContext (span : option (string * string)) : string * string :=
  match span with
  | None => ("", "")
  | Some (traceID, spanID) =>
      if String.eqb traceID "" then ("", "")
      else if isW3CTraceID traceID && isW3CSpanID spanID then
        (traceID, "00-" +:+ strings_ToLower traceID +:+ "-" +:+ strings_ToLower spanID +:+ "-01")
      else if negb (String.eqb spanID "") then
        (traceID, "trace_id=" +:+ traceID +:+ ";span_id=" +:+ spanID)
      else (traceID, "")
  end.

(** ** Runs *)

(** What ends a traversal early. *)
Inductive TraverseError :=
  | TPaused (result : PausedResult) (cause : NodeError)  (** [graphPausedError] *)
  | TNode (e : NodeError)
  | TContext (e : error)
  | TLookup (e : error)
  | TFuel.  (** the model's recursion ran out *)

Class World (W : Type) := {
  (** [Node.Execute], by node. *)
  node_Execute : Node → W → W * option NodeError;
  (** [requestIDFromState] and [state.Set(PauseRequestIDStateKey, _)]. *)
  requestIDFromState : W → string;
  set_request_id : string → W → W;
  (** [fmt.Sprint] of a metadata value. *)
  Sprint : Value → string;
}.

Section Exec.
Context {W : Type} `{World W}.

(** The state of a run: the world, the nodes visited, how often the context was
    consulted, and the nodes executed with their errors. *)
Record Run := mkRun {
  r_world : W;
  r_visited : gset string;
  r_checks : nat;
  r_executed : list (string * option NodeError);
}.

(** What the [i]-th consultation of the context finds. *)
Definition Ctx : Type := nat → option error.

Definition graphVersion (g : Graph) : string :=
  match g_metadata g !! "graph_version" with
  | Some v => Sprint v
  | None => match g_metadata g !! "version" with Some v => Sprint v | None => "" end
  end.

Definition extractPausedResult (g : Graph) (span : option (string * string)) (err : NodeError)
    (nodeID : string) (w : W) : option PausedResult :=
  let requestID := requestIDFromState w in
  let version := graphVersion g in
  let '(traceID, traceParent) := traceContextFromContext span in
  match ne_pause err with
  | Some p =>
      let paused := normalizePausedResult p nodeID version requestID in
      Some (mkPaused (pr_RequestID paused) (pr_NodeID paused) (pr_GraphVersion paused)
        (if String.eqb (pr_TraceID paused) "" then traceID else pr_TraceID paused)
        (if String.eqb (pr_TraceParent paused) "" then traceParent else pr_TraceParent paused))
  | None =>
      if ne_legacy err then Some (mkPaused requestID nodeID version traceID traceParent) else None
  end.

(** [ctx.Err()]. *)
Definition check_ctx (ctx : Ctx) (s : Run) : option error * Run :=
  (ctx (r_checks s), mkRun (r_world s) (r_visited s) (S (r_checks s)) (r_executed s)).

Definition visit (nodeID : string) (s : Run) : Run :=
  mkRun (r_world s) ({[ nodeID ]} ∪ r_visited s) (r_checks s) (r_executed s).

Definition execute_node (nodeID : string) (node : Node) (s : Run) : option NodeError * Run :=
  let '(w, err) := node_Execute node (r_world s) in
  (err, mkRun w (r_visited s) (r_checks s) (r_executed s ++ [(nodeID, err)])).

Section Traverse.
Context (g : Graph) (ctx : Ctx) (on_error : string → W → NodeError → TraverseError).

(** The loop over the edges of a node. *)
Fixpoint traverse_edges (traverse : string → Run → option TraverseError * Run)
    (edges : list GraphEdge) (s : Run) : option TraverseError * Run :=
  match edges with
  | [] => (None, s)
  | e :: edges =>
      let '(cerr, s) := check_ctx ctx s in
      match cerr with
      | Some err => (Some (TContext err), s)
      | None =>
          let '(err, s) := traverse (ge_To e) s in
          match err with
          | Some err => (Some err, s)
          | None => traverse_edges traverse edges s
          end
      end
  end.

(** The traversal, with what it makes of a node's error. *)
Fixpoint traverse (fuel : nat) (nodeID : string) (s : Run) : option TraverseError * Run :=
  match fuel with
  | O => (Some TFuel, s)
  | S fuel =>
      let '(cerr, s) := check_ctx ctx s in
      match cerr with
      | Some err => (Some (TContext err), s)
      | None =>
          if bool_decide (nodeID ∈ r_visited s) then (None, s)
          else
            let s := visit nodeID s in
            match GetNode nodeID g with
            | inl err => (Some (TLookup err), s)
            | inr node =>
                let '(err, s) := execute_node nodeID node s in
                match err with
                | Some err => (Some (on_error nodeID (r_world s) err), s)
                | None => traverse_edges (traverse fuel) (GetEdges g nodeID) s
                end
            end
      end
  end.
End Traverse.

(** [traverseNode] turns the error of a node that pauses into a pause. *)
Definition pause_or_fail (g : Graph) (span : option (string * string)) (nodeID : string) (w : W)
    (err : NodeError) : TraverseError :=
  match extractPausedResult g span err nodeID w with
  | Some paused => TPaused paused err
  | None => TNode err
  end.

Definition traverseNode (g : Graph) (ctx : Ctx) (span : option (string * string)) :=
  traverse g ctx (pause_or_fail g span).

(** [traverseNodeWithObservability] passes it on. *)
Definition traverseNodeWithObservability (g : Graph) (ctx : Ctx) :=
  traverse g ctx (λ _ _ err, TNode err).

Definition start_run (w : W) (visited : gset string) : Run := mkRun w visited 0 [].

(** [ExecutionResult]: paused or done. *)
Definition ExecutionResult : Type := option PausedResult.

Inductive ExecError := XText (e : error) | XTraverse (e : TraverseError).

(** The end of [ExecuteWithResult] and of a round of [ResumeFromPaused]. *)
Definition run_result (err : option TraverseError) : ExecError + ExecutionResult :=
  match err with
  | None => inr None
  | Some (TPaused p _) => inr (Some p)
  | Some err => inl (XTraverse err)
  end.

Definition ExecuteWithResult (g : Graph) (ctx : Ctx) (span : option (string * string)) (w : W)
    : (ExecError + ExecutionResult) * Run :=
  match ValidateGraph g with
  | Some err => (inl (XText (EWrap "graph validation failed: " err "")), start_run w ∅)
  | None =>
      let '(err, s) := traverseNode g ctx span (dfs_fuel g) (g_entryNode g) (start_run w ∅) in
      (run_result err, s)
  end.

(** [ExecuteWithObservability] when its execution context could be made. *)
Definition ExecuteWithObservability (g : Graph) (ctx : Ctx) (w : W) : option ExecError * Run :=
  match ValidateGraph g with
  | Some err => (Some (XText (EWrap "graph validation failed: " err "")), start_run w ∅)
  | None =>
      let '(err, s) := traverseNodeWithObservability g ctx (dfs_fuel g) (g_entryNode g) (start_run w ∅) in
      (XTraverse <$> err, s)
  end.

(** The loop of [ResumeFromPaused], which does not consult the context itself. *)
Fixpoint resume_edges (traverse : string → Run → option TraverseError * Run)
    (edges : list GraphEdge) (s : Run) : option TraverseError * Run :=
  match edges with
  | [] => (None, s)
  | e :: edges =>
      let '(err, s) := traverse (ge_To e) s in
      match err with
      | Some err => (Some err, s)
      | None => resume_edges traverse edges s
      end
  end.

Definition ResumeFromPaused (g : Graph) (ctx : Ctx) (span : option (string * string)) (w : W)
    (paused : option PausedResult) : (ExecError + ExecutionResult) * Run :=
  let fail err := (inl (XText err), start_run w ∅) in
  match paused with
  | None => fail (EText "paused result is required")
  | Some paused =>
      if String.eqb (pr_NodeID paused) "" then fail (EText "paused node_id is required")
      else
        match ValidateGraph g with
        | Some err => fail (EWrap "graph validation failed: " err "")
        | None =>
            match GetNode (pr_NodeID paused) g with
            | inl err => fail (EWrap "resume node lookup failed: " err "")
            | inr _ =>
                let currentVersion := graphVersion g in
                if negb (String.eqb (pr_GraphVersion paused) "") && negb (String.eqb currentVersion "") &&
                   negb (String.eqb (pr_GraphVersion paused) currentVersion) then
                  fail (EText ("graph version mismatch: paused=" +:+ pr_GraphVersion paused +:+
                               " current=" +:+ currentVersion))
                else
                  let w := if negb (String.eqb (pr_RequestID paused) "")
                           then set_request_id (pr_RequestID paused) w else w in
                  let '(err, s) :=
                    resume_edges (traverseNode g ctx span (dfs_fuel g)) (GetEdges g (pr_NodeID paused))
                      (start_run w {[ pr_NodeID paused ]}) in
                  (run_result err, s)
            end
        end
  end.

(** ** What a traversal does *)

Section Spec.
Context (g : Graph) (ctx : Ctx) (on_error : string → W → NodeError → TraverseError).
Hypothesis wf : graph_wf g.
Hypothesis on_error_node : ∀ n w ne,
  match on_error n w ne with TPaused _ _ | TNode _ => True | _ => False end.

(** How the new executions fit the way a traversal ends: it ends well when all
    of them did, at the first node that fails, or when the context is done. *)
Definition ends (err : option TraverseError) (w : W) (new : list (string * option NodeError)) : Prop :=
  match err with
  | None => Forall (λ x, x.2 = None) new
  | Some (TContext e) => Forall (λ x, x.2 = None) new ∧ ∃ i, ctx i = Some e
  | Some err => ∃ pre n ne, new = pre ++ [(n, Some ne)] ∧ Forall (λ x, x.2 = None) pre ∧
      err = on_error n w ne
  end.

(** Every node but the first is executed after one it can be reached from. *)
Definition follows (first : string → Prop) (new : list (string * option NodeError)) : Prop :=
  ∀ l1 y l2, new.*1 = l1 ++ y :: l2 → first y ∨ ∃ z, z ∈ l1 ∧ edge g z y.

Record traversed (first : string → Prop) (s s' : Run) (err : option TraverseError)
    (new : list (string * option NodeError)) : Prop := {
  tr_executed : r_executed s' = r_executed s ++ new;
  tr_visited : r_visited s' = r_visited s ∪ list_to_set new.*1;
  tr_fresh : ∀ y, y ∈ new.*1 → y ∉ r_visited s;
  tr_once : NoDup new.*1;
  tr_follows : follows first new;
  tr_ends : ends err (r_world s') new;
  tr_closed : err = None → (∀ y, first y → y ∈ r_visited s') ∧
    ∀ y z, y ∈ new.*1 → edge g y z → z ∈ r_visited s';
}.

Lemma ends_app err w new1 new2 :
  Forall (λ x, x.2 = None) new1 → ends err w new2 → ends err w (new1 ++ new2).
Proof.
  intros H1 H2.
  assert (∀ e, (∃ pre n ne, new2 = pre ++ [(n, Some ne)] ∧ Forall (λ x, x.2 = None) pre ∧ e = on_error n w ne) →
    ∃ pre n ne, new1 ++ new2 = pre ++ [(n, Some ne)] ∧ Forall (λ x, x.2 = None) pre ∧ e = on_error n w ne)
    as Hnode.
  { intros e (pre & n & ne & -> & ? & ?). exists (new1 ++ pre), n, ne. rewrite app_assoc.
    split_and!; [done|by apply Forall_app|done]. }
  destruct err as [[]|]; simpl in *; auto; [|by apply Forall_app].
  destruct H2. split; [by apply Forall_app|done].
Qed.

Lemma follows_app (first1 first2 : string → Prop) new1 new2 :
  follows first1 new1 → follows first2 new2 →
  follows (λ y, first1 y ∨ first2 y) (new1 ++ new2).
Proof.
  intros H1 H2 l1 y l2. rewrite fmap_app. intros Heq.
  apply app_eq_inv in Heq as [(k & Hk1 & Hk2)|(k & Hk1 & Hk2)].
  - destruct k as [|y' k]; simpl in Hk2.
    + destruct (H2 [] y l2) as [?|(z & Hz & _)]; [by rewrite Hk2|by left; right|by apply elem_of_nil in Hz].
    + injection Hk2 as <- _. destruct (H1 l1 y k Hk1) as [?|?]; [by left; left|by right].
  - destruct (H2 k y l2 Hk2) as [?|(z & Hz & ?)]; [by left; right|].
    right. exists z. split; [|done]. rewrite Hk1. apply elem_of_app. by right.
Qed.

(** A run that does nothing. *)
Lemma traversed_nil first s s' err :
  r_executed s' = r_executed s → r_visited s' = r_visited s → ends err (r_world s') [] →
  (err = None → ∀ y, first y → y ∈ r_visited s') → traversed first s s' err [].
Proof.
  intros He Hv Hend Hc. split; simpl; [by rewrite app_nil_r|set_solver|set_solver|constructor| |done|].
  - intros l1 y l2 Hl. by destruct l1.
  - intros Herr. split; [auto|set_solver].
Qed.

(** Two runs in a row. *)
Lemma traversed_seq (first1 first2 : string → Prop) s s1 s2 err new1 new2 :
  traversed first1 s s1 None new1 → traversed first2 s1 s2 err new2 →
  traversed (λ y, first1 y ∨ first2 y) s s2 err (new1 ++ new2).
Proof.
  intros [E1 V1 F1 O1 P1 N1 C1] [E2 V2 F2 O2 P2 N2 C2].
  destruct (C1 eq_refl) as [C1a C1b]. split.
  - by rewrite E2, E1, app_assoc.
  - rewrite V2, V1, fmap_app, list_to_set_app_L. set_solver.
  - rewrite fmap_app. set_solver.
  - rewrite fmap_app. apply NoDup_app. split_and!; [done| |done]. set_solver.
  - by apply follows_app.
  - by apply ends_app.
  - intros ->. destruct (C2 eq_refl) as [C2a C2b]. split; [set_solver|].
    intros y z. rewrite fmap_app, elem_of_app. intros [Hy|Hy] Hz; [|by eapply C2b].
    rewrite V2. apply elem_of_union_l. by eapply C1b.
Qed.

Lemma traversed_weaken (first first' : string → Prop) s s' err new :
  (∀ y, first y ↔ first' y) → traversed first s s' err new → traversed first' s s' err new.
Proof.
  intros Hf [E V F O P N C]. split; try done.
  - intros l1 y l2 Hl. destruct (P l1 y l2 Hl) as [?|?]; [left; by apply Hf|by right].
  - intros Herr. destruct (C Herr) as [C1 C2]. split; [|done]. intros y Hy. by apply C1, Hf.
Qed.

Lemma traversed_start first s1 s2 s' err new :
  r_executed s1 = r_executed s2 → r_visited s1 = r_visited s2 →
  traversed first s1 s' err new → traversed first s2 s' err new.
Proof. intros He Hv [E V F O P N C]. rewrite He in E. rewrite Hv in V, F. by split. Qed.

Lemma ends_failure n w ne : ends (Some (on_error n w ne)) w [(n, Some ne)].
Proof.
  pose proof (on_error_node n w ne) as Hn. unfold ends.
  destruct (on_error n w ne) eqn:Herr; try done; by exists [], n, ne.
Qed.

(** A node and then what follows it. *)
Lemma traversed_cons x s s1 s' err new :
  x ∉ r_visited s → r_executed s1 = r_executed s ++ [(x, None)] → r_visited s1 = {[ x ]} ∪ r_visited s →
  traversed (edge g x) s1 s' err new → traversed (λ y, y = x) s s' err ((x, None) :: new).
Proof.
  intros Hx He Hv [E V F O P N C]. rewrite Hv in *. split; simpl.
  - by rewrite E, He, <-app_assoc.
  - rewrite V. set_solver.
  - intros y [->|Hy]%elem_of_cons; [done|]. specialize (F y Hy). set_solver.
  - constructor; [|done]. intros Hin. specialize (F x Hin). set_solver.
  - intros [|x' l1] y l2 Hl; simpl in Hl; injection Hl as <- Hl; [by left|]. right.
    destruct (P l1 y l2 Hl) as [Hy|(z & Hz & Hzy)]; [exists x; by split; [left|]|].
    exists z. by split; [right|].
  - apply (ends_app _ _ [(x, None)]); [by constructor|done].
  - intros Herr. destruct (C Herr) as [C1 C2]. split; [intros y ->; rewrite V; set_solver|].
    intros y z [->|Hy]%elem_of_cons Hz; [by apply C1|by eapply C2].
Qed.

(** The two loops over edges. *)
Section Loops.
Context (visit_edge : string → Run → option TraverseError * Run) (visited : gset string)
  (edges : list GraphEdge).
Hypothesis visit_edge_ok : ∀ e s, e ∈ edges → visited ⊆ r_visited s →
  ∃ new, traversed (λ y, y = ge_To e) s (visit_edge (ge_To e) s).2 (visit_edge (ge_To e) s).1 new.

Lemma edges_traversed (loop : list GraphEdge → Run → option TraverseError * Run) l s :
  (∀ s, loop [] s = (None, s)) →
  (∀ e l s, ∃ s0, r_executed s0 = r_executed s ∧ r_visited s0 = r_visited s ∧
     ((∃ c i, ctx i = Some c ∧ loop (e :: l) s = (Some (TContext c), s0)) ∨
      loop (e :: l) s =
        (let '(err, s) := visit_edge (ge_To e) s0 in
         match err with Some err => (Some err, s) | None => loop l s end))) →
  (∀ e, e ∈ l → e ∈ edges) → visited ⊆ r_visited s →
  ∃ new, traversed (λ y, ∃ e, e ∈ l ∧ ge_To e = y) s (loop l s).2 (loop l s).1 new.
Proof.
  intros Hnil Hcons. revert s. induction l as [|e l IH]; intros s Hl Hv.
  { rewrite Hnil. exists []. apply traversed_nil; [done|done|by constructor|]. set_solver. }
  destruct (Hcons e l s) as (s0 & He0 & Hv0 & [(c & i & Hc & ->)| ->]).
  { exists []. apply traversed_nil; [done|done|by split; [constructor|exists i]|done]. }
  destruct (visit_edge_ok e s0) as [new1 H1]; [apply Hl; by left|set_solver|].
  destruct (visit_edge (ge_To e) s0) as [[err|] s1]; simpl in *.
  - exists new1. apply traversed_start with s0; [done|done|]. destruct H1 as [E V F O P N C].
    split; try done. intros l1 y l2 Hl1. destruct (P l1 y l2 Hl1) as [->|?]; [|by right].
    left. exists e. by split; [left|].
  - destruct (IH s1) as [new2 H2]; [set_solver|destruct H1 as [_ V _ _ _ _ _]; set_solver|].
    exists (new1 ++ new2). apply traversed_start with s0; [done|done|].
    eapply traversed_weaken; [|by eapply traversed_seq]. intros y. simpl. set_solver.
Qed.
End Loops.

Lemma traverse_traversed fuel x s :
  is_Some (g_nodes g !! x) → x ∈ universe g → (size (universe g ∖ r_visited s) < fuel)%nat →
  ∃ new, traversed (λ y, y = x) s (traverse g ctx on_error fuel x s).2
    (traverse g ctx on_error fuel x s).1 new.
Proof.
  revert x s. induction fuel as [|fuel IH]; intros x s Hx Hu Hfuel; [lia|]. simpl.
  destruct (ctx (r_checks s)) as [c|] eqn:Hc.
  { exists []. apply traversed_nil; [done|done|by split; [constructor|eexists]|done]. }
  simpl. case_bool_decide as Hvis.
  { exists []. apply traversed_nil; [done|done|by constructor|]. by intros _ y ->. }
  unfold GetNode. destruct Hx as [node Hnode]. rewrite Hnode. unfold execute_node. simpl.
  destruct (node_Execute node (r_world s)) as [w [ne|]]; simpl.
  { exists [(x, Some ne)]. split; simpl; [done|set_solver|set_solver|apply NoDup_singleton| |apply ends_failure|done].
    intros [|? l1] y l2 Hl; simplify_eq/=; [by left|by destruct l1]. }
  set (s1 := mkRun w _ _ _).
  destruct (edges_traversed (traverse g ctx on_error fuel) (r_visited s1) (GetEdges g x)) with
    (loop := traverse_edges ctx (traverse g ctx on_error fuel)) (l := GetEdges g x) (s := s1) as [new Hnew].
  - intros e s2 He Hsub. apply IH.
    + by apply (gw_edges g wf x e He).
    + by eapply target_in_universe.
    + assert (size (universe g ∖ r_visited s2) < size (universe g ∖ r_visited s))%nat; [|lia].
      apply subset_size. simpl in Hsub. split; [set_solver|]. intros Hs.
      assert (x ∈ universe g ∖ r_visited s2) as Hin by (apply Hs; set_solver). set_solver.
  - done.
  - intros e l s2. simpl. eexists. split; [|split; [|destruct (ctx (r_checks s2)) as [c|] eqn:Hc2]];
      [| |left|right]; [| |by exists c, (r_checks s2)|done]; done.
  - done.
  - done.
  - exists ((x, None) :: new). by apply (traversed_cons x s s1).
Qed.
End Spec.

Lemma follows_reach g first x new y :
  (∀ z, first z → rtc (edge g) x z) → follows g first new → y ∈ new.*1 → rtc (edge g) x y.
Proof.
  intros Hfirst Hf Hy.
  enough (∀ n l1 y l2, (length l1 < n)%nat → new.*1 = l1 ++ y :: l2 → rtc (edge g) x y) as Hall.
  { apply list_elem_of_split in Hy as (l1 & l2 & Hl). by apply (Hall (S (length l1)) l1 y l2); [lia|]. }
  clear y Hy. induction n as [|n IH]; intros l1 y l2 Hlen Hl; [lia|].
  destruct (Hf l1 y l2 Hl) as [Hy|(z & Hz & Hzy)]; [by apply Hfirst|].
  apply list_elem_of_split in Hz as (k1 & k2 & ->).
  eapply rtc_r; [|exact Hzy]. apply (IH k1 z (k2 ++ y :: l2)).
  - rewrite length_app in Hlen. simpl in Hlen. lia.
  - by rewrite Hl, <-app_assoc.
Qed.

(** *** With and without observability *)

(** What the caller of the observed traversal sees of an error. *)
Definition unpaused (err : TraverseError) : TraverseError :=
  match err with TPaused _ ne => TNode ne | _ => err end.

Lemma traverse_unpaused g ctx on_error on_error' fuel x s :
  (∀ n w ne, on_error' n w ne = unpaused (on_error n w ne)) →
  traverse g ctx on_error' fuel x s =
    (unpaused <$> (traverse g ctx on_error fuel x s).1, (traverse g ctx on_error fuel x s).2).
Proof.
  intros Herr. revert x s. induction fuel as [|fuel IH]; intros x s; simpl; [done|].
  destruct (ctx (r_checks s)); [done|]. simpl. case_bool_decide; [done|].
  destruct (GetNode x g) as [|node]; [done|]. unfold execute_node. simpl.
  destruct (node_Execute node (r_world s)) as [w [ne|]]; simpl; [by rewrite Herr|].
  generalize (mkRun w ({[x]} ∪ r_visited s) (S (r_checks s)) (r_executed s ++ [(x, None)])).
  induction (GetEdges g x) as [|e edges IHe]; intros s1; simpl; [done|].
  destruct (ctx (r_checks s1)); [done|]. rewrite IH.
  destruct (traverse g ctx on_error fuel (ge_To e) _) as [[err|] s2]; simpl; [done|]. apply IHe.
Qed.

(** A pause is what some node's error says. *)
Lemma traverse_paused g ctx span fuel x s :
  match (traverse g ctx (pause_or_fail g span) fuel x s).1 with
  | Some (TPaused p ne) => ∃ n w, extractPausedResult g span ne n w = Some p
  | _ => True
  end.
Proof.
  revert x s. induction fuel as [|fuel IH]; intros x s; simpl; [done|].
  destruct (ctx (r_checks s)); [done|]. simpl. case_bool_decide; [done|].
  destruct (GetNode x g) as [|node]; [done|]. unfold execute_node. simpl.
  destruct (node_Execute node (r_world s)) as [w [ne|]]; simpl.
  { unfold pause_or_fail. destruct (extractPausedResult g span ne x w) eqn:Hp; eauto. }
  generalize (mkRun w ({[x]} ∪ r_visited s) (S (r_checks s)) (r_executed s ++ [(x, None)])).
  induction (GetEdges g x) as [|e edges IHe]; intros s1; simpl; [done|].
  destruct (ctx (r_checks s1)); [done|].
  specialize (IH (ge_To e) (mkRun (r_world s1) (r_visited s1) (S (r_checks s1)) (r_executed s1))).
  destruct (traverse g ctx _ fuel (ge_To e) _) as [[err|] s2]; simpl; [done|]. apply IHe.
Qed.

(** What was visited is what was there before and what is reached from it. *)
Lemma closed_reach g (visited : gset string) x y :
  x ∈ visited → (∀ u v, u ∈ visited → edge g u v → v ∈ visited) → rtc (edge g) x y → y ∈ visited.
Proof. intros Hx Hc Hr. induction Hr as [|x z y Hxz _ IH]; eauto. Qed.

Lemma pause_or_fail_node g span n w ne :
  match pause_or_fail g span n w ne with TPaused _ _ | TNode _ => True | _ => False end.
Proof. unfold pause_or_fail. by destruct (extractPausedResult _ _ _ _ _). Qed.

(** How a run ends, by its executions. *)
Definition run_ends (g : Graph) (ctx : Ctx) (span : option (string * string))
    (res : ExecError + ExecutionResult) (s : Run) : Prop :=
  let ok := Forall (λ x : string * option NodeError, x.2 = None) in
  match res with
  | inr None => ok (r_executed s)
  | inr (Some p) => ∃ pre n ne, r_executed s = pre ++ [(n, Some ne)] ∧ ok pre ∧
      extractPausedResult g span ne n (r_world s) = Some p
  | inl (XTraverse (TNode ne)) => ∃ pre n, r_executed s = pre ++ [(n, Some ne)] ∧ ok pre ∧
      extractPausedResult g span ne n (r_world s) = None
  | inl (XTraverse (TContext e)) => ok (r_executed s) ∧ ∃ i, ctx i = Some e
  | inl (XText _) => r_executed s = []
  | inl (XTraverse _) => False
  end.

Lemma ends_run_ends g ctx span err s :
  ends ctx (pause_or_fail g span) err (r_world s) (r_executed s) →
  run_ends g ctx span (run_result err) s.
Proof.
  unfold ends, run_ends, pause_or_fail. destruct err as [[p ne|ne|e|e|]|]; simpl; try done;
    intros (pre & n & ne' & Hex & Hok & Herr);
    destruct (extractPausedResult g span ne' n (r_world s)) eqn:Hp; simplify_eq; eauto 7.
Qed.
End Exec.
Arguments Run : clear implicits.

(** ** Properties *)

(** C19. Running a graph executes no node twice and only nodes that can be reached
    from the entry; each node after the first runs after one that has an edge to
    it.  A run that succeeds has executed every node that can be reached, and
    all of them succeeded; any other run has stopped at the first node that
    paused or failed, or when the context was done.  Edges of every kind count
    alike: the traversal does not ask [ShouldTraverse], so a node behind a
    ConditionalEdge is executed also where its condition does not hold, unlike
    what edge.go:68 says of that edge; a run that followed the conditions could
    not satisfy the statement. *)
Theorem graph_execution `{World W} g ctx span (w : W) :
  built g →
  let '(res, s) := ExecuteWithResult g ctx span w in
  let ran := (r_executed s).*1 in
  NoDup ran ∧ (∀ y, y ∈ ran → rtc (edge g) (g_entryNode g) y) ∧
  follows g (λ y, y = g_entryNode g) (r_executed s) ∧
  (res = inr None → ∀ y, rtc (edge g) (g_entryNode g) y → y ∈ ran) ∧
  run_ends g ctx span res s.
Proof.
  intros Hb%built_wf. unfold ExecuteWithResult.
  destruct (ValidateGraph g) eqn:Hval.
  { simpl. split_and!; [constructor|set_solver| |done|done]. intros [|] ? ? ?; done. }
  apply graph_validation in Hval as (_ & Hentry & _).
  destruct (traverse_traversed g ctx (pause_or_fail g span) Hb (pause_or_fail_node g span) (dfs_fuel g)
    (g_entryNode g) (start_run w ∅)) as [new [E V F O P N C]].
  { done. }
  { unfold universe. set_solver. }
  { simpl. rewrite difference_empty_L. apply dfs_fuel_enough. }
  unfold traverseNode. destruct (traverse _ _ _ _ _ _) as [err s]. simpl in *. rewrite E in *.
  split_and!; [done| |done| |apply ends_run_ends; by rewrite E].
  - intros y Hy. eapply follows_reach; [|exact P|done]. by intros z ->.
  - intros Hres y Hy. destruct err as [[]|]; try done. destruct (C eq_refl) as [C1 C2].
    assert (y ∈ r_visited s) as Hin.
    { eapply closed_reach; [apply C1; reflexivity| |exact Hy]. intros u v Hu.
      apply C2. rewrite V in Hu. set_solver. }
    rewrite V in Hin. set_solver.
Qed.

(** Resuming a paused run executes, each once, nodes that can be reached from the
    paused node, and never that node itself; when it succeeds it has executed
    all of those, and no others: what the paused run had left to do elsewhere is
    not done. *)
Theorem graph_resumption `{World W} g ctx span (w : W) paused :
  built g →
  let '(res, s) := ResumeFromPaused g ctx span w (Some paused) in
  let ran := (r_executed s).*1 in
  NoDup ran ∧ (∀ y, y ∈ ran → y ≠ pr_NodeID paused ∧ rtc (edge g) (pr_NodeID paused) y) ∧
  (res = inr None → ∀ y, y ≠ pr_NodeID paused → rtc (edge g) (pr_NodeID paused) y → y ∈ ran) ∧
  run_ends g ctx span res s.
Proof.
  intros Hb%built_wf. unfold ResumeFromPaused. set (p := pr_NodeID paused).
  assert (∀ err, let '(res, s) := (inl (XText err), start_run w ∅) : (ExecError + ExecutionResult) * Run W in
    NoDup (r_executed s).*1 ∧ (∀ y, y ∈ (r_executed s).*1 → y ≠ p ∧ rtc (edge g) p y) ∧
    (res = inr None → ∀ y, y ≠ p → rtc (edge g) p y → y ∈ (r_executed s).*1) ∧
    run_ends g ctx span res s) as Hfail.
  { intros err. simpl. split_and!; [constructor|set_solver|done|done]. }
  destruct (String.eqb p ""); [apply Hfail|]. destruct (ValidateGraph g); [apply Hfail|].
  destruct (GetNode p g); [apply Hfail|]. destruct (_ && _); [apply Hfail|]. clear Hfail.
  set (w' := if negb _ then _ else _).
  destruct (edges_traversed g ctx (pause_or_fail g span) Hb (pause_or_fail_node g span)
    (traverseNode g ctx span (dfs_fuel g)) ∅ (GetEdges g p))
    with (loop := resume_edges (traverseNode g ctx span (dfs_fuel g))) (l := GetEdges g p)
         (s := start_run w' {[ p ]}) as [new [E V F O P N C]].
  { intros e s He _. apply traverse_traversed; [done|apply pause_or_fail_node| | |].
    - by apply (gw_edges g Hb p e He).
    - by eapply target_in_universe.
    - eapply Nat.le_lt_trans; [apply subseteq_size|apply dfs_fuel_enough]. set_solver. }
  { done. }
  { intros e l s. exists s. split_and!; [done|done|by right]. }
  { done. }
  { set_solver. }
  destruct (resume_edges _ _ _) as [err s]. simpl in *. rewrite E in *.
  split_and!; [done| | |apply ends_run_ends; by rewrite E].
  - intros y Hy. split; [set_solver|]. eapply follows_reach; [|exact P|done].
    intros z (e & He & Hz). apply rtc_once. by exists e.
  - intros Hres y Hne Hy. destruct err as [[]|]; try done. destruct (C eq_refl) as [C1 C2].
    assert (y ∈ r_visited s) as Hin.
    { eapply closed_reach; [| |exact Hy]; [rewrite V; set_solver|]. intros u v Hu Huv.
      rewrite V in Hu. apply elem_of_union in Hu as [->%elem_of_singleton|Hu]; [by apply C1|].
      eapply C2; [|exact Huv]. set_solver. }
    rewrite V in Hin. set_solver.
Qed.

(** Observation does not change a run: the observed execution of a graph runs the
    same nodes with the same effects as the plain one, and returns its error; a
    pause, which the plain one returns as a result, it returns as the error of
    the node that paused. *)
Theorem observed_execution `{World W} g ctx span (w : W) :
  let '(res, s) := ExecuteWithResult g ctx span w in
  ∃ err, ExecuteWithObservability g ctx w = (err, s) ∧
    match res with
    | inr None => err = None
    | inl e => err = Some e
    | inr (Some p) => ∃ ne n w', err = Some (XTraverse (TNode ne)) ∧ extractPausedResult g span ne n w' = Some p
    end.
Proof.
  unfold ExecuteWithResult, ExecuteWithObservability. destruct (ValidateGraph g); [by eexists|].
  unfold traverseNode, traverseNodeWithObservability.
  rewrite (traverse_unpaused g ctx (pause_or_fail g span) (λ _ _ err, TNode err)).
  2:{ intros n w' ne. unfold pause_or_fail. by destruct (extractPausedResult _ _ _ _ _). }
  pose proof (traverse_paused g ctx span (dfs_fuel g) (g_entryNode g) (start_run w ∅)) as Hp.
  destruct (traverse _ _ _ _ _ _) as [err s]. simpl in *. eexists. split; [done|].
  destruct err as [[p ne| | | |]|]; simpl; try done.
  destruct Hp as (n & w' & Hp). by exists ne, n, w'.
Qed.

(** ** Composite nodes (node.go) *)

Section Composite.
Context {W : Type}.

(** The [Execute] of a child. *)
Definition Body : Type := W → W * option NodeError.

Record LoopNode := mkLoop {
  ln_child : option Body;
  ln_condition : option (W → bool);
  ln_maxIters : Z;
}.

Definition NewLoopNode (child : option Body) (condition : option (W → bool)) (MaxIters : Z) : LoopNode :=
  mkLoop child condition (if MaxIters =? 0 then 1000 else MaxIters).

(** The loop, from an iteration on; [fuel] is the number of iterations left. *)
Fixpoint loop_iterate (n : LoopNode) (child : Body) (fuel : nat) (w : W) : W * option NodeError :=
  match fuel with
  | O => (w, None)
  | S fuel =>
      match ln_condition n with
      | Some condition =>
          if negb (condition w) then (w, None)
          else
            let '(w, err) := child w in
            match err with Some e => (w, Some e) | None => loop_iterate n child fuel w end
      | None =>
          let '(w, err) := child w in
          match err with Some e => (w, Some e) | None => loop_iterate n child fuel w end
      end
  end.

Definition LoopNode_Execute (n : LoopNode) (w : W) : W * option NodeError :=
  match ln_child n with
  | None => (w, None)
  | Some child => loop_iterate n child (Z.to_nat (ln_maxIters n)) w
  end.

Record ConditionalNode := mkConditional {
  cn_condition : option (W → bool);
  cn_trueNode : option Body;
  cn_falseNode : option Body;
}.

Definition ConditionalNode_Execute (n : ConditionalNode) (w : W) : W * option NodeError :=
  match cn_condition n with
  | None => (w, None)
  | Some condition =>
      match (if condition w then cn_trueNode n else cn_falseNode n) with
      | Some body => body w
      | None => (w, None)
      end
  end.

(** What [ParallelNode.Execute] makes of its children's errors, in the order in
    which the children end. *)
Fixpoint first_error (ended : list (option NodeError)) : option NodeError :=
  match ended with
  | [] => None
  | Some e :: _ => Some e
  | None :: ended => first_error ended
  end.

(** [k] runs of the child in a row, all of them successful. *)
Fixpoint iterated (child : Body) (k : nat) (w : W) : option W :=
  match k with
  | O => Some w
  | S k => match child w with (w, None) => iterated child k w | (_, Some _) => None end
  end.

Definition continues (n : LoopNode) (w : W) : Prop :=
  match ln_condition n with Some condition => condition w = true | None => True end.

#[export] Instance continues_dec n w : Decision (continues n w).
Proof. unfold continues. destruct (ln_condition n); apply _. Defined.

(** A loop node ends: it has run its child some number of times, at most
    maxIters, each run successful and each where the condition held, and stops
    because the bound is reached, because the condition does not hold, or
    because the next run fails. *)
Theorem loop_node n child w :
  ln_child n = Some child →
  ∃ k w', (Z.of_nat k ≤ Z.max 0 (ln_maxIters n)) ∧ iterated child k w = Some w' ∧
    (∀ j wj, (j < k)%nat → iterated child j w = Some wj → continues n wj) ∧
    match LoopNode_Execute n w with
    | (wend, None) => wend = w' ∧ (Z.of_nat k = Z.max 0 (ln_maxIters n) ∨ ¬ continues n w')
    | (wend, Some e) => Z.of_nat k < ln_maxIters n ∧ continues n w' ∧ child w' = (wend, Some e)
    end.
Proof.
  intros Hchild. unfold LoopNode_Execute. rewrite Hchild.
  assert (Z.of_nat (Z.to_nat (ln_maxIters n)) = Z.max 0 (ln_maxIters n)) as Hmax by lia.
  assert (∀ fuel w, ∃ k w', (k ≤ fuel)%nat ∧ iterated child k w = Some w' ∧
    (∀ j wj, (j < k)%nat → iterated child j w = Some wj → continues n wj) ∧
    match loop_iterate n child fuel w with
    | (wend, None) => wend = w' ∧ (k = fuel ∨ ¬ continues n w')
    | (wend, Some e) => (k < fuel)%nat ∧ continues n w' ∧ child w' = (wend, Some e)
    end) as Hloop; last first.
  { destruct (Hloop (Z.to_nat (ln_maxIters n)) w) as (k & w' & Hk & Hit & Hc & Hend).
    exists k, w'. split_and!; [lia|done|done|].
    destruct (loop_iterate _ _ _ _) as [wend [e|]].
    - destruct Hend as (? & ? & ?). split_and!; [lia|done|done].
    - destruct Hend as [-> [->|?]]; auto with lia. }
  clear w Hmax. induction fuel as [|fuel IH]; intros w.
  { exists 0%nat, w. simpl. split_and!; [lia|done|lia|done|by left]. }
  assert (continues n w → loop_iterate n child (S fuel) w =
    match child w with (w, Some e) => (w, Some e) | (w, None) => loop_iterate n child fuel w end) as Hgo.
  { unfold continues. simpl. destruct (ln_condition n); [intros ->|intros _]; by destruct (child w) as [? []]. }
  destruct (decide (continues n w)) as [Hc|Hc].
  - rewrite Hgo by done. destruct (child w) as [w1 [e|]] eqn:Hcw.
    { exists 0%nat, w. split_and!; [lia|done|lia|lia|done|done]. }
    destruct (IH w1) as (k & w' & Hk & Hit & Hcs & Hend).
    exists (S k), w'. simpl. rewrite Hcw. split_and!; [lia|done| |].
    + intros [|j] wj Hj; simpl; [by intros [= <-]|]. rewrite Hcw. apply Hcs. lia.
    + destruct (loop_iterate n child fuel w1) as [wend [e|]].
      * destruct Hend as (? & ? & ?). split_and!; [lia|done|done].
      * destruct Hend as [-> [->|?]]; auto.
  - exists 0%nat, w. split_and!; [lia|done|lia|]. simpl. unfold continues in *.
    destruct (ln_condition n) as [condition|]; [|done]. destruct (condition w) eqn:Hw; [done|]. simpl.
    by split; [|right].
Qed.

(** The error of a parallel node is that of one of its children, and there is
    one exactly when some child fails, whatever the order in which they end. *)
Lemma first_error_spec ended ended' :
  ended ≡ₚ ended' → (first_error ended = None ↔ Forall (λ e, e = None) ended') ∧
  ∀ e, first_error ended = Some e → Some e ∈ ended'.
Proof.
  intros Hp. assert ((first_error ended = None ↔ Forall (λ e, e = None) ended) ∧
    ∀ e, first_error ended = Some e → Some e ∈ ended) as [H1 H2].
  { clear Hp. induction ended as [|[e|] ended [IH1 IH2]]; simpl.
    - split; [split; [constructor|done]|done].
    - split; [split; [done|by intros [? _]%Forall_cons]|]. intros ? [= ->]. by left.
    - split; [rewrite IH1, Forall_cons; naive_solver|]. intros e He. right. by apply IH2. }
  split; [by rewrite H1, Hp|]. intros e He. rewrite <-Hp. by apply H2.
Qed.
End Composite.
Arguments LoopNode : clear implicits.
Arguments ConditionalNode : clear implicits.
