(* ===== verification/Policy.v ===== *)
(** * Output policies (pkg/policy, pkg/policy/rules, pkg/graph/policy_node.go)

    The engine runs the enabled rules over a content; each rule's evaluator is
    found by its type in a registry.  The content and length evaluators are
    modelled here, the regular expressions of the other two are those of the
    [regexp] package: a compiled expression is a pair of functions, which the
    caller supplies.  The audit event that ends an evaluation is left out: its
    failure is only logged. *)

From Stdlib Require Import Ascii.
From stdpp Require Import base gmap strings list fin_maps pretty.
From S2P Require Import Prelude.

Open Scope Z_scope.

(** ** Data *)

(** [Action] and [Severity] are Go string types. *)
Definition ActionPass : string := "pass".
Definition ActionBlock : string := "block".
Definition ActionRedact : string := "redact".
Definition ActionWarn : string := "warn".

Record Rule := mkRule {
  ru_ID : string;
  ru_Name : string;
  ru_Type : string;
  ru_Action : string;
  ru_Severity : string;
  ru_Enabled : bool;
  ru_Config : gmap string Value;
}.

Record Match := mkMatch { ma_Type : string; ma_Value : string; ma_Start : Z; ma_End : Z }.

Record EvaluationResult := mkEval {
  ev_RuleID : string;
  ev_RuleName : string;
  ev_Matched : bool;
  ev_Action : string;
  ev_Severity : string;
  ev_Original : string;
  ev_Redacted : string;
  ev_Matches : list Match;
  ev_Reason : string;
}.

Record PolicyConfig := mkPolicy {
  pc_Rules : list Rule;
  pc_FailOpen : bool;
  pc_StopOnFirstMatch : bool;
}.

Record EngineResult := mkEngineResult {
  er_Allowed : bool;
  er_FinalAction : string;
  er_FinalOutput : string;
  er_BlockReason : string;
  er_Results : list EvaluationResult;
}.

(** [RuleEvaluator.Evaluate]: content and rule configuration. *)
Definition Evaluator : Type := string → gmap string Value → result EvaluationResult.
(** [Registry], by evaluator type. *)
Definition Registry : Type := gmap string Evaluator.

(** ** The engine *)

(** The fields the engine sets on the evaluator's result. *)
Definition label_result (rule : Rule) (e : EvaluationResult) : EvaluationResult :=
  mkEval (ru_ID rule) (ru_Name rule) (ev_Matched e) (ru_Action rule) (ru_Severity rule)
    (ev_Original e) (ev_Redacted e) (ev_Matches e) (ev_Reason e).

(** A rule that matched. *)
Definition apply_match (rule : Rule) (e : EvaluationResult) (r : EngineResult) : EngineResult :=
  let results := er_Results r ++ [e] in
  if String.eqb (ru_Action rule) ActionBlock then
    mkEngineResult false ActionBlock "" (ev_Reason e) results
  else if String.eqb (ru_Action rule) ActionRedact then
    mkEngineResult (er_Allowed r)
      (if negb (String.eqb (er_FinalAction r) ActionBlock) then ActionRedact else er_FinalAction r)
      (if negb (String.eqb (ev_Redacted e) "") then ev_Redacted e else er_FinalOutput r)
      (er_BlockReason r) results
  else mkEngineResult (er_Allowed r) (er_FinalAction r) (er_FinalOutput r) (er_BlockReason r) results.

Fixpoint run_rules (reg : Registry) (config : PolicyConfig) (rules : list Rule) (r : EngineResult)
    : result EngineResult :=
  match rules with
  | [] => inr r
  | rule :: rules' =>
      if negb (ru_Enabled rule) then run_rules reg config rules' r
      else
        match reg !! ru_Type rule with
        | None => run_rules reg config rules' r
        | Some evaluate =>
            match evaluate (er_FinalOutput r) (ru_Config rule) with
            | inl err =>
                if pc_FailOpen config then run_rules reg config rules' r
                else inl (EWrap ("rule " +:+ ru_ID rule +:+ " evaluation failed: ") err "")
            | inr e =>
                let e := label_result rule e in
                if negb (ev_Matched e) then run_rules reg config rules' r
                else
                  let r' := apply_match rule e r in
                  if pc_StopOnFirstMatch config && String.eqb (ru_Action rule) ActionBlock
                  then inr r'
                  else run_rules reg config rules' r'
            end
        end
  end.

Definition Evaluate (reg : Registry) (config : PolicyConfig) (content : string)
    : result EngineResult :=
  run_rules reg config (pc_Rules config) (mkEngineResult true ActionPass content "" []).

(** ** Built-in evaluators *)

Definition no_match (content : string) : EvaluationResult :=
  mkEval "" "" false "" "" content "" [] "".

(** *** content.go *)

Definition defaultBlockedKeywords : gmap string (list string) :=
  {[ "harmful" := ["how to hack"; "how to steal"; "illegal drugs"; "make a bomb";
                   "exploit vulnerability"];
     "profanity" := []; "competitors" := [] ]}.

Definition config_list (config : gmap string Value) (key : string) : option (list (option string)) :=
  match config !! key with Some (VList l) => Some l | _ => None end.

Definition keyword_matches (lowerContent typ : string) (keywords : list string) : list Match :=
  (λ k, mkMatch typ k 0 0) <$> filter (λ k, strings_Contains lowerContent (strings_ToLower k)) keywords.

Definition ContentEvaluator : Evaluator := λ content config,
  let lowerContent := strings_ToLower content in
  let categories :=
    match config_list config "categories" with
    | Some cats => default "" <$> cats
    | None => ["harmful"]
    end in
  let customKeywords :=
    match config_list config "keywords" with
    | Some kw => strings_ToLower <$> omap id kw
    | None => []
    end in
  let category_matches := categories ≫= λ category,
    match defaultBlockedKeywords !! category with
    | Some keywords => keyword_matches lowerContent ("keyword:" +:+ category) keywords
    | None => []
    end in
  let custom_matches := (λ k, mkMatch "keyword:custom" k 0 0) <$>
    filter (λ k, strings_Contains lowerContent k) customKeywords in
  let matches := category_matches ++ custom_matches in
  let matched := negb (bool_decide (length matches = 0%nat)) in
  inr (mkEval "" "" matched "" "" content "" matches
         (if matched then "Blocked content detected" else "")).

(** *** length.go *)

(** A JSON number or an [int]. *)
Definition config_int (config : gmap string Value) (key : string) (dflt : Z) : Z :=
  match config !! key with Some (VFloat z) | Some (VInt z) => z | _ => dflt end.

Definition LengthEvaluator : Evaluator := λ content config,
  let maxLength := config_int config "max_length" 10000 in
  let minLength := config_int config "min_length" 0 in
  let contentLength := Z.of_nat (String.length content) in
  let r := no_match content in
  let r :=
    if (0 <? maxLength) && (maxLength <? contentLength) then
      mkEval "" "" true "" "" content
        (String.substring 0 (Z.to_nat maxLength) content +:+ "... [TRUNCATED]")
        [mkMatch "length:max" (pretty contentLength +:+ " > " +:+ pretty maxLength) 0 0]
        ("Output length " +:+ pretty contentLength +:+ " exceeds maximum " +:+ pretty maxLength)
    else r in
  let r :=
    if (0 <? minLength) && (contentLength <? minLength) then
      mkEval "" "" true "" "" content (ev_Redacted r)
        (ev_Matches r ++ [mkMatch "length:min" (pretty contentLength +:+ " < " +:+ pretty minLength) 0 0])
        ("Output length " +:+ pretty contentLength +:+ " below minimum " +:+ pretty minLength)
    else r in
  inr r.

(** *** regex.go and pii.go *)

(** [regexp.Regexp]: [FindAllStringIndex(s, -1)] and [ReplaceAllString]. *)
Record Regexp := mkRegexp {
  re_FindAll : string → list (nat * nat);
  re_ReplaceAll : string → string → string;
}.

Definition slice (s : string) (m : nat * nat) : string := String.substring m.1 (m.2 - m.1) s.

Definition RegexEvaluator (compile : string → result Regexp) : Evaluator := λ content config,
  match config !! "pattern" with
  | Some (VString patternStr) =>
      if String.eqb patternStr "" then inr (no_match content)
      else
        match compile patternStr with
        | inl err => inl (EWrap ("invalid regex pattern '" +:+ patternStr +:+ "': ") err "")
        | inr pattern =>
            match re_FindAll pattern content with
            | [] => inr (no_match content)
            | ms =>
                let replacement :=
                  match config !! "replacement" with
                  | Some (VString r) => if negb (String.eqb r "") then r else "[REDACTED]"
                  | _ => "[REDACTED]"
                  end in
                inr (mkEval "" "" true "" "" content (re_ReplaceAll pattern content replacement)
                       ((λ m, mkMatch "regex" (slice content m) (Z.of_nat m.1) (Z.of_nat m.2)) <$> ms)
                       "Custom pattern matched")
            end
        end
  | _ => inr (no_match content)
  end.

Definition maskValue (s : string) : string :=
  if (String.length s <=? 4)%nat then "****"
  else String.substring 0 2 s +:+ "****" +:+ String.substring (String.length s - 2) 2 s.

Definition pii_step (patterns : gmap string Regexp) (content : string)
    (acc : list Match * string) (piiType : string) : list Match * string :=
  match patterns !! piiType with
  | None => acc
  | Some pattern =>
      (acc.1 ++ ((λ m, mkMatch piiType (maskValue (slice content m)) (Z.of_nat m.1) (Z.of_nat m.2))
                   <$> re_FindAll pattern content),
       re_ReplaceAll pattern acc.2 ("[REDACTED-" +:+ piiType +:+ "]"))
  end.

Definition PIIEvaluator (patterns : gmap string Regexp) : Evaluator := λ content config,
  let enabledTypes :=
    match config_list config "types" with
    | Some types => default "" <$> types
    | None => ["email"; "phone_us"; "ssn"; "credit_card"]
    end in
  let '(matches, redacted) := foldl (pii_step patterns content) ([], content) enabledTypes in
  let matched := negb (bool_decide (length matches = 0%nat)) in
  inr (mkEval "" "" matched "" "" content redacted matches
         (if matched then "PII detected in output" else "")).

(** ** What the engine decides *)

Section Engine.
Context (reg : Registry) (config : PolicyConfig).

(** A property of results that every match keeps holds in the end. *)
Lemma run_rules_ind (P : EngineResult → Prop) rules r r' :
  (∀ rule e r, rule ∈ rules → ru_Enabled rule = true → ev_Matched e = true →
     P r → P (apply_match rule (label_result rule e) r)) →
  P r → run_rules reg config rules r = inr r' → P r'.
Proof.
  revert r. induction rules as [|rule rules IH]; intros r Hstep Hr; simpl; [by intros [= <-]|].
  assert (∀ r, P r → run_rules reg config rules r = inr r' → P r') as IH'.
  { intros r0. apply IH. intros rule' e r1 Hin. apply Hstep. by right. }
  destruct (ru_Enabled rule) eqn:Hen; simpl; [|by apply IH'].
  destruct (reg !! ru_Type rule) as [evaluate|]; [|by apply IH'].
  destruct (evaluate _ _) as [err|e]; [destruct (pc_FailOpen config); [by apply IH'|done]|].
  destruct (ev_Matched e) eqn:Hm; simpl; [|by apply IH'].
  assert (P (apply_match rule (label_result rule e) r)) as Hr' by (apply Hstep; [by left|done..]).
  destruct (_ && _); [by intros [= <-]|by apply IH'].
Qed.

Definition has_action (a : string) (r : EngineResult) : Prop :=
  Exists (λ e, ev_Action e = a) (er_Results r).

Record verdict (content : string) (r : EngineResult) : Prop := {
  vd_allowed : er_Allowed r = false ↔ has_action ActionBlock r;
  vd_action : er_FinalAction r =
    if er_Allowed r then
      (if bool_decide (has_action ActionRedact r) then ActionRedact else ActionPass)
    else ActionBlock;
  vd_results : Forall (λ e, ev_Matched e = true ∧ ∃ rule, rule ∈ pc_Rules config ∧
    ru_Enabled rule = true ∧ ru_ID rule = ev_RuleID e ∧ ru_Action rule = ev_Action e) (er_Results r);
  vd_output : er_Allowed r = true → ¬ has_action ActionRedact r → er_FinalOutput r = content;
}.

Lemma apply_match_verdict content rule e r :
  rule ∈ pc_Rules config → ru_Enabled rule = true → ev_Matched e = true →
  verdict content r → verdict content (apply_match rule (label_result rule e) r).
Proof.
  intros Hin Hen Hm [V1 V2 V3 V4].
  assert (∀ a r', er_Results r' = er_Results r ++ [label_result rule e] →
    has_action a r' ↔ has_action a r ∨ ru_Action rule = a) as Hhas.
  { intros a r' Hr'. unfold has_action. rewrite Hr', Exists_app, Exists_cons, Exists_nil. simpl. tauto. }
  assert (Forall (λ e, ev_Matched e = true ∧ ∃ rule, rule ∈ pc_Rules config ∧
    ru_Enabled rule = true ∧ ru_ID rule = ev_RuleID e ∧ ru_Action rule = ev_Action e)
    (er_Results r ++ [label_result rule e])) as V3'.
  { apply Forall_app. split; [done|]. apply Forall_singleton. split; [done|]. by exists rule. }
  unfold apply_match. destruct (String.eqb_spec (ru_Action rule) ActionBlock) as [Hb|Hb].
  { split; simpl; [|done|done|done]. rewrite Hhas by done. naive_solver. }
  destruct (String.eqb_spec (ru_Action rule) ActionRedact) as [Hd|Hd].
  - split; simpl; [|rewrite V2|done|].
    + rewrite Hhas by done. rewrite V1. naive_solver.
    + destruct (er_Allowed r); [|done]. rewrite (bool_decide_eq_true_2 (has_action _ (mkEngineResult _ _ _ _ _)));
        [by case_bool_decide|]. apply Hhas; [done|by right].
    + intros _ Hn. exfalso. apply Hn, Hhas; [done|by right].
  - split; simpl; [|rewrite V2|done|].
    + rewrite Hhas by done. rewrite V1. naive_solver.
    + destruct (er_Allowed r); [|done].
      rewrite (bool_decide_ext (has_action ActionRedact (mkEngineResult _ _ _ _ _)) (has_action ActionRedact r));
        [done|]. rewrite Hhas by done. naive_solver.
    + intros Ha Hn. apply V4; [done|]. intros H. apply Hn, Hhas; [done|by left].
Qed.

(** The output and the failure of a run depend on the content it starts with
    only. *)
Lemma run_rules_output rules r1 r2 :
  er_FinalOutput r1 = er_FinalOutput r2 →
  match run_rules reg config rules r1, run_rules reg config rules r2 with
  | inr a, inr b => er_FinalOutput a = er_FinalOutput b
  | inl e, inl e' => e = e'
  | _, _ => False
  end.
Proof.
  revert r1 r2. induction rules as [|rule rules IH]; intros r1 r2 Heq; simpl; [done|].
  destruct (negb _); [by apply IH|]. destruct (reg !! _) as [evaluate|]; [|by apply IH].
  rewrite Heq. destruct (evaluate _ _) as [err|e]; [destruct (pc_FailOpen config); [by apply IH|done]|].
  destruct (negb _); [by apply IH|].
  assert (er_FinalOutput (apply_match rule (label_result rule e) r1) =
          er_FinalOutput (apply_match rule (label_result rule e) r2)) as Heq'.
  { unfold apply_match. destruct (String.eqb _ ActionBlock); [done|].
    destruct (String.eqb _ ActionRedact); simpl; [by destruct (negb _)|done]. }
  destruct (_ && _); [done|by apply IH].
Qed.

(** A run that blocks ends with what the rules after a blocking rule make of
    the empty string. *)
Lemma run_rules_blocked rules r r' :
  er_Allowed r = true → run_rules reg config rules r = inr r' → er_Allowed r' = false →
  ∃ l1 rule l2, rules = l1 ++ rule :: l2 ∧ ru_Action rule = ActionBlock ∧
    ((pc_StopOnFirstMatch config = true ∧ er_FinalOutput r' = "") ∨
     ∃ r2, run_rules reg config l2 (mkEngineResult true ActionPass "" "" []) = inr r2 ∧
       er_FinalOutput r' = er_FinalOutput r2).
Proof.
  revert r. induction rules as [|rule rules IH]; intros r Ha; simpl; [intros [= <-]; congruence|].
  assert (∀ r, er_Allowed r = true → run_rules reg config rules r = inr r' → er_Allowed r' = false →
    ∃ l1 rule0 l2, rule :: rules = l1 ++ rule0 :: l2 ∧ ru_Action rule0 = ActionBlock ∧
    ((pc_StopOnFirstMatch config = true ∧ er_FinalOutput r' = "") ∨
     ∃ r2, run_rules reg config l2 (mkEngineResult true ActionPass "" "" []) = inr r2 ∧
       er_FinalOutput r' = er_FinalOutput r2)) as IH'.
  { intros r0 Ha0 Hrun Hb. destruct (IH r0 Ha0 Hrun Hb) as (l1 & rule0 & l2 & -> & H).
    by exists (rule :: l1), rule0, l2. }
  destruct (negb _); [by apply IH'|]. destruct (reg !! _) as [evaluate|]; [|by apply IH'].
  destruct (evaluate _ _) as [err|e]; [destruct (pc_FailOpen config); [by apply IH'|done]|].
  destruct (negb _); [by apply IH'|].
  destruct (String.eqb_spec (ru_Action rule) ActionBlock) as [Hb|Hb].
  - rewrite andb_true_r. unfold apply_match. rewrite (proj2 (String.eqb_eq _ _) Hb). intros Hrun _.
    exists [], rule, rules. split_and!; [done|done|].
    destruct (pc_StopOnFirstMatch config); [left; split; [done|by injection Hrun as <-]|right].
    pose proof (run_rules_output rules (mkEngineResult false ActionBlock "" (ev_Reason (label_result rule e))
      (er_Results r ++ [label_result rule e])) (mkEngineResult true ActionPass "" "" []) eq_refl) as Ho.
    rewrite Hrun in Ho. destruct (run_rules reg config rules (mkEngineResult true _ _ _ _)) as [|r2] eqn:H2; [done|].
    by exists r2.
  - rewrite andb_false_r. apply IH'. unfold apply_match.
    rewrite (proj2 (String.eqb_neq _ _) Hb). by destruct (String.eqb _ _).
Qed.

Lemma Evaluate_verdict content r :
  Evaluate reg config content = inr r → verdict content r.
Proof.
  intros Hrun. eapply run_rules_ind; [|..|exact Hrun].
  - intros rule e r0 Hin Hen Hm. by apply apply_match_verdict.
  - split; simpl; [|done|constructor|done]. split; [done|]. by intros H%Exists_nil.
Qed.
End Engine.

(** The verdict of the engine: the content is refused exactly when a matching
    rule blocks it, which is then the final action; otherwise the final action
    is to redact when some matching rule redacts, and to pass the content
    unchanged when none does.  Only enabled rules of the configuration count.
    What a refused evaluation leaves as output is what the rules after the
    blocking one make of the empty string, whatever the content was. *)
Theorem policy_verdict reg config content r :
  Evaluate reg config content = inr r →
  verdict config content r ∧
  (er_Allowed r = false →
   ∃ l1 rule l2, pc_Rules config = l1 ++ rule :: l2 ∧ ru_Action rule = ActionBlock ∧
    ((pc_StopOnFirstMatch config = true ∧ er_FinalOutput r = "") ∨
     ∃ r2, run_rules reg config l2 (mkEngineResult true ActionPass "" "" []) = inr r2 ∧
       er_FinalOutput r = er_FinalOutput r2)).
Proof.
  intros Hrun. split; [by eapply Evaluate_verdict|].
  by apply run_rules_blocked with (1 := eq_refl) (2 := Hrun).
Qed.

(** ** The policy node (policy_node.go) *)

(** What the node reads and writes in the graph state: plain values, messages
    (a [models.Message] or a non-nil pointer to one, by its content), nil
    message pointers, maps, and the results it stores. *)
Inductive StateVal :=
  | SValue (v : Value)
  | SMessage (content : string)
  | SMessageNil
  | SMap (m : gmap string Value)
  | SResults (rs : list EvaluationResult).

Notation PolicyState := (gmap string StateVal).

Definition extractContent (v : StateVal) : string :=
  match v with
  | SValue (VString val) => val
  | SMessage content => content
  | SMap val =>
      match val !! "content" with
      | Some (VString content) => content
      | _ => match val !! "Content" with Some (VString content) => content | _ => "" end
      end
  | _ => ""
  end.

(** The node's configuration never stops at the first match: [NewPolicyNode]
    leaves the field at its zero value. *)
Record PolicyNodeConfig := mkPolicyNode { pn_Rules : list Rule; pn_FailOpen : bool }.

Definition NewPolicyNode (cfg : PolicyNodeConfig) : PolicyConfig :=
  mkPolicy (pn_Rules cfg) (pn_FailOpen cfg) false.

(** The state after the call, and its error. *)
Definition evaluateAndApply (reg : Registry) (config : PolicyConfig) (state : PolicyState)
    (content targetKey : string) : PolicyState * option error :=
  match Evaluate reg config content with
  | inl err => (state, Some (EWrap "policy evaluation failed: " err ""))
  | inr result =>
      if negb (er_Allowed result) then
        (<["policy_block_reason" := SValue (VString (er_BlockReason result))]>
           (<["policy_blocked" := SValue (VBool true)]> state),
         Some (EPolicyViolation (er_BlockReason result) "v0-blocked"))
      else
        let state :=
          if String.eqb (er_FinalAction result) ActionRedact then
            <["policy_redacted" := SValue (VBool true)]>
              (<[targetKey := SValue (VString (er_FinalOutput result))]> state)
          else state in
        (<["policy_action" := SValue (VString (er_FinalAction result))]>
           (<["policy_results" := SResults (er_Results result)]> state), None)
  end.

Definition policy_content (state : PolicyState) : string :=
  match state !! "last_message" with
  | Some lastMsg => extractContent lastMsg
  | None => match state !! "last_response" with Some lastMsg => extractContent lastMsg | None => "" end
  end.

(** [PolicyNode.Execute]. *)
Definition PolicyNode_Execute (reg : Registry) (config : PolicyConfig) (state : PolicyState)
    : PolicyState * option error :=
  let '(state, err) :=
    match state !! "input_instruction" with
    | Some (SValue (VString inputStr)) =>
        if negb (String.eqb inputStr "") then
          evaluateAndApply reg config state inputStr "input_instruction"
        else (state, None)
    | _ => (state, None)
    end in
  match err with
  | Some err => (state, Some err)
  | None =>
      let content := policy_content state in
      if negb (String.eqb content "") then evaluateAndApply reg config state content "last_message"
      else (state, None)
  end.

(** The keys the node writes besides the content it filters. *)
Definition policy_keys : list string :=
  ["policy_blocked"; "policy_block_reason"; "policy_redacted"; "policy_results"; "policy_action"].

Lemma evaluateAndApply_frame reg config state content key k :
  k ∉ policy_keys → k ≠ key → (evaluateAndApply reg config state content key).1 !! k = state !! k.
Proof.
  intros Hk Hne. unfold policy_keys in Hk.
  repeat (apply not_elem_of_cons in Hk as [? Hk]).
  unfold evaluateAndApply. destruct (Evaluate _ _ _) as [|r]; [done|].
  destruct (negb _); cbn [fst]; [by rewrite !lookup_insert_ne by done|].
  destruct (String.eqb (er_FinalAction r) _); cbn [fst]; by rewrite !lookup_insert_ne by done.
Qed.

(** A node passes when no rule refused the content, and the filtered key then
    holds what the rules made of it. *)
Lemma evaluateAndApply_passed reg config state content key :
  key ∉ policy_keys → (evaluateAndApply reg config state content key).2 = None →
  ∃ r, Evaluate reg config content = inr r ∧ ¬ has_action ActionBlock r ∧
    (evaluateAndApply reg config state content key).1 !! key =
      (if bool_decide (has_action ActionRedact r) then Some (SValue (VString (er_FinalOutput r)))
       else state !! key).
Proof.
  intros Hk. unfold policy_keys in Hk. repeat (apply not_elem_of_cons in Hk as [? Hk]).
  unfold evaluateAndApply. destruct (Evaluate reg config content) as [|r] eqn:Hr; [done|].
  pose proof (Evaluate_verdict reg config content r Hr) as [V1 V2 _ _].
  destruct (er_Allowed r) eqn:Ha; simpl; [|done]. intros _. exists r.
  split; [done|]. split; [by rewrite <-V1|]. rewrite V2.
  case_bool_decide; simpl; by rewrite ?lookup_insert_ne, ?lookup_insert_eq by done.
Qed.

(** What the node leaves under a key whose content passed the rules. *)
Definition filtered (reg : Registry) (config : PolicyConfig) (content : string)
    (before after : option StateVal) : Prop :=
  ∃ r, Evaluate reg config content = inr r ∧ ¬ has_action ActionBlock r ∧
    after = (if bool_decide (has_action ActionRedact r) then Some (SValue (VString (er_FinalOutput r)))
             else before).

Definition input_content (state : PolicyState) : string :=
  match state !! "input_instruction" with Some (SValue (VString s)) => s | _ => "" end.

(** The first half of the node. *)
Lemma PolicyNode_input reg config state :
  PolicyNode_Execute reg config state =
    (let '(state, err) :=
       if String.eqb (input_content state) "" then (state, None)
       else evaluateAndApply reg config state (input_content state) "input_instruction" in
     match err with
     | Some err => (state, Some err)
     | None => if String.eqb (policy_content state) "" then (state, None)
               else evaluateAndApply reg config state (policy_content state) "last_message"
     end).
Proof.
  unfold PolicyNode_Execute, input_content.
  destruct (state !! "input_instruction") as [[[]| | | |]|] eqn:Hin; simpl;
    try (by destruct (String.eqb (policy_content state) "")).
  destruct (String.eqb s "") eqn:Hs; simpl; [by destruct (String.eqb (policy_content state) "")|].
  destruct (evaluateAndApply reg config state s _) as [state' [err|]]; [done|].
  by destruct (String.eqb (policy_content state') "").
Qed.

(** A run of the node that succeeds has passed both contents through the rules
    and left under "input_instruction" and "last_message" what they make of
    them; it changes no other key besides the node's own, so that the content
    it takes from "last_response" stays there as it was. *)
Theorem policy_node_filters reg config state state' :
  PolicyNode_Execute reg config state = (state', None) →
  (input_content state ≠ "" →
     filtered reg config (input_content state) (state !! "input_instruction") (state' !! "input_instruction")) ∧
  (policy_content state ≠ "" →
     filtered reg config (policy_content state) (state !! "last_message") (state' !! "last_message")) ∧
  (∀ k, k ∉ policy_keys → k ≠ "input_instruction" → k ≠ "last_message" → state' !! k = state !! k).
Proof.
  rewrite PolicyNode_input.
  set (P := if String.eqb (input_content state) "" then _ else _).
  assert (∀ k, k ∉ policy_keys → k ≠ "input_instruction" → P.1 !! k = state !! k) as Hframe.
  { intros k Hk Hne. unfold P. destruct (String.eqb _ _); [done|]. by apply evaluateAndApply_frame. }
  assert (policy_content P.1 = policy_content state) as Hcontent.
  { unfold policy_content. rewrite !Hframe by (compute_done || done). done. }
  assert (P.2 = None → input_content state ≠ "" → filtered reg config (input_content state)
    (state !! "input_instruction") (P.1 !! "input_instruction")) as Hin.
  { unfold P. destruct (String.eqb_spec (input_content state) "") as [?|?]; [done|]. intros H _.
    apply evaluateAndApply_passed in H as (r & ? & ? & ?); [by exists r|compute_done]. }
  destruct P as [state1 [err|]]; [done|]. simpl in *. rewrite Hcontent.
  destruct (String.eqb_spec (policy_content state) "") as [Hc|Hc].
  { intros [= ->]. split; [by apply Hin|]. split; [done|]. auto. }
  intros H. assert (state' = (evaluateAndApply reg config state1 (policy_content state) "last_message").1)
    as -> by (by rewrite H).
  rewrite <-(Hframe "last_message") by (compute_done || done). split_and!.
  - rewrite evaluateAndApply_frame by compute_done. by apply Hin.
  - intros _. destruct (evaluateAndApply_passed reg config state1 (policy_content state) "last_message")
      as (r & ? & ? & ?); [compute_done|by rewrite H|by exists r].
  - intros k Hk Hi Hl. rewrite evaluateAndApply_frame by done. by apply Hframe.
Qed.

(** ** Why a node fails *)

Section NodeErrors.
Context (reg : Registry) (cfg : PolicyNodeConfig).
Local Notation config := (NewPolicyNode cfg).

(** A rule of the list is run, on what the rules before it made of the content,
    and its evaluator answers [out]. *)
Definition reached (rules : list Rule) (r : EngineResult) (rule : Rule) (out : result EvaluationResult) : Prop :=
  ∃ l1 l2 r1 evaluate, rules = l1 ++ rule :: l2 ∧ run_rules reg config l1 r = inr r1 ∧
    ru_Enabled rule = true ∧ reg !! ru_Type rule = Some evaluate ∧
    evaluate (er_FinalOutput r1) (ru_Config rule) = out.

(** A rule that blocks is reached and matches, for that reason. *)
Definition blocks (rules : list Rule) (r : EngineResult) (reason : string) : Prop :=
  ∃ rule e, reached rules r rule (inr e) ∧ ev_Matched e = true ∧ ru_Action rule = ActionBlock ∧ ev_Reason e = reason.

(** A rule is reached and its evaluator fails. *)
Definition fails (rules : list Rule) (r : EngineResult) (err : error) : Prop :=
  ∃ rule e, reached rules r rule (inl e) ∧ err = EWrap ("rule " +:+ ru_ID rule +:+ " evaluation failed: ") e "".

(** A rule is passed over, replaces the result or ends the run with an error. *)
Lemma run_rules_cons rule rules r :
  run_rules reg config (rule :: rules) r =
    match run_rules reg config [rule] r with inl e => inl e | inr r' => run_rules reg config rules r' end.
Proof.
  simpl. destruct (negb _); [done|]. destruct (reg !! _) as [ev|]; [|done].
  destruct (ev _ _) as [err|x]; [by destruct (pn_FailOpen cfg)|]. by destruct (negb _).
Qed.

Lemma reached_cons rule rules r r' rule' out :
  run_rules reg config [rule] r = inr r' → reached rules r' rule' out → reached (rule :: rules) r rule' out.
Proof.
  intros Hr (l1 & l2 & r1 & ev & -> & Hl1 & H). exists (rule :: l1), l2, r1, ev.
  split; [done|]. split; [|done]. rewrite run_rules_cons. by rewrite Hr.
Qed.

Lemma reached_inv rule rules r rule' out :
  reached (rule :: rules) r rule' out →
  (rule' = rule ∧ ru_Enabled rule = true ∧
     ∃ evaluate, reg !! ru_Type rule = Some evaluate ∧ evaluate (er_FinalOutput r) (ru_Config rule) = out) ∨
  ∃ r', run_rules reg config [rule] r = inr r' ∧ reached rules r' rule' out.
Proof.
  intros ([|rule0 l1] & l2 & r1 & ev & [= -> ->] & Hl1 & H).
  - injection Hl1 as ->. left. naive_solver.
  - right. rewrite run_rules_cons in Hl1. destruct (run_rules reg config [rule0] r) as [|r']; [done|].
    exists r'. split; [done|]. by exists l1, l2, r1, ev.
Qed.

(** The verdict of a run says whether and why some rule blocked. *)
Lemma run_rules_blocks rules r r' :
  run_rules reg config rules r = inr r' →
  (er_Allowed r' = er_Allowed r ∧ er_BlockReason r' = er_BlockReason r ∧ ∀ reason, ¬ blocks rules r reason) ∨
  (er_Allowed r' = false ∧ blocks rules r (er_BlockReason r')).
Proof.
  revert r. induction rules as [|rule rules IH]; intros r.
  { intros [= ->]. left. split_and!; [done..|]. by intros reason (? & ? & ([] & ? & ? & ? & [=] & _) & _). }
  rewrite run_rules_cons. destruct (run_rules reg config [rule] r) as [|r1] eqn:H1; [done|]. intros Hrun.
  assert ((er_Allowed r1 = er_Allowed r ∧ er_BlockReason r1 = er_BlockReason r ∧
     (∀ ev e, ru_Enabled rule = true → reg !! ru_Type rule = Some ev →
        ev (er_FinalOutput r) (ru_Config rule) = inr e → ev_Matched e = true → ru_Action rule ≠ ActionBlock)) ∨
     (er_Allowed r1 = false ∧ ∃ e, reached (rule :: rules) r rule (inr e) ∧ ev_Matched e = true ∧
        ru_Action rule = ActionBlock ∧ ev_Reason e = er_BlockReason r1)) as Hone.
  { simpl in H1. destruct (ru_Enabled rule) eqn:Hen; simpl in H1; [|simplify_eq; left; naive_solver].
    destruct (reg !! ru_Type rule) as [ev|] eqn:Hreg; [|simplify_eq; left; naive_solver].
    destruct (ev _ _) as [err|e] eqn:Hev.
    { destruct (pn_FailOpen cfg); simplify_eq. left. split_and!; [done..|]. congruence. }
    destruct (ev_Matched e) eqn:Hm; simpl in H1; [|simplify_eq; left; split_and!; [done..|congruence]].
    injection H1 as <-. unfold apply_match. destruct (String.eqb_spec (ru_Action rule) ActionBlock) as [Hb|Hb].
    - right. split; [done|]. exists e. split_and!; [|done..]. by exists [], rules, r, ev.
    - left. destruct (String.eqb _ _); naive_solver. }
  destruct (IH r1 Hrun) as [(Ha & Hr & Hno)|[Ha (rule' & e & Hreach & He)]].
  - destruct Hone as [(Ha1 & Hr1 & Hno1)|(Ha1 & e & He1 & He2 & He3 & He4)].
    + left. split_and!; [by rewrite Ha|by rewrite Hr|]. intros reason (rule' & e & Hreach & Hm & Hb & Hreason).
      apply reached_inv in Hreach as [(-> & Hen & ev & Hreg & Hev)|(r2 & Hr2 & Hreach)]; [by eapply Hno1|].
      rewrite H1 in Hr2. injection Hr2 as <-. apply (Hno reason). by exists rule', e.
    + right. split; [by rewrite Ha|]. exists rule, e. by rewrite Hr.
  - right. split; [done|]. exists rule', e. split; [by eapply reached_cons|done].
Qed.

(** A run fails exactly when it is not to ignore errors and an evaluator fails. *)
Lemma run_rules_fails rules r :
  match run_rules reg config rules r with
  | inl err => pn_FailOpen cfg = false ∧ fails rules r err
  | inr _ => pn_FailOpen cfg = false → ∀ err, ¬ fails rules r err
  end.
Proof.
  revert r. induction rules as [|rule rules IH]; intros r.
  { intros _ err. by intros (? & ? & ([] & ? & ? & ? & [=] & _) & _). }
  rewrite run_rules_cons.
  assert (match run_rules reg config [rule] r with
    | inl err => pn_FailOpen cfg = false ∧ fails (rule :: rules) r err
    | inr _ => pn_FailOpen cfg = false → ∀ ev e, ru_Enabled rule = true → reg !! ru_Type rule = Some ev →
        ev (er_FinalOutput r) (ru_Config rule) ≠ inl e
    end) as Hone.
  { simpl. destruct (ru_Enabled rule) eqn:Hen; simpl; [|done].
    destruct (reg !! ru_Type rule) as [ev|] eqn:Hreg; [|done].
    destruct (ev _ _) as [err|e] eqn:Hev.
    - destruct (pn_FailOpen cfg); [done|]. split; [done|]. exists rule, err. split; [|done]. by exists [], rules, r, ev.
    - destruct (negb _); intros _ ev0 e0 _ [= <-]; by rewrite Hev. }
  destruct (run_rules reg config [rule] r) as [err|r1] eqn:H1; [done|].
  specialize (IH r1). destruct (run_rules reg config rules r1) as [err|r2].
  - destruct IH as [Hf (rule' & e & Hreach & He)]. split; [done|]. exists rule', e.
    split; [by eapply reached_cons|done].
  - intros Hf err (rule' & e & Hreach & He).
    apply reached_inv in Hreach as [(-> & Hen & ev & Hreg & Hev)|(r3 & Hr3 & Hreach)]; [by eapply Hone|].
    rewrite H1 in Hr3. injection Hr3 as <-. apply (IH Hf err). by exists rule', e.
Qed.

(** The rules a content is evaluated with, from the start. *)
Definition started (content : string) : EngineResult := mkEngineResult true ActionPass content "" [].

(** A content no rule blocks, and, unless errors are ignored, none fails on. *)
Definition content_passes (content : string) : Prop :=
  (∀ reason, ¬ blocks (pn_Rules cfg) (started content) reason) ∧
  (pn_FailOpen cfg = false → ∀ err, ¬ fails (pn_Rules cfg) (started content) err).

(** What a content is refused for, and the state the node leaves. *)
Definition content_refused (content : string) (err : error) (state' : PolicyState) : Prop :=
  (∃ reason, blocks (pn_Rules cfg) (started content) reason ∧ err = EPolicyViolation reason "v0-blocked" ∧
     state' !! "policy_blocked" = Some (SValue (VBool true)) ∧
     state' !! "policy_block_reason" = Some (SValue (VString reason))) ∨
  (∃ e, pn_FailOpen cfg = false ∧ fails (pn_Rules cfg) (started content) e ∧
     err = EWrap "policy evaluation failed: " e "").

Lemma evaluateAndApply_outcome state content key :
  match (evaluateAndApply reg config state content key).2 with
  | None => content_passes content
  | Some err => content_refused content err (evaluateAndApply reg config state content key).1
  end.
Proof.
  unfold evaluateAndApply, Evaluate. pose proof (run_rules_fails (pn_Rules cfg) (started content)) as Hf.
  simpl. fold (started content). destruct (run_rules reg config (pn_Rules cfg) (started content)) as [e|r] eqn:Hrun.
  - destruct Hf. right. by exists e.
  - destruct (run_rules_blocks _ _ _ Hrun) as [(Ha & _ & Hno)|[Ha Hb]]; rewrite Ha; simpl; [by split|].
    left. exists (er_BlockReason r). split_and!; [done..| |].
    + by rewrite lookup_insert_ne, lookup_insert_eq by done.
    + by rewrite lookup_insert_eq.
Qed.
End NodeErrors.

(** C25. A policy node succeeds exactly when both contents it looks at, the input and
    the last message, pass, where they are not empty; when the input passes and
    the message does not, or the input does not, it fails for that content.  A
    content passes when no enabled rule that blocks matches what the rules before
    it made of the content, and, unless the node is to ignore errors, none fails
    to evaluate.  The failure is a policy violation with the reason of a rule that
    blocked, which the state then tells, or it wraps the error of a rule that
    failed, and then only when the node is not to ignore errors. *)
Theorem policy_node_errors reg cfg state :
  let '(state', err) := PolicyNode_Execute reg (NewPolicyNode cfg) state in
  let input := input_content state in
  let message := policy_content state in
  match err with
  | None => (input ≠ "" → content_passes reg cfg input) ∧ (message ≠ "" → content_passes reg cfg message)
  | Some err =>
      (input ≠ "" ∧ content_refused reg cfg input err state') ∨
      ((input ≠ "" → content_passes reg cfg input) ∧ message ≠ "" ∧ content_refused reg cfg message err state')
  end.
Proof.
  rewrite PolicyNode_input.
  pose proof (evaluateAndApply_outcome reg cfg state (input_content state) "input_instruction") as Hin.
  assert (policy_content (evaluateAndApply reg (NewPolicyNode cfg) state (input_content state) "input_instruction").1 =
    policy_content state) as Hc.
  { unfold policy_content. by rewrite !evaluateAndApply_frame by (compute_done || done). }
  assert (∀ state1, policy_content state1 = policy_content state →
    (input_content state ≠ "" → content_passes reg cfg (input_content state)) →
    let '(state', err) :=
      if String.eqb (policy_content state1) "" then (state1, None)
      else evaluateAndApply reg (NewPolicyNode cfg) state1 (policy_content state1) "last_message" in
    match err with
    | None => (input_content state ≠ "" → content_passes reg cfg (input_content state)) ∧
        (policy_content state ≠ "" → content_passes reg cfg (policy_content state))
    | Some err => (input_content state ≠ "" ∧ content_refused reg cfg (input_content state) err state') ∨
        ((input_content state ≠ "" → content_passes reg cfg (input_content state)) ∧ policy_content state ≠ "" ∧
           content_refused reg cfg (policy_content state) err state')
    end) as Hmsg.
  { intros state1 -> Hpass. destruct (String.eqb_spec (policy_content state) "") as [|Hne]; [done|].
    pose proof (evaluateAndApply_outcome reg cfg state1 (policy_content state) "last_message") as Ho.
    destruct (evaluateAndApply _ _ state1 _ _) as [state' [err|]]; simpl in Ho; [by right|done]. }
  destruct (String.eqb_spec (input_content state) "") as [He|Hne].
  - apply Hmsg; [done|]. by intros [].
  - destruct (evaluateAndApply _ _ state _ _) as [state1 [err|]]; simpl in *; [by left|]. by apply Hmsg.
Qed.
