(* ===== verification/Breaker.v ===== *)
(** * Circuit breaker (pkg/resilience/circuit_breaker.go)

    The breaker's methods take its mutex, so a use of it by many goroutines is a
    sequence of three kinds of step: a request asks to proceed, a request that
    proceeded reports its result, and an operator resets the breaker.  Each step
    carries the clock it reads, in nanoseconds.  [OnStateChange] and telemetry
    are left out: they do not act on the breaker. *)

From stdpp Require Import base list gmap strings.
From S2P Require Import Prelude.

Open Scope Z_scope.

Module Breaker.

(** ** Data *)

Inductive CircuitState := StateClosed | StateOpen | StateHalfOpen.

#[export] Instance CircuitState_eq_dec : EqDecision CircuitState.
Proof. solve_decision. Defined.

Definition CircuitState_String (s : CircuitState) : string :=
  match s with
  | StateClosed => "closed"
  | StateOpen => "open"
  | StateHalfOpen => "half-open"
  end.

(** How the function of a call ends: it returns an error that is or is not a
    failure for [IsFailure], or it panics. *)
Inductive FnResult := FnReturns (isFailure : bool) | FnPanics.

Inductive BreakerError := ErrCircuitOpen | ErrTooManyRequests.

(** [IsFailure] is applied by the caller: a step that reports a result says
    whether it was a failure. *)
Record CircuitBreakerConfig := mkConfig {
  FailureThreshold : Z;
  SuccessThreshold : Z;
  Timeout : Z;
  HalfOpenMaxRequests : Z;
}.

Definition DefaultCircuitBreakerConfig : CircuitBreakerConfig := mkConfig 5 2 (30 * 10 ^ 9) 3.

Record CircuitBreaker := mkBreaker {
  state : CircuitState;
  failureCount : Z;
  successCount : Z;
  halfOpenCount : Z;
  lastFailureTime : Z;
}.

Definition NewCircuitBreaker (zero_time : Z) : CircuitBreaker :=
  mkBreaker StateClosed 0 0 0 zero_time.

(** ** State transitions *)

Definition toOpen (now : Z) (cb : CircuitBreaker) : CircuitBreaker :=
  mkBreaker StateOpen (failureCount cb) 0 0 now.

Definition toHalfOpen (cb : CircuitBreaker) : CircuitBreaker :=
  mkBreaker StateHalfOpen 0 0 0 (lastFailureTime cb).

Definition toClosed (cb : CircuitBreaker) : CircuitBreaker :=
  mkBreaker StateClosed 0 0 0 (lastFailureTime cb).

Definition Reset (cb : CircuitBreaker) : CircuitBreaker :=
  mkBreaker StateClosed 0 0 0 (lastFailureTime cb).

#[export] Instance BreakerError_eq_dec : EqDecision BreakerError.
Proof. solve_decision. Defined.

Section Methods.
Context (config : CircuitBreakerConfig).

Definition timed_out (now : Z) (cb : CircuitBreaker) : bool := Timeout config <? now - lastFailureTime cb.

(** The method [State]. *)
Definition State (now : Z) (cb : CircuitBreaker) : CircuitState :=
  if decide (state cb = StateOpen) then
    if timed_out now cb then StateHalfOpen else state cb
  else state cb.

Definition beforeRequest (now : Z) (cb : CircuitBreaker) : CircuitBreaker * option BreakerError :=
  match state cb with
  | StateClosed => (cb, None)
  | StateOpen => if timed_out now cb then (toHalfOpen cb, None) else (cb, Some ErrCircuitOpen)
  | StateHalfOpen =>
      if HalfOpenMaxRequests config <=? halfOpenCount cb then (cb, Some ErrTooManyRequests)
      else (mkBreaker StateHalfOpen (failureCount cb) (successCount cb) (halfOpenCount cb + 1)
              (lastFailureTime cb), None)
  end.

Definition afterRequest (now : Z) (isFailure : bool) (cb : CircuitBreaker) : CircuitBreaker :=
  match state cb with
  | StateClosed =>
      if isFailure then
        let cb := mkBreaker StateClosed (failureCount cb + 1) (successCount cb) (halfOpenCount cb) now in
        if FailureThreshold config <=? failureCount cb then toOpen now cb else cb
      else mkBreaker StateClosed 0 (successCount cb) (halfOpenCount cb) (lastFailureTime cb)
  | StateHalfOpen =>
      if isFailure then toOpen now cb
      else
        let cb := mkBreaker StateHalfOpen (failureCount cb) (successCount cb + 1) (halfOpenCount cb)
                    (lastFailureTime cb) in
        if SuccessThreshold config <=? successCount cb then toClosed cb else cb
  | StateOpen => cb
  end.

(** [Execute], and [ExecuteWithResult], of a function that starts at [now] and
    ends at [later].  A panic of the function goes on to the caller: the result is
    not recorded. *)
Definition Execute (now later : Z) (result : FnResult) (cb : CircuitBreaker)
    : CircuitBreaker * option BreakerError :=
  match beforeRequest now cb with
  | (cb, Some err) => (cb, Some err)
  | (cb, None) =>
      match result with
      | FnReturns isFailure => (afterRequest later isFailure cb, None)
      | FnPanics => (cb, None)
      end
  end.

(** ** Steps *)

Inductive BreakerEvent :=
  | Before (now : Z)                      (** a request asks to proceed *)
  | After (now : Z) (isFailure : bool)    (** a request that proceeded ends *)
  | ResetBy (now : Z).

Definition event_time (e : BreakerEvent) : Z :=
  match e with Before now | After now _ | ResetBy now => now end.

Definition breaker_step (e : BreakerEvent) (cb : CircuitBreaker) : CircuitBreaker :=
  match e with
  | Before now => (beforeRequest now cb).1
  | After now isFailure => afterRequest now isFailure cb
  | ResetBy _ => Reset cb
  end.

Definition breaker_run (es : list BreakerEvent) (cb : CircuitBreaker) : CircuitBreaker :=
  foldl (λ cb e, breaker_step e cb) cb es.

(** A request that the breaker lets proceed. *)
Definition admitted (cb : CircuitBreaker) (e : BreakerEvent) : bool :=
  match e with Before now => bool_decide ((beforeRequest now cb).2 = None) | _ => false end.

(** How many requests of a run proceed. *)
Fixpoint admissions (es : list BreakerEvent) (cb : CircuitBreaker) : Z :=
  match es with
  | [] => 0
  | e :: es => (if admitted cb e then 1 else 0) + admissions es (breaker_step e cb)
  end.

(** The states a run goes through before each of its steps. *)
Fixpoint always (P : CircuitBreaker → Prop) (es : list BreakerEvent) (cb : CircuitBreaker) : Prop :=
  match es with
  | [] => True
  | e :: es => P (breaker_step e cb) ∧ always P es (breaker_step e cb)
  end.

End Methods.

(** ** The counters *)

Record breaker_inv (config : CircuitBreakerConfig) (cb : CircuitBreaker) : Prop := {
  bi_failures : 0 ≤ failureCount cb;
  bi_idle : state cb ≠ StateHalfOpen → successCount cb = 0 ∧ halfOpenCount cb = 0;
  bi_closed : state cb = StateClosed → 0 < FailureThreshold config →
    failureCount cb < FailureThreshold config;
  bi_probing : state cb = StateHalfOpen →
    failureCount cb = 0 ∧ 0 ≤ successCount cb ∧ 0 ≤ halfOpenCount cb ≤ Z.max 0 (HalfOpenMaxRequests config) ∧
    (0 < SuccessThreshold config → successCount cb < SuccessThreshold config);
}.

(** Case analysis on the branches of a method. *)
Ltac breaker_cases :=
  repeat match goal with
  | |- context [if ?b then _ else _] => destruct b eqn:?
  | |- context [match state ?cb with _ => _ end] => destruct (state cb) eqn:?
  end; simpl in *; simplify_eq; rewrite ?Z.leb_le, ?Z.leb_gt, ?Z.ltb_lt, ?Z.ltb_ge in *.

Lemma breaker_step_inv config e cb :
  breaker_inv config cb → breaker_inv config (breaker_step config e cb).
Proof.
  intros [I1 I2 I3 I4].
  destruct e as [now|now f|now]; simpl; unfold beforeRequest, afterRequest;
    destruct (state cb) eqn:Hs; breaker_cases;
    try specialize (I2 ltac:(done)); try specialize (I3 eq_refl); try specialize (I4 eq_refl);
    split; simpl in *; try done; try (by rewrite ?Hs); try lia; intros; rewrite ?Hs in *; try done; lia.
Qed.

Lemma breaker_run_inv config es cb :
  breaker_inv config cb → breaker_inv config (breaker_run config es cb).
Proof. revert cb. induction es as [|e es IH]; simpl; auto using breaker_step_inv. Qed.

(** ** Opening *)

(** The number of failures since the last success among the results of [es], on
    top of [n]. *)
Fixpoint failure_streak (n : Z) (es : list BreakerEvent) : Z :=
  match es with
  | [] => n
  | After _ true :: es => failure_streak (n + 1) es
  | After _ false :: es => failure_streak 0 es
  | _ :: es => failure_streak n es
  end.

Definition is_reset (e : BreakerEvent) : bool := match e with ResetBy _ => true | _ => false end.

Lemma prefix_cons_forall {A} (P : list A → Prop) x l :
  (∀ l1, l1 `prefix_of` x :: l → P l1) ↔ P [] ∧ (∀ l1, l1 `prefix_of` l → P (x :: l1)).
Proof.
  split.
  - intros H. split; [apply H, prefix_nil|]. intros l1 Hl1. by apply H, prefix_cons.
  - intros [H0 H] [|y l1] Hl1; [done|]. apply prefix_cons_inv_1 in Hl1 as Hy.
    apply prefix_cons_inv_2 in Hl1. subst. by apply H.
Qed.

(** A step of a closed breaker. *)
Lemma closed_step config e cb :
  0 < FailureThreshold config → state cb = StateClosed → is_reset e = false →
  let n := failure_streak (failureCount cb) [e] in
  (n < FailureThreshold config → state (breaker_step config e cb) = StateClosed ∧
     failureCount (breaker_step config e cb) = n) ∧
  (failureCount cb < FailureThreshold config → FailureThreshold config ≤ n →
     state (breaker_step config e cb) = StateOpen).
Proof.
  intros Hft Hc Hr. destruct e as [now|now []|now]; simpl in *; [..|done];
    unfold beforeRequest, afterRequest; rewrite Hc; simpl; try lia; [auto with lia| |auto with lia].
  split; intros; breaker_cases; auto with lia.
Qed.

(** A closed breaker stays closed exactly as long as the streak is below the
    threshold. *)
Lemma closed_streak config es cb :
  0 < FailureThreshold config → state cb = StateClosed → failureCount cb < FailureThreshold config →
  Forall (λ e, is_reset e = false) es →
  always config (λ cb, state cb = StateClosed) es cb ↔
    (∀ es1, es1 `prefix_of` es → failure_streak (failureCount cb) es1 < FailureThreshold config).
Proof.
  intros Hft Hc Hlt Hr. revert cb Hc Hlt. induction Hr as [|e es He Hr IH]; intros cb Hc Hlt; simpl.
  { split; [|done]. by intros _ es1 ->%prefix_nil_inv. }
  rewrite prefix_cons_forall. destruct (closed_step config e cb) as [H1 H2]; [done..|].
  assert (∀ es1, failure_streak (failureCount cb) (e :: es1) =
    failure_streak (failure_streak (failureCount cb) [e]) es1) as Hcons by (by destruct e as [|? []|]).
  destruct (decide (failure_streak (failureCount cb) [e] < FailureThreshold config)) as [Hn|Hn].
  - destruct (H1 Hn) as [Hs Hf]. rewrite IH, Hf by (rewrite ?Hf; done).
    setoid_rewrite Hcons. tauto.
  - split; [intros [Hs _]; rewrite H2 in Hs by lia; done|].
    intros [_ H]. specialize (H [] (prefix_nil _)). done.
Qed.
(** ** Open *)

Lemma open_step config e cb :
  state cb = StateOpen → is_reset e = false → event_time e ≤ lastFailureTime cb + Timeout config →
  breaker_step config e cb = cb ∧ admitted config cb e = false.
Proof.
  intros Ho Hr Ht. destruct e as [now|now f|]; simpl in *; [..|done];
    unfold beforeRequest, afterRequest; rewrite Ho; simpl; [|done].
  unfold timed_out. rewrite (proj2 (Z.ltb_ge _ _)) by lia. done.
Qed.

Lemma open_run config es cb :
  state cb = StateOpen →
  Forall (λ e, is_reset e = false ∧ event_time e ≤ lastFailureTime cb + Timeout config) es →
  breaker_run config es cb = cb ∧ admissions config es cb = 0.
Proof.
  intros Ho Hes. induction Hes as [|e es [Hr Ht] Hes IH]; simpl; [done|].
  destruct (open_step config e cb) as [-> ->]; done.
Qed.

(** ** Half open *)

Definition is_before (e : BreakerEvent) : bool := match e with Before _ => true | _ => false end.

Definition requests (es : list BreakerEvent) : Z := Z.of_nat (length (filter (λ e, is_before e = true) es)).

Lemma requests_cons e es : requests (e :: es) = (if is_before e then 1 else 0) + requests es.
Proof. unfold requests. rewrite filter_cons. destruct (is_before e); simpl; lia. Qed.

Lemma requests_nonneg es : 0 ≤ requests es.
Proof. unfold requests. lia. Qed.

(** In a half-open episode every request proceeds until the quota is used up,
    and none after that. *)
Lemma half_open_admissions config es cb :
  state cb = StateHalfOpen → always config (λ cb, state cb = StateHalfOpen) es cb →
  admissions config es cb = Z.min (requests es) (Z.max 0 (HalfOpenMaxRequests config - halfOpenCount cb)).
Proof.
  revert cb. induction es as [|e es IH]; intros cb Hh; [intros _; simpl; unfold requests; simpl; lia|].
  simpl. intros [Hh' Hes]. rewrite IH, requests_cons by done. clear IH Hes.
  pose proof (requests_nonneg es).
  destruct e as [now|now f|now]; simpl in *; [| |done].
  - unfold beforeRequest in *. rewrite Hh in *.
    destruct (Z.leb_spec (HalfOpenMaxRequests config) (halfOpenCount cb)); simpl in *; lia.
  - unfold afterRequest in *. rewrite Hh in *. destruct f; simpl in *; [done|].
    destruct (Z.leb_spec (SuccessThreshold config) (successCount cb + 1)); simpl in *; [done|]. lia.
Qed.

(** A breaker that is half open with its quota used up and nothing in flight
    stays so. *)
Lemma half_open_exhausted config es cb :
  state cb = StateHalfOpen → HalfOpenMaxRequests config ≤ halfOpenCount cb →
  Forall (λ e, is_before e = true) es →
  breaker_run config es cb = cb ∧ admissions config es cb = 0.
Proof.
  intros Hh Hq Hes. induction Hes as [|e es He Hes IH]; simpl; [done|].
  destruct e as [now| |]; try done. simpl. unfold beforeRequest. rewrite Hh.
  by rewrite (proj2 (Z.leb_le _ _) Hq).
Qed.

(** ** Sequential use *)

(** A call of [Execute]: when it starts, when it ends, and how. *)
Record Call := mkCall { c_start : Z; c_end : Z; c_result : FnResult }.

Fixpoint panics (calls : list Call) : Z :=
  match calls with
  | [] => 0
  | c :: calls => (match c_result c with FnPanics => 1 | _ => 0 end) + panics calls
  end.

Lemma panics_nonneg calls : 0 ≤ panics calls.
Proof. induction calls as [|c calls IH]; simpl; [done|]. destruct (c_result c); lia. Qed.

Definition run_calls (config : CircuitBreakerConfig) (calls : list Call) (cb : CircuitBreaker)
    : CircuitBreaker :=
  foldl (λ cb c, (Execute config (c_start c) (c_end c) (c_result c) cb).1) cb calls.

Fixpoint all_admitted (config : CircuitBreakerConfig) (calls : list Call) (cb : CircuitBreaker) : bool :=
  match calls with
  | [] => true
  | c :: calls =>
      let '(cb', err) := Execute config (c_start c) (c_end c) (c_result c) cb in
      bool_decide (err = None) && all_admitted config calls cb'
  end.

(** Between two calls every probe of a half-open episode has succeeded, or
    panicked, at most [k] of them; the first one is not counted as a half-open
    request. *)
Record calls_inv (config : CircuitBreakerConfig) (k : Z) (cb : CircuitBreaker) : Prop := {
  ci_idle : state cb ≠ StateHalfOpen → successCount cb = 0 ∧ halfOpenCount cb = 0;
  ci_probes : state cb = StateHalfOpen →
    halfOpenCount cb + 1 ≤ successCount cb + k ∧ 0 ≤ successCount cb ∧
    (0 < SuccessThreshold config → successCount cb < SuccessThreshold config);
}.

Lemma Execute_calls_inv config now later r k cb :
  0 ≤ k → calls_inv config k cb →
  calls_inv config (match r with FnPanics => k + 1 | _ => k end) (Execute config now later r cb).1.
Proof.
  intros Hk [I1 I2]. unfold Execute, beforeRequest.
  destruct (state cb) eqn:Hs; [|destruct (timed_out config now cb)|
    destruct (Z.leb_spec (HalfOpenMaxRequests config) (halfOpenCount cb))];
    try specialize (I1 ltac:(done)); try specialize (I2 eq_refl);
    destruct r as [[]|]; unfold afterRequest; rewrite ?Hs; simpl; breaker_cases;
    split; simpl; rewrite ?Hs; try done; lia.
Qed.

Lemma run_calls_inv config calls k cb :
  0 ≤ k → calls_inv config k cb → calls_inv config (k + panics calls) (run_calls config calls cb).
Proof.
  revert k cb. induction calls as [|c calls IH]; intros k cb Hk Hinv; simpl; [by rewrite Z.add_0_r|].
  apply (Execute_calls_inv config (c_start c) (c_end c) (c_result c)) in Hinv; [|done].
  rewrite Z.add_assoc. destruct (c_result c); simpl.
  - rewrite Z.add_0_r. by apply IH.
  - apply IH; [lia|done].
Qed.

(** The successes still missing before the breaker closes. *)
Definition missing (config : CircuitBreakerConfig) (cb : CircuitBreaker) : Z :=
  match state cb with StateClosed => 0 | _ => SuccessThreshold config - successCount cb end.

Lemma Execute_success config now later k cb :
  0 ≤ k → 0 < SuccessThreshold config → SuccessThreshold config + k ≤ HalfOpenMaxRequests config →
  calls_inv config k cb → Timeout config < now - lastFailureTime cb →
  let '(cb', err) := Execute config now later (FnReturns false) cb in
  err = None ∧ lastFailureTime cb' = lastFailureTime cb ∧
  (0 ≤ missing config cb' ∧ (missing config cb' = 0 ∨ missing config cb' < missing config cb)) ∧
  (missing config cb' = 0 → state cb' = StateClosed).
Proof.
  intros Hk Hst Hq [I1 I2] Ht. unfold Execute, beforeRequest, timed_out, missing.
  destruct (state cb) eqn:Hs; try specialize (I1 ltac:(done)); try specialize (I2 eq_refl).
  - unfold afterRequest. rewrite Hs. simpl. auto with lia.
  - rewrite (proj2 (Z.ltb_lt _ _) Ht). simpl. unfold afterRequest. simpl. breaker_cases; auto with lia.
  - rewrite (proj2 (Z.leb_gt _ _)) by lia. simpl. unfold afterRequest. simpl. breaker_cases; auto with lia.
Qed.

Definition success (t : Z * Z) : Call := mkCall t.1 t.2 (FnReturns false).

Lemma successes_recover config goods k cb :
  0 ≤ k → 0 < SuccessThreshold config → SuccessThreshold config + k ≤ HalfOpenMaxRequests config →
  calls_inv config k cb → Forall (λ t, Timeout config < t.1 - lastFailureTime cb) goods →
  missing config cb ≤ Z.of_nat (length goods) → (0 < length goods)%nat →
  all_admitted config (success <$> goods) cb = true ∧
  state (run_calls config (success <$> goods) cb) = StateClosed.
Proof.
  intros Hk Hst Hq. revert cb. induction goods as [|t goods IH]; intros cb Hinv Hts Hm Hlen; [simpl in Hlen; lia|].
  apply Forall_cons in Hts as [Ht Hts]. simpl.
  pose proof (Execute_success config t.1 t.2 k cb Hk Hst Hq Hinv Ht) as Hex.
  pose proof (Execute_calls_inv config t.1 t.2 (FnReturns false) k cb Hk Hinv) as Hinv'.
  destruct (Execute config t.1 t.2 (FnReturns false) cb) as [cb' err]. simpl in *.
  destruct Hex as (-> & Hlast & [Hm0 Hm'] & Hclosed). simpl.
  destruct goods as [|t' goods]; [simpl; split; [done|]; apply Hclosed; simpl in Hm; lia|].
  apply IH; [done|by rewrite Hlast|simpl in *; lia|simpl; lia].
Qed.
End Breaker.

(** ** Properties *)

Import Breaker.

(** The counters of a breaker stay within their bounds whatever the order of its
    requests, results and resets: outside a half-open episode no probe and no
    success is counted, a closed breaker has seen fewer failures than its
    threshold, a half-open one fewer successes than its threshold and no more
    counted probes than its quota. *)
Theorem breaker_invariant config es zero_time :
  breaker_inv config (breaker_run config es (NewCircuitBreaker zero_time)).
Proof. apply breaker_run_inv. by split. Qed.

(** A breaker opens at the first streak of FailureThreshold failures without a
    success in between: without a reset it stays closed exactly as long as no
    beginning of the run ends in such a streak. *)
Theorem breaker_opens config es zero_time :
  0 < FailureThreshold config → Forall (λ e, is_reset e = false) es →
  always config (λ cb, state cb = StateClosed) es (NewCircuitBreaker zero_time) ↔
    (∀ es1, es1 `prefix_of` es → failure_streak 0 es1 < FailureThreshold config).
Proof. intros Hft Hr. by apply (closed_streak config es (NewCircuitBreaker zero_time)). Qed.

(** C26. An open breaker refuses every request until its timeout has passed, whatever
    late results arrive meanwhile; the request that finds the timeout passed is
    let through, and during the half-open episode it starts exactly the first
    HalfOpenMaxRequests further requests are.  The episode thus lets one request
    more through than the configuration documents (circuit_breaker.go:74, "the max
    requests allowed in half-open state"): the request that starts it is not
    counted. *)
Theorem breaker_admission config es now es' cb :
  0 ≤ HalfOpenMaxRequests config → state cb = StateOpen →
  Forall (λ e, is_reset e = false ∧ event_time e ≤ lastFailureTime cb + Timeout config) es →
  lastFailureTime cb + Timeout config < now →
  always config (λ cb, state cb = StateHalfOpen) es' (toHalfOpen cb) →
  admissions config es cb = 0 ∧
  admissions config (Before now :: es') (breaker_run config es cb) =
    1 + Z.min (requests es') (HalfOpenMaxRequests config).
Proof.
  intros Hq Ho Hes Hnow Hes'. destruct (open_run config es cb Ho Hes) as [Hrun Hadm].
  split; [done|]. rewrite Hrun. simpl. unfold beforeRequest. rewrite Ho.
  unfold timed_out. rewrite (proj2 (Z.ltb_lt _ _)) by lia. simpl.
  rewrite half_open_admissions by done. simpl. lia.
Qed.

(** C27. A breaker used by one caller at a time recovers: after any history of calls,
    refused, successful, failed or ended by a panic of the function, once its
    timeout has passed SuccessThreshold successful calls in a row are all let
    through and close it, if the threshold and the number of panics together are
    within HalfOpenMaxRequests: a panicking function is let through and its result
    never recorded, so that each panic may have used up a probe for good. *)
Theorem breaker_recovers config calls zero_time goods :
  0 < SuccessThreshold config → SuccessThreshold config + panics calls ≤ HalfOpenMaxRequests config →
  let cb := run_calls config calls (NewCircuitBreaker zero_time) in
  Forall (λ t, Timeout config < t.1 - lastFailureTime cb) goods →
  SuccessThreshold config ≤ Z.of_nat (length goods) →
  all_admitted config (success <$> goods) cb = true ∧
  state (run_calls config (success <$> goods) cb) = StateClosed.
Proof.
  intros Hst Hq cb Hts Hlen. pose proof (panics_nonneg calls) as Hp.
  assert (calls_inv config (0 + panics calls) cb) as Hinv by (apply run_calls_inv; [done|by split]).
  eapply successes_recover; [exact Hp|done|done|exact Hinv|done| |lia].
  destruct Hinv as [I1 I2]. unfold missing. destruct (state cb); [lia| |].
  - specialize (I1 ltac:(done)). lia.
  - specialize (I2 eq_refl). lia.
Qed.
