(* ===== verification/Limits.v ===== *)
(** * Rate limits and retries (pkg/resilience/rate_limiter.go, backoff.go)

    The sliding-window limiter, the limiters per key, and the retry loop.  The
    limiter reads the clock twice in a call, once to drop expired timestamps and
    once to record the accepted requests; a call carries both readings.  The
    token and leaky buckets and the backoff delays compute in [float64] and are
    left out; the delay between two attempts plays no part in what is shown of
    the retry loop. *)

From stdpp Require Import base list gmap strings sorting.
From S2P Require Import Prelude.

Open Scope Z_scope.

(** ** Limiters *)

(** [RateLimiter], as far as [AllowN] goes: a call with its clock readings. *)
Record Request := mkRequest { rq_now : Z; rq_now' : Z; rq_n : Z }.

Class RateLimiter (L : Type) := AllowN : Request → L → L * bool.

(** The answers to a sequence of requests. *)
Fixpoint answers `{RateLimiter L} (rs : list Request) (l : L) : list bool :=
  match rs with
  | [] => []
  | r :: rs => let '(l, ok) := AllowN r l in ok :: answers rs l
  end.

(** ** Sliding window *)

Record SlidingWindowLimiter := mkWindow { sw_rate : Z; sw_window : Z; sw_timestamps : list Z }.

Definition NewSlidingWindowLimiter (rate window : Z) : SlidingWindowLimiter := mkWindow rate window [].

Fixpoint drop_before (cutoff : Z) (ts : list Z) : list Z :=
  match ts with
  | t :: ts' => if t <? cutoff then drop_before cutoff ts' else ts
  | [] => []
  end.

Definition cleanup (now : Z) (sw : SlidingWindowLimiter) : SlidingWindowLimiter :=
  mkWindow (sw_rate sw) (sw_window sw) (drop_before (now - sw_window sw) (sw_timestamps sw)).

#[export] Instance SlidingWindow_AllowN : RateLimiter SlidingWindowLimiter := λ r sw,
  let sw := cleanup (rq_now r) sw in
  if Z.of_nat (length (sw_timestamps sw)) + rq_n r <=? sw_rate sw then
    (mkWindow (sw_rate sw) (sw_window sw)
       (sw_timestamps sw ++ replicate (Z.to_nat (rq_n r)) (rq_now' r)), true)
  else (sw, false).

(** [WaitN]: each round reads the clock as [AllowN] does; the rounds of a call
    come with the context's error when its end is what ends the round's wait.  [None]
    is a call still waiting after them. *)
Fixpoint WaitN (rounds : list (Z * Z * option error)) (n : Z) (sw : SlidingWindowLimiter)
    : SlidingWindowLimiter * option (option error) :=
  match rounds with
  | [] => (sw, None)
  | (now, now', done) :: rounds =>
      let '(sw, ok) := AllowN (mkRequest now now' n) sw in
      if ok then (sw, Some None)
      else match done with Some err => (sw, Some (Some err)) | None => WaitN rounds n sw end
  end.

(** How long a round waits. *)
Definition wait_time (later : Z) (sw : SlidingWindowLimiter) : Z :=
  match sw_timestamps sw with
  | [] => 1000000
  | t :: _ => let w := sw_window sw - (later - t) in if w <? 0 then 1000000 else w
  end.

(** *** The reference: a limiter that remembers every accepted request *)

Record History := mkHistory { h_rate : Z; h_window : Z; h_accepted : list Z }.

Definition since (cutoff : Z) (ts : list Z) : list Z := filter (λ t, cutoff ≤ t) ts.

#[export] Instance History_AllowN : RateLimiter History := λ r h,
  if Z.of_nat (length (since (rq_now r - h_window h) (h_accepted h))) + rq_n r <=? h_rate h then
    (mkHistory (h_rate h) (h_window h) (h_accepted h ++ replicate (Z.to_nat (rq_n r)) (rq_now' r)), true)
  else (h, false).

(** The clock does not go back. *)
Fixpoint clock_from (t : Z) (rs : list Request) : Prop :=
  match rs with
  | [] => True
  | r :: rs => t ≤ rq_now r ∧ rq_now r ≤ rq_now' r ∧ clock_from (rq_now' r) rs
  end.

(** The limiter's timestamps are what is left of the history, at a clock that is
    not behind any of it. *)
Record window_rel (t : Z) (sw : SlidingWindowLimiter) (h : History) : Prop := {
  wr_rate : sw_rate sw = h_rate h;
  wr_window : sw_window sw = h_window h;
  wr_sorted : StronglySorted Z.le (h_accepted h);
  wr_past : Forall (λ a, a ≤ t) (h_accepted h);
  wr_kept : ∃ dropped, h_accepted h = dropped ++ sw_timestamps sw ∧
    Forall (λ a, a < t - sw_window sw) dropped;
}.

Lemma drop_before_spec cutoff ts :
  ∃ dropped, ts = dropped ++ drop_before cutoff ts ∧ Forall (λ a, a < cutoff) dropped.
Proof.
  induction ts as [|t ts (dropped & Heq & Hd)]; simpl; [by exists []|].
  destruct (Z.ltb_spec t cutoff); [|by exists []].
  exists (t :: dropped). split; [by rewrite Heq at 1|by constructor].
Qed.

Lemma filter_keep_all {A} (P : A → Prop) `{!∀ x, Decision (P x)} l : Forall P l → filter P l = l.
Proof. induction 1 as [|x l Hx _ IH]; [done|]. by rewrite filter_cons, decide_True, IH. Qed.

Lemma drop_before_since cutoff ts :
  StronglySorted Z.le ts → drop_before cutoff ts = since cutoff ts.
Proof.
  induction 1 as [|t ts Hs IH Ht]; [done|]. unfold since in *. simpl.
  rewrite filter_cons. destruct (Z.ltb_spec t cutoff).
  - by rewrite decide_False by lia.
  - rewrite decide_True by lia. f_equal. symmetry. apply filter_keep_all.
    eapply Forall_impl; [exact Ht|]. simpl. lia.
Qed.

Lemma since_app cutoff l1 l2 : since cutoff (l1 ++ l2) = since cutoff l1 ++ since cutoff l2.
Proof. apply filter_app. Qed.

Lemma since_dropped cutoff ts : Forall (λ a, a < cutoff) ts → since cutoff ts = [].
Proof.
  induction 1 as [|t ts Ht _ IH]; [done|]. unfold since in *. rewrite filter_cons, decide_False by lia. done.
Qed.

Lemma StronglySorted_replicate n (t : Z) l :
  StronglySorted Z.le l → Forall (λ a, a ≤ t) l → StronglySorted Z.le (l ++ replicate n t).
Proof.
  intros Hs Hl. induction Hs as [|a l Hs IH Ha]; simpl.
  - induction n; simpl; constructor; [done|]. by apply Forall_replicate.
  - apply Forall_cons in Hl as [Hat Hl]. constructor; [by apply IH|].
    apply Forall_app. split; [done|by apply Forall_replicate].
Qed.

(** One request. *)
Lemma window_step t r sw h :
  window_rel t sw h → t ≤ rq_now r → rq_now r ≤ rq_now' r →
  window_rel (rq_now' r) (AllowN r sw).1 (AllowN r h).1 ∧ (AllowN r sw).2 = (AllowN r h).2.
Proof.
  intros [R1 R2 R3 R4 (dropped & Hh & Hd)] H1 H2.
  assert (StronglySorted Z.le (sw_timestamps sw)) as Hs.
  { rewrite Hh in R3. by apply StronglySorted_app in R3 as (_ & _ & ?). }
  destruct (drop_before_spec (rq_now r - sw_window sw) (sw_timestamps sw)) as (d' & Hd' & Hlt).
  assert (since (rq_now r - h_window h) (h_accepted h) =
          drop_before (rq_now r - sw_window sw) (sw_timestamps sw)) as Hsame.
  { rewrite <-R2, Hh, since_app, since_dropped, drop_before_since; [done|done|].
    eapply Forall_impl; [exact Hd|]. simpl. lia. }
  assert (Forall (λ a, a ≤ rq_now' r) (h_accepted h)) as Hpast.
  { eapply Forall_impl; [exact R4|]. simpl. lia. }
  assert (Forall (λ a, a < rq_now' r - sw_window sw) (dropped ++ d')) as Hdropped.
  { apply Forall_app. split; (eapply Forall_impl; [eassumption|]; simpl; lia). }
  unfold AllowN, SlidingWindow_AllowN, History_AllowN. simpl. rewrite Hsame, R1.
  destruct (_ <=? _); simpl; (split; [|done]); split; simpl; try done.
  - by apply StronglySorted_replicate.
  - apply Forall_app. split; [done|]. by apply Forall_replicate.
  - exists (dropped ++ d'). split; [|done].
    rewrite app_assoc, <-(app_assoc dropped d'), <-Hd', <-Hh. done.
  - exists (dropped ++ d'). split; [|done]. by rewrite <-app_assoc, <-Hd'.
Qed.

(** *** How many requests a window holds *)

Definition within (a b : Z) (ts : list Z) : list Z := filter (λ t, a ≤ t ∧ t ≤ b) ts.

Fixpoint history_run (rs : list Request) (h : History) : History :=
  match rs with [] => h | r :: rs => history_run rs (AllowN r h).1 end.

Lemma within_app a b l1 l2 : within a b (l1 ++ l2) = within a b l1 ++ within a b l2.
Proof. apply filter_app. Qed.

Lemma length_within_since a b cutoff ts :
  cutoff ≤ a → (length (within a b ts) ≤ length (since cutoff ts))%nat.
Proof.
  intros H. induction ts as [|t ts IH]; [done|]. unfold within, since in *. rewrite !filter_cons.
  destruct (decide (a ≤ t ∧ t ≤ b)), (decide (cutoff ≤ t)); simpl; lia.
Qed.

Lemma within_replicate a b n t :
  within a b (replicate n t) = if decide (a ≤ t ∧ t ≤ b) then replicate n t else [].
Proof.
  unfold within. induction n as [|n IH]; simpl; [by destruct (decide _)|].
  rewrite filter_cons, IH. by destruct (decide _).
Qed.

Lemma history_step_bound t r h :
  (∀ a, Z.of_nat (length (within a (a + h_window h) (h_accepted h))) ≤ h_rate h) →
  t ≤ rq_now r → rq_now r ≤ rq_now' r →
  ∀ a, Z.of_nat (length (within a (a + h_window h) (h_accepted (AllowN r h).1))) ≤ h_rate h.
Proof.
  intros Hb H1 H2 a. unfold AllowN, History_AllowN. destruct (_ <=? _) eqn:Hle; [|by apply Hb].
  apply Z.leb_le in Hle. simpl. rewrite within_app, length_app, within_replicate.
  destruct (decide _) as [[Ha Hn]|]; [|simpl; specialize (Hb a); lia].
  pose proof (length_within_since a (a + h_window h) (rq_now r - h_window h) (h_accepted h)).
  rewrite length_replicate. specialize (Hb a). lia.
Qed.

Lemma history_run_bound rs t h :
  clock_from t rs →
  (∀ a, Z.of_nat (length (within a (a + h_window h) (h_accepted h))) ≤ h_rate h) →
  ∀ a, Z.of_nat (length (within a (a + h_window h) (h_accepted (history_run rs h)))) ≤ h_rate h.
Proof.
  revert t h. induction rs as [|r rs IH]; intros t h; [done|]. intros (H1 & H2 & Hc) Hb. simpl.
  assert (h_window (AllowN r h).1 = h_window h ∧ h_rate (AllowN r h).1 = h_rate h) as [Hw Hr].
  { unfold AllowN, History_AllowN. by destruct (_ <=? _). }
  rewrite <-Hw, <-Hr. eapply IH; [exact Hc|]. rewrite Hw, Hr. by eapply history_step_bound.
Qed.

(** The limiter answers every sequence of requests as one that remembers every
    request it ever accepted, although it keeps only the recent ones; and in no
    span of time as long as the window does it accept more than its rate. *)
Theorem sliding_window rs rate window t :
  0 ≤ rate → clock_from t rs →
  answers rs (NewSlidingWindowLimiter rate window) = answers rs (mkHistory rate window []) ∧
  (∀ a, Z.of_nat (length (within a (a + window) (h_accepted (history_run rs (mkHistory rate window [])))))
    ≤ rate).
Proof.
  intros Hrate Hc. split; [|by apply (history_run_bound rs t (mkHistory rate window []))].
  assert (window_rel t (NewSlidingWindowLimiter rate window) (mkHistory rate window [])) as Hrel.
  { split; simpl; try done; [constructor|by exists []]. }
  revert t Hc Hrel. generalize (NewSlidingWindowLimiter rate window), (mkHistory rate window []).
  induction rs as [|r rs IH]; intros sw h t; [done|]. intros (H1 & H2 & Hc) Hrel. simpl.
  destruct (window_step t r sw h Hrel H1 H2) as [Hrel' Hans].
  destruct (AllowN r sw) as [sw' ok], (AllowN r h) as [h' ok']. simpl in *. subst.
  f_equal. by eapply IH.
Qed.

(** ** Limiters per key *)

Section PerKey.
Context `{RateLimiter L}.

Record PerKeyRateLimiter := mkPerKey { pk_factory : L; pk_limiters : gmap string L }.

Definition NewPerKeyRateLimiter (factory : L) : PerKeyRateLimiter := mkPerKey factory ∅.

Definition getLimiter (key : string) (pk : PerKeyRateLimiter) : PerKeyRateLimiter * L :=
  match pk_limiters pk !! key with
  | Some limiter => (pk, limiter)
  | None => (mkPerKey (pk_factory pk) (<[key := pk_factory pk]> (pk_limiters pk)), pk_factory pk)
  end.

Definition PerKey_AllowN (key : string) (r : Request) (pk : PerKeyRateLimiter) : PerKeyRateLimiter * bool :=
  let '(pk, limiter) := getLimiter key pk in
  let '(limiter, ok) := AllowN r limiter in
  (mkPerKey (pk_factory pk) (<[key := limiter]> (pk_limiters pk)), ok).

Definition PerKey_Remove (key : string) (pk : PerKeyRateLimiter) : PerKeyRateLimiter :=
  mkPerKey (pk_factory pk) (delete key (pk_limiters pk)).

Definition PerKey_Keys (pk : PerKeyRateLimiter) : list string := (map_to_list (pk_limiters pk)).*1.

Fixpoint key_answers (rs : list (string * Request)) (pk : PerKeyRateLimiter) : list (string * bool) :=
  match rs with
  | [] => []
  | (key, r) :: rs => let '(pk, ok) := PerKey_AllowN key r pk in (key, ok) :: key_answers rs pk
  end.

Definition of_key {A} (key : string) (l : list (string * A)) : list A :=
  (filter (λ x, x.1 = key) l).*2.

Lemma of_key_cons {A} key (x : string * A) l :
  of_key key (x :: l) = (if decide (x.1 = key) then [x.2] else []) ++ of_key key l.
Proof. unfold of_key. rewrite filter_cons. by destruct (decide _). Qed.

(** The keys do not share their limits: the answers given for one key are those
    a limiter of its own would give to the requests for that key alone. *)
Theorem per_key_isolated rs pk key :
  of_key key (key_answers rs pk) =
    answers (of_key key rs) (default (pk_factory pk) (pk_limiters pk !! key)).
Proof.
  revert pk. induction rs as [|[k r] rs IH]; intros pk; [done|]. simpl.
  unfold PerKey_AllowN, getLimiter.
  destruct (pk_limiters pk !! k) as [l|] eqn:Hl;
    [destruct (AllowN r l) as [l' ok] eqn:Ha|destruct (AllowN r (pk_factory pk)) as [l' ok] eqn:Ha];
    rewrite !of_key_cons; simpl; (rewrite IH; simpl; destruct (decide (k = key)) as [->|]; simpl;
      [rewrite Hl; simpl; by rewrite ?insert_insert_eq, lookup_insert_eq, Ha
      |by rewrite !lookup_insert_ne by done]).
Qed.
End PerKey.
Arguments PerKeyRateLimiter : clear implicits.

(** ** Retries *)

Inductive RetryResult :=
  | RetryOk
  | ErrContextCanceled
  | NotRetryable (err : error)
  | RetryError (Attempts : Z) (LastErr : option error).

(** What the outside does in the loop: whether the context is done before the
    [i]-th attempt, what the attempt returns, and whether the context's end is
    what ends the wait after it. *)
Record Attempts := mkAttempts {
  at_done : nat → bool;
  at_call : nat → option error;
  at_wait : nat → bool;
}.

Section Retry.
Context (MaxRetries : Z) (isRetryable : error → bool) (env : Attempts).

(** [Retrier.Do]: the loop from an attempt on, with the number of calls made so
    far; [None] when the loop is still running after [fuel] attempts. *)
Fixpoint do_loop (fuel : nat) (attempt : nat) (lastErr : option error) : option (RetryResult * nat) :=
  if negb ((MaxRetries =? 0) || (Z.of_nat attempt <=? MaxRetries)) then
    Some (RetryError (MaxRetries + 1) lastErr, attempt)
  else
    match fuel with
    | O => None
    | S fuel =>
        if at_done env attempt then Some (ErrContextCanceled, attempt)
        else
          match at_call env attempt with
          | None => Some (RetryOk, S attempt)
          | Some err =>
              if negb (isRetryable err) then Some (NotRetryable err, S attempt)
              else if (0 <? MaxRetries) && (MaxRetries <=? Z.of_nat attempt) then
                Some (RetryError (MaxRetries + 1) (Some err), S attempt)
              else if at_wait env attempt then Some (ErrContextCanceled, S attempt)
              else do_loop fuel (S attempt) (Some err)
          end
    end.

Definition Do (fuel : nat) : option (RetryResult * nat) := do_loop fuel 0 None.

(** An attempt after which the loop goes on, unless it was the last one. *)
Definition retried (i : nat) : Prop :=
  at_done env i = false ∧ ∃ err, at_call env i = Some err ∧ isRetryable err = true.

Lemma do_loop_spec fuel attempt lastErr :
  0 < MaxRetries → Z.of_nat attempt ≤ MaxRetries → MaxRetries < Z.of_nat attempt + Z.of_nat fuel →
  ∃ res calls, do_loop fuel attempt lastErr = Some (res, calls) ∧ (attempt ≤ calls)%nat ∧
    (∀ i, (attempt ≤ i)%nat → (S i < calls)%nat → retried i) ∧
    match res with
    | RetryOk => (attempt < calls)%nat ∧ Z.of_nat calls ≤ MaxRetries + 1 ∧ at_call env (calls - 1) = None
    | NotRetryable err => (attempt < calls)%nat ∧ Z.of_nat calls ≤ MaxRetries + 1 ∧
        at_call env (calls - 1) = Some err ∧ isRetryable err = false
    | ErrContextCanceled => Z.of_nat calls ≤ MaxRetries ∧
        (at_done env calls = true ∨ (attempt < calls)%nat ∧ at_wait env (calls - 1) = true)
    | RetryError attempts err => Z.of_nat calls = MaxRetries + 1 ∧ attempts = MaxRetries + 1 ∧
        retried (calls - 1) ∧ err = at_call env (calls - 1)
    end.
Proof.
  revert attempt lastErr. induction fuel as [|fuel IH]; intros attempt lastErr Hmax Hle Hfuel; [lia|].
  simpl. rewrite (proj2 (Z.leb_le _ _) Hle), orb_true_r. simpl.
  destruct (at_done env attempt) eqn:Hd.
  { exists ErrContextCanceled, attempt. split_and!; [done|lia|intros; lia|lia|by left]. }
  assert ((S attempt - 1)%nat = attempt) as Hpred by lia.
  destruct (at_call env attempt) as [err|] eqn:Hcall; last first.
  { exists RetryOk, (S attempt). rewrite Hpred. split_and!; [done|lia|intros; lia|lia|lia|done]. }
  destruct (isRetryable err) eqn:Hr; simpl; last first.
  { exists (NotRetryable err), (S attempt). rewrite Hpred. split_and!; [done|lia|intros; lia|lia|lia|done|done]. }
  assert (retried attempt) as Hret by (split; [done|by exists err]).
  rewrite (proj2 (Z.ltb_lt _ _) Hmax). simpl.
  destruct (Z.leb_spec MaxRetries (Z.of_nat attempt)) as [Hlast|Hmore].
  { exists (RetryError (MaxRetries + 1) (Some err)), (S attempt). rewrite Hpred.
    split_and!; [done|lia|intros; lia|lia|done|done|done]. }
  destruct (at_wait env attempt) eqn:Hw.
  { exists ErrContextCanceled, (S attempt). rewrite Hpred.
    split_and!; [done|lia|intros; lia|lia|right; split; [lia|done]]. }
  destruct (IH (S attempt) (Some err)) as (res & calls & Hdo & Hcalls & Hpre & Hres); [done|lia|lia|].
  exists res, calls. split_and!; [done|lia| |].
  - intros i Hi1 Hi2. destruct (decide (i = attempt)) as [->|]; [done|]. apply Hpre; lia.
  - destruct res; try done; naive_solver lia.
Qed.
End Retry.

(** Retrying ends: with a positive limit the function is called at most
    MaxRetries+1 times, every call but the last failed with an error worth
    retrying, and the result says how the last one went: the success of the
    function, an error not to be retried, the end of the context, or, when all
    calls failed, the last error. *)
Theorem retry_outcome MaxRetries isRetryable env :
  0 < MaxRetries →
  ∃ res calls, Do MaxRetries isRetryable env (Z.to_nat MaxRetries + 1) = Some (res, calls) ∧
    Z.of_nat calls ≤ MaxRetries + 1 ∧
    (∀ i, (S i < calls)%nat → retried isRetryable env i) ∧
    match res with
    | RetryOk => (0 < calls)%nat ∧ at_call env (calls - 1) = None
    | NotRetryable err => (0 < calls)%nat ∧ at_call env (calls - 1) = Some err ∧ isRetryable err = false
    | ErrContextCanceled =>
        at_done env calls = true ∨ (0 < calls)%nat ∧ at_wait env (calls - 1) = true
    | RetryError attempts err => attempts = Z.of_nat calls ∧ attempts = MaxRetries + 1 ∧
        retried isRetryable env (calls - 1) ∧ err = at_call env (calls - 1)
    end.
Proof.
  intros Hmax. destruct (do_loop_spec MaxRetries isRetryable env (Z.to_nat MaxRetries + 1) 0 None)
    as (res & calls & Hdo & _ & Hpre & Hres); [lia..|].
  exists res, calls. split; [done|]. split; [destruct res; naive_solver lia|].
  split; [intros i Hi; apply Hpre; lia|]. destruct res; naive_solver lia.
Qed.
