(* ===== verification/Hitl.v ===== *)
(** * Human in the loop (pkg/hitl)

    A graph run that pauses for a human leaves a checkpoint.  The callback
    handler checks the human's answer and puts a job on a queue; a worker takes
    the job, loads the checkpoint, resumes the graph and removes, replaces or
    retires the checkpoint.

    Modelled: callback_handler.go, resumption_worker.go, graph_resume.go with the
    in-memory checkpoint store, queue and graph registry of implementation.go,
    the execution of human_node.go and the secrets of security.go.  The
    idempotency store is a Redis client: it is a class, with what the code relies
    on as its laws.  JSON encoding, HMAC and the parsing of durations are
    parameters.  Metrics, logs and spans are left out. *)

From stdpp Require Import base gmap strings list fin_maps pretty.
From S2P Require Import Prelude Graph GraphExec.

Open Scope Z_scope.

(** ** Constants (constants.go) *)

Definition second : Z := 10 ^ 9.
Definition minute : Z := 60 * second.
Definition hour : Z := 60 * minute.
Definition ProcessingLockTTL : Z := 5 * minute.
Definition MaxResumptionAttempts : Z := 3.

Definition pending_key (nodeID : string) : string := "_hitl_pending:" +:+ nodeID.
Definition done_key (requestID : string) : string := "callback-done:" +:+ requestID.
Definition processing_key (requestID : string) : string := "processing:" +:+ requestID.

(** ** Data (models.go) *)

Record HumanResponse := mkResponse {
  hr_SelectedOption : string;
  hr_FreeformText : string;
  hr_Timestamp : Z;
}.

Record ResumptionJob := mkResumption {
  rj_JobID : string;
  rj_RequestID : string;
  rj_Timestamp : Z;
  rj_Signature : string;
  rj_Response : HumanResponse;
}.

Record ExecutionCheckpoint := mkCheckpoint {
  cp_GraphID : string;
  cp_GraphVersion : string;
  cp_NodeID : string;
  cp_StateData : string;
  cp_RequestID : string;
  cp_CreatedAt : Z;
  cp_ExpiresAt : Z;
  cp_FailureCount : Z;
  cp_LastError : string;
  cp_LastAttempt : Z;
}.

(** ** The idempotency store *)

(** The operations, each at the store's clock. *)
Class IdempotencyStore (I : Type) := {
  idem_Exists : Z → string → I → result bool;
  idem_Set : Z → string → Z → I → option error * I;
  idem_SetNX : Z → string → Z → I → result bool * I;
  idem_Delete : Z → string → I → option error * I;
  (** whether a key is there at a time *)
  idem_held : I → Z → string → bool;
}.

(** What Redis documents of SET, with and without NX, with a time to live, and of
    EXISTS and DEL: with NX a key is set only where it is not held, a key that was
    set is held until its time is over, EXISTS tells, when it answers, whether the
    key is held, and no operation touches another key. *)
Class IdempotencyLaws (I : Type) `{IdempotencyStore I} := {
  SetNX_set now k ttl s s' : idem_SetNX now k ttl s = (inr true, s') →
    idem_held s now k = false ∧ ∀ t, now ≤ t < now + ttl → idem_held s' t k = true;
  SetNX_held now k ttl s s' : idem_SetNX now k ttl s = (inr false, s') →
    idem_held s now k = true;
  SetNX_refused now k ttl s b s' : idem_SetNX now k ttl s = (b, s') → b ≠ inr true →
    ∀ t, idem_held s t k = true → idem_held s' t k = true;
  SetNX_other now k ttl s b s' : idem_SetNX now k ttl s = (b, s') →
    ∀ t k', k' ≠ k → idem_held s' t k' = idem_held s t k';
  Delete_other now k s e s' : idem_Delete now k s = (e, s') →
    ∀ t k', k' ≠ k → idem_held s' t k' = idem_held s t k';
  Set_set now k ttl s s' : idem_Set now k ttl s = (None, s') →
    ∀ t, now ≤ t < now + ttl → idem_held s' t k = true;
  Set_kept now k ttl s e s' : idem_Set now k ttl s = (e, s') →
    ∀ t, now ≤ t < now + ttl → idem_held s t k = true → idem_held s' t k = true;
  Set_other now k ttl s e s' : idem_Set now k ttl s = (e, s') →
    ∀ t k', k' ≠ k → idem_held s' t k' = idem_held s t k';
  Exists_held now k s b : idem_Exists now k s = inr b → idem_held s now k = b;
}.

(** ** The queue (implementation.go) *)

Record SimpleInMemoryQueue := mkQueue { q_size : nat; q_jobs : list ResumptionJob }.

(** The context's error, if it is done, and which of two ready cases a select
    takes. *)
Definition Enqueue (ctx : option error) (prefer_ctx : bool) (nanos : Z) (job : ResumptionJob)
    (q : SimpleInMemoryQueue) : option (error + unit) * SimpleInMemoryQueue :=
  let job :=
    if String.eqb (rj_JobID job) "" then
      mkResumption ("inmem-" +:+ pretty nanos) (rj_RequestID job) (rj_Timestamp job) (rj_Signature job)
        (rj_Response job)
    else job in
  let full := (q_size q <=? length (q_jobs q))%nat in
  match ctx with
  | Some err => if prefer_ctx || full then (Some (inl err), q)
                else (None, mkQueue (q_size q) (q_jobs q ++ [job]))
  | None => if full then (Some (inr ()), q)  (** ErrServiceOverloaded *)
            else (None, mkQueue (q_size q) (q_jobs q ++ [job]))
  end.

Definition Dequeue (q : SimpleInMemoryQueue) : option (ResumptionJob * SimpleInMemoryQueue) :=
  match q_jobs q with
  | [] => None
  | job :: jobs => Some (job, mkQueue (q_size q) jobs)
  end.

Definition QueueLength (q : SimpleInMemoryQueue) : Z := Z.of_nat (length (q_jobs q)).

(** ** Signatures (callback_handler.go, security.go) *)

Section Hmac.
(** The hexadecimal HMAC-SHA256 of a payload under a secret. *)
Context (hmac_hex : string → string → string).

Definition callback_payload (requestID : string) (timestamp : Z) : string :=
  requestID +:+ ":" +:+ pretty timestamp.

Definition verifyHMAC (secret payload signature : string) : bool :=
  String.eqb (hmac_hex secret payload) signature.

(** [SecurityManager.VerifyCallbackSignature] at a Unix time. *)
Definition VerifyCallbackSignature (secret : string) (now_unix : Z) (requestID : string) (timestamp : Z)
    (signature : string) : bool :=
  if 300 <? now_unix - timestamp then false
  else String.eqb signature (hmac_hex secret (callback_payload requestID timestamp)).

(** What the query string of [GenerateCallbackURL] carries. *)
Definition GenerateCallback (secret : string) (now_unix : Z) (requestID : string) : Z * string :=
  (now_unix, hmac_hex secret (callback_payload requestID now_unix)).

(** *** The callback handler *)

Inductive HttpStatus :=
  StatusOK | StatusAccepted | StatusForbidden | StatusInternalServerError | StatusServiceUnavailable.

#[export] Instance HttpStatus_eq_dec : EqDecision HttpStatus.
Proof. solve_decision. Defined.

(** A call of the handler: its arguments, its clocks (Unix seconds for the
    freshness check, the store's clock for the lock) and what the queue's select
    sees of the context. *)
Record Callback := mkCallback {
  cb_RequestID : string;
  cb_Timestamp : Z;
  cb_Signature : string;
  cb_Response : HumanResponse;
  cb_now_unix : Z;
  cb_now : Z;
  cb_ctx : option error;
  cb_prefer_ctx : bool;
}.

Context {I : Type} `{IdempotencyStore I}.

Record Inbox := mkInbox { ib_queue : SimpleInMemoryQueue; ib_idem : I }.

(** The checks of the handler that ask no store: the signature and its age. *)
Definition callback_refused (secret : string) (c : Callback) : bool :=
  negb (verifyHMAC secret (callback_payload (cb_RequestID c) (cb_Timestamp c)) (cb_Signature c)) ||
  (300 <? cb_now_unix c - cb_Timestamp c).

(** The requests of the handler to the idempotency store and the queue, each at
    the time it is made: has the answer been processed, take the processing lock,
    queue the job, give the lock back. *)
Definition ask_done (now : Z) (c : Callback) (s : Inbox) : result bool :=
  idem_Exists now (done_key (cb_RequestID c)) (ib_idem s).

Definition take_lock (now : Z) (c : Callback) (s : Inbox) : result bool * Inbox :=
  let '(wasSet, idem) := idem_SetNX now (processing_key (cb_RequestID c)) ProcessingLockTTL (ib_idem s) in
  (wasSet, mkInbox (ib_queue s) idem).

Definition queue_job (now : Z) (c : Callback) (s : Inbox) : option (error + unit) * Inbox :=
  let job := mkResumption "" (cb_RequestID c) (cb_Timestamp c) (cb_Signature c) (cb_Response c) in
  let '(err, queue) := Enqueue (cb_ctx c) (cb_prefer_ctx c) now job (ib_queue s) in
  (err, mkInbox queue (ib_idem s)).

Definition drop_lock (now : Z) (c : Callback) (s : Inbox) : Inbox :=
  mkInbox (ib_queue s) (idem_Delete now (processing_key (cb_RequestID c)) (ib_idem s)).2.

(** [HandleHumanCallback] when nothing else happens between its requests; the
    steps of [hitl_step] interleave them. *)
Definition HandleHumanCallback (secret : string) (c : Callback) (s : Inbox) : HttpStatus * Inbox :=
  if callback_refused secret c then (StatusForbidden, s)
  else
    match ask_done (cb_now c) c s with
    | inr true => (StatusOK, s)
    | _ =>
        let '(wasSet, s) := take_lock (cb_now c) c s in
        match wasSet with
        | inl _ => (StatusInternalServerError, s)
        | inr false => (StatusAccepted, s)
        | inr true =>
            let '(err, s) := queue_job (cb_now c) c s in
            match err with
            | Some (inr _) => (StatusServiceUnavailable, drop_lock (cb_now c) c s)
            | Some (inl _) => (StatusInternalServerError, drop_lock (cb_now c) c s)
            | None => (StatusAccepted, s)
            end
        end
    end.

(** *** Callbacks and workers at the same time *)

(** What a call of the handler is about to do.  [late] tells that the store has
    answered its question whether the request was processed, after a worker had
    marked the request as processed. *)
Inductive CallAt := AtAsk | AtLock (late : bool) | AtQueue (late : bool) | AtUnlock.

(** What a worker with a job has done: taken it, or marked its request as
    processed, before it resumes the graph (resumption_worker.go). *)
Inductive WorkerAt := Took | Marked.

Inductive HitlEvent :=
  EvQueued (requestID : string) (late : bool) | EvMarked (requestID : string) | EvUnlocked (requestID : string).

#[export] Instance HitlEvent_eq_dec : EqDecision HitlEvent.
Proof. solve_decision. Defined.

Record HitlWorld := mkHitlWorld {
  hw_clock : Z;
  hw_inbox : Inbox;
  hw_calls : list (Callback * CallAt);
  hw_workers : list (ResumptionJob * WorkerAt);
  hw_log : list HitlEvent;  (** the latest first *)
}.

Definition set_hw_inbox (s : Inbox) (w : HitlWorld) : HitlWorld :=
  mkHitlWorld (hw_clock w) s (hw_calls w) (hw_workers w) (hw_log w).
Definition set_hw_calls (l : list (Callback * CallAt)) (w : HitlWorld) : HitlWorld :=
  mkHitlWorld (hw_clock w) (hw_inbox w) l (hw_workers w) (hw_log w).
Definition set_hw_workers (l : list (ResumptionJob * WorkerAt)) (w : HitlWorld) : HitlWorld :=
  mkHitlWorld (hw_clock w) (hw_inbox w) (hw_calls w) l (hw_log w).
Definition log_hw (e : HitlEvent) (w : HitlWorld) : HitlWorld :=
  mkHitlWorld (hw_clock w) (hw_inbox w) (hw_calls w) (hw_workers w) (e :: hw_log w).

(** The call goes on to [at'], or is answered. *)
Definition call_next (l1 l2 : list (Callback * CallAt)) (c : Callback) (next : option CallAt) (w : HitlWorld)
    : HitlWorld :=
  set_hw_calls (l1 ++ match next with Some at' => [(c, at')] | None => [] end ++ l2) w.
Definition worker_next (l1 l2 : list (ResumptionJob * WorkerAt)) (job : ResumptionJob)
    (next : option WorkerAt) (w : HitlWorld) : HitlWorld :=
  set_hw_workers (l1 ++ match next with Some at' => [(job, at')] | None => [] end ++ l2) w.

(** One request of the handler for a call. *)
Definition call_request (c : Callback) (l1 l2 : list (Callback * CallAt)) (at' : CallAt) (w : HitlWorld)
    : HitlWorld :=
  let r := cb_RequestID c in
  let s := hw_inbox w in
  match at' with
  | AtAsk =>
      match ask_done (hw_clock w) c s with
      | inr true => call_next l1 l2 c None w
      | inr false => call_next l1 l2 c (Some (AtLock (bool_decide (EvMarked r ∈ hw_log w)))) w
      | inl _ => call_next l1 l2 c (Some (AtLock false)) w
      end
  | AtLock late =>
      let '(wasSet, s) := take_lock (hw_clock w) c s in
      call_next l1 l2 c (match wasSet with inr true => Some (AtQueue late) | _ => None end) (set_hw_inbox s w)
  | AtQueue late =>
      let '(err, s) := queue_job (hw_clock w) c s in
      match err with
      | None => call_next l1 l2 c None (log_hw (EvQueued r late) (set_hw_inbox s w))
      | Some _ => call_next l1 l2 c (Some AtUnlock) (set_hw_inbox s w)
      end
  | AtUnlock => call_next l1 l2 c None (set_hw_inbox (drop_lock (hw_clock w) c s) w)
  end.

(** One request of a worker for its job, where it comes to it: it marks the
    request as processed, and gives the lock back when the graph has finished. *)
Definition worker_request (job : ResumptionJob) (l1 l2 : list (ResumptionJob * WorkerAt)) (at' : WorkerAt)
    (w : HitlWorld) : HitlWorld :=
  let r := rj_RequestID job in
  let s := hw_inbox w in
  match at' with
  | Took =>
      let '(err, idem) := idem_Set (hw_clock w) (done_key r) (24 * hour) (ib_idem s) in
      let w := set_hw_inbox (mkInbox (ib_queue s) idem) w in
      match err with
      | None => worker_next l1 l2 job (Some Marked) (log_hw (EvMarked r) w)
      | Some _ => worker_next l1 l2 job None w
      end
  | Marked =>
      let idem := (idem_Delete (hw_clock w) (processing_key r) (ib_idem s)).2 in
      worker_next l1 l2 job None (log_hw (EvUnlocked r) (set_hw_inbox (mkInbox (ib_queue s) idem) w))
  end.

(** Any number of calls of the handler and of workers, one request at a time: a
    call or a worker may also stop at any point (a worker that retires or retries
    its job does not give the lock back), and time passes. *)
Inductive hitl_step (secret : string) : HitlWorld → HitlWorld → Prop :=
  | step_arrive c w :
      callback_refused secret c = false →
      hitl_step secret w (set_hw_calls (hw_calls w ++ [(c, AtAsk)]) w)
  | step_call l1 c at' l2 w :
      hw_calls w = l1 ++ (c, at') :: l2 →
      hitl_step secret w (call_request c l1 l2 at' w)
  | step_call_stops l1 c at' l2 w :
      hw_calls w = l1 ++ (c, at') :: l2 →
      hitl_step secret w (call_next l1 l2 c None w)
  | step_take job q w :
      Dequeue (ib_queue (hw_inbox w)) = Some (job, q) →
      hitl_step secret w
        (set_hw_workers (hw_workers w ++ [(job, Took)]) (set_hw_inbox (mkInbox q (ib_idem (hw_inbox w))) w))
  | step_work l1 job at' l2 w :
      hw_workers w = l1 ++ (job, at') :: l2 →
      hitl_step secret w (worker_request job l1 l2 at' w)
  | step_worker_stops l1 job at' l2 w :
      hw_workers w = l1 ++ (job, at') :: l2 →
      hitl_step secret w (worker_next l1 l2 job None w)
  | step_time now w :
      hw_clock w ≤ now →
      hitl_step secret w (mkHitlWorld now (hw_inbox w) (hw_calls w) (hw_workers w) (hw_log w)).

(** How many jobs have been queued for a request, how often a worker has given
    its lock back, and how many calls have taken its lock and go on. *)
Definition queued_for (r : string) (log : list HitlEvent) : nat :=
  sum_list_with (λ e, match e with EvQueued r' _ => if decide (r' = r) then 1 else 0 | _ => 0 end)%nat log.
Definition unlocked_for (r : string) (log : list HitlEvent) : nat :=
  sum_list_with (λ e, match e with EvUnlocked r' => if decide (r' = r) then 1 else 0 | _ => 0 end)%nat log.
Definition holds_lock (r : string) (x : Callback * CallAt) : nat :=
  match x.2 with
  | AtQueue _ | AtUnlock => if decide (cb_RequestID x.1 = r) then 1 else 0
  | _ => 0
  end.
Definition locks_for (r : string) (calls : list (Callback * CallAt)) : nat :=
  sum_list_with (holds_lock r) calls.
End Hmac.
Arguments Inbox : clear implicits.

(** *** One job at a time *)

Lemma Enqueue_length ctx p nanos job q :
  match Enqueue ctx p nanos job q with
  | (None, q') => ∃ job', rj_RequestID job' = rj_RequestID job ∧ q_jobs q' = q_jobs q ++ [job']
  | (Some _, q') => q' = q
  end.
Proof.
  unfold Enqueue. destruct ctx as [err|].
  - destruct (p || _); [done|]. eexists. split; [|done]. by destruct (String.eqb _ _).
  - destruct (_ <=? _)%nat; [done|]. eexists. split; [|done]. by destruct (String.eqb _ _).
Qed.

Section Once.
Context (hmac_hex : string → string → string) {I : Type} `{IdempotencyLaws I} (secret : string).

Notation step := (hitl_step hmac_hex secret).

Definition locked (w : HitlWorld (I := I)) (r : string) (t_end : Z) : Prop :=
  ∀ t, hw_clock w ≤ t < t_end → idem_held (ib_idem (hw_inbox w)) t (processing_key r) = true.

(** The jobs queued for a request and the calls about to queue one are no more
    than the locks the workers gave back, and one more only while the lock is
    held. *)
Definition lock_inv (r : string) (t_end : Z) (w : HitlWorld (I := I)) : Prop :=
  let claims := (queued_for r (hw_log w) + locks_for r (hw_calls w))%nat in
  (claims ≤ unlocked_for r (hw_log w))%nat ∨
  ((claims ≤ unlocked_for r (hw_log w) + 1)%nat ∧ locked w r t_end).

(** A request that was marked is marked for the store, and no call under way has
    overlooked it. *)
Definition late_call (x : Callback * CallAt) : bool :=
  match x.2 with AtLock late | AtQueue late => late | _ => false end.

Definition done_inv (t_end : Z) (w : HitlWorld (I := I)) : Prop :=
  (∀ r t, EvMarked r ∈ hw_log w → hw_clock w ≤ t < t_end →
     idem_held (ib_idem (hw_inbox w)) t (done_key r) = true) ∧
  Forall (λ x, late_call x = false) (hw_calls w) ∧ (∀ r, EvQueued r true ∉ hw_log w).

Lemma lock_shorter : ProcessingLockTTL < 24 * hour.
Proof. done. Qed.

Lemma processing_neq_done r r' : processing_key r ≠ done_key r'.
Proof. discriminate. Qed.
Lemma processing_neq r r' : r ≠ r' → processing_key r ≠ processing_key r'.
Proof. intros Hne Heq%(inj (String.app "processing:")). done. Qed.

#[local] Arguments locks_for : simpl never.
#[local] Arguments queued_for : simpl never.
#[local] Arguments unlocked_for : simpl never.

Lemma unlocked_unlocked r r' log :
  unlocked_for r (EvUnlocked r' :: log) = ((if decide (r' = r) then 1 else 0) + unlocked_for r log)%nat.
Proof. done. Qed.
Lemma unlocked_queued r r' late log : unlocked_for r (EvQueued r' late :: log) = unlocked_for r log.
Proof. done. Qed.
Lemma queued_unlocked r r' log : queued_for r (EvUnlocked r' :: log) = queued_for r log.
Proof. done. Qed.
Lemma queued_queued r r' late log :
  queued_for r (EvQueued r' late :: log) = ((if decide (r' = r) then 1 else 0) + queued_for r log)%nat.
Proof. done. Qed.

Lemma locks_for_app r l1 l2 : locks_for r (l1 ++ l2) = (locks_for r l1 + locks_for r l2)%nat.
Proof. apply sum_list_with_app. Qed.

Lemma locks_for_cons r x l : locks_for r (x :: l) = (holds_lock r x + locks_for r l)%nat.
Proof. done. Qed.

Lemma clock_le w w' : step w w' → hw_clock w ≤ hw_clock w'.
Proof.
  destruct 1 as [|l1 c [] l2 w|l1 c at' l2 w|job q w|l1 job [] l2 w|l1 job at' l2 w|now w Hle];
    unfold call_request, worker_request; simpl; repeat case_match; simpl; try lia.
Qed.

(** The requests of a call keep the invariant. *)
Lemma call_lock_inv r t_end l1 c at' l2 w :
  hw_calls w = l1 ++ (c, at') :: l2 → hw_clock w < t_end ≤ hw_clock w + ProcessingLockTTL →
  lock_inv r t_end w → lock_inv r t_end (call_request c l1 l2 at' w).
Proof.
  intros Hc Ht. unfold lock_inv. rewrite Hc, locks_for_app, locks_for_cons.
  destruct at' as [|late|late|]; simpl.
  - intros Hinv. destruct (ask_done _ _ _) as [|[]]; simpl; rewrite !locks_for_app; exact Hinv.
  - unfold take_lock. destruct (idem_SetNX _ _ _ _) as [wasSet idem] eqn:Hset.
    simpl. rewrite locks_for_app.
    intros [Hinv|[Hinv Hl]].
    + destruct wasSet as [|[]]; simpl; [by left| |by left].
      apply SetNX_set in Hset as [_ Hheld]. rewrite locks_for_cons. unfold holds_lock; simpl.
      destruct (decide (cb_RequestID c = r)) as [<-|]; [right|left; lia].
      split; [lia|]. intros t Htt. apply Hheld. simpl in *. lia.
    + assert (locked (set_hw_inbox (mkInbox (ib_queue (hw_inbox w)) idem) w) r t_end ∧
        (wasSet = inr true → cb_RequestID c ≠ r)) as [Hl' Hne].
      { destruct (decide (cb_RequestID c = r)) as [<-|Hne].
        - assert (wasSet ≠ inr true) as Hn.
          { intros ->. apply SetNX_set in Hset as [Hfree _]. rewrite (Hl (hw_clock w)) in Hfree; [done|lia]. }
          split; [|done]. intros t Htt. eapply SetNX_refused; [exact Hset|done|]. by apply Hl.
        - split; [|done]. intros t Htt. simpl. erewrite SetNX_other; [by apply Hl|exact Hset|].
          by apply processing_neq, not_eq_sym. }
      right. split; [|exact Hl']. destruct wasSet as [|[]]; simpl; [done| |done].
      rewrite locks_for_cons. unfold holds_lock; simpl. destruct (decide _); [by destruct Hne|done].
  - unfold queue_job, holds_lock. cbn [snd fst].
    destruct (Enqueue _ _ _ _ _) as [[err|] q]; simpl;
      rewrite locks_for_app, ?queued_queued, ?locks_for_cons; unfold holds_lock; simpl;
      rewrite ?unlocked_queued;
      destruct (decide _); (intros [?|[? Hl]]; [left; lia|right; split; [lia|exact Hl]]).
  - rewrite locks_for_app. unfold locked, drop_lock, holds_lock; simpl.
    destruct (idem_Delete _ _ _) as [e idem] eqn:Hdel.
    destruct (decide (cb_RequestID c = r)) as [|Hne]; intros [Hinv|[Hinv Hl]]; [left; lia..|right].
    split; [lia|]. intros t Htt. simpl. erewrite Delete_other; [by apply Hl|exact Hdel|].
    by apply processing_neq, not_eq_sym.
Qed.

(** So do those of a worker. *)
Lemma worker_lock_inv r t_end l1 job at' l2 w :
  lock_inv r t_end w → lock_inv r t_end (worker_request job l1 l2 at' w).
Proof.
  unfold lock_inv. destruct at'; simpl.
  - destruct (idem_Set _ _ _ _) as [err idem] eqn:Hset.
    assert (locked w r t_end → locked (set_hw_inbox (mkInbox (ib_queue (hw_inbox w)) idem) w) r t_end) as Hl.
    { intros Hl t Htt. simpl. erewrite Set_other; [by apply Hl|exact Hset|]. apply processing_neq_done. }
    destruct err; simpl; (intros [?|[? ?%Hl]]; [by left|by right]).
  - destruct (idem_Delete _ _ _) as [e idem] eqn:Hdel.
    destruct (decide (rj_RequestID job = r)) as [->|Hne]; simpl.
    + intros Hinv. left. rewrite unlocked_unlocked, decide_True by done.
      destruct Hinv as [?|[? _]]; rewrite queued_unlocked; lia.
    + rewrite unlocked_unlocked, decide_False by done.
      intros [?|[? Hl]]; [by left|right]. split; [done|].
      intros t Htt. simpl in *. erewrite Delete_other; [by apply Hl|exact Hdel|]. by apply processing_neq, not_eq_sym.
Qed.

Lemma step_lock_inv r t_end w w' :
  step w w' → hw_clock w < t_end ≤ hw_clock w + ProcessingLockTTL → lock_inv r t_end w → lock_inv r t_end w'.
Proof.
  intros Hstep Ht Hinv.
  destruct Hstep as [c w Hc|l1 c at' l2 w Hc|l1 c at' l2 w Hc|job q w Hq|l1 job at' l2 w Hw|l1 job at' l2 w Hw|now w Hn].
  - unfold lock_inv in *. simpl. rewrite locks_for_app. by rewrite Nat.add_0_r.
  - by apply call_lock_inv.
  - unfold lock_inv in *. simpl. rewrite Hc, locks_for_app, locks_for_cons in Hinv.
    rewrite locks_for_app. destruct Hinv as [?|[? Hl]]; [left; lia|right; split; [lia|exact Hl]].
  - exact Hinv.
  - by apply worker_lock_inv.
  - exact Hinv.
  - destruct Hinv as [?|[? Hl]]; [by left|right]. split; [done|]. intros t Htt. apply Hl. simpl in Htt. lia.
Qed.

(** A request marked as processed stays marked, whatever is asked of the store. *)
Lemma step_done_inv t_end w w' :
  step w w' → hw_clock w < t_end ≤ hw_clock w + ProcessingLockTTL → done_inv t_end w → done_inv t_end w'.
Proof.
  intros Hstep Ht (Hd & Hc & Hlog).
  destruct Hstep as [c w Hf|l1 c at' l2 w Hl|l1 c at' l2 w Hl|job q w Hq|l1 job at' l2 w Hw|l1 job at' l2 w Hw|now w Hn];
    simpl in *.
  - split_and!; [exact Hd| |exact Hlog]. apply Forall_app. split; [done|by constructor].
  - rewrite Hl in Hc. apply Forall_app in Hc as [Hc1 [Hx Hc2]%Forall_cons].
    assert (∀ l, Forall (λ x, late_call x = false) l → Forall (λ x, late_call x = false) (l1 ++ l ++ l2)) as Hc.
    { intros l Hl'. rewrite !Forall_app. done. }
    destruct at' as [|late|late|]; simpl.
    + unfold ask_done. destruct (idem_Exists _ _ _) as [e|[]] eqn:Hex; simpl;
        (split_and!; [exact Hd|apply Hc|exact Hlog]); [by repeat constructor|constructor|].
      constructor; [|constructor]. unfold late_call; simpl. apply bool_decide_eq_false. intros Hm.
      apply Exists_held in Hex. rewrite Hd in Hex; [done|done|lia].
    + unfold take_lock. destruct (idem_SetNX _ _ _ _) as [wasSet idem] eqn:Hset. simpl.
      split_and!; [|apply Hc; by destruct wasSet as [|[]]; repeat constructor|exact Hlog].
      intros r t Hm Htt. erewrite SetNX_other; [by apply Hd|exact Hset|].
      apply not_eq_sym, processing_neq_done.
    + unfold queue_job. unfold late_call in Hx; simpl in Hx; subst late.
      destruct (Enqueue _ _ _ _ _) as [[err|] q]; simpl; split_and!; [exact Hd|apply Hc; by repeat constructor|exact Hlog| | |].
      * intros r t Hm. apply Hd. by apply elem_of_cons in Hm as [|].
      * by apply Hc.
      * intros r [|Hr]%elem_of_cons; [done|by apply (Hlog r)].
    + split_and!; [|by apply Hc|exact Hlog]. intros r t Hm Htt. unfold drop_lock; simpl.
      destruct (idem_Delete _ _ _) as [e idem] eqn:Hdel. simpl. erewrite Delete_other; [by apply Hd|exact Hdel|].
      apply not_eq_sym, processing_neq_done.
  - split_and!; [exact Hd| |exact Hlog]. rewrite Hl in Hc. apply Forall_app in Hc as [Hc1 [_ Hc2]%Forall_cons].
    simpl. by apply Forall_app.
  - done.
  - destruct at'; simpl.
    + destruct (idem_Set _ _ _ _) as [err idem] eqn:Hset.
      assert (∀ r t, EvMarked r ∈ hw_log w → hw_clock w ≤ t < t_end → idem_held idem t (done_key r) = true) as Hd'.
      { intros r t Hm Htt. destruct (decide (r = rj_RequestID job)) as [->|Hne].
        - eapply Set_kept; [exact Hset| |by apply Hd]. pose proof lock_shorter. lia.
        - erewrite Set_other; [by apply Hd|exact Hset|]. intros Heq%(inj (String.app "callback-done:")). done. }
      destruct err; simpl; split_and!; try done.
      * intros r t [[= ->]|Hm]%elem_of_cons Htt; [|by apply Hd'].
        eapply Set_set; [exact Hset|]. simpl in Htt. pose proof lock_shorter. lia.
      * intros r [|Hr]%elem_of_cons; [done|by apply (Hlog r)].
    + destruct (idem_Delete _ _ _) as [e idem] eqn:Hdel. simpl. split_and!; [|done|].
      * intros r t [|Hm]%elem_of_cons Htt; [done|]. erewrite Delete_other; [by apply Hd|exact Hdel|].
        apply not_eq_sym, processing_neq_done.
      * intros r [|Hr]%elem_of_cons; [done|by apply (Hlog r)].
  - done.
  - split_and!; [|done|done]. intros r t Hm Htt. simpl in Htt. apply Hd; [done|lia].
Qed.

Lemma steps_inv w w' t_end :
  rtc step w w' → t_end = hw_clock w + ProcessingLockTTL → hw_calls w = [] → hw_log w = [] →
  hw_clock w' < t_end → (∀ r, lock_inv r t_end w') ∧ done_inv t_end w'.
Proof.
  intros Hsteps -> Hc Hl.
  assert (hw_clock w ≤ hw_clock w' ∧ (hw_clock w' < hw_clock w + ProcessingLockTTL →
    (∀ r, lock_inv r (hw_clock w + ProcessingLockTTL) w') ∧ done_inv (hw_clock w + ProcessingLockTTL) w'));
    [|tauto].
  revert w' Hsteps. apply rtc_ind_r.
  - split; [done|]. intros _. split.
    + intros r. left. by rewrite Hc, Hl.
    + unfold done_inv. rewrite Hc, Hl. split_and!; [|by apply Forall_nil|];
        [intros ? ? []%elem_of_nil|intros ? []%elem_of_nil].
  - intros w1 w2 _ Hstep [Hle IH]. pose proof (clock_le _ _ Hstep). split; [lia|]. intros Hlt. destruct IH as [IH1 IH2]; [lia|]. split.
    + intros r. eapply step_lock_inv; [done|lia|done].
    + eapply step_done_inv; [done|lia|done].
Qed.
End Once.

(** ** Checkpoints (implementation.go) *)

Abbreviation Checkpoints := (gmap string ExecutionCheckpoint).

(** [RedisCheckpointStore], which keeps a map. *)
Definition GetByRequestID (requestID : string) (cps : Checkpoints) : option ExecutionCheckpoint :=
  cps !! requestID.

Definition Replace (oldRequestID : string) (next : ExecutionCheckpoint) (cps : Checkpoints)
    : option error * Checkpoints :=
  if String.eqb oldRequestID "" then (Some (EText "old request id is empty"), cps)
  else if negb (bool_decide (is_Some (cps !! oldRequestID))) then (Some (EText "checkpoint not found"), cps)
  else (None, delete oldRequestID (<[cp_RequestID next := next]> cps)).

Definition ListOrphaned (now olderThan : Z) (cps : Checkpoints) : list ExecutionCheckpoint :=
  filter (λ cp, cp_CreatedAt cp < now - olderThan) (map_values cps).

Definition record_failure (now : Z) (msg : string) (cp : ExecutionCheckpoint) : ExecutionCheckpoint :=
  mkCheckpoint (cp_GraphID cp) (cp_GraphVersion cp) (cp_NodeID cp) (cp_StateData cp) (cp_RequestID cp)
    (cp_CreatedAt cp) (cp_ExpiresAt cp) (cp_FailureCount cp + 1) msg now.

Definition RecordFailure (now : Z) (requestID msg : string) (cps : Checkpoints) : Checkpoints :=
  alter (record_failure now msg) requestID cps.

(** ** The worker (resumption_worker.go, graph_resume.go) *)

(** [SimpleGraphRegistry]: the versions and the executable graphs. *)
Record GraphRegistry := mkRegistry {
  gr_graphs : gmap string string;
  gr_executables : gmap string Graph;
}.

Definition RegisterExecutableGraph (g : Graph) (version : string) (r : GraphRegistry) : GraphRegistry :=
  mkRegistry (<[g_id g := version]> (gr_graphs r)) (<[g_id g := g]> (gr_executables r)).

(** What the worker does with a graph state besides running the graph. *)
Class HitlState (W : Type) := {
  DeserializeState : string → result W;
  marshalGraphState : W → result string;
  (** [state.Set(pendingKey, respData)] *)
  set_pending : string → string → W → W;
  (** the timeout under "_hitl_timeout", 0 when there is none that parses *)
  state_timeout : W → Z;
  (** [json.Marshal(job.Response)] *)
  marshal_response : HumanResponse → result string;
}.

(** What an attempt finds outside: the clock and the context where each step
    looks at it. *)
Record Attempt := mkAttempt {
  a_now : Z;
  a_ctx_resume : option error;
  a_ctx : Ctx;
  a_ctx_persist : option error;
  a_span : option (string * string);
}.

Definition ensureContextActive (ctx : option error) (operation : string) : option error :=
  match ctx with
  | Some err => Some (EWrap (operation +:+ " interrupted: ") err "")
  | None => None
  end.

Definition clamp_lifetime (timeout : Z) : Z :=
  let lifetime := timeout + 24 * hour in
  let lifetime := if lifetime <? hour then hour else lifetime in
  if 7 * 24 * hour <? lifetime then 7 * 24 * hour else lifetime.

Definition isRetryable (err : error) : bool :=
  errors_Is err ErrStaleDispatchAuthority || errors_Is err ErrMissingDispatchAuthority ||
  strings_Contains (Error err) "timeout" || strings_Contains (Error err) "connection refused" ||
  strings_Contains (Error err) "database is locked".

(** The error [ResumeFromPaused] returns. *)
Definition exec_error (e : ExecError) : error :=
  match e with
  | XText e | XTraverse (TContext e) | XTraverse (TLookup e) => e
  | XTraverse (TNode ne) | XTraverse (TPaused _ ne) => ne_error ne
  | XTraverse TFuel => EText ""
  end.

Section Worker.
Context {W : Type} `{World W} `{HitlState W} {I : Type} `{IdempotencyStore I} (registry : GraphRegistry).

(** The stores a worker works on, the jobs it acknowledged and the requests it
    gave up on. *)
Record HitlSys := mkHitl {
  hs_checkpoints : Checkpoints;
  hs_idem : I;
  hs_acked : list string;
  hs_dlq : list string;
}.

(** [resumeFromCheckpoint]: the result, the state after it and the nodes it ran. *)
Definition resumeFromCheckpoint (a : Attempt) (cp : ExecutionCheckpoint) (state : W)
    : (error + ExecutionResult) * W * list (string * option NodeError) :=
  match ensureContextActive (a_ctx_resume a) "resume checkpoint" with
  | Some err => (inl err, state, [])
  | None =>
      match gr_executables registry !! cp_GraphID cp with
      | None => (inl (EWrap "get executable graph: "
                   (EText ("executable graph not found: " +:+ cp_GraphID cp)) ""), state, [])
      | Some g =>
          let '(res, s) := ResumeFromPaused g (a_ctx a) (a_span a) state
            (Some (mkPaused (cp_RequestID cp) (cp_NodeID cp) (cp_GraphVersion cp) "" "")) in
          (match res with inl e => inl (exec_error e) | inr r => inr r end, r_world s, r_executed s)
      end
  end.

Definition checkpointExpiryForState (now : Z) (state : W) : Z := now + clamp_lifetime (state_timeout state).

(** [persistNestedPauseCheckpoint] on a store that can replace. *)
Definition persistNestedPauseCheckpoint (a : Attempt) (cp : ExecutionCheckpoint) (state : W)
    (paused : PausedResult) (cps : Checkpoints) : result ExecutionCheckpoint * Checkpoints :=
  if String.eqb (pr_RequestID paused) "" then (inl (EText "paused result missing request_id"), cps)
  else if String.eqb (pr_NodeID paused) "" then (inl (EText "paused result missing node_id"), cps)
  else if String.eqb (pr_RequestID paused) (cp_RequestID cp) then
    (inl (EText ("nested pause produced same request_id as checkpoint: " +:+ pr_RequestID paused)), cps)
  else
    match ensureContextActive (a_ctx_persist a) "persist nested pause checkpoint" with
    | Some err => (inl err, cps)
    | None =>
        match marshalGraphState state with
        | inl err => (inl err, cps)
        | inr stateData =>
            let next := mkCheckpoint (cp_GraphID cp) (cp_GraphVersion cp) (pr_NodeID paused) stateData
              (pr_RequestID paused) (a_now a) (checkpointExpiryForState (a_now a) state) 0 "" 0 in
            match Replace (cp_RequestID cp) next cps with
            | (Some err, cps) => (inl (EWrap "replace nested pause checkpoint: " err ""), cps)
            | (None, cps) => (inr next, cps)
            end
        end
    end.

(** [Ack] and [moveToDLQ]. *)
Definition ack (job : ResumptionJob) (s : HitlSys) : HitlSys :=
  mkHitl (hs_checkpoints s) (hs_idem s) (hs_acked s ++ [rj_JobID job]) (hs_dlq s).

Definition moveToDLQ (cp : ExecutionCheckpoint) (s : HitlSys) : HitlSys :=
  match hs_checkpoints s !! cp_RequestID cp with
  | None => s
  | Some _ => mkHitl (delete (cp_RequestID cp) (hs_checkpoints s)) (hs_idem s) (hs_acked s)
                (hs_dlq s ++ [cp_RequestID cp])
  end.

Definition retire (cp : ExecutionCheckpoint) (job : ResumptionJob) (s : HitlSys) : HitlSys :=
  ack job (moveToDLQ cp s).

Definition with_checkpoints (cps : Checkpoints) (s : HitlSys) : HitlSys :=
  mkHitl cps (hs_idem s) (hs_acked s) (hs_dlq s).
Definition with_idem (idem : I) (s : HitlSys) : HitlSys :=
  mkHitl (hs_checkpoints s) idem (hs_acked s) (hs_dlq s).

(** [processJob]: its error, the stores after it, and the nodes it ran when it
    came to resuming the graph. *)
Definition processJob (a : Attempt) (job : ResumptionJob) (s : HitlSys)
    : option error * HitlSys * option (list (string * option NodeError)) :=
  let requestID := rj_RequestID job in
  match GetByRequestID requestID (hs_checkpoints s) with
  | None => (None, ack job s, None)
  | Some cp =>
      match gr_graphs registry !! cp_GraphID cp with
      | None => (None, retire cp job s, None)
      | Some version =>
          if negb (String.eqb version (cp_GraphVersion cp)) then (None, retire cp job s, None)
          else
            match DeserializeState (cp_StateData cp) with
            | inl _ => (None, retire cp job s, None)
            | inr state =>
                match marshal_response (rj_Response job) with
                | inl _ => (None, retire cp job s, None)
                | inr respData =>
                    let state := set_pending (cp_NodeID cp) respData state in
                    match idem_Set (a_now a) (done_key requestID) (24 * hour) (hs_idem s) with
                    | (Some err, idem) =>
                        (Some (EWrap "failed to set final idempotency key: " err ""), with_idem idem s, None)
                    | (None, idem) =>
                        let s := with_idem idem s in
                        let '(result, state, ran) := resumeFromCheckpoint a cp state in
                        match result with
                        | inl err =>
                            if isRetryable err && (cp_FailureCount cp <? MaxResumptionAttempts) then
                              (Some (EWrap "resumption failed with retryable error: " err ""),
                               with_checkpoints
                                 (RecordFailure (a_now a) requestID (Error err) (hs_checkpoints s)) s,
                               Some ran)
                            else (None, retire cp job s, Some ran)
                        | inr (Some paused) =>
                            let '(next, cps) := persistNestedPauseCheckpoint a cp state paused (hs_checkpoints s) in
                            match next with
                            | inl _ => (None, retire cp job (with_checkpoints cps s), Some ran)
                            | inr _ => (None, ack job (with_checkpoints cps s), Some ran)
                            end
                        | inr None =>
                            let s := with_checkpoints (delete requestID (hs_checkpoints s)) s in
                            let '(_, idem) := idem_Delete (a_now a) (processing_key requestID) (hs_idem s) in
                            (None, ack job (with_idem idem s), Some ran)
                        end
                    end
                end
            end
      end
  end.

(** ** What becomes of a job *)

(** Checkpoints are filed under their request. *)
Definition filed (cps : Checkpoints) : Prop := ∀ r cp, cps !! r = Some cp → cp_RequestID cp = r.

Lemma retire_spec cp job (s : HitlSys) :
  hs_checkpoints s !! cp_RequestID cp = Some cp →
  retire cp job s = mkHitl (delete (cp_RequestID cp) (hs_checkpoints s)) (hs_idem s)
    (hs_acked s ++ [rj_JobID job]) (hs_dlq s ++ [cp_RequestID cp]).
Proof. intros Hcp. unfold retire, moveToDLQ. by rewrite Hcp. Qed.

(** The job came to resuming its graph: its checkpoint [cp] was there, its graph is
    of the checkpoint's version, and the run, from the saved state with the answer
    in it, ended with [result] in [state] having run [ran]. *)
Definition resumes (a : Attempt) (job : ResumptionJob) (s : HitlSys) (cp : ExecutionCheckpoint)
    (result : error + ExecutionResult) (state : W) (ran : list (string * option NodeError)) : Prop :=
  hs_checkpoints s !! rj_RequestID job = Some cp ∧ gr_graphs registry !! cp_GraphID cp = Some (cp_GraphVersion cp) ∧
  ∃ saved answer, DeserializeState (cp_StateData cp) = inr saved ∧ marshal_response (rj_Response job) = inr answer ∧
    resumeFromCheckpoint a cp (set_pending (cp_NodeID cp) answer saved) = (result, state, ran).

(** The job is acknowledged and its checkpoint gone: because the graph has
    finished, or to the requests the worker gave up on. *)
Definition completed (job : ResumptionJob) (s s' : HitlSys) : Prop :=
  hs_acked s' = hs_acked s ++ [rj_JobID job] ∧ hs_dlq s' = hs_dlq s ∧
  hs_checkpoints s' = delete (rj_RequestID job) (hs_checkpoints s).

Definition retired (job : ResumptionJob) (s s' : HitlSys) : Prop :=
  hs_acked s' = hs_acked s ++ [rj_JobID job] ∧ hs_dlq s' = hs_dlq s ++ [rj_RequestID job] ∧
  hs_checkpoints s' = delete (rj_RequestID job) (hs_checkpoints s).

(** The job is acknowledged, and its checkpoint replaced by a fresh one of the same
    graph for the new pause. *)
Definition paused_again (a : Attempt) (job : ResumptionJob) (cp : ExecutionCheckpoint) (state : W)
    (paused : PausedResult) (s s' : HitlSys) : Prop :=
  hs_acked s' = hs_acked s ++ [rj_JobID job] ∧ hs_dlq s' = hs_dlq s ∧
  ∃ next, hs_checkpoints s' = <[pr_RequestID paused := next]> (delete (rj_RequestID job) (hs_checkpoints s)) ∧
    cp_RequestID next = pr_RequestID paused ∧ cp_NodeID next = pr_NodeID paused ∧
    cp_GraphID next = cp_GraphID cp ∧ cp_GraphVersion next = cp_GraphVersion cp ∧
    marshalGraphState state = inr (cp_StateData next) ∧ cp_CreatedAt next = a_now a ∧
    cp_ExpiresAt next = checkpointExpiryForState (a_now a) state ∧ cp_FailureCount next = 0 ∧
    cp_LastError next = "".

(** A pause for which no checkpoint can be made. *)
Definition unsavable (a : Attempt) (requestID : string) (paused : PausedResult) (state : W) : Prop :=
  pr_RequestID paused = "" ∨ pr_NodeID paused = "" ∨ pr_RequestID paused = requestID ∨
  a_ctx_persist a ≠ None ∨ (∃ err, marshalGraphState state = inl err) ∨ requestID = "".

(** A job is to come again: its checkpoint counts one failure more. *)
Definition to_retry (a : Attempt) (job : ResumptionJob) (cp : ExecutionCheckpoint) (err : error) (s s' : HitlSys)
    : Prop :=
  hs_acked s' = hs_acked s ∧ hs_dlq s' = hs_dlq s ∧ cp_FailureCount cp < MaxResumptionAttempts ∧
  hs_checkpoints s' = <[rj_RequestID job := record_failure (a_now a) (Error err) cp]> (hs_checkpoints s).

(** What becomes of a job that was resumed. *)
Definition after_resume (a : Attempt) (job : ResumptionJob) (cp : ExecutionCheckpoint)
    (result : error + ExecutionResult) (state : W) (idem : I) (err : option error) (s s' : HitlSys) : Prop :=
  match result with
  | inr None =>
      err = None ∧ completed job s s' ∧
      hs_idem s' = (idem_Delete (a_now a) (processing_key (rj_RequestID job)) idem).2
  | inr (Some paused) =>
      err = None ∧ hs_idem s' = idem ∧
      (unsavable a (rj_RequestID job) paused state ∧ retired job s s' ∨
       ¬ unsavable a (rj_RequestID job) paused state ∧ paused_again a job cp state paused s s')
  | inl e =>
      hs_idem s' = idem ∧
      (if isRetryable e && (cp_FailureCount cp <? MaxResumptionAttempts)
       then err ≠ None ∧ to_retry a job cp e s s' else err = None ∧ retired job s s')
  end.

Definition job_outcome (a : Attempt) (job : ResumptionJob) (s : HitlSys)
    (out : option error * HitlSys * option (list (string * option NodeError))) : Prop :=
  let '(err, s', ran) := out in
  match ran with
  | Some ran => ∃ cp result state idem, resumes a job s cp result state ran ∧
      idem_Set (a_now a) (done_key (rj_RequestID job)) (24 * hour) (hs_idem s) = (None, idem) ∧
      after_resume a job cp result state idem err s s'
  | None =>
      match err with
      | None => hs_checkpoints s !! rj_RequestID job = None ∧ s' = ack job s ∨
                is_Some (hs_checkpoints s !! rj_RequestID job) ∧ retired job s s' ∧ hs_idem s' = hs_idem s
      | Some _ => ∃ e idem, s' = with_idem idem s ∧
          idem_Set (a_now a) (done_key (rj_RequestID job)) (24 * hour) (hs_idem s) = (Some e, idem)
      end
  end.

Lemma filed_delete cps r : filed cps → filed (delete r cps).
Proof. intros Hf k cp [_ Hk]%lookup_delete_Some. by apply Hf. Qed.

Lemma retire_retired cp job (s : HitlSys) :
  filed (hs_checkpoints s) → hs_checkpoints s !! rj_RequestID job = Some cp →
  retired job s (retire cp job s) ∧ hs_idem (retire cp job s) = hs_idem s.
Proof. intros Hf Hcp. pose proof (Hf _ _ Hcp) as Hid. rewrite retire_spec; by rewrite Hid. Qed.

(** What [persistNestedPauseCheckpoint] leaves. *)
Lemma persist_spec a cp state paused cps :
  cps !! cp_RequestID cp = Some cp →
  match persistNestedPauseCheckpoint a cp state paused cps with
  | (inl _, cps') => unsavable a (cp_RequestID cp) paused state ∧ cps' = cps
  | (inr next, cps') => ¬ unsavable a (cp_RequestID cp) paused state ∧
      cps' = <[pr_RequestID paused := next]> (delete (cp_RequestID cp) cps) ∧
      ∃ data, marshalGraphState state = inr data ∧
      next = mkCheckpoint (cp_GraphID cp) (cp_GraphVersion cp) (pr_NodeID paused) data
        (pr_RequestID paused) (a_now a) (checkpointExpiryForState (a_now a) state) 0 "" 0
  end.
Proof.
  intros Hcp. unfold persistNestedPauseCheckpoint, unsavable.
  destruct (String.eqb_spec (pr_RequestID paused) ""); [tauto|].
  destruct (String.eqb_spec (pr_NodeID paused) ""); [tauto|].
  destruct (String.eqb_spec (pr_RequestID paused) (cp_RequestID cp)); [tauto|].
  destruct (a_ctx_persist a) eqn:Hctx; simpl; [split; [|done]; do 3 right; by left|].
  destruct (marshalGraphState state) as [e|data]; [split; [|done]; do 4 right; left; by exists e|].
  unfold Replace. rewrite Hcp. destruct (String.eqb_spec (cp_RequestID cp) ""); [split; [tauto|done]|].
  rewrite bool_decide_true by eauto. simpl. split_and!; [naive_solver|by rewrite delete_insert_ne|by exists data].
Qed.

Lemma processJob_outcome a job (s : HitlSys) :
  filed (hs_checkpoints s) → job_outcome a job s (processJob a job s).
Proof.
  intros Hf. unfold processJob, GetByRequestID.
  destruct (hs_checkpoints s !! rj_RequestID job) as [cp|] eqn:Hcp; simpl; [|by left].
  pose proof (Hf _ _ Hcp) as Hid. pose proof (retire_retired cp job s Hf Hcp) as [Hr Hri].
  destruct (gr_graphs registry !! _) as [version|] eqn:Hg; [|by right].
  destruct (String.eqb_spec version (cp_GraphVersion cp)) as [->|]; [|by right]. simpl.
  destruct (DeserializeState _) as [|saved] eqn:Hst; [by right|].
  destruct (marshal_response _) as [|answer] eqn:Hresp; [by right|].
  destruct (idem_Set _ _ _ _) as [[err|] idem] eqn:Hset; [by exists err, idem|].
  destruct (resumeFromCheckpoint _ _ _) as [[result state'] ran] eqn:Hres.
  assert (resumes a job s cp result state' ran) as Hresumes by (split_and!; [done..|by exists saved, answer]).
  pose proof (retire_retired cp job (with_idem idem s) Hf Hcp) as [Hr' Hri'].
  destruct result as [err|[paused|]].
  - destruct (isRetryable err && _) eqn:Hre.
    + exists cp, (inl err), state', idem. split_and!; [done..|]. simpl. rewrite Hre.
      apply andb_true_iff in Hre as [_ Hlt%Z.ltb_lt]. split_and!; [done|done|]. split_and!; [done|done|done|].
      simpl. unfold RecordFailure. apply map_eq. intros k. destruct (decide (k = rj_RequestID job)) as [->|Hne].
      * by rewrite lookup_alter_eq, lookup_insert_eq, Hcp.
      * by rewrite lookup_alter_ne, lookup_insert_ne by done.
    + exists cp, (inl err), state', idem. split_and!; [done..|]. simpl. by rewrite Hre.
  - pose proof (persist_spec a cp state' paused (hs_checkpoints s)) as Hp. rewrite Hid in Hp.
    specialize (Hp Hcp). simpl.
    destruct (persistNestedPauseCheckpoint _ _ _ _ _) as [[e|next] cps'];
      exists cp, (inr (Some paused)), state', idem; (split_and!; [done..|]).
    + destruct Hp as [Hu ->]. split_and!; [done..|]. by left.
    + destruct Hp as (Hu & -> & data & Hdata & ->). split_and!; [done..|]. right. split; [done|].
      split_and!; [done..|]. eexists. split_and!; [reflexivity|done..].
  - simpl. destruct (idem_Delete _ _ _) as [e idem'] eqn:Hdel.
    exists cp, (inr None), state', idem. split_and!; [done..|]. simpl. by rewrite Hdel.
Qed.

(** Acknowledged, a job's checkpoint is gone; otherwise, if the idempotency store
    did not fail, it counts one failure more. *)
Lemma processJob_progress a job (s : HitlSys) :
  filed (hs_checkpoints s) → (idem_Set (a_now a) (done_key (rj_RequestID job)) (24 * hour) (hs_idem s)).1 = None →
  let '(err, s', ran) := processJob a job s in
  match err with
  | None => hs_checkpoints s' !! rj_RequestID job = None
  | Some _ => ran ≠ None ∧ ∃ cp e, hs_checkpoints s !! rj_RequestID job = Some cp ∧ to_retry a job cp e s s'
  end.
Proof.
  intros Hf Hset. pose proof (processJob_outcome a job s Hf) as Ho.
  assert (∀ s', retired job s s' → hs_checkpoints s' !! rj_RequestID job = None) as Hret.
  { intros s' (_ & _ & ->). apply lookup_delete_eq. }
  destruct (processJob a job s) as [[err s'] [ran|]]; simpl in Ho.
  - destruct Ho as (cp & result & state & idem & Hres & _ & Hafter). destruct result as [e|[paused|]]; simpl in Hafter.
    + destruct Hafter as [_ Hafter]. destruct (isRetryable e && _); destruct Hafter as [Herr Hafter].
      * destruct err; [|done]. split; [done|]. exists cp, e. by split; [apply Hres|].
      * subst err. by apply Hret.
    + destruct Hafter as (-> & _ & [[_ ?]|[Hu Hp]]); [by apply Hret|].
      destruct Hp as (_ & _ & next & -> & _). rewrite lookup_insert_ne; [apply lookup_delete_eq|].
      intros Heq. apply Hu. by right; right; left.
    + destruct Hafter as (-> & (_ & _ & ->) & _). apply lookup_delete_eq.
  - destruct err as [err|]; [destruct Ho as (e & idem & _ & He); by rewrite He in Hset|].
    destruct Ho as [[Hn ->]|(_ & ? & _)]; [done|by apply Hret].
Qed.

(** A queue that delivers a job until it is acknowledged: whether it was, the
    stores, and how often the graph was resumed. *)
Fixpoint deliver (attempts : list Attempt) (job : ResumptionJob) (s : HitlSys) : bool * HitlSys * Z :=
  match attempts with
  | [] => (false, s, 0)
  | a :: attempts =>
      let '(err, s, ran) := processJob a job s in
      let n := match ran with Some _ => 1 | None => 0 end in
      match err with
      | None => (true, s, n)
      | Some _ => let '(acked, s, n') := deliver attempts job s in (acked, s, n + n')
      end
  end.

Definition failures (job : ResumptionJob) (s : HitlSys) : Z :=
  match hs_checkpoints s !! rj_RequestID job with Some cp => cp_FailureCount cp | None => 0 end.

Lemma filed_record cps r now msg cp : filed cps → cps !! r = Some cp → filed (<[r := record_failure now msg cp]> cps).
Proof.
  intros Hf Hcp k c [[<- <-]|[_ Hk]]%lookup_insert_Some; [|by apply Hf]. by apply (Hf r cp).
Qed.

Lemma deliver_spec attempts job (s : HitlSys) :
  filed (hs_checkpoints s) → (∀ now k ttl idem, (idem_Set now k ttl idem).1 = None) →
  let budget := Z.max 0 (MaxResumptionAttempts - failures job s) + 1 in
  let '(acked, s', n) := deliver attempts job s in
  n ≤ budget ∧ (budget ≤ Z.of_nat (length attempts) →
    acked = true ∧ hs_checkpoints s' !! rj_RequestID job = None).
Proof.
  intros Hf Hset. revert s Hf. induction attempts as [|a attempts IH]; intros s Hf; simpl; [split; lia|].
  pose proof (processJob_progress a job s Hf (Hset _ _ _ _)) as Hstep.
  destruct (processJob a job s) as [[[err|] s1] ran].
  - destruct Hstep as (Hran & cp & e & Hcp & _ & _ & Hlt & Hcps).
    specialize (IH s1). rewrite Hcps in IH. specialize (IH (filed_record _ _ _ _ _ Hf Hcp)).
    destruct (deliver attempts job s1) as [[acked s2] n'].
    assert (failures job s1 = failures job s + 1 ∧ failures job s < MaxResumptionAttempts) as [Hf1 Hlt'].
    { unfold failures. rewrite Hcps, lookup_insert_eq, Hcp. done. }
    destruct ran; [|done]. rewrite Hf1 in IH. destruct IH as [IH1 IH2]. split; [lia|].
    intros Hlen. apply IH2. lia.
  - split; [destruct ran; lia|]. done.
Qed.
End Worker.
Arguments HitlSys : clear implicits.

(** ** Properties *)

(** C22. Whatever calls of the callback handler and workers are under way, their
    requests to the idempotency store and the queue interleaved in any order, and
    wherever a call or a worker stops: in a period as long as the processing lock
    lasts that begins with no call under way, one job at most is queued for a
    request, and one more for each time a worker that has finished the request
    gives its lock back; and no job comes from a call that got an answer when it
    asked whether the request was processed after a worker had marked it so. *)
Theorem callback_once hmac_hex {I : Type} `{IdempotencyLaws I} secret r (w w' : HitlWorld (I := I)) :
  hw_calls w = [] → hw_log w = [] → rtc (hitl_step hmac_hex secret) w w' →
  hw_clock w' < hw_clock w + ProcessingLockTTL →
  (queued_for r (hw_log w') ≤ 1 + unlocked_for r (hw_log w'))%nat ∧ EvQueued r true ∉ hw_log w'.
Proof.
  intros Hc Hl Hsteps Hlt. destruct (steps_inv hmac_hex secret w w' _ Hsteps eq_refl Hc Hl Hlt) as [Hinv Hd].
  split; [|apply Hd]. destruct (Hinv r) as [?|[? _]]; lia.
Qed.

(** What a callback is answered and does: it is forbidden exactly when its
    signature does not fit or is more than five minutes old; an answer that was
    processed is acknowledged again and nothing is done; the queue grows only
    for an accepted callback, and only by a job for its request; a callback that
    cannot be queued gives its lock back. *)
Theorem callback_status hmac_hex {I : Type} `{IdempotencyStore I} secret c (s : Inbox I) :
  let '(status, s') := HandleHumanCallback hmac_hex secret c s in
  (status = StatusForbidden ↔
     cb_Signature c ≠ hmac_hex secret (callback_payload (cb_RequestID c) (cb_Timestamp c)) ∨
     cb_Timestamp c + 300 < cb_now_unix c) ∧
  (status = StatusForbidden ∨ status = StatusOK → s' = s) ∧
  (status ≠ StatusForbidden → idem_Exists (cb_now c) (done_key (cb_RequestID c)) (ib_idem s) = inr true →
     status = StatusOK) ∧
  (ib_queue s' = ib_queue s ∨
   status = StatusAccepted ∧ ∃ job, rj_RequestID job = cb_RequestID c ∧
     q_jobs (ib_queue s') = q_jobs (ib_queue s) ++ [job]) ∧
  (status = StatusServiceUnavailable → ∃ idem, ib_idem s' =
     (idem_Delete (cb_now c) (processing_key (cb_RequestID c)) idem).2).
Proof.
  unfold HandleHumanCallback, callback_refused, verifyHMAC, ask_done, take_lock, queue_job, drop_lock.
  destruct (String.eqb_spec (hmac_hex secret (callback_payload (cb_RequestID c) (cb_Timestamp c)))
    (cb_Signature c)) as [Hsig|Hsig]; simpl.
  2:{ split_and!; [|done|done|by left|done]. split; [|done]. intros _. left. congruence. }
  destruct (Z.ltb_spec 300 (cb_now_unix c - cb_Timestamp c)) as [Hold|Hold].
  { split_and!; [|done|done|by left|done]. split; [|done]. intros _. right. lia. }
  assert (∀ st, st ≠ StatusForbidden → (st = StatusForbidden ↔
     cb_Signature c ≠ hmac_hex secret (callback_payload (cb_RequestID c) (cb_Timestamp c)) ∨
     cb_Timestamp c + 300 < cb_now_unix c)) as Hnot.
  { intros st Hst. split; [done|]. intros [?|?]; [congruence|lia]. }
  destruct (idem_Exists _ _ _) as [e|[]] eqn:Hex; [|by split_and!; [apply Hnot|..|left|]|];
    (destruct (idem_SetNX _ _ _ _) as [[e'|[]] idem];
      [by split_and!; [apply Hnot|intros [?|?]|..|left|]| |by split_and!; [apply Hnot|intros [?|?]|..|left|]]);
    pose proof (Enqueue_length (cb_ctx c) (cb_prefer_ctx c) (cb_now c)
      (mkResumption "" (cb_RequestID c) (cb_Timestamp c) (cb_Signature c) (cb_Response c)) (ib_queue s)) as Hq;
    (destruct (Enqueue _ _ _ _ _) as [[err|] q'];
      [subst q'; destruct err; simpl;
       (split_and!; [by apply Hnot|by intros [?|?]|done|by left|done || by exists idem])
      |split_and!; [by apply Hnot|by intros [?|?]|done|by right|done]]).
Qed.

(** C23. What a worker does with a job.  A job whose request has no checkpoint is
    acknowledged and nothing else is done.  A job whose checkpoint cannot be
    resumed (no such graph, another version, unreadable data) is acknowledged and
    its checkpoint retired.  When the idempotency store fails nothing has changed
    but that store.  Otherwise the request is marked as processed and the graph
    resumed, and it has run only nodes that can be reached from the paused one,
    that one not among them, each once, and all of them when it finished.  Then: a
    graph that finished leaves no checkpoint, and the processing lock is given
    back; one that paused again leaves, instead of the old checkpoint, a new one
    with the state after the run, or, where none can be made, its checkpoint is
    retired; after an error worth retrying, up to the limit, the job is not
    acknowledged and the checkpoint counts the failure; after another one it is
    retired. *)
Theorem job_processing `{World W} `{!HitlState W} {I : Type} `{IdempotencyStore I} registry a job
    (s : HitlSys I) :
  filed (hs_checkpoints s) → map_Forall (λ _ g, built g) (gr_executables registry) →
  job_outcome registry a job s (processJob registry a job s) ∧
  (∀ cp result state ran, resumes registry a job s cp result state ran →
     NoDup ran.*1 ∧
     (∀ y, y ∈ ran.*1 → y ≠ cp_NodeID cp ∧
        ∃ g, gr_executables registry !! cp_GraphID cp = Some g ∧ rtc (edge g) (cp_NodeID cp) y) ∧
     (result = inr None → ∃ g, gr_executables registry !! cp_GraphID cp = Some g ∧
        ∀ y, y ≠ cp_NodeID cp → rtc (edge g) (cp_NodeID cp) y → y ∈ ran.*1)).
Proof.
  intros Hf Hg. split; [by apply processJob_outcome|].
  intros cp result state ran (_ & _ & saved & answer & _ & _ & Hres). unfold resumeFromCheckpoint in Hres.
  assert (∀ e : error, result = inl e → ran = [] → NoDup ran.*1 ∧
     (∀ y, y ∈ ran.*1 → y ≠ cp_NodeID cp ∧
        ∃ g, gr_executables registry !! cp_GraphID cp = Some g ∧ rtc (edge g) (cp_NodeID cp) y) ∧
     (result = inr None → ∃ g, gr_executables registry !! cp_GraphID cp = Some g ∧
        ∀ y, y ≠ cp_NodeID cp → rtc (edge g) (cp_NodeID cp) y → y ∈ ran.*1)) as Hnone.
  { intros e -> ->. split_and!; [constructor|intros y []%elem_of_nil|done]. }
  destruct (ensureContextActive _ _) as [e|]; [simplify_eq; by eapply Hnone|].
  destruct (gr_executables registry !! _) as [g|] eqn:Hgr; [|simplify_eq; by eapply Hnone].
  pose proof (graph_resumption g (a_ctx a) (a_span a) (set_pending (cp_NodeID cp) answer saved)
    (mkPaused (cp_RequestID cp) (cp_NodeID cp) (cp_GraphVersion cp) "" "") (Hg _ _ Hgr)) as Hr.
  destruct (ResumeFromPaused _ _ _ _ _) as [r run]. simplify_eq. destruct Hr as (Hnd & Hin & Hall & _).
  split_and!; [done| |].
  - intros y Hy. destruct (Hin y Hy). eauto.
  - intros Hr. exists g. split; [done|]. intros y. apply Hall. by destruct r; simplify_eq.
Qed.

(** A job that is delivered until it is acknowledged is acknowledged: with a
    fresh checkpoint four deliveries are enough, whatever the graph does, and the
    graph is resumed at most four times. *)
Theorem job_retries_end `{World W} `{!HitlState W} {I : Type} `{IdempotencyStore I} registry attempts job
    (s : HitlSys I) :
  filed (hs_checkpoints s) → (∀ now k ttl idem, (idem_Set now k ttl idem).1 = None) →
  failures job s = 0 → MaxResumptionAttempts < Z.of_nat (length attempts) →
  let '(acked, s', resumed) := deliver registry attempts job s in
  acked = true ∧ hs_checkpoints s' !! rj_RequestID job = None ∧ resumed ≤ MaxResumptionAttempts + 1.
Proof.
  intros Hf Hset Hz Hlen. pose proof (deliver_spec registry attempts job s Hf Hset) as Hd.
  destruct (deliver registry attempts job s) as [[acked s'] n]. rewrite Hz in Hd.
  unfold MaxResumptionAttempts in *. destruct Hd as [Hn Hack]. destruct Hack; [lia|]. split_and!; [done|done|lia].
Qed.

(** ** The human node (human_node.go) *)

Section HumanNode.
(** [json.Unmarshal] of a response, and [Duration.String]. *)
Context (unmarshal_response : string → result HumanResponse) (Duration_String : Z → string).

Record HumanNode := mkHumanNode {
  hn_ID : string;
  hn_timeout : Z;
  hn_shortWaitThreshold : Z;
  hn_maxConcurrentWaits : Z;
}.

Definition NewHumanNode (id : string) (timeout shortWaitThreshold maxConcurrentWaits : Z) : HumanNode :=
  mkHumanNode id timeout (if shortWaitThreshold =? 0 then 5 * minute else shortWaitThreshold)
    (if maxConcurrentWaits =? 0 then 1000 else maxConcurrentWaits).

(** How a blocking wait ends. *)
Inductive Wait := Answered (resp : HumanResponse) | TimedOut | CtxDone (err : error).

Definition processResponse (resp : HumanResponse) (state : gmap string Value) : gmap string Value :=
  <["human_response_timestamp" := VInt (hr_Timestamp resp)]>
    (<["human_response_text" := VString (hr_FreeformText resp)]>
       (<["human_response" := VString (hr_SelectedOption resp)]> state)).

(** [active] is the number of waits at the time, this one included. *)
Definition blockWithTimeout (n : HumanNode) (active : Z) (wait : Wait) (state : gmap string Value)
    : gmap string Value * option NodeError :=
  let fail err := (state, Some (mkNodeError None false err)) in
  if hn_maxConcurrentWaits n <? active then
    fail (EText ("max concurrent blocking waits reached (" +:+ pretty (hn_maxConcurrentWaits n) +:+
                 "), use checkpoint mode"))
  else
    match wait with
    | Answered resp => (processResponse resp state, None)
    | TimedOut => fail (EText "human response timeout exceeded")
    | CtxDone err => fail err
    end.

Definition checkpointAndReturn (n : HumanNode) (requestID : string) (state : gmap string Value)
    : gmap string Value * option NodeError :=
  (<["_hitl_timeout" := VString (Duration_String (hn_timeout n))]>
     (<["_hitl_request_id" := VString requestID]> state),
   Some (mkNodeError (Some (mkPaused requestID (hn_ID n) "" "" "")) false
     (EText "human interaction pending: checkpoint required"))).

(** [HumanNode.Execute], with the request id it draws. *)
Definition HumanNode_Execute (n : HumanNode) (requestID : string) (active : Z) (wait : Wait)
    (state : gmap string Value) : gmap string Value * option NodeError :=
  match state !! pending_key (hn_ID n) with
  | Some (VBytes respBytes) =>
      match unmarshal_response respBytes with
      | inl err => (state, Some (mkNodeError None false (EWrap "unmarshal human response: " err "")))
      | inr resp => (delete (pending_key (hn_ID n)) (processResponse resp state), None)
      end
  | Some _ => (state, Some (mkNodeError None false (EText "invalid pending response type")))
  | None =>
      if (0 <? hn_timeout n) && (hn_timeout n <=? hn_shortWaitThreshold n) then
        blockWithTimeout n active wait state
      else checkpointAndReturn n requestID state
  end.

Lemma pending_key_neq id k : String.prefix "_hitl_pending:" k = false → pending_key id ≠ k.
Proof. intros Hp <-. unfold pending_key in Hp. simpl in Hp. by destruct id. Qed.

(** A human node takes an answer once: with an answer waiting in the state it
    stores it, removes it and succeeds, so that run again it asks again; without
    one, and unless it may block, it pauses under its request. *)
Theorem human_node_answer n requestID active wait state resp respBytes :
  state !! pending_key (hn_ID n) = Some (VBytes respBytes) → unmarshal_response respBytes = inr resp →
  hn_shortWaitThreshold n < hn_timeout n →
  let '(state', err) := HumanNode_Execute n requestID active wait state in
  err = None ∧ state' !! "human_response" = Some (VString (hr_SelectedOption resp)) ∧
  state' !! pending_key (hn_ID n) = None ∧
  (HumanNode_Execute n requestID active wait state').2 ≫= ne_pause =
    Some (mkPaused requestID (hn_ID n) "" "" "").
Proof.
  intros Hp Hr Ht. unfold HumanNode_Execute at 1. rewrite Hp, Hr.
  assert (delete (pending_key (hn_ID n)) (processResponse resp state) !! pending_key (hn_ID n) = None) as Hnone.
  { apply lookup_delete_eq. }
  split_and!; [done| |done|].
  - rewrite lookup_delete_ne by (by apply pending_key_neq). unfold processResponse.
    by rewrite !lookup_insert_ne, lookup_insert_eq by done.
  - unfold HumanNode_Execute. rewrite Hnone.
    rewrite (proj2 (Z.leb_gt (hn_timeout n) _)) by lia. rewrite andb_false_r. done.
Qed.
End HumanNode.

(** ** A store of keys with expiry times *)

(** The laws hold of a map from keys to their expiry. *)
Abbreviation Ttl := (gmap string Z).
Definition ttl_held (s : Ttl) (now : Z) (k : string) : bool :=
  match s !! k with Some e => now <? e | None => false end.

#[export] Instance Ttl_store : IdempotencyStore Ttl := {|
  idem_Exists now k s := inr (ttl_held s now k);
  idem_Set now k ttl s := (None, <[k := now + ttl]> s);
  idem_SetNX now k ttl s :=
    if ttl_held s now k then (inr false, s) else (inr true, <[k := now + ttl]> s);
  idem_Delete _ k s := (None, delete k s);
  idem_held := ttl_held;
|}.

#[export] Instance Ttl_laws : IdempotencyLaws Ttl.
Proof.
  split; simpl.
  - intros now k ttl s s'. destruct (ttl_held s now k) eqn:Hh; [done|]. intros [= <-].
    split; [done|]. intros t Ht. unfold ttl_held. rewrite lookup_insert_eq. apply Z.ltb_lt. lia.
  - intros now k ttl s s'. by destruct (ttl_held s now k).
  - intros now k ttl s b s'. destruct (ttl_held s now k); by intros [= <- <-].
  - intros now k ttl s b s' Hs t k' Hne. destruct (ttl_held s now k); injection Hs as <- <-; [done|].
    unfold ttl_held. by rewrite lookup_insert_ne.
  - intros now k s e s' [= <- <-] t k' Hne. unfold ttl_held. by rewrite lookup_delete_ne.
  - intros now k ttl s s' [= <-] t Ht. unfold ttl_held. rewrite lookup_insert_eq. apply Z.ltb_lt. lia.
  - intros now k ttl s e s' [= <- <-] t Ht _. unfold ttl_held. rewrite lookup_insert_eq. apply Z.ltb_lt. lia.
  - intros now k ttl s e s' [= <- <-] t k' Hne. unfold ttl_held. by rewrite lookup_insert_ne.
  - by intros now k s b [= <-].
Qed.
