(* ===== verification/Etcd.v ===== *)
(** * The etcd store the coordination code talks to

    The coordination primitives and the node registry keep their shared state in
    etcd, a service outside the sources.  It is reached through the class [Etcd],
    the requests the code makes, and [EtcdLaws], what etcd documents of them: a
    store of keys with values, leases and creation revisions; the revision of the
    store grows with each write; a key is created at the revision of the write
    that made it and keeps that revision while it exists; a range is answered in
    the order of creation when that is asked for; a revoked lease takes its keys
    with it.  Every request is atomic.  [EtcdMap] is an implementation, so that
    the laws can be met. *)

From Stdlib Require Import HexadecimalString HexadecimalZ HexadecimalFacts Ascii.
From stdpp Require Import base gmap strings list fin_maps sorting pretty.
From S2P Require Import Prelude.

Open Scope Z_scope.

(** ** The interface *)

Record KeyValue := mkKeyValue {
  key_Value : string;
  key_Lease : Z;
  key_CreateRevision : Z;
  key_ModRevision : Z;
}.

#[export] Instance KeyValue_eq_dec : EqDecision KeyValue.
Proof. solve_decision. Defined.

(** [kv] is ordered before another by its creation. *)
Definition created_le (x y : string * KeyValue) : Prop := key_CreateRevision x.2 ≤ key_CreateRevision y.2.

#[export] Instance created_le_dec : RelDecision created_le.
Proof. intros x y. unfold created_le. apply _. Defined.
#[export] Instance created_le_total : Total created_le.
Proof. intros x y. unfold created_le. lia. Qed.
#[export] Instance created_le_trans : Transitive created_le.
Proof. intros x y z. unfold created_le. lia. Qed.

Class Etcd (E : Type) := {
  (** the keys of the store *)
  etcd_kvs : E → gmap string KeyValue;
  (** the revision of the store *)
  etcd_rev : E → Z;
  (** Put of a value under a lease, 0 for none *)
  etcd_put : Z → string → string → E → E;
  (** Delete of a key, and of all keys with a prefix *)
  etcd_delete : string → E → E;
  etcd_delete_prefix : string → E → E;
  (** Get of the keys with a prefix, by ascending creation *)
  etcd_range : string → E → list (string * KeyValue);
  (** the end of a lease *)
  etcd_revoke : Z → E → E;
}.

(** What a key is after a write at revision [rev]. *)
Definition written (old : option KeyValue) (lease : Z) (value : string) (rev : Z) : KeyValue :=
  mkKeyValue value lease (match old with Some kv => key_CreateRevision kv | None => rev end) rev.

Class EtcdLaws (E : Type) `{Etcd E} := {
  etcd_kvs_put lease k v e :
    etcd_kvs (etcd_put lease k v e) = <[k := written (etcd_kvs e !! k) lease v (etcd_rev (etcd_put lease k v e))]> (etcd_kvs e);
  etcd_rev_put lease k v e : etcd_rev e < etcd_rev (etcd_put lease k v e);
  etcd_kvs_delete k e : etcd_kvs (etcd_delete k e) = delete k (etcd_kvs e);
  etcd_rev_delete k e : etcd_rev e ≤ etcd_rev (etcd_delete k e);
  etcd_kvs_delete_prefix p e :
    etcd_kvs (etcd_delete_prefix p e) = filter (λ x, String.prefix p x.1 = false) (etcd_kvs e);
  etcd_rev_delete_prefix p e : etcd_rev e ≤ etcd_rev (etcd_delete_prefix p e);
  etcd_range_keys p e :
    etcd_range p e ≡ₚ filter (λ x, String.prefix p x.1 = true) (map_to_list (etcd_kvs e));
  etcd_range_sorted p e : StronglySorted created_le (etcd_range p e);
  etcd_kvs_revoke lease e :
    etcd_kvs (etcd_revoke lease e) = filter (λ x, key_Lease x.2 ≠ lease) (etcd_kvs e);
  etcd_rev_revoke lease e : etcd_rev e ≤ etcd_rev (etcd_revoke lease e);
}.

(** A transaction that creates a key if it does not exist, and says whether it
    did: [If(CreateRevision(k) = 0).Then(Put(k, v))]. *)
Definition etcd_create {E} `{Etcd E} (k v : string) (e : E) : bool * E :=
  match etcd_kvs e !! k with
  | None => (true, etcd_put 0 k v e)
  | Some _ => (false, e)
  end.

(** One write, whoever makes it. *)
Inductive etcd_step {E} `{Etcd E} : E → E → Prop :=
  | etcd_step_put lease k v e : etcd_step e (etcd_put lease k v e)
  | etcd_step_delete k e : etcd_step e (etcd_delete k e)
  | etcd_step_delete_prefix q e : etcd_step e (etcd_delete_prefix q e)
  | etcd_step_revoke lease e : etcd_step e (etcd_revoke lease e).

(** ** An implementation *)

Record EtcdMap := mkEtcd { em_kvs : gmap string KeyValue; em_rev : Z }.

Definition empty_etcd : EtcdMap := mkEtcd ∅ 1.

#[export] Instance EtcdMap_etcd : Etcd EtcdMap := {|
  etcd_kvs := em_kvs;
  etcd_rev := em_rev;
  etcd_put lease k v e :=
    mkEtcd (<[k := written (em_kvs e !! k) lease v (em_rev e + 1)]> (em_kvs e)) (em_rev e + 1);
  etcd_delete k e := mkEtcd (delete k (em_kvs e)) (em_rev e + 1);
  etcd_delete_prefix p e :=
    mkEtcd (filter (λ x, String.prefix p x.1 = false) (em_kvs e)) (em_rev e + 1);
  etcd_range p e :=
    merge_sort created_le (filter (λ x, String.prefix p x.1 = true) (map_to_list (em_kvs e)));
  etcd_revoke lease e := mkEtcd (filter (λ x, key_Lease x.2 ≠ lease) (em_kvs e)) (em_rev e + 1);
|}.

#[export] Instance EtcdMap_laws : EtcdLaws EtcdMap.
Proof.
  split; intros; simpl; try done; try lia.
  - by rewrite merge_sort_Permutation.
  - apply StronglySorted_merge_sort; apply _.
Qed.

(** ** Ranges and ranks *)

Section Ranges.
Context {E : Type} `{EtcdLaws E}.
Implicit Types (e : E) (k p : string).

Lemma elem_of_range p e k kv :
  (k, kv) ∈ etcd_range p e ↔ etcd_kvs e !! k = Some kv ∧ String.prefix p k = true.
Proof.
  rewrite (etcd_range_keys p e), list_elem_of_filter, elem_of_map_to_list. simpl. tauto.
Qed.

Lemma range_nodup p e : NoDup (etcd_range p e).*1.
Proof.
  rewrite (fmap_Permutation fst _ _ (etcd_range_keys p e)).
  eapply sublist_NoDup; [apply (NoDup_fst_map_to_list (etcd_kvs e)) | apply fmap_sublist, sublist_filter].
Qed.

(** The keys of a prefix are created at different revisions, none in the future:
    what holds of keys that are each made by a write of their own. *)
Definition range_wf p e : Prop :=
  (∀ k kv, etcd_kvs e !! k = Some kv → String.prefix p k = true → key_CreateRevision kv ≤ etcd_rev e) ∧
  (∀ k k' kv kv', etcd_kvs e !! k = Some kv → etcd_kvs e !! k' = Some kv' →
     String.prefix p k = true → String.prefix p k' = true →
     key_CreateRevision kv = key_CreateRevision kv' → k = k').

(** Writing a key of the prefix keeps this. *)
Lemma range_wf_put p e lease k v : range_wf p e → range_wf p (etcd_put lease k v e).
Proof.
  intros [Hle Hinj]. pose proof (etcd_rev_put lease k v e) as Hrev.
  assert (∀ k' kv, etcd_kvs (etcd_put lease k v e) !! k' = Some kv → String.prefix p k' = true →
    (∃ kv0, etcd_kvs e !! k' = Some kv0 ∧ key_CreateRevision kv = key_CreateRevision kv0) ∨
    k' = k ∧ etcd_kvs e !! k = None ∧ key_CreateRevision kv = etcd_rev (etcd_put lease k v e)) as Hcase.
  { intros k' kv. rewrite etcd_kvs_put. intros Hk Hp.
    apply lookup_insert_Some in Hk as [[<- <-]|[? ?]]; [|by left; eauto].
    unfold written. simpl. destruct (etcd_kvs e !! k) eqn:Hk; eauto. }
  split.
  - intros k' kv Hk Hp. destruct (Hcase _ _ Hk Hp) as [(kv0 & Hk0 & ->)|(-> & _ & ->)]; [|lia].
    specialize (Hle _ _ Hk0 Hp). lia.
  - intros k1 k2 kv1 kv2 Hk1 Hk2 Hp1 Hp2 Heq.
    destruct (Hcase _ _ Hk1 Hp1) as [(x1 & Hx1 & E1)|(-> & Hn1 & E1)];
      destruct (Hcase _ _ Hk2 Hp2) as [(x2 & Hx2 & E2)|(-> & Hn2 & E2)]; try done.
    + eapply Hinj; [exact Hx1|exact Hx2|done|done|congruence].
    + specialize (Hle _ _ Hx1 Hp1). lia.
    + specialize (Hle _ _ Hx2 Hp2). lia.
Qed.

(** Removing keys keeps it. *)
Lemma range_wf_sub p e e' :
  range_wf p e → etcd_rev e ≤ etcd_rev e' →
  (∀ k kv, etcd_kvs e' !! k = Some kv → String.prefix p k = true → etcd_kvs e !! k = Some kv) →
  range_wf p e'.
Proof.
  intros [Hle Hinj] Hrev Hsub. split.
  - intros k kv Hk Hp. specialize (Hle k kv (Hsub _ _ Hk Hp) Hp). lia.
  - intros k k' kv kv' Hk Hk' Hp Hp'. eapply Hinj; eauto.
Qed.

(** The keys of the prefix created before a revision. *)
Definition before p e (rev : Z) : list (string * KeyValue) :=
  filter (λ x, key_CreateRevision x.2 < rev) (etcd_range p e).

(** The position of a key in the range is the number of keys created before it. *)
Lemma range_index p e i k kv :
  range_wf p e → etcd_range p e !! i = Some (k, kv) → length (before p e (key_CreateRevision kv)) = i.
Proof.
  intros [_ Hinj] Hi. unfold before.
  pose proof (etcd_range_sorted p e) as Hs. pose proof (range_nodup p e) as Hnd.
  assert (∀ x, x ∈ etcd_range p e → key_CreateRevision x.2 = key_CreateRevision kv → x.1 = k) as Huniq.
  { intros [k' kv'] Hx Heq. simpl in *. apply elem_of_range in Hx as [Hk' Hp'].
    apply list_elem_of_lookup_2, elem_of_range in Hi as [Hk Hp].
    eapply Hinj; eauto. }
  revert i Hi Hs Hnd Huniq. generalize (etcd_range p e) as l.
  induction l as [|x l IH]; intros i Hi Hs Hnd Huniq; [done|].
  inversion_clear Hs as [|? ? Hs' Hall]. simpl in Hnd. apply NoDup_cons in Hnd as [Hni Hnd].
  destruct i as [|i]; simpl in Hi.
  - injection Hi as ->. rewrite filter_cons, decide_False by (simpl; lia).
    cut (filter (λ x, key_CreateRevision x.2 < key_CreateRevision kv) l = []); [by intros ->|].
    apply elem_of_nil_inv. intros x. rewrite list_elem_of_filter. intros [Hlt Hx].
    rewrite Forall_forall in Hall. specialize (Hall x Hx). unfold created_le in Hall. simpl in Hall. lia.
  - rewrite filter_cons, decide_True.
    + simpl. f_equal. apply IH; try done. intros y Hy. apply Huniq. by right.
    + rewrite Forall_forall in Hall. apply list_elem_of_lookup_2 in Hi as Hin.
      pose proof (Hall _ Hin) as Hle. unfold created_le in Hle. simpl in Hle.
      destruct (decide (key_CreateRevision x.2 = key_CreateRevision kv)) as [Heq|]; [|lia].
      exfalso. apply Hni. rewrite (Huniq x) by (done || by left).
      apply list_elem_of_fmap. exists (k, kv). done.
Qed.

End Ranges.

(** ** Keys

    [fmt.Sprintf("%x", lease)]. *)
Definition fmt_x (z : Z) : string := NilZero.string_of_int (Z.to_hex_int z).

Fixpoint string_forall (f : ascii → bool) (s : string) : bool :=
  match s with
  | EmptyString => true
  | String c s' => f c && string_forall f s'
  end.

Definition no_slash : string → bool := string_forall (λ c, negb (Ascii.eqb c "/"%char)).

(** Decimal numbers are made of digits and a sign. *)
Definition is_digit_or_sign (c : ascii) : bool :=
  existsb (Ascii.eqb c) ["-"; "0"; "1"; "2"; "3"; "4"; "5"; "6"; "7"; "8"; "9"]%char.

Lemma pretty_forall (f : ascii → bool) (z : Z) :
  (∀ c, is_digit_or_sign c = true → f c = true) → string_forall f (pretty z) = true.
Proof.
  intros Hf.
  assert (∀ x acc, string_forall f acc = true → string_forall f (pretty_N_go x acc) = true) as Hgo.
  { intros x. induction (N.lt_wf_0 x) as [x _ IH]. intros acc Hacc.
    destruct (decide (0 < x)%N) as [Hx|Hx].
    - rewrite pretty_N_go_step by done. apply IH; [by apply N.div_lt|].
      cbn [string_forall]. rewrite Hacc, andb_true_r. apply Hf. unfold pretty_N_char. by repeat case_match.
    - replace x with 0%N by lia. by rewrite pretty_N_go_0. }
  assert (∀ n : N, string_forall f (pretty n) = true) as HN.
  { intros n. unfold pretty, pretty_N. case_decide; [cbn; by rewrite Hf|]. by apply Hgo. }
  destruct z as [|p|p].
  - cbn. by rewrite Hf.
  - apply (HN (N.pos p)).
  - change (f "-"%char && string_forall f (pretty (N.pos p)) = true). by rewrite HN, Hf.
Qed.

Lemma pretty_no_slash (z : Z) : no_slash (pretty z) = true.
Proof.
  apply pretty_forall. intros c Hc. unfold is_digit_or_sign in Hc. simpl in Hc.
  destruct (Ascii.eqb_spec c "/"%char) as [->|]; done.
Qed.

Lemma pretty_nonempty (z : Z) : pretty z ≠ "".
Proof.
  intros Hz. assert (z = 0) as ->; [|done].
  destruct z as [|p|p]; [done| |discriminate Hz]. exfalso.
  change (pretty (N.pos p) = "") in Hz. unfold pretty, pretty_N in Hz. case_decide; [done|].
  assert (∀ x acc, (String.length acc ≤ String.length (pretty_N_go x acc))%nat) as Hlen.
  { intros x. induction (N.lt_wf_0 x) as [x _ IH]. intros acc.
    destruct (decide (0 < x)%N) as [Hx|Hx].
    - rewrite pretty_N_go_step by done.
      etrans; [|apply IH; by apply N.div_lt]. simpl. lia.
    - replace x with 0%N by lia. by rewrite pretty_N_go_0. }
  rewrite pretty_N_go_step in Hz by done. apply (f_equal String.length) in Hz.
  specialize (Hlen (N.pos p `div` 10)%N (String (pretty_N_char (N.pos p `mod` 10)) "")).
  rewrite Hz in Hlen. simpl in Hlen. lia.
Qed.

Lemma no_slash_uint d : no_slash (NilEmpty.string_of_uint d) = true.
Proof. induction d; simpl; try done. Qed.

Lemma fmt_x_no_slash z : no_slash (fmt_x z) = true.
Proof.
  unfold fmt_x, NilZero.string_of_int, NilZero.string_of_uint.
  destruct (Z.to_hex_int z) as [d|d]; destruct d; simpl; try done; apply no_slash_uint.
Qed.

Lemma fmt_x_inj z z' : fmt_x z = fmt_x z' → z = z'.
Proof.
  unfold fmt_x. intros Heq.
  assert (∀ y, NilZero.int_of_string (NilZero.string_of_int (Z.to_hex_int y)) = Some (Z.to_hex_int y)) as Hisi.
  { intros y. destruct (Z.eq_dec y 0) as [->|Hy]; [done|]. apply NilZero.isi.
    - intros Hd. apply Hy. rewrite <-(HexadecimalZ.of_to y). by rewrite Hd.
    - intros Hd. apply Hy. rewrite <-(HexadecimalZ.of_to y). by rewrite Hd. }
  apply (f_equal NilZero.int_of_string) in Heq. rewrite !Hisi in Heq.
  apply HexadecimalZ.to_int_inj. congruence.
Qed.

(** A segment without a slash ends at the first slash. *)
Lemma segment_unique a b x y :
  no_slash a = true → no_slash b = true → a +:+ "/" +:+ x = b +:+ "/" +:+ y → a = b ∧ x = y.
Proof.
  unfold no_slash. change ("/" +:+ x) with (String "/" x). change ("/" +:+ y) with (String "/" y).
  revert b. induction a as [|c a IH]; intros [|d b] Ha Hb Heq; simpl in *.
  - by injection Heq as ->.
  - injection Heq as <- _. simpl in Hb. done.
  - injection Heq as -> _. simpl in Ha. done.
  - injection Heq as -> Heq. bool_to_prop. destruct (IH b) as [-> ->]; done.
Qed.

Lemma string_app_assoc (a b c : string) : (a +:+ b) +:+ c = a +:+ b +:+ c.
Proof.
  induction a as [|x a IH]; [done|].
  change (String x ((a +:+ b) +:+ c) = String x (a +:+ b +:+ c)). by rewrite IH.
Qed.

Lemma length_string_app a t : String.length (a +:+ t) = (String.length a + String.length t)%nat.
Proof. induction a as [|c a IH]; [done|]. simpl. f_equal. exact IH. Qed.

(** [strings.HasPrefix]. *)
Lemma prefix_iff a s : String.prefix a s = true ↔ ∃ t, s = a +:+ t.
Proof.
  revert s. induction a as [|c a IH]; intros s.
  - split; [by exists s|by destruct s].
  - destruct s as [|d s]; [split; [done|by intros [? ?]]|]. cbn [String.prefix].
    destruct (Ascii.ascii_dec c d) as [->|Hne].
    + rewrite IH. split; intros (t & Ht); exists t; [by rewrite Ht|by injection Ht].
    + split; [done|]. intros (t & Ht). by injection Ht.
Qed.

Lemma prefix_app a t : String.prefix a (a +:+ t) = true.
Proof. apply prefix_iff. eauto. Qed.

Lemma prefix_trans a b s : String.prefix a b = true → String.prefix b s = true → String.prefix a s = true.
Proof.
  rewrite !prefix_iff. intros (t & ->) (u & ->). exists (t +:+ u). by rewrite string_app_assoc.
Qed.

#[export] Hint Resolve prefix_app prefix_trans : dagens.
