(* ===== verification/Coordination.v ===== *)
(** * Coordination primitives over etcd (pkg/coordination)

    The distributed semaphore (semaphore.go), the barrier (barrier.go) and the
    leader elector with its task runner (leader_election.go, helpers.go).  Each
    request to etcd is one step; the steps of any number of processes, ends of
    leases, failed requests and the writes of others to other keys interleave
    freely.  Contexts, watches and tickers decide only when a process looks
    again, so a process may look at any time. *)

From stdpp Require Import base gmap strings list fin_maps pretty relations.
From S2P Require Import Prelude Etcd.

Open Scope Z_scope.

(** ** The semaphore *)

Record DistributedSemaphore := mkSemaphore { ds_key : string; ds_size : Z }.

Definition permits_prefix (ds : DistributedSemaphore) : string := ds_key ds +:+ "/permits/".
Definition session_prefix (ds : DistributedSemaphore) (lease : Z) : string :=
  permits_prefix ds +:+ fmt_x lease +:+ "/".
Definition permitKey (ds : DistributedSemaphore) (lease : Z) (permitID : string) : string :=
  permits_prefix ds +:+ fmt_x lease +:+ "/" +:+ permitID.

(** The loop that finds the position of a key in a response, -1 if it has none. *)
Fixpoint find_rank (k : string) (i : Z) (kvs : list (string * KeyValue)) : Z :=
  match kvs with
  | [] => -1
  | kv :: kvs' => if String.eqb kv.1 k then i else find_rank k (i + 1) kvs'
  end.

(** What one turn of the loop of [Acquire] finds. *)
Inductive AcquireTurn := PermitLost | Acquired | MustWait.

Section Semaphore.
Context {E : Type} `{EtcdLaws E} (ds : DistributedSemaphore).
Local Notation P := (permits_prefix ds).

Definition acquire_turn (permit : string) (e : E) : AcquireTurn :=
  let rank := find_rank permit 0 (etcd_range P e) in
  if rank =? -1 then PermitLost
  else if rank <? ds_size ds then Acquired
  else MustWait.

(** The request of [Release] for the oldest permit of the session: it deletes
    the key that is found. *)
Definition oldest_permit (lease : Z) (e : E) : option string :=
  match etcd_range (session_prefix ds lease) e with
  | [] => None
  | kv :: _ => Some kv.1
  end.

(** [Release] when nothing comes between its two requests. *)
Definition ReleasePermit (lease : Z) (e : E) : option error * E :=
  match oldest_permit lease e with
  | None => (Some (EText "no permits held by this session"), e)
  | Some k => (None, etcd_delete k e)
  end.

Definition GetAvailable (e : E) : Z :=
  let available := ds_size ds - Z.of_nat (length (etcd_range P e)) in
  if available <? 0 then 0 else available.

(** *** Processes that share the semaphore

    [sw_waiting]: the keys of the calls of [Acquire] in their loop, with the lease
    of their session; [sw_granted]: the keys of those that have returned nil;
    [sw_releasing]: the calls of [Release] between their two requests;
    [sw_held]: for each permit a live session has acquired and not released, its
    lease. *)
Record SemWorld := mkSemWorld {
  sw_etcd : E;
  sw_waiting : gmap string Z;
  sw_granted : gset string;
  sw_releasing : list (Z * string);
  sw_held : list Z;
}.

Fixpoint remove_one (x : Z) (l : list Z) : list Z :=
  match l with
  | [] => []
  | y :: l' => if x =? y then l' else y :: remove_one x l'
  end.

(** The delete of a key that a caller asks for may fail without effect. *)
Definition maybe_delete (done : bool) (k : string) (e : E) : E := if done then etcd_delete k e else e.

Inductive sem_step : SemWorld → SemWorld → Prop :=
  (** a call of [Acquire] registers a key with a fresh uuid *)
  | sem_register e wt gr rl hd lease id (k := permitKey ds lease id) :
      etcd_kvs e !! k = None → wt !! k = None → k ∉ gr →
      sem_step (mkSemWorld e wt gr rl hd)
               (mkSemWorld (etcd_put lease k "waiting" e) (<[k := lease]> wt) gr rl hd)
  (** the registration fails, with or without effect, and [Acquire] returns *)
  | sem_register_failed e wt gr rl hd lease id (k := permitKey ds lease id) (applied : bool) :
      etcd_kvs e !! k = None → wt !! k = None → k ∉ gr →
      sem_step (mkSemWorld e wt gr rl hd)
               (mkSemWorld (if applied then etcd_put lease k "waiting" e else e) wt gr rl hd)
  (** a turn of the loop *)
  | sem_turn e wt gr rl hd k lease done :
      wt !! k = Some lease →
      sem_step (mkSemWorld e wt gr rl hd)
        match acquire_turn k e with
        | MustWait => mkSemWorld e wt gr rl hd
        | Acquired => mkSemWorld e (delete k wt) ({[k]} ∪ gr) rl (lease :: hd)
        | PermitLost => mkSemWorld (maybe_delete done k e) (delete k wt) gr rl hd
        end
  (** the context ends, or a request or a watch fails *)
  | sem_abort e wt gr rl hd k lease done :
      wt !! k = Some lease →
      sem_step (mkSemWorld e wt gr rl hd) (mkSemWorld (maybe_delete done k e) (delete k wt) gr rl hd)
  (** [Release] looks up the oldest permit of its session ... *)
  | sem_release_find e wt gr rl hd lease k :
      oldest_permit lease e = Some k →
      sem_step (mkSemWorld e wt gr rl hd) (mkSemWorld e wt gr ((lease, k) :: rl) hd)
  (** ... and deletes it *)
  | sem_release_delete e wt gr rl1 rl2 hd lease k :
      sem_step (mkSemWorld e wt gr (rl1 ++ (lease, k) :: rl2) hd)
               (mkSemWorld (etcd_delete k e) wt gr (rl1 ++ rl2) (remove_one lease hd))
  (** a session ends, with its lease *)
  | sem_expire e wt gr rl hd lease :
      sem_step (mkSemWorld e wt gr rl hd)
               (mkSemWorld (etcd_revoke lease e) wt gr rl (filter (λ l, l ≠ lease) hd))
  (** others write other keys *)
  | sem_others e e' wt gr rl hd :
      (∀ k, String.prefix P k = true → etcd_kvs e' !! k = etcd_kvs e !! k) →
      etcd_rev e ≤ etcd_rev e' →
      sem_step (mkSemWorld e wt gr rl hd) (mkSemWorld e' wt gr rl hd).

Definition sem_init (w : SemWorld) : Prop :=
  (∀ k, String.prefix P k = true → etcd_kvs (sw_etcd w) !! k = None) ∧
  sw_waiting w = ∅ ∧ sw_granted w = ∅ ∧ sw_releasing w = [] ∧ sw_held w = [].

(** *** Lemmas on keys and ranks *)

Lemma permitKey_prefix lease id : String.prefix P (permitKey ds lease id) = true.
Proof. apply prefix_app. Qed.

Lemma session_prefix_prefix lease : String.prefix P (session_prefix ds lease) = true.
Proof. apply prefix_app. Qed.

(** A permit key belongs to one session. *)
Lemma session_prefix_lease lease lease' id :
  String.prefix (session_prefix ds lease) (permitKey ds lease' id) = true → lease' = lease.
Proof.
  rewrite prefix_iff. intros (t & Heq). unfold permitKey, session_prefix in Heq.
  rewrite !string_app_assoc in Heq. apply String.app_inj in Heq.
  apply segment_unique in Heq as [Heq _]; [|apply fmt_x_no_slash..]. by apply fmt_x_inj.
Qed.

Lemma find_rank_index k kvs i :
  (find_rank k i kvs = -1 ∧ k ∉ kvs.*1) ∨
  (∃ n kv, find_rank k i kvs = i + Z.of_nat n ∧ kvs !! n = Some (k, kv)).
Proof.
  revert i. induction kvs as [|[k' kv] kvs IH]; intros i; simpl; [left; set_solver|].
  destruct (String.eqb_spec k' k) as [->|Hne].
  - right. exists 0%nat, kv. split; [lia|done].
  - destruct (IH (i + 1)) as [[-> Hni]|(n & kv' & -> & Hn)].
    + left. split; [done|]. rewrite not_elem_of_cons. naive_solver.
    + right. exists (S n), kv'. split; [lia|done].
Qed.

(** The three outcomes of a turn. *)
Lemma acquire_turn_spec k e :
  range_wf P e → String.prefix P k = true →
  match acquire_turn k e with
  | PermitLost => etcd_kvs e !! k = None
  | Acquired => ∃ kv, etcd_kvs e !! k = Some kv ∧
      Z.of_nat (length (before P e (key_CreateRevision kv))) < ds_size ds
  | MustWait => ∃ kv, etcd_kvs e !! k = Some kv ∧
      ds_size ds ≤ Z.of_nat (length (before P e (key_CreateRevision kv)))
  end.
Proof.
  intros Hwf Hp. unfold acquire_turn.
  destruct (find_rank_index k (etcd_range P e) 0) as [[-> Hni]|(n & kv & -> & Hn)].
  - simpl. destruct (etcd_kvs e !! k) as [kv|] eqn:Hk; [|done]. exfalso. apply Hni.
    apply list_elem_of_fmap. exists (k, kv). split; [done|]. by apply elem_of_range.
  - destruct (Z.eqb_spec (0 + Z.of_nat n) (-1)); [lia|].
    pose proof (range_index _ _ _ _ _ Hwf Hn) as Hlen.
    apply list_elem_of_lookup_2, elem_of_range in Hn as [Hk _].
    destruct (Z.ltb_spec (0 + Z.of_nat n) (ds_size ds)); exists kv; (split; [done|lia]).
Qed.

(** Fewer keys, or keys created later, do not push a key back. *)
Lemma before_mono e e' rev :
  (∀ k kv, etcd_kvs e' !! k = Some kv → String.prefix P k = true → key_CreateRevision kv < rev →
     ∃ kv0, etcd_kvs e !! k = Some kv0 ∧ key_CreateRevision kv0 < rev) →
  (length (before P e' rev) ≤ length (before P e rev))%nat.
Proof.
  intros Hsub. rewrite <-(length_fmap fst (before P e' rev)), <-(length_fmap fst (before P e rev)).
  apply submseteq_length, NoDup_submseteq.
  - eapply sublist_NoDup; [apply (range_nodup P e')|]. apply fmap_sublist, sublist_filter.
  - intros k. rewrite !list_elem_of_fmap. intros ([k' kv] & -> & Hin). simpl.
    apply list_elem_of_filter in Hin as [Hlt Hin]. apply elem_of_range in Hin as [Hk Hp].
    destruct (Hsub _ _ Hk Hp Hlt) as (kv0 & Hk0 & Hlt0). exists (k', kv0). split; [done|].
    apply list_elem_of_filter. split; [done|]. by apply elem_of_range.
Qed.

Lemma remove_one_perm x l : x ∈ l → l ≡ₚ x :: remove_one x l.
Proof.
  induction l as [|y l IH]; intros Hx; [by apply elem_of_nil in Hx|]. simpl.
  destruct (Z.eqb_spec x y) as [->|Hne]; [done|].
  apply elem_of_cons in Hx as [?|Hx]; [done|]. rewrite (IH Hx) at 1. apply Permutation_swap.
Qed.

Lemma remove_one_absent x l : x ∉ l → remove_one x l = l.
Proof.
  induction l as [|y l IH]; intros Hx; [done|]. simpl. apply not_elem_of_cons in Hx as [Hne Hx].
  destruct (Z.eqb_spec x y); [done|]. by rewrite IH.
Qed.

(** *** The invariant *)

(** The lease a key is under. *)
Definition lease_of (e : E) (k : string) : Z := default 0 (key_Lease <$> etcd_kvs e !! k).

(** Each held permit has a granted key of its session in the store. *)
Definition backed (e : E) (gr : gset string) (hd : list Z) : Prop :=
  ∃ ks, NoDup ks ∧ lease_of e <$> ks ≡ₚ hd ∧
    ∀ k, k ∈ ks → k ∈ gr ∧ is_Some (etcd_kvs e !! k) ∧ String.prefix P k = true.

Record sem_inv (w : SemWorld) : Prop := {
  si_wf : range_wf P (sw_etcd w);
  si_keys k kv : etcd_kvs (sw_etcd w) !! k = Some kv → String.prefix P k = true →
    ∃ id, k = permitKey ds (key_Lease kv) id;
  si_granted k kv : k ∈ sw_granted w → etcd_kvs (sw_etcd w) !! k = Some kv →
    Z.of_nat (length (before P (sw_etcd w) (key_CreateRevision kv))) < ds_size ds;
  si_granted_prefix k : k ∈ sw_granted w → String.prefix P k = true;
  si_waiting k lease : sw_waiting w !! k = Some lease → k ∉ sw_granted w ∧ ∃ id, k = permitKey ds lease id;
  si_releasing lease k : (lease, k) ∈ sw_releasing w → ∃ id, k = permitKey ds lease id;
  si_held : backed (sw_etcd w) (sw_granted w) (sw_held w);
}.

Lemma sem_inv_init w : sem_init w → sem_inv w.
Proof.
  destruct w as [e wt gr rl hd]. intros (Hnone & Hw & Hg & Hr & Hh). simpl in *. subst.
  split; simpl.
  - split; [intros k kv Hk Hp | intros k k' kv kv' Hk _ Hp _ _]; by rewrite Hnone in Hk.
  - intros k kv Hk Hp. by rewrite Hnone in Hk.
  - set_solver.
  - set_solver.
  - intros k lease Hk. by rewrite lookup_empty in Hk.
  - set_solver.
  - exists []. split; [constructor|]. split; [done|]. intros k Hk. by apply elem_of_nil in Hk.
Qed.

(** What is left of the store: the keys of the prefix are kept or removed. *)
Definition shrunk (e e' : E) : Prop :=
  etcd_rev e ≤ etcd_rev e' ∧
  ∀ k kv, etcd_kvs e' !! k = Some kv → String.prefix P k = true → etcd_kvs e !! k = Some kv.

Lemma shrunk_delete k e : shrunk e (etcd_delete k e).
Proof.
  split; [apply etcd_rev_delete|]. intros k' kv. rewrite etcd_kvs_delete. intros Hk _.
  by apply lookup_delete_Some in Hk as [_ ?].
Qed.

Lemma shrunk_maybe done k e : shrunk e (maybe_delete done k e).
Proof. destruct done; [apply shrunk_delete|]. split; [simpl; lia|done]. Qed.

Lemma shrunk_revoke lease e : shrunk e (etcd_revoke lease e).
Proof.
  split; [apply etcd_rev_revoke|]. intros k kv. rewrite etcd_kvs_revoke. intros Hk _.
  by apply map_lookup_filter_Some in Hk as [? _].
Qed.

Lemma backed_shrunk e e' gr hd :
  (∀ k, k ∈ gr → String.prefix P k = true → etcd_kvs e' !! k = etcd_kvs e !! k) →
  backed e gr hd → backed e' gr hd.
Proof.
  intros Hsame (ks & Hnd & Hperm & Hks). exists ks. split; [done|]. split.
  - rewrite <-Hperm. erewrite list_fmap_ext; [done|]. intros i k Hk. unfold lease_of.
    apply list_elem_of_lookup_2, Hks in Hk as (Hg & _ & Hp). by rewrite Hsame.
  - intros k Hk. destruct (Hks k Hk) as (? & ? & ?). by rewrite Hsame.
Qed.

(** The parts of the invariant that removals keep. *)
Lemma sem_inv_shrunk e e' wt wt' gr rl rl' hd hd' :
  sem_inv (mkSemWorld e wt gr rl hd) → shrunk e e' →
  (∀ k lease, wt' !! k = Some lease → wt !! k = Some lease) → rl' ⊆ rl → backed e' gr hd' →
  sem_inv (mkSemWorld e' wt' gr rl' hd').
Proof.
  intros [Hwf Hkeys Hgr Hgp Hwt Hrl _] [Hrev Hsub] Hw Hr Hb. simpl in *. split; simpl; eauto.
  - by eapply range_wf_sub.
  - intros k kv Hk Hkv. specialize (Hgr k kv Hk (Hsub _ _ Hkv (Hgp _ Hk))).
    enough (length (before P e' (key_CreateRevision kv)) ≤ length (before P e (key_CreateRevision kv)))%nat by lia.
    apply before_mono. intros k' kv' Hk' Hp' Hlt. exists kv'. eauto.
Qed.

(** A new key comes after all that exist. *)
Lemma sem_inv_put e wt gr rl hd lease id (k := permitKey ds lease id) wt' :
  sem_inv (mkSemWorld e wt gr rl hd) → etcd_kvs e !! k = None → k ∉ gr →
  (∀ k' l, wt' !! k' = Some l → wt !! k' = Some l ∨ k' = k ∧ l = lease) →
  sem_inv (mkSemWorld (etcd_put lease k "waiting" e) wt' gr rl hd).
Proof.
  intros [Hwf Hkeys Hgr Hgp Hwt Hrl Hb] Hnone Hni Hw. simpl in *.
  pose proof (etcd_rev_put lease k "waiting" e) as Hrev.
  assert (∀ k', k' ≠ k → etcd_kvs (etcd_put lease k "waiting" e) !! k' = etcd_kvs e !! k') as Hother.
  { intros k' Hne. by rewrite etcd_kvs_put, lookup_insert_ne by done. }
  split; simpl; eauto.
  - by apply range_wf_put.
  - intros k' kv. rewrite etcd_kvs_put. intros Hk Hp.
    apply lookup_insert_Some in Hk as [[<- <-]|[_ Hk]]; [|eauto]. simpl. by exists id.
  - intros k' kv Hk Hkv. assert (k' ≠ k) as Hne by (intros ->; done). rewrite Hother in Hkv by done.
    specialize (Hgr k' kv Hk Hkv). destruct Hwf as [Hle _]. specialize (Hle _ _ Hkv (Hgp _ Hk)).
    enough (length (before P (etcd_put lease k "waiting" e) (key_CreateRevision kv))
            ≤ length (before P e (key_CreateRevision kv)))%nat by lia.
    apply before_mono. intros k2 kv2 Hk2 Hp2 Hlt. rewrite etcd_kvs_put in Hk2.
    apply lookup_insert_Some in Hk2 as [[<- <-]|[_ Hk2]]; [|eauto].
    unfold written in Hlt. rewrite Hnone in Hlt. simpl in Hlt. lia.
  - intros k' l Hk'. destruct (Hw _ _ Hk') as [?|[-> ->]]; [eauto|]. split; [done|]. by exists id.
  - eapply backed_shrunk; [|exact Hb]. intros k' Hk' _. apply Hother. by intros ->.
Qed.

Lemma permitKey_lease lease lease' id id' :
  permitKey ds lease id = permitKey ds lease' id' → lease = lease'.
Proof.
  intros Heq. symmetry. apply (session_prefix_lease lease lease' id'). rewrite <-Heq.
  apply prefix_iff. exists id. unfold permitKey, session_prefix. by rewrite !string_app_assoc.
Qed.

Lemma sem_inv_lease w k kv lease id :
  sem_inv w → etcd_kvs (sw_etcd w) !! k = Some kv → k = permitKey ds lease id →
  key_Lease kv = lease ∧ lease_of (sw_etcd w) k = lease.
Proof.
  intros Hinv Hk Heq. destruct (si_keys _ Hinv k kv Hk) as (id' & Heq').
  { rewrite Heq. apply permitKey_prefix. }
  assert (key_Lease kv = lease) as Hl by (eapply permitKey_lease; by rewrite <-Heq').
  split; [done|]. unfold lease_of. by rewrite Hk.
Qed.

Lemma remove_one_cons x l l' : l ≡ₚ x :: l' → remove_one x l ≡ₚ l'.
Proof.
  intros Hp. apply (Permutation_cons_inv (a := x)). rewrite <-Hp. symmetry. apply remove_one_perm.
  rewrite Hp. by left.
Qed.

Lemma backed_release w lease k id :
  sem_inv w → k = permitKey ds lease id →
  backed (etcd_delete k (sw_etcd w)) (sw_granted w) (remove_one lease (sw_held w)).
Proof.
  intros Hinv Hkey. destruct (si_held _ Hinv) as (ks & Hnd & Hperm & Hks).
  assert (∀ ks', NoDup ks' → (∀ k', k' ∈ ks' → k' ∈ ks ∧ k' ≠ k) →
    lease_of (sw_etcd w) <$> ks' ≡ₚ remove_one lease (sw_held w) →
    backed (etcd_delete k (sw_etcd w)) (sw_granted w) (remove_one lease (sw_held w))) as Hgoal.
  { intros ks' Hnd' Hsub Hp. exists ks'. split; [done|].
    assert (∀ k', k' ≠ k → etcd_kvs (etcd_delete k (sw_etcd w)) !! k' = etcd_kvs (sw_etcd w) !! k') as Hl.
    { intros k' Hne. by rewrite etcd_kvs_delete, lookup_delete_ne by done. }
    split.
    - rewrite <-Hp. erewrite list_fmap_ext; [done|]. intros i k' Hk'. unfold lease_of.
      apply list_elem_of_lookup_2, Hsub in Hk' as [_ Hne]. by rewrite Hl.
    - intros k' Hk'. destruct (Hsub k' Hk') as [Hin Hne]. rewrite Hl by done. by apply Hks. }
  assert (∀ k2 ks2, ks ≡ₚ k2 :: ks2 → lease_of (sw_etcd w) k2 = lease → (k2 = k ∨ k ∉ ks) →
    backed (etcd_delete k (sw_etcd w)) (sw_granted w) (remove_one lease (sw_held w))) as Hdrop.
  { intros k2 ks2 Hp Hl Hor. rewrite Hp in Hnd. apply NoDup_cons in Hnd as [Hni Hnd2].
    apply (Hgoal ks2); [done| |].
    - intros k' Hk'. split; [rewrite Hp; by right|]. intros ->. destruct Hor as [->|Hnk]; [done|].
      apply Hnk. rewrite Hp. by right.
    - symmetry. apply remove_one_cons. rewrite <-Hperm, Hp. simpl. by rewrite Hl. }
  destruct (decide (k ∈ ks)) as [Hk|Hk].
  - destruct (Hks k Hk) as (_ & [kv Hkv] & _). destruct (proj1 (elem_of_Permutation _ _) Hk) as (ks2 & Hp).
    eapply Hdrop; [exact Hp|by eapply sem_inv_lease|by left].
  - destruct (decide (lease ∈ sw_held w)) as [Hl|Hl].
    + rewrite <-Hperm in Hl. apply list_elem_of_fmap in Hl as (k2 & Hl & Hk2).
      destruct (proj1 (elem_of_Permutation _ _) Hk2) as (ks2 & Hp). eapply Hdrop; [exact Hp|done|by right].
    + apply (Hgoal ks); [done| |by rewrite remove_one_absent].
      intros k' Hk'. split; [done|]. by intros ->.
Qed.

Lemma backed_expire e gr hd lease :
  backed e gr hd → backed (etcd_revoke lease e) gr (filter (λ l, l ≠ lease) hd).
Proof.
  intros (ks & Hnd & Hperm & Hks). exists (filter (λ k, lease_of e k ≠ lease) ks).
  assert (∀ k, k ∈ ks → lease_of e k ≠ lease →
    etcd_kvs (etcd_revoke lease e) !! k = etcd_kvs e !! k) as Hl.
  { intros k Hk Hne. destruct (Hks k Hk) as (_ & [kv Hkv] & _). rewrite etcd_kvs_revoke, Hkv.
    apply map_lookup_filter_Some. split; [done|]. unfold lease_of in Hne. by rewrite Hkv in Hne. }
  split; [by apply NoDup_filter|]. split.
  - rewrite <-Hperm. clear Hperm Hnd Hks. induction ks as [|k ks IH]; [done|].
    rewrite !fmap_cons, !filter_cons. destruct (decide (lease_of e k ≠ lease)) as [Hne|Hne].
    + rewrite fmap_cons, IH by (intros; apply Hl; [by right|done]). f_equiv. unfold lease_of.
      by rewrite Hl by (done || by left).
    + apply IH. intros; apply Hl; [by right|done].
  - intros k Hk. apply list_elem_of_filter in Hk as [Hne Hk]. rewrite Hl by done. by apply Hks.
Qed.

Lemma sem_inv_turn e wt gr rl hd k lease :
  sem_inv (mkSemWorld e wt gr rl hd) → wt !! k = Some lease → acquire_turn k e = Acquired →
  sem_inv (mkSemWorld e (delete k wt) ({[k]} ∪ gr) rl (lease :: hd)).
Proof.
  intros Hinv Hk Ht. pose proof Hinv as [Hwf Hkeys Hgr Hgp Hwt Hrl (ks & Hnd & Hperm & Hks)]. simpl in *.
  destruct (Hwt k lease Hk) as [Hni (id & Hid)].
  assert (String.prefix P k = true) as Hp by (rewrite Hid; apply permitKey_prefix).
  pose proof (acquire_turn_spec k e Hwf Hp) as Hspec. rewrite Ht in Hspec.
  destruct Hspec as (kv & Hkv & Hlt).
  split; simpl; try done.
  - intros k' kv'. rewrite elem_of_union, elem_of_singleton. intros [->|Hk'] Hkv'; [|eauto].
    by replace kv' with kv by congruence.
  - intros k'. rewrite elem_of_union, elem_of_singleton. intros [->|Hk']; eauto.
  - intros k' l Hk'. apply lookup_delete_Some in Hk' as [Hne Hk']. destruct (Hwt k' l Hk') as [? ?].
    split; [set_solver|done].
  - exists (k :: ks). split.
    + constructor; [|done]. intros Hin. by apply Hks in Hin as [? _].
    + split.
      * rewrite fmap_cons, Hperm. f_equiv. by eapply (sem_inv_lease _ k kv lease id Hinv).
      * intros k' Hk'. apply elem_of_cons in Hk' as [->|Hk'].
        -- split; [set_solver|]. split; [by rewrite Hkv|done].
        -- destruct (Hks k' Hk') as (? & ? & ?). split; [set_solver|done].
Qed.

Lemma sem_inv_lost e wt gr rl hd k lease done :
  sem_inv (mkSemWorld e wt gr rl hd) → wt !! k = Some lease →
  sem_inv (mkSemWorld (maybe_delete done k e) (delete k wt) gr rl hd).
Proof.
  intros Hinv Hk. destruct (si_waiting _ Hinv k lease Hk) as [Hni _]. simpl in Hni.
  eapply sem_inv_shrunk; [exact Hinv|apply shrunk_maybe| |done|].
  - intros k' l Hk'. by apply lookup_delete_Some in Hk' as [_ ?].
  - eapply backed_shrunk; [|exact (si_held _ Hinv)]. intros k' Hk' _. destruct done; [|done]. simpl.
    rewrite etcd_kvs_delete, lookup_delete_ne; [done|]. by intros ->.
Qed.

Lemma sem_inv_step w w' : sem_inv w → sem_step w w' → sem_inv w'.
Proof.
  intros Hinv Hstep. destruct Hstep.
  - eapply sem_inv_put; eauto. intros k' l Hk'. apply lookup_insert_Some in Hk' as [[? ?]|[_ ?]]; auto.
  - destruct applied; [|done]. eapply sem_inv_put; eauto.
  - destruct (acquire_turn k e) eqn:Ht; [by eapply sem_inv_lost|by eapply sem_inv_turn|done].
  - by eapply sem_inv_lost.
  - pose proof Hinv as [Hwf Hkeys Hgr Hgp Hwt Hrl Hb]. split; try done. simpl.
    intros l k' Hin. apply elem_of_cons in Hin as [[= -> ->]|Hin]; [|by eapply Hrl].
    match goal with Hf : oldest_permit _ _ = _ |- _ => rename Hf into Hold end.
    unfold oldest_permit in Hold.
    destruct (etcd_range (session_prefix ds lease) e) as [|[k0 kv] l] eqn:Hr; [done|].
    injection Hold as <-.
    assert ((k0, kv) ∈ etcd_range (session_prefix ds lease) e) as Hin by (rewrite Hr; by left).
    apply elem_of_range in Hin as [Hk Hp]. simpl in *.
    destruct (Hkeys k0 kv Hk) as (id & ->). { eapply prefix_trans; [apply session_prefix_prefix|exact Hp]. }
    apply session_prefix_lease in Hp as ->. by exists id.
  - destruct (si_releasing _ Hinv lease k) as (id & Hid); [simpl; set_solver|].
    eapply sem_inv_shrunk; [exact Hinv|apply shrunk_delete|done|set_solver|].
    by apply (backed_release _ lease k id Hinv).
  - eapply sem_inv_shrunk; [exact Hinv|apply shrunk_revoke|done|done|]. apply backed_expire, (si_held _ Hinv).
  - eapply sem_inv_shrunk; [exact Hinv| |done|done|].
    + split; [done|]. intros k kv Hk Hp. match goal with Hs : ∀ k, _ → _ = _ |- _ => rewrite <-Hs by done end. done.
    + eapply backed_shrunk; [|exact (si_held _ Hinv)]. auto.
Qed.

(** Granted keys that exist are at most as many as the size: all but the last
    created one come before that one. *)
Lemma granted_bounded w ks :
  sem_inv w → NoDup ks → (∀ k, k ∈ ks → k ∈ sw_granted w ∧ is_Some (etcd_kvs (sw_etcd w) !! k)) →
  Z.of_nat (length ks) ≤ Z.max 0 (ds_size ds).
Proof.
  intros Hinv Hnd Hks. destruct (decide (ks = [])) as [->|Hne]; [simpl; lia|].
  assert (∃ k kv, k ∈ ks ∧ etcd_kvs (sw_etcd w) !! k = Some kv ∧
    ∀ k' kv', k' ∈ ks → etcd_kvs (sw_etcd w) !! k' = Some kv' → key_CreateRevision kv' ≤ key_CreateRevision kv)
    as (k & kv & Hk & Hkv & Hmax).
  { clear Hnd. induction ks as [|x ks IH]; [done|].
    destruct (Hks x) as [_ [kvx Hx]]; [by left|].
    destruct ks as [|y ks].
    { exists x, kvx. split; [by left|]. split; [done|]. intros k' kv' Hk' Hkv'.
      apply list_elem_of_singleton in Hk' as ->. replace kv' with kvx by congruence. lia. }
    destruct IH as (k & kv & Hk & Hkv & Hmax); [intros; apply Hks; by right|done|].
    destruct (Z.le_gt_cases (key_CreateRevision kvx) (key_CreateRevision kv)).
    - exists k, kv. split; [by right|]. split; [done|]. intros k' kv' Hk' Hkv'.
      apply elem_of_cons in Hk' as [->|Hk']; [|eauto]. replace kv' with kvx by congruence. lia.
    - exists x, kvx. split; [by left|]. split; [done|]. intros k' kv' Hk' Hkv'.
      apply elem_of_cons in Hk' as [->|Hk']; [replace kv' with kvx by congruence; lia|].
      specialize (Hmax k' kv' Hk' Hkv'). lia. }
  destruct (Hks k Hk) as [Hg _]. pose proof (si_granted _ Hinv k kv Hg Hkv) as Hlt.
  destruct (proj1 (elem_of_Permutation _ _) Hk) as (ks' & Hp).
  enough (length ks' ≤ length (before P (sw_etcd w) (key_CreateRevision kv)))%nat as Hlen.
  { rewrite Hp. simpl. lia. }
  rewrite Hp in Hnd. apply NoDup_cons in Hnd as [Hni Hnd'].
  rewrite <-(length_fmap fst (before _ _ _)). apply submseteq_length, NoDup_submseteq; [done|].
  intros k' Hk'. assert (k' ∈ ks) as Hin by (rewrite Hp; by right).
  destruct (Hks k' Hin) as [Hg' [kv' Hkv']]. apply list_elem_of_fmap. exists (k', kv'). split; [done|].
  assert (String.prefix P k' = true) as Hpk' by by apply (si_granted_prefix _ Hinv).
  assert (String.prefix P k = true) as Hpk by by apply (si_granted_prefix _ Hinv).
  apply list_elem_of_filter. split; [|by apply elem_of_range]. simpl.
  specialize (Hmax k' kv' Hin Hkv'). destruct (si_wf _ Hinv) as [_ Hinj].
  destruct (decide (key_CreateRevision kv' = key_CreateRevision kv)) as [Heq|]; [|lia].
  exfalso. apply Hni. by rewrite (Hinj k k' kv kv') by done.
Qed.

Lemma sem_reachable w0 w : sem_init w0 → rtc sem_step w0 w → sem_inv w.
Proof.
  intros Hinit Hrtc. apply sem_inv_init in Hinit. induction Hrtc as [|w0 w1 w2 Hs _ IH]; [done|].
  apply IH. by eapply sem_inv_step.
Qed.

(** C29. However the requests of any number of processes interleave with each other,
    with failures, ends of sessions and other users of the store, live sessions
    never hold more permits than the size of the semaphore; and no one is
    overtaken: a call that registered before one whose permit is granted and
    still there finds, whenever it looks, that it has a permit too. *)
Theorem semaphore_exclusion w0 w :
  sem_init w0 → rtc sem_step w0 w →
  Z.of_nat (length (sw_held w)) ≤ Z.max 0 (ds_size ds) ∧
  ∀ k kv k' kv', k ∈ sw_granted w → etcd_kvs (sw_etcd w) !! k = Some kv →
    String.prefix P k' = true → etcd_kvs (sw_etcd w) !! k' = Some kv' →
    key_CreateRevision kv' < key_CreateRevision kv → acquire_turn k' (sw_etcd w) = Acquired.
Proof.
  intros Hinit Hrtc. pose proof (sem_reachable _ _ Hinit Hrtc) as Hinv. split.
  - destruct (si_held _ Hinv) as (ks & Hnd & Hperm & Hks). rewrite <-Hperm, length_fmap.
    apply (granted_bounded w ks Hinv Hnd). intros k Hk. destruct (Hks k Hk) as (? & ? & _). done.
  - intros k kv k' kv' Hg Hkv Hp' Hkv' Hlt. pose proof (si_granted _ Hinv k kv Hg Hkv) as Hrank.
    pose proof (acquire_turn_spec k' _ (si_wf _ Hinv) Hp') as Hspec.
    destruct (acquire_turn k' (sw_etcd w)); [congruence|done|].
    destruct Hspec as (kv2 & Hk2 & Hge). replace kv2 with kv' in Hge by congruence.
    enough (length (before P (sw_etcd w) (key_CreateRevision kv')) ≤
            length (before P (sw_etcd w) (key_CreateRevision kv)))%nat by lia.
    unfold before. rewrite <-!(length_fmap fst (filter _ _)).
    apply submseteq_length, NoDup_submseteq.
    + eapply sublist_NoDup; [apply (range_nodup P (sw_etcd w))|]. apply fmap_sublist, sublist_filter.
    + intros x. rewrite !list_elem_of_fmap. intros ([x' kvx] & -> & Hin). exists (x', kvx). split; [done|].
      apply list_elem_of_filter in Hin as [Hx Hin]. apply list_elem_of_filter. split; [simpl in *; lia|done].
Qed.

End Semaphore.

(** ** The barrier *)

Record DistributedBarrier := mkBarrier { db_key : string; db_count : Z }.

Definition generationKey (db : DistributedBarrier) : string := db_key db +:+ "/generation".
Definition participantsPrefix (db : DistributedBarrier) (generation : string) : string :=
  db_key db +:+ "/participants/" +:+ generation +:+ "/".
Definition participantKey (db : DistributedBarrier) (generation : string) (lease num : Z) : string :=
  db_key db +:+ "/participants/" +:+ generation +:+ "/" +:+ fmt_x lease +:+ "-" +:+ pretty num.
Definition releaseKey (db : DistributedBarrier) (generation : string) : string :=
  db_key db +:+ "/released/" +:+ generation.

Section Barrier.
Context {E : Type} `{EtcdLaws E} (db : DistributedBarrier).

(** The transaction that reads the generation, creating it if there is none. *)
Definition getOrCreateGeneration (nanos : Z) (e : E) : result string * E :=
  let e' := (etcd_create (generationKey db) (pretty nanos) e).2 in
  match etcd_kvs e' !! generationKey db with
  | Some kv => (inr (key_Value kv), e')
  | None => (inl (EText "generation key missing after transaction"), e')
  end.

Definition participants (generation : string) (e : E) : list (string * KeyValue) :=
  etcd_range (participantsPrefix db generation) e.

(** The requests of a turn of the loop of [Wait]. *)
Definition is_released (generation : string) (e : E) : bool :=
  match etcd_kvs e !! releaseKey db generation with Some _ => true | None => false end.
Definition all_present (generation : string) (e : E) : bool :=
  db_count db <=? Z.of_nat (length (participants generation e)).
Definition trip (generation : string) (nanos : Z) (e : E) : bool * E :=
  etcd_create (releaseKey db generation) (pretty nanos) e.

Definition ResetBarrier (e : E) : E := etcd_delete_prefix (db_key db) e.

(** Where a call of [Wait] is; a call that has registered keeps its key. *)
Inductive WaitCall :=
  | Entered (generation : string)
  | TopOfLoop (generation key : string)
  | NotReleased (generation key : string)
  | Tripping (generation key : string)
  | Passed (generation key : string)
  | WaitFailed (registered : option (string * string)).

Definition registration (c : WaitCall) : option (string * string) :=
  match c with
  | Entered _ => None
  | TopOfLoop g k | NotReleased g k | Tripping g k | Passed g k => Some (g, k)
  | WaitFailed r => r
  end.

Record BarrierWorld := mkBarrierWorld { bw_etcd : E; bw_calls : gmap nat WaitCall }.

Inductive barrier_step : BarrierWorld → BarrierWorld → Prop :=
  (** a call of [Wait] enters and has its generation *)
  | wait_enter e calls i nanos g :
      calls !! i = None → (getOrCreateGeneration nanos e).1 = inr g →
      barrier_step (mkBarrierWorld e calls)
        (mkBarrierWorld (getOrCreateGeneration nanos e).2 (<[i := Entered g]> calls))
  (** it registers *)
  | wait_register e calls i g lease num (k := participantKey db g lease num) :
      calls !! i = Some (Entered g) →
      barrier_step (mkBarrierWorld e calls)
        (mkBarrierWorld (etcd_put lease k "waiting" e) (<[i := TopOfLoop g k]> calls))
  (** it asks whether the barrier is released, and cleans up if so *)
  | wait_check e calls i g k done :
      calls !! i = Some (TopOfLoop g k) →
      barrier_step (mkBarrierWorld e calls)
        (if is_released g e then mkBarrierWorld (maybe_delete done k e) (<[i := Passed g k]> calls)
         else mkBarrierWorld e (<[i := NotReleased g k]> calls))
  (** it counts the participants *)
  | wait_count e calls i g k :
      calls !! i = Some (NotReleased g k) →
      barrier_step (mkBarrierWorld e calls)
        (mkBarrierWorld e (<[i := if all_present g e then Tripping g k else TopOfLoop g k]> calls))
  (** it trips the barrier, unless another has *)
  | wait_trip e calls i g k nanos :
      calls !! i = Some (Tripping g k) →
      barrier_step (mkBarrierWorld e calls)
        (mkBarrierWorld (trip g nanos e).2 (<[i := TopOfLoop g k]> calls))
  (** its registration fails, with or without effect *)
  | wait_register_failed e calls i g lease num (k := participantKey db g lease num) (applied : bool) :
      calls !! i = Some (Entered g) →
      barrier_step (mkBarrierWorld e calls)
        (mkBarrierWorld (if applied then etcd_put lease k "waiting" e else e)
           (<[i := WaitFailed (Some (g, k))]> calls))
  (** its context ends, or a request or the watch fails *)
  | wait_fail e calls i c g k done :
      calls !! i = Some c → registration c = Some (g, k) → c ≠ Passed g k →
      barrier_step (mkBarrierWorld e calls)
        (mkBarrierWorld (maybe_delete done k e) (<[i := WaitFailed (Some (g, k))]> calls))
  | barrier_reset e calls :
      barrier_step (mkBarrierWorld e calls) (mkBarrierWorld (ResetBarrier e) calls)
  | barrier_expire e calls lease :
      barrier_step (mkBarrierWorld e calls) (mkBarrierWorld (etcd_revoke lease e) calls)
  (** others write other keys; they may remove keys of the barrier *)
  | barrier_others e e' calls :
      (∀ k kv, String.prefix (db_key db) k = true → etcd_kvs e' !! k = Some kv → etcd_kvs e !! k = Some kv) →
      barrier_step (mkBarrierWorld e calls) (mkBarrierWorld e' calls).

Definition barrier_init (w : BarrierWorld) : Prop :=
  (∀ k, String.prefix (db_key db) k = true → etcd_kvs (bw_etcd w) !! k = None) ∧ bw_calls w = ∅.

(** As many calls as the barrier waits for had registered for a generation: their
    keys, which are different, are all in the store. *)
Definition gathered (generation : string) (w : BarrierWorld) : Prop :=
  db_count db ≤ Z.of_nat (length (participants generation (bw_etcd w))) ∧
  ∀ k kv, (k, kv) ∈ participants generation (bw_etcd w) →
    ∃ i c, bw_calls w !! i = Some c ∧ registration c = Some (generation, k).

(** *** Keys *)

Lemma barrier_key_prefix k : String.prefix (db_key db) (db_key db +:+ k) = true.
Proof. apply prefix_app. Qed.

Lemma participantKey_prefix g lease num :
  String.prefix (participantsPrefix db g) (participantKey db g lease num) = true.
Proof.
  apply prefix_iff. exists (fmt_x lease +:+ "-" +:+ pretty num).
  unfold participantKey, participantsPrefix. by rewrite !string_app_assoc.
Qed.

Lemma participantKey_generation g g' lease num :
  no_slash g = true → no_slash g' = true →
  String.prefix (participantsPrefix db g) (participantKey db g' lease num) = true → g' = g.
Proof.
  intros Hg Hg'. rewrite prefix_iff. intros (t & Heq). unfold participantKey, participantsPrefix in Heq.
  rewrite !string_app_assoc in Heq. apply String.app_inj, String.app_inj in Heq.
  by apply segment_unique in Heq as [-> _].
Qed.

Lemma participantKey_not_release g g' lease num : participantKey db g lease num ≠ releaseKey db g'.
Proof. unfold participantKey, releaseKey. intros Heq. by apply String.app_inj in Heq. Qed.

Lemma participantKey_not_generation g lease num : participantKey db g lease num ≠ generationKey db.
Proof. unfold participantKey, generationKey. intros Heq. by apply String.app_inj in Heq. Qed.

Lemma generationKey_not_release g : generationKey db ≠ releaseKey db g.
Proof. unfold generationKey, releaseKey. intros Heq. by apply String.app_inj in Heq. Qed.

Lemma generationKey_not_participant g : String.prefix (participantsPrefix db g) (generationKey db) = false.
Proof.
  apply not_true_iff_false. rewrite prefix_iff. intros (t & Heq). unfold generationKey, participantsPrefix in Heq.
  rewrite !string_app_assoc in Heq. by apply String.app_inj in Heq.
Qed.

Lemma releaseKey_not_participant g g' : String.prefix (participantsPrefix db g) (releaseKey db g') = false.
Proof.
  apply not_true_iff_false. rewrite prefix_iff. intros (t & Heq). unfold releaseKey, participantsPrefix in Heq.
  rewrite !string_app_assoc in Heq. by apply String.app_inj in Heq.
Qed.

(** *** The invariant of a run that starts in [w0] *)

Record barrier_inv (w0 w : BarrierWorld) : Prop := {
  bi_generation kv : etcd_kvs (bw_etcd w) !! generationKey db = Some kv → no_slash (key_Value kv) = true;
  bi_entered i g : bw_calls w !! i = Some (Entered g) → no_slash g = true;
  bi_registered i c g k : bw_calls w !! i = Some c → registration c = Some (g, k) →
    no_slash g = true ∧ ∃ lease num, k = participantKey db g lease num;
  bi_keys g k kv : no_slash g = true → etcd_kvs (bw_etcd w) !! k = Some kv →
    String.prefix (participantsPrefix db g) k = true →
    ∃ i c, bw_calls w !! i = Some c ∧ registration c = Some (g, k);
  bi_gathered g : is_released g (bw_etcd w) = true ∨
    (∃ i k, bw_calls w !! i = Some (Tripping g k) ∨ bw_calls w !! i = Some (Passed g k)) →
    ∃ w', rtc barrier_step w0 w' ∧ rtc barrier_step w' w ∧ gathered g w';
}.

Lemma barrier_inv_init w : barrier_init w → barrier_inv w w.
Proof.
  destruct w as [e calls]. intros [Hnone Hc]. simpl in *. subst calls. split; simpl.
  - intros kv Hk. by rewrite Hnone in Hk by apply barrier_key_prefix.
  - intros i g Hi. by rewrite lookup_empty in Hi.
  - intros i c g k Hi. by rewrite lookup_empty in Hi.
  - intros g k kv _ Hk Hp. rewrite Hnone in Hk; [done|].
    eapply prefix_trans; [|exact Hp]. apply barrier_key_prefix.
  - intros g [Hr|(i & k & [Hi|Hi])]; [|by rewrite lookup_empty in Hi..].
    unfold is_released in Hr. by rewrite Hnone in Hr by apply barrier_key_prefix.
Qed.

(** How a step may change the store: keys of the barrier disappear, or one key of
    it is written. *)
Definition barrier_store (e e' : E) : Prop :=
  ∀ k kv, String.prefix (db_key db) k = true → etcd_kvs e' !! k = Some kv → etcd_kvs e !! k = Some kv.

Lemma barrier_store_maybe done k e : barrier_store e (maybe_delete done k e).
Proof.
  intros k' kv _. destruct done; [|done]. simpl. rewrite etcd_kvs_delete.
  intros Hk. by apply lookup_delete_Some in Hk as [_ ?].
Qed.

Lemma barrier_store_refl e : barrier_store e e.
Proof. intros k kv _ Hk. exact Hk. Qed.

(** Calls keep their registration. *)
Definition calls_kept (calls calls' : gmap nat WaitCall) : Prop :=
  ∀ i c r, calls !! i = Some c → registration c = Some r →
    ∃ c', calls' !! i = Some c' ∧ registration c' = Some r.

Lemma calls_kept_insert calls i c' :
  (∀ c, calls !! i = Some c → registration c = None ∨ registration c' = registration c) →
  calls_kept calls (<[i := c']> calls).
Proof.
  intros Hc j c r Hj Hr. destruct (decide (j = i)) as [->|Hne].
  - exists c'. rewrite lookup_insert_eq. split; [done|]. destruct (Hc c Hj) as [?|Heq]; [|rewrite Heq]; congruence.
  - exists c. by rewrite lookup_insert_ne.
Qed.

(** What the invariant says of one call. *)
Definition call_ok (c : WaitCall) : Prop :=
  (∀ g, c = Entered g → no_slash g = true) ∧
  (∀ g k, registration c = Some (g, k) → no_slash g = true ∧ ∃ lease num, k = participantKey db g lease num).

(** A call that trips the barrier of a generation or has passed it, or its
    release key. *)
Definition open_for (g : string) (w : BarrierWorld) : Prop :=
  is_released g (bw_etcd w) = true ∨
  (∃ i k, bw_calls w !! i = Some (Tripping g k) ∨ bw_calls w !! i = Some (Passed g k)).

Lemma barrier_inv_next w0 w w' :
  rtc barrier_step w0 w → barrier_inv w0 w → barrier_step w w' →
  (∀ kv, etcd_kvs (bw_etcd w') !! generationKey db = Some kv →
     etcd_kvs (bw_etcd w) !! generationKey db = Some kv ∨ no_slash (key_Value kv) = true) →
  (∀ i c, bw_calls w' !! i = Some c → bw_calls w !! i = Some c ∨ call_ok c) →
  calls_kept (bw_calls w) (bw_calls w') →
  (∀ g k kv, no_slash g = true → etcd_kvs (bw_etcd w') !! k = Some kv →
     String.prefix (participantsPrefix db g) k = true →
     is_Some (etcd_kvs (bw_etcd w) !! k) ∨ ∃ i c, bw_calls w' !! i = Some c ∧ registration c = Some (g, k)) →
  (∀ g, open_for g w' → open_for g w ∨ gathered g w) →
  barrier_inv w0 w'.
Proof.
  intros Hrtc Hinv Hstep Hgen Hcalls Hkept Hkeys Hopen.
  pose proof Hinv as [Igen Ient Ireg Ikeys Igath]. split.
  - intros kv Hk. destruct (Hgen kv Hk); eauto.
  - intros i g Hi. destruct (Hcalls i _ Hi) as [?|[He _]]; eauto.
  - intros i c g k Hi Hr. destruct (Hcalls i c Hi) as [?|[_ He]]; eauto.
  - intros g k kv Hg Hk Hp. destruct (Hkeys g k kv Hg Hk Hp) as [[kv' Hk']|?]; [|done].
    destruct (Ikeys g k kv' Hg Hk' Hp) as (i & c & Hi & Hc). destruct (Hkept i c _ Hi Hc) as (c' & ? & ?). eauto.
  - intros g Hg. destruct (Hopen g Hg) as [Ho|Hga].
    + destruct (Igath g Ho) as (w1 & H1 & H2 & H3). exists w1. split; [done|]. split; [by eapply rtc_r|done].
    + exists w. split; [done|]. split; [by apply rtc_once|done].
Qed.

(** The store loses keys only. *)
Lemma is_released_sub g e e' : barrier_store e e' → is_released g e' = true → is_released g e = true.
Proof.
  unfold is_released. intros Hst. destruct (etcd_kvs e' !! releaseKey db g) as [kv|] eqn:Hk; [|done].
  by rewrite (Hst (releaseKey db g) kv (barrier_key_prefix _) Hk).
Qed.

Lemma open_for_insert g e e' calls i c' :
  (is_released g e' = true → is_released g e = true) →
  open_for g (mkBarrierWorld e' (<[i := c']> calls)) →
  open_for g (mkBarrierWorld e calls) ∨ ∃ k, c' = Tripping g k ∨ c' = Passed g k.
Proof.
  intros Hst [Hr|(j & k & Hj)]; [left; left; by apply Hst|]. simpl in Hj.
  destruct (decide (j = i)) as [->|Hne].
  - rewrite lookup_insert_eq in Hj. right. exists k. destruct Hj as [[= ->]|[= ->]]; auto.
  - rewrite lookup_insert_ne in Hj by done. left. right. eauto.
Qed.

(** A registered call moves on and the store loses keys only. *)
Lemma barrier_inv_move w0 e e' calls i c c' :
  rtc barrier_step w0 (mkBarrierWorld e calls) → barrier_inv w0 (mkBarrierWorld e calls) →
  barrier_step (mkBarrierWorld e calls) (mkBarrierWorld e' (<[i := c']> calls)) →
  barrier_store e e' → calls !! i = Some c → registration c' = registration c → is_Some (registration c) →
  (∀ g k, c' = Tripping g k ∨ c' = Passed g k →
     open_for g (mkBarrierWorld e calls) ∨ gathered g (mkBarrierWorld e calls)) →
  barrier_inv w0 (mkBarrierWorld e' (<[i := c']> calls)).
Proof.
  intros Hrtc Hinv Hstep Hst Hi Hr [[g0 k0] Hsome] Hjust.
  eapply barrier_inv_next; [exact Hrtc|exact Hinv|exact Hstep|..]; simpl.
  - intros kv Hk. left. apply Hst; [apply barrier_key_prefix|done].
  - intros j c2 Hj. apply lookup_insert_Some in Hj as [[-> ->]|[_ Hj]]; [|by left]. right. split.
    + intros g ->. simpl in Hr. congruence.
    + intros g k Hc2. rewrite Hr in Hc2. by eapply (bi_registered _ _ Hinv).
  - apply calls_kept_insert. intros c3 Hc3. right. congruence.
  - intros g k kv Hg Hk Hp. left. rewrite (Hst k kv); [by eexists| |done].
    eapply prefix_trans; [|exact Hp]. apply barrier_key_prefix.
  - intros g Hg. apply (open_for_insert g e) in Hg as [?|(k & Hc)]; [by left|by eapply Hjust|].
    by apply is_released_sub.
Qed.

(** The store loses keys and no call moves. *)
Lemma barrier_inv_store w0 e e' calls :
  rtc barrier_step w0 (mkBarrierWorld e calls) → barrier_inv w0 (mkBarrierWorld e calls) →
  barrier_step (mkBarrierWorld e calls) (mkBarrierWorld e' calls) → barrier_store e e' →
  barrier_inv w0 (mkBarrierWorld e' calls).
Proof.
  intros Hrtc Hinv Hstep Hst. eapply barrier_inv_next; [exact Hrtc|exact Hinv|exact Hstep|..]; simpl; auto.
  - intros kv Hk. left. apply Hst; [apply barrier_key_prefix|done].
  - intros i c r. eauto.
  - intros g k kv Hg Hk Hp. left. rewrite (Hst k kv); [by eexists| |done].
    eapply prefix_trans; [|exact Hp]. apply barrier_key_prefix.
  - intros g [Hr|?]; left; [left|by right]. by eapply is_released_sub.
Qed.

(** A call registers its key. *)
Lemma barrier_inv_register w0 e calls i g lease num c' (k := participantKey db g lease num) :
  rtc barrier_step w0 (mkBarrierWorld e calls) → barrier_inv w0 (mkBarrierWorld e calls) →
  barrier_step (mkBarrierWorld e calls) (mkBarrierWorld (etcd_put lease k "waiting" e) (<[i := c']> calls)) →
  calls !! i = Some (Entered g) → registration c' = Some (g, k) → (∀ g k, c' ≠ Tripping g k ∧ c' ≠ Passed g k) →
  barrier_inv w0 (mkBarrierWorld (etcd_put lease k "waiting" e) (<[i := c']> calls)).
Proof.
  intros Hrtc Hinv Hstep Hi Hr Hc'. pose proof (bi_entered _ _ Hinv i g Hi) as Hslash.
  eapply barrier_inv_next; [exact Hrtc|exact Hinv|exact Hstep|..]; simpl.
  - intros kv. rewrite etcd_kvs_put, lookup_insert_ne by apply participantKey_not_generation. by left.
  - intros j c2 Hj. apply lookup_insert_Some in Hj as [[-> ->]|[_ Hj]]; [|by left]. right. split.
    + intros g' ->. done.
    + intros g' k' Hr'. rewrite Hr in Hr'. injection Hr' as <- <-. split; [done|]. by exists lease, num.
  - apply calls_kept_insert. intros c3 Hc3. left. rewrite Hi in Hc3. by injection Hc3 as <-.
  - intros g' k' kv Hg' Hk Hp. destruct (decide (k' = k)) as [->|Hne].
    + right. exists i, c'. rewrite lookup_insert_eq. split; [done|].
      by replace g' with g by (eapply participantKey_generation; eauto).
    + left. rewrite etcd_kvs_put, lookup_insert_ne in Hk by done. by eexists.
  - intros g' Hg. apply (open_for_insert g' e) in Hg as [?|(k' & Hc)]; [by left|destruct (Hc' g' k'); naive_solver|].
    unfold is_released. rewrite etcd_kvs_put, lookup_insert_ne; [done|]. apply participantKey_not_release.
Qed.

Lemma barrier_inv_enter w0 e calls i nanos g :
  rtc barrier_step w0 (mkBarrierWorld e calls) → barrier_inv w0 (mkBarrierWorld e calls) →
  barrier_step (mkBarrierWorld e calls)
    (mkBarrierWorld (getOrCreateGeneration nanos e).2 (<[i := Entered g]> calls)) →
  calls !! i = None → (getOrCreateGeneration nanos e).1 = inr g →
  barrier_inv w0 (mkBarrierWorld (getOrCreateGeneration nanos e).2 (<[i := Entered g]> calls)).
Proof.
  intros Hrtc Hinv Hstep Hi Hg.
  set (e' := (getOrCreateGeneration nanos e).2) in *.
  assert (e' = (etcd_create (generationKey db) (pretty nanos) e).2) as He'.
  { unfold e', getOrCreateGeneration. by case_match. }
  assert (∀ k, k ≠ generationKey db → etcd_kvs e' !! k = etcd_kvs e !! k) as Hother.
  { intros k Hne. rewrite He'. unfold etcd_create. case_match; [done|]. simpl.
    by rewrite etcd_kvs_put, lookup_insert_ne by done. }
  assert (∀ kv, etcd_kvs e' !! generationKey db = Some kv →
    etcd_kvs e !! generationKey db = Some kv ∨ no_slash (key_Value kv) = true) as Hgen.
  { intros kv. rewrite He'. unfold etcd_create. destruct (etcd_kvs e !! generationKey db) eqn:Hk; simpl.
    - intros ?. left. congruence.
    - rewrite etcd_kvs_put, lookup_insert_eq. intros [= <-]. right. apply pretty_no_slash. }
  assert (no_slash g = true) as Hslash.
  { unfold getOrCreateGeneration in Hg. rewrite <-He' in Hg.
    destruct (etcd_kvs e' !! generationKey db) as [kv|] eqn:Hk; [|done]. injection Hg as <-.
    destruct (Hgen kv eq_refl) as [Hk'|?]; [|done]. by apply (bi_generation _ _ Hinv). }
  eapply barrier_inv_next; [exact Hrtc|exact Hinv|exact Hstep|..]; simpl.
  - done.
  - intros j c Hj. apply lookup_insert_Some in Hj as [[<- <-]|[_ Hj]]; [|by left]. right.
    split; [by intros g' [= ->]|done].
  - apply calls_kept_insert. intros c Hc. congruence.
  - intros g' k kv Hg' Hk Hp. left. rewrite Hother in Hk; [by eexists|]. intros ->.
    by rewrite generationKey_not_participant in Hp.
  - intros g' Ho. apply (open_for_insert g' e) in Ho as [?|(k' & Hc)]; [by left|naive_solver|].
    unfold is_released. rewrite Hother; [done|]. intros Heq. by apply (generationKey_not_release g').
Qed.

Lemma barrier_inv_trip w0 e calls i g k nanos :
  rtc barrier_step w0 (mkBarrierWorld e calls) → barrier_inv w0 (mkBarrierWorld e calls) →
  barrier_step (mkBarrierWorld e calls) (mkBarrierWorld (trip g nanos e).2 (<[i := TopOfLoop g k]> calls)) →
  calls !! i = Some (Tripping g k) →
  barrier_inv w0 (mkBarrierWorld (trip g nanos e).2 (<[i := TopOfLoop g k]> calls)).
Proof.
  intros Hrtc Hinv Hstep Hi.
  assert (∀ k', k' ≠ releaseKey db g → etcd_kvs (trip g nanos e).2 !! k' = etcd_kvs e !! k') as Hother.
  { intros k' Hne. unfold trip, etcd_create. case_match; [done|]. simpl.
    by rewrite etcd_kvs_put, lookup_insert_ne by done. }
  eapply barrier_inv_next; [exact Hrtc|exact Hinv|exact Hstep|..]; simpl.
  - intros kv. rewrite Hother by apply generationKey_not_release. by left.
  - intros j c Hj. apply lookup_insert_Some in Hj as [[<- <-]|[_ Hj]]; [|by left]. right. split; [done|].
    intros g' k' [= <- <-]. by apply (bi_registered _ _ Hinv i (Tripping g k) g k Hi).
  - apply calls_kept_insert. intros c Hc. right. rewrite Hi in Hc. by injection Hc as <-.
  - intros g' k' kv Hg' Hk Hp. left. rewrite Hother in Hk; [by eexists|]. intros ->.
    by rewrite releaseKey_not_participant in Hp.
  - intros g' Ho. left. destruct (decide (g' = g)) as [->|Hne]; [right; eauto|].
    apply (open_for_insert g' e) in Ho as [?|(k' & Hc)]; [done|naive_solver|].
    unfold is_released. rewrite Hother; [done|]. unfold releaseKey. intros Heq.
    by apply String.app_inj, String.app_inj in Heq.
Qed.

Lemma barrier_inv_step w0 w w' :
  rtc barrier_step w0 w → barrier_inv w0 w → barrier_step w w' → barrier_inv w0 w'.
Proof.
  intros Hrtc Hinv Hstep. pose proof Hstep as Hs. destruct Hs.
  - by apply barrier_inv_enter.
  - by apply barrier_inv_register.
  - destruct (is_released g e) eqn:Hr; eapply barrier_inv_move; eauto using barrier_store_maybe, barrier_store_refl;
      try by eexists.
    + intros g' k' [?|[= <- <-]]; [done|]. left. by left.
    + intros g' k' [?|?]; done.
  - destruct (all_present g e) eqn:Ha; eapply barrier_inv_move; eauto using barrier_store_refl; try by eexists.
    2: { intros g' k' [?|?]; done. }
    intros g' k' [[= <- <-]|?]; [|done]. right. unfold all_present in Ha. bool_to_prop. split; [done|].
    intros k' kv Hin. apply elem_of_range in Hin as [Hk Hp]. eapply (bi_keys _ _ Hinv); eauto.
    by eapply (bi_registered _ _ Hinv i (NotReleased g k)).
  - by apply barrier_inv_trip.
  - destruct applied; [by apply barrier_inv_register|].
    assert (no_slash g = true) as Hslash by by eapply (bi_entered _ _ Hinv).
    eapply barrier_inv_next; [exact Hrtc|exact Hinv|exact Hstep|..]; simpl.
    + by left.
    + intros j c Hj. apply lookup_insert_Some in Hj as [[<- <-]|[_ Hj]]; [|by left]. right. split; [done|].
      intros g' k' [= <- <-]. split; [done|]. by exists lease, num.
    + apply calls_kept_insert. intros c Hc. left. by simplify_eq.
    + intros g' k' kv _ Hk _. left. by eexists.
    + intros g' Ho. apply (open_for_insert g' e) in Ho as [?|(k' & Hc)]; [by left|naive_solver|done].
  - eapply barrier_inv_move; eauto using barrier_store_maybe. intros g' k' [?|?]; done.
  - eapply barrier_inv_store; eauto. intros k kv _. unfold ResetBarrier. rewrite etcd_kvs_delete_prefix.
    intros Hk. by apply map_lookup_filter_Some in Hk as [? _].
  - eapply barrier_inv_store; eauto. intros k kv _. rewrite etcd_kvs_revoke.
    intros Hk. by apply map_lookup_filter_Some in Hk as [? _].
  - by eapply barrier_inv_store.
Qed.

(** C30. A call of [Wait] that returns without an error has met the others: earlier in
    the run the store held, at one moment, at least as many keys of its generation
    as the barrier counts, each registered by a call of [Wait] for that
    generation.  This holds through resets, lost sessions, failed requests and
    removals by others. *)
Theorem barrier_meets w0 w i g k :
  barrier_init w0 → rtc barrier_step w0 w → bw_calls w !! i = Some (Passed g k) →
  ∃ w', rtc barrier_step w0 w' ∧ rtc barrier_step w' w ∧ gathered g w'.
Proof.
  intros Hinit Hrtc Hi.
  assert (barrier_inv w0 w) as Hinv.
  { clear Hi. revert w Hrtc. apply rtc_ind_r; [by apply barrier_inv_init|].
    intros w w' Hrtc Hstep IH. by eapply barrier_inv_step. }
  apply (bi_gathered _ _ Hinv). right. eauto.
Qed.

End Barrier.
