(* ===== verification/Election.v ===== *)
(** * Leader election and its use for fencing
      (pkg/coordination/leader_election.go, pkg/scheduler/leadership_etcd.go)

    The elector campaigns for a key in etcd and tells its callbacks when it is
    elected and when it no longer leads.  The leadership provider of the scheduler
    combines the elector's flag with the key etcd holds; a worker compares the
    authority of a request with that key ([Leadership.ValidateAuthority]).  Here
    the three meet: over one store whose history is any sequence of writes, the
    authority of a leader is accepted until it is lost and never again, whatever
    the old leader still believes.

    The campaign, the observation and the session belong to etcd's client: what
    they report are the events of the elector. *)

From stdpp Require Import base gmap strings list fin_maps pretty relations.
From S2P Require Import Prelude Etcd Leadership.

Open Scope Z_scope.

(** ** The elector *)

Inductive LeaderCallback := OnAttempting | OnElected | OnRevoked.

#[export] Instance LeaderCallback_eq_dec : EqDecision LeaderCallback.
Proof. solve_decision. Defined.

(** Where [electionLoop] is. *)
Inductive ElectorPc := LoopTop | Campaigning | Monitoring | Pausing | LoopExited.

Record LeaderElector := mkElector {
  le_key : string;
  le_identity : string;
  le_resignTimeout : Duration;
  le_isLeader : bool;
  le_election : bool;            (** whether an election is set *)
  le_pc : ElectorPc;
  le_callbacks : list LeaderCallback;   (** the callbacks made, oldest first *)
}.

Record LeaderElectionConfig := mkElection {
  ec_SessionTTL : Z;
  ec_Key : string;
  ec_Identity : string;
  ec_ResignTimeout : Duration;
}.

(** The defaults of [NewLeaderElector]; creating the session may fail. *)
Definition NewLeaderElector (session : option error) (config : LeaderElectionConfig) : result LeaderElector :=
  let ttl := if ec_SessionTTL config =? 0 then 10 else ec_SessionTTL config in
  let resign :=
    if ec_ResignTimeout config <=? 0 then
      let derived := Z.quot (ttl * Second) 2 in
      let derived := if derived <? 2 * Second then 2 * Second else derived in
      if 10 * Second <? derived then 10 * Second else derived
    else ec_ResignTimeout config in
  let key := if String.eqb (ec_Key config) "" then "/dagens/leader/election" else ec_Key config in
  if String.eqb (ec_Identity config) "" then inl (EText "identity is required for leader election")
  else match session with
  | Some err => inl (EWrap "failed to create etcd session: " err "")
  | None => inr (mkElector key (ec_Identity config) resign false false LoopTop [])
  end.

(** What the loop waits for: its context, the end of the campaign, the
    observation of the leader, the session, the pause of a second. *)
Inductive ElectorEvent :=
  | ContextPolled (ctx_done : bool)
  | CampaignEnded (failed ctx_done : bool)
  | MonitorContextDone
  | SessionDone
  | Observed (resp : option (list string))   (** [None]: the channel is closed *)
  | PauseOver (ctx_done : bool).

(** Whether [monitorLeadership] goes on after an event. *)
Definition still_leader (identity : string) (ev : ElectorEvent) : bool :=
  match ev with
  | Observed (Some (v :: _)) => String.eqb v identity
  | _ => false
  end.

Definition set_pc (pc : ElectorPc) (le : LeaderElector) : LeaderElector :=
  mkElector (le_key le) (le_identity le) (le_resignTimeout le) (le_isLeader le) (le_election le) pc (le_callbacks le).
Definition setLeaderStatus (isLeader : bool) (le : LeaderElector) : LeaderElector :=
  mkElector (le_key le) (le_identity le) (le_resignTimeout le) isLeader (le_election le) (le_pc le) (le_callbacks le).
Definition setElection (e : bool) (le : LeaderElector) : LeaderElector :=
  mkElector (le_key le) (le_identity le) (le_resignTimeout le) (le_isLeader le) e (le_pc le) (le_callbacks le).
Definition call_back (c : LeaderCallback) (le : LeaderElector) : LeaderElector :=
  mkElector (le_key le) (le_identity le) (le_resignTimeout le) (le_isLeader le) (le_election le) (le_pc le)
    (le_callbacks le ++ [c]).

(** A turn of [electionLoop]; [None] for an event it is not waiting for. *)
Definition electionLoop (ev : ElectorEvent) (le : LeaderElector) : option LeaderElector :=
  match le_pc le, ev with
  | LoopTop, ContextPolled true => Some (set_pc LoopExited le)
  | LoopTop, ContextPolled false => Some (set_pc Campaigning (setElection true (call_back OnAttempting le)))
  | Campaigning, CampaignEnded true true => Some (set_pc LoopExited le)
  | Campaigning, CampaignEnded true false => Some (set_pc LoopTop le)
  | Campaigning, CampaignEnded false _ => Some (set_pc Monitoring (call_back OnElected (setLeaderStatus true le)))
  | Monitoring, (MonitorContextDone | SessionDone | Observed _) =>
      if still_leader (le_identity le) ev then Some le
      else Some (set_pc Pausing (call_back OnRevoked (setElection false (setLeaderStatus false le))))
  | Pausing, PauseOver true => Some (set_pc LoopExited le)
  | Pausing, PauseOver false => Some (set_pc LoopTop le)
  | _, _ => None
  end.

(** Whether [resign] asks etcd to give up the key. *)
Definition resigns (le : LeaderElector) : bool := le_election le && le_isLeader le.

(** A tick of a leader's task: what [runTask] does with it. *)
Inductive TaskTick := SkipTick | EndTask | RunFunction.
Definition runTask (le : LeaderElector) (run_until : bool) : TaskTick :=
  if negb (le_isLeader le) then SkipTick else if run_until then EndTask else RunFunction.

(** *** What the elector guarantees *)

(** The changes of leadership a client is told of. *)
Definition changes (l : list LeaderCallback) : list LeaderCallback := filter (λ c, c ≠ OnAttempting) l.

Definition opposite (c : LeaderCallback) : LeaderCallback :=
  match c with OnElected => OnRevoked | _ => OnElected end.

(** Reading reports that must come in turn, [next] first: what must come after
    them, [None] if they do not come in turn. *)
Fixpoint comes_next (next : LeaderCallback) (l : list LeaderCallback) : option LeaderCallback :=
  match l with
  | [] => Some next
  | c :: l' => if decide (c = next) then comes_next (opposite next) l' else None
  end.

Lemma comes_next_snoc next l c :
  comes_next next (l ++ [c]) =
  comes_next next l ≫= λ n, if decide (c = n) then Some (opposite n) else None.
Proof.
  revert next. induction l as [|x l IH]; intros next; simpl; [done|]. case_decide; [apply IH|done].
Qed.

Record elector_inv (le : LeaderElector) : Prop := {
  ei_flag : le_isLeader le = true ↔ le_pc le = Monitoring;
  ei_turn : comes_next OnElected (changes (le_callbacks le)) =
    Some (if le_isLeader le then OnRevoked else OnElected);
  ei_election : le_pc le = Campaigning ∨ le_pc le = Monitoring → le_election le = true;
}.

Lemma changes_snoc l c : c ≠ OnAttempting → changes (l ++ [c]) = changes l ++ [c].
Proof. intros Hc. unfold changes. rewrite filter_app. f_equal. by rewrite filter_cons_True. Qed.

Lemma changes_attempt l : changes (l ++ [OnAttempting]) = changes l.
Proof. unfold changes. rewrite filter_app. simpl. by rewrite app_nil_r. Qed.

Lemma elector_inv_step ev le le' : elector_inv le → electionLoop ev le = Some le' → elector_inv le'.
Proof.
  destruct le as [key id rt lead el pc cbs]. intros [Hf Ht He] Hs. simpl in *. unfold electionLoop in Hs. simpl in Hs.
  destruct lead, pc, ev as [[]|[] []| | |resp|[]]; simpl in Hs; try discriminate Hs; try case_match;
    simplify_eq; split; simpl;
    rewrite ?changes_attempt; try rewrite changes_snoc by done; rewrite ?comes_next_snoc, ?Ht; naive_solver.
Qed.

(** Whatever etcd, the session and the context do, the elector says it leads
    exactly while it monitors its leadership; its callbacks report elections and
    revocations in turn, the last report agreeing with the flag; stopping gives a
    key up exactly if it leads, and a leader's task runs only then; so when the
    loop has ended it does not lead. *)
Theorem elector_reports session config le evs le' :
  NewLeaderElector session config = inr le →
  foldl (λ o ev, o ≫= electionLoop ev) (Some le) evs = Some le' →
  (le_isLeader le' = true ↔ le_pc le' = Monitoring) ∧
  comes_next OnElected (changes (le_callbacks le')) = Some (if le_isLeader le' then OnRevoked else OnElected) ∧
  resigns le' = le_isLeader le' ∧
  (∀ u, runTask le' u = RunFunction → le_isLeader le' = true).
Proof.
  intros Hnew Hrun.
  assert (elector_inv le) as Hinv.
  { unfold NewLeaderElector in Hnew. repeat case_match; simplify_eq; split; simpl; naive_solver. }
  assert (elector_inv le') as [Hf Ht He].
  { clear Hnew. revert le Hinv Hrun. induction evs as [|ev evs IH]; intros le Hinv Hrun; simpl in Hrun; [by simplify_eq|].
    destruct (electionLoop ev le) as [le1|] eqn:Hs; [by eapply (IH le1); [eapply elector_inv_step|]|].
    exfalso. clear -Hrun. induction evs as [|ev' evs IH]; simpl in Hrun; [done|auto]. }
  split; [done|]. split; [done|]. split.
  - unfold resigns. destruct (le_isLeader le'); [|by rewrite andb_false_r]. rewrite He by naive_solver. done.
  - intros u. unfold runTask. by destruct (le_isLeader le').
Qed.

(** ** The leadership provider of the scheduler *)

Record EtcdLeadershipProvider := mkEtcdProvider {
  ep_electionKey : string;
  ep_identity : string;
  ep_started : bool;
}.

Record EtcdLeadershipProviderConfig := mkEtcdConfig {
  pc_Endpoints : list string;
  pc_ElectionKey : string;
  pc_Identity : string;
  pc_SessionTTL : Z;
  pc_ResignTimeout : Duration;
}.

(** The provider with its elector; connecting and opening the session may fail. *)
Definition NewEtcdLeadershipProvider (client session : option error) (cfg : EtcdLeadershipProviderConfig)
    : result (EtcdLeadershipProvider * LeaderElector) :=
  if bool_decide (pc_Endpoints cfg = []) then inl (EText "etcd leadership endpoints are required")
  else if String.eqb (strings_TrimSpace (pc_Identity cfg)) "" then
    inl (EText "etcd leadership identity is required")
  else
    let key := if String.eqb (strings_TrimSpace (pc_ElectionKey cfg)) ""
               then "/dagens/control-plane/scheduler" else pc_ElectionKey cfg in
    let ttl := if pc_SessionTTL cfg <=? 0 then 10 else pc_SessionTTL cfg in
    match client with
    | Some err => inl (EWrap "failed to create etcd leadership client: " err "")
    | None =>
        match NewLeaderElector session (mkElection ttl key (pc_Identity cfg) (pc_ResignTimeout cfg)) with
        | inl err => inl (EWrap "failed to create etcd leader elector: " err "")
        | inr elector => inr (mkEtcdProvider key (pc_Identity cfg) false, elector)
        end
    end.

(** What a provider that is created is about. *)
Lemma new_provider_spec c s cfg p le :
  NewEtcdLeadershipProvider c s cfg = inr (p, le) →
  ep_electionKey p = (if String.eqb (strings_TrimSpace (pc_ElectionKey cfg)) ""
                      then "/dagens/control-plane/scheduler" else pc_ElectionKey cfg) ∧
  ep_identity p = pc_Identity cfg ∧ strings_TrimSpace (pc_Identity cfg) ≠ "".
Proof.
  unfold NewEtcdLeadershipProvider. destruct (bool_decide _); [done|].
  destruct (String.eqb (strings_TrimSpace (pc_Identity cfg)) "") eqn:Hid; [done|].
  destruct c; [done|]. cbv zeta. destruct (NewLeaderElector _ _); [done|]. intros [= <- <-]. bool_to_prop. done.
Qed.

Section Fencing.
Context {E : Type} `{EtcdLaws E}.
Implicit Types (e : E) (p : EtcdLeadershipProvider) (a b : LeadershipAuthority).

(** The query both sides make: the oldest key of the election. *)
Definition oldest_key (electionKey : string) (e : E) : option (string * KeyValue) :=
  head (etcd_range (election_prefix electionKey) e).

(** [DispatchAuthority], with what the elector says and the answer to the query. *)
Definition EtcdDispatchAuthority (p : EtcdLeadershipProvider) (isLeader : bool) (resp : result E)
    : result LeadershipAuthority :=
  if negb (ep_started p) then inl (EText "etcd leadership provider not started")
  else match resp with
  | inl err => inl (EWrap "failed to query etcd leadership key: " err "")
  | inr e =>
      let '(leaderID, epoch) :=
        match oldest_key (ep_electionKey p) e with
        | Some (_, kv) => (key_Value kv, pretty (key_ModRevision kv))
        | None => ("", pretty (etcd_rev e))
        end in
      inr (mkAuthority (isLeader && String.eqb leaderID (ep_identity p)) epoch leaderID "")
  end.

Definition EtcdDispatchAuthorityForScope (p : EtcdLeadershipProvider) (isLeader : bool) (scope : string)
    (resp : result E) : result LeadershipAuthority :=
  match EtcdDispatchAuthority p isLeader resp with
  | inl err => inl err
  | inr auth => inr (mkAuthority (la_IsLeader auth) (la_Epoch auth) (la_LeaderID auth) scope)
  end.

(** The worker's query of the same store, and its verdict on a request stamped
    with an authority: it reads the authority from the request's metadata. *)
Definition worker_Get (e : E) (prefix : string) : result (list EtcdKV) :=
  inr ((λ x, mkKV (key_Value x.2) (key_ModRevision x.2)) <$> take 1 (etcd_range prefix e)).

Definition stamped (a : LeadershipAuthority) : DispatchAuthority :=
  mkDispatch (la_LeaderID a) (la_Epoch a) (la_Scope a).

Definition worker_accepts (fmt_opaque : Value → string) (electionKey : string) (a : LeadershipAuthority) (e : E) : Prop :=
  ValidateAuthority (worker_Get e) electionKey (authorityFromMetadata fmt_opaque (metadata (stamped a))) = None.

(** *** The history of the store *)

(** Keys are created before they are changed, not in the future, and no two keys
    of the prefix share a revision. *)
Record history_wf (q : string) (e : E) : Prop := {
  hw_order k kv : etcd_kvs e !! k = Some kv →
    key_CreateRevision kv ≤ key_ModRevision kv ∧ key_ModRevision kv ≤ etcd_rev e;
  hw_range : range_wf q e;
  hw_mod k k' kv kv' : etcd_kvs e !! k = Some kv → etcd_kvs e !! k' = Some kv' →
    String.prefix q k = true → String.prefix q k' = true →
    key_ModRevision kv = key_ModRevision kv' → k = k';
}.

(** What was written after a step is newer than the store before it. *)
Lemma etcd_step_keys e e' k kv :
  etcd_step e e' → etcd_kvs e' !! k = Some kv →
  etcd_kvs e !! k = Some kv ∨
  (etcd_rev e < key_ModRevision kv ∧
   (etcd_rev e < key_CreateRevision kv ∨
    ∃ kv0, etcd_kvs e !! k = Some kv0 ∧ key_CreateRevision kv = key_CreateRevision kv0)).
Proof.
  intros Hs Hk. destruct Hs.
  - pose proof (etcd_rev_put lease k0 v e) as Hrev. rewrite etcd_kvs_put in Hk.
    apply lookup_insert_Some in Hk as [[<- <-]|[_ ?]]; [|by left]. right. split; [simpl; lia|].
    unfold written. destruct (etcd_kvs e !! k0) as [kv0|]; simpl; [right; eauto|left; lia].
  - rewrite etcd_kvs_delete in Hk. apply lookup_delete_Some in Hk as [_ ?]. by left.
  - rewrite etcd_kvs_delete_prefix in Hk. apply map_lookup_filter_Some in Hk as [? _]. by left.
  - rewrite etcd_kvs_revoke in Hk. apply map_lookup_filter_Some in Hk as [? _]. by left.
Qed.

Lemma etcd_step_rev e e' : etcd_step e e' → etcd_rev e ≤ etcd_rev e'.
Proof.
  destruct 1 as [lease k v e|k e|q e|lease e];
    [pose proof (etcd_rev_put lease k v e); lia|apply etcd_rev_delete|apply etcd_rev_delete_prefix|apply etcd_rev_revoke].
Qed.

Lemma etcd_steps_rev e e' : rtc etcd_step e e' → etcd_rev e ≤ etcd_rev e'.
Proof. induction 1 as [|e e1 e2 Hs _ IH]; [lia|]. apply etcd_step_rev in Hs. lia. Qed.

Lemma history_wf_step q e e' : history_wf q e → etcd_step e e' → history_wf q e'.
Proof.
  intros [Ho Hr Hm] Hs. split.
  - intros k kv Hk. pose proof (etcd_step_rev _ _ Hs) as Hrev.
    destruct Hs.
    + rewrite etcd_kvs_put in Hk. apply lookup_insert_Some in Hk as [[<- <-]|[_ Hk]].
      * simpl. split; [|lia]. destruct (etcd_kvs e !! k0) as [kv0|] eqn:Hk0; [|lia].
        destruct (Ho _ _ Hk0). pose proof (etcd_rev_put lease k0 v e). lia.
      * destruct (Ho _ _ Hk). lia.
    + rewrite etcd_kvs_delete in Hk. apply lookup_delete_Some in Hk as [_ Hk]. destruct (Ho _ _ Hk). lia.
    + rewrite etcd_kvs_delete_prefix in Hk. apply map_lookup_filter_Some in Hk as [Hk _]. destruct (Ho _ _ Hk). lia.
    + rewrite etcd_kvs_revoke in Hk. apply map_lookup_filter_Some in Hk as [Hk _]. destruct (Ho _ _ Hk). lia.
  - destruct Hs; [by apply range_wf_put|..]; (eapply range_wf_sub; [exact Hr|by apply etcd_step_rev; constructor|]);
      intros k' kv Hk _.
    + rewrite etcd_kvs_delete in Hk. by apply lookup_delete_Some in Hk as [_ ?].
    + rewrite etcd_kvs_delete_prefix in Hk. by apply map_lookup_filter_Some in Hk as [? _].
    + rewrite etcd_kvs_revoke in Hk. by apply map_lookup_filter_Some in Hk as [? _].
  - intros k k' kv kv' Hk Hk' Hp Hp' Heq.
    assert (∀ x xv, etcd_kvs e' !! x = Some xv → etcd_kvs e !! x = Some xv ∨ etcd_rev e < key_ModRevision xv) as Hcase.
    { intros x xv Hx. destruct (etcd_step_keys _ _ _ _ Hs Hx) as [?|[? _]]; auto. }
    destruct (Hcase _ _ Hk) as [Hk0|Hn], (Hcase _ _ Hk') as [Hk0'|Hn']; [by eapply Hm| | |].
    + destruct (Ho _ _ Hk0). lia.
    + destruct (Ho _ _ Hk0'). lia.
    + destruct Hs as [lease x v e|x e|y e|lease e].
      * rewrite etcd_kvs_put in Hk, Hk'.
        apply lookup_insert_Some in Hk as [[<- _]|[_ Hk]]; [|destruct (Ho _ _ Hk); lia].
        apply lookup_insert_Some in Hk' as [[<- _]|[_ Hk']]; [done|destruct (Ho _ _ Hk'); lia].
      * rewrite etcd_kvs_delete in Hk. apply lookup_delete_Some in Hk as [_ Hk]. destruct (Ho _ _ Hk). lia.
      * rewrite etcd_kvs_delete_prefix in Hk. apply map_lookup_filter_Some in Hk as [Hk _]. destruct (Ho _ _ Hk). lia.
      * rewrite etcd_kvs_revoke in Hk. apply map_lookup_filter_Some in Hk as [Hk _]. destruct (Ho _ _ Hk). lia.
Qed.

Lemma history_wf_steps q e e' : history_wf q e → rtc etcd_step e e' → history_wf q e'.
Proof. intros Hw. induction 1 as [|e e1 e2 Hs _ IH]; [done|]. apply IH. by eapply history_wf_step. Qed.

(** A key that is older than a store was in it, and unchanged since if its last
    write is older too. *)
Lemma etcd_steps_keys e e' k kv :
  rtc etcd_step e e' → etcd_kvs e' !! k = Some kv →
  (key_ModRevision kv ≤ etcd_rev e → etcd_kvs e !! k = Some kv) ∧
  (key_CreateRevision kv ≤ etcd_rev e →
     ∃ kv0, etcd_kvs e !! k = Some kv0 ∧ key_CreateRevision kv = key_CreateRevision kv0).
Proof.
  intros Hr. revert k kv. induction Hr as [e|e e1 e2 Hs Hr IH]; intros k kv Hk; [eauto|].
  destruct (IH k kv Hk) as [IHm IHc]. pose proof (etcd_step_rev _ _ Hs) as Hrev. split.
  - intros Hle. destruct (etcd_step_keys _ _ _ _ Hs (IHm ltac:(lia))) as [?|[? _]]; [done|lia].
  - intros Hle. destruct (IHc ltac:(lia)) as (kv1 & Hk1 & Heq).
    destruct (etcd_step_keys _ _ _ _ Hs Hk1) as [?|[_ [?|(kv0 & ? & ?)]]]; [eauto|lia|].
    exists kv0. split; [done|congruence].
Qed.

(** *** The oldest key *)

Lemma oldest_key_spec key e k kv :
  range_wf (election_prefix key) e →
  oldest_key key e = Some (k, kv) ↔
  etcd_kvs e !! k = Some kv ∧ String.prefix (election_prefix key) k = true ∧
  (∀ k' kv', etcd_kvs e !! k' = Some kv' → String.prefix (election_prefix key) k' = true →
     key_CreateRevision kv ≤ key_CreateRevision kv').
Proof.
  intros [_ Hinj]. unfold oldest_key.
  pose proof (etcd_range_sorted (election_prefix key) e) as Hs.
  pose proof (elem_of_range (election_prefix key) e) as Hel.
  destruct (etcd_range (election_prefix key) e) as [|[k0 kv0] l]; simpl.
  - split; [done|]. intros (Hk & Hp & _). exfalso. apply (proj1 (elem_of_nil (k, kv))). by apply Hel.
  - inversion_clear Hs as [|? ? _ Hall].
    assert (∀ k' kv', etcd_kvs e !! k' = Some kv' → String.prefix (election_prefix key) k' = true →
      key_CreateRevision kv0 ≤ key_CreateRevision kv') as Hmin.
    { intros k' kv' Hk' Hp'. assert ((k', kv') ∈ (k0, kv0) :: l) as Hin by by apply Hel.
      apply elem_of_cons in Hin as [[= -> ->]|Hin]; [lia|]. rewrite Forall_forall in Hall. apply (Hall _ Hin). }
    destruct (proj1 (Hel k0 kv0)) as [Hk0 Hp0]; [by left|]. split.
    + intros [= <- <-]. done.
    + intros (Hk & Hp & Hle). specialize (Hmin k kv Hk Hp). specialize (Hle k0 kv0 Hk0 Hp0).
      assert (k0 = k) as <- by (eapply (Hinj k0 k kv0 kv); eauto; lia). congruence.
Qed.

(** What the worker compares a request with. *)
Lemma worker_accepts_spec f key a e :
  worker_accepts f key a e ↔
  strings_TrimSpace (la_LeaderID a) ≠ "" ∧ strings_TrimSpace (la_Epoch a) ≠ "" ∧
  ∃ k kv, oldest_key key e = Some (k, kv) ∧
    strings_TrimSpace (la_LeaderID a) = key_Value kv ∧
    strings_TrimSpace (la_Epoch a) = pretty (key_ModRevision kv).
Proof.
  unfold worker_accepts. rewrite authority_metadata_roundtrip, ValidateAuthority_spec.
  unfold trim_authority, oldest_key, worker_Get. simpl. rewrite !TrimSpace_idem.
  destruct (etcd_range (election_prefix key) e) as [|[k kv] l]; simpl.
  - split; [|by intros (_ & _ & ? & ? & ? & _)].
    intros (Hl & _ & kvs & [= <-] & Hl' & _). done.
  - split.
    + intros (Hl & He & kvs & [= <-] & Hl' & He'). simpl in *. eauto 10.
    + intros (Hl & He & k' & kv' & [= <- <-] & Hl' & He'). split; [done|]. split; [done|]. by eexists.
Qed.

(** The decimal digits of a revision are not blank and carry no blanks. *)
Lemma TrimSpace_no_space s : string_forall (λ c, negb (unicode_IsSpace c)) s = true → strings_TrimSpace s = s.
Proof.
  intros Hs. unfold strings_TrimSpace.
  assert (trim_left s = s) as ->.
  { destruct s as [|c s]; [done|]. cbn in *. bool_to_prop. by destruct (unicode_IsSpace c). }
  induction s as [|c s IH]; [done|]. cbn in *. bool_to_prop. rewrite IH by done.
  match goal with Hc : unicode_IsSpace c = false |- _ => rewrite Hc end. by destruct s.
Qed.

Lemma TrimSpace_pretty (z : Z) : strings_TrimSpace (pretty z) = pretty z.
Proof.
  apply TrimSpace_no_space, pretty_forall. intros c Hc. unfold is_digit_or_sign in Hc.
  apply existsb_exists in Hc as (d & Hd & Heq). apply Ascii.eqb_eq in Heq as ->. simpl in Hd.
  by repeat destruct Hd as [<-|Hd].
Qed.

(** [Start] of the provider. *)
Definition EtcdProvider_Start (p : EtcdLeadershipProvider) : EtcdLeadershipProvider :=
  mkEtcdProvider (ep_electionKey p) (ep_identity p) true.

(** A scheduler that etcd says leads: the provider's answer at a store. *)
Definition granted_at (p : EtcdLeadershipProvider) (a : LeadershipAuthority) (e : E) : Prop :=
  ∃ flag scope, EtcdDispatchAuthorityForScope (EtcdProvider_Start p) flag scope (inr e) = inr a ∧
    la_IsLeader a = true.

Lemma granted_at_spec p a e :
  strings_TrimSpace (ep_identity p) ≠ "" → granted_at p a e →
  ∃ k kv, oldest_key (ep_electionKey p) e = Some (k, kv) ∧
    la_LeaderID a = key_Value kv ∧ la_LeaderID a = ep_identity p ∧ la_Epoch a = pretty (key_ModRevision kv).
Proof.
  intros Hid (flag & scope & Ha & Hl). unfold EtcdDispatchAuthorityForScope, EtcdDispatchAuthority in Ha. simpl in Ha.
  destruct (oldest_key (ep_electionKey p) e) as [[k kv]|] eqn:Hk; simplify_eq/=; bool_to_prop; [eauto 10|].
  by destruct (ep_identity p).
Qed.

Lemma pretty_Z_eq (x y : Z) : pretty x = pretty y → x = y.
Proof. apply (inj pretty). Qed.

(** The key that granted an authority is the only one it is accepted for, and is
    still the oldest at every moment before one where it is. *)
Lemma accepted_before f p a e e1 e2 :
  history_wf (election_prefix (ep_electionKey p)) e → strings_TrimSpace (ep_identity p) ≠ "" →
  granted_at p a e → rtc etcd_step e e1 → rtc etcd_step e1 e2 →
  worker_accepts f (ep_electionKey p) a e2 → worker_accepts f (ep_electionKey p) a e1.
Proof.
  intros Hwf Hid Hg H01 H12 Hacc.
  destruct (granted_at_spec _ _ _ Hid Hg) as (k & kv & Hold & Hv & _ & Hep).
  pose proof (history_wf_steps _ _ _ Hwf H01) as Hwf1. pose proof (history_wf_steps _ _ _ Hwf1 H12) as Hwf2.
  apply worker_accepts_spec in Hacc as (Hl & He & k2 & kv2 & Hold2 & Hl2 & He2).
  rewrite Hep, TrimSpace_pretty in He2. apply pretty_Z_eq in He2.
  apply (oldest_key_spec _ _ _ _ (hw_range _ _ Hwf)) in Hold as (Hk & Hp & Hmin).
  apply (oldest_key_spec _ _ _ _ (hw_range _ _ Hwf2)) in Hold2 as (Hk2 & Hp2 & _).
  destruct (hw_order _ _ Hwf _ _ Hk) as [Hc Hm].
  destruct (etcd_steps_keys e e2 k2 kv2) as [Hk2e _]; [by etrans|done|].
  specialize (Hk2e ltac:(lia)).
  assert (k2 = k) as -> by (eapply (hw_mod _ _ Hwf); eauto). assert (kv2 = kv) as -> by congruence.
  destruct (etcd_steps_keys e1 e2 k kv H12 Hk2) as [Hk1 _].
  pose proof (etcd_steps_rev _ _ H01) as Hrev.
  apply worker_accepts_spec. split; [done|]. split; [done|]. exists k, kv.
  split; [|by rewrite Hep, TrimSpace_pretty].
  apply (oldest_key_spec _ _ _ _ (hw_range _ _ Hwf1)). split; [apply Hk1; lia|]. split; [done|].
  intros k' kv' Hk' Hp'. destruct (Z.le_gt_cases (key_CreateRevision kv') (etcd_rev e)) as [Hle|Hgt]; [|lia].
  destruct (etcd_steps_keys e e1 k' kv' H01 Hk') as [_ Hc0]. destruct (Hc0 Hle) as (kv0 & Hk0 & ->). eauto.
Qed.

(** C28. Fencing from end to end.  A scheduler has been told that it leads at one
    store, and later in the history of the store another one (or the same one,
    elected anew) has been told so; the identities of both are configured without
    blanks around them.  From that moment on no worker accepts a request of the
    first, whatever the first still believes; and the authority of the second is
    accepted at that moment, and until it is lost for good.  (Workers trim the
    identity they receive and not the one in the store: they refuse every request
    of a leader whose identity has blanks around it.) *)
Theorem leadership_fencing f cfg cfg' c1 s1 c2 s2 p q le le' a b e e' :
  NewEtcdLeadershipProvider c1 s1 cfg = inr (p, le) → NewEtcdLeadershipProvider c2 s2 cfg' = inr (q, le') →
  pc_ElectionKey cfg = pc_ElectionKey cfg' →
  history_wf (election_prefix (ep_electionKey p)) e →
  granted_at p a e → rtc etcd_step e e' → granted_at q b e' →
  (la_LeaderID a, la_Epoch a) ≠ (la_LeaderID b, la_Epoch b) →
  strings_TrimSpace (pc_Identity cfg) = pc_Identity cfg →
  strings_TrimSpace (pc_Identity cfg') = pc_Identity cfg' →
  worker_accepts f (ep_electionKey q) b e' ∧
  ∀ e2, rtc etcd_step e' e2 →
    ¬ worker_accepts f (ep_electionKey p) a e2 ∧
    (¬ worker_accepts f (ep_electionKey q) b e2 →
     ∀ e3, rtc etcd_step e2 e3 → ¬ worker_accepts f (ep_electionKey q) b e3).
Proof.
  intros Hp Hq Hcfg Hwf Ha Hsteps Hb Hne Hid Hid'.
  set (id := pc_Identity cfg) in *. set (id' := pc_Identity cfg') in *.
  assert (ep_electionKey p = ep_electionKey q ∧ ep_identity p = id ∧ ep_identity q = id' ∧
    strings_TrimSpace id ≠ "" ∧ strings_TrimSpace id' ≠ "") as (Hkey & Hpi & Hqi & Hn & Hn').
  { apply new_provider_spec in Hp as (-> & -> & ?), Hq as (-> & -> & ?). by rewrite Hcfg. }
  pose proof (history_wf_steps _ _ _ Hwf Hsteps) as Hwf'. rewrite Hkey in *.
  assert (worker_accepts f (ep_electionKey q) b e') as Hacc.
  { destruct (granted_at_spec q b e') as (k & kv & Hold & Hv & Hi & Hep); [by rewrite Hqi|done|].
    apply worker_accepts_spec. rewrite Hi, Hep, Hqi, TrimSpace_pretty, Hid'. split; [by rewrite Hid' in Hn'|].
    split; [apply pretty_nonempty|]. exists k, kv. split; [done|]. split; [|done]. congruence. }
  split; [done|]. intros e2 H2. split.
  - intros Hacc2.
    assert (worker_accepts f (ep_electionKey q) a e') as Hacc'.
    { rewrite <-Hkey. eapply accepted_before; [|by rewrite Hpi|exact Ha|exact Hsteps|exact H2|]; by rewrite Hkey. }
    apply worker_accepts_spec in Hacc as (_ & _ & k & kv & Hk & Hl1 & He1).
    apply worker_accepts_spec in Hacc' as (_ & _ & k' & kv' & Hk' & Hl2 & He2).
    destruct (granted_at_spec p a e) as (? & ? & _ & _ & Hai & Hae); [by rewrite Hpi|done|].
    destruct (granted_at_spec q b e') as (? & ? & _ & _ & Hbi & Hbe); [by rewrite Hqi|done|].
    apply Hne. assert (kv' = kv) as -> by congruence.
    assert (la_LeaderID a = la_LeaderID b) as -> by (rewrite Hai, Hbi, Hpi, Hqi in *; congruence).
    f_equal. rewrite Hae, Hbe, TrimSpace_pretty in *. congruence.
  - intros Hrej e3 H3 Hacc3. apply Hrej. eapply accepted_before; [exact Hwf'|by rewrite Hqi|exact Hb|exact H2|exact H3|done].
Qed.

End Fencing.
