(* ===== verification/Registry.v ===== *)
(** * The distributed agent registry (pkg/registry/distributed_registry.go)

    Each process keeps its node under a leased key of etcd and a cache of all
    nodes, filled once from the store and then kept by a watch.  etcd is the
    class of Etcd.v; JSON is a pair of functions.  A request to etcd may fail, and
    may have been carried out although it is reported to have failed.  Locks are
    the atomicity of the parts between requests; what observers are told is a
    list of notes.  [time.Time] is a wall-clock instant: the monotonic reading,
    which JSON drops, is left out. *)

From Stdlib Require Import Ascii.
From stdpp Require Import base gmap strings list fin_maps relations.
From S2P Require Import Prelude Etcd Nodes.

Open Scope Z_scope.

Record ServiceInfo := mkService {
  si_NodeID : string;
  si_ServiceName : string;
  si_Address : string;
  si_Port : Z;
  si_LastSeen : Time;
  si_Healthy : bool;
}.

Inductive RegistryNote :=
  | NodeAdded (observer : string) (node : NodeInfo)
  | NodeRemoved (observer : string) (nodeID : string)
  | ServiceRegistered (observer : string) (service : ServiceInfo)
  | ServiceUnregistered (observer : string) (serviceName : string).

Record RegistryConfig := mkRegConfig {
  rc_EtcdDialTimeout : Duration;
  rc_KeyPrefix : string;
  rc_NodeID : string;
  rc_NodeName : string;
  rc_NodeAddress : string;
  rc_NodePort : Z;
  rc_NodeCapabilities : list string;
  rc_NodeMetadata : option (gmap string string);
  rc_LeaseTTL : Z;
  rc_WatchTimeout : Duration;
  rc_HeartbeatInterval : Duration;
}.

Record DistributedAgentRegistry := mkRegistry {
  dr_config : RegistryConfig;
  dr_nodeID : string;
  dr_nodeInfo : NodeInfo;
  dr_session : option Z;          (** the lease of the session held *)
  dr_leaseID : Z;
  dr_nodes : gmap string NodeInfo;
  dr_services : gmap string ServiceInfo;
  dr_observers : list string;
}.

Definition set_dr_nodes (m : gmap string NodeInfo) (r : DistributedAgentRegistry) : DistributedAgentRegistry :=
  mkRegistry (dr_config r) (dr_nodeID r) (dr_nodeInfo r) (dr_session r) (dr_leaseID r) m (dr_services r) (dr_observers r).
Definition set_info (n : NodeInfo) (r : DistributedAgentRegistry) : DistributedAgentRegistry :=
  mkRegistry (dr_config r) (dr_nodeID r) n (dr_session r) (dr_leaseID r) (dr_nodes r) (dr_services r) (dr_observers r).
Definition set_session (lease : Z) (r : DistributedAgentRegistry) : DistributedAgentRegistry :=
  mkRegistry (dr_config r) (dr_nodeID r) (dr_nodeInfo r) (Some lease) lease (dr_nodes r) (dr_services r) (dr_observers r).
Definition set_services (m : gmap string ServiceInfo) (r : DistributedAgentRegistry) : DistributedAgentRegistry :=
  mkRegistry (dr_config r) (dr_nodeID r) (dr_nodeInfo r) (dr_session r) (dr_leaseID r) (dr_nodes r) m (dr_observers r).
Definition set_observers (l : list string) (r : DistributedAgentRegistry) : DistributedAgentRegistry :=
  mkRegistry (dr_config r) (dr_nodeID r) (dr_nodeInfo r) (dr_session r) (dr_leaseID r) (dr_nodes r) (dr_services r) l.

(** ** Keys *)

(** [strings.Trim(s, "/")]. *)
Fixpoint trim_slash_left (s : string) : string :=
  match s with
  | EmptyString => EmptyString
  | String c s' => if Ascii.eqb c "/" then trim_slash_left s' else s
  end.
Fixpoint trim_slash_right (s : string) : string :=
  match s with
  | EmptyString => EmptyString
  | String c s' =>
      match trim_slash_right s' with
      | EmptyString => if Ascii.eqb c "/" then EmptyString else String c EmptyString
      | s'' => String c s''
      end
  end.
Definition strings_Trim_slash (s : string) : string := trim_slash_right (trim_slash_left s).

Definition normalizeKeyPrefix (prefix : string) : string :=
  let trimmed := strings_TrimSpace prefix in
  if String.eqb trimmed "" then "/dagens" else "/" +:+ strings_Trim_slash trimmed.

Definition key_nodePrefix (KeyPrefix : string) : string := KeyPrefix +:+ "/nodes/".
Definition nodePrefix (r : DistributedAgentRegistry) : string := key_nodePrefix (rc_KeyPrefix (dr_config r)).
Definition nodeKey (r : DistributedAgentRegistry) (nodeID : string) : string := nodePrefix r +:+ nodeID.
Definition serviceKey (r : DistributedAgentRegistry) (serviceName nodeID : string) : string :=
  rc_KeyPrefix (dr_config r) +:+ "/services/" +:+ serviceName +:+ "/" +:+ nodeID.

(** [s[n:]]. *)
Fixpoint string_from (n : nat) (s : string) : string :=
  match n, s with
  | O, _ => s
  | S n', String _ s' => string_from n' s'
  | S _, EmptyString => EmptyString
  end.

Definition extractNodeIDFromKey (prefix key : string) : string :=
  if String.prefix prefix key && (String.length prefix <? String.length key)%nat then
    let remainder := string_from (String.length prefix) key in
    if no_slash remainder then remainder else ""
  else "".

(** ** Construction *)

Definition registry_defaults (c : RegistryConfig) : RegistryConfig :=
  mkRegConfig
    (if rc_EtcdDialTimeout c =? 0 then 5 * Second else rc_EtcdDialTimeout c)
    (normalizeKeyPrefix (if String.eqb (strings_TrimSpace (rc_KeyPrefix c)) "" then "/dagens" else rc_KeyPrefix c))
    (rc_NodeID c) (rc_NodeName c) (rc_NodeAddress c) (rc_NodePort c) (rc_NodeCapabilities c) (rc_NodeMetadata c)
    (if rc_LeaseTTL c =? 0 then 10 else rc_LeaseTTL c)
    (if rc_WatchTimeout c =? 0 then 30 * Second else rc_WatchTimeout c)
    (if rc_HeartbeatInterval c =? 0 then 3 * Second else rc_HeartbeatInterval c).

(** [client] and [session] are what etcd's client library answers. *)
Definition NewDistributedAgentRegistry (client : option error) (session : result Z) (now : Time) (config : RegistryConfig)
    : result DistributedAgentRegistry :=
  let config := registry_defaults config in
  match client, session with
  | Some err, _ => inl (EWrap "failed to create etcd client: " err "")
  | None, inl err => inl (EWrap "failed to create etcd session: " err "")
  | None, inr lease =>
      inr (mkRegistry config (rc_NodeID config)
        (mkNode (rc_NodeID config) (rc_NodeName config) (rc_NodeAddress config) (rc_NodePort config)
           (rc_NodeCapabilities config) (rc_NodeMetadata config) now 0 true)
        (Some lease) lease ∅ ∅ [])
  end.

(** ** Requests to etcd *)

(** A request is carried out, or fails, carried out or not. *)
Inductive EtcdRequest := Carried | Denied (err : error) (carried : bool).

Definition request_error (q : EtcdRequest) : option error :=
  match q with Carried => None | Denied err _ => Some err end.
Definition request_done (q : EtcdRequest) : bool :=
  match q with Carried => true | Denied _ carried => carried end.

Inductive WatchEvent :=
  | EventPut (key value : string)
  | EventDelete (key : string).

Definition ev_key (ev : WatchEvent) : string :=
  match ev with EventPut k _ => k | EventDelete k => k end.

Section Operations.
Context {E : Type} `{Etcd E}.
Context (marshal_node : NodeInfo → result string) (unmarshal_node : string → result NodeInfo)
        (marshal_service : ServiceInfo → result string).

Definition putWithLease (q : EtcdRequest) (key value : string) (lease : Z) (e : E) : option error * E :=
  (request_error q, if request_done q then etcd_put lease key value e else e).

Definition deleteKey (q : EtcdRequest) (key : string) (e : E) : option error * E :=
  (request_error q, if request_done q then etcd_delete key e else e).

(** *** The node itself *)

Definition registerNode (q : EtcdRequest) (r : DistributedAgentRegistry) (e : E) : option error * DistributedAgentRegistry * E :=
  if dr_leaseID r =? 0 then (Some (EText "no active lease"), r, e)
  else
    match marshal_node (dr_nodeInfo r) with
    | inl err => (Some (EWrap "failed to marshal node info: " err ""), r, e)
    | inr value =>
        match putWithLease q (nodeKey r (dr_nodeID r)) value (dr_leaseID r) e with
        | (Some err, e') => (Some (EWrap "failed to register node: " err ""), r, e')
        | (None, e') => (None, set_dr_nodes (<[dr_nodeID r := dr_nodeInfo r]> (dr_nodes r)) r, e')
        end
    end.

Definition unregisterNode (q : EtcdRequest) (r : DistributedAgentRegistry) (e : E) : option error * E :=
  deleteKey q (nodeKey r (dr_nodeID r)) e.

(** The part of [UpdateNodeLoad] under the lock, and the whole. *)
Definition load_info (load : N) (now : Time) (n : NodeInfo) : NodeInfo :=
  mkNode (ni_ID n) (ni_Name n) (ni_Address n) (ni_Port n) (ni_Capabilities n) (ni_Metadata n) now load (ni_Healthy n).

Definition cache_load (load : N) (now : Time) (r : DistributedAgentRegistry) : DistributedAgentRegistry :=
  let info := load_info load now (dr_nodeInfo r) in
  set_dr_nodes (<[dr_nodeID r := info]> (dr_nodes r)) (set_info info r).

Definition UpdateNodeLoad (load : N) (now : Time) (q : EtcdRequest) (r : DistributedAgentRegistry) (e : E)
    : option error * DistributedAgentRegistry * E :=
  let r := cache_load load now r in
  if dr_leaseID r =? 0 then (Some (EText "no active lease"), r, e)
  else
    match marshal_node (dr_nodeInfo r) with
    | inl err => (Some (EWrap "failed to marshal node info: " err ""), r, e)
    | inr value =>
        let '(err, e') := putWithLease q (nodeKey r (dr_nodeID r)) value (dr_leaseID r) e in (err, r, e')
    end.

(** *** The session *)

Inductive ReconnectTry :=
  | TryDone                                 (** the context is done *)
  | TryFailed (err : error)                 (** no session: wait and try again *)
  | TrySession (lease : Z) (q : EtcdRequest).   (** a session, and how the registration's put fares *)

Definition maxBackoff : Duration := 30 * Second.

(** The waits between the attempts, the registry and the store afterwards.
    Closing the old session revokes its lease. *)
Fixpoint reconnect_loop (backoff : Duration) (tries : list ReconnectTry) (r : DistributedAgentRegistry) (e : E)
    : list Duration * DistributedAgentRegistry * E :=
  match tries with
  | [] => ([], r, e)
  | TryDone :: _ => ([], r, e)
  | TryFailed _ :: tries' =>
      let backoff' := if maxBackoff <? backoff * 2 then maxBackoff else backoff * 2 in
      let '(waits, r', e') := reconnect_loop backoff' tries' r e in (backoff :: waits, r', e')
  | TrySession lease q :: _ =>
      let e := match dr_session r with Some old => etcd_revoke old e | None => e end in
      let '(_, r', e') := registerNode q (set_session lease r) e in ([], r', e')
  end.

Definition reconnectSession (tries : list ReconnectTry) (r : DistributedAgentRegistry) (e : E)
    : list Duration * DistributedAgentRegistry * E := reconnect_loop Second tries r e.

(** A tick of [sessionManagerLoop]: [expired] is whether the session is done. *)
Definition session_tick (expired : bool) (tries : list ReconnectTry) (r : DistributedAgentRegistry) (e : E)
    : list Duration * DistributedAgentRegistry * E :=
  match dr_session r with
  | None => reconnectSession tries r e
  | Some _ => if expired then reconnectSession tries r e else ([], r, e)
  end.

(** *** The cache *)

(** The part of [syncExistingNodes] under the lock; [kvs] is etcd's response. *)
Fixpoint sync_nodes (prefix : string) (kvs : list (string * KeyValue)) (nodes : gmap string NodeInfo) : gmap string NodeInfo :=
  match kvs with
  | [] => nodes
  | (key, kv) :: kvs' =>
      let nodeID := extractNodeIDFromKey prefix key in
      if String.eqb nodeID "" then sync_nodes prefix kvs' nodes
      else
        match unmarshal_node (key_Value kv) with
        | inl _ => sync_nodes prefix kvs' nodes
        | inr nodeInfo => sync_nodes prefix kvs' (<[nodeID := nodeInfo]> nodes)
        end
  end.

Definition syncExistingNodes (get : result (list (string * KeyValue))) (r : DistributedAgentRegistry)
    : option error * DistributedAgentRegistry :=
  match get with
  | inl err => (Some err, r)
  | inr kvs => (None, set_dr_nodes (sync_nodes (nodePrefix r) kvs (dr_nodes r)) r)
  end.

Definition handleNodeEvent (ev : WatchEvent) (r : DistributedAgentRegistry) : list RegistryNote * DistributedAgentRegistry :=
  let nodeID := extractNodeIDFromKey (nodePrefix r) (ev_key ev) in
  if String.eqb nodeID "" then ([], r)
  else
    match ev with
    | EventPut _ value =>
        match unmarshal_node value with
        | inl _ => ([], r)
        | inr nodeInfo =>
            ((λ o, NodeAdded o nodeInfo) <$> dr_observers r, set_dr_nodes (<[nodeID := nodeInfo]> (dr_nodes r)) r)
        end
    | EventDelete _ =>
        match dr_nodes r !! nodeID with
        | None => ([], r)
        | Some _ => ((λ o, NodeRemoved o nodeID) <$> dr_observers r, set_dr_nodes (delete nodeID (dr_nodes r)) r)
        end
    end.

(** A response of the watch: an error is logged and skipped. *)
Fixpoint handle_events (evs : list WatchEvent) (r : DistributedAgentRegistry) : list RegistryNote * DistributedAgentRegistry :=
  match evs with
  | [] => ([], r)
  | ev :: evs' =>
      let '(notes, r') := handleNodeEvent ev r in
      let '(notes', r'') := handle_events evs' r' in (notes ++ notes', r'')
  end.

Definition watch_response (resp : result (list WatchEvent)) (r : DistributedAgentRegistry)
    : list RegistryNote * DistributedAgentRegistry :=
  match resp with inl _ => ([], r) | inr evs => handle_events evs r end.

(** [Start] up to the start of its goroutines. *)
Definition Registry_Start (q : EtcdRequest) (get : result (list (string * KeyValue))) (r : DistributedAgentRegistry) (e : E)
    : option error * DistributedAgentRegistry * E :=
  match registerNode q r e with
  | (Some err, r', e') => (Some (EWrap "failed to register node: " err ""), r', e')
  | (None, r', e') =>
      match syncExistingNodes get r' with
      | (Some err, r'') => (Some (EWrap "failed to sync existing nodes: " err ""), r'', e')
      | (None, r'') => (None, r'', e')
      end
  end.

(** [Stop] once the goroutines have ended: closing the session revokes its lease. *)
Definition Registry_Stop (q : EtcdRequest) (r : DistributedAgentRegistry) (e : E) : E :=
  let '(_, e') := unregisterNode q r e in
  match dr_session r with Some lease => etcd_revoke lease e' | None => e' end.

(** *** Services *)

Definition RegisterService (serviceName : string) (port : Z) (now : Time) (q : EtcdRequest) (r : DistributedAgentRegistry) (e : E)
    : option error * list RegistryNote * DistributedAgentRegistry * E :=
  if dr_leaseID r =? 0 then (Some (EText "no active lease"), [], r, e)
  else
    let info := mkService (dr_nodeID r) serviceName (ni_Address (dr_nodeInfo r)) port now true in
    match marshal_service info with
    | inl err => (Some (EWrap "failed to marshal service info: " err ""), [], r, e)
    | inr value =>
        match putWithLease q (serviceKey r serviceName (dr_nodeID r)) value (dr_leaseID r) e with
        | (Some err, e') => (Some (EWrap "failed to register service: " err ""), [], r, e')
        | (None, e') =>
            (None, (λ o, ServiceRegistered o info) <$> dr_observers r,
             set_services (<[serviceName := info]> (dr_services r)) r, e')
        end
    end.

Definition UnregisterService (serviceName : string) (q : EtcdRequest) (r : DistributedAgentRegistry) (e : E)
    : option error * list RegistryNote * DistributedAgentRegistry * E :=
  match deleteKey q (serviceKey r serviceName (dr_nodeID r)) e with
  | (Some err, e') => (Some err, [], r, e')
  | (None, e') =>
      (None, (λ o, ServiceUnregistered o serviceName) <$> dr_observers r, set_services (delete serviceName (dr_services r)) r, e')
  end.

End Operations.

(** ** Reading the cache; maps are listed in no particular order *)

Definition GetNodes (r : DistributedAgentRegistry) : list NodeInfo := map_values (dr_nodes r).
Definition Registry_GetNode (nodeID : string) (r : DistributedAgentRegistry) : option NodeInfo := dr_nodes r !! nodeID.
Definition Registry_GetHealthyNodes (r : DistributedAgentRegistry) : list NodeInfo := filter ni_Healthy (map_values (dr_nodes r)).
Definition GetNodesByCapability (capability : string) (r : DistributedAgentRegistry) : list NodeInfo :=
  filter (λ n, capability ∈ ni_Capabilities n) (map_values (dr_nodes r)).
Definition GetNodeCount (r : DistributedAgentRegistry) : nat := size (dr_nodes r).
Definition GetHealthyNodeCount (r : DistributedAgentRegistry) : nat := length (Registry_GetHealthyNodes r).
Definition GetService (serviceName : string) (r : DistributedAgentRegistry) : option ServiceInfo := dr_services r !! serviceName.
Definition GetServices (serviceName : string) (r : DistributedAgentRegistry) : list ServiceInfo :=
  filter (λ s, si_ServiceName s = serviceName) (map_values (dr_services r)).
Definition AddObserver (o : string) (r : DistributedAgentRegistry) : DistributedAgentRegistry :=
  set_observers (dr_observers r ++ [o]) r.
Fixpoint drop_observer (o : string) (l : list string) : list string :=
  match l with [] => [] | x :: l' => if String.eqb x o then l' else x :: drop_observer o l' end.
Definition RemoveObserver (o : string) (r : DistributedAgentRegistry) : DistributedAgentRegistry :=
  set_observers (drop_observer o (dr_observers r)) r.

(** ** Keys and node ids *)

Definition valid_id (id : string) : Prop := id ≠ "" ∧ no_slash id = true.

Lemma string_from_app a t : string_from (String.length a) (a +:+ t) = t.
Proof. induction a as [|c a IH]; [done|]. exact IH. Qed.

(** The id of a key is what follows the prefix, when it is not empty and has no
    slash. *)
Lemma extract_spec p key id : id ≠ "" → extractNodeIDFromKey p key = id ↔ key = p +:+ id ∧ no_slash id = true.
Proof.
  intros Hid. unfold extractNodeIDFromKey. split.
  - destruct (String.prefix p key) eqn:Hp; simpl; [|by intros <-].
    apply prefix_iff in Hp as [t ->]. rewrite string_from_app.
    destruct (_ <? _)%nat; [|by intros <-]. destruct (no_slash t) eqn:Ht; [|by intros <-]. by intros ->.
  - intros [-> Hn]. rewrite prefix_app, string_from_app, Hn, length_string_app. simpl.
    destruct id as [|c id]; [done|]. simpl. by rewrite (proj2 (Nat.ltb_lt _ _)) by lia.
Qed.

Lemma extract_key p id : valid_id id → extractNodeIDFromKey p (p +:+ id) = id.
Proof. intros [Hne Hn]. by apply extract_spec. Qed.

Lemma key_inj (p a b : string) : p +:+ a = p +:+ b → a = b.
Proof. induction p as [|c p IH]; [done|]. intros Heq. apply IH. by injection Heq. Qed.

(** ** What a process does to its own registry *)

Section Own.
Context {E : Type} `{Etcd E}.
Context (marshal_node : NodeInfo → result string) (marshal_service : ServiceInfo → result string).

(** It leaves the other nodes alone. *)
Definition own_part (r r' : DistributedAgentRegistry) : Prop :=
  nodePrefix r' = nodePrefix r ∧ dr_nodeID r' = dr_nodeID r ∧
  ∀ id, id ≠ dr_nodeID r → dr_nodes r' !! id = dr_nodes r !! id.

(** The registry's part of each operation, whatever etcd answers. *)
Inductive own_op (r : DistributedAgentRegistry) : DistributedAgentRegistry → Prop :=
  | op_register q (e : E) : own_op r (registerNode marshal_node q r e).1.2
  | op_load load now q (e : E) : own_op r (UpdateNodeLoad marshal_node load now q r e).1.2
  | op_session expired tries (e : E) : own_op r (session_tick marshal_node expired tries r e).1.2
  | op_service name port now q (e : E) : own_op r (RegisterService marshal_service name port now q r e).1.2
  | op_unservice name q (e : E) : own_op r (UnregisterService name q r e).1.2
  | op_observe o : own_op r (AddObserver o r)
  | op_unobserve o : own_op r (RemoveObserver o r).

Lemma own_part_nodes r n : own_part r (set_dr_nodes (<[dr_nodeID r := n]> (dr_nodes r)) r).
Proof. split; [done|]. split; [done|]. intros id Hne. simpl. by rewrite lookup_insert_ne. Qed.

Lemma own_part_refl r : own_part r r.
Proof. done. Qed.

Lemma own_part_trans r r1 r2 : own_part r r1 → own_part r1 r2 → own_part r r2.
Proof. intros (? & ? & Hn) (? & ? & Hn'). split_and!; [congruence..|]. intros id Hne. rewrite Hn' by congruence. auto. Qed.

Lemma registerNode_own q r (e : E) : own_part r (registerNode marshal_node q r e).1.2.
Proof.
  unfold registerNode. destruct (_ =? 0); [done|]. destruct (marshal_node _); [done|].
  unfold putWithLease. destruct (request_error q); [done|]. apply own_part_nodes.
Qed.

Lemma reconnect_own backoff tries r (e : E) : own_part r (reconnect_loop marshal_node backoff tries r e).1.2.
Proof.
  revert backoff. induction tries as [|[|err|lease q] tries IH]; intros backoff; simpl; [done|done| |].
  - specialize (IH (if maxBackoff <? backoff * 2 then maxBackoff else backoff * 2)).
    by destruct (reconnect_loop _ _ _ _ _) as [[waits r'] e'].
  - match goal with |- context [registerNode _ q ?r0 ?e0] => pose proof (registerNode_own q r0 e0) as Hr;
      destruct (registerNode marshal_node q r0 e0) as [[err r'] e'] end. exact Hr.
Qed.

Lemma own_op_part r r' : own_op r r' → own_part r r'.
Proof.
  destruct 1.
  - apply registerNode_own.
  - assert (own_part r (cache_load load now r)) as Hc.
    { split; [done|]. split; [done|]. intros id Hne. simpl. by rewrite lookup_insert_ne. }
    unfold UpdateNodeLoad. destruct (_ =? 0); [done|]. destruct (marshal_node _); [done|].
    unfold putWithLease. exact Hc.
  - unfold session_tick, reconnectSession. destruct (dr_session r); [destruct expired|]; [apply reconnect_own|done|apply reconnect_own].
  - unfold RegisterService. destruct (_ =? 0); [done|]. destruct (marshal_service _); [done|].
    unfold putWithLease. by destruct (request_error q).
  - unfold UnregisterService, deleteKey. by destruct (request_error q).
  - done.
  - done.
Qed.

(** The waits of a reconnection double from one second and stop at thirty. *)
Lemma reconnect_waits backoff tries r (e : E) i w :
  0 < backoff ≤ maxBackoff → (reconnect_loop marshal_node backoff tries r e).1.1 !! i = Some w →
  w = Z.min maxBackoff (backoff * 2 ^ Z.of_nat i).
Proof.
  revert backoff i. induction tries as [|[|err|lease q] tries IH]; intros backoff i Hb Hw; simpl in Hw; [done|done| |].
  - set (b' := if maxBackoff <? backoff * 2 then maxBackoff else backoff * 2) in *.
    specialize (IH b'). destruct (reconnect_loop _ b' _ _ _) as [[waits r'] e']. simpl in *.
    destruct i as [|i]; simpl in Hw; [simplify_eq; change (2 ^ Z.of_nat 0) with 1; lia|].
    assert (0 < b' ≤ maxBackoff) as Hb' by (unfold b'; destruct (Z.ltb_spec maxBackoff (backoff * 2)); lia).
    rewrite (IH i Hb' Hw). rewrite Nat2Z.inj_succ, Z.pow_succ_r by lia.
    pose proof (Z.pow_pos_nonneg 2 (Z.of_nat i) ltac:(lia) ltac:(lia)).
    unfold b'. destruct (Z.ltb_spec maxBackoff (backoff * 2)); [|f_equal; lia]. nia.
  - by destruct (registerNode _ _ _ _) as [[? ?] ?].
Qed.
End Own.

(** ** The cache follows the store *)

Section View.
Context {E : Type} `{EtcdLaws E}.
Context (unmarshal_node : string → result NodeInfo) (marshal_node : NodeInfo → result string)
        (marshal_service : ServiceInfo → result string) (p : string) (own : string).
Notation handle := (handleNodeEvent unmarshal_node).
Implicit Types (r : DistributedAgentRegistry) (e : E) (ev : WatchEvent).

(** The node etcd holds under an id. *)
Definition stored (e : E) (id : string) : option NodeInfo :=
  kv ← etcd_kvs e !! (p +:+ id); match unmarshal_node (key_Value kv) with inr n => Some n | inl _ => None end.

(** The events of a change of the store: one for each key of the prefix it touched. *)
Record changed (e e' : E) (evs : list WatchEvent) : Prop := {
  ch_nodup : NoDup (ev_key <$> evs);
  ch_events ev : ev ∈ evs ↔ String.prefix p (ev_key ev) = true ∧ etcd_kvs e !! ev_key ev ≠ etcd_kvs e' !! ev_key ev ∧
    match ev with
    | EventPut k v => ∃ kv, etcd_kvs e' !! k = Some kv ∧ key_Value kv = v
    | EventDelete k => etcd_kvs e' !! k = None
    end;
}.

(** The node under an id after a change of the store: the one its value encodes,
    none if the key is gone, and the one before if the value cannot be read. *)
Definition shown_after (e e' : E) (shown : string → option NodeInfo) (id : string) : option NodeInfo :=
  if decide (etcd_kvs e !! (p +:+ id) = etcd_kvs e' !! (p +:+ id)) then shown id
  else
    match etcd_kvs e' !! (p +:+ id) with
    | None => None
    | Some kv => match unmarshal_node (key_Value kv) with inr n => Some n | inl _ => shown id end
    end.

(** The goroutine of [watchClusterChanges] starts its watch once and never renews
    it: after a fatal error the channel is closed. *)
Inductive WatchState := NotWatching | Watching | WatchEnded.

Record RegWorld := mkRegWorld {
  rw_etcd : E;
  rw_watch : WatchState;
  rw_events : list WatchEvent;        (** seen by the watch, not handled yet *)
  rw_reg : DistributedAgentRegistry;
  rw_shown : string → option NodeInfo;   (** the nodes as the first read and the watch have shown them *)
  rw_missed : bool;                   (** a change of the nodes was not watched *)
}.

(** The store changes, by anyone's write or the end of a lease; the watch starts,
    answers with events, with an error, or is closed, when its channel gives empty
    responses; the process uses its registry. *)
Inductive reg_step : RegWorld → RegWorld → Prop :=
  | reg_change e e' evs pending r shown missed :
      etcd_step e e' → changed e e' evs →
      reg_step (mkRegWorld e Watching pending r shown missed)
        (mkRegWorld e' Watching (pending ++ evs) r (shown_after e e' shown) missed)
  | reg_change_unseen e e' evs watch pending r shown missed :
      etcd_step e e' → changed e e' evs → watch ≠ Watching →
      reg_step (mkRegWorld e watch pending r shown missed)
        (mkRegWorld e' watch pending r shown (missed || match evs with [] => false | _ => true end))
  | reg_watch e r shown missed :
      reg_step (mkRegWorld e NotWatching [] r shown missed) (mkRegWorld e Watching [] r shown missed)
  | reg_response e watch evs pending r shown missed :
      reg_step (mkRegWorld e watch (evs ++ pending) r shown missed)
        (mkRegWorld e watch pending (watch_response unmarshal_node (inr evs) r).2 shown missed)
  | reg_response_error e watch pending err r shown missed :
      reg_step (mkRegWorld e watch pending r shown missed)
        (mkRegWorld e watch pending (watch_response unmarshal_node (inl err) r).2 shown missed)
  | reg_watch_ends e pending r shown missed :
      reg_step (mkRegWorld e Watching pending r shown missed) (mkRegWorld e WatchEnded pending r shown missed)
  | reg_own e watch pending r r' shown missed :
      own_op (E:=E) marshal_node marshal_service r r' →
      reg_step (mkRegWorld e watch pending r shown missed) (mkRegWorld e watch pending r' shown missed).

(** What an event makes of one node. *)
Definition node_after (id : string) (cur : option NodeInfo) ev : option NodeInfo :=
  if String.eqb (ev_key ev) (p +:+ id) then
    match ev with
    | EventPut _ v => match unmarshal_node v with inr n => Some n | inl _ => cur end
    | EventDelete _ => None
    end
  else cur.

Lemma handle_shape ev r :
  nodePrefix (handle ev r).2 = nodePrefix r ∧ dr_nodeID (handle ev r).2 = dr_nodeID r.
Proof.
  unfold handleNodeEvent. destruct (String.eqb _ _); [done|].
  destruct ev as [k v|k]; simpl; [by destruct (unmarshal_node v)|by destruct (dr_nodes r !! _)].
Qed.

Lemma handle_node ev r id :
  nodePrefix r = p → valid_id id → dr_nodes (handle ev r).2 !! id = node_after id (dr_nodes r !! id) ev.
Proof.
  intros Hp Hid. unfold handleNodeEvent, node_after. rewrite Hp.
  set (x := extractNodeIDFromKey p (ev_key ev)).
  destruct (String.eqb_spec (ev_key ev) (p +:+ id)) as [Hk|Hk].
  - assert (x = id) as -> by (unfold x; rewrite Hk; by apply extract_key).
    rewrite (proj2 (String.eqb_neq id "")) by apply Hid.
    destruct ev as [k v|k]; simpl.
    + destruct (unmarshal_node v); simpl; [done|]. by rewrite lookup_insert_eq.
    + destruct (dr_nodes r !! id) eqn:E1; simpl; [by rewrite lookup_delete_eq|done].
  - destruct (String.eqb_spec x "") as [|Hx]; [done|].
    assert (x ≠ id) as Hne.
    { intros Heq. apply Hk. apply (extract_spec p (ev_key ev) id) in Heq; [by destruct Heq|by apply Hid]. }
    destruct ev as [k v|k]; simpl.
    + destruct (unmarshal_node v); simpl; [done|]. by rewrite lookup_insert_ne.
    + destruct (dr_nodes r !! x); simpl; [by rewrite lookup_delete_ne|done].
Qed.

Lemma foldl_unaffected id evs cur :
  (p +:+ id) ∉ ev_key <$> evs → foldl (node_after id) cur evs = cur.
Proof.
  revert cur. induction evs as [|ev evs IH]; intros cur Hn; [done|]. csimpl in Hn. apply not_elem_of_cons in Hn as [H1 H2].
  simpl. rewrite IH by done. unfold node_after. by rewrite (proj2 (String.eqb_neq _ _)) by congruence.
Qed.

Lemma foldl_affected id evs cur ev :
  NoDup (ev_key <$> evs) → ev ∈ evs → ev_key ev = p +:+ id → foldl (node_after id) cur evs = node_after id cur ev.
Proof.
  revert cur. induction evs as [|ev' evs IH]; intros cur Hnd Hin Hk; [set_solver|].
  csimpl in Hnd. apply NoDup_cons in Hnd as [Hn Hnd]. simpl. apply elem_of_cons in Hin as [->|Hin].
  - apply foldl_unaffected. by rewrite <- Hk.
  - rewrite (IH _ Hnd Hin Hk). assert (ev_key ev' ≠ p +:+ id) as Hne.
    { intros Heq. apply Hn. rewrite Heq, <- Hk. apply list_elem_of_fmap. eauto. }
    unfold node_after at 2. by rewrite (proj2 (String.eqb_neq _ _)) by done.
Qed.

Lemma handle_events_node evs r id :
  nodePrefix r = p → valid_id id →
  dr_nodes (handle_events unmarshal_node evs r).2 !! id = foldl (node_after id) (dr_nodes r !! id) evs.
Proof.
  intros Hp Hid. revert r Hp. induction evs as [|ev evs IH]; intros r Hp; simpl; [done|].
  rewrite <- (handle_node ev r id Hp Hid). destruct (handle_shape ev r) as [Hp' _].
  destruct (handle ev r) as [notes r'] eqn:Hr. simpl in *. rewrite <- IH by congruence.
  by destruct (handle_events unmarshal_node evs r') as [notes' r''].
Qed.

(** The events of a change take a node to what the change shows. *)
Lemma changed_node e e' evs shown id :
  changed e e' evs → foldl (node_after id) (shown id) evs = shown_after e e' shown id.
Proof.
  intros Hch. unfold shown_after. set (k := p +:+ id). assert (String.prefix p k = true) as Hpk by apply prefix_app.
  destruct (decide (etcd_kvs e !! k = etcd_kvs e' !! k)) as [Heq|Hne].
  - apply foldl_unaffected.
    intros (ev & Hk & Hev)%list_elem_of_fmap. apply (ch_events _ _ _ Hch) in Hev as (_ & Hbad & _).
    rewrite <- Hk in Hbad. done.
  - destruct (etcd_kvs e' !! k) as [kv|] eqn:Hk'; simpl.
    + assert (EventPut k (key_Value kv) ∈ evs) as Hev.
      { apply (ch_events _ _ _ Hch). simpl. split; [done|]. split; [congruence|eauto]. }
      rewrite (foldl_affected id evs _ _ (ch_nodup _ _ _ Hch) Hev eq_refl). unfold node_after. simpl. fold k.
      by rewrite String.eqb_refl.
    + assert (EventDelete k ∈ evs) as Hev.
      { apply (ch_events _ _ _ Hch). simpl. split; [done|]. split; congruence. }
      rewrite (foldl_affected id evs _ _ (ch_nodup _ _ _ Hch) Hev eq_refl). unfold node_after. simpl. fold k.
      by rewrite String.eqb_refl.
Qed.

Lemma changed_nothing e e' id : changed e e' [] → etcd_kvs e !! (p +:+ id) = etcd_kvs e' !! (p +:+ id).
Proof.
  intros Hch. apply dec_stable. intros Hne. set (k := p +:+ id) in *.
  assert (String.prefix p k = true) as Hpk by apply prefix_app.
  destruct (etcd_kvs e' !! k) as [kv|] eqn:Hk'.
  - assert (EventPut k (key_Value kv) ∈ []) as []%elem_of_nil.
    apply (ch_events _ _ _ Hch). simpl. split; [done|]. split; [congruence|eauto].
  - assert (EventDelete k ∈ []) as []%elem_of_nil.
    apply (ch_events _ _ _ Hch). simpl. split; [done|]. split; congruence.
Qed.

(** What was shown is what the store holds, where that can be read. *)
Definition agrees (e : E) (shown : string → option NodeInfo) : Prop :=
  ∀ id, match etcd_kvs e !! (p +:+ id) with
        | None => shown id = None
        | Some kv => ∀ n, unmarshal_node (key_Value kv) = inr n → shown id = Some n
        end.

Lemma agrees_shown_after e e' shown : agrees e shown → agrees e' (shown_after e e' shown).
Proof.
  intros Ha id. unfold shown_after. specialize (Ha id). destruct (decide _) as [Heq|Hne]; [by rewrite <- Heq|].
  destruct (etcd_kvs e' !! _) as [kv|]; [|done]. intros n ->. done.
Qed.

Record tracks (w : RegWorld) : Prop := {
  tk_prefix : nodePrefix (rw_reg w) = p;
  tk_own : dr_nodeID (rw_reg w) = own;
  tk_view id : id ≠ own → valid_id id →
    foldl (node_after id) (dr_nodes (rw_reg w) !! id) (rw_events w) = rw_shown w id;
  tk_agrees : rw_missed w = false → agrees (rw_etcd w) (rw_shown w);
  tk_valid id : is_Some (dr_nodes (rw_reg w) !! id) → id = own ∨ valid_id id;
}.

Lemma handle_valid ev r id :
  nodePrefix r = p → is_Some (dr_nodes (handle ev r).2 !! id) → is_Some (dr_nodes r !! id) ∨ valid_id id.
Proof.
  intros Hp. unfold handleNodeEvent. rewrite Hp. set (x := extractNodeIDFromKey p (ev_key ev)).
  destruct (String.eqb_spec x "") as [|Hx]; [by left|].
  destruct ev as [k v|k]; simpl.
  - destruct (unmarshal_node v); simpl; [by left|]. destruct (decide (id = x)) as [->|Hne].
    + right. split; [done|]. by apply (extract_spec p (ev_key (EventPut k v)) x Hx).
    + rewrite lookup_insert_ne by done. by left.
  - destruct (dr_nodes r !! x); simpl; [|by left]. intros [n' Hn]. apply lookup_delete_Some in Hn as [_ Hn]. left. by eexists.
Qed.

Lemma handle_events_shape evs r :
  nodePrefix (handle_events unmarshal_node evs r).2 = nodePrefix r ∧
  dr_nodeID (handle_events unmarshal_node evs r).2 = dr_nodeID r.
Proof.
  revert r. induction evs as [|ev evs IH]; intros r; simpl; [done|].
  destruct (handle_shape ev r) as [H1 H2]. destruct (handle ev r) as [notes r1]. simpl in *.
  destruct (IH r1) as [H3 H4]. destruct (handle_events unmarshal_node evs r1) as [notes' r2]. simpl in *. split; congruence.
Qed.

Lemma handle_events_valid evs r id :
  nodePrefix r = p → is_Some (dr_nodes (handle_events unmarshal_node evs r).2 !! id) →
  is_Some (dr_nodes r !! id) ∨ valid_id id.
Proof.
  revert r. induction evs as [|ev evs IH]; intros r Hp; simpl; [by left|].
  pose proof (handle_valid ev r id Hp) as Hv. destruct (handle_shape ev r) as [H1 H2].
  destruct (handle ev r) as [notes r1]. simpl in *. specialize (IH r1 ltac:(congruence)).
  destruct (handle_events unmarshal_node evs r1) as [notes' r2]. simpl in *. intros [?|?]%IH; [by apply Hv|by right].
Qed.

Lemma tracks_step w w' : tracks w → reg_step w w' → tracks w'.
Proof.
  intros [Hp Ho Hv Ha Hval] Hs.
  destruct Hs as [e e' evs pending r shown missed _ Hch|e e' evs watch pending r shown missed _ Hch Hw
    |e r shown missed|e watch evs pending r shown missed|e watch pending err r shown missed
    |e pending r shown missed|e watch pending r r' shown missed (Hp' & Ho' & Hn)%own_op_part]; simpl in *; try done.
  - split; simpl; [done..| | |done].
    + intros id Hne Hid. rewrite foldl_app, Hv by done. by apply changed_node.
    + intros Hm. by apply agrees_shown_after, Ha.
  - split; simpl; [done..| |done]. intros [Hm Hevs]%orb_false_iff. destruct evs; [|done].
    intros id. specialize (Ha Hm id). by rewrite <- (changed_nothing e e' id Hch).
  - destruct (handle_events_shape evs r) as [Hp' Ho']. split; simpl; [congruence..| |done|].
    + intros id Hne Hid. rewrite (handle_events_node evs r id Hp Hid), <- foldl_app. by apply Hv.
    + intros id [Hid|?]%handle_events_valid; [by apply Hval|by right|done].
  - split; simpl; [congruence..| |done|].
    + intros id Hne Hid. rewrite Hn by congruence. by apply Hv.
    + intros id Hid. destruct (decide (id = own)) as [->|Hne]; [by left|]. apply Hval. by rewrite <- Hn by congruence.
Qed.

Lemma tracks_steps w w' : tracks w → rtc reg_step w w' → tracks w'.
Proof. intros Hw. induction 1; eauto using tracks_step. Qed.

(** Once the watch has ended and its events are handled, no node but its own changes
    in the cache, whatever happens: the watch is not renewed. *)
Lemma ended_watch_blind w w' id :
  rtc reg_step w w' → rw_watch w = WatchEnded → rw_events w = [] → id ≠ dr_nodeID (rw_reg w) →
  dr_nodes (rw_reg w') !! id = dr_nodes (rw_reg w) !! id.
Proof.
  induction 1 as [|w w1 w' Hs _ IH]; [done|]. intros Hw Hev Hid.
  assert (rw_watch w1 = WatchEnded ∧ rw_events w1 = [] ∧ dr_nodeID (rw_reg w1) = dr_nodeID (rw_reg w) ∧
    dr_nodes (rw_reg w1) !! id = dr_nodes (rw_reg w) !! id) as (H1 & H2 & H3 & <-).
  { destruct Hs as [| | |e watch evs pending r shown missed| | |e watch pending r r' shown missed (_ & ? & Hn)%own_op_part];
      simpl in *; try done.
    - apply app_nil in Hev as [-> ->]. done.
    - split_and!; auto. }
  apply IH; [done..|]. by rewrite H3.
Qed.

(** *** The cache filled from the store *)

Lemma sync_other kvs nodes id :
  valid_id id → (p +:+ id) ∉ kvs.*1 → sync_nodes unmarshal_node p kvs nodes !! id = nodes !! id.
Proof.
  intros Hid. revert nodes. induction kvs as [|[k kv] kvs IH]; intros nodes Hn; [done|]. csimpl in Hn.
  apply not_elem_of_cons in Hn as [Hk Hn]. simpl. destruct (String.eqb_spec (extractNodeIDFromKey p k) "") as [|Hx]; [by apply IH|].
  destruct (unmarshal_node _); [by apply IH|]. rewrite IH by done. apply lookup_insert_ne.
  intros Heq. apply (extract_spec p k id) in Heq as [? _]; [done|apply Hid].
Qed.

Lemma sync_node kvs nodes id kv n :
  valid_id id → NoDup kvs.*1 → (p +:+ id, kv) ∈ kvs → unmarshal_node (key_Value kv) = inr n →
  sync_nodes unmarshal_node p kvs nodes !! id = Some n.
Proof.
  intros Hid. revert nodes. induction kvs as [|[k kv'] kvs IH]; intros nodes Hnd Hin Hu; [set_solver|]. csimpl in Hnd.
  apply NoDup_cons in Hnd as [Hn Hnd]. simpl. apply elem_of_cons in Hin as [[= <- <-]|Hin].
  - rewrite (extract_key p id Hid), (proj2 (String.eqb_neq id "")), Hu by apply Hid.
    rewrite sync_other by done. apply lookup_insert_eq.
  - destruct (String.eqb _ _); [by apply IH|]. destruct (unmarshal_node (key_Value kv')); by apply IH.
Qed.

Lemma sync_unreadable kvs nodes id kv err :
  valid_id id → NoDup kvs.*1 → (p +:+ id, kv) ∈ kvs → unmarshal_node (key_Value kv) = inl err →
  sync_nodes unmarshal_node p kvs nodes !! id = nodes !! id.
Proof.
  intros Hid. revert nodes. induction kvs as [|[k kv'] kvs IH]; intros nodes Hnd Hin Hu; [set_solver|]. csimpl in Hnd.
  apply NoDup_cons in Hnd as [Hn Hnd]. simpl. apply elem_of_cons in Hin as [[= <- <-]|Hin].
  - rewrite (extract_key p id Hid), (proj2 (String.eqb_neq id "")), Hu by apply Hid. by apply sync_other.
  - destruct (String.eqb_spec (extractNodeIDFromKey p k) "") as [|Hx]; [by apply IH|].
    destruct (unmarshal_node (key_Value kv')); [by apply IH|]. rewrite IH by done. apply lookup_insert_ne.
    intros Heq. apply (extract_spec p k id) in Heq as [-> _]; [|apply Hid].
    apply Hn. apply list_elem_of_fmap. by exists (p +:+ id, kv).
Qed.

Lemma sync_stored e kvs nodes id :
  valid_id id → kvs ≡ₚ etcd_range p e → nodes !! id = None →
  sync_nodes unmarshal_node p kvs nodes !! id = stored e id.
Proof.
  intros Hid Hkvs Hnone. unfold stored.
  assert (NoDup kvs.*1) as Hnd by (rewrite Hkvs; apply range_nodup).
  destruct (etcd_kvs e !! (p +:+ id)) as [kv|] eqn:Hk; simpl.
  - assert ((p +:+ id, kv) ∈ kvs) as Hin.
    { rewrite Hkvs. apply elem_of_range. split; [done|apply prefix_app]. }
    destruct (unmarshal_node (key_Value kv)) as [err|n] eqn:Hn; [|by eapply sync_node].
    rewrite <- Hnone. by eapply sync_unreadable.
  - rewrite sync_other; [done..|]. intros ([k kv] & Hk' & Hin)%list_elem_of_fmap. simpl in Hk'. subst k.
    rewrite Hkvs in Hin. apply elem_of_range in Hin as [? _]. congruence.
Qed.

Lemma sync_valid kvs nodes id :
  is_Some (sync_nodes unmarshal_node p kvs nodes !! id) → is_Some (nodes !! id) ∨ valid_id id.
Proof.
  revert nodes. induction kvs as [|[k kv] kvs IH]; intros nodes; simpl; [by left|].
  destruct (String.eqb_spec (extractNodeIDFromKey p k) "") as [|Hx]; [by apply IH|].
  destruct (unmarshal_node _); [by apply IH|]. intros [Hid|?]%IH; [|by right].
  destruct (decide (id = extractNodeIDFromKey p k)) as [->|Hne].
  - right. split; [done|]. by apply (extract_spec p k _ Hx).
  - rewrite lookup_insert_ne in Hid by done. by left.
Qed.

End View.

(** What [Start] leaves in the cache of a new registry: its own node, and what the
    store holds. *)
Lemma start_tracks {E} `{EtcdLaws E} unmarshal_node marshal_node lease now config r0 (e0 e1 e : E) q kvs r1 :
  NewDistributedAgentRegistry None (inr lease) now config = inr r0 →
  Registry_Start marshal_node unmarshal_node q (inr kvs) r0 e0 = (None, r1, e1) →
  kvs ≡ₚ etcd_range (nodePrefix r0) e →
  tracks unmarshal_node (nodePrefix r0) (dr_nodeID r0)
    (mkRegWorld e NotWatching [] r1 (stored unmarshal_node (nodePrefix r0) e) false).
Proof.
  intros Hnew Hstart Hkvs. unfold Registry_Start in Hstart.
  pose proof (registerNode_own marshal_node q r0 e0) as Hown.
  destruct (registerNode marshal_node q r0 e0) as [[[err|] r] e2]; [done|]. simpl in Hown.
  destruct Hown as (Hp & Hid & Hn). simpl in Hstart. simplify_eq.
  assert (∀ id, id ≠ dr_nodeID r0 → dr_nodes r !! id = None) as Hnone.
  { intros id Hne. rewrite Hn by done. unfold NewDistributedAgentRegistry in Hnew. by simplify_eq. }
  rewrite Hp. split; simpl; [done|done| | |].
  - intros id Hne Hv. by apply sync_stored, Hnone.
  - intros _ id. unfold stored. destruct (etcd_kvs e !! _) as [kv|]; simpl; [|done]. by intros n ->.
  - intros id [[n Hid']|?]%sync_valid; [|by right]. left. apply dec_stable. intros Hne. by rewrite (Hnone id Hne) in Hid'.
Qed.

