(* ===== verification/Actor.v ===== *)
(** * Actors and supervisors (pkg/actor)

    actor.go, system.go, supervisor.go and message.go.  A process is an object
    with a mailbox, shared by the system's map, the supervisor's maps and its own
    goroutine: processes live in a store and are referred to by number.  The
    actors themselves are the program's: an actor is a name, and what it does
    with a message is left open.  A critical section of a mutex is one step;
    a send and a stop release theirs half way and are two.  [Process.Stop] waits for the goroutine of the process, which has then
    returned. *)

From Stdlib Require Import Sorted.
From stdpp Require Import base gmap strings list fin_maps relations.
From S2P Require Import Prelude.

Open Scope Z_scope.

(** ** Messages (message.go) *)

Definition MessageTypeSupervise : string := "supervise".
Definition MessageTypeFailure : string := "failure".
Definition MessageTypeStart : string := "start".
Definition MessageTypeStop : string := "stop".
Definition MessageTypeRestart : string := "restart".
Definition MessageTypeResponse : string := "response".
Definition MessageTypeError : string := "error".

(** An actor object of the program. *)
Definition ActorRef : Type := N.

Record ActorConfig := mkActorConfig { ac_ID : string; ac_Actor : ActorRef }.

Inductive Payload :=
  | PSupervise (child : string)
  | PAddress (a : string)
  | PConfig (c : ActorConfig)
  | PError (text details : string)
  | PText (s : string)
  | POther (n : N).

(** [msg_ReplyTo]: whether the message carries a channel for the answer. *)
Record ActorMessage := mkMessage {
  msg_Type : string;
  msg_Payload : Payload;
  msg_ReplyTo : bool;
}.

(** ** Processes and the system (actor.go, system.go) *)

Record Process := mkProcess {
  pr_actor : ActorRef;
  pr_address : string;
  pr_mailbox : list ActorMessage;
  pr_stopped : bool;
  pr_done : bool;        (** the context of the process is cancelled *)
  pr_running : bool;     (** its goroutine has not returned *)
}.

Definition mailbox_size : nat := 100.

(** A send that has found its process, and whether it is past the check that the
    process is not stopped. *)
Record Sending := mkSending { sd_pid : N; sd_msg : ActorMessage; sd_checked : bool }.

Record ActorSystem := mkSystem {
  sys_actors : gmap string N;
  sys_procs : gmap N Process;
  sys_next : N;                        (** the number of the next process *)
  sys_handled : list (N * ActorMessage);     (** messages given to actors, oldest first *)
  sys_accepted : list (N * ActorMessage);    (** messages a send accepted, oldest first *)
  sys_sends : list Sending;            (** sends under way *)
}.

Definition NewSystem : ActorSystem := mkSystem ∅ ∅ 0 [] [] [].

Definition put_proc (pid : N) (p : Process) (s : ActorSystem) : ActorSystem :=
  mkSystem (sys_actors s) (<[pid := p]> (sys_procs s)) (sys_next s) (sys_handled s) (sys_accepted s) (sys_sends s).

Definition NewProcess (actor : ActorRef) (address : string) : Process :=
  mkProcess actor address [] false false false.

(** [Spawn]: the process is registered and its goroutine started. *)
Definition Spawn (actor : ActorRef) (id : string) (s : ActorSystem) : result string * ActorSystem :=
  match sys_actors s !! id with
  | Some _ => (inl (EText ("actor with address " +:+ id +:+ " already exists")), s)
  | None =>
      let p := NewProcess actor id in
      (inr id,
       mkSystem (<[id := sys_next s]> (sys_actors s))
         (<[sys_next s := mkProcess (pr_actor p) (pr_address p) (pr_mailbox p) false false true]> (sys_procs s))
         (sys_next s + 1)%N (sys_handled s) (sys_accepted s) (sys_sends s))
  end.

(** What the select of [Process.Send] may do now: [None] while it would block.
    When both of its cases are ready, either is taken. *)
Inductive SendResult := Sent (p : Process) | Refused.
Definition send_select (msg : ActorMessage) (prefer_done : bool) (p : Process) : option SendResult :=
  let room := (length (pr_mailbox p) <? mailbox_size)%nat in
  if pr_done p && (prefer_done || negb room) then Some Refused
  else if room then
    Some (Sent (mkProcess (pr_actor p) (pr_address p) (pr_mailbox p ++ [msg]) (pr_stopped p) (pr_done p) (pr_running p)))
  else None.

(** [Process.Send]: the check of the flag, then the select; the lock is released in
    between.  This is the call when nothing comes between the two; the steps of
    [sys_step] interleave them. *)
Definition Process_Send (msg : ActorMessage) (prefer_done : bool) (p : Process) : option SendResult :=
  if pr_stopped p then Some Refused else send_select msg prefer_done p.

(** The end of a send to a process. *)
Definition finish_send (pid : N) (msg : ActorMessage) (r : SendResult) (s : ActorSystem) : ActorSystem :=
  match r with
  | Refused => s
  | Sent p => mkSystem (sys_actors s) (<[pid := p]> (sys_procs s)) (sys_next s) (sys_handled s)
                (sys_accepted s ++ [(pid, msg)]) (sys_sends s)
  end.

Definition System_Send (to : string) (msg : ActorMessage) (prefer_done : bool) (s : ActorSystem)
    : option (option error * ActorSystem) :=
  match sys_actors s !! to with
  | None => Some (Some (EText ("actor with address " +:+ to +:+ " not found")), s)
  | Some pid =>
      p ← sys_procs s !! pid;
      match Process_Send msg prefer_done p with
      | None => None
      | Some r =>
          Some (match r with
                | Refused => Some (EText ("actor with address " +:+ to +:+ " is stopped"))
                | Sent _ => None
                end, finish_send pid msg r s)
      end
  end.

(** A turn of [run]: the next message, or the end of the goroutine.  A panic of
    the actor is recovered and logged, the loop goes on. *)
Definition run_message (pid : N) (s : ActorSystem) : option ActorSystem :=
  p ← sys_procs s !! pid;
  match pr_running p, pr_mailbox p with
  | true, msg :: rest =>
      Some (mkSystem (sys_actors s)
              (<[pid := mkProcess (pr_actor p) (pr_address p) rest (pr_stopped p) (pr_done p) true]> (sys_procs s))
              (sys_next s) (sys_handled s ++ [(pid, msg)]) (sys_accepted s) (sys_sends s))
  | _, _ => None
  end.

Definition run_exit (pid : N) (s : ActorSystem) : option ActorSystem :=
  p ← sys_procs s !! pid;
  if pr_running p && pr_done p then
    Some (put_proc pid (mkProcess (pr_actor p) (pr_address p) (pr_mailbox p) (pr_stopped p) (pr_done p) false) s)
  else None.

(** The parts of [Process.Stop]: the flag is set under the lock, then the context
    is cancelled; it then waits for [run_exit]. *)
Definition stop_mark (p : Process) : Process :=
  mkProcess (pr_actor p) (pr_address p) (pr_mailbox p) true (pr_done p) (pr_running p).
Definition stop_cancel (p : Process) : Process :=
  mkProcess (pr_actor p) (pr_address p) (pr_mailbox p) (pr_stopped p) true (pr_running p).

(** [Process.Stop] as a whole: a process that is not yet stopped is marked, its
    context cancelled, and its goroutine has returned. *)
Definition Process_Stop (p : Process) : Process :=
  if pr_stopped p then p
  else mkProcess (pr_actor p) (pr_address p) (pr_mailbox p) true true false.

Definition stop_pid (pid : N) (s : ActorSystem) : ActorSystem :=
  match sys_procs s !! pid with
  | None => s
  | Some p => put_proc pid (Process_Stop p) s
  end.

(** [System.Stop]: the map is emptied, then every process is stopped. *)
Definition System_Stop (s : ActorSystem) : ActorSystem :=
  foldr (λ x acc, stop_pid x.2 acc)
    (mkSystem ∅ (sys_procs s) (sys_next s) (sys_handled s) (sys_accepted s) (sys_sends s))
    (map_to_list (sys_actors s)).

Definition GetActor (address : string) (s : ActorSystem) : option N := sys_actors s !! address.
Definition ActorCount (s : ActorSystem) : nat := size (sys_actors s).
Definition Addresses (s : ActorSystem) : list string := (map_to_list (sys_actors s)).*1.

(** ** Supervisors (supervisor.go) *)

Inductive SupervisorStrategy := OneForOne | OneForAll | RestForOne | SimpleOneForOne.

Record Supervisor := mkSupervisor {
  sup_children : gmap string ActorRef;
  sup_childConfigs : gmap string ActorConfig;
  sup_childProcs : gmap string N;
  sup_strategy : SupervisorStrategy;
  sup_restartLimit : Z;
  sup_restartCount : Z;
  sup_restartWindow : Duration;
  sup_lastRestart : Time;
}.

Definition NewSupervisor (strategy : SupervisorStrategy) (maxRestarts : Z) (window : Duration) (now : Time) : Supervisor :=
  mkSupervisor ∅ ∅ ∅ strategy maxRestarts 0 window now.

Definition set_children (ch : gmap string ActorRef) (cfg : gmap string ActorConfig) (procs : gmap string N)
    (s : Supervisor) : Supervisor :=
  mkSupervisor ch cfg procs (sup_strategy s) (sup_restartLimit s) (sup_restartCount s) (sup_restartWindow s)
    (sup_lastRestart s).

(** [SpawnChild] in a system that is not nil. *)
Definition SpawnChild (config : ActorConfig) (st : Supervisor * ActorSystem)
    : result string * (Supervisor * ActorSystem) :=
  let '(s, sys) := st in
  match Spawn (ac_Actor config) (ac_ID config) sys with
  | (inl err, sys') => (inl err, (s, sys'))
  | (inr addr, sys') =>
      let procs := match GetActor addr sys' with
                   | Some pid => <[addr := pid]> (sup_childProcs s)
                   | None => sup_childProcs s
                   end in
      (inr addr,
       (set_children (<[addr := ac_Actor config]> (sup_children s)) (<[addr := config]> (sup_childConfigs s)) procs s, sys'))
  end.

Definition StopChild (addr : string) (st : Supervisor * ActorSystem) : Supervisor * ActorSystem :=
  let '(s, sys) := st in
  let s' := set_children (delete addr (sup_children s)) (delete addr (sup_childConfigs s)) (delete addr (sup_childProcs s)) s in
  (s', match sup_childProcs s !! addr with Some pid => stop_pid pid sys | None => sys end).

Definition AddChild (config : ActorConfig) (s : Supervisor) : string * Supervisor :=
  (ac_ID config,
   set_children (<[ac_ID config := ac_Actor config]> (sup_children s))
     (<[ac_ID config := config]> (sup_childConfigs s)) (sup_childProcs s) s).

Definition RemoveChild (addr : string) (s : Supervisor) : Supervisor :=
  set_children (delete addr (sup_children s)) (delete addr (sup_childConfigs s)) (delete addr (sup_childProcs s)) s.

Definition GetChild (addr : string) (s : Supervisor) : option ActorRef := sup_children s !! addr.
Definition ChildCount (s : Supervisor) : nat := size (sup_children s).

(** [restartChild] in a system that is not nil. *)
Definition restartChild (addr : string) (st : Supervisor * ActorSystem) : Supervisor * ActorSystem :=
  let '(s, sys) := st in
  match sup_childConfigs s !! addr with
  | None => (s, sys)
  | Some config =>
      let sys := match sup_childProcs s !! addr with Some pid => stop_pid pid sys | None => sys end in
      let sys := mkSystem (delete addr (sys_actors sys)) (sys_procs sys) (sys_next sys) (sys_handled sys) (sys_accepted sys) (sys_sends sys) in
      match Spawn (ac_Actor config) (ac_ID config) sys with
      | (inl _, sys') => (s, sys')
      | (inr a, sys') =>
          (match GetActor a sys' with
           | Some pid => set_children (sup_children s) (sup_childConfigs s) (<[a := pid]> (sup_childProcs s)) s
           | None => s
           end, sys')
      end
  end.

Arguments restartChild : simpl never.

(** The restart limit of [handleFailureMessage]: whether the restart goes ahead. *)
Definition count_restart (now : Time) (s : Supervisor) : bool * Supervisor :=
  let set c last := mkSupervisor (sup_children s) (sup_childConfigs s) (sup_childProcs s) (sup_strategy s)
                      (sup_restartLimit s) c (sup_restartWindow s) last in
  if now - sup_lastRestart s <=? sup_restartWindow s then
    (negb (sup_restartLimit s <? sup_restartCount s + 1), set (sup_restartCount s + 1) (sup_lastRestart s))
  else (true, set 1 now).

Definition handleFailureMessage (now : Time) (msg : ActorMessage) (st : Supervisor * ActorSystem)
    : Supervisor * ActorSystem :=
  let '(go, s) := count_restart now st.1 in
  if go then match msg_Payload msg with PAddress a => restartChild a (s, st.2) | _ => (s, st.2) end
  else (s, st.2).

(** [Supervisor.Receive]: the new state, and the answer, sent if the message has
    a channel for it. *)
Definition Supervisor_Receive (now : Time) (msg : ActorMessage) (st : Supervisor * ActorSystem)
    : option ActorMessage * (Supervisor * ActorSystem) :=
  let reply m := if msg_ReplyTo msg then Some m else None in
  if String.eqb (msg_Type msg) MessageTypeSupervise then
    match msg_Payload msg with
    | PSupervise child =>
        match sup_childConfigs st.1 !! child with
        | Some config =>
            (None, (set_children (<[child := ac_Actor config]> (sup_children st.1)) (sup_childConfigs st.1)
                      (sup_childProcs st.1) st.1, st.2))
        | None => (None, st)
        end
    | _ => (None, st)
    end
  else if String.eqb (msg_Type msg) MessageTypeFailure then (None, handleFailureMessage now msg st)
  else if String.eqb (msg_Type msg) MessageTypeStart then
    match msg_Payload msg with
    | PConfig config =>
        let '(r, st') := SpawnChild config st in
        (reply match r with
               | inl err => mkMessage MessageTypeError (PError (Error err) (ac_ID config)) false
               | inr addr => mkMessage MessageTypeResponse (PAddress addr) false
               end, st')
    | _ => (None, st)
    end
  else if String.eqb (msg_Type msg) MessageTypeStop then
    match msg_Payload msg with
    | PAddress a => (reply (mkMessage MessageTypeResponse (PText "stopped") false), StopChild a st)
    | _ => (None, st)
    end
  else if String.eqb (msg_Type msg) MessageTypeRestart then
    match msg_Payload msg with
    | PAddress a => (reply (mkMessage MessageTypeResponse (PText "restarted") false), restartChild a st)
    | _ => (None, st)
    end
  else (reply (mkMessage MessageTypeError (PError "unknown message type" (msg_Type msg)) false), st).

(** ** Delivery

    The steps of a system, as its clients and its goroutines make them. *)

Definition set_sends (l : list Sending) (s : ActorSystem) : ActorSystem :=
  mkSystem (sys_actors s) (sys_procs s) (sys_next s) (sys_handled s) (sys_accepted s) l.

Inductive sys_step : ActorSystem → ActorSystem → Prop :=
  | sys_spawn actor id s : sys_step s (Spawn actor id s).2
  | sys_send to msg pid s :        (** [System.Send] finds the process *)
      sys_actors s !! to = Some pid → sys_step s (set_sends (sys_sends s ++ [mkSending pid msg false]) s)
  | sys_send_check l1 pid msg l2 p s :       (** [Process.Send] looks at the flag *)
      sys_sends s = l1 ++ mkSending pid msg false :: l2 → sys_procs s !! pid = Some p →
      sys_step s (set_sends (l1 ++ (if pr_stopped p then [] else [mkSending pid msg true]) ++ l2) s)
  | sys_send_select prefer l1 pid msg l2 p r s :     (** and its select is ready *)
      sys_sends s = l1 ++ mkSending pid msg true :: l2 → sys_procs s !! pid = Some p →
      send_select msg prefer p = Some r →
      sys_step s (finish_send pid msg r (set_sends (l1 ++ l2) s))
  | sys_message pid s s' : run_message pid s = Some s' → sys_step s s'
  | sys_exit pid s s' : run_exit pid s = Some s' → sys_step s s'
  | sys_stop_mark pid p s : sys_procs s !! pid = Some p → sys_step s (put_proc pid (stop_mark p) s)
  | sys_stop_cancel pid p s :
      sys_procs s !! pid = Some p → pr_stopped p = true → sys_step s (put_proc pid (stop_cancel p) s)
  | sys_unregister actors s : actors ⊆ sys_actors s →
      sys_step s (mkSystem actors (sys_procs s) (sys_next s) (sys_handled s) (sys_accepted s) (sys_sends s)).

(** The messages of one process in a log. *)
Definition of_process (pid : N) (l : list (N * ActorMessage)) : list ActorMessage :=
  (filter (λ x, x.1 = pid) l).*2.

Lemma of_process_snoc pid l pid' msg :
  of_process pid (l ++ [(pid', msg)]) = of_process pid l ++ (if decide (pid' = pid) then [msg] else []).
Proof. unfold of_process. rewrite filter_app, fmap_app. f_equal. rewrite filter_cons. simpl. by case_decide. Qed.

(** What holds of a process and its share of the logs. *)
Record proc_ok (s : ActorSystem) (pid : N) (p : Process) : Prop := {
  po_fifo : of_process pid (sys_accepted s) = of_process pid (sys_handled s) ++ pr_mailbox p;
  po_bound : (length (pr_mailbox p) ≤ mailbox_size)%nat;
  po_stopped : pr_done p = true → pr_stopped p = true;
  po_running : pr_running p = false → pr_done p = true;
}.

Record sys_inv (s : ActorSystem) : Prop := {
  sy_procs pid p : sys_procs s !! pid = Some p → proc_ok s pid p;
  sy_fresh pid : (sys_next s ≤ pid)%N → sys_procs s !! pid = None;
  sy_unknown pid : sys_procs s !! pid = None → of_process pid (sys_accepted s) = [] ∧ of_process pid (sys_handled s) = [];
  sy_actors a pid : sys_actors s !! a = Some pid → ∃ p, sys_procs s !! pid = Some p ∧ pr_address p = a;
}.

Lemma sys_inv_new : sys_inv NewSystem.
Proof. split; simpl; try done. Qed.

(** Replacing a process by one with the same mailbox keeps the invariant. *)
Lemma sys_inv_put pid p p' s :
  sys_inv s → sys_procs s !! pid = Some p → pr_mailbox p' = pr_mailbox p → pr_address p' = pr_address p →
  (pr_done p' = true → pr_stopped p' = true) → (pr_running p' = false → pr_done p' = true) →
  sys_inv (put_proc pid p' s).
Proof.
  intros [Hp Hf Hu Ha] Hpid Hm Haddr Hs Hr. split; simpl.
  - intros q x Hx. apply lookup_insert_Some in Hx as [[<- <-]|[_ Hx]].
    + destruct (Hp pid p Hpid) as [H1 H2 _ _]. split; simpl; rewrite ?Hm; done.
    + destruct (Hp q x Hx). by split.
  - intros q Hq. rewrite lookup_insert_ne; [by apply Hf|]. intros ->. rewrite Hf in Hpid; done.
  - intros q Hq. apply lookup_insert_None in Hq as [Hq _]. by apply Hu.
  - intros a q Hq. destruct (Ha a q Hq) as (x & Hx & Hxa).
    destruct (decide (pid = q)) as [->|Hne]; [|by exists x; rewrite lookup_insert_ne].
    exists p'. rewrite lookup_insert_eq. split; [done|]. rewrite Haddr. congruence.
Qed.

Lemma sys_inv_unregister actors s :
  sys_inv s → actors ⊆ sys_actors s →
  sys_inv (mkSystem actors (sys_procs s) (sys_next s) (sys_handled s) (sys_accepted s) (sys_sends s)).
Proof.
  intros [Hp Hf Hu Ha] Hsub. split; simpl; try done.
  - intros pid p Hpid. destruct (Hp pid p Hpid). by split.
  - intros a pid Hpid. apply Ha. by eapply lookup_weaken.
Qed.

Lemma sys_inv_spawn actor id s : sys_inv s → sys_inv (Spawn actor id s).2.
Proof.
  intros [Hp Hf Hu Ha]. unfold Spawn. destruct (sys_actors s !! id) eqn:Hid; [by split|]. simpl.
  assert (sys_procs s !! sys_next s = None) as Hnew by (apply Hf; lia).
  destruct (Hu _ Hnew) as [Hacc Hhan]. split; simpl.
  - intros q x Hx. apply lookup_insert_Some in Hx as [[<- <-]|[_ Hx]].
    + split; simpl; [by rewrite Hacc, Hhan|lia|done|done].
    + destruct (Hp q x Hx). by split.
  - intros q Hq. rewrite lookup_insert_ne by lia. apply Hf. lia.
  - intros q Hq. apply lookup_insert_None in Hq as [Hq _]. by apply Hu.
  - intros a q Hq. apply lookup_insert_Some in Hq as [[<- <-]|[Hne Hq]].
    + by eexists; rewrite lookup_insert_eq.
    + destruct (Ha a q Hq) as (x & Hx & Hxa). exists x. rewrite lookup_insert_ne; [done|]. congruence.
Qed.

(** A step that moves messages of one process. *)
Lemma sys_inv_mail pid p p' s acc han sends :
  sys_inv s → sys_procs s !! pid = Some p → pr_address p' = pr_address p →
  pr_stopped p' = pr_stopped p → pr_done p' = pr_done p → pr_running p' = pr_running p →
  (length (pr_mailbox p') ≤ mailbox_size)%nat →
  of_process pid acc = of_process pid han ++ pr_mailbox p' →
  (∀ q, q ≠ pid → of_process q acc = of_process q (sys_accepted s) ∧ of_process q han = of_process q (sys_handled s)) →
  sys_inv (mkSystem (sys_actors s) (<[pid := p']> (sys_procs s)) (sys_next s) han acc sends).
Proof.
  intros [Hp Hf Hu Ha] Hpid Haddr Hs Hd Hr Hlen Hfifo Hother. destruct (Hp pid p Hpid) as [_ _ P3 P4].
  split; simpl.
  - intros q x Hx. apply lookup_insert_Some in Hx as [[<- <-]|[Hne Hx]].
    + split; simpl; [done|done|rewrite Hs, Hd; done|]. intros Hrun. rewrite Hd. apply P4. congruence.
    + destruct (Hp q x Hx) as [H1 H2 H3 H4]. destruct (Hother q) as [E1 E2]; [done|].
      split; simpl; [by rewrite E1, E2|done..].
  - intros q Hq. rewrite lookup_insert_ne; [by apply Hf|]. intros ->. rewrite Hf in Hpid; done.
  - intros q Hq. apply lookup_insert_None in Hq as [Hq Hne]. destruct (Hother q) as [-> ->]; [done|]. by apply Hu.
  - intros a q Hq. destruct (Ha a q Hq) as (x & Hx & Hxa).
    destruct (decide (pid = q)) as [->|Hne]; [|by exists x; rewrite lookup_insert_ne].
    exists p'. rewrite lookup_insert_eq. split; [done|]. rewrite Haddr. congruence.
Qed.

Lemma sys_inv_sends l s : sys_inv s → sys_inv (set_sends l s).
Proof.
  intros [Hp Hf Hu Ha]. split; simpl; try done. intros pid p Hpid. destruct (Hp pid p Hpid). by split.
Qed.

Lemma sys_inv_finish pid msg prefer p r s :
  sys_inv s → sys_procs s !! pid = Some p → send_select msg prefer p = Some r → sys_inv (finish_send pid msg r s).
Proof.
  intros Hinv Hpid Hsel. destruct (sy_procs _ Hinv pid p Hpid) as [P1 P2 P3 P4].
  unfold send_select in Hsel. repeat (case_match; simplify_eq/=); try done.
  match goal with Hl : (_ <? _)%nat = true |- _ => apply Nat.ltb_lt in Hl end.
  eapply sys_inv_mail; try done; simpl.
  - rewrite length_app. simpl. lia.
  - rewrite of_process_snoc, decide_True, P1 by done. by rewrite app_assoc.
  - intros q Hq. rewrite of_process_snoc, decide_False by done. by rewrite app_nil_r.
Qed.

Lemma sys_inv_step s s' : sys_inv s → sys_step s s' → sys_inv s'.
Proof.
  intros Hinv Hs. destruct Hs as [actor id s|to msg pid s _|l1 pid msg l2 p s _ _|prefer l1 pid msg l2 p r s _ Hpid Hsel
    |pid s s' Hm|pid s s' He|pid p s Hpid|pid p s Hpid Hst|actors s Hsub].
  - by apply sys_inv_spawn.
  - by apply sys_inv_sends.
  - by apply sys_inv_sends.
  - eapply sys_inv_finish; [by apply sys_inv_sends|exact Hpid|exact Hsel].
  - unfold run_message in Hm. destruct (sys_procs s !! pid) as [p|] eqn:Hpid; simplify_eq/=.
    destruct (sy_procs _ Hinv pid p Hpid) as [P1 P2 P3 P4].
    destruct (pr_running p) eqn:Hrun, (pr_mailbox p) as [|msg rest] eqn:Hmail; simplify_eq.
    eapply sys_inv_mail; try done; simpl.
    + simpl in P2. lia.
    + rewrite of_process_snoc, decide_True by done. by rewrite <-app_assoc.
    + intros q Hq. rewrite of_process_snoc, decide_False by done. by rewrite app_nil_r.
  - unfold run_exit in He. destruct (sys_procs s !! pid) as [p|] eqn:Hpid; simplify_eq/=.
    destruct (sy_procs _ Hinv pid p Hpid) as [P1 P2 P3 P4].
    destruct (pr_running p && pr_done p) eqn:Hrd; simplify_eq. bool_to_prop.
    eapply sys_inv_put; try done.
  - destruct (sy_procs _ Hinv pid p Hpid) as [P1 P2 P3 P4]. eapply sys_inv_put; try done.
  - destruct (sy_procs _ Hinv pid p Hpid) as [P1 P2 P3 P4]. eapply sys_inv_put; try done.
  - by apply sys_inv_unregister.
Qed.

Lemma sys_reachable s : rtc sys_step NewSystem s → sys_inv s.
Proof.
  intros Hr. assert (∀ s0, rtc sys_step s0 s → sys_inv s0 → sys_inv s) as Hgo.
  { clear Hr. induction 1 as [|x y z Hs _ IH]; [done|]. intros Hx. apply IH. by eapply sys_inv_step. }
  eapply Hgo; [exact Hr|apply sys_inv_new].
Qed.

(** The messages of sends to a process that are past its check. *)
Definition passed (pid : N) (l : list Sending) : list ActorMessage :=
  sd_msg <$> filter (λ x, sd_pid x = pid ∧ sd_checked x = true) l.

Lemma passed_app pid l1 l2 : passed pid (l1 ++ l2) = passed pid l1 ++ passed pid l2.
Proof. unfold passed. by rewrite filter_app, fmap_app. Qed.

Lemma passed_cons pid x l :
  passed pid (x :: l) = (if decide (sd_pid x = pid ∧ sd_checked x = true) then [sd_msg x] else []) ++ passed pid l.
Proof. unfold passed. rewrite filter_cons. by case_decide. Qed.

(** What a stopped process still gets, in one step: a message of a send that is
    past the check, and handles, if its goroutine runs. *)
Lemma stopped_step pid p s s' :
  sys_inv s → sys_step s s' → sys_procs s !! pid = Some p → pr_stopped p = true →
  (∃ p', sys_procs s' !! pid = Some p' ∧ pr_stopped p' = true ∧ (pr_running p = false → pr_running p' = false)) ∧
  (pr_running p = false → of_process pid (sys_handled s') = of_process pid (sys_handled s)) ∧
  ∃ extra, of_process pid (sys_accepted s') = of_process pid (sys_accepted s) ++ extra ∧
    extra ++ passed pid (sys_sends s') ⊆+ passed pid (sys_sends s).
Proof.
  intros Hinv Hs Hp Hst.
  assert (∀ s1, sys_procs s1 = sys_procs s → sys_handled s1 = sys_handled s → sys_accepted s1 = sys_accepted s →
    passed pid (sys_sends s1) ⊆+ passed pid (sys_sends s) →
    (∃ p', sys_procs s1 !! pid = Some p' ∧ pr_stopped p' = true ∧ (pr_running p = false → pr_running p' = false)) ∧
    (pr_running p = false → of_process pid (sys_handled s1) = of_process pid (sys_handled s)) ∧
    ∃ extra, of_process pid (sys_accepted s1) = of_process pid (sys_accepted s) ++ extra ∧
      extra ++ passed pid (sys_sends s1) ⊆+ passed pid (sys_sends s)) as Hquiet.
  { intros s1 E1 E2 E3 Hsub. rewrite E1, E2, E3. split; [eauto|]. split; [done|]. exists []. by rewrite app_nil_r. }
  assert (∀ pid' p' p'', sys_procs s !! pid' = Some p' → (pr_stopped p' = true → pr_stopped p'' = true) →
    (pr_running p' = false → pr_running p'' = false) →
    ∃ x, <[pid' := p'']> (sys_procs s) !! pid = Some x ∧ pr_stopped x = true ∧ (pr_running p = false → pr_running x = false))
    as Hproc.
  { intros pid' p' p'' Hp' H1 H2. destruct (decide (pid' = pid)) as [->|Hne].
    - assert (p' = p) as -> by congruence. exists p''. rewrite lookup_insert_eq. auto.
    - exists p. rewrite lookup_insert_ne by done. auto. }
  destruct Hs as [actor id s|to msg pid' s _|l1 pid' msg l2 p' s Hl Hp'|prefer l1 pid' msg l2 p' r s Hl Hp' Hsel
    |pid' s s' Hm|pid' s s' He|pid' p' s Hp'|pid' p' s Hp' _|actors s Hsub].
  - unfold Spawn. case_match; simpl; [by apply Hquiet|].
    split; [exists p; rewrite lookup_insert_ne; [done|intros <-; by rewrite (sy_fresh _ Hinv) in Hp by lia]|].
    split; [done|]. exists []. by rewrite app_nil_r.
  - apply Hquiet; try done. simpl. rewrite passed_app, passed_cons, decide_False by (by intros [_ ?]).
    by rewrite app_nil_r.
  - apply Hquiet; try done. simpl. rewrite Hl, !passed_app, passed_cons, decide_False by (by intros [_ ?]). simpl.
    destruct (pr_stopped p') eqn:Hst'; [done|]. rewrite passed_cons, decide_False; [done|].
    intros [Heq _]. simpl in Heq. congruence.
  - unfold finish_send, send_select in *. simpl. repeat (case_match; simplify_eq/=).
    + apply (Hquiet (set_sends (l1 ++ l2) s)); try done. simpl. rewrite Hl, !passed_app, passed_cons.
      apply submseteq_app; [done|]. by apply submseteq_inserts_l.
    + split; [by eapply Hproc|]. split; [done|]. rewrite Hl, passed_app, of_process_snoc, passed_app, passed_cons. simpl.
      eexists. split; [reflexivity|]. case_decide as Hpid.
      * rewrite decide_True by done. apply Permutation_submseteq. by rewrite app_assoc, (Permutation_app_comm [msg]), <- app_assoc.
      * rewrite decide_False by (by intros [? _]). done.
  - unfold run_message in Hm. destruct (sys_procs s !! pid') as [p'|] eqn:Hp'; simplify_eq/=.
    destruct (pr_running p') eqn:Hrun, (pr_mailbox p') as [|msg rest]; simplify_eq. simpl.
    split; [eapply Hproc; [exact Hp'|done|congruence]|]. split.
    + intros Hr. rewrite of_process_snoc, decide_False; [by rewrite app_nil_r|]. congruence.
    + exists []. by rewrite app_nil_r.
  - unfold run_exit in He. destruct (sys_procs s !! pid') as [p'|] eqn:Hp'; simplify_eq/=.
    destruct (_ && _); simplify_eq. simpl. split; [by eapply Hproc|]. split; [done|]. exists []. by rewrite app_nil_r.
  - simpl. split; [by eapply Hproc|]. split; [done|]. exists []. by rewrite app_nil_r.
  - simpl. split; [by eapply Hproc|]. split; [done|]. exists []. by rewrite app_nil_r.
  - by apply Hquiet.
Qed.

(** C32. The mailbox of an actor is a bounded queue: the messages whose send was
    accepted are handled in the order they were accepted, each once, those still
    in the mailbox next, never more than a hundred of them.  Once a process is
    stopped, only messages of sends that were past the check of its flag by then
    are still accepted, and once its goroutine has returned nothing more is handled
    by it: a message accepted after that is lost, though its sender is told that
    it was sent. *)
Theorem actor_delivery s pid p :
  rtc sys_step NewSystem s → sys_procs s !! pid = Some p →
  of_process pid (sys_accepted s) = of_process pid (sys_handled s) ++ pr_mailbox p ∧
  (length (pr_mailbox p) ≤ mailbox_size)%nat ∧
  (pr_stopped p = true → ∀ s', rtc sys_step s s' →
     (∃ late, of_process pid (sys_accepted s') = of_process pid (sys_accepted s) ++ late ∧
        late ⊆+ passed pid (sys_sends s)) ∧
     (pr_running p = false → of_process pid (sys_handled s') = of_process pid (sys_handled s))).
Proof.
  intros Hr Hpid. pose proof (sys_reachable s Hr) as Hinv. destruct (sy_procs _ Hinv pid p Hpid) as [P1 P2 _ _].
  split; [done|]. split; [done|]. intros Hst s' Hs'.
  assert ((∃ late, of_process pid (sys_accepted s') = of_process pid (sys_accepted s) ++ late ∧
      late ++ passed pid (sys_sends s') ⊆+ passed pid (sys_sends s)) ∧
    (pr_running p = false → of_process pid (sys_handled s') = of_process pid (sys_handled s))) as [(late & H1 & H2) H3].
  { clear Hr P1 P2. revert p Hpid Hst. induction Hs' as [s|s s1 s2 Hs _ IH]; intros p Hpid Hst.
    - split; [|done]. exists []. by rewrite app_nil_r.
    - destruct (stopped_step pid p s s1 Hinv Hs Hpid Hst) as ((p1 & Hp1 & Hst1 & Hrun) & Hh & extra & Ha & Hsub).
      destruct (IH (sys_inv_step _ _ Hinv Hs) p1 Hp1 Hst1) as [(late & Ha' & Hsub') Hh']. split.
      + exists (extra ++ late). rewrite Ha', Ha, app_assoc. split; [done|].
        rewrite <- app_assoc. etrans; [|exact Hsub]. by apply submseteq_app.
      + intros Hr. rewrite Hh' by auto. by apply Hh. }
  split; [|done]. exists late. split; [done|]. etrans; [|exact H2]. by apply submseteq_inserts_r.
Qed.

(** ** Supervision *)

(** Configurations are kept under their own id, and tracked processes have the
    address they are tracked under. *)
Record sup_inv (st : Supervisor * ActorSystem) : Prop := {
  su_sys : sys_inv st.2;
  su_configs a c : sup_childConfigs st.1 !! a = Some c → ac_ID c = a;
  su_procs a pid : sup_childProcs st.1 !! a = Some pid →
    ∃ p, sys_procs st.2 !! pid = Some p ∧ pr_address p = a;
}.

(** The steps of a supervised system: messages to the supervisor, its methods,
    and whatever the clients and processes of the system do. *)
Inductive sup_step : Supervisor * ActorSystem → Supervisor * ActorSystem → Prop :=
  | sup_receive now msg st : sup_step st (Supervisor_Receive now msg st).2
  | sup_add config s sys : sup_step (s, sys) ((AddChild config s).2, sys)
  | sup_remove a s sys : sup_step (s, sys) (RemoveChild a s, sys)
  | sup_system s sys sys' : sys_step sys sys' → sup_step (s, sys) (s, sys').

(** *** Processes keep their address *)

Definition procs_kept (sys sys' : ActorSystem) : Prop :=
  ∀ pid p, sys_procs sys !! pid = Some p → ∃ p', sys_procs sys' !! pid = Some p' ∧ pr_address p' = pr_address p.

Lemma procs_kept_insert sys sys' pid p p' :
  sys_procs sys' = <[pid := p']> (sys_procs sys) → sys_procs sys !! pid = Some p → pr_address p' = pr_address p →
  procs_kept sys sys'.
Proof.
  intros Heq Hpid Ha q x Hx. rewrite Heq. destruct (decide (pid = q)) as [->|Hne].
  - exists p'. rewrite lookup_insert_eq. split; [done|congruence].
  - exists x. by rewrite lookup_insert_ne.
Qed.

Lemma procs_kept_spawn actor id s : sys_inv s → procs_kept s (Spawn actor id s).2.
Proof.
  intros Hinv pid p Hp. unfold Spawn. case_match; simpl; [eauto|]. exists p. rewrite lookup_insert_ne; [done|].
  intros <-. by rewrite (sy_fresh _ Hinv) in Hp by lia.
Qed.

Lemma procs_kept_step s s' : sys_inv s → sys_step s s' → procs_kept s s'.
Proof.
  intros Hinv Hs. destruct Hs as [actor id s|to msg pid s _|l1 pid msg l2 p s _ _|prefer l1 pid msg l2 p r s _ Hpid Hsel
    |pid s s' Hm|pid s s' He|pid p s Hpid|pid p s Hpid Hst|actors s Hsub].
  - by apply procs_kept_spawn.
  - intros q x Hx. eauto.
  - intros q x Hx. eauto.
  - unfold finish_send, send_select in *. repeat (case_match; simplify_eq/=); try (intros ? ? ?; by eauto).
    by eapply procs_kept_insert.
  - unfold run_message in Hm. destruct (sys_procs s !! pid) as [p|] eqn:Hpid; simplify_eq/=.
    repeat (case_match; simplify_eq/=). by eapply procs_kept_insert.
  - unfold run_exit in He. destruct (sys_procs s !! pid) as [p|] eqn:Hpid; simplify_eq/=.
    repeat (case_match; simplify_eq/=). by eapply procs_kept_insert.
  - by eapply procs_kept_insert; [done|exact Hpid|].
  - by eapply procs_kept_insert; [done|exact Hpid|].
  - intros q x Hx. eauto.
Qed.

Lemma sys_inv_stop pid s : sys_inv s → sys_inv (stop_pid pid s).
Proof.
  intros Hinv. unfold stop_pid. destruct (sys_procs s !! pid) as [p|] eqn:Hpid; [|done].
  destruct (sy_procs _ Hinv pid p Hpid) as [P1 P2 P3 P4]. unfold Process_Stop.
  destruct (pr_stopped p) eqn:Hst; eapply sys_inv_put; try done; congruence.
Qed.

Lemma procs_kept_stop pid s : procs_kept s (stop_pid pid s).
Proof.
  unfold stop_pid. destruct (sys_procs s !! pid) as [p|] eqn:Hpid; [|intros ? ? ?; eauto].
  eapply procs_kept_insert; [done|exact Hpid|]. unfold Process_Stop. by case_match.
Qed.

Lemma procs_kept_trans s1 s2 s3 : procs_kept s1 s2 → procs_kept s2 s3 → procs_kept s1 s3.
Proof.
  intros H1 H2 pid p Hp. destruct (H1 pid p Hp) as (p1 & Hp1 & E1). destruct (H2 pid p1 Hp1) as (p2 & Hp2 & E2).
  exists p2. split; [done|congruence].
Qed.

(** *** The parts of a restart *)

(** The system when the old process is stopped and its address free. *)
Definition restart_prepared (addr : string) (st : Supervisor * ActorSystem) : ActorSystem :=
  let sys := match sup_childProcs st.1 !! addr with Some pid => stop_pid pid st.2 | None => st.2 end in
  mkSystem (delete addr (sys_actors sys)) (sys_procs sys) (sys_next sys) (sys_handled sys) (sys_accepted sys) (sys_sends sys).

Lemma restart_prepared_inv addr st :
  sys_inv st.2 → sys_inv (restart_prepared addr st) ∧ procs_kept st.2 (restart_prepared addr st).
Proof.
  intros Hinv. unfold restart_prepared. destruct (sup_childProcs st.1 !! addr) as [pid|].
  - split; [apply sys_inv_unregister; [by apply sys_inv_stop|apply delete_subseteq]|].
    intros q x Hx. by destruct (procs_kept_stop pid st.2 q x Hx) as (x' & ? & ?); eauto.
  - split; [apply sys_inv_unregister; [done|apply delete_subseteq]|]. intros q x Hx. eauto.
Qed.

Lemma stop_pid_actors pid s : sys_actors (stop_pid pid s) = sys_actors s ∧ sys_next (stop_pid pid s) = sys_next s.
Proof. unfold stop_pid. by destruct (sys_procs s !! pid). Qed.

Lemma restartChild_eq addr config s sys :
  sup_childConfigs s !! addr = Some config → ac_ID config = addr →
  restartChild addr (s, sys) =
  (set_children (sup_children s) (sup_childConfigs s) (<[addr := sys_next sys]> (sup_childProcs s)) s,
   (Spawn (ac_Actor config) addr (restart_prepared addr (s, sys))).2).
Proof.
  intros Hc Hid. unfold restartChild. rewrite Hc, Hid.
  change (match sup_childProcs s !! addr with Some pid => stop_pid pid sys | None => sys end)
    with (match sup_childProcs (s, sys).1 !! addr with Some pid => stop_pid pid (s, sys).2 | None => (s, sys).2 end).
  fold (restart_prepared addr (s, sys)).
  assert (sys_actors (restart_prepared addr (s, sys)) !! addr = None) as Hnone.
  { unfold restart_prepared. simpl. by rewrite lookup_delete_eq. }
  assert (sys_next (restart_prepared addr (s, sys)) = sys_next sys) as Hnext.
  { unfold restart_prepared. simpl. case_match; [apply stop_pid_actors|done]. }
  revert Hnone Hnext. generalize (restart_prepared addr (s, sys)) as r. intros r Hnone Hnext.
  unfold Spawn. rewrite Hnone. unfold GetActor. simpl. rewrite lookup_insert_eq. by rewrite Hnext.
Qed.

Lemma sup_inv_children ch cfg procs s sys' :
  sys_inv sys' →
  (∀ a c, cfg !! a = Some c → ac_ID c = a) →
  (∀ a pid, procs !! a = Some pid → ∃ p, sys_procs sys' !! pid = Some p ∧ pr_address p = a) →
  sup_inv (set_children ch cfg procs s, sys').
Proof. intros H1 H2 H3. by split. Qed.

Lemma sup_inv_restart addr st : sup_inv st → sup_inv (restartChild addr st).
Proof.
  destruct st as [s sys]. intros Hinv.
  destruct (sup_childConfigs s !! addr) as [config|] eqn:Hc; [|by unfold restartChild; rewrite Hc].
  pose proof (su_configs _ Hinv addr config Hc) as Hid.
  rewrite (restartChild_eq addr config) by done.
  destruct (restart_prepared_inv addr (s, sys) (su_sys _ Hinv)) as [Hprep Hkept].
  pose proof (procs_kept_spawn (ac_Actor config) addr _ Hprep) as Hkept2.
  apply sup_inv_children; [by apply sys_inv_spawn|apply (su_configs _ Hinv)|].
  intros a pid Hp. apply lookup_insert_Some in Hp as [[<- <-]|[_ Hp]].
  - apply (sy_actors _ (sys_inv_spawn (ac_Actor config) addr _ Hprep)).
    unfold Spawn. replace (sys_actors (restart_prepared addr (s, sys)) !! addr) with (@None N).
    + simpl. rewrite lookup_insert_eq. f_equal. unfold restart_prepared. simpl. case_match; [apply stop_pid_actors|done].
    + unfold restart_prepared. simpl. by rewrite lookup_delete_eq.
  - destruct (su_procs _ Hinv a pid Hp) as (p & Hpp & Ha).
    destruct (procs_kept_trans _ _ _ Hkept Hkept2 pid p Hpp) as (p' & ? & ?). exists p'. split; [done|congruence].
Qed.

Lemma count_restart_children now s :
  sup_children (count_restart now s).2 = sup_children s ∧
  sup_childConfigs (count_restart now s).2 = sup_childConfigs s ∧
  sup_childProcs (count_restart now s).2 = sup_childProcs s.
Proof. unfold count_restart. by case_match. Qed.

Lemma sup_inv_receive now msg st : sup_inv st → sup_inv (Supervisor_Receive now msg st).2.
Proof.
  intros Hinv. pose proof Hinv as [Hs Hc Hp]. unfold Supervisor_Receive.
  assert (∀ a, sup_inv (StopChild a st)) as Hstop.
  { intros a. destruct st as [s sys]. unfold StopChild. simpl in *. apply sup_inv_children.
    - case_match; [by apply sys_inv_stop|done].
    - intros b c Hb. apply lookup_delete_Some in Hb as [_ Hb]. eauto.
    - intros b pid Hb. apply lookup_delete_Some in Hb as [_ Hb]. destruct (Hp b pid Hb) as (p & Hpp & Ha).
      case_match; [|eauto]. destruct (procs_kept_stop n sys pid p Hpp) as (p' & ? & ?).
      exists p'. split; [done|congruence]. }
  assert (∀ config, sup_inv (SpawnChild config st).2) as Hspawn.
  { intros config. destruct st as [s sys]. simpl in *. unfold SpawnChild.
    pose proof (sys_inv_spawn (ac_Actor config) (ac_ID config) sys Hs) as Hinv'.
    pose proof (procs_kept_spawn (ac_Actor config) (ac_ID config) sys Hs) as Hkept.
    unfold Spawn in *. destruct (sys_actors sys !! ac_ID config) eqn:Hid; [done|]. simpl in *.
    unfold GetActor. simpl. rewrite lookup_insert_eq. apply sup_inv_children; [done| |].
    - intros a c Ha. apply lookup_insert_Some in Ha as [[<- <-]|[_ Ha]]; [done|eauto].
    - intros a pid Ha. apply lookup_insert_Some in Ha as [[<- <-]|[_ Ha]].
      + apply (sy_actors _ Hinv'). simpl. by rewrite lookup_insert_eq.
      + destruct (Hp a pid Ha) as (p & Hpp & Hpa). destruct (Hkept pid p Hpp) as (p' & ? & ?).
        exists p'. split; [done|congruence]. }
  assert (sup_inv (handleFailureMessage now msg st)) as Hfail.
  { unfold handleFailureMessage. destruct (count_restart_children now st.1) as (_ & Ec & Ep).
    destruct (count_restart now st.1) as [go s]. simpl in *.
    assert (sup_inv (s, st.2)) as Hs' by (split; simpl; rewrite ?Ec, ?Ep; done).
    destruct go; [|done]. destruct (msg_Payload msg); try done. by apply sup_inv_restart. }
  destruct (String.eqb _ _); [destruct (msg_Payload msg); try done|].
  { destruct (sup_childConfigs st.1 !! child); [|done]. destruct st as [s sys]. by apply sup_inv_children. }
  destruct (String.eqb _ _); [done|].
  destruct (String.eqb _ _).
  { destruct (msg_Payload msg) as [| |c| | |]; try done. specialize (Hspawn c). by destruct (SpawnChild c st) as [[] st']. }
  destruct (String.eqb _ _); [destruct (msg_Payload msg); try done; apply Hstop|].
  destruct (String.eqb _ _); [destruct (msg_Payload msg); try done; by apply sup_inv_restart|done].
Qed.

Lemma sup_inv_step st st' : sup_inv st → sup_step st st' → sup_inv st'.
Proof.
  intros Hinv Hs. destruct Hs as [now msg st|config s sys|a s sys|s sys sys' Hs].
  - by apply sup_inv_receive.
  - destruct Hinv as [H1 H2 H3]. apply sup_inv_children; try done.
    intros b c Hb. apply lookup_insert_Some in Hb as [[<- <-]|[_ Hb]]; [done|eauto].
  - destruct Hinv as [H1 H2 H3]. apply sup_inv_children; [done|..].
    + intros b c Hb. apply lookup_delete_Some in Hb as [_ Hb]. eauto.
    + intros b c Hb. apply lookup_delete_Some in Hb as [_ Hb]. eauto.
  - destruct Hinv as [H1 H2 H3]. split; simpl in *; [by eapply sys_inv_step|done|].
    intros a pid Ha. destruct (H3 a pid Ha) as (p & Hp & Hpa).
    destruct (procs_kept_step _ _ H1 Hs pid p Hp) as (p' & ? & ?). exists p'. split; [done|congruence].
Qed.

Lemma sup_reachable strategy limit window now st :
  rtc sup_step (NewSupervisor strategy limit window now, NewSystem) st → sup_inv st.
Proof.
  assert (∀ st0, rtc sup_step st0 st → sup_inv st0 → sup_inv st) as Hgo.
  { induction 1 as [|x y z Hs _ IH]; [done|]. intros Hx. apply IH. by eapply sup_inv_step. }
  intros Hr. eapply Hgo; [exact Hr|]. split; [apply sys_inv_new|done|done].
Qed.

(** What a supervisor does when it is told that a child failed, in any state it
    can reach and with any of its strategies.  Within its limit it restarts that
    child: the process it tracks is stopped, a new process of the same actor with
    an empty mailbox runs under the child's address and is tracked, and no other
    process, registration or child changes.  Beyond its limit, or for a child it
    does not know, it changes no process. *)
Theorem supervisor_restart strategy limit window t0 s sys now a rt :
  rtc sup_step (NewSupervisor strategy limit window t0, NewSystem) (s, sys) →
  let msg := mkMessage MessageTypeFailure (PAddress a) rt in
  let '(s', sys') := (Supervisor_Receive now msg (s, sys)).2 in
  match (count_restart now s).1, sup_childConfigs s !! a with
  | true, Some config =>
      ∃ pid, sys_procs sys !! pid = None ∧ GetActor a sys' = Some pid ∧ sup_childProcs s' !! a = Some pid ∧
        sys_procs sys' !! pid = Some (mkProcess (ac_Actor config) a [] false false true) ∧
        (∀ old, sup_childProcs s !! a = Some old → ∃ p, sys_procs sys' !! old = Some p ∧ pr_stopped p = true) ∧
        (∀ q, q ≠ pid → sup_childProcs s !! a ≠ Some q → sys_procs sys' !! q = sys_procs sys !! q) ∧
        (∀ b, b ≠ a → sys_actors sys' !! b = sys_actors sys !! b ∧ sup_childProcs s' !! b = sup_childProcs s !! b)
  | _, _ => sys' = sys ∧ sup_childProcs s' = sup_childProcs s
  end.
Proof.
  intros Hr. pose proof (sup_reachable _ _ _ _ _ Hr) as Hinv. cbv zeta.
  change (Supervisor_Receive now (mkMessage MessageTypeFailure (PAddress a) rt) (s, sys)).2
    with (handleFailureMessage now (mkMessage MessageTypeFailure (PAddress a) rt) (s, sys)).
  unfold handleFailureMessage. simpl.
  destruct (count_restart_children now s) as (_ & Ec & Ep).
  destruct (count_restart now s) as [[] s1]; simpl in *; [|done].
  destruct (sup_childConfigs s !! a) as [config|] eqn:Hc; [|by unfold restartChild; rewrite Ec, Hc].
  pose proof (su_configs _ Hinv a config Hc) as Hid. simpl in Hid.
  rewrite (restartChild_eq a config s1 sys) by congruence. simpl.
  assert (sys_procs sys !! sys_next sys = None) as Hfresh by (apply (sy_fresh _ (su_sys _ Hinv)); simpl; lia).
  assert (∀ pid, sys_next (stop_pid pid sys) = sys_next sys) as Hnext by (intros; apply stop_pid_actors).
  unfold Spawn, restart_prepared. simpl. rewrite lookup_delete_eq. simpl. rewrite Ep.
  exists (sys_next sys). rewrite lookup_insert_eq. split; [done|]. unfold GetActor. simpl.
  assert (sys_next (match sup_childProcs s !! a with Some pid => stop_pid pid sys | None => sys end) = sys_next sys)
    as Hn by (case_match; [apply Hnext|done]).
  assert (sys_actors (match sup_childProcs s !! a with Some pid => stop_pid pid sys | None => sys end) = sys_actors sys)
    as Ha by (case_match; [apply stop_pid_actors|done]).
  rewrite Hn, Ha, !lookup_insert_eq. do 3 (split; [done|]). split; [|split].
  - intros old Hold. destruct (su_procs _ Hinv a old Hold) as (p & Hp & _). simpl in Hp. rewrite Hold.
    exists (Process_Stop p). rewrite lookup_insert_ne by congruence. unfold stop_pid. rewrite Hp. simpl.
    rewrite lookup_insert_eq. split; [done|]. unfold Process_Stop. by destruct (pr_stopped p) eqn:Hst.
  - intros q Hq Hnq. rewrite lookup_insert_ne by done. destruct (sup_childProcs s !! a) as [old|]; [|done].
    unfold stop_pid. destruct (sys_procs sys !! old); [|done]. simpl. rewrite lookup_insert_ne; [done|congruence].
  - intros b Hb. by rewrite !lookup_insert_ne, lookup_delete_ne by done.
Qed.

(** *** The restart limit *)

(** The failures, by their times, after which a restart goes ahead. *)
Fixpoint restarts (s : Supervisor) (failures : list Time) : list Time :=
  match failures with
  | [] => []
  | t :: failures' =>
      let '(go, s') := count_restart t s in
      (if go then [t] else []) ++ restarts s' failures'
  end.

Section RestartRate.
Context (x : Time).
Implicit Types (s : Supervisor) (ts : list Time).

(** Restarts in the span of a window that starts at [x]. *)
Definition in_span (w : Duration) (l : list Time) : list Time := filter (λ t, x ≤ t ∧ t ≤ x + w) l.

Definition span_count s ts : Z := Z.of_nat (length (in_span (sup_restartWindow s) (restarts s ts))).

Lemma count_restart_eq t s :
  sup_restartLimit (count_restart t s).2 = sup_restartLimit s ∧
  sup_restartWindow (count_restart t s).2 = sup_restartWindow s ∧
  if t - sup_lastRestart s <=? sup_restartWindow s
  then (count_restart t s).1 = (sup_restartCount s + 1 <=? sup_restartLimit s) ∧
       sup_restartCount (count_restart t s).2 = sup_restartCount s + 1 ∧
       sup_lastRestart (count_restart t s).2 = sup_lastRestart s
  else (count_restart t s).1 = true ∧ sup_restartCount (count_restart t s).2 = 1 ∧
       sup_lastRestart (count_restart t s).2 = t.
Proof.
  unfold count_restart. case_match; simpl; [|done]. rewrite <-Z.leb_antisym. done.
Qed.

Lemma span_count_cons t s ts :
  span_count s (t :: ts) =
  (if (count_restart t s).1 && (x <=? t) && (t <=? x + sup_restartWindow s) then 1 else 0) +
  span_count (count_restart t s).2 ts.
Proof.
  unfold span_count, in_span. simpl. destruct (count_restart_eq t s) as (_ & Hw & _).
  destruct (count_restart t s) as [go s']. simpl in *. rewrite Hw, filter_app, length_app.
  destruct go; simpl; [|lia]. rewrite filter_cons, filter_nil.
  destruct (Z.leb_spec x t), (Z.leb_spec t (x + sup_restartWindow s)); simpl; case_decide; simpl; lia.
Qed.

(** Failures after the span do not count. *)
Lemma span_count_after s ts : Forall (λ t, x + sup_restartWindow s < t) ts → span_count s ts = 0.
Proof.
  revert s. induction ts as [|t ts IH]; intros s Hall; [done|]. inversion_clear Hall as [|? ? Ht Hts].
  rewrite span_count_cons. destruct (count_restart_eq t s) as (_ & Hw & _).
  rewrite IH by (by rewrite Hw). destruct (Z.leb_spec t (x + sup_restartWindow s)); [lia|]. by rewrite andb_false_r.
Qed.

(** A span that starts before the anchor of the count ends before the next one. *)
Lemma span_count_before s ts :
  StronglySorted Z.le ts → 0 ≤ sup_restartWindow s → x ≤ sup_lastRestart s →
  span_count s ts ≤ Z.max 0 (sup_restartLimit s - sup_restartCount s).
Proof.
  revert s. induction ts as [|t ts IH]; intros s Hs Hw Hx; [unfold span_count; simpl; lia|].
  inversion_clear Hs as [|? ? Hs' Hall]. rewrite span_count_cons.
  destruct (count_restart_eq t s) as (El & Ew & Hcase).
  destruct (Z.leb_spec (t - sup_lastRestart s) (sup_restartWindow s)) as [Hin|Hout].
  - destruct Hcase as (-> & Ec & Ela). specialize (IH (count_restart t s).2 Hs').
    rewrite Ew, Ela, El, Ec in IH. specialize (IH Hw Hx).
    destruct (Z.leb_spec (sup_restartCount s + 1) (sup_restartLimit s)); simpl; [repeat case_match; lia|lia].
  - rewrite (span_count_after (count_restart t s).2 ts).
    + destruct (Z.leb_spec t (x + sup_restartWindow s)); [lia|]. rewrite andb_false_r. lia.
    + rewrite Ew. eapply Forall_impl; [exact Hall|]. simpl. intros. lia.
Qed.

(** When every failure comes after the start of the span, two anchors matter. *)
Lemma span_count_from s ts :
  StronglySorted Z.le ts → 0 ≤ sup_restartWindow s → Forall (Z.le x) ts →
  span_count s ts ≤ Z.max 0 (sup_restartLimit s - sup_restartCount s) + Z.max 1 (sup_restartLimit s).
Proof.
  revert s. induction ts as [|t ts IH]; intros s Hs Hw Hx; [unfold span_count; simpl; lia|].
  inversion_clear Hs as [|? ? Hs' Hall]. inversion_clear Hx as [|? ? Ht Hx']. rewrite span_count_cons.
  destruct (count_restart_eq t s) as (El & Ew & Hcase).
  destruct (Z.leb_spec (t - sup_lastRestart s) (sup_restartWindow s)) as [Hin|Hout].
  - destruct Hcase as (-> & Ec & Ela). specialize (IH (count_restart t s).2 Hs').
    rewrite Ew, El, Ec in IH. specialize (IH Hw Hx').
    destruct (Z.leb_spec (sup_restartCount s + 1) (sup_restartLimit s)); simpl; [repeat case_match; lia|lia].
  - destruct Hcase as (-> & Ec & Ela).
    pose proof (span_count_before (count_restart t s).2 ts Hs') as Hb. rewrite Ew, Ela, El, Ec in Hb.
    specialize (Hb Hw Ht). repeat case_match; lia.
Qed.

Lemma span_count_bound s ts :
  StronglySorted Z.le ts → 0 ≤ sup_restartWindow s → 0 ≤ sup_restartCount s →
  span_count s ts ≤ 2 * Z.max 1 (sup_restartLimit s).
Proof.
  revert s. induction ts as [|t ts IH]; intros s Hs Hw Hc; [unfold span_count; simpl; lia|].
  pose proof Hs as Hs0. inversion_clear Hs0 as [|? ? Hs' Hall].
  destruct (Z.le_gt_cases x t) as [Hx|Hx].
  - assert (Forall (Z.le x) (t :: ts)) as Hfrom.
    { constructor; [done|]. eapply Forall_impl; [exact Hall|]. simpl. intros. lia. }
    pose proof (span_count_from s (t :: ts) Hs Hw Hfrom). lia.
  - rewrite span_count_cons. destruct (Z.leb_spec x t); [lia|]. rewrite andb_false_r. simpl.
    destruct (count_restart_eq t s) as (El & Ew & Hcase). specialize (IH (count_restart t s).2 Hs').
    rewrite Ew, El in IH. apply IH; [done|]. case_match; destruct Hcase as (_ & -> & _); lia.
Qed.
End RestartRate.

(** Restarts are limited in rate: whatever the times of the failures, in order,
    any span as long as the restart window holds at most twice the limit of
    restarts (a limit below one counts as one). *)
Theorem restart_rate strategy limit window now failures x :
  StronglySorted Z.le failures → 0 ≤ window →
  Z.of_nat (length (filter (λ t, x ≤ t ∧ t ≤ x + window)
    (restarts (NewSupervisor strategy limit window now) failures))) ≤ 2 * Z.max 1 limit.
Proof.
  intros Hs Hw. exact (span_count_bound x (NewSupervisor strategy limit window now) failures Hs Hw ltac:(simpl; lia)).
Qed.
