(* ===== verification/Agents.v ===== *)
(** * Agents, their hierarchy and their stages (pkg/agent/agent.go)

    Agents are shared objects: the sub-agents of a parent, the dependencies of an
    agent and whoever holds them refer to the same object.  They live in a store,
    keyed by the uuid each is given when it is made.  An agent that is not built
    on [BaseAgent] ([ag_based] false) cannot take part in the hierarchy.  Locks
    are the atomicity of the methods, except where a method asks for a lock it
    holds: it then never returns, which is the result [None] of [AddSubAgent]
    and [RemoveSubAgent]. *)

From stdpp Require Import base gmap strings list fin_maps relations.
From S2P Require Import Prelude.

Open Scope Z_scope.

Record AgentObj := mkAgent {
  ag_name : string;
  ag_based : bool;
  ag_parent : option string;
  ag_subAgents : list string;
  ag_dependencies : list string;
  ag_partition : string;
}.

Abbreviation AgentStore := (gmap string AgentObj).

Definition agent_name (h : AgentStore) (a : string) : string := from_option ag_name "" (h !! a).
Definition agent_subs (h : AgentStore) (a : string) : list string := from_option ag_subAgents [] (h !! a).
Definition agent_parent (h : AgentStore) (a : string) : option string := h !! a ≫= ag_parent.
Definition agent_deps (h : AgentStore) (a : string) : list string := from_option ag_dependencies [] (h !! a).

Definition set_parent (p : option string) (o : AgentObj) : AgentObj :=
  mkAgent (ag_name o) (ag_based o) p (ag_subAgents o) (ag_dependencies o) (ag_partition o).
Definition set_subs (l : list string) (o : AgentObj) : AgentObj :=
  mkAgent (ag_name o) (ag_based o) (ag_parent o) l (ag_dependencies o) (ag_partition o).

(** [unwrapBaseAgent]. *)
Definition unwrapBaseAgent (h : AgentStore) (a : string) : option AgentObj :=
  o ← h !! a; if ag_based o then Some o else None.

(** ** The hierarchy *)

(** [a.AddSubAgent(child)]: [None] when it waits for ever for the lock of [a],
    which it already holds as that of the child. *)
Definition AddSubAgent (a : string) (child : option string) (h : AgentStore) : option (option error * AgentStore) :=
  match child with
  | None => Some (Some (EText "cannot add nil sub-agent"), h)
  | Some c =>
      match unwrapBaseAgent h c with
      | None => Some (Some (EText "sub-agent must be *BaseAgent to support hierarchy"), h)
      | Some o =>
          match ag_parent o with
          | Some p =>
              Some (Some (EText ("agent " +:+ ag_name o +:+ " already has a parent " +:+ agent_name h p
                                 +:+ " (single parent rule)")), h)
          | None =>
              if String.eqb a c then None
              else Some (None, alter (λ x, set_subs (ag_subAgents x ++ [c]) x) a (<[c := set_parent (Some a) o]> h))
          end
      end
  end.

Arguments AddSubAgent : simpl never.

Fixpoint remove_first (c : string) (l : list string) : option (list string) :=
  match l with
  | [] => None
  | x :: l' => if String.eqb x c then Some l' else (x ::.) <$> remove_first c l'
  end.

Definition RemoveSubAgent (a : string) (child : option string) (h : AgentStore) : option (option error * AgentStore) :=
  match child with
  | None => Some (Some (EText "cannot remove nil sub-agent"), h)
  | Some c =>
      match unwrapBaseAgent h c with
      | None => Some (Some (EText "sub-agent must be *BaseAgent"), h)
      | Some o =>
          match remove_first c (agent_subs h a) with
          | None =>
              Some (Some (EText ("agent " +:+ ag_name o +:+ " is not a sub-agent of " +:+ agent_name h a)), h)
          | Some l =>
              if String.eqb a c then None
              else Some (None, alter (set_parent None) c (alter (set_subs l) a h))
          end
      end
  end.

(** [NewAgent] with a fresh uuid: sub-agents that cannot be added are left out,
    with a warning that asks for their name, on which a nil sub-agent panics
    ([None]). *)
Fixpoint add_all (a : string) (subs : list (option string)) (h : AgentStore) : option AgentStore :=
  match subs with
  | [] => Some h
  | None :: _ => None
  | Some c :: subs' => '(_, h') ← AddSubAgent a (Some c) h; add_all a subs' h'
  end.

Definition NewAgent (uuid name partition : string) (deps : list string) (subs : list (option string)) (h : AgentStore)
    : option AgentStore :=
  add_all uuid subs (<[uuid := mkAgent name true None [] deps partition]> h).

Definition AddDependency (a dep : string) (h : AgentStore) : AgentStore :=
  alter (λ o, mkAgent (ag_name o) (ag_based o) (ag_parent o) (ag_subAgents o) (ag_dependencies o ++ [dep]) (ag_partition o)) a h.

(** [findAgent] and [findAgentByID]: [test] compares a child's name or id. *)
Fixpoint find_children (rec : string → gset string → option string * gset string) (h : AgentStore)
    (children : list string) (visited : gset string) : option string * gset string :=
  match children with
  | [] => (None, visited)
  | c :: children' =>
      match unwrapBaseAgent h c with
      | None => find_children rec h children' visited
      | Some _ =>
          let '(found, visited') := rec c visited in
          match found with
          | Some r => (Some r, visited')
          | None => find_children rec h children' visited'
          end
      end
  end.

Fixpoint findAgent (h : AgentStore) (test : string → bool) (fuel : nat) (a : string) (visited : gset string)
    : option string * gset string :=
  match fuel with
  | O => (None, visited)
  | S fuel' =>
      if bool_decide (a ∈ visited) then (None, visited)
      else
        let visited' := {[a]} ∪ visited in
        match filter test (agent_subs h a) with
        | c :: _ => (Some c, visited')
        | [] => find_children (findAgent h test fuel') h (agent_subs h a) visited'
        end
  end.

(** Every call but those that return at once visits a new agent. *)
Definition find_fuel (h : AgentStore) : nat := S (S (size h)).

Definition FindAgent (name : string) (a : string) (h : AgentStore) : result string :=
  match (findAgent h (λ c, String.eqb (agent_name h c) name) (find_fuel h) a ∅).1 with
  | Some c => inr c
  | None => inl (EText ("agent " +:+ name +:+ " not found in hierarchy"))
  end.

Definition FindAgentByID (id : string) (a : string) (h : AgentStore) : result string :=
  match (findAgent h (λ c, String.eqb c id) (find_fuel h) a ∅).1 with
  | Some c => inr c
  | None => inl (EText ("agent with ID " +:+ id +:+ " not found in hierarchy"))
  end.

(** The loops up the hierarchy, each with its own visited set. *)
Fixpoint root_loop (h : AgentStore) (fuel : nat) (current : string) (visited : gset string) : option string :=
  match fuel with
  | O => None
  | S fuel' =>
      match unwrapBaseAgent h current with
      | None => Some current
      | Some o =>
          if bool_decide (current ∈ visited) then Some current
          else match ag_parent o with
               | None => Some current
               | Some p => root_loop h fuel' p ({[current]} ∪ visited)
               end
      end
  end.
Definition GetRoot (a : string) (h : AgentStore) : option string := root_loop h (find_fuel h) a ∅.

Fixpoint path_loop (h : AgentStore) (fuel : nat) (current : string) (visited : gset string) (path : list string)
    : option (list string) :=
  match fuel with
  | O => None
  | S fuel' =>
      let path' := current :: path in
      match unwrapBaseAgent h current with
      | None => Some path'
      | Some o =>
          if bool_decide (current ∈ visited) then Some path'
          else match ag_parent o with
               | None => Some path'
               | Some p => path_loop h fuel' p ({[current]} ∪ visited) path'
               end
      end
  end.
Definition GetPath (a : string) (h : AgentStore) : option (list string) := path_loop h (find_fuel h) a ∅ [].

Fixpoint depth_loop (h : AgentStore) (fuel : nat) (current : string) (visited : gset string) (depth : Z) : option Z :=
  match fuel with
  | O => None
  | S fuel' =>
      match unwrapBaseAgent h current with
      | None => Some depth
      | Some o =>
          if bool_decide (current ∈ visited) then Some depth
          else match ag_parent o with
               | None => Some depth
               | Some p => depth_loop h fuel' p ({[current]} ∪ visited) (depth + 1)
               end
      end
  end.
Definition GetDepth (a : string) (h : AgentStore) : option Z := depth_loop h (find_fuel h) a ∅ 0.

(** ** Stages of dependencies *)

Section Stages.
Context {Input : Type}.

Record AgentTask := mkAgentTask {
  at_ID : string;
  at_AgentID : string;
  at_Input : Input;
  at_Stage : nat;
  at_PreferredLoc : string;
  at_CreatedAt : Time;
}.

Record AgentStage := mkAgentStage {
  as_ID : nat;
  as_Tasks : list AgentTask;
  as_IsShuffleMap : bool;
}.

Record BuildState := mkBuild {
  bs_visited : gset string;
  bs_stages : gmap nat (list AgentTask);
  bs_tasks : nat;                  (** how many tasks were made: numbers uuids and clock readings *)
}.

Context (h : AgentStore) (uuid : nat → string) (clock : nat → Time) (input : Input).

Definition new_task (a : string) (depth n : nat) : AgentTask :=
  mkAgentTask (uuid n) a input depth (from_option ag_partition "" (h !! a)) (clock n).

Fixpoint build_deps (rec : string → BuildState → BuildState) (deps : list string) (s : BuildState) : BuildState :=
  match deps with
  | [] => s
  | d :: deps' => build_deps rec deps' (rec d s)
  end.

Fixpoint buildRecursive (fuel : nat) (a : string) (depth : nat) (s : BuildState) : BuildState :=
  match fuel with
  | O => s
  | S fuel' =>
      if bool_decide (a ∈ bs_visited s) then s
      else
        let s := mkBuild ({[a]} ∪ bs_visited s) (bs_stages s) (bs_tasks s) in
        let s := build_deps (λ d, buildRecursive fuel' d (S depth)) (agent_deps h a) s in
        let task := new_task a depth (bs_tasks s) in
        mkBuild (bs_visited s) (<[depth := default [] (bs_stages s !! depth) ++ [task]]> (bs_stages s)) (S (bs_tasks s))
  end.

(** The stages from the deepest to stage 0. *)
Fixpoint collect_stages (stages : gmap nat (list AgentTask)) (n : nat) : list AgentStage :=
  (match stages !! n with Some tasks => [mkAgentStage n tasks (bool_decide (0 < n)%nat)] | None => [] end) ++
  (match n with O => [] | S n' => collect_stages stages n' end).

Definition max_depth (stages : gmap nat (list AgentTask)) : nat :=
  foldr (λ x m, if decide (m < x.1)%nat then x.1 else m) 0%nat (map_to_list stages).

Definition buildAgentStages (root : string) : list AgentStage :=
  let s := buildRecursive (find_fuel h) root 0 (mkBuild ∅ ∅ 0) in
  collect_stages (bs_stages s) (max_depth (bs_stages s)).

End Stages.

Arguments AgentTask : clear implicits.
Arguments AgentStage : clear implicits.

(** ** The shape of the hierarchy *)

(** Sub-agents name their parent, a parent lists its children, each once. *)
Record hier_wf (h : AgentStore) : Prop := {
  hi_sub a c : c ∈ agent_subs h a → ∃ o, h !! c = Some o ∧ ag_based o = true ∧ ag_parent o = Some a;
  hi_parent c o a : h !! c = Some o → ag_parent o = Some a → c ∈ agent_subs h a;
  hi_nodup a : NoDup (agent_subs h a);
}.

Lemma agent_subs_alter_ne h f a b : a ≠ b → agent_subs (alter f a h) b = agent_subs h b.
Proof. intros Hne. unfold agent_subs. by rewrite lookup_alter_ne. Qed.

Lemma agent_subs_dom h a c : c ∈ agent_subs h a → is_Some (h !! a).
Proof. unfold agent_subs. destruct (h !! a); [done|]. simpl. set_solver. Qed.

Lemma AddSubAgent_wf a c h e h' :
  hier_wf h → is_Some (h !! a) → AddSubAgent a c h = Some (e, h') →
  hier_wf h' ∧ dom h' = dom h ∧
  match e with
  | Some _ => h' = h
  | None => ∃ c' o, c = Some c' ∧ unwrapBaseAgent h c' = Some o ∧ ag_parent o = None ∧ c' ≠ a ∧
      agent_parent h' c' = Some a ∧ agent_subs h' a = agent_subs h a ++ [c']
  end.
Proof.
  intros Hwf Ha Hadd. unfold AddSubAgent in Hadd. destruct c as [c|]; [|by simplify_eq].
  destruct (unwrapBaseAgent h c) as [o|] eqn:Hu; [|by simplify_eq].
  destruct (ag_parent o) as [p|] eqn:Hp; [by simplify_eq|].
  destruct (String.eqb_spec a c) as [|Hne]; [done|]. simplify_eq.
  unfold unwrapBaseAgent in Hu. destruct (h !! c) as [o'|] eqn:Hc; simplify_eq/=.
  destruct (ag_based o') eqn:Hbased; simplify_eq. destruct Ha as [oa Ha].
  set (h' := alter _ a _).
  assert (h' !! c = Some (set_parent (Some a) o)) as Hc'.
  { unfold h'. by rewrite lookup_alter_ne, lookup_insert_eq by done. }
  assert (h' !! a = Some (set_subs (ag_subAgents oa ++ [c]) oa)) as Ha'.
  { unfold h'. rewrite lookup_alter_eq, lookup_insert_ne by done. by rewrite Ha. }
  assert (∀ b, b ≠ a → b ≠ c → h' !! b = h !! b) as Hb.
  { intros b H1 H2. unfold h'. by rewrite lookup_alter_ne, lookup_insert_ne by done. }
  assert (agent_subs h' a = agent_subs h a ++ [c]) as Hsa by (unfold agent_subs; by rewrite Ha', Ha).
  assert (∀ b, b ≠ a → agent_subs h' b = agent_subs h b) as Hsb.
  { intros b Hba. unfold agent_subs. destruct (decide (b = c)) as [->|Hbc]; [by rewrite Hc', Hc|by rewrite Hb]. }
  assert (∀ b, c ∉ agent_subs h b) as Hfree.
  { intros b Hin. destruct (hi_sub _ Hwf b c Hin) as (x & Hx & _ & Hxp). congruence. }
  split; [split|split].
  - intros b x Hx. destruct (decide (b = a)) as [->|Hba].
    + rewrite Hsa in Hx. apply elem_of_app in Hx as [Hx|Hx%list_elem_of_singleton]; [|subst x; eauto].
      destruct (hi_sub _ Hwf a x Hx) as (ox & Hox & Hbx & Hpx).
      destruct (decide (x = a)) as [->|Hxa]; [rewrite Ha'; eexists; split; [done|]; simpl; split; congruence|].
      rewrite Hb by (done || congruence). eauto.
    + rewrite Hsb in Hx by done. destruct (hi_sub _ Hwf b x Hx) as (ox & Hox & Hbx & Hpx).
      destruct (decide (x = a)) as [->|Hxa]; [rewrite Ha'; eexists; split; [done|]; simpl; split; congruence|].
      rewrite Hb by (done || congruence). eauto.
  - intros x ox b Hx Hpx. destruct (decide (x = c)) as [->|Hxc].
    { rewrite Hc' in Hx. simplify_eq/=. rewrite Hsa. set_solver. }
    assert (∃ o0, h !! x = Some o0 ∧ ag_parent o0 = Some b) as (o0 & Ho0 & Hp0).
    { destruct (decide (x = a)) as [->|Hxa]; [rewrite Ha' in Hx; simplify_eq/=; eauto|].
      rewrite Hb in Hx by done. eauto. }
    pose proof (hi_parent _ Hwf x o0 b Ho0 Hp0) as Hin.
    destruct (decide (b = a)) as [->|Hba]; [rewrite Hsa; set_solver|by rewrite Hsb].
  - intros b. destruct (decide (b = a)) as [->|Hba]; [|rewrite Hsb by done; apply (hi_nodup _ Hwf)].
    rewrite Hsa. apply NoDup_app. split; [apply (hi_nodup _ Hwf)|]. split; [|apply NoDup_singleton].
    intros x Hx ->%list_elem_of_singleton. by apply (Hfree a).
  - unfold h'. rewrite dom_alter_L, dom_insert_L. assert (c ∈ dom h) by by apply elem_of_dom_2 in Hc. set_solver.
  - exists c, o. split; [done|]. unfold unwrapBaseAgent. rewrite Hc. simpl. rewrite Hbased.
    do 3 (split; [done|]). unfold agent_parent. by rewrite Hc'.
Qed.

Lemma remove_first_spec c l l' : remove_first c l = Some l' → NoDup l → l ≡ₚ c :: l' ∧ c ∉ l' ∧ NoDup l'.
Proof.
  intros Hr Hnd. assert (l ≡ₚ c :: l') as Hp.
  { clear Hnd. revert l' Hr. induction l as [|x l IH]; intros l' Hr; [done|]. simpl in Hr.
    destruct (String.eqb_spec x c) as [->|Hne]; [by simplify_eq|].
    destruct (remove_first c l) as [l0|]; simplify_eq/=. rewrite (IH l0) by done. apply Permutation_swap. }
  rewrite Hp in Hnd. apply NoDup_cons in Hnd. tauto.
Qed.

Lemma remove_first_None c l : remove_first c l = None → c ∉ l.
Proof.
  induction l as [|x l IH]; simpl; [set_solver|]. destruct (String.eqb_spec x c) as [->|Hne]; [done|].
  destruct (remove_first c l); [done|]. intros _. specialize (IH eq_refl). set_solver.
Qed.

Lemma RemoveSubAgent_wf a c h e h' :
  hier_wf h → RemoveSubAgent a c h = Some (e, h') →
  hier_wf h' ∧ dom h' = dom h ∧
  match e with
  | Some _ => h' = h ∧ (∀ c', c = Some c' → is_Some (unwrapBaseAgent h c') → agent_parent h c' ≠ Some a)
  | None => ∃ c', c = Some c' ∧ c' ∈ agent_subs h a ∧ agent_parent h' c' = None ∧ agent_subs h a ≡ₚ c' :: agent_subs h' a
  end.
Proof.
  intros Hwf Hrem. unfold RemoveSubAgent in Hrem. destruct c as [c|]; [|by simplify_eq].
  destruct (unwrapBaseAgent h c) as [o|] eqn:Hu.
  2: { simplify_eq. split; [done|]. split; [done|]. split; [done|]. intros c' [= <-] [? ?]. congruence. }
  unfold unwrapBaseAgent in Hu. destruct (h !! c) as [o'|] eqn:Hc; simplify_eq/=.
  destruct (ag_based o') eqn:Hbased; simplify_eq.
  destruct (remove_first c (agent_subs h a)) as [l|] eqn:Hr.
  2: { simplify_eq. split; [done|]. split; [done|]. split; [done|]. intros c' [= <-] _ Hp.
       apply (remove_first_None _ _ Hr). unfold agent_parent in Hp. rewrite Hc in Hp. by eapply (hi_parent _ Hwf). }
  destruct (String.eqb_spec a c) as [|Hne]; [done|]. simplify_eq.
  destruct (remove_first_spec _ _ _ Hr (hi_nodup _ Hwf a)) as (Hperm & Hni & Hnd).
  assert (c ∈ agent_subs h a) as Hin by (rewrite Hperm; by left).
  destruct (agent_subs_dom _ _ _ Hin) as [oa Ha].
  set (h' := alter _ c _).
  assert (h' !! c = Some (set_parent None o)) as Hc'.
  { unfold h'. rewrite lookup_alter_eq, lookup_alter_ne by done. by rewrite Hc. }
  assert (h' !! a = Some (set_subs l oa)) as Ha'.
  { unfold h'. rewrite lookup_alter_ne, lookup_alter_eq by done. by rewrite Ha. }
  assert (∀ b, b ≠ a → b ≠ c → h' !! b = h !! b) as Hb.
  { intros b H1 H2. unfold h'. by rewrite !lookup_alter_ne by done. }
  assert (agent_subs h' a = l) as Hsa by (unfold agent_subs; by rewrite Ha').
  assert (∀ b, b ≠ a → agent_subs h' b = agent_subs h b) as Hsb.
  { intros b Hba. unfold agent_subs. destruct (decide (b = c)) as [->|Hbc]; [by rewrite Hc', Hc|by rewrite Hb]. }
  assert (∀ b, c ∈ agent_subs h b → b = a) as Honly.
  { intros b Hbc. destruct (hi_sub _ Hwf b c Hbc) as (? & ? & _ & ?).
    destruct (hi_sub _ Hwf a c Hin) as (? & ? & _ & ?). congruence. }
  split; [split|split].
  - intros b x Hx. assert (x ∈ agent_subs h b ∧ x ≠ c) as [Hx0 Hxc].
    { destruct (decide (b = a)) as [->|Hba]; [rewrite Hsa in Hx; split; [rewrite Hperm; by right|by intros ->]|].
      rewrite Hsb in Hx by done. split; [done|]. intros ->. by apply Hba, Honly. }
    destruct (hi_sub _ Hwf b x Hx0) as (ox & Hox & Hbx & Hpx).
    destruct (decide (x = a)) as [->|Hxa]; [rewrite Ha'; eexists; split; [done|]; simpl; split; congruence|].
    rewrite Hb by done. eauto.
  - intros x ox b Hx Hpx. destruct (decide (x = c)) as [->|Hxc]; [rewrite Hc' in Hx; by simplify_eq|].
    assert (∃ o0, h !! x = Some o0 ∧ ag_parent o0 = Some b) as (o0 & Ho0 & Hp0).
    { destruct (decide (x = a)) as [->|Hxa]; [rewrite Ha' in Hx; simplify_eq/=; eauto|].
      rewrite Hb in Hx by done. eauto. }
    pose proof (hi_parent _ Hwf x o0 b Ho0 Hp0) as Hbin.
    destruct (decide (b = a)) as [->|Hba]; [|by rewrite Hsb].
    rewrite Hsa. rewrite Hperm in Hbin. by apply elem_of_cons in Hbin as [?|?].
  - intros b. destruct (decide (b = a)) as [->|Hba]; [by rewrite Hsa|rewrite Hsb by done; apply (hi_nodup _ Hwf)].
  - unfold h'. by rewrite !dom_alter_L.
  - exists c. split; [done|]. split; [done|]. unfold agent_parent. rewrite Hc', Hsa. done.
Qed.

(** *** The stores the package makes *)

Inductive hierarchy : AgentStore → Prop :=
  | hierarchy_empty : hierarchy ∅
  | hierarchy_foreign id name deps part h :
      hierarchy h → h !! id = None → hierarchy (<[id := mkAgent name false None [] deps part]> h)
  | hierarchy_new uuid name part deps subs h h' :
      hierarchy h → h !! uuid = None → NewAgent uuid name part deps subs h = Some h' → hierarchy h'
  | hierarchy_add a c h e h' :
      hierarchy h → is_Some (h !! a) → AddSubAgent a c h = Some (e, h') → hierarchy h'
  | hierarchy_remove a c h e h' :
      hierarchy h → RemoveSubAgent a c h = Some (e, h') → hierarchy h'
  | hierarchy_dep a d h : hierarchy h → hierarchy (AddDependency a d h).

Lemma hier_wf_fresh id o h :
  hier_wf h → h !! id = None → ag_parent o = None → ag_subAgents o = [] → hier_wf (<[id := o]> h).
Proof.
  intros Hwf Hid Hp Hs.
  assert (∀ b, agent_subs (<[id := o]> h) b = agent_subs h b) as Hsub.
  { intros b. unfold agent_subs. destruct (decide (b = id)) as [->|Hne]; [|by rewrite lookup_insert_ne].
    rewrite lookup_insert_eq, Hid. simpl. done. }
  split.
  - intros a c. rewrite Hsub. intros Hc. destruct (hi_sub _ Hwf a c Hc) as (oc & Hoc & ? & ?).
    exists oc. rewrite lookup_insert_ne; [done|]. congruence.
  - intros c oc a Hc Hpc. rewrite Hsub. apply lookup_insert_Some in Hc as [[<- <-]|[_ Hc]]; [congruence|].
    by eapply (hi_parent _ Hwf).
  - intros a. rewrite Hsub. apply (hi_nodup _ Hwf).
Qed.

Lemma add_all_wf a subs h h' :
  hier_wf h → is_Some (h !! a) → add_all a subs h = Some h' → hier_wf h' ∧ dom h' = dom h.
Proof.
  revert h. induction subs as [|c subs IH]; intros h Hwf Ha Hall; simpl in Hall; [by simplify_eq|].
  destruct c as [c|]; [|done].
  destruct (AddSubAgent a (Some c) h) as [[e h1]|] eqn:Hadd; simplify_eq/=.
  destruct (AddSubAgent_wf _ _ _ _ _ Hwf Ha Hadd) as (Hwf1 & Hdom & _).
  destruct (IH h1 Hwf1) as [? ?]; [|done|split; congruence].
  apply elem_of_dom. rewrite Hdom. by apply elem_of_dom.
Qed.

Lemma hierarchy_wf h : hierarchy h → hier_wf h.
Proof.
  induction 1 as [|id name deps part h _ IH Hid|uuid name part deps subs h h' _ IH Hid Hnew|a c h e h' _ IH Ha Hadd
                 |a c h e h' _ IH Hrem|a d h _ IH].
  - split; unfold agent_subs; simpl; intros; rewrite lookup_empty in *; simpl in *; try set_solver. constructor.
  - by apply hier_wf_fresh.
  - eapply add_all_wf; [|by rewrite lookup_insert_eq; eexists|exact Hnew]. by apply hier_wf_fresh.
  - by eapply AddSubAgent_wf.
  - by eapply RemoveSubAgent_wf.
  - assert (∀ b, agent_subs (AddDependency a d h) b = agent_subs h b) as Hsub.
    { intros b. unfold agent_subs, AddDependency. rewrite lookup_alter. case_decide as Hab; [|done].
      subst b. by destruct (h !! a). }
    assert (∀ c o, AddDependency a d h !! c = Some o → ∃ o0, h !! c = Some o0 ∧ ag_parent o = ag_parent o0 ∧ ag_based o = ag_based o0) as Hback.
    { intros c o. unfold AddDependency. rewrite lookup_alter. case_decide; [|by eauto]. subst c.
      destruct (h !! a); [|done]. intros [= <-]. eauto. }
    assert (∀ c o0, h !! c = Some o0 → ∃ o, AddDependency a d h !! c = Some o ∧ ag_parent o = ag_parent o0 ∧ ag_based o = ag_based o0) as Hforth.
    { intros c o0 Hc. unfold AddDependency. rewrite lookup_alter. case_decide; [|by eauto]. subst c.
      rewrite Hc. simpl. eexists. done. }
    split.
    + intros b c. rewrite Hsub. intros Hc. destruct (hi_sub _ IH b c Hc) as (o0 & Ho0 & ? & ?).
      destruct (Hforth c o0 Ho0) as (o & ? & ? & ?). exists o. split; [done|]. split; congruence.
    + intros c o b Hc Hp. rewrite Hsub. destruct (Hback c o Hc) as (o0 & ? & ? & ?).
      eapply (hi_parent _ IH); [done|congruence].
    + intros b. rewrite Hsub. apply (hi_nodup _ IH).
Qed.
