(* ===== verification/AgentTree.v ===== *)
(** * Searching and climbing the hierarchy of agents

    What [FindAgent], [FindAgentByID], [GetRoot], [GetPath] and [GetDepth] of
    pkg/agent/agent.go answer, in every store the package makes, cyclic ones
    included. *)

From stdpp Require Import base gmap strings list fin_maps relations.
From S2P Require Import Prelude Agents.

Open Scope Z_scope.

Definition child (h : AgentStore) (a c : string) : Prop := c ∈ agent_subs h a.

(** ** Searching *)

Section Search.
Context (h : AgentStore) (test : string → bool) (top : string) (Hwf : hier_wf h).

Definition family : gset string := {[top]} ∪ dom h.

Lemma child_family a c : child h a c → c ∈ family ∧ is_Some (unwrapBaseAgent h c).
Proof using Hwf.
  intros Hc. destruct (hi_sub _ Hwf a c Hc) as (o & Ho & Hb & _). split.
  - apply elem_of_union_r. by apply elem_of_dom_2 in Ho.
  - unfold unwrapBaseAgent. rewrite Ho. simpl. rewrite Hb. by eexists.
Qed.

Lemma find_fuel_enough : (size family < find_fuel h)%nat.
Proof using.
  clear Hwf. unfold find_fuel, family. rewrite size_union_alt, size_singleton.
  pose proof (subseteq_size (dom h ∖ {[top]}) (dom h) ltac:(set_solver)).
  rewrite size_dom in *. lia.
Qed.

(** What a search that starts with [visited] ends with. *)
Record sought (a : string) (visited : gset string) (out : option string * gset string) : Prop := {
  so_grow : visited ⊆ out.2;
  so_in : out.2 ⊆ family;
  so_self : a ∈ out.2;
  so_found c : out.1 = Some c → tc (child h) a c ∧ test c = true;
  so_closed : out.1 = None → ∀ x c, x ∈ out.2 → x ∉ visited → child h x c → test c = false ∧ c ∈ out.2;
}.

Lemma find_children_sought rec a children visited :
  (∀ c, c ∈ children → child h a c) → visited ⊆ family →
  (∀ c v, c ∈ children → visited ⊆ v → v ⊆ family → sought c v (rec c v)) →
  let out := find_children rec h children visited in
  visited ⊆ out.2 ∧ out.2 ⊆ family ∧
  (∀ c, out.1 = Some c → tc (child h) a c ∧ test c = true) ∧
  (out.1 = None → (∀ c, c ∈ children → c ∈ out.2) ∧
    ∀ x c, x ∈ out.2 → x ∉ visited → child h x c → test c = false ∧ c ∈ out.2).
Proof using Hwf.
  revert visited. induction children as [|b children IH]; intros visited Hsub Hv Hrec; simpl.
  { split_and!; [done..|]. intros _. split; [set_solver|]. intros x c H1 H2. done. }
  destruct (child_family a b) as [_ [o ->]]; [apply Hsub; by left|].
  pose proof (Hrec b visited ltac:(by left) ltac:(done) Hv) as [G U S F C].
  destruct (rec b visited) as [[r|] v1]; simpl in *.
  { split_and!; [done|done| |done]. intros c Hc. destruct (F c Hc) as [Htc Ht]. split; [|done].
    eapply tc_l; [|done]. apply Hsub; by left. }
  destruct (IH v1) as (G1 & U1 & F1 & C1); [by intros c Hc; apply Hsub; right|done| |].
  { intros c v Hc Hv' Hu. apply Hrec; [by right|set_solver|done]. }
  split_and!; [set_solver|done|done|]. intros Hn. destruct (C1 Hn) as [T1 C2]. split.
  - intros c [->|Hc]%elem_of_cons; [set_solver|auto].
  - intros x c Hx Hnv Hxc. destruct (decide (x ∈ v1)) as [Hv1|Hv1]; [|by eapply C2].
    destruct (C eq_refl x c Hv1 Hnv Hxc) as [Ht Hin]. split; [done|set_solver].
Qed.

Lemma findAgent_sought fuel a visited :
  a ∈ family → visited ⊆ family → (size (family ∖ visited) < fuel)%nat →
  sought a visited (findAgent h test fuel a visited).
Proof using Hwf.
  revert a visited. induction fuel as [|fuel IH]; intros a visited Ha Hv Hfuel; [lia|].
  simpl. destruct (bool_decide_reflect (a ∈ visited)) as [Hin|Hin].
  { by split. }
  destruct (filter test (agent_subs h a)) as [|c l] eqn:Hf.
  2: { assert (c ∈ filter test (agent_subs h a)) as Hc by (rewrite Hf; by left).
       apply list_elem_of_filter in Hc as [Ht Hc].
       split; simpl; [set_solver..| |done]. intros c' [= <-]. split; [by apply tc_once|by apply Is_true_true]. }
  destruct (find_children_sought (findAgent h test fuel) a (agent_subs h a) ({[a]} ∪ visited))
    as (G & U & F & C); [done|set_solver| |].
  { intros c v Hc Hsub Hvu. apply IH; [by eapply child_family|done|].
    assert (size (family ∖ v) < size (family ∖ visited))%nat; [|lia].
    apply subset_size. split; [set_solver|]. intros Hs.
    assert (a ∈ family ∖ v) by (apply Hs; set_solver). set_solver. }
  split; [set_solver|done|set_solver|done|]. intros Hn x c Hx Hnx Hxc. destruct (C Hn) as [T C'].
  destruct (decide (x = a)) as [->|Hne]; [|eapply C'; [done|set_solver|done]].
  split; [|auto]. destruct (test c) eqn:Ht; [|done].
  assert (c ∈ filter test (agent_subs h a)) as Hbad by (apply list_elem_of_filter; by rewrite Ht).
  rewrite Hf in Hbad. set_solver.
Qed.

Lemma findAgent_spec :
  match (findAgent h test (find_fuel h) top ∅).1 with
  | Some c => tc (child h) top c ∧ test c = true
  | None => ∀ c, tc (child h) top c → test c = false
  end.
Proof using Hwf.
  destruct (findAgent_sought (find_fuel h) top ∅) as [_ _ S F C]; [set_solver..| |].
  { rewrite difference_empty_L. apply find_fuel_enough. }
  destruct (findAgent h test (find_fuel h) top ∅) as [[c|] out]; simpl in *; [by apply F|].
  intros c Htc. clear F. assert (∀ x, tc (child h) x c → x ∈ out → test c = false) as Hgo.
  { clear Htc S. intros x Htc. induction Htc as [x c Hxc|x y c Hxy _ IH]; intros Hx.
    - by apply (C eq_refl x c).
    - apply IH. by apply (C eq_refl x y). }
  by eapply Hgo.
Qed.
End Search.

(** ** Climbing *)

(** [climb h a l]: the agents from [a] up to a root. *)
Inductive climb (h : AgentStore) : string → list string → Prop :=
  | climb_root a : agent_parent h a = None → climb h a [a]
  | climb_up a p l : agent_parent h a = Some p → climb h p l → climb h a (a :: l).

Lemma climb_unique h a l l' : climb h a l → climb h a l' → l = l'.
Proof.
  intros Hl. revert l'. induction Hl as [a Ha|a p l Ha _ IH]; inversion 1; simplify_eq; [done..|].
  f_equal. apply IH. congruence.
Qed.

Lemma climb_suffix h a l x : climb h a l → x ∈ l → ∃ l', climb h x l' ∧ (length l' ≤ length l)%nat.
Proof.
  induction 1 as [a Ha|a p l Ha Hp IH]; intros Hx.
  - apply list_elem_of_singleton in Hx as ->. exists [a]. split; [by constructor|done].
  - apply elem_of_cons in Hx as [->|Hx]; [exists (a :: l); split; [by econstructor|done]|].
    destruct (IH Hx) as (l' & ? & ?). exists l'. split; [done|simpl; lia].
Qed.

Lemma climb_nodup h a l : climb h a l → NoDup l.
Proof.
  induction 1 as [a Ha|a p l Ha Hp IH]; [apply NoDup_singleton|]. constructor; [|done].
  intros Hin. destruct (climb_suffix _ _ _ _ Hp Hin) as (l' & Hl' & Hlen).
  rewrite (climb_unique _ _ _ (a :: l) Hl') in Hlen by by econstructor. simpl in Hlen. lia.
Qed.

Section Climbing.
Context (h : AgentStore) (Hwf : hier_wf h).

(** One turn of the three loops, on an agent that was not visited. *)
Lemma unwrap_parent a p : agent_parent h a = Some p → ∃ o, unwrapBaseAgent h a = Some o ∧ ag_parent o = Some p ∧ is_Some (h !! p).
Proof using Hwf.
  unfold agent_parent. destruct (h !! a) as [o|] eqn:Ha; [|done]. simpl. intros Hp.
  pose proof (hi_parent _ Hwf a o p Ha Hp) as Hc. destruct (hi_sub _ Hwf p a Hc) as (o' & Ho' & Hb & _).
  simplify_eq. exists o. unfold unwrapBaseAgent. rewrite Ha. simpl. rewrite Hb.
  split; [done|]. split; [done|]. by eapply agent_subs_dom.
Qed.

Lemma unwrap_root a o : agent_parent h a = None → unwrapBaseAgent h a = Some o → ag_parent o = None.
Proof using.
  unfold agent_parent, unwrapBaseAgent. destruct (h !! a) as [o'|]; [|done]. simpl.
  destruct (ag_based o'); [|done]. by intros ? [= <-].
Qed.

Lemma climb_loops a l fuel visited path depth :
  climb h a l → (∀ x, x ∈ l → x ∉ visited) → (length l ≤ fuel)%nat →
  root_loop h fuel a visited = last l ∧
  path_loop h fuel a visited path = Some (reverse l ++ path) ∧
  depth_loop h fuel a visited depth = Some (depth + Z.of_nat (length l) - 1).
Proof using Hwf.
  intros Hc. revert fuel visited path depth.
  induction Hc as [a Ha|a p l Ha Hp IH]; intros [|fuel] visited path depth Hnv Hlen; simpl in Hlen; try lia; simpl.
  - destruct (unwrapBaseAgent h a) as [o|] eqn:Hu; [|split_and!; [done..|f_equal; lia]].
    rewrite bool_decide_false by set_solver. rewrite (unwrap_root a o Ha Hu). split_and!; [done..|f_equal; lia].
  - destruct (unwrap_parent a p Ha) as (o & -> & -> & _). rewrite bool_decide_false by set_solver.
    destruct (IH fuel ({[a]} ∪ visited) (a :: path) (depth + 1)) as (-> & -> & ->).
    + intros x Hx. pose proof (climb_nodup h a (a :: l) ltac:(by econstructor)) as Hnd.
      apply NoDup_cons in Hnd as [Hna _]. set_solver.
    + lia.
    + split_and!.
      * by destruct Hp.
      * by rewrite reverse_cons, <- app_assoc.
      * f_equal. lia.
Qed.

Lemma climb_family a l x : climb h a l → x ∈ l → x ∈ family h a.
Proof using Hwf.
  intros Hc Hx. assert (x = a ∨ is_Some (h !! x)) as [->|Hd]; [|unfold family; set_solver|unfold family; by apply elem_of_union_r, elem_of_dom].
  revert x Hx. induction Hc as [a Ha|a p l Ha Hp IH]; intros x Hx; [set_solver|].
  apply elem_of_cons in Hx as [->|Hx]; [by left|]. right. destruct (unwrap_parent a p Ha) as (o & _ & _ & Hp').
  destruct (IH x Hx) as [->|?]; done.
Qed.

Lemma climb_fuel a l : climb h a l → (length l ≤ find_fuel h)%nat.
Proof using Hwf.
  intros Hc. pose proof (find_fuel_enough h a). transitivity (size (family h a)); [|lia].
  rewrite <- (size_list_to_set (C:=gset string) l) by by eapply climb_nodup.
  apply subseteq_size. intros x Hx%elem_of_list_to_set. by eapply climb_family.
Qed.

(** The loops return in a cycle too. *)
Lemma loops_return top a fuel visited path depth :
  a ∈ family h top → visited ⊆ family h top → (size (family h top ∖ visited) < fuel)%nat →
  is_Some (root_loop h fuel a visited) ∧ is_Some (path_loop h fuel a visited path) ∧
  is_Some (depth_loop h fuel a visited depth).
Proof using Hwf.
  revert a visited path depth. induction fuel as [|fuel IH]; intros a visited path depth Ha Hv Hf; [lia|]. simpl.
  destruct (unwrapBaseAgent h a) as [o|] eqn:Hu; [|split_and!; eauto].
  destruct (bool_decide_reflect (a ∈ visited)) as [Hin|Hin]; [split_and!; eauto|].
  destruct (ag_parent o) as [p|] eqn:Hp; [|split_and!; eauto].
  assert (agent_parent h a = Some p) as Hap.
  { unfold unwrapBaseAgent in Hu. unfold agent_parent. destruct (h !! a) as [o'|]; [|done]. simpl in *.
    destruct (ag_based o'); simplify_eq; done. }
  destruct (unwrap_parent a p Hap) as (_ & _ & _ & Hd). apply IH; [|set_solver|].
  - unfold family. by apply elem_of_union_r, elem_of_dom.
  - assert (size (family h top ∖ ({[a]} ∪ visited)) < size (family h top ∖ visited))%nat; [|lia].
    apply subset_size. split; [set_solver|]. intros Hs.
    assert (a ∈ family h top ∖ ({[a]} ∪ visited)) by (apply Hs; set_solver). set_solver.
Qed.
End Climbing.

(** In every store of agents the package can make, parents and sub-agents agree:
    an agent is listed, once, by exactly the agent it names as its parent.  The
    loops up the hierarchy always return, cycles included, and where the
    ancestors of an agent end in a root they give that root, the agents from the
    root down to it, and its distance from the root. *)
Theorem agent_ancestry h :
  hierarchy h →
  (∀ a, NoDup (agent_subs h a) ∧ ∀ c, c ∈ agent_subs h a ↔ agent_parent h c = Some a) ∧
  ∀ a, is_Some (GetRoot a h) ∧ is_Some (GetPath a h) ∧ is_Some (GetDepth a h) ∧
    ∀ l, climb h a l →
      GetRoot a h = last l ∧ GetPath a h = Some (reverse l) ∧ GetDepth a h = Some (Z.of_nat (length l) - 1).
Proof.
  intros Hwf%hierarchy_wf. split.
  { intros a. split; [by apply hi_nodup|]. intros c. unfold agent_parent. split.
    - intros Hc. destruct (hi_sub _ Hwf a c Hc) as (o & -> & _ & ?). done.
    - destruct (h !! c) as [o|] eqn:Hc; [|done]. simpl. by apply (hi_parent _ Hwf). }
  intros a. destruct (loops_return h Hwf a a (find_fuel h) ∅ [] 0) as (? & ? & ?).
  { unfold family. set_solver. }
  { set_solver. }
  { rewrite difference_empty_L. apply find_fuel_enough. }
  split_and!; [done..|]. intros l Hl.
  destruct (climb_loops h Hwf a l (find_fuel h) ∅ [] 0 Hl) as (Hr & Hp & Hd); [set_solver|by eapply climb_fuel|].
  rewrite app_nil_r in Hp. split_and!; [exact Hr|exact Hp|exact Hd].
Qed.

(** Searching terminates and is complete in every store the package can make,
    cyclic ones included: by name or by id, an agent is returned exactly when
    some proper descendant matches, and what is returned is such a descendant;
    otherwise the error names what was looked for. *)
Theorem agent_search h a name :
  hierarchy h →
  match FindAgent name a h with
  | inr c => tc (child h) a c ∧ agent_name h c = name
  | inl e => e = EText ("agent " +:+ name +:+ " not found in hierarchy") ∧
      ∀ c, tc (child h) a c → agent_name h c ≠ name
  end ∧
  match FindAgentByID name a h with
  | inr c => tc (child h) a c ∧ c = name
  | inl e => e = EText ("agent with ID " +:+ name +:+ " not found in hierarchy") ∧ ~ tc (child h) a name
  end.
Proof.
  intros Hwf%hierarchy_wf. unfold FindAgent, FindAgentByID. split.
  - pose proof (findAgent_spec h (λ c, String.eqb (agent_name h c) name) a Hwf) as Hs.
    destruct (_.1) as [c|]; [by rewrite String.eqb_eq in Hs|]. split; [done|].
    intros c Hc. by apply String.eqb_neq, Hs.
  - pose proof (findAgent_spec h (λ c, String.eqb c name) a Hwf) as Hs.
    destruct (_.1) as [c|]; [by rewrite String.eqb_eq in Hs|]. split; [done|].
    intros Hc%Hs. by rewrite String.eqb_refl in Hc.
Qed.
