(* ===== verification/AgentStages.v ===== *)
(** * The stages of an agent's dependencies

    What [buildStages] of pkg/agent/agent.go makes of the dependencies of a root
    agent: the recursion with its visited set is followed in a store of agents
    with arbitrary dependencies, cyclic ones included. *)

From stdpp Require Import base gmap strings list fin_maps relations sorting.
From S2P Require Import Prelude Agents.

Open Scope nat_scope.

Definition dependency (h : AgentStore) (a d : string) : Prop := d ∈ agent_deps h a.

Section StagesProofs.
Context {Input : Type} (h : AgentStore) (uuid : nat → string) (clock : nat → Time) (input : Input).
Notation AgentTask := (AgentTask Input).
Notation build := (buildRecursive h uuid clock input).
Implicit Types (s : @BuildState Input) (t : AgentTask) (m : gmap nat (list AgentTask)).

(** ** Tasks in a map of stages *)

Definition all_tasks m : list AgentTask := map_to_list m ≫= snd.

Lemma elem_of_all_tasks m t : t ∈ all_tasks m ↔ ∃ n l, m !! n = Some l ∧ t ∈ l.
Proof.
  unfold all_tasks. rewrite list_elem_of_bind. setoid_rewrite elem_of_map_to_list'.
  split; [intros ([n l] & ? & ?); eauto|intros (n & l & ? & ?); by exists (n, l)].
Qed.

Lemma all_tasks_push m n t : all_tasks (<[n := default [] (m !! n) ++ [t]]> m) ≡ₚ t :: all_tasks m.
Proof.
  unfold all_tasks. rewrite <- insert_delete_eq. rewrite map_to_list_insert by apply lookup_delete_eq. simpl.
  destruct (m !! n) as [l|] eqn:Hn; simpl.
  - rewrite <- (insert_delete_id m n l Hn) at 2. rewrite map_to_list_insert by apply lookup_delete_eq. simpl.
    rewrite <- app_assoc. simpl. by rewrite <- Permutation_middle.
  - by rewrite delete_id.
Qed.

(** Each stage has tasks, all of its own number. *)
Definition staged m : Prop := ∀ n l, m !! n = Some l → l ≠ [] ∧ ∀ t, t ∈ l → at_Stage t = n.

Lemma staged_push m n t : staged m → at_Stage t = n → staged (<[n := default [] (m !! n) ++ [t]]> m).
Proof.
  intros Hm Ht n' l Hl. destruct (decide (n' = n)) as [->|Hne]; [|rewrite lookup_insert_ne in Hl by done; by apply Hm].
  rewrite lookup_insert_eq in Hl. simplify_eq. split; [by destruct (default [] (m !! at_Stage t))|].
  intros t' [Ht'|Ht'%list_elem_of_singleton]%elem_of_app; [|by subst].
  destruct (m !! at_Stage t) as [l|] eqn:E; simpl in Ht'; [by eapply Hm|set_solver].
Qed.

(** ** What a call adds *)

Record adds (new : list AgentTask) s s' : Prop := {
  ad_tasks : all_tasks (bs_stages s') ≡ₚ new ++ all_tasks (bs_stages s);
  ad_visited x : x ∈ bs_visited s' ↔ x ∈ at_AgentID <$> new ∨ x ∈ bs_visited s;
  ad_fresh x : x ∈ at_AgentID <$> new → x ∉ bs_visited s;
  ad_nodup : NoDup (at_AgentID <$> new);
  ad_staged : staged (bs_stages s) → staged (bs_stages s');
  ad_made t : t ∈ new → ∃ n, t = new_task h uuid clock input (at_AgentID t) (at_Stage t) n;
}.

(** A task is [above]'s dependency at its place, or that of another new task. *)
Definition hangs (new : list AgentTask) (a : string) (depth : nat) t : Prop :=
  (at_Stage t = depth ∧ dependency h a (at_AgentID t)) ∨
  ∃ t', t' ∈ new ∧ dependency h (at_AgentID t') (at_AgentID t) ∧ at_Stage t = S (at_Stage t').

Lemma hangs_mono new new' a depth t : new ⊆ new' → hangs new a depth t → hangs new' a depth t.
Proof. intros Hs [?|(t' & ? & ? & ?)]; [by left|right; exists t'; split; [by apply Hs|done]]. Qed.

Lemma adds_app new new' s s1 s2 : adds new s s1 → adds new' s1 s2 → adds (new' ++ new) s s2.
Proof.
  intros [T1 V1 F1 N1 S1 M1] [T2 V2 F2 N2 S2 M2]. split.
  - by rewrite T2, T1, app_assoc.
  - intros x. rewrite V2, V1, fmap_app, elem_of_app. tauto.
  - intros x. rewrite fmap_app, elem_of_app. intros [Hx|Hx]; [|by apply F1].
    intros Hs. apply (F2 x Hx), V1. by right.
  - rewrite fmap_app. apply NoDup_app. split; [done|]. split; [|done].
    intros x Hx Hx'. apply (F2 x Hx), V1. by left.
  - auto.
  - intros t [Ht|Ht]%elem_of_app; auto.
Qed.

Lemma adds_nil s : adds [] s s.
Proof. split; simpl; [done|set_solver|set_solver|constructor|done|set_solver]. Qed.

(** The task made when all dependencies are done. *)
Lemma adds_task new a depth s s1 :
  a ∉ bs_visited s →
  adds new (mkBuild ({[a]} ∪ bs_visited s) (bs_stages s) (bs_tasks s)) s1 →
  adds (new_task h uuid clock input a depth (bs_tasks s1) :: new) s
    (mkBuild (bs_visited s1)
       (<[depth := default [] (bs_stages s1 !! depth) ++ [new_task h uuid clock input a depth (bs_tasks s1)]]> (bs_stages s1))
       (S (bs_tasks s1))).
Proof.
  intros Ha [T V F N St M]. simpl in *. split; simpl.
  - by rewrite all_tasks_push, T.
  - intros x. rewrite V, elem_of_cons, elem_of_union, elem_of_singleton. tauto.
  - intros x [->|Hx]%elem_of_cons; [done|]. intros Hs. apply (F x Hx). set_solver.
  - constructor; [|done]. intros Hx. apply (F a Hx). set_solver.
  - intros Hst. apply staged_push; auto.
  - intros t [->|Ht]%elem_of_cons; [by eexists|auto].
Qed.

Definition spans (s' : @BuildState Input) (a : string) (depth : nat) s : Prop :=
  ∃ new, adds new s s' ∧ (∀ t, t ∈ new → hangs new a depth t) ∧
    ∀ t d, t ∈ new → dependency h (at_AgentID t) d → d ∈ bs_visited s'.

Lemma build_deps_spans rec a depth deps s :
  (∀ d, d ∈ deps → dependency h a d) →
  (∀ d s', d ∈ deps → bs_visited s ⊆ bs_visited s' → spans (rec d s') a depth s' ∧ d ∈ bs_visited (rec d s')) →
  spans (build_deps rec deps s) a depth s ∧ ∀ d, d ∈ deps → d ∈ bs_visited (build_deps rec deps s).
Proof.
  revert s. induction deps as [|d deps IH]; intros s Hsub Hrec; simpl.
  { split; [|set_solver]. exists []. split; [apply adds_nil|]. split; set_solver. }
  destruct (Hrec d s) as [(new & A & H & C) Hd]; [by left|done|].
  assert (bs_visited s ⊆ bs_visited (rec d s)) as Hgrow by (intros x Hx; apply (ad_visited _ _ _ A); by right).
  destruct (IH (rec d s)) as [(new' & A' & H' & C') Hds].
  { intros d' Hd'. apply Hsub. by right. }
  { intros d' s' Hd' Hs'. apply Hrec; [by right|set_solver]. }
  assert (∀ x, x ∈ bs_visited (rec d s) → x ∈ bs_visited (build_deps rec deps (rec d s))) as Hgrow'.
  { intros x Hx. apply (ad_visited _ _ _ A'). by right. }
  split; [exists (new' ++ new); split; [by eapply adds_app|split]|].
  - intros t [Ht|Ht]%elem_of_app; eapply hangs_mono; [|by apply H'| |by apply H]; set_solver.
  - intros t x [Ht|Ht]%elem_of_app Hx; eauto.
  - intros x [->|Hx]%elem_of_cons; auto.
Qed.

(** A call on [a] adds [a] at [depth] and what hangs below it, or nothing when
    [a] was visited. *)
Lemma buildRecursive_adds fuel a depth s :
  size (dom h ∖ bs_visited s) < fuel →
  a ∈ bs_visited (build fuel a depth s) ∧
  ∃ new, adds new s (build fuel a depth s) ∧
    (∀ t, t ∈ new → (at_AgentID t = a ∧ at_Stage t = depth) ∨
       ∃ t', t' ∈ new ∧ dependency h (at_AgentID t') (at_AgentID t) ∧ at_Stage t = S (at_Stage t')) ∧
    ∀ t d, t ∈ new → dependency h (at_AgentID t) d → d ∈ bs_visited (build fuel a depth s).
Proof.
  revert a depth s. induction fuel as [|fuel IH]; intros a depth s Hf; [lia|]. simpl.
  destruct (bool_decide_reflect (a ∈ bs_visited s)) as [Hin|Hin].
  { split; [done|]. exists []. split; [apply adds_nil|]. split; set_solver. }
  set (s0 := mkBuild ({[a]} ∪ bs_visited s) (bs_stages s) (bs_tasks s)).
  destruct (build_deps_spans (λ d, build fuel d (S depth)) a (S depth) (agent_deps h a) s0) as [(new & A & H & C) Hd].
  { done. }
  { intros d s' Hdep Hs'. assert (size (dom h ∖ bs_visited s') < fuel) as Hf'.
    { assert (a ∈ dom h) as Ha.
      { apply elem_of_dom. unfold agent_deps in Hdep. destruct (h !! a); [by eexists|simpl in Hdep; set_solver]. }
      assert (size (dom h ∖ bs_visited s') < size (dom h ∖ bs_visited s)); [|lia].
      apply subset_size. simpl in Hs'. split; [set_solver|]. intros Hs.
      assert (a ∈ dom h ∖ bs_visited s') by (apply Hs; set_solver). set_solver. }
    destruct (IH d (S depth) s' Hf') as (Hv & new & A & H & C). split; [|done].
    exists new. split; [done|]. split; [|done]. intros t Ht.
    destruct (H t Ht) as [[<- ?]|?]; [left; done|by right]. }
  set (s1 := build_deps _ _ s0) in *. simpl. split.
  { apply (ad_visited _ _ _ A). right. simpl. set_solver. }
  eexists. split; [by apply adds_task|]. split.
  - intros t [->|Ht]%elem_of_cons; [by left|]. right.
    destruct (H t Ht) as [[Hst Hdep]|(t' & Ht' & ? & ?)].
    + exists (new_task h uuid clock input a depth (bs_tasks s1)). split; [by left|]. done.
    + exists t'. split; [by right|done].
  - intros t x [->|Ht]%elem_of_cons Hx; simpl; [by apply Hd|by eapply C].
Qed.

(** ** From the map to the list of stages *)

Lemma elem_of_collect m n st :
  st ∈ collect_stages m n ↔
  ∃ i l, i ≤ n ∧ m !! i = Some l ∧ st = mkAgentStage i l (bool_decide (0 < i)).
Proof.
  induction n as [|n IH]; simpl; rewrite elem_of_app; [|rewrite IH]; clear.
  - split.
    + intros [H|H]; [|set_solver]. destruct (m !! 0) as [l|] eqn:E; [|set_solver].
      apply list_elem_of_singleton in H as ->. exists 0, l. done.
    + intros (i & l & Hi & Hl & ->). left. assert (i = 0) as -> by lia. rewrite Hl. set_solver.
  - split.
    + intros [H|(i & l & ? & ? & ?)]; [|exists i, l; split; [lia|done]].
      destruct (m !! S n) as [l|] eqn:E; [|set_solver]. apply list_elem_of_singleton in H as ->. exists (S n), l. done.
    + intros (i & l & Hi & Hl & ->). destruct (decide (i = S n)) as [->|Hne].
      * left. rewrite Hl. set_solver.
      * right. exists i, l. split; [lia|done].
Qed.

Lemma collect_sorted m n : StronglySorted (λ x y, as_ID y < as_ID x) (collect_stages m n).
Proof.
  induction n as [|n IH]; simpl.
  - destruct (m !! 0); simpl; repeat constructor.
  - destruct (m !! S n) as [l|]; simpl; [|done]. constructor; [done|].
    apply Forall_forall. intros st (i & l' & ? & _ & ->)%elem_of_collect. simpl. lia.
Qed.

Lemma collect_nodup m n : NoDup (collect_stages m n).
Proof.
  pose proof (collect_sorted m n) as Hs. induction Hs as [|x l _ IH Hx]; constructor; [|done].
  intros Hin. rewrite Forall_forall in Hx. specialize (Hx x Hin). lia.
Qed.

Lemma max_depth_le m n l : m !! n = Some l → n ≤ max_depth m.
Proof.
  intros Hl. apply elem_of_map_to_list in Hl. unfold max_depth. revert Hl.
  induction (map_to_list m) as [|x xs IH]; intros Hin; [set_solver|]. simpl.
  apply elem_of_cons in Hin as [<-|Hin]; simpl; case_decide; try lia. specialize (IH Hin). lia. specialize (IH Hin). lia.
Qed.

Lemma max_depth_key m : is_Some (m !! 0) → is_Some (m !! max_depth m).
Proof.
  intros H0. unfold max_depth.
  assert (∀ x, x ∈ map_to_list m → is_Some (m !! x.1)) as Hk.
  { intros [n l] Hin%elem_of_map_to_list. by eexists. }
  revert Hk. induction (map_to_list m) as [|x xs IH]; intros Hk; simpl; [done|].
  case_decide; [apply Hk; by left|]. apply IH. intros y Hy. apply Hk. by right.
Qed.

Lemma collect_tasks m : collect_stages m (max_depth m) ≫= as_Tasks ≡ₚ all_tasks m.
Proof.
  set (pair_of := λ st : AgentStage Input, (as_ID st, as_Tasks st)).
  assert (pair_of <$> collect_stages m (max_depth m) ≡ₚ map_to_list m) as Hp.
  { apply NoDup_Permutation.
    - apply NoDup_fmap_2_strong; [|apply collect_nodup].
      intros x y (i & l & _ & _ & ->)%elem_of_collect (j & l' & _ & _ & ->)%elem_of_collect.
      unfold pair_of. simpl. by intros [= -> ->].
    - apply NoDup_map_to_list.
    - intros [n l]. rewrite elem_of_map_to_list, list_elem_of_fmap. setoid_rewrite elem_of_collect. split.
      + intros (st & Heq & i & l' & _ & Hm & ->). unfold pair_of in Heq. by simplify_eq/=.
      + intros Hm. exists (mkAgentStage n l (bool_decide (0 < n))). split; [done|].
        exists n, l. split; [by eapply max_depth_le|done]. }
  unfold all_tasks. rewrite <- Hp. clear Hp. induction (collect_stages _ _) as [|st sts IH]; simpl; [done|]. by rewrite IH.
Qed.

Lemma collect_ids m n : (∀ i, i ≤ n → is_Some (m !! i)) → as_ID <$> collect_stages m n = reverse (seq 0 (S n)).
Proof.
  intros Hm. induction n as [|n IH]; simpl.
  - by destruct (Hm 0) as [l ->].
  - destruct (Hm (S n)) as [l ->]; [done|]. csimpl. rewrite IH by (intros i Hi; apply Hm; lia).
    rewrite <- reverse_snoc. f_equal. symmetry. apply (seq_S (S n) 0).
Qed.

(** ** The whole construction *)

Section Whole.
Context (root : string).
Let final := build (find_fuel h) root 0 (mkBuild ∅ ∅ 0).
Let stages := buildAgentStages h uuid clock input root.

(** Tasks of the final map hang from the root's. *)
Record staging : Prop := {
  sg_nodup : NoDup (at_AgentID <$> all_tasks (bs_stages final));
  sg_visited x : x ∈ bs_visited final ↔ x ∈ at_AgentID <$> all_tasks (bs_stages final);
  sg_root : root ∈ bs_visited final;
  sg_staged : staged (bs_stages final);
  sg_parent t : t ∈ all_tasks (bs_stages final) →
    (at_AgentID t = root ∧ at_Stage t = 0) ∨
    ∃ t', t' ∈ all_tasks (bs_stages final) ∧ dependency h (at_AgentID t') (at_AgentID t) ∧ at_Stage t = S (at_Stage t');
  sg_made t : t ∈ all_tasks (bs_stages final) →
    ∃ n, t = new_task h uuid clock input (at_AgentID t) (at_Stage t) n;
  sg_closed t d : t ∈ all_tasks (bs_stages final) → dependency h (at_AgentID t) d → d ∈ bs_visited final;
}.

Lemma final_staging : staging.
Proof using.
  destruct (buildRecursive_adds (find_fuel h) root 0 (mkBuild ∅ ∅ 0)) as (Hr & new & [T V F N St Mk] & H & C).
  { simpl. rewrite difference_empty_L, size_dom. unfold find_fuel. lia. }
  fold final in Hr, T, V, St, C. simpl in *.
  assert (all_tasks (bs_stages final) ≡ₚ new) as Hp.
  { rewrite T. unfold all_tasks. rewrite map_to_list_empty. simpl. by rewrite app_nil_r. }
  split; [by rewrite Hp| |done| | | |].
  - intros x. rewrite V, Hp. set_solver.
  - apply St. intros n l. by rewrite lookup_empty.
  - intros t. setoid_rewrite Hp. apply H.
  - intros t. rewrite Hp. apply Mk.
  - intros t d. rewrite Hp. apply C.
Qed.

Lemma stage_key t : t ∈ all_tasks (bs_stages final) → is_Some (bs_stages final !! at_Stage t).
Proof using.
  intros (n & l & Hl & Ht)%elem_of_all_tasks. destruct (sg_staged final_staging n l Hl) as [_ Hn].
  rewrite (Hn t Ht). by eexists.
Qed.

Lemma stages_contiguous n : is_Some (bs_stages final !! n) → ∀ i, i ≤ n → is_Some (bs_stages final !! i).
Proof using.
  induction n as [|n IH]; intros Hn i Hi; [by assert (i = 0) as -> by lia|].
  destruct (decide (i = S n)) as [->|Hne]; [done|]. apply IH; [|lia].
  destruct Hn as [l Hl]. destruct (sg_staged final_staging _ _ Hl) as [Hne' Hst].
  destruct l as [|t l]; [done|]. assert (t ∈ all_tasks (bs_stages final)) as Ht.
  { apply elem_of_all_tasks. exists (S n), (t :: l). split; [done|by left]. }
  specialize (Hst t ltac:(by left)).
  destruct (sg_parent final_staging t Ht) as [[_ ?]|(t' & Ht' & _ & Hs)]; [lia|].
  assert (n = at_Stage t') as -> by lia. by apply stage_key.
Qed.

Lemma root_stage : is_Some (bs_stages final !! 0).
Proof using.
  pose proof (proj1 (sg_visited final_staging root) (sg_root final_staging)) as (t & _ & Ht)%list_elem_of_fmap.
  eapply stages_contiguous; [by apply stage_key|lia].
Qed.

(** The task of an agent is as far from the root as some path. *)
Lemma task_path t : t ∈ all_tasks (bs_stages final) → nsteps (dependency h) (at_Stage t) root (at_AgentID t).
Proof using.
  remember (at_Stage t) as n eqn:Hn. revert t Hn. induction n as [|n IH]; intros t Hn Ht;
    destruct (sg_parent final_staging t Ht) as [[Hr ?]|(t' & Ht' & Hd & Hs)]; try lia.
  - rewrite Hr. constructor.
  - eapply nsteps_r; [|done]. apply IH; [lia|done].
Qed.

Lemma reachable_tasks a : a ∈ at_AgentID <$> all_tasks (bs_stages final) ↔ rtc (dependency h) root a.
Proof using.
  split.
  - intros (t & -> & Ht)%list_elem_of_fmap. eapply rtc_nsteps_2. by apply task_path.
  - rewrite <- (sg_visited final_staging). revert a. apply rtc_ind_r; [apply (sg_root final_staging)|].
    intros a d _ Hd IH. apply (sg_visited final_staging) in IH as (t & -> & Ht)%list_elem_of_fmap. by eapply (sg_closed final_staging).
Qed.

Lemma stages_tasks : stages ≫= as_Tasks ≡ₚ all_tasks (bs_stages final).
Proof using. apply collect_tasks. Qed.

End Whole.
End StagesProofs.

Lemma nsteps_level (R : relation string) (level : string → nat) n x y :
  (∀ a d, R a d → level d = S (level a)) → nsteps R n x y → level y = n + level x.
Proof. intros HR. induction 1 as [x|n x z y Hxz _ IH]; [done|]. apply HR in Hxz. lia. Qed.

(** Building the stages of a root agent terminates for any dependencies, cyclic
    ones included.  The stages are numbered from the last down to 0 with none
    missing; together they hold exactly one task for each agent the root depends
    on, directly or not, itself included; a task is in the stage it names, stage
    0 is the root's alone, and a task of any other stage is a dependency of one
    in the stage that runs next.  Where dependencies have levels (each agent's
    are one level below it), a dependency always runs in the stage just before. *)
Theorem agent_stages {Input} (h : AgentStore) uuid clock (input : Input) root :
  let stages := buildAgentStages h uuid clock input root in
  let tasks := stages ≫= as_Tasks in
  as_ID <$> stages = reverse (seq 0 (length stages)) ∧
  NoDup (at_AgentID <$> tasks) ∧
  (∀ a, a ∈ at_AgentID <$> tasks ↔ rtc (dependency h) root a) ∧
  (∀ st, st ∈ stages → as_Tasks st ≠ [] ∧ as_IsShuffleMap st = bool_decide (0 < as_ID st) ∧
     ∀ t, t ∈ as_Tasks st → at_Stage t = as_ID st) ∧
  (∀ t, t ∈ tasks → at_Input t = input ∧ at_PreferredLoc t = from_option ag_partition "" (h !! at_AgentID t) ∧
     match at_Stage t with
     | 0 => at_AgentID t = root
     | S n => ∃ t', t' ∈ tasks ∧ at_Stage t' = n ∧ dependency h (at_AgentID t') (at_AgentID t)
     end) ∧
  (∀ level : string → nat, (∀ a d, dependency h a d → level d = S (level a)) →
     ∀ t t', t ∈ tasks → t' ∈ tasks → dependency h (at_AgentID t) (at_AgentID t') → at_Stage t' = S (at_Stage t)).
Proof.
  intros stages tasks. pose proof (final_staging h uuid clock input root) as Hsg.
  pose proof (stages_tasks h uuid clock input root) as Hp. fold stages in Hp. fold tasks in Hp.
  set (m := bs_stages _) in Hp.
  assert (∀ st, st ∈ stages → ∃ l, m !! as_ID st = Some l ∧ st = mkAgentStage (as_ID st) l (bool_decide (0 < as_ID st))) as Hst.
  { intros st (i & l & _ & Hl & ->)%elem_of_collect. simpl. eauto. }
  split_and!.
  - unfold stages, buildAgentStages. cbv zeta. fold m.
    assert (as_ID <$> collect_stages m (max_depth m) = reverse (seq 0 (S (max_depth m)))) as ->.
    { apply collect_ids. eapply stages_contiguous, max_depth_key, root_stage. }
    rewrite <- (length_fmap as_ID), collect_ids, length_reverse, length_seq; [done|].
    eapply stages_contiguous, max_depth_key, root_stage.
  - rewrite Hp. apply (sg_nodup _ _ _ _ _ Hsg).
  - intros a. rewrite Hp. apply reachable_tasks.
  - intros st Hin. destruct (Hst st Hin) as (l & Hl & ->). simpl in *.
    destruct (sg_staged _ _ _ _ _ Hsg _ _ Hl) as [? Hn]. split; [done|]. split; [done|]. exact Hn.
  - intros t Ht. rewrite Hp in Ht.
    destruct (sg_made _ _ _ _ _ Hsg t Ht) as [n Hn]. split; [by rewrite Hn|]. split; [by rewrite Hn|].
    destruct (sg_parent _ _ _ _ _ Hsg t Ht) as [[Hr ->]|(t' & Ht' & Hd & ->)]; [done|].
    exists t'. rewrite Hp. done.
  - intros level Hlev t t' Ht Ht' Hd%Hlev. rewrite Hp in Ht, Ht'.
    pose proof (nsteps_level _ level _ _ _ Hlev (task_path _ _ _ _ _ _ Ht)).
    pose proof (nsteps_level _ level _ _ _ Hlev (task_path _ _ _ _ _ _ Ht')). lia.
Qed.
