(* ===== verification/Orchestration.v ===== *)
(** * Workflow agents (pkg/agents)

    sequential_agent.go, loop_agent.go, parallel_agent.go and the splitters and
    map phase of mapreduce_agent.go.  Inputs and outputs are objects children may
    share and change, so they live in a heap, at locations.  What a child does is
    any function of its input and of the world, to a new world and an output or an
    error; [None] is a panic or a call that never returns.  A done context is a
    property of the world.  Events sent to the runtime and the times in the
    metadata are left out. *)

From stdpp Require Import base gmap strings list fin_maps relations pretty.
From S2P Require Import Prelude.

Open Scope Z_scope.

(** ** Values, inputs, outputs *)

Inductive Any :=
  | ANil
  | ABool (b : bool)
  | AInt (z : Z)
  | AString (s : string)
  | ASlice (l : list Any)             (** a [[]interface{}] *)
  | AInput (loc : nat)                (** an [*AgentInput] *)
  | AOutputs (l : list (option nat))  (** an [[]*AgentOutput] *)
  | AErrors (l : list (option error))
  | AMap (m : gmap string Any)          (** a [map[string]interface{}] *)
  | AOther (id : N).

(** [fmt.Sprintf("%v", x)]; [fmt_other] is the text of pointers and other types. *)
Fixpoint fmt_any (fmt_other : Any → string) (x : Any) : string :=
  match x with
  | ANil => "<nil>"
  | ABool b => if b then "true" else "false"
  | AInt z => pretty z
  | AString s => s
  | ASlice l =>
      "[" +:+ (fix go (l : list Any) : string :=
         match l with
         | [] => ""
         | [x] => fmt_any fmt_other x
         | x :: l' => fmt_any fmt_other x +:+ " " +:+ go l'
         end) l +:+ "]"
  | _ => fmt_other x
  end.

Record InputObj := mkInputObj {
  in_Instruction : string;
  in_Context : option (gmap string Any);
  in_Rest : N;                            (** task id, tools, model, retries, timeout *)
}.

Record OutputObj := mkOutputObj {
  out_Result : Any;
  out_Metadata : option (gmap string Any);
  out_Error : option error;
  out_Rest : N;
}.

Section Workflows.
Context {Env : Type} (fmt_other : Any → string) (ctx_done : Env → bool).

Record AgentWorld := mkAgentWorld {
  wd_inputs : gmap nat InputObj;
  wd_outputs : gmap nat OutputObj;
  wd_env : Env;
}.

Definition alloc_input (i : InputObj) (w : AgentWorld) : nat * AgentWorld :=
  let l := fresh (dom (wd_inputs w)) in (l, mkAgentWorld (<[l := i]> (wd_inputs w)) (wd_outputs w) (wd_env w)).
Definition alloc_output (o : OutputObj) (w : AgentWorld) : nat * AgentWorld :=
  let l := fresh (dom (wd_outputs w)) in (l, mkAgentWorld (wd_inputs w) (<[l := o]> (wd_outputs w)) (wd_env w)).

Record ChildAgent := mkChild {
  ch_name : string;
  ch_run : nat → AgentWorld → option (result (option nat) * AgentWorld);
}.

(** Reading through a pointer. *)
Definition output_at (w : AgentWorld) (p : option nat) : option OutputObj := l ← p; wd_outputs w !! l.

(** ** Sequential agents *)

Record SequentialAgent := mkSequential {
  sq_childAgents : list ChildAgent;
  sq_passOutput : bool;
  sq_stopOnError : bool;
}.

(** [SubAgents] wins over [Agents]. *)
Definition NewSequentialAgent (agents subAgents : list ChildAgent) (passOutput stopOnError : bool) : SequentialAgent :=
  mkSequential (match subAgents with [] => agents | _ => subAgents end) passOutput stopOnError.

Definition seq_failed (i : nat) (name : string) (err : error) : error :=
  EWrap ("sequential agent failed at step " +:+ pretty (Z.of_nat i) +:+ " (" +:+ name +:+ "): ") err "".

Definition error_output (name : string) (i : nat) (err : error) : OutputObj :=
  mkOutputObj ANil (Some {["agent" := AString name; "step" := AInt (Z.of_nat i)]}) (Some err) 0.

Definition input_after_error (instruction name : string) (err : error) : InputObj :=
  mkInputObj instruction
    (Some {["previous_error" := AString (Error err); "previous_agent" := AString name; "previous_result" := ANil]}) 0.

Definition input_after (name : string) (original : nat) (o : OutputObj) : InputObj :=
  mkInputObj ("Process the following result: " +:+ fmt_any fmt_other (out_Result o))
    (Some {["previous_result" := out_Result o; "previous_agent" := AString name; "original_input" := AInput original]}) 0.

Section Sequential.
Context (a : SequentialAgent) (input : nat).

Fixpoint seq_loop (i : nat) (children : list ChildAgent) (results : list (option nat)) (current : nat) (w : AgentWorld)
    : option (result (list (option nat)) * AgentWorld) :=
  match children with
  | [] => Some (inr results, w)
  | c :: children' =>
      '(r, w) ← ch_run c current w;
      match r with
      | inl err =>
          if sq_stopOnError a then Some (inl (seq_failed i (ch_name c) err), w)
          else
            let '(o, w) := alloc_output (error_output (ch_name c) i err) w in
            if sq_passOutput a then
              inp ← wd_inputs w !! current;
              let '(next, w) := alloc_input (input_after_error (in_Instruction inp) (ch_name c) err) w in
              seq_loop (S i) children' (results ++ [Some o]) next w
            else seq_loop (S i) children' (results ++ [Some o]) current w
      | inr out =>
          if sq_passOutput a && (S i <? length (sq_childAgents a))%nat then
            o ← output_at w out;
            let '(next, w) := alloc_input (input_after (ch_name c) input o) w in
            seq_loop (S i) children' (results ++ [out]) next w
          else seq_loop (S i) children' (results ++ [out]) current w
      end
  end.

Definition aggregateResults (results : list (option nat)) (w : AgentWorld) : option Any :=
  match results with
  | [] => Some ANil
  | [p] => out_Result <$> output_at w p
  | _ =>
      if sq_passOutput a then p ← last results; out_Result <$> output_at w p
      else ASlice <$> mapM (λ p, out_Result <$> output_at w p) results
  end.

Definition seq_Execute (w : AgentWorld) : option (result nat * AgentWorld) :=
  '(r, w) ← seq_loop 0 (sq_childAgents a) [] input w;
  match r with
  | inl err => Some (inl err, w)
  | inr results =>
      final ← aggregateResults results w;
      let '(l, w) := alloc_output (mkOutputObj final
          (Some {["pattern" := AString "Sequential"; "steps_completed" := AInt (Z.of_nat (length results));
                  "total_steps" := AInt (Z.of_nat (length (sq_childAgents a))); "step_results" := AOutputs results]}) None 0) w in
      Some (inr l, w)
  end.

End Sequential.

(** [conditionalExecutor]: the previous result must be an output object. *)
Definition cond_Execute (condition : nat → bool) (thenAgent elseAgent : option ChildAgent) (is_output : Any → option nat)
    (input : nat) (w : AgentWorld) : option (result (option nat) * AgentWorld) :=
  inp ← wd_inputs w !! input;
  let previous := prev ← (m ← in_Context inp; m !! "previous_result"); is_output prev in
  let target := match previous with Some o => if condition o then thenAgent else elseAgent | None => elseAgent end in
  match target with
  | Some c => ch_run c input w
  | None =>
      let '(l, w) := alloc_output (mkOutputObj (AInput input)
         (Some {["pattern" := AString "Conditional"; "skipped" := ABool true]}) None 0) w in Some (inr (Some l), w)
  end.

(** ** Loop agents *)

Inductive LoopType := WhileLoop | UntilLoop | ForEachLoop | CountLoop.
Inductive AccumulateMode := AccumulateAll | AccumulateLast | AccumulateState | AccumulateOther (mode : string).

Record LoopAgent := mkLoop {
  lp_innerAgent : ChildAgent;
  lp_loopType : LoopType;
  lp_condition : option (nat → Z → AgentWorld → option bool);  (** of the output and the iteration *)
  lp_maxIterations : Z;
  lp_accumulateMode : AccumulateMode;
}.

(** The defaults of [NewLoopAgent]; the empty mode is [None]. *)
Definition NewLoopAgent (inner : ChildAgent) (t : LoopType) (cond : option (nat → Z → AgentWorld → option bool)) (max : Z)
    (mode : option AccumulateMode) : LoopAgent :=
  mkLoop inner t cond (if max =? 0 then 10 else max) (default AccumulateLast mode).

Section Loop.
Context (a : LoopAgent) (input : nat).

Definition escalates (o : OutputObj) : bool :=
  match m ← out_Metadata o; m !! "escalate" with Some (ABool true) => true | _ => false end.

Definition evaluateCondition (out : option nat) (iteration : Z) (w : AgentWorld) : option bool :=
  o ← output_at w out;
  if escalates o then Some false
  else match lp_condition a with
       | None => Some true
       | Some cond =>
           l ← out; r ← cond l iteration w;
           Some (match lp_loopType a with UntilLoop => negb r | _ => r end)
       end.

Definition prepareNextInput (out : option nat) (iteration : Z) (w : AgentWorld) : option (nat * AgentWorld) :=
  orig ← wd_inputs w !! input;
  o ← output_at w out;
  Some (alloc_input (mkInputObj (in_Instruction orig)
    (Some {["iteration" := AInt (iteration + 1); "previous_result" := out_Result o; "original_input" := AInput input;
            "state" := default ANil (m ← out_Metadata o; m !! "state")]}) 0) w).

Definition accumulate (results : list (option nat)) (out : option nat) : list (option nat) :=
  match lp_accumulateMode a with
  | AccumulateAll => results ++ [out]
  | AccumulateLast | AccumulateState => [out]
  | AccumulateOther _ => results
  end.

Definition loop_timed_out (iteration : Z) : error :=
  EText ("loop execution timed out after " +:+ pretty iteration +:+ " iterations").
Definition loop_failed (iteration : Z) (err : error) : error :=
  EWrap ("loop iteration " +:+ pretty iteration +:+ " failed: ") err "".

(** [fuel] is the number of iterations left; the loop leaves with what it has
    accumulated, the last output and the iterations done. *)
Fixpoint loop_turns (fuel : nat) (iteration : Z) (results : list (option nat)) (last : option (option nat)) (current : nat) (w : AgentWorld)
    : option (result (list (option nat) * option (option nat) * Z) * AgentWorld) :=
  match fuel with
  | O => Some (inr (results, last, iteration), w)
  | S fuel' =>
      if ctx_done (wd_env w) then Some (inl (loop_timed_out iteration), w)
      else
        let iteration := iteration + 1 in
        '(r, w) ← ch_run (lp_innerAgent a) current w;
        match r with
        | inl err => Some (inl (loop_failed iteration err), w)
        | inr out =>
            let results := accumulate results out in
            continue ← evaluateCondition out iteration w;
            if (continue : bool) then
              '(next, w) ← prepareNextInput out iteration w;
              loop_turns fuel' iteration results (Some out) next w
            else Some (inr (results, Some out, iteration), w)
        end
  end.

Definition buildFinalResult (results : list (option nat)) (last : option (option nat)) (w : AgentWorld) : option Any :=
  match lp_accumulateMode a with
  | AccumulateLast =>
      match last with Some p => out_Result <$> output_at w p | None => Some ANil end
  | AccumulateAll => ASlice <$> mapM (λ p, out_Result <$> output_at w p) results
  | AccumulateState =>
      match last with
      | Some p => o ← output_at w p; Some (default (out_Result o) (m ← out_Metadata o; m !! "state"))
      | None => Some ANil
      end
  | AccumulateOther _ => p ← last; out_Result <$> output_at w p
  end.

Definition loop_Execute (w : AgentWorld) : option (result nat * AgentWorld) :=
  '(r, w) ← loop_turns (Z.to_nat (lp_maxIterations a)) 0 [] None input w;
  match r with
  | inl err => Some (inl err, w)
  | inr (results, last, iteration) =>
      final ← buildFinalResult results last w;
      let '(l, w) := alloc_output (mkOutputObj final
          (Some {["pattern" := AString "Loop"; "iterations" := AInt iteration; "max_iterations" := AInt (lp_maxIterations a);
                  "all_results" := AOutputs results; "completed_early" := ABool (iteration <? lp_maxIterations a)]}) None 0) w in
      Some (inr l, w)
  end.

End Loop.

(** ** What ran *)

(** One call of a child: its input, the worlds around it, its outcome. *)
Record Call := mkCall {
  cl_child : ChildAgent;
  cl_input : nat;
  cl_before : AgentWorld;
  cl_outcome : result (option nat);
  cl_after : AgentWorld;
}.

(** Calls made one after the other, the first with [input] in [w]; [link] relates
    a call and the next. *)
Record calls_made (link : nat → Call → Call → Prop) (i : nat) (input : nat) (w : AgentWorld) (calls : list Call) : Prop := {
  cm_first c : calls !! 0%nat = Some c → cl_input c = input ∧ cl_before c = w;
  cm_ran j c : calls !! j = Some c → ch_run (cl_child c) (cl_input c) (cl_before c) = Some (cl_outcome c, cl_after c);
  cm_link j c c' : calls !! j = Some c → calls !! S j = Some c' → link (i + j)%nat c c';
}.

Lemma calls_made_nil link i input w : calls_made link i input w [].
Proof. split; intros; simplify_eq/=. Qed.

Lemma calls_made_one link i c input w out w' :
  ch_run c input w = Some (out, w') → calls_made link i input w [mkCall c input w out w'].
Proof.
  intros Hr. split.
  - by intros c' [= <-].
  - by intros [|j] c' Hc; simplify_eq/=.
  - by intros [|j] c' c'' _ Hc.
Qed.

Lemma calls_made_cons link i c input w out w' next w'' calls :
  ch_run c input w = Some (out, w') → calls_made link (S i) next w'' calls →
  (∀ c', calls !! 0%nat = Some c' → link i (mkCall c input w out w') c') →
  calls_made link i input w (mkCall c input w out w' :: calls).
Proof.
  intros Hr [Hf Hra Hl] Hlink. split.
  - by intros c' [= <-].
  - intros [|j] c' Hc; simplify_eq/=; [done|eauto].
  - intros [|j] c1 c2 H1 H2; simplify_eq/=; [rewrite Nat.add_0_r; auto|].
    replace (i + S j)%nat with (S i + j)%nat by lia. eauto.
Qed.

Definition succeeded (c : Call) : Prop := ∃ out, cl_outcome c = inr out.

(** Only the heap grows between two calls. *)
Definition same_env (w w' : AgentWorld) : Prop :=
  wd_env w' = wd_env w ∧ wd_inputs w ⊆ wd_inputs w' ∧ wd_outputs w ⊆ wd_outputs w'.

Lemma alloc_input_spec i w l w' :
  alloc_input i w = (l, w') → wd_inputs w !! l = None ∧ wd_inputs w' !! l = Some i ∧ same_env w w'.
Proof.
  intros Ha. unfold alloc_input in Ha. simplify_eq.
  assert (wd_inputs w !! fresh (dom (wd_inputs w)) = None) as Hf by (apply not_elem_of_dom, is_fresh).
  split; [done|]. simpl. split; [by rewrite lookup_insert_eq|]. split; [done|]. simpl. split; [by apply insert_subseteq|done].
Qed.

Lemma alloc_output_spec o w l w' :
  alloc_output o w = (l, w') → wd_outputs w !! l = None ∧ wd_outputs w' !! l = Some o ∧ same_env w w' ∧ wd_inputs w' = wd_inputs w.
Proof.
  intros Ha. unfold alloc_output in Ha. simplify_eq.
  assert (wd_outputs w !! fresh (dom (wd_outputs w)) = None) as Hf by (apply not_elem_of_dom, is_fresh).
  split; [done|]. simpl. split; [by rewrite lookup_insert_eq|]. split; [|done]. split; [done|]. simpl. split; [done|by apply insert_subseteq].
Qed.

(** *** Children that return *)

(** A child that returns whatever it is given, with an output when it succeeds, and
    does not take objects away. *)
Definition returns (c : ChildAgent) : Prop :=
  ∀ i w, ∃ r w', ch_run c i w = Some (r, w') ∧ dom (wd_inputs w) ⊆ dom (wd_inputs w') ∧
    dom (wd_outputs w) ⊆ dom (wd_outputs w') ∧ ∀ out, r = inr out → is_Some (output_at w' out).

Definition present (w : AgentWorld) (p : option nat) : Prop := ∃ l, p = Some l ∧ l ∈ dom (wd_outputs w).

Lemma present_output w p : present w p ↔ is_Some (output_at w p).
Proof.
  unfold present, output_at. split.
  - intros (l & -> & Hl%elem_of_dom). done.
  - destruct p as [l|]; simpl; [|by intros [? ?]]. intros Hl. exists l. split; [done|]. by apply elem_of_dom.
Qed.

Lemma present_grows w w' p : dom (wd_outputs w) ⊆ dom (wd_outputs w') → present w p → present w' p.
Proof. intros Hs (l & -> & Hl). exists l. split; [done|]. by apply Hs. Qed.

Lemma alloc_input_dom i w l w' :
  alloc_input i w = (l, w') → l ∈ dom (wd_inputs w') ∧ dom (wd_inputs w) ⊆ dom (wd_inputs w') ∧ wd_outputs w' = wd_outputs w.
Proof. intros Ha. unfold alloc_input in Ha. simplify_eq. simpl. rewrite dom_insert_L. set_solver. Qed.

Lemma alloc_output_dom o w l w' :
  alloc_output o w = (l, w') → present w' (Some l) ∧ dom (wd_outputs w) ⊆ dom (wd_outputs w') ∧ wd_inputs w' = wd_inputs w.
Proof.
  intros Ha. unfold alloc_output in Ha. simplify_eq. simpl. split; [|rewrite dom_insert_L; set_solver].
  eexists. split; [done|]. simpl. rewrite dom_insert_L. set_solver.
Qed.

Lemma mapM_present w results : Forall (present w) results → is_Some (mapM (λ p, out_Result <$> output_at w p) results).
Proof.
  intros Hf. apply mapM_is_Some. eapply Forall_impl; [exact Hf|]. intros p Hp. simpl. apply fmap_is_Some. by apply present_output.
Qed.

(** *** Sequences *)

Section SequentialProofs.
Context (a : SequentialAgent) (input : nat).

(** What the next child is given. *)
Definition passes (i : nat) (c c' : Call) : Prop :=
  same_env (cl_after c) (cl_before c') ∧
  if sq_passOutput a then
    wd_inputs (cl_after c) !! cl_input c' = None ∧
    match cl_outcome c with
    | inr out => ∃ o, output_at (cl_after c) out = Some o ∧
        wd_inputs (cl_before c') !! cl_input c' = Some (input_after (ch_name (cl_child c)) input o)
    | inl err => ∃ inp, wd_inputs (cl_after c) !! cl_input c = Some inp ∧
        wd_inputs (cl_before c') !! cl_input c' = Some (input_after_error (in_Instruction inp) (ch_name (cl_child c)) err)
    end
  else cl_input c' = cl_input c.

(** The result recorded for a call: its output, or an output made of its error. *)
Definition recorded (i : nat) (c : Call) (p : option nat) : Prop :=
  match cl_outcome c with
  | inr out => p = out
  | inl err => sq_stopOnError a = false ∧ is_Some p
  end.

Lemma output_at_grows w w' p : wd_outputs w ⊆ wd_outputs w' → is_Some (output_at w p) → output_at w' p = output_at w p.
Proof.
  intros Hs [o Ho]. unfold output_at in *. destruct p as [l|]; simpl in *; [|done]. rewrite Ho. by eapply lookup_weaken.
Qed.

Lemma aggregate_grows results w w' :
  is_Some (aggregateResults a results w) → wd_outputs w ⊆ wd_outputs w' → aggregateResults a results w' = aggregateResults a results w.
Proof.
  intros Hs Hw. assert (∀ p, is_Some (out_Result <$> output_at w p) → out_Result <$> output_at w' p = out_Result <$> output_at w p) as Hone.
  { intros p Hp. apply fmap_is_Some in Hp. by rewrite (output_at_grows w w'). }
  unfold aggregateResults in *. destruct results as [|p [|q rest]]; [done|by apply Hone|].
  destruct (sq_passOutput a).
  - destruct (last (p :: q :: rest)) as [x|]; [|done]. simpl in *. by apply Hone.
  - f_equal. apply fmap_is_Some in Hs as [l Hl]. rewrite Hl. apply mapM_Some in Hl. apply mapM_Some.
    eapply Forall2_impl; [exact Hl|]. intros x y Hxy. simpl in *. rewrite Hone; [done|]. by rewrite Hxy.
Qed.

Lemma same_env_trans w w1 w2 : same_env w w1 → same_env w1 w2 → same_env w w2.
Proof. intros (? & ? & ?) (? & ? & ?). split; [congruence|]. split; by etrans. Qed.

Lemma seq_loop_returns i children results current w :
  Forall returns children → current ∈ dom (wd_inputs w) → Forall (present w) results →
  ∃ r w', seq_loop a input i children results current w = Some (r, w') ∧
    ∀ results', r = inr results' → Forall (present w') results'.
Proof.
  revert i results current w. induction children as [|c children IH]; intros i results current w Hch Hcur Hres; cbn [seq_loop].
  { eexists _, _. split; [done|]. by intros results' [= <-]. }
  apply Forall_cons in Hch as [Hc Hch]. destruct (Hc current w) as (r & w1 & Hr & Hin & Hout & Hsucc). rewrite Hr. cbn [mbind option_bind].
  assert (Forall (present w1) results) as Hres1 by (eapply Forall_impl; [exact Hres|]; intros p; by apply present_grows).
  destruct r as [err|out].
  - destruct (sq_stopOnError a); [eexists _, _; split; [done|]; by intros results'|].
    destruct (alloc_output _ w1) as [o w2] eqn:Ho. destruct (alloc_output_dom _ _ _ _ Ho) as (Hp & Hd & Hi).
    assert (Forall (present w2) (results ++ [Some o])) as Hres2.
    { apply Forall_app. split; [eapply Forall_impl; [exact Hres1|]; intros p; by apply present_grows|by constructor]. }
    destruct (sq_passOutput a); [|apply IH; [done|rewrite Hi; by apply Hin|done]].
    destruct (wd_inputs w2 !! current) as [inp|] eqn:Hinp.
    2: { apply not_elem_of_dom in Hinp. rewrite Hi in Hinp. by destruct Hinp; apply Hin. }
    cbn [mbind option_bind]. destruct (alloc_input _ w2) as [next w3] eqn:Hn. destruct (alloc_input_dom _ _ _ _ Hn) as (Hl & _ & Hwo).
    apply IH; [done|done|]. eapply Forall_impl; [exact Hres2|]. intros p. apply present_grows. by rewrite Hwo.
  - assert (Forall (present w1) (results ++ [out])) as Hres2.
    { apply Forall_app. split; [done|]. constructor; [|constructor]. apply present_output. by apply Hsucc. }
    destruct (sq_passOutput a && _); [|apply IH; [done|by apply Hin|done]].
    destruct (Hsucc out eq_refl) as [o Ho]. rewrite Ho. cbn [mbind option_bind].
    destruct (alloc_input _ w1) as [next w3] eqn:Hn. destruct (alloc_input_dom _ _ _ _ Hn) as (Hl & _ & Hwo).
    apply IH; [done|done|]. eapply Forall_impl; [exact Hres2|]. intros p. apply present_grows. by rewrite Hwo.
Qed.

Lemma seq_Execute_returns w :
  Forall returns (sq_childAgents a) → input ∈ dom (wd_inputs w) → is_Some (seq_Execute a input w).
Proof.
  intros Hch Hin. destruct (seq_loop_returns 0 (sq_childAgents a) [] input w Hch Hin) as (r & w1 & Hs & Hp); [constructor|].
  unfold seq_Execute. rewrite Hs. cbn [mbind option_bind]. destruct r as [e|results]; [by eexists|].
  specialize (Hp results eq_refl). assert (is_Some (aggregateResults a results w1)) as [final ->]; [|by eexists].
  unfold aggregateResults. destruct results as [|p [|q rest]]; [by eexists| |].
  - apply fmap_is_Some, present_output. by apply Forall_inv in Hp.
  - destruct (sq_passOutput a); [|by apply fmap_is_Some, mapM_present].
    destruct (last (p :: q :: rest)) as [x|] eqn:Hl; [|by apply last_None in Hl]. simpl. apply fmap_is_Some, present_output.
    rewrite Forall_forall in Hp. apply Hp. by eapply last_Some_elem_of.
Qed.

Lemma seq_loop_calls i children results current w r w' :
  (i + length children = length (sq_childAgents a))%nat →
  seq_loop a input i children results current w = Some (r, w') →
  ∃ calls, cl_child <$> calls = take (length calls) children ∧ calls_made passes i current w calls ∧
    match r with
    | inl e => sq_stopOnError a = true ∧ ∃ front c err, calls = front ++ [c] ∧ Forall succeeded front ∧
        cl_outcome c = inl err ∧ e = seq_failed (i + length front) (ch_name (cl_child c)) err
    | inr results' => length calls = length children ∧
        ∃ new, results' = results ++ new ∧ Forall2 (recorded i) calls new
    end.
Proof.
  revert i results current w. induction children as [|c children IH]; intros i results current w Hlen Hrun; cbn [seq_loop] in Hrun.
  { simplify_eq. exists []. split; [done|]. split; [apply calls_made_nil|]. split; [done|].
    exists []. rewrite app_nil_r. split; [done|constructor]. }
  destruct (ch_run c current w) as [[out w1]|] eqn:Hr; [|done]. cbn [mbind option_bind] in Hrun. simpl in Hlen.
  assert (∀ next w2 p, seq_loop a input (S i) children (results ++ [p]) next w2 = Some (r, w') →
    (∀ c', cl_input c' = next → cl_before c' = w2 → children ≠ [] → passes i (mkCall c current w out w1) c') →
    recorded i (mkCall c current w out w1) p → (sq_stopOnError a = true → succeeded (mkCall c current w out w1)) →
    ∃ calls, cl_child <$> calls = take (length calls) (c :: children) ∧ calls_made passes i current w calls ∧
    match r with
    | inl e => sq_stopOnError a = true ∧ ∃ front c err, calls = front ++ [c] ∧ Forall succeeded front ∧
        cl_outcome c = inl err ∧ e = seq_failed (i + length front) (ch_name (cl_child c)) err
    | inr results' => length calls = S (length children) ∧
        ∃ new, results' = results ++ new ∧ Forall2 (recorded i) calls new
    end) as Hgo.
  { intros next w2 p Hseq Hlink Hrec Hsucc.
    destruct (IH (S i) (results ++ [p]) next w2 ltac:(lia) Hseq) as (calls & Hch & Hmade & Hres).
    exists (mkCall c current w out w1 :: calls). split; [by csimpl; f_equal|]. split.
    { eapply calls_made_cons; [done|done|]. intros c' Hc'. destruct (cm_first _ _ _ _ _ Hmade c' Hc') as [H1 H2].
      apply Hlink; [done..|]. intros ->. rewrite take_nil in Hch. by destruct calls. }
    destruct r as [e|results'].
    - destruct Hres as (Hstop & front & c' & err & -> & Hfr & Ho & ->). split; [done|].
      exists (mkCall c current w out w1 :: front), c', err. split; [done|]. split; [constructor; auto|]. split; [done|].
      simpl. do 2 f_equal. lia.
    - destruct Hres as (Hl & new & -> & Hf2). split; [simpl; lia|]. exists (p :: new).
      split; [by rewrite <- app_assoc|]. constructor; done. }
  destruct out as [err|out].
  - destruct (sq_stopOnError a) eqn:Hstop.
    { simplify_eq. exists [mkCall c current w (inl err) w']. split; [done|]. split; [by apply calls_made_one|]. split; [done|].
      exists [], (mkCall c current w (inl err) w'), err. split; [done|]. split; [constructor|]. split; [done|].
      simpl. by rewrite Nat.add_0_r. }
    destruct (alloc_output _ w1) as [o w2] eqn:Ho. destruct (alloc_output_spec _ _ _ _ Ho) as (_ & _ & Henv & Hin).
    destruct (sq_passOutput a) eqn:Hpass.
    + destruct (wd_inputs w2 !! current) as [inp|] eqn:Hinp; [|done]. cbn [mbind option_bind] in Hrun.
      destruct (alloc_input _ w2) as [next w3] eqn:Hn. destruct (alloc_input_spec _ _ _ _ Hn) as (Hfr & Hnew & Henv').
      eapply Hgo; [exact Hrun| |by split|done]. intros c' Hi Hb _. unfold passes. simpl. rewrite Hi, Hb, Hpass.
      rewrite Hin in Hfr, Hinp. split; [by eapply same_env_trans|]. eauto.
    + eapply Hgo; [exact Hrun| |by split|done]. intros c' Hi Hb _. unfold passes. simpl. by rewrite Hi, Hb, Hpass.
  - destruct (sq_passOutput a) eqn:Hpass; cbn [andb] in Hrun.
    + destruct (Nat.ltb_spec (S i) (length (sq_childAgents a))) as [Hlt|Hge].
      * destruct (output_at w1 out) as [o|] eqn:Ho; [|done]. cbn [mbind option_bind] in Hrun.
        destruct (alloc_input _ w1) as [next w3] eqn:Hn. destruct (alloc_input_spec _ _ _ _ Hn) as (Hfr & Hnew & Henv').
        eapply Hgo; [exact Hrun| |done|by eexists]. intros c' Hi Hb _. unfold passes. simpl. rewrite Hi, Hb, Hpass. eauto.
      * eapply Hgo; [exact Hrun| |done|by eexists]. intros c' Hi Hb Hne. destruct children; [done|simpl in Hlen; lia].
    + eapply Hgo; [exact Hrun| |done|by eexists]. intros c' Hi Hb _. unfold passes. simpl. by rewrite Hi, Hb, Hpass.
Qed.
End SequentialProofs.

(** *** Loops *)

Section LoopProofs.
Context (a : LoopAgent) (input : nat).

(** A turn after which the loop goes on, and what the next turn is given. *)
Definition goes_on (i : nat) (c c' : Call) : Prop :=
  ∃ out o orig, cl_outcome c = inr out ∧ output_at (cl_after c) out = Some o ∧
    evaluateCondition a out (Z.of_nat i + 1) (cl_after c) = Some true ∧
    same_env (cl_after c) (cl_before c') ∧ ctx_done (wd_env (cl_before c')) = false ∧
    wd_inputs (cl_after c) !! input = Some orig ∧ wd_inputs (cl_after c) !! cl_input c' = None ∧
    wd_inputs (cl_before c') !! cl_input c' = Some (mkInputObj (in_Instruction orig)
      (Some {["iteration" := AInt (Z.of_nat i + 1 + 1); "previous_result" := out_Result o; "original_input" := AInput input;
              "state" := default ANil (m ← out_Metadata o; m !! "state")]}) 0).

(** What the modes keep of the outputs. *)
Definition outputs_of (calls : list Call) : list (option nat) :=
  omap (λ c, match cl_outcome c with inr out => Some out | inl _ => None end) calls.
Definition kept_outputs (results outs : list (option nat)) : list (option nat) := foldl (accumulate a) results outs.

Lemma kept_outputs_mode outs :
  kept_outputs [] outs = match lp_accumulateMode a with
    | AccumulateAll => outs
    | AccumulateLast | AccumulateState => match last outs with Some p => [p] | None => [] end
    | AccumulateOther _ => []
    end.
Proof.
  unfold kept_outputs. induction outs as [|p outs IH] using rev_ind; [by destruct (lp_accumulateMode a)|].
  rewrite foldl_snoc, last_snoc. unfold accumulate in *. rewrite IH. by destruct (lp_accumulateMode a).
Qed.

(** How a loop ends after the turns [calls] when it may make [max]. *)
Definition loop_ends (max i : nat) (results : list (option nat)) (lastout : option (option nat)) (w : AgentWorld) (calls : list Call)
    (r : result (list (option nat) * option (option nat) * Z)) : Prop :=
  let n := (i + length calls)%nat in
  match r with
  | inl e =>
      (n < max)%nat ∧ Forall succeeded calls ∧ e = loop_timed_out (Z.of_nat n) ∨
      ∃ front c err, calls = front ++ [c] ∧ Forall succeeded front ∧ cl_outcome c = inl err ∧ e = loop_failed (Z.of_nat n) err
  | inr (results', lastout', iteration) =>
      iteration = Z.of_nat n ∧ Forall succeeded calls ∧ results' = kept_outputs results (outputs_of calls) ∧
      lastout' = match last (outputs_of calls) with Some p => Some p | None => lastout end ∧
      (n = max ∨ ∃ front c out, calls = front ++ [c] ∧ cl_outcome c = inr out ∧
         evaluateCondition a out (Z.of_nat n) (cl_after c) = Some false)
  end.

Definition condition_returns : Prop := ∀ cond l i w, lp_condition a = Some cond → is_Some (cond l i w).

Lemma loop_turns_returns fuel iteration results lastout current w :
  returns (lp_innerAgent a) → condition_returns → current ∈ dom (wd_inputs w) → input ∈ dom (wd_inputs w) →
  Forall (present w) results → (∀ p, lastout = Some p → present w p) →
  ∃ r w', loop_turns a input fuel iteration results lastout current w = Some (r, w') ∧
    ∀ results' lastout' i', r = inr (results', lastout', i') →
      Forall (present w') results' ∧ (∀ p, lastout' = Some p → present w' p) ∧ (lastout' = None → fuel = 0%nat ∧ lastout = None).
Proof.
  intros Hc Hcond. revert iteration results lastout current w.
  induction fuel as [|fuel IH]; intros iteration results lastout current w Hcur Hin Hres Hlast; cbn [loop_turns].
  { eexists _, _. split; [done|]. by intros ? ? ? [= <- <- <-]. }
  destruct (ctx_done (wd_env w)); [eexists _, _; split; [done|]; by intros|].
  destruct (Hc current w) as (r & w1 & Hr & Hi & Ho & Hsucc). rewrite Hr. cbn [mbind option_bind].
  destruct r as [err|out]; [eexists _, _; split; [done|]; by intros|].
  destruct (Hsucc out eq_refl) as [o Hout]. assert (present w1 out) as Hpo by by apply present_output.
  assert (is_Some (evaluateCondition a out (iteration + 1) w1)) as [cont Hcont].
  { unfold evaluateCondition. rewrite Hout. simpl. destruct (escalates o); [by eexists|].
    destruct (lp_condition a) as [cond|] eqn:Hcd; [|by eexists]. destruct Hpo as (l & -> & _). simpl.
    destruct (Hcond cond l (iteration + 1) w1 Hcd) as [b ->]. by eexists. }
  rewrite Hcont. cbn [mbind option_bind].
  assert (Forall (present w1) (accumulate a results out)) as Hacc.
  { assert (Forall (present w1) results) as Hr1 by (eapply Forall_impl; [exact Hres|]; intros p; by apply present_grows).
    unfold accumulate. destruct (lp_accumulateMode a); [apply Forall_app; split; [done|]|..]; by repeat constructor. }
  destruct cont; [|eexists _, _; split; [done|]; intros ? ? ? [= <- <- <-]; split_and!; [done|by intros p [= <-]|done]].
  unfold prepareNextInput. destruct (wd_inputs w1 !! input) as [orig|] eqn:Horig.
  2: { apply not_elem_of_dom in Horig. by destruct Horig; apply Hi. }
  cbn [mbind option_bind]. rewrite Hout. cbn [mbind option_bind].
  destruct (alloc_input _ w1) as [next w2] eqn:Hn. destruct (alloc_input_dom _ _ _ _ Hn) as (Hl & Hd & Hwo).
  destruct (IH (iteration + 1) (accumulate a results out) (Some out) next w2) as (r & w' & Hrun & Hres'); [done| | | |].
  - by apply Hd, Hi.
  - eapply Forall_impl; [exact Hacc|]. intros p. apply present_grows. by rewrite Hwo.
  - intros p [= <-]. eapply present_grows; [|exact Hpo]. by rewrite Hwo.
  - exists r, w'. split; [exact Hrun|]. intros results' lastout' i' Heq. destruct (Hres' _ _ _ Heq) as (? & ? & Hnone).
    split_and!; [done..|]. intros Hn'. by destruct (Hnone Hn').
Qed.

(** A loop returns when it makes a turn or its mode is one of the package's. *)
Lemma loop_Execute_returns w :
  returns (lp_innerAgent a) → condition_returns → input ∈ dom (wd_inputs w) →
  (0 < lp_maxIterations a ∨ ∀ mode, lp_accumulateMode a ≠ AccumulateOther mode) → is_Some (loop_Execute a input w).
Proof.
  intros Hc Hcond Hin Hmode.
  destruct (loop_turns_returns (Z.to_nat (lp_maxIterations a)) 0 [] None input w Hc Hcond Hin Hin) as (r & w1 & Hs & Hp); [constructor|done|].
  unfold loop_Execute. rewrite Hs. cbn [mbind option_bind]. destruct r as [e|[[results lastout] i]]; [by eexists|].
  destruct (Hp results lastout i eq_refl) as (Hpr & Hpl & Hnone).
  assert (is_Some (buildFinalResult a results lastout w1)) as [final ->]; [|by eexists].
  unfold buildFinalResult. destruct lastout as [p|].
  - destruct (proj1 (present_output w1 p) (Hpl p eq_refl)) as [o Ho]. rewrite Ho.
    destruct (lp_accumulateMode a); [by apply fmap_is_Some, mapM_present|eexists; reflexivity|eexists; reflexivity|].
    simpl. rewrite Ho. eexists. reflexivity.
  - destruct (Hnone eq_refl) as [H0 _]. destruct (lp_accumulateMode a) as [| | |mode] eqn:Hm;
      [by apply fmap_is_Some, mapM_present|eexists; reflexivity|eexists; reflexivity|]. destruct Hmode as [?|Hmode]; [lia|by destruct (Hmode mode)].
Qed.

Lemma loop_turns_calls fuel i results lastout current w r w' :
  loop_turns a input fuel (Z.of_nat i) results lastout current w = Some (r, w') →
  ∃ calls, (length calls ≤ fuel)%nat ∧ Forall (λ c, cl_child c = lp_innerAgent a) calls ∧
    (calls ≠ [] → ctx_done (wd_env w) = false) ∧
    calls_made goes_on i current w calls ∧ loop_ends (i + fuel) i results lastout w calls r.
Proof.
  revert i results lastout current w. induction fuel as [|fuel IH]; intros i results lastout current w Hrun; cbn [loop_turns] in Hrun.
  { simplify_eq. exists []. split; [done|]. split; [constructor|]. split; [done|]. split; [apply calls_made_nil|].
    unfold loop_ends. simpl. rewrite Nat.add_0_r. split; [done|]. split; [constructor|]. split; [done|]. split; [done|by left]. }
  destruct (ctx_done (wd_env w)) eqn:Hctx.
  { simplify_eq. exists []. split; [simpl; lia|]. split; [constructor|]. split; [done|]. split; [apply calls_made_nil|].
    unfold loop_ends. simpl. left. rewrite Nat.add_0_r. split; [lia|]. split; [constructor|done]. }
  destruct (ch_run (lp_innerAgent a) current w) as [[out w1]|] eqn:Hr; [|done]. cbn [mbind option_bind] in Hrun.
  destruct out as [err|out].
  { simplify_eq. exists [mkCall (lp_innerAgent a) current w (inl err) w']. split; [simpl; lia|]. split; [by repeat constructor|].
    split; [done|]. split; [by apply calls_made_one|]. unfold loop_ends. right.
    exists [], (mkCall (lp_innerAgent a) current w (inl err) w'), err. split; [done|]. split; [constructor|]. split; [done|].
    simpl. f_equal. lia. }
  destruct (evaluateCondition a out (Z.of_nat i + 1) w1) as [cont|] eqn:Hev; [|done]. cbn [mbind option_bind] in Hrun.
  destruct cont.
  - destruct (prepareNextInput input out (Z.of_nat i + 1) w1) as [[next w2]|] eqn:Hp; [|done]. cbn [mbind option_bind] in Hrun.
    unfold prepareNextInput in Hp. destruct (wd_inputs w1 !! input) as [orig|] eqn:Horig; [|done].
    cbn [mbind option_bind] in Hp. destruct (output_at w1 out) as [o|] eqn:Ho; [|done]. cbn [mbind option_bind] in Hp.
    apply (inj Some) in Hp. destruct (alloc_input_spec _ _ _ _ Hp) as (Hfr & Hnew & Henv).
    replace (Z.of_nat i + 1) with (Z.of_nat (S i)) in Hrun by lia.
    destruct (IH (S i) _ _ _ _ Hrun) as (calls & Hlen & Hall & Hctx' & Hmade & Hend).
    exists (mkCall (lp_innerAgent a) current w (inr out) w1 :: calls). split; [simpl; lia|]. split; [by constructor|]. split; [done|]. split.
    + eapply calls_made_cons; [done|exact Hmade|]. intros c' Hc'. destruct (cm_first _ _ _ _ _ Hmade c' Hc') as [Hi Hb].
      exists out, o, orig. simpl. rewrite Hi, Hb. split_and!; try done. apply Hctx'. by intros ->.
    + unfold loop_ends in *. simpl. replace (i + S (length calls))%nat with (S i + length calls)%nat by lia.
      replace (i + S fuel)%nat with (S i + fuel)%nat by lia. destruct r as [e|[[results' lastout'] iteration]].
      * destruct Hend as [(? & ? & ->)|(front & c & err & -> & Hf & Hc & ->)].
        -- left. split; [done|]. split; [constructor; [by eexists|done]|done].
        -- right. exists (mkCall (lp_innerAgent a) current w (inr out) w1 :: front), c, err. split; [done|].
           split; [constructor; [by eexists|done]|]. split; [done|]. done.
      * destruct Hend as (-> & Hf & -> & -> & Hwhy). split; [done|]. split; [constructor; [by eexists|done]|]. split; [done|]. split.
        -- simpl. destruct (outputs_of calls) eqn:Hoc; simpl; [done|]. by destruct (last (o0 :: l)) eqn:Hl; [|apply last_None in Hl].
        -- destruct Hwhy as [?|(front & c & o' & -> & ? & ?)]; [by left|right].
           exists (mkCall (lp_innerAgent a) current w (inr out) w1 :: front), c, o'. done.
  - simplify_eq. exists [mkCall (lp_innerAgent a) current w (inr out) w']. split; [simpl; lia|]. split; [by repeat constructor|].
    split; [done|]. split; [by apply calls_made_one|]. unfold loop_ends. simpl. rewrite Nat.add_1_r. split; [lia|].
    split; [constructor; [by eexists|constructor]|]. split; [done|]. split; [done|]. right.
    exists [], (mkCall (lp_innerAgent a) current w (inr out) w'), out. split; [done|]. split; [done|].
    simpl. by replace (Z.of_nat (S i)) with (Z.of_nat i + 1) by lia.
Qed.
End LoopProofs.
End Workflows.

Arguments AgentWorld : clear implicits.
Arguments ChildAgent : clear implicits.
Arguments Call : clear implicits.

(** A sequential agent runs its children in order.  When it returns, what ran is a
    first part of its children, each once, in their order, each started in the
    world the one before left.  With output passing each child is given a new
    input made of what the one before returned or of its error; without, all are
    given the agent's own input.  It fails exactly when it is to stop on errors
    and a child failed: that child was the last to run, all before it succeeded,
    and the error names its position and its name.  Otherwise all children ran,
    and the output's step results are the children's outputs, a failed child's
    one that holds its error.  It returns whenever its children do. *)
Theorem sequential_execution {Env} (fmt_other : Any → string) (a : @SequentialAgent Env) input w :
  (Forall returns (sq_childAgents a) → input ∈ dom (wd_inputs w) → is_Some (seq_Execute fmt_other a input w)) ∧
  ∀ r w', seq_Execute fmt_other a input w = Some (r, w') →
  ∃ calls : list (Call Env), cl_child <$> calls = take (length calls) (sq_childAgents a) ∧
    calls_made (passes fmt_other a input) 0 input w calls ∧
    match r with
    | inl e => sq_stopOnError a = true ∧ ∃ front c err, calls = front ++ [c] ∧ Forall succeeded front ∧
        cl_outcome c = inl err ∧ e = seq_failed (length front) (ch_name (cl_child c)) err
    | inr l => length calls = length (sq_childAgents a) ∧
        (sq_stopOnError a = true → Forall succeeded calls) ∧
        ∃ o results, wd_outputs w' !! l = Some o ∧ Forall2 (recorded a 0) calls results ∧
          aggregateResults a results w' = Some (out_Result o) ∧
          (m ← out_Metadata o; m !! "step_results") = Some (AOutputs results)
    end.
Proof.
  split; [apply seq_Execute_returns|]. intros r w'.
  unfold seq_Execute. destruct (seq_loop fmt_other a input 0 (sq_childAgents a) [] input w) as [[r1 w1]|] eqn:Hs; [|done].
  cbn [mbind option_bind]. destruct (seq_loop_calls fmt_other a input 0 _ _ _ _ _ _ eq_refl Hs) as (calls & Hch & Hmade & Hres).
  destruct r1 as [e|results].
  { intros [= <- <-]. exists calls. done. }
  destruct (aggregateResults a results w1) as [final|] eqn:Hf; [|done]. cbn [mbind option_bind].
  destruct (alloc_output _ w1) as [l w2] eqn:Ho. intros [= <- <-].
  destruct (alloc_output_spec _ _ _ _ Ho) as (_ & Hnew & Henv & _).
  destruct Hres as (Hlen & new & -> & Hrec). exists calls. split; [done|]. split; [done|]. split; [done|]. split.
  - intros Hstop. apply Forall_forall. intros c Hc. apply list_elem_of_lookup in Hc as [i Hi].
    destruct (Forall2_lookup_l _ _ _ _ _ Hrec Hi) as (p & _ & Hp). unfold recorded in Hp.
    destruct (cl_outcome c) eqn:Hco; [destruct Hp; congruence|]. by eexists.
  - eexists _, new. split; [exact Hnew|]. split; [done|]. split; [|done]. simpl.
    simpl in Hf. rewrite <- Hf. apply aggregate_grows; [by rewrite Hf|by destruct Henv as (_ & _ & ?)].
Qed.

(** A loop agent makes at most its maximal number of turns.  When it returns, what
    ran are calls of its inner agent, the first with the agent's own input, each
    other with a new one that carries the number of the turn, the previous result
    and the state.  After each turn but the last the output did not escalate, the
    condition (inverted for an until loop) held and the context was not done.
    The loop fails exactly when a turn failed or the context was done before the
    maximum; otherwise it made all turns or stopped at the first output that
    escalates or ends the condition, and its result is what the mode keeps of the
    outputs.  It returns whenever its agent and its condition do, if it makes a
    turn or has one of the documented modes. *)
Theorem loop_execution {Env} (ctx_done : Env → bool) (a : @LoopAgent Env) input w :
  (returns (lp_innerAgent a) → condition_returns a → input ∈ dom (wd_inputs w) →
     (0 < lp_maxIterations a ∨ ∀ mode, lp_accumulateMode a ≠ AccumulateOther mode) → is_Some (loop_Execute ctx_done a input w)) ∧
  ∀ r w', loop_Execute ctx_done a input w = Some (r, w') →
  ∃ calls : list (Call Env), (length calls ≤ Z.to_nat (lp_maxIterations a))%nat ∧
    Forall (λ c, cl_child c = lp_innerAgent a) calls ∧
    calls_made (goes_on ctx_done a input) 0 input w calls ∧
    match r with
    | inl e => loop_ends a (Z.to_nat (lp_maxIterations a)) 0 [] None w calls (inl e)
    | inr l => ∃ results o w1, loop_ends a (Z.to_nat (lp_maxIterations a)) 0 [] None w calls
          (inr (results, last (outputs_of calls), Z.of_nat (length calls))) ∧
        wd_outputs w' !! l = Some o ∧ buildFinalResult a results (last (outputs_of calls)) w1 = Some (out_Result o) ∧
        same_env w1 w' ∧
        results = match lp_accumulateMode a with
                  | AccumulateAll => outputs_of calls
                  | AccumulateLast | AccumulateState => match last (outputs_of calls) with Some p => [p] | None => [] end
                  | AccumulateOther _ => []
                  end
    end.
Proof.
  split; [apply loop_Execute_returns|]. intros r w'.
  unfold loop_Execute. destruct (loop_turns ctx_done a input _ 0 [] None input w) as [[r1 w1]|] eqn:Hs; [|done].
  cbn [mbind option_bind]. destruct (loop_turns_calls ctx_done a input _ 0 [] None input w r1 w1 Hs) as (calls & Hlen & Hall & _ & Hmade & Hend).
  rewrite Nat.add_0_l in Hend. destruct r1 as [e|[[results lastout] iteration]].
  { intros [= <- <-]. exists calls. done. }
  destruct (buildFinalResult a results lastout w1) as [final|] eqn:Hf; [|done]. cbn [mbind option_bind].
  destruct (alloc_output _ w1) as [l w2] eqn:Ho. intros [= <- <-].
  destruct (alloc_output_spec _ _ _ _ Ho) as (_ & Hnew & Henv & _).
  exists calls. split; [done|]. split; [done|]. split; [done|].
  pose proof Hend as (-> & _ & Hres & Hlast & _). assert (lastout = last (outputs_of calls)) as Hl.
  { rewrite Hlast. by destruct (last (outputs_of calls)). }
  eexists results, _, w1. rewrite <- Hl. split; [exact Hend|]. split; [exact Hnew|]. split; [done|]. split; [done|].
  rewrite Hres, Hl. apply kept_outputs_mode.
Qed.
