(* ===== verification/Parallel.v ===== *)
(** * Parallel and map-reduce agents (pkg/agents)

    parallel_agent.go and mapreduce_agent.go.  Children run concurrently on shared
    objects, so what matters of a run is the order in which they finish and with
    what, the world they leave, and the order in which Go ranges over a map: these
    are a [ParRun], an argument of [Execute].  "First" aggregation is a race between
    the children's channels, the cancellation and the main loop: a step relation,
    whose outcome is part of the run. *)

From Stdlib Require Import Ascii.
From stdpp Require Import base gmap strings list fin_maps relations pretty.
From S2P Require Import Prelude Orchestration.

Open Scope Z_scope.

Inductive AggregationType :=
  | ConcatAggregation | FirstAggregation | AllAggregation | ReduceAggregation | VoteAggregation
  | OtherAggregation (s : string).

Definition aggregation_text (t : AggregationType) : string :=
  match t with
  | ConcatAggregation => "concat" | FirstAggregation => "first" | AllAggregation => "all"
  | ReduceAggregation => "reduce" | VoteAggregation => "vote" | OtherAggregation s => s
  end.

(** A child's end: which child, and its output or error. *)
Abbreviation Completion := (nat * result (option nat))%type.

(** How [executeFirst] ends. *)
Inductive FirstResult := FirstOutput (out : nat) | AllFailed (n : nat) | FirstTimedOut.

Section Parallel.
Context {Env : Type} (fmt_other : Any → string).
Notation AgentWorld := (AgentWorld Env).

Record ParallelAgent := mkParallel {
  pa_names : list string;                 (** the children, by name *)
  pa_aggregation : AggregationType;
  pa_reduceFunc : option (list nat → AgentWorld → result Any);
  pa_failFast : bool;
  pa_minSuccessful : Z;
}.

(** The aggregation of [NewParallelAgent]; the empty one is [None]. *)
Definition NewParallelAgent (names : list string) (aggregation : option AggregationType)
    (reduce : option (list nat → AgentWorld → result Any)) (failFast : bool) (minSuccessful : Z) : ParallelAgent :=
  mkParallel names (default AllAggregation aggregation) reduce failFast minSuccessful.

(** ** Waiting for all *)

(** A child writes its place of the results or of the errors. *)
Definition place {A} (sel : result (option nat) → option A) (l : list A) (c : Completion) : list A :=
  match sel c.2 with Some x => <[c.1 := x]> l | None => l end.
Definition result_of (r : result (option nat)) : option (option nat) :=
  match r with inr out => Some out | inl _ => None end.
Definition error_of (r : result (option nat)) : option (option error) :=
  match r with inl err => Some (Some err) | inr _ => None end.
Definition place_results (n : nat) (cs : list Completion) : list (option nat) := foldl (place result_of) (replicate n None) cs.
Definition place_errors (n : nat) (cs : list Completion) : list (option error) := foldl (place error_of) (replicate n None) cs.

(** The error in the fail-fast channel: that of the first child to fail. *)
Fixpoint first_failure (cs : list Completion) : option (nat * error) :=
  match cs with
  | [] => None
  | (i, inl err) :: _ => Some (i, err)
  | (_, inr _) :: cs' => first_failure cs'
  end.

Definition aggregateAll (results : list nat) (w : AgentWorld) : option Any :=
  ASlice <$> mapM (λ l, out_Result <$> wd_outputs w !! l) results.

Fixpoint concat_texts (first : bool) (texts : list string) : string :=
  match texts with
  | [] => ""
  | t :: texts' => (if first then "" else String "010"%char (String "010"%char "")) +:+ t +:+ concat_texts false texts'
  end.
Definition result_texts (results : list nat) (w : AgentWorld) : option (list string) :=
  mapM (λ l, (fmt_any fmt_other ∘ out_Result) <$> wd_outputs w !! l) results.
Definition aggregateConcat (results : list nat) (w : AgentWorld) : option Any :=
  (AString ∘ concat_texts true) <$> result_texts results w.

(** The votes, and the first key with the most in the order in which Go ranges over
    the map. *)
Definition add_vote (votes : gmap string Z) (key : string) : gmap string Z := <[key := map_get 0 votes key + 1]> votes.
Definition better (best : string * Z) (x : string * Z) : string * Z := if best.2 <? x.2 then x else best.
Definition VoteOrder : Type := list (string * Z) → list (string * Z).
Definition majority (order : VoteOrder) (votes : gmap string Z) : string * Z :=
  foldl better ("", 0) (order (map_to_list votes)).
Definition aggregateVote (order : VoteOrder) (results : list nat) (w : AgentWorld) : option Any :=
  texts ← result_texts results w; Some (AString (majority order (foldl add_vote ∅ texts)).1).

Definition par_aggregateResults (a : ParallelAgent) (order : VoteOrder) (results : list (option nat)) (w : AgentWorld)
    : option (result Any) :=
  let valid := omap id results in
  match pa_aggregation a with
  | AllAggregation => inr <$> aggregateAll valid w
  | ConcatAggregation => inr <$> aggregateConcat valid w
  | ReduceAggregation =>
      match pa_reduceFunc a with
      | None => Some (inl (EText "reduce function not provided"))
      | Some f => Some (f valid w)
      end
  | VoteAggregation => inr <$> aggregateVote order valid w
  | t => Some (inl (EText ("unknown aggregation type: " +:+ aggregation_text t)))
  end.

Definition too_few (successCount numAgents minRequired : Z) : error :=
  EText ("parallel execution failed: only " +:+ pretty successCount +:+ "/" +:+ pretty numAgents
         +:+ " agents succeeded (minimum: " +:+ pretty minRequired +:+ ")").

(** A run of the children. *)
Record ParRun := mkParRun {
  run_completions : list Completion;   (** in the order in which they finish *)
  run_world : AgentWorld;              (** the world they leave *)
  run_order : VoteOrder;               (** the order of the loop over the votes *)
  run_first : FirstResult;             (** the end of the race, for "first" *)
  run_seconds : Any;                   (** the time it took, a float64 *)
}.

(** The end of [executeFirst].  Writing to a nil metadata map panics ([None]). *)
Definition executeFirst (r : FirstResult) (seconds : Any) (w : AgentWorld) : option (result nat * AgentWorld) :=
  match r with
  | FirstOutput out =>
      o ← wd_outputs w !! out;
      metadata ← out_Metadata o;
      let metadata := <["execution_time" := seconds]> (<["pattern" := AString "Parallel-First"]> metadata) in
      Some (inr out, mkAgentWorld (wd_inputs w)
        (<[out := mkOutputObj (out_Result o) (Some metadata) (out_Error o) (out_Rest o)]> (wd_outputs w)) (wd_env w))
  | AllFailed n => Some (inl (EText ("all " +:+ pretty (Z.of_nat n) +:+ " agents failed")), w)
  | FirstTimedOut => Some (inl (EText "parallel execution timed out"), w)
  end.

(** [Execute]. *)
Definition par_Execute (a : ParallelAgent) (run : ParRun) : option (result nat * AgentWorld) :=
  let n := length (pa_names a) in
  let cs := run_completions run in
  let w := run_world run in
  match pa_aggregation a with
  | FirstAggregation => executeFirst (run_first run) (run_seconds run) w
  | _ =>
  let results := place_results n cs in
  let errors := place_errors n cs in
  match (if pa_failFast a then first_failure cs else None) with
  | Some (i, err) => Some (inl (EWrap ("agent " +:+ default "" (pa_names a !! i) +:+ " failed: ") err ""), w)
  | None =>
      let successCount := Z.of_nat (length (omap id results)) in
      let minRequired := if pa_minSuccessful a =? 0 then Z.of_nat n else pa_minSuccessful a in
      if successCount <? minRequired then Some (inl (too_few successCount (Z.of_nat n) minRequired), w)
      else
        r ← par_aggregateResults a (run_order run) results w;
        match r with
        | inl err => Some (inl (EWrap "result aggregation failed: " err ""), w)
        | inr v =>
            let '(l, w) := alloc_output (mkOutputObj v
                (Some {["pattern" := AString "Parallel"; "aggregation" := AString (aggregation_text (pa_aggregation a));
                        "total_agents" := AInt (Z.of_nat n); "successful" := AInt successCount;
                        "execution_time" := run_seconds run; "individual_results" := AOutputs results; "errors" := AErrors errors]}) None 0) w in
            Some (inr l, w)
        end
  end
  end.

End Parallel.

(** ** Waiting for the first *)

Record FirstState := mkFirst {
  fs_running : gset nat;                  (** children that have not finished *)
  fs_ok : list nat;                       (** outputs of successful children, in order *)
  fs_failed : nat;                        (** how many failed *)
  fs_resultChan : option nat;
  fs_errorChan : nat;                     (** errors sent and not received *)
  fs_errorCount : nat;
  fs_expired : bool;                      (** the deadline or the caller's context *)
  fs_cancelled : bool;                    (** [cancel] was called by a winner *)
  fs_done : option FirstResult;
}.

Definition first_init (n : nat) : FirstState := mkFirst (list_to_set (seq 0 n)) [] 0 None 0 0 false false None.

(** [executeFirst] with [n] children.  The winner puts its output into the channel
    and then cancels the context. *)
Inductive first_step (n : nat) : FirstState → FirstState → Prop :=
  | first_succeeds i out R ok f ch ec cnt ex ca d :
      i ∈ R →
      first_step n (mkFirst R ok f ch ec cnt ex ca d)
        (mkFirst (R ∖ {[i]}) (ok ++ [out]) f (match ch with None => Some out | Some _ => ch end) ec cnt ex ca d)
  | first_cancel R ok f ch ec cnt ex d :
      ok ≠ [] → first_step n (mkFirst R ok f ch ec cnt ex false d) (mkFirst R ok f ch ec cnt ex true d)
  | first_fails i R ok f ch ec cnt ex ca d :
      i ∈ R →
      first_step n (mkFirst R ok f ch ec cnt ex ca d) (mkFirst (R ∖ {[i]}) ok (S f) ch (S ec) cnt ex ca d)
  | first_expires R ok f ch ec cnt ca d :
      first_step n (mkFirst R ok f ch ec cnt false ca d) (mkFirst R ok f ch ec cnt true ca d)
  | first_takes_result R ok f out ec cnt ex ca :
      first_step n (mkFirst R ok f (Some out) ec cnt ex ca None) (mkFirst R ok f None ec cnt ex ca (Some (FirstOutput out)))
  | first_takes_error R ok f ch ec cnt ex ca :
      first_step n (mkFirst R ok f ch (S ec) cnt ex ca None)
        (mkFirst R ok f ch ec (S cnt) ex ca (if (n <=? S cnt)%nat then Some (AllFailed n) else None))
  | first_sees_done R ok f ch ec cnt ex ca :
      ex || ca = true →
      first_step n (mkFirst R ok f ch ec cnt ex ca None) (mkFirst R ok f ch ec cnt ex ca (Some FirstTimedOut)).

(** ** Map-reduce: splitting *)

(** The parts of a list, [chunkSize] items each. *)
Fixpoint chunk_list {A} (fuel : nat) (chunkSize : nat) (items : list A) : list (list A) :=
  match fuel, items with
  | S fuel', _ :: _ => take chunkSize items :: chunk_list fuel' chunkSize (drop chunkSize items)
  | _, _ => []
  end.

(** The loops of [LineSplitter] and [ListSplitter] over [items]: a chunk size of 0
    never ends and a negative one panics ([None]), if there are items. *)
Definition split_items {A} (chunkSize : Z) (items : list A) : option (list (list A)) :=
  match items with
  | [] => Some []
  | _ => if 0 <? chunkSize then Some (chunk_list (length items) (Z.to_nat chunkSize) items) else None
  end.

Definition chunk_input (instruction key : string) (i : nat) (chunk : Any) : InputObj :=
  mkInputObj instruction (Some (<["chunk" := AInt (Z.of_nat i)]> {[key := chunk]})) 0.

Definition ListSplitter (itemsKey : string) (chunkSize : Z) (input : InputObj) : option (result (list InputObj)) :=
  match m ← in_Context input; m !! itemsKey with
  | Some (ASlice items) =>
      chunks ← split_items chunkSize items;
      Some (inr (imap (λ i c, chunk_input (in_Instruction input) itemsKey i (ASlice c)) chunks))
  | _ => Some (inl (EText ("items not found at key " +:+ itemsKey)))
  end.

(** Division by zero panics. *)
Definition FixedCountSplitter (count : Z) (dataKey : string) (input : InputObj) : option (result (list InputObj)) :=
  match m ← in_Context input; m !! dataKey with
  | Some (ASlice data) =>
      if count =? 0 then None
      else
        let chunkSize := Z.quot (Z.of_nat (length data)) count in
        ListSplitter dataKey (if chunkSize =? 0 then 1 else chunkSize) input
  | _ => Some (inl (EText ("data not found at key " +:+ dataKey)))
  end.

Definition DocumentSplitter (docsKey : string) (input : InputObj) : result (list InputObj) :=
  match m ← in_Context input; m !! docsKey with
  | Some (ASlice docs) =>
      inr (imap (λ i doc, mkInputObj (in_Instruction input)
        (Some {["document" := doc; "doc_index" := AInt (Z.of_nat i); "total_docs" := AInt (Z.of_nat (length docs))]}) 0) docs)
  | _ => inl (EText ("documents not found at key " +:+ docsKey))
  end.

(** [string(lines[i:end])] of the runes of a text, for texts of one byte a rune. *)
Definition LineSplitter (chunkSize : Z) (input : InputObj) : option (result (list InputObj)) :=
  match m ← in_Context input; m !! "text" with
  | Some (AString text) =>
      chunks ← split_items chunkSize (String.list_ascii_of_string text);
      Some (inr (imap (λ i c, chunk_input (in_Instruction input) "text" i (AString (String.string_of_list_ascii c))) chunks))
  | _ => Some (inl (EText "text not found in context"))
  end.

(** ** Map-reduce: the map phase *)

(** What the collecting loop receives. *)
Inductive MapEvent := MapResult (out : nat) | MapError (err : error) | MapCancelled (err : error).

Fixpoint map_collect (todo : nat) (evs : list MapEvent) (results : list nat) (errors : list error)
    : option (list nat * list error) :=
  match todo with
  | O => Some (results, errors)
  | S todo' =>
      match evs with
      | [] => None                              (** still waiting *)
      | MapResult out :: evs' => map_collect todo' evs' (results ++ [out]) errors
      | MapError err :: evs' => map_collect todo' evs' results (errors ++ [err])
      | MapCancelled err :: _ => Some (results, errors ++ [EWrap "map phase cancelled: " err ""])
      end
  end.

Definition mapPhase (splits : nat) (evs : list MapEvent) : option (list nat * list error) := map_collect splits evs [] [].

Definition mapper_failed (idx : nat) (err : error) : error := EWrap ("mapper " +:+ pretty (Z.of_nat idx) +:+ " failed: ") err "".

(** What is reduced: nothing, one output as it is, or the outputs by the reducer. *)
Inductive Reduction := NothingToReduce | OnlyResult (out : nat) | CallReducer (outs : list nat).
Definition reducePhase (mapResults : list nat) : Reduction :=
  match mapResults with
  | [] => NothingToReduce
  | [out] => OnlyResult out
  | _ => CallReducer mapResults
  end.

(** [Execute] after splitting, up to the call of the reducer. *)
Definition mapreduce_after_map (collectErrors : bool) (mapResults : list nat) (mapErrors : list error) : result Reduction :=
  match mapErrors with
  | err :: _ =>
      if collectErrors then inr (reducePhase mapResults)
      else inl (EWrap ("map phase failed: " +:+ pretty (Z.of_nat (length mapErrors)) +:+ " errors, first: ") err "")
  | [] => inr (reducePhase mapResults)
  end.

Definition split_outcome (splits : result (list InputObj)) : result (list InputObj) :=
  match splits with
  | inl err => inl (EWrap "input splitting failed: " err "")
  | inr [] => inl (EText "splitter returned no splits")
  | inr l => inr l
  end.

(** ** Results in the children's order *)

Section Placing.
Context (n : nat) {A : Type} (sel : result (option nat) → option A) (d : A).
Implicit Types (cs : list Completion).

(** Each child finishes once. *)
Definition all_finish cs : Prop := cs.*1 ≡ₚ seq 0 n.

Lemma place_length l c : length (place sel l c) = length l.
Proof. unfold place. destruct (sel c.2); [apply length_insert|done]. Qed.

Lemma places_length cs l : length (foldl (place sel) l cs) = length l.
Proof. revert l. induction cs as [|c cs IH]; intros l; simpl; [done|]. by rewrite IH, place_length. Qed.

Lemma place_lookup_ne l c i : c.1 ≠ i → place sel l c !! i = l !! i.
Proof. intros Hne. unfold place. destruct (sel c.2); [by apply list_lookup_insert_ne|done]. Qed.

Lemma places_lookup_ne cs l i : i ∉ cs.*1 → foldl (place sel) l cs !! i = l !! i.
Proof.
  revert l. induction cs as [|c cs IH]; intros l Hi; simpl; [done|]. csimpl in Hi. apply not_elem_of_cons in Hi as [H1 H2].
  rewrite IH by done. by apply place_lookup_ne.
Qed.

Lemma places_lookup cs i r l :
  NoDup cs.*1 → (i, r) ∈ cs → l !! i = Some d → foldl (place sel) l cs !! i = Some (default d (sel r)).
Proof.
  revert l. induction cs as [|[j x] cs IH]; intros l Hnd Hin Hl; simpl; [set_solver|].
  csimpl in Hnd. apply NoDup_cons in Hnd as [Hn Hnd]. apply elem_of_cons in Hin as [[= <- <-]|Hin].
  - rewrite places_lookup_ne by done. unfold place. simpl. destruct (sel r); simpl; [|done].
    apply list_lookup_insert_eq. by eapply lookup_lt_Some.
  - apply IH; [done|done|]. rewrite place_lookup_ne; [done|]. simpl. intros ->. apply Hn. apply list_elem_of_fmap. by exists (i, r).
Qed.

Lemma placed cs i r : all_finish cs → (i, r) ∈ cs → foldl (place sel) (replicate n d) cs !! i = Some (default d (sel r)).
Proof.
  unfold all_finish. intros Hf Hin. apply places_lookup; [|done|].
  - rewrite Hf. apply NoDup_seq.
  - apply lookup_replicate_2. assert (i ∈ cs.*1) as H by (apply list_elem_of_fmap; by exists (i, r)).
    rewrite Hf in H. apply elem_of_seq in H. lia.
Qed.

(** The order in which the children finish does not matter. *)
Lemma places_order cs cs' :
  all_finish cs → cs ≡ₚ cs' → foldl (place sel) (replicate n d) cs = foldl (place sel) (replicate n d) cs'.
Proof.
  intros Hf Hp. assert (all_finish cs') as Hf' by (unfold all_finish; by rewrite <- Hp).
  apply list_eq_same_length with n; [by rewrite places_length, length_replicate..|].
  intros i x y Hi Hx Hy. assert (i ∈ cs.*1) as ([j r] & -> & Hin)%list_elem_of_fmap.
  { unfold all_finish in Hf. rewrite Hf. apply elem_of_seq. lia. }
  simpl in *. rewrite (placed cs j r Hf Hin) in Hx. rewrite (placed cs' j r Hf') in Hy by by rewrite <- Hp. congruence.
Qed.
End Placing.

Lemma first_failure_spec cs :
  match first_failure cs with
  | None => Forall (λ c, is_Some (result_of c.2)) cs
  | Some (i, err) => ∃ front rest, cs = front ++ (i, inl err) :: rest ∧ Forall (λ c, is_Some (result_of c.2)) front
  end.
Proof.
  induction cs as [|[i [err|out]] cs IH]; simpl; [constructor| |].
  - exists [], cs. done.
  - destruct (first_failure cs) as [[j err]|]; [|constructor; [by eexists|done]].
    destruct IH as (front & rest & -> & Hf). exists ((i, inr out) :: front), rest. split; [done|]. constructor; [by eexists|done].
Qed.

Lemma omap_id_length {A} (l : list (option A)) : (length (omap id l) ≤ length l)%nat ∧ (length (omap id l) = length l → Forall is_Some l).
Proof.
  induction l as [|[x|] l [IH1 IH2]]; csimpl; [split; [done|constructor]| |].
  - split; [lia|]. intros [= Heq]. constructor; [by eexists|auto].
  - split; [lia|]. intros. lia.
Qed.

(** *** Votes *)

Definition votes_for (texts : list string) (key : string) : Z := Z.of_nat (length (filter (λ t, t = key) texts)).

Lemma add_votes texts votes key : map_get 0 (foldl add_vote votes texts) key = map_get 0 votes key + votes_for texts key.
Proof.
  revert votes. induction texts as [|t texts IH]; intros votes; simpl; [unfold votes_for; simpl; lia|].
  rewrite IH. unfold add_vote, map_get, votes_for. rewrite filter_cons. destruct (decide (t = key)) as [->|Hne].
  - rewrite lookup_insert_eq. simpl. lia.
  - rewrite lookup_insert_ne by done. done.
Qed.

Lemma foldl_better l best :
  (∀ x, x ∈ l → x.2 ≤ (foldl better best l).2) ∧ best.2 ≤ (foldl better best l).2 ∧
  (foldl better best l = best ∨ foldl better best l ∈ l).
Proof.
  revert best. induction l as [|x l IH]; intros best; simpl; [split; [set_solver|split; [lia|by left]]|].
  destruct (IH (better best x)) as (H1 & H2 & H3).
  assert (best.2 ≤ (better best x).2 ∧ x.2 ≤ (better best x).2 ∧ (better best x = best ∨ better best x = x)) as (Hb & Hx & Hor).
  { unfold better. destruct (Z.ltb_spec best.2 x.2); (split; [lia|split; [lia|auto]]). }
  split_and!.
  - intros y [->|Hy]%elem_of_cons; [lia|auto].
  - lia.
  - destruct H3 as [H3|H3]; [|right; by right]. rewrite H3. destruct Hor as [Hor|Hor]; rewrite Hor; [by left|right; by left].
Qed.

(** A text with the most votes: none has more, and it is one of the texts, if there
    are any. *)
Definition wins (texts : list string) (t : string) : Prop :=
  (∀ key, votes_for texts key ≤ votes_for texts t) ∧ (t ∈ texts ∨ texts = [] ∧ t = "").

Lemma votes_for_pos texts key : 0 < votes_for texts key ↔ key ∈ texts.
Proof.
  unfold votes_for. split.
  - destruct (filter _ texts) as [|t l] eqn:Hf; [done|]. intros _.
    assert (t ∈ filter (λ t, t = key) texts) as [-> ?]%list_elem_of_filter by (rewrite Hf; by left). done.
  - intros Hin. assert (key ∈ filter (λ t, t = key) texts) as Hk by (by apply list_elem_of_filter).
    destruct (filter _ texts); [by apply elem_of_nil in Hk|simpl; lia].
Qed.

(** The winner of a vote, whatever the order of the loop over the votes. *)
Lemma majority_wins (order : VoteOrder) texts :
  (∀ l, order l ≡ₚ l) → wins texts (majority order (foldl add_vote ∅ texts)).1.
Proof.
  intros Hord.
  set (votes := foldl add_vote ∅ texts).
  assert (∀ k, map_get 0 votes k = votes_for texts k) as Hv by (intros k; unfold votes; rewrite add_votes; done).
  unfold majority. destruct (foldl_better (order (map_to_list votes)) ("", 0)) as (Hmax & Hge & Hin).
  assert (∀ key, votes_for texts key ≤ (foldl better ("", 0) (order (map_to_list votes))).2) as Hle.
  { intros key. rewrite <- Hv. unfold map_get. destruct (votes !! key) as [z|] eqn:Hz; simpl; [|done].
    apply (Hmax (key, z)). rewrite Hord. by apply elem_of_map_to_list. }
  assert (∀ key, votes_for texts key ≤ votes_for texts (foldl better ("", 0) (order (map_to_list votes))).1) as Hbest.
  { intros key. specialize (Hle key). destruct Hin as [Heq|Hin].
    - rewrite Heq in *. simpl in *. unfold votes_for in *. lia.
    - destruct (foldl better ("", 0) (order (map_to_list votes))) as [k z]. rewrite Hord in Hin.
      apply elem_of_map_to_list in Hin. simpl in *. rewrite <- (Hv k). unfold map_get. by rewrite Hin. }
  split; [done|]. destruct texts as [|t texts].
  - right. split; [done|]. assert (order (map_to_list votes) = []) as ->; [|done].
    apply Permutation_nil_r. rewrite (Hord (map_to_list votes)). by unfold votes; simpl; rewrite map_to_list_empty.
  - left. apply votes_for_pos. specialize (Hbest t). assert (0 < votes_for (t :: texts) t); [|lia].
    apply votes_for_pos. by left.
Qed.

Lemma omap_id_fmap {A B} (f : A → option B) (l : list A) : omap id (f <$> l) = omap f l.
Proof. induction l as [|x l IH]; [done|]. rewrite fmap_cons. cbn [omap list_omap]. rewrite IH. by destruct (f x). Qed.

(** *** What a parallel agent should answer *)

Section Answers.
Context {Env : Type} (fmt_other : Any → string).
Implicit Types (a : @ParallelAgent Env) (cs : list Completion) (w : AgentWorld Env).

(** The outputs of the children that succeeded, in the order of the children. *)
Definition outputs_of (n : nat) cs : list nat :=
  omap (λ i, match (list_to_map cs : gmap nat (result (option nat))) !! i with
             | Some (inr (Some out)) => Some out
             | _ => None
             end) (seq 0 n).

Definition failed (c : Completion) : Prop := is_Some (error_of c.2).

(** The aggregation of outputs with the results [values]. *)
Inductive aggregates a (outs : list nat) w (values : list Any) : result Any → Prop :=
  | agg_all : pa_aggregation a = AllAggregation → aggregates a outs w values (inr (ASlice values))
  | agg_concat : pa_aggregation a = ConcatAggregation →
      aggregates a outs w values (inr (AString (strings_Join (fmt_any fmt_other <$> values)
        (String "010"%char (String "010"%char "")))))
  | agg_reduce f : pa_aggregation a = ReduceAggregation → pa_reduceFunc a = Some f →
      aggregates a outs w values (f outs w)
  | agg_no_reduce : pa_aggregation a = ReduceAggregation → pa_reduceFunc a = None →
      aggregates a outs w values (inl (EText "reduce function not provided"))
  | agg_vote t : pa_aggregation a = VoteAggregation → wins (fmt_any fmt_other <$> values) t →
      aggregates a outs w values (inr (AString t))
  | agg_other t : pa_aggregation a = OtherAggregation t →
      aggregates a outs w values (inl (EText ("unknown aggregation type: " +:+ t))).

Definition required a : Z :=
  if decide (pa_minSuccessful a = 0) then Z.of_nat (length (pa_names a)) else pa_minSuccessful a.

(** The answer to children that ended with [cs], other than for "first". *)
Inductive answers a cs w : result Any → Prop :=
  | answers_fail_fast front i err rest name :
      pa_failFast a = true → cs = front ++ (i, inl err) :: rest → Forall (λ c, ¬ failed c) front →
      pa_names a !! i = Some name →
      answers a cs w (inl (EWrap ("agent " +:+ name +:+ " failed: ") err ""))
  | answers_too_few :
      (pa_failFast a = true → Forall (λ c, ¬ failed c) cs) →
      Z.of_nat (length (outputs_of (length (pa_names a)) cs)) < required a →
      answers a cs w (inl (too_few (Z.of_nat (length (outputs_of (length (pa_names a)) cs)))
        (Z.of_nat (length (pa_names a))) (required a)))
  | answers_aggregate values r :
      (pa_failFast a = true → Forall (λ c, ¬ failed c) cs) →
      required a ≤ Z.of_nat (length (outputs_of (length (pa_names a)) cs)) →
      mapM (λ l, out_Result <$> wd_outputs w !! l) (outputs_of (length (pa_names a)) cs) = Some values →
      aggregates a (outputs_of (length (pa_names a)) cs) w values r →
      answers a cs w (match r with inl err => inl (EWrap "result aggregation failed: " err "") | inr v => inr v end).

Lemma outputs_placed n cs : all_finish n cs → omap id (place_results n cs) = outputs_of n cs.
Proof.
  intros Hf. unfold outputs_of.
  assert (place_results n cs = (λ i, match (list_to_map cs : gmap nat (result (option nat))) !! i with
      Some (inr (Some out)) => Some out | _ => None end) <$> seq 0 n) as ->; [|apply omap_id_fmap].
  apply list_eq_same_length with n; [by rewrite length_fmap, length_seq|by unfold place_results; rewrite places_length, length_replicate|].
  intros i x y Hi Hx Hy. apply list_lookup_fmap_Some in Hy as (j & -> & Hj). apply lookup_seq in Hj as [-> _]. simpl in *.
  assert (i ∈ cs.*1) as ([k r] & Hk & Hin)%list_elem_of_fmap.
  { unfold all_finish in Hf. rewrite Hf. apply elem_of_seq. lia. }
  simpl in Hk. subst k. unfold place_results in Hx. rewrite (placed n result_of None cs i r Hf Hin) in Hx. injection Hx as <-.
  rewrite (proj1 (elem_of_list_to_map cs i r ltac:(unfold all_finish in Hf; rewrite Hf; apply NoDup_seq)) Hin).
  by destruct r as [|[]].
Qed.

Lemma outputs_of_order n cs cs' : all_finish n cs → cs ≡ₚ cs' → outputs_of n cs' = outputs_of n cs.
Proof.
  intros Hf Hp. assert (all_finish n cs') as Hf' by (unfold all_finish; by rewrite <- Hp).
  rewrite <- !outputs_placed by done. unfold place_results. by rewrite (places_order n result_of None cs cs' Hf Hp).
Qed.

Lemma concat_texts_join first texts :
  concat_texts first texts = (if first then "" else match texts with [] => "" | _ => String "010"%char (String "010"%char "") end) +:+
    strings_Join texts (String "010"%char (String "010"%char "")).
Proof.
  assert (∀ x, x +:+ "" = x) as Hnil.
  { induction x as [|c x IH]; [done|]. change (String c (x +:+ "") = String c x). by rewrite IH. }
  revert first. induction texts as [|t texts IH]; intros first; cbn [concat_texts]; [by destruct first|].
  rewrite IH. destruct texts as [|t' texts]; cbn [strings_Join]; rewrite ?Hnil; by destruct first.
Qed.
End Answers.

Section Answering.
Context {Env : Type} (fmt_other : Any → string).

(** An agent that does not fail fast, or none of whose children failed. *)
Lemma no_failure cs : first_failure cs = None → Forall (λ c, ¬ failed c) cs.
Proof.
  intros Hn. pose proof (first_failure_spec cs) as Hs. rewrite Hn in Hs. eapply Forall_impl; [exact Hs|].
  intros [i [e|o]]; simpl; [by intros []|]. by intros _ [? ?].
Qed.

Lemma par_aggregates (a : @ParallelAgent Env) order n cs w values r :
  pa_aggregation a ≠ FirstAggregation → (∀ l, order l ≡ₚ l) → all_finish n cs →
  mapM (λ l, out_Result <$> wd_outputs w !! l) (outputs_of n cs) = Some values →
  par_aggregateResults fmt_other a order (place_results n cs) w = Some r →
  aggregates fmt_other a (outputs_of n cs) w values r.
Proof.
  intros Hagg Hord Hf Hv. unfold par_aggregateResults. rewrite outputs_placed by done.
  assert (result_texts fmt_other (outputs_of n cs) w = Some (fmt_any fmt_other <$> values)) as Ht.
  { unfold result_texts. revert values Hv. generalize (outputs_of n cs) as l. induction l as [|x l IH]; intros values; simpl.
    - by intros [= <-].
    - destruct (wd_outputs w !! x) as [o|]; simpl; [|done].
      destruct (mapM _ l) as [vs|] eqn:Hl; simpl; [|done]. intros [= <-]. simpl. by rewrite (IH vs). }
  destruct (pa_aggregation a) eqn:Ha; [| done | | | |].
  - unfold aggregateConcat. rewrite Ht. simpl. intros [= <-]. rewrite concat_texts_join. by apply agg_concat.
  - unfold aggregateAll. rewrite Hv. simpl. intros [= <-]. by apply agg_all.
  - destruct (pa_reduceFunc a) as [f|] eqn:Hr; intros [= <-]; [by eapply agg_reduce|by apply agg_no_reduce].
  - unfold aggregateVote. rewrite Ht. simpl. intros [= <-]. apply agg_vote; [done|]. by apply majority_wins.
  - intros [= <-]. by apply agg_other.
Qed.

Lemma par_aggregates_total (a : @ParallelAgent Env) order n cs w :
  all_finish n cs → (∀ l, l ∈ outputs_of n cs → is_Some (wd_outputs w !! l)) →
  ∃ values r, mapM (λ l, out_Result <$> wd_outputs w !! l) (outputs_of n cs) = Some values ∧
    par_aggregateResults fmt_other a order (place_results n cs) w = Some r.
Proof.
  intros Hf Hout. unfold par_aggregateResults. rewrite outputs_placed by done.
  assert (∀ (B : Type) (f : OutputObj → B), ∃ vs, mapM (λ l, f <$> wd_outputs w !! l) (outputs_of n cs) = Some vs) as Hmap.
  { intros B f. apply mapM_is_Some. apply Forall_forall. intros l Hl. destruct (Hout l Hl) as [o Ho]. simpl. rewrite Ho. by eexists. }
  destruct (Hmap _ out_Result) as [vs Hvs]. destruct (Hmap _ (fmt_any fmt_other ∘ out_Result)) as [ts Hts].
  assert (result_texts fmt_other (outputs_of n cs) w = Some ts) as Hts' by done.
  exists vs. unfold aggregateConcat, aggregateAll, aggregateVote. rewrite Hts', Hvs.
  destruct (pa_aggregation a); try destruct (pa_reduceFunc a); by eexists.
Qed.

Lemma par_answers (a : @ParallelAgent Env) (run : ParRun) :
  let cs := run_completions run in
  let w := run_world run in
  let n := length (pa_names a) in
  all_finish n cs → (∀ l, run_order run l ≡ₚ l) → (∀ l, l ∈ outputs_of n cs → is_Some (wd_outputs w !! l)) →
  pa_aggregation a ≠ FirstAggregation →
  ∃ r w', par_Execute fmt_other a run = Some (r, w') ∧ wd_outputs w ⊆ wd_outputs w' ∧
    match r with
    | inl err => answers fmt_other a cs w (inl err)
    | inr l => ∃ o, wd_outputs w' !! l = Some o ∧ answers fmt_other a cs w (inr (out_Result o))
    end.
Proof.
  intros cs w n Hf Hord Hout Hagg.
  destruct (par_aggregates_total a (run_order run) n cs w Hf Hout) as (values & r & Hv & Hr).
  pose proof (par_aggregates a _ n cs w values r Hagg Hord Hf Hv Hr) as Ha.
  assert (∀ X (f x : X), match pa_aggregation a with FirstAggregation => f | _ => x end = x) as Hcase
    by (intros X f x; by destruct (pa_aggregation a)).
  unfold par_Execute. rewrite Hcase. fold cs w n. rewrite Hr.
  destruct (if pa_failFast a then first_failure cs else None) as [[i err]|] eqn:Hff.
  { destruct (pa_failFast a) eqn:Hfast; [|done]. pose proof (first_failure_spec cs) as Hs. rewrite Hff in Hs.
    destruct Hs as (front & rest & Hcs & Hfront). assert (i < n)%nat as Hi.
    { assert (i ∈ cs.*1) as Hi by (rewrite Hcs, fmap_app; set_solver). unfold all_finish in Hf. rewrite Hf in Hi.
      apply elem_of_seq in Hi. lia. }
    destruct (lookup_lt_is_Some_2 (pa_names a) i Hi) as [name Hname].
    eexists _, w. split; [done|]. split; [done|]. rewrite Hname. eapply answers_fail_fast; [done|exact Hcs| |done].
    eapply Forall_impl; [exact Hfront|]. intros [j [e|o]]; simpl; [by intros []|]. by intros _ [? ?]. }
  assert (pa_failFast a = true → Forall (λ c, ¬ failed c) cs) as Hno.
  { intros Hfast. rewrite Hfast in Hff. by apply no_failure. }
  rewrite outputs_placed by done.
  assert ((if pa_minSuccessful a =? 0 then Z.of_nat n else pa_minSuccessful a) = required a) as ->.
  { unfold required. destruct (Z.eqb_spec (pa_minSuccessful a) 0); [by rewrite decide_True|by rewrite decide_False]. }
  destruct (Z.ltb_spec (Z.of_nat (length (outputs_of n cs))) (required a)) as [Hlt|Hge].
  { eexists _, w. split; [done|]. split; [done|]. by apply answers_too_few. }
  pose proof (answers_aggregate fmt_other a cs w values r Hno Hge Hv Ha) as Hans.
  cbn [mbind option_bind]. destruct r as [err|v].
  - eexists _, w. split; [done|]. split; [done|]. exact Hans.
  - destruct (alloc_output _ w) as [l w1] eqn:Ho. destruct (alloc_output_spec _ _ _ _ Ho) as (_ & Hnew & [_ [_ Hsub]] & _).
    eexists _, w1. split; [done|]. split; [done|]. eexists. split; [exact Hnew|]. exact Hans.
Qed.

(** The order of finishing does not matter to the answer, unless it fails fast. *)
Lemma answers_order (a : @ParallelAgent Env) cs cs' w r :
  all_finish (length (pa_names a)) cs → cs ≡ₚ cs' → pa_failFast a = false ∨ Forall (λ c, ¬ failed c) cs →
  answers fmt_other a cs w r → answers fmt_other a cs' w r.
Proof.
  intros Hf Hp Hfree Hans. pose proof (outputs_of_order _ cs cs' Hf Hp) as Hout.
  assert (pa_failFast a = true → Forall (λ c, ¬ failed c) cs') as Hno.
  { intros Hfast. destruct Hfree as [?|Hall]; [congruence|]. by rewrite <- Hp. }
  destruct Hans as [front i err rest name Hfast -> _ _|_ Hlt|values r _ Hge Hv Ha].
  - exfalso. destruct Hfree as [?|Hall]; [congruence|]. apply Forall_app in Hall as [_ Hall]. apply Forall_inv in Hall.
    apply Hall. by eexists.
  - rewrite <- Hout in *. by apply answers_too_few.
  - rewrite <- Hout in *. by eapply answers_aggregate.
Qed.
End Answering.

(** ** The race for the first result *)

Record racing (n : nat) (s : FirstState) : Prop := {
  ra_count : (size (fs_running s) + length (fs_ok s) + fs_failed s = n)%nat;
  ra_errors : (fs_errorChan s + fs_errorCount s = fs_failed s)%nat;
  ra_chan : fs_done s = None → fs_resultChan s = head (fs_ok s);
  ra_cancel : fs_cancelled s = true → fs_ok s ≠ [];
  ra_done r : fs_done s = Some r →
    match r with
    | FirstOutput out => head (fs_ok s) = Some out
    | AllFailed m => m = n ∧ fs_failed s = n
    | FirstTimedOut => fs_expired s = true ∨ fs_ok s ≠ []
    end;
}.

Lemma racing_init n : racing n (first_init n).
Proof.
  split; simpl; try done. rewrite size_list_to_set by apply NoDup_seq. rewrite length_seq. lia.
Qed.

Lemma head_snoc {A} (l : list A) x y : head l = Some x → head (l ++ [y]) = Some x.
Proof. by destruct l. Qed.

Lemma racing_step n s s' : racing n s → first_step n s s' → racing n s'.
Proof.
  intros [Hc He Hch Hca Hd] Hs.
  destruct Hs as [i out R ok f ch ec cnt ex ca d Hi|R ok f ch ec cnt ex d Hok|i R ok f ch ec cnt ex ca d Hi
    |R ok f ch ec cnt ca d|R ok f out ec cnt ex ca|R ok f ch ec cnt ex ca|R ok f ch ec cnt ex ca Hex]; simpl in *.
  - assert (size R = S (size (R ∖ {[i]}))) as HR.
    { rewrite size_difference by set_solver. rewrite size_singleton.
      assert (0 < size R)%nat; [|lia]. apply Nat.neq_0_lt_0. intros H0%size_empty_inv. set_solver. }
    split; simpl; [rewrite length_app; simpl; lia|done| |by intros _; destruct ok|].
    + intros Hn. rewrite (Hch Hn). by destruct ok.
    + intros r Hr. specialize (Hd r Hr). destruct r; [by apply head_snoc|done|]. right. by destruct ok.
  - split; done.
  - assert (size R = S (size (R ∖ {[i]}))) as HR.
    { rewrite size_difference by set_solver. rewrite size_singleton.
      assert (0 < size R)%nat; [|lia]. apply Nat.neq_0_lt_0. intros H0%size_empty_inv. set_solver. }
    split; simpl; [lia|lia|done|done|]. intros r Hr. specialize (Hd r Hr). destruct r; [done| |done]. destruct Hd as [-> ->]. lia.
  - split; simpl; try done. intros r Hr. specialize (Hd r Hr). destruct r; [done..|]. by left.
  - split; simpl; try done. intros r [= <-]. symmetry. by apply Hch.
  - split; simpl; [done|lia|auto|done|]. intros r Hr. destruct (Nat.leb_spec n (S cnt)); simplify_eq. split; [done|lia].
  - split; simpl; try done. intros r [= <-]. destruct ex; [by left|]. right. by apply Hca.
Qed.

Lemma racing_reached n s : rtc (first_step n) (first_init n) s → racing n s.
Proof. revert s. apply rtc_ind_r; [apply racing_init|]. intros s s' _ Hs IH. by eapply racing_step. Qed.

(** What the race returns is the output of the first child to succeed; it reports
    that all children failed only when all have; it reports a timeout only when the
    time is over or a child had already succeeded. *)
Lemma race_outcome n s r :
  racing n s → fs_done s = Some r →
  match r with
  | FirstOutput out => head (fs_ok s) = Some out
  | AllFailed m => m = n ∧ fs_failed s = n ∧ fs_ok s = [] ∧ fs_running s = ∅
  | FirstTimedOut => fs_expired s = true ∨ fs_ok s ≠ []
  end.
Proof.
  intros [Hc _ _ _ Hd] Hr.
  specialize (Hd r Hr). destruct r; [done| |done]. destruct Hd as [-> Hf]. split; [done|]. split; [done|].
  split; [destruct (fs_ok s); simpl in *; [done|lia]|]. apply leibniz_equiv, size_empty_inv. lia.
Qed.

(** C40. What a parallel agent answers, in any order in which its children finish,
    whatever world they leave and in whatever order Go ranges over the votes.  For
    every aggregation but "first": an agent that fails fast, of whose children some
    failed, fails with the error of the first that did, by its name; otherwise, with
    fewer successful children than required, all by default, it says how few; and
    otherwise its result is the list of the children's results in their order, the
    texts of these joined, what the reduce function makes of the outputs, or a text
    with the most votes.  So but for failing fast and ties in a vote the answer does
    not depend on the order of finishing.  For "first": the answer is the output of
    the first child to succeed, marked as such; that all failed, only if all have;
    or a timeout, only if the time is over or a child had already succeeded. *)
Theorem parallel_outcome {Env} (fmt_other : Any → string) (a : @ParallelAgent Env) (run : ParRun) :
  let cs := run_completions run in
  let w := run_world run in
  let n := length (pa_names a) in
  all_finish n cs → (∀ l, run_order run l ≡ₚ l) → (∀ l, l ∈ outputs_of n cs → is_Some (wd_outputs w !! l)) →
  (pa_aggregation a ≠ FirstAggregation →
     (∃ r w', par_Execute fmt_other a run = Some (r, w') ∧ wd_outputs w ⊆ wd_outputs w' ∧
        match r with
        | inl err => answers fmt_other a cs w (inl err)
        | inr l => ∃ o, wd_outputs w' !! l = Some o ∧ answers fmt_other a cs w (inr (out_Result o))
        end) ∧
     (∀ cs' r, cs ≡ₚ cs' → pa_failFast a = false ∨ Forall (λ c, ¬ failed c) cs →
        answers fmt_other a cs w r → answers fmt_other a cs' w r)) ∧
  (pa_aggregation a = FirstAggregation → ∀ s, rtc (first_step n) (first_init n) s → fs_done s = Some (run_first run) →
     match run_first run with
     | FirstOutput out => head (fs_ok s) = Some out ∧
         ∀ o m, wd_outputs w !! out = Some o → out_Metadata o = Some m →
           ∃ w' o', par_Execute fmt_other a run = Some (inr out, w') ∧ wd_outputs w' = <[out := o']> (wd_outputs w) ∧
             out_Result o' = out_Result o ∧ out_Metadata o' = Some (<["execution_time" := run_seconds run]> (<["pattern" := AString "Parallel-First"]> m))
     | AllFailed k => k = n ∧ fs_failed s = n ∧ fs_ok s = [] ∧ fs_running s = ∅ ∧
         par_Execute fmt_other a run = Some (inl (EText ("all " +:+ pretty (Z.of_nat n) +:+ " agents failed")), w)
     | FirstTimedOut => (fs_expired s = true ∨ fs_ok s ≠ []) ∧
         par_Execute fmt_other a run = Some (inl (EText "parallel execution timed out"), w)
     end).
Proof.
  intros cs w n Hf Hord Hout. split.
  - intros Hagg. split; [by apply par_answers|]. intros cs' r Hp Hfree. by apply answers_order.
  - intros Hagg s Hrun Hdone. pose proof (racing_reached n s Hrun) as Hrace.
    pose proof (race_outcome n s (run_first run) Hrace Hdone) as Hr. unfold par_Execute. rewrite Hagg. fold w. simpl.
    destruct (run_first run) as [out|k|]; [|destruct Hr as (-> & ? & ? & ?); by split_and!|by split].
    split; [done|]. intros o m Ho Hm. simpl. rewrite Ho. simpl. rewrite Hm. simpl. eexists _, _. split; [done|]. done.
Qed.

(** ** Splitting *)

Lemma chunk_list_spec {A} fuel size (items : list A) :
  (0 < size)%nat → (length items ≤ fuel)%nat →
  mjoin (chunk_list fuel size items) = items ∧
  Forall (λ c, c ≠ [] ∧ (length c ≤ size)%nat) (chunk_list fuel size items) ∧
  (∀ i c c', chunk_list fuel size items !! i = Some c → chunk_list fuel size items !! S i = Some c' → length c = size) ∧
  (size * length (chunk_list fuel size items) < length items + size)%nat.
Proof.
  intros Hs. revert items. induction fuel as [|fuel IH]; intros items Hf; simpl.
  { destruct items; [|simpl in Hf; lia]. split; [done|]. split; [constructor|]. split; [done|]. simpl. lia. }
  destruct items as [|x items]; [split; [done|]; split; [constructor|]; split; [done|]; simpl; lia|].
  set (l := x :: items) in *. assert (length l = S (length items)) as Hl by done.
  assert (length (drop size l) ≤ fuel)%nat as Hd.
  { rewrite length_drop. clear IH. clearbody l. lia. }
  destruct (IH (drop size l) Hd) as (Hj & Hall & Hlen & Hcnt).
  split; [simpl; by rewrite Hj, take_drop|]. split; [|split].
  - constructor; [|done]. rewrite length_take. split; [|lia]. unfold l. destruct size; [lia|done].
  - intros [|i] c c' H1 H2; simpl in *; [|by eapply Hlen]. simplify_eq. rewrite length_take.
    destruct (chunk_list fuel size (drop size l)) as [|c0 rest] eqn:He; [done|]. apply Forall_inv in Hall as [Hne _].
    assert (drop size l ≠ []) as Hdl by (intros H0; rewrite H0 in He; by destruct fuel).
    assert (0 < length (drop size l))%nat by (destruct (drop size l); [done|simpl; lia]). rewrite length_drop in *. lia.
  - rewrite length_drop in Hcnt. rewrite length_cons, Nat.mul_succ_r. clearbody l.
    destruct (Nat.le_gt_cases size (length l)); [lia|].
    assert (length (chunk_list fuel size (drop size l)) = 0)%nat as H0 by nia. rewrite H0. lia.
Qed.

(** Splitting a list of items, with a chunk size that is positive, gives the items
    back when the parts are put together; every part has at least one item and no
    more than the size, all but the last exactly the size; part [i] is number [i];
    a fixed count splits by the length divided by the count. *)
Theorem splitting_partitions key chunkSize (input : InputObj) m items :
  in_Context input = Some m → m !! key = Some (ASlice items) → key ≠ "chunk" → 0 < chunkSize →
  ∃ chunks, ListSplitter key chunkSize input =
      Some (inr (imap (λ i c, chunk_input (in_Instruction input) key i (ASlice c)) chunks)) ∧
    mjoin chunks = items ∧ Forall (λ c, c ≠ [] ∧ Z.of_nat (length c) ≤ chunkSize) chunks ∧
    (∀ i c c', chunks !! i = Some c → chunks !! S i = Some c' → Z.of_nat (length c) = chunkSize) ∧
    (∀ i c, chunks !! i = Some c → ∃ ctx, in_Context (chunk_input (in_Instruction input) key i (ASlice c)) = Some ctx ∧
       ctx !! key = Some (ASlice c) ∧ ctx !! "chunk" = Some (AInt (Z.of_nat i))) ∧
    (∀ count, 0 < count → chunkSize = Z.max 1 (Z.of_nat (length items) / count) →
       FixedCountSplitter count key input = ListSplitter key chunkSize input).
Proof.
  intros Hctx Hm Hkey Hpos. exists (chunk_list (length items) (Z.to_nat chunkSize) items).
  destruct (chunk_list_spec (length items) (Z.to_nat chunkSize) items) as (Hj & Hall & Hlen & _); [lia|done|].
  assert (ListSplitter key chunkSize input = Some (inr (imap (λ i c, chunk_input (in_Instruction input) key i (ASlice c))
    (chunk_list (length items) (Z.to_nat chunkSize) items)))) as Hsplit.
  { unfold ListSplitter. rewrite Hctx. simpl. rewrite Hm. unfold split_items. destruct items as [|x items]; [done|].
    by rewrite (proj2 (Z.ltb_lt 0 chunkSize)). }
  split; [done|]. split; [done|]. split; [|split; [|split]].
  - eapply Forall_impl; [exact Hall|]. intros c [? ?]. split; [done|lia].
  - intros i c c' H1 H2. rewrite (Hlen i c c' H1 H2). lia.
  - intros i c _. eexists. split; [done|]. rewrite lookup_insert_ne by done. by rewrite lookup_singleton_eq, lookup_insert_eq.
  - intros count Hcount Hcs. unfold FixedCountSplitter. rewrite Hctx. simpl. rewrite Hm.
    rewrite (proj2 (Z.eqb_neq count 0)) by lia. rewrite Z.quot_div_nonneg by lia. f_equal.
    pose proof (Z.div_pos (Z.of_nat (length items)) count). destruct (Z.eqb_spec (Z.of_nat (length items) / count) 0); lia.
Qed.

(** ** The map phase *)

Definition event_result (ev : MapEvent) : option nat := match ev with MapResult o => Some o | _ => None end.

(** The collecting loop ends with an answer of each mapper, or with an error. *)
Lemma map_collect_spec todo evs results errors results' errors' :
  map_collect todo evs results errors = Some (results', errors') →
  ∃ rs es, results' = results ++ rs ∧ errors' = errors ++ es ∧ ((length rs + length es = todo)%nat ∨ es ≠ []) ∧
    rs = omap event_result (take (length rs + length es) evs).
Proof.
  revert evs results errors. induction todo as [|todo IH]; intros evs results errors Hm; simpl in Hm.
  { simplify_eq. exists [], []. rewrite !app_nil_r. by split_and!; [..|left|]. }
  destruct evs as [|[out|err|err] evs]; [done| | |].
  - destruct (IH _ _ _ Hm) as (rs & es & -> & -> & Hl & Hrs). exists (out :: rs), es. rewrite <- app_assoc.
    split; [done|]. split; [done|]. split; [destruct Hl; [left; simpl; lia|by right]|]. csimpl. by f_equal.
  - destruct (IH _ _ _ Hm) as (rs & es & -> & -> & Hl & Hrs). exists rs, (err :: es). rewrite <- app_assoc.
    split; [done|]. split; [done|]. split; [by right|]. rewrite length_cons, Nat.add_succ_r. csimpl. done.
  - simplify_eq. exists [], [EWrap "map phase cancelled: " err ""]. rewrite app_nil_r. split; [done|]. split; [done|].
    split; [by right|done].
Qed.

(** A map-reduce agent that does not collect errors goes on to the reduction only
    when every mapper has succeeded, and then reduces exactly their outputs, in
    the order they came; one output alone is the result. *)
Theorem map_reduce_complete splits evs results errors red :
  mapPhase splits evs = Some (results, errors) → mapreduce_after_map false results errors = inr red →
  errors = [] ∧ length results = splits ∧ results = omap event_result (take splits evs) ∧ red = reducePhase results.
Proof.
  intros Hm Hr. destruct (map_collect_spec _ _ _ _ _ _ Hm) as (rs & es & -> & -> & Hl & Hrs). simpl in *.
  unfold mapreduce_after_map in Hr. destruct es as [|e es]; [|done]. simplify_eq. simpl in *. rewrite Nat.add_0_r in *.
  destruct Hl as [Hl|]; [|done]. rewrite Hl in Hrs. done.
Qed.
