(* ===== verification/Templates.v ===== *)
(** * Templates in instructions (pkg/agent/template.go)

    [{key}] and [{a.b}] in an instruction stand for values of the context.  The
    regular expression [templateRegex], words joined by dots between braces, is
    matched by one pass over the instruction, [scan], that remembers what follows
    the last open brace; [instruction_templates] shows that it finds exactly the
    substrings the expression matches. *)

From Stdlib Require Import Ascii.
From stdpp Require Import base gmap strings list fin_maps pretty.
From S2P Require Import Prelude Etcd Orchestration.

Open Scope Z_scope.

(** ** The expression *)

(** [\w] of package regexp: ASCII letters, digits and the underscore. *)
Definition is_word (c : ascii) : bool :=
  let n := Z.of_nat (nat_of_ascii c) in
  ((48 <=? n) && (n <=? 57)) || ((65 <=? n) && (n <=? 90)) || ((97 <=? n) && (n <=? 122)) || (n =? 95).

(** [strings.Split(key, ".")]. *)
Fixpoint split_dot (s : string) : list string :=
  match s with
  | EmptyString => [""]
  | String c s' =>
      if Ascii.eqb c "."%char then "" :: split_dot s'
      else match split_dot s' with [] => [String c ""] | p :: ps => String c p :: ps end
  end.

(** What the expression matches between the braces. *)
Definition template_key (k : string) : bool :=
  forallb (λ p, negb (String.eqb p "") && string_forall is_word p) (split_dot k).

Inductive Piece := PlainText (s : string) | Placeholder (key : string).

(** [open]: what was read since an open brace that may begin a placeholder. *)
Fixpoint scan (open : option string) (s : string) : list Piece :=
  match s with
  | EmptyString => match open with None => [] | Some acc => [PlainText ("{" +:+ acc)] end
  | String c s' =>
      match open with
      | None =>
          if Ascii.eqb c "{"%char then scan (Some "") s' else PlainText (String c "") :: scan None s'
      | Some acc =>
          if Ascii.eqb c "}"%char && template_key acc then Placeholder acc :: scan None s'
          else if Ascii.eqb c "{"%char then PlainText ("{" +:+ acc) :: scan (Some "") s'
          else if is_word c || Ascii.eqb c "."%char then scan (Some (acc +:+ String c "")) s'
          else PlainText ("{" +:+ acc +:+ String c "") :: scan None s'
      end
  end.

Definition placeholder_key (p : Piece) : option string :=
  match p with PlainText _ => None | Placeholder k => Some k end.

(** [templateRegex.FindAllStringSubmatch] and [MatchString]. *)
Definition ExtractTemplateKeys (instruction : string) : list string :=
  omap placeholder_key (scan None instruction).
Definition HasTemplates (instruction : string) : bool :=
  match ExtractTemplateKeys instruction with [] => false | _ => true end.

(** ** Values *)

(** The loop of [getNestedValue] from level [i] on. *)
Fixpoint nested_value (i : nat) (parts : list string) (current : Any) : result Any :=
  match parts with
  | [] => inr current
  | part :: parts' =>
      match current with
      | AMap m =>
          match m !! part with
          | None => inl (EText ("key '" +:+ part +:+ "' not found at level " +:+ pretty (Z.of_nat i)))
          | Some val => nested_value (S i) parts' val
          end
      | _ => inl (EText ("cannot access field '" +:+ part +:+ "' on non-map value"))
      end
  end.

Definition getNestedValue (context : gmap string Any) (key : string) : result Any :=
  nested_value 0 (split_dot key) (AMap context).

Section Interpolation.
Context (fmt_other : Any → string).

(** What a piece becomes: a placeholder without a value stays as it is. *)
Definition piece_text (context : gmap string Any) (p : Piece) : string :=
  match p with
  | PlainText s => s
  | Placeholder key =>
      match getNestedValue context key with
      | inl _ => "{" +:+ key +:+ "}"
      | inr value => fmt_any fmt_other value
      end
  end.

Definition has_value (context : gmap string Any) (key : string) : bool :=
  match getNestedValue context key with inl _ => false | inr _ => true end.

Definition missing_keys (context : gmap string Any) (instruction : string) : list string :=
  filter (λ k, has_value context k = false) (ExtractTemplateKeys instruction).

Definition concat_text (l : list string) : string := foldr String.append "" l.

Definition InterpolateInstruction (instruction : string) (context : option (gmap string Any)) : string * option error :=
  match context with
  | None => (instruction, None)
  | Some ctx =>
      let result := concat_text (piece_text ctx <$> scan None instruction) in
      match missing_keys ctx instruction with
      | [] => (result, None)
      | keys =>
          (result, Some (EText ("template interpolation warnings: " +:+
             strings_Join ((λ k, "template key '" +:+ k +:+ "' not found") <$> keys) "; ")))
      end
  end.

Definition InterpolateInstructionStrict (instruction : string) (context : option (gmap string Any)) : result string :=
  match InterpolateInstruction instruction context with
  | (_, Some err) => inl err
  | (result, None) =>
      if HasTemplates result then inl (EText "template contains unresolved placeholders") else inr result
  end.

End Interpolation.

(** ** What the expression matches *)

(** [k] stands in braces in [s], after [pre] and before [post]. *)
Definition occurs_at (s pre k post : string) : Prop :=
  template_key k = true ∧ s = pre +:+ "{" +:+ k +:+ "}" +:+ post.

Definition raw (p : Piece) : string :=
  match p with PlainText s => s | Placeholder k => "{" +:+ k +:+ "}" end.
Definition raw_text (l : list Piece) : string := concat_text (raw <$> l).
Definition opened_text (open : option string) : string :=
  match open with None => "" | Some acc => "{" +:+ acc end.

Definition template_char (c : ascii) : bool := is_word c || Ascii.eqb c "."%char.

Lemma app_String c (s t : string) : String c s +:+ t = String c (s +:+ t).
Proof. reflexivity. Qed.
Lemma app_nil_string (s : string) : s +:+ "" = s.
Proof. induction s as [|c s IH]; [done|]. by rewrite app_String, IH. Qed.

Lemma split_dot_nonempty s : split_dot s ≠ [].
Proof. destruct s as [|c s]; simpl; [done|]. destruct (Ascii.eqb c _); [done|]. by destruct (split_dot s). Qed.

Lemma template_key_chars k : template_key k = true → string_forall template_char k = true.
Proof.
  assert (∀ ps, ps = split_dot k →
    forallb (λ p, string_forall is_word p) ps = true → string_forall template_char k = true) as Hgo.
  { induction k as [|c k IH]; intros ps ->; simpl; [done|]. unfold template_char at 1.
    destruct (Ascii.eqb c "."%char); simpl.
    - rewrite orb_true_r. simpl. by apply IH.
    - destruct (split_dot k) as [|p ps] eqn:Hs; [by apply split_dot_nonempty in Hs|].
      simpl. rewrite !andb_true_iff, orb_false_r. intros [[? ?] ?]. split; [done|].
      apply (IH (p :: ps)); [done|]. simpl. by apply andb_true_iff. }
  intros Hk. apply (Hgo _ eq_refl). unfold template_key in Hk. rewrite forallb_forall in Hk |- *.
  intros p Hp. by apply Hk, andb_true_iff in Hp as [_ ?].
Qed.

Lemma string_forall_app f (a b : string) : string_forall f (a +:+ b) = string_forall f a && string_forall f b.
Proof. induction a as [|c a IH]; [done|]. rewrite app_String. simpl. by rewrite IH, andb_assoc. Qed.

Lemma raw_text_cons p l : raw_text (p :: l) = raw p +:+ raw_text l.
Proof. done. Qed.

(** Equations between strings that are put together in the same order. *)
Ltac strings := simpl; rewrite ?app_String, ?string_app_assoc; reflexivity.

(** Case analysis on the tests of [scan]. *)
Ltac chars :=
  repeat match goal with
  | H : _ && _ = true |- _ => apply andb_true_iff in H as [? ?]
  | H : (_ =? _)%char = true |- _ => apply Ascii.eqb_eq in H; subst
  | H : (_ =? _)%char = false |- _ => apply Ascii.eqb_neq in H
  end.

(** The pieces put together are the instruction. *)
Lemma scan_raw open s : raw_text (scan open s) = opened_text open +:+ s.
Proof.
  revert open. induction s as [|c s IH]; intros open; cbn [scan].
  - destruct open as [acc|]; [|done]. rewrite raw_text_cons. strings.
  - repeat case_match; rewrite ?raw_text_cons, IH; chars; strings.
Qed.

Lemma scan_keys open s k : Placeholder k ∈ scan open s → template_key k = true.
Proof.
  revert open. induction s as [|c s IH]; intros open; cbn [scan].
  - destruct open; intros Hin; [apply list_elem_of_singleton in Hin|by apply elem_of_nil in Hin]; done.
  - repeat case_match; rewrite ?elem_of_cons; chars; try (by eauto);
      intros [Heq|Hin]; try done; try (by eapply IH); by injection Heq as ->.
Qed.

(** An open brace ends what came before it. *)
Lemma scan_brace open pre rest : scan open (pre +:+ String "{" rest) = scan open pre ++ scan (Some "") rest.
Proof.
  revert open. induction pre as [|c pre IH]; intros open.
  - by destruct open.
  - rewrite app_String. cbn [scan]. repeat case_match; by rewrite IH.
Qed.

(** A key between its braces is read to its end. *)
Lemma scan_key acc k post :
  string_forall template_char k = true → template_key (acc +:+ k) = true →
  scan (Some acc) (k +:+ String "}" post) = Placeholder (acc +:+ k) :: scan None post.
Proof.
  revert acc. induction k as [|c k IH]; intros acc Hk Hkey.
  - rewrite app_nil_string in *. change ("" +:+ String "}" post) with (String "}" post). cbn [scan]. by rewrite Hkey.
  - rewrite app_String. cbn [scan]. simpl in Hk. apply andb_true_iff in Hk as [Hc Hk].
    assert (Ascii.eqb c "}"%char = false ∧ Ascii.eqb c "{"%char = false) as [-> ->].
    { split; apply Ascii.eqb_neq; intros ->; done. }
    cbn [andb]. unfold template_char in Hc. rewrite Hc.
    assert (acc +:+ String c k = (acc +:+ String c "") +:+ k) as Heq by strings.
    rewrite Heq in Hkey |- *. by apply IH.
Qed.

Lemma scan_occurrence s pre k post :
  occurs_at s pre k post → scan None s = scan None pre ++ Placeholder k :: scan None post.
Proof.
  intros [Hk ->]. change ("{" +:+ k +:+ "}" +:+ post) with (String "{" (k +:+ String "}" post)).
  rewrite scan_brace. f_equal. apply (scan_key ""); [by apply template_key_chars|done].
Qed.

Lemma raw_text_app l l' : raw_text (l ++ l') = raw_text l +:+ raw_text l'.
Proof. induction l as [|p l IH]; [done|]. rewrite <- app_comm_cons, !raw_text_cons, IH. by rewrite string_app_assoc. Qed.

(** A placeholder the scan finds stands in the instruction. *)
Lemma placeholder_occurs s k : Placeholder k ∈ scan None s → ∃ pre post, occurs_at s pre k post.
Proof.
  intros Hin. pose proof (scan_keys _ _ _ Hin) as Hk. apply list_elem_of_split in Hin as (l1 & l2 & Hl).
  exists (raw_text l1), (raw_text l2). split; [done|].
  pose proof (scan_raw None s) as Hr. rewrite Hl, raw_text_app, raw_text_cons in Hr.
  change (opened_text None +:+ s) with s in Hr. rewrite <- Hr. strings.
Qed.

Lemma template_keys_spec s k : k ∈ ExtractTemplateKeys s ↔ ∃ pre post, occurs_at s pre k post.
Proof.
  unfold ExtractTemplateKeys. rewrite list_elem_of_omap. split.
  - intros ([t|k'] & Hin & Hk); simplify_eq/=. by apply placeholder_occurs.
  - intros (pre & post & Ho). exists (Placeholder k). rewrite (scan_occurrence _ _ _ _ Ho). split; [set_solver|done].
Qed.

Lemma has_templates_spec s : HasTemplates s = true ↔ ∃ pre k post, occurs_at s pre k post.
Proof.
  unfold HasTemplates. pose proof (template_keys_spec s) as Hx. destruct (ExtractTemplateKeys s) as [|k l].
  - split; [done|]. intros (pre & k & post & Ho). destruct (proj1 (elem_of_nil k)). apply Hx. eauto.
  - split; [|done]. intros _. destruct (proj1 (Hx k)) as (pre & post & Ho); [by left|eauto].
Qed.

Lemma concat_text_app l l' : concat_text (l ++ l') = concat_text l +:+ concat_text l'.
Proof. induction l as [|x l IH]; [done|]. simpl. by rewrite IH, string_app_assoc. Qed.

Lemma interpolate_text f s ctx : (InterpolateInstruction f s (Some ctx)).1 = concat_text (piece_text f ctx <$> scan None s).
Proof. unfold InterpolateInstruction. by case_match. Qed.

(** Without placeholders the pieces are the text itself. *)
Lemma interpolate_plain f s ctx :
  ¬ (∃ pre k post, occurs_at s pre k post) → InterpolateInstruction f s (Some ctx) = (s, None).
Proof.
  intros Hno. assert (∀ l, (∀ k, Placeholder k ∉ l) → concat_text (piece_text f ctx <$> l) = raw_text l) as Hraw.
  { induction l as [|[t|k] l IH]; intros Hl; [done| |destruct (Hl k); by left].
    rewrite raw_text_cons, fmap_cons. simpl. rewrite IH; [done|]. set_solver. }
  assert (missing_keys ctx s = []) as Hm.
  { unfold missing_keys. destruct (ExtractTemplateKeys s) as [|k l] eqn:He; [done|].
    exfalso. apply Hno. apply has_templates_spec. unfold HasTemplates. by rewrite He. }
  unfold InterpolateInstruction. rewrite Hm, Hraw, scan_raw; [done|].
  intros k Hin. apply Hno. destruct (placeholder_occurs _ _ Hin) as (pre & post & ?). eauto.
Qed.

(** Templates are replaced as their expression says.  An instruction has
    templates exactly when a key, words joined by dots, stands in braces in it, and
    the keys are those that do.  Interpolation replaces each of them: the text
    before, the value, the text after; a key without a value stays as it is.
    Without templates, or without a context, nothing changes.  An error is
    reported exactly when some key has no value; the strict variant succeeds only
    when every key has one, and its text has no templates left. *)
Theorem instruction_templates f s ctx :
  (HasTemplates s = true ↔ ∃ pre k post, occurs_at s pre k post) ∧
  (∀ k, k ∈ ExtractTemplateKeys s ↔ ∃ pre post, occurs_at s pre k post) ∧
  (∀ pre k post, occurs_at s pre k post →
     (InterpolateInstruction f s (Some ctx)).1 =
       (InterpolateInstruction f pre (Some ctx)).1 +:+
       match getNestedValue ctx k with inr v => fmt_any f v | inl _ => "{" +:+ k +:+ "}" end +:+
       (InterpolateInstruction f post (Some ctx)).1) ∧
  (HasTemplates s = false → InterpolateInstruction f s (Some ctx) = (s, None)) ∧
  InterpolateInstruction f s None = (s, None) ∧
  ((InterpolateInstruction f s (Some ctx)).2 = None ↔
     ∀ pre k post, occurs_at s pre k post → has_value ctx k = true) ∧
  (∀ t, InterpolateInstructionStrict f s (Some ctx) = inr t →
     InterpolateInstruction f s (Some ctx) = (t, None) ∧ HasTemplates t = false).
Proof.
  split_and!.
  - apply has_templates_spec.
  - apply template_keys_spec.
  - intros pre k post Ho. rewrite !interpolate_text, (scan_occurrence _ _ _ _ Ho), fmap_app, concat_text_app. done.
  - intros Hno. apply interpolate_plain. rewrite <- has_templates_spec. by rewrite Hno.
  - done.
  - unfold InterpolateInstruction. destruct (missing_keys ctx s) as [|k l] eqn:Hm; simpl.
    + split; [|done]. intros _ pre k post Ho. destruct (has_value ctx k) eqn:Hv; [done|].
      destruct (proj1 (elem_of_nil k)). rewrite <- Hm. apply list_elem_of_filter. split; [done|]. apply template_keys_spec. eauto.
    + split; [done|]. intros Hall. assert (k ∈ missing_keys ctx s) as Hk by (rewrite Hm; by left).
      apply list_elem_of_filter in Hk as [Hv Hk]. apply template_keys_spec in Hk as (pre & post & Ho).
      rewrite (Hall _ _ _ Ho) in Hv. done.
  - intros t. unfold InterpolateInstructionStrict. destruct (InterpolateInstruction f s (Some ctx)) as [r [e|]]; [done|].
    destruct (HasTemplates r) eqn:Hh; [done|]. by intros [= <-].
Qed.
