(* ===== verification/AgentExec.v ===== *)
(** * Executing a base agent (pkg/agent/agent.go, callbacks.go)

    [BaseAgent.Execute] with its callbacks, templates and output key, over the
    world of [Orchestration]: executors and callbacks are any functions of the
    world, [None] if they panic or never return.  An input has a context map of its
    own.  A base agent is a child of workflow agents ([as_child]);
    [pipeline_refines] runs a sequence of them and compares it with a pure
    pipeline. *)

From stdpp Require Import base gmap strings list fin_maps pretty.
From S2P Require Import Prelude Etcd Orchestration Templates.

Open Scope Z_scope.

Section Execution.
Context {Env : Type} (fmt_other : Any → string).
Local Notation World := (AgentWorld Env).

(** ** Callbacks *)

Definition AgentCallback : Type := nat → World → option (option error * World).
Definition AgentOutputCallback : Type := nat → option nat → World → option (option error * World).
Definition ErrorCallback : Type := nat → error → World → option (option error * World).

(** A [CallbackExecutor] that goes on after errors or stops at the first. *)
Fixpoint ExecuteAgentCallbacks (stopOnError : bool) (i : nat) (callbacks : list AgentCallback) (input : nat) (w : World)
    : option (option error * World) :=
  match callbacks with
  | [] => Some (None, w)
  | callback :: callbacks' =>
      '(err, w) ← callback input w;
      match err with
      | Some e =>
          if stopOnError then Some (Some (EWrap ("callback " +:+ pretty (Z.of_nat i) +:+ " failed: ") e ""), w)
          else ExecuteAgentCallbacks stopOnError (S i) callbacks' input w
      | None => ExecuteAgentCallbacks stopOnError (S i) callbacks' input w
      end
  end.

Fixpoint ExecuteOutputCallbacks (stopOnError : bool) (i : nat) (callbacks : list AgentOutputCallback) (input : nat)
    (output : option nat) (w : World) : option (option error * World) :=
  match callbacks with
  | [] => Some (None, w)
  | callback :: callbacks' =>
      '(err, w) ← callback input output w;
      match err with
      | Some e =>
          if stopOnError then Some (Some (EWrap ("output callback " +:+ pretty (Z.of_nat i) +:+ " failed: ") e ""), w)
          else ExecuteOutputCallbacks stopOnError (S i) callbacks' input output w
      | None => ExecuteOutputCallbacks stopOnError (S i) callbacks' input output w
      end
  end.

Fixpoint ExecuteErrorCallbacks (callbacks : list ErrorCallback) (input : nat) (err : error) (w : World)
    : option (option error * World) :=
  match callbacks with
  | [] => Some (None, w)
  | callback :: callbacks' => '(_, w) ← callback input err w; ExecuteErrorCallbacks callbacks' input err w
  end.

(** Callbacks made of others. *)
Fixpoint chain_from (i : nat) (callbacks : list AgentCallback) (input : nat) (w : World) : option (option error * World) :=
  match callbacks with
  | [] => Some (None, w)
  | cb :: callbacks' =>
      '(err, w) ← cb input w;
      match err with
      | Some e => Some (Some (EWrap ("callback " +:+ pretty (Z.of_nat i) +:+ " in chain failed: ") e ""), w)
      | None => chain_from (S i) callbacks' input w
      end
  end.
Definition ChainCallbacks (callbacks : list AgentCallback) : AgentCallback := chain_from 0 callbacks.

Definition ConditionalCallback (condition : nat → World → bool) (callback : AgentCallback) : AgentCallback :=
  λ input w, if condition input w then callback input w else Some (None, w).

(** [tries] more calls; the error of the last one is wrapped. *)
Fixpoint retry_callback (maxRetries : Z) (callback : AgentCallback) (tries : nat) (lastErr : option error)
    (input : nat) (w : World) : option (option error * World) :=
  match tries with
  | O =>
      let text := "callback failed after " +:+ pretty maxRetries +:+ " retries: " in
      Some (Some match lastErr with Some e => EWrap text e "" | None => EText (text +:+ "%!w(<nil>)") end, w)
  | S tries' =>
      '(err, w) ← callback input w;
      match err with
      | Some e => retry_callback maxRetries callback tries' (Some e) input w
      | None => Some (None, w)
      end
  end.
Definition RetryCallback (callback : AgentCallback) (maxRetries : Z) : AgentCallback :=
  retry_callback maxRetries callback (Z.to_nat (maxRetries + 1)) None.

(** ** Execute *)

Record BaseExec := mkBaseExec {
  be_name : string;
  be_executor : option (nat → World → option (result (option nat) * World));
  be_outputKey : string;
  be_beforeExecute : list AgentCallback;
  be_afterExecute : list AgentOutputCallback;
  be_onError : list ErrorCallback;
}.

Definition put_input (l : nat) (i : InputObj) (w : World) : World :=
  mkAgentWorld (<[l := i]> (wd_inputs w)) (wd_outputs w) (wd_env w).
Definition put_output (l : nat) (o : OutputObj) (w : World) : World :=
  mkAgentWorld (wd_inputs w) (<[l := o]> (wd_outputs w)) (wd_env w).

(** The instruction of an input with its templates replaced. *)
Definition interpolated (i : InputObj) : InputObj :=
  if negb (String.eqb (in_Instruction i) "") && HasTemplates (in_Instruction i) then
    mkInputObj (InterpolateInstruction fmt_other (in_Instruction i) (in_Context i)).1 (in_Context i) (in_Rest i)
  else i.

(** The metadata map is made if there is none. *)
Definition ensure_metadata (o : OutputObj) : OutputObj :=
  mkOutputObj (out_Result o) (Some (default ∅ (out_Metadata o))) (out_Error o) (out_Rest o).

Definition stored_input (key : string) (result : Any) (i : InputObj) : InputObj :=
  mkInputObj (in_Instruction i) (Some (<[key := result]> (default ∅ (in_Context i)))) (in_Rest i).
Definition stored_output (key : string) (o : OutputObj) : OutputObj :=
  mkOutputObj (out_Result o)
    (Some (<["stored_to_context" := ABool true]> (<["output_key" := AString key]> (default ∅ (out_Metadata o)))))
    (out_Error o) (out_Rest o).

(** What happens to the input and the output between executor and callbacks. *)
Definition store_result (key : string) (input : nat) (output : option nat) (w : World) : option World :=
  match output with
  | None => Some w
  | Some l =>
      o ← wd_outputs w !! l;
      let o := ensure_metadata o in
      let w := put_output l o w in
      if String.eqb key "" then Some w
      else i ← wd_inputs w !! input; Some (put_output l (stored_output key o) (put_input input (stored_input key (out_Result o) i) w))
  end.

Definition BaseAgent_Execute (b : BaseExec) (input : nat) (w : World) : option (result (option nat) * World) :=
  match be_executor b with
  | None => Some (inl (EText ("no executor configured for agent " +:+ be_name b)), w)
  | Some execute =>
      '(_, w) ← ExecuteAgentCallbacks false 0 (be_beforeExecute b) input w;
      i ← wd_inputs w !! input;
      '(r, w) ← execute input (put_input input (interpolated i) w);
      match r with
      | inl err => '(_, w) ← ExecuteErrorCallbacks (be_onError b) input err w; Some (inl err, w)
      | inr output =>
          w ← store_result (be_outputKey b) input output w;
          '(_, w) ← ExecuteOutputCallbacks false 0 (be_afterExecute b) input output w;
          Some (inr output, w)
      end
  end.

Definition as_child (b : BaseExec) : ChildAgent Env := mkChild (be_name b) (BaseAgent_Execute b).

End Execution.

Arguments BaseExec : clear implicits.

(** ** What a base agent does *)

Section Behaviour.
Context {Env : Type} (fmt_other : Any → string).
Local Notation World := (AgentWorld Env).

(** Each of the calls once, in order, whatever errors they return. *)
Fixpoint run_all (calls : list (World → option (option error * World))) (w : World) : option World :=
  match calls with
  | [] => Some w
  | call :: calls' => '(_, w) ← call w; run_all calls' w
  end.

Lemma agent_callbacks_all i cbs input w :
  ExecuteAgentCallbacks false i cbs input w = (None,.) <$> run_all ((λ (c : AgentCallback) w, c input w) <$> cbs) w.
Proof.
  revert i w. induction cbs as [|c cbs IH]; intros i w; simpl; [done|].
  destruct (c input w) as [[[e|] w1]|]; simpl; [apply IH..|done].
Qed.

Lemma output_callbacks_all i cbs input out w :
  ExecuteOutputCallbacks false i cbs input out w =
  (None,.) <$> run_all ((λ (c : AgentOutputCallback) w, c input out w) <$> cbs) w.
Proof.
  revert i w. induction cbs as [|c cbs IH]; intros i w; simpl; [done|].
  destruct (c input out w) as [[[e|] w1]|]; simpl; [apply IH..|done].
Qed.

Lemma error_callbacks_all cbs input err w :
  ExecuteErrorCallbacks cbs input err w = (None,.) <$> run_all ((λ (c : ErrorCallback) w, c input err w) <$> cbs) w.
Proof.
  revert w. induction cbs as [|c cbs IH]; intros w; simpl; [done|].
  destruct (c input err w) as [[e w1]|]; simpl; [apply IH|done].
Qed.

(** The outcome of a base agent is that of its executor, which is given the input
    with its templates replaced, after every callback for the start has run.
    After an error every error callback runs; after a success the result is
    stored under the output key, then every callback for the end runs.  Errors of
    callbacks change nothing. *)
Theorem base_execution (b : BaseExec Env) input w execute r w' :
  be_executor b = Some execute → BaseAgent_Execute fmt_other b input w = Some (r, w') →
  ∃ w1 i w2, run_all ((λ (c : AgentCallback) w, c input w) <$> be_beforeExecute b) w = Some w1 ∧
    wd_inputs w1 !! input = Some i ∧
    execute input (put_input input (interpolated fmt_other i) w1) = Some (r, w2) ∧
    match r with
    | inl err => run_all ((λ (c : ErrorCallback) w, c input err w) <$> be_onError b) w2 = Some w'
    | inr out => ∃ w3, store_result (be_outputKey b) input out w2 = Some w3 ∧
        run_all ((λ (c : AgentOutputCallback) w, c input out w) <$> be_afterExecute b) w3 = Some w'
    end.
Proof.
  intros He. unfold BaseAgent_Execute. rewrite He, agent_callbacks_all.
  destruct (run_all _ w) as [w1|]; [|done]. cbn [mbind option_bind fmap option_fmap option_map].
  destruct (wd_inputs w1 !! input) as [i|] eqn:Hi; [|done]. cbn [mbind option_bind].
  destruct (execute input (put_input input (interpolated fmt_other i) w1)) as [[r2 w2]|] eqn:Hx; [|done]. cbn [mbind option_bind].
  destruct r2 as [err|out].
  - rewrite error_callbacks_all. destruct (run_all _ w2) as [w3|] eqn:Hr; [|done]. cbn. intros [= <- <-]. eauto 10.
  - destruct (store_result _ input out w2) as [w3|] eqn:Hs; [|done]. cbn [mbind option_bind]. rewrite output_callbacks_all.
    destruct (run_all _ w3) as [w4|] eqn:Hr; [|done]. cbn. intros [= <- <-]. eauto 10.
Qed.

Lemma retry_callback_spec (callback : AgentCallback (Env:=Env)) maxRetries tries lastErr input w err w' :
  retry_callback maxRetries callback tries lastErr input w = Some (err, w') →
  ∃ n, (n ≤ tries)%nat ∧ run_all (replicate n (callback input)) w = Some w' ∧
    match err with
    | None => ∃ w0, run_all (replicate (n - 1) (callback input)) w = Some w0 ∧ (0 < n)%nat ∧ callback input w0 = Some (None, w')
    | Some _ => n = tries ∧
        ∀ m w0 r, (m < n)%nat → run_all (replicate m (callback input)) w = Some w0 → callback input w0 = Some r → is_Some r.1
    end.
Proof.
  revert lastErr w. induction tries as [|tries IH]; intros lastErr w; simpl.
  - intros [= <- <-]. exists 0%nat. split; [lia|]. split; [done|]. split; [done|]. intros; lia.
  - destruct (callback input w) as [[[e|] w1]|] eqn:Hc; simpl; [| |done].
    + intros Hr. destruct (IH _ _ Hr) as (n & Hn & Hrun & Hout). exists (S n). split; [lia|].
      simpl. rewrite Hc. cbn [mbind option_bind]. split; [done|]. destruct err as [err|].
      * destruct Hout as [-> Hall]. split; [done|]. intros [|m] w0 r Hm Hw0 Hr0.
        { simpl in Hw0. simplify_eq. by eexists. }
        simpl in Hw0. rewrite Hc in Hw0. cbn [mbind option_bind] in Hw0. eapply (Hall m); [lia|done..].
      * destruct Hout as (w0 & Hw0 & Hpos & Hlast). exists w0. split; [|split; [lia|done]].
        destruct n as [|n]; [lia|]. simpl in Hw0. rewrite Nat.sub_0_r in Hw0. simpl. by rewrite Hc.
    + intros [= <- <-]. exists 1%nat. split; [lia|]. simpl. rewrite Hc. split; [done|]. exists w. split; [done|]. split; [lia|done].
Qed.

(** A retried callback is called until it succeeds, at most once more than it may
    be retried, and not at all if the number of retries is negative; it fails only
    when every call did. *)
Theorem retried_callback (callback : AgentCallback (Env:=Env)) maxRetries input w err w' :
  RetryCallback callback maxRetries input w = Some (err, w') →
  ∃ n, (n ≤ Z.to_nat (maxRetries + 1))%nat ∧ run_all (replicate n (callback input)) w = Some w' ∧
    match err with
    | None => ∃ w0, run_all (replicate (n - 1) (callback input)) w = Some w0 ∧ (0 < n)%nat ∧ callback input w0 = Some (None, w')
    | Some _ => n = Z.to_nat (maxRetries + 1) ∧
        ∀ m w0 r, (m < n)%nat → run_all (replicate m (callback input)) w = Some w0 → callback input w0 = Some r → is_Some r.1
    end.
Proof. apply retry_callback_spec. Qed.

End Behaviour.

(** ** A sequence of base agents

    Agents whose executors compute a result from what their input holds, in a
    sequential agent that stops on errors and gives every child the same input.
    What one stores under its output key the templates of the next can name. *)

Record PureAgent := mkPure {
  pg_name : string;
  pg_key : string;
  pg_fun : InputObj → result Any;
}.

Section Pipeline.
Context {Env : Type} (fmt_other : Any → string).
Local Notation World := (AgentWorld Env).

Definition pure_executor (f : InputObj → result Any) (input : nat) (w : World) : option (result (option nat) * World) :=
  i ← wd_inputs w !! input;
  match f i with
  | inl e => Some (inl e, w)
  | inr v => let '(l, w) := alloc_output (mkOutputObj v None None 0) w in Some (inr (Some l), w)
  end.

Definition base_of (g : PureAgent) : BaseExec Env :=
  mkBaseExec (pg_name g) (Some (pure_executor (pg_fun g))) (pg_key g) [] [] [].

(** *** What a pipeline computes *)

(** The value of a dotted key: from map to map. *)
Fixpoint at_path (parts : list string) (v : Any) : option Any :=
  match parts with
  | [] => Some v
  | part :: parts' => match v with AMap m => m !! part ≫= at_path parts' | _ => None end
  end.

Definition key_text (ctx : gmap string Any) (k : string) : string :=
  match at_path (split_dot k) (AMap ctx) with Some v => fmt_any fmt_other v | None => "{" +:+ k +:+ "}" end.

(** A text with its keys in braces replaced by their values in a context; a key
    without a value stays. *)
Inductive replaced (ctx : gmap string Any) : string → string → Prop :=
  | replaced_plain s : (¬ ∃ pre k post, occurs_at s pre k post) → replaced ctx s s
  | replaced_key s pre k post pre' post' :
      occurs_at s pre k post → replaced ctx pre pre' → replaced ctx post post' →
      replaced ctx s (pre' +:+ key_text ctx k +:+ post').

(** The input an agent computes with: the instruction has its templates replaced. *)
Definition prepared (i i' : InputObj) : Prop :=
  in_Context i' = in_Context i ∧ in_Rest i' = in_Rest i ∧
  match in_Context i with
  | None => in_Instruction i' = in_Instruction i
  | Some ctx => replaced ctx (in_Instruction i) (in_Instruction i')
  end.

(** The input an agent leaves: the context has its result under its output key, if
    it has one. *)
Definition remembered (key : string) (v : Any) (i i' : InputObj) : Prop :=
  in_Instruction i' = in_Instruction i ∧ in_Rest i' = in_Rest i ∧
  if decide (key = "") then in_Context i' = in_Context i
  else ∃ ctx, in_Context i' = Some ctx ∧ ctx !! key = Some v ∧
         ∀ k, k ≠ key → ctx !! k = in_Context i ≫= lookup k.

(** The pipeline: the results or the first error, and the input left. *)
Inductive pipeline : nat → list PureAgent → InputObj → result (list Any) → InputObj → Prop :=
  | pipeline_nil n i : pipeline n [] i (inr []) i
  | pipeline_error n g gs i i1 e :
      prepared i i1 → pg_fun g i1 = inl e →
      pipeline n (g :: gs) i
        (inl (EWrap ("sequential agent failed at step " +:+ pretty (Z.of_nat n) +:+ " (" +:+ pg_name g +:+ "): ") e "")) i1
  | pipeline_step n g gs i i1 v i2 r i3 :
      prepared i i1 → pg_fun g i1 = inr v → remembered (pg_key g) v i1 i2 → pipeline (S n) gs i2 r i3 →
      pipeline n (g :: gs) i (match r with inl e => inl e | inr vs => inr (v :: vs) end) i3.

(** The same as a function, with the agents' own functions. *)
Fixpoint pipeline_fun (n : nat) (gs : list PureAgent) (i : InputObj) : result (list Any) * InputObj :=
  match gs with
  | [] => (inr [], i)
  | g :: gs' =>
      let i := interpolated fmt_other i in
      match pg_fun g i with
      | inl e => (inl (seq_failed n (pg_name g) e), i)
      | inr v =>
          let '(r, i) := pipeline_fun (S n) gs' (if String.eqb (pg_key g) "" then i else stored_input (pg_key g) v i) in
          (match r with inl e => inl e | inr vs => inr (v :: vs) end, i)
      end
  end.

Definition together (vs : list Any) : Any :=
  match vs with [] => ANil | [v] => v | _ => ASlice vs end.

(** One agent: its input is replaced, an output with its result is new. *)
Lemma base_of_run g input i w :
  wd_inputs w !! input = Some i →
  let i1 := interpolated fmt_other i in
  match pg_fun g i1 with
  | inl e => BaseAgent_Execute fmt_other (base_of g) input w = Some (inl e, put_input input i1 w)
  | inr v => ∃ l o w', BaseAgent_Execute fmt_other (base_of g) input w = Some (inr (Some l), w') ∧
      wd_outputs w !! l = None ∧ wd_outputs w' = <[l := o]> (wd_outputs w) ∧ out_Result o = v ∧
      wd_inputs w' = <[input := if String.eqb (pg_key g) "" then i1 else stored_input (pg_key g) v i1]> (wd_inputs w)
  end.
Proof.
  intros Hi i1. unfold BaseAgent_Execute. cbn [be_executor base_of be_beforeExecute ExecuteAgentCallbacks mbind option_bind].
  rewrite Hi. cbn [mbind option_bind]. fold i1. unfold pure_executor at 1 2.
  cbn [wd_inputs put_input]. rewrite lookup_insert_eq. cbn [mbind option_bind].
  destruct (pg_fun g i1) as [e|v]; [done|].
  destruct (alloc_output (mkOutputObj v None None 0) (put_input input i1 w)) as [l w2] eqn:Ha.
  unfold alloc_output in Ha. simplify_eq. set (l := fresh _).
  assert (wd_outputs w !! l = None) as Hf by apply not_elem_of_dom, is_fresh.
  unfold store_result. simpl. rewrite !lookup_insert_eq. simpl.
  destruct (String.eqb (pg_key g) "") eqn:Hk; simpl;
    (do 3 eexists; split; [reflexivity|]; split; [exact Hf|]; simpl; by rewrite !insert_insert_eq).
Qed.

(** The loop of the sequential agent, after some steps with results. *)
Lemma seq_loop_pipeline a n gs results input i w :
  sq_stopOnError a = true → sq_passOutput a = false → wd_inputs w !! input = Some i →
  ∃ w', wd_inputs w' = <[input := (pipeline_fun n gs i).2]> (wd_inputs w) ∧ wd_outputs w ⊆ wd_outputs w' ∧
  match (pipeline_fun n gs i).1 with
  | inl e => seq_loop fmt_other a input n ((as_child fmt_other ∘ base_of) <$> gs) results input w = Some (inl e, w')
  | inr vs => ∃ ls, seq_loop fmt_other a input n ((as_child fmt_other ∘ base_of) <$> gs) results input w =
        Some (inr (results ++ ls), w') ∧
      mapM (λ p, out_Result <$> output_at w' p) ls = Some vs
  end.
Proof.
  intros Hstop Hpass. revert n results i w. induction gs as [|g gs IH]; intros n results i w Hi.
  - exists w. simpl. split; [by rewrite insert_id|]. split; [done|]. exists []. by rewrite app_nil_r.
  - pose proof (base_of_run g input i w Hi) as Hrun. cbv zeta in Hrun.
    cbn [pipeline_fun fmap list_fmap seq_loop compose as_child ch_run ch_name base_of be_name]. set (i1 := interpolated fmt_other i) in *.
    destruct (pg_fun g i1) as [e|v].
    { exists (put_input input i1 w). split; [done|]. split; [done|].
      fold (base_of g). rewrite Hrun. cbn [mbind option_bind]. by rewrite Hstop. }
    destruct Hrun as (l & o & w1 & Hrun & Hfree & Hout & Hres & Hin).
    fold (base_of g). rewrite Hrun. cbn [mbind option_bind]. rewrite Hpass. cbn [andb].
    set (i2 := if String.eqb (pg_key g) "" then i1 else stored_input (pg_key g) v i1) in *.
    destruct (IH (S n) (results ++ [Some l]) i2 w1) as (w' & Hin' & Hsub & Hr); [by rewrite Hin, lookup_insert_eq|].
    destruct (pipeline_fun (S n) gs i2) as [r i3]. cbn [fst snd] in *. exists w'.
    assert (wd_outputs w ⊆ wd_outputs w1) as Hsub1 by (rewrite Hout; by apply insert_subseteq).
    split; [by rewrite Hin', Hin, insert_insert_eq|]. split; [by etrans|].
    destruct r as [e|vs]; [done|]. destruct Hr as (ls & Hloop & Hvs). exists (Some l :: ls).
    split; [by rewrite Hloop, <- app_assoc|]. cbn [mapM]. 
    assert (wd_outputs w' !! l = Some o) as Hl by (eapply lookup_weaken; [|exact Hsub]; by rewrite Hout, lookup_insert_eq).
    simpl. rewrite Hl. simpl. rewrite Hvs, Hres. done.
Qed.

(** *** The function computes the pipeline *)

Lemma at_path_nested i parts v :
  match nested_value i parts v with inr x => at_path parts v = Some x | inl _ => at_path parts v = None end.
Proof.
  revert i v. induction parts as [|part parts IH]; intros i v; simpl; [done|].
  destruct v; try done. destruct (m !! part) as [x|]; simpl; [apply IH|done].
Qed.

Lemma key_text_piece ctx k : key_text ctx k = piece_text fmt_other ctx (Placeholder k).
Proof.
  unfold key_text, piece_text, getNestedValue. pose proof (at_path_nested 0 (split_dot k) (AMap ctx)) as Hp.
  destruct (nested_value 0 (split_dot k) (AMap ctx)); by rewrite Hp.
Qed.

Lemma interpolate_key s pre k post ctx :
  occurs_at s pre k post →
  (InterpolateInstruction fmt_other s (Some ctx)).1 =
    (InterpolateInstruction fmt_other pre (Some ctx)).1 +:+ key_text ctx k +:+
    (InterpolateInstruction fmt_other post (Some ctx)).1.
Proof.
  intros Ho. rewrite key_text_piece, !interpolate_text, (scan_occurrence _ _ _ _ Ho), fmap_app, concat_text_app. done.
Qed.

Lemma interpolate_replaced s ctx : replaced ctx s (InterpolateInstruction fmt_other s (Some ctx)).1.
Proof.
  remember (String.length s) as n eqn:Hn. revert s Hn.
  induction (lt_wf n) as [n _ IH]. intros s ->.
  destruct (HasTemplates s) eqn:Hh.
  - apply has_templates_spec in Hh as (pre & k & post & Ho). rewrite (interpolate_key _ _ _ _ _ Ho).
    assert (String.length pre < String.length s ∧ String.length post < String.length s)%nat as [H1 H2].
    { destruct Ho as [_ ->]. rewrite !length_string_app. simpl. lia. }
    eapply replaced_key; [exact Ho| |]; [by apply (IH (String.length pre))|by apply (IH (String.length post))].
  - assert (¬ ∃ pre k post, occurs_at s pre k post) as Hno by (rewrite <- has_templates_spec; by rewrite Hh).
    rewrite interpolate_plain by done. by apply replaced_plain.
Qed.

Lemma replaced_interpolate ctx s t : replaced ctx s t → t = (InterpolateInstruction fmt_other s (Some ctx)).1.
Proof.
  induction 1 as [s Hno|s pre k post pre' post' Ho _ -> _ ->]; [by rewrite interpolate_plain|].
  by rewrite (interpolate_key _ _ _ _ _ Ho).
Qed.

Lemma prepared_interpolated i i' : prepared i i' ↔ i' = interpolated fmt_other i.
Proof.
  destruct i as [ins ctx rest], i' as [ins' ctx' rest']. unfold prepared, interpolated. simpl.
  assert (∀ c, HasTemplates ins = false → InterpolateInstruction fmt_other ins (Some c) = (ins, None)) as Hplain.
  { intros c Hh. apply interpolate_plain. rewrite <- has_templates_spec. by rewrite Hh. }
  assert ((if negb (String.eqb ins "") && HasTemplates ins
           then mkInputObj (InterpolateInstruction fmt_other ins ctx).1 ctx rest else mkInputObj ins ctx rest) =
          mkInputObj (InterpolateInstruction fmt_other ins ctx).1 ctx rest) as ->.
  { destruct (HasTemplates ins) eqn:Hh.
    - destruct (String.eqb_spec ins "") as [->|]; [done|done].
    - rewrite andb_false_r. destruct ctx as [c|]; [by rewrite Hplain|done]. }
  split.
  - intros (-> & -> & Hr). destruct ctx as [c|]; [by rewrite <- (replaced_interpolate _ _ _ Hr)|]. by rewrite Hr.
  - intros [= -> -> ->]. split_and!; [done..|]. destruct ctx as [c|]; [apply interpolate_replaced|done].
Qed.

Lemma remembered_stored key v i i' :
  remembered key v i i' ↔ i' = if String.eqb key "" then i else stored_input key v i.
Proof.
  destruct i as [ins ctx rest], i' as [ins' ctx' rest']. unfold remembered, stored_input. simpl.
  destruct (decide (key = "")) as [->|Hk]; simpl; [naive_solver|]. rewrite (proj2 (String.eqb_neq _ _) Hk). split.
  - intros (-> & -> & c & -> & Hv & Hc). do 2 f_equal. apply map_eq. intros k.
    destruct (decide (k = key)) as [->|Hne]; [by rewrite lookup_insert_eq|]. rewrite lookup_insert_ne, Hc by done.
    by destruct ctx.
  - intros [= -> -> ->]. split_and!; [done..|]. eexists. split; [reflexivity|]. split; [apply lookup_insert_eq|].
    intros k Hne. rewrite lookup_insert_ne by done. by destruct ctx.
Qed.

(** There is one outcome, the one the function gives. *)
Lemma pipeline_fun_spec n gs i r i' : pipeline n gs i r i' ↔ pipeline_fun n gs i = (r, i').
Proof.
  split.
  - induction 1 as [n i|n g gs i i1 e Hp He|n g gs i i1 v i2 r i3 Hp Hv Hr _ IH]; simpl; [done| |];
      apply prepared_interpolated in Hp; subst i1.
    + by rewrite He.
    + rewrite Hv. apply remembered_stored in Hr as <-. by rewrite IH.
  - revert n i r i'. induction gs as [|g gs IH]; intros n i r i'; simpl.
    + intros [= <- <-]. constructor.
    + destruct (pg_fun g (interpolated fmt_other i)) as [e|v] eqn:Hf.
      * intros [= <- <-]. apply pipeline_error; [by apply prepared_interpolated|done].
      * destruct (pipeline_fun (S n) gs _) as [r1 i1] eqn:Hrest. intros [= <- <-].
        eapply pipeline_step; [by apply prepared_interpolated|exact Hf|by apply remembered_stored|by apply IH].
Qed.


End Pipeline.
