(* ===== verification/Routing.v ===== *)
(** * Routers (pkg/agents/router_agent.go)

    Routers choose one of their agents by conditions on the input, in the order of
    priorities; intent routers ask a classifier first.  The world is that of
    [Orchestration]; a condition is a function of the input, [None] if it panics.
    Times in the metadata and the timeout of the context are left out. *)

From stdpp Require Import base gmap strings list fin_maps pretty sorting.
From S2P Require Import Prelude Etcd Orchestration Templates AgentExec.

Open Scope Z_scope.

(** ** Conditions *)

Definition RouteCondition : Type := InputObj → option bool.

Section Conditions.
Context (same_other : N → N → option bool).

(** [val == value] on interface values: different dynamic types are different,
    slices and maps cannot be compared and panic. *)
Definition any_eq (x y : Any) : option bool :=
  match x, y with
  | ANil, ANil => Some true
  | ABool a, ABool b => Some (Bool.eqb a b)
  | AInt a, AInt b => Some (a =? b)
  | AString a, AString b => Some (String.eqb a b)
  | AInput a, AInput b => Some (Nat.eqb a b)
  | ASlice _, ASlice _ | AOutputs _, AOutputs _ | AErrors _, AErrors _ | AMap _, AMap _ => None
  | AOther a, AOther b => same_other a b
  | _, _ => Some false
  end.

Definition KeywordCondition (keywords : list string) : RouteCondition :=
  λ i, Some (existsb (strings_Contains (in_Instruction i)) keywords).

Definition ContextKeyCondition (key : string) (value : Any) : RouteCondition :=
  λ i, match in_Context i ≫= lookup key with None => Some false | Some val => any_eq val value end.

Definition ContextExistsCondition (key : string) : RouteCondition :=
  λ i, Some match in_Context i ≫= lookup key with None => false | Some _ => true end.

Definition PrefixCondition (prefix : string) : RouteCondition :=
  λ i, Some (String.prefix prefix (in_Instruction i)).

Definition AlwaysCondition : RouteCondition := λ _, Some true.
Definition NeverCondition : RouteCondition := λ _, Some false.

(** The combined conditions stop at the first that decides. *)
Fixpoint AndCondition (conditions : list RouteCondition) : RouteCondition :=
  λ i, match conditions with
       | [] => Some true
       | c :: conditions' => b ← c i; if (b : bool) then AndCondition conditions' i else Some false
       end.
Fixpoint OrCondition (conditions : list RouteCondition) : RouteCondition :=
  λ i, match conditions with
       | [] => Some false
       | c :: conditions' => b ← c i; if (b : bool) then Some true else OrCondition conditions' i
       end.
Definition NotCondition (condition : RouteCondition) : RouteCondition := λ i, negb <$> condition i.

End Conditions.

(** ** Routers *)

Inductive FallbackMode := FallbackUnset | FallbackError | FallbackDefault | FallbackFirst.

Section Router.
Context {Env : Type} (fmt_other : Any → string).
Local Notation World := (AgentWorld Env).

Record Route := mkRoute {
  rt_Name : string;
  rt_Condition : RouteCondition;
  rt_Agent : ChildAgent Env;
  rt_Priority : Z;
}.

Record RouterAgent := mkRouter {
  ra_routes : list Route;
  ra_defaultAgent : option (ChildAgent Env);
  ra_fallback : FallbackMode;
}.

(** The inner loop for one position: [x] is there, the rest is walked through and
    a route of higher priority takes its place. *)
Fixpoint settle (x : Route) (l : list Route) : Route * list Route :=
  match l with
  | [] => (x, [])
  | y :: l' =>
      if rt_Priority x <? rt_Priority y then let '(m, l'') := settle y l' in (m, x :: l'')
      else let '(m, l'') := settle x l' in (m, y :: l'')
  end.

(** [n] positions from here on. *)
Fixpoint sort_routes (n : nat) (l : list Route) : list Route :=
  match n, l with
  | S n', x :: l' => let '(m, l'') := settle x l' in m :: sort_routes n' l''
  | _, _ => l
  end.

Definition NewRouterAgent (routes : list Route) (defaultAgent : option (ChildAgent Env)) (fallback : FallbackMode)
    : RouterAgent :=
  mkRouter (sort_routes (length routes) routes) defaultAgent
    (match fallback with FallbackUnset => FallbackError | f => f end).

(** The first route whose condition holds. *)
Fixpoint select_route (routes : list Route) (i : InputObj) : option (option Route) :=
  match routes with
  | [] => Some None
  | rt :: routes' => b ← rt_Condition rt i; if (b : bool) then Some (Some rt) else select_route routes' i
  end.

Definition handleNoMatch (a : RouterAgent) (input : nat) (w : World) : option (result (option nat) * World) :=
  match ra_fallback a with
  | FallbackDefault =>
      match ra_defaultAgent a with
      | None => Some (inl (EText "no route matched and no default agent configured"), w)
      | Some c => ch_run c input w
      end
  | FallbackFirst =>
      match ra_routes a with
      | [] => Some (inl (EText "no routes configured"), w)
      | rt :: _ => ch_run (rt_Agent rt) input w
      end
  | _ => Some (inl (EText "no route matched input"), w)
  end.

Definition route_failed (name : string) (err : error) : error := EWrap ("route '" +:+ name +:+ "' failed: ") err "".

Definition routed_output (rt : Route) (o : OutputObj) : OutputObj :=
  mkOutputObj (out_Result o)
    (Some (<["route_priority" := AInt (rt_Priority rt)]> (<["route_name" := AString (rt_Name rt)]>
      (<["pattern" := AString "Router"]> (default ∅ (out_Metadata o)))))) (out_Error o) (out_Rest o).

Definition router_Execute (a : RouterAgent) (input : nat) (w : World) : option (result (option nat) * World) :=
  i ← wd_inputs w !! input;
  selected ← select_route (ra_routes a) i;
  match selected with
  | None => handleNoMatch a input w
  | Some rt =>
      '(r, w) ← ch_run (rt_Agent rt) input w;
      match r with
      | inl err => Some (inl (route_failed (rt_Name rt) err), w)
      | inr out =>
          l ← out; o ← wd_outputs w !! l;
          Some (inr (Some l), put_output l (routed_output rt o) w)
      end
  end.

(** The router as an agent: its base agent has no callbacks and no output key. *)
Definition router_base (name : string) (a : RouterAgent) : BaseExec Env :=
  mkBaseExec name (Some (router_Execute a)) "" [] [] [].

(** ** Intent routers *)

Record IntentRouter := mkIntentRouter {
  ir_name : string;
  ir_router : RouterAgent;
  ir_classifier : ChildAgent Env;
}.

Definition intent_condition (intent : string) : RouteCondition :=
  λ i, Some match in_Context i ≫= lookup "intent" with
            | Some (AString s) => String.eqb s intent
            | _ => false
            end.

Definition intent_route (x : string * ChildAgent Env) : Route :=
  mkRoute ("intent-" +:+ x.1) (intent_condition x.1) x.2 0.

(** [entries]: the entries of the intent map, in the order Go ranges over them. *)
Definition NewIntentRouter (name : string) (classifier : ChildAgent Env) (entries : list (string * ChildAgent Env))
    (defaultAgent : option (ChildAgent Env)) : IntentRouter :=
  mkIntentRouter name (NewRouterAgent (intent_route <$> entries) defaultAgent FallbackDefault) classifier.

Definition intent_Execute (r : IntentRouter) (input : nat) (w : World) : option (result (option nat) * World) :=
  '(c, w) ← ch_run (ir_classifier r) input w;
  match c with
  | inl err => Some (inl (EWrap "intent classification failed: " err ""), w)
  | inr out =>
      l ← out; o ← wd_outputs w !! l;
      match out_Result o with
      | AString intent =>
          i ← wd_inputs w !! input;
          BaseAgent_Execute fmt_other (router_base (ir_name r) (ir_router r)) input
            (put_input input (stored_input "intent" (AString intent) i) w)
      | _ => Some (inl (EText "classifier did not return string intent"), w)
      end
  end.

End Router.

Arguments Route : clear implicits.
Arguments RouterAgent : clear implicits.
Arguments IntentRouter : clear implicits.

(** ** Sorting *)

Section RouterProofs.
Context {Env : Type} (fmt_other : Any → string).
Implicit Types (rt : Route Env) (routes : list (Route Env)).
Local Notation World := (AgentWorld Env).

Definition higher rt rt' : Prop := rt_Priority rt' ≤ rt_Priority rt.

Lemma settle_spec x l m l' : settle x l = (m, l') → m :: l' ≡ₚ x :: l ∧ Forall (higher m) l'.
Proof.
  revert x m l'. induction l as [|y l IH]; intros x m l'; simpl; [intros [= <- <-]; by split; [|constructor]|].
  assert (∀ z l'', settle z l = (m, l'') → higher m z) as Hhigh.
  { intros z l'' Hs. destruct (IH _ _ _ Hs) as [Hp Hall]. assert (z ∈ m :: l'') as Hz by (rewrite Hp; by left).
    apply elem_of_cons in Hz as [->|Hz]; [unfold higher; lia|]. by eapply Forall_forall in Hz. }
  destruct (Z.ltb_spec (rt_Priority x) (rt_Priority y)) as [Hlt|Hge];
    (destruct (settle _ l) as [m' l''] eqn:Hs); intros [= <- <-]; destruct (IH _ _ _ Hs) as [Hp Hall];
    specialize (Hhigh _ _ Hs); unfold higher in Hhigh.
  - split; [by rewrite Permutation_swap, Hp|]. constructor; [unfold higher; lia|done].
  - split; [rewrite Permutation_swap, Hp; apply Permutation_swap|]. constructor; [unfold higher; lia|done].
Qed.

Lemma sort_routes_spec n routes :
  (length routes ≤ n)%nat → sort_routes n routes ≡ₚ routes ∧ StronglySorted higher (sort_routes n routes).
Proof.
  revert routes. induction n as [|n IH]; intros [|x l] Hn; simpl in *; [by repeat constructor..|lia| |].
  { by repeat constructor. }
  destruct (settle x l) as [m l'] eqn:Hs. destruct (settle_spec _ _ _ _ Hs) as [Hp Hall].
  assert (length l' = length l) as Hl by (apply Permutation_length in Hp; simpl in Hp; lia).
  destruct (IH l') as [Hp' Hss]; [lia|]. split; [by rewrite Hp'|]. constructor; [done|]. by rewrite Hp'.
Qed.

(** ** Selection *)

Lemma select_route_spec routes i :
  (∀ rt, rt ∈ routes → is_Some (rt_Condition rt i)) →
  (select_route routes i = Some None ∧ ∀ rt, rt ∈ routes → rt_Condition rt i = Some false) ∨
  (∃ front rt back, routes = front ++ rt :: back ∧ select_route routes i = Some (Some rt) ∧
     rt_Condition rt i = Some true ∧ ∀ rt', rt' ∈ front → rt_Condition rt' i = Some false).
Proof.
  induction routes as [|rt routes IH]; intros Hc; simpl; [left; split; [done|set_solver]|].
  destruct (Hc rt) as [b Hb]; [by left|]. rewrite Hb. cbn [mbind option_bind]. destruct b.
  { right. exists [], rt, routes. split; [done|]. split; [done|]. split; [done|]. set_solver. }
  destruct IH as [[Hs Hno]|(front & rt' & back & -> & Hs & Ht & Hno)]; [intros; apply Hc; by right| |].
  - left. split; [done|]. intros rt'. rewrite elem_of_cons. intros [->|?]; auto.
  - right. exists (rt :: front), rt', back. split; [done|]. split; [done|]. split; [done|].
    intros rt''. rewrite elem_of_cons. intros [->|?]; auto.
Qed.

(** A router sends its input to the right agent.  Its routes are those it was
    given, by falling priority.  Where conditions do not panic: if some hold, the
    agent of one of them runs, of the highest priority among those that hold; its
    error is wrapped with the route's name, its output marked with route and
    priority.  If none holds, the fallback decides. *)
Theorem routing routes defaultAgent fallback input i (w : World) :
  let a := NewRouterAgent routes defaultAgent fallback in
  ra_routes a ≡ₚ routes ∧ StronglySorted higher (ra_routes a) ∧
  (wd_inputs w !! input = Some i → (∀ rt, rt ∈ routes → is_Some (rt_Condition rt i)) →
   ((∀ rt, rt ∈ routes → rt_Condition rt i = Some false) ∧ router_Execute a input w = handleNoMatch a input w) ∨
   ∃ rt, rt ∈ routes ∧ rt_Condition rt i = Some true ∧
     (∀ rt', rt' ∈ routes → rt_Condition rt' i = Some true → rt_Priority rt' ≤ rt_Priority rt) ∧
     match ch_run (rt_Agent rt) input w with
     | None => router_Execute a input w = None
     | Some (inl err, w') => router_Execute a input w = Some (inl (route_failed (rt_Name rt) err), w')
     | Some (inr None, _) => router_Execute a input w = None
     | Some (inr (Some l), w') =>
         router_Execute a input w = (λ o, (inr (Some l), put_output l (routed_output rt o) w')) <$> wd_outputs w' !! l
     end).
Proof.
  intros a. destruct (sort_routes_spec (length routes) routes) as [Hp Hss]; [done|].
  split; [done|]. split; [done|]. intros Hi Hc. unfold router_Execute. rewrite Hi. cbn [mbind option_bind].
  assert (∀ rt, rt ∈ ra_routes a ↔ rt ∈ routes) as Hin by (intros rt; simpl; by rewrite Hp).
  destruct (select_route_spec (ra_routes a) i) as [[Hs Hno]|(front & rt & back & Heq & Hs & Ht & Hno)];
    [intros rt Hrt; by apply Hc, Hin| |]; rewrite Hs; cbn [mbind option_bind].
  - left. split; [|done]. intros rt Hrt. by apply Hno, Hin.
  - right. exists rt. split; [apply Hin; rewrite Heq; set_solver|]. split; [done|]. split.
    + intros rt' Hrt' Ht'. apply Hin in Hrt'. rewrite Heq in Hrt'. apply elem_of_app in Hrt' as [Hf|Hb].
      { rewrite (Hno _ Hf) in Ht'. done. }
      apply elem_of_cons in Hb as [->|Hb]; [lia|]. change (ra_routes a) with (sort_routes (length routes) routes) in Heq.
      rewrite Heq in Hss. apply StronglySorted_app_1_r in Hss. inversion Hss as [|? ? _ Hall]; subst.
      exact (proj1 (Forall_forall _ _) Hall _ Hb).
    + destruct (ch_run (rt_Agent rt) input w) as [[[err|[l|]] w']|]; cbn [mbind option_bind]; [done| |done|done].
      by destruct (wd_outputs w' !! l).
Qed.

(** ** Intents *)

(** The outcome of a call is that of an agent: its error, wrapped, or its output,
    whose metadata may have been added to. *)
Definition answers_as (c : ChildAgent Env) (wrap : error → error) (input : nat) (w : World)
    (outcome : option (result (option nat) * World)) : Prop :=
  (∀ err w', ch_run c input w = Some (inl err, w') → outcome = Some (inl (wrap err), w')) ∧
  (∀ l w' o, ch_run c input w = Some (inr (Some l), w') → wd_outputs w' !! l = Some o →
     ∃ w'' o', outcome = Some (inr (Some l), w'') ∧ wd_outputs w'' !! l = Some o' ∧
       out_Result o' = out_Result o ∧ wd_inputs w'' = wd_inputs w').

Definition intent_of (i : InputObj) (intent : string) : Prop := in_Context i ≫= lookup "intent" = Some (AString intent).

Lemma interpolated_intent i intent : intent_of (interpolated fmt_other (stored_input "intent" (AString intent) i)) intent.
Proof. unfold intent_of, interpolated. case_match; simpl; by rewrite lookup_insert_eq. Qed.

(** Exactly the route of the intent is selected. *)
Lemma select_intent entries defaultAgent i intent :
  NoDup entries.*1 → intent_of i intent →
  select_route (ra_routes (NewRouterAgent (intent_route <$> entries) defaultAgent FallbackDefault)) i =
  Some ((λ c, intent_route (intent, c)) <$> (list_to_map entries : gmap string (ChildAgent Env)) !! intent).
Proof.
  intros Hnd Hi. set (routes := ra_routes _).
  assert (routes ≡ₚ intent_route <$> entries) as Hp by (apply (sort_routes_spec (length (intent_route <$> entries))); done).
  assert (∀ rt, rt ∈ routes → ∃ x, x ∈ entries ∧ rt = intent_route x ∧ rt_Condition rt i = Some (String.eqb intent x.1)) as Hrt.
  { intros rt Hin. rewrite Hp in Hin. apply list_elem_of_fmap in Hin as (x & -> & Hx). exists x. split; [done|]. split; [done|].
    simpl. unfold intent_condition. unfold intent_of in Hi. by rewrite Hi. }
  destruct (select_route_spec routes i) as [[-> Hno]|(front & rt & back & Heq & -> & Ht & _)].
  { intros rt Hin. destruct (Hrt rt Hin) as (x & _ & _ & Hc). rewrite Hc. by eexists. }
  - rewrite not_elem_of_list_to_map_1; [done|]. intros Hin. apply list_elem_of_fmap in Hin as (x & Hx & Hin).
    assert (intent_route x ∈ routes) as Hr by (rewrite Hp; by apply list_elem_of_fmap_2).
    specialize (Hno _ Hr). destruct (Hrt _ Hr) as (y & _ & Hxy & Hc). unfold intent_route in Hxy. simpl in Hxy.
    rewrite Hno in Hc. injection Hxy as Hname _ _. change (x.1 = y.1) in Hname. rewrite <- Hname, <- Hx in Hc.
    by rewrite String.eqb_refl in Hc.
  - destruct (Hrt rt) as (x & Hx & -> & Hc); [rewrite Heq; set_solver|]. rewrite Ht in Hc. injection Hc as Hc.
    symmetry in Hc. apply String.eqb_eq in Hc. subst intent. destruct x as [k c].
    by rewrite (elem_of_list_to_map_1 entries k c).
Qed.

(** The base agent of a router adds nothing but a metadata map. *)
Lemma router_base_run name a input i (w : World) :
  wd_inputs w !! input = Some i →
  let w1 := put_input input (interpolated fmt_other i) w in
  BaseAgent_Execute fmt_other (router_base name a) input w =
  '(r, w2) ← router_Execute a input w1;
  match r with inl err => Some (inl err, w2) | inr out => w3 ← store_result "" input out w2; Some (inr out, w3) end.
Proof.
  intros Hi. unfold BaseAgent_Execute. simpl. rewrite Hi. simpl. destruct (router_Execute _ _ _) as [[[err|out] w2]|]; simpl; [done| |done].
  by destruct (store_result "" input out w2).
Qed.

(** An intent router runs the agent of the intent its classifier finds, the
    default agent if it has none for it, whatever the order of its routes; the
    intent is in the context of the input that agent is given.  Without a default
    agent an unknown intent is an error. *)
Theorem intent_routing entries classifier defaultAgent name input (w w1 : World) l o intent i :
  NoDup entries.*1 → ch_run classifier input w = Some (inr (Some l), w1) → wd_outputs w1 !! l = Some o →
  out_Result o = AString intent → wd_inputs w1 !! input = Some i →
  let w2 := put_input input (interpolated fmt_other (stored_input "intent" (AString intent) i)) w1 in
  let outcome := intent_Execute fmt_other (NewIntentRouter name classifier entries defaultAgent) input w in
  match (list_to_map entries : gmap string (ChildAgent Env)) !! intent, defaultAgent with
  | Some c, _ => answers_as c (route_failed ("intent-" +:+ intent)) input w2 outcome
  | None, Some c => answers_as c id input w2 outcome
  | None, None => outcome = Some (inl (EText "no route matched and no default agent configured"), w2)
  end.
Proof.
  intros Hnd Hc Ho Hint Hi w2 outcome. unfold outcome, intent_Execute. simpl. rewrite Hc. cbn [mbind option_bind].
  rewrite Ho. cbn [mbind option_bind]. rewrite Hint, Hi. cbn [mbind option_bind].
  rewrite (router_base_run _ _ _ (stored_input "intent" (AString intent) i)) by (simpl; by rewrite lookup_insert_eq).
  replace (put_input input _ (put_input input _ w1)) with w2 by (unfold put_input; simpl; by rewrite insert_insert_eq).
  unfold router_Execute. replace (wd_inputs w2 !! input) with (Some (interpolated fmt_other (stored_input "intent" (AString intent) i)))
    by (simpl; by rewrite lookup_insert_eq).
  cbn [mbind option_bind]. rewrite (select_intent _ _ _ intent) by (done || apply interpolated_intent). cbn [mbind option_bind].
  destruct (list_to_map entries !! intent) as [c|]; simpl.
  - split.
    + intros err w' Hr. by rewrite Hr.
    + intros l' w' o' Hr Ho'. rewrite Hr. simpl. rewrite Ho'. simpl. rewrite lookup_insert_eq. simpl.
      do 2 eexists. split; [done|]. simpl. by rewrite lookup_insert_eq.
  - unfold handleNoMatch. simpl. destruct defaultAgent as [c|]; [|done]. split.
    + intros err w' Hr. by rewrite Hr.
    + intros l' w' o' Hr Ho'. rewrite Hr. simpl. rewrite Ho'. simpl.
      do 2 eexists. split; [done|]. simpl. by rewrite lookup_insert_eq.
Qed.

End RouterProofs.
