(* ===== verification/LoadBalancer.v ===== *)
(** * Load balancers (pkg/agents/router_agent.go)

    A load balancer keeps its agents in a slice of wrappers, each with a circuit
    breaker, a count of the requests under way and a health flag.  Requests hold
    pointers into the array behind the slice, removing an agent shifts the array in
    place and adding one may move it, so arrays are objects here ([lb_arrays]), as
    are breakers, which wrappers share when they are copied.  A request is two
    steps, up to the agent's run and after it ([lb_start], [lb_finish]); the clock,
    the random choice and the growth of arrays are arguments. *)

From stdpp Require Import base gmap strings list fin_maps relations pretty sorting.
From S2P Require Import Prelude Breaker.

Import Breaker.Breaker.

Open Scope Z_scope.

(** ** Data *)

Inductive LoadBalanceStrategy := RoundRobin | Random | LeastLoaded | UnknownStrategy (s : string).

Record AgentWrapper := mkWrapper {
  aw_Agent : string;
  aw_CircuitBreaker : nat;
  aw_InFlight : Z;
  aw_Healthy : bool;
}.

Record LoadBalancerAgent := mkBalancer {
  lb_arrays : gmap nat (list AgentWrapper);
  lb_array : nat;                        (** the array of the slice *)
  lb_len : nat;                          (** the length of the slice *)
  lb_breakers : gmap nat (CircuitBreakerConfig * CircuitBreaker);
  lb_strategy : LoadBalanceStrategy;
  lb_counter : Z;
}.

Definition agents_of (lb : LoadBalancerAgent) : list AgentWrapper :=
  take (lb_len lb) (default [] (lb_arrays lb !! lb_array lb)).

Definition set_arrays (m : gmap nat (list AgentWrapper)) (lb : LoadBalancerAgent) : LoadBalancerAgent :=
  mkBalancer m (lb_array lb) (lb_len lb) (lb_breakers lb) (lb_strategy lb) (lb_counter lb).
Definition set_breakers (m : gmap nat (CircuitBreakerConfig * CircuitBreaker)) (lb : LoadBalancerAgent) : LoadBalancerAgent :=
  mkBalancer (lb_arrays lb) (lb_array lb) (lb_len lb) m (lb_strategy lb) (lb_counter lb).
Definition set_counter (c : Z) (lb : LoadBalancerAgent) : LoadBalancerAgent :=
  mkBalancer (lb_arrays lb) (lb_array lb) (lb_len lb) (lb_breakers lb) (lb_strategy lb) c.

(** A pointer to a wrapper: an array and an index. *)
Definition WrapperPtr : Type := nat * nat.

Definition wrapper_at (p : WrapperPtr) (lb : LoadBalancerAgent) : option AgentWrapper :=
  a ← lb_arrays lb !! p.1; a !! p.2.
Definition update_wrapper (f : AgentWrapper → AgentWrapper) (p : WrapperPtr) (lb : LoadBalancerAgent) : LoadBalancerAgent :=
  set_arrays (alter (alter f p.2) p.1 (lb_arrays lb)) lb.

Definition add_in_flight (d : Z) (w : AgentWrapper) : AgentWrapper :=
  mkWrapper (aw_Agent w) (aw_CircuitBreaker w) (aw_InFlight w + d) (aw_Healthy w).
Definition set_healthy (b : bool) (w : AgentWrapper) : AgentWrapper :=
  mkWrapper (aw_Agent w) (aw_CircuitBreaker w) (aw_InFlight w) b.

(** [CircuitBreaker.State] of a wrapper. *)
Definition breaker_state (now : Time) (lb : LoadBalancerAgent) (w : AgentWrapper) : CircuitState :=
  match lb_breakers lb !! aw_CircuitBreaker w with
  | Some (config, cb) => State config now cb
  | None => StateClosed
  end.

(** ** The pool *)

Definition new_breaker (config : CircuitBreakerConfig) (lb : LoadBalancerAgent) : nat * LoadBalancerAgent :=
  let l := fresh (dom (lb_breakers lb)) in (l, set_breakers (<[l := (config, NewCircuitBreaker 0)]> (lb_breakers lb)) lb).

Definition zero_wrapper : AgentWrapper := mkWrapper "" 0 0 false.

(** [append(lb.agents, w)]: into the array if there is room, else into a new one
    with [extra] slots to spare. *)
Definition append_agent (extra : nat) (w : AgentWrapper) (lb : LoadBalancerAgent) : LoadBalancerAgent :=
  let a := default [] (lb_arrays lb !! lb_array lb) in
  if (lb_len lb <? length a)%nat then
    mkBalancer (<[lb_array lb := <[lb_len lb := w]> a]> (lb_arrays lb)) (lb_array lb) (S (lb_len lb))
      (lb_breakers lb) (lb_strategy lb) (lb_counter lb)
  else
    let l := fresh (dom (lb_arrays lb)) in
    mkBalancer (<[l := take (lb_len lb) a ++ [w] ++ replicate extra zero_wrapper]> (lb_arrays lb)) l (S (lb_len lb))
      (lb_breakers lb) (lb_strategy lb) (lb_counter lb).

Definition add_wrapper (extra : nat) (name : string) (config : CircuitBreakerConfig) (lb : LoadBalancerAgent) : LoadBalancerAgent :=
  let '(b, lb) := new_breaker config lb in append_agent extra (mkWrapper name b 0 true) lb.

(** The slice is made with room for the agents of the configuration; their breakers
    are configured alike, by default or as [cbConfig] says. *)
Definition NewLoadBalancerAgent (strategy : LoadBalanceStrategy) (agents : list string) (cbConfig : option CircuitBreakerConfig)
    : LoadBalancerAgent :=
  foldl (λ lb name, add_wrapper 0 name (default DefaultCircuitBreakerConfig cbConfig) lb)
    (mkBalancer {[0%nat := replicate (length agents) zero_wrapper]} 0 0 ∅
       (match strategy with UnknownStrategy "" => RoundRobin | s => s end) 0) agents.

(** The position of an agent. *)
Fixpoint find_name (name : string) (i : nat) (l : list AgentWrapper) : option nat :=
  match l with
  | [] => None
  | w :: l' => if String.eqb (aw_Agent w) name then Some i else find_name name (S i) l'
  end.
Definition findAgentIndex (name : string) (lb : LoadBalancerAgent) : option nat := find_name name 0 (agents_of lb).

Definition AddAgent (extra : nat) (name : string) (cbConfig : option CircuitBreakerConfig) (lb : LoadBalancerAgent)
    : option error * LoadBalancerAgent :=
  match findAgentIndex name lb with
  | Some _ => (Some (EText ("agent '" +:+ name +:+ "' already exists in pool")), lb)
  | None => (None, add_wrapper extra name (default DefaultCircuitBreakerConfig cbConfig) lb)
  end.

Definition not_in_pool (name : string) : error := EText ("agent '" +:+ name +:+ "' not found in pool").

(** The elements after the removed one move down by one place in the array; the
    last slot stays as it was, behind the end of the slice. *)
Definition RemoveAgent (name : string) (lb : LoadBalancerAgent) : option error * LoadBalancerAgent :=
  match findAgentIndex name lb with
  | None => (Some (not_in_pool name), lb)
  | Some i =>
      let a := default [] (lb_arrays lb !! lb_array lb) in
      let shifted := take i a ++ drop (S i) (take (lb_len lb) a) in
      (None, mkBalancer (<[lb_array lb := shifted ++ drop (lb_len lb - 1) a]> (lb_arrays lb)) (lb_array lb) (lb_len lb - 1)
               (lb_breakers lb) (lb_strategy lb) (lb_counter lb))
  end.

(** [DrainAgent] up to its loop, and a tick of the loop. *)
Definition drain_start (name : string) (lb : LoadBalancerAgent) : result WrapperPtr * LoadBalancerAgent :=
  match findAgentIndex name lb with
  | None => (inl (not_in_pool name), lb)
  | Some i => (inr (lb_array lb, i), update_wrapper (set_healthy false) (lb_array lb, i) lb)
  end.
Definition drain_tick (now deadline : Time) (name : string) (p : WrapperPtr) (lb : LoadBalancerAgent)
    : option (option (option error) * LoadBalancerAgent) :=
  w ← wrapper_at p lb;
  if (aw_InFlight w =? 0) || (deadline <? now) then
    let '(err, lb) := RemoveAgent name lb in Some (Some err, lb)
  else Some (None, lb).

Definition GetAgentCount (lb : LoadBalancerAgent) : nat := length (agents_of lb).

(** Healthy, and the circuit not open. *)
Definition eligible (now : Time) (lb : LoadBalancerAgent) (w : AgentWrapper) : bool :=
  aw_Healthy w && negb (bool_decide (breaker_state now lb w = StateOpen)).
Definition GetHealthyAgentCount (now : Time) (lb : LoadBalancerAgent) : nat :=
  length (filter (λ w, eligible now lb w = true) (agents_of lb)).

Record AgentStats := mkAgentStats { st_Name : string; st_Healthy : bool; st_InFlight : Z; st_CircuitBreakerState : string }.
Definition GetAgentStats (now : Time) (lb : LoadBalancerAgent) : list AgentStats :=
  (λ w, mkAgentStats (aw_Agent w) (aw_Healthy w) (aw_InFlight w) (CircuitState_String (breaker_state now lb w))) <$> agents_of lb.

(** ** Selection *)

Definition healthyIndices (now : Time) (lb : LoadBalancerAgent) : list nat :=
  filter (λ i, from_option (eligible now lb) false (agents_of lb !! i) = true) (seq 0 (length (agents_of lb))).

(** All agents if none is healthy. *)
Definition candidates (now : Time) (lb : LoadBalancerAgent) : list nat :=
  match healthyIndices now lb with [] => seq 0 (length (agents_of lb)) | l => l end.

Definition int64_wrap (z : Z) : Z := (z + 2 ^ 63) mod 2 ^ 64 - 2 ^ 63.
Definition max_int64 : Z := 2 ^ 63 - 1.

Definition in_flight (lb : LoadBalancerAgent) (i : nat) : Z := from_option aw_InFlight 0 (agents_of lb !! i).

(** The loop of the least-loaded strategy. *)
Fixpoint least_loaded (lb : LoadBalancerAgent) (minInFlight : Z) (idx : nat) (l : list nat) : nat :=
  match l with
  | [] => idx
  | i :: l' => if in_flight lb i <? minInFlight then least_loaded lb (in_flight lb i) i l' else least_loaded lb minInFlight idx l'
  end.

(** [draw]: what the random source answers. [None] is a panic: an index out of range. *)
Definition selectAgent (now : Time) (draw : nat → nat) (lb : LoadBalancerAgent) : option (result nat * LoadBalancerAgent) :=
  match agents_of lb with
  | [] => Some (inl (EText "no agents available"), lb)
  | _ =>
      let l := candidates now lb in
      match lb_strategy lb with
      | RoundRobin =>
          let counter := int64_wrap (lb_counter lb + 1) in
          let healthyIdx := Z.rem (int64_wrap (counter - 1)) (Z.of_nat (length l)) in
          if healthyIdx <? 0 then None
          else idx ← l !! Z.to_nat healthyIdx; Some (inr idx, set_counter counter lb)
      | Random => idx ← l !! draw (length l); Some (inr idx, lb)
      | LeastLoaded => first ← head l; Some (inr (least_loaded lb max_int64 first l), lb)
      | UnknownStrategy s => Some (inl (EText ("unknown load balance strategy: " +:+ s)), lb)
      end
  end.

(** ** Requests *)

(** A request whose agent is running: its pointer, and the breaker it went through. *)
Record LbRequest := mkLbRequest { rq_wrapper : WrapperPtr; rq_breaker : nat }.

Definition breaker_error (e : BreakerError) : error :=
  EText match e with
        | ErrCircuitOpen => "circuit breaker is open"
        | ErrTooManyRequests => "too many requests in half-open state"
        end.
Definition execution_failed (name : string) (err : error) : error :=
  EWrap ("agent '" +:+ name +:+ "' execution failed: ") err "".

(** After a failed execution: unhealthy if the circuit is open now. *)
Definition mark_failure (now : Time) (p : WrapperPtr) (lb : LoadBalancerAgent) : LoadBalancerAgent :=
  match wrapper_at p lb with
  | Some w => if bool_decide (breaker_state now lb w = StateOpen) then update_wrapper (set_healthy false) p lb else lb
  | None => lb
  end.

Definition lb_start (now : Time) (draw : nat → nat) (lb : LoadBalancerAgent)
    : option ((error + LbRequest) * LoadBalancerAgent) :=
  match agents_of lb with
  | [] => Some (inl (EText "no agents configured"), lb)
  | _ =>
      '(r, lb) ← selectAgent now draw lb;
      match r with
      | inl err => Some (inl err, lb)
      | inr idx =>
          let p := (lb_array lb, idx) in
          w ← wrapper_at p lb;
          let lb := update_wrapper (add_in_flight 1) p lb in
          '(config, cb) ← lb_breakers lb !! aw_CircuitBreaker w;
          let '(cb, refused) := beforeRequest config now cb in
          let lb := set_breakers (<[aw_CircuitBreaker w := (config, cb)]> (lb_breakers lb)) lb in
          match refused with
          | Some e =>
              Some (inl (execution_failed (aw_Agent w) (breaker_error e)),
                    update_wrapper (add_in_flight (-1)) p (mark_failure now p lb))
          | None => Some (inr (mkLbRequest p (aw_CircuitBreaker w)), lb)
          end
      end
  end.

(** The agent has returned; [isFailure] is the breaker's verdict on its error. *)
Definition lb_finish (now : Time) (failed isFailure : bool) (rq : LbRequest) (lb : LoadBalancerAgent) : LoadBalancerAgent :=
  let lb := set_breakers (alter (λ x, (x.1, afterRequest x.1 now isFailure x.2)) (rq_breaker rq) (lb_breakers lb)) lb in
  let lb := if failed then mark_failure now (rq_wrapper rq) lb else update_wrapper (set_healthy true) (rq_wrapper rq) lb in
  update_wrapper (add_in_flight (-1)) (rq_wrapper rq) lb.

(** ** What is selected *)

Lemma candidates_in now lb i : i ∈ candidates now lb → (i < length (agents_of lb))%nat.
Proof.
  unfold candidates. destruct (healthyIndices now lb) as [|j l] eqn:Hh; [rewrite elem_of_seq; lia|].
  rewrite <- Hh. unfold healthyIndices. rewrite list_elem_of_filter, elem_of_seq. lia.
Qed.

Lemma candidates_nonempty now lb : agents_of lb ≠ [] → candidates now lb ≠ [].
Proof. unfold candidates. destruct (healthyIndices now lb); [|done]. by destruct (agents_of lb). Qed.

Lemma healthyIndices_spec now lb i :
  i ∈ healthyIndices now lb ↔ ∃ w, agents_of lb !! i = Some w ∧ eligible now lb w = true.
Proof.
  unfold healthyIndices. rewrite list_elem_of_filter, elem_of_seq. split.
  - intros [He _]. destruct (agents_of lb !! i) as [w|]; [eauto|done].
  - intros (w & Hw & He). rewrite Hw. split; [done|]. apply lookup_lt_Some in Hw. lia.
Qed.

(** An agent that is to get requests is preferred to all that are not. *)
Lemma candidates_eligible now lb i :
  (∃ j w, agents_of lb !! j = Some w ∧ eligible now lb w = true) →
  i ∈ candidates now lb ↔ ∃ w, agents_of lb !! i = Some w ∧ eligible now lb w = true.
Proof.
  intros (j & Hj). rewrite <- healthyIndices_spec in Hj |- *. unfold candidates.
  destruct (healthyIndices now lb); [by apply elem_of_nil in Hj|done].
Qed.

Lemma least_loaded_spec lb m idx l :
  (least_loaded lb m idx l = idx ∨ least_loaded lb m idx l ∈ l) ∧
  Forall (λ i, m ≤ in_flight lb i ∨ in_flight lb (least_loaded lb m idx l) ≤ in_flight lb i) l ∧
  (least_loaded lb m idx l = idx ∨ in_flight lb (least_loaded lb m idx l) < m).
Proof.
  revert m idx. induction l as [|i l IH]; intros m idx; simpl; [split_and!; auto|].
  destruct (Z.ltb_spec (in_flight lb i) m) as [Hlt|Hge].
  - destruct (IH (in_flight lb i) i) as (H1 & H3 & H4).
    assert (in_flight lb (least_loaded lb (in_flight lb i) i l) ≤ in_flight lb i) as Hle.
    { destruct H4 as [->|]; lia. }
    split; [right; destruct H1 as [->|]; [by left|by right]|]. split; [|right; lia].
    constructor; [by right|]. eapply Forall_impl; [exact H3|]. intros j [?|?]; [right; lia|by right].
  - destruct (IH m idx) as (H1 & H3 & H4). split; [destruct H1; [by left|right; by right]|].
    split; [|done]. constructor; [by left|done].
Qed.

Lemma int64_wrap_id z : - 2 ^ 63 ≤ z < 2 ^ 63 → int64_wrap z = z.
Proof. intros Hz. unfold int64_wrap. rewrite Z.mod_small by lia. lia. Qed.

Lemma selectAgent_round_robin now draw lb l :
  lb_strategy lb = RoundRobin → 0 ≤ lb_counter lb < max_int64 → candidates now lb = l → agents_of lb ≠ [] →
  ∃ idx, l !! Z.to_nat (lb_counter lb mod Z.of_nat (length l)) = Some idx ∧
    selectAgent now draw lb = Some (inr idx, set_counter (lb_counter lb + 1) lb).
Proof.
  intros Hrr Hc Hl Hne. pose proof (candidates_nonempty now lb Hne) as Hcn. rewrite Hl in Hcn.
  assert (0 < length l)%nat as Hlen by (destruct l; [done|simpl; lia]).
  unfold selectAgent. destruct (agents_of lb) as [|x xs]; [done|]. rewrite Hrr, Hl.
  unfold max_int64 in *. rewrite (int64_wrap_id (lb_counter lb + 1)) by lia.
  replace (lb_counter lb + 1 - 1) with (lb_counter lb) by lia. rewrite int64_wrap_id by lia.
  rewrite Z.rem_mod_nonneg by lia. pose proof (Z.mod_pos_bound (lb_counter lb) (Z.of_nat (length l)) ltac:(lia)) as Hb.
  rewrite (proj2 (Z.ltb_ge _ _)) by lia.
  destruct (lookup_lt_is_Some_2 l (Z.to_nat (lb_counter lb mod Z.of_nat (length l)))) as [idx Hidx]; [lia|].
  exists idx. by rewrite Hidx.
Qed.

(** Selecting is total, as long as the counter has not run over, and takes an
    agent that is healthy with a circuit that is not open if there is one: round
    robin the next one, least loaded one with the fewest requests under way. *)
Theorem balanced_selection now draw lb :
  agents_of lb ≠ [] → (∀ s, lb_strategy lb ≠ UnknownStrategy s) →
  0 ≤ lb_counter lb < max_int64 → (∀ n, (0 < n)%nat → (draw n < n)%nat) → (∀ i, in_flight lb i ≤ max_int64) →
  ∃ idx lb', selectAgent now draw lb = Some (inr idx, lb') ∧ lb_arrays lb' = lb_arrays lb ∧ lb_array lb' = lb_array lb ∧
    (idx < length (agents_of lb))%nat ∧ idx ∈ candidates now lb ∧
    ((∃ j w, agents_of lb !! j = Some w ∧ eligible now lb w = true) →
     ∃ w, agents_of lb !! idx = Some w ∧ eligible now lb w = true) ∧
    (lb_strategy lb = RoundRobin → lb_counter lb' = lb_counter lb + 1 ∧
       candidates now lb !! Z.to_nat (lb_counter lb mod Z.of_nat (length (candidates now lb))) = Some idx) ∧
    (lb_strategy lb = LeastLoaded → ∀ j, j ∈ candidates now lb → in_flight lb idx ≤ in_flight lb j).
Proof.
  intros Hne Hstr Hcnt Hdraw Hmax. pose proof (candidates_nonempty now lb Hne) as Hcn.
  set (l := candidates now lb) in *.
  assert (0 < length l)%nat as Hlen by (destruct l; [done|simpl; lia]).
  assert (∃ idx lb', selectAgent now draw lb = Some (inr idx, lb') ∧ lb_arrays lb' = lb_arrays lb ∧ lb_array lb' = lb_array lb ∧
    idx ∈ l ∧
    (lb_strategy lb = RoundRobin → lb_counter lb' = lb_counter lb + 1 ∧
       l !! Z.to_nat (lb_counter lb mod Z.of_nat (length l)) = Some idx) ∧
    (lb_strategy lb = LeastLoaded → ∀ j, j ∈ l → in_flight lb idx ≤ in_flight lb j)) as (idx & lb' & Hsel & Ha & Ha' & Hin & Hrr & Hll).
  { unfold selectAgent. destruct (agents_of lb) as [|x xs] eqn:Hag; [done|]. fold l.
    destruct (lb_strategy lb) as [| | |s] eqn:Hst; [| | |by destruct (Hstr s)].
    - destruct (selectAgent_round_robin now draw lb l) as (idx & Hidx & Hsel); [done..|by rewrite Hag|].
      unfold selectAgent in Hsel. rewrite Hag, Hst in Hsel. fold l in Hsel. rewrite Hsel.
      do 2 eexists. split; [done|]. do 2 (split; [done|]). split; [by eapply list_elem_of_lookup_2|]. done.
    - destruct (lookup_lt_is_Some_2 l (draw (length l))) as [idx Hidx]; [by apply Hdraw|]. rewrite Hidx.
      do 2 eexists. split; [done|]. do 2 (split; [done|]). split; [by eapply list_elem_of_lookup_2|]. done.
    - assert (∃ first, head l = Some first ∧ first ∈ l) as (first & Hhead & Hf).
      { destruct l as [|first rest]; [done|]. exists first. split; [done|by left]. }
      rewrite Hhead. cbn [mbind option_bind].
      destruct (least_loaded_spec lb max_int64 first l) as (H1 & H3 & H4).
      do 2 eexists. split; [done|]. do 2 (split; [done|]).
      split; [destruct H1 as [->|]; done|]. split; [done|].
      intros _ j Hj. rewrite Forall_forall in H3. pose proof (Hmax j). destruct (H3 j Hj) as [?|?]; [|done].
      destruct H4 as [Heq|Hlt]; [|lia]. rewrite Heq. pose proof (Hmax first). lia. }
  exists idx, lb'. split; [done|]. do 2 (split; [done|]). split; [by eapply candidates_in|]. split; [done|]. split; [|done].
  intros Hex. by apply (candidates_eligible now lb idx Hex).
Qed.

(** ** Round robin is fair *)

Fixpoint select_many (draw : nat → nat) (nows : list Time) (lb : LoadBalancerAgent) : option (list nat * LoadBalancerAgent) :=
  match nows with
  | [] => Some ([], lb)
  | now :: nows' =>
      '(r, lb) ← selectAgent now draw lb;
      match r with
      | inl _ => None
      | inr idx => '(l, lb) ← select_many draw nows' lb; Some (idx :: l, lb)
      end
  end.

Lemma candidates_counter now c lb : candidates now (set_counter c lb) = candidates now lb.
Proof. done. Qed.

Lemma select_many_round_robin draw nows lb l :
  lb_strategy lb = RoundRobin → 0 ≤ lb_counter lb → lb_counter lb + Z.of_nat (length nows) ≤ max_int64 →
  agents_of lb ≠ [] → Forall (λ now, candidates now lb = l) nows →
  ∃ idxs, select_many draw nows lb = Some (idxs, set_counter (lb_counter lb + Z.of_nat (length nows)) lb) ∧
    length idxs = length nows ∧
    ∀ j, (j < length nows)%nat → idxs !! j = l !! Z.to_nat ((lb_counter lb + Z.of_nat j) mod Z.of_nat (length l)).
Proof.
  revert lb. induction nows as [|now nows IH]; intros lb Hrr H0 Hmax Hne Hall.
  - exists []. simpl. rewrite Z.add_0_r. split; [by destruct lb|]. split; [done|]. intros; lia.
  - cbn [length] in *. inversion_clear Hall as [|? ? Hnow Hrest].
    destruct (selectAgent_round_robin now draw lb l) as (idx & Hidx & Hsel); [done|lia|done|done|].
    destruct (IH (set_counter (lb_counter lb + 1) lb)) as (idxs & Hmany & Hlen & Hj); [done|simpl; lia|simpl; lia|done|done|].
    exists (idx :: idxs). cbn [select_many]. rewrite Hsel. cbn [mbind option_bind]. rewrite Hmany. cbn [mbind option_bind lb_counter set_counter].
    split; [do 2 f_equal; unfold set_counter; simpl; f_equal; lia|]. split; [simpl; lia|].
    intros [|j] Hlt; simpl; [rewrite Z.add_0_r; done|]. rewrite Hj by lia. simpl. do 3 f_equal. lia.
Qed.

(** Over as many requests as there are agents to choose from, with the choice
    unchanged, round robin takes each of them once. *)
Theorem round_robin_fair draw nows lb l :
  lb_strategy lb = RoundRobin → 0 ≤ lb_counter lb → lb_counter lb + Z.of_nat (length nows) ≤ max_int64 →
  agents_of lb ≠ [] → Forall (λ now, candidates now lb = l) nows → length nows = length l →
  ∃ idxs lb', select_many draw nows lb = Some (idxs, lb') ∧ idxs ≡ₚ l.
Proof.
  intros Hrr H0 Hmax Hne Hall Hlen. destruct (select_many_round_robin draw nows lb l) as (idxs & Hm & Hl & Hj); try done.
  eexists idxs, _. split; [exact Hm|].
  assert (rotate (Z.to_nat (lb_counter lb)) l ≡ₚ l) as Hrot.
  { unfold rotate. by rewrite Permutation_app_comm, take_drop. }
  assert (idxs = rotate (Z.to_nat (lb_counter lb)) l) as ->; [|done].
  apply list_eq. intros j. destruct (decide (j < length l)%nat) as [Hlt|Hge].
  - rewrite Hj by lia. rewrite lookup_rotate_r by done. f_equal. unfold rotate_nat_add. f_equal. f_equal. lia.
  - rewrite !lookup_ge_None_2; [done|rewrite Hrot; lia|lia].
Qed.

(** ** Requests under way *)

Record LbWorld := mkLbWorld { lw_balancer : LoadBalancerAgent; lw_running : list LbRequest }.

(** Requests start, are refused and end, and agents are marked to be drained, in
    any order; no agent is added or removed. *)
Inductive lb_step : LbWorld → LbWorld → Prop :=
  | lb_step_start now draw lb running rq lb' :
      lb_start now draw lb = Some (inr rq, lb') →
      lb_step (mkLbWorld lb running) (mkLbWorld lb' (rq :: running))
  | lb_step_refused now draw lb running err lb' :
      lb_start now draw lb = Some (inl err, lb') →
      lb_step (mkLbWorld lb running) (mkLbWorld lb' running)
  | lb_step_finish now failed isFailure lb running rq rest :
      running ≡ₚ rq :: rest →
      lb_step (mkLbWorld lb running) (mkLbWorld (lb_finish now failed isFailure rq lb) rest)
  | lb_step_drain name lb running :
      lb_step (mkLbWorld lb running) (mkLbWorld (drain_start name lb).2 running).

Definition under_way (p : WrapperPtr) (running : list LbRequest) : Z :=
  Z.of_nat (length (filter (λ rq, rq_wrapper rq = p) running)).

(** Each slot counts the requests that point to it. *)
Definition counted (lb : LoadBalancerAgent) (running : list LbRequest) : Prop :=
  ∀ p w, wrapper_at p lb = Some w → aw_InFlight w = under_way p running.

Lemma wrapper_at_update f p q lb :
  wrapper_at q (update_wrapper f p lb) = if decide (p = q) then f <$> wrapper_at q lb else wrapper_at q lb.
Proof.
  destruct p as [a i], q as [b j]. unfold wrapper_at, update_wrapper. simpl. rewrite lookup_alter.
  destruct (decide (a = b)) as [->|Hab]; [|rewrite decide_False by congruence; done].
  destruct (lb_arrays lb !! b) as [l|]; simpl; [|by case_decide].
  rewrite list_lookup_alter. destruct (decide (i = j)) as [->|Hij]; [by rewrite decide_True|].
  by rewrite decide_False by congruence.
Qed.

(** A change of slots that keeps their counts. *)
Lemma counted_update f p lb running :
  (∀ w, aw_InFlight (f w) = aw_InFlight w) → counted lb running → counted (update_wrapper f p lb) running.
Proof.
  intros Hf Hc q w. rewrite wrapper_at_update. case_decide; [|apply Hc].
  destruct (wrapper_at q lb) as [w0|] eqn:Hq; [|done]. intros [= <-]. rewrite Hf. by apply Hc.
Qed.

Lemma counted_mark now p lb running : counted lb running → counted (mark_failure now p lb) running.
Proof. intros Hc. unfold mark_failure. repeat case_match; try done. by apply counted_update. Qed.

Lemma counted_add d p lb running running' :
  (∀ q, under_way q running' = under_way q running + if decide (p = q) then d else 0) →
  counted lb running → counted (update_wrapper (add_in_flight d) p lb) running'.
Proof.
  intros Hu Hc q w. rewrite wrapper_at_update, Hu. case_decide; [|intros Hw; rewrite (Hc _ _ Hw); lia].
  destruct (wrapper_at q lb) as [w0|] eqn:Hq; [|done]. intros [= <-]. simpl. by rewrite (Hc _ _ Hq).
Qed.

Lemma under_way_cons rq running q :
  under_way q (rq :: running) = under_way q running + if decide (rq_wrapper rq = q) then 1 else 0.
Proof. unfold under_way. rewrite filter_cons. case_decide; simpl; lia. Qed.

Lemma under_way_perm q running running' : running ≡ₚ running' → under_way q running = under_way q running'.
Proof. intros Hp. unfold under_way. by rewrite Hp. Qed.

(** Selecting changes no array and no breaker. *)
Lemma selectAgent_same now draw lb r lb' :
  selectAgent now draw lb = Some (r, lb') → lb_arrays lb' = lb_arrays lb ∧ lb_array lb' = lb_array lb ∧ lb_breakers lb' = lb_breakers lb.
Proof. unfold selectAgent. intros Hs. repeat (case_match; simplify_option_eq; try done). Qed.

Lemma counted_same lb lb' running : lb_arrays lb' = lb_arrays lb → counted lb running → counted lb' running.
Proof. intros Ha Hc p w Hw. apply Hc. unfold wrapper_at in *. by rewrite <- Ha. Qed.

(** The start of a request adds one for it, and takes it off if it is refused. *)
Lemma lb_start_counted now draw lb running r lb' :
  counted lb running → lb_start now draw lb = Some (r, lb') →
  match r with inl _ => counted lb' running | inr rq => counted lb' (rq :: running) end.
Proof.
  intros Hc. unfold lb_start. destruct (agents_of lb) as [|x xs]; [by intros [= <- <-]|].
  destruct (selectAgent now draw lb) as [[s lb1]|] eqn:Hsel; [|done]. cbn [mbind option_bind].
  destruct (selectAgent_same _ _ _ _ _ Hsel) as (Ha & _ & _). apply (counted_same lb lb1 running Ha) in Hc.
  destruct s as [err|idx]; [by intros [= <- <-]|]. set (p := (lb_array lb1, idx)).
  destruct (wrapper_at p lb1) as [w|]; [|done]. cbn [mbind option_bind].
  destruct (lb_breakers (update_wrapper _ _ _) !! _) as [[config cb]|]; [|done]. cbn [mbind option_bind].
  destruct (beforeRequest config now cb) as [cb' refused]. set (lb2 := set_breakers _ _).
  assert (counted lb2 (mkLbRequest p (aw_CircuitBreaker w) :: running)) as Hc2.
  { apply (counted_same (update_wrapper (add_in_flight 1) p lb1)); [done|].
    apply (counted_add 1 p lb1 running); [|done]. intros q. by rewrite under_way_cons. }
  destruct refused as [e|]; intros [= <- <-]; [|done].
  apply (counted_add (-1) p _ (mkLbRequest p (aw_CircuitBreaker w) :: running)); [|by apply counted_mark].
  intros q. rewrite under_way_cons. simpl. case_decide; lia.
Qed.

Lemma lb_step_counted w w' : lb_step w w' → counted (lw_balancer w) (lw_running w) → counted (lw_balancer w') (lw_running w').
Proof.
  intros Hs Hc. destruct Hs as [now draw lb running rq lb' Hst|now draw lb running err lb' Hst
                               |now failed isf lb running rq rest Hp|name lb running]; simpl in *.
  - exact (lb_start_counted _ _ _ _ _ _ Hc Hst).
  - exact (lb_start_counted _ _ _ _ _ _ Hc Hst).
  - unfold lb_finish. set (lb1 := set_breakers _ lb).
    apply (counted_add (-1) (rq_wrapper rq) _ running).
    { intros q. rewrite (under_way_perm q _ _ Hp), under_way_cons. case_decide; lia. }
    assert (counted lb1 running) as Hc1 by by apply (counted_same lb).
    destruct failed; [by apply counted_mark|by apply counted_update].
  - unfold drain_start. case_match; simpl; [by apply counted_update|done].
Qed.

Lemma lb_steps_counted w w' :
  rtc lb_step w w' → counted (lw_balancer w) (lw_running w) → counted (lw_balancer w') (lw_running w').
Proof. induction 1 as [|w w1 w2 Hs _ IH]; [done|]. intros Hc. by apply IH, (lb_step_counted w). Qed.

(** At the start nothing is under way. *)
Lemma append_agent_counted extra w lb : aw_InFlight w = 0 → counted lb [] → counted (append_agent extra w lb) [].
Proof.
  intros Hw Hc. unfold append_agent.
  assert (∀ b l, lb_arrays lb !! b = Some l → Forall (λ x, aw_InFlight x = 0) l) as Hall.
  { intros b l Hb. apply Forall_lookup. intros i x Hx. apply (Hc (b, i)). unfold wrapper_at. simpl. by rewrite Hb. }
  assert (Forall (λ x, aw_InFlight x = 0) (default [] (lb_arrays lb !! lb_array lb))) as Ha.
  { destruct (lb_arrays lb !! lb_array lb) as [l|] eqn:Hl; [by eapply Hall|constructor]. }
  assert (∀ b l, Forall (λ x, aw_InFlight x = 0) l → ∀ p x, (a ← <[b := l]> (lb_arrays lb) !! p.1; a !! p.2) = Some x → aw_InFlight x = 0) as Hins.
  { intros b l Hl [b' i] x Hx. simpl in Hx. destruct (<[b := l]> (lb_arrays lb) !! b') as [l'|] eqn:Hb; [|done]. simpl in Hx.
    apply lookup_insert_Some in Hb as [[_ <-]|[_ Hb]]; [exact (Forall_lookup_1 _ _ _ _ Hl Hx)|].
    exact (Forall_lookup_1 _ _ _ _ (Hall _ _ Hb) Hx). }
  case_match; intros p x Hx; unfold wrapper_at in Hx; simpl in Hx; (eapply Hins; [|exact Hx]).
  - by apply Forall_insert.
  - apply Forall_app. split; [by apply Forall_take|]. constructor; [done|]. by apply Forall_replicate.
Qed.

Lemma new_balancer_counted strategy agents cbConfig : counted (NewLoadBalancerAgent strategy agents cbConfig) [].
Proof.
  unfold NewLoadBalancerAgent. set (lb := mkBalancer _ _ _ _ _ _).
  assert (counted lb []) as Hc.
  { intros [b i] w. unfold wrapper_at. simpl. destruct ({[0%nat := _]} !! b) as [l|] eqn:Hb; [|done]. simpl.
    apply lookup_singleton_Some in Hb as [_ <-]. intros Hw. apply lookup_replicate in Hw as [-> _]. done. }
  clearbody lb. generalize agents as l. revert Hc. revert lb. intros lb Hc l. revert lb Hc.
  induction l as [|name l IH]; intros lb Hc; [done|]. simpl. apply IH. unfold add_wrapper. simpl.
  apply append_agent_counted; [done|]. by apply (counted_same lb).
Qed.

(** C33. As long as no agent is added or removed, the count of requests of every agent
    is the number of its requests that are under way: none is forgotten, on any
    path through an execution. *)
Theorem in_flight_exact strategy agents cbConfig lb running :
  rtc lb_step (mkLbWorld (NewLoadBalancerAgent strategy agents cbConfig) []) (mkLbWorld lb running) →
  ∀ i w, agents_of lb !! i = Some w → aw_InFlight w = under_way (lb_array lb, i) running.
Proof.
  intros Hrun i w Hw. apply (lb_steps_counted _ _ Hrun (new_balancer_counted strategy agents cbConfig)).
  unfold wrapper_at. unfold agents_of in Hw. simpl. apply lookup_take_Some in Hw as [Hw _].
  by destruct (lb_arrays lb !! lb_array lb).
Qed.
