(* ===== verification/Artifacts.v ===== *)
(** * The distributed artifact service (pkg/runtime/services)

    artifact_service.go, partitioning.go and the in-memory artifact backend of
    backends.go.  The backend is an interface of the source: the class
    [ArtifactBackend] with its operations and [ArtifactBackendLaws] with what the
    service relies on; [InMemoryArtifactBackend] is the instance of the sources.
    Byte slices are strings: every hand-over of one makes a copy.  The clock is an
    argument.  Go ranges over the entries of a cache in any order: [CacheOrder], chosen
    anew for each call.  The in-memory backend lists its keys in the order of
    [map_to_list]; clients are only promised which keys. *)

From Stdlib Require Import Ascii.
From stdpp Require Import base gmap strings list fin_maps relations.
From S2P Require Import Prelude Etcd Registry.

Open Scope Z_scope.

(** ** Partitions *)

(** FNV-1a with 32 bits, [hash/fnv]. *)
Fixpoint fnv32a (h : Z) (s : string) : Z :=
  match s with
  | EmptyString => h
  | String c s' => fnv32a ((Z.lxor h (Z.of_N (N_of_ascii c)) * 16777619) mod 2 ^ 32) s'
  end.

(** [HashPartitionStrategy.GetPartition], for a number of partitions below 2^32. *)
Definition GetPartition (key : string) (numPartitions : Z) : Z :=
  if numPartitions <=? 0 then 0
  else if numPartitions =? 1 then 0
  else (fnv32a 2166136261 key) mod numPartitions.

Fixpoint range_partition (i : Z) (key : string) (ranges : list string) : Z :=
  match ranges with
  | [] => i
  | boundary :: ranges' => if String.ltb key boundary then i else range_partition (i + 1) key ranges'
  end.
Definition Range_GetPartition (ranges : list string) (key : string) (numPartitions : Z) : Z := range_partition 0 key ranges.

(** ** Backends *)

Class ArtifactBackend (B : Type) := {
  ab_Put : string → string → B → option error * B;
  ab_Get : string → B → result string;
  ab_Delete : string → B → option error * B;
  ab_List : string → B → result (list string);
}.

(** A backend holds a map; a write that fails changes nothing. *)
Class ArtifactBackendLaws (B : Type) `{ArtifactBackend B} := {
  ab_view : B → gmap string string;
  ab_put k d b err b' : ab_Put k d b = (err, b') →
    ab_view b' = match err with None => <[k := d]> (ab_view b) | Some _ => ab_view b end;
  ab_get k b d : ab_Get k b = inr d ↔ ab_view b !! k = Some d;
  ab_delete k b err b' : ab_Delete k b = (err, b') →
    ab_view b' = match err with None => delete k (ab_view b) | Some _ => ab_view b end;
  ab_list p b keys : ab_List p b = inr keys →
    NoDup keys ∧ ∀ k, k ∈ keys ↔ is_Some (ab_view b !! k) ∧ String.prefix p k = true;
}.

Record InMemoryArtifactBackend := mkArtifacts { im_artifacts : gmap string string }.
Definition NewInMemoryArtifactBackend : InMemoryArtifactBackend := mkArtifacts ∅.

Definition Memory_Put (key data : string) (b : InMemoryArtifactBackend) : option error * InMemoryArtifactBackend :=
  (None, mkArtifacts (<[key := data]> (im_artifacts b))).
Definition Memory_Get (key : string) (b : InMemoryArtifactBackend) : result string :=
  match im_artifacts b !! key with Some d => inr d | None => inl (EText ("artifact not found: " +:+ key)) end.
Definition Memory_Delete (key : string) (b : InMemoryArtifactBackend) : option error * InMemoryArtifactBackend :=
  (None, mkArtifacts (delete key (im_artifacts b))).
Definition Memory_List (prefix : string) (b : InMemoryArtifactBackend) : result (list string) :=
  inr (filter (λ k, String.prefix prefix k = true) (map_to_list (im_artifacts b)).*1).

#[export] Instance InMemoryArtifactBackend_backend : ArtifactBackend InMemoryArtifactBackend := {|
  ab_Put := Memory_Put;
  ab_Get := Memory_Get;
  ab_Delete := Memory_Delete;
  ab_List := Memory_List;
|}.

#[export] Instance InMemoryArtifactBackend_laws : ArtifactBackendLaws InMemoryArtifactBackend.
Proof.
  refine {| ab_view := im_artifacts |}; simpl.
  - intros k d b err b' Hp. unfold Memory_Put in Hp. by simplify_eq.
  - intros k b d. unfold Memory_Get. destruct (im_artifacts b !! k); split; intros; by simplify_eq.
  - intros k b err b' Hp. unfold Memory_Delete in Hp. by simplify_eq.
  - intros p b keys Hl. unfold Memory_List in Hl. simplify_eq. split; [apply NoDup_filter, NoDup_fst_map_to_list|].
    intros k. rewrite list_elem_of_filter, list_elem_of_fmap. split.
    + intros [Hp ([k' d] & -> & Hk%elem_of_map_to_list)]. simpl in *. eauto.
    + intros [[d Hk] Hp]. split; [done|]. exists (k, d). split; [done|]. by apply elem_of_map_to_list.
Defined.

(** ** The service *)

Record CachedArtifact := mkCached {
  ca_Data : string;
  ca_Size : Z;
  ca_CachedAt : Time;
  ca_AccessedAt : Time;
}.

Record ArtifactCache := mkArtifactCache {
  ac_artifacts : gmap string CachedArtifact;
  ac_totalSize : Z;
  ac_maxSize : Z;
}.

Record ArtifactConfig := mkArtifactConfig {
  af_NumPartitions : Z;
  af_EnableCache : bool;
  af_CacheTTL : Duration;
  af_MaxCacheSize : Z;
  af_MaxArtifactSize : Z;
}.

Definition artifact_defaults (c : ArtifactConfig) : ArtifactConfig :=
  mkArtifactConfig
    (if af_NumPartitions c <=? 0 then 1 else af_NumPartitions c)
    (af_EnableCache c)
    (if af_CacheTTL c =? 0 then 10 * Minute else af_CacheTTL c)
    (if af_MaxCacheSize c =? 0 then 100 * 1024 * 1024 else af_MaxCacheSize c)
    (if af_MaxArtifactSize c =? 0 then 10 * 1024 * 1024 else af_MaxArtifactSize c).

Definition makeKey (sessionID name : string) : string :=
  if String.eqb name "" then "artifacts/" +:+ sessionID +:+ "/" else "artifacts/" +:+ sessionID +:+ "/" +:+ name.

(** The order in which a call ranges over the entries of a cache. *)
Class CacheOrder := {
  cache_order : list (string * CachedArtifact) → list (string * CachedArtifact);
  cache_order_perm l : cache_order l ≡ₚ l;
}.

Section Eviction.
Context `{!CacheOrder}.

(** [evictOldestFromCache]: the entry that was not used for the longest time. *)
Definition older (x y : string * CachedArtifact) : string * CachedArtifact :=
  if String.eqb x.1 "" || (ca_AccessedAt y.2 <? ca_AccessedAt x.2) then y else x.
Definition oldest_artifact (m : gmap string CachedArtifact) : option (string * CachedArtifact) :=
  match cache_order (map_to_list m) with [] => None | x :: l => Some (foldl older x l) end.

Definition evictOldestFromCache (c : ArtifactCache) : ArtifactCache :=
  match oldest_artifact (ac_artifacts c) with
  | Some (key, cached) =>
      if String.eqb key "" then c
      else mkArtifactCache (delete key (ac_artifacts c)) (ac_totalSize c - ca_Size cached) (ac_maxSize c)
  | None => c
  end.

(** [fuel] is the number of entries: each turn of the loop removes one. *)
Fixpoint evict_loop (fuel : nat) (dataSize : Z) (c : ArtifactCache) : ArtifactCache :=
  match fuel with
  | O => c
  | S fuel' =>
      if (ac_maxSize c <? ac_totalSize c + dataSize) && (0 <? size (ac_artifacts c))%nat
      then evict_loop fuel' dataSize (evictOldestFromCache c)
      else c
  end.

Definition cache_put (now : Time) (key data : string) (c : ArtifactCache) : ArtifactCache :=
  let dataSize := Z.of_nat (String.length data) in
  let c := evict_loop (S (size (ac_artifacts c))) dataSize c in
  if ac_maxSize c <? ac_totalSize c + dataSize then c
  else mkArtifactCache (<[key := mkCached data dataSize now now]> (ac_artifacts c)) (ac_totalSize c + dataSize) (ac_maxSize c).

End Eviction.

Definition cache_remove (key : string) (c : ArtifactCache) : ArtifactCache :=
  match ac_artifacts c !! key with
  | Some cached => mkArtifactCache (delete key (ac_artifacts c)) (ac_totalSize c - ca_Size cached) (ac_maxSize c)
  | None => c
  end.

Section Service.
Context {B : Type} `{ArtifactBackend B} `{!CacheOrder}.

Record DistributedArtifactService := mkArtifactService {
  sv_backend : B;
  sv_caches : gmap Z ArtifactCache;
  sv_config : ArtifactConfig;
}.

Definition NewDistributedArtifactService (backend : B) (config : ArtifactConfig) : DistributedArtifactService :=
  let config := artifact_defaults config in
  mkArtifactService backend
    (list_to_map ((λ i : nat, (Z.of_nat i, mkArtifactCache ∅ 0 (af_MaxCacheSize config))) <$> seq 0 (Z.to_nat (af_NumPartitions config))))
    config.

Definition with_caches (m : gmap Z ArtifactCache) (s : DistributedArtifactService) : DistributedArtifactService :=
  mkArtifactService (sv_backend s) m (sv_config s).
Definition with_backend (b : B) (s : DistributedArtifactService) : DistributedArtifactService :=
  mkArtifactService b (sv_caches s) (sv_config s).

Definition getFromCache (now : Time) (partitionID : Z) (key : string) (s : DistributedArtifactService)
    : option string * DistributedArtifactService :=
  match sv_caches s !! partitionID with
  | None => (None, s)
  | Some c =>
      match ac_artifacts c !! key with
      | None => (None, s)
      | Some cached =>
          if af_CacheTTL (sv_config s) <? now - ca_CachedAt cached then (None, s)
          else
            (Some (ca_Data cached),
             with_caches (<[partitionID := mkArtifactCache
                (<[key := mkCached (ca_Data cached) (ca_Size cached) (ca_CachedAt cached) now]> (ac_artifacts c))
                (ac_totalSize c) (ac_maxSize c)]> (sv_caches s)) s)
      end
  end.

Definition putInCache (now : Time) (partitionID : Z) (key data : string) (s : DistributedArtifactService) : DistributedArtifactService :=
  with_caches (alter (cache_put now key data) partitionID (sv_caches s)) s.

Definition removeFromCache (partitionID : Z) (key : string) (s : DistributedArtifactService) : DistributedArtifactService :=
  with_caches (alter (cache_remove key) partitionID (sv_caches s)) s.

Definition cacheable (data : string) (s : DistributedArtifactService) : bool :=
  af_EnableCache (sv_config s) && (Z.of_nat (String.length data) <=? af_MaxArtifactSize (sv_config s)).

Definition SaveArtifact (now : Time) (sessionID name data : string) (s : DistributedArtifactService)
    : option error * DistributedArtifactService :=
  let key := makeKey sessionID name in
  let partitionID := GetPartition sessionID (af_NumPartitions (sv_config s)) in
  match ab_Put key data (sv_backend s) with
  | (Some err, b) => (Some err, with_backend b s)
  | (None, b) =>
      let s := with_backend b s in
      (None, if cacheable data s then putInCache now partitionID key data s else s)
  end.

Definition GetArtifact (now : Time) (sessionID name : string) (s : DistributedArtifactService)
    : result string * DistributedArtifactService :=
  let key := makeKey sessionID name in
  let partitionID := GetPartition sessionID (af_NumPartitions (sv_config s)) in
  let '(cached, s) := if af_EnableCache (sv_config s) then getFromCache now partitionID key s else (None, s) in
  match cached with
  | Some d => (inr d, s)
  | None =>
      match ab_Get key (sv_backend s) with
      | inl err => (inl err, s)
      | inr data => (inr data, if cacheable data s then putInCache now partitionID key data s else s)
      end
  end.

Fixpoint strip_names (prefixLen : nat) (keys : list string) : list string :=
  match keys with
  | [] => []
  | key :: keys' =>
      if (prefixLen <? String.length key)%nat then string_from prefixLen key :: strip_names prefixLen keys'
      else strip_names prefixLen keys'
  end.

Definition ListArtifacts (sessionID : string) (s : DistributedArtifactService) : result (list string) :=
  let prefix := makeKey sessionID "" in
  match ab_List prefix (sv_backend s) with
  | inl err => inl err
  | inr keys => inr (strip_names (String.length prefix) keys)
  end.

Definition DeleteArtifact (sessionID name : string) (s : DistributedArtifactService)
    : option error * DistributedArtifactService :=
  let key := makeKey sessionID name in
  let partitionID := GetPartition sessionID (af_NumPartitions (sv_config s)) in
  match ab_Delete key (sv_backend s) with
  | (Some err, b) => (Some err, with_backend b s)
  | (None, b) =>
      let s := with_backend b s in
      (None, if af_EnableCache (sv_config s) then removeFromCache partitionID key s else s)
  end.

Record ArtifactCacheStats := mkArtifactStats { st_NumArtifacts : nat; st_TotalSize : Z; st_MaxSize : Z }.
Definition GetCacheStats (s : DistributedArtifactService) : gmap Z ArtifactCacheStats :=
  (λ c, mkArtifactStats (size (ac_artifacts c)) (ac_totalSize c) (ac_maxSize c)) <$> sv_caches s.

End Service.

Arguments DistributedArtifactService : clear implicits.

(** ** Keys *)

Lemma makeKey_eq s n : makeKey s n = "artifacts/" +:+ s +:+ "/" +:+ n.
Proof. unfold makeKey. by destruct (String.eqb_spec n "") as [->|]. Qed.

Lemma makeKey_inj s n s' n' :
  no_slash s = true → no_slash s' = true → makeKey s n = makeKey s' n' → s = s' ∧ n = n'.
Proof. rewrite !makeKey_eq. intros Hs Hs' Heq%key_inj. by apply segment_unique. Qed.

Lemma makeKey_nonempty s n : makeKey s n ≠ "".
Proof. rewrite makeKey_eq. done. Qed.

(** ** Sizes *)

Definition total_size (m : gmap string CachedArtifact) : Z := map_fold (λ _ c z, ca_Size c + z) 0 m.

Lemma total_size_insert m k c : m !! k = None → total_size (<[k := c]> m) = ca_Size c + total_size m.
Proof. intros Hk. apply (map_fold_insert_L (λ _ c z, ca_Size c + z)); [lia|done]. Qed.

Lemma total_size_delete m k c : m !! k = Some c → total_size m = ca_Size c + total_size (delete k m).
Proof. intros Hk. by apply (map_fold_delete_L (λ _ c z, ca_Size c + z)); [lia|]. Qed.

(** Sizes that are not negative: an entry replaced by another counts at most twice. *)
Definition sized (m : gmap string CachedArtifact) : Prop :=
  ∀ k c, m !! k = Some c → k ≠ "" ∧ ca_Size c = Z.of_nat (String.length (ca_Data c)).

Lemma total_size_replace m k c :
  sized m → total_size (<[k := c]> m) ≤ ca_Size c + total_size m.
Proof.
  intros Hm. destruct (m !! k) as [c'|] eqn:Hk; [|rewrite total_size_insert by done; lia].
  rewrite (total_size_delete m k c' Hk), <- insert_delete_eq, total_size_insert by apply lookup_delete_eq.
  destruct (Hm k c' Hk). lia.
Qed.

(** The cache is within its bounds: what it counts is at least what it holds. *)
Record bounded (c : ArtifactCache) : Prop := {
  bo_sized : sized (ac_artifacts c);
  bo_count : total_size (ac_artifacts c) ≤ ac_totalSize c;
  bo_max : ac_totalSize c ≤ Z.max 0 (ac_maxSize c);
}.

Lemma sized_delete m k : sized m → sized (delete k m).
Proof. intros Hm k' c [_ ?]%lookup_delete_Some. by apply Hm. Qed.

Lemma foldl_older_in x l : foldl older x l ∈ x :: l.
Proof.
  revert x. induction l as [|y l IH]; intros x; simpl; [by left|].
  specialize (IH (older x y)). apply elem_of_cons in IH as [->|IH]; [|by do 2 right].
  unfold older. destruct (_ || _); [right; by left|by left].
Qed.

Lemma evict_spec `{!CacheOrder} c :
  bounded c → (0 < size (ac_artifacts c))%nat →
  let c' := evictOldestFromCache c in
  bounded c' ∧ ac_artifacts c' ⊆ ac_artifacts c ∧ size (ac_artifacts c) = S (size (ac_artifacts c')) ∧
  ac_maxSize c' = ac_maxSize c.
Proof.
  intros [Hs Hc Hm] Hne. unfold evictOldestFromCache, oldest_artifact.
  pose proof (cache_order_perm (map_to_list (ac_artifacts c))) as Hperm.
  destruct (cache_order (map_to_list (ac_artifacts c))) as [|x l] eqn:Hl.
  { apply Permutation_nil, map_to_list_empty_iff in Hperm. rewrite Hperm, map_size_empty in Hne. lia. }
  pose proof (foldl_older_in x l) as Hin. rewrite Hperm in Hin.
  destruct (foldl older x l) as [k a]. apply elem_of_map_to_list in Hin.
  destruct (Hs k a Hin) as [Hk Hsz]. rewrite (proj2 (String.eqb_neq k "")) by done. simpl.
  pose proof (total_size_delete _ _ _ Hin).
  split; [split; simpl; [by apply sized_delete|lia|lia]|]. split; [apply delete_subseteq|]. split; [|done].
  rewrite map_size_delete_Some by by eexists.
  lia.
Qed.

(** The eviction loop ends with room for the data or with an empty cache. *)
Lemma evict_loop_spec `{!CacheOrder} fuel dataSize c :
  bounded c → (size (ac_artifacts c) < fuel)%nat →
  let c' := evict_loop fuel dataSize c in
  bounded c' ∧ ac_artifacts c' ⊆ ac_artifacts c ∧ ac_maxSize c' = ac_maxSize c ∧
  (ac_totalSize c' + dataSize ≤ ac_maxSize c' ∨ ac_artifacts c' = ∅).
Proof.
  revert c. induction fuel as [|fuel IH]; intros c Hb Hf; [lia|]. simpl.
  destruct (Z.ltb_spec (ac_maxSize c) (ac_totalSize c + dataSize)) as [Hlt|Hge]; simpl;
    [|split_and!; [done..|by left]].
  destruct (Nat.ltb_spec 0 (size (ac_artifacts c))) as [Hne|He].
  - destruct (evict_spec c Hb Hne) as (Hb' & Hsub & Hsz & Hmax).
    destruct (IH (evictOldestFromCache c) Hb') as (? & ? & ? & ?); [lia|].
    split_and!; [done|by etrans|congruence|done].
  - split_and!; [done..|]. right. apply map_size_empty_iff. lia.
Qed.

Lemma cache_put_spec `{!CacheOrder} now key data c :
  bounded c → key ≠ "" →
  let c' := cache_put now key data c in
  bounded c' ∧ ac_maxSize c' = ac_maxSize c ∧
  ∀ k e, ac_artifacts c' !! k = Some e →
    (k = key ∧ ca_Data e = data) ∨ (k ≠ key ∧ ac_artifacts c !! k = Some e).
Proof.
  intros Hb Hkey. unfold cache_put.
  set (n := Z.of_nat (String.length data)).
  destruct (evict_loop_spec (S (size (ac_artifacts c))) n c Hb) as (Hb1 & Hsub & Hmax & Hroom); [lia|].
  set (c1 := evict_loop _ n c) in *.
  destruct (Z.ltb_spec (ac_maxSize c1) (ac_totalSize c1 + n)) as [Hlt|Hge].
  - destruct Hroom as [|He]; [lia|]. split; [done|]. split; [done|]. rewrite He. intros k e. by rewrite lookup_empty.
  - destruct Hb1 as [Hs Hc Hm]. split; [split|]; simpl.
    + intros k e [[<- <-]|[_ Hk]]%lookup_insert_Some; [done|by apply Hs].
    + pose proof (total_size_replace (ac_artifacts c1) key (mkCached data n now now) Hs). simpl in *. lia.
    + lia.
    + split; [done|]. intros k e [[<- <-]|[Hne Hk]]%lookup_insert_Some; [by left|right].
      split; [done|]. by eapply lookup_weaken.
Qed.

Lemma cache_remove_spec key c :
  bounded c →
  let c' := cache_remove key c in
  bounded c' ∧ ac_maxSize c' = ac_maxSize c ∧
  ∀ k e, ac_artifacts c' !! k = Some e → k ≠ key ∧ ac_artifacts c !! k = Some e.
Proof.
  intros [Hs Hc Hm]. unfold cache_remove. destruct (ac_artifacts c !! key) as [e|] eqn:Hk; simpl.
  - pose proof (total_size_delete _ _ _ Hk). destruct (Hs key e Hk).
    split; [split; simpl; [by apply sized_delete|lia|lia]|]. split; [done|].
    intros k e' [? ?]%lookup_delete_Some. split; [done|]. done.
  - split; [by split|]. split; [done|]. intros k e' Hk'. split; [congruence|done].
Qed.

(** ** Coherence *)

Section Coherence.
Context {B : Type} `{ArtifactBackendLaws B}.
Implicit Types (s : DistributedArtifactService B).

Definition partition_of s (session : string) : Z := GetPartition session (af_NumPartitions (sv_config s)).

(** Entries are of keys whose partition is that of their session, and hold what
    the backend holds. *)
Record coherent s : Prop := {
  co_bounded p c : sv_caches s !! p = Some c → bounded c ∧ ac_maxSize c = af_MaxCacheSize (sv_config s);
  co_entries p c k e : sv_caches s !! p = Some c → ac_artifacts c !! k = Some e →
    ab_view (sv_backend s) !! k = Some (ca_Data e) ∧ af_EnableCache (sv_config s) = true ∧
    ∃ session name, no_slash session = true ∧ k = makeKey session name ∧ p = partition_of s session;
}.

Lemma new_coherent b config : coherent (NewDistributedArtifactService b config).
Proof.
  assert (∀ p c, sv_caches (NewDistributedArtifactService b config) !! p = Some c →
    c = mkArtifactCache ∅ 0 (af_MaxCacheSize (artifact_defaults config))) as Hc.
  { intros p c Hp. simpl in Hp. apply elem_of_list_to_map_2 in Hp.
    apply list_elem_of_fmap in Hp as (i & Heq & _). by simplify_eq. }
  split.
  - intros p c ->%Hc. split; [|done]. split; simpl; [intros k e; by rewrite lookup_empty| |lia].
    unfold total_size. by rewrite map_fold_empty.
  - intros p c k e ->%Hc. simpl. by rewrite lookup_empty.
Qed.

(** A change of one partition's cache that keeps only right entries. *)
Lemma coherent_alter s f p0 b :
  (∀ c, bounded c → bounded (f c) ∧ ac_maxSize (f c) = ac_maxSize c) →
  (∀ p c k e, sv_caches s !! p = Some c → ac_artifacts (if decide (p = p0) then f c else c) !! k = Some e →
     ab_view b !! k = Some (ca_Data e) ∧ ∃ session name, no_slash session = true ∧ k = makeKey session name ∧ p = partition_of s session) →
  af_EnableCache (sv_config s) = true → coherent s → coherent (with_caches (alter f p0 (sv_caches s)) (with_backend b s)).
Proof.
  intros Hf He Hon [Hb _].
  assert (∀ p c', alter f p0 (sv_caches s) !! p = Some c' → ∃ c, sv_caches s !! p = Some c ∧ c' = if decide (p = p0) then f c else c) as Hinv.
  { intros p c'. rewrite lookup_alter. destruct (decide (p0 = p)) as [<-|Hne].
    - destruct (sv_caches s !! p0) as [c|]; [|done]. intros [= <-]. exists c. by rewrite decide_True.
    - intros Hc. exists c'. by rewrite decide_False. }
  split; simpl.
  - intros p c' (c & Hc & ->)%Hinv. destruct (Hb p c Hc) as [Hbc Hmax]. destruct (decide (p = p0)); [|done].
    destruct (Hf c Hbc). split; [done|congruence].
  - intros p c' k e (c & Hc & ->)%Hinv Hk. destruct (He p c k e Hc Hk) as [? ?]. done.
Qed.

(** Caching what the backend now holds under a key, or holding it no more. *)
Lemma coherent_put `{!CacheOrder} s now session name data b :
  no_slash session = true → ab_view b = <[makeKey session name := data]> (ab_view (sv_backend s)) →
  af_EnableCache (sv_config s) = true → coherent s →
  coherent (putInCache now (partition_of s session) (makeKey session name) data (with_backend b s)).
Proof.
  intros Hs Hb Hon Hc. set (key := makeKey session name). apply (coherent_alter s); [| |done|done].
  - intros c Hbc. destruct (cache_put_spec now key data c Hbc) as (? & ? & _); [apply makeKey_nonempty|done].
  - intros p c k e Hp Hk. destruct (decide (p = partition_of s session)) as [->|Hne].
    + destruct (co_bounded _ Hc _ _ Hp) as [Hbc _].
      destruct (cache_put_spec now key data c Hbc) as (_ & _ & He); [apply makeKey_nonempty|].
      destruct (He k e Hk) as [[-> ->]|[Hkne Hk']].
      * rewrite Hb, lookup_insert_eq. split; [done|]. eauto.
      * destruct (co_entries _ Hc _ _ _ _ Hp Hk') as (Hv & _ & Hses). rewrite Hb, lookup_insert_ne by done. done.
    + destruct (co_entries _ Hc _ _ _ _ Hp Hk) as (Hv & _ & s' & n' & Hs' & -> & Hp').
      rewrite Hb, lookup_insert_ne; [eauto 6|]. intros Heq.
      apply makeKey_inj in Heq as [-> _]; [|done..]. by apply Hne.
Qed.

Lemma coherent_delete s session name b :
  no_slash session = true → ab_view b = delete (makeKey session name) (ab_view (sv_backend s)) →
  af_EnableCache (sv_config s) = true → coherent s →
  coherent (removeFromCache (partition_of s session) (makeKey session name) (with_backend b s)).
Proof.
  intros Hs Hb Hon Hc. set (key := makeKey session name). apply (coherent_alter s); [| |done|done].
  - intros c Hbc. by destruct (cache_remove_spec key c Hbc) as (? & ? & _).
  - intros p c k e Hp Hk. assert (k ≠ key ∧ ac_artifacts c !! k = Some e) as [Hkne Hk'].
    { destruct (decide (p = partition_of s session)) as [->|Hne].
      - destruct (co_bounded _ Hc _ _ Hp) as [Hbc _]. destruct (cache_remove_spec key c Hbc) as (_ & _ & He). by apply He.
      - split; [|done]. intros ->. destruct (co_entries _ Hc _ _ _ _ Hp Hk) as (_ & _ & s' & n' & Hs' & Heq & Hp').
        apply makeKey_inj in Heq as [<- _]; [|done..]. by apply Hne. }
    destruct (co_entries _ Hc _ _ _ _ Hp Hk') as (Hv & _ & Hses). rewrite Hb, lookup_delete_ne by done. done.
Qed.

Lemma coherent_backend s b : ab_view b = ab_view (sv_backend s) → coherent s → coherent (with_backend b s).
Proof. intros Hb [H1 H2]. split; simpl; [done|]. intros p c k e Hp Hk. rewrite Hb. by eapply H2. Qed.

Lemma getFromCache_coherent now p k s :
  coherent s →
  let '(r, s') := getFromCache now p k s in
  coherent s' ∧ sv_backend s' = sv_backend s ∧ sv_config s' = sv_config s ∧
  ∀ d, r = Some d → ab_view (sv_backend s) !! k = Some d.
Proof.
  intros Hc. unfold getFromCache. destruct (sv_caches s !! p) as [c|] eqn:Hp; [|done].
  destruct (ac_artifacts c !! k) as [e|] eqn:Hk; [|done]. destruct (_ <? _); [done|].
  destruct (co_entries _ Hc _ _ _ _ Hp Hk) as [Hv Hses]. split; [|split; [done|split; [done|by intros d [= <-]]]].
  destruct (co_bounded _ Hc _ _ Hp) as [[Hs Hcount Hmax] Hcm]. set (e' := mkCached _ _ _ now). split; simpl.
  - intros p' c' [[<- <-]|[_ Hp']]%lookup_insert_Some; [|by eapply (co_bounded _ Hc)]. simpl. split; [|done].
    split; simpl; [|rewrite <- (insert_delete_eq (ac_artifacts c)), total_size_insert by apply lookup_delete_eq|done].
    + intros k' x [[<- <-]|[_ Hx]]%lookup_insert_Some; [|by apply Hs]. destruct (Hs k e Hk). done.
    + rewrite (total_size_delete _ _ _ Hk) in Hcount. simpl. lia.
  - intros p' c' k' x [[<- <-]|[_ Hp']]%lookup_insert_Some Hx; [|by eapply (co_entries _ Hc)]. simpl in Hx.
    apply lookup_insert_Some in Hx as [[<- <-]|[_ Hx]]; [done|by eapply (co_entries _ Hc)].
Qed.

(** *** Runs of the service *)

Inductive artifact_step s : DistributedArtifactService B → Prop :=
  | art_save `{!CacheOrder} now session name data :
      no_slash session = true →
      af_EnableCache (sv_config s) = false ∨ Z.of_nat (String.length data) ≤ af_MaxArtifactSize (sv_config s) →
      artifact_step s (SaveArtifact now session name data s).2
  | art_get `{!CacheOrder} now session name : no_slash session = true → artifact_step s (GetArtifact now session name s).2
  | art_delete session name : no_slash session = true → artifact_step s (DeleteArtifact session name s).2.

Lemma GetArtifact_coherent `{!CacheOrder} now session name s :
  no_slash session = true → coherent s →
  let '(r, s') := GetArtifact now session name s in
  coherent s' ∧ sv_backend s' = sv_backend s ∧ sv_config s' = sv_config s ∧
  r = ab_Get (makeKey session name) (sv_backend s).
Proof.
  intros Hs Hc. unfold GetArtifact. set (key := makeKey session name).
  destruct (if af_EnableCache (sv_config s) then _ else _) as [cached s1] eqn:Hq.
  assert (coherent s1 ∧ sv_backend s1 = sv_backend s ∧ sv_config s1 = sv_config s ∧
    ∀ d, cached = Some d → ab_view (sv_backend s) !! key = Some d) as (Hc1 & Hb & Hcf & Hd).
  { destruct (af_EnableCache (sv_config s)); [|by simplify_eq].
    pose proof (getFromCache_coherent now (partition_of s session) key s Hc) as Hg. unfold partition_of in Hg. by rewrite Hq in Hg. }
  destruct cached as [d|].
  { split_and!; [done..|]. symmetry. apply ab_get. by apply Hd. }
  rewrite Hb. destruct (ab_Get key (sv_backend s)) as [err|d] eqn:Hget; [by split_and!|].
  apply ab_get in Hget. destruct (cacheable d s1) eqn:Hca; [|by split_and!].
  unfold cacheable in Hca. apply andb_true_iff in Hca as [Hon _].
  split_and!; [|done..]. rewrite <- Hcf.
  assert (s1 = with_backend (sv_backend s1) s1) as Heq by by destruct s1.
  rewrite Heq at 2. apply (coherent_put s1); [done| |done..]. rewrite Hb. by rewrite insert_id.
Qed.

(** Without a cache only the backend changes. *)
Lemma coherent_off s b : af_EnableCache (sv_config s) = false → coherent s → coherent (with_backend b s).
Proof.
  intros Hoff [H1 H2]. split; simpl; [done|]. intros p c k e Hp Hk. destruct (H2 p c k e Hp Hk) as (_ & Hon & _). congruence.
Qed.

Lemma artifact_step_coherent s s' : artifact_step s s' → coherent s → coherent s' ∧ sv_config s' = sv_config s.
Proof.
  intros Hs Hc. destruct Hs as [O now session name data Hs Hd|O now session name Hs|session name Hs].
  - unfold SaveArtifact. destruct (ab_Put _ _ _) as [err b] eqn:Hp. pose proof (ab_put _ _ _ _ _ Hp) as Hb.
    destruct err as [err|]; [split; [by apply coherent_backend|done]|]. simpl.
    unfold cacheable. simpl. destruct (af_EnableCache (sv_config s)) eqn:E1; simpl; [|split; [by apply coherent_off|done]].
    destruct Hd as [Hoff|Hle]; [done|]. rewrite (proj2 (Z.leb_le _ _) Hle). split; [by apply coherent_put|done].
  - pose proof (GetArtifact_coherent now session name s Hs Hc) as Hg. destruct (GetArtifact now session name s). simpl. tauto.
  - unfold DeleteArtifact. destruct (ab_Delete _ _) as [err b] eqn:Hp. pose proof (ab_delete _ _ _ _ Hp) as Hb.
    destruct err as [err|]; [split; [by apply coherent_backend|done]|]. simpl.
    destruct (af_EnableCache (sv_config s)) eqn:E1; [split; [by apply coherent_delete|done]|split; [by apply coherent_off|done]].
Qed.

Lemma artifact_steps_coherent s s' : rtc artifact_step s s' → coherent s → coherent s' ∧ sv_config s' = sv_config s.
Proof.
  induction 1 as [|s s1 s2 Hs _ IH]; intros Hc; [done|].
  destruct (artifact_step_coherent _ _ Hs Hc) as [Hc1 Hcf]. destruct (IH Hc1). split; [done|congruence].
Qed.

Lemma elem_of_strip prefix keys name :
  (∀ k, k ∈ keys → String.prefix prefix k = true) →
  name ∈ strip_names (String.length prefix) keys ↔ name ≠ "" ∧ prefix +:+ name ∈ keys.
Proof.
  induction keys as [|k keys IH]; intros Hp; simpl; [set_solver|].
  destruct (proj1 (prefix_iff prefix k)) as [t ->]; [apply Hp; by left|].
  specialize (IH ltac:(intros k' Hk'; apply Hp; by right)).
  rewrite length_string_app. destruct (Nat.ltb_spec (String.length prefix) (String.length prefix + String.length t)) as [Hlt|Hge].
  - rewrite string_from_app, !elem_of_cons, IH. split.
    + intros [->|[? ?]]; [|by split; [|right]]. split; [by destruct t; simpl in Hlt; [lia|]|by left].
    + intros [Hne [->%key_inj|Hin]]; [by left|by right].
  - rewrite IH, elem_of_cons. split; [intros [? ?]; by split; [|right]|].
    intros [Hne [->%key_inj|Hin]]; [|done]. destruct t; simpl in Hge; [done|lia].
Qed.

End Coherence.

(** C36. The artifact service is transparent.  Starting from any backend, for sessions
    whose ids have no slash and data within the size that may be cached, after
    any sequence of saves, reads and deletions at any times, with write errors of
    the backend: a read answers what the backend holds under the session and the
    name, which is what the last successful save put there unless a deletion
    followed; sessions do not see each other's artifacts; a listing gives the
    names saved; and no partition's cache holds more bytes than its bound. *)
Theorem artifact_service {B} `{ArtifactBackendLaws B} `{!CacheOrder} (b : B) config s now session name :
  rtc artifact_step (NewDistributedArtifactService b config) s → no_slash session = true →
  let view := ab_view (sv_backend s) in
  (∀ d, (GetArtifact now session name s).1 = inr d ↔ view !! makeKey session name = Some d) ∧
  ab_view (sv_backend (GetArtifact now session name s).2) = view ∧
  (∀ data, match SaveArtifact now session name data s with
     | (None, s') => ab_view (sv_backend s') = <[makeKey session name := data]> view
     | (Some _, s') => ab_view (sv_backend s') = view
     end) ∧
  (match DeleteArtifact session name s with
   | (None, s') => ab_view (sv_backend s') = delete (makeKey session name) view
   | (Some _, s') => ab_view (sv_backend s') = view
   end) ∧
  (∀ session' name', no_slash session' = true → (session', name') ≠ (session, name) →
     makeKey session' name' ≠ makeKey session name) ∧
  (∀ names, ListArtifacts session s = inr names →
     ∀ n, n ∈ names ↔ n ≠ "" ∧ is_Some (view !! makeKey session n)) ∧
  (∀ p c, sv_caches s !! p = Some c →
     total_size (ac_artifacts c) ≤ Z.max 0 (af_MaxCacheSize (artifact_defaults config))).
Proof.
  intros Hrun Hs view. destruct (artifact_steps_coherent _ _ Hrun (new_coherent b config)) as [Hc Hcf].
  pose proof (GetArtifact_coherent now session name s Hs Hc) as Hg.
  destruct (GetArtifact now session name s) as [r s'] eqn:Hq. destruct Hg as (_ & Hb & _ & Hr). simpl.
  split_and!.
  - intros d. rewrite Hr. apply ab_get.
  - by rewrite Hb.
  - intros data. unfold SaveArtifact. destruct (ab_Put _ _ _) as [err b'] eqn:Hp. pose proof (ab_put _ _ _ _ _ Hp) as Hb'.
    destruct err; [done|]. simpl. by destruct (cacheable _ _).
  - unfold DeleteArtifact. destruct (ab_Delete _ _) as [err b'] eqn:Hp. pose proof (ab_delete _ _ _ _ Hp) as Hb'.
    destruct err; [done|]. simpl. by destruct (af_EnableCache _).
  - intros session' name' Hs' Hne Heq. apply makeKey_inj in Heq as [-> ->]; done.
  - intros names Hl n. unfold ListArtifacts in Hl. destruct (ab_List _ _) as [|keys] eqn:Hk; [done|]. simplify_eq.
    destruct (ab_list _ _ _ Hk) as [_ Hkeys]. rewrite elem_of_strip by (intros k [_ ?]%Hkeys; done).
    rewrite Hkeys, !makeKey_eq. rewrite !string_app_assoc. simpl. split; [tauto|]. intros [? ?]. split; [done|]. split; [done|].
    apply prefix_iff. exists n. by rewrite !string_app_assoc.
  - intros p c Hp. destruct (co_bounded _ Hc _ _ Hp) as [[_ ? ?] Hmax]. rewrite Hcf in Hmax. simpl in Hmax. rewrite <- Hmax. lia.
Qed.
