(* ===== verification/StateBackends.v ===== *)
(** * In-memory state backends (pkg/state/backends.go)

    The key-value backend with time to live, the session backend with optimistic
    locking, and the checkpoint and history backends.  Sessions are shared objects:
    [Create] and [Update] keep the caller's object, [Get] hands out a copy of its
    own, [ListByAgent] the objects kept.  They live in a heap, at locations.  A
    byte slice is a reference (type [V]): the backend keeps and returns the one it
    was given. *)

From stdpp Require Import base gmap strings list fin_maps relations.
From S2P Require Import Prelude Etcd.

Open Scope Z_scope.

Definition ErrNotFound : error := EText "state not found".
Definition ErrAlreadyExists : error := EText "state already exists".
Definition ErrBackendClosed : error := EText "backend is closed".
Definition ErrVersionConflict : error := EText "version conflict".

(** ** Key-value state *)

(** [strings.HasSuffix]. *)
Fixpoint string_rev_onto (s acc : string) : string :=
  match s with EmptyString => acc | String c s' => string_rev_onto s' (String c acc) end.
Definition string_reverse (s : string) : string := string_rev_onto s "".
Definition has_suffix (suffix s : string) : bool := String.prefix (string_reverse suffix) (string_reverse s).

Definition matchPattern (pattern key : string) : bool :=
  if String.eqb pattern "*" then true
  else if has_suffix "*" pattern then String.prefix (String.substring 0 (String.length pattern - 1) pattern) key
  else if String.prefix "*" pattern then has_suffix (String.substring 1 (String.length pattern - 1) pattern) key
  else String.eqb pattern key.

Section KeyValues.
Context {V : Type}.

Record memoryEntry := mkEntry {
  me_value : V;
  me_expiresAt : Time;
  me_hasTTL : bool;
}.

Record MemoryStateBackend := mkStateBackend {
  sb_data : gmap string memoryEntry;
  sb_closed : bool;
}.

Definition NewMemoryStateBackend : MemoryStateBackend := mkStateBackend ∅ false.

Definition entry_expired (now : Time) (e : memoryEntry) : bool := me_hasTTL e && (me_expiresAt e <? now).

(** A turn of the clean-up goroutine. *)
Definition State_cleanup (now : Time) (b : MemoryStateBackend) : MemoryStateBackend :=
  if sb_closed b then b
  else mkStateBackend (filter (λ x, entry_expired now x.2 = false) (sb_data b)) false.

Definition State_Get (now : Time) (key : string) (b : MemoryStateBackend) : result V :=
  if sb_closed b then inl ErrBackendClosed
  else match sb_data b !! key with
       | None => inl ErrNotFound
       | Some e => if entry_expired now e then inl ErrNotFound else inr (me_value e)
       end.

Definition State_Set (now : Time) (key : string) (value : V) (ttl : Duration) (b : MemoryStateBackend)
    : option error * MemoryStateBackend :=
  if sb_closed b then (Some ErrBackendClosed, b)
  else
    let entry := if 0 <? ttl then mkEntry value (now + ttl) true else mkEntry value 0 false in
    (None, mkStateBackend (<[key := entry]> (sb_data b)) false).

Definition State_Delete (key : string) (b : MemoryStateBackend) : option error * MemoryStateBackend :=
  if sb_closed b then (Some ErrBackendClosed, b)
  else (None, mkStateBackend (delete key (sb_data b)) false).

Definition State_List (now : Time) (pattern : string) (b : MemoryStateBackend) : result (list string) :=
  if sb_closed b then inl ErrBackendClosed
  else inr (filter (λ k, matchPattern pattern k = true)
         (filter (λ x : string * memoryEntry, entry_expired now x.2 = false) (map_to_list (sb_data b))).*1).

Definition State_Close (b : MemoryStateBackend) : MemoryStateBackend := mkStateBackend ∅ true.

End KeyValues.

Arguments memoryEntry : clear implicits.
Arguments MemoryStateBackend : clear implicits.

(** ** Sessions *)

Record SessionState := mkSessionState {
  ss_ID : string;
  ss_AgentID : string;
  ss_State : option (gmap string Value);
  ss_Metadata : option nat;          (** a map, shared between copies *)
  ss_CreatedAt : Time;
  ss_UpdatedAt : Time;
  ss_Version : Z;
}.

Record SessionWorld := mkSessionWorld {
  sw_heap : gmap nat SessionState;
  sw_sessions : gmap string nat;
}.

Definition fresh_loc (h : gmap nat SessionState) : nat := fresh (dom h).

Definition session_set (now : Time) (created : option Time) (version : Z) (s : SessionState) : SessionState :=
  mkSessionState (ss_ID s) (ss_AgentID s) (ss_State s) (ss_Metadata s) (default (ss_CreatedAt s) created) now version.

(** Methods on an object: a location without an object is a nil pointer, on which
    they panic ([None]). *)
Definition Session_Create (now : Time) (l : nat) (w : SessionWorld) : option (option error * SessionWorld) :=
  s ← sw_heap w !! l;
  match sw_sessions w !! ss_ID s with
  | Some _ => Some (Some ErrAlreadyExists, w)
  | None =>
      Some (None, mkSessionWorld (<[l := session_set now (Some now) 1 s]> (sw_heap w)) (<[ss_ID s := l]> (sw_sessions w)))
  end.

Definition Session_Get (id : string) (w : SessionWorld) : option (result nat * SessionWorld) :=
  match sw_sessions w !! id with
  | None => Some (inl ErrNotFound, w)
  | Some p =>
      s ← sw_heap w !! p;
      let l := fresh_loc (sw_heap w) in
      Some (inr l, mkSessionWorld (<[l := s]> (sw_heap w)) (sw_sessions w))
  end.

Definition Session_Update (now : Time) (l : nat) (w : SessionWorld) : option (option error * SessionWorld) :=
  s ← sw_heap w !! l;
  match sw_sessions w !! ss_ID s with
  | None => Some (Some ErrNotFound, w)
  | Some p =>
      existing ← sw_heap w !! p;
      if ss_Version existing =? ss_Version s then
        Some (None, mkSessionWorld (<[l := session_set now None (ss_Version s + 1) s]> (sw_heap w)) (<[ss_ID s := l]> (sw_sessions w)))
      else Some (Some ErrVersionConflict, w)
  end.

Definition Session_Delete (id : string) (w : SessionWorld) : SessionWorld :=
  mkSessionWorld (sw_heap w) (delete id (sw_sessions w)).

Definition Session_ListByAgent (agentID : string) (w : SessionWorld) : list nat :=
  filter (λ l, from_option ss_AgentID "" (sw_heap w !! l) = agentID) (map_to_list (sw_sessions w)).*2.

(** A client changes the state of an object it can reach. *)
Definition write_state (l : nat) (key : string) (v : Value) (w : SessionWorld) : SessionWorld :=
  mkSessionWorld
    (alter (λ s, mkSessionState (ss_ID s) (ss_AgentID s) (Some (<[key := v]> (default ∅ (ss_State s)))) (ss_Metadata s)
       (ss_CreatedAt s) (ss_UpdatedAt s) (ss_Version s)) l (sw_heap w))
    (sw_sessions w).

(** ** Checkpoints *)

Record Checkpoint := mkCheckpoint { cp_ID : string; cp_JobID : string; cp_Timestamp : Time; cp_State : N }.
Record CheckpointMeta := mkCheckpointMeta { cm_ID : string; cm_AgentID : string; cm_Timestamp : Time }.

Definition Checkpoint_Save (now : Time) (c : Checkpoint) (m : gmap string Checkpoint) : gmap string Checkpoint :=
  <[cp_ID c := mkCheckpoint (cp_ID c) (cp_JobID c) now (cp_State c)]> m.
Definition Checkpoint_Load (id : string) (m : gmap string Checkpoint) : result Checkpoint :=
  match m !! id with Some c => inr c | None => inl ErrNotFound end.

Fixpoint list_meta (agentID : string) (limit : Z) (acc : list CheckpointMeta) (l : list Checkpoint) : list CheckpointMeta :=
  match l with
  | [] => acc
  | c :: l' =>
      if String.eqb (cp_JobID c) agentID then
        let acc := acc ++ [mkCheckpointMeta (cp_ID c) (cp_JobID c) (cp_Timestamp c)] in
        if (0 <? limit) && (limit <=? Z.of_nat (length acc)) then acc else list_meta agentID limit acc l'
      else list_meta agentID limit acc l'
  end.
Definition Checkpoint_ListByAgent (agentID : string) (limit : Z) (m : gmap string Checkpoint) : list CheckpointMeta :=
  list_meta agentID limit [] (map_values m).

Definition later (agentID : string) (latest : option Checkpoint) (c : Checkpoint) : option Checkpoint :=
  if String.eqb (cp_JobID c) agentID then
    match latest with
    | None => Some c
    | Some l => if cp_Timestamp l <? cp_Timestamp c then Some c else latest
    end
  else latest.
Definition Checkpoint_GetLatest (agentID : string) (m : gmap string Checkpoint) : result Checkpoint :=
  match foldl (later agentID) None (map_values m) with Some c => inr c | None => inl ErrNotFound end.

(** ** History *)

Record HistoryEntry := mkHistoryEntry { he_ID : string; he_SessionID : string; he_Action : string; he_Timestamp : Time }.

(** [id] is the id made from the clock, for an entry without one. *)
Definition History_Append (now : Time) (id : string) (e : HistoryEntry) (m : gmap string (list HistoryEntry))
    : gmap string (list HistoryEntry) :=
  let e := mkHistoryEntry (if String.eqb (he_ID e) "" then id else he_ID e) (he_SessionID e) (he_Action e) now in
  <[he_SessionID e := default [] (m !! he_SessionID e) ++ [e]]> m.
Definition History_List (sessionID : string) (limit : Z) (m : gmap string (list HistoryEntry)) : list HistoryEntry :=
  let entries := default [] (m !! sessionID) in
  if (0 <? limit) && (limit <? Z.of_nat (length entries))
  then drop (length entries - Z.to_nat limit) entries else entries.
Definition History_Clear (sessionID : string) (m : gmap string (list HistoryEntry)) : gmap string (list HistoryEntry) :=
  delete sessionID m.

(** ** The key-value backend is a map with deadlines *)

Section Deadlines.
Context {V : Type}.

(** What a client knows: the value last set under each key and its deadline. *)
Notation Promise := (gmap string (V * option Time)).

Definition promised (now : Time) (m : Promise) (key : string) : option V :=
  match m !! key with
  | Some (v, Some deadline) => if deadline <? now then None else Some v
  | Some (v, None) => Some v
  | None => None
  end.

Record KvRun := mkKvRun { kr_now : Time; kr_backend : MemoryStateBackend V; kr_promise : Promise }.

(** Calls and clean-ups, at times that do not go back. *)
Inductive kv_step : KvRun → KvRun → Prop :=
  | kv_set t t' k v ttl b m :
      t ≤ t' →
      kv_step (mkKvRun t b m)
        (mkKvRun t' (State_Set t' k v ttl b).2 (<[k := (v, if 0 <? ttl then Some (t' + ttl) else None)]> m))
  | kv_delete t k b m :
      kv_step (mkKvRun t b m) (mkKvRun t (State_Delete k b).2 (delete k m))
  | kv_cleanup t t' b m :
      t ≤ t' → kv_step (mkKvRun t b m) (mkKvRun t' (State_cleanup t' b) m).

Definition matches (now : Time) (e : option (memoryEntry V)) (p : option (V * option Time)) : Prop :=
  match e, p with
  | Some e, Some (v, d) =>
      me_value e = v ∧ match d with Some d => me_hasTTL e = true ∧ me_expiresAt e = d | None => me_hasTTL e = false end
  | None, Some (_, Some d) => d < now
  | None, None => True
  | _, _ => False
  end.

Record kept (r : KvRun) : Prop := {
  kp_open : sb_closed (kr_backend r) = false;
  kp_match k : matches (kr_now r) (sb_data (kr_backend r) !! k) (kr_promise r !! k);
}.

Lemma matches_later now now' e p : now ≤ now' → matches now e p → matches now' e p.
Proof. intros Ht. destruct e, p as [[v [d|]]|]; simpl; try done. lia. Qed.

Lemma kept_step r r' : kept r → kv_step r r' → kept r'.
Proof.
  intros [Ho Hm] Hs. destruct Hs as [t t' k v ttl b m Ht|t k b m|t t' b m Ht]; simpl in *.
  - unfold State_Set. rewrite Ho. split; simpl; [done|]. intros k'.
    destruct (decide (k' = k)) as [->|Hne]; [rewrite !lookup_insert_eq; by destruct (0 <? ttl)|].
    rewrite !lookup_insert_ne by done. by eapply matches_later.
  - unfold State_Delete. rewrite Ho. split; simpl; [done|]. intros k'.
    destruct (decide (k' = k)) as [->|Hne]; [by rewrite !lookup_delete_eq|]. by rewrite !lookup_delete_ne.
  - unfold State_cleanup. rewrite Ho. split; simpl; [done|]. intros k'. specialize (Hm k').
    apply (matches_later t t') in Hm; [|done]. rewrite map_lookup_filter.
    destruct (sb_data b !! k') as [e|] eqn:He; simpl; [|done].
    case_guard as Hg; simpl; [done|]. unfold entry_expired in Hg.
    destruct (m !! k') as [[v [d|]]|]; simpl in *; [| |done].
    + destruct Hm as (_ & Httl & <-). rewrite Httl in Hg. simpl in Hg.
      destruct (Z.ltb_spec (me_expiresAt e) t'); [done|]. by destruct Hg.
    + destruct Hm as [_ Httl]. rewrite Httl in Hg. by destruct Hg.
Qed.

Lemma kept_steps r r' : kept r → rtc kv_step r r' → kept r'.
Proof. intros Hr. induction 1; eauto using kept_step. Qed.

Lemma kept_get r now k :
  kept r → kr_now r ≤ now →
  State_Get now k (kr_backend r) = match promised now (kr_promise r) k with Some v => inr v | None => inl ErrNotFound end.
Proof.
  intros [Ho Hm] Ht. specialize (Hm k). apply (matches_later _ now) in Hm; [|done].
  unfold State_Get, promised, entry_expired. rewrite Ho.
  destruct (sb_data (kr_backend r) !! k) as [e|], (kr_promise r !! k) as [[v [d|]]|]; simpl in Hm; try done.
  - destruct Hm as (-> & -> & ->). simpl. by destruct (d <? now).
  - by destruct Hm as [-> ->].
  - by rewrite (proj2 (Z.ltb_lt d now)).
Qed.

End Deadlines.

(** The in-memory state backend keeps what it was given and no longer: after any
    sequence of sets, deletions and clean-ups with a clock that does not go back,
    a read gives the value last set under the key if it was not deleted since and
    its time to live, if it has one, has not passed, and ErrNotFound otherwise;
    a listing gives, each once, the keys that match and could be read; a closed
    backend refuses everything. *)
Theorem state_deadlines {V : Type} t0 (r : @KvRun V) now :
  rtc kv_step (mkKvRun t0 NewMemoryStateBackend ∅) r → kr_now r ≤ now →
  (∀ k, State_Get now k (kr_backend r) =
     match promised now (kr_promise r) k with Some v => inr v | None => inl ErrNotFound end) ∧
  (∀ pattern, ∃ keys, State_List now pattern (kr_backend r) = inr keys ∧ NoDup keys ∧
     ∀ k, k ∈ keys ↔ matchPattern pattern k = true ∧ is_Some (promised now (kr_promise r) k)) ∧
  (∀ k v ttl, State_Get now k (State_Close (kr_backend r)) = inl ErrBackendClosed ∧
     (State_Set now k v ttl (State_Close (kr_backend r))).1 = Some ErrBackendClosed).
Proof.
  intros Hrun Ht. assert (kept r) as Hk.
  { eapply kept_steps; [|exact Hrun]. split; [done|]. intros k. simpl. by rewrite !lookup_empty. }
  split_and!; [intros k; by apply kept_get| |done].
  intros pattern. unfold State_List. rewrite (kp_open _ Hk). eexists. split; [done|]. split.
  - apply NoDup_filter. eapply sublist_NoDup; [apply (NoDup_fst_map_to_list (sb_data (kr_backend r)))|apply fmap_sublist, sublist_filter].
  - intros k. rewrite list_elem_of_filter. pose proof (kept_get r now k Hk Ht) as Hg. unfold State_Get in Hg.
    rewrite (kp_open _ Hk) in Hg. rewrite list_elem_of_fmap. split; intros [Hm H]; (split; [done|]).
    + destruct H as ([k' e] & -> & [Hexp Hin]%list_elem_of_filter). apply elem_of_map_to_list in Hin. simpl in *.
      rewrite Hin, Hexp in Hg. destruct (promised now (kr_promise r) k'); [by eexists|done].
    + destruct H as [v Hv]. rewrite Hv in Hg. destruct (sb_data (kr_backend r) !! k) as [e|] eqn:He; [|done].
      destruct (entry_expired now e) eqn:Hexp; [done|]. exists (k, e). split; [done|].
      apply list_elem_of_filter. split; [done|]. by apply elem_of_map_to_list.
Qed.

(** ** Optimistic locking *)

(** Objects are kept under their own id. *)
Definition sessions_wf (w : SessionWorld) : Prop :=
  ∀ id p, sw_sessions w !! id = Some p → ∃ s, sw_heap w !! p = Some s ∧ ss_ID s = id.

(** The version under which a session is kept. *)
Definition kept_version (id : string) (w : SessionWorld) : option Z := p ← sw_sessions w !! id; ss_Version <$> sw_heap w !! p.

(** What others do while one client holds the object [l]: [b] tells whether the
    step is a successful update of the session [id].  They do not delete the
    session, and do not create or update with [l]; anybody may write the state
    of any object. *)
Inductive others (id : string) (l : nat) : bool → SessionWorld → SessionWorld → Prop :=
  | others_create now l' e w w' :
      l' ≠ l → Session_Create now l' w = Some (e, w') → others id l false w w'
  | others_get id' r w w' :
      Session_Get id' w = Some (r, w') → others id l false w w'
  | others_update now l' e w w' s :
      l' ≠ l → sw_heap w !! l' = Some s → Session_Update now l' w = Some (e, w') →
      others id l (bool_decide (e = None ∧ ss_ID s = id)) w w'
  | others_delete id' w : id' ≠ id → others id l false w (Session_Delete id' w)
  | others_write l' k v w : others id l false w (write_state l' k v w)
  | others_new l' s w : sw_heap w !! l' = None → others id l false w (mkSessionWorld (<[l' := s]> (sw_heap w)) (sw_sessions w)).

(** Runs with their number of successful updates of the session. *)
Inductive meanwhile (id : string) (l : nat) : nat → SessionWorld → SessionWorld → Prop :=
  | meanwhile_refl w : meanwhile id l 0 w w
  | meanwhile_step n b w w1 w' :
      others id l b w w1 → meanwhile id l n w1 w' → meanwhile id l ((if b then 1 else 0) + n) w w'.

(** The object a client holds: its id and its version stay. *)
Definition held (id : string) (l : nat) (v : Z) (w : SessionWorld) : Prop :=
  ∃ s, sw_heap w !! l = Some s ∧ ss_ID s = id ∧ ss_Version s = v.

Record locked (id : string) (l : nat) (v v0 : Z) (w : SessionWorld) : Prop := {
  lo_wf : sessions_wf w;
  lo_held : held id l v w;
  lo_kept : kept_version id w = Some v0;
}.

Lemma kept_version_spec id v w : sessions_wf w → kept_version id w = Some v ↔
  ∃ p s, sw_sessions w !! id = Some p ∧ sw_heap w !! p = Some s ∧ ss_Version s = v.
Proof.
  intros Hwf. unfold kept_version. destruct (sw_sessions w !! id) as [p|] eqn:Hp; simpl.
  - destruct (sw_heap w !! p) as [s|] eqn:Hs; simpl; split; [intros [= <-]; eauto|by intros (? & ? & [= <-] & ? & <-); simplify_eq|done|].
    intros (? & ? & [= <-] & ? & _). congruence.
  - split; [done|]. by intros (? & ? & ? & _).
Qed.

(** Writing one object, keeping its id. *)
Lemma sessions_wf_heap w l s s' :
  sessions_wf w → sw_heap w !! l = Some s → ss_ID s' = ss_ID s →
  sessions_wf (mkSessionWorld (<[l := s']> (sw_heap w)) (sw_sessions w)).
Proof.
  intros Hwf Hl Hid id p Hp. simpl in *. destruct (Hwf id p Hp) as (x & Hx & Hxid).
  destruct (decide (p = l)) as [->|Hne]; [rewrite lookup_insert_eq; eexists; split; [done|congruence]|].
  rewrite lookup_insert_ne by done. eauto.
Qed.

Lemma sessions_wf_new w l s :
  sessions_wf w → sw_heap w !! l = None → sessions_wf (mkSessionWorld (<[l := s]> (sw_heap w)) (sw_sessions w)).
Proof.
  intros Hwf Hl id p Hp. simpl in *. destruct (Hwf id p Hp) as (x & Hx & Hxid).
  rewrite lookup_insert_ne by congruence. eauto.
Qed.

Lemma fresh_loc_fresh h : h !! fresh_loc h = None.
Proof. apply not_elem_of_dom. unfold fresh_loc. apply is_fresh. Qed.

Lemma locked_new id l v v0 w l' s :
  locked id l v v0 w → sw_heap w !! l' = None → locked id l v v0 (mkSessionWorld (<[l' := s]> (sw_heap w)) (sw_sessions w)).
Proof.
  intros [Hwf (x & Hx & Hxi) Hk] Hl. split; [by apply sessions_wf_new| |].
  - exists x. simpl. rewrite lookup_insert_ne by congruence. done.
  - apply kept_version_spec in Hk as (p & sp & Hp & Hsp & <-); [|done].
    apply kept_version_spec; [by apply sessions_wf_new|]. exists p, sp. simpl. rewrite lookup_insert_ne by congruence. done.
Qed.

(** A create or update that stores the object [l'] with version [n]. *)
Lemma locked_store id l v v0 w l' s s' :
  locked id l v v0 w → l' ≠ l → sw_heap w !! l' = Some s → ss_ID s' = ss_ID s →
  (ss_ID s ≠ id → sw_sessions w !! id ≠ Some l') →
  locked id l v (if decide (ss_ID s = id) then ss_Version s' else v0)
    (mkSessionWorld (<[l' := s']> (sw_heap w)) (<[ss_ID s := l']> (sw_sessions w))).
Proof.
  intros [Hwf (x & Hx & Hxi) Hk] Hne Hl Hid Hnot.
  assert (sessions_wf (mkSessionWorld (<[l' := s']> (sw_heap w)) (<[ss_ID s := l']> (sw_sessions w)))) as Hwf'.
  { intros i p Hp. simpl in *. apply lookup_insert_Some in Hp as [[<- <-]|[_ Hp]].
    - exists s'. rewrite lookup_insert_eq. done.
    - destruct (sessions_wf_heap w l' s s' Hwf Hl Hid i p Hp) as (y & ? & ?). eauto. }
  split; [done| |].
  - exists x. simpl. rewrite lookup_insert_ne by done. done.
  - apply kept_version_spec; [done|]. simpl. destruct (decide (ss_ID s = id)) as [<-|Hid'].
    + exists l', s'. by rewrite !lookup_insert_eq.
    + apply kept_version_spec in Hk as (p & sp & Hp & Hsp & <-); [|done]. exists p, sp.
      rewrite lookup_insert_ne by done. split; [done|]. rewrite lookup_insert_ne; [done|]. intros ->. by apply Hnot.
Qed.

Lemma locked_others id l v v0 b w w' :
  others id l b w w' → locked id l v v0 w → locked id l v (if b then v0 + 1 else v0) w'.
Proof.
  intros Hs Hlk. pose proof Hlk as [Hwf Hheld Hk].
  destruct Hs as [now l' e w w' Hne Hc|id' r w w' Hg|now l' e w w' s Hne Hs Hu|id' w Hne|l' k val w|l' s w Hl].
  - unfold Session_Create in Hc. destruct (sw_heap w !! l') as [s|] eqn:Hs; simplify_eq/=.
    destruct (sw_sessions w !! ss_ID s) as [p|] eqn:Hp; simplify_eq; [done|].
    assert (ss_ID s ≠ id) as Hid.
    { intros <-. apply kept_version_spec in Hk as (q & ? & ? & _); [|done]. congruence. }
    pose proof (locked_store id l v v0 w l' s (session_set now (Some now) 1 s) Hlk Hne Hs eq_refl) as Hst.
    rewrite decide_False in Hst by done. apply Hst. intros _ Hq. destruct (Hwf id l' Hq) as (? & ? & ?). congruence.
  - unfold Session_Get in Hg. destruct (sw_sessions w !! id') as [p|]; [|by simplify_eq].
    destruct (sw_heap w !! p) as [s|]; simplify_eq/=. apply locked_new; [done|]. apply fresh_loc_fresh.
  - unfold Session_Update in Hu. rewrite Hs in Hu. simpl in Hu.
    destruct (sw_sessions w !! ss_ID s) as [p|] eqn:Hp; simplify_eq; [|by rewrite bool_decide_false by naive_solver].
    destruct (sw_heap w !! p) as [sp|] eqn:Hsp; simplify_eq/=.
    destruct (Z.eqb_spec (ss_Version sp) (ss_Version s)) as [Heq|Hver]; simplify_eq; [|by rewrite bool_decide_false by naive_solver].
    pose proof (locked_store id l v v0 w l' s (session_set now None (ss_Version s + 1) s) Hlk Hne Hs eq_refl) as Hst.
    destruct (decide (ss_ID s = id)) as [<-|Hid].
    + rewrite bool_decide_true by done. apply kept_version_spec in Hk as (q & sq & Hq & Hsq & <-); [|done].
      assert (sq = sp) as -> by congruence. rewrite Heq. by apply Hst.
    + rewrite bool_decide_false by naive_solver. apply Hst. intros _ Hq. destruct (Hwf id l' Hq) as (? & ? & ?). congruence.
  - split; [|exact Hheld|].
    + intros i p Hp. simpl in *. apply lookup_delete_Some in Hp as [_ Hp]. by apply Hwf.
    + unfold kept_version. simpl. by rewrite lookup_delete_ne.
  - assert (∀ p s, sw_heap w !! p = Some s → ∃ s', sw_heap (write_state l' k val w) !! p = Some s' ∧ ss_ID s' = ss_ID s ∧ ss_Version s' = ss_Version s) as Hw.
    { intros p s Hs. simpl. rewrite lookup_alter. case_decide; [subst; rewrite Hs; simpl; eauto|eauto]. }
    assert (sessions_wf (write_state l' k val w)) as Hwf'.
    { intros i p Hp. simpl in Hp. destruct (Hwf i p Hp) as (s & Hs & <-). destruct (Hw p s Hs) as (s' & ? & ? & ?). eauto. }
    split; [done| |].
    + destruct Hheld as (x & Hx & Hxi & Hxv). destruct (Hw l x Hx) as (s' & ? & ? & ?). exists s'. split; [done|]. split; congruence.
    + apply kept_version_spec in Hk as (q & sq & Hq & Hsq & <-); [|done]. destruct (Hw q sq Hsq) as (s' & ? & ? & ?).
      apply kept_version_spec; [done|]. exists q, s'. done.
  - by apply locked_new.
Qed.

Lemma locked_meanwhile id l v v0 n w w' :
  meanwhile id l n w w' → locked id l v v0 w → locked id l v (v0 + Z.of_nat n) w'.
Proof.
  intros Hm. revert v0. induction Hm as [w|n b w w1 w' Hs _ IH]; intros v0 Hlk.
  - simpl. by rewrite Z.add_0_r.
  - apply (locked_others _ _ _ _ _ _ _ Hs), IH in Hlk. destruct b; simpl in *; [|done].
    by replace (v0 + Z.of_nat (S n)) with (v0 + 1 + Z.of_nat n) by lia.
Qed.

(** C37. No update of a session that stays is lost.  A client gets a session, anybody
    else creates, gets and updates sessions, deletes others than this one, and
    writes objects; then the client's update succeeds exactly when no update of the
    session succeeded in between.  When it does, the client's object is kept under
    the session with the next version; otherwise the answer is ErrVersionConflict
    and nothing changes.  If the session is then deleted, the answer is ErrNotFound
    and nothing changes.  (A session that is deleted and created anew begins with
    version 1 again, so that an update from before may succeed.) *)
Theorem no_lost_update id l n now w w1 w2 :
  sessions_wf w → Session_Get id w = Some (inr l, w1) → meanwhile id l n w1 w2 →
  ∃ s, sw_heap w2 !! l = Some s ∧
    Session_Update now l w2 =
      Some (if decide (n = 0)%nat
            then (None, mkSessionWorld (<[l := session_set now None (ss_Version s + 1) s]> (sw_heap w2)) (<[id := l]> (sw_sessions w2)))
            else (Some ErrVersionConflict, w2)) ∧
    Session_Update now l (Session_Delete id w2) = Some (Some ErrNotFound, Session_Delete id w2).
Proof.
  intros Hwf Hg Hm. unfold Session_Get in Hg. destruct (sw_sessions w !! id) as [p|] eqn:Hp; [|done].
  destruct (sw_heap w !! p) as [s0|] eqn:Hs0; simplify_eq/=.
  assert (ss_ID s0 = id) as Hid by (destruct (Hwf id p Hp) as (? & ? & ?); congruence).
  pose proof (fresh_loc_fresh (sw_heap w)) as Hfresh. set (l := fresh_loc (sw_heap w)) in *.
  assert (locked id l (ss_Version s0) (ss_Version s0) (mkSessionWorld (<[l := s0]> (sw_heap w)) (sw_sessions w))) as Hlk.
  { split; [by apply sessions_wf_new| |].
    - exists s0. simpl. by rewrite lookup_insert_eq.
    - apply kept_version_spec; [by apply sessions_wf_new|]. exists p, s0. simpl. rewrite lookup_insert_ne by congruence. done. }
  destruct (locked_meanwhile _ _ _ _ _ _ _ Hm Hlk) as [Hwf2 (s & Hs & Hsid & Hsv) Hk].
  apply kept_version_spec in Hk as (q & sq & Hq & Hsq & Hv); [|done].
  exists s. split; [done|]. unfold Session_Update. simpl. rewrite Hs. simpl. rewrite Hsid, lookup_delete_eq, Hq. simpl.
  split; [|done]. rewrite Hsq. simpl.
  rewrite Hv, Hsv. destruct (Z.eqb_spec (ss_Version s0 + Z.of_nat n) (ss_Version s0)) as [He|He].
  - rewrite decide_True by lia. done.
  - rewrite decide_False by lia. done.
Qed.
