(* ===== verification/Checkpoints.v ===== *)
(** * Checkpoint managers and lineage (pkg/state/checkpoint.go)

    The manager that keeps checkpoints in memory, by pointer: checkpoints are
    objects of a heap that its clients share.  The manager over a storage, whose
    codec is an argument with a law, and the storage in memory.  The lineage of
    executions, where the recursion of [RecomputeFrom] has fuel that
    [lineage_recomputation] shows to be enough. *)

From stdpp Require Import base gmap strings list fin_maps relations pretty.
From S2P Require Import Prelude Etcd StateBackends.

Open Scope Z_scope.

(** ** In memory *)

Record CheckpointManager := mkCkManager {
  ck_objects : gmap nat Checkpoint;      (** all checkpoint objects of the program *)
  ck_checkpoints : gmap string nat;      (** the manager's map of pointers *)
}.

Definition time_stamped (now : Time) (c : Checkpoint) : Checkpoint := mkCheckpoint (cp_ID c) (cp_JobID c) now (cp_State c).

(** [None]: a nil pointer. *)
Definition Manager_Checkpoint (now : Time) (p : nat) (m : CheckpointManager) : option CheckpointManager :=
  c ← ck_objects m !! p;
  Some (mkCkManager (<[p := time_stamped now c]> (ck_objects m)) (<[cp_ID c := p]> (ck_checkpoints m))).

Definition ck_not_found (id : string) : error := EText ("checkpoint " +:+ id +:+ " not found").

Definition Manager_Restore (id : string) (m : CheckpointManager) : result nat :=
  match ck_checkpoints m !! id with None => inl (ck_not_found id) | Some p => inr p end.

Record CheckpointMetadata := mkCkMetadata { md_ID : string; md_JobID : string; md_Timestamp : Time }.

(** [order]: the entries of the map in the order Go ranges over them. *)
Definition Manager_List (order : list (string * nat)) (jobID : string) (m : CheckpointManager) : list CheckpointMetadata :=
  omap (λ x, c ← ck_objects m !! x.2;
             if String.eqb (cp_JobID c) jobID then Some (mkCkMetadata (cp_ID c) (cp_JobID c) (cp_Timestamp c)) else None) order.

Definition Manager_Delete (id : string) (m : CheckpointManager) : CheckpointManager :=
  mkCkManager (ck_objects m) (delete id (ck_checkpoints m)).

(** ** Over a storage *)

Class CheckpointStorage (St : Type) := {
  cks_Save : string → string → St → option error * St;
  cks_Load : string → St → result string;
  cks_Delete : string → St → option error * St;
  cks_List : string → St → result (list string);
}.

Notation MemoryStorage := (gmap string string) (only parsing).
Definition Storage_Save (key data : string) (m : MemoryStorage) : option error * MemoryStorage := (None, <[key := data]> m).
Definition Storage_Load (key : string) (m : MemoryStorage) : result string :=
  match m !! key with None => inl (EText ("key " +:+ key +:+ " not found")) | Some data => inr data end.
Definition Storage_Delete (key : string) (m : MemoryStorage) : option error * MemoryStorage := (None, delete key m).
Definition Storage_List (prefix : string) (m : MemoryStorage) : result (list string) :=
  inr (filter (λ k, String.prefix prefix k = true) (map_to_list m).*1).

#[global] Instance MemoryStorage_storage : CheckpointStorage MemoryStorage := {
  cks_Save := Storage_Save;
  cks_Load := Storage_Load;
  cks_Delete := Storage_Delete;
  cks_List := Storage_List;
}.

Section FileManager.
Context `{CheckpointStorage St} (json_Marshal : Checkpoint → result string).

Definition checkpoint_prefix (jobID : string) : string := "checkpoints/" +:+ jobID +:+ "/".
Definition checkpoint_key (c : Checkpoint) : string := checkpoint_prefix (cp_JobID c) +:+ cp_ID c.

Definition File_Checkpoint (now : Time) (c : Checkpoint) (s : St) : option error * St :=
  match json_Marshal (time_stamped now c) with
  | inl err => (Some (EWrap "failed to marshal checkpoint: " err ""), s)
  | inr data => cks_Save (checkpoint_key c) data s
  end.
Definition File_Restore (id : string) : result Checkpoint := inl (EText "not implemented").
Definition File_List (jobID : string) (s : St) : result (list CheckpointMetadata) :=
  match cks_List (checkpoint_prefix jobID) s with
  | inl err => inl err
  | inr keys => inr ((λ key, mkCkMetadata key jobID 0) <$> keys)
  end.
Definition File_Delete (id : string) : option error := Some (EText "not implemented").

End FileManager.

(** ** Lineage *)

(** Inputs and outputs are pointers; of its dependencies a node's user looks at
    the ids only. *)
Record LineageNode := mkLineage {
  ln_ID : string;
  ln_AgentID : string;
  ln_Input : option nat;
  ln_Output : option nat;
  ln_Dependencies : list string;
  ln_Timestamp : Time;
}.

Notation LineageTracker := (gmap string LineageNode) (only parsing).
Definition NewLineageTracker : LineageTracker := ∅.

Definition lineage_id (agentID : string) (now : Time) : string := agentID +:+ "-" +:+ pretty now.

Definition RecordExecution (now now' : Time) (agentID : string) (input output : option nat) (dependencies : list string)
    (lt : LineageTracker) : LineageNode * LineageTracker :=
  let node := mkLineage (lineage_id agentID now) agentID input output
                (omap (λ depID, ln_ID <$> lt !! depID) dependencies) now' in
  (node, <[ln_ID node := node]> lt).

Definition GetLineage (nodeID : string) (lt : LineageTracker) : result LineageNode :=
  match lt !! nodeID with None => inl (EText ("lineage node " +:+ nodeID +:+ " not found")) | Some node => inr node end.

(** The loop over the dependencies: the first error, if any. *)
Fixpoint recompute_deps (recompute : string → option (result nat)) (deps : list string) : option (option error) :=
  match deps with
  | [] => Some None
  | dep :: deps' =>
      r ← recompute dep;
      match r with
      | inl err => Some (Some (EWrap ("failed to recompute dependency " +:+ dep +:+ ": ") err ""))
      | inr _ => recompute_deps recompute deps'
      end
  end.

(** [None]: out of fuel, the recursion is deeper. *)
Fixpoint RecomputeFrom (fuel : nat) (nodeID : string) (lt : LineageTracker) : option (result nat) :=
  match fuel with
  | O => None
  | S fuel' =>
      match GetLineage nodeID lt with
      | inl err => Some (inl err)
      | inr node =>
          match ln_Output node with
          | Some out => Some (inr out)
          | None =>
              e ← recompute_deps (λ dep, RecomputeFrom fuel' dep lt) (ln_Dependencies node);
              Some (inl (default (EText "recomputation not fully implemented") e))
          end
      end
  end.

(** ** Checkpoints under their jobs *)

Section FileProofs.
Context (json_Marshal : Checkpoint → result string) (json_Unmarshal : string → option Checkpoint).
Context (json_roundtrip : ∀ c data, json_Marshal c = inr data → json_Unmarshal data = Some c).

(** Checkpoints saved one after another, in a storage in memory. *)
Fixpoint save_all (l : list (Time * Checkpoint)) (s : MemoryStorage) : MemoryStorage :=
  match l with
  | [] => s
  | x :: l' => save_all l' (File_Checkpoint json_Marshal x.1 x.2 s).2
  end.

Definition marshals (x : Time * Checkpoint) : Prop := ∃ data, json_Marshal (time_stamped x.1 x.2) = inr data.

Lemma save_lookup x s k :
  (File_Checkpoint json_Marshal x.1 x.2 s).2 !! k =
  match json_Marshal (time_stamped x.1 x.2) with
  | inr data => if decide (checkpoint_key x.2 = k) then Some data else s !! k
  | inl _ => s !! k
  end.
Proof. unfold File_Checkpoint. destruct (json_Marshal _) as [err|data]; simpl; [done|]. by rewrite lookup_insert. Qed.

(** A key that is not saved again keeps its data. *)
Lemma save_all_other l s k :
  (∀ x, x ∈ l → marshals x → checkpoint_key x.2 ≠ k) → save_all l s !! k = s !! k.
Proof.
  revert s. induction l as [|x l IH]; intros s Hl; [done|]. simpl. rewrite IH by set_solver. rewrite save_lookup.
  destruct (json_Marshal (time_stamped x.1 x.2)) as [err|data] eqn:Hm; [done|].
  rewrite decide_False; [done|]. apply Hl; [by left|by exists data].
Qed.

Lemma save_all_dom l s k :
  is_Some (save_all l s !! k) ↔ is_Some (s !! k) ∨ ∃ x, x ∈ l ∧ marshals x ∧ checkpoint_key x.2 = k.
Proof.
  revert s. induction l as [|x l IH]; intros s; simpl; [set_solver|]. rewrite IH, save_lookup.
  assert (marshals x ↔ ∃ data, json_Marshal (time_stamped x.1 x.2) = inr data) as Hmx by done.
  destruct (json_Marshal (time_stamped x.1 x.2)) as [err|data].
  - split; [intros [?|(y & ? & ?)]; [by left|right; exists y; set_solver]|].
    intros [?|(y & Hy & Hm & ?)]; [by left|right]. apply elem_of_cons in Hy as [->|?]; [|by exists y].
    apply Hmx in Hm as [? [=]].
  - case_decide as Hk.
    + split; [intros _; right; exists x; split; [by left|]; split; [apply Hmx; by eexists|done]|]. intros _. left. by eexists.
    + split; [intros [?|(y & ? & ?)]; [by left|right; exists y; set_solver]|].
      intros [?|(y & Hy & ? & ?)]; [by left|right]. apply elem_of_cons in Hy as [->|?]; [done|by exists y].
Qed.

Lemma job_key c jobID :
  no_slash jobID = true → no_slash (cp_JobID c) = true →
  String.prefix (checkpoint_prefix jobID) (checkpoint_key c) = true ↔ cp_JobID c = jobID.
Proof.
  intros Hj Hc. unfold checkpoint_key, checkpoint_prefix. rewrite prefix_iff. split.
  - intros [t Ht]. rewrite !string_app_assoc in Ht. apply String.app_inj in Ht. by apply segment_unique in Ht as [-> _].
  - intros ->. by exists (cp_ID c).
Qed.

(** A manager over a storage keeps checkpoints under their jobs.  If job ids have
    no slash: the list of a job names, once each, the keys of the checkpoints that
    were saved for it, of no other job; and what is stored under a key is the
    checkpoint that was saved last there, with the time of the save. *)
Theorem file_checkpoints l jobID :
  no_slash jobID = true → (∀ x, x ∈ l → no_slash (cp_JobID x.2) = true) →
  let s := save_all l ∅ in
  (∃ mds, File_List jobID s = inr mds ∧ NoDup (md_ID <$> mds) ∧
     ∀ k, k ∈ md_ID <$> mds ↔ ∃ x, x ∈ l ∧ marshals x ∧ cp_JobID x.2 = jobID ∧ checkpoint_key x.2 = k) ∧
  (∀ l1 x l2, l = l1 ++ x :: l2 → marshals x →
     (∀ y, y ∈ l2 → marshals y → checkpoint_key y.2 ≠ checkpoint_key x.2) →
     ∃ data, Storage_Load (checkpoint_key x.2) s = inr data ∧ json_Unmarshal data = Some (time_stamped x.1 x.2)).
Proof.
  intros Hj Hl s. split.
  - unfold File_List. simpl. eexists. split; [done|]. rewrite <- list_fmap_compose.
    rewrite (list_fmap_ext _ id) by done. rewrite list_fmap_id. split; [apply NoDup_filter, NoDup_fst_map_to_list|].
    intros k. rewrite list_elem_of_filter.
    assert (k ∈ (map_to_list s).*1 ↔ is_Some (s !! k)) as ->.
    { rewrite list_elem_of_fmap. split.
      - intros ([k' v] & -> & Hin). apply elem_of_map_to_list in Hin. by eexists.
      - intros [v Hv]. exists (k, v). split; [done|]. by apply elem_of_map_to_list. }
    unfold s. rewrite save_all_dom. rewrite lookup_empty. split.
    + intros [Hp [[? [=]]|(x & Hx & Hm & <-)]]. exists x. split_and!; try done. by apply job_key in Hp; [|done|apply Hl].
    + intros (x & Hx & Hm & Hjob & <-). split; [by apply job_key; [|apply Hl|]|]. right. by exists x.
  - intros l1 x l2 Heq Hm Hlast. unfold s. rewrite Heq.
    assert (∀ l1 s0, save_all (l1 ++ x :: l2) s0 !! checkpoint_key x.2 =
              (File_Checkpoint json_Marshal x.1 x.2 (save_all l1 s0)).2 !! checkpoint_key x.2) as Hgo.
    { clear Heq. induction l0 as [|y l0 IH]; intros s0; simpl; [by apply save_all_other|apply IH]. }
    unfold Storage_Load. rewrite Hgo, save_lookup. destruct Hm as [data Hd]. rewrite Hd, decide_True by done.
    exists data. split; [done|]. by apply json_roundtrip.
Qed.

End FileProofs.

(** ** Recomputation *)

(** Trackers whose nodes got ids of their own. *)
Inductive tracked : LineageTracker → Prop :=
  | tracked_new : tracked NewLineageTracker
  | tracked_record lt now now' agentID input output deps :
      tracked lt → lt !! lineage_id agentID now = None →
      tracked (RecordExecution now now' agentID input output deps lt).2.

(** The ids in the order of their recording: dependencies come before. *)
Definition recorded_order (ids : list string) (lt : LineageTracker) : Prop :=
  (∀ id, id ∈ ids ↔ is_Some (lt !! id)) ∧ length ids = size lt ∧
  ∀ i id node, ids !! i = Some id → lt !! id = Some node →
    ∀ dep, dep ∈ ln_Dependencies node → ∃ j, (j < i)%nat ∧ ids !! j = Some dep.

Lemma tracked_ids lt id node : tracked lt → lt !! id = Some node → ln_ID node = id.
Proof.
  intros Ht. revert id node. induction Ht as [|lt now now' agentID input output deps Ht IH Hnew]; intros id node.
  - unfold NewLineageTracker. by rewrite lookup_empty.
  - simpl. rewrite lookup_insert_Some. intros [[<- <-]|[_ Hl]]; [done|by apply IH].
Qed.

Lemma tracked_in_order lt : tracked lt → ∃ ids, recorded_order ids lt.
Proof.
  induction 1 as [|lt now now' agentID input output deps Ht (ids & Hin & Hlen & Hdeps) Hnew].
  - exists []. unfold NewLineageTracker. split; [intros id; rewrite lookup_empty; split; [by intros ?%elem_of_nil|by intros [? [=]]]|]. done.
  - set (new := lineage_id agentID now) in *. exists (ids ++ [new]). simpl. fold new. split; [|split].
    + intros id. rewrite elem_of_app, Hin, list_elem_of_singleton, lookup_insert_is_Some. destruct (decide (new = id)); naive_solver.
    + rewrite length_app, map_size_insert_None by done. simpl. lia.
    + intros i id node Hi Hl dep Hdep. assert (new ∉ ids) as Hni by (rewrite Hin, Hnew; by intros [? [=]]).
      apply lookup_insert_Some in Hl as [[<- <-]|[Hne Hl]].
      * simpl in Hdep. apply list_elem_of_omap in Hdep as (depID & _ & Hd).
        destruct (lt !! depID) as [n|] eqn:Hn; [|done]. injection Hd as <-. rewrite (tracked_ids _ _ _ Ht Hn).
        destruct (proj1 (list_elem_of_lookup _ _) (proj2 (Hin depID) (mk_is_Some _ _ Hn))) as [j Hj]. exists j.
        apply lookup_lt_Some in Hj as Hlt. split; [|by apply lookup_app_l_Some].
        apply lookup_app_Some in Hi as [Hi|[Hge _]]; [|lia]. destruct Hni. by eapply list_elem_of_lookup_2.
      * apply lookup_app_Some in Hi as [Hi|[_ Hi]].
        -- destruct (Hdeps _ _ _ Hi Hl dep Hdep) as (j & Hji & Hj). exists j. split; [done|]. by apply lookup_app_l_Some.
        -- destruct (i - length ids)%nat; [|done]. simpl in Hi. by injection Hi.
Qed.

Lemma recompute_deps_total recompute deps :
  (∀ dep, dep ∈ deps → is_Some (recompute dep)) → is_Some (recompute_deps recompute deps).
Proof.
  induction deps as [|dep deps IH]; intros Hd; simpl; [by eexists|]. destruct (Hd dep) as [r Hr]; [by left|]. rewrite Hr. simpl.
  destruct r; [by eexists|]. apply IH. intros; apply Hd; by right.
Qed.

Lemma recompute_enough ids lt fuel i id :
  recorded_order ids lt → ids !! i = Some id → (i < fuel)%nat → is_Some (RecomputeFrom fuel id lt).
Proof.
  intros (Hin & _ & Hdeps). revert i id. induction fuel as [|fuel IH]; intros i id Hi Hf; [lia|]. simpl.
  destruct (proj1 (Hin id)) as [node Hn]; [by eapply list_elem_of_lookup_2|]. unfold GetLineage. rewrite Hn.
  destruct (ln_Output node); [by eexists|].
  destruct (recompute_deps_total (λ dep, RecomputeFrom fuel dep lt) (ln_Dependencies node)) as [e He]; [|rewrite He; by eexists].
  intros dep Hdep. destruct (Hdeps _ _ _ Hi Hn dep Hdep) as (j & Hj & Hjd). apply (IH j); [done|lia].
Qed.

(** Recomputing from a node ends, in at most as many nested calls as there are
    nodes, when no two executions got the same id: with the output of the node if
    one was recorded, and else with an error, as for an unknown node. *)
Theorem lineage_recomputation lt fuel id :
  tracked lt → (size lt < fuel)%nat →
  match lt !! id with
  | None => RecomputeFrom fuel id lt = Some (inl (EText ("lineage node " +:+ id +:+ " not found")))
  | Some node =>
      match ln_Output node with
      | Some out => RecomputeFrom fuel id lt = Some (inr out)
      | None => ∃ e, RecomputeFrom fuel id lt = Some (inl e)
      end
  end.
Proof.
  intros Ht Hf. destruct (tracked_in_order lt Ht) as (ids & Hord). destruct (lt !! id) as [node|] eqn:Hn.
  - assert (is_Some (RecomputeFrom fuel id lt)) as [r Hr].
    { destruct Hord as (Hin & Hlen & Hdeps).
      destruct (proj1 (list_elem_of_lookup ids id) (proj2 (Hin id) (mk_is_Some _ _ Hn))) as [i Hi].
      apply (recompute_enough ids lt fuel i); [done|done|]. apply lookup_lt_Some in Hi. lia. }
    destruct fuel as [|fuel]; [lia|]. simpl in *. unfold GetLineage in *. rewrite Hn in *. destruct (ln_Output node); [done|].
    destruct (recompute_deps _ _); [by eexists|done].
  - destruct fuel as [|fuel]; [lia|]. simpl. unfold GetLineage. by rewrite Hn.
Qed.

(** Two executions of an agent at the same reading of the clock get the same id:
    the second node replaces the first and, if it names it as a dependency, depends
    on itself; without an output, recomputing from it never ends. *)
Theorem same_instant_never_ends now agentID input fuel :
  let lt1 := (RecordExecution now now agentID input None [] NewLineageTracker).2 in
  let lt2 := (RecordExecution now now agentID input None [lineage_id agentID now] lt1).2 in
  RecomputeFrom fuel (lineage_id agentID now) lt2 = None.
Proof.
  intros lt1 lt2. set (id := lineage_id agentID now) in *.
  assert (lt2 !! id = Some (mkLineage id agentID input None [id] now)) as Hid.
  { unfold lt2, lt1, RecordExecution. simpl. fold id. rewrite lookup_insert_eq. simpl.
    by rewrite lookup_insert_eq. }
  clearbody lt2. induction fuel as [|fuel IH]; [done|]. simpl. unfold GetLineage. rewrite Hid. simpl. by rewrite IH.
Qed.
