(* ===== verification/Events.v ===== *)
(** * Events (pkg/events/events.go)

    The in-memory event bus with its subscribers, the store of events and its
    queries, the counts per type, the recorder that joins bus and store.  Handlers
    are values, because the bus keeps them: those of the package ([HTrack],
    [HRecord], [HStateChange], [HLog]) and any other by a number; what the others do
    with the world is an argument.  The goroutines of a publication run one after
    another in any order, which is an argument: each handler of the package holds
    its mutex for all it does. *)

From stdpp Require Import base gmap strings list fin_maps relations pretty.
From S2P Require Import Prelude.

Open Scope Z_scope.

(** ** Events *)

Notation EventType := string (only parsing).

Definition EventStateChanged : EventType := "state.changed".
Definition EventTransferRequested : EventType := "transfer.requested".
Definition EventTransferCompleted : EventType := "transfer.completed".
Definition EventTransferFailed : EventType := "transfer.failed".

(** Values of [interface{}] are opaque. *)
Record StateChangeData := mkStateChange {
  sc_Key : string;
  sc_OldValue : N;
  sc_NewValue : N;
  sc_AgentName : string;
  sc_Partition : string;
}.
Record TransferRequestData := mkTransferRequest {
  tq_FromAgent : string;
  tq_ToAgent : string;
  tq_Reason : string;
  tq_FromPartition : string;
  tq_Timestamp : Time;
}.
Record TransferCompletedData := mkTransferCompleted {
  tc_FromAgent : string;
  tc_ToAgent : string;
  tc_FromPartition : string;
  tc_ToPartition : string;
  tc_Duration : Z;
  tc_TransferType : string;
  tc_Timestamp : Time;
}.
Record TransferFailedData := mkTransferFailed {
  tf_FromAgent : string;
  tf_ToAgent : string;
  tf_Reason : string;
  tf_Error : string;
  tf_FromPartition : string;
  tf_Timestamp : Time;
}.

Inductive EventPayload :=
  | StateChange (d : StateChangeData)
  | TransferRequest (d : TransferRequestData)
  | TransferCompletion (d : TransferCompletedData)
  | TransferFailure (d : TransferFailedData)
  | OtherPayload (v : N).

Inductive MetaValue := MetaString (s : string) | MetaInt (z : Z).

Record BaseEvent := mkEvent {
  ev_Type : EventType;
  ev_Time : Time;
  ev_Agent : string;
  ev_Session : string;
  ev_Data : EventPayload;
  ev_Meta : gmap string MetaValue;
}.

Definition NewAgentEvent (now : Time) (t : EventType) (agentID sessionID : string) (data : EventPayload) : BaseEvent :=
  mkEvent t now agentID sessionID data ∅.
Definition NewTaskEvent (now : Time) (t : EventType) (taskID jobID : string) (data : EventPayload) : BaseEvent :=
  mkEvent t now "" "" data {["task_id" := MetaString taskID; "job_id" := MetaString jobID]}.
Definition NewToolEvent (now : Time) (t : EventType) (toolName agentID : string) (data : EventPayload) : BaseEvent :=
  mkEvent t now agentID "" data {["tool_name" := MetaString toolName]}.
Definition NewStateChangeEvent (now : Time) (key : string) (oldValue newValue : N) (agentName partition : string) : BaseEvent :=
  mkEvent EventStateChanged now agentName "" (StateChange (mkStateChange key oldValue newValue agentName partition))
    {["partition" := MetaString partition]}.
(** The clock is read once for the event and once for its data. *)
Definition NewTransferRequestEvent (now now' : Time) (fromAgent toAgent reason fromPartition : string) : BaseEvent :=
  mkEvent EventTransferRequested now fromAgent ""
    (TransferRequest (mkTransferRequest fromAgent toAgent reason fromPartition now'))
    {["from_partition" := MetaString fromPartition; "target_agent" := MetaString toAgent]}.
Definition NewTransferCompletedEvent (now now' : Time) (fromAgent toAgent fromPartition toPartition : string) (duration : Z)
    (transferType : string) : BaseEvent :=
  mkEvent EventTransferCompleted now fromAgent ""
    (TransferCompletion (mkTransferCompleted fromAgent toAgent fromPartition toPartition duration transferType now'))
    {["from_partition" := MetaString fromPartition; "to_partition" := MetaString toPartition;
      "transfer_type" := MetaString transferType; "duration_ms" := MetaInt (Z.quot duration (10 ^ 6))]}.
Definition NewTransferFailedEvent (now now' : Time) (fromAgent toAgent reason errorMsg fromPartition : string) : BaseEvent :=
  mkEvent EventTransferFailed now fromAgent ""
    (TransferFailure (mkTransferFailed fromAgent toAgent reason errorMsg fromPartition now'))
    {["from_partition" := MetaString fromPartition; "target_agent" := MetaString toAgent; "error" := MetaString errorMsg]}.

(** ** Queries *)

Record EventFilter := mkFilter {
  ef_EventTypes : list EventType;
  ef_AgentID : string;
  ef_SessionID : string;
  ef_StartTime : Time;
  ef_EndTime : Time;
  ef_Limit : Z;
}.

Definition matchesFilter (event : BaseEvent) (filter : EventFilter) : bool :=
  (match ef_EventTypes filter with [] => true | ts => existsb (String.eqb (ev_Type event)) ts end) &&
  (String.eqb (ef_AgentID filter) "" || String.eqb (ev_Agent event) (ef_AgentID filter)) &&
  (String.eqb (ef_SessionID filter) "" || String.eqb (ev_Session event) (ef_SessionID filter)) &&
  ((ef_StartTime filter =? 0) || negb (ev_Time event <? ef_StartTime filter)) &&
  ((ef_EndTime filter =? 0) || negb (ef_EndTime filter <? ev_Time event)).

Fixpoint load_loop (filter : EventFilter) (results events : list BaseEvent) : list BaseEvent :=
  match events with
  | [] => results
  | event :: events' =>
      if matchesFilter event filter then
        let results := results ++ [event] in
        if (0 <? ef_Limit filter) && (ef_Limit filter <=? Z.of_nat (length results)) then results
        else load_loop filter results events'
      else load_loop filter results events'
  end.
Definition EventStore_Load (filter : EventFilter) (events : list BaseEvent) : list BaseEvent := load_loop filter [] events.
Definition EventStore_Store (event : BaseEvent) (events : list BaseEvent) : list BaseEvent := events ++ [event].

(** ** The bus *)

Inductive Handler :=
  | HTrack (metrics : nat)          (** [EventMetrics.Track] *)
  | HRecord (store : nat)           (** [EventRecorder.recordEvent] *)
  | HLog                            (** [EventLogger.Log], which only prints *)
  | HStateChange (callback : nat)   (** made by [OnStateChange] *)
  | HOther (id : nat).

Section Bus.
Context {Env : Type}.

(** The bus, the stores and counts that exist, and the rest of the world. *)
Record EventWorld := mkEventWorld {
  ew_subscribers : gmap EventType (list Handler);
  ew_closed : bool;                              (** the context is cancelled *)
  ew_stores : gmap nat (list BaseEvent);
  ew_metrics : gmap nat (gmap EventType Z);
  ew_rest : Env;
}.

Definition set_subscribers (m : gmap EventType (list Handler)) (w : EventWorld) : EventWorld :=
  mkEventWorld m (ew_closed w) (ew_stores w) (ew_metrics w) (ew_rest w).
Definition set_stores (m : gmap nat (list BaseEvent)) (w : EventWorld) : EventWorld :=
  mkEventWorld (ew_subscribers w) (ew_closed w) m (ew_metrics w) (ew_rest w).
Definition set_metrics (m : gmap nat (gmap EventType Z)) (w : EventWorld) : EventWorld :=
  mkEventWorld (ew_subscribers w) (ew_closed w) (ew_stores w) m (ew_rest w).

Definition NewMemoryEventBus (rest : Env) : EventWorld := mkEventWorld ∅ false ∅ ∅ rest.

Definition handlers_of (t : EventType) (w : EventWorld) : list Handler := default [] (ew_subscribers w !! t).

Definition Subscribe (t : EventType) (h : Handler) (w : EventWorld) : EventWorld :=
  set_subscribers (<[t := handlers_of t w ++ [h]]> (ew_subscribers w)) w.
(** All handlers of the type go, whichever is named. *)
Definition Unsubscribe (t : EventType) (h : Handler) (w : EventWorld) : EventWorld :=
  set_subscribers (delete t (ew_subscribers w)) w.
Definition Bus_Close (w : EventWorld) : EventWorld :=
  mkEventWorld (ew_subscribers w) true (ew_stores w) (ew_metrics w) (ew_rest w).

Definition Track (t : EventType) (counts : gmap EventType Z) : gmap EventType Z :=
  <[t := default 0 (counts !! t) + 1]> counts.
Definition GetCount (t : EventType) (counts : gmap EventType Z) : Z := default 0 (counts !! t).

(** What handlers of others do, and the callbacks of [OnStateChange]. *)
Context (other : nat → BaseEvent → EventWorld → option error * EventWorld).
Context (callback : nat → string → N → N → EventWorld → EventWorld).

Definition run_handler (event : BaseEvent) (h : Handler) (w : EventWorld) : option error * EventWorld :=
  match h with
  | HTrack l => (None, set_metrics (alter (Track (ev_Type event)) l (ew_metrics w)) w)
  | HRecord l => (None, set_stores (alter (EventStore_Store event) l (ew_stores w)) w)
  | HLog => (None, w)
  | HStateChange c =>
      (None, match ev_Data event with
             | StateChange d => callback c (sc_Key d) (sc_OldValue d) (sc_NewValue d) w
             | _ => w
             end)
  | HOther id => other id event w
  end.

(** The handlers in the order they run, and their errors in that order. *)
Fixpoint run_handlers (event : BaseEvent) (hs : list Handler) (w : EventWorld) : list error * EventWorld :=
  match hs with
  | [] => ([], w)
  | h :: hs' =>
      let '(err, w) := run_handler event h w in
      let '(errs, w) := run_handlers event hs' w in
      (match err with Some e => e :: errs | None => errs end, w)
  end.

Definition handling_errors (errs : list error) : error :=
  EText ("event handling errors: [" +:+ strings_Join (Error <$> errs) " " +:+ "]").

(** [schedule]: the order in which the goroutines get to run. *)
Definition Publish (schedule : list Handler → list Handler) (event : BaseEvent) (w : EventWorld) : option error * EventWorld :=
  let '(errs, w) := run_handlers event (schedule (handlers_of (ev_Type event) w)) w in
  (match errs with [] => None | _ => Some (handling_errors errs) end, w).

Definition OnStateChange (c : nat) (w : EventWorld) : EventWorld := Subscribe EventStateChanged (HStateChange c) w.
Definition PublishStateChange (schedule : list Handler → list Handler) (now : Time) (key : string) (oldValue newValue : N)
    (agentName partition : string) (w : EventWorld) : option error * EventWorld :=
  Publish schedule (NewStateChangeEvent now key oldValue newValue agentName partition) w.

(** ** The recorder *)

Definition NewEventRecorder (store : nat) (w : EventWorld) : EventWorld := Subscribe "*" (HRecord store) w.
Definition Recorder_Query (store : nat) (filter : EventFilter) (w : EventWorld) : list BaseEvent :=
  EventStore_Load filter (default [] (ew_stores w !! store)).

End Bus.

Arguments EventWorld : clear implicits.

(** ** Queries are exact *)

Definition event_matches (event : BaseEvent) (filter : EventFilter) : Prop :=
  (ef_EventTypes filter = [] ∨ ev_Type event ∈ ef_EventTypes filter) ∧
  (ef_AgentID filter = "" ∨ ev_Agent event = ef_AgentID filter) ∧
  (ef_SessionID filter = "" ∨ ev_Session event = ef_SessionID filter) ∧
  (ef_StartTime filter = 0 ∨ ef_StartTime filter ≤ ev_Time event) ∧
  (ef_EndTime filter = 0 ∨ ev_Time event ≤ ef_EndTime filter).

Lemma existsb_string_in s l : existsb (String.eqb s) l = true ↔ s ∈ l.
Proof.
  rewrite existsb_exists. split.
  - intros (x & Hx & He). apply String.eqb_eq in He as ->. by apply list_elem_of_In.
  - intros Hs. exists s. split; [by apply list_elem_of_In|]. apply String.eqb_refl.
Qed.

Lemma matchesFilter_spec event filter : matchesFilter event filter = true ↔ event_matches event filter.
Proof.
  unfold matchesFilter, event_matches. rewrite !andb_true_iff, !orb_true_iff, !negb_true_iff, !String.eqb_eq, !Z.eqb_eq, !Z.ltb_ge.
  assert (match ef_EventTypes filter with [] => true | ts => existsb (String.eqb (ev_Type event)) ts end = true ↔
          ef_EventTypes filter = [] ∨ ev_Type event ∈ ef_EventTypes filter) as ->; [|tauto].
  destruct (ef_EventTypes filter) as [|t ts]; [tauto|]. rewrite existsb_string_in. split; [by right|by intros [|]].
Qed.

Definition within_limit (limit : Z) {A} (l : list A) : list A := if 0 <? limit then take (Z.to_nat limit) l else l.

Lemma load_loop_spec f results events :
  (0 < ef_Limit f → Z.of_nat (length results) < ef_Limit f) →
  load_loop f results events = within_limit (ef_Limit f) (results ++ filter (λ e, matchesFilter e f = true) events).
Proof.
  unfold within_limit. revert results. induction events as [|e events IH]; intros results Hl; simpl.
  - rewrite app_nil_r. case_match eqn:H0; [|done]. apply Z.ltb_lt in H0. rewrite take_ge; [done|]. lia.
  - rewrite filter_cons. destruct (matchesFilter e f); [rewrite decide_True by done|rewrite decide_False by done; by apply IH].
    destruct (Z.ltb_spec 0 (ef_Limit f)) as [Hpos|Hneg]; simpl.
    + destruct (Z.leb_spec (ef_Limit f) (Z.of_nat (length (results ++ [e])))) as [Hge|Hlt]; [|by rewrite IH, <- app_assoc].
      rewrite length_app in Hge. simpl in Hge. specialize (Hl Hpos). symmetry. rewrite cons_middle, app_assoc.
      apply take_app_length'. rewrite length_app. simpl. lia.
    + rewrite IH by lia. by rewrite <- app_assoc.
Qed.

(** A query answers, in the order they were stored, the events that match the
    filter, the first of them if there is a limit. *)
Theorem event_query f events :
  EventStore_Load f events = within_limit (ef_Limit f) (filter (λ e, matchesFilter e f = true) events) ∧
  ∀ e, matchesFilter e f = true ↔ event_matches e f.
Proof. split; [|intros e; exact (matchesFilter_spec e f)]. unfold EventStore_Load. rewrite load_loop_spec by (simpl; lia). done. Qed.

(** ** Publications *)

#[global] Instance Handler_eq_dec : EqDecision Handler.
Proof. solve_decision. Defined.

Section Delivery.
Context {Env : Type} (other : nat → BaseEvent → EventWorld Env → option error * EventWorld Env).
Context (callback : nat → string → N → N → EventWorld Env → EventWorld Env).

(** The clients' own code leaves stores and counts alone. *)
Definition same_records (w w' : EventWorld Env) : Prop := ew_stores w' = ew_stores w ∧ ew_metrics w' = ew_metrics w.
Context (other_same : ∀ id event w, same_records w (other id event w).2).
Context (callback_same : ∀ c k o n w, same_records w (callback c k o n w)).

Definition subscriptions (h : Handler) (hs : list Handler) : nat := length (filter (λ h', h' = h) hs).

Lemma copies_cons h h' hs : subscriptions h (h' :: hs) = ((if decide (h' = h) then 1 else 0) + subscriptions h hs)%nat.
Proof. unfold subscriptions. rewrite filter_cons. by case_decide. Qed.

Lemma run_handler_store event h w s :
  ew_stores (run_handler other callback event h w).2 !! s =
  (λ l, l ++ replicate (if decide (h = HRecord s) then 1 else 0) event) <$> ew_stores w !! s.
Proof.
  assert (∀ w', same_records w w' → ew_stores w' !! s = (λ l, l ++ []) <$> ew_stores w !! s) as Hsame.
  { intros w' [-> _]. destruct (ew_stores w !! s); simpl; by rewrite ?app_nil_r. }
  assert (same_records w w) as Href by done.
  destruct h as [l|l| |c|id]; simpl; try rewrite decide_False by done; try (by apply Hsame).
  - rewrite lookup_alter. destruct (decide (l = s)) as [->|Hne].
    + rewrite decide_True by done. done.
    + rewrite decide_False by congruence. by apply Hsame.
  - apply Hsame. by case_match.
Qed.

(** The counts [m] became [m'] by [n] more of type [t]. *)
Definition counted_more (t : string) (n : nat) (m m' : gmap string Z) : Prop :=
  ∀ t', GetCount t' m' = GetCount t' m + if decide (t' = t) then Z.of_nat n else 0.

Lemma run_handler_counts event h w l m :
  ew_metrics w !! l = Some m →
  ∃ m', ew_metrics (run_handler other callback event h w).2 !! l = Some m' ∧
    counted_more (ev_Type event) (if decide (h = HTrack l) then 1 else 0) m m'.
Proof.
  intros Hm.
  assert (∀ w', same_records w w' → ∃ m', ew_metrics w' !! l = Some m' ∧ counted_more (ev_Type event) 0 m m') as Hsame.
  { intros w' [_ ->]. exists m. split; [done|]. intros t'. case_decide; lia. }
  assert (same_records w w) as Href by done.
  destruct h as [k|k| |c|id]; simpl; try rewrite decide_False by done; try (by apply Hsame).
  - rewrite lookup_alter. destruct (decide (k = l)) as [->|Hne]; [|rewrite decide_False by congruence; by apply Hsame].
    rewrite decide_True, Hm by done. simpl. eexists. split; [done|]. intros t'. unfold GetCount, Track.
    rewrite lookup_insert. case_decide; simplify_eq; [rewrite decide_True by done|rewrite decide_False by done]; simpl; lia.
  - apply Hsame. by case_match.
Qed.

Lemma counted_more_add t n n' m m' m'' :
  counted_more t n m m' → counted_more t n' m' m'' → counted_more t (n + n') m m''.
Proof. intros H1 H2 t'. rewrite H2, H1. case_decide; lia. Qed.

Lemma run_handlers_records event hs w :
  let w' := (run_handlers other callback event hs w).2 in
  (∀ s, ew_stores w' !! s = (λ l, l ++ replicate (subscriptions (HRecord s) hs) event) <$> ew_stores w !! s) ∧
  (∀ l m, ew_metrics w !! l = Some m → ∃ m', ew_metrics w' !! l = Some m' ∧ counted_more (ev_Type event) (subscriptions (HTrack l) hs) m m').
Proof.
  revert w. induction hs as [|h hs IH]; intros w; simpl.
  - split; [intros s; destruct (ew_stores w !! s); simpl; by rewrite ?app_nil_r|].
    intros l m Hm. exists m. split; [done|]. intros t'. change (subscriptions (HTrack l) []) with 0%nat. case_decide; lia.
  - pose proof (run_handler_store event h w) as Hs. pose proof (run_handler_counts event h w) as Hc.
    destruct (run_handler other callback event h w) as [err w1]. simpl in Hs, Hc. specialize (IH w1).
    destruct (run_handlers other callback event hs w1) as [errs w2]. simpl in *. destruct IH as [IHs IHc]. split.
    + intros s. rewrite IHs, Hs, copies_cons. destruct (ew_stores w !! s); simpl; [|done]. by rewrite replicate_add, app_assoc.
    + intros l m Hm. destruct (Hc l m Hm) as (m1 & Hm1 & Hmore). destruct (IHc l m1 Hm1) as (m2 & Hm2 & Hmore2).
      exists m2. split; [done|]. rewrite copies_cons. by eapply counted_more_add.
Qed.

Lemma run_handlers_no_error event hs w :
  (∀ id w0, HOther id ∈ hs → (other id event w0).1 = None) → (run_handlers other callback event hs w).1 = [].
Proof.
  revert w. induction hs as [|h hs IH]; intros w Hno; [done|]. simpl.
  assert ((run_handler other callback event h w).1 = None) as Hh.
  { destruct h as [| | | |id]; simpl; try done. apply Hno. by left. }
  destruct (run_handler other callback event h w) as [err w1]. simpl in Hh. subst err.
  specialize (IH w1). destruct (run_handlers other callback event hs w1) as [errs w2]. simpl in *. apply IH.
  intros id w0 Hid. apply Hno. by right.
Qed.

Lemma copies_perm h hs hs' : hs ≡ₚ hs' → subscriptions h hs = subscriptions h hs'.
Proof. intros Hp. unfold subscriptions. by rewrite Hp. Qed.

(** A publication reaches every handler subscribed to the type of the event, in
    whatever order they run: each store that is subscribed gets the event once for
    each subscription and no other event, each count of the type goes up by as
    many, other stores and counts stay; without an error of a client's handler
    there is none. *)
Theorem event_delivery schedule event w :
  (∀ hs, schedule hs ≡ₚ hs) →
  let hs := handlers_of (ev_Type event) w in
  let w' := (Publish other callback schedule event w).2 in
  (∀ s, ew_stores w' !! s = (λ l, l ++ replicate (subscriptions (HRecord s) hs) event) <$> ew_stores w !! s) ∧
  (∀ l m, ew_metrics w !! l = Some m → ∃ m', ew_metrics w' !! l = Some m' ∧ counted_more (ev_Type event) (subscriptions (HTrack l) hs) m m') ∧
  ((∀ id w0, HOther id ∈ hs → (other id event w0).1 = None) → (Publish other callback schedule event w).1 = None).
Proof.
  intros Hsch hs w'. unfold w', Publish. fold hs.
  destruct (run_handlers_records event (schedule hs) w) as [Hs Hc].
  pose proof (run_handlers_no_error event (schedule hs) w) as He.
  destruct (run_handlers other callback event (schedule hs) w) as [errs w1]. simpl in *. split_and!.
  - intros s. by rewrite Hs, (copies_perm _ _ _ (Hsch hs)).
  - intros l m Hm. rewrite <- (copies_perm _ _ _ (Hsch hs)). by apply Hc.
  - intros Hno. rewrite He; [done|]. intros id w0. rewrite Hsch. apply Hno.
Qed.

(** ** The recorder *)

(** What a program does with a bus, when only the recorder uses the store [s]. *)
Inductive bus_step (s : nat) : EventWorld Env → EventWorld Env → Prop :=
  | bus_subscribe t h w : h ≠ HRecord s → bus_step s w (Subscribe t h w)
  | bus_unsubscribe t h w : bus_step s w (Unsubscribe t h w)
  | bus_close w : bus_step s w (Bus_Close w)
  | bus_publish schedule event w :
      (∀ hs, schedule hs ≡ₚ hs) → ev_Type event ≠ "*" → bus_step s w (Publish other callback schedule event w).2.

Definition only_star (s : nat) (w : EventWorld Env) : Prop := ∀ t, t ≠ "*" → HRecord s ∉ handlers_of t w.

Context (other_star : ∀ s id event w, only_star s w → only_star s (other id event w).2).
Context (callback_star : ∀ s c k o n w, only_star s w → only_star s (callback c k o n w)).

Lemma run_handlers_star s event hs w : only_star s w → only_star s (run_handlers other callback event hs w).2.
Proof.
  revert w. induction hs as [|h hs IH]; intros w Hw; [done|]. simpl.
  assert (only_star s (run_handler other callback event h w).2) as H1.
  { destruct h; simpl; try done; [case_match; auto|auto]. }
  destruct (run_handler other callback event h w) as [err w1]. specialize (IH w1 H1).
  by destruct (run_handlers other callback event hs w1).
Qed.

Lemma bus_step_star s w w' : bus_step s w w' → only_star s w → only_star s w' ∧ ew_stores w' !! s = ew_stores w !! s.
Proof.
  intros Hs Hw. destruct Hs as [t h w Hh|t h w|w|schedule event w Hsch Hty].
  - split; [|done]. intros t' Ht'. unfold Subscribe, handlers_of at 1. simpl. rewrite lookup_insert. case_decide as Heq.
    + subst. simpl. specialize (Hw t' Ht'). set_solver.
    + by apply Hw.
  - split; [|done]. intros t' Ht'. unfold Unsubscribe, handlers_of. simpl. rewrite lookup_delete. case_decide; [set_solver|by apply Hw].
  - by split.
  - destruct (event_delivery schedule event w Hsch) as (Hst & _ & _). split.
    + unfold Publish. pose proof (run_handlers_star s event (schedule (handlers_of (ev_Type event) w)) w Hw) as H1.
      by destruct (run_handlers other callback event _ w).
    + rewrite Hst. assert (subscriptions (HRecord s) (handlers_of (ev_Type event) w) = 0%nat) as ->.
      { unfold subscriptions. destruct (filter _ _) as [|h l] eqn:Hf; [done|]. exfalso. apply (Hw _ Hty).
        assert (h ∈ filter (λ h', h' = HRecord s) (handlers_of (ev_Type event) w)) as Hin by (rewrite Hf; by left).
        apply list_elem_of_filter in Hin as [-> Hin]. done. }
      destruct (ew_stores w !! s); simpl; by rewrite ?app_nil_r.
Qed.

(** An event recorder subscribes to the type [*], which the bus does not treat as
    all types: however the bus is used, as long as no event has that very type,
    the store of the recorder stays empty and every query is answered with nothing. *)
Theorem recorder_records_nothing s w w' f :
  only_star s w → ew_stores w !! s = Some [] → rtc (bus_step s) (NewEventRecorder s w) w' →
  Recorder_Query s f w' = [].
Proof.
  intros Hw Hs Hrun.
  assert (only_star s w' ∧ ew_stores w' !! s = Some []) as [_ Hs'].
  { assert (only_star s (NewEventRecorder s w)) as H0.
    { intros t Ht. unfold NewEventRecorder, Subscribe, handlers_of at 1. simpl. rewrite lookup_insert_ne by done. by apply Hw. }
    assert (ew_stores (NewEventRecorder s w) !! s = Some []) as H1 by done.
    induction Hrun as [|x y z Hxy _ IH]; [done|]. destruct (bus_step_star _ _ _ Hxy H0) as [H2 H3].
    apply IH; [done|]. by rewrite H3. }
  unfold Recorder_Query. by rewrite Hs'.
Qed.

End Delivery.
