(* ===== verification/Sessions.v ===== *)
(** * Conversation sessions (pkg/sessions/session.go)

    Sessions with their history, context and checkpoints, in the in-memory
    manager, and in the distributed manager, which loads, changes and saves a
    session in a store: an interface of the source, the class [SessionStore].
    Invocations and checkpoints are values: a client hands over a new invocation
    each time and does not change what it was given.  Locks are the atomicity of
    the in-memory manager's methods; the distributed manager has none, and its
    methods are a load and a save. *)

From stdpp Require Import base gmap strings list fin_maps relations.
From S2P Require Import Prelude.

Open Scope Z_scope.

Record Invocation := mkInvocation {
  iv_ID : string;
  iv_SessionID : string;
  iv_Payload : N;                          (** input, output and duration *)
  iv_Timestamp : Time;
  iv_State : option (gmap string Value);
  iv_Index : Z;
}.

Record SessionCheckpoint := mkSessionCheckpoint {
  sc_ID : string;
  sc_SessionID : string;
  sc_InvocationIndex : Z;
  sc_Context : gmap string Value;
  sc_Timestamp : Time;
  sc_Description : string;
}.

Record Session := mkSession {
  se_ID : string;
  se_AgentID : string;
  se_History : list Invocation;
  se_Context : gmap string Value;
  se_CreatedAt : Time;
  se_LastAccess : Time;
  se_Checkpoints : list SessionCheckpoint;
}.

Definition touch_session (now : Time) (s : Session) : Session :=
  mkSession (se_ID s) (se_AgentID s) (se_History s) (se_Context s) (se_CreatedAt s) now (se_Checkpoints s).
Definition set_history (l : list Invocation) (s : Session) : Session :=
  mkSession (se_ID s) (se_AgentID s) l (se_Context s) (se_CreatedAt s) (se_LastAccess s) (se_Checkpoints s).
Definition set_context (c : gmap string Value) (s : Session) : Session :=
  mkSession (se_ID s) (se_AgentID s) (se_History s) c (se_CreatedAt s) (se_LastAccess s) (se_Checkpoints s).
Definition set_checkpoints (l : list SessionCheckpoint) (s : Session) : Session :=
  mkSession (se_ID s) (se_AgentID s) (se_History s) (se_Context s) (se_CreatedAt s) (se_LastAccess s) l.

(** ** What both managers do to a session *)

Definition new_session (uuid agentID : string) (now : Time) : Session := mkSession uuid agentID [] ∅ now now [].

Definition append_invocation (now : Time) (sessionID : string) (inv : Invocation) (s : Session) : Session :=
  let inv := mkInvocation (iv_ID inv) sessionID (iv_Payload inv) now (iv_State inv) (Z.of_nat (length (se_History s))) in
  touch_session now (set_history (se_History s ++ [inv]) s).

(** The position of the first invocation with an id. *)
Fixpoint find_invocation (i : nat) (id : string) (l : list Invocation) : option (nat * Invocation) :=
  match l with
  | [] => None
  | inv :: l' => if String.eqb (iv_ID inv) id then Some (i, inv) else find_invocation (S i) id l'
  end.

Definition rewind_to (now : Time) (targetIndex : nat) (inv : Invocation) (s : Session) : Session :=
  let s := set_history (take (S targetIndex) (se_History s)) s in
  let s := match iv_State inv with Some st => set_context st s | None => s end in
  touch_session now s.

Definition take_checkpoint (uuid : string) (now : Time) (sessionID description : string) (s : Session) : SessionCheckpoint * Session :=
  let c := mkSessionCheckpoint uuid sessionID (Z.of_nat (length (se_History s)) - 1) (se_Context s) now description in
  (c, touch_session now (set_checkpoints (se_Checkpoints s ++ [c]) s)).

Fixpoint find_checkpoint (id : string) (l : list SessionCheckpoint) : option SessionCheckpoint :=
  match l with
  | [] => None
  | c :: l' => if String.eqb (sc_ID c) id then Some c else find_checkpoint id l'
  end.

(** The in-memory manager shortens the history when it is long enough. *)
Definition restore_memory (now : Time) (c : SessionCheckpoint) (s : Session) : Session :=
  let s := if (0 <=? sc_InvocationIndex c) && (sc_InvocationIndex c <? Z.of_nat (length (se_History s)))
           then set_history (take (Z.to_nat (sc_InvocationIndex c + 1)) (se_History s)) s else s in
  touch_session now (set_context (sc_Context c) s).

(** The distributed manager reslices it, which panics, or brings back entries of
    the slice's array, when it is not ([None]). *)
Definition restore_distributed (now : Time) (c : SessionCheckpoint) (s : Session) : option Session :=
  s' ← (if 0 <=? sc_InvocationIndex c then
          if sc_InvocationIndex c + 1 <=? Z.of_nat (length (se_History s))
          then Some (set_history (take (Z.to_nat (sc_InvocationIndex c + 1)) (se_History s)) s)
          else None
        else Some s);
  Some (touch_session now (set_context (sc_Context c) s')).

Definition update_context (now : Time) (updates : gmap string Value) (s : Session) : Session :=
  touch_session now (set_context (updates ∪ se_Context s) s).

Definition session_missing (id : string) : error := EText ("session " +:+ id +:+ " not found").
Definition invocation_missing (id suffix : string) : error := EText ("invocation " +:+ id +:+ " not found" +:+ suffix).
Definition checkpoint_missing (id : string) : error := EText ("checkpoint " +:+ id +:+ " not found").

(** ** The in-memory manager *)

Notation manager := (gmap string Session) (only parsing).

Definition Memory_CreateSession (uuid : string) (now : Time) (agentID : string) (m : manager) : Session * manager :=
  let s := new_session uuid agentID now in (s, <[uuid := s]> m).

Definition Memory_GetSession (now : Time) (id : string) (m : manager) : result Session * manager :=
  match m !! id with
  | None => (inl (session_missing id), m)
  | Some s => let s := touch_session now s in (inr s, <[id := s]> m)
  end.

Definition Memory_AddInvocation (now : Time) (id : string) (inv : Invocation) (m : manager) : option error * manager :=
  match m !! id with
  | None => (Some (session_missing id), m)
  | Some s => (None, <[id := append_invocation now id inv s]> m)
  end.

Definition Memory_GetHistory (now : Time) (id : string) (m : manager) : result (list Invocation) * manager :=
  match Memory_GetSession now id m with
  | (inl e, m') => (inl e, m')
  | (inr s, m') => (inr (se_History s), m')
  end.

Definition Memory_Rewind (now : Time) (id invocationID : string) (m : manager) : option error * manager :=
  match Memory_GetSession now id m with
  | (inl e, m') => (Some e, m')
  | (inr s, m') =>
      match find_invocation 0 invocationID (se_History s) with
      | None => (Some (invocation_missing invocationID " in session"), m')
      | Some (i, inv) => (None, <[id := rewind_to now i inv s]> m')
      end
  end.

Definition Memory_Checkpoint (uuid : string) (now : Time) (id description : string) (m : manager)
    : result SessionCheckpoint * manager :=
  match Memory_GetSession now id m with
  | (inl e, m') => (inl e, m')
  | (inr s, m') => let '(c, s') := take_checkpoint uuid now id description s in (inr c, <[id := s']> m')
  end.

Definition Memory_RestoreCheckpoint (now : Time) (id checkpointID : string) (m : manager) : option error * manager :=
  match Memory_GetSession now id m with
  | (inl e, m') => (Some e, m')
  | (inr s, m') =>
      match find_checkpoint checkpointID (se_Checkpoints s) with
      | None => (Some (checkpoint_missing checkpointID), m')
      | Some c => (None, <[id := restore_memory now c s]> m')
      end
  end.

Definition Memory_UpdateContext (now : Time) (id : string) (updates : gmap string Value) (m : manager) : option error * manager :=
  match Memory_GetSession now id m with
  | (inl e, m') => (Some e, m')
  | (inr s, m') => (None, <[id := update_context now updates s]> m')
  end.

Definition Memory_DeleteSession (id : string) (m : manager) : option error * manager :=
  match m !! id with
  | None => (Some (session_missing id), m)
  | Some _ => (None, delete id m)
  end.

Definition Memory_ListSessions (agentID : string) (m : manager) : list Session :=
  filter (λ s, se_AgentID s = agentID) (map_values m).

(** ** The distributed manager *)

Class SessionStore (S : Type) := {
  store_Save : Session → S → option error * S;
  store_Load : string → S → result Session;
  store_Delete : string → S → option error * S;
  store_List : string → S → result (list Session);
}.

(** A store keeps what is saved; a request that fails changes nothing. *)
Class SessionStoreLaws (S : Type) `{SessionStore S} := {
  store_view : S → gmap string Session;
  store_save x s err s' : store_Save x s = (err, s') →
    store_view s' = match err with None => <[se_ID x := x]> (store_view s) | Some _ => store_view s end;
  store_load id s x : store_Load id s = inr x → store_view s !! id = Some x;
  store_delete id s err s' : store_Delete id s = (err, s') →
    store_view s' = match err with None => delete id (store_view s) | Some _ => store_view s end;
}.

Section DistributedManager.
Context {S : Type} `{SessionStore S}.

Definition Distributed_CreateSession (uuid : string) (now : Time) (agentID : string) (st : S) : result Session * S :=
  let s := new_session uuid agentID now in
  match store_Save s st with (Some e, st') => (inl e, st') | (None, st') => (inr s, st') end.

(** The error of the save is dropped. *)
Definition Distributed_GetSession (now : Time) (id : string) (st : S) : result Session * S :=
  match store_Load id st with
  | inl e => (inl e, st)
  | inr s => let s := touch_session now s in (inr s, (store_Save s st).2)
  end.

Definition Distributed_AddInvocation (now : Time) (id : string) (inv : Invocation) (st : S) : option error * S :=
  match store_Load id st with
  | inl e => (Some e, st)
  | inr s => store_Save (append_invocation now id inv s) st
  end.

Definition Distributed_GetHistory (id : string) (st : S) : result (list Invocation) :=
  match store_Load id st with inl e => inl e | inr s => inr (se_History s) end.

Definition Distributed_Rewind (now : Time) (id invocationID : string) (st : S) : option error * S :=
  match store_Load id st with
  | inl e => (Some e, st)
  | inr s =>
      match find_invocation 0 invocationID (se_History s) with
      | None => (Some (invocation_missing invocationID ""), st)
      | Some (i, inv) => store_Save (rewind_to now i inv s) st
      end
  end.

Definition Distributed_Checkpoint (uuid : string) (now : Time) (id description : string) (st : S) : result SessionCheckpoint * S :=
  match store_Load id st with
  | inl e => (inl e, st)
  | inr s =>
      let '(c, s') := take_checkpoint uuid now id description s in
      match store_Save s' st with (Some e, st') => (inl e, st') | (None, st') => (inr c, st') end
  end.

Definition Distributed_RestoreCheckpoint (now : Time) (id checkpointID : string) (st : S) : option (option error * S) :=
  match store_Load id st with
  | inl e => Some (Some e, st)
  | inr s =>
      match find_checkpoint checkpointID (se_Checkpoints s) with
      | None => Some (Some (checkpoint_missing checkpointID), st)
      | Some c => s' ← restore_distributed now c s; Some (store_Save s' st)
      end
  end.

Definition Distributed_UpdateContext (now : Time) (id : string) (updates : gmap string Value) (st : S) : option error * S :=
  match store_Load id st with
  | inl e => (Some e, st)
  | inr s => store_Save (update_context now updates s) st
  end.

Definition Distributed_DeleteSession (id : string) (st : S) : option error * S := store_Delete id st.
Definition Distributed_ListSessions (agentID : string) (st : S) : result (list Session) := store_List agentID st.

End DistributedManager.

(** ** Runs of the in-memory manager *)

(** Any call of the manager; new ids are the caller's business. *)
Inductive session_step : manager → manager → Prop :=
  | ses_create uuid now agent m : m !! uuid = None → session_step m (Memory_CreateSession uuid now agent m).2
  | ses_get now id m : session_step m (Memory_GetSession now id m).2
  | ses_add now id inv m : session_step m (Memory_AddInvocation now id inv m).2
  | ses_history now id m : session_step m (Memory_GetHistory now id m).2
  | ses_rewind now id inv m : session_step m (Memory_Rewind now id inv m).2
  | ses_checkpoint uuid now id d m : session_step m (Memory_Checkpoint uuid now id d m).2
  | ses_restore now id c m : session_step m (Memory_RestoreCheckpoint now id c m).2
  | ses_update now id u m : session_step m (Memory_UpdateContext now id u m).2
  | ses_delete id m : session_step m (Memory_DeleteSession id m).2.

(** What a call makes of a session that is there before and after it. *)
Inductive session_change : Session → Session → Prop :=
  | chg_refl s : session_change s s
  | chg_touch now s : session_change s (touch_session now s)
  | chg_append now id inv s : session_change s (append_invocation now id inv s)
  | chg_rewind now i inv s : session_change s (rewind_to now i inv s)
  | chg_checkpoint uuid now id d s : session_change s (take_checkpoint uuid now id d s).2
  | chg_restore now c s : session_change s (restore_memory now c s)
  | chg_update now u s : session_change s (update_context now u s).

Lemma GetSession_eq now id m :
  Memory_GetSession now id m =
    match m !! id with
    | None => (inl (session_missing id), m)
    | Some s => (inr (touch_session now s), <[id := touch_session now s]> m)
    end.
Proof. done. Qed.

(** Replacing one session by what a call made of it. *)
Lemma insert_change (m : manager) id s y id' x x' :
  m !! id = Some s → session_change s y → m !! id' = Some x → <[id := y]> m !! id' = Some x' → session_change x x'.
Proof.
  intros Hs Hc Hx [[<- <-]|[_ Hx']]%lookup_insert_Some; [|simplify_eq; constructor]. by simplify_eq.
Qed.

Lemma step_change m m' id x x' : session_step m m' → m !! id = Some x → m' !! id = Some x' → session_change x x'.
Proof.
  intros Hstep Hx Hx'.
  assert (∀ k s y, m !! k = Some s → session_change s y → m' = <[k := y]> m → session_change x x') as Hgo.
  { intros k s y Hk Hc ->. by eapply insert_change. }
  assert (m' = m → session_change x x') as Hsame by (intros ->; simplify_eq; constructor).
  assert (∀ k s now y, m !! k = Some s → session_change s y → m' = <[k := y]> (<[k := touch_session now s]> m) → session_change x x') as Hgo2.
  { intros k s now y Hk Hc Hm'. rewrite insert_insert_eq in Hm'. by eapply Hgo. }
  destruct Hstep as [uuid now agent m Hn|now k m|now k inv m|now k m|now k inv m|uuid now k d m|now k c m|now k u m|k m];
    simpl in Hx'.
  - apply lookup_insert_Some in Hx' as [[<- <-]|[_ Hx']]; [congruence|]. simplify_eq. constructor.
  - rewrite GetSession_eq in *. destruct (m !! k) as [s|] eqn:Hk; simpl in *; [|by apply Hsame].
    eapply Hgo; [done| |done]. constructor.
  - unfold Memory_AddInvocation in *. destruct (m !! k) as [s|] eqn:Hk; simpl in *; [|by apply Hsame].
    eapply Hgo; [done| |done]. constructor.
  - unfold Memory_GetHistory in *. rewrite GetSession_eq in *. destruct (m !! k) as [s|] eqn:Hk; simpl in *; [|by apply Hsame].
    eapply Hgo; [done| |done]. constructor.
  - unfold Memory_Rewind in *. rewrite GetSession_eq in *. destruct (m !! k) as [s|] eqn:Hk; simpl in *; [|by apply Hsame].
    destruct (find_invocation 0 inv (se_History s)) as [[i v]|]; simpl in *.
    + apply (Hgo2 k s now (rewind_to now i v s)); [done|constructor|]. unfold rewind_to. by destruct (iv_State v).
    + eapply Hgo; [done| |done]. constructor.
  - unfold Memory_Checkpoint in *. rewrite GetSession_eq in *. destruct (m !! k) as [s|] eqn:Hk; simpl in *; [|by apply Hsame].
    eapply Hgo2; [done| |done]. exact (chg_checkpoint uuid now k d s).
  - unfold Memory_RestoreCheckpoint in *. rewrite GetSession_eq in *. destruct (m !! k) as [s|] eqn:Hk; simpl in *; [|by apply Hsame].
    destruct (find_checkpoint c (se_Checkpoints s)) as [cp|]; simpl in *.
    + apply (Hgo2 k s now (restore_memory now cp s)); [done|constructor|]. unfold restore_memory. simpl. by destruct (_ && _).
    + eapply Hgo; [done| |done]. constructor.
  - unfold Memory_UpdateContext in *. rewrite GetSession_eq in *. destruct (m !! k) as [s|] eqn:Hk; simpl in *; [|by apply Hsame].
    eapply Hgo2; [done| |done]. exact (chg_update now u s).
  - unfold Memory_DeleteSession in *. destruct (m !! k) as [s|] eqn:Hk; simpl in *; [|by apply Hsame].
    apply lookup_delete_Some in Hx' as [_ Hx']. simplify_eq. constructor.
Qed.

(** ** Checkpoints are restored *)

Section Restoring.
Context (uuid : string) (c : SessionCheckpoint) (n : nat) (h : list Invocation).

(** The first [n] invocations are [h] and the checkpoint can be found. *)
Record anchored (s : Session) : Prop := {
  an_history : take n (se_History s) = h;
  an_long : (n ≤ length (se_History s))%nat;
  an_found : find_checkpoint uuid (se_Checkpoints s) = Some c;
}.

Lemma anchored_history s l :
  anchored s → l `prefix_of` se_History s ∨ se_History s `prefix_of` l → (n ≤ length l)%nat → take n l = h.
Proof.
  intros [Hh Hn _] [[t Ht]|[t Ht]] Hl.
  - rewrite Ht, take_app_le in Hh; done.
  - by rewrite Ht, take_app_le.
Qed.

Lemma anchored_change s s' : session_change s s' → (n ≤ length (se_History s'))%nat → anchored s → anchored s'.
Proof.
  intros Hc Hn Ha. pose proof Ha as [_ _ Hf]. split; [|done|].
  - apply (anchored_history s); [done| |done]. destruct Hc; simpl; try (by left).
    + right. by eexists.
    + unfold rewind_to. destruct (iv_State inv); simpl; left; apply prefix_take.
    + unfold restore_memory. destruct (_ && _); simpl; left; [apply prefix_take|done].
  - destruct Hc; simpl; try done.
    + unfold rewind_to. by destruct (iv_State inv).
    + revert Hf. induction (se_Checkpoints s) as [|c' l IH]; simpl; [done|]. by destruct (String.eqb _ _).
    + unfold restore_memory. by destruct (_ && _).
Qed.
End Restoring.

Lemma find_checkpoint_last uuid l c :
  uuid ∉ (sc_ID <$> l) → sc_ID c = uuid → find_checkpoint uuid (l ++ [c]) = Some c.
Proof.
  intros Hn Hc. induction l as [|x l IH]; simpl.
  - by rewrite (proj2 (String.eqb_eq _ _)).
  - csimpl in Hn. apply not_elem_of_cons in Hn as [H1 H2]. rewrite (proj2 (String.eqb_neq _ _)) by done. by apply IH.
Qed.

Lemma find_invocation_spec k id l :
  match find_invocation k id l with
  | None => id ∉ (iv_ID <$> l)
  | Some (i, inv) => ∃ j, i = (k + j)%nat ∧ l !! j = Some inv ∧ iv_ID inv = id ∧ id ∉ (iv_ID <$> take j l)
  end.
Proof.
  revert k. induction l as [|x l IH]; intros k; simpl; [set_solver|].
  destruct (String.eqb_spec (iv_ID x) id) as [He|Hne].
  - exists 0%nat. split; [lia|]. split; [done|]. split; [done|]. set_solver.
  - specialize (IH (S k)). destruct (find_invocation (S k) id l) as [[i inv]|]; [|csimpl; set_solver].
    destruct IH as (j & -> & Hj & Hid & Hn). exists (S j). split; [lia|]. split; [done|]. split; [done|]. csimpl. set_solver.
Qed.

(** C38. A session with a history is brought back to its checkpoint: take a checkpoint
    of a session whose history is not empty; then, as long as the session is there
    and its history is not cut below the checkpoint, whatever is done to it and to
    other sessions, restoring the checkpoint succeeds and gives the history and the
    context the session had.  (A checkpoint of an empty history is not restored so:
    the code leaves the invocations added since.)  A rewind succeeds exactly when the session has the
    invocation; it keeps the history up to the first such one and sets the
    context to the state recorded with it, if one was. *)
Theorem session_checkpoint uuid now now' id d c (m m1 m2 : manager) s :
  m !! id = Some s → se_History s ≠ [] → uuid ∉ (sc_ID <$> se_Checkpoints s) →
  Memory_Checkpoint uuid now id d m = (inr c, m1) →
  rtc (λ x y, session_step x y ∧ ∃ s', y !! id = Some s' ∧ (length (se_History s) ≤ length (se_History s'))%nat) m1 m2 →
  (∃ m3 s2 s3, Memory_RestoreCheckpoint now' id uuid m2 = (None, m3) ∧ m2 !! id = Some s2 ∧ m3 = <[id := s3]> m2 ∧
     se_Context s3 = se_Context s ∧ se_LastAccess s3 = now' ∧
     se_History s3 = se_History s) ∧
  (∀ inv, match Memory_Rewind now' id inv m with
     | (Some _, m') => inv ∉ (iv_ID <$> se_History s) ∧ m' = <[id := touch_session now' s]> m
     | (None, m') => ∃ i v s', se_History s !! i = Some v ∧ iv_ID v = inv ∧ inv ∉ (iv_ID <$> take i (se_History s)) ∧
         m' = <[id := s']> m ∧ se_History s' = take (S i) (se_History s) ∧
         se_Context s' = default (se_Context s) (iv_State v)
     end).
Proof.
  intros Hs Hne Hu Hcp Hrun. split.
  - unfold Memory_Checkpoint in Hcp. rewrite GetSession_eq, Hs in Hcp. simpl in Hcp. simplify_eq.
    set (n := length (se_History s)). set (c := mkSessionCheckpoint _ _ _ _ _ _) in *.
    assert (∃ s2, m2 !! id = Some s2 ∧ anchored uuid c n (se_History s) s2) as (s2 & Hs2 & [Ht Hn Hf]).
    { revert Hrun. set (m1 := <[id := _]> _). intros Hrun.
      assert (∃ s1, m1 !! id = Some s1 ∧ anchored uuid c n (se_History s) s1) as Hbase.
      { eexists. split; [apply lookup_insert_eq|]. split; simpl.
        - apply take_ge. done.
        - done.
        - by apply find_checkpoint_last. }
      clearbody m1. induction Hrun as [|x y z [Hst (sy & Hsy & Hlen)] _ IH]; [done|].
      apply IH. destruct Hbase as (sx & Hsx & Hax). exists sy. split; [done|].
      eapply anchored_change; [by eapply step_change|done|done]. }
    unfold Memory_RestoreCheckpoint. rewrite GetSession_eq, Hs2. simpl. rewrite Hf.
    eexists _, s2, _. split; [done|]. split; [done|]. split; [by rewrite insert_insert_eq|].
    unfold restore_memory. simpl. fold n.
    assert (0 < n)%nat as Hpos by (unfold n; destruct (se_History s); [done|simpl; lia]).
    rewrite (proj2 (Z.leb_le 0 _)), (proj2 (Z.ltb_lt _ _)) by lia. simpl. split; [done|]. split; [done|].
    etrans; [|exact Ht]. f_equal. lia.
  - intros inv. unfold Memory_Rewind. rewrite GetSession_eq, Hs. simpl.
    pose proof (find_invocation_spec 0 inv (se_History s)) as Hfi.
    destruct (find_invocation 0 inv (se_History s)) as [[i v]|]; [|done].
    destruct Hfi as (j & -> & Hj & Hid & Hnot). exists j, v. eexists. split; [done|]. split; [done|]. split; [done|].
    split; [by rewrite insert_insert_eq|]. unfold rewind_to. destruct (iv_State v); done.
Qed.

(** ** The distributed manager *)

Section DistributedRefines.
Context {S : Type} `{SessionStoreLaws S}.

(** Sessions are kept under their own ids. *)
Definition well_keyed (m : manager) : Prop := map_Forall (λ id s, se_ID s = id) m.

(** A successful save of a session that was loaded. *)
Lemma save_loaded id s s' st st' :
  well_keyed (store_view st) → store_Load id st = inr s → se_ID s' = se_ID s → store_Save s' st = (None, st') →
  store_view st !! id = Some s ∧ store_view st' = <[id := s']> (store_view st) ∧ well_keyed (store_view st').
Proof.
  intros Hk Hl Hid Hs. apply store_load in Hl. apply store_save in Hs. simpl in Hs. pose proof (Hk id s Hl) as Hsid.
  simpl in Hsid. rewrite Hid, Hsid in Hs. split; [done|]. split; [done|]. rewrite Hs. apply map_Forall_insert_2; [congruence|done].
Qed.
End DistributedRefines.

(** Without concurrent calls the distributed manager does to the sessions of its
    store what the in-memory manager does to its own: whatever call succeeds, the
    in-memory manager's succeeds on the same sessions with the same answer and
    ends in the sessions the store then holds. *)
Theorem distributed_sessions {S} `{SessionStoreLaws S} (st st' : S) :
  well_keyed (store_view st) →
  let m := store_view st in
  let same (o : option error * manager) := o = (None, store_view st') ∧ well_keyed (store_view st') in
  (∀ uuid now a s, Distributed_CreateSession uuid now a st = (inr s, st') →
     Memory_CreateSession uuid now a m = (s, store_view st') ∧ well_keyed (store_view st')) ∧
  (∀ now id inv, Distributed_AddInvocation now id inv st = (None, st') → same (Memory_AddInvocation now id inv m)) ∧
  (∀ now id inv, Distributed_Rewind now id inv st = (None, st') → same (Memory_Rewind now id inv m)) ∧
  (∀ uuid now id d c, Distributed_Checkpoint uuid now id d st = (inr c, st') →
     Memory_Checkpoint uuid now id d m = (inr c, store_view st') ∧ well_keyed (store_view st')) ∧
  (∀ now id c, Distributed_RestoreCheckpoint now id c st = Some (None, st') → same (Memory_RestoreCheckpoint now id c m)) ∧
  (∀ now id u, Distributed_UpdateContext now id u st = (None, st') → same (Memory_UpdateContext now id u m)).
Proof.
  intros Hk m same. split_and!.
  - intros uuid now a s Hc. unfold Distributed_CreateSession in Hc. destruct (store_Save _ st) as [[e|] x] eqn:Hs; simplify_eq.
    apply store_save in Hs. simpl in Hs. unfold Memory_CreateSession. rewrite Hs. split; [done|].
    apply map_Forall_insert_2; done.
  - intros now id inv Hc. unfold Distributed_AddInvocation in Hc. destruct (store_Load id st) as [|s] eqn:Hl; [done|].
    destruct (save_loaded id s (append_invocation now id inv s) st st' Hk Hl eq_refl Hc) as (Hm & Hv & Hk'). split; [|done].
    unfold Memory_AddInvocation. fold m in Hm. by rewrite Hm, Hv.
  - intros now id inv Hc. unfold Distributed_Rewind in Hc. destruct (store_Load id st) as [|s] eqn:Hl; [done|].
    destruct (find_invocation 0 inv (se_History s)) as [[i v]|] eqn:Hf; [|done].
    assert (se_ID (rewind_to now i v s) = se_ID s) as Hid by (unfold rewind_to; by destruct (iv_State v)).
    destruct (save_loaded id s _ st st' Hk Hl Hid Hc) as (Hm & Hv & Hk'). split; [|done].
    unfold Memory_Rewind. rewrite GetSession_eq. fold m in Hm, Hv. rewrite Hm. simpl. rewrite Hf, insert_insert_eq, Hv.
    assert (rewind_to now i v (touch_session now s) = rewind_to now i v s) as -> by (unfold rewind_to; by destruct (iv_State v)). done.
  - intros uuid now id d c Hc. unfold Distributed_Checkpoint in Hc. destruct (store_Load id st) as [|s] eqn:Hl; [done|].
    simpl in Hc. destruct (store_Save _ st) as [[e|] x] eqn:Hs; simplify_eq.
    apply (save_loaded id s) in Hs as (Hm & Hv & Hk'); [|done..]. split; [|done].
    unfold Memory_Checkpoint. rewrite GetSession_eq. fold m in Hm, Hv. rewrite Hm. simpl. by rewrite insert_insert_eq, Hv.
  - intros now id c Hc. unfold Distributed_RestoreCheckpoint in Hc. destruct (store_Load id st) as [|s] eqn:Hl; [done|].
    destruct (find_checkpoint c (se_Checkpoints s)) as [cp|] eqn:Hf; [|done].
    destruct (restore_distributed now cp s) as [s'|] eqn:Hr; [|done]. simpl in Hc. injection Hc as Hc.
    assert (s' = restore_memory now cp s) as ->.
    { unfold restore_distributed in Hr. unfold restore_memory. destruct (Z.leb_spec 0 (sc_InvocationIndex cp)); simpl in *; [|by simplify_eq].
      destruct (Z.leb_spec (sc_InvocationIndex cp + 1) (Z.of_nat (length (se_History s)))); simplify_eq/=.
      by rewrite (proj2 (Z.ltb_lt _ _)) by lia. }
    assert (se_ID (restore_memory now cp s) = se_ID s) as Hid by (unfold restore_memory; by destruct (_ && _)).
    destruct (save_loaded id s _ st st' Hk Hl Hid Hc) as (Hm & Hv & Hk'). split; [|done].
    unfold Memory_RestoreCheckpoint. rewrite GetSession_eq. fold m in Hm, Hv. rewrite Hm. simpl. rewrite Hf, insert_insert_eq, Hv.
    assert (restore_memory now cp (touch_session now s) = restore_memory now cp s) as -> by (unfold restore_memory; simpl; by destruct (_ && _)).
    done.
  - intros now id u Hc. unfold Distributed_UpdateContext in Hc. destruct (store_Load id st) as [|s] eqn:Hl; [done|].
    destruct (save_loaded id s (update_context now u s) st st' Hk Hl eq_refl Hc) as (Hm & Hv & Hk'). split; [|done].
    unfold Memory_UpdateContext. rewrite GetSession_eq. fold m in Hm, Hv. rewrite Hm. simpl. by rewrite insert_insert_eq, Hv.
Qed.
