(* ===== verification/Invocation.v ===== *)
(** * Invocation contexts and the agent runtime (pkg/runtime/runtime.go, integration.go)

    An invocation context holds temporary state, changes that are not committed and
    a reference to the map of committed state.  That map is shared, with the
    session it was loaded from and the sessions it was saved to, so maps are
    objects: [Maps], and [ic_State] is a location, [None] for a nil map.  The
    session service is a class.  Ids, times of events and the Go context are left
    out; [None] as a result is a panic. *)

From stdpp Require Import base gmap strings list fin_maps pretty.
From S2P Require Import Prelude Etcd.

Open Scope Z_scope.

(** ** Data *)

Inductive RtEventType :=
  | EventTypeMessage | EventTypeToolCall | EventTypeToolResult | EventTypeStateChange
  | EventTypeCheckpoint | EventTypeError | EventTypeUnknown (n : Z).

#[global] Instance RtEventType_eq_dec : EqDecision RtEventType.
Proof. solve_decision. Defined.

Definition EventType_String (t : RtEventType) : string :=
  match t with
  | EventTypeMessage => "message"
  | EventTypeToolCall => "tool_call"
  | EventTypeToolResult => "tool_result"
  | EventTypeStateChange => "state_change"
  | EventTypeCheckpoint => "checkpoint"
  | EventTypeError => "error"
  | EventTypeUnknown _ => "unknown"
  end.

Notation StateMap := (gmap string Value) (only parsing).
Notation Maps := (gmap nat (gmap string Value)) (only parsing).

Inductive RtContent := RcValue (v : Value) | RcMap (m : gmap string Value).

Record RtEvent := mkRtEvent {
  re_Type : RtEventType;
  re_Content : RtContent;
  re_Partial : bool;
  re_Author : string;
  re_StateDelta : option StateMap;
  re_PartitionID : string;
}.

Record StateDelta := mkStateDelta { sd_Key : string; sd_OldValue : Value; sd_NewValue : Value }.

Inductive StreamingMode := StreamingModeNone | StreamingModeSSE | StreamingModeBidirectional.
#[global] Instance StreamingMode_eq_dec : EqDecision StreamingMode.
Proof. solve_decision. Defined.

Record RunConfig := mkRunConfig { rc_StreamingMode : StreamingMode; rc_SupportCFC : bool; rc_MaxLLMCalls : Z }.

Record InvocationContext := mkInvocation {
  ic_SessionID : string;
  ic_InvocationID : string;
  ic_UserID : string;
  ic_State : option nat;
  ic_TempState : StateMap;
  ic_StateDeltas : list StateDelta;
  ic_PartitionID : string;
  ic_EventHistory : list RtEvent;
  ic_AgentName : string;
  ic_EndInvocation : bool;
  ic_LLMCallCount : Z;
  ic_RunConfig : option RunConfig;
}.

Definition set_State (l : option nat) (c : InvocationContext) : InvocationContext :=
  mkInvocation (ic_SessionID c) (ic_InvocationID c) (ic_UserID c) l (ic_TempState c) (ic_StateDeltas c)
    (ic_PartitionID c) (ic_EventHistory c) (ic_AgentName c) (ic_EndInvocation c) (ic_LLMCallCount c) (ic_RunConfig c).
Definition set_TempState (m : StateMap) (c : InvocationContext) : InvocationContext :=
  mkInvocation (ic_SessionID c) (ic_InvocationID c) (ic_UserID c) (ic_State c) m (ic_StateDeltas c)
    (ic_PartitionID c) (ic_EventHistory c) (ic_AgentName c) (ic_EndInvocation c) (ic_LLMCallCount c) (ic_RunConfig c).
Definition set_StateDeltas (l : list StateDelta) (c : InvocationContext) : InvocationContext :=
  mkInvocation (ic_SessionID c) (ic_InvocationID c) (ic_UserID c) (ic_State c) (ic_TempState c) l
    (ic_PartitionID c) (ic_EventHistory c) (ic_AgentName c) (ic_EndInvocation c) (ic_LLMCallCount c) (ic_RunConfig c).
Definition set_EventHistory (l : list RtEvent) (c : InvocationContext) : InvocationContext :=
  mkInvocation (ic_SessionID c) (ic_InvocationID c) (ic_UserID c) (ic_State c) (ic_TempState c) (ic_StateDeltas c)
    (ic_PartitionID c) l (ic_AgentName c) (ic_EndInvocation c) (ic_LLMCallCount c) (ic_RunConfig c).
Definition set_AgentName (n : string) (c : InvocationContext) : InvocationContext :=
  mkInvocation (ic_SessionID c) (ic_InvocationID c) (ic_UserID c) (ic_State c) (ic_TempState c) (ic_StateDeltas c)
    (ic_PartitionID c) (ic_EventHistory c) n (ic_EndInvocation c) (ic_LLMCallCount c) (ic_RunConfig c).
Definition set_LLMCallCount (n : Z) (c : InvocationContext) : InvocationContext :=
  mkInvocation (ic_SessionID c) (ic_InvocationID c) (ic_UserID c) (ic_State c) (ic_TempState c) (ic_StateDeltas c)
    (ic_PartitionID c) (ic_EventHistory c) (ic_AgentName c) (ic_EndInvocation c) n (ic_RunConfig c).

(** The ids come from the clock; a new map is made for the state. *)
Definition NewInvocationContext (sessionID invocationID partitionID : string) (maps : Maps) : InvocationContext * Maps :=
  let l := fresh (dom maps) in
  (mkInvocation sessionID invocationID "" (Some l) ∅ [] partitionID [] "" false 0 None, <[l := ∅]> maps).

(** ** State *)

Definition is_temp (key : string) : bool := String.prefix "temp:" key.

Definition committed (c : InvocationContext) (maps : Maps) : StateMap :=
  default ∅ (ic_State c ≫= λ l, maps !! l).

(** The loop from the last change to the first. *)
Fixpoint last_delta (key : string) (reversed : list StateDelta) : option Value :=
  match reversed with
  | [] => None
  | d :: reversed' => if String.eqb (sd_Key d) key then Some (sd_NewValue d) else last_delta key reversed'
  end.

Definition ctx_Get (key : string) (c : InvocationContext) (maps : Maps) : option Value :=
  if is_temp key then ic_TempState c !! key
  else match last_delta key (rev (ic_StateDeltas c)) with
       | Some v => Some v
       | None => committed c maps !! key
       end.

Definition ctx_Set (key : string) (v : Value) (c : InvocationContext) (maps : Maps) : InvocationContext :=
  if is_temp key then set_TempState (<[key := v]> (ic_TempState c)) c
  else set_StateDeltas (ic_StateDeltas c ++ [mkStateDelta key (default VNil (committed c maps !! key)) v]) c.

Definition apply_deltas (ds : list StateDelta) (m : StateMap) : StateMap :=
  foldl (λ m d, <[sd_Key d := sd_NewValue d]> m) m ds.

(** Writing to a nil map panics. *)
Definition CommitStateDeltas (c : InvocationContext) (maps : Maps) : option (InvocationContext * Maps) :=
  match ic_StateDeltas c, ic_State c with
  | [], _ => Some (c, maps)
  | ds, Some l => m ← maps !! l; Some (set_StateDeltas [] c, <[l := apply_deltas ds m]> maps)
  | _, None => None
  end.

Definition ClearTempState (c : InvocationContext) : InvocationContext := set_TempState ∅ c.

Definition IncrementLLMCallCount (c : InvocationContext) : option error * InvocationContext :=
  let n := ic_LLMCallCount c + 1 in
  let c := set_LLMCallCount n c in
  match ic_RunConfig c with
  | Some rc =>
      if (0 <? rc_MaxLLMCalls rc) && (rc_MaxLLMCalls rc <? n) then
        (Some (EText ("LLM call limit exceeded: " +:+ pretty n +:+ " > " +:+ pretty (rc_MaxLLMCalls rc))), c)
      else (None, c)
  | None => (None, c)
  end.

Definition AddEvent (e : RtEvent) (c : InvocationContext) : InvocationContext := set_EventHistory (ic_EventHistory c ++ [e]) c.

(** The order in which Go ranges over a map of changes. *)
Class DeltaOrder := {
  delta_order : gmap string Value → list (string * Value);
  delta_order_perm m : delta_order m ≡ₚ map_to_list m;
}.

Definition set_all (l : list (string * Value)) (maps : Maps) (c : InvocationContext) : InvocationContext :=
  foldl (λ c x, ctx_Set x.1 x.2 c maps) c l.

(** ** Sessions *)

Record RtSession := mkRtSession {
  rs_ID : string;
  rs_UserID : string;
  rs_State : option nat;
  rs_EventHistory : list RtEvent;
  rs_CreatedAt : Time;
  rs_UpdatedAt : Time;
}.

Class SessionService (Svc : Type) := {
  svc_GetSession : string → Maps * Svc → result (option RtSession) * (Maps * Svc);
  svc_UpdateSession : RtSession → Maps * Svc → option error * (Maps * Svc);
}.

(** ** What agents call (integration.go), [None] if the context is not the runtime's *)

Definition EmitEvent (t : RtEventType) (content : RtContent) (partial : bool) (c : option InvocationContext) : option InvocationContext :=
  (λ c, AddEvent (mkRtEvent t content partial "agent" None (ic_PartitionID c)) c) <$> c.

Definition EmitEventWithDelta `{DeltaOrder} (t : RtEventType) (content : RtContent) (partial : bool) (delta : option StateMap)
    (maps : Maps) (c : option InvocationContext) : option InvocationContext :=
  (λ c, let c := AddEvent (mkRtEvent t content partial "agent" delta (ic_PartitionID c)) c in
        match delta with
        | Some m => if partial then c else set_all (delta_order m) maps c
        | None => c
        end) <$> c.

Definition EmitToolCall (toolName : string) (arguments : Value) (c : option InvocationContext) : option InvocationContext :=
  EmitEvent EventTypeToolCall (RcMap {["tool" := VString toolName; "arguments" := arguments]}) false c.
Definition EmitToolResult (toolName : string) (result : Value) (err : option error) (c : option InvocationContext)
    : option InvocationContext :=
  match err with
  | None => EmitEvent EventTypeToolResult (RcMap {["tool" := VString toolName; "result" := result]}) false c
  | Some e =>
      EmitEvent EventTypeError (RcMap {["tool" := VString toolName; "result" := result; "error" := VString (Error e)]}) false c
  end.
Definition EmitMessage (message : string) (partial : bool) (c : option InvocationContext) : option InvocationContext :=
  EmitEvent EventTypeMessage (RcValue (VString message)) partial c.
Definition EmitCheckpoint (metadata : StateMap) (c : option InvocationContext) : option InvocationContext :=
  EmitEvent EventTypeCheckpoint (RcMap metadata) false c.
Definition EmitStateChange `{DeltaOrder} (key : string) (oldValue newValue : Value) (maps : Maps) (c : option InvocationContext)
    : option InvocationContext :=
  EmitEventWithDelta EventTypeStateChange (RcMap {["key" := VString key; "old_value" := oldValue; "new_value" := newValue]}) false
    (Some {[key := newValue]}) maps c.

Definition GetState (key : string) (c : option InvocationContext) (maps : Maps) : option Value := c ≫= λ c, ctx_Get key c maps.
Definition SetState (key : string) (v : Value) (maps : Maps) (c : option InvocationContext) : option InvocationContext :=
  (λ c, ctx_Set key v c maps) <$> c.
Definition SetTempState (key : string) (v : Value) (maps : Maps) (c : option InvocationContext) : option InvocationContext :=
  SetState ("temp:" +:+ key) v maps c.
Definition GetTempState (key : string) (c : option InvocationContext) (maps : Maps) : option Value := GetState ("temp:" +:+ key) c maps.

(** ** The runtime *)

(** [append], then the last [max] of what there is; a negative bound panics. *)
Definition log_append {A} (max : Z) (e : A) (log : list A) : option (list A) :=
  let log := log ++ [e] in
  if max <? Z.of_nat (length log) then
    if max <? 0 then None else Some (drop (length log - Z.to_nat max) log)
  else Some log.

Fixpoint log_all {A} (max : Z) (es log : list A) : option (list A) :=
  match es with
  | [] => Some log
  | e :: es' => log ← log_append max e log; log_all max es' log
  end.

Record AgentRuntime := mkAgentRuntime { ar_maxEvents : Z; ar_enableCheckpoint : bool; ar_eventLog : list RtEvent }.

Definition NewAgentRuntime : AgentRuntime := mkAgentRuntime 1000 true [].

Section Runtime.
Context `{SessionService Svc} `{DeltaOrder}.

(** [has_sessions]: there is a session service. *)
Definition session_of (now : Time) (c : InvocationContext) (events : list RtEvent) : RtSession :=
  mkRtSession (ic_SessionID c) (ic_UserID c) (ic_State c) events 0 now.

Definition checkpoint (now : Time) (has_sessions : bool) (c : InvocationContext) (s : Maps * Svc) : option error * (Maps * Svc) :=
  if has_sessions then svc_UpdateSession (session_of now c (ic_EventHistory c)) s else (None, s).

Definition runtime_processEvent (now : Time) (has_sessions : bool) (event : RtEvent) (r : AgentRuntime) (c : InvocationContext) (s : Maps * Svc)
    : option (option error * AgentRuntime * InvocationContext * (Maps * Svc)) :=
  let c := AddEvent event c in
  log ← log_append (ar_maxEvents r) event (ar_eventLog r);
  let r := mkAgentRuntime (ar_maxEvents r) (ar_enableCheckpoint r) log in
  let c := match re_StateDelta event with Some m => set_all (delta_order m) s.1 c | None => c end in
  '(c, maps) ← (if re_Partial event then Some (c, s.1) else CommitStateDeltas c s.1);
  let s := (maps, s.2) in
  if bool_decide (re_Type event = EventTypeCheckpoint) && ar_enableCheckpoint r then
    let '(err, s) := checkpoint now has_sessions c s in
    Some ((λ e, EWrap "checkpoint failed: " e "") <$> err, r, c, s)
  else Some (None, r, c, s).

(** After the agent of [Run] has returned without an error: the counts that go
    into the output's metadata, the runtime, the context. *)
Definition Run_finish (r : AgentRuntime) (c : InvocationContext) (maps : Maps)
    : option ((nat * nat) * AgentRuntime * InvocationContext * Maps) :=
  '(c, maps) ← CommitStateDeltas c maps;
  let c := ClearTempState c in
  log ← log_all (ar_maxEvents r) (ic_EventHistory c) (ar_eventLog r);
  Some ((length (ic_EventHistory c), length (ic_StateDeltas c)),
        mkAgentRuntime (ar_maxEvents r) (ar_enableCheckpoint r) log, c, maps).

(** [Run]: the agent is any function of the context and the maps. *)
Definition runtime_Run {Out : Type} (sessionID invocationID partitionID : string)
    (execute : InvocationContext → Maps → option (result Out * InvocationContext * Maps)) (r : AgentRuntime) (maps : Maps)
    : option (result (Out * (nat * nat)) * AgentRuntime * Maps) :=
  let '(c, maps) := NewInvocationContext sessionID invocationID partitionID maps in
  '(res, c, maps) ← execute c maps;
  match res with
  | inl err => Some (inl (EWrap "agent execution failed: " err ""), r, maps)
  | inr out => '(counts, r, c, maps) ← Run_finish r c maps; Some (inr (out, counts), r, maps)
  end.

End Runtime.

(** ** The context as a map

    What [Get] answers is the state of the agent; writing and committing act on it
    as on one map, with its temporary keys apart. *)

Lemma last_delta_app k l l' : last_delta k (l ++ l') = match last_delta k l with Some v => Some v | None => last_delta k l' end.
Proof. induction l as [|d l IH]; simpl; [done|]. by destruct (String.eqb (sd_Key d) k). Qed.

Lemma ctx_Get_Set k k' v c maps :
  ctx_Get k' (ctx_Set k v c maps) maps = if decide (k = k') then Some v else ctx_Get k' c maps.
Proof.
  unfold ctx_Get, ctx_Set, committed. destruct (is_temp k) eqn:Hk; simpl.
  - case_decide; [subst; by rewrite Hk, lookup_insert_eq|]. case_match; [by rewrite lookup_insert_ne|done].
  - rewrite rev_app_distr, last_delta_app. simpl. case_decide; [subst; by rewrite Hk, String.eqb_refl|].
    rewrite (proj2 (String.eqb_neq k k')) by done. done.
Qed.

Lemma ctx_Set_State k v c maps : ic_State (ctx_Set k v c maps) = ic_State c.
Proof. unfold ctx_Set. by case_match. Qed.

Lemma apply_deltas_lookup k ds m :
  apply_deltas ds m !! k = match last_delta k (rev ds) with Some v => Some v | None => m !! k end.
Proof.
  induction ds as [|d ds IH] using rev_ind; [done|]. unfold apply_deltas in *. rewrite foldl_app, rev_app_distr. simpl.
  destruct (String.eqb_spec (sd_Key d) k) as [->|Hne]; [by rewrite lookup_insert_eq|by rewrite lookup_insert_ne].
Qed.

(** A commit changes nothing an agent sees. *)
Lemma commit_spec c maps c' maps' :
  CommitStateDeltas c maps = Some (c', maps') →
  (∀ k, ctx_Get k c' maps' = ctx_Get k c maps) ∧ ic_StateDeltas c' = [] ∧ ic_State c' = ic_State c ∧ ic_TempState c' = ic_TempState c ∧
  (∀ k, committed c' maps' !! k = match last_delta k (rev (ic_StateDeltas c)) with Some v => Some v | None => committed c maps !! k end) ∧
  ∀ l, ic_State c ≠ Some l → maps' !! l = maps !! l.
Proof.
  unfold CommitStateDeltas. destruct (ic_StateDeltas c) as [|d ds] eqn:Hd.
  - intros [= <- <-]. split_and!; try done.
  - destruct (ic_State c) as [l|] eqn:Hl; [|done]. destruct (maps !! l) as [m|] eqn:Hm; [|done]. cbn [mbind option_bind]. intros [= <- <-].
    assert (∀ k, committed (set_StateDeltas [] c) (<[l:=apply_deltas (d :: ds) m]> maps) !! k =
                 match last_delta k (rev (d :: ds)) with Some v => Some v | None => committed c maps !! k end) as Hc.
    { intros k. unfold committed. simpl. rewrite Hl. simpl. rewrite lookup_insert_eq, Hm. simpl. exact (apply_deltas_lookup k (d :: ds) m). }
    split_and!; try done.
    + intros k. unfold ctx_Get. change (ic_StateDeltas (set_StateDeltas [] c)) with (@nil StateDelta). rewrite Hc, Hd. by destruct (is_temp k).
    + intros l' Hne. rewrite lookup_insert_ne; [done|]. congruence.
Qed.

Lemma set_all_State l maps c : ic_State (set_all l maps c) = ic_State c.
Proof. revert c. induction l as [|x l IH]; intros c; [done|]. simpl. by rewrite IH, ctx_Set_State. Qed.

Lemma set_all_Get l maps c k :
  NoDup l.*1 → ctx_Get k (set_all l maps c) maps =
  match (list_to_map l : gmap string Value) !! k with Some v => Some v | None => ctx_Get k c maps end.
Proof.
  revert c. induction l as [|[k' v] l IH]; intros c Hnd; [done|]. cbn [set_all foldl fst snd list_to_map].
  apply NoDup_cons in Hnd as [Hni Hnd]. fold (set_all l maps (ctx_Set k' v c maps)). rewrite IH by done. rewrite ctx_Get_Set. simpl.
  destruct (decide (k' = k)) as [->|Hne].
  - rewrite lookup_insert_eq. rewrite not_elem_of_list_to_map_1; done.
  - rewrite lookup_insert_ne by done. done.
Qed.

Lemma set_delta_Get `{DeltaOrder} m maps c k :
  ctx_Get k (set_all (delta_order m) maps c) maps = match m !! k with Some v => Some v | None => ctx_Get k c maps end.
Proof.
  assert (NoDup (delta_order m).*1) as Hnd by (rewrite delta_order_perm; apply NoDup_fst_map_to_list).
  rewrite set_all_Get by done. rewrite (list_to_map_proper (delta_order m) (map_to_list m)) by (done || apply delta_order_perm).
  by rewrite list_to_map_to_list.
Qed.

(** The context behaves as one map.  A write is read back and changes no other
    key, in whatever order several are made; a commit changes nothing that is
    read, leaves no change uncommitted and no other map altered, and what is
    committed then is what was read of the keys that are not temporary.  It panics
    only on a nil or unknown map. *)
Theorem context_view `{DeltaOrder} c maps :
  (∀ k k' v, ctx_Get k' (ctx_Set k v c maps) maps = if decide (k = k') then Some v else ctx_Get k' c maps) ∧
  (∀ m k, ctx_Get k (set_all (delta_order m) maps c) maps = match m !! k with Some v => Some v | None => ctx_Get k c maps end) ∧
  (CommitStateDeltas c maps = None ↔ ic_StateDeltas c ≠ [] ∧ (ic_State c ≫= λ l, maps !! l) = None) ∧
  (∀ c' maps', CommitStateDeltas c maps = Some (c', maps') →
     (∀ k, ctx_Get k c' maps' = ctx_Get k c maps) ∧ ic_StateDeltas c' = [] ∧
     (∀ k, is_temp k = false → committed c' maps' !! k = ctx_Get k c maps) ∧
     (∀ l, ic_State c ≠ Some l → maps' !! l = maps !! l) ∧
     (∀ k, ctx_Get k (ClearTempState c') maps' = if is_temp k then None else ctx_Get k c maps)).
Proof.
  split; [intros; apply ctx_Get_Set|]. split; [intros; apply set_delta_Get|]. split.
  - unfold CommitStateDeltas. destruct (ic_StateDeltas c) as [|d ds]; [split; [done|by intros []]|].
    destruct (ic_State c) as [l|]; simpl; [|split; done]. destruct (maps !! l); simpl; split; try done. by intros [].
  - intros c' maps' Hc. destruct (commit_spec _ _ _ _ Hc) as (Hg & Hd & Hs & Ht & Hco & Hm). split_and!; try done.
    + intros k Hk. rewrite Hco. unfold ctx_Get. by rewrite Hk.
    + intros k. destruct (is_temp k) eqn:Hk.
      * unfold ctx_Get, ClearTempState. rewrite Hk. simpl. by rewrite lookup_empty.
      * rewrite <- Hg. unfold ctx_Get, ClearTempState, committed. by rewrite Hk.
Qed.

(** ** The log *)

Lemma log_append_spec {A} max (e : A) log :
  0 ≤ max → log_append max e log = Some (last_n (Z.to_nat max) (log ++ [e])).
Proof.
  intros Hmax. unfold log_append, last_n. destruct (Z.ltb_spec max (Z.of_nat (length (log ++ [e])))) as [Hlt|Hge].
  - by rewrite (proj2 (Z.ltb_ge max 0)) by lia.
  - replace (length (log ++ [e]) - Z.to_nat max)%nat with 0%nat by lia. done.
Qed.

(** The log of a runtime holds the last events, as many as its bound. *)
Lemma log_all_spec {A} max (es log : list A) :
  0 ≤ max → (Z.of_nat (length log) ≤ max) → log_all max es log = Some (last_n (Z.to_nat max) (log ++ es)).
Proof.
  intros Hmax. revert log. induction es as [|e es IH]; intros log Hl; simpl.
  - rewrite app_nil_r. unfold last_n. replace (length log - Z.to_nat max)%nat with 0%nat by lia. done.
  - rewrite log_append_spec by done. simpl. rewrite IH.
    + rewrite last_n_last_n, <- app_assoc. done.
    + unfold last_n. rewrite length_drop. lia.
Qed.

(** A run of the runtime whose agent succeeds: what the agent sees last, but for
    temporary keys, is committed; the log has the last of all events; the number
    of changes it reports is 0, whatever the agent changed. *)
Theorem run_commits r c maps counts r' c' maps' :
  0 ≤ ar_maxEvents r → Z.of_nat (length (ar_eventLog r)) ≤ ar_maxEvents r → Run_finish r c maps = Some (counts, r', c', maps') →
  (∀ k, is_temp k = false → committed c' maps' !! k = ctx_Get k c maps) ∧ ic_TempState c' = ∅ ∧
  ar_eventLog r' = last_n (Z.to_nat (ar_maxEvents r)) (ar_eventLog r ++ ic_EventHistory c) ∧
  counts = (length (ic_EventHistory c), 0%nat).
Proof.
  intros Hmax Hlog. unfold Run_finish. destruct (CommitStateDeltas c maps) as [[c1 maps1]|] eqn:Hc; [|done]. cbn [mbind option_bind].
  assert (ic_EventHistory c1 = ic_EventHistory c) as Hh.
  { unfold CommitStateDeltas in Hc. repeat case_match; simplify_option_eq; done. }
  change (ic_EventHistory (ClearTempState c1)) with (ic_EventHistory c1). rewrite Hh, log_all_spec by done. cbn [mbind option_bind].
  intros [= <- <- <- <-]. destruct (commit_spec _ _ _ _ Hc) as (_ & Hd & Hs & _ & Hco & _). split_and!; try done.
  - intros k Hk. change (committed (ClearTempState c1) maps1) with (committed c1 maps1). rewrite Hco. unfold ctx_Get. by rewrite Hk.
  - simpl. by rewrite Hd.
Qed.
