(* ===== verification/Streaming.v ===== *)
(** * The streaming runtime (pkg/runtime/streaming.go)

    Runs of an agent whose events are sent on while, or after, it works.  A channel
    is the list of what is sent on it, to a consumer that takes all; a progress is
    the fraction the code divides.  Ids and times of events are left out, [None] as
    a result is a panic. *)

From stdpp Require Import base gmap strings list fin_maps.
From S2P Require Import Prelude Etcd Invocation.

Open Scope Z_scope.

Inductive Progress := Fraction (i n : nat) | UnknownProgress.

Record StreamEvent (Out : Type) := mkStreamEvent {
  st_Event : RtEvent;
  st_Progress : Progress;
  st_Error : option error;
  st_Final : option Out;
}.
Arguments mkStreamEvent {Out}.
Arguments st_Event {Out}.
Arguments st_Progress {Out}.
Arguments st_Error {Out}.
Arguments st_Final {Out}.

Definition message (partial : bool) (author : string) (v : Value) (delta : option StateMap) : RtEvent :=
  mkRtEvent EventTypeMessage (RcValue v) partial author delta "".
Definition error_message (text : string) : RtEvent := mkRtEvent EventTypeError (RcValue (VString text)) false "" None "".

(** ** Filters and batches *)

Section Channels.
Context {Out : Type}.
Local Notation Ev := (StreamEvent Out).

Definition FilterEvents (predicate : Ev → bool) (events : list Ev) : list Ev := filter (λ e, predicate e = true) events.
Definition OnlyFinalEvents : list Ev → list Ev := FilterEvents (λ e, negb (re_Partial (st_Event e))).
Definition OnlyPartialEvents : list Ev → list Ev := FilterEvents (λ e, re_Partial (st_Event e)).

Definition is_final (e : Ev) : bool := match st_Final e with Some _ => true | None => false end.

Fixpoint batch_loop (batchSize : Z) (batch events : list Ev) : list (list Ev) :=
  match events with
  | [] => match batch with [] => [] | _ => [batch] end
  | event :: events' =>
      let batch := batch ++ [event] in
      if (batchSize <=? Z.of_nat (length batch)) || is_final event then batch :: batch_loop batchSize [] events'
      else batch_loop batchSize batch events'
  end.
(** The capacity of a slice must not be negative. *)
Definition BatchEvents (batchSize : Z) (events : list Ev) : option (list (list Ev)) :=
  if batchSize <? 0 then None else Some (batch_loop batchSize [] events).

Lemma batch_loop_spec batchSize batch events :
  0 <= batchSize → (batch ≠ [] → Z.of_nat (length batch) < batchSize) → (∀ e, e ∈ batch → is_final e = false) →
  concat (batch_loop batchSize batch events) = batch ++ events ∧
  ∀ b, b ∈ batch_loop batchSize batch events →
    b ≠ [] ∧ Z.of_nat (length b) ≤ batchSize `max` 1 ∧ ∀ e, e ∈ removelast b → is_final e = false.
Proof.
  intros Hsize. assert (∀ (l : list Ev) x, removelast (l ++ [x]) = l) as Hlast by (intros; apply removelast_last).
  assert (∀ (b : list Ev) e, e ∈ removelast b → e ∈ b) as Hsub.
  { intros b e He. destruct b as [|x b _] using rev_ind; [done|]. rewrite Hlast in He. apply elem_of_app. by left. }
  revert batch. induction events as [|event events IH]; intros batch Hlen Hfin; simpl.
  - rewrite app_nil_r. destruct batch as [|x batch]; simpl; [split; [done|by intros ? ?%elem_of_nil]|]. rewrite app_nil_r. split; [done|].
    intros b ->%list_elem_of_singleton. specialize (Hlen ltac:(done)). simpl in Hlen. split_and!; [done|simpl; lia|]. intros e He. by apply Hfin, Hsub.
  - rewrite length_app. simpl. destruct (_ || is_final event) eqn:Hc.
    + destruct (IH []) as [Hcat Hall]; [done|by intros ? ?%elem_of_nil|]. simpl. rewrite Hcat. split; [by rewrite <-(assoc_L (++))|].
      intros b [->|Hb]%elem_of_cons; [|by apply Hall]. split_and!; [by destruct batch|rewrite length_app; simpl|by rewrite Hlast].
      destruct batch as [|x batch]; [simpl; lia|]. specialize (Hlen ltac:(done)). lia.
    + apply orb_false_iff in Hc as [Hl Hf]. apply Z.leb_gt in Hl. destruct (IH (batch ++ [event])) as [Hcat Hall].
      { intros _. rewrite length_app. simpl. lia. }
      { intros e [He|He]%elem_of_app; [by apply Hfin|]. by apply list_elem_of_singleton in He as ->. }
      rewrite Hcat. split; [by rewrite <-(assoc_L (++))|done].
Qed.

(** Batches hold all events in order; none is empty or larger than its size, at
    least one; what ends a run ends its batch. *)
Theorem batches_complete batchSize events batches :
  BatchEvents batchSize events = Some batches →
  concat batches = events ∧
  ∀ b, b ∈ batches → b ≠ [] ∧ Z.of_nat (length b) ≤ batchSize `max` 1 ∧ ∀ e, e ∈ removelast b → is_final e = false.
Proof.
  unfold BatchEvents. destruct (Z.ltb_spec batchSize 0); [done|]. intros [= <-].
  apply (batch_loop_spec batchSize [] events); [lia|done|by intros ? ?%elem_of_nil].
Qed.
End Channels.

(** ** Runs *)

Section Runs.
Context `{SessionService Svc} `{DeltaOrder} {Out : Type}.
Local Notation Ev := (StreamEvent Out).

(** A run at work: the runtime, the context, maps and service. *)
Definition RunState : Type := AgentRuntime * InvocationContext * (Maps * Svc).

(** The loop over the events: each is sent, then processed; a failure is sent and
    ends the run. *)
Fixpoint send_events (now : Time) (has_sessions : bool) (progress : nat → Progress) (describe : error → string) (i : nat) (events : list RtEvent)
    (s : RunState) : option (list Ev * bool * RunState) :=
  match events with
  | [] => Some ([], true, s)
  | event :: events' =>
      let '(r, c, ms) := s in
      let sent := mkStreamEvent event (progress i) None None in
      '(err, r, c, ms) ← runtime_processEvent now has_sessions event r c ms;
      match err with
      | Some e => Some ([sent; mkStreamEvent (error_message (describe e)) (Fraction 0 1) (Some e) None], false, (r, c, ms))
      | None =>
          '(l, ok, s) ← send_events now has_sessions progress describe (S i) events' (r, c, ms);
          Some (sent :: l, ok, s)
      end
  end.

(** [RunStreaming]: the agent is any function of the context, the maps and the
    service; [value_of] is the result in its output. *)
Definition RunStreaming (now : Time) (has_sessions : bool) (sessionID invocationID partitionID name : string)
    (execute : InvocationContext → Maps * Svc → option (result Out * InvocationContext * (Maps * Svc))) (value_of : Out → Value)
    (r : AgentRuntime) (ms : Maps * Svc) : option (list Ev * RunState) :=
  let '(c, maps) := NewInvocationContext sessionID invocationID partitionID ms.1 in
  let start := mkStreamEvent (message true name (VString "Starting execution...") None) (Fraction 0 1) None None in
  '(res, c, ms) ← execute c (maps, ms.2);
  match res with
  | inl err => Some ([start; mkStreamEvent (error_message (Error err)) (Fraction 0 1) (Some err) None], (r, c, ms))
  | inr out =>
      let history := ic_EventHistory c in
      '(l, ok, (r, c, ms)) ← send_events now has_sessions (λ i, Fraction (S i) (length history))
                               (λ e, "Event processing failed: " +:+ Error e) 0 history (r, c, ms);
      if ok : bool then
        Some (start :: l ++ [mkStreamEvent (message false name (value_of out) (Some {["final_result" := value_of out]})) (Fraction 1 1) None (Some out)],
              (r, ClearTempState c, ms))
      else Some (start :: l, (r, c, ms))
  end.

(** [RunWithGenerator]: what the generator yields is given; the result is the last
    event that is not partial. *)
Fixpoint send_generated (now : Time) (has_sessions : bool) (events : list RtEvent) (s : RunState) : option (list Ev * bool * RunState) :=
  match events with
  | [] => Some ([], true, s)
  | event :: events' =>
      let '(r, c, ms) := s in
      let c := AddEvent event c in
      let sent := mkStreamEvent event UnknownProgress None None in
      '(err, r, c, ms) ← runtime_processEvent now has_sessions event r c ms;
      match err with
      | Some e => Some ([sent; mkStreamEvent (error_message (Error e)) (Fraction 0 1) (Some e) None], false, (r, c, ms))
      | None => '(l, ok, s) ← send_generated now has_sessions events' (r, c, ms); Some (sent :: l, ok, s)
      end
  end.

Fixpoint last_complete (reversed : list RtEvent) : option RtContent :=
  match reversed with
  | [] => None
  | e :: reversed' => if re_Partial e then last_complete reversed' else Some (re_Content e)
  end.
End Runs.

(** The output of a generated run: number of events, result. *)
Definition RunWithGenerator `{SessionService Svc} `{DeltaOrder} (now : Time) (has_sessions : bool) (sessionID invocationID partitionID : string)
    (events : list RtEvent) (r : AgentRuntime) (ms : Maps * Svc)
    : option (list (StreamEvent (nat * option RtContent)) * RunState) :=
  let '(c, maps) := NewInvocationContext sessionID invocationID partitionID ms.1 in
  '(l, ok, (r, c, ms)) ← send_generated now has_sessions events (r, c, (maps, ms.2));
  if ok : bool then
    Some (l ++ [mkStreamEvent (message false "" (VString "Execution complete") None) (Fraction 1 1) None
                  (Some (length events, last_complete (rev (ic_EventHistory c))))], (r, c, ms))
  else Some (l, (r, c, ms)).

(** ** What a run sends *)

Section Sent.
Context `{SessionService Svc} `{DeltaOrder} {Out : Type}.

Lemma ctx_Set_history k v c (maps : Maps) : ic_EventHistory (ctx_Set k v c maps) = ic_EventHistory c.
Proof. unfold ctx_Set. by destruct (is_temp k). Qed.

Lemma set_all_history l (maps : Maps) c : ic_EventHistory (set_all l maps c) = ic_EventHistory c.
Proof. unfold set_all. revert c. induction l as [|x l IH]; intros c; simpl; [done|]. by rewrite IH, ctx_Set_history. Qed.

Lemma commit_history c maps c' maps' : CommitStateDeltas c maps = Some (c', maps') → ic_EventHistory c' = ic_EventHistory c.
Proof.
  unfold CommitStateDeltas. destruct (ic_StateDeltas c) as [|d ds]; [by intros [= <- _]|]. destruct (ic_State c) as [l|]; simpl; [|done].
  destruct (maps !! l); simpl; [by intros [= <- _]|done].
Qed.

(** Processing an event adds it to the history. *)
Lemma process_history now hs e r c (ms : Maps * Svc) err r' c' ms' :
  runtime_processEvent now hs e r c ms = Some (err, r', c', ms') → ic_EventHistory c' = ic_EventHistory c ++ [e].
Proof.
  unfold runtime_processEvent. destruct (log_append _ _ _) as [log|]; simpl; [|done].
  set (c1 := match re_StateDelta e with Some m => _ | None => _ end).
  assert (ic_EventHistory c1 = ic_EventHistory c ++ [e]) as Hc1 by (unfold c1; destruct (re_StateDelta e); by rewrite ?set_all_history).
  clearbody c1. destruct (if re_Partial e then _ else _) as [[c2 maps]|] eqn:Hc; simpl; [|done].
  assert (ic_EventHistory c2 = ic_EventHistory c ++ [e]) as Hc2.
  { destruct (re_Partial e); [by injection Hc as <- _|]. by rewrite (commit_history _ _ _ _ Hc). }
  destruct (_ && _); [destruct (checkpoint _ _ _ _) as [e' ms2]|]; intros Heq; by injection Heq as _ _ <- _.
Qed.

(** The events handed on with their progress. *)
Fixpoint handed (progress : nat → Progress) (i : nat) (events : list RtEvent) : list (StreamEvent Out) :=
  match events with [] => [] | e :: events' => mkStreamEvent e (progress i) None None :: handed progress (S i) events' end.

Lemma send_events_spec now hs progress describe i events (s : RunState) l ok s' :
  send_events now hs progress describe i events s = Some (l, ok, s') →
  ∃ k, (k ≤ length events)%nat ∧
    ic_EventHistory s'.1.2 = ic_EventHistory s.1.2 ++ take k events ∧
    if ok then k = length events ∧ l = handed progress i events
    else (0 < k)%nat ∧ ∃ e, l = handed progress i (take k events) ++ [mkStreamEvent (error_message (describe e)) (Fraction 0 1) (Some e) None].
Proof.
  revert i s l. induction events as [|event events IH]; intros i [[r c] ms] l; simpl.
  { intros [= <- <- <-]. exists 0%nat. simpl. by rewrite app_nil_r. }
  destruct (runtime_processEvent _ _ _ _ _ _) as [[[[err r1] c1] ms1]|] eqn:Hp; simpl; [|done]. apply process_history in Hp.
  destruct err as [e|].
  - intros [= <- <- <-]. exists 1%nat. simpl. rewrite firstn_O. split_and!; [lia|done|lia|]. by exists e.
  - destruct (send_events _ _ _ _ _ _ _) as [[[l1 ok1] s1]|] eqn:Hs; simpl; [|done]. intros [= <- <- <-].
    destruct (IH _ _ _ Hs) as (k & Hk & Hh & Hl). simpl in Hh. exists (S k). rewrite Hp, <-(assoc_L (++)) in Hh.
    split; [simpl; lia|]. split; [exact Hh|]. destruct ok1; [destruct Hl as [-> ->]; done|]. destruct Hl as (Hpos & e & ->).
    split; [lia|]. by exists e.
Qed.

(** A streaming run of an agent that succeeded sends a start, the agent's events in
    order, and at last either the agent's output or, when an event could not be
    processed, the error; an output is sent in no other place.  The events sent are
    in the history of the context a second time. *)
Theorem streaming_run now hs sid iid pid name execute value_of r (ms : Maps * Svc) c0 maps0 out c ms1 l r' c' ms' :
  NewInvocationContext sid iid pid ms.1 = (c0, maps0) → execute c0 (maps0, ms.2) = Some (inr out, c, ms1) →
  RunStreaming now hs sid iid pid name execute value_of r ms = Some (l, (r', c', ms')) →
  ∃ start k last, l = start :: handed (λ i, Fraction (S i) (length (ic_EventHistory c))) 0 (take k (ic_EventHistory c)) ++ [last] ∧
    (k ≤ length (ic_EventHistory c))%nat ∧ st_Final start = None ∧
    ic_EventHistory c' = ic_EventHistory c ++ take k (ic_EventHistory c) ∧
    (st_Final last = Some out ∧ st_Error last = None ∧ k = length (ic_EventHistory c) ∧ ic_TempState c' = ∅ ∨
     st_Final last = None ∧ st_Error last ≠ None ∧ (0 < k)%nat).
Proof.
  intros Hnew Hex. unfold RunStreaming. rewrite Hnew. simpl. rewrite Hex. simpl.
  destruct (send_events _ _ _ _ _ _ _) as [[[l1 ok] [[r1 c1] ms2]]|] eqn:Hs; simpl; [|done].
  destruct (send_events_spec _ _ _ _ _ _ _ _ _ _ Hs) as (k & Hk & Hh & Hl). simpl in Hh. destruct ok; intros [= <- <- <- <-].
  - destruct Hl as [-> ->]. eexists _, (length (ic_EventHistory c)), _. rewrite firstn_all. rewrite firstn_all in Hh.
    split_and!; [done|done|done|done|]. by left.
  - destruct Hl as (Hpos & e & ->). eexists _, k, _. split_and!; [done|done|done|done|]. right. split_and!; [done|done|lia].
Qed.
End Sent.

(** ** Examples *)

Section Examples.
#[local] Instance no_sessions : SessionService unit := {|
  svc_GetSession := λ _ mm, (inr None, mm);
  svc_UpdateSession := λ _ mm, (None, mm);
|}.
#[local] Instance list_order : DeltaOrder.
Proof. refine {| delta_order := map_to_list |}. done. Defined.

(** An agent that writes to the state and emits nothing. *)
Definition writes (c : InvocationContext) (maps : Maps) : option (result Value * InvocationContext * Maps) :=
  Some (inr (VString "done"), ctx_Set "k" (VInt 1) c maps, maps).

(** [Run] commits what it wrote, the streaming run does not; nor is the final
    result it announces ever in the state. *)
Example pending_not_committed :
  (λ x, (x.2 : Maps) !! 0%nat) <$> runtime_Run (Out := Value) "s" "i" "" writes NewAgentRuntime ∅ = Some (Some {["k" := VInt 1]}) ∧
  (λ x, (x.2.2.1 : Maps) !! 0%nat) <$>
    RunStreaming 0 false "s" "i" "" "a" (λ c ms, '(r, c, m) ← writes c ms.1; Some (r, c, (m, ms.2))) id NewAgentRuntime ((∅ : Maps), tt) = Some (Some ∅).
Proof. split; vm_compute; reflexivity. Qed.

(** Events of a generator are twice in the history of the context. *)
Example generated_twice :
  (λ x, length (ic_EventHistory x.2.1.2)) <$>
    RunWithGenerator 0 false "s" "i" "" [message false "a" (VString "hi") None] NewAgentRuntime ((∅ : Maps), tt) = Some 2%nat.
Proof. vm_compute. reflexivity. Qed.
End Examples.
