(* ===== verification/Streams.v ===== *)
(** * Streams of events

    A channel or iterator of pkg/runtime together with the code that feeds it: a
    tree of actions on a world and of elements handed to the consumer.  A Go loop
    over a channel, whose body may send to another channel, change local variables,
    go on or return, is [sloop]: the body is given what comes after it as a
    continuation, and returns by not using it. *)

From stdpp Require Import base list.
From S2P Require Import Prelude.

Inductive Stream (W E : Type) :=
  | SStop
  | SDo (act : W → W) (next : W → Stream W E)   (** [next] of the world before [act] *)
  | SYield (e : E) (k : Stream W E).
Arguments SStop {W E}.
Arguments SDo {W E} act next.
Arguments SYield {W E} e k.

Section Streams.
Context {W : Type}.

(** A call that changes the world and answers. *)
Definition scall {A E} (f : W → A * W) (k : A → Stream W E) : Stream W E := SDo (λ w, (f w).2) (λ w, k (f w).1).
(** A look at the world. *)
Definition sread {A E} (f : W → A) (k : A → Stream W E) : Stream W E := SDo id (λ w, k (f w)).

Fixpoint sloop {A B S} (body : S → A → (S → Stream W B) → Stream W B) (after : S → Stream W B) (s : Stream W A) (acc : S)
    : Stream W B :=
  match s with
  | SStop => after acc
  | SDo act next => SDo act (λ w, sloop body after (next w) acc)
  | SYield a k => body acc a (λ acc, sloop body after k acc)
  end.

(** [for x := range s { output <- x }] *)
Definition sforward {A} (s : Stream W A) (after : Stream W A) : Stream W A :=
  sloop (λ _ a k, SYield a (k tt)) (λ _, after) s tt.

(** A loop over a slice. *)
Fixpoint sfold {A B S} (body : S → A → (S → Stream W B) → Stream W B) (after : S → Stream W B) (l : list A) (acc : S) : Stream W B :=
  match l with
  | [] => after acc
  | a :: l' => body acc a (λ acc, sfold body after l' acc)
  end.

(** A consumer, which may change the world, and says whether it goes on. *)
Fixpoint consume {A S} (body : S → A → W → S * bool * W) (s : Stream W A) (acc : S) (w : W) : S * W :=
  match s with
  | SStop => (acc, w)
  | SDo act next => consume body (next w) acc (act w)
  | SYield a k => let '(acc, go, w) := body acc a w in if go then consume body k acc w else (acc, w)
  end.

(** All elements, for a consumer that leaves the world alone. *)
Fixpoint collect {A} (s : Stream W A) (w : W) : list A * W :=
  match s with
  | SStop => ([], w)
  | SDo act next => collect (next w) (act w)
  | SYield a k => let '(l, w) := collect k w in (a :: l, w)
  end.

Lemma consume_collect {A} (s : Stream W A) acc w :
  consume (λ acc a w, (acc ++ [a], true, w)) s acc w = (acc ++ (collect s w).1, (collect s w).2).
Proof.
  revert acc w. induction s as [|act next IH|a k IH]; intros acc w; simpl.
  - by rewrite app_nil_r.
  - apply IH.
  - rewrite IH, <- app_assoc. by destruct (collect k w).
Qed.

(** Forwarding changes nothing. *)
Lemma collect_forward {A} (s after : Stream W A) w :
  collect (sforward s after) w =
  ((collect s w).1 ++ (collect after (collect s w).2).1, (collect after (collect s w).2).2).
Proof.
  unfold sforward. revert w. induction s as [|act next IH|a k IH]; intros w; simpl.
  - by destruct (collect after w).
  - apply IH.
  - rewrite IH. destruct (collect k w). simpl. done.
Qed.

(** The elements a stream can yield, along any sequence of worlds. *)
Inductive yields_only {A} (P : A → Prop) : Stream W A → Prop :=
  | yields_only_stop : yields_only P SStop
  | yields_only_do act next : (∀ w, yields_only P (next w)) → yields_only P (SDo act next)
  | yields_only_yield a k : P a → yields_only P k → yields_only P (SYield a k).

Lemma yields_only_forward {A} (P : A → Prop) (s after : Stream W A) : yields_only P s → yields_only P after → yields_only P (sforward s after).
Proof.
  intros Hs Ha. unfold sforward. induction Hs as [|act next _ IH|a k Hp _ IH]; simpl; [done| |].
  - constructor. done.
  - constructor; [done|]. apply IH.
Qed.

(** Every action of a stream goes from a world to one that is related to it. *)
Inductive acts {A} (R : W → W → Prop) : Stream W A → Prop :=
  | acts_stop : acts R SStop
  | acts_do act next : (∀ w, R w (act w)) → (∀ w, acts R (next w)) → acts R (SDo act next)
  | acts_yield a k : acts R k → acts R (SYield a k).

Lemma acts_call {A E} (R : W → W → Prop) (f : W → A * W) (k : A → Stream W E) :
  (∀ w, R w (f w).2) → (∀ a, acts R (k a)) → acts R (scall f k).
Proof. intros Hf Hk. by constructor. Qed.

Lemma acts_read {A E} (R : W → W → Prop) `{!Reflexive R} (f : W → A) (k : A → Stream W E) :
  (∀ a, acts R (k a)) → acts R (sread f k).
Proof. intros Hk. constructor; [|by intros w; apply Hk]. intros w. unfold id. reflexivity. Qed.

Lemma acts_loop {A B S} (R : W → W → Prop) (body : S → A → (S → Stream W B) → Stream W B) after (s : Stream W A) :
  acts R s → (∀ acc a k, (∀ acc, acts R (k acc)) → acts R (body acc a k)) → (∀ acc, acts R (after acc)) →
  ∀ acc, acts R (sloop body after s acc).
Proof.
  intros Hs Hb Ha. induction Hs as [|act next Hact _ IH|a k _ IH]; intros acc; simpl; [done| |].
  - constructor; [done|]. intros w. apply IH.
  - apply Hb. apply IH.
Qed.

Lemma acts_forward {A} (R : W → W → Prop) (s after : Stream W A) : acts R s → acts R after → acts R (sforward s after).
Proof. intros Hs Ha. apply acts_loop; [done| |done]. intros acc a k Hk. by constructor. Qed.

Lemma acts_fold {A B S} (R : W → W → Prop) (body : S → A → (S → Stream W B) → Stream W B) after (l : list A) :
  (∀ acc a k, a ∈ l → (∀ acc, acts R (k acc)) → acts R (body acc a k)) → (∀ acc, acts R (after acc)) →
  ∀ acc, acts R (sfold body after l acc).
Proof.
  induction l as [|a l IH]; intros Hb Ha acc; simpl; [done|]. apply Hb; [by left|]. apply IH; [|done].
  intros acc' x k Hx. apply Hb. by right.
Qed.

Lemma acts_weaken {A} (R R' : W → W → Prop) (s : Stream W A) : (∀ w w', R w w' → R' w w') → acts R s → acts R' s.
Proof. intros Hr. induction 1; constructor; auto. Qed.

(** Every action of a stream, in a world where [I] holds, keeps it. *)
Inductive keeps {A} (I : W → Prop) : Stream W A → Prop :=
  | keeps_stop : keeps I SStop
  | keeps_do act next : (∀ w, I w → I (act w)) → (∀ w, I w → keeps I (next w)) → keeps I (SDo act next)
  | keeps_yield a k : keeps I k → keeps I (SYield a k).

Lemma keeps_call {A E} (I : W → Prop) (f : W → A * W) (k : A → Stream W E) :
  (∀ w, I w → I (f w).2) → (∀ a, keeps I (k a)) → keeps I (scall f k).
Proof. intros Hf Hk. by constructor. Qed.

Lemma keeps_loop {A B S} (I : W → Prop) (body : S → A → (S → Stream W B) → Stream W B) after (s : Stream W A) :
  keeps I s → (∀ acc a k, (∀ acc, keeps I (k acc)) → keeps I (body acc a k)) → (∀ acc, keeps I (after acc)) →
  ∀ acc, keeps I (sloop body after s acc).
Proof.
  intros Hs Hb Ha. induction Hs as [|act next Hact _ IH|a k _ IH]; intros acc; simpl; [done| |].
  - constructor; [done|]. intros w Hw. by apply IH.
  - apply Hb. apply IH.
Qed.

Lemma keeps_forward {A} (I : W → Prop) (s after : Stream W A) : keeps I s → keeps I after → keeps I (sforward s after).
Proof. intros Hs Ha. apply keeps_loop; [done| |done]. intros acc a k Hk. by constructor. Qed.

Lemma keeps_fold {A B S} (I : W → Prop) (body : S → A → (S → Stream W B) → Stream W B) after (l : list A) :
  (∀ acc a k, a ∈ l → (∀ acc, keeps I (k acc)) → keeps I (body acc a k)) → (∀ acc, keeps I (after acc)) →
  ∀ acc, keeps I (sfold body after l acc).
Proof.
  induction l as [|a l IH]; intros Hb Ha acc; simpl; [done|]. apply Hb; [by left|]. apply IH; [|done].
  intros acc' x k Hx. apply Hb. by right.
Qed.

Lemma acts_keeps {A} (R : W → W → Prop) (I : W → Prop) (s : Stream W A) :
  (∀ w w', R w w' → I w → I w') → acts R s → keeps I s.
Proof. intros Hr. induction 1; constructor; eauto. Qed.

Lemma acts_collect {A} (R : W → W → Prop) `{!PreOrder R} (s : Stream W A) : acts R s → ∀ w, R w (collect s w).2.
Proof.
  induction 1 as [|act next Hact _ IH|a k _ IH]; intros w; simpl; [reflexivity| |].
  - etrans; [apply Hact|apply IH].
  - specialize (IH w). by destruct (collect k w).
Qed.

End Streams.
