(* ===== verification/AsyncRuntime.v ===== *)
(** * The asynchronous runtimes (pkg/runtime/async_runtime.go)

    Agents yield events to a runtime that logs them, commits the changes they
    carry, saves the session and hands them on.  Agents are streams over a world
    ([RtWorld]) they share with the runtime.  Agent and runtime are two goroutines:
    [rt_step] interleaves the actions of the agent with each call the runtime makes
    on the shared context, for both runtimes; in the synchronous one the agent
    waits for an acknowledgement after each event.  The goroutines inside an agent
    (a stage that forwards the events of another) take turns: a stage runs when the
    next one asks.  Ids, times, branches and lineage of events are left out. *)

From stdpp Require Import base gmap strings list fin_maps relations pretty.
From S2P Require Import Prelude Etcd Invocation Streams.

Open Scope Z_scope.

(** ** Events *)

Record FunctionCall := mkFunctionCall { fc_ID : string; fc_Name : string; fc_Args : gmap string Value }.
Record FunctionResponse := mkFunctionResponse { fr_Name : string; fr_Response : Value; fr_Error : string }.
Record Part := mkPart { pt_Text : string; pt_FunctionCall : option FunctionCall; pt_FunctionResponse : option FunctionResponse }.
Record Content := mkContent { ct_Role : string; ct_Parts : list Part }.
Record UsageMetadata := mkUsage { um_PromptTokens : Z; um_CompletionTokens : Z; um_TotalTokens : Z }.

Record LlmResponse := mkResponse {
  lr_Content : option Content;
  lr_Partial : bool;
  lr_ErrorCode : string;
  lr_ErrorMessage : string;
  lr_TurnComplete : bool;
  lr_Interrupted : bool;
  lr_UsageMetadata : option UsageMetadata;
}.

Inductive AsyncContent :=
  | AcValue (v : Value)
  | AcTexts (l : list string)
  | AcResponse (r : LlmResponse)
  | AcFunctionResponses (l : list FunctionResponse).

Inductive MetaItem := MtValue (v : Value) | MtUsage (u : UsageMetadata).

Record ArtifactDelta := mkArtifactDelta { ad_Created : list string; ad_Updated : list string; ad_Deleted : list string }.

Record EventActions := mkActions {
  ea_StateDelta : option (gmap string Value);
  ea_ArtifactDelta : option ArtifactDelta;
  ea_TransferToAgent : string;
  ea_Escalate : bool;
  ea_SkipSummarization : bool;
}.
Definition no_actions : EventActions := mkActions None None "" false false.

Record AsyncEvent := mkAsyncEvent {
  ae_InvocationID : string;
  ae_Author : string;
  ae_Type : RtEventType;
  ae_Content : AsyncContent;
  ae_Partial : bool;
  ae_Actions : option EventActions;
  ae_Metadata : option (gmap string MetaItem);
  ae_Error : option error;
  ae_Shared : bool;   (** the metadata and the state delta are one map *)
}.

Definition NewAsyncEvent (t : RtEventType) (content : AsyncContent) (author : string) : AsyncEvent :=
  mkAsyncEvent "" author t content false (Some no_actions) None None false.

Definition set_InvocationID (id : string) (e : AsyncEvent) : AsyncEvent :=
  mkAsyncEvent id (ae_Author e) (ae_Type e) (ae_Content e) (ae_Partial e) (ae_Actions e) (ae_Metadata e) (ae_Error e) (ae_Shared e).
Definition set_Actions (a : option EventActions) (e : AsyncEvent) : AsyncEvent :=
  mkAsyncEvent (ae_InvocationID e) (ae_Author e) (ae_Type e) (ae_Content e) (ae_Partial e) a (ae_Metadata e) (ae_Error e) false.
Definition set_Metadata (m : option (gmap string MetaItem)) (e : AsyncEvent) : AsyncEvent :=
  mkAsyncEvent (ae_InvocationID e) (ae_Author e) (ae_Type e) (ae_Content e) (ae_Partial e) (ae_Actions e) m (ae_Error e) false.
Definition set_Error (err : option error) (e : AsyncEvent) : AsyncEvent :=
  mkAsyncEvent (ae_InvocationID e) (ae_Author e) (ae_Type e) (ae_Content e) (ae_Partial e) (ae_Actions e) (ae_Metadata e) err (ae_Shared e).

Definition WithStateDelta (delta : option (gmap string Value)) (e : AsyncEvent) : AsyncEvent :=
  let a := default no_actions (ae_Actions e) in
  set_Actions (Some (mkActions delta (ea_ArtifactDelta a) (ea_TransferToAgent a) (ea_Escalate a) (ea_SkipSummarization a))) e.
Definition WithPartial (partial : bool) (e : AsyncEvent) : AsyncEvent :=
  mkAsyncEvent (ae_InvocationID e) (ae_Author e) (ae_Type e) (ae_Content e) partial (ae_Actions e) (ae_Metadata e) (ae_Error e) (ae_Shared e).

Definition IsFinalResponse (e : AsyncEvent) : bool := bool_decide (ae_Type e = EventTypeMessage) && negb (ae_Partial e).

(** [event.Metadata[key] = v], in a map that is made if there is none. *)
Definition with_meta (key : string) (v : Value) (e : AsyncEvent) : AsyncEvent :=
  let metadata := Some (<[key := MtValue v]> (default ∅ (ae_Metadata e))) in
  let actions :=
    if ae_Shared e then
      (λ a, mkActions (<[key := v]> <$> ea_StateDelta a) (ea_ArtifactDelta a) (ea_TransferToAgent a) (ea_Escalate a)
              (ea_SkipSummarization a)) <$> ae_Actions e
    else ae_Actions e in
  mkAsyncEvent (ae_InvocationID e) (ae_Author e) (ae_Type e) (ae_Content e) (ae_Partial e) actions metadata (ae_Error e) (ae_Shared e).

Definition error_event (err : error) (author : string) : AsyncEvent :=
  set_Error (Some err) (NewAsyncEvent EventTypeError (AcValue (VString (Error err))) author).

Definition max_steps_event (author : string) (step : Z) : AsyncEvent :=
  set_Metadata (Some {["max_steps_reached" := MtValue (VBool true); "steps_executed" := MtValue (VInt step)]})
    (NewAsyncEvent EventTypeMessage (AcValue (VString "Maximum steps reached")) author).

Definition state_delta (e : AsyncEvent) : gmap string Value := default ∅ (ae_Actions e ≫= ea_StateDelta).

(** ** Agents *)

(** What agent and runtime share: the context, the maps, the session service; the
    error of the Go context once it is done; the clock; whatever else there is. *)
Record RtWorld (Svc Env : Type) := mkRtWorld {
  rw_ctx : InvocationContext;
  rw_maps : gmap nat (gmap string Value);
  rw_svc : Svc;
  rw_done : option error;
  rw_now : Time;
  rw_env : Env;
}.
Arguments mkRtWorld {Svc Env}.
Arguments rw_ctx {Svc Env}.
Arguments rw_maps {Svc Env}.
Arguments rw_svc {Svc Env}.
Arguments rw_done {Svc Env}.
Arguments rw_now {Svc Env}.
Arguments rw_env {Svc Env}.

Section Agents.
Context {Svc Env : Type}.
Local Notation World := (RtWorld Svc Env).
Local Notation EvStream := (Stream World AsyncEvent).

Definition put_ctx (c : InvocationContext) (w : World) : World :=
  mkRtWorld c (rw_maps w) (rw_svc w) (rw_done w) (rw_now w) (rw_env w).
Definition put_maps (m : gmap nat (gmap string Value)) (w : World) : World :=
  mkRtWorld (rw_ctx w) m (rw_svc w) (rw_done w) (rw_now w) (rw_env w).
Definition put_env (x : Env) (w : World) : World :=
  mkRtWorld (rw_ctx w) (rw_maps w) (rw_svc w) (rw_done w) (rw_now w) x.

Record AsyncAgent := mkAsyncAgent { aa_Name : string; aa_Run : EvStream }.

(** [select { case <-ctx.Done(): an error event, and return; default: }] *)
Definition check_done (author : string) (k : EvStream) : EvStream :=
  sread rw_done (λ d, match d with Some err => SYield (error_event err author) SStop | None => k end).

(** The loop over steps, [left] of them to go: each step's events, the last of
    which decides whether another step follows. *)
Fixpoint step_loop (author : string) (oneStep : EvStream) (left : nat) (step : Z) : EvStream :=
  match left with
  | O => SYield (max_steps_event author step) SStop
  | S left' =>
      let step := step + 1 in
      sloop (λ _ event k,
               let event := with_meta "step" (VInt step) event in
               SYield event (match ae_Error event with Some _ => SStop | None => k (Some event) end))
            (λ lastEvent, match lastEvent with
                          | None => SStop
                          | Some event =>
                              if IsFinalResponse event then SStop else check_done author (step_loop author oneStep left' step)
                          end)
            oneStep None
  end.

(** [LLMAsyncAgent.RunAsync] with a step executor. *)
Definition llm_RunAsync (name : string) (executor : EvStream) (maxSteps : Z) : EvStream :=
  SDo (λ w, put_ctx (set_AgentName name (rw_ctx w)) w) (λ _, step_loop name executor (Z.to_nat maxSteps) 0).

(** [SimpleAsyncAgent.RunAsync]: the function answers a result with metadata, which
    become the metadata and the state delta of the event, one map. *)
Definition simple_RunAsync (name : string) (executeFn : World → result (Value * option (gmap string Value)) * World) : EvStream :=
  scall executeFn (λ r,
    match r with
    | inl err => SYield (error_event err name) SStop
    | inr (v, metadata) =>
        SYield (match metadata with
                | Some m => mkAsyncEvent "" name EventTypeMessage (AcValue v) false (Some (mkActions (Some m) None "" false false))
                              (Some (fmap (M:=gmap string) MtValue m)) None true
                | None => NewAsyncEvent EventTypeMessage (AcValue v) name
                end) SStop
    end).

Definition start_event (i : nat) (agentName name : string) : AsyncEvent :=
  WithPartial true (NewAsyncEvent EventTypeStateChange
    (AcValue (VString ("Starting agent " +:+ pretty (Z.of_nat i + 1) +:+ ": " +:+ agentName))) name).

(** [SequentialAsyncAgent.RunAsync], from agent [i] on. *)
Fixpoint seq_RunAsync (name : string) (i : nat) (agents : list AsyncAgent) : EvStream :=
  match agents with
  | [] => SStop
  | ag :: agents' =>
      SYield (start_event i (aa_Name ag) name)
        (sloop (λ _ event k,
                  let event := with_meta "sequential_agent" (VString (aa_Name ag)) (with_meta "sequential_step" (VInt (Z.of_nat i + 1)) event) in
                  SYield event (match ae_Error event with Some _ => SStop | None => k tt end))
               (λ _, check_done name (seq_RunAsync name (S i) agents'))
               (aa_Run ag) tt)
  end.

(** [GetFinalEvent], [CollectEvents]. *)
Definition GetFinalEvent (events : list AsyncEvent) : option AsyncEvent := last (filter (λ e, ae_Partial e = false) events).
Definition CollectEvents (s : EvStream) (w : World) : list AsyncEvent * World := collect s w.

End Agents.

Arguments AsyncAgent : clear implicits.

(** ** The runtimes *)

Section Runner.
Context {Svc Env : Type} `{SessionService Svc}.
Local Notation World := (RtWorld Svc Env).
Local Notation EvStream := (Stream World AsyncEvent).

Record RunnerConfig := mkRunner {
  rn_sync : bool;                          (** [SyncAgentRuntime] *)
  rn_sessions : bool;                      (** there is a session service *)
  rn_maxEvents : Z;
  rn_shouldPause : AsyncEvent → bool;
}.

(** Where the agent is: running, or waiting for the acknowledgement of its event. *)
Inductive AgentPc := Running (s : EvStream) | Awaiting (s : EvStream).

(** Where the runtime is, with the event it has in hand. *)
Inductive RunnerPc :=
  | Receiving
  | Logging (e : AsyncEvent)
  | Setting (e : AsyncEvent) (rest : list (string * Value))
  | Committing (e : AsyncEvent)
  | Persisting (e : AsyncEvent)
  | Processed (e : AsyncEvent) (err : option error)
  | Forwarding (e : AsyncEvent)
  | Failing (err : error)
  | Checking (e : AsyncEvent)
  | Returned
  | Panicked.

(** [rt_yielded], [rt_at]: the events the agent has yielded, and the world when it
    yielded the last one. *)
Record RtState := mkRtState {
  rt_agent : AgentPc;
  rt_runner : RunnerPc;
  rt_world : World;
  rt_log : list AsyncEvent;
  rt_output : list AsyncEvent;
  rt_yielded : list AsyncEvent;
  rt_at : World;
}.

(** Loading the session before the agent starts. *)
Definition load_session (cfg : RunnerConfig) (w : World) : World :=
  if rn_sessions cfg then
    let '(r, (maps, svc)) := svc_GetSession (ic_SessionID (rw_ctx w)) (rw_maps w, rw_svc w) in
    let w := mkRtWorld (rw_ctx w) maps svc (rw_done w) (rw_now w) (rw_env w) in
    match r with
    | inr (Some session) => put_ctx (set_State (rs_State session) (rw_ctx w)) w
    | _ => w
    end
  else w.

Definition persist (w : World) : option error * World :=
  let '(err, (maps, svc)) := svc_UpdateSession (session_of (rw_now w) (rw_ctx w) []) (rw_maps w, rw_svc w) in
  (err, mkRtWorld (rw_ctx w) maps svc (rw_done w) (rw_now w) (rw_env w)).

Definition rt_start (cfg : RunnerConfig) (agent : EvStream) (w : World) : RtState :=
  let w := load_session cfg w in mkRtState (Running agent) Receiving w [] [] [] w.

(** After the event was processed the agent of the synchronous runtime goes on. *)
Definition acknowledge (cfg : RunnerConfig) (a : AgentPc) : AgentPc :=
  match a with Awaiting s => if rn_sync cfg then Running s else a | _ => a end.

Inductive rt_step (cfg : RunnerConfig) : RtState → RtState → Prop :=
  | step_agent act next pc w log out ys w0 :
      rt_step cfg (mkRtState (Running (SDo act next)) pc w log out ys w0) (mkRtState (Running (next w)) pc (act w) log out ys w0)
  | step_receive e k w log out ys w0 :
      rt_step cfg (mkRtState (Running (SYield e k)) Receiving w log out ys w0)
        (mkRtState (if rn_sync cfg then Awaiting k else Running k) (Logging (set_InvocationID (ic_InvocationID (rw_ctx w)) e))
           w log out (ys ++ [e]) w)
  | step_closed w log out ys w0 :
      rt_step cfg (mkRtState (Running SStop) Receiving w log out ys w0) (mkRtState (Running SStop) Returned w log out ys w0)
  | step_log a e l w log out ys w0 :
      l ≡ₚ map_to_list (state_delta e) →
      rt_step cfg (mkRtState a (Logging e) w log out ys w0)
        (mkRtState a (match log_append (rn_maxEvents cfg) e log with Some _ => Setting e l | None => Panicked end) w
           (default log (log_append (rn_maxEvents cfg) e log)) out ys w0)
  | step_set a e k v rest w log out ys w0 :
      rt_step cfg (mkRtState a (Setting e ((k, v) :: rest)) w log out ys w0)
        (mkRtState a (Setting e rest) (put_ctx (ctx_Set k v (rw_ctx w) (rw_maps w)) w) log out ys w0)
  | step_set_done a e w log out ys w0 :
      rt_step cfg (mkRtState a (Setting e []) w log out ys w0)
        (mkRtState a (if ae_Partial e then Processed e None else Committing e) w log out ys w0)
  | step_commit a e w log out ys w0 :
      rt_step cfg (mkRtState a (Committing e) w log out ys w0)
        match CommitStateDeltas (rw_ctx w) (rw_maps w) with
        | Some (c, maps) => mkRtState a (Persisting e) (put_maps maps (put_ctx c w)) log out ys w0
        | None => mkRtState a Panicked w log out ys w0
        end
  | step_persist a e w log out ys w0 :
      rt_step cfg (mkRtState a (Persisting e) w log out ys w0)
        (if rn_sessions cfg then
           mkRtState a (Processed e ((λ err, EWrap "failed to persist session: " err "") <$> (persist w).1)) (persist w).2 log out ys w0
         else mkRtState a (Processed e None) w log out ys w0)
  | step_processed a e err w log out ys w0 :
      rt_step cfg (mkRtState a (Processed e err) w log out ys w0)
        (mkRtState (acknowledge cfg a) (match err with Some x => Failing x | None => Forwarding e end) w log out ys w0)
  | step_forward a e w log out ys w0 :
      rt_step cfg (mkRtState a (Forwarding e) w log out ys w0) (mkRtState a (Checking e) w log (out ++ [e]) ys w0)
  | step_fail a err w log out ys w0 :
      rt_step cfg (mkRtState a (Failing err) w log out ys w0)
        (mkRtState a Returned w log (out ++ [error_event err "runtime"]) ys w0)
  | step_check a e w log out ys w0 :
      rt_step cfg (mkRtState a (Checking e) w log out ys w0)
        (mkRtState a
           (if rn_shouldPause cfg e then Returned
            else if IsFinalResponse e then Returned
            else match rw_done w with Some err => Failing err | None => Receiving end) w log out ys w0)
  | step_cancel a pc err c maps svc now env log out ys w0 :
      rt_step cfg (mkRtState a pc (mkRtWorld c maps svc None now env) log out ys w0)
        (mkRtState a pc (mkRtWorld c maps svc (Some err) now env) log out ys w0)
  | step_clock a pc now' c maps svc d now env log out ys w0 :
      rt_step cfg (mkRtState a pc (mkRtWorld c maps svc d now env) log out ys w0)
        (mkRtState a pc (mkRtWorld c maps svc d now' env) log out ys w0).

Definition rt_reachable (cfg : RunnerConfig) (agent : EvStream) (w : World) (s : RtState) : Prop :=
  rtc (rt_step cfg) (rt_start cfg agent w) s.

End Runner.

Arguments RtState : clear implicits.
Arguments RunnerConfig : clear implicits.

(** ** Events are handed on in order *)

Section Order.
Context {Svc Env : Type} `{SessionService Svc}.
Local Notation World := (RtWorld Svc Env).

Definition unnamed (e : AsyncEvent) : AsyncEvent := set_InvocationID "" e.

Lemma unnamed_set id e : unnamed (set_InvocationID id e) = unnamed e.
Proof. done. Qed.

(** After this event the runtime asks for another. *)
Definition goes_on_after (cfg : RunnerConfig) (e : AsyncEvent) : Prop := rn_shouldPause cfg e = false ∧ IsFinalResponse e = false.

(** The event the runtime has in hand, and whether it is in the log. *)
Definition in_hand (pc : RunnerPc) : option AsyncEvent :=
  match pc with
  | Logging e | Setting e _ | Committing e | Persisting e | Processed e _ | Forwarding e => Some e
  | _ => None
  end.

(** The events handed on are those that were yielded, but for one that is in hand
    or failed, and for an error at the end. *)
Definition handed_on (pc : RunnerPc) (out ys : list AsyncEvent) : Prop :=
  match pc with
  | Receiving => out = ys
  | Checking e => out = ys ∧ last ys = Some (unnamed e)
  | Failing _ | Panicked => out = ys ∨ ∃ x, ys = out ++ [x]
  | Returned =>
      out = ys ∨ ∃ err front, out = front ++ [unnamed (error_event err "runtime")] ∧ (front = ys ∨ ∃ x, ys = front ++ [x])
  | _ => ∃ e, in_hand pc = Some e ∧ ys = out ++ [unnamed e]
  end.

Definition all_but_last (P : AsyncEvent → Prop) (l : list AsyncEvent) : Prop := ∀ front x, l = front ++ [x] → Forall P front.

Record rt_ordered (cfg : RunnerConfig) (s : RtState Svc Env) : Prop := {
  ro_output : handed_on (rt_runner s) (unnamed <$> rt_output s) (unnamed <$> rt_yielded s);
  ro_stops : match rt_runner s with
             | Checking e => ∃ front, rt_output s = front ++ [e] ∧ Forall (goes_on_after cfg) front
             | Returned => all_but_last (goes_on_after cfg) (rt_output s)
             | _ => Forall (goes_on_after cfg) (rt_output s)
             end;
  ro_log : unnamed <$> rt_log s =
           last_n (Z.to_nat (rn_maxEvents cfg))
             (unnamed <$> match rt_runner s with Logging _ => removelast (rt_yielded s) | _ => rt_yielded s end);
}.

Lemma removelast_snoc {A} (l : list A) x : removelast (l ++ [x]) = l.
Proof. apply removelast_last. Qed.

Lemma all_but_last_snoc P l x : Forall P l → all_but_last P (l ++ [x]).
Proof. intros Hl front y Heq. apply app_inj_tail in Heq as [-> _]. done. Qed.

Lemma all_but_last_all P l : Forall P l → all_but_last P l.
Proof. intros Hl front x ->. by apply Forall_app in Hl as [? _]. Qed.

(** The log gets the event that was received last. *)
Lemma log_received cfg e log ys :
  0 ≤ rn_maxEvents cfg → ∀ out, unnamed <$> ys = out ++ [unnamed e] →
  unnamed <$> log = last_n (Z.to_nat (rn_maxEvents cfg)) (unnamed <$> removelast ys) →
  ∃ log', log_append (rn_maxEvents cfg) e log = Some log' ∧ unnamed <$> log' = last_n (Z.to_nat (rn_maxEvents cfg)) (unnamed <$> ys).
Proof.
  intros Hmax out Hys Hlog. rewrite log_append_spec by done. eexists. split; [done|].
  assert (∃ ys' y, ys = ys' ++ [y]) as (ys' & y & ->).
  { destruct ys as [|z zs] using rev_ind; [by destruct out|]. eauto. }
  rewrite removelast_snoc in Hlog. rewrite fmap_app in Hys. apply app_inj_tail in Hys as [_ Hy].
  unfold last_n at 1. rewrite fmap_drop, fmap_app, Hlog, fmap_app. simpl. rewrite Hy.
  rewrite <- (last_n_last_n (Z.to_nat (rn_maxEvents cfg)) (unnamed <$> ys') [unnamed e]). unfold last_n at 2.
  f_equal. rewrite !length_app. f_equal. f_equal. rewrite <- Hlog. by rewrite length_fmap.
Qed.

Lemma rt_step_ordered cfg s s' : 0 ≤ rn_maxEvents cfg → rt_step cfg s s' → rt_ordered cfg s → rt_ordered cfg s'.
Proof.
  intros Hmax Hs [Ho Hst Hl]. destruct Hs; simpl in *.
  - by constructor.
  - constructor; simpl; [|done|by rewrite removelast_snoc].
    eexists. split; [done|]. rewrite fmap_app, unnamed_set. simpl. by rewrite Ho.
  - constructor; simpl; [by left|by apply all_but_last_all|done].
  - destruct Ho as (e' & [= <-] & Ho). destruct (log_received cfg e log ys Hmax _ Ho Hl) as (log' & -> & Hl'). constructor; simpl; eauto.
  - destruct Ho as (e' & [= <-] & Ho). constructor; simpl; eauto.
  - destruct Ho as (e' & [= <-] & Ho). constructor; simpl; destruct (ae_Partial e); simpl; eauto.
  - destruct Ho as (e' & [= <-] & Ho). destruct (CommitStateDeltas _ _) as [[c maps]|]; constructor; simpl; eauto.
  - destruct Ho as (e' & [= <-] & Ho). destruct (rn_sessions cfg); constructor; simpl; eauto.
  - destruct Ho as (e' & [= <-] & Ho). constructor; simpl; destruct err; simpl; eauto.
  - destruct Ho as (e' & [= <-] & Ho). constructor; simpl; [|by eexists|done].
    rewrite fmap_app. simpl. rewrite Ho. split; [done|]. by rewrite last_snoc.
  - constructor; simpl; [|by apply all_but_last_snoc|done]. right. eexists err, _. rewrite fmap_app. split; [done|].
    destruct Ho as [Ho|[x Ho]]; [by left|right; by eexists].
  - destruct Ho as [Ho _]. destruct Hst as (front & -> & Hfr). destruct (rn_shouldPause cfg e) eqn:Hp; simpl.
    { constructor; simpl; [by left|by apply all_but_last_snoc|done]. }
    destruct (IsFinalResponse e) eqn:Hf; simpl.
    { constructor; simpl; [by left|by apply all_but_last_snoc|done]. }
    assert (Forall (goes_on_after cfg) (front ++ [e])) by (apply Forall_app; split; [done|by repeat constructor]).
    destruct (rw_done w); constructor; simpl; try done. by left.
  - by constructor.
  - by constructor.
Qed.

(** C34. The events of both runtimes: what the caller receives is what the agent
    yielded, in that order, with at most the last one missing and an error at the
    end instead; nothing comes after a final response or one that pauses; the log
    holds the last events that were received, as many as its bound. *)
Theorem events_in_order cfg agent (w : World) s :
  0 ≤ rn_maxEvents cfg → rt_reachable cfg agent w s → rt_ordered cfg s.
Proof.
  intros Hmax Hrun. unfold rt_reachable in Hrun. remember (rt_start cfg agent w) as s0 eqn:Hs0.
  assert (rt_ordered cfg s0) as H0.
  { subst. constructor; simpl; [done|constructor|]. unfold last_n. by rewrite drop_nil. }
  clear Hs0.
  induction Hrun as [|x y z Hxy _ IH]; [done|]. apply IH. by eapply rt_step_ordered.
Qed.

End Order.

(** ** What a run keeps *)

Section Keeps.
Context {Svc Env : Type} `{SessionService Svc}.
Local Notation World := (RtWorld Svc Env).

Definition agent_stream (a : @AgentPc Svc Env) : Stream World AsyncEvent := match a with Running s | Awaiting s => s end.

(** What the runtime itself never changes. *)
Definition same_counts (w w' : World) : Prop :=
  ic_RunConfig (rw_ctx w') = ic_RunConfig (rw_ctx w) ∧ ic_LLMCallCount (rw_ctx w') = ic_LLMCallCount (rw_ctx w) ∧ rw_env w' = rw_env w.

#[export] Instance same_counts_preorder : PreOrder same_counts.
Proof. split; unfold same_counts; [by intros w|]. intros x y z (-> & -> & ->) (-> & -> & ->). done. Qed.

Lemma rt_step_keeps cfg (s s' : RtState Svc Env) (I : World → Prop) :
  (∀ w w', same_counts w w' → I w → I w') → rt_step cfg s s' →
  keeps I (agent_stream (rt_agent s)) ∧ I (rt_world s) → keeps I (agent_stream (rt_agent s')) ∧ I (rt_world s').
Proof.
  intros HI Hs [Ha Hw].
  assert (∀ a', keeps I (agent_stream a') ∧ same_counts (rt_world s) (rt_world s') →
    keeps I (agent_stream a') ∧ I (rt_world s')) as Hsame by (intros a' [? ?]; eauto).
  destruct Hs; simpl in *; try (by split); try (apply Hsame; split; done).
  - inversion Ha as [|? ? Hact Hnext|]; subst. auto.
  - inversion Ha as [| |? ? Hk]; subst. apply Hsame. by destruct (rn_sync cfg).
  - apply Hsame. split; [done|]. unfold ctx_Set. case_match; done.
  - apply Hsame. unfold CommitStateDeltas. destruct (ic_StateDeltas (rw_ctx w)), (ic_State (rw_ctx w)) as [l'|]; simpl;
      try done. by destruct (rw_maps w !! l').
  - apply Hsame. destruct (rn_sessions cfg); simpl; [|done]. split; [done|]. unfold persist.
    by destruct (svc_UpdateSession _ _) as [err' [maps svc]].
  - apply Hsame. unfold acknowledge. by destruct a, (rn_sync cfg).
Qed.

(** What every action of the agent keeps, and does not depend on what the runtime
    changes, holds throughout a run. *)
Lemma rt_reachable_keeps cfg agent (w : World) s (I : World → Prop) :
  (∀ w w', same_counts w w' → I w → I w') → keeps I agent →
  I w → rt_reachable cfg agent w s → I (rt_world s).
Proof.
  intros HI Ha Hw Hrun. unfold rt_reachable in Hrun. remember (rt_start cfg agent w) as s0 eqn:Hs0.
  assert (keeps I (agent_stream (rt_agent s0)) ∧ I (rt_world s0)) as Hst.
  { subst. split; [done|]. simpl. apply (HI w); [|done]. unfold load_session. destruct (rn_sessions cfg); [|done].
    destruct (svc_GetSession _ _) as [[e|[session|]] [maps svc]]; done. }
  clear Hs0. induction Hrun as [|x y z Hxy _ IH]; [by destruct Hst|]. apply IH. by eapply rt_step_keeps.
Qed.

End Keeps.

(** ** The synchronous runtime *)

(** Saving a session changes no state map. *)
Class SessionServiceLaws (Svc : Type) `{SessionService Svc} :=
  svc_update_maps session maps svc : (svc_UpdateSession session (maps, svc)).2.1 = maps.

Section Sync.
Context {Svc Env : Type} `{SessionServiceLaws Svc}.
Local Notation World := (RtWorld Svc Env).

(** The worlds differ in what was set, [l], only. *)
Definition only_set (l : list (string * Value)) (w0 w : World) : Prop :=
  rw_ctx w = set_all l (rw_maps w0) (rw_ctx w0) ∧ rw_maps w = rw_maps w0 ∧ rw_env w = rw_env w0.
(** ... and was committed. *)
Definition and_committed (l : list (string * Value)) (w0 w : World) : Prop :=
  CommitStateDeltas (set_all l (rw_maps w0) (rw_ctx w0)) (rw_maps w0) = Some (rw_ctx w, rw_maps w) ∧ rw_env w = rw_env w0.

Definition entries_of (e : AsyncEvent) (l : list (string * Value)) : Prop := l ≡ₚ map_to_list (state_delta e).

Definition awaiting (a : @AgentPc Svc Env) : Prop := match a with Awaiting _ => True | Running _ => False end.

Definition sync_phase (s : RtState Svc Env) : Prop :=
  match rt_runner s with
  | Logging e => awaiting (rt_agent s) ∧ only_set [] (rt_at s) (rt_world s)
  | Setting e rest => awaiting (rt_agent s) ∧ ∃ l, entries_of e (l ++ rest) ∧ only_set l (rt_at s) (rt_world s)
  | Committing e => awaiting (rt_agent s) ∧ ae_Partial e = false ∧ ∃ l, entries_of e l ∧ only_set l (rt_at s) (rt_world s)
  | Persisting e => awaiting (rt_agent s) ∧ ae_Partial e = false ∧ ∃ l, entries_of e l ∧ and_committed l (rt_at s) (rt_world s)
  | Processed e err =>
      awaiting (rt_agent s) ∧ ∃ l, entries_of e l ∧
        if ae_Partial e then only_set l (rt_at s) (rt_world s) else and_committed l (rt_at s) (rt_world s)
  | Panicked => True
  | _ => ¬ awaiting (rt_agent s)
  end.

Lemma persist_same w : rw_ctx (persist w).2 = rw_ctx w ∧ rw_maps (persist w).2 = rw_maps w ∧ rw_env (persist w).2 = rw_env (w : World).
Proof.
  unfold persist. pose proof (svc_update_maps (session_of (rw_now w) (rw_ctx w) []) (rw_maps w) (rw_svc w)) as Hm.
  destruct (svc_UpdateSession _ _) as [err [maps svc]]. simpl in *. done.
Qed.

Lemma rt_step_sync cfg s s' : rn_sync cfg = true → rt_step cfg s s' → sync_phase s → sync_phase s'.
Proof.
  intros Hsync Hs Hp. destruct Hs; unfold sync_phase in *; simpl in *.
  - destruct pc; simpl in *; try done; by destruct Hp as [[] _].
  - rewrite Hsync. simpl. split; [done|]. by split.
  - done.
  - destruct Hp as [Ha Hw]. destruct (log_append _ _ _); [|done]. split; [done|]. exists []. by split.
  - destruct Hp as (Ha & l & Hl & Hc & Hm & He). split; [done|]. exists (l ++ [(k, v)]). split; [by rewrite <- app_assoc|].
    split; simpl; [|done]. unfold set_all in *. rewrite foldl_app. simpl. by rewrite <- Hc, Hm.
  - destruct Hp as (Ha & l & Hl & Hw). rewrite app_nil_r in Hl. destruct (ae_Partial e) eqn:Hpa; simpl; eauto 6.
    split; [done|]. rewrite Hpa. eauto.
  - destruct Hp as (Ha & Hpa & l & Hl & Hc & Hm & He). destruct (CommitStateDeltas (rw_ctx w) (rw_maps w)) as [[c maps]|] eqn:Hco; [|done].
    simpl. split; [done|]. split; [done|]. exists l. split; [done|]. split; simpl; [|done]. by rewrite <- Hc, <- Hm.
  - destruct Hp as (Ha & Hpa & l & Hl & Hw). destruct (rn_sessions cfg); simpl; (split; [done|]; exists l; rewrite Hpa; split; [done|]); [|done].
    destruct (persist_same w) as (H1 & H2 & H3). unfold and_committed. by rewrite H1, H2, H3.
  - destruct Hp as [Ha _]. destruct a; [done|]. simpl. rewrite Hsync. destruct err; simpl; tauto.
  - done.
  - done.
  - destruct (rn_shouldPause cfg e); [done|]. destruct (IsFinalResponse e); [done|]. by destruct (rw_done w).
  - exact Hp.
  - exact Hp.
Qed.

(** C16. An agent of the synchronous runtime that is one goroutine: until an event is
    processed it does nothing, and nobody else changes what it sees: when it goes on after a yield, it sees
    the changes its event carries and else what it saw before; and if the event was
    not partial, all of it but for temporary keys is committed. *)
Theorem sync_yield cfg agent (w : World) s e err :
  rn_sync cfg = true → rt_reachable cfg agent w s → rt_runner s = Processed e err →
  awaiting (rt_agent s) ∧ rw_env (rt_world s) = rw_env (rt_at s) ∧
  (∀ k, ctx_Get k (rw_ctx (rt_world s)) (rw_maps (rt_world s)) =
        match state_delta e !! k with Some v => Some v | None => ctx_Get k (rw_ctx (rt_at s)) (rw_maps (rt_at s)) end) ∧
  (ae_Partial e = false → ic_StateDeltas (rw_ctx (rt_world s)) = [] ∧
     ∀ k, is_temp k = false → committed (rw_ctx (rt_world s)) (rw_maps (rt_world s)) !! k =
        match state_delta e !! k with Some v => Some v | None => ctx_Get k (rw_ctx (rt_at s)) (rw_maps (rt_at s)) end).
Proof.
  intros Hsync Hrun Hpc. assert (sync_phase s) as Hp.
  { unfold rt_reachable in Hrun. remember (rt_start cfg agent w) as s0 eqn:Hs0.
    assert (sync_phase s0) as Hst by (subst; unfold sync_phase; simpl; tauto). clear Hs0 Hpc.
    induction Hrun as [|x y z Hxy _ IH]; [done|]. apply IH. by eapply rt_step_sync. }
  unfold sync_phase in Hp. rewrite Hpc in Hp. destruct Hp as (Ha & l & Hl & Hw). unfold entries_of in Hl.
  assert (∀ k, ctx_Get k (set_all l (rw_maps (rt_at s)) (rw_ctx (rt_at s))) (rw_maps (rt_at s)) =
    match state_delta e !! k with Some v => Some v | None => ctx_Get k (rw_ctx (rt_at s)) (rw_maps (rt_at s)) end) as Hget.
  { intros k. assert (NoDup l.*1) as Hnd by (rewrite Hl; apply NoDup_fst_map_to_list).
    rewrite set_all_Get by done. by rewrite (list_to_map_proper l (map_to_list (state_delta e))), list_to_map_to_list. }
  destruct (ae_Partial e).
  - destruct Hw as (Hc & Hm & He). rewrite Hc, Hm. split_and!; try done.
  - destruct Hw as (Hc & He). destruct (commit_spec _ _ _ _ Hc) as (Hg & Hd & _ & _ & Hco & _).
    split; [done|]. split; [done|]. split; [intros k; by rewrite Hg|]. intros _. split; [done|].
    intros k Hk. rewrite <- Hget, Hco. unfold ctx_Get. by rewrite Hk.
Qed.

End Sync.
