(* ===== verification/Iterators.v ===== *)
(** * Iterators of events (pkg/runtime/iterators.go)

    Iterator agents hand each event to their consumer by a call, so an iterator and
    its consumer take turns exactly as a stream and its continuation do; a consumer
    that stops is one that drops the continuation.  The parallel agent has
    goroutines and is a step relation.  A commit that panics ends the stream. *)

From stdpp Require Import base gmap strings list fin_maps relations pretty.
From S2P Require Import Prelude Etcd Invocation Streams AsyncRuntime.

Open Scope Z_scope.

(** What an iterator hands over: an event, an error, or both. *)
Record Item := mkItem { it_event : option AsyncEvent; it_err : option error }.

Definition event_item (e : AsyncEvent) : Item := mkItem (Some e) None.
Definition error_item (err : error) : Item := mkItem None (Some err).

Section Iterators.
Context {Svc Env : Type} `{SessionService Svc} `{DeltaOrder}.
Local Notation World := (RtWorld Svc Env).
Local Notation Iterator := (Stream World Item).

Record IteratorAgent := mkItAgent { ia_Name : string; ia_Run : Iterator }.

(** ** The runner *)

(** The first answer is false if the commit panics. *)
Definition commitEvent (has_sessions : bool) (event : AsyncEvent) (w : World) : (bool * option error) * World :=
  let c := match ae_Actions event ≫= ea_StateDelta with
           | Some m => set_all (delta_order m) (rw_maps w) (rw_ctx w)
           | None => rw_ctx w
           end in
  match CommitStateDeltas c (rw_maps w) with
  | None => (false, None, put_ctx c w)
  | Some (c, maps) =>
      let w := put_maps maps (put_ctx c w) in
      if has_sessions then let '(err, w) := persist w in (true, err, w) else (true, None, w)
  end.

(** The body of the loop, [k] the rest of it. *)
Definition runner_body (has_sessions : bool) (item : Item) (k : Iterator) : Iterator :=
  match it_err item, it_event item with
  | Some err, _ => SYield (error_item err) k
  | None, None => SStop
  | None, Some event =>
      sread (λ w, ic_InvocationID (rw_ctx w)) (λ id,
        let event := set_InvocationID id event in
        let deliver := SYield (event_item event) (if IsFinalResponse event then SStop else k) in
        if ae_Partial event then deliver
        else scall (commitEvent has_sessions event) (λ r,
               match r with
               | (false, _) => SStop
               | (true, Some err) => SYield (error_item err) k
               | (true, None) => deliver
               end))
  end.

Definition runner_Run (cfg : RunnerConfig) (agent : IteratorAgent) : Iterator :=
  SDo (load_session cfg) (λ _,
    sloop (λ _ item k, runner_body (rn_sessions cfg) item (k tt)) (λ _, SStop) (ia_Run agent) tt).

(** ** Agents *)

Definition AgentCallbackFn : Type := World → result (option AsyncEvent) * World.

(** Before: an error or an event ends the run. *)
Definition before_agent (cbs : list AgentCallbackFn) (k : Iterator) : Iterator :=
  sfold (λ _ cb k, scall cb (λ r, match r with
                                 | inl err => SYield (error_item err) SStop
                                 | inr (Some event) => SYield (event_item event) SStop
                                 | inr None => k tt
                                 end)) (λ _, k) cbs tt.

Definition set_Author (a : string) (e : AsyncEvent) : AsyncEvent :=
  mkAsyncEvent (ae_InvocationID e) a (ae_Type e) (ae_Content e) (ae_Partial e) (ae_Actions e) (ae_Metadata e) (ae_Error e) (ae_Shared e).

(** The steps; [after] is given the number of steps made. *)
Fixpoint it_step_loop (name : string) (oneStep : Stream World AsyncEvent) (after : Z → Iterator) (left : nat) (step : Z) : Iterator :=
  match left with
  | O => after step
  | S left' =>
      let step := step + 1 in
      sloop (λ _ event k,
               let event := set_Author name (with_meta "step" (VInt step) event) in
               SYield (event_item event) (match ae_Error event with Some _ => SStop | None => k (Some event) end))
            (λ lastEvent, match lastEvent with
                          | None => after step
                          | Some event =>
                              if IsFinalResponse event then after step
                              else sread rw_done (λ d, match d with
                                                       | Some err => SYield (event_item (error_event err name)) SStop
                                                       | None => it_step_loop name oneStep after left' step
                                                       end)
                          end)
            oneStep None
  end.

Definition llm_iterator (name : string) (oneStep : Stream World AsyncEvent) (maxSteps : Z) (before after : list AgentCallbackFn) : Iterator :=
  SDo (λ w, put_ctx (set_AgentName name (rw_ctx w)) w) (λ _,
    before_agent before
      (it_step_loop name oneStep
         (λ step, before_agent after
                    (if maxSteps <=? step then SYield (event_item (max_steps_event name step)) SStop else SStop))
         (Z.to_nat maxSteps) 0)).

Definition it_start_event (i : nat) (agentName name : string) : AsyncEvent :=
  set_Metadata (Some {["sequential_step" := MtValue (VInt (Z.of_nat i + 1)); "agent" := MtValue (VString agentName)]})
    (WithPartial true (NewAsyncEvent EventTypeStateChange (AcValue (VString ("Starting " +:+ agentName))) name)).

(** The body of the loops over the events of a sub-agent: an error ends the run, an
    event is marked and handed over, and ends the run if it has an error. *)
Definition pass_on (mark : AsyncEvent → AsyncEvent) (stop : AsyncEvent → bool) (item : Item) (k : Iterator) : Iterator :=
  match it_err item, it_event item with
  | Some err, _ => SYield (error_item err) SStop
  | None, None => SStop
  | None, Some event =>
      let event := mark event in
      SYield (event_item event) (if stop event then SStop else match ae_Error event with Some _ => SStop | None => k end)
  end.

(** Once the context is done the run ends. *)
Definition unless_done (k : Iterator) : Iterator :=
  sread rw_done (λ d, match d with Some _ => SStop | None => k end).

Fixpoint seq_iterator (name : string) (i : nat) (agents : list IteratorAgent) : Iterator :=
  match agents with
  | [] => SStop
  | ag :: agents' =>
      SYield (event_item (it_start_event i (ia_Name ag) name))
        (sloop (λ _ item k,
                  pass_on (λ e, with_meta "sequential_agent" (VString (ia_Name ag)) (with_meta "sequential_step" (VInt (Z.of_nat i + 1)) e))
                    (λ _, false) item (k tt))
               (λ _, unless_done (seq_iterator name (S i) agents')) (ia_Run ag) tt)
  end.

(** One iteration of the loop agent over its sub-agents. *)
Definition loop_iteration (shouldStop : option (AsyncEvent → bool)) (iteration : Z) (agents : list IteratorAgent) (k : Iterator) : Iterator :=
  sfold (λ _ ag k,
    sloop (λ _ item k,
             pass_on (λ e, with_meta "loop_agent" (VString (ia_Name ag)) (with_meta "loop_iteration" (VInt (iteration + 1)) e))
               (λ e, match shouldStop with Some f => f e | None => false end) item (k tt))
          (λ _, k tt) (ia_Run ag) tt) (λ _, k) agents tt.

Definition max_iterations_event (name : string) (max : Z) : AsyncEvent :=
  set_Metadata (Some {["max_iterations_reached" := MtValue (VBool true); "iterations_executed" := MtValue (VInt max)]})
    (NewAsyncEvent EventTypeMessage (AcValue (VString "Maximum iterations reached")) name).

Fixpoint loop_iterations (name : string) (shouldStop : option (AsyncEvent → bool)) (agents : list IteratorAgent) (max : Z)
    (left : nat) (iteration : Z) : Iterator :=
  match left with
  | O => SYield (event_item (max_iterations_event name max)) SStop
  | S left' =>
      loop_iteration shouldStop iteration agents (unless_done (loop_iterations name shouldStop agents max left' (iteration + 1)))
  end.
Definition loop_iterator (name : string) (shouldStop : option (AsyncEvent → bool)) (agents : list IteratorAgent) (max : Z) : Iterator :=
  loop_iterations name shouldStop agents max (Z.to_nat max) 0.

(** ** Conversions *)

Definition IteratorToChannel (it : Iterator) : Stream World AsyncEvent :=
  sloop (λ _ item k, match it_err item, it_event item with
                     | Some err, _ => SYield (error_event err "iterator") SStop
                     | None, Some event => SYield event (k tt)
                     | None, None => SStop
                     end) (λ _, SStop) it tt.

Definition ChannelToIterator (ch : Stream World AsyncEvent) : Iterator :=
  sloop (λ _ event k, SYield (mkItem (Some event) (ae_Error event)) (k tt)) (λ _, SStop) ch tt.

Definition collect_item (acc : list AsyncEvent * option error) (item : Item) : list AsyncEvent * option error :=
  match it_err item, it_event item with
  | Some err, _ => (acc.1, Some err)
  | None, Some e => (acc.1 ++ [e], acc.2)
  | None, None => acc
  end.
Definition CollectIterator (it : Iterator) (w : World) : list AsyncEvent * option error :=
  (consume (λ acc item w, (collect_item acc item, true, w)) it ([], None) w).1.
Definition GetFinalEventFromIterator (it : Iterator) (w : World) : option AsyncEvent * option error :=
  let '(l, err) := CollectIterator it w in (GetFinalEvent l, err).

(** ** The parallel agent *)

(** Each sub-agent's goroutine offers its items; the consumer's loop counts as
    completed what it gets without event and error. *)
Record ParState := mkPar {
  pa_agents : list Iterator;
  pa_completed : nat;
  pa_world : World;
  pa_yielded : list Item;
  pa_returned : option bool;     (** [Some true]: because all have completed *)
}.

Definition mark_branch (i : nat) (name : string) (e : AsyncEvent) : AsyncEvent :=
  with_meta "parallel_agent" (VString name) (with_meta "parallel_branch" (VInt (Z.of_nat i)) e).

(** [go]: whether the consumer wants more. *)
Inductive par_step (names : list string) : ParState → ParState → Prop :=
  | par_do i act next its c w ys :
      its !! i = Some (SDo act next) →
      par_step names (mkPar its c w ys None) (mkPar (<[i := next w]> its) c (act w) ys None)
  | par_error i err e k its c w ys (go : bool) :
      its !! i = Some (SYield (mkItem e (Some err)) k) → (c < length its)%nat →
      par_step names (mkPar its c w ys None)
        (mkPar (<[i := k]> its) c w (ys ++ [error_item err]) (if go then None else Some false))
  | par_nil i k its c w ys :
      its !! i = Some (SYield (mkItem None None) k) → (c < length its)%nat →
      par_step names (mkPar its c w ys None) (mkPar (<[i := k]> its) (S c) w ys None)
  | par_event i e k name its c w ys (go : bool) :
      its !! i = Some (SYield (event_item e) k) → (c < length its)%nat → names !! i = Some name →
      par_step names (mkPar its c w ys None)
        (mkPar (<[i := k]> its) c w (ys ++ [event_item (mark_branch i name e)]) (if go then None else Some false))
  | par_cancelled its c w ys :
      is_Some (rw_done w) → (c < length its)%nat → par_step names (mkPar its c w ys None) (mkPar its c w ys (Some false))
  | par_completed its c w ys :
      (length its ≤ c)%nat → par_step names (mkPar its c w ys None) (mkPar its c w ys (Some true))
  | par_world its c w w' ys :
      par_step names (mkPar its c w ys None) (mkPar its c w' ys None).

End Iterators.

Arguments IteratorAgent : clear implicits.
Arguments ParState : clear implicits.

(** ** The runner commits before it hands over *)

(** All elements that are handed over satisfy [P] in the world of that moment,
    whatever the consumer does to the world. *)
Fixpoint handed_over {W A} (P : A → W → Prop) (s : Stream W A) (w : W) : Prop :=
  match s with
  | SStop => True
  | SDo act next => handed_over P (next w) (act w)
  | SYield a k => P a w ∧ ∀ w', handed_over P k w'
  end.

(** Nothing comes after a final response. *)
Fixpoint final_is_last {W} (s : Stream W Item) : Prop :=
  match s with
  | SStop => True
  | SDo act next => ∀ w, final_is_last (next w)
  | SYield item k => (match it_event item with Some e => IsFinalResponse e = true → k = SStop | None => True end) ∧ final_is_last k
  end.

Section RunnerProofs.
Context {Svc Env : Type} `{SessionServiceLaws Svc} `{DeltaOrder}.
Local Notation World := (RtWorld Svc Env).

Definition holds_delta (item : Item) (w : World) : Prop :=
  ∀ e, it_event item = Some e → ae_Partial e = false →
    ic_StateDeltas (rw_ctx w) = [] ∧
    ∀ k v, state_delta e !! k = Some v → ctx_Get k (rw_ctx w) (rw_maps w) = Some v ∧
      (is_temp k = false → committed (rw_ctx w) (rw_maps w) !! k = Some v).

Lemma commitEvent_holds has_sessions e err (w w' : World) :
  commitEvent has_sessions e w = (true, err, w') → holds_delta (event_item e) w'.
Proof.
  unfold commitEvent. set (c := match ae_Actions e ≫= ea_StateDelta with Some m => _ | None => _ end).
  destruct (CommitStateDeltas c (rw_maps w)) as [[c' maps']|] eqn:Hc; [|done]. intros Hw e' [= <-] _.
  assert (rw_ctx w' = c' ∧ rw_maps w' = maps') as [-> ->].
  { destruct has_sessions; [|by injection Hw as _ <-]. destruct (persist_same (put_maps maps' (put_ctx c' w))) as (Hpc & Hpm & _).
    destruct (persist _) as [err' w1]. injection Hw as _ <-. done. }
  destruct (commit_spec _ _ _ _ Hc) as (Hg & Hd & _ & _ & Hco & _). split; [done|].
  assert (∀ k v, state_delta e !! k = Some v → ctx_Get k c (rw_maps w) = Some v) as Hget.
  { intros k v Hk. unfold state_delta in Hk. unfold c. destruct (ae_Actions e ≫= ea_StateDelta) as [m|]; [|simpl in Hk; by rewrite lookup_empty in Hk].
    rewrite set_delta_Get. simpl in Hk. by rewrite Hk. }
  intros k v Hk. rewrite Hg, (Hget _ _ Hk). split; [done|]. intros Ht. rewrite Hco.
  specialize (Hget _ _ Hk). unfold ctx_Get in Hget. by rewrite Ht in Hget.
Qed.

Lemma runner_body_holds has_sessions item k (w : World) :
  (∀ w', handed_over holds_delta k w') → handed_over holds_delta (runner_body has_sessions item k) w.
Proof.
  intros Hk. unfold runner_body. destruct (it_err item) as [err|]; [by split; [intros e|]|].
  destruct (it_event item) as [e|]; [|done]. unfold sread. cbn [handed_over id]. set (e' := set_InvocationID _ e).
  destruct (ae_Partial e') eqn:Hp.
  { cbn [handed_over]. split; [intros e0 [= <-]; by rewrite Hp|]. intros w'. destruct (IsFinalResponse e'); [done|apply Hk]. }
  unfold scall. cbn [handed_over]. destruct (commitEvent has_sessions e' w) as [[ok err] w1] eqn:Hc. cbn [fst snd].
  destruct ok; [|done]. destruct err as [err|]; cbn [handed_over]; [by split; [intros e0|]|].
  split; [by eapply commitEvent_holds|]. intros w'. destruct (IsFinalResponse e'); [done|apply Hk].
Qed.

Lemma runner_body_final has_sessions item (k : Stream World Item) : final_is_last k → final_is_last (runner_body has_sessions item k).
Proof.
  intros Hk. unfold runner_body. destruct (it_err item) as [err|]; [by split|]. destruct (it_event item) as [e|]; [|done].
  unfold sread, scall. cbn [final_is_last]. intros w1. set (e' := set_InvocationID _ e).
  assert (final_is_last (SYield (event_item e') (if IsFinalResponse e' then SStop else k))) as Hdel.
  { cbn [final_is_last it_event event_item]. by destruct (IsFinalResponse e'). }
  destruct (ae_Partial e'); [exact Hdel|]. cbn [final_is_last]. intros w2.
  by destruct (commitEvent has_sessions e' w2) as [[[] [err|]] w3].
Qed.

(** An iterator runner hands a complete event over only when the changes it
    carries can be read and are committed, with none left over, whatever the agent
    and the consumer do; and a final response is the last. *)
Theorem iterator_runner cfg agent (w : World) :
  handed_over holds_delta (runner_Run cfg agent) w ∧ final_is_last (runner_Run cfg agent).
Proof.
  unfold runner_Run. split; cbn [handed_over final_is_last].
  - generalize (load_session cfg w) as w0. induction (ia_Run agent) as [|act next IH|item k IH]; intros w0; [done|apply IH|].
    apply runner_body_holds. intros w'. apply IH.
  - intros _. induction (ia_Run agent) as [|act next IH|item k IH]; [done|intros w1; apply IH|]. by apply runner_body_final.
Qed.

End RunnerProofs.

(** ** Conversions *)

Section Conversions.
Context {Svc Env : Type}.
Local Notation World := (RtWorld Svc Env).

(** A channel made an iterator and a channel again gives the same events up to the
    first that has an error; in its place comes an error event of the iterator's,
    and that is the last. *)
Theorem channel_iterator_roundtrip (ch : Stream World AsyncEvent) w :
  let events := (collect ch w).1 in
  let back := (collect (IteratorToChannel (ChannelToIterator ch)) w).1 in
  (Forall (λ e, ae_Error e = None) events → collect (IteratorToChannel (ChannelToIterator ch)) w = collect ch w) ∧
  (∀ front e err rest, events = front ++ e :: rest → Forall (λ e, ae_Error e = None) front → ae_Error e = Some err →
     back = front ++ [error_event err "iterator"]).
Proof.
  unfold ChannelToIterator, IteratorToChannel. revert w. induction ch as [|act next IH|e k IH]; intros w; simpl.
  - split; [done|]. intros [|? ?] e err rest [=].
  - apply IH.
  - specialize (IH w). destruct (ae_Error e) as [err|] eqn:He; simpl.
    + destruct (collect k w) as [l w'] eqn:Hk. simpl. split.
      * intros Hall. apply Forall_cons in Hall as [Hn _]. by rewrite He in Hn.
      * intros [|f front] e' err' rest Heq Hfr He'; simpl in *.
        -- injection Heq as <- _. rewrite He in He'. by injection He' as <-.
        -- injection Heq as <- _. apply Forall_cons in Hfr as [Hn _]. by rewrite He in Hn.
    + destruct IH as [IH1 IH2]. destruct (collect k w) as [l w'] eqn:Hk.
      destruct (collect (sloop _ _ (sloop _ _ k tt) tt) w) as [l2 w2] eqn:Hb. simpl in *. split.
      * intros Hall. apply Forall_cons in Hall as [_ Hl]. specialize (IH1 Hl). by injection IH1 as -> ->.
      * intros [|f front] e' err' rest Heq Hfr He'; simpl in *.
        -- injection Heq as <- _. by rewrite He in He'.
        -- injection Heq as <- Heq. apply Forall_cons in Hfr as [_ Hfr]. f_equal. by eapply IH2.
Qed.

End Conversions.

(** ** The parallel agent does not return *)

Section ParallelProofs.
Context {Svc Env : Type}.
Local Notation World := (RtWorld Svc Env).

Definition some_item (item : Item) : Prop := it_event item ≠ None ∨ it_err item ≠ None.

Lemma par_step_completed names (s s' : ParState Svc Env) :
  par_step names s s' → Forall (yields_only some_item) (pa_agents s) → pa_completed s = 0%nat → pa_agents s ≠ [] →
  Forall (yields_only some_item) (pa_agents s') ∧ pa_completed s' = 0%nat ∧ pa_agents s' ≠ [] ∧
  (pa_returned s' = Some true → pa_returned s = Some true).
Proof.
  intros Hs Hall Hc Hne.
  assert (∀ i (it : Stream World Item), yields_only some_item it → Forall (yields_only some_item) (<[i := it]> (pa_agents s)) ∧ <[i := it]> (pa_agents s) ≠ []) as Hins.
  { intros i it Hit. split; [by apply Forall_insert|]. intros Heq. apply Hne, length_zero_iff_nil. by rewrite <- (length_insert (pa_agents s) i it), Heq. }
  assert (∀ i it, pa_agents s !! i = Some it → yields_only some_item it) as Hof by (intros i it Hi; exact (Forall_lookup_1 _ _ _ _ Hall Hi)).
  destruct Hs as [i act next its c w ys Hi|i err e k its c w ys go Hi Hlt|i k its c w ys Hi Hlt|i e k name its c w ys go Hi Hlt Hn
                 |its c w ys Hd Hlt|its c w ys Hge|its c w w' ys]; simpl in *.
  - specialize (Hof _ _ Hi). inversion Hof as [|? ? Hnext|]; subst. destruct (Hins i (next w) (Hnext w)). done.
  - specialize (Hof _ _ Hi). inversion Hof as [| |? ? _ Hk]; subst. destruct (Hins i k Hk). destruct go; done.
  - specialize (Hof _ _ Hi). inversion Hof as [| |? ? Hp _]; subst. destruct Hp; done.
  - specialize (Hof _ _ Hi). inversion Hof as [| |? ? _ Hk]; subst. destruct (Hins i k Hk). destruct go; done.
  - done.
  - subst c. destruct its; [done|simpl in Hge; lia].
  - done.
Qed.

(** A parallel iterator agent counts a sub-agent as completed when it gets neither
    an event nor an error from it, and no goroutine sends that when its sub-agent
    ends: with at least one sub-agent the loop is never left because all have
    completed, but only when the context is done or the consumer stops. *)
Theorem parallel_iterator_waits names its (w : World) s :
  its ≠ [] → Forall (yields_only some_item) its → rtc (par_step names) (mkPar its 0 w [] None) s → pa_returned s ≠ Some true.
Proof.
  intros Hne Hall Hrun.
  assert (∀ s0, rtc (par_step names) s0 s → Forall (yields_only some_item) (pa_agents s0) → pa_completed s0 = 0%nat → pa_agents s0 ≠ [] →
            pa_returned s0 ≠ Some true → pa_returned s ≠ Some true) as Hgo.
  { clear. intros s0 Hrun. induction Hrun as [|x y z Hxy _ IH]; intros Ha Hc Hn Hr; [done|].
    destruct (par_step_completed _ _ _ Hxy Ha Hc Hn) as (Ha' & Hc' & Hn' & Hr'). apply IH; try done. intros Ht. by apply Hr, Hr'. }
  by apply (Hgo _ Hrun).
Qed.

End ParallelProofs.
