(* ===== verification/AdkFeatures.v ===== *)
(** * State scopes, instructions, schemas, transfers and branches (pkg/runtime/adk_features.go)

    The small decision procedures that agents of the runtime are configured with.
    Values that schemas validate are trees ([Json]); the entries of an object and
    the properties of a schema are lists, in the order in which Go ranges over the
    maps. *)

From Stdlib Require Import Ascii.
From stdpp Require Import base gmap strings list fin_maps pretty.
From S2P Require Import Prelude Etcd Registry Templates Invocation AsyncRuntime Iterators.

Open Scope Z_scope.

(** ** Scopes of state keys *)

Definition KeyPrefixApp : string := "app:".
Definition KeyPrefixUser : string := "user:".
Definition KeyPrefixTemp : string := "temp:".

Record ScopedState := mkScoped {
  so_state : gmap string Value;
  so_app : gmap string Value;
  so_user : gmap string Value;
  so_temp : gmap string Value;
}.

Definition NewScopedState : ScopedState := mkScoped ∅ ∅ ∅ ∅.

(** [strings.TrimPrefix] of a prefix that is there. *)
Definition trimmed (prefix key : string) : string := string_from (String.length prefix) key.

Definition scoped_Get (key : string) (s : ScopedState) : option Value :=
  if String.prefix KeyPrefixApp key then so_app s !! trimmed KeyPrefixApp key
  else if String.prefix KeyPrefixUser key then so_user s !! trimmed KeyPrefixUser key
  else if String.prefix KeyPrefixTemp key then so_temp s !! trimmed KeyPrefixTemp key
  else so_state s !! key.

Definition scoped_Set (key : string) (v : Value) (s : ScopedState) : ScopedState :=
  if String.prefix KeyPrefixApp key then
    mkScoped (so_state s) (<[trimmed KeyPrefixApp key := v]> (so_app s)) (so_user s) (so_temp s)
  else if String.prefix KeyPrefixUser key then
    mkScoped (so_state s) (so_app s) (<[trimmed KeyPrefixUser key := v]> (so_user s)) (so_temp s)
  else if String.prefix KeyPrefixTemp key then
    mkScoped (so_state s) (so_app s) (so_user s) (<[trimmed KeyPrefixTemp key := v]> (so_temp s))
  else mkScoped (<[key := v]> (so_state s)) (so_app s) (so_user s) (so_temp s).

Definition ClearTemp (s : ScopedState) : ScopedState := mkScoped (so_state s) (so_app s) (so_user s) ∅.

(** Later scopes overwrite earlier ones. *)
Definition scoped_All (s : ScopedState) : gmap string Value :=
  kmap (String.append KeyPrefixTemp) (so_temp s) ∪ (kmap (String.append KeyPrefixUser) (so_user s) ∪
    (kmap (String.append KeyPrefixApp) (so_app s) ∪ so_state s)).

Inductive scoped_step : ScopedState → ScopedState → Prop :=
  | sc_set key v s : scoped_step s (scoped_Set key v s)
  | sc_clear s : scoped_step s (ClearTemp s).

(** ** Instructions *)

(** [{name}], [{name?}]: a letter or underscore, then letters, digits, underscores
    and dots. *)
Definition var_start (c : ascii) : bool := is_word c && negb ((48 <=? Z.of_nat (nat_of_ascii c)) && (Z.of_nat (nat_of_ascii c) <=? 57)).
Definition var_name (s : string) : bool :=
  match s with EmptyString => false | String c s' => var_start c && string_forall (λ c, is_word c || Ascii.eqb c "."%char) s' end.

(** The name and whether it is marked as optional. *)
Fixpoint cut_optional (s : string) : string * bool :=
  match s with
  | EmptyString => ("", false)
  | String c EmptyString => if Ascii.eqb c "?"%char then ("", true) else (s, false)
  | String c s' => let '(t, b) := cut_optional s' in (String c t, b)
  end.

Inductive VarPiece := VarText (s : string) | Variable_ (name : string) (optional : bool).

Fixpoint scan_vars (open : option string) (s : string) : list VarPiece :=
  match s with
  | EmptyString => match open with None => [] | Some acc => [VarText ("{" +:+ acc)] end
  | String c s' =>
      match open with
      | None => if Ascii.eqb c "{"%char then scan_vars (Some "") s' else VarText (String c "") :: scan_vars None s'
      | Some acc =>
          let '(name, optional) := cut_optional acc in
          if Ascii.eqb c "}"%char && var_name name then Variable_ name optional :: scan_vars None s'
          else if Ascii.eqb c "{"%char then VarText ("{" +:+ acc) :: scan_vars (Some "") s'
          else if is_word c || Ascii.eqb c "."%char || Ascii.eqb c "?"%char then scan_vars (Some (acc +:+ String c "")) s'
          else VarText ("{" +:+ acc +:+ String c "") :: scan_vars None s'
      end
  end.

Section Instructions.
Context (fmt_v : Value → string) (get : string → option Value).

Definition var_text (p : VarPiece) : string :=
  match p with
  | VarText s => s
  | Variable_ name optional =>
      let kept := if optional : bool then "" else "{" +:+ name +:+ "}" in
      if String.prefix "artifact." name then kept
      else match get name with Some v => fmt_v v | None => kept end
  end.

Definition processInstructionVariables (instruction : string) : string := concat_text (var_text <$> scan_vars None instruction).

(** A provider takes precedence. *)
Definition ResolveInstruction (provider : option (result string)) (instruction : string) : result string :=
  match provider with
  | Some (inl err) => inl (EWrap "instruction provider error: " err "")
  | Some (inr text) => inr (processInstructionVariables text)
  | None => inr (processInstructionVariables instruction)
  end.
Definition ResolveGlobalInstruction (provider : option (result string)) (instruction : string) : result string :=
  default (inr instruction) provider.
End Instructions.

(** ** Schemas *)

(** The types of numbers; no value of a number is read. *)
Inductive NumberType := TInt | TInt32 | TInt64 | TFloat32 | TFloat64.

Inductive Json :=
  | JNil | JBool (b : bool) | JNumber (t : NumberType) | JString (s : string)
  | JArray (l : list Json) | JObject (entries : list (string * Json)) | JOther (go_type : string).

(** [%T] *)
Definition go_type (v : Json) : string :=
  match v with
  | JNil => "<nil>"
  | JBool _ => "bool"
  | JNumber TInt => "int"
  | JNumber TInt32 => "int32"
  | JNumber TInt64 => "int64"
  | JNumber TFloat32 => "float32"
  | JNumber TFloat64 => "float64"
  | JString _ => "string"
  | JArray _ => "[]interface {}"
  | JObject _ => "map[string]interface {}"
  | JOther t => t
  end.

Fixpoint field (key : string) (entries : list (string * Json)) : option Json :=
  match entries with
  | [] => None
  | (k, v) :: entries' => if String.eqb k key then Some v else field key entries'
  end.

Inductive Schema := mkSchema {
  sm_Type : string;
  sm_Properties : list (string * Schema);
  sm_Required : list string;
  sm_Items : option Schema;
  sm_Enum : list string;
}.

Definition missing_required (data : list (string * Json)) (required : list string) : option error :=
  match filter (λ k, field k data = None) required with
  | [] => None
  | k :: _ => Some (EText ("missing required field: " +:+ k))
  end.

Definition expected (what : string) (v : Json) : option error := Some (EText ("expected " +:+ what +:+ ", got " +:+ go_type v)).

(** The first item that is not valid. *)
Fixpoint validate_items (validate : Json → option error) (i : nat) (l : list Json) : option error :=
  match l with
  | [] => None
  | x :: l' =>
      match validate x with
      | Some err => Some (EWrap ("item " +:+ pretty (Z.of_nat i) +:+ ": ") err "")
      | None => validate_items validate (S i) l'
      end
  end.

Fixpoint validateValue (schema : Schema) (v : Json) {struct schema} : option error :=
  let properties :=
    (fix go (data : list (string * Json)) (props : list (string * Schema)) : option error :=
       match props with
       | [] => None
       | (key, propSchema) :: props' =>
           match field key data with
           | Some val => match validateValue propSchema val with
                         | Some err => Some (EWrap ("field " +:+ key +:+ ": ") err "")
                         | None => go data props'
                         end
           | None => go data props'
           end
       end) in
  if String.eqb (sm_Type schema) "string" then
    match v with
    | JString s =>
        match sm_Enum schema with
        | [] => None
        | enum => if bool_decide (s ∈ enum) then None
                  else Some (EText ("value " +:+ fmt_q s +:+ " not in enum [" +:+ strings_Join enum " " +:+ "]"))
        end
    | _ => expected "string" v
    end
  else if String.eqb (sm_Type schema) "number" || String.eqb (sm_Type schema) "integer" then
    match v with JNumber _ => None | _ => expected "number" v end
  else if String.eqb (sm_Type schema) "boolean" then
    match v with JBool _ => None | _ => expected "boolean" v end
  else if String.eqb (sm_Type schema) "array" then
    match v with
    | JArray l => match sm_Items schema with Some items => validate_items (validateValue items) 0 l | None => None end
    | _ => expected "array" v
    end
  else if String.eqb (sm_Type schema) "object" then
    match v with
    | JObject data =>
        match missing_required data (sm_Required schema) with
        | Some err => Some err
        | None => properties data (sm_Properties schema)
        end
    | _ => expected "object" v
    end
  else None.

(** The loop over the properties. *)
Fixpoint validate_properties (data : list (string * Json)) (props : list (string * Schema)) : option error :=
  match props with
  | [] => None
  | (key, propSchema) :: props' =>
      match field key data with
      | Some val => match validateValue propSchema val with
                    | Some err => Some (EWrap ("field " +:+ key +:+ ": ") err "")
                    | None => validate_properties data props'
                    end
      | None => validate_properties data props'
      end
  end.

Definition validateAgainstSchema (data : list (string * Json)) (schema : Schema) : option error :=
  match missing_required data (sm_Required schema) with
  | Some err => Some err
  | None => validate_properties data (sm_Properties schema)
  end.

Definition ValidateInput (schema : option Schema) (input : list (string * Json)) : option error :=
  match schema with None => None | Some s => validateAgainstSchema input s end.
(** Only objects are validated. *)
Definition ValidateOutput (schema : option Schema) (output : Json) : option error :=
  match schema, output with Some s, JObject data => validateAgainstSchema data s | _, _ => None end.

(** ** Transfers *)

Inductive TransferScope := TransferScopeAll | TransferScopeChildren | TransferScopeSiblings | TransferScopeNone | TransferScopeOther (s : string).
Inductive AgentRelationship := RelationshipParent | RelationshipChild | RelationshipSibling | RelationshipOther.
#[global] Instance AgentRelationship_eq_dec : EqDecision AgentRelationship.
Proof. solve_decision. Defined.

Record TransferConfig := mkTransferConfig {
  tc_DisallowTransferToParent : bool;
  tc_DisallowTransferToPeers : bool;
  tc_AllowedTransferTargets : list string;
  tc_TransferScope : TransferScope;
}.

Definition scope_allows (scope : TransferScope) (r : AgentRelationship) : bool :=
  match scope with
  | TransferScopeNone => false
  | TransferScopeChildren => bool_decide (r = RelationshipChild)
  | TransferScopeSiblings => bool_decide (r = RelationshipSibling)
  | _ => true
  end.

Definition CanTransferTo (target : string) (r : AgentRelationship) (c : TransferConfig) : bool :=
  if negb (scope_allows (tc_TransferScope c) r) then false
  else if tc_DisallowTransferToParent c && bool_decide (r = RelationshipParent) then false
  else if tc_DisallowTransferToPeers c && bool_decide (r = RelationshipSibling) then false
  else match tc_AllowedTransferTargets c with [] => true | targets => bool_decide (target ∈ targets) end.

(** ** Branches *)

Record Branch := mkBranch { br_Path : string; br_ParentBranch : string }.

Definition NewBranch (path : string) : Branch :=
  let parts := split_dot path in
  mkBranch path (if (1 <? length parts)%nat then strings_Join (take (length parts - 1) parts) "." else "").

Definition branch_Child (agentName : string) (b : Branch) : Branch :=
  if String.eqb (br_Path b) "" then NewBranch agentName else NewBranch (br_Path b +:+ "." +:+ agentName).

Definition IsParentOf (b other : Branch) : bool := String.prefix (br_Path b +:+ ".") (br_Path other).
Definition IsSiblingOf (b other : Branch) : bool :=
  String.eqb (br_ParentBranch b) (br_ParentBranch other) && negb (String.eqb (br_Path b) (br_Path other)).

(** ** Configurations *)

Inductive IncludeContents := IncludeContentsNone | IncludeContentsDefault | IncludeContentsAll | IncludeContentsBranch.
(** Branches are not told apart. *)
Definition FilterContents (mode : IncludeContents) (contents : list Content) : list Content :=
  match mode with IncludeContentsNone => [] | _ => contents end.

Fixpoint first_duplicate (seen : gset string) (names : list string) : option string :=
  match names with
  | [] => None
  | n :: names' => if bool_decide (n ∈ seen) then Some n else first_duplicate ({[n]} ∪ seen) names'
  end.

Definition config_Validate (name : string) (subAgents : list string) : option error :=
  if String.eqb name "" then Some (EText "agent name is required")
  else if String.eqb name "user" then Some (EText "agent name cannot be 'user' (reserved)")
  else (λ n, EText ("duplicate sub-agent name: " +:+ n)) <$> first_duplicate ∅ subAgents.

(** ** Scopes are apart *)

#[local] Instance append_inj p : Inj (=) (=) (String.append p).
Proof. intros a b Heq. by apply key_inj in Heq. Qed.

Lemma prefix_split p k : String.prefix p k = true → k = p +:+ trimmed p k.
Proof. intros [t ->]%prefix_iff. unfold trimmed. by rewrite string_from_app. Qed.

Lemma kmap_with p (m : gmap string Value) k :
  (kmap (String.append p) m : gmap string Value) !! k = if String.prefix p k then m !! trimmed p k else None.
Proof.
  destruct (String.prefix p k) eqn:Hp.
  - rewrite (prefix_split p k Hp) at 1. apply (lookup_kmap (String.append p)).
  - apply (lookup_kmap_None (String.append p)). intros t ->. by rewrite prefix_app in Hp.
Qed.

(** At most one of the prefixes is there. *)
Lemma one_prefix k :
  String.prefix KeyPrefixApp k && String.prefix KeyPrefixUser k = false ∧
  String.prefix KeyPrefixApp k && String.prefix KeyPrefixTemp k = false ∧
  String.prefix KeyPrefixUser k && String.prefix KeyPrefixTemp k = false.
Proof.
  unfold KeyPrefixApp, KeyPrefixUser, KeyPrefixTemp. destruct k as [|c k]; [done|]. cbn [String.prefix].
  destruct (ascii_dec "a" c), (ascii_dec "u" c), (ascii_dec "t" c); subst; try done; by rewrite ?andb_false_r.
Qed.

Definition unprefixed (k : string) : Prop :=
  String.prefix KeyPrefixApp k = false ∧ String.prefix KeyPrefixUser k = false ∧ String.prefix KeyPrefixTemp k = false.

Definition scoped_ok (s : ScopedState) : Prop := ∀ k v, so_state s !! k = Some v → unprefixed k.

Lemma trimmed_eq p k k' : String.prefix p k = true → String.prefix p k' = true → trimmed p k = trimmed p k' → k = k'.
Proof. intros Hk Hk' Heq. by rewrite (prefix_split p k Hk), (prefix_split p k' Hk'), Heq. Qed.

Lemma insert_trimmed p k k' (v : Value) (m : gmap string Value) :
  String.prefix p k = true → String.prefix p k' = true →
  <[trimmed p k := v]> m !! trimmed p k' = if decide (k = k') then Some v else m !! trimmed p k'.
Proof.
  intros Hk Hk'. case_decide as Heq; [subst; by rewrite lookup_insert_eq|]. rewrite lookup_insert_ne; [done|].
  intros Ht. by apply Heq, (trimmed_eq p).
Qed.

Lemma scoped_Get_Set k v k' s : scoped_Get k' (scoped_Set k v s) = if decide (k = k') then Some v else scoped_Get k' s.
Proof.
  unfold scoped_Get, scoped_Set. destruct (one_prefix k) as (H1 & H2 & H3).
  destruct (String.prefix KeyPrefixApp k) eqn:Ha; [|destruct (String.prefix KeyPrefixUser k) eqn:Hu;
    [|destruct (String.prefix KeyPrefixTemp k) eqn:Ht]]; simpl.
  all: destruct (String.prefix KeyPrefixApp k') eqn:Ha'; [|destruct (String.prefix KeyPrefixUser k') eqn:Hu';
    [|destruct (String.prefix KeyPrefixTemp k') eqn:Ht']].
  all: try (by apply insert_trimmed).
  all: try (rewrite decide_False by congruence; done).
  apply lookup_insert.
Qed.

(** The four maps are one, whose temporary keys can be cleared: reading after
    writing, and the listing of all keys, are those of one map. *)
Theorem scoped_state s :
  rtc scoped_step NewScopedState s →
  (∀ k, scoped_All s !! k = scoped_Get k s) ∧
  (∀ k v k', scoped_Get k' (scoped_Set k v s) = if decide (k = k') then Some v else scoped_Get k' s) ∧
  (∀ k, scoped_Get k (ClearTemp s) = if String.prefix KeyPrefixTemp k then None else scoped_Get k s).
Proof.
  intros Hrun. assert (scoped_ok s) as Hok.
  { remember NewScopedState as s0 eqn:Hs0. assert (scoped_ok s0) as Hst by (subst; intros k v; simpl; by rewrite lookup_empty).
    clear Hs0. induction Hrun as [|x y z Hxy _ IH]; [done|]. apply IH. destruct Hxy as [key v x|x]; [|done].
    unfold scoped_Set. destruct (String.prefix KeyPrefixApp key) eqn:Ha; [done|].
    destruct (String.prefix KeyPrefixUser key) eqn:Hu; [done|]. destruct (String.prefix KeyPrefixTemp key) eqn:Ht; [done|].
    intros k w. simpl. rewrite lookup_insert_Some. intros [[<- _]|[_ Hk]]; [done|by eapply Hst]. }
  split; [|split; [intros k v k'; apply scoped_Get_Set|]].
  - intros k. unfold scoped_All, scoped_Get. rewrite !lookup_union, !kmap_with. destruct (one_prefix k) as (H1 & H2 & H3).
    assert ((String.prefix KeyPrefixApp k || String.prefix KeyPrefixUser k || String.prefix KeyPrefixTemp k) = true → so_state s !! k = None) as Hnone.
    { intros Hp. destruct (so_state s !! k) as [v|] eqn:Hk; [|done]. destruct (Hok k v Hk) as (Ha & Hu & Ht). by rewrite Ha, Hu, Ht in Hp. }
    destruct (String.prefix KeyPrefixApp k), (String.prefix KeyPrefixUser k), (String.prefix KeyPrefixTemp k); try done;
      rewrite ?Hnone by done; by rewrite ?(left_id_L None _), ?(right_id_L None _).
  - intros k. unfold scoped_Get, ClearTemp. simpl. destruct (one_prefix k) as (H1 & H2 & H3).
    destruct (String.prefix KeyPrefixApp k), (String.prefix KeyPrefixUser k), (String.prefix KeyPrefixTemp k); done.
Qed.

(** ** What schemas accept *)

(** A value conforms to a schema. *)
Inductive conforms : Schema → Json → Prop :=
  | conforms_string schema s :
      sm_Type schema = "string" → (sm_Enum schema = [] ∨ s ∈ sm_Enum schema) → conforms schema (JString s)
  | conforms_number schema t : sm_Type schema = "number" ∨ sm_Type schema = "integer" → conforms schema (JNumber t)
  | conforms_boolean schema b : sm_Type schema = "boolean" → conforms schema (JBool b)
  | conforms_array schema l :
      sm_Type schema = "array" → (∀ items x, sm_Items schema = Some items → x ∈ l → conforms items x) → conforms schema (JArray l)
  | conforms_object schema data :
      sm_Type schema = "object" → (∀ k, k ∈ sm_Required schema → field k data ≠ None) →
      (∀ k prop x, (k, prop) ∈ sm_Properties schema → field k data = Some x → conforms prop x) → conforms schema (JObject data)
  | conforms_any schema v :
      sm_Type schema ∉ ["string"; "number"; "integer"; "boolean"; "array"; "object"] → conforms schema v.

Lemma validate_items_none validate i l : validate_items validate i l = None ↔ ∀ x, x ∈ l → validate x = None.
Proof.
  revert i. induction l as [|x l IH]; intros i; simpl; [split; [by intros _ ? ?%elem_of_nil|done]|].
  destruct (validate x) eqn:Hx.
  - split; [done|]. intros Hall. specialize (Hall x (list_elem_of_here _ _)). congruence.
  - rewrite IH. split; intros Hall y; [intros [->|Hy]%elem_of_cons; auto|]. intros Hy. apply Hall. by right.
Qed.

Lemma missing_required_none data required : missing_required data required = None ↔ ∀ k, k ∈ required → field k data ≠ None.
Proof.
  unfold missing_required. destruct (filter _ required) as [|k l] eqn:Hf.
  - split; [|done]. intros _ k Hk Hn. assert (k ∈ filter (λ k, field k data = None) required) as Hin by (by apply list_elem_of_filter).
    rewrite Hf in Hin. by apply elem_of_nil in Hin.
  - split; [done|]. intros Hall. assert (k ∈ filter (λ k, field k data = None) required) as Hin by (rewrite Hf; by left).
    apply list_elem_of_filter in Hin as [Hn Hk]. by destruct (Hall k Hk).
Qed.

Lemma validate_properties_none data props :
  validate_properties data props = None ↔ ∀ k prop x, (k, prop) ∈ props → field k data = Some x → validateValue prop x = None.
Proof.
  induction props as [|[k prop] props IH]; simpl; [split; [by intros _ ? ? ? ?%elem_of_nil|done]|].
  destruct (field k data) as [x|] eqn:Hx; [destruct (validateValue prop x) eqn:Hv|].
  - split; [done|]. intros Hall. specialize (Hall k prop x (list_elem_of_here _ _) Hx). congruence.
  - rewrite IH. split; intros Hall k' p' y; [intros [[= -> ->]|Hin]%elem_of_cons Hy; [congruence|eauto]|].
    intros Hin. apply Hall. by right.
  - rewrite IH. split; intros Hall k' p' y; [intros [[= -> ->]|Hin]%elem_of_cons Hy; [congruence|eauto]|].
    intros Hin. apply Hall. by right.
Qed.

(** [validateValue] by its cases. *)
Lemma validateValue_object schema data :
  sm_Type schema = "object" → validateValue schema (JObject data) = validateAgainstSchema data schema.
Proof.
  destruct schema as [ty props req items enum]. simpl. intros ->. unfold validateAgainstSchema. simpl. case_match; [done|].
  induction props as [|[k prop] props IH]; simpl; [done|]. destruct (field k data); [|done]. by destruct (validateValue prop j).
Qed.

Section SchemaInd.
Context (P : Schema → Prop).
Context (Hstep : ∀ schema, Forall (λ kp, P kp.2) (sm_Properties schema) → (∀ items, sm_Items schema = Some items → P items) → P schema).

Fixpoint schema_ind' (schema : Schema) : P schema.
Proof.
  apply Hstep.
  - destruct schema as [ty props req items enum]. simpl. clear -schema_ind'.
    induction props as [|[k' p'] props IH]; constructor; [apply schema_ind'|exact IH].
  - destruct schema as [ty props req [items|] enum]; simpl; intros items' Hi; [injection Hi as <-; apply schema_ind'|discriminate Hi].
Defined.
End SchemaInd.

(** The cases of [validateValue], one for each type. *)
Lemma validateValue_array schema l :
  sm_Type schema = "array" →
  validateValue schema (JArray l) = match sm_Items schema with Some items => validate_items (validateValue items) 0 l | None => None end.
Proof. destruct schema. simpl. by intros ->. Qed.

(** Inside an array or an object validity is that of the parts. *)
Definition parts_agree (schema : Schema) : Prop :=
  Forall (λ kp, ∀ v, validateValue kp.2 v = None ↔ conforms kp.2 v) (sm_Properties schema) ∧
  ∀ items, sm_Items schema = Some items → ∀ v, validateValue items v = None ↔ conforms items v.

Lemma array_conforms schema l :
  sm_Type schema = "array" → parts_agree schema →
  validateValue schema (JArray l) = None ↔ ∀ items x, sm_Items schema = Some items → x ∈ l → conforms items x.
Proof.
  intros Ht [_ Hitems]. rewrite validateValue_array by done. destruct (sm_Items schema) as [items|]; [|done].
  rewrite validate_items_none. split.
  - intros Hall ? x [= <-] Hx. by apply Hitems, Hall.
  - intros Hall x Hx. apply (Hitems items eq_refl x). by eapply Hall.
Qed.

Lemma object_conforms schema data :
  parts_agree schema →
  validateAgainstSchema data schema = None ↔
  (∀ k, k ∈ sm_Required schema → field k data ≠ None) ∧
  (∀ k prop x, (k, prop) ∈ sm_Properties schema → field k data = Some x → conforms prop x).
Proof.
  intros [Hprops _]. rewrite Forall_forall in Hprops. rewrite <-missing_required_none. unfold validateAgainstSchema.
  destruct (missing_required data (sm_Required schema)); [naive_solver|]. rewrite validate_properties_none. split.
  - intros Hall. split; [done|]. intros k prop x Hin Hx. apply (Hprops (k, prop)); [done|eauto].
  - intros [_ Hall] k prop x Hin Hx. apply (Hprops (k, prop)); [done|eauto].
Qed.

Lemma string_conforms schema s :
  sm_Type schema = "string" → validateValue schema (JString s) = None ↔ (sm_Enum schema = [] ∨ s ∈ sm_Enum schema).
Proof.
  destruct schema as [ty props req items enum]. simpl. intros ->. simpl. destruct enum as [|e enum]; [by split; [left|]|].
  case_bool_decide; naive_solver.
Qed.

(** The types that schemas know. *)
Definition schema_types : list string := ["string"; "number"; "integer"; "boolean"; "array"; "object"].

(** A value with a known type conforms by the rule of the type. *)
Lemma conforms_known schema v :
  sm_Type schema ∈ schema_types →
  conforms schema v ↔
  match v with
  | JString s => sm_Type schema = "string" ∧ (sm_Enum schema = [] ∨ s ∈ sm_Enum schema)
  | JNumber _ => sm_Type schema = "number" ∨ sm_Type schema = "integer"
  | JBool _ => sm_Type schema = "boolean"
  | JArray l => sm_Type schema = "array" ∧ ∀ items x, sm_Items schema = Some items → x ∈ l → conforms items x
  | JObject data => sm_Type schema = "object" ∧ (∀ k, k ∈ sm_Required schema → field k data ≠ None) ∧
      (∀ k prop x, (k, prop) ∈ sm_Properties schema → field k data = Some x → conforms prop x)
  | _ => False
  end.
Proof.
  intros Hin. split; [intros Hv; destruct Hv; try done; auto|].
  destruct v; try done; [apply conforms_boolean|apply conforms_number|..]; intros [].
  - by apply conforms_string.
  - by apply conforms_array.
  - by destruct H0; apply conforms_object.
Qed.

(** A value of another type is refused. *)
Lemma validateValue_type schema v :
  sm_Type schema ∈ schema_types → validateValue schema v = None →
  match v with
  | JString _ => sm_Type schema = "string"
  | JNumber _ => sm_Type schema = "number" ∨ sm_Type schema = "integer"
  | JBool _ => sm_Type schema = "boolean"
  | JArray _ => sm_Type schema = "array"
  | JObject _ => sm_Type schema = "object"
  | _ => False
  end.
Proof.
  destruct schema as [ty props req items enum]. cbn [sm_Type]. unfold schema_types. rewrite !elem_of_cons, elem_of_nil.
  intros Hty Hv. destruct_or?; subst; destruct v; try done; auto.
Qed.

Lemma validateValue_unknown schema v : sm_Type schema ∉ schema_types → validateValue schema v = None.
Proof.
  destruct schema as [ty props req items enum]. cbn [sm_Type]. unfold schema_types. rewrite !not_elem_of_cons. intros Hty. destruct_and?.
  simpl. by repeat match goal with |- context [String.eqb ty ?t] => rewrite (proj2 (String.eqb_neq ty t)) by done; simpl end.
Qed.

Lemma validateValue_scalar schema v :
  match v with JNumber _ => sm_Type schema = "number" ∨ sm_Type schema = "integer" | JBool _ => sm_Type schema = "boolean" | _ => False end →
  validateValue schema v = None.
Proof. destruct schema as [ty props req items enum]. simpl. destruct v; intros Hty; destruct_or?; by subst. Qed.

(** Validation accepts exactly the values that conform to the schema: of the type
    named, an enumerated string, arrays of conforming items, objects that have the
    required fields and whose known fields conform; unknown types accept all. *)
Theorem schema_validation schema v : validateValue schema v = None ↔ conforms schema v.
Proof.
  revert v. induction schema as [schema Hprops Hitems] using schema_ind'. intros v.
  pose proof (conj Hprops Hitems : parts_agree schema) as Hparts. clear Hprops Hitems.
  destruct (decide (sm_Type schema ∈ schema_types)) as [Hin|Hout].
  - rewrite conforms_known by done. split.
    + intros Hv. pose proof (validateValue_type schema v Hin Hv) as Hty. destruct v; try done.
      * split; [done|]. by apply (string_conforms schema).
      * split; [done|]. by apply (array_conforms schema).
      * split; [done|]. rewrite validateValue_object in Hv by done. by apply (object_conforms schema).
    + destruct v; try done; [apply (validateValue_scalar schema (JBool _))|apply (validateValue_scalar schema (JNumber _))|intros [Hty Hv]|intros [Hty Hv]|intros [Hty Hv]].
      * by apply string_conforms.
      * by apply array_conforms.
      * rewrite validateValue_object by done. by apply object_conforms.
  - split; intros _; [by apply conforms_any|by apply validateValue_unknown].
Qed.

(** ** Branches *)

Lemma split_dot_app p n :
  string_forall (λ c, negb (Ascii.eqb c ".")) n = true → split_dot (p +:+ "." +:+ n) = split_dot p ++ [n].
Proof.
  intros Hn. assert (split_dot n = [n]) as Hsplit.
  { induction n as [|c n IH]; [done|]. simpl in *. destruct (Ascii.eqb c "."); [done|]. by rewrite IH. }
  induction p as [|c p IH]; [change ("" +:+ "." +:+ n) with (String "." n); simpl; by rewrite Hsplit|].
  change (String c p +:+ "." +:+ n) with (String c (p +:+ "." +:+ n)). simpl.
  rewrite IH. destruct (Ascii.eqb c "."); [done|]. destruct (split_dot p) eqn:Hp; [by apply split_dot_nonempty in Hp|done].
Qed.

Lemma join_split p : strings_Join (split_dot p) "." = p.
Proof.
  induction p as [|c p IH]; [done|]. simpl. pose proof (split_dot_nonempty p) as Hne.
  destruct (Ascii.eqb c ".") eqn:Hc; [apply Ascii.eqb_eq in Hc as ->|]; destruct (split_dot p) as [|q qs]; try done.
  - simpl in *. by rewrite IH.
  - destruct qs; simpl in *; rewrite <-IH; done.
Qed.

(** The agents run below a branch, whose names have no dots, have branches below
    it; two of them are siblings exactly when their names differ. *)
Theorem branch_children b n1 n2 :
  br_Path b ≠ "" → string_forall (λ c, negb (Ascii.eqb c ".")) n1 = true → string_forall (λ c, negb (Ascii.eqb c ".")) n2 = true →
  IsParentOf b (branch_Child n1 b) = true ∧ br_ParentBranch (branch_Child n1 b) = br_Path b ∧
  (IsSiblingOf (branch_Child n1 b) (branch_Child n2 b) = true ↔ n1 ≠ n2).
Proof.
  intros Hne Hn1 Hn2.
  assert (∀ n, string_forall (λ c, negb (Ascii.eqb c ".")) n = true → branch_Child n b = mkBranch (br_Path b +:+ "." +:+ n) (br_Path b)) as Hchild.
  { intros n Hn. unfold branch_Child. rewrite (proj2 (String.eqb_neq _ _) Hne). unfold NewBranch. rewrite split_dot_app by done. f_equal.
    rewrite length_app. simpl. destruct (Nat.ltb_spec 1 (length (split_dot (br_Path b)) + 1)) as [_|Hlt].
    - replace (_ + 1 - 1)%nat with (length (split_dot (br_Path b))) by lia. rewrite take_app_length. apply join_split.
    - destruct (split_dot (br_Path b)) eqn:Hs; [by apply split_dot_nonempty in Hs|simpl in Hlt; lia]. }
  rewrite (Hchild n1 Hn1), (Hchild n2 Hn2). unfold IsParentOf, IsSiblingOf. cbn [br_Path br_ParentBranch].
  split; [|split; [done|]].
  - rewrite <-string_app_assoc. apply prefix_app.
  - rewrite String.eqb_refl. simpl. rewrite negb_true_iff, String.eqb_neq. split; [by intros Hd ->|].
    intros Hd Heq. apply Hd. by do 2 apply key_inj in Heq.
Qed.
