(* ===== verification/Plugins.v ===== *)
(** * Plugins of LLM flows (pkg/runtime/llm_flow.go)

    The plugin manager, the callbacks it runs and the built-in plugins (logging,
    metrics, authorization, rate limits, caching), over an arbitrary world: a
    callback is a function of the world.  A plugin is known by its name; the manager
    holds the only reference to it that changes it. *)

From stdpp Require Import base gmap strings list fin_maps relations pretty sorting.
From S2P Require Import Prelude Etcd Invocation Streams AsyncRuntime.

Open Scope Z_scope.

Section Plugins.
Context {W : Type}.

Definition BeforeModelCallback : Type := W → result (option LlmResponse) * W.
Definition AfterModelCallback : Type := LlmResponse → W → result (option LlmResponse) * W.
Definition OnModelErrorCallback : Type := error → W → result (option LlmResponse) * W.
Definition BeforeToolCallback : Type := string → gmap string Value → W → option error * W.
Definition AfterToolCallback : Type := string → gmap string Value → Value → option error → W → option error * W.

Record Plugin := mkPlugin {
  pl_Name : string;
  pl_Priority : Z;
  pl_Enabled : bool;
  pl_Initialize : W → option error * W;
  pl_Cleanup : W → option error * W;
  pl_BeforeModel : list BeforeModelCallback;
  pl_AfterModel : list AfterModelCallback;
  pl_OnModelError : list OnModelErrorCallback;
  pl_BeforeTool : list BeforeToolCallback;
  pl_AfterTool : list AfterToolCallback;
}.

Definition SetEnabled (b : bool) (p : Plugin) : Plugin :=
  mkPlugin (pl_Name p) (pl_Priority p) b (pl_Initialize p) (pl_Cleanup p) (pl_BeforeModel p) (pl_AfterModel p) (pl_OnModelError p)
    (pl_BeforeTool p) (pl_AfterTool p).

(** [NewBasePlugin] *)
Definition NewBasePlugin (name : string) (priority : Z) : Plugin :=
  mkPlugin name priority true (λ w, (None, w)) (λ w, (None, w)) [] [] [] [] [].

Record PluginManager := mkPluginManager {
  pm_plugins : gmap string Plugin;
  pm_pluginOrder : list string;
  pm_initialized : bool;
}.

Definition NewPluginManager : PluginManager := mkPluginManager ∅ [] false.

Definition priority_of (plugins : gmap string Plugin) (name : string) : Z := from_option pl_Priority 0 (plugins !! name).

(** Before the first plugin of a lower priority, or at the end. *)
Fixpoint insert_by_priority (plugins : gmap string Plugin) (p : Plugin) (order : list string) : list string :=
  match order with
  | [] => [pl_Name p]
  | name :: order' =>
      if priority_of plugins name <? pl_Priority p then pl_Name p :: order
      else name :: insert_by_priority plugins p order'
  end.

Definition Register (p : Plugin) (pm : PluginManager) : option error * PluginManager :=
  match pm_plugins pm !! pl_Name p with
  | Some _ => (Some (EText ("plugin " +:+ pl_Name p +:+ " already registered")), pm)
  | None =>
      let plugins := <[pl_Name p := p]> (pm_plugins pm) in
      (None, mkPluginManager plugins (insert_by_priority plugins p (pm_pluginOrder pm)) (pm_initialized pm))
  end.

Definition not_registered (name : string) : error := EText ("plugin " +:+ name +:+ " not registered").

Fixpoint remove_name (name : string) (order : list string) : list string :=
  match order with
  | [] => []
  | n :: order' => if String.eqb n name then order' else n :: remove_name name order'
  end.

Definition Unregister (name : string) (pm : PluginManager) (w : W) : option error * PluginManager * W :=
  match pm_plugins pm !! name with
  | None => (Some (not_registered name), pm, w)
  | Some p =>
      let '(err, w) := if pm_initialized pm then pl_Cleanup p w else (None, w) in
      match err with
      | Some e => (Some (EWrap ("plugin " +:+ name +:+ " cleanup failed: ") e ""), pm, w)
      | None =>
          (None, mkPluginManager (delete name (pm_plugins pm)) (remove_name name (pm_pluginOrder pm)) (pm_initialized pm), w)
      end
  end.

Fixpoint initialize_all (plugins : gmap string Plugin) (order : list string) (w : W) : option (option error * W) :=
  match order with
  | [] => Some (None, w)
  | name :: order' =>
      p ← plugins !! name;
      if pl_Enabled p then
        let '(err, w) := pl_Initialize p w in
        match err with
        | Some e => Some (Some (EWrap ("plugin " +:+ name +:+ " initialization failed: ") e ""), w)
        | None => initialize_all plugins order' w
        end
      else initialize_all plugins order' w
  end.

Definition Initialize (pm : PluginManager) (w : W) : option (option error * PluginManager * W) :=
  if pm_initialized pm then Some (None, pm, w)
  else
    '(err, w) ← initialize_all (pm_plugins pm) (pm_pluginOrder pm) w;
    Some (err, match err with
               | Some _ => pm
               | None => mkPluginManager (pm_plugins pm) (pm_pluginOrder pm) true
               end, w).

Fixpoint cleanup_all (plugins : gmap string Plugin) (reversed : list string) (w : W) : option (list error * W) :=
  match reversed with
  | [] => Some ([], w)
  | name :: reversed' =>
      p ← plugins !! name;
      let '(err, w) := if pl_Enabled p then pl_Cleanup p w else (None, w) in
      '(errs, w) ← cleanup_all plugins reversed' w;
      Some (match err with Some e => EWrap ("plugin " +:+ name +:+ ": ") e "" :: errs | None => errs end, w)
  end.

Definition Plugins_Cleanup (pm : PluginManager) (w : W) : option (option error * PluginManager * W) :=
  if pm_initialized pm then
    '(errs, w) ← cleanup_all (pm_plugins pm) (rev (pm_pluginOrder pm)) w;
    Some (match errs with [] => None | _ => Some (EText ("cleanup errors: [" +:+ strings_Join (Error <$> errs) " " +:+ "]")) end,
          mkPluginManager (pm_plugins pm) (pm_pluginOrder pm) false, w)
  else Some (None, pm, w).

Definition set_plugin_enabled (b : bool) (name : string) (pm : PluginManager) : option error * PluginManager :=
  match pm_plugins pm !! name with
  | None => (Some (not_registered name), pm)
  | Some p => (None, mkPluginManager (<[name := SetEnabled b p]> (pm_plugins pm)) (pm_pluginOrder pm) (pm_initialized pm))
  end.
Definition EnablePlugin : string → PluginManager → option error * PluginManager := set_plugin_enabled true.
Definition DisablePlugin : string → PluginManager → option error * PluginManager := set_plugin_enabled false.

(** The enabled plugins in order. *)
Definition enabled_plugins (pm : PluginManager) : list Plugin :=
  filter (λ p, pl_Enabled p = true) (omap (λ name, pm_plugins pm !! name) (pm_pluginOrder pm)).

(** The callbacks of the enabled plugins in order, with the plugin's name. *)
Definition callbacks_of {C} (get : Plugin → list C) (pm : PluginManager) : list (string * C) :=
  enabled_plugins pm ≫= λ p, (pl_Name p,.) <$> get p.

Fixpoint before_model (cbs : list (string * BeforeModelCallback)) (w : W) : result (option LlmResponse) * W :=
  match cbs with
  | [] => (inr None, w)
  | (name, cb) :: cbs' =>
      let '(r, w) := cb w in
      match r with
      | inl e => (inl (EWrap ("plugin " +:+ name +:+ " before_model: ") e ""), w)
      | inr (Some response) => (inr (Some response), w)
      | inr None => before_model cbs' w
      end
  end.
Definition RunBeforeModelCallbacks (pm : PluginManager) : W → result (option LlmResponse) * W :=
  before_model (callbacks_of pl_BeforeModel pm).

Fixpoint after_model (cbs : list (string * AfterModelCallback)) (resp : LlmResponse) (w : W) : result LlmResponse * W :=
  match cbs with
  | [] => (inr resp, w)
  | (name, cb) :: cbs' =>
      let '(r, w) := cb resp w in
      match r with
      | inl e => (inl (EWrap ("plugin " +:+ name +:+ " after_model: ") e ""), w)
      | inr altered => after_model cbs' (default resp altered) w
      end
  end.
Definition RunAfterModelCallbacks (pm : PluginManager) : LlmResponse → W → result LlmResponse * W :=
  after_model (callbacks_of pl_AfterModel pm).

Fixpoint on_model_error (cbs : list (string * OnModelErrorCallback)) (err : error) (w : W) : result (option LlmResponse) * W :=
  match cbs with
  | [] => (inr None, w)
  | (name, cb) :: cbs' =>
      let '(r, w) := cb err w in
      match r with
      | inl e => (inl (EWrap ("plugin " +:+ name +:+ " on_model_error: ") e ""), w)
      | inr (Some response) => (inr (Some response), w)
      | inr None => on_model_error cbs' err w
      end
  end.
Definition RunOnModelErrorCallbacks (pm : PluginManager) : error → W → result (option LlmResponse) * W :=
  on_model_error (callbacks_of pl_OnModelError pm).

Fixpoint before_tool (cbs : list (string * BeforeToolCallback)) (toolName : string) (args : gmap string Value) (w : W) : option error * W :=
  match cbs with
  | [] => (None, w)
  | (name, cb) :: cbs' =>
      let '(err, w) := cb toolName args w in
      match err with
      | Some e => (Some (EWrap ("plugin " +:+ name +:+ " before_tool: ") e ""), w)
      | None => before_tool cbs' toolName args w
      end
  end.
Definition RunBeforeToolCallbacks (pm : PluginManager) : string → gmap string Value → W → option error * W :=
  before_tool (callbacks_of pl_BeforeTool pm).

Fixpoint after_tool (cbs : list (string * AfterToolCallback)) (toolName : string) (args : gmap string Value) (res : Value) (err : option error) (w : W)
    : option error * W :=
  match cbs with
  | [] => (None, w)
  | (name, cb) :: cbs' =>
      let '(e, w) := cb toolName args res err w in
      match e with
      | Some e => (Some (EWrap ("plugin " +:+ name +:+ " after_tool: ") e ""), w)
      | None => after_tool cbs' toolName args res err w
      end
  end.
Definition RunAfterToolCallbacks (pm : PluginManager) : string → gmap string Value → Value → option error → W → option error * W :=
  after_tool (callbacks_of pl_AfterTool pm).

(** ** Built-in plugins

    The state of a plugin is a part of the world, read with [get] and written with
    [put]; [now] reads the clock. *)

Definition with_callbacks (p : Plugin) (bm : list BeforeModelCallback) (am : list AfterModelCallback) (me : list OnModelErrorCallback)
    (bt : list BeforeToolCallback) (at_ : list AfterToolCallback) : Plugin :=
  mkPlugin (pl_Name p) (pl_Priority p) (pl_Enabled p) (pl_Initialize p) (pl_Cleanup p)
    (pl_BeforeModel p ++ bm) (pl_AfterModel p ++ am) (pl_OnModelError p ++ me) (pl_BeforeTool p ++ bt) (pl_AfterTool p ++ at_).

(** What it prints is not modelled. *)
Definition NewLoggingPlugin : Plugin :=
  with_callbacks (NewBasePlugin "logging" 100) [λ w, (inr None, w)] [λ _ w, (inr None, w)] []
    [λ _ _ w, (None, w)] [λ _ _ _ _ w, (None, w)].

Record Metrics := mkMetrics { mp_modelCalls : Z; mp_toolCalls : Z; mp_totalTokens : Z; mp_errors : Z }.

Definition NewMetricsPlugin (get : W → Metrics) (put : Metrics → W → W) : Plugin :=
  with_callbacks (NewBasePlugin "metrics" 50)
    [λ w, let m := get w in (inr None, put (mkMetrics (mp_modelCalls m + 1) (mp_toolCalls m) (mp_totalTokens m) (mp_errors m)) w)]
    [λ resp w, let m := get w in
       (inr None, match lr_UsageMetadata resp with
                  | Some u => put (mkMetrics (mp_modelCalls m) (mp_toolCalls m) (mp_totalTokens m + um_TotalTokens u) (mp_errors m)) w
                  | None => w
                  end)]
    [λ _ w, let m := get w in (inr None, put (mkMetrics (mp_modelCalls m) (mp_toolCalls m) (mp_totalTokens m) (mp_errors m + 1)) w)]
    [λ _ _ w, let m := get w in (None, put (mkMetrics (mp_modelCalls m) (mp_toolCalls m + 1) (mp_totalTokens m) (mp_errors m)) w)]
    [].

(** The authorization plugin: the tools of the list are allowed, the others as
    [denyByDefault] says. *)
Definition authorize (allowed : gmap string bool) (denyByDefault : bool) (toolName : string) : option error :=
  if denyByDefault then
    match allowed !! toolName with
    | Some true => None
    | _ => Some (EText ("tool " +:+ toolName +:+ " not authorized"))
    end
  else
    match allowed !! toolName with
    | Some false => Some (EText ("tool " +:+ toolName +:+ " explicitly denied"))
    | _ => None
    end.
Definition initial_allowed (allowedTools : list string) : gmap string bool := foldl (λ m tool, <[tool := true]> m) ∅ allowedTools.
Definition AllowTool (name : string) (allowed : gmap string bool) : gmap string bool := <[name := true]> allowed.
Definition DenyTool (name : string) (allowed : gmap string bool) : gmap string bool := <[name := false]> allowed.

Definition NewAuthorizationPlugin (get : W → gmap string bool) (denyByDefault : bool) : Plugin :=
  with_callbacks (NewBasePlugin "authorization" 90) [] [] [] [λ toolName _ w, (authorize (get w) denyByDefault toolName, w)] [].

(** The rate limit: the calls of the last minute are kept. *)
Definition admit_call (maxCallsPerMinute : Z) (now : Time) (callTimestamps : list Time) : bool * list Time :=
  let windowStart := now - Minute in
  let validTimestamps := filter (λ ts, windowStart < ts) callTimestamps in
  if maxCallsPerMinute <=? Z.of_nat (length validTimestamps) then (false, validTimestamps) else (true, validTimestamps ++ [now]).

Definition rate_limited (maxCallsPerMinute : Z) : LlmResponse :=
  mkResponse None false "rate_limited" ("rate limit exceeded: " +:+ pretty maxCallsPerMinute +:+ " calls per minute") false false None.

Definition NewRateLimitPlugin (maxCallsPerMinute : Z) (now : W → Time) (get : W → list Time) (put : list Time → W → W) : Plugin :=
  with_callbacks (NewBasePlugin "rate_limit" 95)
    [λ w, let '(admitted, ts) := admit_call maxCallsPerMinute (now w) (get w) in
          (inr (if admitted then None else Some (rate_limited maxCallsPerMinute)), put ts w)] [] [] [] [].

(** The callback with a window that starts anew: the count and the start. *)
Definition admit_in_window (MaxCallsPerMinute : Z) (now : Time) (s : Z * Time) : bool * (Z * Time) :=
  let '(callCount, windowStart) := if Minute <? now - s.2 then (0, now) else s in
  if MaxCallsPerMinute <=? callCount then (false, (callCount, windowStart)) else (true, (callCount + 1, windowStart)).

Definition RateLimitingBeforeModelCallback (MaxCallsPerMinute : Z) (now : W → Time) (get : W → Z * Time) (put : Z * Time → W → W)
    : BeforeModelCallback :=
  λ w, let '(admitted, s) := admit_in_window MaxCallsPerMinute (now w) (get w) in
       (inr (if admitted then None else Some (rate_limited MaxCallsPerMinute)), put s w).

(** The cache, keyed by the system instruction, which [instruction] reads from the
    request at hand. *)
Definition CachingBeforeModelCallback (instruction : W → string) (cache : W → gmap string LlmResponse) : BeforeModelCallback :=
  λ w, (inr (cache w !! instruction w), w).

Record CacheState := mkCacheState { ca_cache : gmap string LlmResponse; ca_hits : Z; ca_misses : Z }.

Definition NewCachingPlugin (instruction : W → string) (get : W → CacheState) (put : CacheState → W → W) : Plugin :=
  with_callbacks (NewBasePlugin "caching" 80)
    [λ w, let c := get w in
          match ca_cache c !! instruction w with
          | Some cached => (inr (Some cached), put (mkCacheState (ca_cache c) (ca_hits c + 1) (ca_misses c)) w)
          | None => (inr None, put (mkCacheState (ca_cache c) (ca_hits c) (ca_misses c + 1)) w)
          end]
    [λ _ w, (inr None, w)] [] [] [].
Definition ClearCache (c : CacheState) : CacheState := mkCacheState ∅ (ca_hits c) (ca_misses c).

(** ** The order of plugins *)

Record plugins_ok (pm : PluginManager) : Prop := {
  po_nodup : NoDup (pm_pluginOrder pm);
  po_names name : name ∈ pm_pluginOrder pm ↔ is_Some (pm_plugins pm !! name);
  po_keys name p : pm_plugins pm !! name = Some p → pl_Name p = name;
  po_sorted : StronglySorted (λ a b, priority_of (pm_plugins pm) b ≤ priority_of (pm_plugins pm) a) (pm_pluginOrder pm);
}.

Lemma insert_by_priority_perm plugins p order : insert_by_priority plugins p order ≡ₚ pl_Name p :: order.
Proof.
  induction order as [|n order IH]; simpl; [done|]. case_match; [done|]. rewrite IH. apply Permutation_swap.
Qed.

Lemma insert_by_priority_sorted (plugins : gmap string Plugin) p order :
  priority_of plugins (pl_Name p) = pl_Priority p →
  StronglySorted (λ a b, priority_of plugins b ≤ priority_of plugins a) order →
  StronglySorted (λ a b, priority_of plugins b ≤ priority_of plugins a) (insert_by_priority plugins p order).
Proof.
  intros Hp. induction 1 as [|n order Hs IH Hall]; simpl; [by repeat constructor|].
  destruct (Z.ltb_spec (priority_of plugins n) (pl_Priority p)) as [Hlt|Hge].
  - constructor; [by constructor|]. constructor; [lia|]. eapply Forall_impl; [exact Hall|]. intros x Hx. simpl in Hx. lia.
  - constructor; [done|]. rewrite insert_by_priority_perm. constructor; [lia|done].
Qed.

Lemma sorted_ext {A} (R R' : A → A → Prop) l :
  (∀ a b, a ∈ l → b ∈ l → R a b → R' a b) → StronglySorted R l → StronglySorted R' l.
Proof.
  intros Hext Hs. induction Hs as [|a l Hs IH Hall]; [constructor|]. constructor.
  - apply IH. intros x y Hx Hy. apply Hext; by right.
  - rewrite Forall_forall in Hall |- *. intros x Hx. apply Hext; [by left|by right|]. by apply Hall.
Qed.

Lemma remove_name_perm name order : name ∈ order → order ≡ₚ name :: remove_name name order.
Proof.
  induction order as [|n order IH]; [by intros ?%elem_of_nil|]. simpl. destruct (String.eqb_spec n name) as [->|Hne]; [done|].
  rewrite elem_of_cons. intros [->|Hin]; [done|]. rewrite (IH Hin) at 1. apply Permutation_swap.
Qed.

Lemma remove_name_sorted (R : string → string → Prop) name order : StronglySorted R order → StronglySorted R (remove_name name order).
Proof.
  induction 1 as [|n order Hs IH Hall]; simpl; [constructor|]. case_match; [done|]. constructor; [done|].
  rewrite Forall_forall in Hall |- *. intros x Hx. apply Hall. clear -Hx. induction order as [|m order IH]; simpl in Hx; [done|].
  case_match; [by right|]. apply elem_of_cons in Hx as [->|Hx]; [by left|right; auto].
Qed.

(** What a program does with a manager. *)
Inductive manager_step : PluginManager → PluginManager → Prop :=
  | ms_register p pm : manager_step pm (Register p pm).2
  | ms_unregister name pm w : manager_step pm (Unregister name pm w).1.2
  | ms_initialize pm w err pm' w' : Initialize pm w = Some (err, pm', w') → manager_step pm pm'
  | ms_cleanup pm w err pm' w' : Plugins_Cleanup pm w = Some (err, pm', w') → manager_step pm pm'
  | ms_enabled b name pm : manager_step pm (set_plugin_enabled b name pm).2.

Lemma register_ok p pm : plugins_ok pm → plugins_ok (Register p pm).2.
Proof.
  intros [Hnd Hn Hk Hs]. unfold Register. destruct (pm_plugins pm !! pl_Name p) as [q|] eqn:Hq; [by constructor|].
  assert (pl_Name p ∉ pm_pluginOrder pm) as Hni by (rewrite Hn, Hq; by intros [? [=]]).
  constructor; simpl.
  - rewrite insert_by_priority_perm. by constructor.
  - intros name. rewrite insert_by_priority_perm, elem_of_cons, Hn, lookup_insert_is_Some.
    destruct (decide (pl_Name p = name)); naive_solver.
  - intros name q. rewrite lookup_insert_Some. intros [[<- <-]|[_ Hl]]; [done|by apply Hk].
  - apply insert_by_priority_sorted; [unfold priority_of; by rewrite lookup_insert_eq|].
    eapply sorted_ext; [|exact Hs]. intros a b Ha Hb. unfold priority_of. rewrite !lookup_insert_ne by (intros <-; done). done.
Qed.

Lemma unregister_ok name pm w : plugins_ok pm → plugins_ok (Unregister name pm w).1.2.
Proof.
  intros [Hnd Hn Hk Hs]. unfold Unregister. destruct (pm_plugins pm !! name) as [p|] eqn:Hp; [|by constructor].
  destruct (if pm_initialized pm then _ else _) as [[e|] w1]; [by constructor|].
  assert (pm_pluginOrder pm ≡ₚ name :: remove_name name (pm_pluginOrder pm)) as Hperm by (apply remove_name_perm, Hn; by eexists).
  assert (NoDup (name :: remove_name name (pm_pluginOrder pm))) as [Hni Hnd']%NoDup_cons by (by rewrite <- Hperm). constructor; simpl.
  - done.
  - intros n. assert (n ∈ pm_pluginOrder pm ↔ n = name ∨ n ∈ remove_name name (pm_pluginOrder pm)) as Hiff
      by (rewrite Hperm at 1; apply elem_of_cons).
    rewrite lookup_delete_is_Some, <- Hn, Hiff. split; [|naive_solver].
    intros Hin. split; [by intros <-|by right].
  - intros n q. rewrite lookup_delete_Some. intros [_ Hl]. by apply Hk.
  - eapply sorted_ext; [|by apply remove_name_sorted]. intros a b Ha Hb. unfold priority_of.
    rewrite !lookup_delete_ne by (intros ->; done). done.
Qed.

Lemma enabled_ok b name pm : plugins_ok pm → plugins_ok (set_plugin_enabled b name pm).2.
Proof.
  intros [Hnd Hn Hk Hs]. unfold set_plugin_enabled. destruct (pm_plugins pm !! name) as [p|] eqn:Hp; [|by constructor].
  assert (∀ n, priority_of (<[name:=SetEnabled b p]> (pm_plugins pm)) n = priority_of (pm_plugins pm) n) as Hpr.
  { intros n. unfold priority_of. rewrite lookup_insert. case_decide; [subst; by rewrite Hp|done]. }
  constructor; simpl.
  - done.
  - intros n. rewrite Hn, lookup_insert_is_Some. destruct (decide (name = n)) as [<-|]; [rewrite Hp|]; naive_solver.
  - intros n q. rewrite lookup_insert_Some. intros [[<- <-]|[_ Hl]]; [exact (Hk _ _ Hp)|by apply Hk].
  - eapply sorted_ext; [|exact Hs]. intros x y _ _. by rewrite !Hpr.
Qed.

Lemma manager_step_ok pm pm' : manager_step pm pm' → plugins_ok pm → plugins_ok pm'.
Proof.
  intros Hs Hok. destruct Hs as [p pm|name pm w|pm w err pm' w' Hi|pm w err pm' w' Hc|b name pm].
  - by apply register_ok.
  - by apply unregister_ok.
  - unfold Initialize in Hi. destruct (pm_initialized pm); [by simplify_eq|].
    destruct (initialize_all _ _ w) as [[[e|] w1]|]; simplify_option_eq; [done|]. by destruct Hok.
  - unfold Plugins_Cleanup in Hc. destruct (pm_initialized pm); [|by simplify_eq].
    destruct (cleanup_all _ _ w) as [[errs w1]|]; simplify_option_eq. by destruct Hok.
  - by apply enabled_ok.
Qed.

(** Whatever is done with a plugin manager, its order names the registered plugins,
    each once, by falling priority; so the callbacks run in that order, and no run
    of them meets a name without a plugin. *)
Theorem plugin_order pm :
  rtc manager_step NewPluginManager pm →
  plugins_ok pm ∧
  (∀ w, is_Some (Initialize pm w)) ∧ (∀ w, is_Some (Plugins_Cleanup pm w)) ∧
  StronglySorted (λ p q, pl_Priority q ≤ pl_Priority p) (enabled_plugins pm).
Proof.
  intros Hrun. assert (plugins_ok pm) as Hok.
  { assert (plugins_ok NewPluginManager) as H0.
    { constructor; simpl; [constructor| |by intros name p; rewrite lookup_empty|constructor].
      intros name. rewrite lookup_empty. split; [by intros ?%elem_of_nil|by intros [? [=]]]. }
    induction Hrun as [|x y z Hxy _ IH]; [done|]. apply IH. by eapply manager_step_ok. }
  destruct Hok as [Hnd Hn Hk Hs]. split; [by constructor|].
  assert (∀ n, n ∈ pm_pluginOrder pm → is_Some (pm_plugins pm !! n)) as Hall by (intros n; apply Hn). split; [|split].
  - intros w. unfold Initialize. destruct (pm_initialized pm); [by eexists|].
    assert (∃ r, initialize_all (pm_plugins pm) (pm_pluginOrder pm) w = Some r) as [[err w'] ->]; [|simpl; by eexists].
    revert w. clear -Hall. induction (pm_pluginOrder pm) as [|n order IH]; intros w; simpl; [by eexists|].
    destruct (Hall n) as [p Hp]; [by left|]. rewrite Hp. simpl. assert (∀ w, ∃ r, initialize_all (pm_plugins pm) order w = Some r) as IH'.
    { apply IH. intros m Hm. apply Hall. by right. }
    destruct (pl_Enabled p); [|done]. destruct (pl_Initialize p w) as [[e|] w1]; [by eexists|done].
  - intros w. unfold Plugins_Cleanup. destruct (pm_initialized pm); [|by eexists].
    assert (∀ l, (∀ n, n ∈ l → is_Some (pm_plugins pm !! n)) → ∀ w, ∃ r, cleanup_all (pm_plugins pm) l w = Some r) as Hgo.
    { clear. induction l as [|n l IH]; intros Hl w; simpl; [by eexists|]. destruct (Hl n) as [p Hp]; [by left|]. rewrite Hp. simpl.
      destruct (if pl_Enabled p then _ else _) as [e w1]. destruct (IH (λ m Hm, Hl m (list_elem_of_further m n l Hm)) w1) as [[errs w2] ->].
      simpl. by eexists. }
    destruct (Hgo (rev (pm_pluginOrder pm))) with (w := w) as [[errs w'] ->]; [|simpl; by eexists].
    intros n. rewrite list_elem_of_In, <- in_rev, <- list_elem_of_In. apply Hall.
  - unfold enabled_plugins. clear Hnd Hn. induction Hs as [|n order Hs IH Hfo]; [constructor|].
    destruct (Hall n) as [p Hp]; [by left|]. cbn [omap list_omap]. rewrite Hp.
    assert (StronglySorted (λ p q, pl_Priority q ≤ pl_Priority p) (filter (λ p, pl_Enabled p = true) (omap (λ name, pm_plugins pm !! name) order))) as IH'.
    { apply IH. intros m Hm. apply Hall. by right. }
    rewrite filter_cons. case_decide; [|done]. constructor; [done|]. apply Forall_forall. intros q Hq.
    apply list_elem_of_filter in Hq as [_ Hq]. apply list_elem_of_omap in Hq as (m & Hm & Hq).
    rewrite Forall_forall in Hfo. specialize (Hfo m Hm). simpl in Hfo. unfold priority_of in Hfo. by rewrite Hp, Hq in Hfo.
Qed.

End Plugins.

(** ** The rate limit *)

(** The times of the calls that are admitted, of calls at the given times. *)
Fixpoint admitted_calls (max : Z) (calls : list Time) (ts : list Time) : list Time :=
  match calls with
  | [] => []
  | now :: calls' =>
      let '(admitted, ts) := admit_call max now ts in
      if admitted then now :: admitted_calls max calls' ts else admitted_calls max calls' ts
  end.

(** The calls in the minute that ends at [t]. *)
Definition calls_in (t : Time) (calls : list Time) : list Time := filter (λ c, t - Minute < c ∧ c ≤ t) calls.

Lemma filter_filter_later (a b : Time) (l : list Time) : a ≤ b → filter (λ c, b < c) (filter (λ c, a < c) l) = filter (λ c, b < c) l.
Proof.
  intros Hab. induction l as [|x l IH]; [done|]. rewrite (filter_cons (λ c, a < c)). case_decide.
  - rewrite !filter_cons, IH. done.
  - rewrite IH, filter_cons_False by lia. done.
Qed.

(** [front] was admitted before, [ts] is what is left of it at [last]. *)
Lemma admitted_window max calls ts front (last t : Time) :
  0 ≤ max → Sorted Z.le (last :: calls) → ts = filter (λ c, last - Minute < c) front →
  Z.of_nat (length (calls_in t front)) ≤ max →
  Z.of_nat (length (calls_in t (front ++ admitted_calls max calls ts))) ≤ max.
Proof.
  intros Hmax. revert ts front last. induction calls as [|now calls IH]; intros ts front last Hs Hts Hin; simpl.
  { by rewrite app_nil_r. }
  apply Sorted_inv in Hs as [Hs Hle%HdRel_inv]. unfold admit_call.
  assert (filter (λ c, now - Minute < c) ts = filter (λ c, now - Minute < c) front) as Hf by (subst; apply filter_filter_later; lia).
  rewrite Hf. destruct (Z.leb_spec max (Z.of_nat (length (filter (λ c, now - Minute < c) front)))) as [Hfull|Hroom].
  - by apply (IH _ _ now).
  - rewrite (cons_middle now front), app_assoc. apply (IH _ _ now); [done| |].
    + rewrite filter_app. f_equal. rewrite filter_cons_True; [done|]. unfold Minute, Second. lia.
    + unfold calls_in in *. rewrite filter_app, length_app, filter_cons. case_decide as Hw; [|cbn [filter list_filter length]; lia].
      cbn [filter list_filter length]. assert (Z.of_nat (length (filter (λ c, t - Minute < c ∧ c ≤ t) front)) ≤ Z.of_nat (length (filter (λ c, now - Minute < c) front))); [|lia].
      clear -Hw. induction front as [|x l IH]; [done|]. rewrite !filter_cons. repeat case_decide; simpl; lia.
Qed.

(** In no minute does the rate limit plugin admit more calls than its maximum. *)
Theorem rate_limit_window max calls t :
  0 ≤ max → Sorted Z.le calls → Z.of_nat (length (calls_in t (admitted_calls max calls []))) ≤ max.
Proof.
  intros Hmax Hs. destruct calls as [|c calls]; [done|].
  apply (admitted_window max (c :: calls) [] [] c t Hmax); [|done|done]. constructor; [done|constructor; lia].
Qed.

(** The callback with a window that starts anew admits twice as many. *)
Fixpoint admitted_in_windows (max : Z) (calls : list Time) (s : Z * Time) : list Time :=
  match calls with
  | [] => []
  | now :: calls' =>
      let '(admitted, s) := admit_in_window max now s in
      if admitted then now :: admitted_in_windows max calls' s else admitted_in_windows max calls' s
  end.

Example window_burst :
  let calls := [100000000000; 159000000000; 159000000000; 161000000000; 161000000000; 161000000000] in
  calls_in 161000000000 (admitted_in_windows 3 calls (0, 0)) = [159000000000; 159000000000; 161000000000; 161000000000; 161000000000].
Proof. vm_compute. reflexivity. Qed.

(** ** What the callbacks of a manager keep *)

Section Acts.
Context {W : Type} (R : W → W → Prop) `{!PreOrder R}.

Record plugin_acts (p : @Plugin W) : Prop := {
  pa_before_model cb : cb ∈ pl_BeforeModel p → ∀ w, R w (cb w).2;
  pa_after_model cb : cb ∈ pl_AfterModel p → ∀ resp w, R w (cb resp w).2;
  pa_before_tool cb : cb ∈ pl_BeforeTool p → ∀ name args w, R w (cb name args w).2;
  pa_after_tool cb : cb ∈ pl_AfterTool p → ∀ name args res err w, R w (cb name args res err w).2;
}.

Definition manager_acts (pm : @PluginManager W) : Prop := ∀ name p, pm_plugins pm !! name = Some p → plugin_acts p.

Lemma callbacks_of_in {C} (get : @Plugin W → list C) pm x :
  x ∈ callbacks_of get pm ↔ ∃ p, p ∈ enabled_plugins pm ∧ x.1 = pl_Name p ∧ x.2 ∈ get p.
Proof.
  unfold callbacks_of. rewrite list_elem_of_bind. split.
  - intros (p & Hx & Hp). apply list_elem_of_fmap in Hx as (cb & -> & Hcb). eauto.
  - intros (p & Hp & Hn & Hcb). exists p. split; [|done]. apply list_elem_of_fmap. exists x.2. rewrite <- Hn. by destruct x.
Qed.

Lemma enabled_in pm (p : @Plugin W) : p ∈ enabled_plugins pm → pl_Enabled p = true ∧ ∃ name, name ∈ pm_pluginOrder pm ∧ pm_plugins pm !! name = Some p.
Proof. unfold enabled_plugins. rewrite list_elem_of_filter, list_elem_of_omap. naive_solver. Qed.

Lemma run_before_model_acts pm w : manager_acts pm → R w (RunBeforeModelCallbacks pm w).2.
Proof.
  intros Hm. unfold RunBeforeModelCallbacks.
  assert (∀ x, x ∈ callbacks_of pl_BeforeModel pm → ∀ w, R w (x.2 w).2) as Hall.
  { intros x (p & (_ & n & _ & Hp)%enabled_in & _ & Hcb)%callbacks_of_in. by apply (pa_before_model p (Hm n p Hp)). }
  revert w. induction (callbacks_of pl_BeforeModel pm) as [|[n cb] cbs IH]; intros w; simpl; [reflexivity|].
  pose proof (Hall (n, cb) (list_elem_of_here _ _) w) as Hcb. simpl in Hcb. destruct (cb w) as [[e|[r|]] w1]; simpl in *; try done.
  etrans; [exact Hcb|]. apply IH. intros x Hx. apply Hall. by right.
Qed.

Lemma run_after_model_acts pm resp w : manager_acts pm → R w (RunAfterModelCallbacks pm resp w).2.
Proof.
  intros Hm. unfold RunAfterModelCallbacks.
  assert (∀ x, x ∈ callbacks_of pl_AfterModel pm → ∀ resp w, R w (x.2 resp w).2) as Hall.
  { intros x (p & (_ & n & _ & Hp)%enabled_in & _ & Hcb)%callbacks_of_in. by apply (pa_after_model p (Hm n p Hp)). }
  revert resp w. induction (callbacks_of pl_AfterModel pm) as [|[n cb] cbs IH]; intros resp w; simpl; [reflexivity|].
  pose proof (Hall (n, cb) (list_elem_of_here _ _) resp w) as Hcb. simpl in Hcb. destruct (cb resp w) as [[e|r] w1]; simpl in *; try done.
  etrans; [exact Hcb|]. apply IH. intros x Hx. apply Hall. by right.
Qed.

Lemma run_before_tool_acts pm name args w : manager_acts pm → R w (RunBeforeToolCallbacks pm name args w).2.
Proof.
  intros Hm. unfold RunBeforeToolCallbacks.
  assert (∀ x, x ∈ callbacks_of pl_BeforeTool pm → ∀ name args w, R w (x.2 name args w).2) as Hall.
  { intros x (p & (_ & n & _ & Hp)%enabled_in & _ & Hcb)%callbacks_of_in. by apply (pa_before_tool p (Hm n p Hp)). }
  revert w. induction (callbacks_of pl_BeforeTool pm) as [|[n cb] cbs IH]; intros w; simpl; [reflexivity|].
  pose proof (Hall (n, cb) (list_elem_of_here _ _) name args w) as Hcb. simpl in Hcb. destruct (cb name args w) as [[e|] w1]; simpl in *; try done.
  etrans; [exact Hcb|]. apply IH. intros x Hx. apply Hall. by right.
Qed.

Lemma run_after_tool_acts pm name args res err w : manager_acts pm → R w (RunAfterToolCallbacks pm name args res err w).2.
Proof.
  intros Hm. unfold RunAfterToolCallbacks.
  assert (∀ x, x ∈ callbacks_of pl_AfterTool pm → ∀ name args res err w, R w (x.2 name args res err w).2) as Hall.
  { intros x (p & (_ & n & _ & Hp)%enabled_in & _ & Hcb)%callbacks_of_in. by apply (pa_after_tool p (Hm n p Hp)). }
  revert w. induction (callbacks_of pl_AfterTool pm) as [|[n cb] cbs IH]; intros w; simpl; [reflexivity|].
  pose proof (Hall (n, cb) (list_elem_of_here _ _) name args res err w) as Hcb. simpl in Hcb.
  destruct (cb name args res err w) as [[e|] w1]; simpl in *; try done.
  etrans; [exact Hcb|]. apply IH. intros x Hx. apply Hall. by right.
Qed.

End Acts.

(** A before-tool callback that refuses a tool, and still does so after the other
    callbacks, is heard. *)
Lemma before_tool_refused {W} (pm : @PluginManager W) (p : Plugin) (cb : BeforeToolCallback) name args w :
  p ∈ enabled_plugins pm → cb ∈ pl_BeforeTool p →
  (∀ x, x ∈ callbacks_of pl_BeforeTool pm → ∀ w, is_Some (cb name args w).1 → is_Some (cb name args (x.2 name args w).2).1) →
  is_Some (cb name args w).1 → is_Some (RunBeforeToolCallbacks pm name args w).1.
Proof.
  intros Hp Hcb Hkeep Hno. unfold RunBeforeToolCallbacks.
  assert (∃ n, (n, cb) ∈ callbacks_of pl_BeforeTool pm) as [n Hin] by (exists (pl_Name p); apply callbacks_of_in; eauto).
  clear Hp Hcb. revert w Hno. induction (callbacks_of pl_BeforeTool pm) as [|[m c] cbs IH]; intros w Hno; [by apply elem_of_nil in Hin|].
  simpl. destruct (c name args w) as [[e|] w1] eqn:Hc; [by eexists|]. apply elem_of_cons in Hin as [[= <- <-]|Hin].
  - rewrite Hc in Hno. by destruct Hno.
  - apply IH; [intros x Hx; apply Hkeep; by right|done|].
    pose proof (Hkeep (m, c) (list_elem_of_here _ _) w Hno) as Hk. simpl in Hk. by rewrite Hc in Hk.
Qed.
