(* ===== verification/LlmFlow.v ===== *)
(** * LLM flows (pkg/runtime/llm_flow.go)

    A flow makes a request, runs it through processors and callbacks, calls a
    provider, turns the responses into events and executes the tools they ask for.
    It is a stream over the world of the asynchronous runtimes; the request of the
    step at hand, the response being processed, the actions callbacks may set and
    the live queue are parts of that world ([FlowEnv]), since processors and
    callbacks change them in place.  A response is else a value: callbacks answer
    another one.  Providers, processors and callbacks are arbitrary; tools are known
    by a number.  Tracing, temperatures and a full live queue are left out. *)

From stdpp Require Import base gmap strings list fin_maps relations pretty.
From S2P Require Import Prelude Etcd Invocation Streams AsyncRuntime Plugins.

Open Scope Z_scope.

(** ** Requests *)

Record ToolDefinition := mkToolDefinition { td_Name : string; td_Description : string; td_Handler : option nat }.

Record GenerateConfig := mkGenerateConfig {
  gc_TopK : Z;
  gc_MaxOutputTokens : Z;
  gc_StopSequences : list string;
  gc_Labels : option (gmap string string);
}.

Record LlmRequest := mkRequest {
  rq_Contents : list Content;
  rq_SystemInstruction : string;
  rq_Tools : list ToolDefinition;
  rq_ToolsDict : gmap string ToolDefinition;
  rq_Config : option GenerateConfig;
  rq_Labels : gmap string string;
}.

(** The request a step starts with. *)
Definition new_request : LlmRequest := mkRequest [] "" [] ∅ (Some (mkGenerateConfig 0 0 [] (Some ∅))) ∅.

Definition GetFunctionCalls (r : LlmResponse) : list FunctionCall :=
  match lr_Content r with None => [] | Some c => omap pt_FunctionCall (ct_Parts c) end.
Definition HasFunctionCalls (r : LlmResponse) : bool := match GetFunctionCalls r with [] => false | _ => true end.

Definition error_response (code message : string) : LlmResponse := mkResponse None false code message false false None.

(** ** The live queue *)

Record LiveRequestQueue := mkLiveQueue { lq_requests : list LlmRequest; lq_closed : bool }.

Definition NewLiveRequestQueue : LiveRequestQueue := mkLiveQueue [] false.
Definition queue_Send (req : LlmRequest) (q : LiveRequestQueue) : LiveRequestQueue :=
  if lq_closed q then q else mkLiveQueue (lq_requests q ++ [req]) false.
Definition queue_Close (q : LiveRequestQueue) : LiveRequestQueue := mkLiveQueue (lq_requests q) true.

(** ** The world of a flow *)

(** [fe_calls] counts the calls of the model: of [GenerateContent] of the provider
    and of [RunLive] of the live provider. *)
Record FlowEnv (X : Type) := mkFlowEnv {
  fe_req : LlmRequest;
  fe_resp : LlmResponse;
  fe_actions : EventActions;
  fe_queue : option LiveRequestQueue;
  fe_lastActivity : Time;
  fe_calls : Z;
  fe_rest : X;
}.
Arguments mkFlowEnv {X}.
Arguments fe_req {X}.
Arguments fe_resp {X}.
Arguments fe_actions {X}.
Arguments fe_queue {X}.
Arguments fe_lastActivity {X}.
Arguments fe_calls {X}.
Arguments fe_rest {X}.

Section Flow.
Context {Svc X : Type}.
Local Notation Env := (FlowEnv X).
Local Notation World := (RtWorld Svc (FlowEnv X)).
Local Notation EvStream := (Stream (RtWorld Svc (FlowEnv X)) AsyncEvent).
Local Notation RespStream := (Stream (RtWorld Svc (FlowEnv X)) LlmResponse).

(** The tools' handlers, and the type assertion of a state value to a dictionary of
    tools. *)
Context (handler : nat → gmap string Value → World → result Value * World).
Context (as_tools : Value → option (gmap string ToolDefinition)).

Definition on_env (f : Env → Env) (w : World) : World := put_env (f (rw_env w)) w.
Definition put_req (r : LlmRequest) : World → World :=
  on_env (λ e, mkFlowEnv r (fe_resp e) (fe_actions e) (fe_queue e) (fe_lastActivity e) (fe_calls e) (fe_rest e)).
Definition put_resp (r : LlmResponse) : World → World :=
  on_env (λ e, mkFlowEnv (fe_req e) r (fe_actions e) (fe_queue e) (fe_lastActivity e) (fe_calls e) (fe_rest e)).
Definition put_actions (a : EventActions) : World → World :=
  on_env (λ e, mkFlowEnv (fe_req e) (fe_resp e) a (fe_queue e) (fe_lastActivity e) (fe_calls e) (fe_rest e)).
Definition on_queue (f : option LiveRequestQueue → option LiveRequestQueue) : World → World :=
  on_env (λ e, mkFlowEnv (fe_req e) (fe_resp e) (fe_actions e) (f (fe_queue e)) (fe_lastActivity e) (fe_calls e) (fe_rest e)).
Definition put_activity (t : Time) : World → World :=
  on_env (λ e, mkFlowEnv (fe_req e) (fe_resp e) (fe_actions e) (fe_queue e) t (fe_calls e) (fe_rest e)).
Definition count_call : World → World :=
  on_env (λ e, mkFlowEnv (fe_req e) (fe_resp e) (fe_actions e) (fe_queue e) (fe_lastActivity e) (fe_calls e + 1) (fe_rest e)).

(** [GenerateContent] panics with a value or answers a stream. *)
Record LlmFlow := mkLlmFlow {
  lf_RequestProcessors : list EvStream;
  lf_ResponseProcessors : list EvStream;
  lf_BeforeModel : list (@BeforeModelCallback World);
  lf_AfterModel : list (@AfterModelCallback World);
  lf_OnModelError : list (@OnModelErrorCallback World);
  lf_LlmProvider : option (World → (string + RespStream) * World);
  lf_LiveProvider : option RespStream;
  lf_AgentNameLabelKey : string;
  lf_MaxSteps : Z;
  lf_DefaultRunConfig : option RunConfig;
  lf_PluginManager : option (@PluginManager World);
  lf_BeforeTool : list (@BeforeToolCallback World);
  lf_AfterTool : list (@AfterToolCallback World);
}.

Definition NewLlmFlow (provider : World → (string + RespStream) * World) : LlmFlow :=
  mkLlmFlow [] [] [] [] [] (Some provider) None "adk_agent_name" 10 None None [] [].

(** ** Callbacks *)

Definition plugin_before_model (f : LlmFlow) (w : World) : result (option LlmResponse) * World :=
  match lf_PluginManager f with Some pm => RunBeforeModelCallbacks pm w | None => (inr None, w) end.

Fixpoint direct_before_model (cbs : list (@BeforeModelCallback World)) (w : World) : result (option LlmResponse) * World :=
  match cbs with
  | [] => (inr None, w)
  | cb :: cbs' =>
      let '(r, w) := cb w in
      match r with
      | inl e => (inl e, w)
      | inr (Some response) => (inr (Some response), w)
      | inr None => direct_before_model cbs' w
      end
  end.

Fixpoint direct_after_model (cbs : list (@AfterModelCallback World)) (response : LlmResponse) (w : World) : option LlmResponse * World :=
  match cbs with
  | [] => (None, w)
  | cb :: cbs' =>
      let '(r, w) := cb response w in
      match r with
      | inr (Some altered) => (Some altered, w)
      | _ => direct_after_model cbs' response w
      end
  end.

Definition handleAfterModelCallback (f : LlmFlow) (response : LlmResponse) (w : World) : option LlmResponse * World :=
  let '(response, w) :=
    match lf_PluginManager f with
    | Some pm => let '(r, w) := RunAfterModelCallbacks pm response w in (match r with inr altered => altered | inl _ => response end, w)
    | None => (response, w)
    end in
  direct_after_model (lf_AfterModel f) response w.

(** The first answer of an error callback; errors of callbacks are passed over. *)
Fixpoint recover_response (cbs : list (@OnModelErrorCallback World)) (err : error) (w : World) : option LlmResponse * World :=
  match cbs with
  | [] => (None, w)
  | cb :: cbs' =>
      let '(r, w) := cb err w in
      match r with
      | inr (Some recovery) => (Some recovery, w)
      | _ => recover_response cbs' err w
      end
  end.

Definition response_error (r : LlmResponse) : error := EText (lr_ErrorCode r +:+ ": " +:+ lr_ErrorMessage r).

Definition runAndHandleErrorStream (f : LlmFlow) (responses : RespStream) : RespStream :=
  sloop (λ _ response k,
           if String.eqb (lr_ErrorCode response) "" then SYield response (k tt)
           else scall (recover_response (lf_OnModelError f) (response_error response)) (λ r,
                  match r with
                  | Some recovery => SYield recovery SStop
                  | None => SYield response (k tt)
                  end))
        (λ _, SStop) responses tt.

(** What follows a panic in the call of the provider. *)
Definition after_panic (f : LlmFlow) (panic : string) : RespStream :=
  let capturedErr := EText ("panic in LLM call: " +:+ panic) in
  scall (recover_response (lf_OnModelError f) capturedErr) (λ r,
    match r with
    | Some recovery => SYield recovery SStop
    | None => SYield (error_response "llm_error" (Error capturedErr)) SStop
    end).

(** [runWithErrorHandling], of what the call of the provider came to. *)
Definition runWithErrorHandling (f : LlmFlow) (r : string + RespStream) : RespStream :=
  match r with inl panic => after_panic f panic | inr responses => responses end.

(** ** The call of the model *)

Definition getRunConfig (f : LlmFlow) (c : InvocationContext) : option RunConfig :=
  match ic_RunConfig c with Some rc => Some rc | None => lf_DefaultRunConfig f end.

Definition add_label (f : LlmFlow) (w : World) : World :=
  let req := fe_req (rw_env w) in
  let cfg := default (mkGenerateConfig 0 0 [] (Some ∅)) (rq_Config req) in
  let labels := default ∅ (gc_Labels cfg) in
  let labels := match labels !! lf_AgentNameLabelKey f with
                | Some _ => labels
                | None => <[lf_AgentNameLabelKey f := ic_AgentName (rw_ctx w)]> labels
                end in
  put_req (mkRequest (rq_Contents req) (rq_SystemInstruction req) (rq_Tools req) (rq_ToolsDict req)
             (Some (mkGenerateConfig (gc_TopK cfg) (gc_MaxOutputTokens cfg) (gc_StopSequences cfg) (Some labels))) (rq_Labels req)) w.

Inductive CallOutcome := LimitExceeded (err : error) | NoProvider | Called (r : string + RespStream).

(** The limit is checked, then the provider is called. *)
Definition count_and_call (f : LlmFlow) (w : World) : CallOutcome * World :=
  let '(err, c) := IncrementLLMCallCount (rw_ctx w) in
  let w := put_ctx c w in
  match err with
  | Some e => (LimitExceeded e, w)
  | None =>
      match lf_LlmProvider f with
      | None => (NoProvider, w)
      | Some generate => let '(r, w) := generate (count_call w) in (Called r, w)
      end
  end.

(** The response after the callbacks, handed on unless it is partial and the mode
    does not stream. *)
Definition hand_response (f : LlmFlow) (stream : bool) (response : LlmResponse) (k : LlmResponse → RespStream) : RespStream :=
  scall (handleAfterModelCallback f response) (λ altered,
    let response := default response altered in
    if stream || negb (lr_Partial response) then SYield response (k response) else k response).

Definition standard_mode (f : LlmFlow) (stream : bool) : RespStream :=
  scall (count_and_call f) (λ r,
    match r with
    | LimitExceeded err => SYield (error_response "call_limit_exceeded" (Error err)) SStop
    | NoProvider => SYield (error_response "no_provider" "LLM provider not configured") SStop
    | Called r =>
        sloop (λ _ response k, hand_response f stream response (λ _, k tt)) (λ _, SStop)
          (runWithErrorHandling f r) tt
    end).

Definition live_mode (f : LlmFlow) (stream : bool) (live : RespStream) : RespStream :=
  SDo (λ w, count_call (on_queue (λ _, Some (queue_Send (fe_req (rw_env w)) NewLiveRequestQueue)) w)) (λ _,
    sloop (λ _ response k, hand_response f stream response (λ response,
             if lr_TurnComplete response then SDo (on_queue (fmap queue_Close)) (λ _, k tt) else k tt))
      (λ _, SStop) (runAndHandleErrorStream f live) tt).

Definition callLlmAsync (f : LlmFlow) : RespStream :=
  scall (plugin_before_model f) (λ r,
    match r with
    | inl err => SYield (error_response "plugin_callback_error" (Error err)) SStop
    | inr (Some response) => SYield response SStop
    | inr None =>
        scall (direct_before_model (lf_BeforeModel f)) (λ r,
          match r with
          | inl err => SYield (error_response "callback_error" (Error err)) SStop
          | inr (Some response) => SYield response SStop
          | inr None =>
              SDo (add_label f) (λ _,
                sread (λ w, getRunConfig f (rw_ctx w)) (λ runConfig,
                  let stream := bool_decide (rc_StreamingMode <$> runConfig = Some StreamingModeSSE) in
                  let supportCFC := from_option rc_SupportCFC false runConfig in
                  match supportCFC, lf_LiveProvider f with
                  | true, Some live => live_mode f stream live
                  | _, _ => standard_mode f stream
                  end))
          end)
    end).

(** ** Events *)

Definition texts (c : Content) : list string := filter (λ t, t ≠ "") (pt_Text <$> ct_Parts c).

Definition finalizeModelResponseEvent (resp : LlmResponse) (invocationID author : string) : AsyncEvent :=
  let content :=
    match lr_Content resp with
    | None => AcValue VNil
    | Some c =>
        if HasFunctionCalls resp then AcResponse resp
        else match texts c with [] => AcValue VNil | [t] => AcValue (VString t) | ts => AcTexts ts end
    end in
  let isError := negb (String.eqb (lr_ErrorCode resp) "") in
  mkAsyncEvent invocationID author
    (if isError then EventTypeError else if HasFunctionCalls resp then EventTypeToolCall else EventTypeMessage)
    content (lr_Partial resp) None
    ((λ u, {["usage" := MtUsage u]}) <$> lr_UsageMetadata resp)
    (if isError then Some (response_error resp) else None) false.

(** ** Tools *)

Fixpoint direct_before_tool (cbs : list (@BeforeToolCallback World)) (name : string) (args : gmap string Value) (w : World) : option error * World :=
  match cbs with
  | [] => (None, w)
  | cb :: cbs' =>
      let '(err, w) := cb name args w in
      match err with Some e => (Some e, w) | None => direct_before_tool cbs' name args w end
  end.

Definition before_tool_callbacks (f : LlmFlow) (call : FunctionCall) (w : World) : option error * World :=
  let '(err, w) := match lf_PluginManager f with
                   | Some pm => RunBeforeToolCallbacks pm (fc_Name call) (fc_Args call) w
                   | None => (None, w)
                   end in
  match err with
  | Some e => (Some e, w)
  | None => direct_before_tool (lf_BeforeTool f) (fc_Name call) (fc_Args call) w
  end.

Definition plugin_after_tool (f : LlmFlow) (call : FunctionCall) (r : result Value) (w : World) : World :=
  match lf_PluginManager f with
  | Some pm =>
      (RunAfterToolCallbacks pm (fc_Name call) (fc_Args call) (match r with inr v => v | inl _ => VNil end)
         (match r with inl e => Some e | inr _ => None end) w).2
  | None => w
  end.

(** Errors of these callbacks are not used; all of the direct ones run. *)
Definition after_tool_callbacks (f : LlmFlow) (call : FunctionCall) (r : result Value) (w : World) : World :=
  foldl (λ w cb, (cb (fc_Name call) (fc_Args call) (match r with inr v => v | inl _ => VNil end)
                    (match r with inl e => Some e | inr _ => None end) w).2)
    (plugin_after_tool f call r w) (lf_AfterTool f).

Definition tool_response (call : FunctionCall) (r : result Value) : FunctionResponse :=
  match r with
  | inl e => mkFunctionResponse (fc_Name call) VNil (Error e)
  | inr v => mkFunctionResponse (fc_Name call) v ""
  end.

Definition call_tool (f : LlmFlow) (call : FunctionCall) (w : World) : FunctionResponse * World :=
  match rq_ToolsDict (fe_req (rw_env w)) !! fc_Name call with
  | None => (mkFunctionResponse (fc_Name call) VNil ("unknown tool: " +:+ fc_Name call), w)
  | Some tool =>
      let '(err, w) := before_tool_callbacks f call w in
      match err with
      | Some e => (mkFunctionResponse (fc_Name call) VNil ("before_tool callback failed: " +:+ Error e), w)
      | None =>
          match td_Handler tool with
          | None => (mkFunctionResponse (fc_Name call) VNil "tool has no handler", w)
          | Some h =>
              let '(r, w) := handler h (fc_Args call) w in
              (tool_response call r, after_tool_callbacks f call r w)
          end
      end
  end.

(** The last answer of [transfer_to_agent] that is a string. *)
Definition transfer_of (responses : list FunctionResponse) : option string :=
  last (omap (λ r, match fr_Response r with
                   | VString agentName => if String.eqb (fr_Name r) "transfer_to_agent" then Some agentName else None
                   | _ => None
                   end) responses).

Definition function_response_event (responses : list FunctionResponse) (invocationID author : string) : AsyncEvent :=
  let event := set_InvocationID invocationID (NewAsyncEvent EventTypeToolResult (AcFunctionResponses responses) author) in
  match transfer_of responses with
  | Some agentName => set_Actions (Some (mkActions None None agentName false false)) event
  | None => event
  end.

Definition handleFunctionCallsAsync (f : LlmFlow) (event : AsyncEvent) : EvStream :=
  match ae_Content event with
  | AcResponse llmResponse =>
      match GetFunctionCalls llmResponse with
      | [] => SStop
      | calls =>
          sfold (λ responses call k, scall (call_tool f call) (λ r, k (responses ++ [r])))
            (λ responses, sread (λ w, (ic_InvocationID (rw_ctx w), ic_AgentName (rw_ctx w))) (λ '(invocationID, author),
               SYield (function_response_event responses invocationID author) SStop))
            calls []
      end
  | _ => SStop
  end.

(** ** Steps *)

Definition empty_response (r : LlmResponse) : bool :=
  match lr_Content r with None => String.eqb (lr_ErrorCode r) "" && negb (lr_Interrupted r) | Some _ => false end.

(** The response processors, on the response, and what comes after. *)
Definition process_response (f : LlmFlow) (response : LlmResponse) (k : LlmResponse → EvStream) : EvStream :=
  SDo (put_resp response) (λ _,
    sfold (λ _ p k, sforward p (k tt)) (λ _, sread (λ w, fe_resp (rw_env w)) k) (lf_ResponseProcessors f) tt).

Definition model_step (f : LlmFlow) : EvStream :=
  scall (λ w, ((ic_InvocationID (rw_ctx w), ic_AgentName (rw_ctx w)), put_actions no_actions w)) (λ '(invocationID, author),
    sloop (λ _ response k,
             process_response f response (λ response,
               if empty_response response then k tt
               else
                 let event := finalizeModelResponseEvent response invocationID author in
                 SYield event (if HasFunctionCalls response then sforward (handleFunctionCallsAsync f event) (k tt) else k tt)))
      (λ _, SStop) (callLlmAsync f) tt).

Definition runOneStepAsync (f : LlmFlow) : EvStream :=
  SDo (put_req new_request) (λ _,
    sfold (λ _ p k, sforward p (sread (λ w, ic_EndInvocation (rw_ctx w)) (λ ended, if ended : bool then SStop else k tt)))
      (λ _, model_step f) (lf_RequestProcessors f) tt).

Definition flow_RunAsync (f : LlmFlow) : EvStream := step_loop "llm_flow" (runOneStepAsync f) (Z.to_nat (lf_MaxSteps f)) 0.

(** [LLMAsyncAgent]: with a flow, the agent's callbacks are appended to those of the
    flow, an object that keeps them. *)
Record LLMAsyncAgent := mkLLMAsyncAgent {
  la_name : string;
  la_executor : EvStream;
  la_flow : option LlmFlow;
  la_maxSteps : Z;
  la_beforeModel : list (@BeforeModelCallback World);
  la_afterModel : list (@AfterModelCallback World);
  la_onModelError : list (@OnModelErrorCallback World);
}.

Definition add_callbacks (a : LLMAsyncAgent) (f : LlmFlow) : LlmFlow :=
  mkLlmFlow (lf_RequestProcessors f) (lf_ResponseProcessors f) (lf_BeforeModel f ++ la_beforeModel a) (lf_AfterModel f ++ la_afterModel a)
    (lf_OnModelError f ++ la_onModelError a) (lf_LlmProvider f) (lf_LiveProvider f) (lf_AgentNameLabelKey f) (la_maxSteps a)
    (lf_DefaultRunConfig f) (lf_PluginManager f) (lf_BeforeTool f) (lf_AfterTool f).

(** The stream of events, and the agent afterwards. *)
Definition LLMAsyncAgent_RunAsync (a : LLMAsyncAgent) : EvStream * LLMAsyncAgent :=
  match la_flow a with
  | None => (llm_RunAsync (la_name a) (la_executor a) (la_maxSteps a), a)
  | Some f =>
      let f := add_callbacks a f in
      (SDo (λ w, put_ctx (set_AgentName (la_name a) (rw_ctx w)) w) (λ _, sforward (flow_RunAsync f) SStop),
       mkLLMAsyncAgent (la_name a) (la_executor a) (Some f) (la_maxSteps a) (la_beforeModel a) (la_afterModel a) (la_onModelError a))
  end.

(** ** Live sessions *)

Definition buildLiveEvent (c : InvocationContext) (resp : LlmResponse) : AsyncEvent :=
  let isError := negb (String.eqb (lr_ErrorCode resp) "") in
  mkAsyncEvent (ic_InvocationID c) (ic_AgentName c)
    (if isError then EventTypeError else if HasFunctionCalls resp then EventTypeToolCall else EventTypeMessage)
    (if HasFunctionCalls resp then AcResponse resp
     else AcValue (VString (default "" (lr_Content resp ≫= λ content, head (texts content)))))
    (lr_Partial resp) (Some no_actions) ((λ u, {["usage" := MtUsage u]}) <$> lr_UsageMetadata resp)
    (if isError then Some (response_error resp) else None) false.

Definition live_tools (w : World) : gmap string ToolDefinition :=
  default ∅ (l ← ic_State (rw_ctx w); m ← rw_maps w !! l; v ← m !! "tools_dict"; as_tools v).

Definition call_live_tool (f : LlmFlow) (toolsDict : gmap string ToolDefinition) (call : FunctionCall) (w : World) : FunctionResponse * World :=
  let '(err, w) := match lf_PluginManager f with
                   | Some pm => RunBeforeToolCallbacks pm (fc_Name call) (fc_Args call) w
                   | None => (None, w)
                   end in
  match err with
  | Some e => (mkFunctionResponse (fc_Name call) VNil (Error e), w)
  | None =>
      match toolsDict !! fc_Name call ≫= td_Handler with
      | None => (mkFunctionResponse (fc_Name call) VNil ("tool " +:+ fc_Name call +:+ " not found or has no handler"), w)
      | Some h => let '(r, w) := handler h (fc_Args call) w in (tool_response call r, plugin_after_tool f call r w)
      end
  end.

(** The request that sends the responses back. *)
Definition followup (responses : list FunctionResponse) : LlmRequest :=
  mkRequest [mkContent "user" ((λ r, mkPart "" None (Some r)) <$> responses)] "" [] ∅ None ∅.

Definition handleLiveFunctionCalls (f : LlmFlow) (resp : LlmResponse) (after : EvStream) : EvStream :=
  sread live_tools (λ toolsDict,
    sfold (λ responses call k, scall (call_live_tool f toolsDict call) (λ r, k (responses ++ [r])))
      (λ responses, sread rw_ctx (λ c,
         SYield (set_InvocationID (ic_InvocationID c) (NewAsyncEvent EventTypeToolResult (AcFunctionResponses responses) (ic_AgentName c)))
           (SDo (on_queue (fmap (queue_Send (followup responses)))) (λ _, after))))
      (GetFunctionCalls resp) []).

Definition live_notice (content key sessionID author : string) : AsyncEvent :=
  set_Metadata (Some {[key := MtValue (VBool true); "session_id" := MtValue (VString sessionID)]})
    (NewAsyncEvent EventTypeStateChange (AcValue (VString content)) author).

(** The answers of the callbacks are not used. *)
Definition live_callbacks (f : LlmFlow) (resp : LlmResponse) (w : World) : World :=
  foldl (λ w cb, (cb resp w).2)
    (match lf_PluginManager f with Some pm => (RunAfterModelCallbacks pm resp w).2 | None => w end) (lf_AfterModel f).

Definition RunLive (f : LlmFlow) (sessionID : string) : EvStream :=
  match lf_LiveProvider f with
  | None =>
      SYield (set_Error (Some (EText "LiveProvider is nil"))
                (NewAsyncEvent EventTypeError (AcValue (VString "live provider not configured")) "llm_flow")) SStop
  | Some live =>
      SDo count_call (λ _,
      sloop (λ _ response k,
               SDo (λ w, put_activity (rw_now w) w) (λ _,
               process_response f response (λ response,
               sread rw_ctx (λ c,
               SDo (λ w, live_callbacks f response (put_actions no_actions w)) (λ _,
               let last_events :=
                 sread rw_ctx (λ c,
                   let interrupted := sread rw_done (λ d, match d with Some _ => SStop | None => k tt end) in
                   let interrupted := if lr_Interrupted response
                                      then SYield (live_notice "interrupted" "interrupted" sessionID (ic_AgentName c)) interrupted
                                      else interrupted in
                   if lr_TurnComplete response then SYield (live_notice "turn_complete" "turn_complete" sessionID (ic_AgentName c)) interrupted
                   else interrupted) in
               SYield (buildLiveEvent c response)
                 (if HasFunctionCalls response then handleLiveFunctionCalls f response last_events else last_events))))))
        (λ _, SStop) live tt)
  end.

Definition SendLiveMessage (closed : bool) (content : string) (w : World) : option error * World :=
  if closed then (Some (EText "session is closed"), w)
  else (None, on_queue (fmap (queue_Send (mkRequest [mkContent "user" [mkPart content None None]] "" [] ∅ None ∅))) (put_activity (rw_now w) w)).

Definition InterruptLiveSession (closed : bool) (w : World) : option error * World :=
  if closed then (Some (EText "session is closed"), w)
  else (None, on_queue (fmap (queue_Send (mkRequest [] "" [] ∅ None ∅))) w).
End Flow.

(** ** Calls of the model are bounded *)

Section Calls.
Context {Svc X : Type} `{SessionService Svc}.
Local Notation World := (RtWorld Svc (FlowEnv X)).
Context (handler : nat → gmap string Value → World → result Value * World).

(** Neither the count nor its bound changes, and the provider is not called. *)
Definition uncounted (w w' : World) : Prop :=
  ic_RunConfig (rw_ctx w') = ic_RunConfig (rw_ctx w) ∧ ic_LLMCallCount (rw_ctx w') = ic_LLMCallCount (rw_ctx w) ∧
  fe_calls (rw_env w') = fe_calls (rw_env w).

#[local] Instance uncounted_preorder : PreOrder uncounted.
Proof. split; unfold uncounted; [by intros w|]. intros x y z (-> & -> & ->) (-> & -> & ->). done. Qed.

(** What a flow is given leaves the count alone. *)
Record flow_quiet (f : @LlmFlow Svc X) : Prop := {
  fq_request p : p ∈ lf_RequestProcessors f → acts uncounted p;
  fq_response p : p ∈ lf_ResponseProcessors f → acts uncounted p;
  fq_before_model cb : cb ∈ lf_BeforeModel f → ∀ w, uncounted w (cb w).2;
  fq_after_model cb : cb ∈ lf_AfterModel f → ∀ resp w, uncounted w (cb resp w).2;
  fq_model_error cb : cb ∈ lf_OnModelError f → ∀ err w, uncounted w (cb err w).2;
  fq_before_tool cb : cb ∈ lf_BeforeTool f → ∀ name args w, uncounted w (cb name args w).2;
  fq_after_tool cb : cb ∈ lf_AfterTool f → ∀ name args res err w, uncounted w (cb name args res err w).2;
  fq_provider generate : lf_LlmProvider f = Some generate →
    ∀ w, uncounted w (generate w).2 ∧ ∀ s, (generate w).1 = inr s → acts uncounted s;
  fq_live s : lf_LiveProvider f = Some s → acts uncounted s;
  fq_plugins pm : lf_PluginManager f = Some pm → manager_acts uncounted pm;
  fq_handler h args w : uncounted w (handler h args w).2;
}.

(** The provider was called at most as often as was counted, and as the limit says. *)
Definition calls_within (rc : RunConfig) (w : World) : Prop :=
  ic_RunConfig (rw_ctx w) = Some rc ∧ fe_calls (rw_env w) ≤ ic_LLMCallCount (rw_ctx w) ∧ fe_calls (rw_env w) ≤ rc_MaxLLMCalls rc.

Lemma uncounted_within rc w w' : uncounted w w' → calls_within rc w → calls_within rc w'.
Proof. intros (Hr & Hn & Hc) (Hrc & Hle & Hmax). unfold calls_within. rewrite Hr, Hn, Hc. done. Qed.

Section Flow.
Context (f : @LlmFlow Svc X) (Hq : flow_quiet f).

Lemma direct_before_model_quiet cbs w : (∀ cb, cb ∈ cbs → ∀ w, uncounted w (cb w).2) → uncounted w (direct_before_model cbs w).2.
Proof.
  revert w. induction cbs as [|cb cbs IH]; intros w Hall; simpl; [reflexivity|].
  pose proof (Hall cb (list_elem_of_here _ _) w) as Hcb. destruct (cb w) as [[e|[r|]] w1]; try done.
  etrans; [exact Hcb|]. apply IH. intros c Hc. apply Hall. by right.
Qed.

Lemma direct_after_model_quiet cbs resp w : (∀ cb, cb ∈ cbs → ∀ resp w, uncounted w (cb resp w).2) → uncounted w (direct_after_model cbs resp w).2.
Proof.
  revert w. induction cbs as [|cb cbs IH]; intros w Hall; simpl; [reflexivity|].
  pose proof (Hall cb (list_elem_of_here _ _) resp w) as Hcb. destruct (cb resp w) as [[e|[r|]] w1]; try done;
    (etrans; [exact Hcb|]; apply IH; intros c Hc; apply Hall; by right).
Qed.

Lemma recover_quiet cbs err w : (∀ cb, cb ∈ cbs → ∀ err w, uncounted w (cb err w).2) → uncounted w (recover_response cbs err w).2.
Proof.
  revert w. induction cbs as [|cb cbs IH]; intros w Hall; simpl; [reflexivity|].
  pose proof (Hall cb (list_elem_of_here _ _) err w) as Hcb. destruct (cb err w) as [[e|[r|]] w1]; try done;
    (etrans; [exact Hcb|]; apply IH; intros c Hc; apply Hall; by right).
Qed.

Lemma direct_before_tool_quiet cbs name args w :
  (∀ cb, cb ∈ cbs → ∀ name args w, uncounted w (cb name args w).2) → uncounted w (direct_before_tool cbs name args w).2.
Proof.
  revert w. induction cbs as [|cb cbs IH]; intros w Hall; simpl; [reflexivity|].
  pose proof (Hall cb (list_elem_of_here _ _) name args w) as Hcb. destruct (cb name args w) as [[e|] w1]; try done.
  etrans; [exact Hcb|]. apply IH. intros c Hc. apply Hall. by right.
Qed.

Lemma after_model_quiet resp w : uncounted w (handleAfterModelCallback f resp w).2.
Proof.
  unfold handleAfterModelCallback. destruct (lf_PluginManager f) as [pm|] eqn:Hpm.
  - pose proof (run_after_model_acts uncounted pm resp w (fq_plugins f Hq pm Hpm)) as Hr.
    destruct (RunAfterModelCallbacks pm resp w) as [r w1]. etrans; [exact Hr|]. apply direct_after_model_quiet, fq_after_model, Hq.
  - apply direct_after_model_quiet, fq_after_model, Hq.
Qed.

Lemma plugin_before_model_quiet w : uncounted w (plugin_before_model f w).2.
Proof.
  unfold plugin_before_model. destruct (lf_PluginManager f) as [pm|] eqn:Hpm; [|reflexivity].
  apply run_before_model_acts; [apply _|]. by apply (fq_plugins f Hq).
Qed.

Lemma call_tool_quiet call w : uncounted w (call_tool handler f call w).2.
Proof.
  unfold call_tool. destruct (rq_ToolsDict _ !! _) as [tool|]; [|reflexivity].
  assert (uncounted w (before_tool_callbacks f call w).2) as Hb.
  { unfold before_tool_callbacks. destruct (lf_PluginManager f) as [pm|] eqn:Hpm.
    - pose proof (run_before_tool_acts uncounted pm (fc_Name call) (fc_Args call) w (fq_plugins f Hq pm Hpm)) as Hr.
      destruct (RunBeforeToolCallbacks _ _ _ w) as [[e|] w1]; [done|]. etrans; [exact Hr|]. apply direct_before_tool_quiet, fq_before_tool, Hq.
    - apply direct_before_tool_quiet, fq_before_tool, Hq. }
  destruct (before_tool_callbacks f call w) as [[e|] w1]; [done|]. destruct (td_Handler tool) as [h|]; [|done].
  pose proof (fq_handler f Hq h (fc_Args call) w1) as Hh. destruct (handler h (fc_Args call) w1) as [r w2].
  etrans; [exact Hb|]. etrans; [exact Hh|]. simpl. unfold after_tool_callbacks.
  assert (uncounted w2 (plugin_after_tool f call r w2)) as Hp.
  { unfold plugin_after_tool. destruct (lf_PluginManager f) as [pm|] eqn:Hpm; [|reflexivity].
    apply run_after_tool_acts; [apply _|]. by apply (fq_plugins f Hq). }
  etrans; [exact Hp|]. pose proof (fq_after_tool f Hq) as Hall. generalize (plugin_after_tool f call r w2).
  induction (lf_AfterTool f) as [|cb cbs IH]; intros w3; simpl; [reflexivity|].
  etrans; [|apply IH; intros c Hc; apply Hall; by right]. apply Hall. by left.
Qed.

Lemma count_and_call_within rc w : 0 < rc_MaxLLMCalls rc → calls_within rc w → calls_within rc (count_and_call f w).2.
Proof.
  intros Hpos (Hrc & Hle & Hmax). unfold count_and_call, IncrementLLMCallCount. simpl. rewrite Hrc.
  destruct (Z.ltb_spec 0 (rc_MaxLLMCalls rc)); [|lia]. simpl. destruct (Z.ltb_spec (rc_MaxLLMCalls rc) (ic_LLMCallCount (rw_ctx w) + 1)).
  { split_and!; simpl; [done|lia|lia]. }
  destruct (lf_LlmProvider f) as [generate|] eqn:Hp; simpl.
  2: { split_and!; simpl; [done|lia|lia]. }
  set (w1 := count_call _). assert (calls_within rc w1) as Hw1 by (split_and!; simpl; [done|lia|lia]).
  destruct (fq_provider f Hq generate Hp w1) as [Hg _]. destruct (generate w1) as [r w2]. by eapply uncounted_within.
Qed.

Lemma hand_response_keeps rc stream resp k :
  (∀ r, keeps (calls_within rc) (k r)) → keeps (calls_within rc) (hand_response f stream resp k).
Proof.
  intros Hk. apply keeps_call; [intros w; apply uncounted_within, after_model_quiet|]. intros altered. simpl.
  destruct (stream || _); [constructor|]; apply Hk.
Qed.

Lemma provider_acts w r : (count_and_call f w).1 = Called r →
  acts uncounted (runWithErrorHandling f r).
Proof.
  destruct r as [panic|s].
  - intros _. apply acts_call; [intros w1; apply recover_quiet, fq_model_error, Hq|]. intros [recovery|]; repeat constructor.
  - unfold count_and_call. destruct (IncrementLLMCallCount (rw_ctx w)) as [[e|] c]; [done|].
    destruct (lf_LlmProvider f) as [generate|] eqn:Hp; [|done]. set (w1 := count_call _).
    destruct (fq_provider f Hq generate Hp w1) as [_ Hs]. destruct (generate w1) as [r w2]. intros [= ->]. by apply Hs.
Qed.

(** A flow that calls its live provider for no invocation with this configuration. *)
Definition not_live (rc : RunConfig) : Prop := rc_SupportCFC rc = false ∨ lf_LiveProvider f = None.

Lemma standard_keeps rc stream : 0 < rc_MaxLLMCalls rc → keeps (calls_within rc) (standard_mode f stream).
Proof.
  intros Hpos. constructor; [intros w; by apply count_and_call_within|]. intros w _.
  destruct (count_and_call f w).1 as [e| |r] eqn:Hr; [repeat constructor..|].
  apply keeps_loop; [|intros acc a k Hk; by apply hand_response_keeps|constructor].
  eapply acts_keeps; [intros ? ?; apply uncounted_within|]. by eapply provider_acts.
Qed.

Lemma callLlm_keeps rc : 0 < rc_MaxLLMCalls rc → not_live rc → keeps (calls_within rc) (callLlmAsync f).
Proof.
  intros Hpos Hlive.
  apply keeps_call; [intros w; apply uncounted_within, plugin_before_model_quiet|]. intros [e|[resp|]]; [repeat constructor..|].
  apply keeps_call; [intros w; apply uncounted_within, direct_before_model_quiet, fq_before_model, Hq|].
  intros [e|[resp|]]; [repeat constructor..|].
  constructor; [intros w; by apply uncounted_within|]. intros _ _. constructor; [done|]. intros w (Hrc & _). simpl.
  assert (getRunConfig f (rw_ctx w) = Some rc) as Hget by (unfold getRunConfig; by rewrite Hrc). rewrite Hget. simpl.
  destruct Hlive as [->| ->]; [by apply standard_keeps|]. destruct (rc_SupportCFC rc); by apply standard_keeps.
Qed.

Lemma handle_calls_acts event : acts uncounted (handleFunctionCallsAsync handler f event).
Proof.
  unfold handleFunctionCallsAsync. destruct (ae_Content event); try constructor. destruct (GetFunctionCalls r) as [|call calls]; [constructor|].
  apply acts_fold.
  - intros acc a k _ Hk. apply acts_call; [intros w; apply call_tool_quiet|]. intros resp. apply Hk.
  - intros acc. apply acts_read; [apply _|]. intros [id author]. repeat constructor.
Qed.

Lemma one_step_keeps rc : 0 < rc_MaxLLMCalls rc → not_live rc → keeps (calls_within rc) (runOneStepAsync handler f).
Proof.
  intros Hpos Hlive.
  assert (∀ A (s : Stream World A), acts uncounted s → keeps (calls_within rc) s) as Hk.
  { intros A s. apply acts_keeps. intros ? ?. apply uncounted_within. }
  constructor; [intros w; by apply uncounted_within|]. intros _ _. apply keeps_fold.
  - intros acc p k Hp Hk'. apply keeps_forward; [by apply Hk, (fq_request f Hq)|].
    constructor; [done|]. intros w _. destruct (ic_EndInvocation _); [constructor|apply Hk'].
  - intros _. apply keeps_call; [intros w; by apply uncounted_within|]. intros [id author].
    apply keeps_loop; [by apply callLlm_keeps| |constructor].
    intros acc resp k Hk'. constructor; [intros w; by apply uncounted_within|]. intros _ _. apply keeps_fold.
    + intros acc' p k' Hp Hk''. apply keeps_forward; [|apply Hk'']. by apply Hk, (fq_response f Hq).
    + intros acc'. constructor; [done|]. intros w _. destruct (empty_response _); [apply Hk'|]. constructor.
      destruct (HasFunctionCalls _); [|apply Hk']. apply keeps_forward; [|apply Hk']. apply Hk, handle_calls_acts.
Qed.

Lemma step_loop_keeps (I : World → Prop) author oneStep left step :
  keeps I oneStep → keeps I (step_loop author oneStep left step).
Proof.
  intros Hs. revert step. induction left as [|left IH]; intros step; simpl; [repeat constructor|]. apply keeps_loop; [done| |].
  - intros acc e k Hk. constructor. destruct (ae_Error _); [constructor|apply Hk].
  - intros [e|]; [|constructor]. destruct (IsFinalResponse e); [constructor|]. constructor; [done|].
    intros w _. simpl. destruct (rw_done w); [repeat constructor|apply IH].
Qed.

End Flow.

(** C24. Whichever runtime runs a flow, and however its actions and the runtime's are
    interleaved, the model is called at most as often as the run configuration of
    the invocation allows, if that is a positive number, the invocation does not
    call the live provider (it does not support continuous function calling, or
    the flow has no live provider), and the processors, callbacks, plugins, tools
    and the provider themselves neither call the model nor touch the invocation's
    count and configuration.  The calls of a live provider are not limited. *)
Theorem model_calls_bounded (f : @LlmFlow Svc X) cfg (w : World) s rc :
  flow_quiet f → ic_RunConfig (rw_ctx w) = Some rc → 0 < rc_MaxLLMCalls rc → not_live f rc →
  ic_LLMCallCount (rw_ctx w) = 0 → fe_calls (rw_env w) = 0 →
  rt_reachable cfg (flow_RunAsync handler f) w s →
  fe_calls (rw_env (rt_world s)) ≤ rc_MaxLLMCalls rc.
Proof.
  intros Hq Hrc Hpos Hlive Hn Hc Hrun.
  assert (calls_within rc (rt_world s)) as (_ & _ & Hle); [|done].
  eapply (rt_reachable_keeps cfg (flow_RunAsync handler f) w s (calls_within rc)); [| | |exact Hrun].
  - intros w1 w2 (Hr & Hl & He). apply uncounted_within. by split_and!; [| |rewrite He].
  - apply step_loop_keeps. by apply one_step_keeps.
  - split_and!; [done|lia|lia].
Qed.

End Calls.

(** ** Tools *)

Section Tools.
Context {Svc X : Type}.
Local Notation World := (RtWorld Svc (FlowEnv X)).
Implicit Types (f : @LlmFlow Svc X) (w : World).

(** The tools of a response, one after the other. *)
Fixpoint call_tools handler f (calls : list FunctionCall) w : list FunctionResponse * World :=
  match calls with
  | [] => ([], w)
  | call :: calls' =>
      let '(r, w) := call_tool handler f call w in
      let '(rs, w) := call_tools handler f calls' w in (r :: rs, w)
  end.

Lemma call_tool_name handler f call w : fr_Name (call_tool handler f call w).1 = fc_Name call.
Proof.
  unfold call_tool. destruct (rq_ToolsDict _ !! _) as [tool|]; [|done]. destruct (before_tool_callbacks f call w) as [[e|] w1]; [done|].
  destruct (td_Handler tool) as [h|]; [|done]. destruct (handler h (fc_Args call) w1) as [[e|v] w2]; done.
Qed.

Lemma call_tools_names handler f calls w : fr_Name <$> (call_tools handler f calls w).1 = fc_Name <$> calls.
Proof.
  revert w. induction calls as [|call calls IH]; intros w; simpl; [done|].
  pose proof (call_tool_name handler f call w) as Hn. destruct (call_tool handler f call w) as [r w1]. specialize (IH w1).
  destruct (call_tools handler f calls w1) as [rs w2]. simpl in *. f_equal; [exact Hn|exact IH].
Qed.

Lemma collect_tools handler f calls (after : list FunctionResponse → Stream World AsyncEvent) acc w :
  collect (sfold (λ responses call k, scall (call_tool handler f call) (λ r, k (responses ++ [r]))) after calls acc) w =
  collect (after (acc ++ (call_tools handler f calls w).1)) (call_tools handler f calls w).2.
Proof.
  revert acc w. induction calls as [|call calls IH]; intros acc w; simpl; [by rewrite app_nil_r|].
  rewrite IH. destruct (call_tool handler f call w) as [r w1]. simpl. destruct (call_tools handler f calls w1) as [rs w2].
  simpl. by rewrite <- app_assoc.
Qed.

(** The event of a response that asks for tools is answered by one event, which
    holds a response to each call, in the order of the calls. *)
Theorem one_response_per_call handler f resp id author w :
  let '(events, w') := collect (handleFunctionCallsAsync handler f (finalizeModelResponseEvent resp id author)) w in
  if HasFunctionCalls resp then
    ∃ responses, call_tools handler f (GetFunctionCalls resp) w = (responses, w') ∧
      fr_Name <$> responses = fc_Name <$> GetFunctionCalls resp ∧
      events = [function_response_event responses (ic_InvocationID (rw_ctx w')) (ic_AgentName (rw_ctx w'))]
  else events = [] ∧ w' = w.
Proof.
  unfold handleFunctionCallsAsync, finalizeModelResponseEvent, HasFunctionCalls. cbn [ae_Content].
  destruct (lr_Content resp) as [c|] eqn:Hc.
  - destruct (GetFunctionCalls resp) as [|call calls] eqn:Hg.
    + destruct (texts c) as [|t [|t' ts]]; done.
    + rewrite Hg. cbv beta iota. rewrite collect_tools. pose proof (call_tools_names handler f (call :: calls) w) as Hn.
      destruct (call_tools handler f (call :: calls) w) as [rs w']. simpl in Hn |- *. by exists rs.
  - assert (GetFunctionCalls resp = []) as -> by (unfold GetFunctionCalls; by rewrite Hc). done.
Qed.

(** C35. A tool that the authorization plugin refuses is not executed: what comes of the
    call is the same whatever the handlers do, an error.  The other plugins must not
    allow the tool themselves. *)
Theorem unauthorized_not_executed f pm (p : Plugin) get deny call w :
  lf_PluginManager f = Some pm → p ∈ enabled_plugins pm → pl_BeforeTool p = pl_BeforeTool (NewAuthorizationPlugin get deny) →
  (∀ x, x ∈ callbacks_of pl_BeforeTool pm → ∀ args w, get (x.2 (fc_Name call) args w).2 = get w) →
  is_Some (authorize (get w) deny (fc_Name call)) →
  ∀ handler handler',
    call_tool handler f call w = call_tool handler' f call w ∧
    fr_Response (call_tool handler f call w).1 = VNil ∧ fr_Error (call_tool handler f call w).1 ≠ "".
Proof.
  intros Hpm Hp Hcb Hkeep Hno handler handler'. unfold call_tool.
  destruct (rq_ToolsDict _ !! _) as [tool|]; [|split_and!; [done..|]; by destruct (fc_Name call)].
  assert (is_Some (RunBeforeToolCallbacks pm (fc_Name call) (fc_Args call) w).1) as [e He].
  { eapply (before_tool_refused pm p (λ toolName _ w, (authorize (get w) deny toolName, w))); [done|rewrite Hcb; by left| |done].
    intros x Hx w1. simpl. by rewrite Hkeep. }
  unfold before_tool_callbacks. rewrite Hpm. destruct (RunBeforeToolCallbacks _ _ _ w) as [err w1]. simpl in He. subst err. simpl.
  split_and!; [done..|]. unfold String.append. done.
Qed.

(** What plugins make of a response is lost unless a direct callback answers: without
    such callbacks the flow goes on with the provider's response. *)
Lemma plugin_response_lost f resp w : lf_AfterModel f = [] → (handleAfterModelCallback f resp w).1 = None.
Proof.
  unfold handleAfterModelCallback. intros ->. destruct (lf_PluginManager f) as [pm|]; [|done].
  by destruct (RunAfterModelCallbacks pm resp w) as [[e|r] w1].
Qed.

End Tools.
