(* ===== verification/Processors.v ===== *)
(** * Request and response processors (pkg/runtime/processors.go)

    The processors a flow can be given by default, as functions of the world of the
    flow, and the chain that makes them the streams [LlmFlow] runs.  Type assertions
    of state values that [Value] does not tell apart are functions; the texts of
    date and time and the ids from the clock are arguments.  The maps of a request
    are made with it; the parameters of tools and the temperature are left out. *)

From stdpp Require Import base gmap strings list fin_maps.
From S2P Require Import Prelude Etcd Invocation Streams AsyncRuntime Plugins LlmFlow.

Open Scope Z_scope.

(** [strings.ReplaceAll], for an [old] that is not empty; [skip] runes of an
    occurrence are still to be passed. *)
Fixpoint replace_from (skip : nat) (old new s : string) : string :=
  match s with
  | EmptyString => ""
  | String c s' =>
      match skip with
      | S n => replace_from n old new s'
      | O => if String.prefix old s then new +:+ replace_from (String.length old - 1) old new s'
             else String c (replace_from 0 old new s')
      end
  end.
Definition strings_ReplaceAll (s old new : string) : string := replace_from 0 old new s.

Record TransferTarget := mkTarget { tt_Name : string; tt_Description : string }.

Section Processors.
Context {Svc X : Type} `{SessionService Svc} `{DeltaOrder}.
Local Notation World := (RtWorld Svc (FlowEnv X)).
Local Notation EvStream := (Stream (RtWorld Svc (FlowEnv X)) AsyncEvent).

(** [%v]; the type assertions to [[]Content], [[]TransferTarget], a slice of maps
    (name and description of each) and a map; the instruction of the input, if there
    is one; whether there is a session service; date and time; [generateID("fc")] for
    the part at a position. *)
Context (fmt_v : Value → string).
Context (as_contents : Value → option (list Content)) (as_targets : Value → option (list TransferTarget))
        (as_target_maps : Value → option (list (option TransferTarget))) (as_map : Value → option (gmap string Value)).
Context (input : option string) (has_sessions : bool) (date time : string) (new_id : nat → string).

Definition RequestProcessorFunc : Type := World → option error * World.

Definition state_value (key : string) (w : World) : option Value := ctx_Get key (rw_ctx w) (rw_maps w).
Definition is_set (key : string) (w : World) : bool :=
  match state_value key w with Some (VBool true) => true | Some (VString s) => String.eqb s "true" | _ => false end.

Definition put_Contents (l : list Content) (r : LlmRequest) : LlmRequest :=
  mkRequest l (rq_SystemInstruction r) (rq_Tools r) (rq_ToolsDict r) (rq_Config r) (rq_Labels r).
Definition put_SystemInstruction (s : string) (r : LlmRequest) : LlmRequest :=
  mkRequest (rq_Contents r) s (rq_Tools r) (rq_ToolsDict r) (rq_Config r) (rq_Labels r).
Definition put_Labels (labels : gmap string string) (r : LlmRequest) : LlmRequest :=
  mkRequest (rq_Contents r) (rq_SystemInstruction r) (rq_Tools r) (rq_ToolsDict r) (rq_Config r) labels.
Definition on_request (f : LlmRequest → LlmRequest) (w : World) : World := put_req (f (fe_req (rw_env w))) w.

(** ** Request processors *)

Definition BasicRequestProcessor : RequestProcessorFunc := λ w,
  (None, on_request (λ r,
     mkRequest (rq_Contents r) (rq_SystemInstruction r) (rq_Tools r)
       (foldl (λ d tool, <[td_Name tool := tool]> d) (rq_ToolsDict r) (rq_Tools r))
       (Some (default (mkGenerateConfig 0 2048 [] None) (rq_Config r)))
       (<["invocation_id" := ic_InvocationID (rw_ctx w)]> (<["session_id" := ic_SessionID (rw_ctx w)]>
         (if String.eqb (ic_AgentName (rw_ctx w)) "" then rq_Labels r else <["agent_name" := ic_AgentName (rw_ctx w)]> (rq_Labels r))))) w).

Definition processInstructionTemplate (instruction : string) (w : World) : string :=
  let c := rw_ctx w in
  let result := strings_ReplaceAll instruction "{{agent_name}}" (ic_AgentName c) in
  let result := strings_ReplaceAll result "{{session_id}}" (ic_SessionID c) in
  let result := strings_ReplaceAll result "{{user_id}}" (ic_UserID c) in
  let result := strings_ReplaceAll result "{{date}}" date in
  let result := strings_ReplaceAll result "{{time}}" time in
  foldl (λ result x, strings_ReplaceAll result ("{{state." +:+ x.1 +:+ "}}") (fmt_v x.2)) result (delta_order (committed c (rw_maps w))).

(** The instruction of the input if none is set, that of the state before both. *)
Definition chosen_instruction (w : World) : string :=
  let current := rq_SystemInstruction (fe_req (rw_env w)) in
  let current := match input with Some i => if String.eqb current "" then i else current | None => current end in
  match state_value "system_instruction" w with
  | Some (VString s) => if String.eqb s "" then current else s
  | _ => current
  end.

Definition InstructionsRequestProcessor : RequestProcessorFunc := λ w,
  let s := chosen_instruction w in
  (None, on_request (put_SystemInstruction (if String.eqb s "" then s else processInstructionTemplate s w)) w).

Definition IdentityRequestProcessor : RequestProcessorFunc := λ w,
  if String.eqb (ic_AgentName (rw_ctx w)) "" || negb (is_set "add_identity_to_instruction" w) then (None, w)
  else
    let identityPrefix := "You are " +:+ ic_AgentName (rw_ctx w) +:+ ". " in
    (None, on_request (λ r, if String.prefix identityPrefix (rq_SystemInstruction r) then r
                            else put_SystemInstruction (identityPrefix +:+ rq_SystemInstruction r) r) w).

(** The history of the session, if it can be read. *)
Definition session_history (w : World) : list Content * World :=
  if has_sessions then
    let '(r, (maps, svc)) := svc_GetSession (ic_SessionID (rw_ctx w)) (rw_maps w, rw_svc w) in
    (match r with
     | inr (Some session) =>
         default [] (l ← rs_State session; m ← maps !! l; v ← m !! "conversation_history"; as_contents v)
     | _ => []
     end, mkRtWorld (rw_ctx w) maps svc (rw_done w) (rw_now w) (rw_env w))
  else ([], w).

Definition with_user_message (r : LlmRequest) : LlmRequest :=
  match input with
  | Some i =>
      if negb (String.eqb i "") && negb (existsb (λ c, String.eqb (ct_Role c) "user") (rq_Contents r)) && negb (String.eqb (rq_SystemInstruction r) i)
      then put_Contents (rq_Contents r ++ [mkContent "user" [mkPart i None None]]) r else r
  | None => r
  end.

(** The most recent contents. *)
Definition truncate_contents (limit : option Value) (r : LlmRequest) : LlmRequest :=
  match limit with
  | Some (VInt n) => if (0 <? n) && (n <? Z.of_nat (length (rq_Contents r))) then put_Contents (last_n (Z.to_nat n) (rq_Contents r)) r else r
  | _ => r
  end.

Definition ContentsRequestProcessor : RequestProcessorFunc := λ w,
  let '(history, w) := session_history w in
  (None, on_request (λ r, truncate_contents (state_value "max_conversation_history" w)
                            (with_user_message (put_Contents (history ++ rq_Contents r) r))) w).

Definition getTransferTargets (w : World) : list TransferTarget :=
  match state_value "transfer_targets" w with
  | Some v =>
      match as_targets v with
      | Some l => l
      | None => filter (λ t, tt_Name t ≠ "") (omap id (default [] (as_target_maps v)))
      end
  | None => []
  end.

Definition nl : string := String (Ascii.ascii_of_nat 10) "".
Definition transfer_tool (targets : list TransferTarget) : ToolDefinition :=
  mkToolDefinition "transfer_to_agent"
    ("Transfer execution to another specialized agent. Available agents:" +:+ nl +:+
       strings_Join ((λ t, "- " +:+ tt_Name t +:+ ": " +:+ tt_Description t) <$> targets) nl) None.

Definition AgentTransferRequestProcessor : RequestProcessorFunc := λ w,
  if negb (is_set "enable_agent_transfer" w) then (None, w)
  else if existsb (λ tool, String.eqb (td_Name tool) "transfer_to_agent") (rq_Tools (fe_req (rw_env w))) then (None, w)
  else match getTransferTargets w with
       | [] => (None, w)
       | targets =>
           (None, on_request (λ r, mkRequest (rq_Contents r) (rq_SystemInstruction r) (rq_Tools r ++ [transfer_tool targets])
                                     (<["transfer_to_agent" := transfer_tool targets]> (rq_ToolsDict r)) (rq_Config r) (rq_Labels r)) w)
       end.

Definition AuthRequestProcessor : RequestProcessorFunc := λ w,
  match state_value "pending_auth" w ≫= as_map with
  | Some auth =>
      let labels := rq_Labels (fe_req (rw_env w)) in
      let labels := match auth !! "type" with Some (VString t) => <["auth_type" := t]> labels | _ => labels end in
      let labels := match auth !! "scope" with Some (VString s) => <["auth_scope" := s]> labels | _ => labels end in
      (None, on_request (put_Labels labels) w)
  | None => (None, w)
  end.

Definition DefaultRequestProcessors : list RequestProcessorFunc :=
  [BasicRequestProcessor; InstructionsRequestProcessor; IdentityRequestProcessor; ContentsRequestProcessor; AgentTransferRequestProcessor].

(** ** The response processor *)

Definition ResponseProcessorFunc : Type := option LlmResponse → World → option error * World.

(** Calls without an id are given one. *)
Definition fill_id (i : nat) (p : Part) : Part :=
  match pt_FunctionCall p with
  | Some fc => if String.eqb (fc_ID fc) "" then mkPart (pt_Text p) (Some (mkFunctionCall (new_id i) (fc_Name fc) (fc_Args fc))) (pt_FunctionResponse p) else p
  | None => p
  end.
Definition fill_ids (r : LlmResponse) : LlmResponse :=
  mkResponse ((λ c, mkContent (ct_Role c) (imap fill_id (ct_Parts c))) <$> lr_Content r) (lr_Partial r) (lr_ErrorCode r) (lr_ErrorMessage r)
    (lr_TurnComplete r) (lr_Interrupted r) (lr_UsageMetadata r).

Definition set_value (key : string) (v : Value) (w : World) : World := put_ctx (ctx_Set key v (rw_ctx w) (rw_maps w)) w.

(** [totalPrompt.(int)] is added to if it is there. *)
Definition accumulated (total : option Value) (n : Z) : Value := match total with Some (VInt t) => VInt (t + n) | _ => VInt n end.

Definition track_usage (u : UsageMetadata) (w : World) : World :=
  let w := set_value "last_prompt_tokens" (VInt (um_PromptTokens u)) w in
  let w := set_value "last_completion_tokens" (VInt (um_CompletionTokens u)) w in
  let w := set_value "last_total_tokens" (VInt (um_TotalTokens u)) w in
  let totalPrompt := state_value "total_prompt_tokens" w in
  let totalCompletion := state_value "total_completion_tokens" w in
  let w := set_value "total_prompt_tokens" (accumulated totalPrompt (um_PromptTokens u)) w in
  set_value "total_completion_tokens" (accumulated totalCompletion (um_CompletionTokens u)) w.

Definition BasicResponseProcessor : ResponseProcessorFunc := λ resp w,
  match resp with
  | None => (Some (EText "nil response from LLM"), w)
  | Some r =>
      if negb (String.eqb (lr_ErrorCode r) "") then (Some (EText ("LLM error [" +:+ lr_ErrorCode r +:+ "]: " +:+ lr_ErrorMessage r)), w)
      else
        let w := put_resp (fill_ids r) w in
        (None, match lr_UsageMetadata r with Some u => track_usage u w | None => w end)
  end.

(** ** The chain *)

Record ProcessorChain := mkChain { pc_request : list RequestProcessorFunc; pc_response : list ResponseProcessorFunc }.
Definition NewProcessorChain : ProcessorChain := mkChain [] [].
Definition WithDefaults (c : ProcessorChain) : ProcessorChain :=
  mkChain (pc_request c ++ DefaultRequestProcessors) (pc_response c ++ [BasicResponseProcessor]).
Definition AddRequestProcessor (p : RequestProcessorFunc) (c : ProcessorChain) : ProcessorChain := mkChain (pc_request c ++ [p]) (pc_response c).
Definition AddResponseProcessor (p : ResponseProcessorFunc) (c : ProcessorChain) : ProcessorChain := mkChain (pc_request c) (pc_response c ++ [p]).

(** In order, up to the first error. *)
Fixpoint run_processors (what : string) (l : list RequestProcessorFunc) (w : World) : option error * World :=
  match l with
  | [] => (None, w)
  | p :: l' => match p w with (Some err, w) => (Some (EWrap (what +:+ " processor error: ") err ""), w) | (None, w) => run_processors what l' w end
  end.
Definition chain_ProcessRequest (c : ProcessorChain) : World → option error * World := run_processors "request" (pc_request c).
Definition chain_ProcessResponse (resp : option LlmResponse) (c : ProcessorChain) : World → option error * World :=
  run_processors "response" ((λ p, p resp) <$> pc_response c).

(** A function as a processor: its error is an event. *)
Definition FuncProcessor (p : World → option error * World) : EvStream :=
  scall p (λ err, match err with Some e => SYield (error_event e "processor") SStop | None => SStop end).
Definition chain_Build (c : ProcessorChain) : list EvStream * list EvStream :=
  (FuncProcessor <$> pc_request c, (λ p, FuncProcessor (λ w, p (Some (fe_resp (rw_env w))) w)) <$> pc_response c).
End Processors.

(** ** Totals *)

Section Totals.
Context {Svc X : Type}.
Local Notation World := (RtWorld Svc (FlowEnv X)).
Context (new_id : nat → string).

Lemma state_value_set k k' v (w : World) : state_value k' (set_value k v w) = if decide (k = k') then Some v else state_value k' w.
Proof. unfold state_value, set_value. simpl. apply ctx_Get_Set. Qed.

Definition total_of (key : string) (w : World) : Z := match state_value key w with Some (VInt t) => t | _ => 0 end.

Lemma accumulated_total o n : accumulated o n = VInt (match o with Some (VInt t) => t | _ => 0 end + n).
Proof. destruct o as [[]|]; simpl; f_equal; lia. Qed.

Lemma track_usage_spec u (w : World) k :
  state_value k (track_usage u w) =
  if decide (k = "total_completion_tokens") then Some (VInt (total_of "total_completion_tokens" w + um_CompletionTokens u))
  else if decide (k = "total_prompt_tokens") then Some (VInt (total_of "total_prompt_tokens" w + um_PromptTokens u))
  else if decide (k = "last_total_tokens") then Some (VInt (um_TotalTokens u))
  else if decide (k = "last_completion_tokens") then Some (VInt (um_CompletionTokens u))
  else if decide (k = "last_prompt_tokens") then Some (VInt (um_PromptTokens u))
  else state_value k w.
Proof.
  unfold track_usage. rewrite !state_value_set, !accumulated_total. unfold total_of.
  repeat (case_decide; simplify_eq; try done).
Qed.

(** The tokens a response used. *)
Definition prompt_tokens (r : LlmResponse) : Z := match lr_UsageMetadata r with Some u => um_PromptTokens u | None => 0 end.
Definition completion_tokens (r : LlmResponse) : Z := match lr_UsageMetadata r with Some u => um_CompletionTokens u | None => 0 end.
Definition sum_Z (l : list Z) : Z := foldr Z.add 0 l.

Definition usage_keys : list string :=
  ["total_completion_tokens"; "total_prompt_tokens"; "last_total_tokens"; "last_completion_tokens"; "last_prompt_tokens"].

Lemma one_response r (w : World) :
  let w' := (BasicResponseProcessor new_id (Some r) w).2 in
  let counted := bool_decide (lr_ErrorCode r = "") in
  total_of "total_prompt_tokens" w' = total_of "total_prompt_tokens" w + (if counted then prompt_tokens r else 0) ∧
  total_of "total_completion_tokens" w' = total_of "total_completion_tokens" w + (if counted then completion_tokens r else 0) ∧
  ∀ k, k ∉ usage_keys → state_value k w' = state_value k w.
Proof.
  unfold BasicResponseProcessor. destruct (String.eqb_spec (lr_ErrorCode r) "") as [He|He]; simpl.
  2: { rewrite bool_decide_eq_false_2 by done. split_and!; [lia|lia|done]. }
  rewrite bool_decide_eq_true_2 by done. unfold prompt_tokens, completion_tokens. set (w1 := put_resp _ w).
  assert (∀ k, state_value k w1 = state_value k w) as Hw1 by done. clearbody w1.
  destruct (lr_UsageMetadata r) as [u|]; unfold total_of; rewrite ?track_usage_spec; unfold total_of; rewrite ?Hw1; simpl.
  - split_and!; [done|done|]. intros k Hk. rewrite track_usage_spec. unfold usage_keys in Hk. rewrite !not_elem_of_cons in Hk.
    destruct_and?. by rewrite !decide_False by done.
  - split_and!; [lia|lia|done].
Qed.

(** Whatever responses are processed, of which those with an error code change
    nothing, the totals in the state grow by the tokens of the others, and only
    usage is written to the state. *)
Theorem token_totals responses (w : World) :
  let w' := foldl (λ w r, (BasicResponseProcessor new_id (Some r) w).2) w responses in
  let counted := filter (λ r, lr_ErrorCode r = "") responses in
  total_of "total_prompt_tokens" w' = total_of "total_prompt_tokens" w + sum_Z (prompt_tokens <$> counted) ∧
  total_of "total_completion_tokens" w' = total_of "total_completion_tokens" w + sum_Z (completion_tokens <$> counted) ∧
  ∀ k, k ∉ usage_keys → state_value k w' = state_value k w.
Proof.
  revert w. induction responses as [|r responses IH]; intros w; [cbn; split_and!; [lia|lia|done]|].
  cbn [foldl]. pose proof (one_response r w) as Hone. revert Hone. generalize (BasicResponseProcessor new_id (Some r) w).2.
  intros w1 (Hp1 & Hc1 & Hk1). destruct (IH w1) as (Hp & Hc & Hk). cbv zeta in *. rewrite Hp, Hc, Hp1, Hc1, filter_cons.
  destruct (decide (lr_ErrorCode r = "")) as [He|He]; [rewrite bool_decide_eq_true_2 by done|rewrite bool_decide_eq_false_2 by done];
    rewrite ?fmap_cons; unfold sum_Z; cbn [foldr]; (split_and!; [lia|lia|]); intros k Hin; by rewrite Hk, Hk1.
Qed.

(** After processing every function call has an id, and its own if it had one. *)
Lemma fill_ids_named r call :
  (∀ i, new_id i ≠ "") → call ∈ GetFunctionCalls (fill_ids new_id r) →
  fc_ID call ≠ "" ∧ ∃ call0, call0 ∈ GetFunctionCalls r ∧ fc_Name call0 = fc_Name call ∧ fc_Args call0 = fc_Args call ∧
    (fc_ID call0 ≠ "" → call0 = call).
Proof.
  intros Hid. unfold GetFunctionCalls, fill_ids. simpl. destruct (lr_Content r) as [c|]; simpl; [|by intros ?%elem_of_nil].
  rewrite list_elem_of_omap. intros (p & Hp & Hcall). apply list_elem_of_lookup in Hp as [i Hi].
  rewrite list_lookup_imap in Hi. destruct (ct_Parts c !! i) as [p0|] eqn:Hp0; simplify_eq/=.
  assert (p0 ∈ ct_Parts c) as Hin by (by eapply list_elem_of_lookup_2). unfold fill_id in Hcall.
  destruct (pt_FunctionCall p0) as [fc|] eqn:Hfc; [|congruence]. setoid_rewrite list_elem_of_omap.
  destruct (String.eqb_spec (fc_ID fc) "") as [He|He]; simplify_eq/=.
  - split; [apply Hid|]. exists fc. split_and!; [by exists p0|done..].
  - split; [done|]. eexists. split_and!; [by exists p0|done..].
Qed.
End Totals.

(** ** The default chain *)

Section Default.
Context {Svc X : Type} `{SessionService Svc} `{DeltaOrder}.
Local Notation World := (RtWorld Svc (FlowEnv X)).
Context (fmt_v : Value → string).
Context (as_contents : Value → option (list Content)) (as_targets : Value → option (list TransferTarget))
        (as_target_maps : Value → option (list (option TransferTarget))).
Context (input : option string) (has_sessions : bool) (date time : string) (new_id : nat → string).
Local Notation Defaults := (DefaultRequestProcessors (X := X) fmt_v as_contents as_targets as_target_maps input has_sessions date time).

(** The flow with the default processors of a new chain. *)
Definition with_default_processors (f : @LlmFlow Svc X) : @LlmFlow Svc X :=
  let '(requests, responses) :=
    chain_Build (WithDefaults fmt_v as_contents as_targets as_target_maps input has_sessions date time new_id NewProcessorChain) in
  mkLlmFlow requests responses (lf_BeforeModel f) (lf_AfterModel f) (lf_OnModelError f) (lf_LlmProvider f) (lf_LiveProvider f)
    (lf_AgentNameLabelKey f) (lf_MaxSteps f) (lf_DefaultRunConfig f) (lf_PluginManager f) (lf_BeforeTool f) (lf_AfterTool f).

Lemma ctx_Set_counts k v c maps : ic_RunConfig (ctx_Set k v c maps) = ic_RunConfig c ∧ ic_LLMCallCount (ctx_Set k v c maps) = ic_LLMCallCount c.
Proof. unfold ctx_Set. by destruct (is_temp k). Qed.

Lemma set_value_uncounted k v (w : World) : uncounted w (set_value k v w).
Proof. unfold uncounted, set_value. simpl. by destruct (ctx_Set_counts k v (rw_ctx w) (rw_maps w)) as [-> ->]. Qed.

Lemma session_history_uncounted (w : World) : uncounted w (session_history as_contents has_sessions w).2.
Proof. unfold session_history. destruct has_sessions; [|done]. by destruct (svc_GetSession _ _) as [r [maps svc]]. Qed.

Lemma defaults_uncounted p (w : World) : p ∈ Defaults → uncounted w (p w).2.
Proof.
  unfold DefaultRequestProcessors. rewrite !elem_of_cons, elem_of_nil. intros Hp. destruct_or?; subst; try done.
  - unfold IdentityRequestProcessor. by destruct (_ || _).
  - unfold ContentsRequestProcessor. pose proof (session_history_uncounted w) as Hw. destruct (session_history _ _ w). exact Hw.
  - unfold AgentTransferRequestProcessor. destruct (negb _); [done|]. destruct (existsb _ _); [done|]. by destruct (getTransferTargets _ _ w).
Qed.

Lemma func_processor_acts (p : World → option error * World) : (∀ w, uncounted w (p w).2) → acts uncounted (FuncProcessor p).
Proof. intros Hp. apply acts_call; [exact Hp|]. intros [e|]; repeat constructor. Qed.

(** A flow keeps its promises when it is given the default processors; so its calls
    of the model stay bounded. *)
Theorem default_processors_quiet handler (f : @LlmFlow Svc X) : flow_quiet handler f → flow_quiet handler (with_default_processors f).
Proof.
  intros []. split; try done; simpl; intros p Hp.
  - assert (p ∈ FuncProcessor <$> Defaults) as Hin by exact Hp. apply list_elem_of_fmap in Hin as (q & -> & Hq).
    apply func_processor_acts. intros w. by apply defaults_uncounted.
  - apply list_elem_of_singleton in Hp as ->. apply func_processor_acts. intros w. unfold BasicResponseProcessor.
    destruct (negb _); [done|]. simpl. destruct (lr_UsageMetadata _) as [u|]; [|done]. unfold track_usage.
    repeat (etrans; [|apply set_value_uncounted]). done.
Qed.

(** *** The request *)

(** Each tool is in the dictionary, which is by names. *)
Definition tools_known (r : LlmRequest) : Prop :=
  (∀ tool, tool ∈ rq_Tools r → is_Some (rq_ToolsDict r !! td_Name tool)) ∧
  ∀ name tool, rq_ToolsDict r !! name = Some tool → td_Name tool = name.

Lemma known_tools tools (d : gmap string ToolDefinition) :
  (∀ name tool, d !! name = Some tool → td_Name tool = name) →
  let d' := foldl (λ d tool, <[td_Name tool := tool]> d) d tools in
  (∀ name tool, d' !! name = Some tool → td_Name tool = name) ∧ (∀ name, is_Some (d !! name) → is_Some (d' !! name)) ∧
  ∀ tool, tool ∈ tools → is_Some (d' !! td_Name tool).
Proof.
  revert d. induction tools as [|t tools IH]; intros d Hd; simpl; [split_and!; [done|done|by intros ? ?%elem_of_nil]|].
  destruct (IH (<[td_Name t := t]> d)) as (Hn & Hk & Hin).
  { intros name tool. rewrite lookup_insert_Some. intros [[<- <-]|[_ Hl]]; [done|by apply Hd]. }
  split_and!; [done| |].
  - intros name Hs. apply Hk. rewrite lookup_insert_is_Some. destruct (decide (td_Name t = name)); auto.
  - intros tool [->|Ht]%elem_of_cons; [|by apply Hin]. apply Hk. by rewrite lookup_insert_eq.
Qed.

Definition request_of (w : World) : LlmRequest := fe_req (rw_env w).
Definition transfer_tools (r : LlmRequest) : list ToolDefinition := filter (λ t, td_Name t = "transfer_to_agent") (rq_Tools r).

(** What the last two processors leave alone. *)
Lemma contents_request (w : World) :
  let w' := (ContentsRequestProcessor as_contents input has_sessions w).2 in
  rq_SystemInstruction (request_of w') = rq_SystemInstruction (request_of w) ∧ rq_Tools (request_of w') = rq_Tools (request_of w) ∧
  rq_ToolsDict (request_of w') = rq_ToolsDict (request_of w) ∧ rq_Labels (request_of w') = rq_Labels (request_of w) ∧
  ∀ n, state_value "max_conversation_history" w' = Some (VInt n) → 0 < n → Z.of_nat (length (rq_Contents (request_of w'))) ≤ n.
Proof.
  unfold ContentsRequestProcessor. assert (fe_req (rw_env (session_history as_contents has_sessions w).2) = request_of w) as Hreq.
  { unfold session_history. destruct has_sessions; [|done]. by destruct (svc_GetSession _ _) as [r [maps svc]]. }
  destruct (session_history _ _ w) as [history w1]. simpl in Hreq. unfold request_of, on_request. simpl. rewrite Hreq.
  set (r1 := put_Contents _ _).
  assert (∀ (P : LlmRequest → Prop), P r1 → (∀ l, P (put_Contents l r1)) → P (with_user_message input r1)) as Hw.
  { intros P H1 H2. unfold with_user_message. destruct input as [i|]; [|done]. destruct (_ && _ && _); auto. }
  assert (∀ r limit (P : LlmRequest → Prop), P r → (∀ l, P (put_Contents l r)) → P (truncate_contents limit r)) as Ht.
  { intros r limit P H1 H2. unfold truncate_contents. destruct limit as [[]|]; try done. destruct (_ && _); auto. }
  split_and!.
  1-4: by apply Ht; [apply Hw|intros l; apply Hw].
  intros n Hn Hpos. change (state_value "max_conversation_history" _) with (state_value "max_conversation_history" w1) in Hn.
  rewrite Hn. simpl. destruct (Z.ltb_spec 0 n); [|lia]. simpl. destruct (Z.ltb_spec n (Z.of_nat (length (rq_Contents (with_user_message input r1))))); simpl; [|lia].
  unfold last_n. rewrite length_drop. lia.
Qed.

Lemma transfer_request (w : World) :
  let w' := (AgentTransferRequestProcessor as_targets as_target_maps w).2 in
  rq_SystemInstruction (request_of w') = rq_SystemInstruction (request_of w) ∧ rq_Contents (request_of w') = rq_Contents (request_of w) ∧
  rq_Labels (request_of w') = rq_Labels (request_of w) ∧ (tools_known (request_of w) → tools_known (request_of w')) ∧
  transfer_tools (request_of w') =
    match transfer_tools (request_of w) with
    | [] => if is_set "enable_agent_transfer" w
            then match getTransferTargets as_targets as_target_maps w with [] => [] | targets => [transfer_tool targets] end else []
    | tools => tools
    end.
Proof.
  unfold AgentTransferRequestProcessor. destruct (is_set "enable_agent_transfer" w); simpl;
    [|split_and!; try done; by destruct (transfer_tools (request_of w))].
  destruct (existsb _ _) eqn:Hex.
  { simpl. split_and!; try done. destruct (transfer_tools (request_of w)) eqn:Ht; [|done]. apply existsb_exists in Hex as (t & Hin & Heq).
    apply String.eqb_eq in Heq. assert (t ∈ transfer_tools (request_of w)) as Hbad by (by apply list_elem_of_filter; split; [|apply list_elem_of_In]).
    rewrite Ht in Hbad. by apply elem_of_nil in Hbad. }
  assert (transfer_tools (request_of w) = []) as Hnone.
  { apply elem_of_nil_inv. intros t [Hn Ht]%list_elem_of_filter. rewrite <-not_true_iff_false in Hex. apply Hex. apply existsb_exists.
    exists t. split; [by apply list_elem_of_In|]. by apply String.eqb_eq. }
  rewrite Hnone. destruct (getTransferTargets _ _ w) as [|t targets]; [done|]. simpl. split_and!; try done.
  - intros [Hk Hd]. split; simpl.
    + intros tool [Hin|Hin]%elem_of_app; rewrite lookup_insert_is_Some; simpl; [|by apply list_elem_of_singleton in Hin as ->; left].
      destruct (decide ("transfer_to_agent" = td_Name tool)); [by left|right]. split; [done|by apply Hk].
    + intros name tool. rewrite lookup_insert_Some. intros [[<- <-]|[_ Hl]]; [done|by apply Hd].
  - unfold transfer_tools in *. unfold request_of, on_request in *. simpl. by rewrite filter_app, Hnone.
Qed.

(** Only the request changes. *)
Definition request_only (w w' : World) : Prop := rw_ctx w' = rw_ctx w ∧ rw_maps w' = rw_maps w.

Lemma request_only_state k w w' : request_only w w' → state_value k w' = state_value k w.
Proof. unfold state_value. by intros [-> ->]. Qed.
Lemma request_only_set k w w' : request_only w w' → is_set k w' = is_set k w.
Proof. intros Hw. unfold is_set. by rewrite (request_only_state k w w' Hw). Qed.
Lemma request_only_targets w w' :
  request_only w w' → getTransferTargets as_targets as_target_maps w' = getTransferTargets as_targets as_target_maps w.
Proof. intros Hw. unfold getTransferTargets. by rewrite (request_only_state _ w w' Hw). Qed.

Lemma transfer_only (w : World) : request_only w (AgentTransferRequestProcessor as_targets as_target_maps w).2.
Proof.
  unfold AgentTransferRequestProcessor. destruct (negb _); [done|]. destruct (existsb _ _); [done|]. by destruct (getTransferTargets _ _ w).
Qed.

(** What the first three processors make. *)
Lemma prepared_request (w : World) :
  (∀ name tool, rq_ToolsDict (request_of w) !! name = Some tool → td_Name tool = name) →
  let w3 := (IdentityRequestProcessor (InstructionsRequestProcessor fmt_v input date time (BasicRequestProcessor w).2).2).2 in
  tools_known (request_of w3) ∧ rq_Tools (request_of w3) = rq_Tools (request_of w) ∧
  rq_Labels (request_of w3) !! "session_id" = Some (ic_SessionID (rw_ctx w)) ∧
  rq_Labels (request_of w3) !! "invocation_id" = Some (ic_InvocationID (rw_ctx w)) ∧
  (ic_AgentName (rw_ctx w) ≠ "" → is_set "add_identity_to_instruction" w = true →
     String.prefix ("You are " +:+ ic_AgentName (rw_ctx w) +:+ ". ") (rq_SystemInstruction (request_of w3)) = true).
Proof.
  intros Hd. destruct (known_tools (rq_Tools (request_of w)) _ Hd) as (Hn & _ & Hin). cbv zeta in Hn, Hin.
  set (w2 := (InstructionsRequestProcessor fmt_v input date time (BasicRequestProcessor w).2).2).
  assert (tools_known (request_of w2)) as Hk by (split; [exact Hin|exact Hn]).
  assert (rq_Labels (request_of w2) !! "session_id" = Some (ic_SessionID (rw_ctx w)) ∧
          rq_Labels (request_of w2) !! "invocation_id" = Some (ic_InvocationID (rw_ctx w))) as [Hs Hi].
  { unfold request_of. cbn [w2 InstructionsRequestProcessor BasicRequestProcessor snd on_request put_req on_env put_env rw_env fe_req rq_Labels put_SystemInstruction].
    split; [rewrite lookup_insert_ne by done|]; apply lookup_insert_eq. }
  unfold IdentityRequestProcessor. rewrite (request_only_set _ w w2) by done. change (ic_AgentName (rw_ctx w2)) with (ic_AgentName (rw_ctx w)).
  destruct (String.eqb_spec (ic_AgentName (rw_ctx w)) "") as [He|He]; [by simpl|].
  destruct (is_set "add_identity_to_instruction" w); simpl; [|done].
  unfold request_of, on_request in *. cbn [fe_req rw_env put_req on_env put_env]. destruct (String.prefix _ _) eqn:Hp.
  - done.
  - cbn [put_SystemInstruction rq_Tools rq_Labels rq_SystemInstruction]. split_and!; try done. intros _ _. apply prefix_app.
Qed.

Lemma run_no_errors what l (w : World) :
  (∀ p, p ∈ l → ∀ w, (p w).1 = None) → run_processors what l w = (None, foldl (λ w p, (p w).2) w l).
Proof.
  revert w. induction l as [|p l IH]; intros w Hall; simpl; [done|]. pose proof (Hall p (list_elem_of_here _ _) w) as Hp.
  destruct (p w) as [err w1]. simpl in Hp. subst err. apply IH. intros q Hq. apply Hall. by right.
Qed.

Lemma defaults_no_error p (w : World) : p ∈ Defaults → (p w).1 = None.
Proof.
  unfold DefaultRequestProcessors. rewrite !elem_of_cons, elem_of_nil. intros Hp. destruct_or?; subst; try done.
  - unfold IdentityRequestProcessor. by destruct (_ || _).
  - unfold ContentsRequestProcessor. by destruct (session_history _ _ w).
  - unfold AgentTransferRequestProcessor. destruct (negb _); [done|]. destruct (existsb _ _); [done|]. by destruct (getTransferTargets _ _ w).
Qed.

(** The request the default processors make: they do not fail; its tools are in its
    dictionary; it is labelled with session and invocation; it holds no more contents
    than the state allows; it begins with the agent's identity if that is asked for;
    and it offers one transfer tool, for the targets in the state, if transfers are
    enabled and no such tool was there. *)
Theorem default_request (w : World) :
  (∀ name tool, rq_ToolsDict (request_of w) !! name = Some tool → td_Name tool = name) →
  let '(err, w') := run_processors "request" Defaults w in
  err = None ∧ tools_known (request_of w') ∧
  rq_Labels (request_of w') !! "session_id" = Some (ic_SessionID (rw_ctx w)) ∧
  rq_Labels (request_of w') !! "invocation_id" = Some (ic_InvocationID (rw_ctx w)) ∧
  (∀ n, state_value "max_conversation_history" w' = Some (VInt n) → 0 < n → Z.of_nat (length (rq_Contents (request_of w'))) ≤ n) ∧
  (ic_AgentName (rw_ctx w) ≠ "" → is_set "add_identity_to_instruction" w = true →
     String.prefix ("You are " +:+ ic_AgentName (rw_ctx w) +:+ ". ") (rq_SystemInstruction (request_of w')) = true) ∧
  (transfer_tools (request_of w) = [] → is_set "enable_agent_transfer" w' = true →
     getTransferTargets as_targets as_target_maps w' ≠ [] →
     transfer_tools (request_of w') = [transfer_tool (getTransferTargets as_targets as_target_maps w')]).
Proof.
  intros Hd. destruct (prepared_request w Hd) as (Hknown & Htools & Hsid & Hinv & Hident). cbv zeta in *.
  rewrite run_no_errors by (intros; by apply defaults_no_error). unfold DefaultRequestProcessors. cbn [foldl].
  set (w3 := (IdentityRequestProcessor _).2) in *. clearbody w3.
  destruct (contents_request w3) as (Hci & Hct & Hcd & Hcl & Hmax). cbv zeta in *.
  set (w4 := (ContentsRequestProcessor _ _ _ w3).2) in *. clearbody w4.
  destruct (transfer_request w4) as (Hti & Htc & Htl & Htk & Htt). pose proof (transfer_only w4) as Honly. cbv zeta in *.
  set (w5 := (AgentTransferRequestProcessor _ _ w4).2) in *. clearbody w5.
  rewrite Hti, Htl, Hci, Hcl, Htc. split_and!; try done.
  - apply Htk. destruct Hknown as [Hk1 Hk2]. split; rewrite Hcd, ?Hct; done.
  - intros n. rewrite (request_only_state _ w4 w5 Honly). apply Hmax.
  - intros Hnone. rewrite (request_only_set _ w4 w5 Honly), (request_only_targets w4 w5 Honly), Htt.
    unfold transfer_tools in *. rewrite Hct, Htools, Hnone. intros -> Hne. by destruct (getTransferTargets _ _ w4).
Qed.
End Default.

(** ** Runs *)

Section Runs.
#[local] Instance one_session : SessionService unit := {|
  svc_GetSession := λ _ mm, (inr (Some (mkRtSession "s" "u" (Some 0%nat) [] 0 0)), mm);
  svc_UpdateSession := λ _ mm, (None, mm);
|}.
#[local] Instance some_order : DeltaOrder.
Proof. refine {| delta_order := map_to_list |}. done. Defined.
Definition other_order : DeltaOrder.
Proof. refine {| delta_order := λ m, reverse (map_to_list m) |}. intros m. apply reverse_Permutation. Defined.

Definition run_world (state : gmap string Value) : RtWorld unit (FlowEnv unit) :=
  mkRtWorld (mkInvocation "s" "i" "u" (Some 0%nat) ∅ [] "" [] "" false 0 None) {[0%nat := state]} tt None 0
    (mkFlowEnv new_request (mkResponse None false "" "" false false None) no_actions None 0 0 tt).

Definition text (s : string) (role : string) : Content := mkContent role [mkPart s None None].
Definition past (v : Value) : option (list Content) := Some [text "hi" "user"; text "hello" "model"].

(** In a conversation that has a history, what the user says now is not sent. *)
Example message_not_sent :
  let w := run_world {["conversation_history" := VOpaque 1; "system_instruction" := VString "be brief"]} in
  let r := request_of (run_processors "request"
             (DefaultRequestProcessors (λ _, "") past (λ _, None) (λ _, None) (Some "and now?") true "" "") w).2 in
  rq_SystemInstruction r = "be brief" ∧ rq_Contents r = [text "hi" "user"; text "hello" "model"].
Proof. split; vm_compute; reflexivity. Qed.

(** A state value that reads like a variable is replaced or not, as the order of
    the map has it. *)
Example template_by_order :
  let w := run_world {["a" := VString "{{state.b}}"; "b" := VString "x"]} in
  let fmt v := match v with VString s => s | _ => "" end in
  {[processInstructionTemplate fmt "" "" "{{state.a}}" w; processInstructionTemplate (H0 := other_order) fmt "" "" "{{state.a}}" w]}
    = ({["x"; "{{state.b}}"]} : gset string).
Proof. vm_compute. reflexivity. Qed.
End Runs.
