(* ===== verification/LiveSessions.v ===== *)
(** * Live sessions and long-running tools (pkg/runtime/llm_flow.go)

    The manager of live sessions and the tracker of long-running tools.  Every
    operation holds the lock, so runs are sequences of operations.  Sessions are
    objects: callers keep references to them after the manager has dropped them.
    Ids come from the clock and are arguments here; the callback on a disconnect is
    left out.  [None] as a result is a panic (closing a channel twice). *)

From stdpp Require Import base gmap strings list fin_maps relations.
From S2P Require Import Prelude Etcd Invocation AsyncRuntime LlmFlow.

Open Scope Z_scope.

(** ** Sessions *)

Record SessionPauseState := mkPauseState {
  ps_Contents : list Content;
  ps_PendingCalls : list FunctionCall;
  ps_SystemInstruction : string;
  ps_CheckpointID : string;
  ps_PausedAt : Time;
}.

(** [lv_EventsClosed]: the event channel is closed. *)
Record LiveSession := mkLiveSession {
  lv_ID : string;
  lv_RequestQueue : LiveRequestQueue;
  lv_EventsClosed : bool;
  lv_Closed : bool;
  lv_PauseState : option SessionPauseState;
  lv_StartTime : Time;
  lv_LastActivity : Time;
}.

Record LiveSessionManager := mkLiveManager {
  lm_objects : gmap nat LiveSession;
  lm_sessions : gmap string nat;
  lm_MaxIdleTime : Duration;
}.

(** 5 minutes by default. *)
Definition NewLiveSessionManager (maxIdle : option Duration) : LiveSessionManager :=
  mkLiveManager ∅ ∅ (default (5 * Minute) maxIdle).

Definition put_session (l : nat) (s : LiveSession) (m : LiveSessionManager) : LiveSessionManager :=
  mkLiveManager (<[l := s]> (lm_objects m)) (lm_sessions m) (lm_MaxIdleTime m).
Definition drop_session (id : string) (m : LiveSessionManager) : LiveSessionManager :=
  mkLiveManager (lm_objects m) (delete id (lm_sessions m)) (lm_MaxIdleTime m).

Definition live_CreateSession (id : string) (now : Time) (m : LiveSessionManager) : nat * LiveSessionManager :=
  let l := fresh (dom (lm_objects m)) in
  (l, mkLiveManager (<[l := mkLiveSession id NewLiveRequestQueue false false None now now]> (lm_objects m))
        (<[id := l]> (lm_sessions m)) (lm_MaxIdleTime m)).

Definition live_GetSession (id : string) (m : LiveSessionManager) : option nat := lm_sessions m !! id.

Definition session_not_found (id : string) : error := EText ("session " +:+ id +:+ " not found").

(** [session.Closed = true], the queue and the channel are closed. *)
Definition close_session (s : LiveSession) : option LiveSession :=
  if lv_EventsClosed s then None
  else Some (mkLiveSession (lv_ID s) (queue_Close (lv_RequestQueue s)) true true (lv_PauseState s) (lv_StartTime s) (lv_LastActivity s)).

Definition close_and_drop (id : string) (l : nat) (m : LiveSessionManager) : option LiveSessionManager :=
  s ← lm_objects m !! l; s ← close_session s; Some (drop_session id (put_session l s m)).

Definition live_CloseSession (id : string) (m : LiveSessionManager) : option (option error * LiveSessionManager) :=
  match lm_sessions m !! id with
  | None => Some (Some (session_not_found id), m)
  | Some l => m ← close_and_drop id l m; Some (None, m)
  end.

Definition PauseSession (id checkpointID : string) (now : Time) (m : LiveSessionManager)
    : option (result SessionPauseState * LiveSessionManager) :=
  match lm_sessions m !! id with
  | None => Some (inl (session_not_found id), m)
  | Some l =>
      s ← lm_objects m !! l;
      let p := mkPauseState [] [] "" checkpointID now in
      Some (inr p, put_session l (mkLiveSession (lv_ID s) (lv_RequestQueue s) (lv_EventsClosed s) (lv_Closed s) (Some p)
                                    (lv_StartTime s) (lv_LastActivity s)) m)
  end.

(** The pause state that is given is not used. *)
Definition ResumeSession (id : string) (pauseState : option SessionPauseState) (now : Time) (m : LiveSessionManager)
    : option (result nat * LiveSessionManager) :=
  match lm_sessions m !! id with
  | None => Some (inl (session_not_found id), m)
  | Some l =>
      s ← lm_objects m !! l;
      Some (inr l, put_session l (mkLiveSession (lv_ID s) (lv_RequestQueue s) (lv_EventsClosed s) (lv_Closed s) None
                                    (lv_StartTime s) now) m)
  end.

(** [now.Sub(session.LastActivity) > m.config.MaxIdleTime] *)
Definition idle (now : Time) (m : LiveSessionManager) (l : nat) : bool :=
  match lm_objects m !! l with Some s => lm_MaxIdleTime m <? now - lv_LastActivity s | None => false end.

(** The sessions in the order of the loop over the map. *)
Fixpoint cleanup_idle (now : Time) (order : list (string * nat)) (m : LiveSessionManager) (cleaned : Z) : option (Z * LiveSessionManager) :=
  match order with
  | [] => Some (cleaned, m)
  | (id, l) :: order' =>
      if idle now m l then m ← close_and_drop id l m; cleanup_idle now order' m (cleaned + 1)
      else cleanup_idle now order' m cleaned
  end.
Definition CleanupIdleSessions (now : Time) (order : list (string * nat)) (m : LiveSessionManager) : option (Z * LiveSessionManager) :=
  cleanup_idle now order m 0.

(** *** Sessions the manager knows are open *)

Inductive live_step : LiveSessionManager → option LiveSessionManager → Prop :=
  | live_create id now m : lm_sessions m !! id = None → live_step m (Some (live_CreateSession id now m).2)
  | live_close id m : live_step m (snd <$> live_CloseSession id m)
  | live_pause id cp now m : live_step m (snd <$> PauseSession id cp now m)
  | live_resume id p now m : live_step m (snd <$> ResumeSession id p now m)
  | live_cleanup now order m : order ≡ₚ map_to_list (lm_sessions m) → live_step m (snd <$> CleanupIdleSessions now order m)
  | live_activity l s t m :   (** [RunLive], [SendLiveMessage] *)
      lm_objects m !! l = Some s →
      live_step m (Some (put_session l (mkLiveSession (lv_ID s) (lv_RequestQueue s) (lv_EventsClosed s) (lv_Closed s) (lv_PauseState s)
                                          (lv_StartTime s) t) m)).

Record live_ok (m : LiveSessionManager) : Prop := {
  lo_known id l : lm_sessions m !! id = Some l → ∃ s, lm_objects m !! l = Some s ∧ lv_ID s = id;
  lo_open l s : lm_objects m !! l = Some s →
    lv_Closed s = lv_EventsClosed s ∧ (lv_Closed s = false ↔ lm_sessions m !! lv_ID s = Some l);
}.

Lemma close_and_drop_ok id l m :
  live_ok m → lm_sessions m !! id = Some l → ∃ m', close_and_drop id l m = Some m' ∧ live_ok m' ∧
    lm_sessions m' = delete id (lm_sessions m) ∧ lm_MaxIdleTime m' = lm_MaxIdleTime m ∧
    ∀ l', l' ≠ l → lm_objects m' !! l' = lm_objects m !! l'.
Proof.
  intros [Hk Ho] Hl. destruct (Hk id l Hl) as (s & Hs & Hid). destruct (Ho l s Hs) as [Hc Hiff].
  unfold close_and_drop, close_session. rewrite Hs. simpl. destruct (lv_EventsClosed s) eqn:He; simpl.
  { rewrite Hid, Hl in Hiff. rewrite Hc in Hiff. naive_solver. }
  eexists. split; [done|]. split; [|split_and!; [done|done|intros l' Hne; by apply lookup_insert_ne]]. constructor; simpl.
  - intros id' l' [Hne Hl']%lookup_delete_Some. destruct (Hk id' l' Hl') as (s' & Hs' & Hid').
    exists s'. split; [|done]. rewrite lookup_insert_ne; [done|]. intros <-. rewrite Hs in Hs'. by simplify_eq.
  - intros l' s' [[<- <-]|[Hne Hs']]%lookup_insert_Some; simpl.
    + split; [done|]. rewrite Hid, lookup_delete_eq. done.
    + destruct (Ho l' s' Hs') as [Hc' Hiff']. split; [done|]. rewrite Hiff', lookup_delete_Some. split; [|naive_solver].
      intros Hx. split; [|done]. intros Heq. rewrite <- Heq, Hl in Hx. by simplify_eq.
Qed.

Lemma put_same_ok l s s' m :
  live_ok m → lm_objects m !! l = Some s → lv_ID s' = lv_ID s → lv_Closed s' = lv_Closed s → lv_EventsClosed s' = lv_EventsClosed s →
  live_ok (put_session l s' m).
Proof.
  intros [Hk Ho] Hs Hid Hc He. constructor; simpl.
  - intros id l' Hl. destruct (Hk id l' Hl) as (x & Hx & Hidx). destruct (decide (l = l')) as [<-|Hne].
    + exists s'. rewrite lookup_insert_eq. rewrite Hs in Hx. simplify_eq. done.
    + exists x. by rewrite lookup_insert_ne.
  - intros l' x [[<- <-]|[_ Hx]]%lookup_insert_Some; [|by apply Ho]. rewrite Hid, Hc, He. by apply Ho.
Qed.

Lemma filter_ext_in {A} (P Q : A → Prop) `{∀ x, Decision (P x), ∀ x, Decision (Q x)} (l : list A) :
  (∀ x, x ∈ l → P x ↔ Q x) → filter P l = filter Q l.
Proof.
  induction l as [|a l IH]; intros Hpq; [done|]. rewrite !filter_cons, IH by (intros x Hx; apply Hpq; by right).
  pose proof (Hpq a (list_elem_of_here _ _)). repeat case_decide; tauto.
Qed.

(** The idle sessions are closed, the others are left as they are, in whatever order. *)
Lemma cleanup_spec now order m n :
  live_ok m → NoDup order.*1 → (∀ id l, (id, l) ∈ order → lm_sessions m !! id = Some l) →
  ∃ m', cleanup_idle now order m n = Some (n + Z.of_nat (length (filter (λ x, idle now m x.2 = true) order)), m') ∧ live_ok m' ∧
    (∀ id l, lm_sessions m' !! id = Some l ↔ lm_sessions m !! id = Some l ∧ ¬ ((id, l) ∈ order ∧ idle now m l = true)).
Proof.
  revert m n. induction order as [|[id l] order IH]; intros m n Hok Hnd Hin; simpl.
  { exists m. rewrite Z.add_0_r. split_and!; [done|done|]. intros id l. split; [|naive_solver]. intros Hl. split; [done|]. by intros [?%elem_of_nil _]. }
  apply NoDup_cons in Hnd as [Hni Hnd]. pose proof (Hin id l (list_elem_of_here _ _)) as Hl.
  assert (∀ id' l', (id', l') ∈ order → lm_sessions m !! id' = Some l') as Hin' by (intros; apply Hin; by right).
  destruct (idle now m l) eqn:Hidle.
  - destruct (close_and_drop_ok id l m Hok Hl) as (m1 & -> & Hok1 & Hs1 & Hi1 & Ho1). simpl.
    assert (∀ id' l', lm_sessions m !! id' = Some l' → id' ≠ id → idle now m1 l' = idle now m l') as Hidle'.
    { intros id' l' Hl' Hne. unfold idle. rewrite Ho1, Hi1; [done|]. intros ->. destruct Hok as [Hk _].
      destruct (Hk _ _ Hl) as (s & Hs & <-), (Hk _ _ Hl') as (s' & Hs' & <-). rewrite Hs in Hs'. by simplify_eq. }
    assert (∀ id' l', (id', l') ∈ order → id' ≠ id) as Hne.
    { intros id' l' Hx ->. apply Hni. apply list_elem_of_fmap. by exists (id, l'). }
    destruct (IH m1 (n + 1) Hok1 Hnd) as (m2 & Hc & Hok2 & Hs2).
    { intros id' l' Hx. rewrite Hs1, lookup_delete_ne; [by apply Hin'|]. intros ->. by eapply Hne. }
    exists m2. split; [|split; [done|]].
    + rewrite Hc. rewrite filter_cons_True by done. cbn [length].
      assert (filter (λ x, idle now m1 x.2 = true) order = filter (λ x, idle now m x.2 = true) order) as ->.
      { apply filter_ext_in. intros [id' l'] Hx. simpl. rewrite (Hidle' id' l'); [done|by apply Hin'|by eapply Hne]. }
      f_equal. f_equal. lia.
    + intros id' l'. rewrite Hs2, Hs1, lookup_delete_Some, elem_of_cons. split.
      * intros [[Hn Hx] Hy]. split; [done|]. intros [[[= -> ->]|Hz] Hw]; [done|]. apply Hy. split; [done|]. rewrite (Hidle' id' l'); done.
      * intros [Hx Hy]. assert (id ≠ id') as Hn. { intros <-. apply Hy. rewrite Hl in Hx. simplify_eq. split; [by left|done]. }
        split; [done|]. intros [Hz Hw]. apply Hy. split; [by right|]. rewrite <- (Hidle' id' l'); done.
  - destruct (IH m n Hok Hnd Hin') as (m2 & Hc & Hok2 & Hs2). exists m2. split; [|split; [done|]].
    + rewrite Hc. by rewrite filter_cons_False by (simpl; congruence).
    + intros id' l'. rewrite Hs2, elem_of_cons. split.
      * intros [Hx Hy]. split; [done|]. intros [[[= -> ->]|Hz] Hw]; [congruence|]. by apply Hy.
      * intros [Hx Hy]. split; [done|]. intros [Hz Hw]. apply Hy. split; [by right|done].
Qed.

Lemma live_step_ok m m' : live_ok m → live_step m m' → ∃ m'', m' = Some m'' ∧ live_ok m''.
Proof.
  intros Hok Hs. destruct Hs as [id now m Hnew|id m|id cp now m|id p now m|now order m Hperm|l s t m Hs].
  - eexists. split; [done|]. destruct Hok as [Hk Ho]. set (l := fresh (dom (lm_objects m))).
    assert (lm_objects m !! l = None) as Hl by (apply not_elem_of_dom, is_fresh). constructor; simpl.
    + intros id' l' [[<- <-]|[_ Hl']]%lookup_insert_Some; [eexists; by rewrite lookup_insert_eq|].
      destruct (Hk id' l' Hl') as (s & Hs & Hid). exists s. rewrite lookup_insert_ne; [done|]. intros Heq. rewrite <- Heq in Hs. change (lm_objects m !! l = Some s) in Hs. congruence.
    + intros l' s [[<- <-]|[Hne Hs]]%lookup_insert_Some; simpl; [split; [done|by rewrite lookup_insert_eq]|].
      destruct (Ho l' s Hs) as [Hc Hiff]. split; [done|]. rewrite Hiff. destruct (decide (id = lv_ID s)) as [->|Hi].
      * rewrite lookup_insert_eq, Hnew. split; [done|]. by intros [= ?].
      * by rewrite lookup_insert_ne.
  - unfold live_CloseSession. destruct (lm_sessions m !! id) as [l|] eqn:Hl; [|eauto].
    destruct (close_and_drop_ok id l m Hok Hl) as (m1 & -> & Hok1 & _). simpl. eauto.
  - unfold PauseSession. destruct (lm_sessions m !! id) as [l|] eqn:Hl; [|eauto].
    destruct (lo_known m Hok id l Hl) as (s & Hs & _). rewrite Hs. simpl. eexists. split; [done|]. by eapply put_same_ok.
  - unfold ResumeSession. destruct (lm_sessions m !! id) as [l|] eqn:Hl; [|eauto].
    destruct (lo_known m Hok id l Hl) as (s & Hs & _). rewrite Hs. simpl. eexists. split; [done|]. by eapply put_same_ok.
  - destruct (cleanup_spec now order m 0 Hok) as (m1 & Hc & Hok1 & _).
    + rewrite Hperm. apply NoDup_fst_map_to_list.
    + intros id l. rewrite Hperm, elem_of_map_to_list. done.
    + unfold CleanupIdleSessions. rewrite Hc. simpl. eauto.
  - eexists. split; [done|]. by eapply put_same_ok.
Qed.

Definition live_reachable (maxIdle : option Duration) : LiveSessionManager → Prop :=
  rtc (λ m m', live_step m (Some m')) (NewLiveSessionManager maxIdle).

(** With ids that are not in use, whatever callers do, in whatever order: no
    operation closes a channel twice; a session is open exactly as long as the
    manager knows it; and a cleanup closes exactly the sessions that were idle for
    too long, and counts them, in whatever order it meets them. *)
Theorem live_sessions_closed_once maxIdle m :
  live_reachable maxIdle m →
  (∀ m', live_step m m' → is_Some m') ∧
  (∀ l s, lm_objects m !! l = Some s → lv_Closed s = false ↔ live_GetSession (lv_ID s) m = Some l) ∧
  (∀ now order, order ≡ₚ map_to_list (lm_sessions m) →
     ∃ m', CleanupIdleSessions now order m = Some (Z.of_nat (length (filter (λ x, idle now m x.2 = true) order)), m') ∧
       ∀ id l, live_GetSession id m' = Some l ↔ live_GetSession id m = Some l ∧ idle now m l = false).
Proof.
  intros Hrun. assert (live_ok m) as Hok.
  { unfold live_reachable in Hrun. remember (NewLiveSessionManager maxIdle) as m0 eqn:Hm0.
    assert (live_ok m0) as Hst by (subst; by constructor). clear Hm0. induction Hrun as [|x y z Hxy _ IH]; [done|].
    apply IH. by destruct (live_step_ok x (Some y) Hst Hxy) as (? & [= <-] & ?). }
  split; [|split].
  - intros m' Hs. destruct (live_step_ok m m' Hok Hs) as (m'' & -> & _). by eexists.
  - intros l s Hs. apply (lo_open m Hok l s Hs).
  - intros now order Hperm. destruct (cleanup_spec now order m 0 Hok) as (m1 & Hc & _ & Hs1).
    + rewrite Hperm. apply NoDup_fst_map_to_list.
    + intros id l. rewrite Hperm, elem_of_map_to_list. done.
    + exists m1. split; [exact Hc|]. unfold live_GetSession. intros id l. rewrite Hs1, Hperm, elem_of_map_to_list.
      destruct (idle now m l); naive_solver.
Qed.

(** ** Long-running tools *)

Inductive ToolStatus := ToolStatusPending | ToolStatusRunning | ToolStatusCompleted | ToolStatusFailed | ToolStatusCancelled.
#[global] Instance ToolStatus_eq_dec : EqDecision ToolStatus.
Proof. solve_decision. Defined.

Definition ToolStatus_String (s : ToolStatus) : string :=
  match s with
  | ToolStatusPending => "pending"
  | ToolStatusRunning => "running"
  | ToolStatusCompleted => "completed"
  | ToolStatusFailed => "failed"
  | ToolStatusCancelled => "cancelled"
  end.

(** [lt_EndTime] is [None] for the zero time; the progress is in parts of a
    million; [lt_Cancels] counts the calls of the cancel function. *)
Record LongRunningTool := mkLongTool {
  lt_ID : string;
  lt_Name : string;
  lt_Args : gmap string Value;
  lt_Status : ToolStatus;
  lt_StartTime : Time;
  lt_EndTime : option Time;
  lt_Result : Value;
  lt_Error : option error;
  lt_Progress : Z;
  lt_ProgressMsg : string;
  lt_Cancellable : bool;
  lt_Cancels : Z;
}.

Notation Tracker := (gmap string LongRunningTool) (only parsing).

Definition StartTool (id name : string) (args : gmap string Value) (cancellable : bool) (now : Time) (t : Tracker) : Tracker :=
  <[id := mkLongTool id name args ToolStatusRunning now None VNil None 0 "" cancellable 0]> t.

Definition tool_not_found (id : string) : error := EText ("tool " +:+ id +:+ " not found").

Definition UpdateProgress (id : string) (progress : Z) (msg : string) (t : Tracker) : option error * Tracker :=
  match t !! id with
  | None => (Some (tool_not_found id), t)
  | Some x => (None, <[id := mkLongTool (lt_ID x) (lt_Name x) (lt_Args x) (lt_Status x) (lt_StartTime x) (lt_EndTime x) (lt_Result x)
                               (lt_Error x) progress msg (lt_Cancellable x) (lt_Cancels x)]> t)
  end.

Definition CompleteTool (id : string) (res : Value) (err : option error) (now : Time) (t : Tracker) : option error * Tracker :=
  match t !! id with
  | None => (Some (tool_not_found id), t)
  | Some x =>
      (None, <[id := mkLongTool (lt_ID x) (lt_Name x) (lt_Args x)
                       (match err with Some _ => ToolStatusFailed | None => ToolStatusCompleted end)
                       (lt_StartTime x) (Some now) res err (lt_Progress x) (lt_ProgressMsg x) (lt_Cancellable x) (lt_Cancels x)]> t)
  end.

Definition CancelTool (id : string) (now : Time) (t : Tracker) : option error * Tracker :=
  match t !! id with
  | None => (Some (tool_not_found id), t)
  | Some x =>
      (None, <[id := mkLongTool (lt_ID x) (lt_Name x) (lt_Args x) ToolStatusCancelled (lt_StartTime x) (Some now) (lt_Result x)
                       (lt_Error x) (lt_Progress x) (lt_ProgressMsg x) (lt_Cancellable x)
                       (if lt_Cancellable x then lt_Cancels x + 1 else lt_Cancels x)]> t)
  end.

Definition GetTool (id : string) (t : Tracker) : option LongRunningTool := t !! id.

Definition ListRunningTools (t : Tracker) : list LongRunningTool :=
  filter (λ x, lt_Status x = ToolStatusRunning) (map_to_list t).*2.

(** [tool.EndTime.Before(cutoff)]; the zero time is before any. *)
Definition ended_before (cutoff : Time) (x : LongRunningTool) : bool :=
  bool_decide (lt_Status x ≠ ToolStatusRunning) && match lt_EndTime x with Some e => e <? cutoff | None => true end.

Definition CleanupCompleted (olderThan : Duration) (now : Time) (t : Tracker) : Z * Tracker :=
  let gone : Tracker := filter (λ x, ended_before (now - olderThan) x.2 = true) t in
  (Z.of_nat (size gone), t ∖ gone).

Inductive tool_step : Tracker → Tracker → Prop :=
  | ts_start id name args c now t : t !! id = None → tool_step t (StartTool id name args c now t)
  | ts_progress id p msg t : tool_step t (UpdateProgress id p msg t).2
  | ts_complete id res err now t : tool_step t (CompleteTool id res err now t).2
  | ts_cancel id now t : tool_step t (CancelTool id now t).2
  | ts_cleanup d now t : tool_step t (CleanupCompleted d now t).2.

Definition tool_ok (id : string) (x : LongRunningTool) : Prop :=
  lt_ID x = id ∧ lt_Status x ≠ ToolStatusPending ∧ (lt_Status x = ToolStatusRunning ↔ lt_EndTime x = None).

Lemma tool_step_ok t t' : tool_step t t' → map_Forall tool_ok t → map_Forall tool_ok t'.
Proof.
  intros Hs Hok. destruct Hs as [id name args c now t _|id p msg t|id res err now t|id now t|d now t].
  - apply map_Forall_insert_2; [by unfold tool_ok|done].
  - unfold UpdateProgress. destruct (t !! id) as [x|] eqn:Hx; [|done]. apply map_Forall_insert_2; [|done]. exact (Hok id x Hx).
  - unfold CompleteTool. destruct (t !! id) as [x|] eqn:Hx; [|done]. apply map_Forall_insert_2; [|done].
    destruct (Hok id x Hx) as (Hid & _). unfold tool_ok. simpl. by destruct err.
  - unfold CancelTool. destruct (t !! id) as [x|] eqn:Hx; [|done]. apply map_Forall_insert_2; [|done].
    destruct (Hok id x Hx) as (Hid & _). unfold tool_ok. simpl. done.
  - unfold CleanupCompleted. simpl. intros id x [Hx _]%lookup_difference_Some. by apply Hok.
Qed.

(** A tool is running from its start until it is completed or cancelled, and has an
    end time from then on; it does not run again, and only the cleanup forgets it. *)
Theorem tool_lifecycle t t' :
  rtc tool_step ∅ t → tool_step t t' →
  map_Forall tool_ok t ∧
  ∀ id x, t !! id = Some x →
    match t' !! id with
    | Some x' => lt_Status x ≠ ToolStatusRunning → lt_Status x' ≠ ToolStatusRunning ∧ lt_EndTime x' ≠ None
    | None => lt_Status x ≠ ToolStatusRunning
    end.
Proof.
  intros Hrun Hs.
  assert (map_Forall tool_ok t) as Hok.
  { remember (∅ : gmap string LongRunningTool) as t0 eqn:Ht0. assert (map_Forall tool_ok t0) as Hst by (subst; apply map_Forall_empty).
    clear Ht0 Hs. induction Hrun as [|x y z Hxy _ IH]; [done|]. apply IH. by eapply tool_step_ok. }
  pose proof (tool_step_ok t t' Hs Hok) as Hok'. split; [done|]. intros id x Hx. destruct (t' !! id) as [x'|] eqn:Hx'.
  - intros Hn. destruct (Hok' id x' Hx') as (_ & _ & Hiff). assert (lt_Status x' ≠ ToolStatusRunning); [|naive_solver].
    destruct Hs as [id' name args c now t Hnew|id' p msg t|id' res err now t|id' now t|d now t].
    + unfold StartTool in Hx'. rewrite lookup_insert_ne in Hx' by congruence. congruence.
    + unfold UpdateProgress in Hx'. destruct (t !! id') as [y|] eqn:Hy; [|simpl in Hx'; congruence]. simpl in Hx'.
      apply lookup_insert_Some in Hx' as [[<- <-]|[_ ?]]; [simpl; congruence|congruence].
    + unfold CompleteTool in Hx'. destruct (t !! id') as [y|] eqn:Hy; [|simpl in Hx'; congruence]. simpl in Hx'.
      apply lookup_insert_Some in Hx' as [[<- <-]|[_ ?]]; [simpl; by destruct err|congruence].
    + unfold CancelTool in Hx'. destruct (t !! id') as [y|] eqn:Hy; [|simpl in Hx'; congruence]. simpl in Hx'.
      apply lookup_insert_Some in Hx' as [[<- <-]|[_ ?]]; [done|congruence].
    + simpl in Hx'. apply lookup_difference_Some in Hx' as [? _]. congruence.
  - destruct Hs as [id' name args c now t Hnew|id' p msg t|id' res err now t|id' now t|d now t].
    + unfold StartTool in Hx'. apply lookup_insert_None in Hx' as [? _]. congruence.
    + unfold UpdateProgress in Hx'. destruct (t !! id'); simpl in Hx'; [apply lookup_insert_None in Hx' as [? _]|]; congruence.
    + unfold CompleteTool in Hx'. destruct (t !! id'); simpl in Hx'; [apply lookup_insert_None in Hx' as [? _]|]; congruence.
    + unfold CancelTool in Hx'. destruct (t !! id'); simpl in Hx'; [apply lookup_insert_None in Hx' as [? _]|]; congruence.
    + simpl in Hx'. apply lookup_difference_None in Hx' as [?|[y Hy]]; [congruence|]. apply map_lookup_filter_Some in Hy as [Hy Hend].
      rewrite Hx in Hy. simplify_eq. unfold ended_before in Hend. simpl in Hend. apply andb_prop in Hend as [Hend _]. by apply bool_decide_eq_true in Hend.
Qed.

(** A cancelled tool that answers all the same becomes a completed one. *)
Example completed_after_cancel :
  let t := (CancelTool "t" 2 (StartTool "t" "search" ∅ true 1 ∅)).2 in
  (lt_Status <$> GetTool "t" t, lt_Status <$> GetTool "t" (CompleteTool "t" VNil None 3 t).2) =
  (Some ToolStatusCancelled, Some ToolStatusCompleted).
Proof. vm_compute. reflexivity. Qed.
