(* ===== verification/SessionService.v ===== *)
(** * The distributed session service (pkg/runtime/services/session_service.go, backends.go)

    A backend with a cache per partition in front of it.  [SessionBackend] is the
    interface to the backend and [SessionBackendLaws] what the service relies on;
    the in-memory backend is an instance.  The service in turn is an instance of the
    session service of the runtimes.

    Sessions are passed by pointer: [ds_objects] is the store of [*Session] objects,
    the caches hold locations, a caller is given the location that is cached and the
    location it saves is cached.  Backends copy sessions, but not their state map,
    which is a location of its own.  The requests of a call are separate functions,
    which [call_step] interleaves; [serial_step] takes calls one after the other. *)

From stdpp Require Import base gmap strings list fin_maps relations.
From S2P Require Import Prelude Etcd Artifacts Invocation Streams AsyncRuntime.

Open Scope Z_scope.

(** ** Backends *)

Class SessionBackend (B : Type) := {
  sb_Get : string → B → result RtSession;
  sb_Put : Time → RtSession → B → option error * B;
  sb_Delete : string → B → option error * B;
  sb_List : string → B → result (list RtSession);
}.

(** Sessions that differ in their times only. *)
Definition same_session (s s' : RtSession) : Prop :=
  rs_ID s = rs_ID s' ∧ rs_UserID s = rs_UserID s' ∧ rs_State s = rs_State s' ∧ rs_EventHistory s = rs_EventHistory s'.

#[export] Instance same_session_equiv : Equivalence same_session.
Proof. split; unfold same_session; [by intros s|by intros x y (? & ? & ? & ?)|]. intros x y z (? & ? & ? & ?) (? & ? & ? & ?). split_and!; congruence. Qed.

(** [sb_sessions] is what a backend holds. *)
Class SessionBackendLaws (B : Type) `{SessionBackend B} := {
  sb_sessions : B → gmap string RtSession;
  sb_get_found id b s : sb_sessions b !! id = Some s → sb_Get id b = inr s;
  sb_get_missing id b : sb_sessions b !! id = None → ∃ err, sb_Get id b = inl err;
  sb_put_ok now s b b' : sb_Put now s b = (None, b') → ∃ s', same_session s s' ∧ sb_sessions b' = <[rs_ID s := s']> (sb_sessions b);
  sb_put_error now s b b' err : sb_Put now s b = (Some err, b') → sb_sessions b' = sb_sessions b;
}.

Record InMemorySessionBackend := mkSessionBackend { mb_sessions : gmap string RtSession }.
Definition NewInMemorySessionBackend : InMemorySessionBackend := mkSessionBackend ∅.

Definition InMemory_Get (id : string) (b : InMemorySessionBackend) : result RtSession :=
  match mb_sessions b !! id with
  | Some s => inr s
  | None => inl (EText ("session not found: " +:+ id))
  end.
(** The zero time is 0. *)
Definition InMemory_Put (now : Time) (s : RtSession) (b : InMemorySessionBackend) : option error * InMemorySessionBackend :=
  (None, mkSessionBackend (<[rs_ID s := mkRtSession (rs_ID s) (rs_UserID s) (rs_State s) (rs_EventHistory s)
                                          (if rs_CreatedAt s =? 0 then now else rs_CreatedAt s) now]> (mb_sessions b))).
Definition InMemory_Delete (id : string) (b : InMemorySessionBackend) : option error * InMemorySessionBackend :=
  (None, mkSessionBackend (delete id (mb_sessions b))).
Definition InMemory_List (userID : string) (b : InMemorySessionBackend) : result (list RtSession) :=
  inr (filter (λ s, rs_UserID s = userID) (map_to_list (mb_sessions b)).*2).

#[export] Instance InMemorySessionBackend_backend : SessionBackend InMemorySessionBackend := {|
  sb_Get := InMemory_Get;
  sb_Put := InMemory_Put;
  sb_Delete := InMemory_Delete;
  sb_List := InMemory_List;
|}.

(** ** The service *)

(** A [*Session] *)
Abbreviation sloc := nat.

Record CachedSession := mkCachedSession { cs_Session : sloc; cs_CachedAt : Time; cs_AccessedAt : Time }.

Record SessionConfig := mkSessionConfig {
  sf_NumPartitions : Z;
  sf_EnableCache : bool;
  sf_CacheTTL : Duration;
  sf_MaxCacheSize : Z;
}.

Definition session_defaults (c : SessionConfig) : SessionConfig :=
  mkSessionConfig
    (if sf_NumPartitions c <=? 0 then 1 else sf_NumPartitions c)
    (sf_EnableCache c)
    (if sf_CacheTTL c =? 0 then 5 * Minute else sf_CacheTTL c)
    (if sf_MaxCacheSize c =? 0 then 100 else sf_MaxCacheSize c).

(** The order in which a call ranges over the entries of a cache. *)
Class SessionOrder := {
  session_order : gmap string CachedSession → list (string * CachedSession);
  session_order_perm m : session_order m ≡ₚ map_to_list m;
}.

Record DistributedSessionService (B : Type) := mkSessionService {
  ds_backend : B;
  ds_caches : gmap Z (gmap string CachedSession);
  ds_config : SessionConfig;
  ds_now : Time;
  ds_objects : gmap sloc RtSession;
}.
Arguments mkSessionService {B}.
Arguments ds_backend {B}.
Arguments ds_caches {B}.
Arguments ds_config {B}.
Arguments ds_now {B}.
Arguments ds_objects {B}.

Section Service.
Context {B : Type} `{SessionBackend B} `{!SessionOrder}.
Local Notation Service := (DistributedSessionService B).

Definition NewDistributedSessionService (backend : B) (config : SessionConfig) (now : Time) : Service :=
  let config := session_defaults config in
  mkSessionService backend (list_to_map ((λ i : nat, (Z.of_nat i, ∅)) <$> seq 0 (Z.to_nat (sf_NumPartitions config)))) config now ∅.

Definition put_caches (m : gmap Z (gmap string CachedSession)) (s : Service) : Service :=
  mkSessionService (ds_backend s) m (ds_config s) (ds_now s) (ds_objects s).
Definition put_backend (b : B) (s : Service) : Service :=
  mkSessionService b (ds_caches s) (ds_config s) (ds_now s) (ds_objects s).
Definition put_objects (m : gmap sloc RtSession) (s : Service) : Service :=
  mkSessionService (ds_backend s) (ds_caches s) (ds_config s) (ds_now s) m.
Definition put_now (now : Time) (s : Service) : Service :=
  mkSessionService (ds_backend s) (ds_caches s) (ds_config s) now (ds_objects s).

(** A new session object. *)
Definition alloc_session (session : RtSession) (s : Service) : sloc * Service :=
  let l := fresh (dom (ds_objects s)) in (l, put_objects (<[l := session]> (ds_objects s)) s).

Definition older_session (x y : string * CachedSession) : string * CachedSession :=
  if String.eqb x.1 "" || (cs_AccessedAt y.2 <? cs_AccessedAt x.2) then y else x.

(** [evictOldest] *)
Definition evictOldest (m : gmap string CachedSession) : gmap string CachedSession :=
  match session_order m with
  | [] => m
  | x :: l => let oldest := (foldl older_session x l).1 in if String.eqb oldest "" then m else delete oldest m
  end.

Definition session_partition (id : string) (s : Service) : Z := GetPartition id (sf_NumPartitions (ds_config s)).

Definition session_getFromCache (partitionID : Z) (id : string) (s : Service) : option sloc * Service :=
  match ds_caches s !! partitionID with
  | None => (None, s)
  | Some cache =>
      match cache !! id with
      | None => (None, s)
      | Some cached =>
          if sf_CacheTTL (ds_config s) <? ds_now s - cs_CachedAt cached then (None, s)
          else (Some (cs_Session cached),
                put_caches (<[partitionID := <[id := mkCachedSession (cs_Session cached) (cs_CachedAt cached) (ds_now s)]> cache]> (ds_caches s)) s)
      end
  end.

Definition cache_session (maxSize : Z) (now : Time) (id : string) (l : sloc) (cache : gmap string CachedSession) : gmap string CachedSession :=
  let cache := if maxSize <=? Z.of_nat (size cache) then evictOldest cache else cache in
  <[id := mkCachedSession l now now]> cache.

(** The entry goes under the id the session has now. *)
Definition session_putInCache (partitionID : Z) (l : sloc) (s : Service) : Service :=
  match ds_objects s !! l with
  | None => s
  | Some session =>
      put_caches (alter (cache_session (sf_MaxCacheSize (ds_config s)) (ds_now s) (rs_ID session) l) partitionID (ds_caches s)) s
  end.

(** The requests of [GetSession]: the cache is asked, the backend is asked, the
    session is cached. *)
Definition get_cached (id : string) (s : Service) : option sloc * Service :=
  if sf_EnableCache (ds_config s) then session_getFromCache (session_partition id s) id s else (None, s).
Definition get_load (id : string) (s : Service) : result sloc * Service :=
  match sb_Get id (ds_backend s) with
  | inl err => (inl err, s)
  | inr session => let '(l, s) := alloc_session session s in (inr l, s)
  end.
Definition cache_after (partitionID : Z) (l : sloc) (s : Service) : Service :=
  if sf_EnableCache (ds_config s) then session_putInCache partitionID l s else s.

Definition GetSession (id : string) (s : Service) : result sloc * Service :=
  let partitionID := session_partition id s in
  let '(cached, s) := get_cached id s in
  match cached with
  | Some l => (inr l, s)
  | None =>
      match get_load id s with
      | (inl err, s) => (inl err, s)
      | (inr l, s) => (inr l, cache_after partitionID l s)
      end
  end.

(** The requests of [UpdateSession]: the backend gets the session, the session is
    cached.  [None] is a nil dereference. *)
Definition update_put (l : sloc) (s : Service) : option (Z * option error * Service) :=
  session ← ds_objects s !! l;
  let partitionID := session_partition (rs_ID session) s in
  let '(err, b) := sb_Put (ds_now s) session (ds_backend s) in
  Some (partitionID, err, put_backend b s).

Definition UpdateSession (l : sloc) (s : Service) : option (option error * Service) :=
  '(partitionID, err, s) ← update_put l s;
  match err with
  | Some err => Some (Some err, s)
  | None => Some (None, cache_after partitionID l s)
  end.

Definition ListSessions (userID : string) (s : Service) : result (list RtSession) := sb_List userID (ds_backend s).

Definition InvalidateCache (id : string) (s : Service) : Service := put_caches (delete id <$> ds_caches s) s.

Definition session_cache_sizes (s : Service) : gmap Z nat := size <$> ds_caches s.

(** A client makes a session and saves it. *)
Definition save_new (session : RtSession) (s : Service) : option (option error * Service) :=
  let '(l, s) := alloc_session session s in UpdateSession l s.

(** Calls one after the other, by clients that write to a session they hold only to
    save it at once, with success, and leave its id alone. *)
Inductive serial_step : Service → Service → Prop :=
  | se_get id s : serial_step s (GetSession id s).2
  | se_new session err s s' : rs_ID session ≠ "" → save_new session s = Some (err, s') → serial_step s s'
  | se_modify l old session s s' :
      ds_objects s !! l = Some old → rs_ID session = rs_ID old →
      UpdateSession l (put_objects (<[l := session]> (ds_objects s)) s) = Some (None, s') → serial_step s s'
  | se_invalidate id s : serial_step s (InvalidateCache id s)
  | se_clock now s : serial_step s (put_now now s).

(** A call between two of its requests: it is to load the session, or to cache it. *)
Inductive SessionCall := CallLoad (partitionID : Z) (id : string) | CallCache (partitionID : Z) (l : sloc).

(** Concurrent calls, by clients that write to the sessions they hold at any time
    (ids are not made empty). *)
Inductive call_step : Service * list SessionCall → Service * list SessionCall → Prop :=
  | ca_hit id l s s' cs : get_cached id s = (Some l, s') → call_step (s, cs) (s', cs)
  | ca_miss id s s' cs :
      get_cached id s = (None, s') → call_step (s, cs) (s', CallLoad (session_partition id s) id :: cs)
  | ca_missing p id err s s' cs1 cs2 :
      get_load id s = (inl err, s') → call_step (s, cs1 ++ CallLoad p id :: cs2) (s', cs1 ++ cs2)
  | ca_load p id l s s' cs1 cs2 :
      get_load id s = (inr l, s') → call_step (s, cs1 ++ CallLoad p id :: cs2) (s', CallCache p l :: cs1 ++ cs2)
  | ca_put_error l p err s s' cs : update_put l s = Some (p, Some err, s') → call_step (s, cs) (s', cs)
  | ca_put l p s s' cs : update_put l s = Some (p, None, s') → call_step (s, cs) (s', CallCache p l :: cs)
  | ca_cache p l s cs1 cs2 : call_step (s, cs1 ++ CallCache p l :: cs2) (cache_after p l s, cs1 ++ cs2)
  | ca_write l session s cs :
      rs_ID session ≠ "" → call_step (s, cs) (put_objects (<[l := session]> (ds_objects s)) s, cs)
  | ca_invalidate id s cs : call_step (s, cs) (InvalidateCache id s, cs)
  | ca_clock now s cs : call_step (s, cs) (put_now now s, cs).
End Service.

(** The service of the runtimes, which are given the session that is cached and save
    a session of their own. *)
#[export] Instance session_service {B} `{SessionBackend B} `{!SessionOrder} : SessionService (DistributedSessionService B) := {|
  svc_GetSession id x :=
    let '(r, s) := GetSession id x.2 in
    (match r with inl e => inl e | inr l => inr (ds_objects s !! l) end, (x.1, s));
  svc_UpdateSession session x :=
    match save_new session x.2 with
    | Some (err, s) => (err, (x.1, s))
    | None => (None, x)
    end;
|}.

#[export] Instance session_service_laws {B} `{SessionBackend B} `{!SessionOrder} : SessionServiceLaws (DistributedSessionService B).
Proof. intros session maps svc. simpl. by destruct (save_new session svc) as [[]|]. Qed.

#[export] Instance InMemorySessionBackend_laws : SessionBackendLaws InMemorySessionBackend.
Proof.
  refine {| sb_sessions := mb_sessions |}; simpl; unfold InMemory_Get, InMemory_Put.
  - intros id b s ->. done.
  - intros id b ->. eauto.
  - intros now s b b' [= <-]. eexists. split; [|done]. by unfold same_session.
  - done.
Defined.

(** ** How large caches get, whatever the calls and the clients do *)

Section Bounds.
Context {B : Type} `{SessionBackendLaws B} `{!SessionOrder}.
Local Notation Service := (DistributedSessionService B).

Lemma evict_subset m : evictOldest m ⊆ m.
Proof. unfold evictOldest. destruct (session_order m) as [|x l]; [done|]. case_match; [done|]. apply delete_subseteq. Qed.

Lemma foldl_older_session_in x l : foldl older_session x l ∈ x :: l.
Proof.
  revert x. induction l as [|y l IH]; intros x; simpl; [by left|].
  specialize (IH (older_session x y)). apply elem_of_cons in IH as [->|IH]; [|by do 2 right].
  unfold older_session. destruct (_ || _); [right; by left|by left].
Qed.

(** Something goes, unless there is nothing or an entry without a name. *)
Lemma evict_size m : m !! "" = None → size (evictOldest m) = pred (size m).
Proof.
  intros Hn. unfold evictOldest. pose proof (session_order_perm m) as Hp. destruct (session_order m) as [|x l].
  - apply Permutation_nil in Hp. apply map_to_list_empty_iff in Hp as ->. done.
  - pose proof (foldl_older_session_in x l) as Hin. rewrite Hp in Hin. destruct (foldl older_session x l) as [id c].
    apply elem_of_map_to_list in Hin. simpl. destruct (String.eqb_spec id "") as [->|Hne]; [congruence|].
    rewrite map_size_delete, Hin. done.
Qed.

Lemma cache_session_size max now id l cache :
  cache !! "" = None → Z.of_nat (size cache) ≤ Z.max 1 max → Z.of_nat (size (cache_session max now id l cache)) ≤ Z.max 1 max.
Proof.
  unfold cache_session. intros Hn Hle.
  assert (∀ m c, Z.of_nat (size (<[id := c]> (m : gmap string CachedSession))) ≤ Z.of_nat (size m) + 1) as Hins.
  { intros m c. rewrite map_size_insert. destruct (m !! id); simpl; lia. }
  specialize (Hins (if max <=? Z.of_nat (size cache) then evictOldest cache else cache) (mkCachedSession l now now)).
  destruct (Z.leb_spec max (Z.of_nat (size cache))) as [Hfull|Hroom]; [|lia]. rewrite evict_size in Hins by done. lia.
Qed.

Lemma cache_session_lookup max now id l cache id' cached :
  cache_session max now id l cache !! id' = Some cached →
  (id' = id ∧ cs_Session cached = l) ∨ (id' ≠ id ∧ cache !! id' = Some cached).
Proof.
  unfold cache_session. rewrite lookup_insert_Some. intros [[<- <-]|[Hne Hl]]; [by left|right]. split; [done|].
  destruct (max <=? _); [|done]. by eapply lookup_weaken, evict_subset.
Qed.

Lemma sb_got id (b : B) session : sb_Get id b = inr session → sb_sessions b !! id = Some session.
Proof.
  intros Hg. destruct (sb_sessions b !! id) as [held|] eqn:Hh.
  - rewrite (sb_get_found id b held Hh) in Hg. by simplify_eq.
  - destruct (sb_get_missing id b Hh) as [err He]. by rewrite He in Hg.
Qed.

(** No session is without a name, and no cache is larger than it should be. *)
Record caches_bounded (s : Service) : Prop := {
  cb_objects l session : ds_objects s !! l = Some session → rs_ID session ≠ "";
  cb_backend id session : sb_sessions (ds_backend s) !! id = Some session → rs_ID session ≠ "";
  cb_named p cache : ds_caches s !! p = Some cache → cache !! "" = None;
  cb_size p cache : ds_caches s !! p = Some cache → Z.of_nat (size cache) ≤ Z.max 1 (sf_MaxCacheSize (ds_config s));
}.

Lemma bounded_put p l (s : Service) : caches_bounded s → caches_bounded (session_putInCache p l s).
Proof.
  intros [Ho Hb Hn Hs]. unfold session_putInCache. destruct (ds_objects s !! l) as [session|] eqn:Hl; [|done].
  constructor; simpl; [done..| |].
  - intros p' cache. rewrite lookup_alter_Some. intros [(<- & c & Hc & ->)|[_ Hc]]; [|by eapply Hn].
    destruct (cache_session _ _ _ _ _ !! "") as [cached|] eqn:Hcs; [|done].
    apply cache_session_lookup in Hcs as [[Hid _]|[_ Hcs]]; [by destruct (Ho l session Hl)|].
    by rewrite (Hn _ _ Hc) in Hcs.
  - intros p' cache. rewrite lookup_alter_Some. intros [(<- & c & Hc & ->)|[_ Hc]]; [|by eapply Hs].
    apply cache_session_size; [by eapply Hn|by eapply Hs].
Qed.
Lemma bounded_cache_after p l (s : Service) : caches_bounded s → caches_bounded (cache_after p l s).
Proof. intros Hs. unfold cache_after. destruct (sf_EnableCache _); [by apply bounded_put|done]. Qed.

Lemma bounded_cached id (s : Service) : caches_bounded s → caches_bounded (get_cached id s).2.
Proof.
  intros Hok. pose proof Hok as [Ho Hb Hn Hs]. unfold get_cached, session_getFromCache.
  destruct (sf_EnableCache _); [|done]. destruct (ds_caches s !! _) as [cache|] eqn:Hc; [|done].
  destruct (cache !! id) as [cached|] eqn:Hl; [|done]. destruct (_ <? _); [done|]. constructor; simpl; [done..| |].
  - intros p cache'. rewrite lookup_insert_Some. intros [[<- <-]|[_ Hc']]; [|by eapply Hn].
    rewrite lookup_insert_ne; [by eapply Hn|]. intros ->. by rewrite (Hn _ _ Hc) in Hl.
  - intros p cache'. rewrite lookup_insert_Some. intros [[<- <-]|[_ Hc']]; [|by eapply Hs].
    rewrite map_size_insert, Hl. by eapply Hs.
Qed.

Lemma bounded_write l session (s : Service) :
  rs_ID session ≠ "" → caches_bounded s → caches_bounded (put_objects (<[l := session]> (ds_objects s)) s).
Proof. intros Hne [Ho Hb Hn Hs]. constructor; simpl; [|done..]. intros l' x [[_ <-]|[_ Hx]]%lookup_insert_Some; [done|by eapply Ho]. Qed.

Lemma bounded_load id (s : Service) : caches_bounded s → caches_bounded (get_load id s).2.
Proof.
  intros Hok. unfold get_load. destruct (sb_Get id (ds_backend s)) as [err|session] eqn:Hg; [done|].
  apply bounded_write; [|done]. eapply cb_backend; [exact Hok|by apply sb_got].
Qed.

Lemma bounded_update l (s : Service) p err s' :
  update_put l s = Some (p, err, s') → caches_bounded s → caches_bounded s'.
Proof.
  unfold update_put. destruct (ds_objects s !! l) as [session|] eqn:Hl; simpl; [|done].
  destruct (sb_Put _ _ _) as [err' b] eqn:Hp. intros [= _ -> <-] [Ho Hb Hn Hs]. constructor; simpl; [done| |done..].
  intros id x. destruct err as [e|].
  - rewrite (sb_put_error _ _ _ _ _ Hp). apply Hb.
  - destruct (sb_put_ok _ _ _ _ Hp) as (held & (Hid & _) & ->).
    intros [[_ <-]|[_ Hx]]%lookup_insert_Some; [rewrite <-Hid; by eapply Ho|by eapply Hb].
Qed.

Lemma bounded_invalidate id (s : Service) : caches_bounded s → caches_bounded (InvalidateCache id s).
Proof.
  intros [Ho Hb Hn Hs]. constructor; simpl; [done..| |]; intros p cache; rewrite lookup_fmap_Some; intros (c & <- & Hc).
  - rewrite lookup_delete_None. right. by eapply Hn.
  - specialize (Hs p c Hc). rewrite map_size_delete. destruct (c !! id); simpl; lia.
Qed.

Lemma bounded_call (w w' : Service * list SessionCall) : call_step w w' → caches_bounded w.1 → caches_bounded w'.1.
Proof.
  intros Hstep Hok. destruct Hstep as [id l s s' cs Hg|id s s' cs Hg|p id err s s' cs1 cs2 Hg|p id l s s' cs1 cs2 Hg
    |l p err s s' cs Hp|l p s s' cs Hp|p l s cs1 cs2|l session s cs Hne|id s cs|now s cs]; simpl in *.
  - pose proof (bounded_cached id s Hok) as Hb. by rewrite Hg in Hb.
  - pose proof (bounded_cached id s Hok) as Hb. by rewrite Hg in Hb.
  - pose proof (bounded_load id s Hok) as Hb. by rewrite Hg in Hb.
  - pose proof (bounded_load id s Hok) as Hb. by rewrite Hg in Hb.
  - by eapply bounded_update.
  - by eapply bounded_update.
  - by apply bounded_cache_after.
  - by apply bounded_write.
  - by apply bounded_invalidate.
  - by destruct Hok.
Qed.

Lemma new_caches_empty (b : B) config now p cache :
  ds_caches (NewDistributedSessionService b config now) !! p = Some cache → cache = ∅.
Proof. simpl. intros (i & [= _ ->] & _)%elem_of_list_to_map_2%list_elem_of_fmap. done. Qed.

Lemma bounded_calls (b : B) config now w :
  (∀ id session, sb_sessions b !! id = Some session → rs_ID session = id ∧ id ≠ "") →
  rtc call_step (NewDistributedSessionService b config now, []) w → caches_bounded w.1.
Proof.
  intros Hids Hrun. assert (caches_bounded (NewDistributedSessionService b config now)) as Hnew.
  { constructor; simpl.
    - intros l x. by rewrite lookup_empty.
    - intros id x Hx. destruct (Hids id x Hx) as [-> Hne]. exact Hne.
    - intros p cache Hc. rewrite (new_caches_empty b config now p cache Hc). apply lookup_empty.
    - intros p cache Hc. rewrite (new_caches_empty b config now p cache Hc), map_size_empty. lia. }
  change (caches_bounded (NewDistributedSessionService b config now, [] : list SessionCall).1) in Hnew. revert Hnew.
  generalize dependent (NewDistributedSessionService b config now, [] : list SessionCall).
  intros w0 Hrun Hnew. induction Hrun as [|x y z Hxy _ IH]; [done|]. apply IH. by eapply bounded_call.
Qed.
End Bounds.

(** ** Serial calls show what the backend holds *)

Section Coherent.
Context {B : Type} `{SessionBackendLaws B} `{!SessionOrder}.
Local Notation Service := (DistributedSessionService B).

(** Every entry of a cache is in the partition of its id, and points to a session
    with that id which is, but for its times, the one the backend holds. *)
Record session_ok (s : Service) : Prop := {
  so_ids id session : sb_sessions (ds_backend s) !! id = Some session → rs_ID session = id;
  so_entry p cache id cached : ds_caches s !! p = Some cache → cache !! id = Some cached →
    sf_EnableCache (ds_config s) = true ∧ p = session_partition id s ∧
    ∃ session held, ds_objects s !! cs_Session cached = Some session ∧ rs_ID session = id ∧
      sb_sessions (ds_backend s) !! id = Some held ∧ same_session session held;
}.

(** What the session objects are read as. *)
Definition shows (s : Service) (l : sloc) (id : string) : Prop :=
  ∃ session held, ds_objects s !! l = Some session ∧ rs_ID session = id ∧
    sb_sessions (ds_backend s) !! id = Some held ∧ same_session session held.

(** A session whose object shows what the backend holds is cached. *)
Lemma cache_after_ok l id (s : Service) :
  session_ok s → shows s l id → session_ok (cache_after (session_partition id s) l s).
Proof.
  intros Hok (session & held & Hl & Hid & Hh & Hsame). unfold cache_after, session_putInCache. rewrite Hl.
  destruct (sf_EnableCache (ds_config s)) eqn:Hen; [|done]. destruct Hok as [Hids He].
  constructor; simpl; [done|]. intros p cache id' cached. rewrite lookup_alter_Some.
  intros [(<- & c & Hc & ->)|[_ Hc]] Hcached; [|by apply (He p cache)].
  apply cache_session_lookup in Hcached as [[-> Hcs]|[_ Hcs]]; [|by apply (He _ c)].
  rewrite Hcs. split_and!; [done|by rewrite Hid|]. exists session, held. by rewrite Hid.
Qed.
Lemma cache_after_backend p l (s : Service) :
  ds_backend (cache_after p l s) = ds_backend s ∧ ds_objects (cache_after p l s) = ds_objects s ∧ ds_config (cache_after p l s) = ds_config s.
Proof. unfold cache_after, session_putInCache. destruct (sf_EnableCache _); [|done]. by destruct (ds_objects s !! l). Qed.

(** New objects disturb no one. *)
Lemma alloc_ok session (s : Service) :
  session_ok s → session_ok (alloc_session session s).2 ∧ ds_objects (alloc_session session s).2 !! (alloc_session session s).1 = Some session.
Proof.
  intros [Hids He]. simpl. split; [|apply lookup_insert_eq]. constructor; simpl; [done|].
  intros p cache id cached Hc Hcs. destruct (He p cache id cached Hc Hcs) as (Hen & Hp & x & held & Hx & ?).
  split_and!; [done..|]. exists x, held. rewrite lookup_insert_ne; [done|]. intros Hf.
  apply elem_of_dom_2 in Hx. rewrite <-Hf in Hx. revert Hx. apply is_fresh.
Qed.

Lemma get_cached_ok id (s : Service) :
  session_ok s → session_ok (get_cached id s).2 ∧ ds_backend (get_cached id s).2 = ds_backend s ∧
  ds_config (get_cached id s).2 = ds_config s ∧ ∀ l, (get_cached id s).1 = Some l → shows (get_cached id s).2 l id.
Proof.
  intros Hok. unfold get_cached, session_getFromCache.
  destruct (sf_EnableCache (ds_config s)) eqn:Hen; [|by split_and!]. pose proof Hok as [Hids He].
  destruct (ds_caches s !! session_partition id s) as [cache|] eqn:Hc; [|by split_and!].
  destruct (cache !! id) as [cached|] eqn:Hl; [|by split_and!]. destruct (_ <? _); [by split_and!|]. simpl. split_and!; [|done|done|].
  - constructor; simpl; [done|]. intros p cache' id' cached'. rewrite lookup_insert_Some. intros [[<- <-]|[_ Hc']]; [|by apply He].
    rewrite lookup_insert_Some. intros [[<- <-]|[_ Hl']]; [exact (He _ _ _ _ Hc Hl)|exact (He _ _ _ _ Hc Hl')].
  - intros l [= <-]. by destruct (He _ _ _ _ Hc Hl) as (_ & _ & ?).
Qed.

(** What [GetSession] answers, and what is so afterwards. *)
Lemma GetSession_spec (s : Service) id :
  session_ok s → session_ok (GetSession id s).2 ∧ ds_backend (GetSession id s).2 = ds_backend s ∧
  match (GetSession id s).1 with
  | inr l => shows (GetSession id s).2 l id
  | inl _ => sb_sessions (ds_backend s) !! id = None
  end.
Proof.
  intros Hok. unfold GetSession. destruct (get_cached_ok id s Hok) as (Hok1 & Hb1 & Hcfg & Hget).
  destruct (get_cached id s) as [[l|] s1]; simpl in *; [by split_and!; [| |apply Hget]|].
  unfold get_load. rewrite Hb1. destruct (sb_Get id (ds_backend s)) as [err|session] eqn:Hg.
  - simpl. split_and!; [done|done|]. destruct (sb_sessions (ds_backend s) !! id) as [held|] eqn:Hh; [|done].
    by rewrite (sb_get_found id _ held Hh) in Hg.
  - apply sb_got in Hg. destruct (alloc_ok session s1 Hok1) as [Hok2 Hl2].
    destruct (alloc_session session s1) as [l s2] eqn:Ha. simpl in *.
    assert (ds_backend s2 = ds_backend s ∧ ds_config s2 = ds_config s) as [Hb2 Hc2] by (injection Ha as _ <-; by rewrite <-Hb1, <-Hcfg).
    assert (shows s2 l id) as Hshow.
    { exists session, session. rewrite Hb2. split_and!; [done|by apply (so_ids _ Hok)|done|reflexivity]. }
    destruct (cache_after_backend (session_partition id s) l s2) as (F1 & F2 & _).
    split_and!; [|by rewrite F1|unfold shows; by rewrite F1, F2].
    assert (session_partition id s = session_partition id s2) as -> by (unfold session_partition; by rewrite Hc2).
    by apply cache_after_ok.
Qed.

(** Saving a session object. *)
Lemma UpdateSession_spec l session (s : Service) err s' :
  ds_objects s !! l = Some session → UpdateSession l s = Some (err, s') →
  ds_objects s' = ds_objects s ∧
  match err with
  | None => ∃ held, same_session session held ∧
              sb_sessions (ds_backend s') = <[rs_ID session := held]> (sb_sessions (ds_backend s)) ∧
              ∃ b, s' = cache_after (session_partition (rs_ID session) s) l (put_backend b s) ∧
                   sb_sessions b = sb_sessions (ds_backend s')
  | Some _ => sb_sessions (ds_backend s') = sb_sessions (ds_backend s) ∧ ∃ b, s' = put_backend b s
  end.
Proof.
  intros Hl. unfold UpdateSession, update_put. rewrite Hl. simpl.
  destruct (sb_Put (ds_now s) session (ds_backend s)) as [[e|] b] eqn:Hp; simpl; intros [= <- <-].
  - split; [done|]. split; [by eapply sb_put_error|by eexists].
  - destruct (cache_after_backend (session_partition (rs_ID session) s) l (put_backend b s)) as (F1 & F2 & _).
    rewrite F1, F2. split; [done|]. destruct (sb_put_ok _ _ _ _ Hp) as (held & Hsame & Hb). exists held.
    split_and!; [done|done|]. by exists b.
Qed.

(** The object that is saved is in step with the backend afterwards, and the other
    sessions are as before; its object may have been written to before. *)
Lemma save_ok l session (s0 s s' : Service) :
  session_ok s0 → ds_objects s !! l = Some session →
  ds_backend s = ds_backend s0 → ds_caches s = ds_caches s0 → ds_config s = ds_config s0 →
  (∀ k x, ds_objects s0 !! k = Some x → k = l ∧ rs_ID x = rs_ID session ∨ ds_objects s !! k = Some x) →
  UpdateSession l s = Some (None, s') → session_ok s'.
Proof.
  intros [Hids He] Hl Hb Hc Hcfg Hobj (_ & held & Hsame & Hb' & b & -> & Hbb)%(UpdateSession_spec l session); [|done].
  set (id := rs_ID session) in *. set (s1 := put_backend b s).
  assert (rs_ID held = id) as Hheld by (destruct Hsame as [<- _]; done).
  assert (sb_sessions (ds_backend s1) = <[id := held]> (sb_sessions (ds_backend s0))) as Hs1.
  { change (ds_backend s1) with b. rewrite Hbb, Hb', Hb. done. }
  (* the entries of the other sessions *)
  assert (∀ p cache id' cached, ds_caches s !! p = Some cache → cache !! id' = Some cached → id' ≠ id →
    p = session_partition id' s1 ∧ shows s1 (cs_Session cached) id') as Hother.
  { intros p cache id' cached Hcc Hcs Hne. rewrite Hc in Hcc.
    destruct (He p cache id' cached Hcc Hcs) as (Hen & Hp & x & hx & Hx & Hxid & Hhx & Hxs).
    split; [unfold session_partition in *; by rewrite <-Hcfg in Hp|].
    exists x, hx. rewrite Hs1, lookup_insert_ne by done. split_and!; [|done..].
    destruct (Hobj _ _ Hx) as [[_ Hxl]|?]; [|done]. by rewrite Hxl in Hxid. }
  assert (∀ id' x, sb_sessions (ds_backend s1) !! id' = Some x → rs_ID x = id') as Hids'.
  { intros id' x. rewrite Hs1. intros [[<- <-]|[_ Hx]]%lookup_insert_Some; [done|by apply Hids]. }
  unfold cache_after, session_putInCache. change (ds_config s1) with (ds_config s). change (ds_objects s1) with (ds_objects s).
  change (ds_caches s1) with (ds_caches s). rewrite Hl.
  destruct (sf_EnableCache (ds_config s)) eqn:Hen.
  - constructor; simpl; [exact Hids'|]. intros p cache id' cached. rewrite lookup_alter_Some.
    intros [(<- & c & Hcc & ->)|[Hpn Hcc]] Hcs.
    + apply cache_session_lookup in Hcs as [[-> Hcs]|[Hne Hcs]].
      * rewrite Hcs. split_and!; [done|done|]. exists session, held. split_and!; [done|done| |done].
        change b with (ds_backend s1). rewrite Hs1. apply lookup_insert_eq.
      * split; [done|]. by apply (Hother _ c).
    + split; [done|]. apply (Hother _ cache); [done|done|]. intros ->. apply Hpn. rewrite Hc in Hcc.
      destruct (He p cache id cached Hcc Hcs) as (_ & -> & _). unfold session_partition. by rewrite Hcfg.
  - constructor; simpl; [exact Hids'|]. intros p cache id' cached Hcc Hcs. rewrite Hc in Hcc.
    destruct (He p cache id' cached Hcc Hcs) as (Hen' & _). congruence.
Qed.

Lemma save_new_ok session (s : Service) err s' :
  session_ok s → save_new session s = Some (err, s') →
  session_ok s' ∧
  match err with
  | None => (∃ l, shows s' l (rs_ID session) ∧ ds_objects s' !! l = Some session) ∧
            ∃ held, same_session session held ∧
              sb_sessions (ds_backend s') = <[rs_ID session := held]> (sb_sessions (ds_backend s))
  | Some _ => sb_sessions (ds_backend s') = sb_sessions (ds_backend s)
  end.
Proof.
  intros Hok Hsave. unfold save_new in Hsave. destruct (alloc_ok session s Hok) as [Hok1 Hl].
  pose proof (is_fresh (dom (ds_objects s))) as Hf.
  assert (ds_backend (alloc_session session s).2 = ds_backend s) as Hb1 by done.
  destruct (alloc_session session s) as [l s1]. simpl in *.
  pose proof (UpdateSession_spec l session s1 err s' Hl Hsave) as [Ho Hup]. destruct err as [e|].
  - destruct Hup as [Hb [b ->]]. rewrite Hb, Hb1. split; [|done]. destruct Hok1 as [Hids He].
    constructor; [rewrite Hb; exact Hids|]. intros p cache id cached Hc Hcs.
    destruct (He p cache id cached Hc Hcs) as (? & ? & x & hx & ? & ? & ? & ?). split_and!; [done..|].
    exists x, hx. rewrite Hb. done.
  - split; [by apply (save_ok l session s1 s1 s'); [..|intros k x Hx; by right|]|].
    destruct Hup as (held & Hsame & Hb & _). rewrite Hb1 in Hb. split; [|by exists held].
    exists l. rewrite Ho. split; [|done]. exists session, held. rewrite Ho, Hb, lookup_insert_eq. done.
Qed.

Lemma serial_step_ok (s s' : Service) : session_ok s → serial_step s s' → session_ok s'.
Proof.
  intros Hok Hs. destruct Hs as [id s|session err s s' Hne Hsave|l old session s s' Hold Hid Hup|id s|now s].
  - by apply GetSession_spec.
  - by apply (save_new_ok session s err s').
  - apply (save_ok l session s (put_objects (<[l := session]> (ds_objects s)) s) s'); try done; simpl; [apply lookup_insert_eq|].
    intros k x Hx. destruct (decide (k = l)) as [->|Hne]; [left; split; [done|congruence]|right; by rewrite lookup_insert_ne].
  - destruct Hok as [Hids He]. constructor; simpl; [done|].
    intros p cache id' cached. rewrite lookup_fmap_Some. intros (c & <- & Hc) [_ Hl]%lookup_delete_Some. by eapply He.
  - by destruct Hok.
Qed.

Lemma new_service_ok (b : B) config now :
  (∀ id session, sb_sessions b !! id = Some session → rs_ID session = id ∧ id ≠ "") →
  session_ok (NewDistributedSessionService b config now).
Proof.
  intros Hids. constructor; simpl; [intros id session Hs; by apply Hids|].
  intros p cache id cached Hc. by rewrite (new_caches_empty b config now p cache Hc), lookup_empty.
Qed.

(** C20. A session service that has its backend for itself, whose calls come one after
    the other, and whose clients write to a session they hold only to save it at
    once, with success and under its id: however long its caches hold sessions, a
    session that is asked for is, but for its times of creation and update, the one
    the backend holds, or missing there; one that is saved is read back with the
    others untouched, and a failure leaves the backend as it was.  Whatever clients
    write to their sessions and however the requests of calls are interleaved, no
    cache holds more sessions than it should, as long as no session is without an
    id. *)
Theorem session_service_coherent (b : B) config now :
  (∀ id session, sb_sessions b !! id = Some session → rs_ID session = id ∧ id ≠ "") →
  (∀ s : Service, rtc serial_step (NewDistributedSessionService b config now) s →
     (∀ id, match GetSession id s with
            | (inr l, s') => ∃ session held, ds_objects s' !! l = Some session ∧
                sb_sessions (ds_backend s) !! id = Some held ∧ same_session session held
            | (inl _, _) => sb_sessions (ds_backend s) !! id = None
            end) ∧
     (∀ session err s', rs_ID session ≠ "" → save_new session s = Some (err, s') →
        match err with
        | None => (∃ l s'' saved, GetSession (rs_ID session) s' = (inr l, s'') ∧
                     ds_objects s'' !! l = Some saved ∧ same_session session saved) ∧
                  ∀ id, id ≠ rs_ID session → sb_sessions (ds_backend s') !! id = sb_sessions (ds_backend s) !! id
        | Some _ => sb_sessions (ds_backend s') = sb_sessions (ds_backend s)
        end)) ∧
  (∀ (s : Service) calls, rtc call_step (NewDistributedSessionService b config now, []) (s, calls) →
     ∀ p n, session_cache_sizes s !! p = Some n → Z.of_nat n ≤ Z.max 1 (sf_MaxCacheSize (ds_config s))).
Proof.
  intros Hids. split.
  - intros s Hrun. assert (session_ok s) as Hok.
    { pose proof (new_service_ok b config now Hids) as Hst. induction Hrun as [|x y z Hxy _ IH]; [done|].
      apply IH. by eapply serial_step_ok. }
    split.
    + intros id. destruct (GetSession_spec s id Hok) as (_ & Hb & Hget).
      destruct (GetSession id s) as [[err|l] s']; simpl in *; [done|].
      destruct Hget as (session & held & ? & _ & Hh & ?). exists session, held. by rewrite <-Hb.
    + intros session err s' Hne Hsave. destruct (save_new_ok session s err s' Hok Hsave) as [Hok' Hup].
      destruct err as [err|]; [done|]. destruct Hup as [_ (held & Hsame & Hb)]. split.
      * destruct (GetSession_spec s' (rs_ID session) Hok') as (_ & Hb' & Hget).
        destruct (GetSession (rs_ID session) s') as [[err|l] s'']; simpl in *; [by rewrite Hb, lookup_insert_eq in Hget|].
        destruct Hget as (saved & held' & Hsv & _ & Hh' & Hs'). rewrite Hb', Hb, lookup_insert_eq in Hh'. simplify_eq.
        exists l, s'', saved. split_and!; [done|done|]. etrans; [exact Hsame|by symmetry].
      * intros id Hid. by rewrite Hb, lookup_insert_ne.
  - intros s calls Hrun p n. unfold session_cache_sizes. rewrite lookup_fmap_Some. intros (cache & <- & Hc).
    pose proof (bounded_calls b config now _ Hids Hrun) as Hok. by apply (cb_size _ Hok p).
Qed.
End Coherent.

(** The copies of the in-memory backend share the state of the session they were
    made from: what is written to it afterwards is in the stored session too. *)
Lemma saved_state_shared now session b :
  ∃ stored, InMemory_Get (rs_ID session) (InMemory_Put now session b).2 = inr stored ∧ rs_State stored = rs_State session.
Proof. unfold InMemory_Get. simpl. rewrite lookup_insert_eq. by eexists. Qed.
