(* ===== verification/MemoryService.v ===== *)
(** * The distributed memory service (pkg/runtime/services/memory_service.go, backends.go)

    Memories with embeddings in a backend, and an index per partition that is
    searched by similarity.  Numbers of type [float64] are a type with the operations
    the code uses ([Floats]); that they are ordered ([FloatOrder]) is false of NaN.
    A memory is a value here; the times of the last access, which nothing reads, are
    left out.  [None] as a result is a panic. *)

From stdpp Require Import base gmap strings list fin_maps relations pretty sorting.
From S2P Require Import Prelude Etcd Artifacts.

Open Scope Z_scope.

Class Floats (F : Type) := {
  f_zero : F;
  f_add : F → F → F;
  f_mul : F → F → F;
  f_div : F → F → F;
  f_sqrt : F → F;
  f_eqb : F → F → bool;
  f_ltb : F → F → bool;
}.

Class FloatOrder (F : Type) `{Floats F} := {
  f_lt_asym x y : f_ltb x y = true → f_ltb y x = false;
  f_le_trans x y z : f_ltb x y = false → f_ltb y z = false → f_ltb x z = false;
}.

(** ** Vectors *)

Section Vectors.
Context {F : Type} `{Floats F}.

Definition normalizeVector (v : list F) : list F :=
  let magnitude := f_sqrt (foldl (λ m val, f_add m (f_mul val val)) f_zero v) in
  if f_eqb magnitude f_zero then v else (λ val, f_div val magnitude) <$> v.

Definition cosineSimilarity (a b : list F) : F :=
  if (length a =? length b)%nat then foldl (λ sum x, f_add sum (f_mul x.1 x.2)) f_zero (zip a b) else f_zero.

(** ** Memories and backends *)

Record Memory := mkMemory {
  mm_ID : string;
  mm_Content : string;
  mm_Embedding : list F;
  mm_Metadata : option (gmap string Value);
  mm_CreatedAt : Time;
}.

(** [memory.Metadata["user_id"].(string)] *)
Definition memory_user (m : Memory) : option string :=
  match mm_Metadata m with
  | Some meta => match meta !! "user_id" with Some (VString u) => Some u | _ => None end
  | None => None
  end.
End Vectors.
Arguments Memory : clear implicits.

Class MemoryBackend (F B : Type) := {
  mb_Put : Time → Memory F → B → option error * B;
  mb_Delete : string → B → option error * B;
  mb_List : string → B → result (list (Memory F));
}.

(** The memories of a user are listed. *)
Class MemoryBackendLaws (F B : Type) `{MemoryBackend F B} :=
  mb_list_user userID b l m : mb_List userID b = inr l → m ∈ l → memory_user m = Some userID.

Record InMemoryMemoryBackend (F : Type) := mkMemoryBackend { im_memories : gmap string (Memory F) }.
Arguments mkMemoryBackend {F}.
Arguments im_memories {F}.

Section InMemory.
Context {F : Type}.

Definition MemoryBackend_Put (now : Time) (m : Memory F) (b : InMemoryMemoryBackend F) : option error * InMemoryMemoryBackend F :=
  (None, mkMemoryBackend (<[mm_ID m := mkMemory (mm_ID m) (mm_Content m) (mm_Embedding m) (mm_Metadata m)
                                          (if mm_CreatedAt m =? 0 then now else mm_CreatedAt m)]> (im_memories b))).
Definition MemoryBackend_Get (id : string) (b : InMemoryMemoryBackend F) : result (Memory F) :=
  match im_memories b !! id with Some m => inr m | None => inl (EText ("memory not found: " +:+ id)) end.
Definition MemoryBackend_Delete (id : string) (b : InMemoryMemoryBackend F) : option error * InMemoryMemoryBackend F :=
  (None, mkMemoryBackend (delete id (im_memories b))).
Definition MemoryBackend_List (userID : string) (b : InMemoryMemoryBackend F) : result (list (Memory F)) :=
  inr (filter (λ m, memory_user m = Some userID) (map_to_list (im_memories b)).*2).

#[export] Instance InMemoryMemoryBackend_backend : MemoryBackend F (InMemoryMemoryBackend F) := {|
  mb_Put := MemoryBackend_Put;
  mb_Delete := MemoryBackend_Delete;
  mb_List := MemoryBackend_List;
|}.

#[export] Instance InMemoryMemoryBackend_laws : MemoryBackendLaws F (InMemoryMemoryBackend F).
Proof. intros userID b l m [= <-]. by intros [? _]%list_elem_of_filter. Qed.
End InMemory.

(** ** The index *)

Record IndexedMemory (F : Type) := mkIndexed { ix_Memory : Memory F; ix_Embedding : list F; ix_CachedAt : Time }.
Arguments mkIndexed {F}.
Arguments ix_Memory {F}.
Arguments ix_Embedding {F}.
Arguments ix_CachedAt {F}.

Record VectorIndex (F : Type) := mkIndex {
  vi_memories : gmap string (IndexedMemory F);
  vi_embeddings : list (list F);
  vi_memoryIDs : list string;
}.
Arguments mkIndex {F}.
Arguments vi_memories {F}.
Arguments vi_embeddings {F}.
Arguments vi_memoryIDs {F}.

Record MemoryConfig := mkMemoryConfig {
  mf_NumPartitions : Z;
  mf_EnableCache : bool;
  mf_CacheTTL : Duration;
  mf_EmbeddingDim : Z;
}.
Definition memory_defaults (c : MemoryConfig) : MemoryConfig :=
  mkMemoryConfig
    (if mf_NumPartitions c <=? 0 then 1 else mf_NumPartitions c)
    (mf_EnableCache c)
    (if mf_CacheTTL c =? 0 then 30 * Minute else mf_CacheTTL c)
    (if mf_EmbeddingDim c =? 0 then 1536 else mf_EmbeddingDim c).

(** The first position of an id. *)
Fixpoint position (id : string) (ids : list string) : option nat :=
  match ids with
  | [] => None
  | x :: ids' => if String.eqb x id then Some 0%nat else S <$> position id ids'
  end.

Section Index.
Context {F : Type} `{Floats F}.

Definition add_to_index (now : Time) (m : Memory F) (embedding : list F) (ix : VectorIndex F) : VectorIndex F :=
  let indexed := mkIndexed m embedding now in
  let '(embeddings, ids) :=
    match vi_memories ix !! mm_ID m with
    | None => (vi_embeddings ix ++ [embedding], vi_memoryIDs ix ++ [mm_ID m])
    | Some _ =>
        (match position (mm_ID m) (vi_memoryIDs ix) with
         | Some i => <[i := embedding]> (vi_embeddings ix)
         | None => vi_embeddings ix
         end, vi_memoryIDs ix)
    end in
  mkIndex (<[mm_ID m := indexed]> (vi_memories ix)) embeddings ids.

Definition remove_from_index (id : string) (ix : VectorIndex F) : VectorIndex F :=
  let memories := delete id (vi_memories ix) in
  match position id (vi_memoryIDs ix) with
  | Some i => mkIndex memories (delete i (vi_embeddings ix)) (delete i (vi_memoryIDs ix))
  | None => mkIndex memories (vi_embeddings ix) (vi_memoryIDs ix)
  end.

(** The scored memories of a user that are not expired. *)
Fixpoint score_index (now : Time) (ttl : Duration) (userID : string) (query : list F) (memories : gmap string (IndexedMemory F))
    (ids : list string) (embeddings : list (list F)) : option (list (Memory F * F)) :=
  match ids with
  | [] => Some []
  | id :: ids' =>
      indexed ← memories !! id;
      if negb (String.eqb (default "" (memory_user (ix_Memory indexed))) userID) || (ttl <? now - ix_CachedAt indexed)
      then score_index now ttl userID query memories ids' (tail embeddings)
      else
        embedding ← head embeddings;
        rest ← score_index now ttl userID query memories ids' (tail embeddings);
        Some ((ix_Memory indexed, cosineSimilarity query embedding) :: rest)
  end.

(** By falling score, the first [topK]; a negative number panics. *)
Definition higher_score (x y : Memory F * F) : bool := f_ltb y.2 x.2.
Definition top (topK : Z) (scored : list (Memory F * F)) : option (list (Memory F)) :=
  let scored := go_sort higher_score scored in
  let topK := if Z.of_nat (length scored) <? topK then Z.of_nat (length scored) else topK in
  if topK <? 0 then None else Some (take (Z.to_nat topK) scored.*1).

Definition search_index (now : Time) (ttl : Duration) (userID : string) (query : list F) (topK : Z) (ix : VectorIndex F)
    : option (list (Memory F)) :=
  scored ← score_index now ttl userID query (vi_memories ix) (vi_memoryIDs ix) (vi_embeddings ix);
  top topK scored.
End Index.

(** ** The service *)

Record DistributedMemoryService (F B : Type) := mkMemoryService {
  dm_backend : B;
  dm_indices : gmap Z (VectorIndex F);
  dm_config : MemoryConfig;
}.
Arguments mkMemoryService {F B}.
Arguments dm_backend {F B}.
Arguments dm_indices {F B}.
Arguments dm_config {F B}.

Section Service.
Context {F B : Type} `{Floats F} `{MemoryBackend F B}.
Local Notation Service := (DistributedMemoryService F B).

(** The provider of embeddings, if there is one. *)
Context (provider : option (string → result (list F))).

Definition NewDistributedMemoryService (backend : B) (config : MemoryConfig) : Service :=
  let config := memory_defaults config in
  mkMemoryService backend
    (list_to_map ((λ i : nat, (Z.of_nat i, mkIndex ∅ [] [])) <$> seq 0 (Z.to_nat (mf_NumPartitions config)))) config.

Definition addToIndex (now : Time) (partitionID : Z) (m : Memory F) (embedding : list F) (s : Service) : Service :=
  mkMemoryService (dm_backend s) (alter (add_to_index now m embedding) partitionID (dm_indices s)) (dm_config s).
Definition removeFromAllIndices (id : string) (s : Service) : Service :=
  mkMemoryService (dm_backend s) (remove_from_index id <$> dm_indices s) (dm_config s).

(** No index for the partition gives nothing. *)
Definition searchIndex (now : Time) (partitionID : Z) (userID : string) (query : list F) (topK : Z) (s : Service) : option (list (Memory F)) :=
  match dm_indices s !! partitionID with
  | None => Some []
  | Some ix => search_index now (mf_CacheTTL (dm_config s)) userID query topK ix
  end.

Definition with_embedding (m : Memory F) : result (Memory F) :=
  match mm_Embedding m with
  | [] =>
      match provider with
      | Some generate =>
          if String.eqb (mm_Content m) "" then inl (EText "memory must have embedding or content for auto-generation")
          else match generate (mm_Content m) with
               | inl err => inl (EWrap "failed to generate embedding: " err "")
               | inr e => inr (mkMemory (mm_ID m) (mm_Content m) e (mm_Metadata m) (mm_CreatedAt m))
               end
      | None => inl (EText "memory must have embedding or content for auto-generation")
      end
  | _ => inr m
  end.

Definition StoreMemory (now : Time) (m : Memory F) (s : Service) : option error * Service :=
  match with_embedding m with
  | inl err => (Some err, s)
  | inr m =>
      let dim := Z.of_nat (length (mm_Embedding m)) in
      if negb (dim =? mf_EmbeddingDim (dm_config s)) then
        (Some (EText ("embedding dimension mismatch: expected " +:+ pretty (mf_EmbeddingDim (dm_config s)) +:+ ", got " +:+ pretty dim)), s)
      else
        let userID := default "" (memory_user m) in
        let partitionID := if String.eqb userID "" then 0 else GetPartition userID (mf_NumPartitions (dm_config s)) in
        match mb_Put now m (dm_backend s) with
        | (Some err, b) => (Some err, mkMemoryService b (dm_indices s) (dm_config s))
        | (None, b) =>
            let s := mkMemoryService b (dm_indices s) (dm_config s) in
            (None, if mf_EnableCache (dm_config s) then addToIndex now partitionID m (normalizeVector (mm_Embedding m)) s else s)
        end
  end.

Definition scored_memories (query : list F) (dim : Z) (memories : list (Memory F)) : list (Memory F * F) :=
  (λ m, (m, cosineSimilarity query (normalizeVector (mm_Embedding m)))) <$>
    filter (λ m, Z.of_nat (length (mm_Embedding m)) = dim) memories.

Definition QueryMemories (now : Time) (userID : string) (queryEmbedding : list F) (topK : Z) (s : Service)
    : option (result (list (Memory F)) * Service) :=
  let dim := Z.of_nat (length queryEmbedding) in
  if negb (dim =? mf_EmbeddingDim (dm_config s)) then
    Some (inl (EText ("query embedding dimension mismatch: expected " +:+ pretty (mf_EmbeddingDim (dm_config s)) +:+ ", got " +:+ pretty dim)), s)
  else
    let query := normalizeVector queryEmbedding in
    let primary := GetPartition userID (mf_NumPartitions (dm_config s)) in
    cached ← (if mf_EnableCache (dm_config s) then searchIndex now primary userID query topK s else Some []);
    match cached with
    | _ :: _ => Some (inr cached, s)
    | [] =>
        match mb_List userID (dm_backend s) with
        | inl err => Some (inl err, s)
        | inr memories =>
            results ← top topK (scored_memories query (mf_EmbeddingDim (dm_config s)) memories);
            Some (inr results,
                  if mf_EnableCache (dm_config s)
                  then foldl (λ s m, addToIndex now primary m (normalizeVector (mm_Embedding m)) s) s results else s)
        end
    end.

Definition DeleteMemory (id : string) (s : Service) : option error * Service :=
  match mb_Delete id (dm_backend s) with
  | (Some err, b) => (Some err, mkMemoryService b (dm_indices s) (dm_config s))
  | (None, b) =>
      let s := mkMemoryService b (dm_indices s) (dm_config s) in
      (None, if mf_EnableCache (dm_config s) then removeFromAllIndices id s else s)
  end.

Definition ListMemories (userID : string) (s : Service) : result (list (Memory F)) := mb_List userID (dm_backend s).

Inductive memory_step : Service → Service → Prop :=
  | me_store now m s : memory_step s (StoreMemory now m s).2
  | me_query now userID query topK s r s' : QueryMemories now userID query topK s = Some (r, s') → memory_step s s'
  | me_delete id s : memory_step s (DeleteMemory id s).2.
End Service.

(** ** The index is consistent *)

Section Consistent.
Context {F B : Type} `{FloatOrder F} `{MemoryBackendLaws F B}.
Context (provider : option (string → result (list F))).
Local Notation Service := (DistributedMemoryService F B).

(** The entry of an id is in the map, with the embedding of the parallel array. *)
Definition entry_ok (memories : gmap string (IndexedMemory F)) (id : string) (embedding : list F) : Prop :=
  ∃ x, memories !! id = Some x ∧ ix_Embedding x = embedding.

Record index_ok (ix : VectorIndex F) : Prop := {
  io_nodup : NoDup (vi_memoryIDs ix);
  io_parallel : Forall2 (entry_ok (vi_memories ix)) (vi_memoryIDs ix) (vi_embeddings ix);
  io_all id x : vi_memories ix !! id = Some x →
    id ∈ vi_memoryIDs ix ∧ mm_ID (ix_Memory x) = id ∧ ix_Embedding x = normalizeVector (mm_Embedding (ix_Memory x));
}.

Lemma position_found id ids : id ∈ ids → ∃ i, position id ids = Some i.
Proof.
  induction ids as [|x ids IH]; [by intros ?%elem_of_nil|]. simpl. destruct (String.eqb_spec x id) as [->|Hne]; [eauto|].
  intros [->|Hin]%elem_of_cons; [done|]. destruct (IH Hin) as [i ->]. simpl. eauto.
Qed.

Lemma position_none id ids : position id ids = None → id ∉ ids.
Proof. intros Hp Hin. destruct (position_found id ids Hin) as [i Hi]. congruence. Qed.

Lemma replace_parallel (P Q : string → list F → Prop) id e ids es i :
  NoDup ids → Forall2 P ids es → position id ids = Some i → (∀ id' e', id' ≠ id → P id' e' → Q id' e') → Q id e →
  Forall2 Q ids (<[i := e]> es).
Proof.
  intros Hnd Hall Hp Hpq Hq. revert i Hp Hnd. induction Hall as [|x y ids es Hxy Hall IH]; intros i; [done|]. simpl.
  intros Hp [Hni Hnd]%NoDup_cons. destruct (String.eqb_spec x id) as [->|Hne].
  - injection Hp as <-. simpl. constructor; [done|]. clear IH Hnd. induction Hall as [|a b ids es Hab Hall IH]; [done|].
    apply not_elem_of_cons in Hni as [Hx Hni]. constructor; [by apply Hpq|by apply IH].
  - destruct (position id ids) as [j|] eqn:Hj; [|done]. injection Hp as <-. simpl. constructor; [by apply Hpq|]. by apply IH.
Qed.

Lemma delete_parallel (P Q : string → list F → Prop) id ids es i :
  NoDup ids → Forall2 P ids es → position id ids = Some i → (∀ id' e', id' ≠ id → P id' e' → Q id' e') →
  NoDup (delete i ids) ∧ Forall2 Q (delete i ids) (delete i es) ∧ ∀ id', id' ∈ delete i ids ↔ id' ∈ ids ∧ id' ≠ id.
Proof.
  intros Hnd Hall Hp Hpq. revert i Hp Hnd. induction Hall as [|x y ids es Hxy Hall IH]; intros i; [done|]. simpl.
  intros Hp [Hni Hnd]%NoDup_cons. destruct (String.eqb_spec x id) as [->|Hne].
  - injection Hp as <-. simpl. split; [done|]. split.
    + clear IH Hnd. induction Hall as [|a b ids es Hab Hall IH]; [done|].
      apply not_elem_of_cons in Hni as [Hx Hni]. constructor; [by apply Hpq|by apply IH].
    + intros id'. rewrite elem_of_cons. split; [|naive_solver]. intros Hin. split; [by right|]. by intros ->.
  - destruct (position id ids) as [j|] eqn:Hj; [|done]. injection Hp as <-. destruct (IH j eq_refl Hnd) as (Hnd' & Hall' & Hin). simpl. split_and!.
    + constructor; [|done]. rewrite Hin. tauto.
    + constructor; [by apply Hpq|done].
    + intros id'. rewrite !elem_of_cons, Hin. naive_solver.
Qed.

Lemma add_to_index_ok now m ix : index_ok ix → index_ok (add_to_index now m (normalizeVector (mm_Embedding m)) ix).
Proof.
  intros [Hnd Hpar Hall]. unfold add_to_index. set (e := normalizeVector (mm_Embedding m)). set (y := mkIndexed m e now).
  assert (∀ id' e', id' ≠ mm_ID m → entry_ok (vi_memories ix) id' e' → entry_ok (<[mm_ID m := y]> (vi_memories ix)) id' e') as Hkeep.
  { intros id' e' Hne (x & Hx & He). exists x. by rewrite lookup_insert_ne. }
  assert (entry_ok (<[mm_ID m := y]> (vi_memories ix)) (mm_ID m) e) as Hnew by (exists y; by rewrite lookup_insert_eq).
  destruct (vi_memories ix !! mm_ID m) as [old|] eqn:Hold.
  - destruct (Hall _ _ Hold) as (Hin & _). destruct (position_found _ _ Hin) as [i Hi]. rewrite Hi. constructor; simpl; [done| |].
    + by eapply replace_parallel.
    + intros id x [[<- <-]|[Hne Hx]]%lookup_insert_Some; [done|by apply Hall].
  - assert (mm_ID m ∉ vi_memoryIDs ix) as Hni.
    { intros Hin. apply list_elem_of_lookup in Hin as [i Hi]. destruct (Forall2_lookup_l _ _ _ _ _ Hpar Hi) as (e' & _ & x & Hx & _). congruence. }
    constructor; simpl.
    + apply NoDup_app. split; [done|]. split; [|apply NoDup_singleton]. by intros x Hx ->%list_elem_of_singleton.
    + apply Forall2_app; [|by constructor]. clear Hall Hnd Hold. induction Hpar as [|a b ids es Hab Hpar IH]; [done|].
      apply not_elem_of_cons in Hni as [Hx Hni]. constructor; [by apply Hkeep|by apply IH].
    + intros id x. rewrite elem_of_app, list_elem_of_singleton. intros [[<- <-]|[Hne Hx]]%lookup_insert_Some; [by auto|].
      destruct (Hall id x Hx) as (? & ? & ?). auto.
Qed.

Lemma remove_from_index_ok id ix : index_ok ix → index_ok (remove_from_index id ix).
Proof.
  intros [Hnd Hpar Hall]. unfold remove_from_index.
  assert (∀ id' e', id' ≠ id → entry_ok (vi_memories ix) id' e' → entry_ok (delete id (vi_memories ix)) id' e') as Hkeep.
  { intros id' e' Hne (x & Hx & He). exists x. by rewrite lookup_delete_ne. }
  destruct (position id (vi_memoryIDs ix)) as [i|] eqn:Hi.
  - destruct (delete_parallel _ _ _ _ _ _ Hnd Hpar Hi Hkeep) as (Hnd' & Hpar' & Hin). constructor; simpl; [done|done|].
    intros id' x [Hne Hx]%lookup_delete_Some. destruct (Hall id' x Hx) as (? & ? & ?). rewrite Hin. done.
  - apply position_none in Hi. constructor; simpl; [done| |].
    + clear Hall Hnd. induction Hpar as [|a b ids es Hab Hpar IH]; [done|]. apply not_elem_of_cons in Hi as [Hx Hi].
      constructor; [by apply Hkeep|by apply IH].
    + intros id' x [Hne Hx]%lookup_delete_Some. by apply Hall.
Qed.

Definition memory_ok (s : Service) : Prop := map_Forall (λ _, index_ok) (dm_indices s).

Lemma addToIndex_ok now p m s : memory_ok s → memory_ok (addToIndex now p m (normalizeVector (mm_Embedding m)) s).
Proof.
  intros Hok q ix. simpl. rewrite lookup_alter_Some. intros [(<- & ix' & Hix & ->)|[_ Hix]]; [|by eapply Hok].
  apply add_to_index_ok. by eapply Hok.
Qed.

Lemma memory_step_ok (s s' : Service) : memory_ok s → memory_step provider s s' → memory_ok s'.
Proof.
  intros Hok Hs. destruct Hs as [now m s|now userID query topK s r s' Hq|id s].
  - unfold StoreMemory. destruct (with_embedding provider m) as [err|m']; [done|]. destruct (negb _); [done|].
    destruct (mb_Put now m' (dm_backend s)) as [[err|] b]; [done|]. simpl. destruct (mf_EnableCache _); [|done]. by apply addToIndex_ok.
  - unfold QueryMemories in Hq. destruct (negb _); [by simplify_eq|]. destruct (if mf_EnableCache _ then _ else _) as [[|m ms]|]; simplify_eq/=; [|done].
    destruct (mb_List userID (dm_backend s)) as [err|memories]; [by simplify_eq|]. destruct (top topK _) as [results|]; simplify_eq/=.
    destruct (mf_EnableCache _); [|done]. generalize (GetPartition userID (mf_NumPartitions (dm_config s))). intros p.
    clear -Hok. revert s Hok. induction results as [|m ms IH]; intros s Hok; simpl; [done|].
    apply IH. by apply addToIndex_ok.
  - unfold DeleteMemory. destruct (mb_Delete id (dm_backend s)) as [[err|] b]; [done|]. simpl. destruct (mf_EnableCache _); [|done].
    intros p ix. simpl. rewrite lookup_fmap_Some. intros (ix' & <- & Hix). apply remove_from_index_ok. by eapply Hok.
Qed.

(** How a memory is rated. *)
Definition rating (query : list F) (m : Memory F) : F := cosineSimilarity query (normalizeVector (mm_Embedding m)).

(** The index is searched without a panic, and rates as the backend's search does. *)
Lemma score_index_spec now ttl userID query ix :
  index_ok ix → ∃ scored, score_index now ttl userID query (vi_memories ix) (vi_memoryIDs ix) (vi_embeddings ix) = Some scored ∧
    ∀ x, x ∈ scored → default "" (memory_user x.1) = userID ∧ x.2 = rating query x.1.
Proof.
  intros [_ Hpar Hall]. assert (∀ id x, vi_memories ix !! id = Some x → ix_Embedding x = normalizeVector (mm_Embedding (ix_Memory x))) as Hn
    by (intros id x Hx; by destruct (Hall id x Hx) as (_ & _ & ?)). clear Hall.
  induction Hpar as [|id e ids es (x & Hx & He) Hpar IH]; simpl; [eexists; split; [done|]; by intros x ?%elem_of_nil|].
  destruct IH as (scored & Hs & Hin). rewrite Hx. simpl. destruct (String.eqb_spec (default "" (memory_user (ix_Memory x))) userID) as [Hu|Hu]; simpl; [|eauto].
  destruct (_ <? _); [eauto|]. rewrite Hs. simpl. eexists. split; [done|]. intros y [->|Hy]%elem_of_cons; [|by apply Hin].
  simpl. split; [done|]. unfold rating. by rewrite <- (Hn id x Hx), He.
Qed.

Definition rated_before (query : list F) (a b : Memory F) : Prop := f_ltb (rating query a) (rating query b) = false.

(** The best are taken. *)
Lemma top_spec topK query (scored : list (Memory F * F)) :
  0 ≤ topK → (∀ x, x ∈ scored → x.2 = rating query x.1) →
  ∃ best rest, top topK scored = Some best ∧ best ++ rest ≡ₚ scored.*1 ∧ Z.of_nat (length best) ≤ topK ∧
    StronglySorted (rated_before query) (best ++ rest).
Proof.
  intros Hk Hr. unfold top. set (sorted := go_sort higher_score scored). pose proof (go_sort_perm higher_score scored) as Hp. fold sorted in Hp.
  assert (StronglySorted (rated_before query) sorted.*1) as Hs.
  { assert (StronglySorted (sort_le higher_score) sorted) as Hs.
    { apply go_sort_sorted; unfold higher_score; [intros x y; apply f_lt_asym|]. intros x y z Hxy Hyz. by eapply f_le_trans. }
    assert (∀ x, x ∈ sorted → x.2 = rating query x.1) as Hr' by (intros x; rewrite Hp; apply Hr). clearbody sorted. clear -Hs Hr'.
    induction Hs as [|x l Hs IH Hall]; [constructor|]. simpl. constructor; [apply IH; intros y Hy; apply Hr'; by right|].
    apply Forall_forall. intros m Hm. apply list_elem_of_fmap in Hm as (y & -> & Hy). rewrite Forall_forall in Hall. specialize (Hall y Hy).
    unfold rated_before. rewrite <- (Hr' x (list_elem_of_here _ _)), <- (Hr' y (list_elem_of_further _ _ _ Hy)). exact Hall. }
  set (k := if Z.of_nat (length sorted) <? topK then Z.of_nat (length sorted) else topK).
  assert (0 ≤ k ≤ topK) as Hkk by (unfold k; destruct (Z.ltb_spec (Z.of_nat (length sorted)) topK); lia).
  destruct (Z.ltb_spec k 0); [lia|]. exists (take (Z.to_nat k) sorted.*1), (drop (Z.to_nat k) sorted.*1). rewrite take_drop.
  split_and!; [done|by rewrite Hp|rewrite length_take; lia|done].
Qed.

Lemma sorted_prefix {A} (R : A → A → Prop) l l' : StronglySorted R (l ++ l') → StronglySorted R l.
Proof.
  induction l as [|a l IH]; simpl; [constructor|]. inversion_clear 1 as [|? ? Hs Hall]. apply Forall_app in Hall as [? _].
  constructor; auto.
Qed.

(** Whatever was stored, queried and deleted: the parallel arrays of an index agree
    with its map, and a query for [topK >= 0] memories does not panic; unless the
    backend fails it answers at most [topK] memories, all of the user that asks, the
    best rated first. *)
Theorem memory_query backend config (s : Service) now userID query topK :
  rtc (memory_step provider) (NewDistributedMemoryService backend config) s →
  0 ≤ topK → Z.of_nat (length query) = mf_EmbeddingDim (dm_config s) →
  memory_ok s ∧
  ∃ r s', QueryMemories now userID query topK s = Some (r, s') ∧
    match r with
    | inl err => mb_List userID (dm_backend s) = inl err
    | inr results => Z.of_nat (length results) ≤ topK ∧ Forall (λ m, default "" (memory_user m) = userID) results ∧
                     StronglySorted (rated_before (normalizeVector query)) results
    end.
Proof.
  intros Hrun Hk Hdim. assert (memory_ok s) as Hok.
  { assert (memory_ok (NewDistributedMemoryService backend config)) as Hst.
    { intros p ix Hix. simpl in Hix. apply elem_of_list_to_map_2, list_elem_of_fmap in Hix as (i & [= _ ->] & _).
      constructor; simpl; [constructor|constructor|]. intros id x. by rewrite lookup_empty. }
    clear Hdim. induction Hrun as [|x y z Hxy _ IH]; [done|]. apply IH. by eapply memory_step_ok. }
  split; [done|]. unfold QueryMemories. rewrite Hdim, Z.eqb_refl. simpl. set (q := normalizeVector query).
  assert (∃ cached, (if mf_EnableCache (dm_config s) then searchIndex now (GetPartition userID (mf_NumPartitions (dm_config s))) userID q topK s
                     else Some []) = Some cached ∧ Z.of_nat (length cached) ≤ topK ∧
      Forall (λ m, default "" (memory_user m) = userID) cached ∧ StronglySorted (rated_before q) cached) as (cached & -> & Hc).
  { destruct (mf_EnableCache _); [|eexists; split_and!; [done|simpl; lia|constructor..]]. unfold searchIndex.
    destruct (dm_indices s !! _) as [ix|] eqn:Hix; [|eexists; split_and!; [done|simpl; lia|constructor..]]. unfold search_index.
    destruct (score_index_spec now (mf_CacheTTL (dm_config s)) userID q ix (Hok _ _ Hix)) as (scored & -> & Hin). simpl.
    destruct (top_spec topK q scored Hk (λ x Hx, proj2 (Hin x Hx))) as (best & rest & -> & Hp & Hlen & Hs). exists best. split_and!; [done|done| |].
    - apply Forall_forall. intros m Hm. assert (m ∈ scored.*1) as Hm' by (rewrite <- Hp; apply elem_of_app; by left).
      apply list_elem_of_fmap in Hm' as (x & -> & Hx). by apply Hin.
    - by eapply sorted_prefix. }
  simpl. destruct cached as [|m ms]; [|by eexists _, _]. destruct (mb_List userID (dm_backend s)) as [err|memories] eqn:Hl; [by eexists _, _|].
  set (scored := scored_memories q (mf_EmbeddingDim (dm_config s)) memories).
  destruct (top_spec topK q scored Hk) as (best & rest & -> & Hp & Hlen & Hs).
  { intros x Hx. unfold scored, scored_memories in Hx. by apply list_elem_of_fmap in Hx as (m & -> & _). }
  simpl. eexists _, _. split; [done|]. simpl. split_and!; [done| |by eapply sorted_prefix].
  apply Forall_forall. intros m Hm. assert (m ∈ scored.*1) as Hm' by (rewrite <- Hp; apply elem_of_app; by left).
  apply list_elem_of_fmap in Hm' as (x & -> & Hx). unfold scored, scored_memories in Hx.
  apply list_elem_of_fmap in Hx as (m' & -> & [_ Hm']%list_elem_of_filter). simpl. by rewrite (mb_list_user _ _ _ _ Hl Hm').
Qed.

End Consistent.
