(* ===== verification/AdkMemory.v ===== *)
(** * Memories of sessions (pkg/runtime/adk_memory.go, adk_memory_enhanced.go)

    Four services that remember sessions and are searched by text: by substrings
    over a backend ([adk_Search]) or in memory ([plain_Search]), and by words
    ([compat_Search], [enhanced_Search]).  Of an event the fields they read are
    kept; contents do not change once they were added.  The order in which Go
    ranges over a map of sessions is a class. *)

From Stdlib Require Import Ascii.
From stdpp Require Import base gmap strings list fin_maps sets.
From S2P Require Import Prelude Etcd Templates MemoryService.

Open Scope Z_scope.

(** ** Contents *)

(** A part of a content, by its text; nothing reads the other fields. *)
Record ContentPart := mkPart { cp_Text : string }.
Record MultiPartContent := mkParts { mp_Parts : list ContentPart; mp_Role : string }.

Inductive EventContent :=
  | EcNil | EcString (s : string) | EcParts (c : MultiPartContent) | EcPartsPtr (c : option MultiPartContent) | EcOther.

Definition NewTextContent (text : string) : MultiPartContent := mkParts [mkPart text] "model".
Definition NewMultiPartContent (role : string) (parts : list ContentPart) : MultiPartContent := mkParts parts role.

Definition GetText (c : option MultiPartContent) : string :=
  match c with None => "" | Some c => strings_Join (filter (λ t, t ≠ "") (cp_Text <$> mp_Parts c)) " " end.
Definition HasText (c : option MultiPartContent) : bool :=
  match c with None => false | Some c => existsb (λ p, negb (String.eqb (cp_Text p) "")) (mp_Parts c) end.

(** [strings.SplitSeq(text, " ")] *)
Fixpoint split_space (s : string) : list string :=
  match s with
  | EmptyString => [""]
  | String c s' =>
      if Ascii.eqb c " "%char then "" :: split_space s'
      else match split_space s' with [] => [String c ""] | p :: ps => String c p :: ps end
  end.

Definition add_words (l : list string) (words : gset string) : gset string :=
  foldl (λ words w, if String.eqb w "" then words else {[strings_ToLower w]} ∪ words) words l.
Definition extractWordsInto (text : string) (words : gset string) : gset string := add_words (strings_Fields text) words.
Definition extractWordsIntoMap (text : string) (words : gset string) : gset string := add_words (split_space text) words.
Definition extractWordsFromText (text : string) : gset string := extractWordsIntoMap text ∅.

Definition ExtractWords (c : option MultiPartContent) : gset string :=
  match c with
  | None => ∅
  | Some c => foldl (λ words t, if String.eqb t "" then words else extractWordsIntoMap t words) ∅ (cp_Text <$> mp_Parts c)
  end.

(** The smaller set is gone through. *)
Definition mapsIntersect (m1 m2 : gset string) : bool :=
  if bool_decide (size m1 = 0%nat) || bool_decide (size m2 = 0%nat) then false
  else let '(m1, m2) := if (size m2 <? size m1)%nat then (m2, m1) else (m1, m2) in
       existsb (λ k, bool_decide (k ∈ m2)) (elements m1).

(** ** Sessions *)

Record MemEvent := mkMemEvent {
  ev_ID : string;
  ev_Content : EventContent;
  ev_Author : string;
  ev_Timestamp : Time;
  ev_Metadata : option (gmap string Value);
}.
Record MemSession := mkMemSession { ms_ID : string; ms_UserID : string; ms_EventHistory : list MemEvent }.

Record MemoryEntry := mkEntry {
  en_Content : EventContent;
  en_Author : string;
  en_Timestamp : Time;
  en_SessionID : string;
  en_EventID : string;
  en_Metadata : option (gmap string Value);
}.

(** [SessionInterface], with the events behind [Len] and [At]; [None] is nil. *)
Record SessionInterface := mkSessionInterface {
  si_ID : string;
  si_AppName : string;
  si_UserID : string;
  si_Len : nat;
  si_At : nat → option MemEvent;
}.

Definition WrapSession (s : MemSession) : SessionInterface :=
  mkSessionInterface (ms_ID s) "" (ms_UserID s) (length (ms_EventHistory s)) (λ i, ms_EventHistory s !! i).

(** A session with the name of its application. *)
Record EnhancedSession := mkEnhancedSession { es_session : MemSession; es_appName : string }.
Definition slice_At (i : Z) (events : list MemEvent) : option MemEvent :=
  if (i <? 0) || (Z.of_nat (length events) <=? i) then None else events !! Z.to_nat i.
Definition slice_Last (events : list MemEvent) : option MemEvent :=
  match events with [] => None | _ => events !! (length events - 1)%nat end.
Definition ToSessionInterface (s : EnhancedSession) : SessionInterface :=
  mkSessionInterface (ms_ID (es_session s)) (es_appName s) (ms_UserID (es_session s)) (length (ms_EventHistory (es_session s)))
    (λ i, slice_At (Z.of_nat i) (ms_EventHistory (es_session s))).

(** The loop over [Len] and [At]. *)
Definition interface_events (s : SessionInterface) : list MemEvent := omap (si_At s) (seq 0 (si_Len s)).

Record MemorySearchRequest := mkRequest { rq_Query : string; rq_UserID : string; rq_AppName : string }.

Class SessionRange := {
  range_sessions : ∀ {A}, gmap string A → list (string * A);
  range_sessions_perm {A} (m : gmap string A) : range_sessions m ≡ₚ map_to_list m;
}.

(** ** The in-memory service by substrings *)

Definition text_of (c : EventContent) : option string := match c with EcString s => Some s | _ => None end.
Definition text_matches (query : string) (c : EventContent) : bool :=
  match text_of c with Some text => strings_Contains (strings_ToLower text) (strings_ToLower query) | None => false end.

Definition plain_entries (s : MemSession) : list MemoryEntry :=
  (λ e, mkEntry (ev_Content e) (ev_Author e) (ev_Timestamp e) (ms_ID s) (ev_ID e) None) <$> ms_EventHistory s.

Notation PlainMemory := (gmap string (list MemoryEntry)) (only parsing).
Definition plain_AddSession (session : option MemSession) (m : PlainMemory) : PlainMemory :=
  match session with
  | None => m
  | Some s => <[ms_UserID s := default [] (m !! ms_UserID s) ++ plain_entries s]> m
  end.
Definition plain_Search `{SessionRange} (query : string) (m : PlainMemory) : list MemoryEntry :=
  if String.eqb query "" then []
  else concat ((λ x, filter (λ e, text_matches query (en_Content e) = true) x.2) <$> range_sessions m).
Definition SearchForUser (userID query : string) (m : PlainMemory) : list MemoryEntry :=
  if String.eqb query "" then []
  else filter (λ e, text_matches query (en_Content e) = true) (default [] (m !! userID)).
Definition plain_Clear (userID : string) (m : PlainMemory) : PlainMemory := delete userID m.
Definition plain_ClearAll (m : PlainMemory) : PlainMemory := ∅.

(** ** The services by words *)

Record memoryValue := mkValue { mv_content : EventContent; mv_author : string; mv_timestamp : Time; mv_words : gset string }.

Record EnhancedMemoryValue := mkEnhanced {
  xv_content : option MultiPartContent;
  xv_rawContent : EventContent;
  xv_author : string;
  xv_timestamp : Time;
  xv_words : gset string;
  xv_eventID : string;
  xv_metadata : option (gmap string Value);
}.

(** Application and user, then session. *)
Notation WordStore V := (gmap (string * string) (gmap string V)) (only parsing).

Definition put_values {V : Type} (appName userID sessionID : string) (values : V) (s : WordStore V) : WordStore V :=
  <[(appName, userID) := <[sessionID := values]> (default ∅ (s !! (appName, userID)))]> s.

(** The values that share a word with the query, session by session. *)
Definition matching `{SessionRange} {V} (entry : string → V → MemoryEntry) (words : V → gset string) (queryWords : gset string)
    (sessMap : gmap string (list V)) : list MemoryEntry :=
  concat ((λ x : string * list V, entry x.1 <$> filter (λ e, mapsIntersect (words e) queryWords = true) x.2) <$> range_sessions sessMap).

Definition compat_value (e : MemEvent) : option memoryValue :=
  match ev_Content e with
  | EcNil => None
  | c =>
      let words := match text_of c with Some text => extractWordsInto text ∅ | None => ∅ end in
      if bool_decide (size words = 0%nat) then None else Some (mkValue c (ev_Author e) (ev_Timestamp e) words)
  end.

Definition compat_AddSession (sess : option SessionInterface) (s : WordStore (list memoryValue)) : WordStore (list memoryValue) :=
  match sess with
  | None => s
  | Some sess => put_values (si_AppName sess) (si_UserID sess) (si_ID sess) (omap compat_value (interface_events sess)) s
  end.

Definition compat_entry (e : memoryValue) : MemoryEntry := mkEntry (mv_content e) (mv_author e) (mv_timestamp e) "" "" None.

Definition compat_Search `{SessionRange} (req : option MemorySearchRequest) (s : WordStore (list memoryValue)) : list MemoryEntry :=
  match req with
  | None => []
  | Some req =>
      if String.eqb (rq_Query req) "" then []
      else
        let queryWords := extractWordsInto (rq_Query req) ∅ in
        match s !! (rq_AppName req, rq_UserID req) with
        | None => []
        | Some sessMap => matching (λ _, compat_entry) mv_words queryWords sessMap
        end
  end.

(** The text and the words of a content. *)
Definition content_words (by_value : bool) (c : EventContent) : option MultiPartContent * gset string :=
  match c with
  | EcPartsPtr c => (c, ExtractWords c)
  | EcParts c => if by_value then (Some c, ExtractWords (Some c)) else (None, ∅)
  | EcString s => (Some (NewTextContent s), extractWordsIntoMap s ∅)
  | _ => (None, ∅)
  end.

Definition enhanced_value (by_value : bool) (e : MemEvent) : option EnhancedMemoryValue :=
  match ev_Content e with
  | EcNil => None
  | c =>
      let '(multiPart, words) := content_words by_value c in
      if bool_decide (size words = 0%nat) then None
      else Some (mkEnhanced multiPart c (ev_Author e) (ev_Timestamp e) words (ev_ID e) (ev_Metadata e))
  end.

Definition enhanced_AddSession (sess : option EnhancedSession) (s : WordStore (list EnhancedMemoryValue)) : WordStore (list EnhancedMemoryValue) :=
  match sess with
  | None => s
  | Some sess => put_values (es_appName sess) (ms_UserID (es_session sess)) (ms_ID (es_session sess))
                   (omap (enhanced_value true) (ms_EventHistory (es_session sess))) s
  end.
(** Contents that are not pointers are not looked into. *)
Definition AddSessionCompat (sess : option SessionInterface) (s : WordStore (list EnhancedMemoryValue)) : WordStore (list EnhancedMemoryValue) :=
  match sess with
  | None => s
  | Some sess => put_values (si_AppName sess) (si_UserID sess) (si_ID sess) (omap (enhanced_value false) (interface_events sess)) s
  end.

Definition enhanced_entry (sessionID : string) (e : EnhancedMemoryValue) : MemoryEntry :=
  mkEntry (match xv_content e with Some c => EcString (GetText (Some c)) | None => xv_rawContent e end)
    (xv_author e) (xv_timestamp e) sessionID (xv_eventID e) (xv_metadata e).

Definition enhanced_Search `{SessionRange} (req : option MemorySearchRequest) (s : WordStore (list EnhancedMemoryValue)) : list MemoryEntry :=
  match req with
  | None => []
  | Some req =>
      if String.eqb (rq_Query req) "" then []
      else
        let queryWords := extractWordsIntoMap (rq_Query req) ∅ in
        match s !! (rq_AppName req, rq_UserID req) with
        | None => []
        | Some sessMap => matching enhanced_entry xv_words queryWords sessMap
        end
  end.

Definition enhanced_Clear (userID appName : string) (s : WordStore (list EnhancedMemoryValue)) : WordStore (list EnhancedMemoryValue) :=
  delete (appName, userID) s.
Definition enhanced_ClearAll (s : WordStore (list EnhancedMemoryValue)) : WordStore (list EnhancedMemoryValue) := ∅.

(** Keys, sessions and entries. *)
Definition GetStats (s : WordStore (list EnhancedMemoryValue)) : nat * nat * nat :=
  (size s, sum_list (size <$> (map_to_list s).*2), sum_list ((λ m, sum_list (length <$> (map_to_list m).*2)) <$> (map_to_list s).*2)).

(** ** The service over a backend *)

Section Adk.
Context {F B : Type}.
(** [MemoryService] and the provider of embeddings, if there is one. *)
Context (be_Store : string → Memory F → B → option error * B) (be_Query : string → string → B → result (list (Memory F)) * B).
Context (provider : option (string → result (list F))).

(** Nothing reads the session itself. *)
Record SessionMemory := mkSessionMemory { sm_Events : list MemoryEntry; sm_AddedAt : Time; sm_Embedding : list F }.

Record ADKMemoryService := mkAdk {
  am_backend : option B;
  am_userID : string;
  am_appName : string;
  am_sessionID : string;
  am_sessions : gmap string SessionMemory;
}.

Definition NewADKMemoryService (backend : option B) (userID appName sessionID : string) : ADKMemoryService :=
  mkAdk backend userID appName sessionID ∅.

Definition adk_entries (s : MemSession) : list MemoryEntry :=
  (λ e, mkEntry (ev_Content e) (ev_Author e) (ev_Timestamp e) (ms_ID s) (ev_ID e) (ev_Metadata e)) <$> ms_EventHistory s.

Definition embedding_of (text : string) : list F :=
  match provider with Some embed => match embed text with inr e => e | inl _ => [] end | None => [] end.

Definition session_embedding (entries : list MemoryEntry) : list F :=
  match omap (text_of ∘ en_Content) entries with [] => [] | texts => embedding_of (strings_Join texts " ") end.

(** [string(rune(i))], for the codes strings have here. *)
Definition rune_string (i : nat) : string := String (ascii_of_nat i) "".

Definition backend_memory (appName : string) (s : MemSession) (i : nat) (entry : MemoryEntry) (text : string) : Memory F :=
  mkMemory (ms_ID s +:+ "_" +:+ rune_string i) text (embedding_of text)
    (Some {["user_id" := VString (ms_UserID s); "session_id" := VString (ms_ID s); "author" := VString (en_Author entry);
            "event_id" := VString (en_EventID entry); "app_name" := VString appName]})
    (en_Timestamp entry).

(** A memory that cannot be stored is passed over. *)
Fixpoint store_entries (userID appName : string) (s : MemSession) (i : nat) (entries : list MemoryEntry) (b : option B) : option B :=
  match entries with
  | [] => b
  | entry :: entries' =>
      store_entries userID appName s (S i) entries'
        match text_of (en_Content entry), b with
        | Some text, Some b => Some (be_Store userID (backend_memory appName s i entry text) b).2
        | _, _ => b
        end
  end.

Definition adk_AddSession (now : Time) (session : option MemSession) (m : ADKMemoryService) : option error * ADKMemoryService :=
  match session with
  | None => (None, m)
  | Some s =>
      let entries := adk_entries s in
      let mem := mkSessionMemory entries now (session_embedding entries) in
      (None, mkAdk (store_entries (am_userID m) (am_appName m) s 0 entries (am_backend m)) (am_userID m) (am_appName m) (am_sessionID m)
               (<[ms_ID s := mem]> (am_sessions m)))
  end.

Definition meta_string (key : string) (meta : option (gmap string Value)) : string :=
  match meta with Some m => match m !! key with Some (VString s) => s | _ => "" end | None => "" end.

Definition memory_entry (m : Memory F) : MemoryEntry :=
  mkEntry (EcString (mm_Content m)) (meta_string "author" (mm_Metadata m)) (mm_CreatedAt m) (meta_string "session_id" (mm_Metadata m))
    (meta_string "event_id" (mm_Metadata m)) (mm_Metadata m).

(** An event that matches, unless its id is there. *)
Definition add_match (query : string) (entries : list MemoryEntry) (event : MemoryEntry) : list MemoryEntry :=
  if text_matches query (en_Content event) && negb (existsb (λ x, String.eqb (en_EventID x) (en_EventID event)) entries)
  then entries ++ [event] else entries.

Definition backend_results (query : string) (m : ADKMemoryService) : list (Memory F) * option B :=
  match am_backend m with
  | None => ([], None)
  | Some b => match be_Query (am_userID m) query b with (inr l, b) => (l, Some b) | (inl _, b) => ([], Some b) end
  end.

Definition adk_Search `{SessionRange} (query : string) (m : ADKMemoryService) : list MemoryEntry * ADKMemoryService :=
  if String.eqb query "" then ([], m)
  else
    let '(results, backend) := backend_results query m in
    (foldl (λ entries x, foldl (add_match query) entries (sm_Events x.2)) (memory_entry <$> results) (range_sessions (am_sessions m)),
     mkAdk backend (am_userID m) (am_appName m) (am_sessionID m) (am_sessions m)).

(** [SearchMemory] of a tool context whose memory may be nil. *)
Definition SearchMemory `{SessionRange} (memory : option ADKMemoryService) (query : string) : list MemoryEntry :=
  match memory with None => [] | Some m => (adk_Search query m).1 end.
End Adk.

(** ** Words *)

Lemma add_words_spec l words w : w ∈ add_words l words ↔ w ∈ words ∨ ∃ t, t ∈ l ∧ t ≠ "" ∧ w = strings_ToLower t.
Proof.
  revert words. induction l as [|t l IH]; intros words; simpl.
  - split; [by left|]. by intros [?|(t & ?%elem_of_nil & _)].
  - unfold add_words in *. simpl. rewrite IH. clear IH. destruct (String.eqb_spec t "") as [->|Hne]; [|rewrite elem_of_union, elem_of_singleton];
      setoid_rewrite elem_of_cons; naive_solver.
Qed.

Lemma mapsIntersect_spec m1 m2 : mapsIntersect m1 m2 = true ↔ ∃ w, w ∈ m1 ∧ w ∈ m2.
Proof.
  assert (∀ a b : gset string, existsb (λ k, bool_decide (k ∈ b)) (elements a) = true ↔ ∃ w, w ∈ a ∧ w ∈ b) as Hex.
  { intros a b. rewrite existsb_exists. setoid_rewrite <-list_elem_of_In. setoid_rewrite elem_of_elements. by setoid_rewrite bool_decide_eq_true. }
  unfold mapsIntersect. case_bool_decide as H1; simpl.
  { split; [done|]. intros (w & Hw & _). apply size_empty_inv in H1. set_solver. }
  case_bool_decide as H2.
  { split; [done|]. intros (w & _ & Hw). apply size_empty_inv in H2. set_solver. }
  destruct (_ <? _)%nat; rewrite Hex; naive_solver.
Qed.

(** Fields and the parts between blanks are the same words, when no other white
    space is there. *)
Definition only_blanks (s : string) : bool := string_forall (λ c, negb (unicode_IsSpace c) || Ascii.eqb c " ") s.

Lemma split_space_nonempty s : split_space s ≠ [].
Proof. destruct s as [|c s]; simpl; [done|]. destruct (Ascii.eqb c " "); [done|]. by destruct (split_space s). Qed.

Lemma fields_aux_split acc s :
  only_blanks s = true →
  fields_aux acc s = filter (λ t, t ≠ "") match split_space s with [] => [] | p :: ps => (acc +:+ p) :: ps end.
Proof.
  assert (∀ a, filter (λ t, t ≠ "") [a] = if String.eqb a "" then [] else [a]) as Hone.
  { intros a. destruct (String.eqb_spec a ""); [by rewrite filter_cons_False by tauto|by rewrite filter_cons_True]. }
  revert acc. induction s as [|c s IH]; intros acc Hs; simpl in *; [by rewrite app_nil_string, Hone|].
  apply andb_true_iff in Hs as [Hc Hs]. pose proof (split_space_nonempty s) as Hne. destruct (Ascii.eqb c " ") eqn:Hb.
  - apply Ascii.eqb_eq in Hb as ->. simpl. rewrite IH by done. rewrite app_nil_string.
    destruct (split_space s) as [|p ps]; [done|]. change ("" +:+ p) with p. by rewrite <-Hone, <-filter_app.
  - rewrite orb_false_r in Hc. apply negb_true_iff in Hc. rewrite Hc, IH by done. destruct (split_space s) as [|p ps]; [done|].
    by rewrite string_app_assoc.
Qed.

Theorem word_splits_agree text words : only_blanks text = true → extractWordsInto text words = extractWordsIntoMap text words.
Proof.
  intros Ht. apply set_eq. intros w. unfold extractWordsInto, extractWordsIntoMap. rewrite !add_words_spec. unfold strings_Fields.
  rewrite fields_aux_split by done. pose proof (split_space_nonempty text) as Hne. destruct (split_space text) as [|p ps]; [done|]. change ("" +:+ p) with p.
  setoid_rewrite list_elem_of_filter. naive_solver.
Qed.

(** ** What is remembered

    A service by words is a table of the events that were added last for each
    application, user and session. *)

Section Remembered.
Context `{SessionRange}.

Lemma elem_of_matching {V} entry (words : V → gset string) queryWords sessMap x :
  x ∈ matching entry words queryWords sessMap ↔
  ∃ sid values v, sessMap !! sid = Some values ∧ v ∈ values ∧ (∃ w, w ∈ words v ∧ w ∈ queryWords) ∧ x = entry sid v.
Proof.
  unfold matching. rewrite list_elem_of_In, in_concat. setoid_rewrite <-list_elem_of_In. setoid_rewrite list_elem_of_fmap.
  setoid_rewrite range_sessions_perm. split.
  - intros (l & ([sid values] & -> & Hin) & Hx). apply list_elem_of_fmap in Hx as (v & -> & Hv).
    apply list_elem_of_filter in Hv as [Hm%mapsIntersect_spec Hv]. apply elem_of_map_to_list in Hin. by exists sid, values, v.
  - intros (sid & values & v & Hs & Hv & Hm & ->). eexists. split; [exists (sid, values); split; [done|by apply elem_of_map_to_list]|].
    apply list_elem_of_fmap. exists v. split; [done|]. apply list_elem_of_filter. split; [by apply mapsIntersect_spec|done].
Qed.

Definition store_map {V W} (f : V → W) (s : WordStore V) : WordStore W :=
  (λ m : gmap string V, f <$> m) <$> s.

Lemma store_map_put {V W} (f : V → W) (app user sid : string) (v : V) (s : WordStore V) :
  store_map f (put_values app user sid v s) = put_values app user sid (f v) (store_map f s).
Proof.
  unfold put_values, store_map. rewrite !fmap_insert. f_equal. f_equal. rewrite lookup_fmap.
  destruct (s !! (app, user)); simpl; [done|by rewrite fmap_empty].
Qed.

(** *** The enhanced service *)

Inductive EnhancedOp :=
  | OpAdd (sess : EnhancedSession) | OpAddCompat (sess : SessionInterface) | OpClear (userID appName : string) | OpClearAll.

Definition enhanced_apply (s : WordStore (list EnhancedMemoryValue)) (op : EnhancedOp) : WordStore (list EnhancedMemoryValue) :=
  match op with
  | OpAdd sess => enhanced_AddSession (Some sess) s
  | OpAddCompat sess => AddSessionCompat (Some sess) s
  | OpClear userID appName => enhanced_Clear userID appName s
  | OpClearAll => enhanced_ClearAll s
  end.

(** The events added last, and by which of the two operations. *)
Definition kept_apply (s : WordStore (bool * list MemEvent)) (op : EnhancedOp) : WordStore (bool * list MemEvent) :=
  match op with
  | OpAdd sess => put_values (es_appName sess) (ms_UserID (es_session sess)) (ms_ID (es_session sess)) (true, ms_EventHistory (es_session sess)) s
  | OpAddCompat sess => put_values (si_AppName sess) (si_UserID sess) (si_ID sess) (false, interface_events sess) s
  | OpClear userID appName => delete (appName, userID) s
  | OpClearAll => ∅
  end.

Definition values_of (k : bool * list MemEvent) : list EnhancedMemoryValue := omap (enhanced_value k.1) k.2.

Lemma enhanced_kept ops : foldl enhanced_apply ∅ ops = store_map values_of (foldl kept_apply ∅ ops).
Proof.
  induction ops as [|op ops IH] using rev_ind; [done|]. rewrite !foldl_app. simpl. rewrite IH.
  destruct op as [sess|sess|userID appName|]; simpl; [by rewrite store_map_put..| |done].
  unfold enhanced_Clear, store_map. by rewrite fmap_delete.
Qed.

(** The text a search gives for a content. *)
Definition recalled_text (c : EventContent) : string :=
  match c with EcString s => s | EcParts c => GetText (Some c) | EcPartsPtr c => GetText c | _ => "" end.

Lemma GetText_text s : GetText (Some (NewTextContent s)) = s.
Proof. cbn [GetText NewTextContent mp_Parts]. rewrite list_fmap_singleton. cbn [cp_Text]. destruct (decide (s = "")) as [->|Hne]; [done|]. by rewrite filter_cons_True. Qed.

Lemma enhanced_value_spec by_value e v :
  enhanced_value by_value e = Some v →
  xv_words v = (content_words by_value (ev_Content e)).2 ∧
  ∀ sid, enhanced_entry sid v = mkEntry (EcString (recalled_text (ev_Content e))) (ev_Author e) (ev_Timestamp e) sid (ev_ID e) (ev_Metadata e).
Proof.
  unfold enhanced_value. destruct (ev_Content e) as [|s|c|c|] eqn:Hc; [done|..]; destruct by_value; cbn [content_words];
    (case_bool_decide as Hw; [done|]); intros [= <-]; cbn [xv_words snd]; (split; [done|]); intros sid; unfold enhanced_entry;
    cbn [xv_content xv_rawContent xv_author xv_timestamp xv_eventID xv_metadata recalled_text]; rewrite ?GetText_text; try done.
  all: try (by destruct c). all: by rewrite size_empty in Hw.
Qed.

(** Whatever was added and cleared, a search finds exactly the events, of the
    sessions added last for the application and user, that share a word with the
    query, and gives their text and where they are from. *)
Theorem enhanced_memory ops query userID appName x :
  x ∈ enhanced_Search (Some (mkRequest query userID appName)) (foldl enhanced_apply ∅ ops) ↔
  query ≠ "" ∧ ∃ sessions sid by_value events e w,
    foldl kept_apply ∅ ops !! (appName, userID) = Some sessions ∧ sessions !! sid = Some (by_value, events) ∧ e ∈ events ∧
    w ∈ (content_words by_value (ev_Content e)).2 ∧ (∃ t, t ∈ split_space query ∧ t ≠ "" ∧ w = strings_ToLower t) ∧
    x = mkEntry (EcString (recalled_text (ev_Content e))) (ev_Author e) (ev_Timestamp e) sid (ev_ID e) (ev_Metadata e).
Proof.
  unfold enhanced_Search. simpl. destruct (String.eqb_spec query "") as [->|Hne]; [split; [by intros ?%elem_of_nil|by intros []]|].
  rewrite enhanced_kept. unfold store_map. rewrite lookup_fmap. destruct (foldl kept_apply ∅ ops !! (appName, userID)) as [sessions|]; simpl;
    [|split; [by intros ?%elem_of_nil|naive_solver]].
  rewrite elem_of_matching. setoid_rewrite lookup_fmap. split.
  - intros (sid & values & v & Hs & Hv & (w & Hw & Hq) & ->). split; [done|].
    destruct (sessions !! sid) as [[by_value events]|] eqn:Hsid; simplify_eq/=.
    apply list_elem_of_omap in Hv as (e & He & Hval). cbn [fst snd] in He, Hval. destruct (enhanced_value_spec _ _ _ Hval) as [Hwords Hentry].
    apply add_words_spec in Hq as [?|Hq]; [set_solver|]. exists sessions, sid, by_value, events, e, w. rewrite Hentry, <-Hwords. done.
  - intros (_ & ? & sid & by_value & events & e & w & [= <-] & Hsid & He & Hw & Hq & ->).
    destruct (enhanced_value by_value e) as [v|] eqn:Hval.
    + destruct (enhanced_value_spec _ _ _ Hval) as [Hwords Hentry]. eexists sid, _, v. rewrite Hsid, Hwords, Hentry. split; [done|].
      split; [by apply list_elem_of_omap; exists e|]. split; [|done]. exists w. split; [done|]. apply add_words_spec. by right.
    + exfalso. unfold enhanced_value in Hval. destruct (ev_Content e) as [|s|c|c|]; simpl in *; try (by apply elem_of_empty in Hw);
        destruct by_value; simpl in *; case_bool_decide as Hz; try done; apply size_empty_inv in Hz; set_solver.
Qed.

(** *** The compatible service *)

(** Sessions are only ever added. *)
Definition compat_kept (s : WordStore (list MemEvent)) (sess : SessionInterface) : WordStore (list MemEvent) :=
  put_values (si_AppName sess) (si_UserID sess) (si_ID sess) (interface_events sess) s.

Lemma compat_value_spec e v :
  compat_value e = Some v ↔
  ∃ text, ev_Content e = EcString text ∧ extractWordsInto text ∅ ≠ ∅ ∧
    v = mkValue (EcString text) (ev_Author e) (ev_Timestamp e) (extractWordsInto text ∅).
Proof.
  unfold compat_value. destruct (ev_Content e) as [|s|c|c|]; cbn [text_of]; try (case_bool_decide as Hz; rewrite ?size_empty in Hz; naive_solver).
  - naive_solver.
  - case_bool_decide as Hz.
    + apply size_empty_inv, leibniz_equiv in Hz. naive_solver.
    + split; [intros [= <-]; exists s; split_and!; [done| |done]|naive_solver]. intros Heq. by rewrite Heq, size_empty in Hz.
Qed.

(** As for the enhanced service, for texts and by white space. *)
Theorem compat_memory sessions query userID appName x :
  x ∈ compat_Search (Some (mkRequest query userID appName)) (foldl (λ s sess, compat_AddSession (Some sess) s) ∅ sessions) ↔
  query ≠ "" ∧ ∃ kept sid events e text w,
    foldl compat_kept ∅ sessions !! (appName, userID) = Some kept ∧ kept !! sid = Some events ∧ e ∈ events ∧
    ev_Content e = EcString text ∧ w ∈ extractWordsInto text ∅ ∧ w ∈ extractWordsInto query ∅ ∧
    x = mkEntry (EcString text) (ev_Author e) (ev_Timestamp e) "" "" None.
Proof.
  assert (foldl (λ s sess, compat_AddSession (Some sess) s) ∅ sessions = store_map (omap compat_value) (foldl compat_kept ∅ sessions)) as ->.
  { induction sessions as [|sess l IH] using rev_ind; [done|]. rewrite !foldl_app. cbn [foldl]. rewrite IH. symmetry. apply store_map_put. }
  unfold compat_Search. simpl. destruct (String.eqb_spec query "") as [->|Hne]; [split; [by intros ?%elem_of_nil|by intros []]|].
  unfold store_map. rewrite lookup_fmap. destruct (foldl compat_kept ∅ sessions !! (appName, userID)) as [kept|]; simpl;
    [|split; [by intros ?%elem_of_nil|naive_solver]].
  rewrite elem_of_matching. setoid_rewrite lookup_fmap. split.
  - intros (sid & values & v & Hs & Hv & (w & Hw & Hq) & ->). split; [done|].
    destruct (kept !! sid) as [events|] eqn:Hsid; simplify_eq/=. apply list_elem_of_omap in Hv as (e & He & Hval).
    apply compat_value_spec in Hval as (text & Hc & _ & ->). by exists kept, sid, events, e, text, w.
  - intros (_ & ? & sid & events & e & text & w & [= <-] & Hsid & He & Hc & Hw & Hq & ->).
    eexists sid, _, (mkValue (EcString text) (ev_Author e) (ev_Timestamp e) (extractWordsInto text ∅)). rewrite Hsid. split; [done|].
    split; [|by eauto]. apply list_elem_of_omap. exists e. split; [done|]. apply compat_value_spec. exists text. set_solver.
Qed.
End Remembered.

(** The adapters show all events of a session. *)
Lemma interface_events_of (s : SessionInterface) l : si_Len s = length l → (∀ i, (i < length l)%nat → si_At s i = l !! i) → interface_events s = l.
Proof.
  intros Hlen Hat. unfold interface_events. rewrite Hlen. clear Hlen. revert s Hat. induction l as [|x l IH] using rev_ind; intros s Hat; [done|].
  rewrite length_app in *. simpl in *. rewrite seq_app, omap_app. f_equal.
  - apply IH. intros i Hi. rewrite Hat by lia. by rewrite lookup_app_l.
  - simpl. rewrite Hat by lia. rewrite lookup_app_r, Nat.sub_diag by lia. done.
Qed.

(** Adding a session through its downgraded interface is adding it, when its
    contents are texts or pointers. *)
Theorem compat_adds_same sess s :
  (∀ e c, e ∈ ms_EventHistory (es_session sess) → ev_Content e ≠ EcParts c) →
  AddSessionCompat (Some (ToSessionInterface sess)) s = enhanced_AddSession (Some sess) s.
Proof.
  intros Hptr. simpl. f_equal. rewrite (interface_events_of _ (ms_EventHistory (es_session sess))); [|done|].
  - apply list_omap_ext, Forall_Forall2_diag, Forall_forall. intros e He.
    unfold enhanced_value. destruct (ev_Content e) eqn:Hc; try done. by destruct (Hptr e c He).
  - intros i Hi. simpl. unfold slice_At. destruct (Z.ltb_spec (Z.of_nat i) 0); [lia|].
    destruct (Z.leb_spec (Z.of_nat (length (ms_EventHistory (es_session sess)))) (Z.of_nat i)); [lia|]. by rewrite Nat2Z.id.
Qed.

(** *** The service by substrings *)

Inductive PlainOp := POpAdd (s : MemSession) | POpClear (userID : string) | POpClearAll.

Definition plain_apply (m : PlainMemory) (op : PlainOp) : PlainMemory :=
  match op with
  | POpAdd s => plain_AddSession (Some s) m
  | POpClear userID => plain_Clear userID m
  | POpClearAll => plain_ClearAll m
  end.

(** What was added for a user since its last clearing. *)
Definition remembered (userID : string) (ops : list PlainOp) : list MemoryEntry :=
  foldl (λ l op, match op with
                 | POpAdd s => if String.eqb (ms_UserID s) userID then l ++ plain_entries s else l
                 | POpClear u => if String.eqb u userID then [] else l
                 | POpClearAll => []
                 end) [] ops.

Lemma remembered_lookup ops userID : default [] (foldl plain_apply ∅ ops !! userID) = remembered userID ops.
Proof.
  unfold remembered. induction ops as [|op ops IH] using rev_ind; [done|]. rewrite !foldl_app. cbn [foldl]. rewrite <-IH.
  destruct op as [s|u|]; cbn [plain_apply]; [unfold plain_AddSession|unfold plain_Clear|done].
  - destruct (String.eqb_spec (ms_UserID s) userID) as [->|Hne]; [by rewrite lookup_insert_eq|by rewrite lookup_insert_ne].
  - destruct (String.eqb_spec u userID) as [->|Hne]; [by rewrite lookup_delete_eq|by rewrite lookup_delete_ne].
Qed.

(** A search for a user gives, in the order of adding, what was added for that user
    since the last clearing and contains the query; a search without a user gives
    what such searches give for all users. *)
Theorem plain_memory `{SessionRange} ops query :
  (∀ userID, SearchForUser userID query (foldl plain_apply ∅ ops) =
     if String.eqb query "" then [] else filter (λ e, text_matches query (en_Content e) = true) (remembered userID ops)) ∧
  (∀ e, e ∈ plain_Search query (foldl plain_apply ∅ ops) ↔ ∃ userID, e ∈ SearchForUser userID query (foldl plain_apply ∅ ops)).
Proof.
  split; [intros userID; unfold SearchForUser; by rewrite remembered_lookup|]. intros e. unfold plain_Search, SearchForUser.
  destruct (String.eqb query ""); [split; [by intros ?%elem_of_nil|by intros [? ?%elem_of_nil]]|].
  rewrite list_elem_of_In, in_concat. setoid_rewrite <-list_elem_of_In. setoid_rewrite list_elem_of_fmap. setoid_rewrite range_sessions_perm. split.
  - intros (l & ([u entries] & -> & Hin%elem_of_map_to_list) & He). exists u. rewrite Hin. exact He.
  - intros [u He]. destruct (foldl plain_apply ∅ ops !! u) as [entries|] eqn:Hu; [|by apply elem_of_nil in He].
    exists (filter (λ e, text_matches query (en_Content e) = true) entries). split; [|exact He].
    exists (u, entries). split; [done|]. by apply elem_of_map_to_list.
Qed.

(** ** The service over a backend *)

Section AdkSearch.
Context {F B : Type} `{SessionRange}.
Context (be_Store : string → Memory F → B → option error * B) (be_Query : string → string → B → result (list (Memory F)) * B).

(** Where the matches of a search come from. *)
Definition adds_matches (query : string) (events entries entries' : list MemoryEntry) : Prop :=
  ∃ added, entries' = entries ++ added ∧
    (∀ e, e ∈ added → e ∈ events ∧ text_matches query (en_Content e) = true) ∧
    (∀ e, e ∈ events → text_matches query (en_Content e) = true → en_EventID e ∈ en_EventID <$> entries') ∧
    NoDup (en_EventID <$> added) ∧ (∀ e, e ∈ added → en_EventID e ∉ en_EventID <$> entries).

Lemma id_there (entries : list MemoryEntry) id :
  existsb (λ x, String.eqb (en_EventID x) id) entries = true ↔ id ∈ en_EventID <$> entries.
Proof.
  rewrite existsb_exists, list_elem_of_fmap. setoid_rewrite <-list_elem_of_In. setoid_rewrite String.eqb_eq. naive_solver.
Qed.

Lemma adds_matches_nil query entries : adds_matches query [] entries entries.
Proof. exists []. rewrite app_nil_r. split_and!; [done|..|constructor|]; by intros ? ?%elem_of_nil. Qed.

Lemma adds_matches_app query l1 l2 a b c : adds_matches query l1 a b → adds_matches query l2 b c → adds_matches query (l1 ++ l2) a c.
Proof.
  intros (x & -> & Hx & Hall1 & Hnd1 & Hnew1) (y & -> & Hy & Hall2 & Hnd2 & Hnew2). exists (x ++ y). rewrite (assoc_L (++)).
  split_and!; [done|..].
  - intros e [He|He]%elem_of_app; [destruct (Hx e He)|destruct (Hy e He)]; rewrite elem_of_app; auto.
  - intros e [He|He]%elem_of_app Hm; [|by apply Hall2]. rewrite fmap_app, elem_of_app. left. by apply Hall1.
  - rewrite fmap_app. apply NoDup_app. split_and!; [done| |done]. intros id Hid (e & -> & He)%list_elem_of_fmap.
    apply (Hnew2 e He). rewrite fmap_app, elem_of_app. by right.
  - intros e [He|He]%elem_of_app; [by apply Hnew1|]. intros Hid. apply (Hnew2 e He). rewrite fmap_app, elem_of_app. by left.
Qed.

Lemma adds_matches_one query e entries : adds_matches query [e] entries (add_match query entries e).
Proof.
  unfold add_match. destruct (text_matches query (en_Content e)) eqn:Hm; simpl.
  - destruct (existsb _ entries) eqn:Hex; simpl.
    + apply id_there in Hex. exists []. rewrite app_nil_r. split_and!; [done|by intros ? ?%elem_of_nil| |constructor|by intros ? ?%elem_of_nil].
      by intros ? ->%list_elem_of_singleton _.
    + assert (en_EventID e ∉ en_EventID <$> entries) as Hnew by (rewrite <-id_there, Hex; done).
      exists [e]. split_and!; [done|by intros ? ->%list_elem_of_singleton; split; [left|]| |apply NoDup_singleton|by intros ? ->%list_elem_of_singleton].
      intros ? ->%list_elem_of_singleton _. rewrite fmap_app, elem_of_app. right. by left.
  - exists []. rewrite app_nil_r. split_and!; [done|by intros ? ?%elem_of_nil| |constructor|by intros ? ?%elem_of_nil].
    intros ? ->%list_elem_of_singleton. by rewrite Hm.
Qed.

Lemma adds_matches_fold query events entries : adds_matches query events entries (foldl (add_match query) entries events).
Proof.
  revert entries. induction events as [|e events IH]; intros entries; [apply adds_matches_nil|].
  apply (adds_matches_app query [e] events) with (b := add_match query entries e); [apply adds_matches_one|apply IH].
Qed.

(** A search that asks for something gives what the backend found, nothing if it
    failed, and then events of the sessions added last that contain the query;
    none of these has the id of another or of one the backend found, and no event
    that contains the query is without an entry with its id. *)
Theorem adk_search query (m : ADKMemoryService (F := F) (B := B)) :
  query ≠ "" →
  let found := memory_entry <$> (backend_results be_Query query m).1 in
  let events := concat ((λ x, sm_Events x.2) <$> map_to_list (am_sessions m)) in
  ∃ added, (adk_Search be_Query query m).1 = found ++ added ∧
    (∀ e, e ∈ added → e ∈ events ∧ text_matches query (en_Content e) = true ∧ en_EventID e ∉ en_EventID <$> found) ∧
    NoDup (en_EventID <$> added) ∧
    (∀ e, e ∈ events → text_matches query (en_Content e) = true → en_EventID e ∈ en_EventID <$> found ++ added) ∧
    am_sessions (adk_Search be_Query query m).2 = am_sessions m.
Proof.
  intros Hne found events. unfold adk_Search. rewrite (proj2 (String.eqb_neq _ _) Hne). subst found.
  destruct (backend_results be_Query query m) as [results backend]. cbn [fst snd am_sessions].
  assert (∀ l entries, adds_matches query (concat ((λ x : string * SessionMemory (F := F), sm_Events x.2) <$> l)) entries
    (foldl (λ entries (x : string * SessionMemory (F := F)), foldl (add_match query) entries (sm_Events x.2)) entries l)) as Hfold.
  { induction l as [|x l IH]; intros entries; [apply adds_matches_nil|]. simpl. eapply adds_matches_app; [apply adds_matches_fold|apply IH]. }
  destruct (Hfold (range_sessions (am_sessions m)) (memory_entry <$> results)) as (added & Heq & Hin & Hall & Hnd & Hnew).
  assert (∀ e, e ∈ events ↔ e ∈ concat ((λ x : string * SessionMemory (F := F), sm_Events x.2) <$> range_sessions (am_sessions m))) as Hev.
  { intros e. unfold events. by rewrite range_sessions_perm. }
  exists added. split_and!; [done| |done| |done].
  - intros e He. rewrite Hev. destruct (Hin e He). auto.
  - intros e He%Hev Hm. rewrite <-Heq. by apply Hall.
Qed.
End AdkSearch.

(** ** Runs *)

#[local] Instance plain_range : SessionRange.
Proof. refine {| range_sessions := λ A, map_to_list |}. done. Defined.

Definition newline : string := String (ascii_of_nat 10) "".
Definition two_lines : MemSession :=
  mkMemSession "s" "u" [mkMemEvent "e" (EcString ("first" +:+ newline +:+ "second")) "agent" 1 None].

(** Words that a line break separates are one word of the enhanced service. *)
Example line_break_hides :
  length (compat_Search (Some (mkRequest "second" "u" "")) (compat_AddSession (Some (WrapSession two_lines)) ∅)) = 1%nat ∧
  enhanced_Search (Some (mkRequest "second" "u" "")) (enhanced_AddSession (Some (mkEnhancedSession two_lines "")) ∅) = [].
Proof. split; vm_compute; reflexivity. Qed.

(** Contents that are values are lost through the compatible operation. *)
Definition by_value_session : MemSession :=
  mkMemSession "s" "u" [mkMemEvent "e" (EcParts (NewTextContent "hello")) "agent" 1 None].
Example value_content_lost :
  length (enhanced_Search (Some (mkRequest "hello" "u" "")) (enhanced_AddSession (Some (mkEnhancedSession by_value_session "")) ∅)) = 1%nat ∧
  enhanced_Search (Some (mkRequest "hello" "u" "")) (AddSessionCompat (Some (WrapSession by_value_session)) ∅) = [].
Proof. split; vm_compute; reflexivity. Qed.

(** Of events without ids, a search over a backend gives one. *)
Definition unnamed_events : MemSession :=
  mkMemSession "s" "u" [mkMemEvent "" (EcString "hello there") "agent" 1 None; mkMemEvent "" (EcString "hello again") "agent" 2 None].
Example unnamed_events_lost :
  length (adk_Search (λ _ _ b, (inr [], b)) "hello"
    (adk_AddSession (F := Z) (B := unit) (λ _ _ b, (None, b)) None 0 (Some unnamed_events) (NewADKMemoryService None "u" "app" "s")).2).1 = 1%nat.
Proof. vm_compute. reflexivity. Qed.

(** The position of an event is made a character, not a number. *)
Example position_is_a_character :
  mm_ID (backend_memory (F := Z) None "app" unnamed_events 0 (mkEntry (EcString "x") "" 0 "" "" None) "x") = "s_" +:+ String (ascii_of_nat 0) "" ∧
  mm_ID (backend_memory (F := Z) None "app" unnamed_events 65 (mkEntry (EcString "x") "" 0 "" "" None) "x") = "s_A".
Proof. split; vm_compute; reflexivity. Qed.
