(* ===== verification/Scenarios.v ===== *)
(** * Scenarios: concrete runs

    Small schedulers, stores and environments on which the definitions are
    evaluated, with the behaviour of the code at places where it is worth
    knowing exactly. *)

From stdpp Require Import base gmap strings list fin_maps pretty.
From S2P Require Import Prelude StateMachine Store Replay Jobs Config Leadership Nodes Graph Compiler Scheduler Lifecycle SchedLogic Coherence Reachable Dispatch.

Open Scope Z_scope.

(** ** A worker, a clock, a job *)

Definition worker (id : string) : NodeInfo := mkNode id id "127.0.0.1" 7000 ["worker"] None 0 0 true.

(** An environment where time passes, contexts live, two workers are healthy
    and the executor answers [exec]. *)
Definition env_with (ctx : nat → option error)
    (exec : nat → string → string → option AgentInput → DispatchAuthority →
            result (option AgentOutput)) : Env :=
  mkEnv (λ n, Z.of_nat (S n)) ctx (λ _, [worker "w1"; worker "w2"]) exec
    (λ _, Some "{}") (λ _, None) (λ _, []) (λ _, true) (λ _, (0%nat, None)) (λ _, false)
    (λ _, None).

Definition succeeds : nat → string → string → option AgentInput → DispatchAuthority →
    result (option AgentOutput) := λ _ _ _ _ _, inr None.
Definition fails_with (e : error) : nat → string → string → option AgentInput →
    DispatchAuthority → result (option AgentOutput) := λ _ _ _ _ _, inl e.

Definition good_env : Env := env_with (λ _, None) succeeds.

Definition task (id : string) : Task :=
  mkTask id "" "" "agent" "agent" (Some (mkInput id "do it" None [] "" 0 0)) None "k" JobPending "" 0.
Definition stage (id : string) (ts : list Task) : Stage := mkStage id "job-1" (Some <$> ts) [] JobPending.
Definition demo_job : Job :=
  AddStage (NewJob "job-1" "demo" 1 1) (Some (stage "s1" [task "t1"; task "t2"])).

Definition cfg0 : SchedulerConfig := DefaultSchedulerConfig.
Definition sched0 : Sched MemStore := newSchedulerWithValidatedConfig cfg0 Mem.NewInMemoryTransitionStore.

(** The state after a method, and its result. *)
Definition after {A} (m : M MemStore A) (s : Sched MemStore) : Sched MemStore :=
  match m s with Some (_, s') => s' | None => s end.
Definition result_of {A} (m : M MemStore A) (s : Sched MemStore) : option A :=
  match m s with Some (a, _) => Some a | None => None end.

Definition submitted_state : Sched MemStore := after (submit_new cfg0 good_env demo_job) sched0.
Definition finished_state : Sched MemStore := after (run_once cfg0 good_env) submitted_state.

(** What is in the log and in memory. *)
Definition log_states (s : Sched MemStore) (id : string) : list (string * string) :=
  match sc_store s with
  | Some st => (λ r, (tr_TaskID r, tr_NewState r)) <$> job_log st id
  | None => []
  end.
Definition job_now (s : Sched MemStore) (id : string) : option (JobStatus * string) :=
  match sc_jobs s !! id with
  | Some l => (λ j, (j_Status j, j_LifecycleState j)) <$> sc_heap s !! l
  | None => None
  end.

(** Submitting the demonstration job and giving the dispatch loop one turn. *)
Definition submit_run (E : Env) : Sched MemStore :=
  after (run_once cfg0 E) (after (submit_new cfg0 E demo_job) sched0).

(** A new scheduler process over the store of another. *)
Definition restart (s : Sched MemStore) : Sched MemStore :=
  match sc_store s with Some st => newSchedulerWithValidatedConfig cfg0 st | None => sched0 end.

Definition calls_of (s : Sched MemStore) : list (string * string * Z) :=
  (λ ev, (ev_task ev, ev_node ev, ev_attempt ev)) <$> sc_trace s.

(** ** The happy path *)

(** A job with two tasks, submitted and run on a healthy cluster: the whole
    durable history, the calls made and the final state. *)
Example happy_path :
  log_states finished_state "job-1" =
    [("", "SUBMITTED"); ("t1", "PENDING"); ("t2", "PENDING"); ("", "QUEUED");
     ("t1", "DISPATCHED"); ("", "RUNNING"); ("t1", "RUNNING"); ("t1", "SUCCEEDED");
     ("t2", "DISPATCHED"); ("t2", "RUNNING"); ("t2", "SUCCEEDED"); ("", "SUCCEEDED")] ∧
  calls_of finished_state = [("t1", "w1", 1); ("t2", "w1", 1)] ∧
  job_now finished_state "job-1" = Some (JobCompleted, JobStateSucceeded).
Proof. split_and!; vm_compute; reflexivity. Qed.

(** ** A worker that is at capacity *)

(** When the worker answers that it is at capacity, [executeTask] records the
    task as FAILED before [executeTaskWithRetry] tries again, and the lifecycle
    graph does not let a FAILED task be claimed: a durable task is called once,
    whatever [MaxDispatchAttempts] says. *)
Definition busy_env : Env := env_with (λ _, None) (fails_with (EText "worker at capacity")).

Example capacity_conflict_not_retried :
  MaxDispatchAttempts cfg0 = 3 ∧
  isDispatchCapacityConflict (Some (EText "worker at capacity")) = true ∧
  calls_of (submit_run busy_env) = [("t1", "w1", 1); ("t2", "w1", 1)] ∧
  job_now (submit_run busy_env) "job-1" = Some (JobFailed, JobStateFailed).
Proof. split_and!; vm_compute; reflexivity. Qed.

(** ** Resuming a job that waits for a human *)

(** The tasks of a job that pauses are recorded as FAILED.  Resuming it with a
    context resets them to PENDING in memory only, so their next dispatch is
    recorded after FAILED: the history no longer replays, and while the job is
    not finished (here it pauses a second time) a scheduler that starts on this
    store cannot recover. *)
Definition pause_env : Env :=
  env_with (λ _, None) (fails_with (EText "human interaction pending")).
Definition answer : gmap string Value := {[ "answer" := VString "yes" ]}.
Definition resumed_state : Sched MemStore :=
  after (ResumeAwaitingHumanJob cfg0 pause_env "job-1" answer) (submit_run pause_env).

Example resume_breaks_replay :
  job_now (submit_run pause_env) "job-1" = Some (JobAwaitingHuman, JobStateAwaitingHuman) ∧
  job_now resumed_state "job-1" = Some (JobAwaitingHuman, JobStateAwaitingHuman) ∧
  result_of (RecoverFromTransitions cfg0 good_env) (restart resumed_state) =
    Some (Some (EReplayJob "job-1"
      (EText "illegal task transition during replay for task t1: FAILED -> DISPATCHED"))).
Proof. split_and!; vm_compute; reflexivity. Qed.

(** ** A context that ends while a stage runs *)

(** A task that fails once the stage's context is done may drop its error (the
    [select] of the task's goroutine has two ready cases); the stage and the
    job are then reported as completed. *)
Definition cancelled_env : Env :=
  env_with (λ n, if (n <? 30)%nat then None else Some (EText "context canceled"))
    (fails_with (EText "boom")).

Example cancelled_failure_completes :
  calls_of (submit_run cancelled_env) = [("t1", "w1", 1)] ∧
  job_now (submit_run cancelled_env) "job-1" = Some (JobCompleted, JobStateRunning).
Proof. split_and!; vm_compute; reflexivity. Qed.

(** ** A requeue between the two halves of a submission *)

(** With one slot: a first job is dequeued, the submission of a second job
    reserves the slot, the first job is requeued by a scheduler that is not the
    leader, and the second job finds the queue full. *)
Definition cfg_one : SchedulerConfig :=
  ConfigOps.Validate (mkConfig 0 0 true 1 0 0 0 0 3 false 0 0 0 0 false 0 0 0 true true 0 true 0 0 "" 0 0 0).
Definition job_named (id : string) : Job := mkJob id id [] [] JobPending "" 1 1 None.
Definition two_jobs : Sched MemStore :=
  set_queue [0%nat] {[ "a" ]}
    (set_jobs {[ "a" := 0%nat ]}
      (set_heap {[ 0%nat := job_named "a"; 1%nat := job_named "b" ]} sched0)).
Definition dequeued_reserved : Sched MemStore :=
  after (submit_reserve cfg_one 1)
    (after (markJobDequeued 0) (set_queue [] (sc_queuedJobs two_jobs) two_jobs)).

Example requeue_takes_reserved_slot :
  JobQueueSize cfg_one = 1 ∧
  sc_pendingEnqueue dequeued_reserved = 1 ∧
  result_of (submit_commit cfg_one 1) dequeued_reserved = Some true ∧
  result_of (submit_commit cfg_one 1) (after (requeueJob cfg_one good_env 0) dequeued_reserved) =
    Some false.
Proof. split_and!; vm_compute; reflexivity. Qed.

(** ** Stale capacity data *)

(** A worker with fresh data that is overcommitted by two slots is not seen as
    a candidate, and a worker with stale data is chosen, although the rule in
    [selectNodeByCapacity] is to fail when every fresh worker is full. *)
Definition overcommitted : NodeState :=
  mkNodeState 0 0
    {[ "w1" := mkCap 0 6 4 (10 ^ 12); "w2" := mkCap 0 0 4 0 ]} ∅ None.

Example stale_node_chosen :
  fresh cfg0 (10 ^ 12) overcommitted "w1" = true ∧ avail cfg0 (10 ^ 12) overcommitted "w1" = -2 ∧
  fresh cfg0 (10 ^ 12) overcommitted "w2" = false ∧
  (selectNodeByCapacity cfg0 (λ _, 10 ^ 12) [worker "w1"; worker "w2"] overcommitted).1 =
    Some (Some (worker "w2")).
Proof. split_and!; vm_compute; reflexivity. Qed.

(** A round-robin counter that has wrapped around is a negative index. *)
Definition two_fresh (i : Z) : NodeState :=
  mkNodeState 0 i {[ "w1" := mkCap 0 0 4 (10 ^ 12); "w2" := mkCap 0 0 4 (10 ^ 12) ]} ∅ None.
Definition picked (i : Z) : option (option NodeInfo) * NodeState :=
  selectNodeByCapacity cfg0 (λ _, 10 ^ 12) [worker "w1"; worker "w2"] (two_fresh i).

Example wrapped_counter_panics :
  (picked 0).1 = Some (Some (worker "w1")) ∧ (picked i64_max).1 = Some (Some (worker "w2")) ∧
  ns_nodeIndex (picked i64_max).2 = -9223372036854775808 ∧
  (picked (-9223372036854775807)).1 = None.
Proof. split_and!; vm_compute; reflexivity. Qed.

(** ** Ids the store has a log of *)

(** A finished job is not recovered, so after a restart its id is accepted again.
    The new records are numbered from one and fall between the old ones: the job is
    QUEUED in memory, its history replays as SUCCEEDED, and the dispatch loop, which
    refreshes a job from its history before it executes it, drops it. *)
Definition resubmitted : Sched MemStore :=
  after (submit_new cfg0 good_env demo_job)
    (after (RecoverFromTransitions cfg0 good_env) (restart finished_state)).

(** The state a job replays to, or why it does not replay. *)
Definition replay_of (s : Sched MemStore) (id : string) : result string :=
  match (ReplayJobState (λ _, None) 0 (sc_store s) id).1 with
  | inl e => inl e
  | inr r => inr (dj_CurrentState (rs_Job r))
  end.

Example resubmission_is_lost :
  result_of (submit_new cfg0 good_env demo_job)
    (after (RecoverFromTransitions cfg0 good_env) (restart finished_state)) = Some None ∧
  job_now resubmitted "job-1" = Some (JobPending, JobStateQueued) ∧
  replay_of resubmitted "job-1" = inr JobStateSucceeded ∧
  sc_queue (after (run_once cfg0 good_env) resubmitted) = [] ∧
  calls_of (after (run_once cfg0 good_env) resubmitted) = [].
Proof. split_and!; vm_compute; reflexivity. Qed.

(** A leader that meets a running job it does not know, none of whose tasks has
    started, marks it as failed; it does not continue the job's sequence, so the
    record falls between the old ones and the history no longer replays. *)
Definition orphaned : Sched MemStore :=
  after (recordJobTransition good_env 0 TransitionJobRunning JobStateRunning "") submitted_state.
Definition quarantined : Sched MemStore :=
  after (reconcileDurableQueuedJobsOnce cfg0 good_env ReconcileModeLeader) (restart orphaned).

Example leader_breaks_sequence :
  replay_of orphaned "job-1" = inr JobStateRunning ∧
  job_now quarantined "job-1" = Some (JobFailed, JobStateFailed) ∧
  log_states quarantined "job-1" =
    [("", "SUBMITTED"); ("", "FAILED"); ("t1", "PENDING"); ("t2", "PENDING"); ("", "QUEUED");
     ("", "RUNNING")] ∧
  replay_of quarantined "job-1" =
    inl (EText "illegal job transition during replay for job job-1: SUBMITTED -> FAILED").
Proof. split_and!; vm_compute; reflexivity. Qed.

(** ** Compiling a graph *)

(** A diamond whose branches are a plain node and a parallel node. *)
Definition leaf (id : string) : Node := Leaf (NewBaseNode id "function").
Definition diamond_nodes : list Node :=
  [leaf "a"; leaf "b"; NewParallelNode "c" [leaf "c1"; leaf "c2"]; leaf "d"].
Definition diamond_edges : list GraphEdge :=
  [DirectEdge "a" "b"; DirectEdge "a" "c"; DirectEdge "b" "d"; DirectEdge "c" "d"].
Definition diamond : Graph :=
  let g := NewGraph "diamond" "g-1" in
  let g := foldl (λ g n, (AddNode (Some n) g).2) g diamond_nodes in
  let g := foldl (λ g e, (AddEdge (Some e) g).2) g diamond_edges in
  (AddFinish "d" (SetEntry "a" g).2).2.

(** Maps iterated in the order of the model, and numbered ids. *)
#[export] Instance in_order : MapOrder := {| range _ _ l := l; range_perm _ _ _ := reflexivity _ |}.
Definition numbered (n : nat) : string := "id-" +:+ pretty n.

Definition compiled_agents (g : Graph) : option (list (list string * list string)) :=
  match CompileWithOptions numbered g None "" 1 1 0 with
  | Some (inr job, _) =>
      Some ((λ st, (t_AgentID <$> omap id (s_Tasks st), s_Dependencies st)) <$> omap id (j_Stages job))
  | _ => None
  end.

Example diamond_compiles :
  compiled_agents diamond =
    Some [(["a"], []); (["b"; "c1"; "c2"], ["id-1"]); (["d"], ["id-3"])].
Proof. vm_compute. reflexivity. Qed.
