(* ===== verification/Witnesses.v ===== *)
(** * Witnesses: the theorems at concrete inputs

    Each theorem with hypotheses is applied to a concrete scheduler, store or
    record, mostly the ones of [Scenarios], where its hypotheses are checked by
    evaluation. *)

From Stdlib Require Import Ascii.
From stdpp Require Import base gmap strings list fin_maps relations pretty.
From S2P Require Import Prelude StateMachine Store Replay Jobs Config Leadership Nodes Graph Compiler Toposort Compiled Scheduler Lifecycle SchedLogic Frames Coherence Reachable Dispatch Admission Totality Recovery Durable Scenarios.

Open Scope Z_scope.

(** ** The demonstration run *)

Ltac by_eval := by vm_compute.

Definition store0 : MemStore := Mem.NewInMemoryTransitionStore.
Definition store_of (s : Sched MemStore) : MemStore := default store0 (sc_store s).
Definition alive : nat → option error := λ _, None.

(** The only positions of the demonstration job are its two tasks. *)
Lemma demo_tasks i k t :
  job_task demo_job i k = Some t → i = 0%nat ∧ (k = 0%nat ∧ t = task "t1" ∨ k = 1%nat ∧ t = task "t2").
Proof.
  destruct i as [|i]; [|by destruct i].
  destruct k as [|[|k]]; simpl; intros [= <-]; auto.
Qed.

Lemma demo_submittable : submittable demo_job sched0.
Proof.
  split.
  - intros i k t i' k' t' H H' Hid.
    apply demo_tasks in H as (-> & [[-> ->]|[-> ->]]);
      apply demo_tasks in H' as (-> & [[-> ->]|[-> ->]]); by auto.
  - intros i k t (_ & [[_ ->]|[_ ->]])%demo_tasks; by left.
  - intros st [= <-]. by_eval.
Qed.

Lemma demo_submit : submit_new cfg0 good_env demo_job sched0 = Some (None, submitted_state).
Proof. by_eval. Qed.

Lemma demo_run : run_once cfg0 good_env submitted_state = Some (true, finished_state).
Proof. by_eval. Qed.

Lemma demo_reach : rtc (step cfg0 good_env) sched0 finished_state.
Proof.
  eapply rtc_l; [eapply step_submit; [apply demo_submittable|apply demo_submit]|].
  apply rtc_once. eapply step_run, demo_run.
Qed.

Lemma store0_below : store_below 0 store0.
Proof. split_and!; [apply NewInMemoryTransitionStore_wf|intros id; constructor|done]. Qed.

(** ** The theorems about reachable schedulers *)

Lemma reachable_replays_witness :
  ∃ r, (ReplayJobState alive 0 (Some (store_of finished_state)) "job-1").1 = inr r ∧
    Some (dj_CurrentState (rs_Job r)) = j_LifecycleState <$> sc_heap finished_state !! 1%nat.
Proof.
  destruct (reachable_replays cfg0 good_env 0 store0 finished_state (store_of finished_state)
    "job-1" 1 (default demo_job (sc_heap finished_state !! 1%nat)) alive 0)
    as (r & Hr & Hj & _); [apply store0_below|apply demo_reach|by_eval|by_eval|by_eval|by_eval|done|done|].
  exists r. split; [exact Hr|].
  destruct Hj as [->|[_ Hnone]]; [by_eval|exfalso; revert Hnone; vm_compute; discriminate].
Defined.

Lemma terminal_states_final_witness :
  let before := [TaskStatePending; TaskStateDispatched; TaskStateRunning] in
  let later := [] in
  task_states "t1" (job_log (store_of finished_state) "job-1") =
    before ++ TaskStateSucceeded :: later ∧ Forall (eq TaskStateSucceeded) later.
Proof.
  destruct (terminal_states_final cfg0 good_env 0 store0 finished_state (store_of finished_state)
    "job-1" 1) as [_ Ht]; [apply store0_below|apply demo_reach|by_eval|by_eval|by_eval|].
  intros before later.
  assert (task_states "t1" (job_log (store_of finished_state) "job-1") =
    before ++ TaskStateSucceeded :: later) as H by by_eval.
  split; [exact H|]. by apply (Ht "t1" before TaskStateSucceeded later).
Defined.

Lemma demo_new : new_job_ok demo_job.
Proof.
  split; [done|by right| |].
  - repeat (constructor; [eexists; split; [done|]|]); repeat (constructor; [by eexists|]); constructor.
  - intros i k t (_ & [[_ ->]|[_ ->]])%demo_tasks; by auto.
Qed.

Lemma submit_durable_witness :
  ∃ st' j' r, sc_store submitted_state = Some st' ∧ sc_heap submitted_state !! 0%nat = Some j' ∧
    j_LifecycleState j' = JobStateQueued ∧
    (ReplayJobState alive 0 (Some st') "job-1").1 = inr r ∧
    dj_CurrentState (rs_Job r) = JobStateQueued.
Proof.
  destruct (submit_durable good_env (λ _, eq_refl) (λ n, ltac:(simpl; lia)) cfg0 0 good_env store0 demo_job
    sched0 store0 submitted_state alive 0) as (st' & j' & r & Hst & _ & Hj & Hq & Hr & Hrq & _);
    [apply store0_below|apply rtc_refl|apply demo_submittable|by_eval|by_eval|apply demo_new|by_eval|done|
     apply demo_submit|].
  exists st', j', r. split_and!; [exact Hst|exact Hj|exact Hq|exact Hr|exact Hrq].
Defined.

(** ** Executing jobs *)

Definition executed_state : Sched MemStore := after (executeJob cfg0 good_env 0) submitted_state.
Lemma demo_execute : executeJob cfg0 good_env 0 submitted_state = Some (tt, executed_state).
Proof. by_eval. Qed.

Lemma calls_claimed_witness :
  length (sc_trace executed_state) = 2%nat ∧
  ∃ evs, sc_trace executed_state = sc_trace submitted_state ++ evs ∧
    Forall (has_claim executed_state) evs.
Proof.
  split; [by_eval|]. apply (calls_claimed cfg0 good_env 0 submitted_state executed_state tt);
    [apply demo_execute|vm_compute; eexists; reflexivity].
Defined.

Lemma calls_authorised_witness :
  length (sc_trace finished_state) = 2%nat ∧
  ∃ evs, sc_trace finished_state = sc_trace submitted_state ++ evs ∧
    Forall (granted (provider submitted_state) (sc_tick submitted_state) (sc_tick finished_state)) evs.
Proof.
  split; [by_eval|]. apply (calls_authorised cfg0 good_env submitted_state finished_state true).
  apply demo_run.
Defined.

Lemma executeJob_total_witness :
  ∃ s', executeJob cfg0 good_env 0 submitted_state = Some (tt, s') ∧ 0 ≤ ns_nodeIndex (sc_nodes s').
Proof.
  apply (executeJob_total cfg0 good_env 0 0 (default demo_job (sc_heap submitted_state !! 0%nat))
    (default demo_job (sc_heap submitted_state !! 0%nat)));
    [|by_eval|by_eval| |done|by_eval|by_eval].
  - assert (sc_jobs submitted_state = {[ "job-1" := 0%nat ]}) as -> by by_eval.
    intros id k [<- <-]%lookup_singleton_Some. vm_compute. eexists. reflexivity.
  - vm_compute. repeat (constructor; [eexists; split; [reflexivity|]|]);
      repeat (constructor; [by eexists|]); constructor.
Defined.

Definition busy_call : M MemStore (option error) :=
  executeTaskWithRetry cfg0 busy_env (mkRef 0 0 0) (worker "w1") [worker "w1"].
Definition busy_state : Sched MemStore := after busy_call submitted_state.
Definition busy_result : option error := mjoin (result_of busy_call submitted_state).

Lemma task_calls_bounded_witness :
  ∃ evs, sc_trace busy_state = sc_trace submitted_state ++ evs ∧
    Z.of_nat (length evs) ≤ 3.
Proof.
  destruct (task_calls_bounded cfg0 busy_env (mkRef 0 0 0) (default (task "") (task_at submitted_state (mkRef 0 0 0)))
    (worker "w1") [worker "w1"] submitted_state busy_result busy_state) as (evs & Ht & Hn & _);
    [by_eval|by_eval|].
  exists evs. split; [exact Ht|exact Hn].
Defined.

Lemma slots_balanced_witness :
  reserved (sc_nodes executed_state) "w1" = reserved (sc_nodes submitted_state) "w1".
Proof.
  apply (slots_balanced cfg0 good_env 0 submitted_state tt executed_state); [apply demo_execute|].
  intros id. unfold reserved.
  by assert (ns_nodeCapacity (sc_nodes submitted_state) = ∅) as -> by by_eval.
Defined.

(** ** Admission *)

(** A submission in flight: one slot is reserved, the queue is empty. *)
Definition one_job : Sched MemStore :=
  set_next 1 (set_heap (<[0%nat := demo_job]> (sc_heap sched0)) sched0).
Definition one_reserved : Sched MemStore := after (submit_reserve cfg0 0) one_job.

Lemma no_over_admission_witness :
  ∃ s', submit_commit cfg0 0 one_reserved = Some (true, s') ∧
        sc_queue s' = sc_queue one_reserved ++ [0%nat].
Proof.
  destruct (no_over_admission cfg0 sched0 one_reserved [(0%nat, "job-1")]) as [_ H];
    [by_eval|by_eval|by_eval|by_eval| |apply (H 0%nat "job-1"); by left].
  eapply rtc_l; [apply (adm_new cfg0 demo_job); by_eval|].
  apply rtc_once. apply (adm_reserve cfg0 0 demo_job); by_eval.
Defined.

Lemma submit_outcome_witness :
  sc_queue (after (SubmitJobWithContext cfg0 good_env 0) one_job) = [0%nat].
Proof.
  destruct (submit_outcome cfg0 good_env 0 demo_job one_job None
    (after (SubmitJobWithContext cfg0 good_env 0) one_job)) as (_ & _ & _ & _ & H);
    [by_eval|by_eval|by_eval|]. rewrite H. by_eval.
Defined.

(** A scheduler whose leadership provider says that another one leads. *)
Definition follower : LeadershipProvider :=
  mkProvider (λ _, inr (mkAuthority false "7" "other" "")) None.
Definition follower_state : Sched MemStore := set_leadership (Some follower) submitted_state.
Lemma follower_never : never_leader follower_state.
Proof. by intros n a [= <-]. Qed.

Lemma follower_requeues_witness :
  requeued follower_state (after (run_once cfg0 good_env) follower_state) [0%nat].
Proof.
  apply (follower_requeues cfg0 good_env 0 [] follower_state true);
    [by_eval|by_eval|apply follower_never|by_eval].
Defined.

Definition demo_durable : DurableJobRecord :=
  default (mkDurableJob "" "" "" 0 0 0) (ms_jobs (store_of submitted_state) !! "job-1").
Lemma quarantine_needs_leadership_witness :
  requeued follower_state
    (after (failDurableQueuedJobForReconcile good_env demo_durable "corrupt") follower_state) [0%nat].
Proof.
  apply (quarantine_needs_leadership good_env demo_durable "corrupt" follower_state);
    [apply follower_never|by_eval].
Defined.

(** ** Recovery, reconciliation, cleanup and start *)

(** The store after the submission, seen by a new process. *)
Definition restarted_state : Sched MemStore := restart submitted_state.
Definition recovered_state : Sched MemStore := after (RecoverFromTransitions cfg0 good_env) restarted_state.

Lemma restarted_fresh : fresh_next restarted_state.
Proof.
  intros l. assert (sc_heap restarted_state = ∅) as -> by by_eval.
  rewrite lookup_empty. by intros [? ?].
Qed.

Lemma submitted_inv : Inv 0 submitted_state.
Proof.
  apply (step_inv cfg0 good_env 0 sched0); [|by_eval|apply new_scheduler_inv, store0_below].
  eapply step_submit; [apply demo_submittable|apply demo_submit].
Qed.

Lemma submitted_coh : coh_store 0 submitted_state (store_of submitted_state).
Proof.
  assert (sc_store submitted_state = Some (store_of submitted_state)) as Hs by by_eval.
  pose proof (inv_coh _ _ submitted_inv) as H. unfold coh in H. rewrite Hs in H. exact H.
Qed.

Lemma recovery_complete_witness :
  recovers restarted_state recovered_state ∧
  ∃ l j, sc_jobs recovered_state !! "job-1" = Some l ∧ sc_heap recovered_state !! l = Some j ∧
    from_store (store_of submitted_state) "job-1" j.
Proof.
  destruct (recovery_complete cfg0 good_env restarted_state (store_of submitted_state) recovered_state)
    as (H & _ & Hall); [apply restarted_fresh|by_eval|apply (co_wf _ _ _ submitted_coh)|by_eval|].
  split; [exact H|]. destruct (Hall "job-1" demo_durable) as (l & Hl & _ & _ & Hj); [by_eval|by_eval|].
  destruct Hj as (j & Hj & Hfs); [by_eval|]. exists l, j. split_and!; [exact Hl|exact Hj|exact Hfs].
Defined.

Definition reconciled_state : Sched MemStore :=
  after (reconcileDurableQueuedJobsOnce cfg0 good_env ReconcileModeFollower) restarted_state.

Lemma submitted_history : history_ok "job-1" (job_log (store_of submitted_state) "job-1").
Proof.
  destruct (co_view _ _ _ submitted_coh "job-1" 0) as (j & _ & Hj); [by_eval|]. apply Hj.
Qed.

Lemma follower_reconciles_witness :
  readonly restarted_state reconciled_state ∧ is_Some (sc_jobs reconciled_state !! "job-1").
Proof.
  destruct (follower_reconciles cfg0 good_env (λ _, eq_refl) restarted_state (store_of submitted_state)
    None reconciled_state) as (Hr & _ & H); [by_eval|apply submitted_coh|by_eval|by_eval|].
  split; [exact Hr|]. apply (H "job-1" demo_durable); [by_eval|by_eval|done|].
  apply submitted_history.
Defined.

(** An hour after the retention period of a job that is done. *)
Definition long_after : Time := JobRetentionTTL cfg0 + 10 ^ 12.

Lemma cleanup_exact_witness :
  sc_jobs (after (cleanupTerminalJobsOnce cfg0 long_after) finished_state) !! "job-1" = None ∧
  sc_store (after (cleanupTerminalJobsOnce cfg0 long_after) finished_state) = sc_store finished_state.
Proof.
  destruct (cleanup_exact cfg0 long_after finished_state 1
    (after (cleanupTerminalJobsOnce cfg0 long_after) finished_state))
    as (Hj & _ & _ & _ & _ & Hs); [by_eval|by_eval|].
  split; [|exact Hs].
  destruct (sc_jobs (after _ _) !! "job-1") as [l|] eqn:Hl; [|done].
  apply Hj in Hl as [Hl Hp]. revert Hp.
  assert (sc_jobs finished_state !! "job-1" = Some 1%nat) as Hl' by by_eval.
  rewrite Hl' in Hl. injection Hl as <-. vm_compute. discriminate.
Defined.

Definition started_state : Sched MemStore := after (Start cfg0 good_env) restarted_state.
Lemma demo_start : Start cfg0 good_env restarted_state = Some (tt, started_state).
Proof. by_eval. Qed.

Lemma start_outcome_witness :
  sc_recovering started_state = false ∧ is_Some (sc_leadership started_state).
Proof.
  assert (sc_started restarted_state || sc_recovering restarted_state ||
    sc_stopRequested restarted_state = false) as Hc by by_eval.
  pose proof (start_outcome cfg0 good_env restarted_state started_state demo_start) as H.
  rewrite Hc in H. destruct H as (Hr & _ & Hl & _). split; [exact Hr|exact Hl].
Defined.

(** ** Leadership *)

Lemma scope_composition_witness :
  IsValidScope "tenant:a" = true ∧
  IsValidScope ("tenant:a" +:+ String ";"%char "region:eu") =
  IsValidScope "tenant:a" && IsValidScope "region:eu".
Proof. split; [by_eval|]. apply (scope_composition "tenant:a" "region:eu"); discriminate. Defined.

Lemma worker_fencing_witness :
  let get (_ : string) : result (list EtcdKV) := inr [mkKV "leader-1" 42] in
  let request := mkDispatch "leader-1" "42" "" in
  ValidateAuthority get "election" request = None ∧
  da_Epoch request = da_Epoch (mkDispatch "leader-1" "42" "tenant:a").
Proof.
  intros get request. split; [by_eval|].
  apply (worker_fencing get "election" request); by_eval.
Defined.

(** ** Nodes *)

Definition two_workers : NodeState :=
  mkNodeState 0 0 {[ "w1" := mkCap 0 3 4 (10 ^ 12); "w2" := mkCap 0 1 4 (10 ^ 12) ]} ∅
    (Some (Affinity.NewAffinityMap (AffinityTTL cfg0))).
Definition noon : nat → Time := λ _, 10 ^ 12.

Lemma capacity_selection_witness :
  (selectNodeByCapacity cfg0 noon [worker "w1"; worker "w2"] two_workers).1 = Some (Some (worker "w2")) ∧
  0 < avail cfg0 (10 ^ 12) two_workers "w2".
Proof.
  pose proof (capacity_selection cfg0 noon (10 ^ 12) (λ _, eq_refl) [worker "w1"; worker "w2"]
    two_workers ltac:(by_eval) ltac:(by_eval)) as H.
  assert ((selectNodeByCapacity cfg0 noon [worker "w1"; worker "w2"] two_workers).1 = Some (Some (worker "w2")))
    as Hs by by_eval.
  rewrite Hs in H. split; [exact Hs|apply H].
Defined.

Lemma sticky_selection_witness :
  good_selection cfg0 (10 ^ 12) two_workers "k" [worker "w1"; worker "w2"]
    (selectNodeForTask cfg0 noon "k" [worker "w1"; worker "w2"] two_workers).1
    (selectNodeForTask cfg0 noon "k" [worker "w1"; worker "w2"] two_workers).2.
Proof.
  apply (sticky_selection cfg0 noon (10 ^ 12) (λ _, eq_refl) two_workers "k"); by_eval.
Defined.

Lemma capacity_table_ok_witness :
  caps_ok cfg0 (UpdateNodeCapacityAt cfg0 noon "w1" 9 (10 ^ 9) (10 ^ 12) two_workers).2.
Proof.
  apply (capacity_table_ok cfg0 noon ltac:(by_eval) "w1" two_workers).
  repeat (apply map_Forall_insert_2; [by_eval|]). apply map_Forall_empty.
Defined.

(** ** Jobs and histories *)

Definition failed_task : Task :=
  mkTask "f" "" "" "a" "a" None None "k" JobFailed "" 1.
Lemma stage_status_witness :
  deriveStageStatus [task "t1"; failed_task] =
  deriveStageStatus [failed_task; task "t1"].
Proof.
  apply (stage_status [task "t1"; failed_task] [failed_task; task "t1"]).
  apply Permutation_swap.
Defined.

Definition replayed : ReplayedJobState :=
  match (ReplayJobState alive 0 (Some (store_of finished_state)) "job-1").1 with
  | inr r => r
  | inl _ => replay_init "" [] []
  end.

Lemma recovered_job_exact_witness :
  isSafeForQueuedResume (Some (buildRecoveredRuntimeJob_ordered (λ _, None) replayed
    (map_values (rs_Tasks replayed)))) = allReplayedTasksPending (rs_Tasks replayed).
Proof. by apply (recovered_job_exact (λ _, None) replayed (map_values (rs_Tasks replayed))). Defined.

Definition demo_log : list TransitionRecord := job_log (store_of submitted_state) "job-1".

Lemma replay_accepts_iff_witness :
  ∃ st, (replayJobStateFromData alive 0 "job-1" demo_log []).1 = inr st.
Proof.
  apply (replay_accepts_iff alive 0 "job-1" demo_log []); [done|apply submitted_history].
Defined.

Lemma replay_reconstructs_witness :
  dj_CurrentState (rs_Job replayed) =
    last_from "" (job_states (job_log (store_of finished_state) "job-1")).
Proof.
  destruct (replay_reconstructs alive 0 "job-1" (job_log (store_of finished_state) "job-1")
    (map_values (ms_tasks (store_of finished_state))) replayed) as (_ & H & _); [by_eval|exact H].
Defined.

Lemma job_success_path_witness :
  ∃ l1 l2 l3 l4, job_states (job_log (store_of finished_state) "job-1") =
    l1 ++ JobStateQueued :: l2 ++ JobStateRunning :: l3 ++ JobStateSucceeded :: l4.
Proof.
  apply (job_success_path (job_states (job_log (store_of finished_state) "job-1"))); [by_eval|].
  vm_compute. repeat constructor.
Defined.

Lemma lifecycle_graphs_witness :
  CanTransitionTaskState TaskStateFailed TaskStateDispatched = false.
Proof.
  destruct (CanTransitionTaskState _ _) eqn:H; [|done].
  destruct (lifecycle_graphs TaskStateFailed TaskStateDispatched) as (_ & _ & _ & Ht).
  apply Ht in H; by_eval.
Defined.

Definition claim_t1 : TaskDispatchClaim :=
  mkClaim "t1" "job-1" "s1" "w2" 2 99.
Definition demo_record : TransitionRecord :=
  mkTransition 9 TransitionEntityJob TransitionJobSucceeded "job-1" "" JobStateRunning
    JobStateSucceeded "" 0 "" 99.
Lemma store_invariant_witness : store_wf (Mem.ClaimTaskDispatch claim_t1 (store_of submitted_state)).2.
Proof.
  apply (store_invariant (store_of submitted_state) demo_record
    demo_durable (default zero_DurableTask (ms_tasks (store_of submitted_state) !! "t1")) claim_t1).
  apply submitted_coh.
Defined.

(** ** Graphs *)

Lemma diamond_built : built diamond.
Proof. repeat constructor. Qed.

Lemma numbered_inj a b : numbered a = numbered b → a = b.
Proof. unfold numbered. intros H%(inj (String.append _)). by apply (inj pretty). Qed.

Lemma topological_sort_witness : ~ tc (edge diamond) "a" "a".
Proof.
  destruct (topological_sort diamond diamond_built) as (res & Hres & Hout).
  assert (topologicalSort diamond = Some (inr [["a"]; ["b"; "c"]; ["d"]])) as H by by_eval.
  rewrite H in Hres. injection Hres as <-. apply Hout.
Defined.

Lemma compile_outcome_witness :
  ∃ job n plan, CompileWithOptions numbered diamond None "" 1 1 0 = Some (inr job, n) ∧
    follows diamond None "" plan job.
Proof.
  destruct (compile_outcome numbered diamond None "" 1 1 0 diamond_built) as (res & n & Hres & Hout).
  destruct res as [err|job].
  - exfalso. revert Hres. vm_compute. discriminate.
  - destruct Hout as (_ & _ & plan & HF). exists job, n, plan. split; [exact Hres|exact HF].
Defined.

Definition compiled_diamond : Job :=
  match CompileWithOptions numbered diamond None "" 1 1 0 with
  | Some (inr job, _) => job
  | _ => demo_job
  end.

Lemma compiled_submittable_witness : new_job_ok compiled_diamond ∧ submittable compiled_diamond sched0.
Proof.
  destruct (compiled_submittable numbered diamond None "" 1 1 0 compiled_diamond 9 diamond_built)
    as [Hok Hsub]; [apply numbered_inj|by intros a|by_eval|].
  split; [exact Hok|]. apply Hsub. intros st [= <-]. by_eval.
Defined.
