(* ===== verification/Runs.v ===== *)
(** * Concrete runs: graphs, policies, human answers, breakers

    Small systems evaluated by the definitions of the graph, policy, resilience
    and human-in-the-loop files: what the witnesses of their theorems run, and
    the behaviours the findings describe. *)

From stdpp Require Import base gmap strings list fin_maps pretty.
From S2P Require Import Prelude MemState Graph GraphExec Policy Breaker Limits Hitl.

Open Scope Z_scope.

(** ** A graph with a human node *)

Definition step_node (id : string) : Node := Leaf (NewBaseNode id "function").
Definition ask_node (id : string) : Node := Leaf (NewBaseNode id "human").

(** The nodes work on a map: a human node waits for an hour, beyond the limit for
    blocking; any other node leaves a mark under its id, except "flaky", which
    fails. *)
Definition demo_answer : HumanResponse := mkResponse "yes" "" 7.
Definition demo_human (id : string) : HumanNode := NewHumanNode id hour 0 0.
Definition demo_unmarshal (bytes : string) : result HumanResponse := inr demo_answer.

Definition demo_execute (n : Node) (w : gmap string Value) : gmap string Value * option NodeError :=
  if String.eqb (bn_nodeType (node_base n)) "human" then
    HumanNode_Execute demo_unmarshal (λ _, "1h0m0s") (demo_human (node_ID n)) ("req-" +:+ node_ID n) 1 TimedOut w
  else if String.eqb (node_ID n) "flaky" then
    (w, Some (mkNodeError None false (EText "dial: connection refused")))
  else (<[node_ID n := VBool true]> w, None).

#[export] Instance demo_world : World (gmap string Value) := {|
  node_Execute := demo_execute;
  requestIDFromState w := match w !! "_hitl_request_id" with Some (VString s) => s | _ => "" end;
  set_request_id r w := <["_hitl_request_id" := VString r]> w;
  Sprint v := match v with VString s => s | _ => "" end;
|}.

#[export] Instance demo_hitl : HitlState (gmap string Value) := {|
  DeserializeState _ := inr ∅;
  marshalGraphState _ := inr "state";
  set_pending id bytes w := <[pending_key id := VBytes bytes]> w;
  state_timeout _ := hour;
  marshal_response _ := inr "answer";
|}.

Definition graph_of (nodes : list Node) (edges : list GraphEdge) (entry finish : string) : Graph :=
  let g := NewGraph "demo" "g-1" in
  let g := foldl (λ g n, (AddNode (Some n) g).2) g nodes in
  let g := foldl (λ g e, (AddEdge (Some e) g).2) g edges in
  (AddFinish finish (SetEntry entry g).2).2.

Definition no_ctx : Ctx := λ _, None.

(** "start" leads to "ask", which leads to "end", and to "other". *)
Definition asking : Graph :=
  graph_of [step_node "start"; ask_node "ask"; step_node "other"; step_node "end"]
    [DirectEdge "start" "ask"; DirectEdge "start" "other"; DirectEdge "ask" "end"] "start" "end".

Definition asked := ExecuteWithResult asking no_ctx None (∅ : gmap string Value).
Definition paused_at_ask : PausedResult := mkPaused "req-ask" "ask" "" "" "".

Example asking_pauses :
  asked.1 = inr (Some paused_at_ask) ∧ (r_executed asked.2).*1 = ["start"; "ask"].
Proof. split; vm_compute; reflexivity. Qed.

(** Resuming is reported as a complete execution, and "other" has never run. *)
Definition resumed := ResumeFromPaused asking no_ctx None (r_world asked.2) (Some paused_at_ask).

Example resume_skips_branch :
  resumed.1 = inr None ∧ (r_executed resumed.2).*1 = ["end"] ∧
  r_world resumed.2 !! "other" = None ∧ g_edges asking !! "start" =
    Some [DirectEdge "start" "ask"; DirectEdge "start" "other"].
Proof. split_and!; vm_compute; reflexivity. Qed.

(** A node that ran before the pause runs again after it. *)
Definition joining : Graph :=
  graph_of [step_node "start"; step_node "left"; ask_node "ask"; step_node "end"]
    [DirectEdge "start" "left"; DirectEdge "left" "end"; DirectEdge "start" "ask"; DirectEdge "ask" "end"]
    "start" "end".

Example resume_repeats_node :
  let first := ExecuteWithResult joining no_ctx None (∅ : gmap string Value) in
  let second := ResumeFromPaused joining no_ctx None (r_world first.2) (Some paused_at_ask) in
  (r_executed first.2).*1 = ["start"; "left"; "end"; "ask"] ∧ (r_executed second.2).*1 = ["end"].
Proof. split; vm_compute; reflexivity. Qed.

(** ** Answers *)

Definition demo_registry : GraphRegistry := RegisterExecutableGraph asking "v1" (mkRegistry ∅ ∅).
Definition demo_checkpoint : ExecutionCheckpoint :=
  mkCheckpoint "g-1" "v1" "ask" "state" "req-ask" 0 (25 * hour) 0 "" 0.
Definition resumption_job : ResumptionJob := mkResumption "job-1" "req-ask" 0 "" demo_answer.
Definition quiet_attempt : Attempt := mkAttempt 100 None no_ctx None None.

(** The worker leaves the human's answer in the state for the human node, which
    is not executed again: the nodes after it do not see the answer. *)
Example answer_not_processed :
  let '(res, w, ran) := resumeFromCheckpoint demo_registry quiet_attempt demo_checkpoint
    (set_pending "ask" "answer" (∅ : gmap string Value)) in
  res = inr None ∧ ran.*1 = ["end"] ∧ w !! "human_response" = None ∧
  w !! "_hitl_pending:ask" = Some (VBytes "answer").
Proof. vm_compute. split_and!; reflexivity. Qed.

(** A job whose resumption fails in a way worth retrying is gone from the
    in-memory queue, and its request counts as processed: posting the answer
    again is acknowledged and nothing is queued, while the checkpoint waits. *)
Definition failing : Graph :=
  graph_of [step_node "start"; ask_node "ask"; step_node "flaky"]
    [DirectEdge "start" "ask"; DirectEdge "ask" "flaky"] "start" "flaky".
Definition failing_registry : GraphRegistry := RegisterExecutableGraph failing "v1" (mkRegistry ∅ ∅).

Definition demo_hmac (secret payload : string) : string := secret +:+ payload.
Definition demo_callback (now : Z) : Callback :=
  mkCallback "req-ask" 100 (demo_hmac "s" (callback_payload "req-ask" 100)) demo_answer 110 now None false.
Definition empty_inbox : Inbox Ttl := mkInbox (mkQueue 10 []) ∅.
Definition hitl_sys (idem : Ttl) : HitlSys Ttl := mkHitl {[ "req-ask" := demo_checkpoint ]} idem [] [].

Definition posted : HttpStatus * Inbox Ttl := HandleHumanCallback demo_hmac "s" (demo_callback 0) empty_inbox.
Definition taken : option (ResumptionJob * SimpleInMemoryQueue) := Dequeue (ib_queue posted.2).
Definition failed_attempt : option error * HitlSys Ttl :=
  match taken with
  | Some (job, _) => (processJob failing_registry quiet_attempt job (hitl_sys (ib_idem posted.2))).1
  | None => (None, hitl_sys ∅)
  end.
Definition posted_again : HttpStatus * Inbox Ttl :=
  HandleHumanCallback demo_hmac "s" (demo_callback (6 * minute))
    (mkInbox (match taken with Some (_, q) => q | None => mkQueue 10 [] end) (hs_idem failed_attempt.2)).

Example retry_is_lost :
  posted.1 = StatusAccepted ∧ Error <$> failed_attempt.1 =
    Some "resumption failed with retryable error: dial: connection refused" ∧
  posted_again.1 = StatusOK ∧ q_jobs (ib_queue posted_again.2) = [] ∧
  cp_FailureCount <$> hs_checkpoints failed_attempt.2 !! "req-ask" = Some 1.
Proof. split_and!; vm_compute; reflexivity. Qed.

(** Two calls for one answer that both ask whether it was processed before the
    first of them has a job queued, processed and its lock given back: the second
    queues a second job, and a worker finds no checkpoint for it. *)
Definition callback : Callback := demo_callback 0.
Definition queued_job : ResumptionJob :=
  mkResumption "inmem-0" "req-ask" 100 (demo_hmac "s" (callback_payload "req-ask" 100)) demo_answer.
Definition at_rest : HitlWorld := mkHitlWorld 0 empty_inbox [] [] [].
Definition both_asked : HitlWorld :=
  mkHitlWorld 0 empty_inbox [(callback, AtLock false); (callback, AtLock false)] [] [].
Definition first_done : HitlWorld :=
  worker_request queued_job [] [] Marked (worker_request queued_job [] [] Took
    (set_hw_workers [(queued_job, Took)] (set_hw_inbox (mkInbox (mkQueue 10 []) {["processing:req-ask" := ProcessingLockTTL]})
      (call_request callback [] [(callback, AtLock false)] (AtQueue false)
        (call_request callback [] [(callback, AtLock false)] (AtLock false) both_asked))))).
Definition second_done : HitlWorld :=
  call_request callback [] [] (AtQueue false) (call_request callback [] [] (AtLock false) first_done).

Lemma rtc_reflexive_eq {A} (R : relation A) x y : x = y → rtc R x y.
Proof. by intros ->. Qed.

Lemma second_job_run : rtc (hitl_step demo_hmac "s") at_rest second_done.
Proof.
  eapply rtc_l; [by apply (step_arrive _ _ callback)|].
  eapply rtc_l; [by apply (step_arrive _ _ callback)|].
  eapply rtc_l; [by apply (step_call _ _ [] callback AtAsk [(callback, AtAsk)])|].
  eapply rtc_l; [by apply (step_call _ _ [(callback, AtLock false)] callback AtAsk [])|].
  eapply rtc_l; [by apply (step_call _ _ [] callback (AtLock false) [(callback, AtLock false)])|].
  eapply rtc_l; [by apply (step_call _ _ [] callback (AtQueue false) [(callback, AtLock false)])|].
  eapply rtc_l; [by eapply (step_take _ _ queued_job)|].
  eapply rtc_l; [by apply (step_work _ _ [] queued_job Took [])|].
  eapply rtc_l; [by apply (step_work _ _ [] queued_job Marked [])|].
  eapply rtc_l; [by apply (step_call _ _ [] callback (AtLock false) [])|].
  eapply rtc_l; [by apply (step_call _ _ [] callback (AtQueue false) [])|].
  apply rtc_reflexive_eq. vm_compute. reflexivity.
Qed.

Example second_job_queued :
  rtc (hitl_step demo_hmac "s") at_rest second_done ∧
  queued_for "req-ask" (hw_log second_done) = 2%nat ∧ unlocked_for "req-ask" (hw_log second_done) = 1%nat.
Proof. split; [exact second_job_run|]. vm_compute. by split. Qed.

(** ** Dynamic edges *)

(** A dynamic edge has no target when it is added, so it is refused. *)
Example dynamic_edge_refused :
  (AddEdge (Some (DynamicEdge "start")) asking).1 = Some (EText "target node  not found").
Proof. vm_compute. reflexivity. Qed.

(** ** Circuit breakers *)

(** With a quota of one probe and three successes to close, a breaker whose two
    probes succeeded refuses every further request. *)
Definition narrow : Breaker.CircuitBreakerConfig := Breaker.mkConfig 1 3 10 1.
Definition opened : Breaker.CircuitBreaker :=
  Breaker.breaker_run narrow [Breaker.Before 0; Breaker.After 1 true] (Breaker.NewCircuitBreaker 0).
Definition probed : Breaker.CircuitBreaker :=
  Breaker.run_calls narrow [Breaker.mkCall 20 21 (Breaker.FnReturns false); Breaker.mkCall 22 23 (Breaker.FnReturns false)] opened.

Example breaker_stuck :
  Breaker.state opened = Breaker.StateOpen ∧ Breaker.state probed = Breaker.StateHalfOpen ∧
  (Breaker.beforeRequest narrow (10 ^ 15) probed).2 = Some Breaker.ErrTooManyRequests.
Proof. split_and!; vm_compute; reflexivity. Qed.

(** So does one whose probes panicked, with the default configuration. *)
Definition panicked : Breaker.CircuitBreaker :=
  Breaker.run_calls Breaker.DefaultCircuitBreakerConfig
    (replicate 4 (Breaker.mkCall (31 * 10 ^ 9) (31 * 10 ^ 9) Breaker.FnPanics)) (Breaker.mkBreaker Breaker.StateOpen 5 0 0 0).

Example breaker_stuck_by_panics es :
  Forall (λ e, Breaker.is_before e = true) es →
  Breaker.admissions Breaker.DefaultCircuitBreakerConfig es panicked = 0.
Proof. intros Hes. by apply (Breaker.half_open_exhausted Breaker.DefaultCircuitBreakerConfig es panicked). Qed.

Lemma breaker_stuck_for_good es :
  Forall (λ e, Breaker.is_before e = true) es → Breaker.admissions narrow es probed = 0.
Proof. intros Hes. by apply (Breaker.half_open_exhausted narrow es probed). Qed.

(** The default configuration lets four probes through, where three are
    configured. *)
Definition default_opened : Breaker.CircuitBreaker :=
  Breaker.mkBreaker Breaker.StateOpen 5 0 0 0.
Example one_probe_more :
  Breaker.HalfOpenMaxRequests Breaker.DefaultCircuitBreakerConfig = 3 ∧
  Breaker.admissions Breaker.DefaultCircuitBreakerConfig
    (Breaker.Before <$> [31 * 10 ^ 9; 31 * 10 ^ 9; 31 * 10 ^ 9; 31 * 10 ^ 9; 31 * 10 ^ 9]) default_opened = 4.
Proof. split; vm_compute; reflexivity. Qed.

(** ** Retries *)

(** A negative limit makes no attempt at all, and an error without a cause. *)
Example negative_retries :
  Do (-1) (λ _, true) (mkAttempts (λ _, false) (λ _, None) (λ _, false)) 0 = Some (RetryError 0 None, 0%nat).
Proof. vm_compute. reflexivity. Qed.

(** ** Policies *)

(** A rule that redacts "secret". *)
Definition demo_regexp : Regexp :=
  mkRegexp (λ s, if strings_Contains s "secret" then [(0, 6)%nat] else [])
    (λ s r, if strings_Contains s "secret" then r else s).
Definition redact_rule : Rule :=
  mkRule "r1" "no secrets" "regex" ActionRedact "high" true {[ "pattern" := VString "secret" ]}.
Definition block_rule : Rule :=
  mkRule "r2" "length" "length" ActionBlock "high" true {[ "max_length" := VInt 20 ]}.
Definition demo_evaluators : Registry :=
  {[ "regex" := RegexEvaluator (λ _, inr demo_regexp); "length" := LengthEvaluator ]}.
Definition demo_policy : PolicyConfig := NewPolicyNode (mkPolicyNode [redact_rule; block_rule] false).

(** The answer of a model that is found under "last_response" is redacted under
    "last_message" and stays as it was where it was found. *)
Example response_not_redacted :
  let '(state, err) := PolicyNode_Execute demo_evaluators demo_policy
    {[ "last_response" := SValue (VString "the secret") ]} in
  err = None ∧ state !! "last_message" = Some (SValue (VString "[REDACTED]")) ∧
  state !! "last_response" = Some (SValue (VString "the secret")).
Proof. vm_compute. split_and!; reflexivity. Qed.

(** ** The state and its watchers *)

(** A client sets a map that it goes on to change. *)
Definition no_copy : Heap → GVal → option (Heap * GVal) := λ _ _, None.
Definition one : GVal := GPrim "int" "1".
Definition two : GVal := GPrim "int" "2".
Definition client_heap : Heap := {[ 1%positive := OMap {[ "a" := one ]} ]}.
Definition client_map : GVal := GMap (Some 1%positive).

Definition after_set : Heap * MemoryState * GVal :=
  default (client_heap, NewState, GNil) (SetValue no_copy 3 "k" client_map NewState client_heap).

(** What is read under the key when the map at a location is changed first. *)
Definition read_after_write (l : option loc) : option (gmap string GVal) :=
  let h := match l with Some l => <[l := OMap {[ "a" := two ]}]> after_set.1.1 | None => after_set.1.1 end in
  match GetValue no_copy 3 "k" after_set.1.2 h with
  | Some (h, Some (GMap (Some r))) => match h !! r with Some (OMap m) => Some m | _ => None end
  | _ => None
  end.

Definition map_loc (v : GVal) : option loc := match v with GMap l => l | _ => None end.

(** The client's own changes do not reach the state; those of a watcher to the
    value of the event do. *)
Example watcher_changes_state :
  read_after_write (map_loc client_map) = Some {[ "a" := one ]} ∧
  read_after_write (map_loc after_set.2) = Some {[ "a" := two ]}.
Proof. split; vm_compute; reflexivity. Qed.

(** A struct with a pointer field counts as copyable field by field, so the copy
    shares what the field points to. *)
Definition with_pointer : RType := RStruct [RScalar; RPtr (RStruct [RScalar])].
Definition struct_heap : Heap := {[ 1%positive := OStruct [one] ]}.
Definition struct_value : GVal := GStruct with_pointer [one; GPtr (RStruct [RScalar]) (Some 1%positive)].

Example pointer_field_shared :
  deepCopyValue no_copy 3 struct_heap struct_value = Some (struct_heap, struct_value).
Proof. vm_compute. reflexivity. Qed.

(** Setting a key of a closed state is a write to a nil map. *)
Example set_after_close : SetValue no_copy 3 "k" one (Close NewState) ∅ = None.
Proof. vm_compute. reflexivity. Qed.
