(* ===== verification/RunWitnesses.v ===== *)
(** * Witnesses of the graph, policy, resilience and human-in-the-loop theorems

    Each theorem with hypotheses is applied here to one of the runs of Runs.v,
    where its hypotheses hold. *)

From stdpp Require Import base gmap strings list fin_maps pretty.
From S2P Require Import Prelude MemState Graph GraphExec Policy Breaker Limits Hitl Runs.

Open Scope Z_scope.

(** ** State *)

Lemma client_region : region client_heap {[ 1%positive ]}.
Proof.
  intros l ->%elem_of_singleton. eexists. split; [reflexivity|].
  apply map_Forall_singleton. simpl. compute_done.
Qed.

Definition changed_heap : Heap := <[1%positive := OMap {[ "a" := two ]}]> after_set.1.1.

Lemma changed_region : region changed_heap {[ 1%positive ]}.
Proof.
  intros l ->%elem_of_singleton. eexists. split; [reflexivity|].
  apply map_Forall_singleton. simpl. compute_done.
Qed.

Definition got : Heap * option GVal :=
  default (∅, None) (GetValue no_copy 3 "k" after_set.1.2 changed_heap).

Definition demo_trace : list Label :=
  [LSet "k" (client_heap, client_map); LClient; LGet "k" ((got.1,.) <$> got.2)].

(** What the client can reach then. *)
Definition got_loc : loc := default 1%positive (got.2 ≫= val_loc).

Lemma got_value : got.2 = Some (GMap (Some got_loc)).
Proof. vm_compute. reflexivity. Qed.
Lemma got_object : got.1 !! got_loc = Some (OMap {[ "a" := one ]}).
Proof. vm_compute. reflexivity. Qed.

Lemma got_reachable l :
  l ∈ ({[ got_loc ]} : gset loc) ↔ ∃ v, got.2 = Some v ∧ reachable got.1 v l.
Proof.
  rewrite elem_of_singleton, got_value. split.
  - intros ->. eexists. split; [reflexivity|]. by apply reach_here.
  - intros (v & [= <-] & H). inversion H as [v ? Hl|v l1 o w ? Hl Ho Hw Hr|]; simplify_eq/=; [done|].
    rewrite got_object in Ho. simplify_eq. destruct Hw as [k [_ <-]%lookup_singleton_Some].
    inversion Hr; simplify_eq/=.
Qed.

(** The client sets a map, changes it, and reads the key. *)
Lemma demo_steps :
  steps (scene_step no_copy) (mkScene client_heap NewState {[ 1%positive ]}) demo_trace
    (mkScene got.1 after_set.1.2 ({[ 1%positive ]} ∪ {[ got_loc ]})).
Proof.
  eapply steps_cons; [eapply (step_set no_copy 3 _ after_set.1.1 _ after_set.1.2)|].
  - split; [set_solver|eexists; reflexivity].
  - vm_compute. reflexivity.
  - eapply steps_cons; [apply (step_client no_copy _ changed_heap _ _ {[ 1%positive ]})|].
    + intros l Hl. apply lookup_insert_ne. set_solver.
    + done.
    + set_solver.
    + apply changed_region.
    + eapply steps_cons; [apply (step_get no_copy 3); [vm_compute; reflexivity|apply got_reachable]|apply steps_nil].
Qed.

Lemma state_isolation_witness :
  ∃ r, got.2 = Some r ∧ same (client_heap, client_map) (got.1, r).
Proof.
  destruct (state_isolation no_copy client_heap {[ 1%positive ]} demo_trace _ client_region demo_steps)
    as (A & HA & _).
  inversion_clear HA as [|? A1 ? ? ? H1 HA1]. inversion H1; subst. clear H1.
  inversion_clear HA1 as [|? A2 ? ? ? H2 HA2]. inversion H2; subst. clear H2.
  inversion_clear HA2 as [|? A3 ? ? ? H3 HA3]. inversion H3 as [| |? ? ? Hr| |]; subst.
  rewrite lookup_insert_eq in Hr. destruct (got.2) as [r|]; inversion Hr; subst.
  exists r. split; [reflexivity|assumption].
Defined.

Lemma state_total_witness : is_Some (SetValue no_copy 3 "k" client_map NewState client_heap).
Proof.
  apply (state_total no_copy 3 client_heap {[ 1%positive ]} NewState "k" client_map).
  - apply client_region.
  - split; [set_solver|eexists; reflexivity].
  - simpl. apply map_Forall_singleton. exact I.
  - eexists. reflexivity.
Defined.

Definition snap : Heap * StateSnapshot :=
  default (∅, mkSnapshot 0 ∅ ∅) (Snapshot no_copy 3 after_set.1.2 after_set.1.1).
Definition restored : Heap * MemoryState :=
  default (∅, NewState) (Restore no_copy 3 (Some snap.2) NewState snap.1).

Lemma after_set_data :
  data_of after_set.1.2 = {[ "k" := mkCow (GMap (Some 2%positive)) false 2 ]} ∧
  metadata_of after_set.1.2 = ∅ ∧ after_set.1.1 !! 2%positive = Some (OMap {[ "a" := one ]}).
Proof. split_and!; vm_compute; reflexivity. Qed.

Lemma after_set_owns : owns after_set.1.1 {[ 2%positive ]} after_set.1.2.
Proof.
  destruct after_set_data as (Hd & Hm & Hh). split_and!.
  - intros l ->%elem_of_singleton. exists (OMap {[ "a" := one ]}). split; [exact Hh|].
    apply map_Forall_singleton. simpl. compute_done.
  - rewrite Hd. apply map_Forall_singleton. split; [|done].
    split; [set_solver|]. exists {[ "a" := one ]}. exact Hh.
  - rewrite Hm. apply map_Forall_empty.
Qed.

Lemma snapshot_roundtrip_witness :
  option_Forall2 (λ x y, same (after_set.1.1, cw_value x) (restored.1, cw_value y))
    (data_of after_set.1.2 !! "k") (data_of restored.2 !! "k").
Proof.
  destruct (snapshot_roundtrip no_copy 3 _ _ _ snap.1 snap.2 NewState restored.1 restored.2 after_set_owns)
    as (Hd & _); [vm_compute; reflexivity|vm_compute; reflexivity|exact (Hd "k")].
Defined.

Lemma clone_independent_witness :
  ∃ h s, CloneState no_copy 3 after_set.1.2 after_set.1.1 = Some (h, s) ∧ st_version s = 2.
Proof.
  destruct (CloneState no_copy 3 after_set.1.2 after_set.1.1) as [[h s]|] eqn:E;
    [|exfalso; revert E; vm_compute; discriminate].
  destruct (clone_independent no_copy 3 _ _ _ h s after_set_owns E) as (_ & _ & Hv & _).
  exists h, s. split; [reflexivity|]. rewrite Hv. reflexivity.
Defined.

(** ** Graphs *)

Lemma asking_built : built asking.
Proof. repeat constructor. Qed.

Lemma graph_execution_witness :
  NoDup (r_executed asked.2).*1 ∧ run_ends asking no_ctx None asked.1 asked.2.
Proof.
  pose proof (graph_execution asking no_ctx None (∅ : gmap string Value) asking_built) as H.
  fold asked in H. destruct asked as [res s]. destruct H as (H1 & _ & _ & _ & H5).
  split; [exact H1|exact H5].
Defined.

Lemma graph_resumption_witness :
  NoDup (r_executed resumed.2).*1 ∧ run_ends asking no_ctx None resumed.1 resumed.2.
Proof.
  pose proof (graph_resumption asking no_ctx None (r_world asked.2) paused_at_ask asking_built) as H.
  fold resumed in H. destruct resumed as [res s]. destruct H as (H1 & _ & _ & H4).
  split; [exact H1|exact H4].
Defined.

(** A loop that counts to three. *)
Definition counting : LoopNode Z :=
  NewLoopNode (Some (λ n, (n + 1, None))) (Some (λ n, n <? 3)) 0.

Lemma loop_node_witness : LoopNode_Execute counting 0 = (3, None) ∧ ~ continues counting 3.
Proof.
  destruct (loop_node counting (λ n, (n + 1, None)) 0 eq_refl) as (k & w & _ & _ & _ & H).
  assert (LoopNode_Execute counting 0 = (3, None)) as E by (vm_compute; reflexivity).
  split; [exact E|]. rewrite E in H. vm_compute. discriminate.
Defined.

(** ** Policies *)

Definition redacted : EngineResult :=
  match Evaluate demo_evaluators demo_policy "the secret" with
  | inr r => r
  | inl _ => mkEngineResult false "" "" "" []
  end.

Lemma policy_verdict_witness : verdict demo_policy "the secret" redacted.
Proof.
  destruct (policy_verdict demo_evaluators demo_policy "the secret" redacted) as [H _];
    [vm_compute; reflexivity|exact H].
Defined.

Definition demo_state : gmap string StateVal := {[ "last_response" := SValue (VString "the secret") ]}.
Definition long_state : gmap string StateVal :=
  {[ "last_message" := SValue (VString "a message of more than twenty characters") ]}.

Lemma policy_node_filters_witness :
  (PolicyNode_Execute demo_evaluators demo_policy demo_state).1 !! "last_response" =
    demo_state !! "last_response".
Proof.
  destruct (policy_node_filters demo_evaluators demo_policy demo_state
    (PolicyNode_Execute demo_evaluators demo_policy demo_state).1) as (_ & _ & H);
    [vm_compute; reflexivity|].
  apply H; [compute_done|discriminate|discriminate].
Defined.

Example policy_node_blocks :
  let '(state', err) := PolicyNode_Execute demo_evaluators demo_policy long_state in
  err = Some (EPolicyViolation "Output length 40 exceeds maximum 20" "v0-blocked") ∧
  state' !! "policy_blocked" = Some (SValue (VBool true)).
Proof. vm_compute. split; reflexivity. Qed.

(** ** Resilience *)

Import Breaker.

Definition one_failure : list BreakerEvent := [Before 0; After 1 true].

Lemma breaker_opens_witness :
  ~ always narrow (λ cb, state cb = StateClosed) one_failure (NewCircuitBreaker 0).
Proof.
  intros H. apply (breaker_opens narrow one_failure 0) with (es1 := one_failure) in H;
    [vm_compute in H; discriminate|reflexivity|repeat constructor|exists []; reflexivity].
Defined.

Lemma breaker_admission_witness :
  admissions narrow [Before 2; After 3 true] opened = 0 ∧
  admissions narrow (Before 20 :: [Before 21; Before 22]) (breaker_run narrow [Before 2; After 3 true] opened) =
    1 + Z.min (requests [Before 21; Before 22]) (HalfOpenMaxRequests narrow).
Proof.
  apply (breaker_admission narrow [Before 2; After 3 true] 20 [Before 21; Before 22] opened).
  - vm_compute. discriminate.
  - reflexivity.
  - repeat constructor; vm_compute; discriminate.
  - reflexivity.
  - vm_compute. repeat split.
Defined.

Definition default_config : CircuitBreakerConfig := mkConfig 1 2 10 3.
Definition later_calls : list (Z * Z) := [(100, 101); (102, 103)].

Definition earlier_calls : list Call := [mkCall 0 1 (FnReturns true); mkCall 20 21 FnPanics].

Lemma breaker_recovers_witness :
  state (run_calls default_config (success <$> later_calls)
    (run_calls default_config earlier_calls (NewCircuitBreaker 0))) = StateClosed.
Proof.
  apply (breaker_recovers default_config earlier_calls 0 later_calls).
  - vm_compute. reflexivity.
  - vm_compute. discriminate.
  - repeat constructor.
  - vm_compute. discriminate.
Defined.

Definition window_requests : list Request :=
  [mkRequest 0 0 2; mkRequest 5 5 1; mkRequest 11 11 2].

Lemma sliding_window_witness :
  answers window_requests (NewSlidingWindowLimiter 2 10) = [true; false; true].
Proof.
  destruct (sliding_window window_requests 2 10 0) as [H _]; [vm_compute; discriminate| |].
  - simpl. repeat split; vm_compute; discriminate.
  - rewrite H. vm_compute. reflexivity.
Defined.

Definition failing_calls : Attempts :=
  mkAttempts (λ _, false) (λ i, if (i <? 2)%nat then Some (EText "busy") else None) (λ _, false).

Lemma retry_outcome_witness : Do 5 (λ _, true) failing_calls (Z.to_nat 5 + 1) = Some (RetryOk, 3%nat).
Proof.
  destruct (retry_outcome 5 (λ _, true) failing_calls) as (res & calls & H & _); [reflexivity|].
  rewrite H. rewrite <-H. vm_compute. reflexivity.
Defined.

(** ** Human answers *)

Lemma callback_once_witness :
  (queued_for "req-ask" (hw_log second_done) ≤ 1 + unlocked_for "req-ask" (hw_log second_done))%nat ∧
  EvQueued "req-ask" true ∉ hw_log second_done.
Proof. apply (callback_once demo_hmac "s" "req-ask" at_rest second_done eq_refl eq_refl second_job_run eq_refl). Defined.

Lemma demo_filed : filed (hs_checkpoints (hitl_sys ∅)).
Proof. intros r cp H. simpl in H. apply lookup_singleton_Some in H as [<- <-]. done. Qed.

Lemma job_processing_witness :
  job_outcome demo_registry quiet_attempt resumption_job (hitl_sys ∅)
    (processJob demo_registry quiet_attempt resumption_job (hitl_sys ∅)) ∧
  hs_checkpoints (processJob demo_registry quiet_attempt resumption_job (hitl_sys ∅)).1.2 = ∅.
Proof.
  split; [|vm_compute; reflexivity].
  apply (job_processing demo_registry quiet_attempt resumption_job (hitl_sys ∅) demo_filed).
  apply map_Forall_singleton. apply asking_built.
Defined.

Lemma job_retries_end_witness :
  (deliver failing_registry (replicate 4 quiet_attempt) resumption_job (hitl_sys ∅)).1.1 = true.
Proof.
  pose proof (job_retries_end failing_registry (replicate 4 quiet_attempt) resumption_job (hitl_sys ∅)
    demo_filed (λ _ _ _ _, eq_refl) eq_refl eq_refl) as H.
  destruct (deliver failing_registry (replicate 4 quiet_attempt) resumption_job (hitl_sys ∅)) as [[acked s'] n].
  apply H.
Defined.

Lemma human_node_answer_witness :
  (HumanNode_Execute demo_unmarshal (λ _, "1h0m0s") (demo_human "ask") "req" 1 TimedOut
     {[ "_hitl_pending:ask" := VBytes "answer" ]}).1 !! "human_response" = Some (VString "yes").
Proof.
  pose proof (human_node_answer demo_unmarshal (λ _, "1h0m0s") (demo_human "ask") "req" 1 TimedOut
    {[ "_hitl_pending:ask" := VBytes "answer" ]} demo_answer "answer" eq_refl eq_refl eq_refl) as H.
  destruct (HumanNode_Execute _ _ _ _ _ _ _) as [state' err]. apply H.
Defined.
