(* ===== verification/Platform.v ===== *)
(** * Runs of the platform's components that show faults

    Concrete runs, evaluated, of the coordination, registry, actor, agent, workflow
    and storage models: each shows a behaviour the code or its documentation does
    not intend. *)

From stdpp Require Import base gmap strings list fin_maps relations pretty.
From S2P Require Import Prelude Etcd Leadership Nodes Coordination Election Actor Agents AgentTree AgentStages.
From S2P Require Import Registry Artifacts StateBackends Sessions Orchestration Parallel.
From S2P Require Import Templates AgentExec Routing Breaker LoadBalancer Checkpoints Events.

Open Scope Z_scope.

(** ** Coordination *)

(** Two calls of Acquire share a session (lease 7) on a semaphore of size 2; the
    second is granted first and released: Release deletes the session's oldest
    key, the first call's, which then finds its permit lost, while the key of the
    released permit stays. *)
Example release_takes_other_key :
  let ds := mkSemaphore "/s" 2 in
  let k1 := permitKey ds 7 "a" in
  let k2 := permitKey ds 7 "b" in
  let e := etcd_put 7 k2 "waiting" (etcd_put 7 k1 "waiting" empty_etcd) in
  acquire_turn ds k2 e = Acquired ∧
  (let '(err, e') := ReleasePermit ds 7 e in
   err = None ∧ acquire_turn ds k1 e' = PermitLost ∧ is_Some (etcd_kvs e' !! k2)).
Proof. vm_compute. split; [done|]. split; [done|]. split; [done|]. by eexists. Qed.

(** Resetting the barrier "/b/1" deletes the participants of "/b/10". *)
Example reset_hits_other_barrier :
  let b1 := mkBarrier "/b/1" 2 in
  let b10 := mkBarrier "/b/10" 2 in
  let k := participantKey b10 "g" 7 0 in
  let e := etcd_put 7 k "waiting" empty_etcd in
  is_Some (etcd_kvs e !! k) ∧ etcd_kvs (ResetBarrier b1 e) !! k = None.
Proof. vm_compute. split; [by eexists|done]. Qed.

(** Two barriers of one session count their participants from 0 and register under
    the same key: of two waiting calls one is counted. *)
Example barriers_share_keys :
  let b := mkBarrier "/b" 2 in
  let e := etcd_put 7 (participantKey b "g" 7 0) "waiting" (etcd_put 7 (participantKey b "g" 7 0) "waiting" empty_etcd) in
  all_present b "g" e = false.
Proof. reflexivity. Qed.

(** ** Leadership *)

(** A scheduler whose identity ends in a blank is accepted by the provider and
    elected; workers compare its trimmed leader id with etcd's value and refuse
    every request. *)
Example blank_identity_refused :
  ∃ p le a, NewEtcdLeadershipProvider None None (mkEtcdConfig ["etcd:2379"] "/k" "node-1 " 0 0) = inr (p, le) ∧
    let e := etcd_put 7 (election_prefix "/k" +:+ "7") "node-1 " empty_etcd in
    EtcdDispatchAuthority (EtcdProvider_Start p) true (inr e) = inr a ∧ la_IsLeader a = true ∧
    ¬ worker_accepts (λ _, "") "/k" a e.
Proof.
  eexists _, _, _. split; [reflexivity|]. cbv zeta. split; [reflexivity|]. split; [reflexivity|].
  unfold worker_accepts. vm_compute. done.
Qed.

(** ** Actors *)

(** A child that was stopped cannot be started again: its address stays taken. *)
Example stopped_child_keeps_address :
  let config := mkActorConfig "worker" 1%N in
  let '(_, st) := SpawnChild config (NewSupervisor OneForOne 3 100 0, NewSystem) in
  let '(r, _) := SpawnChild config (StopChild "worker" st) in
  match r with inl _ => True | inr _ => False end.
Proof. exact I. Qed.

(** A limit of one restart per window of 10 allows two within one time unit. *)
Example two_restarts_at_once : restarts (NewSupervisor OneForOne 1 10 0) [10; 11] = [10; 11].
Proof. reflexivity. Qed.

(** A limit of 0 restarts allows one. *)
Example restart_despite_limit : restarts (NewSupervisor OneForOne 0 10 0) [1; 11] = [11].
Proof. reflexivity. Qed.

(** ** Agents *)

Definition two_agents : AgentStore :=
  default ∅ (NewAgent "a" "A" "" [] [] ∅ ≫= NewAgent "b" "B" "" [] []).

(** Each of two agents becomes the other's parent; adding an agent to itself never
    returns. *)
Example hierarchy_cycle :
  match AddSubAgent "a" (Some "b") two_agents with
  | Some (None, h) =>
      match AddSubAgent "b" (Some "a") h with
      | Some (None, h') => agent_parent h' "a" = Some "b" ∧ agent_parent h' "b" = Some "a"
      | _ => False
      end
  | _ => False
  end ∧ AddSubAgent "a" (Some "a") two_agents = None.
Proof. vm_compute. done. Qed.

(** Root depends on B and A, A depends on B: B is visited first at depth 1, so A
    and the agent it depends on are in the same stage. *)
Definition diamond : AgentStore :=
  <["r" := mkAgent "R" true None [] ["b"; "a"] ""]> (<["a" := mkAgent "A" true None [] ["b"] ""]>
  (<["b" := mkAgent "B" true None [] [] ""]> ∅)).
Example dependency_in_same_stage :
  (λ st, (as_ID st, at_AgentID <$> as_Tasks st)) <$> buildAgentStages diamond (λ n, pretty (Z.of_nat n)) (λ _, 0) tt "r" =
  [(1%nat, ["b"; "a"]); (0%nat, ["r"])].
Proof. reflexivity. Qed.

(** ** Registry *)

Definition reg_config (id : string) : RegistryConfig := mkRegConfig 0 "" id id "host" 1 [] None 0 0 0.
Definition node_named (id : string) : NodeInfo := mkNode id id "host" 1 [] None 0 0 true.
Definition registry_of (id : string) (lease : Z) : DistributedAgentRegistry :=
  mkRegistry (registry_defaults (reg_config id)) id (node_named id) (Some lease) lease ∅ ∅ [].
Definition encode (n : NodeInfo) : result string := inr (ni_ID n).
Definition decode (s : string) : result NodeInfo := inr (node_named s).
Definition encode_service (s : ServiceInfo) : result string := inr (si_ServiceName s).

(** A node that registers after another has read the existing nodes and before its
    watch begins is not in the other's cache: no event tells of it. *)
Example node_missed_at_start :
  let '(err, r, e) := Registry_Start encode decode Carried (inr (etcd_range "/dagens/nodes/" empty_etcd)) (registry_of "n1" 1) empty_etcd in
  let '(err', _, e') := registerNode encode Carried (registry_of "n2" 2) e in
  err = None ∧ err' = None ∧ is_Some (stored decode "/dagens/nodes/" e' "n2") ∧ Registry_GetNode "n2" r = None.
Proof. vm_compute. split; [done|]. split; [done|]. split; [by eexists|done]. Qed.

(** A value that cannot be decoded leaves the node that was there in the cache. *)
Definition decode_json (s : string) : result NodeInfo :=
  if String.eqb s "broken" then inl (EText "invalid character") else inr (node_named s).
Example unreadable_node_stays :
  let r := set_dr_nodes {["n2" := node_named "n2"]} (registry_of "n1" 1) in
  Registry_GetNode "n2" (handleNodeEvent decode_json (EventPut "/dagens/nodes/n2" "broken") r).2 = Some (node_named "n2").
Proof. vm_compute. reflexivity. Qed.

(** A node whose id has a slash registers, and every registry ignores it. *)
Example slashed_node_ignored :
  let '(err, _, e) := registerNode encode Carried (registry_of "rack/n1" 1) empty_etcd in
  err = None ∧ is_Some (stored decode "/dagens/nodes/" e "rack/n1") ∧
  dr_nodes (syncExistingNodes decode (inr (etcd_range "/dagens/nodes/" e)) (registry_of "n2" 2)).2 = ∅.
Proof. vm_compute. split; [done|]. split; [by eexists|done]. Qed.

(** After a reconnection the services are gone from etcd and still in the cache. *)
Example services_lost_on_reconnect :
  let r := registry_of "n1" 1 in
  let '(_, _, r, e) := RegisterService encode_service "api" 80 0 Carried r empty_etcd in
  let '(_, r', e') := session_tick encode true [TrySession 2 Carried] r e in
  is_Some (GetService "api" r') ∧ etcd_kvs e' !! serviceKey r' "api" "n1" = None.
Proof. vm_compute. split; [by eexists|done]. Qed.

(** ** Artifacts *)

#[export] Instance same_order : CacheOrder.
Proof. refine {| cache_order := id |}. reflexivity. Defined.

Definition art_config : ArtifactConfig := mkArtifactConfig 1 true 0 10 4.
Definition art_new : DistributedArtifactService InMemoryArtifactBackend :=
  NewDistributedArtifactService NewInMemoryArtifactBackend art_config.

(** A small artifact is replaced by one too large for the cache: reads still give
    the small one. *)
Example stale_artifact :
  let s := (SaveArtifact 0 "s" "a" "old" art_new).2 in
  let '(err, s') := SaveArtifact 1 "s" "a" "larger" s in
  err = None ∧ ab_Get (makeKey "s" "a") (sv_backend s') = inr "larger" ∧ (GetArtifact 2 "s" "a" s').1 = inr "old".
Proof. vm_compute. done. Qed.

(** Saving one artifact again and again counts its bytes each time; in the end the
    cache is empty and counts 6 of its 10 bytes. *)
Example cache_size_leaks :
  let save s := (SaveArtifact 0 "s" "a" "xyz" s).2 in
  let s := DeleteArtifact "s" "a" (save (save (save art_new))) in
  match sv_caches s.2 !! 0 with
  | Some c => ac_artifacts c = ∅ ∧ ac_totalSize c = 6
  | None => False
  end.
Proof. vm_compute. done. Qed.

(** ** Session states *)

(** A session that is deleted and created anew starts with version 1 again: the
    update of a client that got the old session succeeds, although another client
    has updated it since and the session it replaces is a new one. *)
Example recreated_session_overwritten :
  let first := mkSessionState "s" "agent" (Some {["n" := VInt 1]}) None 0 0 1 in
  let anew := mkSessionState "s" "agent" (Some {["n" := VInt 9]}) None 0 0 0 in
  let w := mkSessionWorld {[0%nat := first; 9%nat := anew]} {["s" := 0%nat]} in
  ∃ old other w1 w2 w3 w4 w5,
    Session_Get "s" w = Some (inr old, w1) ∧ Session_Get "s" w1 = Some (inr other, w2) ∧
    Session_Update 1 other w2 = Some (None, w3) ∧
    Session_Create 2 9 (Session_Delete "s" w3) = Some (None, w4) ∧
    Session_Update 3 old w4 = Some (None, w5) ∧
    (sw_sessions w5 !! "s" ≫= λ l, ss_State <$> sw_heap w5 !! l) = Some (Some {["n" := VInt 1]}).
Proof.
  do 7 eexists. split; [vm_compute; reflexivity|]. split; [vm_compute; reflexivity|].
  split; [vm_compute; reflexivity|]. split; [vm_compute; reflexivity|]. split; [vm_compute; reflexivity|].
  vm_compute. reflexivity.
Qed.

(** What ListByAgent returns are the kept objects: writing one changes the session
    without an update and under the same version. *)
Example listed_session_shared :
  let obj := mkSessionState "s" "agent" (Some ∅) None 0 0 0 in
  match Session_Create 0 0 (mkSessionWorld {[0%nat := obj]} ∅) with
  | Some (None, w) =>
      match Session_ListByAgent "agent" w with
      | [l] =>
          let w' := write_state l "k" (VInt 1) w in
          kept_version "s" w' = kept_version "s" w ∧
          (p ← sw_sessions w' !! "s"; s ← sw_heap w' !! p; m ← ss_State s; m !! "k") = Some (VInt 1)
      | _ => False
      end
  | _ => False
  end.
Proof. vm_compute. done. Qed.

(** A checkpoint of a session without history does not remove what was added
    since. *)
Example empty_checkpoint_keeps_history :
  let inv := mkInvocation "i" "" 0 0 None 0 in
  let '(_, m) := Memory_CreateSession "s" 0 "agent" ∅ in
  let '(_, m) := Memory_Checkpoint "c" 1 "s" "" m in
  let '(_, m) := Memory_AddInvocation 2 "s" inv m in
  let '(err, m) := Memory_RestoreCheckpoint 3 "s" "c" m in
  err = None ∧ (length ∘ se_History) <$> m !! "s" = Some 1%nat.
Proof. vm_compute. done. Qed.

(** A store of sessions that never fails. *)
Record MapStore := mkMapStore { ms_sessions : gmap string Session }.
#[export] Instance MapStore_store : SessionStore MapStore := {|
  store_Save x s := (None, mkMapStore (<[se_ID x := x]> (ms_sessions s)));
  store_Load id s := match ms_sessions s !! id with Some x => inr x | None => inl (session_missing id) end;
  store_Delete id s := (None, mkMapStore (delete id (ms_sessions s)));
  store_List agent s := inr (filter (λ x, se_AgentID x = agent) (map_values (ms_sessions s)));
|}.
#[export] Instance MapStore_laws : SessionStoreLaws MapStore.
Proof.
  refine {| store_view := ms_sessions |}; simpl.
  - intros x s err s' Hs. by simplify_eq.
  - intros id s x Hl. destruct (ms_sessions s !! id); by simplify_eq.
  - intros id s err s' Hs. by simplify_eq.
Defined.

(** Two processes add an invocation to a session: both load it before either has
    saved it, and the one saved first is lost. *)
Example concurrent_invocation_lost :
  let st := mkMapStore {["s" := new_session "s" "agent" 0]} in
  let inv id := mkInvocation id "" 0 0 None 0 in
  match store_Load "s" st, store_Load "s" st with
  | inr s1, inr s2 =>
      let st := (store_Save (append_invocation 1 "s" (inv "first") s1) st).2 in
      let st := (store_Save (append_invocation 2 "s" (inv "second") s2) st).2 in
      (λ s, iv_ID <$> se_History s) <$> ms_sessions st !! "s" = Some ["second"]
  | _, _ => False
  end.
Proof. vm_compute. done. Qed.

(** ** Workflows *)

(** A child has succeeded and cancelled the context; the main loop takes the done
    context before the result and reports a timeout. *)
Example success_reported_as_timeout :
  ∃ s, rtc (first_step 1) (first_init 1) s ∧ fs_ok s = [5%nat] ∧ fs_expired s = false ∧ fs_done s = Some FirstTimedOut.
Proof.
  eexists. split.
  - eapply rtc_l; [apply (first_succeeds 1 0 5); vm_compute; done|].
    eapply rtc_l; [apply first_cancel; done|]. eapply rtc_l; [apply first_sees_done; done|]. apply rtc_refl.
  - done.
Qed.

(** Splitting five items into three parts gives five. *)
Example three_parts_are_five :
  let input := mkInputObj "" (Some {["data" := ASlice [AInt 1; AInt 2; AInt 3; AInt 4; AInt 5]]}) 0 in
  match FixedCountSplitter 3 "data" input with Some (inr l) => length l = 5%nat | _ => False end.
Proof. reflexivity. Qed.

(** The line splitter cuts after a number of characters, inside lines. *)
Example lines_cut :
  let input := mkInputObj "" (Some {["text" := AString "one line"]}) 0 in
  match LineSplitter 5 input with
  | Some (inr l) => ((λ i, (m ← in_Context i; m !! "text")) <$> l) = [Some (AString "one l"); Some (AString "ine")]
  | _ => False
  end.
Proof. reflexivity. Qed.

(** A result that looks like a template is replaced by the next agent: the first
    stores a text with braces, the second's templates bring it into the shared
    instruction, and the third finds a template there. *)
Example result_read_as_template :
  let copies key := mkPure "copy" key (λ i, inr (AString (in_Instruction i))) in
  let gs := [mkPure "quote" "a" (λ _, inr (AString "{secret}")); copies "b"; copies "c"] in
  let i := mkInputObj "say {a}" (Some {["secret" := AString "s"]}) 0 in
  (pipeline_fun (λ _, "") 0 gs i).1 = inr [AString "{secret}"; AString "say {secret}"; AString "say s"].
Proof. vm_compute. reflexivity. Qed.

(** A sequential agent that passes outputs on gives the next agent an input with a
    new context: what the first stored under its output key is not in it. *)
Example output_key_not_passed_on :
  let first : BaseExec unit := base_of (mkPure "first" "summary" (λ _, inr (AString "short"))) in
  let second : BaseExec unit := base_of (mkPure "second" "" (λ i, inr (default ANil (in_Context i ≫= lookup "summary")))) in
  let a := NewSequentialAgent [as_child (λ _, "") first; as_child (λ _, "") second] [] true true in
  let w := mkAgentWorld {[0%nat := mkInputObj "go" None 0]} ∅ tt in
  match seq_Execute (λ _, "") a 0%nat w with
  | Some (inr l, w') => out_Result <$> wd_outputs w' !! l = Some ANil
  | _ => False
  end.
Proof. vm_compute. reflexivity. Qed.

(** ** Routers and load balancers *)

Definition named (name : string) : ChildAgent unit := mkChild name (λ _ _, None).

(** Of two routes with the same priority the later one comes first, because of a
    third with a higher priority. *)
Example equal_priorities_swapped :
  let rt name p := mkRoute name AlwaysCondition (named name) p in
  rt_Name <$> ra_routes (NewRouterAgent [rt "a" 0; rt "b" 0; rt "c" 1] None FallbackUnset) = ["c"; "b"; "a"].
Proof. reflexivity. Qed.

Definition balanced_pair : LoadBalancerAgent :=
  NewLoadBalancerAgent RoundRobin ["a"; "b"] (Some (Breaker.Breaker.mkConfig 1 1 10 1)).

(** A request to the first agent failed and opened its circuit, which marked the
    agent as unhealthy; long after the circuit would admit a request again, both of
    two requests go to the other agent. *)
Example unhealthy_for_good :
  match lb_start 0 id balanced_pair with
  | Some (inr rq, lb) =>
      let lb := lb_finish 0 true true rq lb in
      st_CircuitBreakerState <$> GetAgentStats 1000 lb = ["half-open"; "closed"] ∧
      fst <$> select_many id [1000; 1000] lb = Some [1%nat; 1%nat]
  | _ => False
  end.
Proof. vm_compute. done. Qed.

(** The first agent is removed while a request to it runs: its slot is the second
    agent's now, whose count the end of the request takes below zero. *)
Example removal_miscounts :
  match lb_start 0 id balanced_pair with
  | Some (inr rq, lb) =>
      let lb := (RemoveAgent "a" lb).2 in
      (λ w, (aw_Agent w, aw_InFlight w)) <$> agents_of (lb_finish 1 false false rq lb) = [("b", -1)]
  | _ => False
  end.
Proof. vm_compute. reflexivity. Qed.

(** An agent is added while a request to the first one runs: the wrappers are
    copied to a new array with the count of the request, whose end is counted in
    the old one. *)
Example growth_strands_request :
  match lb_start 0 id balanced_pair with
  | Some (inr rq, lb) =>
      let lb := (AddAgent 0 "c" None lb).2 in
      (λ w, (aw_Agent w, aw_InFlight w)) <$> agents_of (lb_finish 1 false false rq lb) = [("a", 1); ("b", 0); ("c", 0)]
  | _ => False
  end.
Proof. vm_compute. reflexivity. Qed.

(** ** Events and checkpoints *)

(** Unsubscribing one handler removes the others of the type too. *)
Example unsubscribing_takes_all (w : EventWorld unit) :
  handlers_of "t" (Unsubscribe "t" HLog (Subscribe "t" HLog (Subscribe "t" (HTrack 0) w))) = [].
Proof. unfold handlers_of, Unsubscribe. simpl. by rewrite lookup_delete_eq. Qed.

(** A bus that was closed still delivers. *)
Example closed_bus_delivers :
  let w := mkEventWorld {["t" := [HRecord 0]]} false {[0%nat := []]} ∅ tt in
  let event := NewAgentEvent 0 "t" "a" "s" (OtherPayload 0) in
  ew_stores (Publish (λ _ _ w, (None, w)) (λ _ _ _ _ w, w) id event (Bus_Close w)).2 !! 0%nat = Some [event].
Proof. vm_compute. reflexivity. Qed.

(** The manager in memory keeps the caller's object: what the caller changes after
    the checkpoint is what a restore gives. *)
Example checkpoint_changes_after_save :
  let m0 := mkCkManager {[0%nat := mkCheckpoint "c" "j" 0 1%N]} ∅ in
  match Manager_Checkpoint 5 0 m0 with
  | Some m =>
      let m := mkCkManager (alter (λ c, mkCheckpoint (cp_ID c) (cp_JobID c) (cp_Timestamp c) 2%N) 0%nat (ck_objects m)) (ck_checkpoints m) in
      match Manager_Restore "c" m with inr p => cp_State <$> ck_objects m !! p = Some 2%N | inl _ => False end
  | None => False
  end.
Proof. vm_compute. reflexivity. Qed.
