(* ===== verification/PlatformWitnesses.v ===== *)
(** * The theorems of the platform's components applied

    Each theorem that has hypotheses is applied at concrete data at which they
    hold: runs of the coordination, registry, actor, agent, workflow and storage
    models. *)

From stdpp Require Import base gmap strings list fin_maps relations pretty sorting.
From S2P Require Import Prelude Etcd Leadership Nodes Coordination Election Actor Agents AgentTree AgentStages.
From S2P Require Import Registry Artifacts StateBackends Sessions Orchestration Parallel.
From S2P Require Import Templates AgentExec Routing Breaker LoadBalancer Platform.

Open Scope Z_scope.

(** ** Coordination *)

Definition sem1 : DistributedSemaphore := mkSemaphore "/s" 1.
Definition sem_start : @SemWorld EtcdMap := mkSemWorld empty_etcd ∅ ∅ [] [].
Definition sem_end : @SemWorld EtcdMap :=
  let k := permitKey sem1 7 "a" in
  mkSemWorld (etcd_put 7 k "waiting" empty_etcd) ∅ {[k]} [] [7].

(** One call acquires the only permit. *)
Lemma semaphore_exclusion_witness :
  rtc (sem_step sem1) sem_start sem_end ∧ Z.of_nat (length (sw_held sem_end)) ≤ Z.max 0 1.
Proof.
  assert (rtc (sem_step sem1) sem_start sem_end) as Hrun.
  { eapply rtc_l; [apply (sem_register sem1 empty_etcd ∅ ∅ [] [] 7 "a"); vm_compute; done|].
    eapply rtc_l; [eapply (sem_turn sem1 _ _ _ _ _ (permitKey sem1 7 "a") 7 false); vm_compute; reflexivity|].
    vm_compute. apply rtc_refl. }
  split; [exact Hrun|].
  refine (proj1 (semaphore_exclusion sem1 sem_start sem_end _ Hrun)).
  repeat split; reflexivity.
Defined.

Definition bar1 : DistributedBarrier := mkBarrier "/b" 1.

(** The only participant of a barrier passes. *)
Lemma barrier_meets_witness :
  ∃ (w : @BarrierWorld EtcdMap) g k, bw_calls w !! 0%nat = Some (Passed g k) ∧
    ∃ w', rtc (barrier_step bar1) (mkBarrierWorld empty_etcd ∅) w' ∧ rtc (barrier_step bar1) w' w ∧ gathered bar1 g w'.
Proof.
  assert (∃ w g k, rtc (barrier_step bar1) (mkBarrierWorld empty_etcd ∅) w ∧ bw_calls w !! 0%nat = Some (Passed g k)) as (w & g & k & Hrun & Hk).
  { eexists _, _, _. split.
    - eapply rtc_l; [eapply (wait_enter bar1 _ _ 0%nat 5 "5"); vm_compute; reflexivity|].
      eapply rtc_l; [eapply (wait_register bar1 _ _ 0%nat "5" 7 0); vm_compute; reflexivity|].
      eapply rtc_l; [eapply (wait_check bar1 _ _ 0%nat "5" _ false); vm_compute; reflexivity|].
      eapply rtc_l; [eapply (wait_count bar1 _ _ 0%nat); vm_compute; reflexivity|].
      eapply rtc_l; [eapply (wait_trip bar1 _ _ 0%nat _ _ 9); vm_compute; reflexivity|].
      eapply rtc_l; [eapply (wait_check bar1 _ _ 0%nat "5" _ false); vm_compute; reflexivity|].
      apply rtc_refl.
    - vm_compute. reflexivity. }
  exists w, g, k. split; [exact Hk|].
  refine (barrier_meets bar1 (mkBarrierWorld empty_etcd ∅) w 0%nat g k _ Hrun Hk).
  split; reflexivity.
Defined.

(** ** Leadership *)

Definition prov (id : string) : EtcdLeadershipProvider := mkEtcdProvider "/k" id false.
Definition prov_cfg (id : string) : EtcdLeadershipProviderConfig := mkEtcdConfig ["e"] "/k" id 0 0.
Definition prov_elector (id : string) : LeaderElector := mkElector "/k" id (5 * Second) false false LoopTop [].

(** Node 1 is elected, its lease ends, node 2 is elected. *)
Definition reign1 : EtcdMap := etcd_put 7 (election_prefix "/k" +:+ "7") "node-1" empty_etcd.
Definition reign2 : EtcdMap := etcd_put 8 (election_prefix "/k" +:+ "8") "node-2" (etcd_revoke 7 reign1).

Lemma leadership_fencing_witness :
  worker_accepts (λ _, "") "/k" (mkAuthority true "4" "node-2" "") reign2 ∧
  ¬ worker_accepts (λ _, "") "/k" (mkAuthority true "2" "node-1" "") reign2.
Proof.
  assert (history_wf (election_prefix "/k") reign1) as Hwf.
  { assert (∀ k, etcd_kvs empty_etcd !! k = None) as He by (intros k; apply lookup_empty).
    apply (history_wf_step _ empty_etcd); [|apply etcd_step_put]. split.
    - intros k kv Hk. rewrite He in Hk. discriminate.
    - split; [intros k kv Hk|intros k k' kv kv' Hk]; rewrite He in Hk; discriminate.
    - intros k k' kv kv' Hk. rewrite He in Hk. discriminate. }
  assert (rtc etcd_step reign1 reign2) as Hrun.
  { eapply rtc_l; [apply (etcd_step_revoke 7)|]. eapply rtc_l; [apply etcd_step_put|apply rtc_refl]. }
  destruct (leadership_fencing (λ _, "") (prov_cfg "node-1") (prov_cfg "node-2") None None None None
    (prov "node-1") (prov "node-2") (prov_elector "node-1") (prov_elector "node-2")
    (mkAuthority true "2" "node-1" "") (mkAuthority true "4" "node-2" "") reign1 reign2) as [Hacc Hno].
  - reflexivity.
  - reflexivity.
  - reflexivity.
  - exact Hwf.
  - exists true, "". split; vm_compute; reflexivity.
  - exact Hrun.
  - exists true, "". split; vm_compute; reflexivity.
  - discriminate.
  - reflexivity.
  - reflexivity.
  - split; [exact Hacc|]. destruct (Hno reign2 (rtc_refl _ _)) as [Hn _]. exact Hn.
Defined.

(** ** Actors *)

Definition ping : ActorMessage := mkMessage "ping" (PAddress "x") false.

(** A process is stopped while a send is between its check and its select: the
    goroutine returns, and then the message is accepted. *)
Definition with_late_send : ActorSystem :=
  put_proc 0 (mkProcess 1%N "a" [] true true false)
    (set_sends [mkSending 0 ping true] (Spawn 1%N "a" NewSystem).2).
Definition late_accepted : ActorSystem :=
  finish_send 0 ping (Sent (mkProcess 1%N "a" [ping] true true false)) (set_sends [] with_late_send).

Lemma with_late_send_reached : rtc sys_step NewSystem with_late_send.
Proof.
  eapply rtc_l; [apply (sys_spawn 1%N "a")|].
  eapply rtc_l; [eapply (sys_send "a" ping 0%N); reflexivity|].
  eapply rtc_l; [eapply (sys_send_check [] 0%N ping []); reflexivity|].
  eapply rtc_l; [eapply (sys_stop_mark 0%N); reflexivity|].
  eapply rtc_l; [eapply (sys_stop_cancel 0%N); reflexivity|].
  eapply rtc_l; [eapply (sys_exit 0%N); reflexivity|]. vm_compute. apply rtc_refl.
Qed.

Lemma late_accepted_reached : rtc sys_step with_late_send late_accepted.
Proof. eapply rtc_l; [eapply (sys_send_select false [] 0%N ping []); reflexivity|]. vm_compute. apply rtc_refl. Qed.

Lemma actor_delivery_witness :
  of_process 0 (sys_accepted late_accepted) = [ping] ∧ of_process 0 (sys_handled late_accepted) = [] ∧
  of_process 0 (sys_handled late_accepted) = of_process 0 (sys_handled with_late_send).
Proof.
  split; [reflexivity|]. split; [reflexivity|].
  destruct (actor_delivery with_late_send 0%N _ with_late_send_reached eq_refl) as (_ & _ & H).
  exact (proj2 (H eq_refl late_accepted late_accepted_reached) eq_refl).
Defined.

(** A supervised child fails and is replaced. *)
Lemma supervisor_restart_witness :
  ∃ s sys pid, rtc sup_step (NewSupervisor OneForOne 3 100 0, NewSystem) (s, sys) ∧
    GetActor "worker" (Supervisor_Receive 1 (mkMessage MessageTypeFailure (PAddress "worker") false) (s, sys)).2.2 = Some pid ∧
    sys_procs sys !! pid = None.
Proof.
  set (st := (Supervisor_Receive 0 (mkMessage MessageTypeStart (PConfig (mkActorConfig "worker" 1%N)) false)
                (NewSupervisor OneForOne 3 100 0, NewSystem)).2).
  assert (rtc sup_step (NewSupervisor OneForOne 3 100 0, NewSystem) (st.1, st.2)) as Hrun.
  { eapply rtc_l; [apply (sup_receive 0 (mkMessage MessageTypeStart (PConfig (mkActorConfig "worker" 1%N)) false))|]. apply rtc_refl. }
  pose proof (supervisor_restart OneForOne 3 100 0 st.1 st.2 1 "worker" false Hrun) as H.
  cbv zeta in H. destruct (Supervisor_Receive 1 _ (st.1, st.2)).2 as [s' sys'] eqn:Hst.
  change (count_restart 1 st.1).1 with true in H.
  change (sup_childConfigs st.1 !! "worker") with (Some (mkActorConfig "worker" 1%N)) in H.
  destruct H as (pid & Hnew & Hget & _).
  exists st.1, st.2, pid. split; [exact Hrun|]. rewrite Hst. split; [exact Hget|exact Hnew].
Defined.

(** ** Agents *)

Definition family_tree : AgentStore :=
  default ∅ (NewAgent "c" "child" "" [] [] ∅ ≫= NewAgent "p" "parent" "" [] [Some "c"]).

Lemma agent_ancestry_witness :
  GetRoot "c" family_tree = Some "p" ∧ GetPath "c" family_tree = Some ["p"; "c"] ∧ GetDepth "c" family_tree = Some 1.
Proof.
  assert (hierarchy family_tree) as Hh.
  { eapply (hierarchy_new "p" "parent" "" [] [Some "c"]); [eapply (hierarchy_new "c" "child" "" [] []); [apply hierarchy_empty|..]|..];
      vm_compute; reflexivity. }
  refine (proj2 (proj2 (proj2 (proj2 (agent_ancestry family_tree Hh) "c"))) ["c"; "p"] _).
  eapply climb_up; [vm_compute; reflexivity|]. apply climb_root. vm_compute. reflexivity.
Defined.

(** ** Registry *)


(** ** Storage *)

(** An artifact is saved and read back. *)
Lemma artifact_service_witness :
  (GetArtifact 1 "s" "a" (SaveArtifact 0 "s" "a" "xyz" art_new).2).1 = inr "xyz".
Proof.
  assert (rtc artifact_step art_new (SaveArtifact 0 "s" "a" "xyz" art_new).2) as Hrun.
  { eapply rtc_l; [apply (art_save art_new 0 "s" "a" "xyz"); [reflexivity|right; vm_compute; done]|apply rtc_refl]. }
  refine (proj2 (proj1 (artifact_service NewInMemoryArtifactBackend art_config _ 1 "s" "a" Hrun eq_refl) "xyz") _).
  vm_compute. reflexivity.
Defined.

Definition kept_session : SessionState := mkSessionState "s" "agent" None None 0 0 1.

(** Nobody else updated the session, so the update succeeds. *)
Lemma no_lost_update_witness :
  let w := mkSessionWorld {[0%nat := kept_session]} {["s" := 0%nat]} in
  let w1 := mkSessionWorld {[0%nat := kept_session; 1%nat := kept_session]} {["s" := 0%nat]} in
  ∃ w', Session_Update 5 1 w1 = Some (None, w').
Proof.
  intros w w1.
  destruct (no_lost_update "s" 1%nat 0%nat 5 w w1 w1) as (s & _ & Hu & _).
  - intros id p Hp. simpl in Hp. apply lookup_singleton_Some in Hp as [<- <-]. exists kept_session. split; reflexivity.
  - vm_compute. reflexivity.
  - apply meanwhile_refl.
  - eexists. exact Hu.
Defined.

Definition greeting : Invocation := mkInvocation "i" "" 0 0 None 0.
Definition one_session : gmap string Session := (Memory_AddInvocation 0 "s" greeting (Memory_CreateSession "s" 0 "agent" ∅).2).2.

(** A session with one invocation is checkpointed, another is added, and the
    checkpoint is restored. *)
Lemma session_checkpoint_witness :
  let m2 := (Memory_AddInvocation 2 "s" greeting (Memory_Checkpoint "c" 1 "s" "" one_session).2).2 in
  (length ∘ se_History) <$> m2 !! "s" = Some 2%nat ∧
  ∃ m3, Memory_RestoreCheckpoint 3 "s" "c" m2 = (None, m3) ∧ (length ∘ se_History) <$> m3 !! "s" = Some 1%nat.
Proof.
  cbv zeta. split; [vm_compute; reflexivity|].
  destruct (one_session !! "s") as [s|] eqn:Hs; [|vm_compute in Hs; discriminate].
  destruct (Memory_Checkpoint "c" 1 "s" "" one_session) as [[err|c] m1'] eqn:Hc; [vm_compute in Hc; discriminate|].
  assert (length (se_History s) = 1%nat) as Hlen by (vm_compute in Hs; injection Hs as <-; reflexivity).
  destruct (session_checkpoint "c" 1 3 "s" "" c one_session m1' (Memory_AddInvocation 2 "s" greeting m1').2 s) as [(m3 & s2 & s3 & Hr & _ & -> & _ & _ & Hh) _].
  - exact Hs.
  - intros H0. rewrite H0 in Hlen. discriminate.
  - vm_compute in Hs. injection Hs as <-. apply not_elem_of_nil.
  - exact Hc.
  - eapply rtc_l; [|apply rtc_refl]. split; [apply ses_add|]. vm_compute in Hc. injection Hc as _ <-. eexists.
    split; [vm_compute; reflexivity|]. rewrite Hlen. vm_compute. lia.
  - eexists. split; [exact Hr|]. rewrite lookup_insert_eq. simpl. by rewrite Hh, Hlen.
Defined.

(** ** Workflows *)

(** Three children finish in another order than theirs; two of them say the same. *)
Lemma parallel_outcome_witness :
  let a : @ParallelAgent unit := NewParallelAgent ["x"; "y"; "z"] (Some VoteAggregation) None false 0 in
  let out v := mkOutputObj (AString v) None None 0 in
  let w : AgentWorld unit := mkAgentWorld ∅ {[7%nat := out "no"; 8%nat := out "yes"; 9%nat := out "yes"]} tt in
  let run := mkParRun [(2%nat, inr (Some 9%nat)); (0%nat, inr (Some 7%nat)); (1%nat, inr (Some 8%nat))] w id FirstTimedOut (AOther 0) in
  ∃ r w', par_Execute (λ _, "") a run = Some (r, w') ∧
    match r with
    | inl err => answers (λ _, "") a (run_completions run) w (inl err)
    | inr l => ∃ o, wd_outputs w' !! l = Some o ∧ answers (λ _, "") a (run_completions run) w (inr (out_Result o))
    end.
Proof.
  intros a out w run.
  destruct (parallel_outcome (λ _, "") a run) as [Hmain _].
  - unfold all_finish. simpl. rewrite (Permutation_app_comm [2%nat] [0%nat; 1%nat]). reflexivity.
  - intros l. reflexivity.
  - intros l Hl. change (outputs_of _ _) with [7%nat; 8%nat; 9%nat] in Hl.
    repeat (apply elem_of_cons in Hl as [->|Hl]; [eexists; vm_compute; reflexivity|]). by apply elem_of_nil in Hl.
  - destruct (Hmain ltac:(discriminate)) as [(r & w' & Hr & _ & Ho) _]. exists r, w'. split; [exact Hr|exact Ho].
Defined.


(** A request has gone to the first of two agents. *)
Lemma in_flight_exact_witness :
  ∃ rq lb, lb_start 0 id balanced_pair = Some (inr rq, lb) ∧
    ∀ i w, agents_of lb !! i = Some w → aw_InFlight w = under_way (lb_array lb, i) [rq].
Proof.
  destruct (lb_start 0 id balanced_pair) as [[[err|rq] lb]|] eqn:Hs; [vm_compute in Hs; discriminate| |vm_compute in Hs; discriminate].
  exists rq, lb. split; [reflexivity|].
  unfold balanced_pair in Hs.
  refine (in_flight_exact RoundRobin _ _ lb [rq] _).
  eapply rtc_l; [|apply rtc_refl]. eapply lb_step_start. exact Hs.
Defined.
