(* ===== verification/RuntimeRuns.v ===== *)
(** * Runs of the runtime's components

    Concrete runs of the asynchronous runtimes, the LLM flows and the services, over
    the session service with its in-memory backend: runs that show faults, and runs
    at which the hypotheses of the theorems hold. *)

From stdpp Require Import base gmap strings list fin_maps relations pretty sorting.
From S2P Require Import Prelude Etcd Artifacts Invocation Streams AsyncRuntime Iterators Plugins LlmFlow LiveSessions SessionService MemoryService.

Open Scope Z_scope.

#[local] Instance map_order : SessionOrder := {| session_order := map_to_list; session_order_perm m := reflexivity (map_to_list m) |}.

Notation Svc0 := (DistributedSessionService InMemorySessionBackend).
Notation World0 := (RtWorld Svc0 (FlowEnv unit)).

Definition service0 : Svc0 := NewDistributedSessionService NewInMemorySessionBackend (mkSessionConfig 2 true 0 0) 100.
Definition env0 : FlowEnv unit := mkFlowEnv new_request (error_response "" "") no_actions None 0 0 tt.
Definition context0 (rc : option RunConfig) : InvocationContext := mkInvocation "s" "i" "u" (Some 0%nat) ∅ [] "p" [] "a" false 0 rc.
Definition world0 (rc : option RunConfig) : World0 := mkRtWorld (context0 rc) {[0%nat := ∅]} service0 None 100 env0.

(** ** Reading what was yielded *)

(** An agent that sets [k] by an event and then reads it. *)
Definition set_k : AsyncEvent := WithPartial true (WithStateDelta (Some {["k" := VInt 1]}) (NewAsyncEvent EventTypeStateChange (AcValue VNil) "a")).
Definition set_then_read : Stream World0 AsyncEvent :=
  SYield set_k (sread (λ w, default VNil (ctx_Get "k" (rw_ctx w) (rw_maps w)))
    (λ v, SYield (NewAsyncEvent EventTypeMessage (AcValue v) "a") SStop)).

(** In the asynchronous runtime the agent may read before the runtime has applied
    its own change. *)
Example async_reads_too_early :
  let cfg := mkRunner false true 10 (λ _, false) in
  ∃ s, rt_reachable cfg set_then_read (world0 None) s ∧
    rt_agent s = Running (SYield (NewAsyncEvent EventTypeMessage (AcValue VNil) "a") SStop) ∧ rt_yielded s = [set_k].
Proof.
  eexists. split; [|split].
  - eapply rtc_l; [apply step_receive|]. eapply rtc_l; [apply step_agent|]. reflexivity.
  - reflexivity.
  - reflexivity.
Qed.

(** ** Metadata and state *)

(** The bookkeeping of a sequential agent is written to the state: a simple agent's
    metadata and its state delta are one map. *)
Example bookkeeping_in_state :
  let simple := mkAsyncAgent "x" (simple_RunAsync "x" (λ w : World0, (inr (VInt 1, Some {["k" := VInt 1]}), w))) in
  state_delta <$> (CollectEvents (seq_RunAsync "seq" 0 [simple]) (world0 None)).1 =
  [∅; {["k" := VInt 1; "sequential_step" := VInt 1; "sequential_agent" := VString "x"]}].
Proof. vm_compute. reflexivity. Qed.

(** ** Steps *)

(** An LLM iterator that answers in its last step says that it reached the maximum,
    too. *)
Example maximum_after_answer :
  let answer : Stream World0 AsyncEvent := SYield (NewAsyncEvent EventTypeMessage (AcValue (VString "done")) "a") SStop in
  ae_Content <$> (CollectIterator (llm_iterator "a" answer 1 [] []) (world0 None)).1 =
  [AcValue (VString "done"); AcValue (VString "Maximum steps reached")].
Proof. vm_compute. reflexivity. Qed.

(** ** The limit of a flow's default configuration *)

Definition tool_request : LlmResponse :=
  mkResponse (Some (mkContent "model" [mkPart "" (Some (mkFunctionCall "1" "search" ∅)) None])) false "" "" true false None.

(** A provider that asks for a tool each time. *)
Definition asking_flow (maxSteps : Z) (default_config : option RunConfig) : @LlmFlow Svc0 unit :=
  mkLlmFlow [] [] [] [] [] (Some (λ w, (inr (SYield tool_request SStop), w))) None "adk_agent_name" maxSteps default_config None [] [].
Definition no_handler (h : nat) (args : gmap string Value) (w : World0) : result Value * World0 := (inr VNil, w).

(** With a limit of one call in the flow's default configuration the provider is
    called in all three steps; with the limit in the invocation's, once. *)
Example default_limit_ignored :
  let one := mkRunConfig StreamingModeNone false 1 in
  fe_calls (rw_env (collect (flow_RunAsync no_handler (asking_flow 3 (Some one))) (world0 None)).2) = 3 ∧
  fe_calls (rw_env (collect (flow_RunAsync no_handler (asking_flow 3 None)) (world0 (Some one))).2) = 1.
Proof. vm_compute. done. Qed.

(** Nor does the invocation's limit hold for a live provider: it is called in all
    three steps. *)
Example live_limit_ignored :
  let one := mkRunConfig StreamingModeNone true 1 in
  let f := mkLlmFlow [] [] [] [] [] None (Some (SYield tool_request SStop)) "adk_agent_name" 3 None None [] [] in
  fe_calls (rw_env (collect (flow_RunAsync no_handler f) (world0 (Some one))).2) = 3.
Proof. vm_compute. reflexivity. Qed.

(** What a plugin makes of a response is not used. *)
Example plugin_answer_dropped :
  let redact : @Plugin World0 :=
    with_callbacks (NewBasePlugin "redact" 1) [] [λ _ w, (inr (Some (error_response "redacted" "")), w)] [] [] [] in
  let pm := (Register redact NewPluginManager).2 in
  let answer := mkResponse (Some (mkContent "model" [mkPart "secret" None None])) false "" "" true false None in
  let f := mkLlmFlow [] [] [] [] [] (Some (λ w, (inr (SYield answer SStop), w))) None "l" 3 None (Some pm) [] [] in
  ae_Content <$> (collect (flow_RunAsync no_handler f) (world0 None)).1 = [AcValue (VString "secret")].
Proof. vm_compute. reflexivity. Qed.

(** An agent's callbacks are appended to its flow by each run. *)
Example callbacks_repeated :
  let a := mkLLMAsyncAgent "a" SStop (Some (asking_flow 1 None)) 1 [λ w, (inr None, w)] [] [] in
  let runs := Nat.iter 3 (λ a, (LLMAsyncAgent_RunAsync no_handler a).2) a in
  length (from_option lf_BeforeModel [] (la_flow runs)) = 3%nat.
Proof. reflexivity. Qed.

(** ** Memories *)

#[local] Instance Z_floats : Floats Z := {|
  f_zero := 0; f_add := Z.add; f_mul := Z.mul; f_div := Z.div; f_sqrt := Z.sqrt; f_eqb := Z.eqb; f_ltb := Z.ltb;
|}.
#[local] Instance Z_floats_order : FloatOrder Z.
Proof. split; simpl; intros *; rewrite ?Z.ltb_lt, ?Z.ltb_ge; lia. Qed.

Definition memory0 (id : string) (v : list Z) : Memory Z := mkMemory id id v (Some {["user_id" := VString "u"]}) 1.
Definition east : Memory Z := memory0 "east" [10; 0].
Definition north : Memory Z := memory0 "north" [0; 10].
Definition im_backend0 : InMemoryMemoryBackend Z := mkMemoryBackend {["east" := east; "north" := north]}.
Definition memories0 : DistributedMemoryService Z (InMemoryMemoryBackend Z) :=
  NewDistributedMemoryService im_backend0 (mkMemoryConfig 2 true 0 2).

(** A query leaves its answers in the index; the next one finds them there and does
    not look for better ones in the backend. *)
Example better_memory_missed :
  match QueryMemories 100 "u" [10; 0] 1 memories0 with
  | Some (inr first, s) =>
      mm_ID <$> first = ["east"] ∧
      match QueryMemories 101 "u" [0; 10] 1 s, QueryMemories 101 "u" [0; 10] 1 memories0 with
      | Some (inr second, _), Some (inr fresh, _) => mm_ID <$> second = ["east"] ∧ mm_ID <$> fresh = ["north"]
      | _, _ => False
      end
  | _ => False
  end.
Proof. vm_compute. done. Qed.

(** ** The theorems applied *)

Definition sync0 : RunnerConfig := mkRunner true true 10 (λ _, false).
Definition message_k : AsyncEvent := WithStateDelta (Some {["k" := VInt 1]}) (NewAsyncEvent EventTypeMessage (AcValue VNil) "a").
Definition one_message : Stream World0 AsyncEvent := SYield message_k SStop.

(** The synchronous runtime has processed the event of an agent. *)
Lemma one_message_processed : ∃ s, rt_reachable sync0 one_message (world0 None) s ∧ rt_runner s = Processed (set_InvocationID "i" message_k) None.
Proof.
  eexists. split.
  - eapply rtc_l; [apply step_receive|]. eapply rtc_l; [apply (step_log _ _ _ [("k", VInt 1)]); reflexivity|].
    eapply rtc_l; [apply step_set|]. eapply rtc_l; [apply step_set_done|]. eapply rtc_l; [apply step_commit|].
    eapply rtc_l; [apply step_persist|]. reflexivity.
  - vm_compute. reflexivity.
Qed.

Lemma sync_yield_witness :
  ∃ s, rt_reachable sync0 one_message (world0 None) s ∧
    committed (rw_ctx (rt_world s)) (rw_maps (rt_world s)) !! "k" = Some (VInt 1).
Proof.
  destruct one_message_processed as (s & Hrun & Hpc). exists s. split; [exact Hrun|].
  destruct (sync_yield sync0 one_message (world0 None) s _ _ eq_refl Hrun Hpc) as (_ & _ & _ & Hc).
  destruct (Hc eq_refl) as [_ Hk]. exact (Hk "k" eq_refl).
Defined.

Lemma events_in_order_witness :
  ∃ s, rt_reachable sync0 one_message (world0 None) s ∧ unnamed <$> rt_log s = last_n 10 (unnamed <$> rt_yielded s).
Proof.
  destruct one_message_processed as (s & Hrun & Hpc). exists s. split; [exact Hrun|].
  pose proof (events_in_order sync0 one_message (world0 None) s ltac:(vm_compute; discriminate) Hrun) as [_ _ Hl]. by rewrite Hpc in Hl.
Defined.

Definition two_calls : RunConfig := mkRunConfig StreamingModeNone false 2.

Lemma asking_flow_quiet n d : flow_quiet no_handler (asking_flow n d).
Proof.
  constructor; simpl; try (by intros ? ?%elem_of_nil); try done.
  intros generate [= <-] w. split; [done|]. intros s [= <-]. repeat constructor.
Qed.

(** The flow that asks for a tool each time, with a limit of two calls, has called
    its provider in the synchronous runtime. *)
Lemma asking_flow_called :
  ∃ s, rt_reachable sync0 (flow_RunAsync no_handler (asking_flow 3 None)) (world0 (Some two_calls)) s ∧ fe_calls (rw_env (rt_world s)) = 1.
Proof.
  eexists. split.
  - do 7 (eapply rtc_l; [apply step_agent|]). apply rtc_refl.
  - vm_compute. reflexivity.
Qed.

Lemma model_calls_bounded_witness :
  ∃ s, rt_reachable sync0 (flow_RunAsync no_handler (asking_flow 3 None)) (world0 (Some two_calls)) s ∧
    fe_calls (rw_env (rt_world s)) = 1 ∧ fe_calls (rw_env (rt_world s)) ≤ 2.
Proof.
  destruct asking_flow_called as (s & Hrun & Hc). exists s. split; [exact Hrun|]. split; [exact Hc|].
  exact (model_calls_bounded no_handler (asking_flow 3 None) sync0 (world0 (Some two_calls)) s two_calls
    (asking_flow_quiet 3 None) eq_refl eq_refl (or_introl eq_refl) eq_refl eq_refl Hrun).
Defined.

(** A manager with the authorization plugin, which allows nothing. *)
Definition guarded : @PluginManager World0 := (Register (NewAuthorizationPlugin (λ _, ∅) true) NewPluginManager).2.
Definition guarded_flow : @LlmFlow Svc0 unit :=
  mkLlmFlow [] [] [] [] [] None None "l" 3 None (Some guarded) [] [].
Definition with_search (w : World0) : World0 :=
  put_req (mkRequest [] "" [] {["search" := mkToolDefinition "search" "" (Some 0%nat)]} None ∅) w.

Lemma unauthorized_not_executed_witness :
  let call := mkFunctionCall "1" "search" ∅ in
  call_tool no_handler guarded_flow call (with_search (world0 None)) =
  call_tool (λ _ _ w, (inr (VInt 1), on_queue (λ _, None) w)) guarded_flow call (with_search (world0 None)).
Proof.
  cbv zeta. refine (proj1 (unauthorized_not_executed guarded_flow guarded (NewAuthorizationPlugin (λ _, ∅) true) (λ _, ∅) true
    (mkFunctionCall "1" "search" ∅) (with_search (world0 None)) eq_refl _ eq_refl _ _ _ _)).
  - vm_compute. left.
  - reflexivity.
  - by eexists.
Defined.

Definition session0 : RtSession := mkRtSession "s" "u" (Some 0%nat) [] 0 0.

(** The session a call of [GetSession] hands out, and the backend's. *)
Definition seen (id : string) (s : Svc0) : option RtSession :=
  match GetSession id s with (inr l, s) => ds_objects s !! l | (inl _, _) => None end.
Definition stored (id : string) (s : Svc0) : option RtSession := mb_sessions (ds_backend s) !! id.

Definition saved0 : Svc0 := default service0 (snd <$> save_new session0 service0).

Lemma saved0_run : save_new session0 service0 = Some (None, saved0).
Proof. vm_compute. reflexivity. Qed.

Lemma session_service_coherent_witness :
  ∃ l s saved, GetSession "s" saved0 = (inr l, s) ∧ ds_objects s !! l = Some saved ∧ same_session session0 saved.
Proof.
  destruct (session_service_coherent NewInMemorySessionBackend (mkSessionConfig 2 true 0 0) 100) as [Hserial _].
  { intros id session. simpl. rewrite lookup_empty. discriminate. }
  destruct (Hserial service0 (rtc_refl _ _)) as [_ Hsave].
  destruct (Hsave session0 None saved0) as [H _]; [discriminate|apply saved0_run|exact H].
Defined.

(** A client that writes to the session it got changes what the next client gets,
    while the backend keeps the old one; when the cache is emptied, the write is
    gone. *)
Definition renamed : RtSession := mkRtSession "s" "someone else" (rs_State session0) [] 0 0.
Definition written : Svc0 :=
  match GetSession "s" saved0 with
  | (inr l, s) => put_objects (<[l := renamed]> (ds_objects s)) s
  | (inl _, s) => s
  end.

Example cached_session_is_shared :
  rs_UserID <$> seen "s" written = Some "someone else" ∧
  rs_UserID <$> stored "s" written = Some (rs_UserID session0) ∧
  rs_UserID <$> seen "s" (InvalidateCache "s" written) = Some (rs_UserID session0).
Proof. split_and!; vm_compute; reflexivity. Qed.

(** A saved session is cached without the times the backend gives it. *)
Example cached_session_has_old_times :
  rs_UpdatedAt <$> seen "s" saved0 = Some (rs_UpdatedAt session0) ∧
  rs_UpdatedAt <$> seen "s" (InvalidateCache "s" saved0) = Some 100.
Proof. split_and!; vm_compute; reflexivity. Qed.

(** A call that has loaded a session, and caches it after another call has saved a
    new one: the old session is served until it expires. *)
Definition emptied : Svc0 := InvalidateCache "s" saved0.
Definition loaded : result sloc * Svc0 := get_load "s" emptied.
Definition raced : Svc0 :=
  match loaded with
  | (inr l, s) =>
      match save_new renamed s with
      | Some (_, s) => cache_after (session_partition "s" emptied) l s
      | None => s
      end
  | (inl _, s) => s
  end.

Example stale_session_cached :
  rs_UserID <$> stored "s" raced = Some "someone else" ∧
  rs_UserID <$> seen "s" raced = Some (rs_UserID session0).
Proof. split_and!; vm_compute; reflexivity. Qed.

Lemma memory_query_witness :
  ∃ r s', QueryMemories 100 "u" [10; 0] 1 memories0 = Some (inr r, s') ∧ Forall (λ m, default "" (memory_user m) = "u") r.
Proof.
  pose proof (memory_query (F:=Z) (B:=InMemoryMemoryBackend Z) None (im_backend0) (mkMemoryConfig 2 true 0 2) memories0 100 "u" [10; 0] 1) as Hq.
  destruct Hq as (_ & r & s' & Hq & Hr); [apply rtc_refl|lia|reflexivity|].
  destruct r as [err|r]; [discriminate Hr|]. destruct Hr as (_ & Hu & _). exists r, s'. split; [exact Hq|exact Hu].
Defined.

Lemma rate_limit_window_witness : Z.of_nat (length (calls_in 3 (admitted_calls 2 [1; 2; 3] []))) ≤ 2.
Proof. apply (rate_limit_window 2 [1; 2; 3] 3); [lia|repeat constructor; lia]. Defined.
